(* ===== verification/_CoqProject ===== *)
-Q . S2P
Prelude.v
StateLogic.v
GoStrings.v
GoText.v
Utf8Facts.v
GoHttp.v
NetIP.v
RemoteSSE.v
SSEFacts.v
Base64.v
Json.v
JsonFacts.v
JsonCodec.v
GoTime.v
Primitives.v
FileCreate.v
Process.v
ProcessFacts.v
Operation.v
TextFacts.v
Output.v
Handler.v
SkillUse.v
Shell.v
ShellFacts.v
ShellRun.v
ShellCapture.v
ViewImage.v
ViewImageCompute.v
ViewImageFacts.v
Remote.v
RemoteFacts.v
ResponsesRetry.v
ResponsesStream.v
ResponsesExchange.v
ResponsesFacts.v
RemoteJob.v
LocalManager.v
LocalManagerFacts.v
ManagerRun.v
Llm.v
ResponsesCodec.v
ResponsesReplay.v
Clients.v
Inbox.v
RunInputs.v
Tool.v
Registry.v
RegistryFacts.v
SkillTool.v
BashTool.v
Approvals.v
GuiConfig.v
ViewImageTool.v
ContextBuilder.v
SessionStore.v
Coordinator.v
CoordinatorSamples.v
CoordinatorFacts.v
CoordinatorLoop.v
CoordinatorTrace.v
CoordinatorReplay.v
LocalState.v
LocalCodec.v
LocalStore.v
LocalStateFacts.v
SessionRecovery.v
GuiRun.v
Chat.v
Documents.v
DocumentText.v
DocumentFacts.v
HtmlText.v
GuiServer.v
DotEnv.v
GuiApp.v
GuiHandlers.v
RunnerRequest.v
Runner.v
RunnerFacts.v
