(* ===== verification/Prelude.v ===== *)
(** * A verification library for the Unreal Agent harness

    The harness (src/harness) runs an agent on a session: a coordinator reads
    inputs from an inbox, asks a model, turns the tool calls of its answers
    into operations, has a manager run them, stores everything that happened
    in a session store, and continues after a crash from what is stored.  Two
    programs use it: the agent runner (src/cmd), which serves one request and
    ends, and the desktop application (src/gui), a local server whose chats
    run a coordinator each and whose gate holds commands until the user lets
    them through.  This library models all three in Rocq and proves what makes
    them correct.  A file models one Go file or the part of one that the
    comment at its top names; definitions keep the names of the Go functions.

    ** Layout

    Foundations.  [Prelude]: Go errors, results with a panic outcome, the
    state-and-error monad [M] (changes made before a failure stay), machine
    integers, automation.  [StateLogic]: weakest preconditions for [M].
    [GoStrings], [GoText], [GoTime], [Utf8Facts], [Base64]: what the program
    uses of Go's texts.  [Json], [JsonFacts], [JsonCodec]: JSON trees, the
    printer and parser of encoding/json, and codecs with their round-trip
    laws.  [TextFacts]: texts that encode.

    Operations (src/harness/primitives, src/harness/operation).
    [Primitives]: the goroutines that read files, wait and compute, as the
    events they send for what the operating system answers.  [FileCreate]: the
    creation of files and directories, a program over a kernel with other
    processes, signals and crashes.  [Process]: the run of a program, from its
    pipes to the end of its process group, and [ProcessFacts] what every such
    run leaves and reports.  [Operation]:
    durable operations, steps and the value operation.  [Output]: bounded
    output.  [Handler]: the contract of an operation with its manager, a class
    with laws.  [SkillUse], [Shell], [ViewImage], [ViewImageCompute],
    [RemoteJob]: the operations as state machines over events; [ShellFacts],
    [ShellRun], [ShellCapture] and [ViewImageFacts] hold their invariants and
    runs.  [LocalManager]: the manager's goroutine as a step function over the
    inputs of its select; [LocalManagerFacts] and [ManagerRun] its invariant
    over every run.

    The network (src/harness/primitives, src/harness/llm/responsesapi).
    [GoHttp]: headers, status texts and the error chains of an HTTP client.
    [RemoteSSE]: the framer of server-sent events and the data of an event;
    [SSEFacts]: its equivalence with a reader of one byte at a time.
    [Remote]: remote.go, a request with its attempts as a monad that records
    its actions; [RemoteFacts]: the shape of every such record.
    [ResponsesRetry], [ResponsesStream], [ResponsesExchange],
    [ResponsesCodec]: the adapter of the responses API, from the items of a
    conversation to the body of a request and from the stream of events to the
    items of a response; [ResponsesFacts] and [ResponsesReplay]: its theorems.

    Conversation and storage.  [Llm], [Inbox], [SessionStore]: the records
    that are exchanged and stored, with their encoding, and the inbox.
    [LocalState], [LocalCodec], [LocalStore]: the file store
    (src/harness/sessionstore/localfile): session state, log format, store
    with cache and failures; [LocalStateFacts] the invariant of sessions.

    The agent.  [Tool]: the contract of a tool's translator with the
    coordinator, a class with laws; [Registry] and [RegistryFacts] (skills),
    [SkillTool], [BashTool], [ViewImageTool]: its instances.
    [ContextBuilder]: the requests, and the law the coordinator needs of a
    builder.  [Coordinator]: coordinator/loop.go as a step function
    [run_round] over what its select receives, with the store, the manager,
    the inbox and the order in which maps are walked as oracles of an
    [environment], and everything the loop does outside in a [trace].
    [CoordinatorFacts]: rules that take the handlers apart once for all
    invariants; [CoordinatorLoop], [CoordinatorTrace], [CoordinatorReplay]:
    the theorems; [SessionRecovery]: the coordinator on the local store.
    [CoordinatorSamples] is a session that the witnesses evaluate.

    The agent runner (src/cmd/internal/agentrunner).  [NetIP]: hosts, ports
    and addresses as net and net/netip read them.  [Clients]: the five
    provider clients (src/harness/llm/clients) over a network and a file
    system, with the credentials of codex, and the table of providers.
    [RunInputs]: the messages and the inbox that both programs give a
    coordinator.  [DotEnv]: the variables of a .env file and taking them back.
    [RunnerRequest]: reading and checking a request, and the choices of model,
    key and tools.  [Runner]: the whole of [Run] over a world of answers, its
    deferred calls nested as Go nests them, and the observer that writes what
    is stored; [RunnerFacts]: its theorems.

    The desktop application (src/gui).  [Approvals]: the gate between a
    coordinator and the manager, whose calls, goroutines and channel are steps
    in any order.  [GuiConfig]: providers, keys, models, updates and what the
    browser is shown.  [GuiRun]: the preparation of a run.  [Chat]: a chat
    with its cached items, its subscribers and its run as a state machine.
    [GuiApp]: the files written as a whole, with that of the configuration,
    the start, the list of sessions, the exported variables, and the
    handlers' locked parts as steps in any order; [GuiHandlers]: the handlers
    that act on it, from a request to its answer, and the listing, sending and
    uploading of files.  [GuiServer]: the guard of all requests, the event
    stream, messages, titles and uploads.  [Documents], [DocumentText], [DocumentFacts]: pages of
    a text and the texts of office documents; [HtmlText]: the
    text of a web page.

    ** What is shown

    The manager panics on no input but one, an update of a remote handler
    that carries the identifier of a running local operation, and reports each
    end of an operation once ([manager_safe], [manager_reports_once],
    [manager_stops_idle]); the
    operations never panic, keep well-formed durable states, resume from any
    checkpoint and complete with the right result ([shell_handle_safe],
    [shell_checkpoint_restores], [shell_resume], [shell_completes],
    [skill_use_reads_file], [view_image_handle_safe], [remote_job_history]); an
    image is scaled to its limits in the arithmetic of float64
    ([prepared_image_bounded]); output is cut at runes and two windows suffice
    ([boundOutput_windows]); the inbox delivers each input
    once and in order; stored histories are well formed, rejected updates
    change nothing, resume and fork are exact; encodings round-trip.  For the
    primitives: a created path is durable and no descriptor is left
    ([created_path_durable]); a process run that a call of the system does not
    block for ever closes what it opened, ends the whole group, and reports
    outputs and exit ([process_leaves_nothing], [process_exit_reported]).  For the
    network: a request sends one terminal event, last, and bounded attempts
    with the backoff between them ([remote_request_protocol],
    [remote_request_outcome]); frames are the events of the wire however it is
    cut into reads ([sse_events_recovered], [sse_passthrough_lossless]); a
    streamed answer is returned ([streamed_answer]), retries are bounded and
    wait for bounded delays ([exchange_retries], [retry_delay_bounds]), and
    what a provider answers can be replayed to it ([replayed_item]).  For the
    tools: whatever checkpoint an operation makes, its tool can report it.
    For the coordinator: what it holds is a function of what it stored
    ([crash_recovery], [takeover_resumes]), nothing is started before it is on
    record ([recorded_before_started]), no wake-up is lost
    ([no_lost_wakeup]), a hard stop cancels everything and starts nothing
    ([hard_stop_cancels_all], [hard_stop_quiet]), the loop ends only when told
    ([return_means_stopped]) and each request repeats the one before it
    ([requests_extend]).

    For the agent runner: whatever fails, a run takes back what it opened, in
    the reverse order ([run_unwinds]), and the variables it set
    ([environment_restored]); the coordinator it starts is the one the request
    asks for ([coordinator_serves_request]); the observer writes the stored
    items in order and nothing after a failure ([observed_in_order]); the
    credentials of codex leave only for the hosts they are for
    ([codex_credentials_confined]).

    For the desktop application: no command starts that was not let through
    and each held command ends once, and only the end of a run drops an update
    of the manager ([approval_required], [held_commands_conserved]); a run is prepared in full or not at all
    ([run_prepared_or_nothing]), a chat has one at most ([one_run_at_a_time]),
    keeps every message until it is stored once
    ([messages_kept_and_stored_once]) and shows every item to every browser
    ([subscribers_miss_nothing], [event_stream_read]); a restart finds the
    configuration and the sessions ([restart_finds_the_application]), the
    answer to a message tells what became of it ([message_answered]), an
    update is taken as a whole ([configuration_applied]) and the browser sees
    no secret ([view_hides_secrets]); only a local browser with the token is
    served ([requests_guarded]), the path of a request stays in the workspace
    ([relative_path_inside]) and an upload changes no file that is there
    ([uploads_never_overwrite]); the readers of documents lose no text
    ([visible_text_kept], [text_read_in_pages],
    [worksheet_cells_in_columns]).

    ** Conventions and bounds

    An [int] or [uint64] is a [Z]; where it can wrap the wrap is written out.
    Counters that count the items of a session in memory are integers without
    a bound.  Go maps are [gmap]s, and a walk of a map is a permutation the
    environment chooses.  A panic is an outcome, so absence of panics is a
    theorem.  Wait and the reads of a pipe may never return: then a process run
    is blocked, an outcome too.  Where a loop is not structural it has fuel, and enough of it:
    [loadHistory] one unit per page ([history_replayed_exactly]: a unit for
    every 256 items suffices), the manager's nested steps one per level
    ([manager_safe]), the framer and the parsers of texts one per byte, the
    attempts of a request one per attempt ([remote_request_protocol],
    [exchange_retries]), a reader of pages one per [limit - 3] bytes of the
    text ([text_read_in_pages]), the letters of a column and the groups of an
    address as many as the code bounds them by, and the names of an upload the
    thousand that the code tries.  Other loops are structural over their inputs or over
    event lists.

    ** Not modelled

    The parser of flags and the text of the usage; of the desktop application
    the windows and the listener, the commands that search and fetch the web,
    the PDF reader, the catalog of a provider's models with its prices in
    floating point, and handlers that only pass values on.  The runner takes
    what the coordinator stores, the subject of [Coordinator], from its world.
    The HTTP client, TLS, and the parsers of URLs, media types, HTML, XML, zip
    archives and UUIDs are parameters.  Goroutines are not interleaved instruction by instruction:
    each owns its state and receives one message at a time, so a schedule is a
    list of messages.  Contexts of single requests, the grace and heartbeat
    durations and pixels of images are outside the model.  Of the types generated
    from the OpenAPI description (internal/openaiapi) the members that the
    adapter reads and writes are modelled. *)

From Stdlib Require Import Ascii ZArith Lia.
From stdpp Require Export base tactics option list numbers strings gmap sets pretty.

(** ** Errors

    A Go [error] is its text together with the sentinels that [errors.Is]
    finds in its chain: [fmt.Errorf] with the verb %w keeps them, without it
    it starts a new chain. *)

Inductive sentinel : Set :=
  | ErrUnsupported      (* operation.ErrUnsupported *)
  | ErrExist            (* fs.ErrExist *)
  | ErrNotExist         (* fs.ErrNotExist *)
  | ErrCanceled         (* context.Canceled and other context causes *)
  | ErrProcessDone      (* os.ErrProcessDone *)
  | ErrHelp             (* flag.ErrHelp *)
  | EPERM               (* syscall.EPERM *)
  | ESRCH.              (* syscall.ESRCH *)

Record error : Set := MkError { Error : string; Is : list sentinel }.

#[export] Instance sentinel_eq_dec : EqDecision sentinel.
Proof. solve_decision. Defined.

#[export] Instance error_eq_dec : EqDecision error.
Proof. solve_decision. Defined.

Definition errors_New (text : string) : error := MkError text [].

(** [fmt.Errorf(prefix + "%w", err)] *)
Definition Errorf_w (prefix : string) (err : error) : error :=
  MkError (prefix +:+ Error err) (Is err).

Definition sentinel_text (s : sentinel) : string :=
  match s with
  | ErrUnsupported => "unsupported operation"
  | ErrExist => "file already exists"
  | ErrNotExist => "file does not exist"
  | ErrCanceled => "context canceled"
  | ErrProcessDone => "os: process already finished"
  | ErrHelp => "flag: help requested"
  | EPERM => "operation not permitted"
  | ESRCH => "no such process"
  end.

Definition sentinel_error (s : sentinel) : error := MkError (sentinel_text s) [s].

Definition errors_Is (err : error) (s : sentinel) : bool := bool_decide (s ∈ Is err).

(** [errors.Join] of two errors that are both set. *)
Definition errors_Join (e1 e2 : error) : error :=
  MkError (Error e1 +:+ String "010" (Error e2)) (Is e1 ++ Is e2).

(** ** Results

    A Go function that returns [(T, error)] returns [Ok] of the value or
    [Err] of the error, or does not return: [Panic] unwinds its callers. *)

Inductive result (A : Type) : Type :=
  | Ok (a : A)
  | Err (e : error)
  | Panic (text : string).
Arguments Ok {A} a.
Arguments Err {A} e.
Arguments Panic {A} text.

Definition is_ok {A} (r : result A) : bool :=
  match r with Ok _ => true | _ => false end.

#[export] Instance result_ret : MRet result := λ A a, Ok a.
#[export] Instance result_bind : MBind result := λ A B f r,
  match r with Ok a => f a | Err e => Err e | Panic t => Panic t end.
#[export] Instance result_fmap : FMap result := λ A B f r,
  match r with Ok a => Ok (f a) | Err e => Err e | Panic t => Panic t end.

(** The error is wrapped, the value passes: [if err != nil { return wrap(err) }]. *)
Definition map_err {A} (wrap : error → error) (r : result A) : result A :=
  match r with Ok a => Ok a | Err e => Err (wrap e) | Panic t => Panic t end.

(** [if cond { return err }] *)
Definition guard_err (cond : bool) (err : error) : result unit :=
  if cond then Err err else Ok tt.

(** ** State and errors

    A Go method that mutates its receiver and returns an error: the receiver
    keeps the mutations made before an error. *)

Definition M (S A : Type) : Type := S → S * result A.

#[export] Instance M_ret {S} : MRet (M S) := λ A a s, (s, Ok a).
#[export] Instance M_bind {S} : MBind (M S) := λ A B f m s,
  match m s with
  | (s', Ok a) => f a s'
  | (s', Err e) => (s', Err e)
  | (s', Panic t) => (s', Panic t)
  end.

Definition gets {S A} (f : S → A) : M S A := λ s, (s, Ok (f s)).
Definition self {S} : M S S := λ s, (s, Ok s).
Definition modify {S} (f : S → S) : M S unit := λ s, (f s, Ok tt).
Definition fail {S A} (e : error) : M S A := λ s, (s, Err e).
Definition lift {S A} (r : result A) : M S A := λ s, (s, r).

(** [for _, x := range xs { if err := f(x); err != nil { return err } }] *)
Fixpoint for_each {S A} (f : A → M S unit) (xs : list A) : M S unit :=
  match xs with
  | [] => mret tt
  | x :: xs => f x ≫= λ _, for_each f xs
  end.

(** ** Machine integers *)

Definition in_int64 (z : Z) : bool := (- 2 ^ 63 <=? z)%Z && (z <? 2 ^ 63)%Z.
Definition in_uint64 (z : Z) : bool := (0 <=? z)%Z && (z <? 2 ^ 64)%Z.
Definition in_uint32 (z : Z) : bool := (0 <=? z)%Z && (z <? 2 ^ 32)%Z.
Definition wrap_uint64 (z : Z) : Z := (z mod 2 ^ 64)%Z.
Definition wrap_int64 (z : Z) : Z := ((z + 2 ^ 63) mod 2 ^ 64 - 2 ^ 63)%Z.

Lemma wrap_int64_range z : in_int64 (wrap_int64 z) = true.
Proof.
  unfold in_int64, wrap_int64. pose proof (Z.mod_pos_bound (z + 2 ^ 63) (2 ^ 64) eq_refl). lia.
Qed.

Lemma wrap_int64_small z : in_int64 z = true → wrap_int64 z = z.
Proof. unfold in_int64, wrap_int64. intros H. rewrite Z.mod_small; lia. Qed.

Lemma wrap_uint64_small z : (0 ≤ z < 2 ^ 64)%Z → wrap_uint64 z = z.
Proof. apply Z.mod_small. Qed.

(** ** Tactics *)

(** Case analysis on the scrutinee of a match or an if in the goal or in a
    hypothesis, keeping the equation, until none is left. *)
Ltac case_in H :=
  match type of H with
  | context [match ?x with _ => _ end] => destruct x eqn:?; simplify_eq/=
  end.

Ltac cases_in H := repeat case_in H.

Ltac go_cases :=
  repeat (case_match; simplify_eq/=).

(** Splits the outermost [if] of a hypothesis or of the goal. *)
Ltac split_if b :=
  lazymatch b with
  | bool_decide ?P => let H := fresh "Hif" in destruct (bool_decide_reflect P) as [H|H]
  | negb ?c => split_if c
  | (?x =? ?y)%Z => let H := fresh "Hif" in destruct (Z.eqb_spec x y) as [H|H]
  | (?x <=? ?y)%Z => let H := fresh "Hif" in destruct (Z.leb_spec x y) as [H|H]
  | (?x <? ?y)%Z => let H := fresh "Hif" in destruct (Z.ltb_spec x y) as [H|H]
  | _ => let H := fresh "Hif" in destruct b eqn:H
  end; cbn [negb] in *.

Ltac if_in H :=
  lazymatch type of H with
  | (if ?b then _ else _) = _ => split_if b
  | ((if ?b then _ else _) _) = _ => split_if b
  end.

Ltac if_goal :=
  match goal with
  | |- context [if ?b then _ else _] => split_if b
  end.

Create HintDb go discriminated.

Lemma bind_ok {A B} (r : result A) (f : A → result B) b :
  r ≫= f = Ok b ↔ ∃ a, r = Ok a ∧ f a = Ok b.
Proof. destruct r; naive_solver. Qed.

Lemma bind_err {A B} (r : result A) (f : A → result B) e :
  r ≫= f = Err e ↔ r = Err e ∨ ∃ a, r = Ok a ∧ f a = Err e.
Proof. destruct r; naive_solver. Qed.

Lemma map_err_ok {A} w (r : result A) a : map_err w r = Ok a ↔ r = Ok a.
Proof. destruct r; naive_solver. Qed.

Lemma guard_err_ok cond err u : guard_err cond err = Ok u ↔ cond = false.
Proof. destruct cond, u; naive_solver. Qed.

Lemma M_bind_ok {S A B} (m : M S A) (f : A → M S B) s s' b :
  (m ≫= f) s = (s', Ok b) ↔ ∃ a s1, m s = (s1, Ok a) ∧ f a s1 = (s', Ok b).
Proof. unfold mbind, M_bind. destruct (m s) as [s1 [a|e|t]]; naive_solver. Qed.

Lemma M_modify {S B} (f : S → S) (k : unit → M S B) s : (modify f ≫= k) s = k tt (f s).
Proof. done. Qed.
Lemma M_gets {S A B} (f : S → A) (k : A → M S B) s : (gets f ≫= k) s = k (f s) s.
Proof. done. Qed.
Lemma M_self {S B} (k : S → M S B) s : (self ≫= k) s = k s s.
Proof. done. Qed.
Lemma M_ret_bind {S A B} (a : A) (k : A → M S B) s : (mret a ≫= k) s = k a s.
Proof. done. Qed.
Lemma M_lift_ok {S A B} (a : A) (k : A → M S B) s : (lift (Ok a) ≫= k) s = k a s.
Proof. done. Qed.
Lemma M_lift_err {S A B} (e : error) (k : A → M S B) s : (lift (Err e) ≫= k) s = (s, Err e).
Proof. done. Qed.

Create Rewrite HintDb M.
#[export] Hint Rewrite @M_modify @M_gets @M_self @M_ret_bind @M_lift_ok @M_lift_err : M.

(** The function returns: it does not panic. *)
Definition returns {A} (r : result A) : bool :=
  match r with Panic _ => false | _ => true end.

Lemma returns_bind {A B} (r : result A) (f : A → result B) :
  returns r = true → (∀ a, r = Ok a → returns (f a) = true) → returns (r ≫= f) = true.
Proof. destruct r; simpl; auto. Qed.

Lemma returns_map_err {A} w (r : result A) : returns r = true → returns (map_err w r) = true.
Proof. by destruct r. Qed.

Lemma returns_guard_err cond err : returns (guard_err cond err) = true.
Proof. by destruct cond. Qed.

Lemma returns_not_panic {A} (r : result A) t : returns r = true → r ≠ Panic t.
Proof. by destruct r. Qed.

Create HintDb returns discriminated.
#[export] Hint Resolve returns_map_err returns_guard_err : returns.

(** Proves that a function returns from the same fact of its calls. *)
Ltac go_returns :=
  repeat first
    [ reflexivity
    | progress auto with returns nocore
    | apply returns_bind; [|intros ? ?]
    | apply returns_map_err
    | progress cbv zeta beta
    | match goal with
      | |- returns (match ?x with _ => _ end) = true => destruct x eqn:?
      end ].

(** An invariant of every call of a loop body is an invariant of the loop. *)
Lemma for_each_inv {S A} (I : S → Prop) (f : A → M S unit) xs s :
  (∀ x s, x ∈ xs → I s → I (fst (f x s))) → I s → I (fst (for_each f xs s)).
Proof.
  revert s. induction xs as [|x xs IH]; intros s Hf Hs; [done|].
  simpl. unfold mbind, M_bind.
  pose proof (Hf x s ltac:(set_solver) Hs) as Hx.
  destruct (f x s) as [s' [u|e|t]]; simpl in *; [|done|done].
  apply IH; [set_solver|done].
Qed.

(** A loop whose body succeeds and keeps an invariant succeeds and keeps it. *)
Lemma for_each_runs {S A} (I : S → Prop) (f : A → M S unit) xs s :
  (∀ x s, x ∈ xs → I s → ∃ s', f x s = (s', Ok tt) ∧ I s') → I s →
  ∃ s', for_each f xs s = (s', Ok tt) ∧ I s'.
Proof.
  revert s. induction xs as [|x xs IH]; intros s Hf Hs; [by exists s|].
  destruct (Hf x s ltac:(set_solver) Hs) as (s1 & Hx & Hs1). simpl.
  unfold mbind, M_bind. rewrite Hx. apply IH; [set_solver|done].
Qed.

(** ** Lists *)

Lemma forallb_Forall {A} (f : A → bool) l :
  forallb f l = true ↔ Forall (λ x, f x = true) l.
Proof.
  induction l as [|x l IH]; simpl; [by split|].
  rewrite andb_true_iff, IH, Forall_cons. done.
Qed.

Create Rewrite HintDb go_ok.
#[export] Hint Rewrite @bind_ok @map_err_ok guard_err_ok @M_bind_ok : go_ok.

