(* ===== verification/StateLogic.v ===== *)
(** * Weakest preconditions for methods that change a state and can fail

    [wp m Q E s]: when [m] is called in [s] and returns a value, [Q] holds of
    the value and the state; when it fails or panics, [E] holds of the state.
    The rules take a method apart as it is written. *)

From S2P Require Import Prelude.

Definition wp {S A} (m : M S A) (Q : A → S → Prop) (E : S → Prop) (s : S) : Prop :=
  match m s with
  | (s', Ok a) => Q a s'
  | (s', _) => E s'
  end.

Section Rules.
Context {S : Type}.
Implicit Types (s : S) (E : S → Prop).

Lemma wp_ok {A} (m : M S A) Q E s s' a : wp m Q E s → m s = (s', Ok a) → Q a s'.
Proof. unfold wp. intros H Hm. by rewrite Hm in H. Qed.

Lemma wp_mono {A} (m : M S A) (Q Q' : A → S → Prop) E E' s :
  wp m Q E s → (∀ a s', Q a s' → Q' a s') → (∀ s', E s' → E' s') → wp m Q' E' s.
Proof. unfold wp. destruct (m s) as [s' [a|e|t]]; auto. Qed.

Lemma wp_and {A} (m : M S A) (Q Q' : A → S → Prop) E E' s :
  wp m Q E s → wp m Q' E' s → wp m (λ a s', Q a s' ∧ Q' a s') (λ s', E s' ∧ E' s') s.
Proof. unfold wp. by destruct (m s) as [s' [a|e|t]]. Qed.

Lemma wp_bind {A T} (m : M S A) (f : A → M S T) Q E s :
  wp m (λ a s', wp (f a) Q E s') E s → wp (m ≫= f) Q E s.
Proof. unfold wp, mbind, M_bind. by destruct (m s) as [s' [a|e|t]]. Qed.

Lemma wp_bind_assoc {A T U} (m : M S A) (f : A → M S T) (g : T → M S U) Q E s :
  wp (m ≫= f) (λ b s', wp (g b) Q E s') E s → wp (m ≫= λ a, f a ≫= g) Q E s.
Proof.
  unfold wp, mbind, M_bind. destruct (m s) as [s' [a|e|t]]; [|done..].
  by destruct (f a s') as [s2 [b|e|t]].
Qed.

Lemma wp_ret {A} (a : A) (Q : A → S → Prop) E s : Q a s → wp (mret a) Q E s.
Proof. done. Qed.

Lemma wp_self (Q : S → S → Prop) E s : Q s s → wp self Q E s.
Proof. done. Qed.

Lemma wp_gets {A} (f : S → A) (Q : A → S → Prop) E s : Q (f s) s → wp (gets f) Q E s.
Proof. done. Qed.

Lemma wp_modify (f : S → S) (Q : unit → S → Prop) E s : Q tt (f s) → wp (modify f) Q E s.
Proof. done. Qed.

Lemma wp_fail {A} e (Q : A → S → Prop) E s : E s → wp (fail e) Q E s.
Proof. done. Qed.

Lemma wp_lift {A} (r : result A) (Q : A → S → Prop) E s :
  (∀ a, r = Ok a → Q a s) → E s → wp (lift r) Q E s.
Proof. intros Hq He. unfold wp, lift. destruct r; auto. Qed.

(** A loop keeps an invariant that each round keeps. *)
Lemma wp_for_each {A} (f : A → M S unit) (I : S → Prop) E xs s :
  I s → (∀ x s', x ∈ xs → I s' → wp (f x) (λ _, I) E s') → wp (for_each f xs) (λ _, I) E s.
Proof.
  revert s. induction xs as [|x xs IH]; intros s Hs Hf; [exact Hs|]. simpl.
  apply wp_bind. eapply wp_mono; [apply Hf; [apply elem_of_cons; by left|done]| |done].
  intros [] s' Hs'. apply IH; [done|]. intros y s1 Hy Hs1. apply Hf; [by apply elem_of_cons; right|done].
Qed.

(** The same, with the elements done and to do. *)
Lemma wp_for_each_list {A} (f : A → M S unit) (I : list A → S → Prop) E xs s :
  I [] s → (∀ before x rest s', xs = before ++ x :: rest → I before s' →
            wp (f x) (λ _, I (before ++ [x])) E s') →
  wp (for_each f xs) (λ _, I xs) E s.
Proof.
  intros Hs Hf.
  assert (∀ ys before s, xs = before ++ ys → I before s →
            wp (for_each f ys) (λ _, I (before ++ ys)) E s) as H; [|by apply (H xs [] s)].
  induction ys as [|y ys IH]; intros before s1 Hxs H1.
  - unfold wp. simpl. by rewrite app_nil_r.
  - simpl. apply wp_bind. eapply wp_mono; [by eapply Hf| |done]. intros [] s2 H2.
    rewrite cons_middle, (assoc_L app). apply IH; [|done].
    by rewrite Hxs, <- (assoc_L app).
Qed.
End Rules.

(** One step of a method. *)
Ltac wp_step :=
  lazymatch goal with
  | |- wp (mbind _ _) _ _ _ => apply wp_bind
  | |- wp (mret _) _ _ _ => apply wp_ret
  | |- wp self _ _ _ => apply wp_self
  | |- wp (gets _) _ _ _ => apply wp_gets
  | |- wp (modify _) _ _ _ => apply wp_modify
  | |- wp (fail _) _ _ _ => apply wp_fail
  | |- wp (lift _) _ _ _ => apply wp_lift; [intros ? ?|]
  end; cbv beta.

Ltac wp_steps := repeat (wp_step; cbv zeta).
