(* ===== verification/GoStrings.v ===== *)
(** * Go strings, byte slices and UTF-8

    What the program uses of the Go language and of the packages unicode/utf8,
    strings, strconv and encoding/base64.  A Go [string] is a Rocq [string]
    (one character per byte), a [[]byte] is a [list ascii], a rune is a [Z]. *)

From Stdlib Require Import Ascii ZArith Lia.
From S2P Require Import Prelude.

Local Open Scope Z_scope.

Abbreviation bytes := (list ascii).

Definition byte_val (c : ascii) : Z := Z.of_N (N_of_ascii c).
Definition val_byte (z : Z) : ascii := ascii_of_N (Z.to_N z).

(** The conversions [[]byte(s)] and [string(b)]. *)
Definition to_bytes (s : string) : bytes := String.list_ascii_of_string s.
Definition to_string (b : bytes) : string := String.string_of_list_ascii b.

(** [len] of a Go string or slice, as an int. *)
Definition len {A} (l : list A) : Z := Z.of_nat (length l).
Definition slen (s : string) : Z := Z.of_nat (String.length s).

Lemma byte_val_range c : 0 ≤ byte_val c < 256.
Proof. unfold byte_val. pose proof (N_ascii_bounded c). lia. Qed.

Lemma val_byte_val c : val_byte (byte_val c) = c.
Proof. unfold val_byte, byte_val. by rewrite N2Z.id, ascii_N_embedding. Qed.

Lemma byte_val_byte z : 0 ≤ z < 256 → byte_val (val_byte z) = z.
Proof.
  intros Hz. unfold val_byte, byte_val.
  rewrite N_ascii_embedding by lia. lia.
Qed.

Lemma to_string_bytes s : to_string (to_bytes s) = s.
Proof. apply String.string_of_list_ascii_of_string. Qed.

Lemma to_bytes_string b : to_bytes (to_string b) = b.
Proof. apply String.list_ascii_of_string_of_list_ascii. Qed.

Lemma to_bytes_app s t : to_bytes (s +:+ t) = to_bytes s ++ to_bytes t.
Proof. induction s as [|c s IH]; simpl; [done|]. f_equal. apply IH. Qed.

Lemma length_to_bytes s : length (to_bytes s) = String.length s.
Proof. induction s; simpl; auto. Qed.

Lemma slen_len s : slen s = len (to_bytes s).
Proof. unfold slen, len. by rewrite length_to_bytes. Qed.

#[export] Instance to_bytes_inj : Inj (=) (=) to_bytes.
Proof. intros s t H%(f_equal to_string). by rewrite !to_string_bytes in H. Qed.

(** ** unicode/utf8 *)

Module utf8.

Definition RuneError : Z := 0xFFFD.
Definition UTFMax : Z := 4.

Definition between (lo hi z : Z) : bool := (lo <=? z) && (z <=? hi).
Definition continuation (c : ascii) : bool := between 0x80 0xBF (byte_val c).

(** The table [first]/[acceptRanges] of the package: the size of the
    encoding a first byte announces and the range of its second byte. *)
Definition first (c : ascii) : option (nat * Z * Z) :=
  let b := byte_val c in
  if between 0xC2 0xDF b then Some (2%nat, 0x80, 0xBF)
  else if b =? 0xE0 then Some (3%nat, 0xA0, 0xBF)
  else if between 0xE1 0xEC b then Some (3%nat, 0x80, 0xBF)
  else if b =? 0xED then Some (3%nat, 0x80, 0x9F)
  else if between 0xEE 0xEF b then Some (3%nat, 0x80, 0xBF)
  else if b =? 0xF0 then Some (4%nat, 0x90, 0xBF)
  else if between 0xF1 0xF3 b then Some (4%nat, 0x80, 0xBF)
  else if b =? 0xF4 then Some (4%nat, 0x80, 0x8F)
  else None.

(** [DecodeRune(p)]: the first rune and its width in bytes; an invalid or
    incomplete encoding gives [RuneError] and width one, no byte width 0. *)
Definition DecodeRune (p : bytes) : Z * nat :=
  match p with
  | [] => (RuneError, 0%nat)
  | c0 :: p1 =>
    if byte_val c0 <? 0x80 then (byte_val c0, 1%nat)
    else
      match first c0, p1 with
      | Some (size, lo, hi), c1 :: p2 =>
        if between lo hi (byte_val c1) then
          if Nat.eqb size 2 then
            (Z.lor (Z.shiftl (Z.land (byte_val c0) 0x1F) 6) (Z.land (byte_val c1) 0x3F), 2%nat)
          else
            match p2 with
            | c2 :: p3 =>
              if continuation c2 then
                if Nat.eqb size 3 then
                  (Z.lor (Z.lor (Z.shiftl (Z.land (byte_val c0) 0x0F) 12)
                                (Z.shiftl (Z.land (byte_val c1) 0x3F) 6))
                         (Z.land (byte_val c2) 0x3F), 3%nat)
                else
                  match p3 with
                  | c3 :: _ =>
                    if continuation c3 then
                      (Z.lor (Z.lor (Z.lor (Z.shiftl (Z.land (byte_val c0) 0x07) 18)
                                           (Z.shiftl (Z.land (byte_val c1) 0x3F) 12))
                                    (Z.shiftl (Z.land (byte_val c2) 0x3F) 6))
                             (Z.land (byte_val c3) 0x3F), 4%nat)
                    else (RuneError, 1%nat)
                  | [] => (RuneError, 1%nat)
                  end
              else (RuneError, 1%nat)
            | [] => (RuneError, 1%nat)
            end
        else (RuneError, 1%nat)
      | _, _ => (RuneError, 1%nat)
      end
  end.

#[global] Arguments DecodeRune : simpl never.

(** [RuneStart(b)]: not a continuation byte. *)
Definition RuneStart (c : ascii) : bool := negb (continuation c).

(** The byte positions before [fuel] bytes from the end at which the last
    rune may start: [DecodeLastRune] walks back at most [UTFMax] bytes. *)
Fixpoint last_start (fuel : nat) (p : bytes) (start : nat) : option nat :=
  match fuel with
  | O => None
  | S fuel =>
    match p !! start with
    | Some c =>
      if RuneStart c then Some start
      else match start with O => None | S start => last_start fuel p start end
    | None => None
    end
  end.

(** [DecodeLastRune(p)]: the last rune and its width. *)
Definition DecodeLastRune (p : bytes) : Z * nat :=
  match length p with
  | O => (RuneError, 0%nat)
  | S final =>
    let start := default final (last_start 4 p final) in
    let '(r, size) := DecodeRune (drop start p) in
    if Nat.eqb (start + size) (S final) then (r, size) else (RuneError, 1%nat)
  end.

(** [AppendRune]: surrogates and values out of range encode [RuneError]. *)
Definition EncodeRune (r0 : Z) : bytes :=
  let r := if (r0 <? 0) || (0x10FFFF <? r0) || between 0xD800 0xDFFF r0
           then RuneError else r0 in
  if r <=? 0x7F then [val_byte r]
  else if r <=? 0x7FF then
    [val_byte (Z.lor 0xC0 (Z.shiftr r 6)); val_byte (Z.lor 0x80 (Z.land r 0x3F))]
  else if r <=? 0xFFFF then
    [val_byte (Z.lor 0xE0 (Z.shiftr r 12));
     val_byte (Z.lor 0x80 (Z.land (Z.shiftr r 6) 0x3F));
     val_byte (Z.lor 0x80 (Z.land r 0x3F))]
  else
    [val_byte (Z.lor 0xF0 (Z.shiftr r 18));
     val_byte (Z.lor 0x80 (Z.land (Z.shiftr r 12) 0x3F));
     val_byte (Z.lor 0x80 (Z.land (Z.shiftr r 6) 0x3F));
     val_byte (Z.lor 0x80 (Z.land r 0x3F))].

(** The segmentation of a byte string into the encodings that [range]
    walks over: each chunk is a rune or one invalid byte.  The fuel is the
    number of bytes: every chunk has at least one. *)
Fixpoint chunks_go (fuel : nat) (p : bytes) : list bytes :=
  match fuel, p with
  | S fuel, _ :: _ =>
    let size := snd (DecodeRune p) in take size p :: chunks_go fuel (drop size p)
  | _, _ => []
  end.
Definition chunks (p : bytes) : list bytes := chunks_go (length p) p.

Definition RuneCount (p : bytes) : Z := len (chunks p).

(** [[]rune(s)] *)
Definition runes (p : bytes) : list Z := (λ c, fst (DecodeRune c)) <$> chunks p.

(** [Valid(p)]: no chunk is an invalid byte. *)
Definition valid_chunk (c : bytes) : bool :=
  match DecodeRune c with (r, size) => negb ((r =? RuneError) && Nat.eqb size 1) end.
Definition Valid (p : bytes) : bool := forallb valid_chunk (chunks p).

End utf8.
