(* ===== verification/GoText.v ===== *)
(** * strings, strconv, fmt and path/filepath

    The functions of the standard library that the program calls on texts and
    on Unix paths, with the lemmas about them that the components share. *)

From Stdlib Require Import Ascii ZArith Lia.
From S2P Require Import Prelude GoStrings.

Local Open Scope Z_scope.

(** ** strconv and the verbs %d, %q and %t *)

(** [%d] and [strconv.Itoa] *)
Definition Itoa (z : Z) : string := pretty z.

Definition hex_digit (z : Z) : ascii :=
  val_byte (if z <? 10 then 48 + z else 87 + z).

(** The escape of one chunk inside a quoted text: [strconv.Quote] keeps the
    printable runes; the runes beyond ASCII are taken to be printable. *)
Definition quote_chunk (c : bytes) : bytes :=
  let '(r, size) := utf8.DecodeRune c in
  let b := val_byte r in
  if (r =? utf8.RuneError) && Nat.eqb size 1 then
    let v := match c with b :: _ => byte_val b | [] => 0 end in
    ["\"%char; "x"%char; hex_digit (v / 16); hex_digit (v mod 16)]
  else if (r =? 34) || (r =? 92) then ["\"%char; b]
  else if (0x80 <=? r) || utf8.between 0x20 0x7E r then c
  else if r =? 7 then ["\"%char; "a"%char]
  else if r =? 8 then ["\"%char; "b"%char]
  else if r =? 9 then ["\"%char; "t"%char]
  else if r =? 10 then ["\"%char; "n"%char]
  else if r =? 11 then ["\"%char; "v"%char]
  else if r =? 12 then ["\"%char; "f"%char]
  else if r =? 13 then ["\"%char; "r"%char]
  else ["\"%char; "x"%char; hex_digit (r / 16); hex_digit (r mod 16)].

(** [%q] and [strconv.Quote] *)
Definition quote (s : string) : string :=
  to_string ("034"%char :: concat (quote_chunk <$> utf8.chunks (to_bytes s)) ++ ["034"%char]).

(** ** strings *)

Definition HasPrefix (s prefix : string) : bool := String.prefix prefix s.

Fixpoint Join (l : list string) (sep : string) : string :=
  match l with
  | [] => EmptyString
  | [s] => s
  | s :: l => s +:+ sep +:+ Join l sep
  end.

(** The texts between the separator bytes. *)
Fixpoint split_on (sep : ascii) (p : bytes) : list bytes :=
  match p with
  | [] => [[]]
  | c :: p =>
    if Ascii.eqb c sep then [] :: split_on sep p
    else match split_on sep p with
         | [] => [[c]]
         | w :: ws => (c :: w) :: ws
         end
  end.

(** [bytes.Join(parts, []byte{sep})] *)
Fixpoint join_on (sep : ascii) (l : list bytes) : bytes :=
  match l with
  | [] => []
  | [w] => w
  | w :: ws => w ++ sep :: join_on sep ws
  end.

(** The byte is ASCII white space. *)
Definition space_byte (c : ascii) : bool :=
  utf8.between 9 13 (byte_val c) || (byte_val c =? 32).

(** The chunk is white space: the ASCII spaces, U+0085, U+00A0 and the other
    runes of the Unicode property White_Space. *)
Definition space_chunk (c : bytes) : bool :=
  let r := fst (utf8.DecodeRune c) in
  utf8.between 9 13 r || bool_decide (r ∈ [0x20; 0x85; 0xA0; 0x1680; 0x2028; 0x2029; 0x202F; 0x205F; 0x3000])
  || utf8.between 0x2000 0x200A r.

Fixpoint trim_left (l : list bytes) : list bytes :=
  match l with
  | c :: l' => if space_chunk c then trim_left l' else l
  | [] => []
  end.

(** [strings.TrimSpace] *)
Definition TrimSpace (s : string) : string :=
  to_string (concat (reverse (trim_left (reverse (trim_left (utf8.chunks (to_bytes s))))))).

(** [strings.IndexByte], none for -1. *)
Fixpoint IndexByte (c : ascii) (p : bytes) : option nat :=
  match p with
  | [] => None
  | d :: p => if Ascii.eqb d c then Some 0%nat else S <$> IndexByte c p
  end.

(** [strings.Cut] at a one-byte separator. *)
Fixpoint Cut (sep : ascii) (p : bytes) : option (bytes * bytes) :=
  match p with
  | [] => None
  | c :: p =>
    if Ascii.eqb c sep then Some ([], p)
    else match Cut sep p with Some (a, b) => Some (c :: a, b) | None => None end
  end.

(** [strings.ToValidUTF8]: every run of invalid bytes is replaced once. *)
Fixpoint to_valid (replacement : bytes) (in_run : bool) (cs : list bytes) : bytes :=
  match cs with
  | [] => []
  | c :: cs =>
    if utf8.valid_chunk c then c ++ to_valid replacement false cs
    else (if in_run then [] else replacement) ++ to_valid replacement true cs
  end.
Definition ToValidUTF8 (p replacement : bytes) : bytes := to_valid replacement false (utf8.chunks p).

(** The encoding of U+FFFD. *)
Definition RuneErrorBytes : bytes := utf8.EncodeRune utf8.RuneError.

(** ** bufio.Scanner with ScanLines

    The lines of a text without their line ends (a carriage return before the
    newline goes too), up to the first one that does not fit in the scanner's
    buffer of 64 KiB. *)

Definition MaxScanTokenSize : Z := 64 * 1024.

Definition dropCR (line : bytes) : bytes :=
  match reverse line with
  | c :: rest => if Ascii.eqb c "013"%char then reverse rest else line
  | [] => []
  end.

Fixpoint scan_fitting (lines : list bytes) : list bytes * bool :=
  match lines with
  | [] => ([], false)
  | line :: lines =>
    if MaxScanTokenSize <=? len line then ([], true)
    else let '(r, too_long) := scan_fitting lines in (dropCR line :: r, too_long)
  end.

(** The text after the last newline is a line when it is not empty. *)
Definition text_lines (p : bytes) : list bytes :=
  let lines := split_on "010"%char p in
  match last lines with
  | Some [] => removelast lines
  | _ => lines
  end.

Definition ScanLines (p : bytes) : list bytes * bool := scan_fitting (text_lines p).

(** ** path/filepath on Unix *)

Module filepath.

Definition Separator : ascii := "/"%char.

Definition IsAbs (path : string) : bool := HasPrefix path "/".

(** The elements left after the ones before [l] were put on [stack]. *)
Fixpoint clean_go (rooted : bool) (stack : list bytes) (l : list bytes) : list bytes :=
  match l with
  | [] => reverse stack
  | w :: l =>
    if bool_decide (w = []) || bool_decide (w = to_bytes ".") then clean_go rooted stack l
    else if bool_decide (w = to_bytes "..") then
      match stack with
      | top :: rest =>
        if bool_decide (top = to_bytes "..") then clean_go rooted (w :: stack) l
        else clean_go rooted rest l
      | [] => if rooted then clean_go rooted [] l else clean_go rooted [w] l
      end
    else clean_go rooted (w :: stack) l
  end.

(** [Clean(path)] *)
Definition Clean (path : string) : string :=
  let rooted := IsAbs path in
  let elements := clean_go rooted [] (split_on Separator (to_bytes path)) in
  if rooted then to_string (Separator :: join_on Separator elements)
  else match elements with
       | [] => "."
       | _ => to_string (join_on Separator elements)
       end.

(** [Join(elem...)]: the elements after the first one that is not empty. *)
Fixpoint Join (elem : list string) : string :=
  match elem with
  | [] => EmptyString
  | e :: rest => if bool_decide (e = EmptyString) then Join rest
                 else Clean (GoText.Join elem "/")
  end.

(** The last element of a list of path elements that is not empty. *)
Fixpoint last_nonempty (l : list bytes) : option bytes :=
  match l with
  | [] => None
  | w :: l => match last_nonempty l with
              | Some v => Some v
              | None => if bool_decide (w = []) then None else Some w
              end
  end.

(** [Base(path)] *)
Definition Base (path : string) : string :=
  if bool_decide (path = EmptyString) then "."
  else match last_nonempty (split_on Separator (to_bytes path)) with
       | Some w => to_string w
       | None => "/"
       end.

End filepath.

(** ** Facts *)

Lemma split_on_nonempty sep p : split_on sep p ≠ [].
Proof. destruct p as [|c p]; simpl; [done|]. case_match; [done|]. by case_match. Qed.

Lemma join_split_on sep p : join_on sep (split_on sep p) = p.
Proof.
  induction p as [|c p IH]; simpl; [done|].
  destruct (Ascii.eqb_spec c sep) as [->|].
  - destruct (split_on sep p) as [|w ws] eqn:E; [by apply split_on_nonempty in E|].
    simpl. by rewrite <- IH.
  - destruct (split_on sep p) as [|w ws] eqn:E; [by apply split_on_nonempty in E|].
    destruct ws; simpl in *; by rewrite <- IH.
Qed.

Lemma split_on_none sep p : sep ∉ p → split_on sep p = [p].
Proof.
  induction p as [|c p IH]; simpl; [done|]. intros H.
  destruct (Ascii.eqb_spec c sep) as [->|]; [set_solver|].
  rewrite IH; [done|set_solver].
Qed.

(** The elements of a split hold no separator. *)
Lemma split_on_elements sep p : Forall (λ w, sep ∉ w) (split_on sep p).
Proof.
  induction p as [|c p IH]; simpl; [repeat constructor; set_solver|].
  destruct (Ascii.eqb_spec c sep) as [->|Hne].
  - constructor; [set_solver|done].
  - destruct (split_on sep p) as [|w ws]; [repeat constructor; set_solver|].
    apply Forall_cons in IH as [Hw Hws]. constructor; [set_solver|done].
Qed.

(** Splitting a line, its separator and the rest. *)
Lemma split_on_app sep p q :
  sep ∉ p → split_on sep (p ++ sep :: q) = p :: split_on sep q.
Proof.
  induction p as [|c p IH]; simpl; intros H.
  - destruct (Ascii.eqb_spec sep sep); [done|done].
  - destruct (Ascii.eqb_spec c sep) as [->|]; [set_solver|].
    rewrite IH; [done|set_solver].
Qed.

Lemma base_component name :
  name ≠ EmptyString → filepath.Separator ∉ to_bytes name → filepath.Base name = name.
Proof.
  intros Hn Hs. unfold filepath.Base. rewrite bool_decide_false by done.
  rewrite split_on_none by done. simpl. rewrite bool_decide_false.
  - by rewrite to_string_bytes.
  - intros H%(f_equal to_string). by rewrite to_string_bytes in H.
Qed.

(** A name that is its own base and not absolute holds no separator. *)
Lemma base_no_separator name :
  filepath.IsAbs name = false → filepath.Base name = name → filepath.Separator ∉ to_bytes name.
Proof.
  unfold filepath.Base. intros Habs Hb. case_bool_decide as He; [by subst|].
  destruct (filepath.last_nonempty (split_on filepath.Separator (to_bytes name))) as [w|] eqn:E.
  - assert (w = to_bytes name) as <- by (rewrite <- Hb; by rewrite to_bytes_string).
    pose proof (split_on_elements filepath.Separator (to_bytes name)) as Hf.
    assert (∀ l w, filepath.last_nonempty l = Some w → w ∈ l) as Hin.
    { clear. induction l as [|v l IH]; simpl; intros w H; [done|].
      destruct (filepath.last_nonempty l); simplify_eq; [set_solver|].
      case_bool_decide; simplify_eq. set_solver. }
    apply Hin in E. by rewrite Forall_forall in Hf; apply Hf.
  - subst name. done.
Qed.
