(* ===== verification/Utf8Facts.v ===== *)
(** * Facts about UTF-8 segmentation

    The lemmas behind the output-bounding theorems: a rune is decoded from
    its own bytes only, the segmentation of a prefix that ends at a rune
    boundary is a prefix of the segmentation, and decoding backwards from the
    end finds the boundaries that decoding forwards finds. *)

From Stdlib Require Import Ascii ZArith Lia.
From S2P Require Import Prelude GoStrings.
Import utf8.

Local Open Scope Z_scope.

(** Splits every test and match of a [DecodeRune] computation. *)
Ltac decode_cases :=
  repeat match goal with
  | |- context [if ?b then _ else _] => destruct b eqn:?
  | |- context [match ?x with _ => _ end] => is_var x; destruct x
  | |- context [match first ?c with _ => _ end] => destruct (first c) as [[[? ?] ?]|] eqn:?
  end.

Lemma first_size c size lo hi :
  first c = Some (size, lo, hi) →
  (2 ≤ size ≤ 4)%nat ∧ 0xC2 ≤ byte_val c ∧ 0x80 ≤ lo ∧ hi ≤ 0xBF.
Proof.
  unfold first, between. intros H.
  repeat case_match; simplify_eq;
    repeat match goal with
    | H : _ && _ = true |- _ => apply andb_true_iff in H as [??]
    | H : (_ <=? _) = true |- _ => apply Z.leb_le in H
    | H : (_ =? _) = true |- _ => apply Z.eqb_eq in H
    end; lia.
Qed.

Lemma DecodeRune_size p :
  p ≠ [] → (1 ≤ snd (DecodeRune p) ≤ 4)%nat ∧ (snd (DecodeRune p) ≤ length p)%nat.
Proof.
  intros Hp. destruct p as [|c0 p]; [done|]. unfold DecodeRune.
  decode_cases; simpl; lia.
Qed.

Lemma DecodeRune_size_pos p : p ≠ [] → snd (DecodeRune p) ≠ 0%nat.
Proof. intros Hp%DecodeRune_size. lia. Qed.

(** A decoded rune depends on its own bytes only. *)
Lemma DecodeRune_app p q :
  (1 < snd (DecodeRune p))%nat → DecodeRune (p ++ q) = DecodeRune p.
Proof.
  destruct p as [|c0 [|c1 [|c2 [|c3 p]]]]; unfold DecodeRune; simpl;
    decode_cases; simpl; intros; simplify_eq; try lia; done.
Qed.

Lemma DecodeRune_single_byte c p :
  snd (DecodeRune (c :: p)) = 1%nat → DecodeRune [c] = DecodeRune (c :: p).
Proof.
  unfold DecodeRune. decode_cases; simpl; intros; simplify_eq; done.
Qed.

Lemma DecodeRune_take p :
  DecodeRune (take (snd (DecodeRune p)) p) = DecodeRune p.
Proof.
  destruct p as [|c0 [|c1 [|c2 [|c3 p]]]]; unfold DecodeRune; simpl;
    decode_cases; simpl; intros; simplify_eq; try done;
    repeat match goal with
    | H : ?b = _ |- context [?b] => rewrite H
    end; done.
Qed.

(** The bytes of a chunk after the first are continuation bytes. *)
Lemma DecodeRune_tail c0 p i c :
  (S i < snd (DecodeRune (c0 :: p)))%nat → p !! i = Some c → RuneStart c = false.
Proof.
  unfold RuneStart, continuation.
  destruct p as [|c1 [|c2 [|c3 p]]]; unfold DecodeRune; simpl; try done;
  decode_cases; simpl; intros Hi Hc;
    repeat match goal with
    | H : first _ = Some _ |- _ => apply first_size in H as (?&?&?&?)
    end;
    unfold continuation, between in *;
    repeat match goal with
    | H : _ && _ = true |- _ => apply andb_true_iff in H as [?%Z.leb_le ?%Z.leb_le]
    end;
    (destruct i as [|[|[|i]]]; simpl in *; simplify_eq; try lia);
    rewrite (proj2 (Z.leb_le _ _)), (proj2 (Z.leb_le _ _)) by lia; done.
Qed.

Lemma DecodeRune_head c0 p :
  (1 < snd (DecodeRune (c0 :: p)))%nat → RuneStart c0 = true.
Proof.
  unfold RuneStart, continuation.
  unfold DecodeRune; decode_cases; simpl; intros; try lia;
    repeat match goal with
    | H : first _ = Some _ |- _ => apply first_size in H as (?&?&?&?)
    end; unfold between;
    rewrite (proj2 (Z.leb_gt _ 0xBF)) by lia; by rewrite andb_false_r.
Qed.

(** ** Segmentation *)

Lemma chunks_go_fuel n p : (length p ≤ n)%nat → chunks_go n p = chunks p.
Proof.
  unfold chunks. revert p. induction n as [n IH] using lt_wf_ind. intros p Hn.
  destruct p as [|c p]; [by destruct n|].
  destruct n as [|n]; [simpl in Hn; lia|].
  cbn [chunks_go length]. f_equal.
  pose proof (DecodeRune_size (c :: p) ltac:(done)) as [Hs Hl].
  assert (length (drop (snd (DecodeRune (c :: p))) (c :: p)) ≤ length p)%nat as Hd.
  { rewrite length_drop. simpl in *. lia. }
  simpl in Hn. rewrite (IH n) by lia.
  destruct (decide (length p < S n)%nat); [|lia].
  destruct (decide (length p = n)) as [->|]; [symmetry; apply IH; lia|].
  symmetry. apply IH; lia.
Qed.

Lemma chunks_nil : chunks [] = [].
Proof. done. Qed.

Lemma chunks_cons p :
  p ≠ [] →
  chunks p = take (snd (DecodeRune p)) p :: chunks (drop (snd (DecodeRune p)) p).
Proof.
  intros Hp. pose proof (DecodeRune_size p Hp) as [? ?].
  destruct p as [|c p]; [done|]. unfold chunks at 1. cbn [chunks_go length].
  f_equal. apply chunks_go_fuel. rewrite length_drop. simpl in *. lia.
Qed.

(** Induction along the segmentation. *)
Lemma chunks_ind (P : bytes → Prop) :
  P [] →
  (∀ p, p ≠ [] → P (drop (snd (DecodeRune p)) p) → P p) →
  ∀ p, P p.
Proof.
  intros Hnil Hcons p. remember (length p) as n eqn:Hn.
  revert p Hn. induction n as [n IH] using lt_wf_ind. intros p ->.
  destruct p as [|c p]; [done|]. apply Hcons; [done|].
  eapply IH; [|done].
  pose proof (DecodeRune_size (c :: p) ltac:(done)) as [? ?].
  rewrite length_drop. simpl in *. lia.
Qed.

Lemma concat_chunks p : concat (chunks p) = p.
Proof.
  induction p as [|p Hp IH] using chunks_ind; [done|].
  rewrite chunks_cons by done. simpl. rewrite IH. apply take_drop.
Qed.

(** Every chunk is the encoding of one rune or one byte, and is not empty. *)
Definition is_chunk (c : bytes) : Prop := c ≠ [] ∧ snd (DecodeRune c) = length c.

Lemma is_chunk_take p : p ≠ [] → is_chunk (take (snd (DecodeRune p)) p).
Proof.
  intros Hp. pose proof (DecodeRune_size p Hp) as [? ?]. split.
  - destruct p; [done|]. destruct (snd _) eqn:E; [lia|done].
  - rewrite DecodeRune_take, length_take. lia.
Qed.

Lemma chunks_is_chunk p : Forall is_chunk (chunks p).
Proof.
  induction p as [|p Hp IH] using chunks_ind; [done|].
  rewrite chunks_cons by done. constructor; [by apply is_chunk_take|done].
Qed.

Lemma is_chunk_length c : is_chunk c → (1 ≤ length c ≤ 4)%nat.
Proof. intros [Hc Hs]. pose proof (DecodeRune_size c Hc). lia. Qed.

(** The segmentation of a prefix that ends at a boundary. *)
Lemma chunks_take n p :
  chunks (concat (take n (chunks p))) = take n (chunks p).
Proof.
  revert n. induction p as [|p Hp IH] using chunks_ind; intros n.
  { by rewrite chunks_nil, take_nil. }
  destruct n as [|n]; [done|].
  rewrite (chunks_cons p) by done. simpl.
  set (size := snd (DecodeRune p)) in *.
  set (rest := concat (take n (chunks (drop size p)))).
  pose proof (is_chunk_take p Hp) as Hc. fold size in Hc.
  destruct (DecodeRune_size p Hp) as [Hs Hl]. fold size in Hs, Hl.
  assert (snd (DecodeRune (take size p ++ rest)) = size) as Hsz.
  { destruct (decide (1 < size)%nat) as [Hgt|].
    - rewrite DecodeRune_app; unfold size; rewrite DecodeRune_take; done.
    - assert (size = 1%nat) as H1 by lia.
      assert (∃ q, p = take size p ++ rest ++ q) as [q Hq].
      { exists (concat (drop n (chunks (drop size p)))). unfold rest.
        rewrite <- concat_app, take_drop, concat_chunks. by rewrite take_drop. }
      destruct (decide (1 < snd (DecodeRune (take size p ++ rest)))%nat) as [Hgt|Hle].
      + apply (DecodeRune_app _ q) in Hgt as Happ.
        rewrite <- (app_assoc _ rest q), <- Hq in Happ. by rewrite <- Happ.
      + pose proof (DecodeRune_size (take size p ++ rest)) as Hne.
        destruct p as [|c0 p]; [done|]. rewrite H1 in *. simpl in *.
        specialize (Hne ltac:(done)). lia. }
  rewrite chunks_cons by (destruct p; [done|]; destruct size; [lia|done]).
  rewrite Hsz. rewrite take_app_le, drop_app_ge by (rewrite length_take; lia).
  rewrite length_take, (Nat.min_l _ _ Hl), Nat.sub_diag, drop_0.
  rewrite take_take, Nat.min_id. f_equal. apply IH.
Qed.

Lemma chunks_app_take n p :
  chunks p = take n (chunks p) ++ chunks (concat (drop n (chunks p))).
Proof.
  revert n. induction p as [|p Hp IH] using chunks_ind; intros n.
  { by rewrite chunks_nil, take_nil, drop_nil. }
  destruct n as [|n]; [by rewrite drop_0, concat_chunks|].
  rewrite (chunks_cons p) by done. simpl. f_equal. apply IH.
Qed.

Lemma chunks_drop n p :
  chunks (concat (drop n (chunks p))) = drop n (chunks p).
Proof.
  pose proof (chunks_app_take n p) as H.
  rewrite <- (take_drop n (chunks p)) in H at 1. by apply app_inv_head in H.
Qed.

(** ** Decoding backwards *)

Lemma rune_start_boundary p j x :
  p !! j = Some x → RuneStart x = true →
  ∃ n, length (concat (take n (chunks p))) = j ∧ drop j p = concat (drop n (chunks p)).
Proof.
  revert j. induction p as [|p Hp IH] using chunks_ind; intros j Hj Hx; [done|].
  destruct j as [|j]; [exists 0%nat; split; [done|]; by rewrite !drop_0, concat_chunks|].
  set (size := snd (DecodeRune p)) in *.
  destruct (DecodeRune_size p Hp) as [Hs Hl]. fold size in Hs, Hl.
  destruct (decide (S j < size)%nat) as [Hlt|Hge].
  - destruct p as [|c0 p]; [done|]. simpl in Hj.
    pose proof (DecodeRune_tail c0 p j x Hlt Hj). congruence.
  - destruct (IH (S j - size)%nat) as (n & Hn & Hd); [|done|].
    { rewrite lookup_drop. by replace (size + (S j - size))%nat with (S j) by lia. }
    exists (S n). rewrite chunks_cons by done. fold size. simpl.
    rewrite length_app, Hn, length_take. split; [lia|].
    rewrite <- Hd, drop_drop. f_equal. lia.
Qed.

Lemma last_start_some fuel p start j :
  last_start fuel p start = Some j →
  (j ≤ start < j + fuel)%nat ∧ (∃ x, p !! j = Some x ∧ RuneStart x = true).
Proof.
  revert start. induction fuel as [|fuel IH]; intros start; cbn [last_start]; [done|].
  destruct (p !! start) as [c|] eqn:Hc; [|done].
  destruct (RuneStart c) eqn:Hr; [intros [= <-]; split; [lia|eauto]|].
  destruct start as [|start]; [done|]. intros [? ?]%IH. split; [lia|auto].
Qed.

(** The walk stops at a start byte followed by continuation bytes only. *)
Lemma last_start_found fuel p start j x :
  (start < length p)%nat → (j ≤ start < j + fuel)%nat →
  p !! j = Some x → RuneStart x = true →
  (∀ k c, (j < k)%nat → (k ≤ start)%nat → p !! k = Some c → RuneStart c = false) →
  last_start fuel p start = Some j.
Proof.
  revert start. induction fuel as [|fuel IH]; intros start Hs Hj Hx Hr Hk; [lia|].
  cbn [last_start]. destruct (lookup_lt_is_Some_2 p start Hs) as [c Hc]. rewrite Hc.
  destruct (decide (j = start)) as [->|]; [by simplify_eq; rewrite Hr|].
  rewrite (Hk start c) by (done || lia).
  destruct start as [|start]; [lia|]. apply IH; (done || lia || eauto with lia).
Qed.

Lemma chunk_tail_continuation c0 c i x :
  is_chunk (c0 :: c) → c !! i = Some x → RuneStart x = false.
Proof.
  intros [_ Hs] Hi. apply (DecodeRune_tail c0 c i); [|done].
  apply lookup_lt_Some in Hi. simpl in Hs. lia.
Qed.

(** Decoding backwards finds the last chunk of the segmentation. *)
Lemma DecodeLastRune_chunk p cs c :
  chunks p = cs ++ [c] → snd (DecodeLastRune p) = length c.
Proof.
  intros Hcs. pose proof (concat_chunks p) as Hp. rewrite Hcs, concat_app in Hp.
  simpl in Hp. rewrite app_nil_r in Hp.
  pose proof (chunks_is_chunk p) as Hall. rewrite Hcs, Forall_app in Hall.
  destruct Hall as [_ [Hc _]%Forall_cons].
  pose proof (is_chunk_length c Hc) as Hlen.
  assert (length p = length (concat cs) + length c)%nat as Hlp.
  { by rewrite <- Hp, length_app. }
  unfold DecodeLastRune. destruct (length p) as [|final] eqn:Hfin; [lia|].
  destruct c as [|c0 c]; [simpl in *; lia|].
  destruct (RuneStart c0) eqn:Hr0.
  - (* the chunk starts with a rune-start byte: the walk finds it *)
    assert (last_start 4 p final = Some (length (concat cs))) as ->.
    { apply (last_start_found _ _ _ _ c0); try (simpl in Hlp, Hlen; lia); [| |].
      - by rewrite <- Hp, list_lookup_middle.
      - done.
      - intros k x Hk1 Hk2. simpl in Hlp. rewrite <- Hp, lookup_app_r by lia.
        destruct (k - length (concat cs))%nat as [|i] eqn:Hki; [lia|]. simpl.
        by apply chunk_tail_continuation with c0. }
    simpl. rewrite <- Hp, drop_app_length. destruct Hc as [_ Hc].
    destruct (DecodeRune (c0 :: c)) as [r size]. simpl in *. subst size.
    by rewrite (proj2 (Nat.eqb_eq _ _)) by lia.
  - (* an invalid continuation byte: no rune ends here *)
    assert (c = []) as ->.
    { destruct c as [|c1 c]; [done|]. destruct Hc as [_ Hc].
      rewrite (DecodeRune_head c0 (c1 :: c)) in Hr0; [done|]. rewrite Hc. simpl; lia. }
    simpl in Hlp. destruct (last_start 4 p final) as [j|] eqn:Hj; simpl.
    + apply last_start_some in Hj as (Hj & x & Hx & Hrx).
      destruct (rune_start_boundary p j x Hx Hrx) as (n & Hn & Hd).
      destruct (DecodeRune (drop j p)) as [r size] eqn:Hdec.
      destruct (Nat.eqb (j + size) (S final)) eqn:He; [|done].
      apply Nat.eqb_eq in He. simpl. exfalso.
      assert (drop j p ≠ []) as Hne.
      { intros E%(f_equal length). rewrite length_drop in E. simpl in E. lia. }
      pose proof (chunks_cons _ Hne) as Hch. rewrite Hdec in Hch. simpl in Hch.
      rewrite Hd, chunks_drop in Hch.
      rewrite (drop_ge (concat _)) in Hch by (rewrite <- Hd, length_drop; lia).
      rewrite chunks_nil in Hch.
      assert (n ≤ length cs)%nat as Hle.
      { destruct (decide (n ≤ length cs)%nat); [done|].
        rewrite drop_ge in Hch; [done|]. rewrite Hcs, length_app. simpl. lia. }
      rewrite Hcs, drop_app_le in Hch by done.
      destruct (drop n cs) as [|d ds] eqn:Hdn; simpl in Hch; [|].
      * assert (n = length cs) as -> by (apply (f_equal length) in Hdn; rewrite length_drop in Hdn; simpl in Hdn; lia).
        rewrite Hcs, take_app_length in Hn. subst j.
        rewrite <- Hp, list_lookup_middle in Hx by done. simplify_eq. congruence.
      * destruct ds; discriminate.
    + destruct (DecodeRune (drop final p)) as [r size] eqn:Hdec.
      destruct (Nat.eqb (final + size) (S final)) eqn:He; [|done].
      apply Nat.eqb_eq in He. simpl. lia.
Qed.

(** Linear arithmetic with division and modulo by constants. *)
Ltac zlia := Z.to_euclidean_division_equations; lia.

(** ** Encoding runes *)

Lemma lor_add k a b :
  0 ≤ k → 0 ≤ b < 2 ^ k → Z.lor (a * 2 ^ k) b = a * 2 ^ k + b.
Proof.
  intros Hk Hb. symmetry. rewrite Z.add_nocarry_lxor, Z.lxor_lor; [done| |];
    apply Z.bits_inj'; intros n Hn; rewrite Z.land_spec, Z.bits_0;
    (destruct (Z.lt_ge_cases n k);
     [by rewrite Z.mul_pow2_bits_low|
      rewrite <- (Z.mod_small b (2 ^ k)), Z.mod_pow2_bits_high by zlia;
      by rewrite andb_false_r]).
Qed.

Lemma land_mod n x : 0 ≤ n → Z.land x (Z.ones n) = x mod 2 ^ n.
Proof. apply Z.land_ones. Qed.

(** The two-, three- and four-byte encodings, in arithmetic. *)
Definition enc2 (r : Z) : bytes := val_byte <$> [192 + r / 64; 128 + r mod 64].
Definition enc3 (r : Z) : bytes :=
  val_byte <$> [224 + r / 4096; 128 + r / 64 mod 64; 128 + r mod 64].
Definition enc4 (r : Z) : bytes :=
  val_byte <$> [240 + r / 262144; 128 + r / 4096 mod 64; 128 + r / 64 mod 64; 128 + r mod 64].

Lemma cont_byte x : Z.lor 0x80 (Z.land x 0x3F) = 128 + x mod 64.
Proof.
  change 0x3F with (Z.ones 6). rewrite land_mod by zlia.
  change 0x80 with (2 * 2 ^ 6). rewrite lor_add; [done|zlia|apply Z.mod_pos_bound; zlia].
Qed.

Definition rune_ok (r : Z) : bool :=
  negb ((r <? 0) || (0x10FFFF <? r) || between 0xD800 0xDFFF r).
Definition norm_rune (r : Z) : Z := if rune_ok r then r else RuneError.

Lemma norm_rune_ok r : rune_ok (norm_rune r) = true.
Proof. unfold norm_rune. by destruct (rune_ok r) eqn:E. Qed.

Lemma EncodeRune_norm r : EncodeRune (norm_rune r) = EncodeRune r.
Proof.
  unfold EncodeRune, norm_rune, rune_ok.
  destruct ((r <? 0) || (0x10FFFF <? r) || between 0xD800 0xDFFF r) eqn:E; simpl; [done|].
  by rewrite E.
Qed.

Lemma EncodeRune_arith r :
  rune_ok r = true →
  EncodeRune r = if r <=? 0x7F then [val_byte r] else if r <=? 0x7FF then enc2 r
                 else if r <=? 0xFFFF then enc3 r else enc4 r.
Proof.
  intros Hok. unfold EncodeRune. unfold rune_ok in Hok.
  apply negb_true_iff in Hok as Hok'. rewrite Hok'.
  unfold between in *. rewrite !orb_false_iff, andb_false_iff, !Z.ltb_ge, !Z.leb_gt in Hok'.
  destruct Hok' as [[? ?] _].
  destruct (r <=? 0x7F) eqn:E1; [done|]. apply Z.leb_gt in E1.
  unfold enc2, enc3, enc4.
  destruct (r <=? 0x7FF) eqn:E2; [|destruct (r <=? 0xFFFF) eqn:E3]; simpl;
    rewrite !cont_byte, ?Z.shiftr_div_pow2 by zlia; change (2 ^ 6) with 64; change (2 ^ 12) with 4096; change (2 ^ 18) with 262144;
    rewrite ?Z.leb_le, ?Z.leb_gt in *; repeat f_equal.
  - change 0xC0 with (6 * 2 ^ 5). rewrite lor_add; [done|zlia|].
    change (2 ^ 5) with 32. zlia.
  - change 0xE0 with (14 * 2 ^ 4). rewrite lor_add; [done|zlia|].
    change (2 ^ 4) with 16. zlia.
  - change 0xF0 with (30 * 2 ^ 3). rewrite lor_add; [done|zlia|].
    change (2 ^ 3) with 8. zlia.
Qed.

(** ** Decoding, in arithmetic *)

Lemma shl k p a : p = 2 ^ k → 0 ≤ k → Z.shiftl a k = a * p.
Proof. intros -> ?. by rewrite Z.shiftl_mul_pow2. Qed.

Lemma land63 x : Z.land x 0x3F = x mod 64.
Proof. change 0x3F with (Z.ones 6). by rewrite land_mod. Qed.
Lemma land31 x : Z.land x 0x1F = x mod 32.
Proof. change 0x1F with (Z.ones 5). by rewrite land_mod. Qed.
Lemma land15 x : Z.land x 0x0F = x mod 16.
Proof. change 0x0F with (Z.ones 4). by rewrite land_mod. Qed.
Lemma land7 x : Z.land x 0x07 = x mod 8.
Proof. change 0x07 with (Z.ones 3). by rewrite land_mod. Qed.

Lemma lor6 a b : 0 ≤ b < 64 → Z.lor (Z.shiftl a 6) b = a * 64 + b.
Proof. intros. rewrite (shl 6 64) by done. by apply (lor_add 6). Qed.
Lemma lor12 a b : 0 ≤ b < 4096 → Z.lor (Z.shiftl a 12) b = a * 4096 + b.
Proof. intros. rewrite (shl 12 4096) by done. by apply (lor_add 12). Qed.
Lemma lor18 a b : 0 ≤ b < 262144 → Z.lor (Z.shiftl a 18) b = a * 262144 + b.
Proof. intros. rewrite (shl 18 262144) by done. by apply (lor_add 18). Qed.

Lemma val2 b0 b1 :
  Z.lor (Z.shiftl (Z.land b0 0x1F) 6) (Z.land b1 0x3F) = b0 mod 32 * 64 + b1 mod 64.
Proof. rewrite land31, land63. apply lor6. zlia. Qed.
Lemma val3 b0 b1 b2 :
  Z.lor (Z.lor (Z.shiftl (Z.land b0 0x0F) 12) (Z.shiftl (Z.land b1 0x3F) 6)) (Z.land b2 0x3F)
  = b0 mod 16 * 4096 + b1 mod 64 * 64 + b2 mod 64.
Proof.
  rewrite land15, !land63, <- Z.lor_assoc, lor6 by zlia. rewrite lor12; zlia.
Qed.
Lemma val4 b0 b1 b2 b3 :
  Z.lor (Z.lor (Z.lor (Z.shiftl (Z.land b0 0x07) 18) (Z.shiftl (Z.land b1 0x3F) 12))
               (Z.shiftl (Z.land b2 0x3F) 6)) (Z.land b3 0x3F)
  = b0 mod 8 * 262144 + b1 mod 64 * 4096 + b2 mod 64 * 64 + b3 mod 64.
Proof.
  rewrite land7, !land63, <- !Z.lor_assoc, lor6, lor12 by zlia. rewrite lor18; zlia.
Qed.

(** Turns the range tests on bytes into linear facts and back. *)
Ltac byte_tests :=
  unfold continuation, between in *;
  repeat match goal with
  | H : _ && _ = true |- _ => apply andb_true_iff in H as [? ?]
  | H : _ && _ = false |- _ => apply andb_false_iff in H
  | H : _ || _ = true |- _ => apply orb_true_iff in H
  | H : _ || _ = false |- _ => apply orb_false_iff in H as [? ?]
  | H : (_ <=? _) = true |- _ => apply Z.leb_le in H
  | H : (_ <? _) = true |- _ => apply Z.ltb_lt in H
  | H : (_ =? _) = true |- _ => apply Z.eqb_eq in H
  | H : (_ <=? _) = false |- _ => apply Z.leb_gt in H
  | H : (_ <? _) = false |- _ => apply Z.ltb_ge in H
  | H : (_ =? _) = false |- _ => apply Z.eqb_neq in H
  end.

Lemma between_true lo hi z : between lo hi z = true ↔ lo ≤ z ≤ hi.
Proof. unfold between. rewrite andb_true_iff, !Z.leb_le. done. Qed.

(** Case analysis on the equality tests in a hypothesis. *)
Ltac eqb_cases H :=
  revert H; repeat match goal with |- context [?x =? ?y] => destruct (Z.eqb_spec x y) end; intros H.

(** The second-byte range of a first byte, as linear facts. *)
Lemma first_cases c size lo hi :
  first c = Some (size, lo, hi) →
  let b := byte_val c in
  size = 2%nat ∧ 0xC2 ≤ b ≤ 0xDF ∧ lo = 0x80 ∧ hi = 0xBF ∨
  size = 3%nat ∧ 0xE0 ≤ b ≤ 0xEF ∧ lo = (if b =? 0xE0 then 0xA0 else 0x80) ∧
    hi = (if b =? 0xED then 0x9F else 0xBF) ∨
  size = 4%nat ∧ 0xF0 ≤ b ≤ 0xF4 ∧ lo = (if b =? 0xF0 then 0x90 else 0x80) ∧
    hi = (if b =? 0xF4 then 0x8F else 0xBF).
Proof.
  unfold first. intros H. repeat case_match; simplify_eq; byte_tests; simpl in *; try zlia;
  repeat match goal with |- context [?x =? ?y] => destruct (Z.eqb_spec x y) end; zlia.
Qed.

Lemma first_2 c : 0xC2 ≤ byte_val c ≤ 0xDF → first c = Some (2%nat, 0x80, 0xBF).
Proof.
  intros. unfold first, between. rewrite !(proj2 (Z.leb_le _ _)) by zlia. done.
Qed.
Lemma first_3 c :
  0xE0 ≤ byte_val c ≤ 0xEF →
  first c = Some (3%nat, if byte_val c =? 0xE0 then 0xA0 else 0x80,
                  if byte_val c =? 0xED then 0x9F else 0xBF).
Proof.
  intros. destruct (first c) as [[[size lo] hi]|] eqn:E.
  - apply first_cases in E. simpl in E.
    destruct E as [(?&?&?&?)|[(?&?&?&?)|(?&?&?&?)]]; subst; (zlia || done).
  - unfold first in E. repeat case_match; simplify_eq. byte_tests. zlia.
Qed.
Lemma first_4 c :
  0xF0 ≤ byte_val c ≤ 0xF4 →
  first c = Some (4%nat, if byte_val c =? 0xF0 then 0x90 else 0x80,
                  if byte_val c =? 0xF4 then 0x8F else 0xBF).
Proof.
  intros. destruct (first c) as [[[size lo] hi]|] eqn:E.
  - apply first_cases in E. simpl in E.
    destruct E as [(?&?&?&?)|[(?&?&?&?)|(?&?&?&?)]]; subst; (zlia || done).
  - unfold first in E. repeat case_match; simplify_eq. byte_tests. zlia.
Qed.

(** Decoding an encoded rune gives the rune back, whatever follows. *)
Lemma DecodeRune_EncodeRune r q :
  DecodeRune (EncodeRune r ++ q) = (norm_rune r, length (EncodeRune r)).
Proof.
  rewrite <- EncodeRune_norm. pose proof (norm_rune_ok r) as Hok.
  set (n := norm_rune r) in *. clearbody n. rewrite EncodeRune_arith by done.
  assert (0 ≤ n ≤ 0x10FFFF ∧ (n < 0xD800 ∨ 0xDFFF < n)) as [Hr Hsur].
  { unfold rune_ok in Hok. apply negb_true_iff in Hok. byte_tests. zlia. }
  destruct (n <=? 0x7F) eqn:E1; [|destruct (n <=? 0x7FF) eqn:E2; [|destruct (n <=? 0xFFFF) eqn:E3]];
    byte_tests; unfold enc2, enc3, enc4; simpl; unfold DecodeRune.
  - rewrite byte_val_byte by zlia. by rewrite (proj2 (Z.ltb_lt _ _)) by zlia.
  - rewrite first_2 by (rewrite byte_val_byte; zlia).
    rewrite !byte_val_byte by zlia. rewrite (proj2 (Z.ltb_ge _ _)) by zlia.
    unfold between. rewrite !(proj2 (Z.leb_le _ _)) by zlia. simpl.
    rewrite val2. f_equal. zlia.
  - rewrite first_3 by (rewrite byte_val_byte; zlia). unfold continuation.
    rewrite !byte_val_byte by zlia. rewrite (proj2 (Z.ltb_ge _ _)) by zlia.
    unfold between.
    rewrite (proj2 (Z.leb_le _ (128 + n / 64 mod 64))) by (destruct (Z.eqb_spec (224 + n / 4096) 224); zlia).
    rewrite (proj2 (Z.leb_le (128 + n / 64 mod 64) _)) by (destruct (Z.eqb_spec (224 + n / 4096) 237); zlia).
    rewrite !(proj2 (Z.leb_le _ _)) by zlia. simpl.
    rewrite val3. f_equal. zlia.
  - rewrite first_4 by (rewrite byte_val_byte; zlia). unfold continuation.
    rewrite !byte_val_byte by zlia. rewrite (proj2 (Z.ltb_ge _ _)) by zlia.
    unfold between.
    rewrite (proj2 (Z.leb_le _ (128 + n / 4096 mod 64))) by (destruct (Z.eqb_spec (240 + n / 262144) 240); zlia).
    rewrite (proj2 (Z.leb_le (128 + n / 4096 mod 64) _)) by (destruct (Z.eqb_spec (240 + n / 262144) 244); zlia).
    rewrite !(proj2 (Z.leb_le _ _)) by zlia. simpl.
    rewrite val4. f_equal. zlia.
Qed.

Lemma EncodeRune_length r : (1 ≤ length (EncodeRune r) ≤ 4)%nat.
Proof. unfold EncodeRune. repeat case_match; simpl; lia. Qed.

Lemma EncodeRune_chunk r : is_chunk (EncodeRune r).
Proof.
  pose proof (EncodeRune_length r). split; [by destruct (EncodeRune r); simpl in *; [lia|]|].
  pose proof (DecodeRune_EncodeRune r []) as H'. rewrite app_nil_r in H'. by rewrite H'.
Qed.

Lemma EncodeRune_valid r : valid_chunk (EncodeRune r) = true.
Proof.
  unfold valid_chunk. pose proof (DecodeRune_EncodeRune r []) as H.
  rewrite app_nil_r in H. rewrite H.
  destruct (Z.eqb_spec (norm_rune r) RuneError) as [E|]; [|done].
  rewrite <- EncodeRune_norm, E. done.
Qed.

(** Chunks are decoded one after the other when each decodes to itself
    whatever follows it. *)
Lemma chunks_concat (cs : list bytes) :
  (∀ c q, c ∈ cs → snd (DecodeRune (c ++ q)) = length c) →
  Forall (λ c, c ≠ []) cs →
  ∀ q, chunks (concat cs ++ q) = cs ++ chunks q.
Proof.
  intros Hdec Hne q. induction Hne as [|c cs Hc Hne IH]; [done|].
  assert (concat (c :: cs) ++ q ≠ []) as Hnil by (by destruct c).
  rewrite chunks_cons by done. simpl. rewrite <- app_assoc.
  rewrite Hdec by set_solver.
  rewrite take_app_length, drop_app_length. f_equal. apply IH. set_solver.
Qed.

Lemma chunks_encode rs q :
  chunks (concat (EncodeRune <$> rs) ++ q) = (EncodeRune <$> rs) ++ chunks q.
Proof.
  apply chunks_concat.
  - intros c q' (r & -> & _)%list_elem_of_fmap. by rewrite DecodeRune_EncodeRune.
  - apply Forall_fmap, Forall_true. intros r. apply EncodeRune_chunk.
Qed.

Lemma chunks_encode_nil rs : chunks (concat (EncodeRune <$> rs)) = EncodeRune <$> rs.
Proof. pose proof (chunks_encode rs []) as H. by rewrite !app_nil_r in H. Qed.

Lemma Valid_encode rs : Valid (concat (EncodeRune <$> rs)) = true.
Proof.
  unfold Valid. rewrite chunks_encode_nil, forallb_Forall, Forall_fmap.
  apply Forall_true. apply EncodeRune_valid.
Qed.

Lemma runes_encode rs : runes (concat (EncodeRune <$> rs)) = norm_rune <$> rs.
Proof.
  unfold runes. rewrite chunks_encode_nil, <- list_fmap_compose.
  apply list_fmap_ext. intros _ r _. simpl.
  pose proof (DecodeRune_EncodeRune r []) as H. rewrite app_nil_r in H. by rewrite H.
Qed.

Lemma length_runes p : length (runes p) = length (chunks p).
Proof. apply length_fmap. Qed.

(** A valid chunk decodes to itself whatever follows it. *)
Lemma valid_chunk_app c q :
  is_chunk c → valid_chunk c = true → DecodeRune (c ++ q) = DecodeRune c.
Proof.
  intros [Hne Hs] Hv. destruct (decide (1 < length c)%nat) as [Hgt|Hle].
  { apply DecodeRune_app. by rewrite Hs. }
  destruct c as [|c0 [|]]; [done| |simpl in Hle; lia].
  unfold valid_chunk in Hv. unfold DecodeRune in *. simpl in *.
  destruct (byte_val c0 <? 0x80) eqn:E; [done|].
  destruct (first c0) as [[[? ?] ?]|]; discriminate.
Qed.

Lemma Valid_chunks_app p q : Valid p = true → chunks (p ++ q) = chunks p ++ chunks q.
Proof.
  intros Hv. rewrite <- (concat_chunks p) at 1. pose proof (chunks_is_chunk p) as Hc.
  unfold Valid in Hv. rewrite forallb_Forall in Hv. apply chunks_concat.
  - intros c r Hin. rewrite Forall_forall in Hv, Hc.
    rewrite valid_chunk_app; [by apply Hc|auto|auto].
  - eapply Forall_impl; [done|]. by intros c [? _].
Qed.

Lemma Valid_app p q : Valid p = true → Valid q = true → Valid (p ++ q) = true.
Proof.
  intros Hp Hq. unfold Valid. rewrite Valid_chunks_app by done.
  rewrite forallb_app. by rewrite andb_true_iff.
Qed.

Lemma RuneCount_app p q : Valid p = true → RuneCount (p ++ q) = RuneCount p + RuneCount q.
Proof.
  intros Hp. unfold RuneCount, len. rewrite Valid_chunks_app, length_app by done. lia.
Qed.

(** ASCII text is valid, one rune per byte. *)
Lemma ascii_chunks p :
  Forall (λ c, byte_val c < 0x80) p → chunks p = (λ c, [c]) <$> p ∧ Valid p = true.
Proof.
  induction 1 as [|c p Hc Hp [IH1 IH2]]; [done|].
  assert (DecodeRune (c :: p) = (byte_val c, 1%nat)) as Hd.
  { unfold DecodeRune. by rewrite (proj2 (Z.ltb_lt _ _)). }
  assert (chunks (c :: p) = [c] :: chunks p) as Hch.
  { rewrite chunks_cons, Hd by done. simpl. by rewrite take_0, drop_0. }
  split; [by rewrite Hch, IH1|]. unfold Valid. rewrite Hch. simpl.
  rewrite <- (app_nil_r [c]) at 1. unfold valid_chunk at 1.
  assert (DecodeRune [c] = (byte_val c, 1%nat)) as Hd1.
  { unfold DecodeRune. by rewrite (proj2 (Z.ltb_lt _ _)). }
  simpl. rewrite Hd1. rewrite (proj2 (Z.eqb_neq _ _)) by (unfold RuneError; lia). done.
Qed.

(** A valid chunk is the encoding of the rune it decodes to. *)
Lemma mod_cont z : 128 ≤ z ≤ 191 → z mod 64 = z - 128.
Proof. zlia. Qed.
Lemma div_pos k a b : 0 < k → 0 ≤ b < k → (a * k + b) / k = a.
Proof. intros. rewrite Z.div_add_l, Z.div_small by lia. lia. Qed.
Lemma mod_pos k a b : 0 < k → 0 ≤ b < k → (a * k + b) mod k = b.
Proof. intros. rewrite Z.add_comm, Z.mod_add, Z.mod_small; lia. Qed.

Lemma enc3_bytes x y z :
  0 ≤ y < 64 → 0 ≤ z < 64 →
  enc3 (x * 4096 + y * 64 + z) = val_byte <$> [224 + x; 128 + y; 128 + z].
Proof.
  intros. unfold enc3. assert (x * 4096 + y * 64 + z = (x * 64 + y) * 64 + z) as -> by lia.
  assert (((x * 64 + y) * 64 + z) / 4096 = x) as ->.
  { assert ((x * 64 + y) * 64 + z = x * 4096 + (y * 64 + z)) as -> by lia.
    by rewrite div_pos by lia. }
  by rewrite (div_pos 64 (x * 64 + y)), !mod_pos by lia.
Qed.

Lemma enc4_bytes w x y z :
  0 ≤ x < 64 → 0 ≤ y < 64 → 0 ≤ z < 64 →
  enc4 (w * 262144 + x * 4096 + y * 64 + z) = val_byte <$> [240 + w; 128 + x; 128 + y; 128 + z].
Proof.
  intros. unfold enc4.
  assert (w * 262144 + x * 4096 + y * 64 + z = ((w * 64 + x) * 64 + y) * 64 + z) as -> by lia.
  assert ((((w * 64 + x) * 64 + y) * 64 + z) / 4096 = w * 64 + x) as ->.
  { assert (((w * 64 + x) * 64 + y) * 64 + z = (w * 64 + x) * 4096 + (y * 64 + z)) as -> by lia.
    by rewrite div_pos by lia. }
  assert ((((w * 64 + x) * 64 + y) * 64 + z) / 262144 = w) as ->.
  { assert (((w * 64 + x) * 64 + y) * 64 + z = w * 262144 + (x * 4096 + y * 64 + z)) as -> by lia.
    by rewrite div_pos by lia. }
  by rewrite (div_pos 64 ((w * 64 + x) * 64 + y)), !mod_pos by lia.
Qed.

Lemma Encode_DecodeRune c :
  is_chunk c → valid_chunk c = true → EncodeRune (fst (DecodeRune c)) = c.
Proof.
  intros [Hne Hs] Hv. unfold valid_chunk in Hv.
  destruct c as [|c0 p]; [done|]. unfold DecodeRune in *. simpl in Hs, Hv |- *.
  pose proof (byte_val_range c0).
  destruct (byte_val c0 <? 0x80) eqn:E0.
  { byte_tests. destruct p; [|done]. simpl. rewrite EncodeRune_arith.
    - rewrite (proj2 (Z.leb_le _ _)) by lia. by rewrite val_byte_val.
    - unfold rune_ok, between. rewrite !(proj2 (Z.ltb_ge _ _)) by lia.
      rewrite (proj2 (Z.leb_gt _ _)) by lia. done. }
  apply Z.ltb_ge in E0.
  destruct (first c0) as [[[size lo] hi]|] eqn:Ef; [|done].
  destruct p as [|c1 p]; [done|].
  destruct (between lo hi (byte_val c1)) eqn:E1; [|by simpl in *]. apply between_true in E1.
  pose proof (byte_val_range c1).
  assert (∀ x y, byte_val x = y → x = val_byte y) as Hback.
  { intros x y <-. by rewrite val_byte_val. }
  apply first_cases in Ef. simpl in Ef.
  destruct Ef as [(->&Hb&->&->)|[(->&Hb&->&->)|(->&Hb&->&->)]]; simpl in Hs |- *.
  - destruct p; [|done]. rewrite val2. rewrite EncodeRune_arith.
    + rewrite (proj2 (Z.leb_gt _ _)), (proj2 (Z.leb_le _ _)) by zlia.
      unfold enc2; simpl. repeat f_equal; symmetry; apply Hback; zlia.
    + unfold rune_ok, between. rewrite !(proj2 (Z.ltb_ge _ _)) by zlia.
      rewrite (proj2 (Z.leb_gt _ _)) by zlia. done.
  - destruct p as [|c2 p]; [done|].
    destruct (continuation c2) eqn:E2; [|by simpl in *]. apply between_true in E2. pose proof (byte_val_range c2).
    simpl in Hs, Hv |- *. destruct p; [|done]. rewrite val3, !mod_cont by (eqb_cases E1; lia).
    assert (byte_val c0 mod 16 = byte_val c0 - 224) as -> by zlia.
    assert (0x800 ≤ (byte_val c0 - 224) * 4096 + (byte_val c1 - 128) * 64 + (byte_val c2 - 128)) as Hlo.
    { eqb_cases E1; lia. }
    assert (0x80 ≤ byte_val c1 ≤ 0xBF) as Hb1 by (eqb_cases E1; lia).
    rewrite EncodeRune_arith.
    + rewrite !(proj2 (Z.leb_gt _ _)), (proj2 (Z.leb_le _ _)) by lia.
      rewrite enc3_bytes by lia. simpl. repeat f_equal; symmetry; apply Hback; lia.
    + unfold rune_ok, between. rewrite !(proj2 (Z.ltb_ge _ _)) by lia. simpl.
      apply negb_true_iff, andb_false_iff. rewrite !Z.leb_gt.
      eqb_cases E1; lia.
  - destruct p as [|c2 p]; [done|].
    destruct (continuation c2) eqn:E2; [|by simpl in *]. apply between_true in E2. pose proof (byte_val_range c2).
    simpl in Hs, Hv |- *. destruct p as [|c3 p]; [done|].
    destruct (continuation c3) eqn:E3; [|by simpl in *]. apply between_true in E3. pose proof (byte_val_range c3).
    simpl in Hs, Hv |- *. destruct p; [|done]. rewrite val4, !mod_cont by (eqb_cases E1; lia).
    assert (byte_val c0 mod 8 = byte_val c0 - 240) as -> by zlia.
    assert (0x80 ≤ byte_val c1 ≤ 0xBF) as Hb1 by (eqb_cases E1; lia).
    assert (0x10000 ≤ (byte_val c0 - 240) * 262144 + (byte_val c1 - 128) * 4096
             + (byte_val c2 - 128) * 64 + (byte_val c3 - 128) ≤ 0x10FFFF) as [Hlo Hhi].
    { eqb_cases E1; lia. }
    rewrite EncodeRune_arith.
    + rewrite !(proj2 (Z.leb_gt _ _)) by lia.
      rewrite enc4_bytes by lia. simpl. repeat f_equal; symmetry; apply Hback; lia.
    + unfold rune_ok, between. rewrite !(proj2 (Z.ltb_ge _ _)) by lia. simpl.
      apply negb_true_iff, andb_false_iff. rewrite !Z.leb_gt. lia.
Qed.

Lemma encode_runes_valid p : Valid p = true → concat (EncodeRune <$> runes p) = p.
Proof.
  intros Hv. rewrite <- (concat_chunks p) at 2. f_equal.
  unfold runes. rewrite <- list_fmap_compose. rewrite <- (list_fmap_id (chunks p)) at 2.
  unfold Valid in Hv. rewrite forallb_Forall, Forall_forall in Hv.
  pose proof (chunks_is_chunk p) as Hc. rewrite Forall_forall in Hc.
  apply list_fmap_ext. intros i c Hi%list_elem_of_lookup_2. simpl.
  apply Encode_DecodeRune; [by apply Hc|by apply Hv].
Qed.
