(* ===== verification/GoHttp.v ===== *)
(** * GoHttp: what the program uses of Go's HTTP packages

    Status codes and their texts, headers, the folding of case in header
    names, and the errors of a connection: an error is its text with the
    chain that [errors.Is] and [errors.As] walk. *)

From Stdlib Require Import Ascii ZArith Lia.
From S2P Require Import Prelude GoStrings GoText.

Local Open Scope Z_scope.

(** ** net/http *)

Definition MethodGet : string := "GET".
Definition MethodPost : string := "POST".

Definition StatusOK : Z := 200.
Definition StatusMultipleChoices : Z := 300.

Definition status_texts : list (Z * string) :=
  [(100, "Continue"); (101, "Switching Protocols"); (102, "Processing"); (103, "Early Hints");
   (200, "OK"); (201, "Created"); (202, "Accepted"); (203, "Non-Authoritative Information");
   (204, "No Content"); (205, "Reset Content"); (206, "Partial Content"); (207, "Multi-Status");
   (208, "Already Reported"); (226, "IM Used");
   (300, "Multiple Choices"); (301, "Moved Permanently"); (302, "Found"); (303, "See Other");
   (304, "Not Modified"); (305, "Use Proxy"); (307, "Temporary Redirect"); (308, "Permanent Redirect");
   (400, "Bad Request"); (401, "Unauthorized"); (402, "Payment Required"); (403, "Forbidden");
   (404, "Not Found"); (405, "Method Not Allowed"); (406, "Not Acceptable");
   (407, "Proxy Authentication Required"); (408, "Request Timeout"); (409, "Conflict"); (410, "Gone");
   (411, "Length Required"); (412, "Precondition Failed"); (413, "Request Entity Too Large");
   (414, "Request URI Too Long"); (415, "Unsupported Media Type"); (416, "Requested Range Not Satisfiable");
   (417, "Expectation Failed"); (418, "I'm a teapot"); (421, "Misdirected Request");
   (422, "Unprocessable Entity"); (423, "Locked"); (424, "Failed Dependency"); (425, "Too Early");
   (426, "Upgrade Required"); (428, "Precondition Required"); (429, "Too Many Requests");
   (431, "Request Header Fields Too Large"); (451, "Unavailable For Legal Reasons");
   (500, "Internal Server Error"); (501, "Not Implemented"); (502, "Bad Gateway");
   (503, "Service Unavailable"); (504, "Gateway Timeout"); (505, "HTTP Version Not Supported");
   (506, "Variant Also Negotiates"); (507, "Insufficient Storage"); (508, "Loop Detected");
   (510, "Not Extended"); (511, "Network Authentication Required")].

Definition StatusText (code : Z) : string :=
  match list_find (λ e, e.1 = code) status_texts with
  | Some (_, (_, text)) => text
  | None => EmptyString
  end.

Definition success (code : Z) : bool := (StatusOK <=? code) && (code <? StatusMultipleChoices).

(** Header names are canonical: a response's headers come from net/http. *)
Definition Header : Type := gmap string (list string).

(** [http.Header.Get] of a canonical name. *)
Definition Get (h : Header) (name : string) : string :=
  match h !! name with Some (v :: _) => v | _ => EmptyString end.

(** ** strings.EqualFold with an ASCII text

    Besides the other case, the Kelvin sign folds to k and the long s to s. *)
Definition fold_rune (r : Z) : Z :=
  if utf8.between 65 90 r then r + 32
  else if r =? 0x212A then 107
  else if r =? 0x17F then 115
  else r.

Definition EqualFold (s ascii_text : string) : bool :=
  bool_decide (fold_rune <$> utf8.runes (to_bytes s) = fold_rune <$> utf8.runes (to_bytes ascii_text)).

(** ** Errors *)

(** The errors the program compares with. *)
Inductive error_target : Set :=
  | context_Canceled | context_DeadlineExceeded | target_EOF | target_UnexpectedEOF
  | ECONNABORTED | ECONNREFUSED | ECONNRESET | EHOSTDOWN | EHOSTUNREACH
  | ENETDOWN | ENETUNREACH | EPIPE | ETIMEDOUT.

#[export] Instance error_target_eq_dec : EqDecision error_target.
Proof. solve_decision. Defined.

(** One error of a chain: the targets it is (by identity or its method Is),
    and what its methods Timeout and Temporary return if it is a net.Error or
    has the method. *)
Record error_node : Set := Node {
  matches : list error_target;
  net_timeout : option bool;
  temporary : option bool;
}.
Definition plain_node : error_node := Node [] None None.

Module rerr.
Record remote_error : Set := Mk { Error : string; chain : list error_node }.
End rerr.
Abbreviation remote_error := rerr.remote_error.

Definition Is_ (err : remote_error) (t : error_target) : bool :=
  existsb (λ n, bool_decide (t ∈ matches n)) (rerr.chain err).

(** [errors.As] finds the first error of the chain that has the methods. *)
Fixpoint first_of (f : error_node → option bool) (chain : list error_node) : option bool :=
  match chain with
  | [] => None
  | n :: chain => match f n with Some b => Some b | None => first_of f chain end
  end.
Definition times_out (err : remote_error) : bool := default false (first_of net_timeout (rerr.chain err)).
Definition is_temporary (err : remote_error) : bool := default false (first_of temporary (rerr.chain err)).

Definition plain_error (text : string) : remote_error := rerr.Mk text [plain_node].

(** [fmt.Errorf] with a prefix and the verb %w. *)
Definition wrapped (prefix : string) (err : remote_error) : remote_error :=
  rerr.Mk (prefix +:+ rerr.Error err) (plain_node :: rerr.chain err).

(** [errors.Join(err, other)], [other] possibly nil. *)
Definition joined_with (err : remote_error) (other : option remote_error) : remote_error :=
  match other with
  | None => rerr.Mk (rerr.Error err) (plain_node :: rerr.chain err)
  | Some o => rerr.Mk (rerr.Error err +:+ String "010" EmptyString +:+ rerr.Error o)
                (plain_node :: rerr.chain err ++ rerr.chain o)
  end.

(** [context.DeadlineExceeded] is a net.Error that times out and is temporary. *)
Definition DeadlineExceeded : remote_error :=
  rerr.Mk "context deadline exceeded" [Node [context_DeadlineExceeded] (Some true) (Some true)].
Definition ContextCanceled : remote_error :=
  rerr.Mk "context canceled" [Node [context_Canceled] None None].
Definition EOF : remote_error := rerr.Mk "EOF" [Node [target_EOF] None None].
Definition UnexpectedEOF : remote_error := rerr.Mk "unexpected EOF" [Node [target_UnexpectedEOF] None None].

Lemma Is_joined err other t : Is_ err t = true → Is_ (joined_with err other) t = true.
Proof.
  unfold Is_. intros H. destruct other; cbn.
  - by rewrite existsb_app, H.
  - done.
Qed.
