(* ===== verification/NetIP.v ===== *)
(** * NetIP: what the program uses of Go's package net

    Hosts with ports and the texts of IP addresses. *)

From Stdlib Require Import Ascii ZArith Lia.
From S2P Require Import Prelude GoStrings GoText.

Local Open Scope Z_scope.

(** ** net.SplitHostPort and net.ParseIP *)

Fixpoint last_index (c : ascii) (p : bytes) : option nat :=
  match p with
  | [] => None
  | d :: p =>
    match last_index c p with
    | Some i => Some (S i)
    | None => if Ascii.eqb d c then Some 0%nat else None
    end
  end.

Definition contains_byte (c : ascii) (p : bytes) : bool := bool_decide (c ∈ p).

(** The host of [host:port] or [[host]:port]; none for an error. *)
Definition SplitHost (hostport : bytes) : option bytes :=
  match last_index ":" hostport with
  | None => None
  | Some i =>
    match hostport with
    | "["%char :: _ =>
      match IndexByte "]" hostport with
      | None => None
      | Some end_ =>
        if negb (Nat.eqb (S end_) i) then None
        else if contains_byte "[" (drop 1 hostport) || contains_byte "]" (drop (S end_) hostport) then None
        else Some (take (end_ - 1) (drop 1 hostport))
      end
    | _ =>
      let host := take i hostport in
      if contains_byte ":" host || contains_byte "[" hostport || contains_byte "]" hostport then None
      else Some host
    end
  end.

Definition decimal (c : ascii) : bool := utf8.between 48 57 (byte_val c).

(** [parseIPv4Fields]: the value and the number of digits of the field that is
    read, and the fields before it. *)
Fixpoint ipv4_go (s : bytes) (val : Z) (digits : nat) (fields : list Z) : option (list Z) :=
  match s with
  | [] => if Nat.eqb (length fields) 3 && negb (Nat.eqb digits 0) then Some (fields ++ [val]) else None
  | c :: s =>
    if decimal c then
      if Nat.eqb digits 1 && (val =? 0) then None
      else
        let val := val * 10 + (byte_val c - 48) in
        if 255 <? val then None else ipv4_go s val (S digits) fields
    else if Ascii.eqb c "." then
      if Nat.eqb digits 0 || Nat.eqb (length fields) 3 then None
      else ipv4_go s 0 0 (fields ++ [val])
    else None
  end.
Definition parse_ipv4 (s : bytes) : option (list Z) := ipv4_go s 0 0 [].

Definition hex_value (c : ascii) : option Z :=
  let b := byte_val c in
  if decimal c then Some (b - 48)
  else if utf8.between 97 102 b then Some (b - 87)
  else if utf8.between 65 70 b then Some (b - 55)
  else None.

(** The digits of a group: its value, their number and the rest. *)
Fixpoint hex_group (s : bytes) (acc : Z) (n : nat) : Z * nat * bytes :=
  match s with
  | c :: rest => match hex_value c with Some d => hex_group rest (acc * 16 + d) (S n) | None => (acc, n, s) end
  | [] => (acc, n, s)
  end.

(** The loop of [parseIPv6]: [ip] are the bytes so far, [ellipsis] is where the
    double colon was; the fuel is the number of groups. *)
Fixpoint ipv6_go (fuel : nat) (s : bytes) (ip : list Z) (ellipsis : option nat) : option (list Z * option nat) :=
  match fuel with
  | O => match s with [] => Some (ip, ellipsis) | _ => None end
  | S fuel =>
    if (16 <=? len ip) then match s with [] => Some (ip, ellipsis) | _ => None end
    else
      let '(acc, n, rest) := hex_group s 0 0 in
      if Nat.ltb 4 n || Nat.eqb n 0 then None
      else
        match rest with
        | "."%char :: _ =>
          if (bool_decide (ellipsis = None) && negb (len ip =? 12)) || (12 <? len ip) then None
          else match parse_ipv4 s with Some fields => Some (ip ++ fields, ellipsis) | None => None end
        | _ =>
          let ip := ip ++ [acc / 256; acc mod 256] in
          match rest with
          | [] => Some (ip, ellipsis)
          | ":"%char :: [] => None
          | ":"%char :: ":"%char :: rest =>
            match ellipsis with
            | Some _ => None
            | None =>
              match rest with
              | [] => Some (ip, Some (length ip))
              | _ => ipv6_go fuel rest ip (Some (length ip))
              end
            end
          | ":"%char :: rest => ipv6_go fuel rest ip ellipsis
          | _ => None
          end
        end
  end.

Definition expand (ip : list Z) (ellipsis : option nat) : option (list Z) :=
  let n := (16 - length ip)%nat in
  match ellipsis with
  | Some e => if Nat.eqb n 0 then None else Some (take e ip ++ replicate n 0 ++ drop e ip)
  | None => if Nat.eqb n 0 then Some ip else None
  end.

(** Addresses with a zone are refused by net.ParseIP, so a percent sign is an
    error like any other byte. *)
Definition parse_ipv6 (s : bytes) : option (list Z) :=
  match s with
  | ":"%char :: ":"%char :: [] => Some (replicate 16 0)
  | ":"%char :: ":"%char :: rest => '(ip, e) ← ipv6_go 8 rest [] (Some 0%nat); expand ip e
  | _ => '(ip, e) ← ipv6_go 8 s [] None; expand ip e
  end.

Definition v4_prefix : list Z := replicate 10 0 ++ [255; 255].

(** The sixteen bytes of an address: the first point or colon tells which
    notation it is. *)
Definition ParseIP (s : bytes) : option (list Z) :=
  match find (λ c, Ascii.eqb c "." || Ascii.eqb c ":" || Ascii.eqb c "%") s with
  | Some c =>
    if Ascii.eqb c "." then (λ fields, v4_prefix ++ fields) <$> parse_ipv4 s
    else if Ascii.eqb c ":" then parse_ipv6 s
    else None
  | None => None
  end.

(** [ip.IsLoopback()]: 127.0.0.0/8 or ::1 *)
Definition IsLoopback (ip : list Z) : bool :=
  if bool_decide (take 12 ip = v4_prefix) then bool_decide (ip !! 12%nat = Some 127)
  else bool_decide (ip = replicate 15 0 ++ [1]).
