(* ===== verification/RemoteSSE.v ===== *)
(** * RemoteSSE: server-sent events on the wire

    The files remote_sse.go and sse.go of harness/primitives.  The framer cuts
    the bytes of a response body, which arrive in chunks of any size, into
    events; [SSEData] reads the data fields of one event.  A frame is the text
    of one event as it was sent; the framer keeps what it holds of the event
    that has not ended, where its last line ended, and whether the last byte
    was a carriage return that a line feed may follow.

    [SSEFacts] shows what comes out. *)

From Stdlib Require Import Ascii ZArith Lia.
From S2P Require Import Prelude GoStrings GoText.

Local Open Scope Z_scope.

(** ** The framer *)

Definition CR : ascii := "013".
Definition LF : ascii := "010".

Definition SSEFrameDelimiter : Set := Z.
Definition SSEFrameDelimiterStrip : SSEFrameDelimiter := 0.
Definition SSEFrameDelimiterPassThrough : SSEFrameDelimiter := 1.

Module frame.
Record remoteOutputFrame : Set := Mk { offset : Z; data : bytes }.
End frame.
Abbreviation remoteOutputFrame := frame.remoteOutputFrame.

Module framer.
Record remoteSSEFramer : Set := Mk {
  maximumFrameSize : Z;
  frameDelimiter : SSEFrameDelimiter;
  frameWireSize : Z;
  emittedOffset : Z;
  frame : bytes;
  delimiterStart : nat;
  lineHasData : bool;
  afterCR : bool;
  frameEndedAtCR : bool;
  endedFrameWireSize : Z;
}.
End framer.
Abbreviation remoteSSEFramer := framer.remoteSSEFramer.

Definition newRemoteSSEFramer (maximumFrameSize : Z) (frameDelimiter : SSEFrameDelimiter)
  : remoteSSEFramer :=
  framer.Mk maximumFrameSize frameDelimiter 0 0 [] 0 false false false 0.

Section Framer.
Import framer.
Implicit Types f : remoteSSEFramer.

(** The assignments of the framer's fields that occur together. *)
Definition clear_CR f : remoteSSEFramer :=
  Mk (maximumFrameSize f) (frameDelimiter f) (frameWireSize f) (emittedOffset f) (frame f)
    (delimiterStart f) (lineHasData f) false false 0.
Definition set_afterCR (after ended : bool) (size : Z) f : remoteSSEFramer :=
  Mk (maximumFrameSize f) (frameDelimiter f) (frameWireSize f) (emittedOffset f) (frame f)
    (delimiterStart f) (lineHasData f) after ended size.
Definition set_lineHasData (has : bool) f : remoteSSEFramer :=
  Mk (maximumFrameSize f) (frameDelimiter f) (frameWireSize f) (emittedOffset f) (frame f)
    (delimiterStart f) has (afterCR f) (frameEndedAtCR f) (endedFrameWireSize f).
Definition set_delimiterStart (n : nat) f : remoteSSEFramer :=
  Mk (maximumFrameSize f) (frameDelimiter f) (frameWireSize f) (emittedOffset f) (frame f)
    n (lineHasData f) (afterCR f) (frameEndedAtCR f) (endedFrameWireSize f).
Definition set_frame (wire : Z) (emitted : Z) (data : bytes) (n : nat) f : remoteSSEFramer :=
  Mk (maximumFrameSize f) (frameDelimiter f) wire emitted data
    n (lineHasData f) (afterCR f) (frameEndedAtCR f) (endedFrameWireSize f).

Definition frameSizeError f : error :=
  errors_New ("remote SSE frame exceeds " +:+ Itoa (maximumFrameSize f) +:+ " bytes").

Definition appendFrameBytes f (encoded : bytes) : error + remoteSSEFramer :=
  let size := len encoded in
  if maximumFrameSize f - frameWireSize f <? size then inl (frameSizeError f)
  else inr (set_frame (frameWireSize f + size) (emittedOffset f) (frame f ++ encoded) (delimiterStart f) f).

Definition takeFrame f (delimiterStart : nat) : remoteOutputFrame * remoteSSEFramer :=
  let data := if frameDelimiter f =? SSEFrameDelimiterStrip
              then take delimiterStart (frame f) else frame f in
  (frame.Mk (emittedOffset f) data, set_frame 0 (emittedOffset f + len data) [] 0 f).

(** [bytes.IndexAny(encoded, "\r\n")], none for -1. *)
Definition line_end (c : ascii) : bool := Ascii.eqb c CR || Ascii.eqb c LF.
Fixpoint indexLineEnding (encoded : bytes) : option nat :=
  match encoded with
  | [] => None
  | c :: encoded => if line_end c then Some 0%nat else S <$> indexLineEnding encoded
  end.

(** [last := &frames[len(frames)-1]; last.data = append(last.data, c)] *)
Fixpoint extend_last (frames : list remoteOutputFrame) (c : ascii) : list remoteOutputFrame :=
  match frames with
  | [] => []
  | [fr] => [frame.Mk (frame.offset fr) (frame.data fr ++ [c])]
  | fr :: frames => fr :: extend_last frames c
  end.

(** The line feed after the carriage return that ended a frame. *)
Definition passLineFeed f (frames : list remoteOutputFrame) (c : ascii)
  : list remoteOutputFrame * remoteSSEFramer :=
  let '(frames, emitted) :=
    if frameDelimiter f =? SSEFrameDelimiterPassThrough then
      (match frames with
       | [] => [frame.Mk (emittedOffset f) [c]]
       | _ => extend_last frames c
       end, emittedOffset f + 1)
    else (frames, emittedOffset f) in
  (frames, clear_CR (set_frame (frameWireSize f) emitted (frame f) (delimiterStart f) f)).

(** The switch at the end of a segment of a line that ends with [character]. *)
Definition endLine f (frames : list remoteOutputFrame) (character : ascii)
  : list remoteOutputFrame * remoteSSEFramer :=
  let start := (length (frame f) - 1)%nat in
  if Ascii.eqb character CR then
    if lineHasData f then
      (frames, set_lineHasData false (set_afterCR true false (endedFrameWireSize f) (set_delimiterStart start f)))
    else
      let f := set_lineHasData false (set_afterCR true true (frameWireSize f) f) in
      let '(fr, f) := takeFrame f (delimiterStart f) in
      (frames ++ [fr], f)
  else
    if lineHasData f then
      (frames, set_lineHasData false (set_delimiterStart start f))
    else
      let '(fr, f) := takeFrame f (delimiterStart f) in
      (frames ++ [fr], set_lineHasData false f).

(** A run of the loop ends with the frames that are complete and either the
    framer or an error. *)
Definition framed : Type := list remoteOutputFrame * (error + remoteSSEFramer).

(** The loop of [append]; a round takes at least one byte, so [append] gives
    it one unit of fuel for each. *)
Fixpoint appendLoop (fuel : nat) f (frames : list remoteOutputFrame) (encoded : bytes) : framed :=
  match encoded, fuel with
  | [], _ | _, O => (frames, inr f)
  | c :: rest, S fuel =>
    if afterCR f && Ascii.eqb c LF then
      if frameEndedAtCR f then
        if maximumFrameSize f <=? endedFrameWireSize f then (frames, inl (frameSizeError f))
        else let '(frames, f) := passLineFeed f frames c in appendLoop fuel f frames rest
      else match appendFrameBytes f [c] with
      | inl err => (frames, inl err)
      | inr f => appendLoop fuel (set_afterCR false (frameEndedAtCR f) (endedFrameWireSize f) f) frames rest
      end
    else
      let f := if afterCR f then clear_CR f else f in
      match indexLineEnding encoded with
      | None =>
        match appendFrameBytes f encoded with
        | inl err => (frames, inl err)
        | inr f => (frames, inr (set_lineHasData true f))
        end
      | Some lineEnding =>
        match appendFrameBytes f (take (S lineEnding) encoded) with
        | inl err => (frames, inl err)
        | inr f =>
          let f := if (lineEnding =? 0)%nat then f else set_lineHasData true f in
          let '(frames, f) := endLine f frames (default c (encoded !! lineEnding)) in
          appendLoop fuel f frames (drop (S lineEnding) encoded)
        end
      end
  end.

Definition append f (encoded : bytes) : framed := appendLoop (length encoded) f [] encoded.

Definition finish f : list remoteOutputFrame * remoteSSEFramer :=
  let f := clear_CR f in
  if (length (frame f) =? 0)%nat || (frameDelimiter f =? SSEFrameDelimiterStrip)
  then ([], set_frame 0 (emittedOffset f) [] 0 f)
  else let '(fr, f) := takeFrame f (length (frame f)) in ([fr], f).

(** What a response body gives: the chunks it is read in, then its end. *)
Fixpoint appendAll f (chunks : list bytes) : framed :=
  match chunks with
  | [] => ([], inr f)
  | chunk :: chunks =>
    match append f chunk with
    | (frames, inl err) => (frames, inl err)
    | (frames, inr f) =>
      let '(more, outcome) := appendAll f chunks in (frames ++ more, outcome)
    end
  end.

Definition frameBody f (chunks : list bytes) : list remoteOutputFrame * option error :=
  match appendAll f chunks with
  | (frames, inl err) => (frames, Some err)
  | (frames, inr f) => (frames ++ fst (finish f), None)
  end.
End Framer.

(** ** The data of an event *)

Definition BOM : bytes := utf8.EncodeRune 0xFEFF.

Definition TrimPrefix (p prefix : bytes) : bytes :=
  if bool_decide (take (length prefix) p = prefix) then drop (length prefix) p else p.

(** [bytes.FieldsFunc] at line ends: the runs of other bytes. *)
Fixpoint fields_go (p : bytes) (run : bytes) : list bytes :=
  match p with
  | [] => match run with [] => [] | _ => [run] end
  | c :: p =>
    if line_end c then match run with [] => fields_go p [] | _ => run :: fields_go p [] end
    else fields_go p (run ++ [c])
  end.
Definition FieldsLines (p : bytes) : list bytes := fields_go p [].

(** One round of the loop of [SSEData]; none is the nil slice. *)
Definition addData (data : option bytes) (line : bytes) : option bytes :=
  let '(field, value) := match Cut ":" line with Some r => r | None => (line, []) end in
  if negb (bool_decide (field = to_bytes "data")) then data
  else Some (default [] data ++ TrimPrefix value [" "%char] ++ [LF]).

Definition SSEData (frame : bytes) : option bytes :=
  match foldl addData None (FieldsLines (TrimPrefix frame BOM)) with
  | None => None
  | Some data => Some (take (length data - 1) data)
  end.
