(* ===== verification/SSEFacts.v ===== *)
(** * SSEFacts: what the framer recovers

    The framer sees the bytes of a body in chunks; a framer that is given
    single bytes is the reference.  [wire_event] and [sse_message] are what a
    server encodes; the theorems say that the framer and [SSEData] give it
    back. *)

From Stdlib Require Import Ascii ZArith Lia.
From S2P Require Import Prelude GoStrings GoText RemoteSSE.

Local Open Scope Z_scope.

(** ** One byte at a time

    The reference: a framer that is given single bytes. *)

Definition stepByte (f : remoteSSEFramer) (c : ascii) : framed :=
  if framer.afterCR f && Ascii.eqb c LF then
    if framer.frameEndedAtCR f then
      if framer.maximumFrameSize f <=? framer.endedFrameWireSize f then ([], inl (frameSizeError f))
      else let '(frames, f) := passLineFeed f [] c in (frames, inr f)
    else match appendFrameBytes f [c] with
    | inl err => ([], inl err)
    | inr f => ([], inr (set_afterCR false (framer.frameEndedAtCR f) (framer.endedFrameWireSize f) f))
    end
  else
    match appendFrameBytes (if framer.afterCR f then clear_CR f else f) [c] with
    | inl err => ([], inl err)
    | inr f =>
      if line_end c then let '(frames, f) := endLine f [] c in (frames, inr f)
      else ([], inr (set_lineHasData true f))
    end.

Definition prepend (frames : list remoteOutputFrame) (r : framed) : framed := (frames ++ r.1, r.2).

Fixpoint stepBytes (f : remoteSSEFramer) (p : bytes) : framed :=
  match p with
  | [] => ([], inr f)
  | c :: p =>
    match stepByte f c with
    | (frames, inl err) => (frames, inl err)
    | (frames, inr f) => prepend frames (stepBytes f p)
    end
  end.

Lemma prepend_prepend xs ys r : prepend xs (prepend ys r) = prepend (xs ++ ys) r.
Proof. unfold prepend. cbn. by rewrite <- app_assoc. Qed.

Lemma prepend_nil r : prepend [] r = r.
Proof. by destruct r. Qed.

Definition continue (r : framed) (k : remoteSSEFramer → framed) : framed :=
  match r with
  | (frames, inl err) => (frames, inl err)
  | (frames, inr f) => prepend frames (k f)
  end.

Lemma stepBytes_app p q f :
  stepBytes f (p ++ q) = continue (stepBytes f p) (λ f, stepBytes f q).
Proof.
  revert f. induction p as [|c p IH]; intros f; cbn; [by rewrite prepend_nil|].
  destruct (stepByte f c) as [frames [err|f']]; [done|].
  rewrite IH. destruct (stepBytes f' p) as [frames' [err|f'']]; cbn; [done|].
  by rewrite prepend_prepend.
Qed.

Lemma appendFrameBytes_app f p q :
  p ≠ [] →
  appendFrameBytes f (p ++ q) =
    match appendFrameBytes f p with inl err => inl err | inr f => appendFrameBytes f q end.
Proof.
  intros Hp. unfold appendFrameBytes, len. rewrite length_app, app_assoc.
  split_if (framer.maximumFrameSize f - framer.frameWireSize f <? Z.of_nat (length p + length q));
    split_if (framer.maximumFrameSize f - framer.frameWireSize f <? Z.of_nat (length p)); cbn;
    try split_if (framer.maximumFrameSize f - (framer.frameWireSize f + Z.of_nat (length p)) <? Z.of_nat (length q));
    try done; try lia.
  unfold set_frame. cbn. by rewrite Nat2Z.inj_add, Z.add_assoc.
Qed.

Lemma appendFrameBytes_has f b p :
  appendFrameBytes (set_lineHasData b f) p =
    match appendFrameBytes f p with inl err => inl err | inr f => inr (set_lineHasData b f) end.
Proof. unfold appendFrameBytes. cbn. by destruct (_ <? _). Qed.

Lemma appendFrameBytes_fields f p f' :
  appendFrameBytes f p = inr f' →
  framer.afterCR f' = framer.afterCR f ∧ framer.frameDelimiter f' = framer.frameDelimiter f.
Proof. unfold appendFrameBytes. intros H. destruct (_ <? _); by simplify_eq/=. Qed.

Definition text (p : bytes) : Prop := Forall (λ c, line_end c = false) p.

Lemma text_not_LF c : line_end c = false → Ascii.eqb c LF = false.
Proof. unfold line_end. intros H. by destruct (Ascii.eqb c LF); [destruct (Ascii.eqb c CR)|]. Qed.

(** A piece of a line taken at once or byte by byte. *)
Lemma stepBytes_text f p :
  framer.afterCR f = false → text p → p ≠ [] →
  stepBytes f p =
    match appendFrameBytes f p with
    | inl err => ([], inl err)
    | inr f => ([], inr (set_lineHasData true f))
    end.
Proof.
  intros Hcr Hp Hne. revert f Hcr. induction Hp as [|c p Hc Hp IH]; intros f Hcr; [done|].
  cbn. unfold stepByte. rewrite Hcr, Hc. cbn [andb].
  destruct (decide (p = [])) as [->|Hpne].
  - destruct (appendFrameBytes f [c]) as [err|f'] eqn:E; done.
  - change (c :: p) with ([c] ++ p). rewrite appendFrameBytes_app by done.
    destruct (appendFrameBytes f [c]) as [err|f'] eqn:E; [done|].
    destruct (appendFrameBytes_fields _ _ _ E) as [Hcr' _].
    rewrite prepend_nil, (IH Hpne (set_lineHasData true f')) by (cbn; congruence).
    rewrite appendFrameBytes_has. by destruct (appendFrameBytes f' p).
Qed.

Lemma indexLineEnding_none p : indexLineEnding p = None → text p.
Proof.
  induction p as [|c p IH]; cbn; intros H; [constructor|].
  destruct (line_end c) eqn:E; [done|]. constructor; [done|].
  apply IH. by destruct (indexLineEnding p).
Qed.

Lemma indexLineEnding_some p n :
  indexLineEnding p = Some n →
  ∃ seg c q, p = seg ++ c :: q ∧ length seg = n ∧ text seg ∧ line_end c = true.
Proof.
  revert n. induction p as [|c p IH]; cbn; intros n H; [done|].
  destruct (line_end c) eqn:E; simplify_eq/=.
  - exists [], c, p. by repeat split; [constructor|].
  - destruct (indexLineEnding p) as [m|]; simplify_eq/=.
    destruct (IH m eq_refl) as (seg & d & q & -> & <- & Hseg & Hd).
    exists (c :: seg), d, q. by repeat split; [constructor|].
Qed.

Lemma stepBytes_line f seg c q :
  framer.afterCR f = false → text seg → line_end c = true →
  stepBytes f (seg ++ c :: q) =
    match appendFrameBytes f (seg ++ [c]) with
    | inl err => ([], inl err)
    | inr f =>
      let '(frames, f) := endLine (if (length seg =? 0)%nat then f else set_lineHasData true f) [] c in
      prepend frames (stepBytes f q)
    end.
Proof.
  intros Hcr Hseg Hc. rewrite stepBytes_app.
  destruct (decide (seg = [])) as [->|Hne].
  - cbn. rewrite prepend_nil. unfold stepByte. rewrite Hcr, Hc. cbn [andb].
    destruct (appendFrameBytes f [c]) as [err|f']; [done|].
    by destruct (endLine f' [] c) as [frames f''].
  - rewrite stepBytes_text, appendFrameBytes_app by done.
    destruct (appendFrameBytes f seg) as [err|f'] eqn:E; [done|].
    destruct (appendFrameBytes_fields _ _ _ E) as [Hcr' _].
    assert ((length seg =? 0)%nat = false) as -> by (by destruct seg).
    cbn [continue]. rewrite prepend_nil. cbn [stepBytes]. unfold stepByte.
    cbn [set_lineHasData framer.afterCR]. rewrite Hcr', Hcr, Hc. cbn [andb]. rewrite appendFrameBytes_has.
    destruct (appendFrameBytes f' [c]) as [err|f'']; [done|].
    by destruct (endLine (set_lineHasData true f'') [] c).
Qed.

Lemma endLine_frames f frames c :
  endLine f frames c = (frames ++ (endLine f [] c).1, (endLine f [] c).2).
Proof.
  unfold endLine.
  by destruct (Ascii.eqb c CR), (framer.lineHasData f); cbn; rewrite ?app_nil_r.
Qed.

Definition strips (f : remoteSSEFramer) : Prop :=
  framer.frameDelimiter f = SSEFrameDelimiterStrip.

Lemma passLineFeed_strips f frames c :
  strips f →
  passLineFeed f frames c =
    (frames, clear_CR (set_frame (framer.frameWireSize f) (framer.emittedOffset f) (framer.frame f)
                         (framer.delimiterStart f) f)).
Proof. unfold strips, passLineFeed. by intros ->. Qed.

Lemma endLine_strips f frames c : strips f → strips (endLine f frames c).2.
Proof.
  unfold strips, endLine.
  by destruct (Ascii.eqb c CR), (framer.lineHasData f).
Qed.

(** The framer that strips delimiters does not see how its bytes are cut. *)
Lemma appendLoop_bytes fuel f frames p :
  strips f → (length p ≤ fuel)%nat →
  appendLoop fuel f frames p = prepend frames (stepBytes f p).
Proof.
  revert f frames p. induction fuel as [|fuel IH]; intros f frames p Hf Hlen.
  { destruct p; [|cbn in Hlen; lia]. unfold prepend. cbn. by rewrite app_nil_r. }
  destruct p as [|c p]; [unfold prepend; cbn; by rewrite app_nil_r|].
  cbn [appendLoop]. destruct (framer.afterCR f && Ascii.eqb c LF) eqn:Ecr.
  - cbn [stepBytes]. unfold stepByte. rewrite Ecr. cbn in Hlen.
    destruct (framer.frameEndedAtCR f).
    + destruct (_ <=? _); [unfold prepend; cbn; by rewrite app_nil_r|].
      rewrite !passLineFeed_strips by done. rewrite IH by (done || lia). by rewrite prepend_nil.
    + destruct (appendFrameBytes f [c]) as [err|f'] eqn:E; [unfold prepend; cbn; by rewrite app_nil_r|].
      apply appendFrameBytes_fields in E as [_ E].
      rewrite IH by (lia || (unfold strips; cbn; congruence)). by rewrite prepend_nil.
  - assert (Hstep : stepBytes f (c :: p) = stepBytes (if framer.afterCR f then clear_CR f else f) (c :: p)).
    { destruct (framer.afterCR f) eqn:Ef; [|done].
      cbn [stepBytes]. unfold stepByte. rewrite Ef. cbn in Ecr |- *. by rewrite Ecr. }
    rewrite Hstep. set (g := if framer.afterCR f then clear_CR f else f).
    assert (Hg : framer.afterCR g = false ∧ strips g)
      by (unfold g, strips; destruct (framer.afterCR f) eqn:?; cbn; done).
    destruct Hg as [Hg Hgs]. clearbody g. clear Hstep Ecr f Hf.
    destruct (indexLineEnding (c :: p)) as [n|] eqn:Ei.
    + destruct (indexLineEnding_some _ _ Ei) as (seg & d & q & E & <- & Hseg & Hd).
      rewrite E in Hlen |- *. rewrite stepBytes_line by done.
      rewrite length_app in Hlen. cbn in Hlen.
      assert (Hl : (seg ++ d :: q) !! length seg = Some d) by by apply list_lookup_middle.
      rewrite (take_S_r _ _ d Hl), take_app_length, Hl. cbn [default from_option id].
      rewrite (cons_middle d seg q), app_assoc, (drop_app_length' _ _ (S (length seg)))
        by (rewrite length_app; cbn; lia).
      destruct (appendFrameBytes g (seg ++ [d])) as [err|g'] eqn:Ea;
        [unfold prepend; cbn; by rewrite app_nil_r|].
      apply appendFrameBytes_fields in Ea as [_ Ea].
      set (h := if (length seg =? 0)%nat then g' else set_lineHasData true g').
      assert (Hh : strips h) by (unfold h, strips; destruct (length seg =? 0)%nat; cbn; congruence).
      pose proof (endLine_strips h [] d Hh) as He.
      rewrite (endLine_frames h frames). clearbody h.
      destruct (endLine h [] d) as [more f']. cbn [fst snd] in He |- *.
      rewrite IH by (done || lia). by rewrite prepend_prepend.
    + apply indexLineEnding_none in Ei. rewrite stepBytes_text by done.
      destruct (appendFrameBytes g (c :: p)); unfold prepend; cbn; by rewrite app_nil_r.
Qed.

Lemma stepByte_strips f c frames f' : strips f → stepByte f c = (frames, inr f') → strips f'.
Proof.
  intros Hf. unfold stepByte. destruct (framer.afterCR f && Ascii.eqb c LF).
  - destruct (framer.frameEndedAtCR f).
    + destruct (_ <=? _); [done|]. rewrite passLineFeed_strips by done. by intros [= <- <-].
    + destruct (appendFrameBytes f [c]) as [|g] eqn:E; [done|].
      apply appendFrameBytes_fields in E as [_ E]. intros [= <- <-]. unfold strips in *. cbn. congruence.
  - destruct (appendFrameBytes _ [c]) as [|g] eqn:E; [done|].
    apply appendFrameBytes_fields in E as [_ E].
    assert (Hg : strips g) by (unfold strips in *; destruct (framer.afterCR f); cbn in E; congruence).
    destruct (line_end c); [|by intros [= <- <-]].
    pose proof (endLine_strips g [] c Hg). destruct (endLine g [] c). by intros [= <- <-].
Qed.

Lemma stepBytes_strips f p frames f' : strips f → stepBytes f p = (frames, inr f') → strips f'.
Proof.
  revert f frames. induction p as [|c p IH]; cbn; intros f frames Hf H; [congruence|].
  destruct (stepByte f c) as [now [err|g]] eqn:E; [done|].
  unfold prepend in H. destruct (stepBytes g p) as [more r] eqn:Eg. cbn in H.
  assert (r = inr f') as -> by congruence.
  exact (IH g more (stepByte_strips f c now g Hf E) Eg).
Qed.

Lemma appendAll_bytes f chunks : strips f → appendAll f chunks = stepBytes f (concat chunks).
Proof.
  revert f. induction chunks as [|chunk chunks IH]; intros f Hf; cbn; [done|].
  unfold append. rewrite stepBytes_app, appendLoop_bytes, prepend_nil by done.
  destruct (stepBytes f chunk) as [frames [err|g]] eqn:E; [done|]. cbn.
  rewrite IH by exact (stepBytes_strips _ _ _ _ Hf E). by destruct (stepBytes g (concat chunks)).
Qed.

(** ** The wire format

    A server's encoding of an event: lines of text, each with one of the
    three line ends, then an empty line.  An empty line that is a single line
    feed cannot follow a line that ends in a carriage return: the two bytes
    are one line end. *)

Inductive line_terminator : Set := TCR | TLF | TCRLF.

Definition terminator_bytes (t : line_terminator) : bytes :=
  match t with TCR => [CR] | TLF => [LF] | TCRLF => [CR; LF] end.

Record wire_event : Set := WireEvent {
  lines : list (bytes * line_terminator);
  last_line : bytes * line_terminator;
  blank : line_terminator;
}.

Definition encode_line (l : bytes * line_terminator) : bytes := l.1 ++ terminator_bytes l.2.
Definition encode_lines (ls : list (bytes * line_terminator)) : bytes := concat (encode_line <$> ls).

(** The text of an event: without its last line end and the empty line. *)
Definition event_text (e : wire_event) : bytes := encode_lines (lines e) ++ (last_line e).1.
Definition encode_event (e : wire_event) : bytes :=
  event_text e ++ terminator_bytes (last_line e).2 ++ terminator_bytes (blank e).

Definition line_ok (l : bytes * line_terminator) : Prop := text l.1 ∧ l.1 ≠ [].
Definition event_ok (maximum : Z) (e : wire_event) : Prop :=
  Forall line_ok (lines e) ∧ line_ok (last_line e) ∧
  ((last_line e).2 = TCR → blank e ≠ TLF) ∧ len (encode_event e) ≤ maximum.

(** The frames of texts, each at the offset of the bytes emitted before. *)
Fixpoint frames_from (offset : Z) (texts : list bytes) : list remoteOutputFrame :=
  match texts with
  | [] => []
  | t :: texts => frame.Mk offset t :: frames_from (offset + len t) texts
  end.

Section Events.
Context (maximum : Z).

(** The states of the framer between the bytes of well-formed events: inside
    a line, after a line, after a line that ended in a carriage return, and
    after a frame that did. *)
Definition in_line (off : Z) (b : bytes) (n : nat) (has : bool) : remoteSSEFramer :=
  framer.Mk maximum SSEFrameDelimiterStrip (len b) off b n has false false 0.
Definition after_CR (off : Z) (b : bytes) (n : nat) : remoteSSEFramer :=
  framer.Mk maximum SSEFrameDelimiterStrip (len b) off b n false true false 0.
Definition after_frame (off size : Z) : remoteSSEFramer :=
  framer.Mk maximum SSEFrameDelimiterStrip 0 off [] 0 false true true size.

(** The states in which a line may start with [b] in the frame. *)
Inductive at_line (off : Z) (b : bytes) (n : nat) : remoteSSEFramer → Prop :=
  | at_line_open has : at_line off b n (in_line off b n has)
  | at_line_CR : at_line off b n (after_CR off b n)
  | at_line_frame size : b = [] → n = 0%nat → at_line off b n (after_frame off size).

Lemma len_app {A} (p q : list A) : len (p ++ q) = len p + len q.
Proof. unfold len. rewrite length_app. lia. Qed.

Lemma len_nonneg {A} (p : list A) : 0 ≤ len p.
Proof. unfold len. lia. Qed.

Lemma append_in_line off b n has p :
  len b + len p ≤ maximum →
  appendFrameBytes (in_line off b n has) p = inr (in_line off (b ++ p) n has).
Proof.
  intros H. unfold appendFrameBytes. cbn.
  split_if (maximum - len b <? len p); [lia|].
  unfold set_frame, in_line. cbn. by rewrite len_app.
Qed.

Lemma append_after_CR off b n p :
  len b + len p ≤ maximum →
  appendFrameBytes (after_CR off b n) p = inr (after_CR off (b ++ p) n).
Proof.
  intros H. unfold appendFrameBytes. cbn.
  split_if (maximum - len b <? len p); [lia|].
  unfold set_frame, after_CR. cbn. by rewrite len_app.
Qed.

Lemma step_text off b n p : ∀ f,
  at_line off b n f → text p → p ≠ [] → len b + len p ≤ maximum →
  stepBytes f p = ([], inr (in_line off (b ++ p) n true)).
Proof.
  intros f Hf Hp Hne Hlen.
  assert (Hopen : ∀ has, stepBytes (in_line off b n has) p = ([], inr (in_line off (b ++ p) n true))).
  { intros has. rewrite stepBytes_text, append_in_line by done. done. }
  destruct Hf as [has| |size -> ->]; [done| |];
    destruct Hp as [|c p Hc Hp]; [done| |done|]; rewrite <- (Hopen false); cbn [stepBytes];
    unfold stepByte; cbn [after_CR after_frame in_line framer.afterCR];
    by rewrite (text_not_LF c Hc).
Qed.

(** The state after a line of text with its line end. *)
Definition line_ended (off : Z) (b : bytes) (n : nat) (t : line_terminator) : remoteSSEFramer :=
  match t with
  | TCR => after_CR off b n
  | _ => in_line off b n false
  end.

Lemma line_ended_at_line off b n t : at_line off b n (line_ended off b n t).
Proof. destruct t; constructor. Qed.

Lemma step_terminator off b n t :
  len b + len (terminator_bytes t) ≤ maximum →
  stepBytes (in_line off b n true) (terminator_bytes t) =
    ([], inr (line_ended off (b ++ terminator_bytes t) (length b) t)).
Proof.
  intros Hlen.
  assert (HCR : ∀ t, t = [CR] ∨ t = [CR; LF] → len b + len t ≤ maximum →
    stepByte (in_line off b n true) CR = ([], inr (after_CR off (b ++ [CR]) (length b)))).
  { intros s Hs Hls. unfold stepByte. cbn [in_line framer.afterCR andb].
    fold (in_line off b n true). rewrite append_in_line by (destruct Hs as [->| ->]; unfold len in *; cbn in *; lia).
    cbn. unfold endLine. cbn. unfold after_CR.
    rewrite length_app. cbn. by rewrite Nat.add_sub. }
  destruct t; cbn [terminator_bytes stepBytes line_ended].
  - by rewrite (HCR [CR]) by auto.
  - unfold stepByte. cbn [in_line framer.afterCR andb]. fold (in_line off b n true).
    rewrite append_in_line by done. cbn. unfold endLine, in_line. cbn.
    rewrite length_app. cbn. by rewrite Nat.add_sub.
  - rewrite (HCR [CR; LF]) by auto. rewrite prepend_nil. unfold stepByte.
    cbn [after_CR framer.afterCR framer.frameEndedAtCR andb].
    fold (after_CR off (b ++ [CR]) (length b)).
    rewrite append_after_CR by (rewrite len_app; unfold len in *; cbn in *; lia).
    cbn. by rewrite <- app_assoc.
Qed.

Lemma step_line off b n l f :
  at_line off b n f → line_ok l → len b + len (encode_line l) ≤ maximum →
  stepBytes f (encode_line l) =
    ([], inr (line_ended off (b ++ encode_line l) (length (b ++ l.1)) l.2)).
Proof.
  intros Hf [Ht Hne] Hlen. unfold encode_line in *. rewrite len_app in Hlen.
  pose proof (len_nonneg (terminator_bytes l.2)).
  rewrite stepBytes_app, (step_text off b n) by (done || lia).
  cbn [continue]. rewrite step_terminator by (rewrite len_app; lia).
  rewrite prepend_nil. by rewrite app_assoc.
Qed.

Lemma step_lines off ls : ∀ b n f,
  at_line off b n f → Forall line_ok ls → len b + len (encode_lines ls) ≤ maximum →
  ∃ n' f', stepBytes f (encode_lines ls) = ([], inr f') ∧ at_line off (b ++ encode_lines ls) n' f'.
Proof.
  induction ls as [|l ls IH]; intros b n f Hf Hls Hlen; cbn in *.
  { exists n, f. by rewrite app_nil_r. }
  inversion Hls as [|? ? Hl Hls']; subst. unfold encode_lines in *. cbn in Hlen. rewrite len_app in Hlen.
  pose proof (len_nonneg (concat (encode_line <$> ls))).
  rewrite stepBytes_app, (step_line off b n) by (done || lia). cbn [continue].
  destruct (IH (b ++ encode_line l) (length (b ++ l.1)) _ (line_ended_at_line _ _ _ l.2)) as (n' & f' & E & H').
  - done.
  - rewrite len_app. lia.
  - exists n', f'. rewrite E, prepend_nil. by rewrite app_assoc.
Qed.

(** An empty line whose first byte is [c] ends the frame. *)
Lemma step_blank_byte off b n t c f' :
  (n ≤ length b)%nat → len b + 1 ≤ maximum →
  (c = CR ∧ f' = after_frame (off + len (take n b)) (len b + 1)) ∨
  (c = LF ∧ t ≠ TCR ∧ f' = in_line (off + len (take n b)) [] 0 false) →
  stepByte (line_ended off b n t) c = ([frame.Mk off (take n b)], inr f').
Proof.
  intros Hn Hlen Hc.
  assert (Hstep : stepByte (in_line off b n false) c = ([frame.Mk off (take n b)], inr f')).
  { unfold stepByte. cbn [in_line framer.afterCR andb]. fold (in_line off b n false).
    rewrite append_in_line by (unfold len in *; cbn; lia).
    assert (Ht : take n (b ++ [c]) = take n b) by (by rewrite take_app_le).
    destruct Hc as [[-> ->]|(-> & _ & ->)]; cbn; unfold endLine; cbn; rewrite Ht;
      unfold set_frame; cbn; rewrite ?len_app; done. }
  destruct Hc as [[-> ->]|(-> & Ht & ->)].
  - destruct t; [|exact Hstep..]. rewrite <- Hstep. done.
  - destruct t; [done|exact Hstep..].
Qed.

Lemma step_blank off b n t k :
  (n ≤ length b)%nat → (t = TCR → k ≠ TLF) → len b + len (terminator_bytes k) ≤ maximum →
  ∃ f', stepBytes (line_ended off b n t) (terminator_bytes k) = ([frame.Mk off (take n b)], inr f')
        ∧ at_line (off + len (take n b)) [] 0 f'.
Proof.
  intros Hn Ht Hlen. destruct k; cbn [terminator_bytes stepBytes]; unfold len in Hlen at 2; cbn in Hlen.
  - eexists. erewrite step_blank_byte by (lia || eauto). split; [done|by constructor].
  - eexists. erewrite step_blank_byte by (lia || (right; split_and!; [done|naive_solver|done])).
    split; [done|constructor].
  - eexists. erewrite step_blank_byte by (lia || eauto). split; [|exact (at_line_open _ _ _ false)].
    unfold stepByte. cbn. split_if (maximum <=? len b + 1); [lia|]. done.
Qed.

Lemma step_event off e f :
  at_line off [] 0 f → event_ok maximum e →
  ∃ f', stepBytes f (encode_event e) = ([frame.Mk off (event_text e)], inr f')
        ∧ at_line (off + len (event_text e)) [] 0 f'.
Proof.
  intros Hf (Hls & Hlast & Hterm & Hlen). unfold encode_event, event_text in *.
  rewrite <- !app_assoc in *. rewrite (app_assoc (last_line e).1) in *. fold (encode_line (last_line e)) in *.
  rewrite !len_app in Hlen.
  pose proof (len_nonneg (terminator_bytes (blank e))). pose proof (len_nonneg (encode_line (last_line e))).
  destruct (step_lines off (lines e) [] 0 f Hf Hls) as (n & f1 & E1 & H1); [change (len (@nil ascii)) with 0; lia|].
  rewrite stepBytes_app, E1. cbn [continue]. rewrite prepend_nil.
  rewrite stepBytes_app, (step_line off _ n) by (done || (cbn [app]; lia)). cbn [continue].
  destruct (step_blank off ([] ++ encode_lines (lines e) ++ encode_line (last_line e))
    (length (encode_lines (lines e) ++ (last_line e).1)) (last_line e).2 (blank e)) as (f2 & E2 & H2).
  - rewrite !length_app. unfold encode_line. rewrite length_app. lia.
  - done.
  - cbn [app]. rewrite !len_app. lia.
  - cbn [app] in *. exists f2. rewrite E2, prepend_nil.
    assert (Ht : take (length (encode_lines (lines e) ++ (last_line e).1))
                   (encode_lines (lines e) ++ encode_line (last_line e))
                 = encode_lines (lines e) ++ (last_line e).1).
    { unfold encode_line. rewrite (app_assoc (encode_lines _)). apply take_app_length. }
    rewrite Ht in *. done.
Qed.

Lemma step_events es : ∀ off f,
  at_line off [] 0 f → Forall (event_ok maximum) es →
  ∃ off' f', stepBytes f (concat (encode_event <$> es)) = (frames_from off (event_text <$> es), inr f')
             ∧ at_line off' [] 0 f'.
Proof.
  induction es as [|e es IH]; intros off f Hf Hes; cbn.
  { by exists off, f. }
  inversion Hes as [|? ? He Hes']; subst.
  destruct (step_event off e f Hf He) as (f1 & E1 & H1).
  destruct (IH _ _ H1 Hes') as (off' & f2 & E2 & H2).
  exists off', f2. by rewrite stepBytes_app, E1; cbn [continue]; rewrite E2.
Qed.

(** The bytes of an event that the connection ends in. *)
Lemma step_partial off ls p f :
  at_line off [] 0 f → Forall line_ok ls → text p →
  len (encode_lines ls) + len p ≤ maximum →
  ∃ f', stepBytes f (encode_lines ls ++ p) = ([], inr f') ∧ strips f'.
Proof.
  intros Hf Hls Hp Hlen. pose proof (len_nonneg p).
  destruct (step_lines off ls [] 0 f Hf Hls) as (n & f1 & E1 & H1); [change (len (@nil ascii)) with 0; lia|].
  rewrite stepBytes_app, E1. cbn [continue]. rewrite prepend_nil.
  destruct (decide (p = [])) as [->|Hne].
  - exists f1. split; [done|]. by destruct H1.
  - eexists. rewrite (step_text _ _ _ _ _ H1) by done. done.
Qed.
End Events.

(** ** The data of an event's text *)

Lemma fields_go_text p q run : text p → fields_go (p ++ q) run = fields_go q (run ++ p).
Proof.
  intros Hp. revert run. induction Hp as [|c p Hc Hp IH]; intros run; cbn; [by rewrite app_nil_r|].
  rewrite Hc, IH. by rewrite <- app_assoc.
Qed.

Lemma fields_go_terminator t q run :
  run ≠ [] → fields_go (terminator_bytes t ++ q) run = run :: fields_go q [].
Proof. destruct t, run; done. Qed.

Lemma FieldsLines_text ls p :
  Forall line_ok ls → text p → p ≠ [] → FieldsLines (encode_lines ls ++ p) = ls.*1 ++ [p].
Proof.
  intros Hls Hp Hne. unfold FieldsLines, encode_lines.
  induction Hls as [|l ls [Hl Hlne] Hls IH]; cbn.
  - rewrite <- (app_nil_r p) at 1. rewrite fields_go_text by done. by destruct p.
  - unfold encode_line at 1. rewrite <- !app_assoc, fields_go_text by done. cbn.
    by rewrite fields_go_terminator, IH.
Qed.

Lemma Cut_name name rest : ":"%char ∉ name → Cut ":" (name ++ (":"%char :: rest)) = Some (name, rest).
Proof.
  induction name as [|c name IH]; intros Hn; [done|]. cbn.
  apply not_elem_of_cons in Hn as [Hc Hn].
  destruct (Ascii.eqb_spec c ":"); [congruence|]. by rewrite IH.
Qed.

(** ** Messages

    A message is a non-empty list of fields, each with its line end. *)

Record sse_field : Set := SSEField { field_name : bytes; field_value : bytes; field_end : line_terminator }.
Record sse_message : Set := SSEMessage {
  message_fields : list sse_field; last_field : sse_field; message_end : line_terminator }.

Definition field_line (f : sse_field) : bytes * line_terminator :=
  (field_name f ++ (":"%char :: " "%char :: field_value f), field_end f).

Definition message_event (m : sse_message) : wire_event :=
  WireEvent (field_line <$> message_fields m) (field_line (last_field m)) (message_end m).

Definition field_ok (f : sse_field) : Prop :=
  text (field_name f) ∧ text (field_value f) ∧ (":"%char ∉ field_name f) ∧ Forall (λ c, byte_val c < 128) (field_name f).

Definition all_fields (m : sse_message) : list sse_field := message_fields m ++ [last_field m].

Definition message_ok (maximum : Z) (m : sse_message) : Prop :=
  Forall field_ok (all_fields m) ∧
  (field_end (last_field m) = TCR → message_end m ≠ TLF) ∧
  len (encode_event (message_event m)) ≤ maximum.

(** The values of the data fields, joined by line feeds. *)
Definition data_values (fs : list sse_field) : list bytes :=
  field_value <$> filter (λ f, field_name f = to_bytes "data") fs.
Definition message_data (m : sse_message) : option bytes :=
  match data_values (all_fields m) with
  | [] => None
  | vs => Some (join_on LF vs)
  end.

Lemma field_line_ok f : field_ok f → line_ok (field_line f).
Proof.
  intros (Hn & Hv & _ & _). split; cbn; [|by destruct (field_name f)].
  apply Forall_app. split; [done|]. by repeat constructor.
Qed.

Lemma message_event_ok maximum m : message_ok maximum m → event_ok maximum (message_event m).
Proof.
  intros (Hfs & Hend & Hlen). apply Forall_app in Hfs as [Hfs Hlast].
  rewrite Forall_singleton in Hlast. split; [|split; [exact (field_line_ok _ Hlast)|done]].
  apply Forall_fmap. exact (Forall_impl _ _ _ Hfs field_line_ok).
Qed.

Definition with_ends (vs : list bytes) : bytes := concat ((λ v, v ++ [LF]) <$> vs).
Arguments with_ends : simpl never.

Lemma with_ends_join vs : vs ≠ [] → with_ends vs = join_on LF vs ++ [LF].
Proof.
  induction vs as [|v vs IH]; [done|intros _]. unfold with_ends in *. cbn.
  destruct vs as [|w vs]; [by rewrite app_nil_r|].
  rewrite IH by done. cbn. by rewrite <- !app_assoc.
Qed.

Lemma addData_field data f :
  field_ok f →
  addData data (field_line f).1 =
    if bool_decide (field_name f = to_bytes "data") then Some (default [] data ++ field_value f ++ [LF]) else data.
Proof.
  intros (_ & _ & Hn & _). unfold addData. cbn. rewrite Cut_name by done.
  by destruct (bool_decide _).
Qed.

Definition accumulated (vs : list bytes) : option bytes :=
  if bool_decide (vs = []) then None else Some (with_ends vs).

Lemma accumulated_snoc vs v : accumulated (vs ++ [v]) = Some (default [] (accumulated vs) ++ v ++ [LF]).
Proof.
  unfold accumulated. rewrite bool_decide_false by (by destruct vs).
  unfold with_ends. rewrite fmap_app, concat_app. cbn. rewrite app_nil_r.
  case_bool_decide as E; [by subst|done].
Qed.

Lemma addData_fields fs vs :
  Forall field_ok fs →
  foldl addData (accumulated vs) ((field_line <$> fs).*1) = accumulated (vs ++ data_values fs).
Proof.
  intros Hfs. revert vs. induction Hfs as [|f fs Hf Hfs IH]; intros vs.
  { change (data_values []) with (@nil bytes). by rewrite app_nil_r. }
  cbn [fmap list_fmap foldl]. rewrite addData_field by done.
  unfold data_values in *. rewrite filter_cons.
  destruct (decide (field_name f = to_bytes "data")) as [E|E].
  - rewrite bool_decide_true, <- accumulated_snoc, IH by done. by rewrite <- app_assoc.
  - rewrite bool_decide_false by done. apply IH.
Qed.

Lemma message_text_no_BOM m :
  Forall field_ok (all_fields m) → TrimPrefix (event_text (message_event m)) BOM = event_text (message_event m).
Proof.
  intros Hfs. unfold TrimPrefix.
  assert (Hc : ∃ c q, event_text (message_event m) = c :: q ∧ byte_val c < 128).
  { assert (Hf : ∀ f q, field_ok f → ∃ c q', (field_line f).1 ++ q = c :: q' ∧ byte_val c < 128).
    { intros f q (_ & _ & _ & Ha). cbn. destruct (field_name f) as [|c n]; cbn.
      - by eexists _, _.
      - inversion Ha; subst. by eexists _, _. }
    unfold event_text. unfold all_fields in Hfs. cbn [message_event lines last_line].
    destruct (message_fields m) as [|f fs]; cbn [fmap list_fmap app] in *.
    - destruct (Hf (last_field m) []) as (c & q & E & H); [by inversion Hfs|].
      rewrite app_nil_r in E. by exists c, q; rewrite <- E.
    - unfold encode_lines. cbn [fmap list_fmap concat].
      unfold encode_line at 1. rewrite <- !(app_assoc (field_line f).1).
      apply Hf. by inversion Hfs. }
  destruct Hc as (c & q & -> & Hc). rewrite bool_decide_false; [done|].
  intros E. assert (Hh : Some c = head BOM) by (rewrite <- E; done).
  vm_compute in Hh. injection Hh as ->. vm_compute in Hc. done.
Qed.

Lemma SSEData_message maximum m :
  message_ok maximum m → SSEData (event_text (message_event m)) = message_data m.
Proof.
  intros Hm. pose proof (message_event_ok _ _ Hm) as (Hls & [Hl Hne] & _).
  destruct Hm as (Hfs & _ & _). unfold SSEData. rewrite message_text_no_BOM by done.
  unfold event_text. rewrite FieldsLines_text by done. cbn [message_event lines last_line].
  change [(field_line (last_field m)).1] with ((field_line <$> [last_field m]).*1).
  rewrite <- fmap_app, <- fmap_app. fold (all_fields m).
  pose proof (addData_fields (all_fields m) [] Hfs) as E. cbn [app] in E.
  change (accumulated []) with (@None bytes) in E. rewrite E.
  unfold message_data, accumulated. destruct (data_values (all_fields m)) as [|v vs]; [done|].
  rewrite bool_decide_false, with_ends_join by done. f_equal. rewrite length_app. cbn [length].
  by rewrite Nat.add_sub, take_app_length.
Qed.

Lemma frameBody_messages maximum ms ls p chunks :
  Forall (message_ok maximum) ms →
  Forall line_ok ls → text p → len (encode_lines ls) + len p ≤ maximum →
  concat chunks = concat (encode_event ∘ message_event <$> ms) ++ encode_lines ls ++ p →
  let framed := frameBody (newRemoteSSEFramer maximum SSEFrameDelimiterStrip) chunks in
  framed = (frames_from 0 (event_text ∘ message_event <$> ms), None) ∧
  SSEData ∘ frame.data <$> framed.1 = message_data <$> ms.
Proof.
  intros Hms Hls Hp Hlen Hc.
  assert (E : frameBody (newRemoteSSEFramer maximum SSEFrameDelimiterStrip) chunks
              = (frames_from 0 (event_text ∘ message_event <$> ms), None)).
  { unfold frameBody. rewrite appendAll_bytes, Hc, stepBytes_app by done.
    destruct (step_events maximum (message_event <$> ms) 0 (newRemoteSSEFramer maximum SSEFrameDelimiterStrip))
      as (off & f & E & Hf).
    - exact (at_line_open _ _ _ _ false).
    - apply Forall_fmap. exact (Forall_impl _ _ _ Hms (message_event_ok maximum)).
    - rewrite <- !list_fmap_compose in E. rewrite E.
      destruct (step_partial maximum off ls p f Hf Hls Hp Hlen) as (g & Eg & Hg).
      cbn [continue]. rewrite Eg. cbn. rewrite app_nil_r. unfold finish. cbn. rewrite Hg, orb_true_r.
      cbn. by rewrite app_nil_r. }
  cbn zeta. rewrite E. split; [done|]. cbn [fst]. generalize 0 at 1. clear E Hc Hlen.
  induction Hms as [|m ms Hm Hms IH]; intros off; cbn; [done|].
  f_equal; [exact (SSEData_message maximum m Hm)|apply IH].
Qed.

(** C24: A body that encodes messages, whatever the chunks in which it is read
    and whatever unfinished message the connection ends in, gives one frame
    per message, in order, each at the offset where the one before it ended,
    and no error; the data of each frame is the data of its message. *)
Theorem sse_events_recovered maximum ms ls p chunks :
  Forall (message_ok maximum) ms →
  Forall line_ok ls → text p → len (encode_lines ls) + len p ≤ maximum →
  concat chunks = concat (encode_event ∘ message_event <$> ms) ++ encode_lines ls ++ p →
  let framed := frameBody (newRemoteSSEFramer maximum SSEFrameDelimiterStrip) chunks in
  framed = (frames_from 0 (event_text ∘ message_event <$> ms), None) ∧
  SSEData ∘ frame.data <$> framed.1 = message_data <$> ms.
Proof. apply frameBody_messages. Qed.

(** ** The mode that passes delimiters through *)

Abbreviation payload frames := (concat (frame.data <$> frames)).

Lemma frames_from_app off xs ys :
  frames_from off (xs ++ ys) = frames_from off xs ++ frames_from (off + len (concat xs)) ys.
Proof.
  revert off. induction xs as [|x xs IH]; intros off; cbn.
  - by rewrite Z.add_0_r.
  - by rewrite IH, len_app, Z.add_assoc.
Qed.

Section Lossless.
Context (maximum : Z).

(** The frames are consecutive and none exceeds the maximum. *)
Definition emitted (off : Z) (frames : list remoteOutputFrame) : Prop :=
  frames = frames_from off (frame.data <$> frames) ∧ Forall (λ fr, len (frame.data fr) ≤ maximum) frames.

(** The framer has emitted [frames] from [off] on and holds the rest of the
    bytes [p]. *)
Record lossless (off : Z) (p : bytes) (f : remoteSSEFramer) (frames : list remoteOutputFrame) : Prop := {
  l_mode : framer.frameDelimiter f = SSEFrameDelimiterPassThrough;
  l_maximum : framer.maximumFrameSize f = maximum;
  l_emitted : emitted off frames;
  l_offset : framer.emittedOffset f = off + len (payload frames);
  l_bytes : payload frames ++ framer.frame f = p;
  l_size : framer.frameWireSize f = len (framer.frame f);
  l_bound : len (framer.frame f) ≤ maximum;
  l_ended : framer.afterCR f = true → framer.frameEndedAtCR f = true →
    framer.frame f = [] ∧ 0 ≤ framer.endedFrameWireSize f ∧
    ∀ fr, last frames = Some fr → len (frame.data fr) ≤ framer.endedFrameWireSize f;
}.

Lemma emitted_app off frames more :
  emitted off frames → emitted (off + len (payload frames)) more → emitted off (frames ++ more).
Proof.
  intros [E1 H1] [E2 H2]. split; [|by apply Forall_app].
  rewrite fmap_app, frames_from_app. congruence.
Qed.

Lemma emitted_one off data : len data ≤ maximum → emitted off [frame.Mk off data].
Proof. intros H. split; [done|by constructor]. Qed.

Lemma payload_app frames more : payload (frames ++ more) = payload frames ++ payload more.
Proof. by rewrite fmap_app, concat_app. Qed.

Lemma extend_last_snoc frames fr c :
  extend_last (frames ++ [fr]) c = frames ++ [frame.Mk (frame.offset fr) (frame.data fr ++ [c])].
Proof.
  induction frames as [|x frames IH]; [done|]. cbn. rewrite IH.
  by destruct frames.
Qed.

Lemma lossless_restart off p f frames :
  lossless off p f frames → lossless (framer.emittedOffset f) (framer.frame f) f [].
Proof.
  intros [Hm Hmax He Ho Hb Hs Hbd Hcr]. split; cbn; try done.
  - exact (eq_sym (Z.add_0_r _)).
  - intros H1 H2. destruct (Hcr H1 H2) as (? & ? & _). by split_and!.
Qed.

Lemma lossless_clear off p f frames :
  lossless off p f frames → lossless off p (if framer.afterCR f then clear_CR f else f) frames.
Proof. intros H. destruct (framer.afterCR f); [|done]. by destruct H; split. Qed.

Lemma lossless_append off p f frames q f' :
  lossless off p f frames → (framer.afterCR f = true → framer.frameEndedAtCR f = true → False) →
  appendFrameBytes f q = inr f' → lossless off (p ++ q) f' frames.
Proof.
  intros [Hm Hmax He Ho Hb Hs Hbd Hcr] Hno. unfold appendFrameBytes.
  split_if (framer.maximumFrameSize f - framer.frameWireSize f <? len q); [done|].
  intros [= <-]. split; cbn; try done.
  - by rewrite app_assoc, Hb.
  - by rewrite len_app, Hs.
  - rewrite len_app. lia.
  - intros H1 H2. by destruct (Hno H1 H2).
Qed.

Lemma lossless_has off p f frames b :
  lossless off p f frames → lossless off p (set_lineHasData b f) frames.
Proof. intros H. by destruct H; split. Qed.

Lemma lossless_take off p f frames n (after ended : bool) size :
  lossless off p f frames → len (framer.frame f) ≤ size →
  lossless off p (set_lineHasData false (takeFrame (set_afterCR after ended size f) n).2)
    (frames ++ [(takeFrame (set_afterCR after ended size f) n).1]).
Proof.
  intros [Hm Hmax He Ho Hb Hs Hbd Hcr] Hsize.
  assert (E : takeFrame (set_afterCR after ended size f) n
    = (frame.Mk (framer.emittedOffset f) (framer.frame f),
       set_frame 0 (framer.emittedOffset f + len (framer.frame f)) [] 0 (set_afterCR after ended size f)))
    by (unfold takeFrame; cbn; by rewrite Hm).
  rewrite E. pose proof (len_nonneg (framer.frame f)). split; cbn; try done.
  - apply emitted_app; [done|]. rewrite <- Ho. by apply emitted_one.
  - rewrite payload_app, len_app, Ho. cbn. rewrite app_nil_r. lia.
  - rewrite payload_app. cbn. by rewrite !app_nil_r.
  - change (len (@nil ascii)) with 0. lia.
  - intros -> ->. split_and!; [done|lia|]. intros fr. rewrite last_snoc. by intros [= <-].
Qed.

Lemma lossless_endLine off p f frames c :
  lossless off p f frames → framer.afterCR f = false →
  lossless off p (endLine f frames c).2 (endLine f frames c).1.
Proof.
  intros H Hcr. unfold endLine. destruct (Ascii.eqb c CR), (framer.lineHasData f) eqn:Eh.
  - by destruct H; split.
  - assert (Hsize : len (framer.frame f) ≤ framer.frameWireSize f) by (rewrite (l_size _ _ _ _ H); lia).
    exact (lossless_take off p f frames (framer.delimiterStart f) true true (framer.frameWireSize f) H Hsize).
  - by destruct H; split.
  - pose proof (lossless_take off p f frames (framer.delimiterStart f) false false
                  (len (framer.frame f)) H ltac:(lia)) as Ht.
    destruct Ht as [? ? ? ? ? ? ? _], H as [Hm _ _ _ _ _ _ _].
    unfold takeFrame in *. cbn in *. rewrite Hm in *. split; try done. cbn. congruence.
Qed.

Lemma lossless_passLineFeed off p f frames c :
  lossless off p f frames → framer.afterCR f = true → framer.frameEndedAtCR f = true →
  framer.endedFrameWireSize f < maximum →
  lossless off (p ++ [c]) (passLineFeed f frames c).2 (passLineFeed f frames c).1.
Proof.
  intros [Hm Hmax He Ho Hb Hs Hbd Hcr] H1 H2 Hlt. destruct (Hcr H1 H2) as (Hf & H0 & Hlast).
  unfold passLineFeed. rewrite Hm. cbn -[extend_last].
  assert (Hs' : ∃ out, match frames with
                       | [] => [frame.Mk (framer.emittedOffset f) [c]]
                       | _ => extend_last frames c
                       end = out ∧ emitted off out ∧ payload out = payload frames ++ [c]).
  { eexists. split; [done|]. destruct frames as [|fr frames _] using rev_ind.
    - cbn in Ho. rewrite Z.add_0_r in Ho. rewrite Ho. split; [|done].
      apply emitted_one. unfold len. cbn. lia.
    - destruct He as [E HF]. apply Forall_app in HF as [HF HF']. inversion HF' as [|? ? Hfr _]; subst.
      specialize (Hlast fr (last_snoc _ _)).
      assert (Hne : ∀ A (x y : A), match frames ++ [fr] with [] => x | _ => y end = y) by (by destruct frames).
      rewrite !Hne, extend_last_snoc.
      rewrite fmap_app, frames_from_app in E. apply app_inj_2 in E as [E1 E2]; [|done].
      split; [|rewrite !payload_app; cbn; by rewrite !app_nil_r, app_assoc].
      apply emitted_app; [done|]. cbn in E2. injection E2 as ->. apply emitted_one.
      unfold len in *. rewrite length_app. cbn. lia. }
  destruct Hs' as (out & -> & He' & Ep). split; cbn; try done.
  - rewrite Ep, len_app, Ho. change (len [c]) with 1. lia.
  - rewrite Ep, <- app_assoc, Hf. cbn. rewrite Hf, app_nil_r in Hb. by rewrite <- Hb.
Qed.

Lemma lossless_loop fuel off p f frames rest :
  lossless off p f frames → (length rest ≤ fuel)%nat →
  match appendLoop fuel f frames rest with
  | (frames, inr f) => lossless off (p ++ rest) f frames
  | (frames, inl _) => emitted off frames ∧ payload frames `prefix_of` p ++ rest
  end.
Proof.
  revert p f frames rest. induction fuel as [|fuel IH]; intros p f frames rest H Hlen.
  { destruct rest; [by rewrite app_nil_r|cbn in Hlen; lia]. }
  destruct rest as [|c rest]; [by rewrite app_nil_r|]. cbn in Hlen.
  assert (Hfail : ∀ q, emitted off frames ∧ payload frames `prefix_of` p ++ q).
  { intros q. split; [apply H|]. rewrite <- (l_bytes _ _ _ _ H), <- app_assoc. by apply prefix_app_r. }
  cbn [appendLoop]. destruct (framer.afterCR f && Ascii.eqb c LF) eqn:Ecr.
  - apply andb_prop in Ecr as [Hcr _]. destruct (framer.frameEndedAtCR f) eqn:Hend.
    + split_if (framer.maximumFrameSize f <=? framer.endedFrameWireSize f); [apply Hfail|].
      rewrite (l_maximum _ _ _ _ H) in Hif.
      pose proof (lossless_passLineFeed off p f frames c H Hcr Hend Hif) as H'.
      destruct (passLineFeed f frames c) as [frames' f']. rewrite cons_middle, app_assoc.
      apply IH; [done|lia].
    + destruct (appendFrameBytes f [c]) as [err|f'] eqn:E; [apply Hfail|].
      assert (H' : lossless off (p ++ [c]) f' frames)
        by (apply (lossless_append off p f frames [c] f' H); [congruence|done]).
      rewrite cons_middle, app_assoc. apply IH; [|lia]. by destruct H'; split.
  - pose proof (lossless_clear off p f frames H) as Hg. clear H.
    assert (Hcr : framer.afterCR (if framer.afterCR f then clear_CR f else f) = false)
      by (by destruct (framer.afterCR f) eqn:Ef).
    generalize dependent (if framer.afterCR f then clear_CR f else f). clear Ecr f. intros f H Hcr.
    destruct (indexLineEnding (c :: rest)) as [n|] eqn:Ei.
    + destruct (indexLineEnding_some _ _ Ei) as (seg & d & q & E & <- & _ & _).
      assert (Hl : (c :: rest) !! length seg = Some d) by (rewrite E; by apply list_lookup_middle).
      rewrite (take_S_r _ _ d Hl), Hl, E, take_app_length. cbn [default from_option id].
      destruct (appendFrameBytes f (seg ++ [d])) as [err|f'] eqn:Ea; [apply Hfail|].
      pose proof (appendFrameBytes_fields _ _ _ Ea) as [Hcr' _].
      apply (lossless_append off p) with (frames := frames) in Ea; [|done|congruence].
      set (g := if (length seg =? 0)%nat then f' else set_lineHasData true f').
      assert (Hg : lossless off (p ++ seg ++ [d]) g frames ∧ framer.afterCR g = false)
        by (unfold g; destruct (length seg =? 0)%nat; split; (done || (cbn; congruence) || by apply lossless_has)).
      destruct Hg as [Hg Hgc]. clearbody g.
      pose proof (lossless_endLine off _ g frames d Hg Hgc) as H'.
      destruct (endLine g frames d) as [frames' g'].
      rewrite (cons_middle d seg q), app_assoc, (drop_app_length' _ _ (S (length seg)))
        by (rewrite length_app; cbn; lia).
      rewrite (app_assoc p). apply IH; [done|].
      assert (length (c :: rest) = length (seg ++ d :: q)) as Hle by congruence.
      rewrite length_app in Hle. cbn in Hle. lia.
    + destruct (appendFrameBytes f (c :: rest)) as [err|f'] eqn:Ea; [apply Hfail|].
      apply lossless_has. apply (lossless_append off p f frames); [done|congruence|done].
Qed.

Lemma lossless_chunks chunks : ∀ f,
  lossless (framer.emittedOffset f) (framer.frame f) f [] →
  match appendAll f chunks with
  | (frames, inr f') =>
      emitted (framer.emittedOffset f) frames ∧
      lossless (framer.emittedOffset f') (framer.frame f') f' [] ∧
      framer.emittedOffset f' = framer.emittedOffset f + len (payload frames) ∧
      payload frames ++ framer.frame f' = framer.frame f ++ concat chunks
  | (frames, inl _) =>
      emitted (framer.emittedOffset f) frames ∧ payload frames `prefix_of` framer.frame f ++ concat chunks
  end.
Proof.
  induction chunks as [|chunk chunks IH]; intros f H; cbn [appendAll concat].
  { split_and!; [apply H|done|symmetry; apply Z.add_0_r|by rewrite app_nil_r]. }
  pose proof (lossless_loop (length chunk) _ _ f [] chunk H ltac:(lia)) as Hl. unfold append.
  destruct (appendLoop (length chunk) f [] chunk) as [frames [err|g]].
  { destruct Hl as [He Hp]. split; [done|]. rewrite app_assoc. by apply prefix_app_r. }
  pose proof (lossless_restart _ _ _ _ Hl) as Hg. specialize (IH g Hg).
  pose proof (l_bytes _ _ _ _ Hl) as Hb. pose proof (l_offset _ _ _ _ Hl) as Ho.
  destruct (appendAll g chunks) as [more [err|h]]; rewrite payload_app, app_assoc, <- Hb, <- app_assoc.
  - destruct IH as [He Hp]. split; [|by apply prefix_app].
    apply emitted_app; [apply Hl|]. by rewrite <- Ho.
  - destruct IH as (He & Hh & Hoff & Hp). split_and!; [|done| |].
    + apply emitted_app; [apply Hl|]. by rewrite <- Ho.
    + rewrite len_app. lia.
    + by rewrite <- app_assoc, Hp.
Qed.
End Lossless.

(** With delimiters passed through, the frames carry the body: their
    offsets are consecutive from 0, none is larger than the maximum, and their
    data one after the other is the body itself, or a prefix of it when the
    framer reports a frame that is too large. *)
Theorem sse_passthrough_lossless maximum chunks :
  0 ≤ maximum →
  let '(frames, err) := frameBody (newRemoteSSEFramer maximum SSEFrameDelimiterPassThrough) chunks in
  frames = frames_from 0 (frame.data <$> frames) ∧
  Forall (λ fr, len (frame.data fr) ≤ maximum) frames ∧
  payload frames `prefix_of` concat chunks ∧
  (err = None → payload frames = concat chunks).
Proof.
  intros Hmax.
  assert (H0 : lossless maximum 0 [] (newRemoteSSEFramer maximum SSEFrameDelimiterPassThrough) [])
    by (split; done).
  pose proof (lossless_chunks maximum chunks (newRemoteSSEFramer maximum SSEFrameDelimiterPassThrough) H0) as H.
  unfold frameBody. destruct (appendAll _ chunks) as [frames [err|f]].
  { destruct H as [[E HF] Hp]. by split_and!. }
  destruct H as (He & Hf & Ho & Hp). cbn in He, Ho, Hp.
  assert (Hfin : emitted maximum (framer.emittedOffset f) (finish f).1 ∧ payload (finish f).1 = framer.frame f).
  { assert (Hmode : (framer.frameDelimiter f =? SSEFrameDelimiterStrip) = false)
      by (by rewrite (l_mode _ _ _ _ _ Hf)).
    pose proof (l_bound _ _ _ _ _ Hf) as Hb. unfold finish, takeFrame.
    cbn [clear_CR framer.frameDelimiter framer.frame framer.emittedOffset]. rewrite Hmode, orb_false_r.
    destruct (framer.frame f) as [|c p]; [done|]. cbn [length Nat.eqb fst].
    split; [by apply emitted_one|]. cbn. by rewrite app_nil_r. }
  destruct Hfin as [Hfe Hfp]. cbn [fst]. rewrite <- Hfp in Hp. rewrite <- payload_app in Hp.
  destruct (emitted_app maximum 0 frames (finish f).1) as [E HF]; [done|by rewrite <- Ho|].
  split_and!; [done|done|by rewrite Hp|done].
Qed.

(** ** A sample *)

Definition sample_message : sse_message :=
  SSEMessage [SSEField (to_bytes "event") (to_bytes "delta") TCRLF; SSEField (to_bytes "data") (to_bytes "{") TCR]
    (SSEField (to_bytes "data") (to_bytes "}") TCR) TCRLF.

Lemma sample_message_ok : message_ok 64 sample_message.
Proof.
  split; [|split; [done|vm_compute; congruence]].
  repeat (apply Forall_cons; split); [..|apply Forall_nil_2];
    (split_and!; [| |by apply (bool_decide_unpack _)|]); by repeat constructor.
Qed.

Definition sample_body : bytes := encode_event (message_event sample_message) ++ to_bytes "data: lost".
Definition sample_chunks : list bytes := [take 20 sample_body; drop 20 sample_body].

Lemma sse_events_recovered_witness :
  message_data sample_message = Some (to_bytes "{" ++ [LF] ++ to_bytes "}") ∧
  let framed := frameBody (newRemoteSSEFramer 64 SSEFrameDelimiterStrip) sample_chunks in
  framed = (frames_from 0 (event_text ∘ message_event <$> [sample_message]), None) ∧
  SSEData ∘ frame.data <$> framed.1 = message_data <$> [sample_message].
Proof.
  split; [reflexivity|].
  refine (sse_events_recovered 64 [sample_message] [] (to_bytes "data: lost") sample_chunks _ _ _ _ _).
  - constructor; [exact sample_message_ok|constructor].
  - constructor.
  - by repeat constructor.
  - vm_compute. congruence.
  - reflexivity.
Defined.

Lemma sse_passthrough_lossless_witness :
  let body := to_bytes "data: a" ++ [CR; CR; LF] ++ to_bytes "data: b" in
  let '(frames, err) := frameBody (newRemoteSSEFramer 64 SSEFrameDelimiterPassThrough) [take 9 body; drop 9 body] in
  err = None ∧ length frames = 3%nat ∧ payload frames = body.
Proof.
  intros body.
  pose proof (sse_passthrough_lossless 64 [take 9 body; drop 9 body] ltac:(lia)) as H.
  destruct (frameBody _ _) as [frames err] eqn:E. destruct H as (_ & _ & _ & H).
  vm_compute in E. injection E as <- <-. split; [done|]. split; [done|]. rewrite (H eq_refl). done.
Defined.
