(* ===== verification/Base64.v ===== *)
(** * encoding/base64: the standard encoding with padding

    How encoding/json writes and reads a [[]byte] field. *)

From Stdlib Require Import Ascii ZArith Lia.
From S2P Require Import Prelude GoStrings.

Module base64.

Definition alphabet : bytes :=
  to_bytes "ABCDEFGHIJKLMNOPQRSTUVWXYZabcdefghijklmnopqrstuvwxyz0123456789+/".

Definition sextet : Type := bool * bool * bool * bool * bool * bool.

Definition sextet_nat (s : sextet) : nat :=
  let '(b5, b4, b3, b2, b1, b0) := s in
  32 * Nat.b2n b5 + 16 * Nat.b2n b4 + 8 * Nat.b2n b3 + 4 * Nat.b2n b2 + 2 * Nat.b2n b1 + Nat.b2n b0.

Definition nat_sextet (n : nat) : sextet :=
  (Nat.testbit n 5, Nat.testbit n 4, Nat.testbit n 3, Nat.testbit n 2, Nat.testbit n 1,
   Nat.testbit n 0).

Definition digit (s : sextet) : ascii := default "A"%char (alphabet !! sextet_nat s).

Fixpoint index_of (c : ascii) (l : bytes) : option nat :=
  match l with
  | [] => None
  | x :: l => if Ascii.eqb x c then Some 0 else S <$> index_of c l
  end.

Definition undigit (c : ascii) : option sextet := nat_sextet <$> index_of c alphabet.

Definition pad : ascii := "="%char.
Definition zero_byte : ascii := Ascii false false false false false false false false.

(** The four sextets of three bytes; an [Ascii] lists its bits from the
    least significant one. *)
Definition group (a b c : ascii) : sextet * sextet * sextet * sextet :=
  let 'Ascii a0 a1 a2 a3 a4 a5 a6 a7 := a in
  let 'Ascii b0 b1 b2 b3 b4 b5 b6 b7 := b in
  let 'Ascii c0 c1 c2 c3 c4 c5 c6 c7 := c in
  ((a7, a6, a5, a4, a3, a2), (a1, a0, b7, b6, b5, b4), (b3, b2, b1, b0, c7, c6),
   (c5, c4, c3, c2, c1, c0)).

Definition ungroup (s : sextet * sextet * sextet * sextet) : ascii * ascii * ascii :=
  let '((a7, a6, a5, a4, a3, a2), (a1, a0, b7, b6, b5, b4), (b3, b2, b1, b0, c7, c6),
        (c5, c4, c3, c2, c1, c0)) := s in
  (Ascii a0 a1 a2 a3 a4 a5 a6 a7, Ascii b0 b1 b2 b3 b4 b5 b6 b7,
   Ascii c0 c1 c2 c3 c4 c5 c6 c7).

Fixpoint encode (p : bytes) : bytes :=
  match p with
  | [] => []
  | [a] =>
    let '(s1, s2, _, _) := group a zero_byte zero_byte in [digit s1; digit s2; pad; pad]
  | [a; b] =>
    let '(s1, s2, s3, _) := group a b zero_byte in [digit s1; digit s2; digit s3; pad]
  | a :: b :: c :: p =>
    let '(s1, s2, s3, s4) := group a b c in
    digit s1 :: digit s2 :: digit s3 :: digit s4 :: encode p
  end.

Definition zero_sextet : sextet := nat_sextet 0.

Fixpoint decode (p : bytes) : option bytes :=
  match p with
  | [] => Some []
  | c1 :: c2 :: c3 :: c4 :: p =>
    s1 ← undigit c1; s2 ← undigit c2;
    if Ascii.eqb c3 pad then
      if Ascii.eqb c4 pad then
        match p with
        | [] => let '(a, _, _) := ungroup (s1, s2, zero_sextet, zero_sextet) in Some [a]
        | _ => None
        end
      else None
    else
      s3 ← undigit c3;
      if Ascii.eqb c4 pad then
        match p with
        | [] => let '(a, b, _) := ungroup (s1, s2, s3, zero_sextet) in Some [a; b]
        | _ => None
        end
      else
        s4 ← undigit c4;
        let '(a, b, c) := ungroup (s1, s2, s3, s4) in
        r ← decode p; Some (a :: b :: c :: r)
  | _ => None
  end.

Lemma undigit_digit s : undigit (digit s) = Some s.
Proof. by destruct s as [[[[[[] []] []] []] []] []]; vm_compute. Qed.

Lemma digit_not_pad s : Ascii.eqb (digit s) pad = false.
Proof. by destruct s as [[[[[[] []] []] []] []] []]; vm_compute. Qed.

Lemma digit_ascii s : (byte_val (digit s) < 128)%Z.
Proof. by destruct s as [[[[[[] []] []] []] []] []]; vm_compute. Qed.

Lemma ungroup_group a b c : ungroup (group a b c) = (a, b, c).
Proof. by destruct a, b, c. Qed.

#[global] Arguments digit : simpl never.
#[global] Arguments undigit : simpl never.
#[global] Arguments pad : simpl never.

Lemma decode_encode p : decode (encode p) = Some p.
Proof.
  remember (length p) as n eqn:Hn. revert p Hn.
  induction n as [n IH] using lt_wf_ind. intros p ->.
  destruct p as [|a [|b [|c p]]]; [done| | |].
  - destruct a as [a0 a1 a2 a3 a4 a5 a6 a7]. cbn [encode group zero_byte decode].
    rewrite !undigit_digit. done.
  - destruct a as [a0 a1 a2 a3 a4 a5 a6 a7], b as [b0 b1 b2 b3 b4 b5 b6 b7].
    cbn [encode group zero_byte decode].
    rewrite !undigit_digit. cbn -[ungroup].
    rewrite digit_not_pad. done.
  - cbn [encode]. destruct (group a b c) as [[[s1 s2] s3] s4] eqn:Hg.
    pose proof (ungroup_group a b c) as Hu. rewrite Hg in Hu.
    cbn [decode]. rewrite !undigit_digit. cbn -[decode encode ungroup].
    rewrite !digit_not_pad, Hu, (IH (length p)) by (simpl; lia || done). done.
Qed.

Lemma encode_ascii p : Forall (λ c, byte_val c < 128)%Z (encode p).
Proof.
  remember (length p) as n eqn:Hn. revert p Hn.
  induction n as [n IH] using lt_wf_ind. intros p ->.
  destruct p as [|a [|b [|c p]]]; [done| | |]; cbn [encode];
    destruct (group _ _ _) as [[[s1 s2] s3] s4];
    repeat (constructor; [by (apply digit_ascii || vm_compute)|]); [done|done|].
  eapply IH; [|done]. simpl; lia.
Qed.

End base64.
