(* ===== verification/Json.v ===== *)
(** * encoding/json/v2 and encoding/json/jsontext

    The JSON values the program reads and writes: the tree of a JSON text,
    its compact text as the package's encoder prints it, and the parser.
    The parser refuses what the package refuses by default: duplicate names,
    invalid UTF-8, control characters in strings and lone surrogates.  A
    number literal is an integer or is kept as it is written. *)

From Stdlib Require Import Ascii ZArith Lia Decimal DecimalString DecimalZ.
From S2P Require Import Prelude GoStrings Utf8Facts.

Inductive json : Type :=
  | JNull
  | JBool (b : bool)
  | JInt (z : Z)
  | JFloat (literal : string)
  | JStr (s : string)
  | JArr (elements : list json)
  | JObj (members : list (string * json)).

(** ** Induction and decidable equality *)

Section json_ind.
  Context (P : json → Prop).
  Context (Pnull : P JNull) (Pbool : ∀ b, P (JBool b)) (Pint : ∀ z, P (JInt z))
    (Pfloat : ∀ l, P (JFloat l)) (Pstr : ∀ s, P (JStr s))
    (Parr : ∀ l, Forall P l → P (JArr l))
    (Pobj : ∀ l, Forall (λ m, P (snd m)) l → P (JObj l)).

Fixpoint json_tree_ind (j : json) : P j :=
  match j with
  | JNull => Pnull
  | JBool b => Pbool b
  | JInt z => Pint z
  | JFloat l => Pfloat l
  | JStr s => Pstr s
  | JArr l =>
    Parr l ((fix go l : Forall P l :=
               match l with
               | [] => List.Forall_nil _
               | x :: l => List.Forall_cons P x l (json_tree_ind x) (go l)
               end) l)
  | JObj l =>
    Pobj l ((fix go l : Forall (λ m, P (snd m)) l :=
               match l with
               | [] => List.Forall_nil _
               | m :: l => List.Forall_cons (λ m, P (snd m)) m l (json_tree_ind (snd m)) (go l)
               end) l)
  end.
End json_ind.

Fixpoint json_eqb (x y : json) : bool :=
  match x, y with
  | JNull, JNull => true
  | JBool a, JBool b => Bool.eqb a b
  | JInt a, JInt b => Z.eqb a b
  | JFloat a, JFloat b => String.eqb a b
  | JStr a, JStr b => String.eqb a b
  | JArr a, JArr b =>
    (fix go a b := match a, b with
       | [], [] => true
       | x :: a, y :: b => json_eqb x y && go a b
       | _, _ => false
       end) a b
  | JObj a, JObj b =>
    (fix go a b := match a, b with
       | [], [] => true
       | (n, x) :: a, (m, y) :: b => String.eqb n m && json_eqb x y && go a b
       | _, _ => false
       end) a b
  | _, _ => false
  end.

Lemma json_eqb_eq x y : json_eqb x y = true ↔ x = y.
Proof.
  revert y. induction x as [|b|z|l|s|l IH|l IH] using json_tree_ind; intros y.
  - destruct y; simpl; split; congruence.
  - destruct y; simpl; try (split; congruence). rewrite Bool.eqb_true_iff. split; congruence.
  - destruct y; simpl; try (split; congruence). rewrite Z.eqb_eq. split; congruence.
  - destruct y; simpl; try (split; congruence). rewrite String.eqb_eq. split; congruence.
  - destruct y; simpl; try (split; congruence). rewrite String.eqb_eq. split; congruence.
  - destruct y as [| | | | |l'|]; simpl; try (split; congruence).
    trans (l = l'); [|split; congruence].
    revert l'. induction IH as [|x l Hx _ IHl]; intros [|y l']; try (split; congruence).
    rewrite andb_true_iff, Hx, IHl. split; [intros [-> ->]|intros [= -> ->]]; done.
  - destruct y as [| | | | | |l']; simpl; try (split; congruence).
    trans (l = l'); [|split; congruence].
    revert l'. induction IH as [|[n x] l Hx _ IHl]; intros [|[m y] l']; try (split; congruence).
    simpl in Hx. rewrite !andb_true_iff, Hx, IHl, String.eqb_eq.
    split; [intros [[-> ->] ->]|intros [= -> -> ->]]; done.
Qed.

#[export] Instance json_eq_dec : EqDecision json.
Proof.
  intros x y. destruct (json_eqb x y) eqn:E; [left|right].
  - by apply json_eqb_eq.
  - intros H%json_eqb_eq. congruence.
Defined.

(** ** Number literals *)

Definition is_digit (c : ascii) : bool := utf8.between 48 57 (byte_val c).
Definition number_char (c : ascii) : bool :=
  is_digit c || existsb (Ascii.eqb c) ["+"; "-"; "."; "e"; "E"]%char.

Fixpoint span (f : ascii → bool) (p : bytes) : bytes * bytes :=
  match p with
  | c :: q => if f c then let '(a, b) := span f q in (c :: a, b) else ([], p)
  | [] => ([], [])
  end.

Definition print_int (z : Z) : string := NilZero.string_of_int (Z.to_int z).

(** The canonical decimal text of an integer. *)
Definition parse_int (s : string) : option Z :=
  match NilZero.int_of_string s with
  | Some d => let z := Z.of_int d in if String.eqb (print_int z) s then Some z else None
  | None => None
  end.

(** The grammar of a number: -? (0 | [1-9][0-9]* ) frac? exp? *)
Definition number_literal (p : bytes) : bool :=
  let p := match p with "-"%char :: q => q | _ => p end in
  let '(int, p) := span is_digit p in
  let int_ok := match int with
                | [] => false | "0"%char :: _ :: _ => false | _ => true end in
  let '(frac_ok, p) :=
    match p with
    | "."%char :: q => let '(frac, q) := span is_digit q in (negb (Nat.eqb (length frac) 0), q)
    | _ => (true, p)
    end in
  let exp_ok :=
    match p with
    | [] => true
    | ("e" | "E")%char :: q =>
      let q := match q with ("+" | "-")%char :: r => r | _ => q end in
      let '(exp, q) := span is_digit q in
      negb (Nat.eqb (length exp) 0) && Nat.eqb (length q) 0
    | _ => false
    end in
  int_ok && frac_ok && exp_ok.

Definition parse_number (p : bytes) : option json :=
  match parse_int (to_string p) with
  | Some z => Some (JInt z)
  | None => if number_literal p then Some (JFloat (to_string p)) else None
  end.

(** ** Well-formed trees: what a valid JSON text denotes *)

Definition float_ok (literal : string) : bool :=
  forallb number_char (to_bytes literal) && number_literal (to_bytes literal)
  && bool_decide (parse_int literal = None).

Definition string_ok (s : string) : bool := utf8.Valid (to_bytes s).

#[global] Arguments string_ok : simpl never.

Fixpoint json_ok (j : json) : bool :=
  match j with
  | JNull | JBool _ | JInt _ => true
  | JFloat l => float_ok l
  | JStr s => string_ok s
  | JArr l => forallb json_ok l
  | JObj l =>
    forallb (λ m, string_ok (fst m) && json_ok (snd m)) l && bool_decide (NoDup l.*1)
  end.

(** ** The encoder's text *)

Definition hex_digit (n : Z) : ascii :=
  default "0"%char (to_bytes "0123456789abcdef" !! Z.to_nat n).

Definition quote_char : ascii := "034"%char.

Definition escape (c : ascii) : bytes :=
  let b := byte_val c in
  if Ascii.eqb c quote_char then ["\"; quote_char]%char
  else if Ascii.eqb c "\" then ["\"; "\"]%char
  else if (b <? 32)%Z then
    if (b =? 8)%Z then ["\"; "b"]%char
    else if (b =? 9)%Z then ["\"; "t"]%char
    else if (b =? 10)%Z then ["\"; "n"]%char
    else if (b =? 12)%Z then ["\"; "f"]%char
    else if (b =? 13)%Z then ["\"; "r"]%char
    else ["\"; "u"; "0"; "0"; hex_digit (b / 16); hex_digit (b mod 16)]%char
  else [c].

Definition print_string (s : string) : bytes :=
  quote_char :: concat (escape <$> to_bytes s) ++ [quote_char].

Fixpoint intersperse (ls : list bytes) : bytes :=
  match ls with
  | [] => []
  | [l] => l
  | l :: ls => l ++ ","%char :: intersperse ls
  end.

Fixpoint print (j : json) : bytes :=
  match j with
  | JNull => to_bytes "null"
  | JBool true => to_bytes "true"
  | JBool false => to_bytes "false"
  | JInt z => to_bytes (print_int z)
  | JFloat l => to_bytes l
  | JStr s => print_string s
  | JArr l => "["%char :: intersperse (print <$> l) ++ ["]"%char]
  | JObj l =>
    "{"%char :: intersperse ((λ m, print_string (fst m) ++ ":"%char :: print (snd m)) <$> l)
      ++ ["}"%char]
  end.

(** ** The parser *)

Definition is_space (c : ascii) : bool := existsb (Ascii.eqb c) [" "; "009"; "010"; "013"]%char.

Fixpoint skip_space (p : bytes) : bytes :=
  match p with
  | c :: q => if is_space c then skip_space q else p
  | [] => []
  end.

Definition hex_val (c : ascii) : option Z :=
  let b := byte_val c in
  if utf8.between 48 57 b then Some (b - 48)%Z
  else if utf8.between 97 102 b then Some (b - 87)%Z
  else if utf8.between 65 70 b then Some (b - 55)%Z
  else None.

Definition hex4 (a b c d : ascii) : option Z :=
  a ← hex_val a; b ← hex_val b; c ← hex_val c; d ← hex_val d;
  Some (((a * 16 + b) * 16 + c) * 16 + d)%Z.

Definition simple_escape (c : ascii) : option ascii :=
  if existsb (Ascii.eqb c) [quote_char; "\"; "/"]%char then Some c
  else if Ascii.eqb c "b" then Some "008"%char
  else if Ascii.eqb c "t" then Some "009"%char
  else if Ascii.eqb c "n" then Some "010"%char
  else if Ascii.eqb c "f" then Some "012"%char
  else if Ascii.eqb c "r" then Some "013"%char
  else None.

(** The body of a string after its opening quote: decoded bytes and rest. *)
Fixpoint parse_body (fuel : nat) (p : bytes) : option (bytes * bytes) :=
  match fuel with
  | O => None
  | S fuel =>
    match p with
    | [] => None
    | c :: q =>
      if Ascii.eqb c quote_char then Some ([], q)
      else if Ascii.eqb c "\" then
        match q with
        | "u"%char :: h1 :: h2 :: h3 :: h4 :: q =>
          u ← hex4 h1 h2 h3 h4;
          if utf8.between 0xD800 0xDBFF u then
            match q with
            | "\"%char :: "u"%char :: g1 :: g2 :: g3 :: g4 :: q =>
              v ← hex4 g1 g2 g3 g4;
              if utf8.between 0xDC00 0xDFFF v then
                '(s, q) ← parse_body fuel q;
                Some (utf8.EncodeRune (0x10000 + (u - 0xD800) * 1024 + (v - 0xDC00))%Z ++ s, q)
              else None
            | _ => None
            end
          else if utf8.between 0xDC00 0xDFFF u then None
          else '(s, q) ← parse_body fuel q; Some (utf8.EncodeRune u ++ s, q)
        | e :: q =>
          c ← simple_escape e; '(s, q) ← parse_body fuel q; Some (c :: s, q)
        | [] => None
        end
      else if (byte_val c <? 32)%Z then None
      else '(s, q) ← parse_body fuel q; Some (c :: s, q)
    end
  end.

Definition parse_string (p : bytes) : option (string * bytes) :=
  match p with
  | c :: q =>
    if Ascii.eqb c quote_char then
      '(s, r) ← parse_body (length p) q;
      if utf8.Valid s then Some (to_string s, r) else None
    else None
  | [] => None
  end.

Definition strip (word : string) (p : bytes) : option bytes :=
  if bool_decide (take (String.length word) p = to_bytes word)
  then Some (drop (String.length word) p) else None.

Fixpoint parse_value (fuel : nat) (p : bytes) : option (json * bytes) :=
  match fuel with
  | O => None
  | S fuel =>
    match skip_space p with
    | [] => None
    | c :: q =>
      if Ascii.eqb c "n" then r ← strip "null" (c :: q); Some (JNull, r)
      else if Ascii.eqb c "t" then r ← strip "true" (c :: q); Some (JBool true, r)
      else if Ascii.eqb c "f" then r ← strip "false" (c :: q); Some (JBool false, r)
      else if Ascii.eqb c quote_char then '(s, r) ← parse_string (c :: q); Some (JStr s, r)
      else if Ascii.eqb c "[" then
        match skip_space q with
        | "]"%char :: r => Some (JArr [], r)
        | q => '(l, r) ← parse_elements fuel q; Some (JArr l, r)
        end
      else if Ascii.eqb c "{" then
        match skip_space q with
        | "}"%char :: r => Some (JObj [], r)
        | q => '(l, r) ← parse_members fuel q;
               if bool_decide (NoDup l.*1) then Some (JObj l, r) else None
        end
      else if number_char c then
        let '(lit, r) := span number_char (c :: q) in
        j ← parse_number lit; Some (j, r)
      else None
    end
  end
with parse_elements (fuel : nat) (p : bytes) : option (list json * bytes) :=
  match fuel with
  | O => None
  | S fuel =>
    '(j, q) ← parse_value fuel p;
    match skip_space q with
    | "]"%char :: r => Some ([j], r)
    | ","%char :: r => '(l, r) ← parse_elements fuel r; Some (j :: l, r)
    | _ => None
    end
  end
with parse_members (fuel : nat) (p : bytes) : option (list (string * json) * bytes) :=
  match fuel with
  | O => None
  | S fuel =>
    '(n, q) ← parse_string (skip_space p);
    match skip_space q with
    | ":"%char :: q =>
      '(j, q) ← parse_value fuel q;
      match skip_space q with
      | "}"%char :: r => Some ([(n, j)], r)
      | ","%char :: r => '(l, r) ← parse_members fuel r; Some ((n, j) :: l, r)
      | _ => None
      end
    | _ => None
    end
  end.

(** A whole text is one value and white space. *)
Definition parse (p : bytes) : option json :=
  '(j, r) ← parse_value (S (length p)) p;
  match skip_space r with [] => Some j | _ => None end.
