(* ===== verification/JsonFacts.v ===== *)
(** * The JSON text round trip

    The parser reads back what the encoder prints, the encoder's text is
    valid UTF-8 without control characters, so one JSON text is one line. *)

From Stdlib Require Import Ascii ZArith Lia Decimal DecimalString DecimalZ.
From S2P Require Import Prelude GoStrings Utf8Facts Json.

Local Open Scope nat_scope.

(** ** Numbers *)

Lemma to_int_not_nil z : Z.to_int z ≠ Decimal.Pos Decimal.Nil ∧ Z.to_int z ≠ Decimal.Neg Decimal.Nil.
Proof.
  destruct z as [|p|p]; simpl; split; try done; intros [= H];
    by apply (DecimalPos.Unsigned.to_uint_nonnil p).
Qed.

Lemma parse_print_int z : parse_int (print_int z) = Some z.
Proof.
  unfold parse_int, print_int.
  rewrite NilZero.isi by apply to_int_not_nil.
  rewrite DecimalZ.of_to. by rewrite String.eqb_refl.
Qed.

Lemma digit_number_char c : is_digit c = true → number_char c = true.
Proof. unfold number_char. by intros ->. Qed.

Lemma string_of_uint_digits u :
  Forall (λ c, is_digit c = true) (to_bytes (NilEmpty.string_of_uint u)).
Proof. induction u; simpl; by repeat constructor. Qed.

Lemma print_int_number z :
  Forall (λ c, number_char c = true) (to_bytes (print_int z)) ∧ print_int z ≠ EmptyString.
Proof.
  unfold print_int. pose proof (to_int_not_nil z) as [H1 H2].
  assert (∀ u, u ≠ Decimal.Nil → NilZero.string_of_uint u = NilEmpty.string_of_uint u ∧
           NilEmpty.string_of_uint u ≠ EmptyString) as Hu by (by intros []).
  destruct (Z.to_int z) as [u|u]; simpl;
    (assert (u ≠ Decimal.Nil) as Hn by (intros ->; done));
    destruct (Hu u Hn) as [-> Hne]; (split; [|done]).
  - eapply Forall_impl; [apply string_of_uint_digits|]. simpl. apply digit_number_char.
  - constructor; [done|].
    eapply Forall_impl; [apply string_of_uint_digits|]. simpl. apply digit_number_char.
Qed.

Lemma span_app f p r :
  Forall (λ c, f c = true) p → (∀ c q, r = c :: q → f c = false) → span f (p ++ r) = (p, r).
Proof.
  intros Hp Hr. induction Hp as [|c p Hc Hp IH]; simpl.
  - destruct r as [|c r]; [done|]. simpl. by rewrite (Hr c r).
  - by rewrite Hc, IH.
Qed.

Lemma number_literal_nil : number_literal [] = false.
Proof. done. Qed.

(** A number character starts no other kind of value. *)
Lemma number_char_other c :
  number_char c = true →
  is_space c = false ∧ Forall (λ x, Ascii.eqb c x = false) ["n"; "t"; "f"; quote_char; "["; "{"; "]"; "}"; ","]%char.
Proof. destruct c as [[] [] [] [] [] [] [] []]; try done; intros _; by repeat constructor. Qed.

(** What may follow a number: anything that is not a number character. *)
Definition number_ends (r : bytes) : Prop := ∀ c q, r = c :: q → number_char c = false.

Lemma number_ends_nil : number_ends [].
Proof. by intros c q. Qed.
Lemma number_ends_cons c q : number_char c = false → number_ends (c :: q).
Proof. by intros ? ? ? [= -> ->]. Qed.
#[export] Hint Resolve number_ends_nil number_ends_cons : go.

(** ** Strings *)

Lemma escape_length c : (1 ≤ length (escape c)).
Proof. unfold escape. repeat case_match; simpl; lia. Qed.

Lemma parse_body_step c q n :
  parse_body (S n) (escape c ++ q) = '(s, r) ← parse_body n q; Some (c :: s, r).
Proof.
  destruct c as [[] [] [] [] [] [] [] []];
    match goal with
    | |- context [escape ?c] => let e := eval vm_compute in (escape c) in change (escape c) with e
    end; reflexivity.
Qed.

Lemma parse_body_escape s r n :
  length s < n → parse_body n (concat (escape <$> s) ++ quote_char :: r) = Some (s, r).
Proof.
  revert n. induction s as [|c s IH]; intros n Hn.
  { by destruct n; [lia|]. }
  destruct n as [|n]; [simpl in Hn; lia|].
  specialize (IH n ltac:(simpl in Hn; lia)).
  rewrite fmap_cons. cbn [concat]. rewrite <- app_assoc, parse_body_step.
  by rewrite IH.
Qed.

Lemma concat_escape_length s : length s ≤ length (concat (escape <$> s)).
Proof.
  induction s as [|c s IH]; [done|]. rewrite fmap_cons. cbn [concat length].
  rewrite length_app.
  pose proof (escape_length c). lia.
Qed.

Lemma parse_print_string s r :
  string_ok s = true → parse_string (print_string s ++ r) = Some (s, r).
Proof.
  unfold string_ok, print_string, parse_string. intros Hs.
  rewrite <- app_comm_cons, <- app_assoc. cbn [app].
  rewrite (Ascii.eqb_refl quote_char), parse_body_escape.
  - simpl. by rewrite Hs, to_string_bytes.
  - pose proof (concat_escape_length (to_bytes s)). simpl. rewrite !length_app. lia.
Qed.

(** ** Values *)

Lemma print_first j : json_ok j = true → ∃ c q, print j = c :: q ∧ is_space c = false ∧ Ascii.eqb c "]" = false.
Proof.
  intros Hok. destruct j as [|[]|z|l|s|l|l]; try (eexists _, _; by repeat split).
  - destruct (print_int_number z) as [Hn Hne]. simpl.
    destruct (print_int z) as [|c s]; [done|]. simpl in *.
    apply Forall_cons in Hn as [Hc _]. apply number_char_other in Hc as [Hs Ho].
    rewrite !Forall_cons in Ho. eexists _, _; naive_solver.
  - simpl in *. unfold float_ok in Hok. rewrite !andb_true_iff, forallb_Forall in Hok.
    destruct Hok as [[Hc Hl] _]. destruct (to_bytes l) as [|c q]; [done|].
    apply Forall_cons in Hc as [Hc _]. apply number_char_other in Hc as [Hs Ho].
    rewrite !Forall_cons in Ho. eexists _, _; naive_solver.
Qed.

Lemma skip_space_first p c q : p = c :: q → is_space c = false → skip_space p = p.
Proof. intros -> H. simpl. by rewrite H. Qed.

Lemma print_length j : json_ok j = true → 1 ≤ length (print j).
Proof. intros (c & q & -> & _)%print_first. simpl. lia. Qed.

Definition reads (j : json) : Prop :=
  ∀ n r, json_ok j = true → length (print j) ≤ n → number_ends r →
    parse_value n (print j ++ r) = Some (j, r).

(** A text that starts with a number character is a number. *)
Lemma parse_value_number n p r j :
  Forall (λ c, number_char c = true) p → p ≠ [] → number_ends r →
  parse_number p = Some j → parse_value (S n) (p ++ r) = Some (j, r).
Proof.
  intros Hp Hne Hr Hj. destruct p as [|c p]; [done|].
  inversion Hp as [|? ? Hc Hp']; subst.
  apply number_char_other in Hc as Hc'. destruct Hc' as [Hs Ho].
  rewrite !Forall_cons in Ho. destruct Ho as (H1&H2&H3&H4&H5&H6&_).
  cbn [parse_value app skip_space]. rewrite Hs, H1, H2, H3, H4, H5, H6, Hc.
  change (c :: p ++ r) with ((c :: p) ++ r).
  rewrite (span_app _ (c :: p)) by done. simpl. by rewrite Hj.
Qed.

Lemma intersperse_cons a b ls : intersperse (a :: b :: ls) = a ++ ","%char :: intersperse (b :: ls).
Proof. done. Qed.

Lemma reads_elements l n r :
  Forall reads l → l ≠ [] → forallb json_ok l = true →
  length (intersperse (print <$> l)) + 1 ≤ n →
  parse_elements n (intersperse (print <$> l) ++ "]"%char :: r) = Some (l, r).
Proof.
  intros Hl. revert n. induction Hl as [|j l Hj Hl IH]; intros n Hne Hok Hn; [done|].
  simpl in Hok. apply andb_true_iff in Hok as [Hokj Hokl].
  pose proof (print_length j Hokj) as Hlen.
  destruct n as [|n]; [lia|]. cbn [parse_elements].
  destruct l as [|j2 l].
  - cbn [fmap list_fmap intersperse] in Hn |- *. rewrite Hj by (auto with go; lia). done.
  - rewrite !fmap_cons, intersperse_cons, <- fmap_cons in *.
    rewrite length_app in Hn. cbn [length] in Hn. rewrite <- app_assoc, <- app_comm_cons.
    rewrite Hj by (auto with go; lia). cbn -[parse_elements intersperse fmap].
    rewrite IH; [done|done|done|lia].
Qed.

(** How an object's member is printed. *)
Definition print_member (m : string * json) : bytes :=
  print_string (fst m) ++ ":"%char :: print (snd m).

Lemma print_obj l :
  print (JObj l) = "{"%char :: intersperse (print_member <$> l) ++ ["}"%char].
Proof. done. Qed.

Lemma parse_member_name m q :
  string_ok (fst m) = true →
  parse_string (skip_space (print_member m ++ q)) = Some (fst m, ":"%char :: print (snd m) ++ q).
Proof.
  intros Hm. unfold print_member. rewrite <- app_assoc.
  erewrite (skip_space_first _ quote_char); [by apply parse_print_string| |done].
  unfold print_string. by rewrite <- app_comm_cons.
Qed.

Lemma reads_members l n r :
  Forall (λ m, reads (snd m)) l → l ≠ [] →
  forallb (λ m, string_ok (fst m) && json_ok (snd m)) l = true →
  length (intersperse (print_member <$> l)) + 1 ≤ n →
  parse_members n (intersperse (print_member <$> l) ++ "}"%char :: r) = Some (l, r).
Proof.
  intros Hl. revert n. induction Hl as [|m l Hj Hl IH]; intros n Hne Hok Hn; [done|].
  simpl in Hok. apply andb_true_iff in Hok as [[Hoks Hokj]%andb_true_iff Hokl].
  pose proof (print_length _ Hokj) as Hlen.
  assert (length (print_member m) = length (print_string (fst m)) + 1 + length (print (snd m))) as Hm.
  { unfold print_member. rewrite length_app. simpl. lia. }
  destruct n as [|n]; [lia|]. cbn [parse_members].
  destruct l as [|m2 l].
  - cbn [fmap list_fmap intersperse] in Hn |- *. rewrite parse_member_name by done.
    cbn -[parse_value]. rewrite Hj by (auto with go; lia). by destruct m.
  - rewrite !fmap_cons, intersperse_cons, <- fmap_cons in Hn |- *.
    rewrite length_app in Hn. cbn [length] in Hn. rewrite <- app_assoc, parse_member_name by done.
    cbn -[parse_value intersperse fmap parse_members].
    rewrite Hj by (auto with go; lia). cbn -[parse_members intersperse fmap].
    rewrite IH; [by destruct m|done|done|lia].
Qed.

Lemma intersperse_first c q ls : ∃ q', intersperse ((c :: q) :: ls) = c :: q'.
Proof. destruct ls; simpl; eauto. Qed.

(** An array that does not close at once has elements. *)
Lemma open_array n c p l r :
  is_space c = false → Ascii.eqb c "]" = false → parse_elements n (c :: p) = Some (l, r) →
  match skip_space (c :: p) with
  | "]"%char :: r => Some (JArr [], r)
  | q => '(l, r) ← parse_elements n q; Some (JArr l, r)
  end = Some (JArr l, r).
Proof.
  intros Hs Hb He. rewrite (skip_space_first _ c p) by done.
  destruct c as [[] [] [] [] [] [] [] []]; try discriminate Hb; cbn -[parse_elements];
    by rewrite He.
Qed.

Lemma print_reads j : reads j.
Proof.
  induction j as [|b|z|lit|s|l IH|l IH] using json_tree_ind; intros n r Hok Hn Hr;
    (destruct n as [|n]; [pose proof (print_length _ Hok); lia|]).
  - done.
  - by destruct b.
  - apply parse_value_number; try apply print_int_number; [|done|].
    + pose proof (print_int_number z) as [_ H]. simpl. by destruct (print_int z).
    + unfold parse_number. cbn [print]. by rewrite to_string_bytes, parse_print_int.
  - simpl in Hok. unfold float_ok in Hok.
    rewrite !andb_true_iff, forallb_Forall, bool_decide_eq_true in Hok.
    destruct Hok as [[Hc Hl] Hi]. apply parse_value_number; [done| |done|].
    + intros E. cbn [print] in E. by rewrite E in Hl.
    + unfold parse_number. cbn [print]. by rewrite to_string_bytes, Hi, Hl.
  - simpl in Hok. cbn [print]. unfold print_string. rewrite <- app_comm_cons.
    cbn -[parse_string]. rewrite app_comm_cons.
    change (quote_char :: concat (escape <$> to_bytes s) ++ [quote_char]) with (print_string s).
    by rewrite parse_print_string.
  - cbn [print]. rewrite <- app_comm_cons, <- app_assoc. cbn [parse_value].
    cbn -[parse_elements intersperse fmap json_ok]. destruct l as [|j l]; [done|].
    cbn [print length] in Hn. rewrite length_app in Hn. cbn [length] in Hn.
    pose proof Hok as Hok'. simpl in Hok'. apply andb_true_iff in Hok' as [Hj _].
    destruct (print_first j Hj) as (c & q & Hp & Hs & Hb).
    destruct (intersperse_first c q (print <$> l)) as [q' Hq].
    pose proof (reads_elements (j :: l) n r IH ltac:(done) Hok ltac:(lia)) as He.
    rewrite fmap_cons, Hp, Hq, <- app_comm_cons in He |- *.
    by apply open_array.
  - rewrite print_obj in Hn |- *. rewrite <- app_comm_cons, <- app_assoc. cbn [parse_value].
    cbn -[parse_members intersperse fmap json_ok]. destruct l as [|m l]; [done|].
    cbn [length] in Hn. rewrite length_app in Hn. cbn [length] in Hn.
    simpl in Hok. apply andb_true_iff in Hok as [Hok Hnd].
    pose proof (reads_members (m :: l) n r IH ltac:(done) Hok ltac:(lia)) as He.
    destruct (intersperse_first quote_char ((concat (escape <$> to_bytes (m.1)) ++ [quote_char])
      ++ ":"%char :: print m.2) (print_member <$> l)) as [q' Hq].
    assert (intersperse (print_member <$> m :: l) = quote_char :: q') as Hf.
    { rewrite fmap_cons. exact Hq. }
    rewrite Hf, <- app_comm_cons in He |- *.
    rewrite (skip_space_first _ quote_char (q' ++ "}"%char :: r)) by done.
    unfold quote_char in He |- *. cbn -[parse_members]. rewrite He. simpl. by rewrite Hnd.
Qed.

(** The round trip of the text. *)
Lemma parse_print j : json_ok j = true → parse (print j) = Some j.
Proof.
  intros Hok. unfold parse. rewrite <- (app_nil_r (print j)) at 2.
  rewrite print_reads by (auto with go; lia). done.
Qed.

(** ** One text is one line *)

Definition printable (c : ascii) : Prop := (32 ≤ byte_val c)%Z.

Lemma escape_printable c : Forall printable (escape c).
Proof.
  unfold printable. destruct c as [[] [] [] [] [] [] [] []];
    match goal with
    | |- context [escape ?c] => let e := eval vm_compute in (escape c) in change (escape c) with e
    end; repeat constructor; by vm_compute.
Qed.

Lemma number_char_printable c : number_char c = true → printable c.
Proof. unfold printable. by destruct c as [[] [] [] [] [] [] [] []]; vm_compute. Qed.

Lemma print_string_printable s : Forall printable (print_string s).
Proof.
  unfold print_string. constructor; [by vm_compute|]. apply Forall_app. split.
  - apply Forall_concat, Forall_fmap, Forall_true. apply escape_printable.
  - constructor; [by vm_compute|done].
Qed.

Lemma intersperse_printable ls : Forall (Forall printable) ls → Forall printable (intersperse ls).
Proof.
  induction 1 as [|l ls Hl Hls IH]; [done|].
  destruct ls as [|l2 ls]; [done|]. rewrite intersperse_cons.
  apply Forall_app; split; [done|]. constructor; [by vm_compute|done].
Qed.

Lemma print_printable j : json_ok j = true → Forall printable (print j).
Proof.
  induction j as [|b|z|lit|s|l IH|l IH] using json_tree_ind; intros Hok.
  - repeat constructor; by vm_compute.
  - destruct b; repeat constructor; by vm_compute.
  - eapply Forall_impl; [apply print_int_number|]. simpl. apply number_char_printable.
  - cbn in Hok. unfold float_ok in Hok. rewrite !andb_true_iff, forallb_Forall in Hok.
    eapply Forall_impl; [apply Hok|]. simpl. apply number_char_printable.
  - apply print_string_printable.
  - cbn [print]. constructor; [by vm_compute|]. apply Forall_app; split.
    + apply intersperse_printable, Forall_fmap. cbn in Hok. rewrite forallb_Forall in Hok.
      eapply Forall_impl; [apply (proj2 (Forall_and _ _) (conj IH Hok))|].
      simpl. intros j [Hj Hokj]. by apply Hj.
    + constructor; [by vm_compute|done].
  - rewrite print_obj. constructor; [by vm_compute|]. apply Forall_app; split.
    + apply intersperse_printable, Forall_fmap. cbn in Hok.
      rewrite andb_true_iff, forallb_Forall in Hok. destruct Hok as [Hok _].
      eapply Forall_impl; [apply (proj2 (Forall_and _ _) (conj IH Hok))|].
      simpl. intros m [Hm [_ Hokm]%andb_true_iff]. unfold print_member.
      apply Forall_app; split; [apply print_string_printable|].
      constructor; [by vm_compute|]. by apply Hm.
    + constructor; [by vm_compute|done].
Qed.

Lemma print_no_newline j : json_ok j = true → "010"%char ∉ print j.
Proof.
  intros Hok Hin. pose proof (print_printable j Hok) as H. rewrite Forall_forall in H.
  specialize (H _ Hin). unfold printable in H. vm_compute in H. done.
Qed.
