(* ===== verification/JsonCodec.v ===== *)
(** * How Go values are marshalled and unmarshalled

    [jsontext.Value] and the per-type behaviour of json.Marshal and
    json.Unmarshal (version 2 of encoding/json).  A [codec] is what the
    package does for one Go type: its zero value, its encoding (which fails
    on a string that is not valid UTF-8 and on a malformed raw value), its
    decoding, and the law that values of the domain [jok] come back.  The class
    [Total] says that what was decoded can be encoded again. *)

From Stdlib Require Import Ascii ZArith Lia.
From S2P Require Import Prelude GoStrings Utf8Facts Base64 Json JsonFacts.

(** A [jsontext.Value]: nil, the text of a tree, or a text that is not
    valid JSON.  Texts of one tree that differ in white space or escapes are
    not told apart. *)
Inductive value : Type :=
  | VNil
  | VText (j : json)
  | VBad (raw : string).

#[export] Instance value_eq_dec : EqDecision value.
Proof. solve_decision. Defined.

Definition is_nil (v : value) : bool := match v with VNil => true | _ => false end.

(** [len(v) == 0] *)
Definition value_empty (v : value) : bool :=
  match v with VNil | VBad EmptyString => true | _ => false end.

Definition IsValid (v : value) : bool :=
  match v with VText j => json_ok j | _ => false end.

(** A non-nil byte text as a [jsontext.Value]. *)
Definition value_of_text (p : bytes) : value :=
  match parse p with Some j => VText j | None => VBad (to_string p) end.

(** The text of errors of encoding/json is not modelled. *)
Definition json_error : error := errors_New "json: invalid value".

Record codec (A : Type) : Type := Codec {
  zero : A;
  enc : A → option json;
  dec : json → option A;
  jok : A → Prop;
  dec_enc : ∀ a j, jok a → enc a = Some j → dec j = Some a;
  enc_ok : ∀ a j, enc a = Some j → json_ok j = true;
}.
Arguments Codec {A}.
Arguments zero {A}.
Arguments enc {A}.
Arguments dec {A}.
Arguments jok {A}.
Arguments dec_enc {A}.
Arguments enc_ok {A}.

(** The types whose zero value, and every value decoded, can be encoded. *)
Class Total {A} (c : codec A) : Prop := {
  zero_total : is_Some (enc c (zero c));
  dec_total : ∀ j a, json_ok j = true → dec c j = Some a → is_Some (enc c a);
}.

(** [json.Marshal] and [json.Unmarshal] into a zero value. *)
Definition Marshal {A} (c : codec A) (a : A) : result value :=
  match enc c a with Some j => Ok (VText j) | None => Err json_error end.

Definition Unmarshal {A} (c : codec A) (v : value) : result A :=
  match v with
  | VText j =>
    if json_ok j then match dec c j with Some a => Ok a | None => Err json_error end
    else Err json_error
  | _ => Err json_error
  end.

Lemma Unmarshal_Marshal {A} (c : codec A) a v :
  jok c a → Marshal c a = Ok v → Unmarshal c v = Ok a.
Proof.
  unfold Marshal, Unmarshal. intros Ha H.
  destruct (enc c a) as [j|] eqn:E; simplify_eq.
  by rewrite (enc_ok c a j E), (dec_enc c a j Ha E).
Qed.

Lemma Marshal_valid {A} (c : codec A) a v : Marshal c a = Ok v → IsValid v = true.
Proof.
  unfold Marshal. destruct (enc c a) as [j|] eqn:E; intros; simplify_eq.
  simpl. by apply (enc_ok c a).
Qed.

Lemma Unmarshal_again {A} (c : codec A) `{!Total c} v a :
  Unmarshal c v = Ok a → ∃ j, Marshal c a = Ok (VText j).
Proof.
  unfold Unmarshal, Marshal. destruct v as [|j|]; try done.
  destruct (json_ok j) eqn:Ej; [|done]. destruct (dec c j) as [a'|] eqn:Ed; [|done].
  intros [= ->]. destruct (dec_total j a Ej Ed) as [j' ->]. eauto.
Qed.

Lemma Marshal_returns {A} (c : codec A) a : returns (Marshal c a) = true.
Proof. unfold Marshal. by case_match. Qed.

Lemma Unmarshal_returns {A} (c : codec A) v : returns (Unmarshal c v) = true.
Proof. unfold Unmarshal. by repeat case_match. Qed.

#[export] Hint Resolve Marshal_returns Unmarshal_returns : returns.

#[local] Unset Program Cases.

(** ** Basic types *)

Program Definition string_codec : codec string := {|
  zero := EmptyString;
  enc s := if string_ok s then Some (JStr s) else None;
  dec j := match j with JStr s => Some s | JNull => Some EmptyString | _ => None end;
  jok _ := True |}.
Next Obligation. intros s j _. simpl. destruct (string_ok s); naive_solver. Qed.
Next Obligation. intros s j. simpl. destruct (string_ok s) eqn:E; naive_solver. Qed.
#[export] Instance string_total : Total string_codec.
Proof.
  constructor.
  - done.
  - intros [| | | |s| |] a Hj; simpl in *; intros; simplify_eq; try done. by rewrite Hj.
Qed.

Program Definition bool_codec : codec bool := {|
  zero := false;
  enc b := Some (JBool b);
  dec j := match j with JBool b => Some b | JNull => Some false | _ => None end;
  jok _ := True |}.
Next Obligation. naive_solver. Qed.
Next Obligation. naive_solver. Qed.
#[export] Instance bool_total : Total bool_codec.
Proof. by constructor. Qed.

(** An integer type with a range; the literal -0 reads as 0. *)
Program Definition int_codec (range : Z → bool) : codec Z := {|
  zero := 0%Z;
  enc z := Some (JInt z);
  dec j := match j with
           | JInt z => if range z then Some z else None
           | JFloat l => if bool_decide (l = "-0") then Some 0%Z else None
           | JNull => Some 0%Z | _ => None end;
  jok z := range z = true |}.
Next Obligation. intros range z j Hz [= <-]. by rewrite Hz. Qed.
Next Obligation. naive_solver. Qed.
#[export] Instance int_total range : Total (int_codec range).
Proof. by constructor. Qed.

Abbreviation int64_codec := (int_codec in_int64).
Abbreviation uint64_codec := (int_codec in_uint64).
Abbreviation uint32_codec := (int_codec in_uint32).

Lemma ascii_string_ok p : Forall (λ c, byte_val c < 128)%Z p → string_ok (to_string p) = true.
Proof. intros H. unfold string_ok. rewrite to_bytes_string. by apply ascii_chunks. Qed.

(** A [[]byte] is written in base64. *)
Program Definition bytes_codec : codec bytes := {|
  zero := [];
  enc p := Some (JStr (to_string (base64.encode p)));
  dec j := match j with
           | JStr s => base64.decode (to_bytes s) | JNull => Some [] | _ => None end;
  jok _ := True |}.
Next Obligation. intros p j _ [= <-]. by rewrite to_bytes_string, base64.decode_encode. Qed.
Next Obligation. intros p j [= <-]. apply ascii_string_ok, base64.encode_ascii. Qed.
#[export] Instance bytes_total : Total bytes_codec.
Proof. by constructor. Qed.

Program Definition value_codec : codec value := {|
  zero := VNil;
  enc v := match v with
           | VNil => Some JNull
           | VText j => if json_ok j then Some j else None
           | VBad _ => None end;
  dec j := Some (VText j);
  jok v := v ≠ VNil |}.
Next Obligation. intros [|j|raw] j' Hv; simpl; [done| |done]. destruct (json_ok j); naive_solver. Qed.
Next Obligation.
  intros [|j|raw] j'; simpl; [naive_solver| |done].
  destruct (json_ok j) eqn:E; naive_solver.
Qed.
#[export] Instance value_total : Total value_codec.
Proof.
  constructor.
  - done.
  - intros j v Hj [= <-]. simpl. by rewrite Hj.
Qed.

(** A pointer, nil for null. *)
Program Definition ptr_codec {A} (c : codec A) : codec (option A) := {|
  zero := None;
  enc o := match o with None => Some JNull | Some a => enc c a end;
  dec j := match j with JNull => Some None | _ => Some <$> dec c j end;
  jok o := match o with None => True | Some a => jok c a ∧ enc c a ≠ Some JNull end |}.
Next Obligation.
  intros A c [a|] j; simpl; [|naive_solver].
  intros [Ha Hn] Hj. rewrite Hj in Hn. pose proof (dec_enc c a j Ha Hj) as Hd.
  destruct j; try (by rewrite Hd); naive_solver.
Qed.
Next Obligation. intros A c [a|] j; simpl; [apply enc_ok|naive_solver]. Qed.
#[export] Instance ptr_total {A} (c : codec A) `{!Total c} : Total (ptr_codec c).
Proof.
  constructor.
  - done.
  - simpl. intros j [a|] Hj Hd; simpl; [|done]. apply (dec_total j); [done|].
    destruct (dec c j) eqn:E; destruct j; simpl in Hd; simplify_eq; try done.
Qed.

(** A slice; nil and empty slices are one list. *)
Program Definition list_codec {A} (c : codec A) : codec (list A) := {|
  zero := [];
  enc l := JArr <$> mapM (enc c) l;
  dec j := match j with
           | JArr l => mapM (dec c) l | JNull => Some [] | _ => None end;
  jok l := Forall (jok c) l |}.
Next Obligation.
  intros A c l j Hl Hj. apply fmap_Some in Hj as (js & Hm & ->). simpl.
  apply mapM_Some in Hm. apply mapM_Some.
  induction Hm as [|a j l js Ha Hm IH]; [done|]. inversion Hl; subst.
  constructor; [by apply (dec_enc c)|by apply IH].
Qed.
Next Obligation.
  intros A c l j Hj. apply fmap_Some in Hj as (js & Hm & ->). simpl.
  apply mapM_Some in Hm. apply forallb_Forall.
  induction Hm; constructor; [by eapply enc_ok|done].
Qed.
#[export] Instance list_total {A} (c : codec A) `{!Total c} : Total (list_codec c).
Proof.
  constructor.
  - done.
  - simpl. intros j l Hj Hd. assert (is_Some (mapM (enc c) l)) as [js Hjs]; [|rewrite Hjs; done].
    destruct j as [| | | | |js|]; simpl in Hd; simplify_eq; [done|].
    apply mapM_is_Some. apply mapM_Some in Hd. simpl in Hj. rewrite forallb_Forall in Hj.
    induction Hd; [constructor|]. apply Forall_cons in Hj as [Hj Hjs].
    constructor; [by eapply dec_total|auto].
Qed.

(** ** Structs *)

Definition field_enc : Type := string * bool * option json.

(** A field with the encoding of its value; [omit] when its tag says
    omitzero or omitempty and the value is zero or empty. *)
Definition field {A} (c : codec A) (name : string) (a : A) : field_enc := (name, false, enc c a).
Definition field_omit {A} (c : codec A) (name : string) (omit : bool) (a : A) : field_enc :=
  (name, omit, enc c a).

Fixpoint enc_fields (l : list field_enc) : option (list (string * json)) :=
  match l with
  | [] => Some []
  | (n, omit, e) :: l =>
    if (omit : bool) then enc_fields l
    else j ← e; r ← enc_fields l; Some ((n, j) :: r)
  end.

Definition enc_struct (l : list field_enc) : option json := JObj <$> enc_fields l.

Fixpoint assoc (n : string) (o : list (string * json)) : option json :=
  match o with
  | [] => None
  | (m, j) :: o => if bool_decide (m = n) then Some j else assoc n o
  end.

(** A member of an object; a missing one leaves the zero value. *)
Definition get {A} (c : codec A) (n : string) (o : list (string * json)) : option A :=
  match assoc n o with None => Some (zero c) | Some j => dec c j end.

(** A struct reads from an object or, as its zero value, from null; members
    no field names are ignored. *)
Definition dec_struct {A} (z : A) (f : list (string * json) → option A) (j : json) : option A :=
  match j with JNull => Some z | JObj o => f o | _ => None end.

Definition names (l : list field_enc) : list string := (λ f, fst (fst f)) <$> l.

Lemma enc_fields_names (l : list field_enc) o : enc_fields l = Some o → o.*1 ⊆ names l.
Proof.
  revert o. induction l as [|[[n omit] e] l IH]; intros o; simpl; [naive_solver|].
  destruct omit; [intros H%IH; set_solver|].
  intros (j & -> & (r & Hr & [= <-])%bind_Some)%bind_Some.
  apply IH in Hr. simpl. set_solver.
Qed.

Lemma assoc_enc_fields (l : list field_enc) o n (omit : bool) (e : option json) :
  NoDup (names l) → enc_fields l = Some o → (n, omit, e) ∈ l →
  assoc n o = if omit then None else e.
Proof.
  revert o. induction l as [|[[m om] e'] l IH]; intros o Hnd Ho Hin; [set_solver|].
  apply NoDup_cons in Hnd as [Hm Hnd].
  assert (n ≠ m ∨ (n, omit, e) = (m, om, e')) as Hcase.
  { apply elem_of_cons in Hin as [|Hin]; [by right|left]. intros ->.
    apply Hm. apply list_elem_of_fmap. by exists (m, omit, e). }
  assert (∀ o', enc_fields l = Some o' → m ∉ o'.*1) as Hfresh.
  { intros o' Ho'%enc_fields_names Hmo. by apply Hm, Ho'. }
  assert (∀ o', m ∉ o'.*1 → assoc m o' = None) as Hnone.
  { intros o'. induction o' as [|[k j] o' IHo]; simpl; [done|].
    intros Hk. rewrite bool_decide_false by set_solver. apply IHo. set_solver. }
  simpl in Ho. destruct om.
  - destruct Hcase as [Hne|[= -> -> ->]]; [|by apply Hnone, Hfresh].
    apply IH; [done|done|]. set_solver.
  - apply bind_Some in Ho as (j & -> & (r & Hr & [= <-])%bind_Some). simpl.
    destruct Hcase as [Hne|[= -> -> ->]]; [|by rewrite bool_decide_true].
    rewrite bool_decide_false by done. apply IH; [done|done|]. set_solver.
Qed.

(** A field reads back what it was written with, omitted or not. *)
Lemma get_field {A} (c : codec A) (l : list field_enc) o n (omit : bool) a :
  NoDup (names l) → enc_fields l = Some o → (n, omit, enc c a) ∈ l →
  (omit = true → a = zero c) → (omit = false → jok c a) →
  get c n o = Some a.
Proof.
  intros Hnd Ho Hin Hz Hok. unfold get. rewrite (assoc_enc_fields l o n omit (enc c a)) by done.
  destruct omit; [by rewrite Hz|].
  assert (∃ j, enc c a = Some j) as [j Hj].
  { clear Hnd. revert o Ho. induction l as [|[[m om] e] l IH]; intros o Ho; [set_solver|].
    simpl in Ho. apply elem_of_cons in Hin as [[= <- <- <-]|Hin].
    - apply bind_Some in Ho as (j & -> & _). eauto.
    - destruct om; [by eapply IH|].
      apply bind_Some in Ho as (j & _ & (r & Hr & _)%bind_Some). by eapply IH. }
  rewrite Hj. apply (dec_enc c a j); auto.
Qed.

Lemma enc_struct_ok (l : list field_enc) j :
  NoDup (names l) → forallb string_ok (names l) = true →
  Forall (λ f, ∀ j, snd f = Some j → json_ok j = true) l →
  enc_struct l = Some j → json_ok j = true.
Proof.
  intros Hnd Hs Hl Hj. apply fmap_Some in Hj as (o & Ho & ->). simpl.
  rewrite andb_true_iff, bool_decide_eq_true.
  assert (∀ l, NoDup (names l) → ∀ o, enc_fields l = Some o → NoDup o.*1) as Hnd'.
  { clear. intros l. induction l as [|[[n om] e] l IH]; intros Hnd o Ho; simpl in Ho.
    - simplify_eq. constructor.
    - apply NoDup_cons in Hnd as [Hn Hnd]. destruct om; [by apply IH|].
      apply bind_Some in Ho as (j & _ & (r & Hr & [= <-])%bind_Some). simpl.
      apply NoDup_cons. split; [|by apply IH].
      intros Hin. apply enc_fields_names in Hr. by apply Hn, Hr. }
  split; [|by eapply Hnd'].
  clear Hnd Hnd'. revert o Ho. induction l as [|[[n om] e] l IH]; intros o Ho; simpl in Ho.
  - by simplify_eq.
  - simpl in Hs. apply andb_true_iff in Hs as [Hsn Hs].
    apply Forall_cons in Hl as [He Hl]. destruct om; [by apply IH|].
    apply bind_Some in Ho as (j & Hj & (r & Hr & [= <-])%bind_Some). simpl.
    rewrite Hsn, (He j Hj). by apply IH.
Qed.

Lemma enc_struct_total (l : list field_enc) :
  Forall (λ f, is_Some (snd f)) l → is_Some (enc_struct l).
Proof.
  intros Hl. unfold enc_struct.
  assert (is_Some (enc_fields l)) as [o ->]; [|done].
  induction Hl as [|[[n omit] e] l [j Hj] _ [o Ho]]; [done|]. simpl in *.
  rewrite Hj, Ho. by destruct omit.
Qed.

Lemma get_total {A} (c : codec A) `{!Total c} n o a :
  json_ok (JObj o) = true → get c n o = Some a → is_Some (enc c a).
Proof.
  unfold get. intros Ho. destruct (assoc n o) as [j|] eqn:Ea; [|intros [= <-]; apply zero_total].
  apply dec_total. simpl in Ho. apply andb_true_iff in Ho as [Ho _]. clear -Ea Ho.
  induction o as [|[m i] o IH]; simpl in *; [done|].
  apply andb_true_iff in Ho as [[_ Hi]%andb_true_iff Hl].
  case_bool_decide; [by injection Ea as <-|auto].
Qed.

(** ** Automation for struct codecs *)

Lemma field_enc_ok {A} (c : codec A) (n : string) (omit : bool) a j :
  snd ((n, omit, enc c a) : field_enc) = Some j → json_ok j = true.
Proof. apply enc_ok. Qed.

Fixpoint distinct (l : list string) : bool :=
  match l with
  | [] => true
  | s :: l => forallb (λ t, negb (String.eqb s t)) l && distinct l
  end.

Lemma distinct_NoDup l : distinct l = true → NoDup l.
Proof.
  induction l as [|s l IH]; simpl; [constructor|].
  intros [Hs Hl]%andb_true_iff. apply NoDup_cons. split; [|by apply IH].
  intros Hin. rewrite forallb_Forall, Forall_forall in Hs. specialize (Hs s Hin).
  by rewrite String.eqb_refl in Hs.
Qed.

Ltac in_list := repeat first [apply list_elem_of_here | apply list_elem_of_further].

Ltac nodup_names := apply distinct_NoDup; lazy; reflexivity.

(** Closes [enc_struct l = Some j → json_ok j = true]. *)
Ltac struct_enc_ok :=
  apply enc_struct_ok;
  [nodup_names | lazy; reflexivity
  | repeat (apply Forall_cons; split; [intros ?; apply field_enc_ok|]); apply Forall_nil; exact I].

Lemma is_nil_true v : is_nil v = true → v = VNil.
Proof. by destruct v. Qed.
Lemma is_nil_false v : is_nil v = false → v ≠ VNil.
Proof. by destruct v. Qed.
Lemma eqb_0 z : (z =? 0)%Z = true → z = 0%Z.
Proof. lia. Qed.
Lemma negb_false b : negb b = true → b = false.
Proof. by destruct b. Qed.
Lemma empty_true s : bool_decide (s = EmptyString) = true → s = EmptyString.
Proof. apply bool_decide_eq_true. Qed.
#[export] Hint Resolve is_nil_true is_nil_false eqb_0 negb_false empty_true : go.

(** The side conditions of a field: its value is zero when omitted, and in
    the domain of its codec. *)
Ltac struct_side :=
  simpl; intros; try exact I;
  solve [assumption | auto with go | done | by case_match | naive_solver].

(** Rewrites one [get] of the decoder with the field it reads. *)
Ltac struct_get H :=
  lazymatch type of H with
  | enc_fields ?l = Some ?o =>
    lazymatch goal with
    | |- get ?c ?n o ≫= _ = _ =>
      erewrite (get_field c l o n); [| nodup_names | exact H | in_list | struct_side | struct_side]; simpl
    end
  end.

(** Rewrites the member of a field that is never omitted. *)
Ltac struct_assoc H n e :=
  lazymatch type of H with
  | enc_fields ?l = Some ?o =>
    rewrite (assoc_enc_fields l o n false e); [|nodup_names|exact H|in_list]
  end.

(** A decoder that reads back every field of a record. *)
Ltac struct_dec :=
  let H := fresh "H" in
  let o := fresh "o" in
  intros H; apply fmap_Some in H as (o & H & ->); simpl dec_struct; cbv beta;
  repeat struct_get H; reflexivity.

(** The encodings of the zero value and of decoded values. *)
Ltac struct_list :=
  apply enc_struct_total;
  lazymatch goal with |- Forall ?P ?l => let l := eval hnf in l in change (Forall P l) end.

Ltac struct_zero_field :=
  cbn [snd field field_omit];
  lazymatch goal with |- is_Some (enc ?c _) => exact (zero_total (c := c)) end.

Ltac struct_zero :=
  struct_list;
  repeat (apply Forall_cons; split; [struct_zero_field|]); apply Forall_nil; exact I.

Ltac struct_total :=
  let j := fresh "j" in let a := fresh "a" in let Hj := fresh "Hj" in let H := fresh "H" in
  intros j a Hj H; destruct j; simpl in H; try discriminate H;
  [injection H as <-; struct_zero
  | repeat (apply bind_Some in H as (? & ? & H)); injection H as <-; struct_list;
    repeat (apply Forall_cons; split; [eapply get_total; [exact _|exact Hj|eassumption]|]);
    apply Forall_nil; exact I].

(** ** Values that can be encoded *)

Create HintDb encodes discriminated.

Lemma Marshal_total {A} (c : codec A) a : is_Some (enc c a) → ∃ j, Marshal c a = Ok (VText j).
Proof. intros [j Hj]. unfold Marshal. rewrite Hj. eauto. Qed.

Lemma Marshal_encodes {A} (c : codec A) a v : Marshal c a = Ok v → is_Some (enc c a).
Proof. unfold Marshal. by destruct (enc c a). Qed.

Lemma string_encodes s : string_ok s = true → is_Some (enc string_codec s).
Proof. intros H. simpl. by rewrite H. Qed.
Lemma bool_encodes b : is_Some (enc bool_codec b).
Proof. done. Qed.
Lemma int_encodes range z : is_Some (enc (int_codec range) z).
Proof. done. Qed.
Lemma bytes_encodes p : is_Some (enc bytes_codec p).
Proof. done. Qed.
Lemma value_encodes v : is_nil v || IsValid v = true → is_Some (enc value_codec v).
Proof. destruct v as [|j|]; simpl; [done| |done]. by intros ->. Qed.
Lemma ptr_encodes {A} (c : codec A) o :
  (∀ a, o = Some a → is_Some (enc c a)) → is_Some (enc (ptr_codec c) o).
Proof. destruct o; simpl; [auto|done]. Qed.
#[export] Hint Resolve string_encodes bool_encodes int_encodes bytes_encodes value_encodes ptr_encodes
  : encodes.

(** A decoded string is valid UTF-8. *)
Lemma string_decoded s : is_Some (enc string_codec s) → string_ok s = true.
Proof. simpl. by destruct (string_ok s); [|intros []]. Qed.

(** Every field of an encoded record is encoded or omitted. *)
Lemma enc_struct_fields (l : list field_enc) n (omit : bool) (e : option json) :
  is_Some (enc_struct l) → (n, omit, e) ∈ l → omit = false → is_Some e.
Proof.
  unfold enc_struct. intros [j Hj] Hin Ho. apply fmap_Some in Hj as (o & Hl & _).
  revert o Hl. induction l as [|[[m om] e'] l IH]; intros o Hl; [set_solver|]. simpl in Hl.
  apply elem_of_cons in Hin as [[= <- <- <-]|Hin].
  - rewrite Ho in Hl. apply bind_Some in Hl as (j' & -> & _). done.
  - destruct om; [by eapply IH|].
    apply bind_Some in Hl as (? & _ & (r & Hr & _)%bind_Some). by eapply IH.
Qed.

(** Closes [is_Some (enc_struct l)] field by field. *)
Ltac struct_encodes :=
  apply enc_struct_total;
  repeat (apply Forall_cons; split; [cbn [snd field field_omit]; auto with encodes|]);
  try (apply Forall_nil; exact I).
