(* ===== verification/GoTime.v ===== *)
(** * time.Time

    The program records instants and gives them back; it never compares or
    computes with a [time.Time] in the packages modelled here.  An instant is
    carried as its RFC 3339 text, the one that encoding/json writes. *)

From Stdlib Require Import Ascii ZArith Lia.
From S2P Require Import Prelude GoStrings GoText Json JsonCodec.

Local Open Scope Z_scope.

Definition Time : Set := string.

(** The zero [time.Time]. *)
Definition Time_zero : Time := "0001-01-01T00:00:00Z".

Definition IsZero (t : Time) : bool := bool_decide (t = Time_zero).

Definition is_digit (c : ascii) : bool := utf8.between 48 57 (byte_val c).

(** The value of a run of digits, if all bytes are. *)
Definition number (p : bytes) : option Z :=
  if forallb is_digit p then Some (fold_left (λ n c, 10 * n + (byte_val c - 48)) p 0) else None.

Definition leap (y : Z) : bool :=
  (y mod 4 =? 0) && (negb (y mod 100 =? 0) || (y mod 400 =? 0)).

Definition days_in (y m : Z) : Z :=
  if m =? 2 then (if leap y then 29 else 28)
  else if (m =? 4) || (m =? 6) || (m =? 9) || (m =? 11) then 30 else 31.

Definition zone_ok (p : bytes) : bool :=
  match p with
  | ["Z"%char] => true
  | [s; h1; h2; ":"%char; m1; m2] =>
    (Ascii.eqb s "+" || Ascii.eqb s "-") &&
    match number [h1; h2], number [m1; m2] with
    | Some h, Some m => (h <? 24) && (m <? 60)
    | _, _ => false
    end
  | _ => false
  end.

Fixpoint skip_digits (p : bytes) : bytes :=
  match p with
  | c :: p' => if is_digit c then skip_digits p' else p
  | [] => []
  end.

(** The fraction of a second, of one digit or more, then the zone. *)
Definition rest_ok (p : bytes) : bool :=
  match p with
  | "."%char :: c :: p' => is_digit c && zone_ok (skip_digits p')
  | _ => zone_ok p
  end.

(** [YYYY-MM-DDThh:mm:ss[.fraction](Z|+hh:mm|-hh:mm)] *)
Definition Time_ok (t : Time) : bool :=
  match to_bytes t with
  | y1 :: y2 :: y3 :: y4 :: "-"%char :: o1 :: o2 :: "-"%char :: d1 :: d2 :: "T"%char
    :: h1 :: h2 :: ":"%char :: m1 :: m2 :: ":"%char :: s1 :: s2 :: rest =>
    match number [y1; y2; y3; y4], number [o1; o2], number [d1; d2],
          number [h1; h2], number [m1; m2], number [s1; s2] with
    | Some y, Some o, Some d, Some h, Some m, Some s =>
      utf8.between 1 12 o && utf8.between 1 (days_in y o) d && (h <? 24) && (m <? 60) && (s <? 60)
      && rest_ok rest
    | _, _, _, _, _, _ => false
    end
  | _ => false
  end.

#[global] Arguments Time_ok : simpl never.

#[local] Unset Program Cases.

Program Definition Time_codec : codec Time := {|
  zero := Time_zero;
  enc t := if Time_ok t && string_ok t then Some (JStr t) else None;
  dec j := match j with
           | JStr s => if Time_ok s then Some s else None
           | JNull => Some Time_zero
           | _ => None end;
  jok _ := True |}.
Next Obligation.
  intros t j _. simpl. destruct (Time_ok t && string_ok t) eqn:E; [|done]. intros [= <-].
  apply andb_true_iff in E as [E _]. by rewrite E.
Qed.
Next Obligation.
  intros t j. simpl. destruct (Time_ok t && string_ok t) eqn:E; [|done]. intros [= <-].
  by apply andb_true_iff in E as [_ E].
Qed.
#[export] Instance Time_total : Total Time_codec.
Proof.
  constructor.
  - vm_compute. eauto.
  - intros [| | | |s| |] a Hj; simpl in *; intros H; simplify_eq; [by vm_compute; eauto|].
    destruct (Time_ok s) eqn:E; [|done]. injection H as <-. by rewrite E, Hj.
Qed.

Lemma Time_encodes t : Time_ok t = true → string_ok t = true → is_Some (enc Time_codec t).
Proof. intros H1 H2. simpl. by rewrite H1, H2. Qed.
#[export] Hint Resolve Time_encodes : encodes.
