(* ===== verification/Primitives.v ===== *)
(** * Primitives: events, requests, the file reader, the timer and compute

    The package harness/primitives.  A primitive runs in a goroutine of its
    own and reports to the channel of its caller; it is modelled by the list
    of events it sends.  What the operating system answers (an opened file,
    its size, what it reads, the moments at which the context is canceled) is
    the argument [os] or [ctx] of the definitions.

    [V] is the type of the values a compute callback may return and [C] the
    type that stands for the callbacks. *)

From Stdlib Require Import Ascii ZArith Lia.
From S2P Require Import Prelude GoStrings GoText.

Local Open Scope Z_scope.

(** ** Types and constants *)

Definition PrimitiveEventType : Set := string.
Definition SourceID : Set := string.
Definition CorrelationID : Set := string.

Definition PrimitiveEventFailed : PrimitiveEventType := "primitive.failed".
Definition PrimitiveEventCanceled : PrimitiveEventType := "primitive.canceled".
Definition PrimitiveEventIOCreateCompleted : PrimitiveEventType := "io.create_completed".
Definition PrimitiveEventIOReadOutput : PrimitiveEventType := "io.read_output".
Definition PrimitiveEventIOReadCompleted : PrimitiveEventType := "io.read_completed".
Definition PrimitiveEventProcessStarted : PrimitiveEventType := "process.started".
Definition PrimitiveEventProcessOutput : PrimitiveEventType := "process.output".
Definition PrimitiveEventProcessStreamFailed : PrimitiveEventType := "process.stream_failed".
Definition PrimitiveEventProcessExited : PrimitiveEventType := "process.exited".
Definition PrimitiveEventTimerFired : PrimitiveEventType := "timer.fired".
Definition PrimitiveEventComputeCompleted : PrimitiveEventType := "compute.completed".

Definition PrimitiveDispatchType : Set := string.
Definition PrimitiveDispatchProcessStart : PrimitiveDispatchType := "process.start".
Definition PrimitiveDispatchIOCreate : PrimitiveDispatchType := "io.create".
Definition PrimitiveDispatchIORead : PrimitiveDispatchType := "io.read".
Definition PrimitiveDispatchCompute : PrimitiveDispatchType := "compute".

Inductive IOCreateKind : Set := IOCreateRegularFile | IOCreateDirectory.

#[export] Instance IOCreateKind_eq_dec : EqDecision IOCreateKind.
Proof. solve_decision. Defined.

Definition IOReadChunkSize : Z := 32 * 1024.

(** The dynamic types a [PrimitiveEvent.Result] has: nil, the results the
    operations test for, and the values of other types. *)
Inductive PrimitiveResult (V : Type) : Type :=
  | ResultNil
  | PrimitiveFailureResult (Error : string)
  | IOCreateResult (Kind : IOCreateKind)
  | IOReadOutputResult (Offset : Z) (Data : bytes)
  | IOReadCompletedResult (Size : Z)
  | ProcessStartedResult (PID : Z)
  | ProcessExitResult (ExitCode Signal : Z)
  | ComputeResult (Value : V)
  | TimerResult (Deadline FiredAt : Z)
  | RemoteResponseStartedResult (Attempt StatusCode : Z) (Headers : gmap string (list string))
  | RemoteOutputResult (Attempt Offset : Z) (Data : bytes)
  | RemoteStreamFailureResult (Attempt : Z) (Error : string)
  | RemoteRetryScheduledResult (Attempt : Z) (Reason : string) (Delay : Z)
  | RemoteCompletedResult (Attempt : Z)
  | ProcessOutputResult (Stream Offset : Z) (Data : bytes)
  | ProcessStreamFailureResult (Stream : Z) (Error : string)
  | ProcessWriteResult (Count : Z)
  | ProcessWriteFailureResult (Count : Z) (Error : string)
  | ResultOther (type_name : string).
Arguments ResultNil {V}.
Arguments PrimitiveFailureResult {V}.
Arguments IOCreateResult {V}.
Arguments IOReadOutputResult {V}.
Arguments IOReadCompletedResult {V}.
Arguments ProcessStartedResult {V}.
Arguments ProcessExitResult {V}.
Arguments ComputeResult {V}.
Arguments TimerResult {V}.
Arguments RemoteResponseStartedResult {V}.
Arguments RemoteOutputResult {V}.
Arguments RemoteStreamFailureResult {V}.
Arguments RemoteRetryScheduledResult {V}.
Arguments RemoteCompletedResult {V}.
Arguments ProcessOutputResult {V}.
Arguments ProcessStreamFailureResult {V}.
Arguments ProcessWriteResult {V}.
Arguments ProcessWriteFailureResult {V}.
Arguments ResultOther {V}.

Module event.
Record PrimitiveEvent (V : Type) : Type := Mk {
  Type_ : PrimitiveEventType;
  Source : SourceID;
  Correlation : CorrelationID;
  Result : PrimitiveResult V;
}.
Arguments Mk {V}.
Arguments Type_ {V}.
Arguments Source {V}.
Arguments Correlation {V}.
Arguments Result {V}.
End event.
Abbreviation PrimitiveEvent := event.PrimitiveEvent.

Module read.
Record IOReadRequest : Set := Mk {
  Source : SourceID; Correlation : CorrelationID;
  Path : string; Offset : Z; Count : Z }.
End read.
Abbreviation IOReadRequest := read.IOReadRequest.

Module create.
Record IOCreateRequest : Set := Mk {
  Source : SourceID; Correlation : CorrelationID;
  Kind : IOCreateKind; Path : string; Mode : Z }.
End create.
Abbreviation IOCreateRequest := create.IOCreateRequest.

(** The environment and the pipes of a process are left at their zero values
    by every caller in the repository. *)
Module process.
Record ProcessStartRequest : Set := Mk {
  Source : SourceID; Correlation : CorrelationID;
  Path : string; Arguments_ : list string; Directory : string;
  StdoutPath : string; StderrPath : string }.
End process.
Abbreviation ProcessStartRequest := process.ProcessStartRequest.

(** [Run] is [None] for a nil function. *)
Module compute.
Record ComputeRequest (C : Type) : Type := Mk {
  Source : SourceID; Correlation : CorrelationID; Run : option C }.
Arguments Mk {C}.
Arguments Source {C}.
Arguments Correlation {C}.
Arguments Run {C}.
End compute.
Abbreviation ComputeRequest := compute.ComputeRequest.

(** The deadline is a wall-clock instant in nanoseconds; 0 is the zero time. *)
Module timer.
Record TimerRequest : Set := Mk {
  Source : SourceID; Correlation : CorrelationID; Deadline : Z }.
End timer.
Abbreviation TimerRequest := timer.TimerRequest.

Section Events.
Context {V : Type}.

Definition primitiveFailure (source : SourceID) (correlationID : CorrelationID) (err : error)
  : PrimitiveEvent V :=
  event.Mk PrimitiveEventFailed source correlationID (PrimitiveFailureResult (Error err)).

Definition primitiveCanceled (source : SourceID) (correlationID : CorrelationID)
  : PrimitiveEvent V :=
  event.Mk PrimitiveEventCanceled source correlationID ResultNil.

(** The integers of a result fit in their Go types. *)
Definition result_typed (r : PrimitiveResult V) : bool :=
  match r with
  | IOReadOutputResult offset _ => in_int64 offset
  | IOReadCompletedResult size => in_int64 size
  | ProcessStartedResult pid => in_int64 pid
  | ProcessExitResult exitCode signal => in_int64 exitCode && in_int64 signal
  | _ => true
  end.
Definition event_typed (e : PrimitiveEvent V) : bool := result_typed (event.Result e).

(** The events after which a primitive sends nothing. *)
Definition completing (t : PrimitiveEventType) : bool :=
  bool_decide (t ∈ [PrimitiveEventIOCreateCompleted; PrimitiveEventIOReadCompleted;
    PrimitiveEventProcessExited; PrimitiveEventFailed; PrimitiveEventCanceled;
    PrimitiveEventComputeCompleted]).

(** ** Reading a file *)

(** What [ReadAt] returns as its error. *)
Inductive read_error : Set := io_EOF | io_error (e : error).

(** One open file as the reader sees it: the answers of Stat (mode and size)
    before and after, of ReadAt at an offset for a length, and of Close; and,
    at the n-th test of the context, whether it is canceled. *)
Record file_os : Type := FileOS {
  open_file : option error;
  stat_before : error + bool * string * Z;   (* regular, file type, size *)
  ReadAt : Z → Z → bytes * option read_error;
  stat_after : error + Z;
  Close : option error;
  canceled : nat → bool;
}.

Definition joined (e : error) (close : option error) : error :=
  match close with None => e | Some c => errors_Join e c end.

Definition io_ErrUnexpectedEOF : error := errors_New "unexpected EOF".

Definition validateIOReadRequest (request : IOReadRequest) : option error :=
  if read.Offset request <? 0 then
    Some (errors_New ("read " +:+ quote (read.Path request) +:+ ": offset must not be negative"))
  else if read.Count request <? 0 then
    Some (errors_New ("read " +:+ quote (read.Path request) +:+ ": count must not be negative"))
  else None.

Definition ioReadFailure (request : IOReadRequest) (err : error) : PrimitiveEvent V :=
  primitiveFailure (read.Source request) (read.Correlation request) err.

Definition ioReadCanceled (request : IOReadRequest) : PrimitiveEvent V :=
  primitiveCanceled (read.Source request) (read.Correlation request).

Definition ioReadOutput (request : IOReadRequest) (offset : Z) (data : bytes) : PrimitiveEvent V :=
  event.Mk PrimitiveEventIOReadOutput (read.Source request) (read.Correlation request)
    (IOReadOutputResult offset data).

Definition finishCanceledRead (os : file_os) (request : IOReadRequest) : PrimitiveEvent V :=
  match Close os with
  | Some err => ioReadFailure request
      (Errorf_w ("close " +:+ quote (read.Path request) +:+ ": ") err)
  | None => ioReadCanceled request
  end.

(** The error of a read that is not the whole of the data asked for. *)
Definition settleRead (count want : Z) (readErr : option read_error) : option error :=
  match readErr with
  | Some io_EOF => if count =? want then None else Some io_ErrUnexpectedEOF
  | Some (io_error e) => Some e
  | None => if count =? want then None else Some io_ErrUnexpectedEOF
  end.

(** The part of [streamOpenFile] after its loop. *)
Definition finishRead (os : file_os) (request : IOReadRequest) (size : Z) (test : nat)
  : PrimitiveEvent V :=
  if canceled os test then finishCanceledRead os request
  else match stat_after os with
  | inl err => ioReadFailure request
      (joined (Errorf_w ("inspect " +:+ quote (read.Path request) +:+ " after reading: ") err) (Close os))
  | inr after =>
    if negb (after =? size) then
      ioReadFailure request
        (joined (errors_New ("read " +:+ quote (read.Path request) +:+ ": file size changed from "
                             +:+ Itoa size +:+ " to " +:+ Itoa after)) (Close os))
    else match Close os with
    | Some err => ioReadFailure request (Errorf_w ("close " +:+ quote (read.Path request) +:+ ": ") err)
    | None =>
      if canceled os (S test) then ioReadCanceled request
      else event.Mk PrimitiveEventIOReadCompleted (read.Source request) (read.Correlation request)
             (IOReadCompletedResult size)
    end
  end.

(** The loop of [streamOpenFile]: three tests of the context a round, the
    third in the select that sends the event.  One round takes at least one
    byte, at most [IOReadChunkSize]: [streamOpenFile] gives the fuel. *)
Fixpoint readLoop (fuel : nat) (os : file_os) (request : IOReadRequest) (size : Z)
    (fileOffset remaining : Z) (test : nat) : list (PrimitiveEvent V) :=
  if remaining <=? 0 then [finishRead os request size test]
  else match fuel with
  | O => []
  | S fuel =>
    if canceled os test then [finishCanceledRead os request]
    else
      let want := Z.min remaining IOReadChunkSize in
      let '(data, readErr) := ReadAt os fileOffset want in
      let count := len data in
      if canceled os (test + 1) then [finishCanceledRead os request]
      else match settleRead count want readErr with
      | Some e => [ioReadFailure request
                    (joined (Errorf_w ("read " +:+ quote (read.Path request) +:+ ": ") e) (Close os))]
      | None =>
        if canceled os (test + 2) then [finishCanceledRead os request]
        else ioReadOutput request fileOffset data
             :: readLoop fuel os request size (fileOffset + count) (remaining - count) (test + 3)
      end
  end.

Definition streamOpenFile (os : file_os) (request : IOReadRequest) (size : Z) (test : nat)
  : list (PrimitiveEvent V) :=
  let remaining := if read.Offset request <? size
                   then Z.min (read.Count request) (size - read.Offset request) else 0 in
  readLoop (Z.to_nat (remaining / IOReadChunkSize) + 1) os request size
    (read.Offset request) remaining test.

Definition inspectAndStreamFile (os : file_os) (request : IOReadRequest) (test : nat)
  : list (PrimitiveEvent V) :=
  match stat_before os with
  | inl err => [ioReadFailure request
      (joined (Errorf_w ("inspect " +:+ quote (read.Path request) +:+ ": ") err) (Close os))]
  | inr (regular, file_type, size) =>
    if negb regular then
      [ioReadFailure request
        (joined (errors_New ("open " +:+ quote (read.Path request)
                             +:+ ": unsupported file type " +:+ file_type)) (Close os))]
    else streamOpenFile os request size test
  end.

Definition streamFile (os : file_os) (request : IOReadRequest) : list (PrimitiveEvent V) :=
  match validateIOReadRequest request with
  | Some err => [ioReadFailure request err]
  | None =>
    if canceled os 0 then [ioReadCanceled request]
    else match open_file os with
    | Some err => [ioReadFailure request
                     (Errorf_w ("open " +:+ quote (read.Path request) +:+ ": ") err)]
    | None => inspectAndStreamFile os request 1
    end
  end.

(** ** Creating a file or directory *)

(** The chain of an error as errors.Join and the verb %w build it. *)
Inductive error_tree : Type :=
  | ErrorLeaf (text : string)
  | ErrorContext                      (* context.Canceled or DeadlineExceeded *)
  | ErrorWrap (prefix : string) (cause : error_tree)
  | ErrorJoin (causes : list error_tree).

Fixpoint isOnlyContextCancellation (err : error_tree) : bool :=
  match err with
  | ErrorJoin causes =>
    forallb isOnlyContextCancellation causes && (0 <? len causes)
  | ErrorWrap _ cause => isOnlyContextCancellation cause
  | ErrorContext => true
  | ErrorLeaf _ => false
  end.

Fixpoint error_text (err : error_tree) : string :=
  match err with
  | ErrorLeaf text => text
  | ErrorContext => "context canceled"
  | ErrorWrap prefix cause => prefix +:+ error_text cause
  | ErrorJoin causes => Join (error_text <$> causes) (String "010" EmptyString)
  end.

Definition ioCreateFailure (request : IOCreateRequest) (err : error_tree) : PrimitiveEvent V :=
  primitiveFailure (create.Source request) (create.Correlation request) (errors_New (error_text err)).

Definition ioCreateCanceled (request : IOCreateRequest) : PrimitiveEvent V :=
  primitiveCanceled (create.Source request) (create.Correlation request).

(** [created] is what [createNewPath], the operating system's part, returns. *)
Definition createPath (canceled : bool) (created : error_tree + IOCreateKind)
    (request : IOCreateRequest) : list (PrimitiveEvent V) :=
  if canceled then [ioCreateCanceled request]
  else match created with
  | inl err =>
    if isOnlyContextCancellation err then [ioCreateCanceled request]
    else [ioCreateFailure request err]
  | inr kind =>
    [event.Mk PrimitiveEventIOCreateCompleted (create.Source request) (create.Correlation request)
       (IOCreateResult kind)]
  end.

(** ** Compute *)

(** How the callback ends. *)
Inductive callback_end : Type :=
  | Returned (r : error + V)
  | Panicked (recovered : string)
  | Exited.

Definition runCompute {C} (canceled_before canceled_after : bool) (run : C → callback_end)
    (request : ComputeRequest C) : list (PrimitiveEvent V) :=
  let source := compute.Source request in
  let correlation := compute.Correlation request in
  match compute.Run request with
  | None => [primitiveFailure source correlation (errors_New "compute: Run must be set")]
  | Some callback =>
    if canceled_before then [primitiveCanceled source correlation]
    else
      let outcome := match run callback with
        | Returned r => r
        | Panicked recovered => inl (errors_New ("compute callback panicked: " +:+ recovered))
        | Exited => inl (errors_New "compute callback exited without returning")
        end in
      if canceled_after then [primitiveCanceled source correlation]
      else match outcome with
      | inl err => [primitiveFailure source correlation err]
      | inr value => [event.Mk PrimitiveEventComputeCompleted source correlation (ComputeResult value)]
      end
  end.

(** ** Timer *)

Definition timerMaximumSleep : Z := 5 * 1000000000.

Definition timerDelay (now deadline : Z) : Z :=
  Z.min (Z.max (deadline - now) 0) timerMaximumSleep.

Definition validateTimerRequest (request : TimerRequest) : option error :=
  if timer.Deadline request =? 0 then Some (errors_New "schedule timer: deadline must be set")
  else None.

(** What the select of the timer's loop receives: the timer fires at a
    wall-clock instant, or the context is done.  The list is the run of the
    environment; a run that ends leaves the timer waiting. *)
Inductive timer_input : Set := TimerC (now : Z) | CtxDone.

Fixpoint timerLoop (request : TimerRequest) (inputs : list timer_input) : list (PrimitiveEvent V) :=
  match inputs with
  | [] => []
  | TimerC now :: inputs =>
    if negb (now <? timer.Deadline request) then
      [event.Mk PrimitiveEventTimerFired (timer.Source request) (timer.Correlation request)
         (TimerResult (timer.Deadline request) now)]
    else timerLoop request inputs
  | CtxDone :: _ => [primitiveCanceled (timer.Source request) (timer.Correlation request)]
  end.

Definition runTimer (canceled : bool) (request : TimerRequest) (inputs : list timer_input)
  : list (PrimitiveEvent V) :=
  match validateTimerRequest request with
  | Some err => [primitiveFailure (timer.Source request) (timer.Correlation request) err]
  | None =>
    if canceled then [primitiveCanceled (timer.Source request) (timer.Correlation request)]
    else timerLoop request inputs
  end.

(** ** The protocol of the file reader *)

(** The bytes of a run of read outputs that starts at [offset] and has no gap. *)
Fixpoint outputs (request : IOReadRequest) (offset : Z) (evs : list (PrimitiveEvent V)) : option bytes :=
  match evs with
  | [] => Some []
  | e :: evs =>
    match event.Result e with
    | IOReadOutputResult o data =>
      if bool_decide (event.Type_ e = PrimitiveEventIOReadOutput) && (o =? offset)
         && bool_decide (event.Source e = read.Source request)
         && bool_decide (event.Correlation e = read.Correlation request)
      then app data <$> outputs request (offset + len data) evs
      else None
    | _ => None
    end
  end.

Lemma outputs_cons request offset data evs :
  outputs request offset (ioReadOutput request offset data :: evs)
  = app data <$> outputs request (offset + len data) evs.
Proof.
  simpl. rewrite Z.eqb_refl, !bool_decide_true by done. done.
Qed.

(** An event that ends a read: it has the request's identity, and a
    completion carries the size of the file. *)
Definition read_end (request : IOReadRequest) (size : Z) (e : PrimitiveEvent V) : Prop :=
  completing (event.Type_ e) = true ∧
  event.Source e = read.Source request ∧ event.Correlation e = read.Correlation request ∧
  (event.Type_ e = PrimitiveEventIOReadCompleted → event.Result e = IOReadCompletedResult size).

Lemma ioReadFailure_end request size err : read_end request size (ioReadFailure request err).
Proof. repeat split; discriminate. Qed.

Lemma ioReadCanceled_end request size : read_end request size (ioReadCanceled request).
Proof. repeat split; discriminate. Qed.

Lemma finishCanceledRead_end os request size : read_end request size (finishCanceledRead os request).
Proof. unfold finishCanceledRead. case_match; [apply ioReadFailure_end|apply ioReadCanceled_end]. Qed.

Lemma finishRead_end os request size test :
  read_end request size (finishRead os request size test).
Proof.
  unfold finishRead. go_cases;
    solve [apply ioReadFailure_end | apply ioReadCanceled_end | apply finishCanceledRead_end
          | repeat split].
Qed.

Lemma settleRead_None count want readErr : settleRead count want readErr = None → count = want.
Proof.
  unfold settleRead. destruct readErr as [[|]|]; simpl; [| |]; try done;
    destruct (Z.eqb_spec count want); done.
Qed.

Lemma finishCanceledRead_not_completed os request :
  event.Type_ (finishCanceledRead os request) ≠ PrimitiveEventIOReadCompleted.
Proof. unfold finishCanceledRead. by case_match. Qed.

(** Whatever the operating system answers, a round of the loop is followed
    by the rest of the data or by the event that ends the read. *)
Lemma readLoop_protocol fuel os request size offset remaining test :
  remaining ≤ IOReadChunkSize * Z.of_nat fuel →
  ∃ outs last data,
    readLoop fuel os request size offset remaining test = outs ++ [last] ∧
    outputs request offset outs = Some data ∧ read_end request size last ∧
    (event.Type_ last = PrimitiveEventIOReadCompleted → len data = Z.max 0 remaining) ∧
    len data ≤ Z.max 0 remaining.
Proof.
  revert offset remaining test.
  assert (∀ offset remaining e, read_end request size e →
            (event.Type_ e = PrimitiveEventIOReadCompleted → remaining ≤ 0) →
            ∃ outs last data, [e] = outs ++ [last] ∧ outputs request offset outs = Some data ∧
              read_end request size last ∧
              (event.Type_ last = PrimitiveEventIOReadCompleted → len data = Z.max 0 remaining) ∧
              len data ≤ Z.max 0 remaining) as Hone.
  { intros offset remaining e He Hr. exists [], e, []. split_and!; [done|done|done| |].
    - intros Hc. specialize (Hr Hc). unfold len. simpl. lia.
    - unfold len. simpl. lia. }
  induction fuel as [|fuel IH]; intros offset remaining test Hfuel; cbn [readLoop];
    destruct (Z.leb_spec remaining 0); try (apply Hone; [apply finishRead_end|done]).
  { lia. }
  destruct (canceled os test); [apply Hone; [apply finishCanceledRead_end|]|].
  { intros Hc. by apply finishCanceledRead_not_completed in Hc. }
  destruct (ReadAt os offset (Z.min remaining IOReadChunkSize)) as [data readErr].
  destruct (canceled os (test + 1)); [apply Hone; [apply finishCanceledRead_end|]|].
  { intros Hc. by apply finishCanceledRead_not_completed in Hc. }
  destruct (settleRead _ _ _) eqn:Hs; [apply Hone; [apply ioReadFailure_end|done]|].
  destruct (canceled os (test + 2)); [apply Hone; [apply finishCanceledRead_end|]|].
  { intros Hc. by apply finishCanceledRead_not_completed in Hc. }
  apply settleRead_None in Hs.
  destruct (IH (offset + len data) (remaining - len data) (test + 3)%nat)
    as (outs & last & rest & -> & Hout & Hend & Hlen & Hle).
  { unfold IOReadChunkSize in *. lia. }
  exists (ioReadOutput request offset data :: outs), last, (data ++ rest).
  rewrite outputs_cons, Hout. unfold len in *. rewrite length_app. unfold IOReadChunkSize in *.
  split_and!; [done|done|done| |lia]. intros Hc. specialize (Hlen Hc). lia.
Qed.

(** Two values of an offset and a size decide how much a read takes. *)
Definition read_amount (request : IOReadRequest) (size : Z) : Z :=
  if read.Offset request <? size
  then Z.min (read.Count request) (size - read.Offset request) else 0.

Lemma streamOpenFile_protocol os request size test :
  0 ≤ read.Count request →
  ∃ outs last data,
    streamOpenFile os request size test = outs ++ [last] ∧
    outputs request (read.Offset request) outs = Some data ∧ read_end request size last ∧
    (event.Type_ last = PrimitiveEventIOReadCompleted → len data = read_amount request size) ∧
    len data ≤ read_amount request size.
Proof.
  intros Hcount. unfold streamOpenFile. fold (read_amount request size).
  set (remaining := read_amount request size).
  assert (0 ≤ remaining) by (unfold remaining, read_amount; case_match; lia).
  destruct (readLoop_protocol (Z.to_nat (remaining / IOReadChunkSize) + 1) os request size
              (read.Offset request) remaining test) as (outs & last & data & H1).
  { unfold IOReadChunkSize. Z.to_euclidean_division_equations. lia. }
  exists outs, last, data. by rewrite Z.max_r in H1 by done.
Qed.

(** Whatever the operating system answers and whenever the context is
    canceled, the file reader sends outputs that carry the request's source
    and correlation and continue each other from the requested offset without
    a gap, and then exactly one completing event; a completion of size [n] is
    sent only after all of the requested range of a file of [n] bytes. *)
Theorem streamFile_protocol os request :
  ∃ outs last data size,
    streamFile os request = outs ++ [last] ∧
    outputs request (read.Offset request) outs = Some data ∧
    read_end request size last ∧
    (event.Type_ last = PrimitiveEventIOReadCompleted →
       0 ≤ read.Offset request ∧ 0 ≤ read.Count request ∧ len data = read_amount request size) ∧
    len data ≤ Z.max 0 (read.Count request).
Proof.
  assert (∀ e : PrimitiveEvent V, (e = ioReadCanceled request ∨ ∃ err, e = ioReadFailure request err) →
    ∃ outs last data size, [e] = outs ++ [last] ∧
      outputs request (read.Offset request) outs = Some data ∧ read_end request size last ∧
      (event.Type_ last = PrimitiveEventIOReadCompleted →
         0 ≤ read.Offset request ∧ 0 ≤ read.Count request ∧ len data = read_amount request size) ∧
      len data ≤ Z.max 0 (read.Count request)) as Hone.
  { intros e He. exists [], e, [], 0. split_and!; [done|done| | |unfold len; simpl; lia].
    - destruct He as [->|[err ->]]; [apply ioReadCanceled_end|apply ioReadFailure_end].
    - by destruct He as [->|[err ->]]. }
  unfold streamFile, validateIOReadRequest.
  destruct (Z.ltb_spec (read.Offset request) 0) as [|Ho]; [apply Hone; eauto|].
  destruct (Z.ltb_spec (read.Count request) 0) as [|Hc]; [apply Hone; eauto|].
  destruct (canceled os 0); [apply Hone; eauto|].
  destruct (open_file os); [apply Hone; eauto|].
  unfold inspectAndStreamFile.
  destruct (stat_before os) as [err|[[regular ft] size]]; [apply Hone; eauto|].
  destruct regular; [|apply Hone; eauto]. simpl.
  destruct (streamOpenFile_protocol os request size 1 Hc)
    as (outs & last & data & -> & Hout & Hend & Hlen & Hle).
  exists outs, last, data, size. split_and!; [done|done|done|auto|].
  unfold read_amount in *. destruct (Z.ltb_spec (read.Offset request) size); lia.
Qed.

(** ** Reading a file that does not change *)

(** A regular file with the content [c] that opens, reads and closes without
    an error while the context is not canceled. *)
Record stable_file (c : bytes) (os : file_os) : Prop := {
  stable_open : open_file os = None;
  stable_before : stat_before os = inr (true, EmptyString, len c);
  stable_read : ∀ offset n, 0 ≤ offset → 0 ≤ n → offset + n ≤ len c →
    ReadAt os offset n = (take (Z.to_nat n) (drop (Z.to_nat offset) c), None);
  stable_after : stat_after os = inr (len c);
  stable_close : Close os = None;
  stable_canceled : ∀ n, canceled os n = false;
}.

Lemma finishRead_stable c os request test :
  stable_file c os →
  finishRead os request (len c) test
  = event.Mk PrimitiveEventIOReadCompleted (read.Source request) (read.Correlation request)
      (IOReadCompletedResult (len c)).
Proof.
  intros Hs. unfold finishRead.
  rewrite !(stable_canceled _ _ Hs), (stable_after _ _ Hs), (stable_close _ _ Hs).
  by rewrite Z.eqb_refl.
Qed.

Lemma readLoop_stable c os request fuel offset remaining test :
  stable_file c os → remaining ≤ IOReadChunkSize * Z.of_nat fuel →
  0 ≤ offset → 0 ≤ remaining → remaining = 0 ∨ offset + remaining ≤ len c →
  ∃ outs,
    readLoop fuel os request (len c) offset remaining test
    = outs ++ [event.Mk PrimitiveEventIOReadCompleted (read.Source request) (read.Correlation request)
                 (IOReadCompletedResult (len c))] ∧
    outputs request offset outs
    = Some (take (Z.to_nat remaining) (drop (Z.to_nat offset) c)).
Proof.
  intros Hs. revert offset remaining test.
  induction fuel as [|fuel IH]; intros offset remaining test Hfuel Ho Hr Hc; cbn [readLoop];
    destruct (Z.leb_spec remaining 0); [| lia | | ].
  1,2: exists []; rewrite finishRead_stable by done;
       by replace remaining with 0 by lia.
  rewrite !(stable_canceled _ _ Hs).
  set (want := Z.min remaining IOReadChunkSize).
  assert (0 < want ≤ remaining ∧ remaining - want ≤ IOReadChunkSize * Z.of_nat fuel) as [Hwant Hf].
  { unfold want, IOReadChunkSize in *. lia. }
  rewrite (stable_read _ _ Hs) by lia.
  set (data := take (Z.to_nat want) (drop (Z.to_nat offset) c)).
  assert (len data = want) as Hdata.
  { unfold data, len in *. rewrite length_take, length_drop. lia. }
  rewrite Hdata. unfold settleRead. rewrite Z.eqb_refl.
  destruct (IH (offset + want) (remaining - want) (test + 3)%nat)
    as (outs & -> & Hout); [lia|lia|lia|lia|].
  exists (ioReadOutput request offset data :: outs). split; [done|].
  rewrite outputs_cons, Hdata, Hout. cbn. f_equal. unfold data.
  replace (Z.to_nat (offset + want)) with (Z.to_nat offset + Z.to_nat want)%nat by lia.
  rewrite <- drop_drop.
  replace (Z.to_nat remaining) with (Z.to_nat want + Z.to_nat (remaining - want))%nat by lia.
  by rewrite take_take_drop.
Qed.

(** The reader delivers the requested range of a file that does not change. *)
Lemma streamFile_stable c os request :
  stable_file c os → 0 ≤ read.Offset request → 0 ≤ read.Count request →
  ∃ outs,
    streamFile os request
    = outs ++ [event.Mk PrimitiveEventIOReadCompleted (read.Source request) (read.Correlation request)
                 (IOReadCompletedResult (len c))] ∧
    outputs request (read.Offset request) outs
    = Some (take (Z.to_nat (read.Count request)) (drop (Z.to_nat (read.Offset request)) c)).
Proof.
  intros Hs Ho Hc. unfold streamFile, validateIOReadRequest.
  destruct (Z.ltb_spec (read.Offset request) 0); [lia|].
  destruct (Z.ltb_spec (read.Count request) 0); [lia|].
  rewrite (stable_canceled _ _ Hs), (stable_open _ _ Hs).
  unfold inspectAndStreamFile. rewrite (stable_before _ _ Hs). simpl.
  unfold streamOpenFile. fold (read_amount request (len c)).
  set (remaining := read_amount request (len c)).
  assert (0 ≤ remaining ∧ (remaining = 0 ∨ read.Offset request + remaining ≤ len c) ∧
    (remaining = read.Count request ∨
     remaining ≤ read.Count request ∧ len c ≤ read.Offset request + remaining)) as (Hr & Hr1 & Hr2).
  { unfold remaining, read_amount. destruct (Z.ltb_spec (read.Offset request) (len c)); lia. }
  destruct (readLoop_stable c os request (Z.to_nat (remaining / IOReadChunkSize) + 1)
              (read.Offset request) remaining 1) as (outs & -> & Hout); try done.
  { unfold IOReadChunkSize. Z.to_euclidean_division_equations. lia. }
  exists outs. split; [done|]. rewrite Hout. f_equal.
  destruct Hr2 as [->|[Hr2 Hr3]]; [done|]. clearbody remaining.
  rewrite !take_ge; [done| |]; rewrite length_drop; unfold len in *; lia.
Qed.

End Events.
