(* ===== verification/FileCreate.v ===== *)
(** * FileCreate: new files and directories that survive a crash

    The files file_create_unix.go, file_create_sync_unix.go,
    file_create_sync_darwin.go and file_eintr_unix.go of harness/primitives.

    The kernel is a state: the parent directory with its entries, what of it
    is on the disk, the descriptors that are open and the calls that were
    made.  Before each call the other processes change the directory; a call
    can be interrupted by signals and can fail.  [createNewPath] is a program
    over these calls. *)

From Stdlib Require Import Ascii ZArith Lia.
From S2P Require Import Prelude StateLogic GoStrings GoText Primitives.

Local Open Scope Z_scope.

(** ** The kernel *)

Inductive errno : Set := EINTR | EEXIST | ENOENT | ENOTSUP | Errno (text : string).

Definition errno_text (e : errno) : string :=
  match e with
  | EINTR => "interrupted system call"
  | EEXIST => "file exists"
  | ENOENT => "no such file or directory"
  | ENOTSUP => "operation not supported"
  | Errno text => text
  end.
Definition errno_error (e : errno) : error_tree := ErrorLeaf (errno_text e).

(** The file type bits of a mode. *)
Inductive file_type : Set := S_IFREG | S_IFDIR | S_IFOTHER.
#[export] Instance file_type_eq_dec : EqDecision file_type.
Proof. solve_decision. Defined.

Record entry : Set := Entry { entry_type : file_type; entry_mode : Z }.
Definition directory : Set := gmap string entry.

Inductive descriptor : Set := Parent | File.
#[export] Instance descriptor_eq_dec : EqDecision descriptor.
Proof. solve_decision. Defined.
#[export] Instance descriptor_countable : Countable descriptor.
Proof.
  refine (inj_countable' (λ d, match d with Parent => true | File => false end)
                         (λ b, if b : bool then Parent else File) _). by intros [].
Defined.

Inductive platform : Set := Unix | Darwin.

(** A failure other than the ones the directory accounts for. *)
Inductive fault : Set := Fault (text : string) | NotSupported.
Definition fault_errno (f : fault) : errno :=
  match f with Fault text => Errno text | NotSupported => ENOTSUP end.

(** What happens around the n-th call: the signals that interrupt it before it
    takes effect, the changes of others before it, and its failure; and
    whether the context is canceled when a round of the loop begins. *)
Record kernel_env : Type := KernelEnv {
  interruptions : nat → nat;
  others : nat → directory → directory;
  fails : nat → option fault;
  round_canceled : nat → bool;
  umask : Z;
}.

Module kern.
Record kernel : Type := Mk {
  calls : nat; dir : directory; on_disk : directory; open : gset descriptor;
  (* the syncs that succeeded: of the new file's own data and inode, and of the
     directory with its entries *)
  syncs : list descriptor }.
End kern.
Abbreviation kernel := kern.kernel.

Section Create.
Context (env : kernel_env) (target : platform).

(** One call: [act] is its effect and its error when it does not fail. *)
Definition call {A} (act : kernel → (errno + A) * kernel) : M kernel (errno + A) := λ k,
  let n := kern.calls k in
  let k := kern.Mk (S n) (others env n (kern.dir k)) (kern.on_disk k) (kern.open k) (kern.syncs k) in
  match fails env n with
  | Some f => (k, Ok (inl (fault_errno f)))
  | None => let '(r, k) := act k in (k, Ok r)
  end.

(** [operation] is told how often the call was interrupted before. *)
Fixpoint retry_loop {A} (rounds attempt : nat) (operation : nat → M kernel (errno + A)) : M kernel (errno + A) :=
  r ← operation attempt;
  match r, rounds with
  | inl EINTR, S rounds => retry_loop rounds (S attempt) operation
  | _, _ => mret r
  end.

(** One round more than there are interruptions. *)
Definition retryEINTR {A} (operation : nat → M kernel (errno + A)) : M kernel (errno + A) := λ k,
  retry_loop (interruptions env (kern.calls k)) 0 operation k.

Definition interruptible {A} (act : kernel → (errno + A) * kernel) (attempt : nat) : M kernel (errno + A) := λ k,
  if (attempt <? interruptions env (kern.calls k))%nat then (k, Ok (inl EINTR)) else call act k.

Definition set_open (f : gset descriptor → gset descriptor) (k : kernel) : kernel :=
  kern.Mk (kern.calls k) (kern.dir k) (kern.on_disk k) (f (kern.open k)) (kern.syncs k).
Definition set_dir (d : directory) (k : kernel) : kernel :=
  kern.Mk (kern.calls k) d (kern.on_disk k) (kern.open k) (kern.syncs k).

Definition path_error (op path : string) (e : errno) : error_tree :=
  ErrorWrap (op +:+ " " +:+ path +:+ ": ") (errno_error e).

(** [errors.Join]: nil when every error is. *)
Definition errors_join (errs : list (option error_tree)) : option error_tree :=
  match omap id errs with [] => None | causes => Some (ErrorJoin causes) end.

(** ** Calls *)

Definition openCreateDirectory (path : string) : M kernel (option error_tree) :=
  r ← call (λ k, (inr tt, set_open ({[Parent]} ∪.) k));
  mret (match r with inl e => Some (path_error "open" path e) | inr _ => None end).

Definition openNewFileAt (name : string) (mode : Z) : M kernel (errno + unit) :=
  retryEINTR (interruptible (λ k,
    match kern.dir k !! name with
    | Some _ => (inl EEXIST, k)
    | None => (inr tt, set_open ({[File]} ∪.)
                 (set_dir (<[name := Entry S_IFREG (Z.land mode (Z.lnot (umask env)))]> (kern.dir k)) k))
    end)).

Definition makeNewDirectoryAt (name : string) (mode : Z) : M kernel (errno + unit) :=
  retryEINTR (interruptible (λ k,
    match kern.dir k !! name with
    | Some _ => (inl EEXIST, k)
    | None => (inr tt, set_dir (<[name := Entry S_IFDIR (Z.land mode (Z.lnot (umask env)))]> (kern.dir k)) k)
    end)).

Definition Fstatat (name : string) : M kernel (errno + file_type) :=
  retryEINTR (interruptible (λ k,
    match kern.dir k !! name with
    | Some e => (inr (entry_type e), k)
    | None => (inl ENOENT, k)
    end)).

(** A descriptor is released also when its close fails. *)
Definition close_call (d : descriptor) : M kernel (errno + unit) :=
  _ ← modify (set_open (.∖ {[d]})); call (λ k, (inr tt, k)).

Definition closeFile (kind path name : string) (d : descriptor) : M kernel (option error_tree) :=
  r ← close_call d;
  mret (match r with
        | inl e => Some (ErrorWrap ("close " +:+ kind +:+ " " +:+ quote path +:+ ": ") (path_error "close" name e))
        | inr _ => None
        end).

Definition sync_effect (d : descriptor) (k : kernel) : (errno + unit) * kernel :=
  (inr tt, match d with
           | File => kern.Mk (kern.calls k) (kern.dir k) (kern.on_disk k) (kern.open k) (kern.syncs k ++ [File])
           | Parent => kern.Mk (kern.calls k) (kern.dir k) (kern.dir k) (kern.open k) (kern.syncs k ++ [Parent])
           end).

(** The method Sync of a file; on Darwin [fsync]. *)
Definition sync (d : descriptor) (name : string) : M kernel (option error_tree) :=
  r ← retryEINTR (interruptible (sync_effect d));
  mret (match r with
        | inl e => Some (match target with Unix => path_error "sync" name e | Darwin => errno_error e end)
        | inr _ => None
        end).

Definition fullSyncResult (r : errno + unit) : option error_tree :=
  match r with
  | inl ENOTSUP | inr _ => None
  | inl e => Some (ErrorWrap "flush storage device: " (errno_error e))
  end.

Definition syncCreatedDirectory (parentPath : string) : M kernel (option error_tree) :=
  err ← sync Parent parentPath;
  match err with
  | Some e => mret (Some (ErrorWrap "sync parent directory: " e))
  | None =>
    match target with
    | Unix => mret None
    | Darwin => r ← retryEINTR (interruptible (λ k, (inr tt, k))); mret (fullSyncResult r)
    end
  end.

Definition syncCreatedFile (name parentPath : string) : M kernel (option error_tree) :=
  err ← sync File name;
  match err with
  | Some e => mret (Some (ErrorWrap "sync file: " e))
  | None => syncCreatedDirectory parentPath
  end.

(** ** The program *)

Definition maxCreateContentionRetries : nat := 16.

Definition ModeSetuid : Z := Z.shiftl 1 23.
Definition ModeSetgid : Z := Z.shiftl 1 22.
Definition ModeSticky : Z := Z.shiftl 1 20.
Definition ModePerm : Z := 511.

(** [%v] of a mode: the letters of its flags and the permissions. *)
Fixpoint mode_flags (letters : bytes) (bit : Z) (mode : Z) : bytes :=
  match letters with
  | [] => []
  | c :: letters => (if Z.testbit mode bit then [c] else []) ++ mode_flags letters (bit - 1) mode
  end.
Fixpoint mode_permissions (letters : bytes) (bit : Z) (mode : Z) : bytes :=
  match letters with
  | [] => []
  | c :: letters => (if Z.testbit mode bit then c else "-"%char) :: mode_permissions letters (bit - 1) mode
  end.
Definition FileMode_String (mode : Z) : string :=
  let flags := mode_flags (to_bytes "dalTLDpSugct?") 31 mode in
  to_string ((match flags with [] => ["-"%char] | _ => flags end)
             ++ mode_permissions (to_bytes "rwxrwxrwx") 8 mode).

Definition S_ISUID : Z := 2048.
Definition S_ISGID : Z := 1024.
Definition S_ISVTX : Z := 512.

Definition unixFileMode (mode : Z) : error_tree + Z :=
  let supported := Z.lor (Z.lor ModePerm ModeSetuid) (Z.lor ModeSetgid ModeSticky) in
  let unsupported := Z.ldiff mode supported in
  if negb (unsupported =? 0) then inl (ErrorLeaf ("unsupported mode bits " +:+ FileMode_String unsupported))
  else
    let result := Z.land mode ModePerm in
    let result := if negb (Z.land mode ModeSetuid =? 0) then Z.lor result S_ISUID else result in
    let result := if negb (Z.land mode ModeSetgid =? 0) then Z.lor result S_ISGID else result in
    inr (if negb (Z.land mode ModeSticky =? 0) then Z.lor result S_ISVTX else result).

(** The path without the separators at its end; they stay when it has nothing
    else. *)
Fixpoint drop_separators (reversed : bytes) : bytes :=
  match reversed with
  | c :: rest => if Ascii.eqb c filepath.Separator then drop_separators rest else reversed
  | [] => []
  end.
Definition trimTrailingPathSeparators (path : string) : string :=
  match drop_separators (reverse (to_bytes path)) with
  | [] => path
  | rest => to_string (reverse rest)
  end.

(** [filepath.Split]: up to and with the last separator, and the rest. *)
Fixpoint split_last (reversed file : bytes) : bytes * bytes :=
  match reversed with
  | [] => ([], file)
  | c :: rest => if Ascii.eqb c filepath.Separator then (reverse reversed, file) else split_last rest (c :: file)
  end.
Definition Split (path : string) : string * string :=
  let '(dir, file) := split_last (reverse (to_bytes path)) [] in (to_string dir, to_string file).

Section Request.
Context (request : IOCreateRequest).

Definition created : Type := error_tree + IOCreateKind.
Definition quoted (text : string) : string := text +:+ " " +:+ quote (create.Path request).

Definition close_parent (parentPath : string) : M kernel (option error_tree) :=
  closeFile "parent directory" parentPath parentPath Parent.

(** [return errors.Join(err, closeFile(parent))] *)
Definition fail_closed (parentPath : string) (err : error_tree) : M kernel created :=
  c ← close_parent parentPath;
  mret (inl (default err (errors_join [Some err; c]))).

Definition persistCreatedFile (name parentPath : string) : M kernel created :=
  err ← syncCreatedFile name parentPath;
  match err with
  | Some e =>
    f ← closeFile "file" (create.Path request) name File;
    c ← close_parent parentPath;
    let e := ErrorWrap (quoted "persist" +:+ ": ") e in
    mret (inl (default e (errors_join [Some e; f; c])))
  | None => _ ← close_call File; _ ← close_call Parent; mret (inr (create.Kind request))
  end.

Definition persistCreatedEntry (parentPath : string) : M kernel created :=
  err ← syncCreatedDirectory parentPath;
  match err with
  | Some e => fail_closed parentPath (ErrorWrap (quoted "persist" +:+ ": ") e)
  | None => _ ← close_call Parent; mret (inr (create.Kind request))
  end.

Definition validateExistingPath (type : file_type) : option error_tree :=
  match create.Kind request with
  | IOCreateRegularFile =>
    if bool_decide (type = S_IFREG) then None else Some (ErrorLeaf "existing path is not a regular file")
  | IOCreateDirectory =>
    if bool_decide (type = S_IFDIR) then None else Some (ErrorLeaf "existing path is not a directory")
  end.

(** None: the path was gone when it was inspected, and the loop goes on. *)
Definition useExistingPath (name parentPath : string) : M kernel (option created) :=
  r ← Fstatat name;
  match r with
  | inl ENOENT => mret None
  | inl e => r ← fail_closed parentPath (ErrorWrap (quoted "inspect existing" +:+ ": ") (errno_error e)); mret (Some r)
  | inr type =>
    match validateExistingPath type with
    | Some e => r ← fail_closed parentPath (ErrorWrap (quoted "use existing" +:+ ": ") e); mret (Some r)
    | None => r ← persistCreatedEntry parentPath; mret (Some r)
    end
  end.

Definition make_entry (name : string) (mode : Z) : M kernel (errno + unit) :=
  match create.Kind request with
  | IOCreateRegularFile => openNewFileAt name mode
  | IOCreateDirectory => makeNewDirectoryAt name mode
  end.
Definition persist_entry (name parentPath : string) : M kernel created :=
  match create.Kind request with
  | IOCreateRegularFile => persistCreatedFile name parentPath
  | IOCreateDirectory => persistCreatedEntry parentPath
  end.

(** [retries] is the number of retries that are left. *)
Fixpoint createOrUsePath (retries : nat) (name parentPath : string) (mode : Z) : M kernel created :=
  if round_canceled env (maxCreateContentionRetries - retries) then fail_closed parentPath ErrorContext
  else
    r ← make_entry name mode;
    match r with
    | inr _ => persist_entry name parentPath
    | inl EEXIST =>
      r ← useExistingPath name parentPath;
      match r with
      | Some result => mret result
      | None =>
        match retries with
        | O => fail_closed parentPath (ErrorLeaf (quoted "create" +:+ ": path remained unstable after "
                 +:+ Itoa (Z.of_nat maxCreateContentionRetries) +:+ " retries"))
        | S retries => createOrUsePath retries name parentPath mode
        end
      end
    | inl e => fail_closed parentPath (ErrorWrap (quoted "create" +:+ ": ") (errno_error e))
    end.

(** The directory that holds the path, and the name in it. *)
Definition parent_and_name : string * string :=
  let path := match create.Kind request with
              | IOCreateDirectory => trimTrailingPathSeparators (create.Path request)
              | IOCreateRegularFile => create.Path request
              end in
  let '(parentPath, name) := Split path in
  (if bool_decide (parentPath = EmptyString) then "."%string else parentPath, name).

Definition createNewPath : M kernel created :=
  match unixFileMode (create.Mode request) with
  | inl e => mret (inl (ErrorWrap (quoted "create" +:+ ": ") e))
  | inr mode =>
    let '(parentPath, name) := parent_and_name in
    err ← openCreateDirectory parentPath;
    match err with
    | Some e => mret (inl (ErrorWrap ("open parent directory " +:+ quote parentPath +:+ ": ") e))
    | None => createOrUsePath maxCreateContentionRetries name parentPath mode
    end
  end.
End Request.

(** ** Calls and their rules *)

(** The kernel when the n-th call takes effect. *)
Definition entered (k : kernel) : kernel :=
  kern.Mk (S (kern.calls k)) (others env (kern.calls k) (kern.dir k)) (kern.on_disk k) (kern.open k) (kern.syncs k).

Definition genuine (e : errno) : Prop := ∃ f, e = fault_errno f.

Lemma wp_call {A} (act : kernel → (errno + A) * kernel) (Q : errno + A → kernel → Prop) E k :
  (∀ e, genuine e → Q (inl e) (entered k)) → Q (act (entered k)).1 (act (entered k)).2 → wp (call act) Q E k.
Proof.
  intros Hf Ha. unfold wp, call. fold (entered k). destruct (fails env (kern.calls k)) as [f|].
  - apply Hf. by exists f.
  - destruct (act (entered k)) as [r k']. exact Ha.
Qed.

(** Signals do not show. *)
Lemma retryEINTR_interruptible {A} (act : kernel → (errno + A) * kernel) k :
  retryEINTR (interruptible act) k = call act k.
Proof.
  unfold retryEINTR. set (m := interruptions env (kern.calls k)).
  assert (∀ rounds attempt, (attempt + rounds = m)%nat → retry_loop rounds attempt (interruptible act) k = call act k)
    as H; [|by apply (H m 0%nat)].
  induction rounds as [|rounds IH]; intros attempt Hm; simpl; unfold mbind, M_bind.
  - unfold interruptible at 1. fold m. rewrite (proj2 (Nat.ltb_ge attempt m)) by lia.
    destruct (call act k) as [k' [r|e|t]] eqn:E; [|done..]. by destruct r as [[]|].
  - unfold interruptible at 1. fold m. rewrite (proj2 (Nat.ltb_lt attempt m)) by lia. apply IH. lia.
Qed.

Lemma wp_retry {A} (act : kernel → (errno + A) * kernel) (Q : errno + A → kernel → Prop) E k :
  (∀ e, genuine e → Q (inl e) (entered k)) → Q (act (entered k)).1 (act (entered k)).2 →
  wp (retryEINTR (interruptible act)) Q E k.
Proof. intros Hf Ha. unfold wp. rewrite retryEINTR_interruptible. by apply wp_call. Qed.

Lemma wp_close d (Q : errno + unit → kernel → Prop) E k :
  (∀ r, Q r (entered (set_open (.∖ {[d]}) k))) → wp (close_call d) Q E k.
Proof. intros H. unfold close_call. wp_step. wp_step. apply wp_call; [|apply H]. intros e _. apply H. Qed.

Lemma wp_closeFile kind path name d (Q : option error_tree → kernel → Prop) E k :
  (∀ c, Q c (entered (set_open (.∖ {[d]}) k))) → wp (closeFile kind path name d) Q E k.
Proof. intros H. unfold closeFile. wp_step. apply wp_close. intros r. wp_step. destruct r; apply H. Qed.

(** ** What the program guarantees

    The other processes may add entries, but neither remove nor change any. *)

Section Stable.
Hypothesis stable : ∀ n d, d ⊆ others env n d.

(** What every part of the program keeps. *)
Record keeps (k k' : kernel) : Prop := Keeps {
  keeps_dir : kern.dir k ⊆ kern.dir k';
  keeps_syncs : kern.syncs k `prefix_of` kern.syncs k' }.

#[local] Instance keeps_preorder : PreOrder keeps.
Proof. split; [by split|]. intros x y z [] []. split; by etrans. Qed.

Lemma keeps_entered k : keeps k (entered k).
Proof. split; [apply stable|done]. Qed.

Lemma keeps_sync d k : keeps k (sync_effect d (entered k)).2.
Proof. destruct d; split; try apply stable; by apply prefix_app_r. Qed.

Lemma keeps_released f k : keeps k (entered (set_open f k)).
Proof. split; [apply stable|done]. Qed.

Lemma keeps_entry k k' name e : keeps k k' → kern.dir k !! name = Some e → kern.dir k' !! name = Some e.
Proof. intros [H _] He. by eapply lookup_weaken. Qed.

(** [name] is on the disk as it was in the directory. *)
Definition on_disk_as (k k' : kernel) : Prop :=
  ∀ name e, kern.dir k !! name = Some e → kern.on_disk k' !! name = Some e.

Lemma wp_sync d name (Q : option error_tree → kernel → Prop) E k :
  (∀ e, Q (Some e) (entered k)) → Q None (sync_effect d (entered k)).2 → wp (sync d name) Q E k.
Proof.
  intros He Hn. unfold sync. wp_step. apply wp_retry; [intros e _|]; wp_step; [apply He|exact Hn].
Qed.

Lemma syncCreatedDirectory_spec parentPath E k :
  wp (syncCreatedDirectory parentPath)
    (λ err k', kern.open k' = kern.open k ∧ keeps k k' ∧
       (err = None → on_disk_as k k' ∧ kern.syncs k' = kern.syncs k ++ [Parent])) E k.
Proof.
  unfold syncCreatedDirectory. wp_step.
  assert (Hd : on_disk_as k (sync_effect Parent (entered k)).2).
  { intros name e He. exact (keeps_entry _ _ _ _ (keeps_entered k) He). }
  apply wp_sync; [intros e; wp_step; split; [done|]; split; [apply keeps_entered|done]|].
  pose proof (keeps_sync Parent k) as Hk.
  destruct target; wp_step; [by split_and!|].
  apply wp_retry; [intros e _|]; wp_step;
    (split; [done|]; split; [etrans; [exact Hk|apply keeps_entered]|]; intros _; split; [exact Hd|done]).
Qed.

Lemma syncCreatedFile_spec name parentPath E k :
  wp (syncCreatedFile name parentPath)
    (λ err k', kern.open k' = kern.open k ∧ keeps k k' ∧
       (err = None → on_disk_as k k' ∧ kern.syncs k' = kern.syncs k ++ [File; Parent])) E k.
Proof.
  unfold syncCreatedFile. wp_step.
  apply wp_sync; [intros e; wp_step; split; [done|]; split; [apply keeps_entered|done]|].
  pose proof (keeps_sync File k) as Hk.
  eapply wp_mono; [apply syncCreatedDirectory_spec| |done].
  intros err k' (Ho & H & Hd). split; [done|]. split; [by etrans|]. intros [Hd1 Hd2]%Hd. split.
  - intros n e He. apply Hd1. by eapply keeps_entry.
  - rewrite Hd2. cbn. by rewrite <- (assoc_L app).
Qed.

Section Spec.
Context (request : IOCreateRequest) (name : string).

Definition entry_type_of (kind : IOCreateKind) : file_type :=
  match kind with IOCreateRegularFile => S_IFREG | IOCreateDirectory => S_IFDIR end.

(** Nobody else touches [name], which is absent. *)
Definition alone (k : kernel) : Prop :=
  (∀ n d, others env n d !! name = d !! name) ∧ kern.dir k !! name = None.

Lemma fail_closed_spec parentPath err E k :
  kern.open k ⊆ {[Parent]} →
  wp (fail_closed parentPath err)
    (λ r k', kern.open k' = ∅ ∧ keeps k k' ∧ ∀ kind, r ≠ inr kind) E k.
Proof.
  intros Ho. unfold fail_closed, close_parent. wp_step. apply wp_closeFile. intros c. wp_step.
  split; [cbn; set_solver|]. split; [apply keeps_released|done].
Qed.

Lemma persistCreatedEntry_spec parentPath E k :
  kern.open k ⊆ {[Parent]} →
  wp (persistCreatedEntry request parentPath)
    (λ r k', kern.open k' = ∅ ∧ keeps k k' ∧
       ∀ kind, r = inr kind → kind = create.Kind request ∧ on_disk_as k k' ∧
         kern.syncs k' = kern.syncs k ++ [Parent]) E k.
Proof.
  intros Ho. unfold persistCreatedEntry. wp_step.
  eapply wp_mono; [apply syncCreatedDirectory_spec| |done]. intros [e|] k1 (Ho1 & H1 & Hd).
  - eapply wp_mono; [apply fail_closed_spec; by rewrite Ho1| |done].
    intros r k2 (Ho2 & H2 & Hr). split; [done|]. split; [by etrans|]. intros kind ->. by destruct (Hr kind).
  - wp_step. apply wp_close. intros c. wp_step.
    split; [cbn; set_solver|]. split; [etrans; [exact H1|apply keeps_released]|].
    intros kind [= <-]. split; [done|]. destruct (Hd eq_refl). by split.
Qed.

Lemma persistCreatedFile_spec parentPath E k :
  wp (persistCreatedFile request name parentPath)
    (λ r k', kern.open k' = ∅ ∧ keeps k k' ∧
       ∀ kind, r = inr kind → kind = create.Kind request ∧ on_disk_as k k' ∧
         kern.syncs k' = kern.syncs k ++ [File; Parent]) E k.
Proof.
  unfold persistCreatedFile. wp_step.
  eapply wp_mono; [apply syncCreatedFile_spec| |done]. intros [e|] k1 (Ho1 & H1 & Hd).
  - wp_step. apply wp_closeFile. intros f. wp_step. apply wp_closeFile. intros c. wp_step.
    split; [cbn; apply set_eq; intros []; set_solver|].
    split; [etrans; [exact H1|]; etrans; [apply keeps_released|apply keeps_released]|done].
  - destruct (Hd eq_refl) as [Hd1 Hd2].
    wp_step. apply wp_close. intros f. wp_step. apply wp_close. intros c. wp_step.
    split; [cbn; apply set_eq; intros []; set_solver|].
    split; [etrans; [exact H1|]; etrans; [apply keeps_released|apply keeps_released]|].
    intros kind [= <-]. by split.
Qed.

(** The entry that the program adds. *)
Definition new_entry (mode : Z) : entry :=
  Entry (entry_type_of (create.Kind request)) (Z.land mode (Z.lnot (umask env))).

Lemma make_entry_spec mode E k :
  kern.open k ⊆ {[Parent]} →
  wp (make_entry request name mode)
    (λ r k', keeps k k' ∧ kern.syncs k' = kern.syncs k ∧
       match r with
       | inr _ => kern.dir k' !! name = Some (new_entry mode) ∧
                  (create.Kind request = IOCreateDirectory → kern.open k' ⊆ {[Parent]})
       | inl e => kern.open k' ⊆ {[Parent]} ∧ (e = EEXIST → ¬ alone k)
       end) E k.
Proof.
  intros Ho. unfold make_entry, new_entry, openNewFileAt, makeNewDirectoryAt.
  destruct (create.Kind request); apply wp_retry;
    try (intros e [f ->]; split; [apply keeps_entered|]; split; [done|]; split; [done|]; by destruct f);
    destruct (kern.dir (entered k) !! name) as [e|] eqn:He; cbn [fst snd].
  1,3: split; [apply keeps_entered|]; split; [done|]; split; [done|]; intros _ [Ha Hn]; cbn in He; by rewrite Ha, Hn in He.
  all: (split; [split; [etrans; [apply stable|by apply insert_subseteq]|done]|]).
  all: (split; [done|]; split; [apply lookup_insert_eq|done]).
Qed.

Lemma useExistingPath_spec parentPath E k :
  kern.open k ⊆ {[Parent]} →
  wp (useExistingPath request name parentPath)
    (λ r k', keeps k k' ∧
       match r with
       | None => kern.open k' ⊆ {[Parent]} ∧ kern.syncs k' = kern.syncs k
       | Some r => kern.open k' = ∅ ∧
           ∀ kind, r = inr kind → kind = create.Kind request ∧
             ∃ e, kern.on_disk k' !! name = Some e ∧ entry_type e = entry_type_of kind
       end) E k.
Proof.
  intros Ho. unfold useExistingPath, Fstatat. wp_step.
  assert (Hfail : ∀ k1 err (E : kernel → Prop), kern.open k1 ⊆ {[Parent]} → keeps k k1 →
    wp (r ← fail_closed parentPath err; mret (Some r))
      (λ r k', keeps k k' ∧
       match r with
       | None => kern.open k' ⊆ {[Parent]} ∧ kern.syncs k' = kern.syncs k
       | Some r => kern.open k' = ∅ ∧
           ∀ kind, r = inr kind → kind = create.Kind request ∧
             ∃ e, kern.on_disk k' !! name = Some e ∧ entry_type e = entry_type_of kind
       end) E k1).
  { intros k1 err E1 Ho1 H1. wp_step. eapply wp_mono; [by apply fail_closed_spec| |done].
    intros r k2 (Ho2 & H2 & Hr). wp_step. split; [by etrans|]. split; [done|]. intros kind ->. by destruct (Hr kind). }
  apply wp_retry.
  { intros e [f ->]. destruct f; (apply Hfail; [done|apply keeps_entered]). }
  destruct (kern.dir (entered k) !! name) as [e|] eqn:He; cbn [fst snd].
  - unfold validateExistingPath.
    destruct (create.Kind request) eqn:Hkind; case_bool_decide as Ht;
      try (apply Hfail; [done|apply keeps_entered]); wp_step;
      (eapply wp_mono; [by apply persistCreatedEntry_spec| |done]);
      intros r k2 (Ho2 & H2 & Hr); wp_step; (split; [etrans; [apply keeps_entered|done]|]); (split; [done|]);
      intros kind ->; destruct (Hr kind eq_refl) as (-> & Hd & _); (split; [done|]);
      exists e; (split; [by apply Hd|]); by rewrite Hkind.
  - wp_step. split; [apply keeps_entered|by split].
Qed.

(** What is synced of a new path: a file before the directory that holds it. *)
Definition new_syncs (kind : IOCreateKind) : list descriptor :=
  match kind with IOCreateRegularFile => [File; Parent] | IOCreateDirectory => [Parent] end.

(** What a call that begins at [k] with the parent open has done at its end. *)
Record outcome (mode : Z) (k : kernel) (r : created) (k' : kernel) : Prop := Outcome {
  outcome_closed : kern.open k' = ∅;
  outcome_keeps : keeps k k';
  outcome_kind : ∀ kind, r = inr kind → kind = create.Kind request ∧
    ∃ e, kern.on_disk k' !! name = Some e ∧ entry_type e = entry_type_of kind;
  outcome_alone : ∀ kind, r = inr kind → alone k →
    kern.on_disk k' !! name = Some (new_entry mode) ∧
    kern.syncs k' = kern.syncs k ++ new_syncs kind }.

Lemma outcome_failed mode k k1 r k' :
  keeps k k1 → kern.open k' = ∅ ∧ keeps k1 k' ∧ (∀ kind, r ≠ inr kind) → outcome mode k r k'.
Proof.
  intros H1 (Ho & H2 & Hr). split; [done|by etrans|..].
  all: intros kind ->; by destruct (Hr kind).
Qed.

Lemma persist_entry_spec parentPath mode E k k1 :
  keeps k k1 → kern.syncs k1 = kern.syncs k → kern.dir k1 !! name = Some (new_entry mode) →
  (create.Kind request = IOCreateDirectory → kern.open k1 ⊆ {[Parent]}) →
  wp (persist_entry request name parentPath) (outcome mode k) E k1.
Proof.
  intros H1 Hsync He Ho. unfold persist_entry, new_syncs. destruct (create.Kind request) eqn:Hkind.
  - eapply wp_mono; [apply persistCreatedFile_spec| |done]. intros r k2 (Ho2 & H2 & Hr).
    split; [done|by etrans|..]; intros kind Hk; destruct (Hr kind Hk) as (-> & Hd & Hs).
    + split; [done|]. eexists. split; [by apply Hd|done].
    + intros _. split; [by apply Hd|]. by rewrite Hs, Hsync, Hkind.
  - eapply wp_mono; [apply persistCreatedEntry_spec; by apply Ho| |done]. intros r k2 (Ho2 & H2 & Hr).
    split; [done|by etrans|..]; intros kind Hk; destruct (Hr kind Hk) as (-> & Hd & Hs).
    + split; [done|]. eexists. split; [by apply Hd|done].
    + intros _. split; [by apply Hd|]. by rewrite Hs, Hsync, Hkind.
Qed.

Lemma createOrUsePath_spec parentPath mode retries E k k1 :
  keeps k k1 → kern.syncs k1 = kern.syncs k → kern.open k1 ⊆ {[Parent]} → (alone k → alone k1) →
  wp (createOrUsePath request retries name parentPath mode) (outcome mode k) E k1.
Proof.
  revert k1. induction retries as [|retries IH]; intros k1 H1 Hs1 Ho1 Ha1; simpl;
    (destruct (round_canceled env _);
      [eapply wp_mono; [by apply fail_closed_spec| |done]; intros r k2 Hr; by eapply outcome_failed|]);
    wp_step; (eapply wp_mono; [by apply make_entry_spec| |done]);
    (intros [e|[]] k2 (H2 & Hs2 & Hr);
      [|destruct Hr as [He Ho2]; apply persist_entry_spec; [by etrans|congruence|done|done]]);
    destruct Hr as [Ho2 Hex];
    (assert (H12 : keeps k k2) by by etrans);
    (destruct e;
      try (eapply wp_mono; [by apply fail_closed_spec| |done]; intros r k3 Hr; by eapply outcome_failed));
    wp_step; (eapply wp_mono; [by apply useExistingPath_spec| |done]);
    (intros [r|] k3 [H3 Hr];
      [destruct Hr as [Ho3 Hr]; wp_step; split; [done|by transitivity k2|done|];
       intros kind _ Hal; by destruct (Hex eq_refl (Ha1 Hal))|destruct Hr as [Ho3 Hs3]]).
  - eapply wp_mono; [by apply fail_closed_spec| |done]. intros r k4 H4. eapply outcome_failed; [|exact H4]. by transitivity k2.
  - apply IH; [by transitivity k2|congruence|done|]. intros Hal. by destruct (Hex eq_refl (Ha1 Hal)).
Qed.
End Spec.

(** C19: a call of [createNewPath] always returns, and whatever fails and
    whoever else adds entries in between, it leaves no descriptor open and no
    entry changed or removed; a mode that is not supported is refused before
    anything is done.  When it succeeds, the path is on the disk with
    the kind that was asked for, also after a crash; and if nobody else made
    it, it has the requested mode less the umask, and what the call synced is,
    in this order, the new file's own data and inode, and the directory that
    holds it; for a new directory the one that holds it only. *)
Theorem created_path_durable request k :
  kern.open k = ∅ →
  let name := (parent_and_name request).2 in
  ∃ k' r, createNewPath request k = (k', Ok r) ∧
    match unixFileMode (create.Mode request) with
    | inl e => k' = k ∧ r = inl (ErrorWrap (quoted request "create" +:+ ": ") e)
    | inr mode => outcome request name mode k r k'
    end.
Proof.
  intros Ho name. unfold createNewPath. destruct (unixFileMode (create.Mode request)) as [e|mode] eqn:Hmode.
  { by eexists _, _. }
  assert (H : wp (createNewPath request) (λ r k', outcome request name mode k r k') (λ _, False) k).
  { unfold createNewPath. rewrite Hmode. subst name. destruct (parent_and_name request) as [parentPath name] eqn:Hn.
    cbn [snd]. wp_step. unfold openCreateDirectory. wp_step. apply wp_call.
    - intros e _. wp_step. wp_step. eapply outcome_failed; [apply keeps_entered|].
      split; [cbn; by rewrite Ho|]. split; [done|]. intros kind [=].
    - wp_step. apply createOrUsePath_spec.
      + split; [apply stable|done].
      + done.
      + cbn. rewrite Ho. set_solver.
      + intros [Ha Hk]. split; [done|]. cbn. by rewrite Ha. }
  unfold wp, createNewPath in H. rewrite Hmode in H.
  destruct (let '(parentPath, name) := parent_and_name request in _) as [k' [r| |]]; [|done..]. by exists k', r.
Qed.
End Stable.
End Create.

(** *** Samples *)

(** The other process makes a directory before the third call; every call is
    interrupted twice. *)
Definition busy_env : kernel_env :=
  KernelEnv (λ _, 2%nat) (λ n d, if (n =? 2)%nat then match d !! "theirs"%string with
        None => <["theirs"%string := Entry S_IFDIR 493]> d | Some _ => d end else d)
    (λ _, None) (λ _, false) 18.

Definition new_file : IOCreateRequest := create.Mk "op" "c1" IOCreateRegularFile "/work/out.txt" 436.

Lemma busy_env_stable n (d : directory) : d ⊆ others busy_env n d.
Proof.
  cbn. destruct (n =? 2)%nat; [|done]. destruct (d !! "theirs"%string) eqn:E; cbn; [done|].
  by apply insert_subseteq.
Qed.

Lemma created_path_durable_witness :
  let k := kern.Mk 0 ∅ ∅ ∅ [] in
  ∃ k', createNewPath busy_env Unix new_file k = (k', Ok (inr IOCreateRegularFile)) ∧
        kern.open k' = ∅ ∧ kern.on_disk k' !! "out.txt"%string = Some (Entry S_IFREG 420) ∧
        kern.syncs k' = [File; Parent].
Proof.
  intros k.
  destruct (created_path_durable busy_env Unix busy_env_stable new_file k eq_refl)
    as (k' & r & H & Hout).
  assert (Hr : r = inr IOCreateRegularFile) by (vm_compute in H; by injection H as _ <-).
  assert (Hm : unixFileMode (create.Mode new_file) = inr 436) by (vm_compute; reflexivity).
  rewrite Hm in Hout.
  exists k'. subst r. split; [exact H|]. split; [exact (outcome_closed _ _ _ _ _ _ _ Hout)|].
  apply (outcome_alone _ _ _ _ _ _ _ Hout IOCreateRegularFile eq_refl). split; [|vm_compute; reflexivity].
  intros n d. change (parent_and_name new_file).2 with "out.txt"%string.
  unfold busy_env, others. destruct (n =? 2)%nat; [|done]. destruct (d !! "theirs"%string); [done|].
  by apply (lookup_insert_ne (M := gmap string)).
Defined.

(** A path that vanishes whenever it is looked at: the loop gives up. *)
Example unstable_path :
  let flicker := KernelEnv (λ _, 0%nat)
    (λ n d, if Nat.odd n then <["out.txt"%string := Entry S_IFREG 0]> d else delete "out.txt"%string d)
    (λ _, None) (λ _, false) 0 in
  ∃ k, createNewPath flicker Darwin new_file (kern.Mk 0 ∅ ∅ ∅ []) =
    (k, Ok (inl (ErrorJoin [ErrorLeaf (quoted new_file "create" +:+ ": path remained unstable after 16 retries")]))) ∧
    kern.calls k = 36%nat.
Proof. eexists. vm_compute. split; reflexivity. Qed.

Example sticky_modes :
  unixFileMode (Z.lor 509 (Z.lor ModeSetgid ModeSticky)) = inr 2045%Z.
Proof. vm_compute. reflexivity. Qed.

Example bad_mode : unixFileMode (Z.lor 420 (Z.shiftl 1 31)) = inl (ErrorLeaf "unsupported mode bits d---------").
Proof. vm_compute. reflexivity. Qed.

Example trimmed : trimTrailingPathSeparators "/a/b//" = "/a/b"%string ∧ trimTrailingPathSeparators "//" = "//"%string.
Proof. vm_compute. split; reflexivity. Qed.
