(* ===== verification/Process.v ===== *)
(** * Process: running a program

    The files process.go, process_signal_unix.go and process_signal_darwin.go
    of harness/primitives.

    [runProcess] is the goroutine of an invocation, as a program over the
    calls it makes: a monad over the descriptors that are open, the signals
    that were sent and the events.  What the operating system answers is an
    environment.  The two goroutines that read the output pipes send their
    events between the start event and [workers.Wait]: each is a list of
    events, and a schedule merges the two.  The goroutine that waits for the
    child is the outcome [wait] of the environment; the select between it and
    the end of the context is [await].

    A call that never returns ends the program as [Blocked], with what was done
    until then: the select when neither happens, the receive of the result of
    Wait, and [workers.Wait] when the reads of an output never end.  Events are
    received whenever they are sent. *)

From Stdlib Require Import Ascii ZArith Lia.
From S2P Require Import Prelude StateLogic GoStrings GoText Primitives.

Local Open Scope Z_scope.

(** ** Requests and events *)

Definition PrimitiveEventProcessInputWritten : PrimitiveEventType := "process.input_written".
Definition PrimitiveEventProcessInputWriteFailed : PrimitiveEventType := "process.input_write_failed".
Definition PrimitiveEventProcessInputClosed : PrimitiveEventType := "process.input_closed".
Definition PrimitiveEventProcessSignaled : PrimitiveEventType := "process.signaled".

Definition ProcessOutputChunkSize : Z := 32 * 1024.
Definition Millisecond : Z := 1000000.
Definition processTerminationGracePeriod : Z := 5 * 1000 * Millisecond.

(** A set of the three bits. *)
Definition ProcessPipeSet : Set := Z.
Definition ProcessPipeStdin : ProcessPipeSet := 1.
Definition ProcessPipeStdout : ProcessPipeSet := 2.
Definition ProcessPipeStderr : ProcessPipeSet := 4.
Definition ProcessPipeAll : ProcessPipeSet := 7.

Inductive ProcessStream : Set := ProcessStdout | ProcessStderr.
#[export] Instance ProcessStream_eq_dec : EqDecision ProcessStream.
Proof. solve_decision. Defined.
Definition stream_number (s : ProcessStream) : Z := match s with ProcessStdout => 1 | ProcessStderr => 2 end.

(** The request with the pipes that its callers in the repository leave out;
    the environment of the child is passed on. *)
Module start.
Record StartRequest : Set := Mk { request : ProcessStartRequest; Environment : list string; Pipes : ProcessPipeSet }.
End start.
Abbreviation StartRequest := start.StartRequest.

Definition Path (r : StartRequest) : string := process.Path (start.request r).
Definition Source (r : StartRequest) : SourceID := process.Source (start.request r).
Definition Correlation (r : StartRequest) : CorrelationID := process.Correlation (start.request r).
Definition capture_path (r : StartRequest) (s : ProcessStream) : string :=
  match s with
  | ProcessStdout => process.StdoutPath (start.request r)
  | ProcessStderr => process.StderrPath (start.request r)
  end.
Definition has_pipe (r : StartRequest) (pipe : ProcessPipeSet) : bool := negb (Z.land (start.Pipes r) pipe =? 0).
Definition pipe_of (s : ProcessStream) : ProcessPipeSet :=
  match s with ProcessStdout => ProcessPipeStdout | ProcessStderr => ProcessPipeStderr end.

Definition processStreamName (s : ProcessStream) : string :=
  match s with ProcessStderr => "stderr" | ProcessStdout => "stdout" end.

(** [%#x] of a byte. *)
Definition hex_byte (z : Z) : string :=
  "0x" +:+ (if z <? 16 then String (hex_digit z) EmptyString
            else String (hex_digit (z / 16)) (String (hex_digit (z mod 16)) EmptyString)).

Definition validate_output (r : StartRequest) (s : ProcessStream) : result unit :=
  let path := capture_path r s in
  if bool_decide (path = EmptyString) then Ok tt
  else
    _ ← guard_err (negb (filepath.IsAbs path))
          (errors_New ("start process: " +:+ processStreamName s +:+ " capture path must be absolute"));
    guard_err (has_pipe r (pipe_of s))
      (errors_New ("start process: " +:+ processStreamName s +:+ " cannot use both a pipe and a capture path")).

Definition validateProcessStartRequest (r : StartRequest) : result unit :=
  let out := capture_path r ProcessStdout in
  let err := capture_path r ProcessStderr in
  _ ← guard_err (bool_decide (Path r = EmptyString)) (errors_New "start process: path must be set");
  _ ← guard_err (negb (filepath.IsAbs (Path r))) (errors_New "start process: path must be absolute");
  _ ← guard_err (negb (Z.ldiff (start.Pipes r) ProcessPipeAll =? 0))
        (errors_New ("start process: unsupported pipe selection " +:+ hex_byte (start.Pipes r)));
  _ ← validate_output r ProcessStdout;
  _ ← validate_output r ProcessStderr;
  guard_err (negb (bool_decide (out = EmptyString)) && negb (bool_decide (err = EmptyString))
             && bool_decide (filepath.Clean out = filepath.Clean err))
    (errors_New "start process: stdout and stderr capture paths must differ").

(** ** Descriptors

    The pointers of [processPipes]: a value of the struct is the set of its
    fields that are not nil.  Every field is set at most once. *)

Inductive file : Set :=
  | stdinRead | stdinWrite | stdoutRead | stdoutWrite | stdoutCapture | stderrRead | stderrWrite | stderrCapture.
#[export] Instance file_eq_dec : EqDecision file.
Proof. solve_decision. Defined.

Definition all_files : list file :=
  [stdinRead; stdinWrite; stdoutRead; stdoutWrite; stdoutCapture; stderrRead; stderrWrite; stderrCapture].
Definition processPipes : Type := file → bool.
Definition no_pipes : processPipes := λ _, false.
Definition with_files (fs : list file) (p : processPipes) : processPipes := λ f, bool_decide (f ∈ fs) || p f.
Definition only (fs : list file) (p : processPipes) : processPipes := λ f, bool_decide (f ∈ fs) && p f.

(** [processPipes.parent]: the fields of [processParentPipes]. *)
Definition parent : processPipes → processPipes :=
  only [stdinWrite; stdoutRead; stderrRead; stdoutCapture; stderrCapture].

Definition read_end (s : ProcessStream) : file :=
  match s with ProcessStdout => stdoutRead | ProcessStderr => stderrRead end.
Definition write_end (s : ProcessStream) : file :=
  match s with ProcessStdout => stdoutWrite | ProcessStderr => stderrWrite end.
Definition capture (s : ProcessStream) : file :=
  match s with ProcessStdout => stdoutCapture | ProcessStderr => stderrCapture end.

(** ** What is done to the child *)

Inductive signal : Set := SIGTERM | SIGKILL.

Inductive action : Type :=
  | KilledGroup (pid : Z) (s : signal)
  | SignaledLeader (s : signal)
  | GroupGone            (* the group was found empty and the child waited for *)
  | Waited.              (* the result of Wait was received *)

(** ** The environment *)

(** The error of a read of an output pipe; the last one may never return. *)
Inductive read_end_error : Type :=
  | ReadEOF | ReadTimeout | ReadClosed (text : string) | ReadFailed (text : string) | ReadBlocks.
(** The end of the non-blocking reads: nothing is buffered, the writers are
    gone, a failure, or none, because there is always more. *)
Inductive drain_end : Type := DrainEmpty | DrainEOF | DrainFailed (text : string) | DrainEndless.

(** What an output goroutine meets: the reads that give bytes only, the one
    that gives an error too, and, when that is a time-out, the non-blocking
    reads (None is an interruption). *)
Record output_env : Type := OutputEnv {
  chunks : list bytes; last_chunk : bytes; last_error : read_end_error;
  set_nonblock : option string; drained : list (option bytes); drain_last : drain_end;
  output_canceled : option nat; output_prefers_send : nat → bool }.

(** The exit code and the signal, when the process state is there, and the
    error of Wait, with whether it is an exit error. *)
Record wait_outcome : Type := WaitOutcome { state : option (Z * option Z); wait_err : option (bool * error) }.

(** How the program ends, if it does. *)
Inductive ending : Set := Finished | Blocked.

(** The select of [awaitProcessCompletion]. *)
Inductive await_choice : Type :=
  | WaitFirst                   (* Wait returned *)
  | DoneFirst (completed : bool)  (* the context ended; whether the wait was completed by then *)
  | NeverFirst.                  (* neither happens *)

Inductive platform : Set := Unix | Darwin.

Record process_env : Type := ProcessEnv {
  target : platform;
  pipe_fails : file → option error;          (* os.Pipe, by the end it is for *)
  open_fails : ProcessStream → option error; (* the open of a capture, past interruptions *)
  capture_info : ProcessStream → error + bool;  (* Stat: whether it is a regular file *)
  blocking_fails : ProcessStream → option error;
  truncate_fails : ProcessStream → option error;
  same_file : bool;
  close_fails : file → option error;
  sync_fails : file → option error;
  deadline_fails : file → option error;
  start_fails : option error;
  PID : Z;
  output : ProcessStream → output_env;
  schedule : list bool;
  await : await_choice;
  wait : wait_outcome;
  wait_returns : list action → bool;  (* after these signals *)
  (* by the number of the call: signals to the group and to the leader; the
     members of the group on Darwin; what is lost between sleeps *)
  kill_group : nat → option error;
  signal_leader : nat → option error;
  leader_done : nat → bool;
  live_members : nat → error + bool;
  lag : nat → nat;
  (* the test of the context from which on it is canceled *)
  canceled_from : option nat;
  prefers_send : nat → bool }.

(** ** The state *)

Module run.
Record run (V : Type) : Type := Mk {
  tests : nat; calls : nat; open : list file; actions : list action; sent : list (PrimitiveEvent V) }.
Arguments Mk {V}. Arguments tests {V}. Arguments calls {V}. Arguments open {V}. Arguments actions {V}.
Arguments sent {V}.
End run.
Abbreviation run := run.run.

Definition join_all (errs : list (option error)) : option error :=
  match omap id errs with
  | [] => None
  | e :: es => Some (foldl errors_Join e es)
  end.

Definition merge_step {A} (first : bool) (l1 l2 : list A) : option (A * list A * list A) :=
  match first, l1, l2 with
  | true, a :: l1, l2 | false, a :: l1, [] as l2 => Some (a, l1, l2)
  | _, l1, a :: l2 => Some (a, l1, l2)
  | _, [], [] => None
  end.
(** One order in which two goroutines send: [schedule] says who is next; when
    it ends the rest of the first comes before the rest of the second. *)
Fixpoint merge {A} (schedule : list bool) (l1 l2 : list A) : list A :=
  match schedule with
  | [] => l1 ++ l2
  | first :: schedule =>
    match merge_step first l1 l2 with
    | Some (a, l1, l2) => a :: merge schedule l1 l2
    | None => []
    end
  end.

Section Run.
Context {V : Type} (env : process_env) (request : StartRequest).

(** ** Calls *)

Definition set_open (f : list file → list file) (r : run V) : run V :=
  run.Mk (run.tests r) (run.calls r) (f (run.open r)) (run.actions r) (run.sent r).
Definition act (a : action) : M (run V) unit :=
  modify (λ r, run.Mk (run.tests r) (run.calls r) (run.open r) (run.actions r ++ [a]) (run.sent r)).
Definition send (es : list (PrimitiveEvent V)) : M (run V) unit :=
  modify (λ r, run.Mk (run.tests r) (run.calls r) (run.open r) (run.actions r) (run.sent r ++ es)).
(** The number of the next call. *)
Definition next_call : M (run V) nat := λ r,
  (run.Mk (run.tests r) (S (run.calls r)) (run.open r) (run.actions r) (run.sent r), Ok (run.calls r)).

Definition canceled_at (test : nat) : bool :=
  match canceled_from env with None => false | Some k => (k <=? test)%nat end.
(** [ctx.Err() != nil] *)
Definition ctx_Err : M (run V) bool := λ r,
  (run.Mk (S (run.tests r)) (run.calls r) (run.open r) (run.actions r) (run.sent r), Ok (canceled_at (run.tests r))).
Definition select_or_done : M (run V) bool := λ r,
  (run.Mk (S (run.tests r)) (run.calls r) (run.open r) (run.actions r) (run.sent r),
   Ok (negb (canceled_at (run.tests r)) || prefers_send env (run.tests r))).

Definition open_files (fs : list file) : M (run V) unit := modify (set_open (λ l, l ++ fs)).

(** Close and [closeProcessFile]: a file that is closed already gives
    os.ErrClosed, which [normalizeProcessCloseError] drops. *)
Definition close_open (f : file) : M (run V) (option error) :=
  r ← self;
  if bool_decide (f ∈ run.open r) then
    _ ← modify (set_open (filter (λ g, g ≠ f))); mret (close_fails env f)
  else mret None.
(** [f] is nil unless it is in [p]. *)
Definition closeProcessFile (p : processPipes) (f : file) : M (run V) (option error) :=
  if p f then close_open f else mret None.

Fixpoint close_each (p : processPipes) (fs : list file) : M (run V) (list (option error)) :=
  match fs with
  | [] => mret []
  | f :: fs => e ← closeProcessFile p f; es ← close_each p fs; mret (e :: es)
  end.
Definition close_files (p : processPipes) (fs : list file) : M (run V) (option error) :=
  es ← close_each p fs; mret (join_all es).

Definition closeAll (p : processPipes) : M (run V) (option error) := close_files p all_files.
Definition closeChildEnds (p : processPipes) : M (run V) (option error) :=
  close_files p [stdinRead; stdoutWrite; stderrWrite].
Definition parent_closeAll (p : processPipes) : M (run V) (option error) :=
  close_files p [stdinWrite; stdoutRead; stderrRead].
Definition closeCaptures (p : processPipes) : M (run V) (option error) := close_files p [stdoutCapture; stderrCapture].
Definition closeOutput (p : processPipes) : M (run V) (option error) := close_files p [stdoutRead; stderrRead].

Definition sync_capture (p : processPipes) (s : ProcessStream) : option error :=
  if p (capture s) then
    match sync_fails env (capture s) with
    | Some e => Some (Errorf_w ("sync process " +:+ processStreamName s +:+ " capture: ") e)
    | None => None
    end
  else None.
Definition syncCaptures (p : processPipes) : M (run V) (option error) :=
  mret (join_all [sync_capture p ProcessStdout; sync_capture p ProcessStderr]).

Definition finishProcessOutput (p : processPipes) (f : file) : M (run V) (option error) :=
  if p f then
    match deadline_fails env f with
    | None => mret None
    | Some e => c ← closeProcessFile p f; mret (join_all [Some e; c])
    end
  else mret None.
Definition finishOutput (p : processPipes) : M (run V) (option error) :=
  out ← finishProcessOutput p stdoutRead; err ← finishProcessOutput p stderrRead;
  mret (join_all [out; err]).

(** ** Preparation

    A failure closes what was opened: [return errors.Join(err, closeAll())]. *)

Definition starting (what : string) : string := "start process " +:+ quote (Path request) +:+ ": " +:+ what.
Definition fail_closing {A} (p : processPipes) (e : error) : M (run V) A :=
  c ← closeAll p; fail (default e (join_all [Some e; c])).

Definition openProcessCapture (s : ProcessStream) : M (run V) unit :=
  let path := capture_path request s in
  let stream := processStreamName s in
  let named (what : string) := what +:+ " process " +:+ stream +:+ " capture " +:+ quote path in
  let f := capture s in
  let close_and_fail (e : error) : M (run V) unit := c ← close_open f; fail (default e (join_all [Some e; c])) in
  match open_fails env s with
  | Some e => fail (Errorf_w (named "open" +:+ ": ") e)
  | None =>
    _ ← open_files [f];
    match capture_info env s with
    | inl e => close_and_fail (Errorf_w (named "inspect" +:+ ": ") e)
    | inr false => close_and_fail (errors_New (named "open" +:+ ": path is not a regular file"))
    | inr true =>
      match blocking_fails env s with
      | Some e => close_and_fail (Errorf_w (named "open" +:+ ": set blocking: ") e)
      | None => mret tt
      end
    end
  end.

Definition truncateProcessCapture (p : processPipes) (s : ProcessStream) : M (run V) unit :=
  if p (capture s) then
    match truncate_fails env s with
    | None => mret tt
    | Some e =>
      let e := Errorf_w ("truncate process " +:+ processStreamName s +:+ " capture "
                         +:+ quote (capture_path request s) +:+ ": ") e in
      c ← closeProcessFile p (capture s); fail (default e (join_all [Some e; c]))
    end
  else mret tt.

(** The value or the error of a call. *)
Definition attempt {A} (m : M (run V) A) : M (run V) (error + A) := λ r,
  match m r with
  | (r, Ok a) => (r, Ok (inr a))
  | (r, Err e) => (r, Ok (inl e))
  | (r, Panic t) => (r, Panic t)
  end.
Definition or_close {A} (p : processPipes) (m : M (run V) A) : M (run V) A :=
  a ← attempt m;
  match a with inr a => mret a | inl e => fail_closing p (Errorf_w (starting EmptyString) e) end.

(** The pipe or the capture of an output stream. *)
Definition prepare_output (p : processPipes) (s : ProcessStream) : M (run V) processPipes :=
  if has_pipe request (pipe_of s) then
    match pipe_fails env (read_end s) with
    | Some e => fail_closing p (Errorf_w (starting ("create " +:+ processStreamName s +:+ " pipe: ")) e)
    | None => _ ← open_files [read_end s; write_end s]; mret (with_files [read_end s; write_end s] p)
    end
  else if bool_decide (capture_path request s = EmptyString) then mret p
  else _ ← or_close p (openProcessCapture s); mret (with_files [capture s] p).

Definition prepare_input : M (run V) processPipes :=
  if has_pipe request ProcessPipeStdin then
    match pipe_fails env stdinRead with
    | Some e => fail (Errorf_w (starting "create stdin pipe: ") e)
    | None => _ ← open_files [stdinRead; stdinWrite]; mret (with_files [stdinRead; stdinWrite] no_pipes)
    end
  else mret no_pipes.

(** The command is the request and the pipes. *)
Definition prepareProcess : M (run V) processPipes :=
  p ← prepare_input;
  p ← prepare_output p ProcessStdout;
  p ← prepare_output p ProcessStderr;
  if p stdoutCapture && p stderrCapture && same_file env then
    fail_closing p (errors_New (starting "stdout and stderr capture paths identify the same file"))
  else
    _ ← or_close p (truncateProcessCapture p ProcessStdout);
    _ ← or_close p (truncateProcessCapture p ProcessStderr);
    mret p.

(** ** Signals *)

(** The live members are asked for on Darwin only. *)
Definition normalizeProcessGroupSignalError (err : option error) : M (run V) (option error) :=
  match target env with
  | Unix => mret err
  | Darwin =>
    match err with
    | None => mret None
    | Some e =>
      if errors_Is e EPERM then
        n ← next_call;
        mret (match live_members env n with
              | inl inspect =>
                join_all [Some e; Some (Errorf_w ("inspect process group " +:+ Itoa (PID env) +:+ ": ") inspect)]
              | inr true => Some e
              | inr false => None
              end)
      else mret (Some e)
    end
  end.

Definition signalProcessInvocation (s : signal) : M (run V) (option error) :=
  n ← next_call;
  _ ← act (KilledGroup (PID env) s);
  err ← normalizeProcessGroupSignalError (kill_group env n);
  match err with
  | None => mret None
  | Some e =>
    if negb (errors_Is e ESRCH) then mret (Some e)
    else
      n ← next_call;
      _ ← act (SignaledLeader s);
      mret (match signal_leader env n with
            | Some e => if errors_Is e ErrProcessDone || errors_Is e ESRCH then None else Some e
            | None => None
            end)
  end.

(** A signal 0 to the group. *)
Definition processGroupExists : M (run V) (error + bool) :=
  n ← next_call;
  mret (match kill_group env n with
        | None => inr true
        | Some e => if errors_Is e EPERM then inr true else if errors_Is e ESRCH then inr false else inl e
        end).
Definition processWaitCompleted : M (run V) bool := n ← next_call; mret (leader_done env n).

(** [elapsed] is the time since the deadline was set when it is read; a sleep
    takes what was asked for and what is lost besides.  [fuel] bounds the
    rounds ([waitForProcessInvocation_returns]). *)
Fixpoint poll (fuel : nat) (gracePeriod elapsed delay : Z) : M (run V) (bool * option error) :=
  exists_ ← processGroupExists;
  match exists_ with
  | inl e => mret (false, Some e)
  | inr groupExists =>
    done ← (if (groupExists : bool) then mret false else processWaitCompleted : M (run V) bool);
    if (done : bool) then _ ← act GroupGone; mret (true, None)
    else
      let remaining := gracePeriod - elapsed in
      if remaining <=? 0 then mret (false, None)
      else match fuel with
           | O => lift (Panic "out of fuel")
           | S fuel =>
             n ← next_call;
             poll fuel gracePeriod (elapsed + Z.min delay remaining + Z.of_nat (lag env n))
                  (Z.min (delay * 2) (50 * Millisecond))
           end
  end.

Definition poll_fuel (gracePeriod : Z) : nat := Z.to_nat (gracePeriod / Millisecond + 1).
Definition waitForProcessInvocation (gracePeriod : Z) : M (run V) (bool * option error) :=
  poll (poll_fuel gracePeriod) gracePeriod 0 Millisecond.

Definition terminateProcess (p : processPipes) (gracePeriod : Z) : M (run V) (option error) :=
  termErr ← signalProcessInvocation SIGTERM;
  '(exited, waitErr) ← waitForProcessInvocation gracePeriod;
  let termErr := match termErr with
                 | Some e => if (exited : bool) && errors_Is e EPERM then None else Some e
                 | None => None
                 end in
  killErr ← (if (exited : bool) then mret None else signalProcessInvocation SIGKILL : M (run V) (option error));
  closeErr ← parent_closeAll p;
  mret (join_all [termErr; waitErr; killErr; closeErr]).

(** [<-waitCompleted]; false when Wait does not return. *)
Definition receive_wait : M (run V) bool :=
  r ← self;
  if wait_returns env (run.actions r) then _ ← act Waited; mret true else mret false.

(** The error of Wait is in the environment; here are whether the run was
    canceled and what went wrong.  None: it does not return. *)
Definition awaitProcessCompletion (p : processPipes) (gracePeriod : Z) : M (run V) (option (bool * option error)) :=
  match await env with
  | WaitFirst => _ ← act Waited; e ← terminateProcess no_pipes gracePeriod; mret (Some (false, e))
  | DoneFirst completed =>
    e ← terminateProcess (if completed then no_pipes else p) gracePeriod;
    returned ← receive_wait;
    mret (if (returned : bool) then Some (negb completed, e) else None)
  | NeverFirst => mret None
  end.

(** ** Events *)

Definition process_event (type : PrimitiveEventType) (result : PrimitiveResult V) : PrimitiveEvent V :=
  event.Mk type (Source request) (Correlation request) result.
Definition processFailure (e : error) : PrimitiveEvent V := primitiveFailure (Source request) (Correlation request) e.
Definition processCanceled : PrimitiveEvent V := primitiveCanceled (Source request) (Correlation request).
Definition processCompletionEvent (e : PrimitiveEvent V) (err : option error) : PrimitiveEvent V :=
  match err with Some err => processFailure err | None => e end.
Definition processStreamFailure (s : ProcessStream) (e : error) : PrimitiveEvent V :=
  process_event PrimitiveEventProcessStreamFailed (ProcessStreamFailureResult (stream_number s) (Error e)).
Definition processOutput (s : ProcessStream) (offset : Z) (data : bytes) : PrimitiveEvent V :=
  process_event PrimitiveEventProcessOutput (ProcessOutputResult (stream_number s) offset data).

Definition sendProcessEvent (e : PrimitiveEvent V) : M (run V) bool :=
  c ← ctx_Err;
  if (c : bool) then mret false
  else
    s ← select_or_done;
    if (s : bool) then send [e] ≫= λ _, mret true else mret false.
Definition sendProcessTerminalEvent (e : PrimitiveEvent V) : M (run V) unit := send [e].

Definition processResult : error + PrimitiveResult V :=
  let w := wait env in
  let failed (e : option error) :=
    match e with
    | Some e => Errorf_w ("wait for process " +:+ quote (Path request) +:+ ": ") e
    | None => errors_New ("wait for process " +:+ quote (Path request) +:+ ": %!w(<nil>)")
    end in
  match state w, wait_err w with
  | None, e => inl (failed (snd <$> e))
  | Some _, Some (false, e) => inl (failed (Some e))
  | Some (code, sig), _ => inr (ProcessExitResult code (default 0 sig))
  end.

(** ** The goroutine of an output

    Its state: the tests of the context it made and the events it sent. *)

Definition worker : Type := nat * list (PrimitiveEvent V).

Section Worker.
Context (s : ProcessStream).
Let o := output env s.

Definition worker_test : M worker bool := λ w,
  ((S w.1, w.2), Ok (match output_canceled o with None => false | Some k => (k <=? w.1)%nat end)).
Definition worker_select : M worker bool := λ w,
  ((S w.1, w.2),
   Ok (match output_canceled o with None => true | Some k => (w.1 <? k)%nat || output_prefers_send o w.1 end)).
Definition worker_send (e : PrimitiveEvent V) : M worker bool :=
  c ← worker_test;
  if (c : bool) then mret false
  else
    s ← worker_select;
    if (s : bool) then _ ← modify (λ w, (w.1, w.2 ++ [e])); mret true else mret false.

Definition sendProcessOutput (offset : Z) (data : bytes) : M worker bool := worker_send (processOutput s offset data).

(** A read that gave [data]; the offset after it. *)
Definition pass_chunk (offset : Z) (data : bytes) : M worker Z :=
  if bool_decide (data = []) then mret offset
  else _ ← sendProcessOutput offset data; mret (offset + len data).
Fixpoint pass_chunks (offset : Z) (l : list bytes) : M worker Z :=
  match l with
  | [] => mret offset
  | data :: l => offset ← pass_chunk offset data; pass_chunks offset l
  end.

Definition drain_error (what text : string) : error :=
  errors_New (what +:+ " process " +:+ processStreamName s +:+ ": " +:+ text).

(** None when the reads do not end. *)
Fixpoint drain_chunks (offset : Z) (l : list (option bytes)) : M worker (option (option error)) :=
  match l with
  | [] => mret (match drain_last o with
                | DrainEmpty | DrainEOF => Some None
                | DrainFailed text => Some (Some (drain_error "drain" text))
                | DrainEndless => None
                end)
  | None :: l => drain_chunks offset l
  | Some data :: l =>
    if bool_decide (data = []) then mret (Some None)
    else
      sent ← sendProcessOutput offset data;
      if (sent : bool) then drain_chunks (offset + len data) l else mret (Some None)
  end.
Definition drainProcessOutput (offset : Z) : M worker (option (option error)) :=
  match set_nonblock o with
  | Some text => mret (Some (Some (errors_New ("drain process " +:+ processStreamName s +:+ ": set nonblocking: " +:+ text))))
  | None => drain_chunks offset (drained o)
  end.

Definition streamProcessOutput : M worker (option (option error)) :=
  offset ← pass_chunks 0 (chunks o);
  offset ← pass_chunk offset (last_chunk o);
  match last_error o with
  | ReadEOF => mret (Some None)
  | ReadTimeout => drainProcessOutput offset
  | ReadClosed text => c ← worker_test; mret (Some (if (c : bool) then None else Some (drain_error "read" text)))
  | ReadFailed text => mret (Some (Some (drain_error "read" text)))
  | ReadBlocks => mret None
  end.

(** Whether it returns. *)
Definition runProcessOutput : M worker bool :=
  err ← streamProcessOutput;
  match err with
  | Some (Some e) => _ ← worker_send (processStreamFailure s e); mret true
  | Some None => mret true
  | None => mret false
  end.

Definition output_events : list (PrimitiveEvent V) := (runProcessOutput (0%nat, [])).1.2.
Definition output_returns : bool := match (runProcessOutput (0%nat, [])).2 with Ok b => b | _ => false end.
End Worker.

(** The events of the goroutines that run: one for each pipe. *)
Definition worker_events (p : processPipes) : list (PrimitiveEvent V) :=
  merge (schedule env)
    (if p stdoutRead then output_events ProcessStdout else [])
    (if p stderrRead then output_events ProcessStderr else []).

(** ** The goroutine of an invocation *)

(** Every goroutine of an output returns. *)
Definition workers_return (p : processPipes) : bool :=
  (negb (p stdoutRead) || output_returns ProcessStdout) && (negb (p stderrRead) || output_returns ProcessStderr).

(** [workers.Wait] and the closing of the pipes; None when it does not return. *)
Definition joinWorkers (pp : processPipes) : M (run V) (option (option error)) :=
  _ ← send (worker_events pp);
  if workers_return pp then e ← closeOutput pp; mret (Some e) else mret None.

(** The terminal event. *)
Definition reportCompletion (canceled : bool) (errs : list (option error)) : M (run V) unit :=
  let resultErr := match processResult with inl e => Some e | inr _ => None end in
  let exitResult := match processResult with inl _ => ProcessExitResult 0 0 | inr r => r end in
  let e := if canceled then processCanceled else process_event PrimitiveEventProcessExited exitResult in
  sendProcessTerminalEvent (processCompletionEvent e (join_all (errs ++ [resultErr]))).

(** After the end of the child: what was opened is closed and the terminal event
    is sent. *)
Definition finishProcess (pp : processPipes) (childPipeCloseErr : option error) (canceled : bool)
    (completionErr : option error) : M (run V) ending :=
  captureSyncErr ← syncCaptures pp;
  captureCloseErr ← closeCaptures pp;
  stdinCloseErr ← closeProcessFile pp stdinWrite;
  outputFinishErr ← (if (canceled : bool) then mret None else finishOutput pp : M (run V) (option error));
  joined ← joinWorkers pp;
  match joined with
  | None => mret Blocked
  | Some outputCloseErr =>
    _ ← reportCompletion canceled
      [childPipeCloseErr; captureSyncErr; captureCloseErr; stdinCloseErr; outputFinishErr; outputCloseErr; completionErr];
    mret Finished
  end.

(** After the start; [p] is the whole set of pipes. *)
Definition runStarted (p : processPipes) : M (run V) ending :=
  let pp := parent p in
  childPipeCloseErr ← closeChildEnds p;
  _ ← sendProcessEvent (process_event PrimitiveEventProcessStarted (ProcessStartedResult (PID env)));
  awaited ← awaitProcessCompletion pp processTerminationGracePeriod;
  match awaited with
  | None => _ ← send (worker_events pp); mret Blocked
  | Some (canceled, completionErr) => finishProcess pp childPipeCloseErr canceled completionErr
  end.

(** [runProcess] returns after the terminal event. *)
Definition finish_with (e : PrimitiveEvent V) : M (run V) ending :=
  _ ← sendProcessTerminalEvent e; mret Finished.

Definition runProcess : M (run V) ending :=
  match validateProcessStartRequest request with
  | Err e => finish_with (processFailure e)
  | Panic t => lift (Panic t)
  | Ok _ =>
    c ← ctx_Err;
    if (c : bool) then finish_with processCanceled
    else
      prepared ← attempt prepareProcess;
      match prepared with
      | inl e => finish_with (processFailure e)
      | inr p =>
        c ← ctx_Err;
        if (c : bool) then
          cleanupErr ← closeAll p;
          finish_with (processCompletionEvent processCanceled cleanupErr)
        else match start_fails env with
        | Some e =>
          closeErr ← closeAll p;
          let e := Errorf_w (starting EmptyString) e in
          finish_with (processFailure (default e (join_all [Some e; closeErr])))
        | None => runStarted p
        end
      end
  end.

Definition process_run : run V := (runProcess (run.Mk 0 0 [] [] [])).1.
Definition process_events : list (PrimitiveEvent V) := run.sent process_run.
End Run.

(** ** Control of a running process

    WriteInput, CloseInput and Signal: a goroutine each, which sends one
    event.  What it meets: whether the process is ready before its own context
    ends and whether that has ended then, how the start of the process went
    and whether its context has ended, the inspection of the group, and the
    results of the calls. *)

Record control_env : Type := ControlEnv {
  ready : bool;
  control_ended : bool;
  start_err : option error;
  process_ended : bool;
  group_exists : error + bool;
  wait_completed : bool;
  stdin_set : bool;
  write_result : Z * option error;
  close_result : option (bool * error);  (* with whether it is os.ErrClosed *)
  signal_result : option error }.

Module control.
(** The source and correlation of the three requests, the data to write, and
    of a signal its number and whether it is for the children too. *)
Record Request : Type := Mk { Source : SourceID; Correlation : CorrelationID }.
End control.

Section Control.
Context {V : Type} (env : control_env) (request : control.Request).

Definition errProcessDone : error := errors_New "process invocation is done".
(** A context's error: canceled or its deadline exceeded. *)
Definition context_error : error := sentinel_error ErrCanceled.

Definition prepareControl (processGroup : bool) : option error :=
  if negb (ready env) then Some context_error
  else if control_ended env then Some context_error
  else match start_err env with
  | Some e => Some (errors_New (Error errProcessDone +:+ ": " +:+ Error e))
  | None =>
    if process_ended env then Some errProcessDone
    else if processGroup then
      match group_exists env with
      | inl e => Some (Errorf_w "inspect process group: " e)
      | inr exists_ => if negb exists_ then Some errProcessDone else None
      end
    else if wait_completed env then Some errProcessDone else None
  end.

Definition control_event (type : PrimitiveEventType) (result : PrimitiveResult V) : PrimitiveEvent V :=
  event.Mk type (control.Source request) (control.Correlation request) result.
Definition control_canceled : PrimitiveEvent V := primitiveCanceled (control.Source request) (control.Correlation request).
Definition control_failure (e : error) : PrimitiveEvent V :=
  primitiveFailure (control.Source request) (control.Correlation request) e.

Definition processControlFailure (action : string) (e : error) : PrimitiveEvent V :=
  if errors_Is e ErrCanceled then control_canceled else control_failure (Errorf_w (action +:+ ": ") e).

Definition processInputWriteFailure (count : Z) (e : error) : PrimitiveEvent V :=
  control_event PrimitiveEventProcessInputWriteFailed
    (ProcessWriteFailureResult count (Error (Errorf_w "write process input: " e))).

Definition writeInput : PrimitiveEvent V :=
  match prepareControl false with
  | Some e => if errors_Is e ErrCanceled then control_canceled else processInputWriteFailure 0 e
  | None =>
    if negb (stdin_set env) then processInputWriteFailure 0 (errors_New "stdin pipe is unavailable")
    else match write_result env with
    | (count, None) => control_event PrimitiveEventProcessInputWritten (ProcessWriteResult count)
    | (count, Some e) => processInputWriteFailure count e
    end
  end.

Definition normalizeProcessCloseError (e : option (bool * error)) : option error :=
  match e with Some (false, e) => Some e | _ => None end.
Definition processInputClosed : PrimitiveEvent V := control_event PrimitiveEventProcessInputClosed ResultNil.
Definition closeInput : PrimitiveEvent V :=
  match prepareControl false with
  | Some e => processControlFailure "close process input" e
  | None =>
    if negb (stdin_set env) then processInputClosed
    else match normalizeProcessCloseError (close_result env) with
    | Some e => control_failure (Errorf_w "close process input: " e)
    | None => processInputClosed
    end
  end.

Definition signal_process (PropagateToChildren : bool) : PrimitiveEvent V :=
  match prepareControl PropagateToChildren with
  | Some e => processControlFailure "signal process" e
  | None =>
    match signal_result env with
    | Some e => control_failure (Errorf_w "signal process: " e)
    | None => control_event PrimitiveEventProcessSignaled ResultNil
    end
  end.
End Control.
