(* ===== verification/ProcessFacts.v ===== *)
(** * ProcessFacts: an invocation leaves nothing behind

    Every run of [runProcess], whatever the system calls answer, closes every
    descriptor it opened, signals the whole process group, waits for the
    child, and sends its terminal event last. *)

From Stdlib Require Import Ascii ZArith Lia.
From S2P Require Import Prelude StateLogic GoStrings GoText Primitives Process.

Local Open Scope Z_scope.

Section Facts.
Context {V : Type} (env : process_env) (request : StartRequest).
Implicit Types (r : run V) (p : processPipes).

(** ** Programs that do not panic *)

Definition quiet {S A} (m : M S A) : Prop := ∀ s t, (m s).2 ≠ Panic t.

Lemma quiet_bind {S A B} (m : M S A) (f : A → M S B) : quiet m → (∀ a, quiet (f a)) → quiet (m ≫= f).
Proof.
  intros Hm Hf s t. unfold mbind, M_bind. specialize (Hm s t).
  destruct (m s) as [s' [a|e|u]]; [apply Hf|done|]. intros [= ->]. by apply Hm.
Qed.
Lemma quiet_ret {S A} (a : A) : quiet (mret a : M S A).
Proof. done. Qed.
Lemma quiet_fail {S A} e : quiet (fail e : M S A).
Proof. done. Qed.
Lemma quiet_modify {S} (f : S → S) : quiet (modify f).
Proof. done. Qed.
Lemma quiet_self {S} : quiet (self : M S S).
Proof. done. Qed.
Lemma quiet_attempt {A} (m : M (run V) A) : quiet m → quiet (attempt m).
Proof.
  intros Hm s t. unfold attempt. specialize (Hm s t). destruct (m s) as [s' [a|e|u]]; [done..|]. intros [= ->]. by apply Hm.
Qed.

Create HintDb quiet discriminated.

(** Takes a program apart as it is written; the hints prove its calls. *)
Ltac go_quiet :=
  repeat match goal with
  | |- quiet (mbind _ _) => apply quiet_bind; [|intros ?]
  | |- quiet (mret _) => apply quiet_ret
  | |- quiet (fail _) => apply quiet_fail
  | |- quiet (modify _) => apply quiet_modify
  | |- quiet self => apply quiet_self
  | |- quiet (attempt _) => apply quiet_attempt
  | |- quiet (match ?x with _ => _ end) => destruct x
  | |- quiet (let _ := _ in _) => cbv zeta
  | |- quiet _ => solve [auto 2 with quiet nocore]
  end.

Lemma close_open_quiet f : quiet (close_open (V := V) env f).
Proof. unfold close_open. go_quiet. Qed.
#[local] Hint Resolve close_open_quiet : quiet.

Lemma closeProcessFile_quiet p f : quiet (closeProcessFile (V := V) env p f).
Proof. unfold closeProcessFile. go_quiet. Qed.
#[local] Hint Resolve closeProcessFile_quiet : quiet.

Lemma close_each_quiet p fs : quiet (close_each (V := V) env p fs).
Proof. induction fs as [|f fs IH]; cbn [close_each]; go_quiet. Qed.
#[local] Hint Resolve close_each_quiet : quiet.

Lemma close_files_quiet p fs : quiet (close_files (V := V) env p fs).
Proof. unfold close_files. go_quiet. Qed.

Lemma fail_closing_quiet {A} p e : quiet (fail_closing (V := V) (A := A) env p e).
Proof. unfold fail_closing, closeAll. go_quiet. apply close_files_quiet. Qed.
#[local] Hint Resolve fail_closing_quiet : quiet.

Lemma or_close_quiet {A} p (m : M (run V) A) : quiet m → quiet (or_close env request p m).
Proof. intros Hm. unfold or_close. go_quiet. Qed.

Lemma openProcessCapture_quiet s : quiet (openProcessCapture (V := V) env request s).
Proof. unfold openProcessCapture, open_files. go_quiet. Qed.

Lemma prepare_output_quiet p s : quiet (prepare_output (V := V) env request p s).
Proof. unfold prepare_output, open_files. go_quiet. apply or_close_quiet, openProcessCapture_quiet. Qed.
#[local] Hint Resolve prepare_output_quiet : quiet.

Lemma truncateProcessCapture_quiet p s : quiet (truncateProcessCapture (V := V) env request p s).
Proof. unfold truncateProcessCapture. go_quiet. Qed.

Lemma prepareProcess_quiet : quiet (prepareProcess (V := V) env request).
Proof.
  unfold prepareProcess, prepare_input, open_files.
  go_quiet; apply or_close_quiet, truncateProcessCapture_quiet.
Qed.

(** ** Descriptors *)

(** Nothing is signaled or sent. *)
Definition silent r r' : Prop := run.actions r' = run.actions r ∧ run.sent r' = run.sent r.
#[local] Instance silent_preorder : PreOrder silent.
Proof. split; [by split|]. intros x y z [] []. split; congruence. Qed.

Definition covered p r : Prop := ∀ f, f ∈ run.open r → p f = true.

Lemma wp_close_open f (Q : option error → run V → Prop) E r :
  (∀ e r', silent r r' → (∀ g, g ∈ run.open r' ↔ g ∈ run.open r ∧ g ≠ f) → Q e r') →
  wp (close_open env f) Q E r.
Proof.
  intros H. unfold close_open. wp_steps. case_bool_decide as Hf; wp_steps; apply H; [done| |done|].
  - intros g. cbn. rewrite list_elem_of_filter. naive_solver.
  - intros g. split; [|naive_solver]. intros Hg. split; [done|]. by intros ->.
Qed.

Lemma wp_closeProcessFile p f (Q : option error → run V → Prop) E r :
  (∀ e r', silent r r' → (∀ g, g ∈ run.open r' ↔ g ∈ run.open r ∧ (p f = false ∨ g ≠ f)) → Q e r') →
  wp (closeProcessFile env p f) Q E r.
Proof.
  intros H. unfold closeProcessFile. destruct (p f).
  - apply wp_close_open. intros e r' Hs Ho. apply H; [done|]. intros g. rewrite Ho. naive_solver.
  - wp_steps. apply H; [done|]. naive_solver.
Qed.

Lemma wp_close_each p fs (Q : list (option error) → run V → Prop) E r :
  (∀ es r', silent r r' → (∀ g, g ∈ run.open r' ↔ g ∈ run.open r ∧ (p g = false ∨ g ∉ fs)) → Q es r') →
  wp (close_each env p fs) Q E r.
Proof.
  revert r Q. induction fs as [|f fs IH]; intros r Q H; cbn [close_each].
  - wp_steps. apply H; [done|]. set_solver.
  - wp_step. apply wp_closeProcessFile. intros e r1 Hs1 Ho1. wp_step. apply IH. intros es r2 Hs2 Ho2.
    wp_step. apply H; [by etrans|]. intros g. rewrite Ho2, Ho1, not_elem_of_cons.
    destruct (decide (g = f)) as [->|]; [destruct (p f); naive_solver|naive_solver].
Qed.

Lemma wp_close_files p fs (Q : option error → run V → Prop) E r :
  (∀ e r', silent r r' → (∀ g, g ∈ run.open r' ↔ g ∈ run.open r ∧ (p g = false ∨ g ∉ fs)) → Q e r') →
  wp (close_files env p fs) Q E r.
Proof. intros H. unfold close_files. wp_step. apply wp_close_each. intros es r' Hs Ho. wp_step. by apply H. Qed.

Lemma all_files_all f : f ∈ all_files.
Proof. destruct f; unfold all_files; set_solver. Qed.

Lemma nothing_open (l : list file) : (∀ f, f ∉ l) → l = [].
Proof. destruct l as [|f l]; [done|]. intros H. destruct (H f). set_solver. Qed.

Lemma wp_closeAll p (Q : option error → run V → Prop) E r :
  covered p r → (∀ e r', silent r r' → run.open r' = [] → Q e r') → wp (closeAll env p) Q E r.
Proof.
  intros Hc H. apply wp_close_files. intros e r' Hs Ho. apply H; [done|]. apply nothing_open.
  intros f Hf. apply Ho in Hf as [Hf [Hp|Hp]].
  - rewrite (Hc f Hf) in Hp. done.
  - by destruct (Hp (all_files_all f)).
Qed.

(** ** Preparation *)

(** How a preparation from [r] fails: nothing is open. *)
Definition cleaned r r' : Prop := silent r r' ∧ run.open r' = [].

Lemma wp_fail_closing {A} p e (Q : A → run V → Prop) r0 r :
  silent r0 r → covered p r → wp (fail_closing env p e) Q (cleaned r0) r.
Proof.
  intros H0 Hc. unfold fail_closing. wp_step. apply wp_closeAll; [done|]. intros c r' Hs Ho.
  wp_step. split; [by etrans|done].
Qed.

Lemma wp_attempt {A} (m : M (run V) A) (Q : error + A → run V → Prop) E' r :
  quiet m → wp m (λ a, Q (inr a)) (λ r', ∀ e, Q (inl e) r') r → wp (attempt m) Q E' r.
Proof.
  intros Hq H. unfold wp, attempt in *. specialize (Hq r).
  destruct (m r) as [r' [a|e|t]]; [exact H|apply H|by destruct (Hq t)].
Qed.

Lemma wp_or_close {A} p (m : M (run V) A) (Q : A → run V → Prop) r0 r :
  quiet m → wp m Q (λ r', silent r0 r' ∧ covered p r') r → wp (or_close env request p m) Q (cleaned r0) r.
Proof.
  intros Hq H. unfold or_close. wp_step. apply wp_attempt; [done|].
  eapply wp_mono; [exact H| |].
  - intros a r' Ha. by wp_step.
  - intros r' [Hs Hc] e. by apply wp_fail_closing.
Qed.

Lemma wp_open_files fs (Q : unit → run V → Prop) E r :
  (∀ r', silent r r' → run.open r' = run.open r ++ fs → Q tt r') → wp (open_files fs) Q E r.
Proof. intros H. unfold open_files. wp_step. by apply H. Qed.

Lemma covered_opened p fs r r' :
  covered p r → run.open r' = run.open r ++ fs → covered (with_files fs p) r'.
Proof.
  intros Hc Ho f. rewrite Ho, elem_of_app. unfold with_files. intros [Hf|Hf].
  - by rewrite (Hc f Hf), orb_true_r.
  - by rewrite bool_decide_true.
Qed.

Lemma openProcessCapture_spec p s r0 r :
  silent r0 r → covered p r →
  wp (openProcessCapture env request s)
    (λ _ r', silent r0 r' ∧ covered (with_files [capture s] p) r') (λ r', silent r0 r' ∧ covered p r') r.
Proof.
  intros H0 Hc. unfold openProcessCapture. destruct (open_fails env s) as [e|]; [by wp_step|].
  wp_step. apply wp_open_files. intros r1 H1 Ho1.
  assert (Hfail : ∀ e (Q : unit → run V → Prop),
    wp (c ← close_open env (capture s); fail (default e (join_all [Some e; c])))
       Q (λ r', silent r0 r' ∧ covered p r') r1).
  { intros e Q. wp_step. apply wp_close_open. intros c r2 H2 Ho2. wp_step.
    split; [etrans; [exact H0|]; by etrans|]. intros f Hf. apply Ho2 in Hf as [Hf Hne].
    rewrite Ho1, elem_of_app, list_elem_of_singleton in Hf. naive_solver. }
  destruct (capture_info env s) as [e|[]]; [apply Hfail| |apply Hfail].
  destruct (blocking_fails env s) as [e|]; [apply Hfail|]. wp_step.
  split; [by etrans|by eapply covered_opened].
Qed.

Lemma prepare_output_spec p s r0 r :
  silent r0 r → covered p r →
  wp (prepare_output env request p s) (λ p' r', silent r0 r' ∧ covered p' r') (cleaned r0) r.
Proof.
  intros H0 Hc. unfold prepare_output. if_goal.
  - destruct (pipe_fails env (read_end s)); [by apply wp_fail_closing|].
    wp_step. apply wp_open_files. intros r1 H1 Ho1. wp_step. split; [by etrans|by eapply covered_opened].
  - case_bool_decide; [by wp_step|]. wp_step. apply wp_or_close; [apply openProcessCapture_quiet|].
    eapply wp_mono; [by apply openProcessCapture_spec| |done]. intros _ r1 [H1 Hc1]. by wp_step.
Qed.

Lemma truncateProcessCapture_spec p s r0 r :
  silent r0 r → covered p r →
  wp (truncateProcessCapture env request p s) (λ _ r', silent r0 r' ∧ covered p r') (λ r', silent r0 r' ∧ covered p r') r.
Proof.
  intros H0 Hc. unfold truncateProcessCapture. destruct (p (capture s)); [|by wp_step].
  destruct (truncate_fails env s) as [e|]; [|by wp_step].
  cbv zeta. wp_step. apply wp_closeProcessFile. intros c r1 H1 Ho1. wp_step. split; [by etrans|].
  intros f Hf. apply Hc. by apply Ho1 in Hf as [? _].
Qed.

Lemma prepareProcess_spec r :
  run.open r = [] →
  wp (prepareProcess env request) (λ p r', silent r r' ∧ covered p r') (cleaned r) r.
Proof.
  intros Hr. unfold prepareProcess. wp_step.
  assert (Hin : wp (prepare_input env request) (λ p r', silent r r' ∧ covered p r') (cleaned r) r).
  { assert (Hc : covered no_pipes r) by (intros f; by rewrite Hr, elem_of_nil).
    unfold prepare_input. if_goal; [|by wp_step].
    destruct (pipe_fails env stdinRead); [by wp_step|].
    wp_step. apply wp_open_files. intros r1 H1 Ho1. wp_step. split; [done|by eapply covered_opened]. }
  eapply wp_mono; [exact Hin| |done]. intros p r1 [H1 Hc1]. wp_step.
  eapply wp_mono; [by apply prepare_output_spec| |done]. intros p2 r2 [H2 Hc2]. wp_step.
  eapply wp_mono; [by apply prepare_output_spec| |done]. intros p3 r3 [H3 Hc3].
  if_goal; [by apply wp_fail_closing|].
  wp_step. apply wp_or_close; [apply truncateProcessCapture_quiet|].
  eapply wp_mono; [by apply truncateProcessCapture_spec| |done]. intros _ r4 [H4 Hc4]. wp_step.
  apply wp_or_close; [apply truncateProcessCapture_quiet|].
  eapply wp_mono; [by apply truncateProcessCapture_spec| |done]. intros _ r5 [H5 Hc5]. by wp_step.
Qed.

(** ** Termination of the process group *)

(** Only signals: the descriptors and the events stay. *)
Definition adds (acts : list action) r r' : Prop :=
  run.actions r' = run.actions r ++ acts ∧ run.sent r' = run.sent r ∧ run.open r' = run.open r.

Lemma adds_app a1 a2 r r1 r2 : adds a1 r r1 → adds a2 r1 r2 → adds (a1 ++ a2) r r2.
Proof. intros (A1 & S1 & O1) (A2 & S2 & O2). split; [rewrite A2, A1; by rewrite app_assoc|]. split; congruence. Qed.

Lemma adds_nil r : adds [] r r.
Proof. split; [by rewrite app_nil_r|done]. Qed.

Lemma wp_next_call (Q : nat → run V → Prop) E r :
  (∀ n r', adds [] r r' → Q n r') → wp next_call Q E r.
Proof. intros H. apply H. split; [by rewrite app_nil_r|done]. Qed.

Lemma wp_act a (Q : unit → run V → Prop) E r : (∀ r', adds [a] r r' → Q tt r') → wp (act a) Q E r.
Proof. intros H. apply H. by split. Qed.

Lemma normalize_spec e (Q : option error → run V → Prop) E r :
  (∀ e' r', adds [] r r' → Q e' r') → wp (normalizeProcessGroupSignalError env e) Q E r.
Proof.
  intros H. unfold normalizeProcessGroupSignalError.
  destruct (target env); [wp_step; apply H, adds_nil|].
  destruct e as [e|]; [|wp_step; apply H, adds_nil].
  if_goal; [|wp_step; apply H, adds_nil].
  wp_step. apply wp_next_call. intros n r' Hr. wp_step. by apply H.
Qed.

Lemma signal_spec s (Q : option error → run V → Prop) E r :
  (∀ e acts r', adds (KilledGroup (PID env) s :: acts) r r' → Q e r') →
  wp (signalProcessInvocation env s) Q E r.
Proof.
  intros H. unfold signalProcessInvocation.
  wp_step. apply wp_next_call. intros n r1 H1. wp_step. apply wp_act. intros r2 H2.
  wp_step. apply normalize_spec. intros e r3 H3.
  pose proof (adds_app _ _ _ _ _ (adds_app _ _ _ _ _ H1 H2) H3) as H13.
  destruct e as [e|]; [|wp_step; exact (H _ [] _ H13)].
  if_goal; [|wp_step; exact (H _ [] _ H13)].
  wp_step. apply wp_next_call. intros n' r4 H4. wp_step. apply wp_act. intros r5 H5. wp_step.
  apply (H _ [SignaledLeader s]). exact (adds_app _ _ _ _ _ H13 (adds_app _ _ _ _ _ H4 H5)).
Qed.

(** The polls end: a round of the loop sleeps a millisecond at least, or what
    is left of the grace period. *)
Lemma poll_spec fuel gracePeriod elapsed delay (Q : bool * option error → run V → Prop) r :
  gracePeriod - elapsed ≤ Z.of_nat fuel * Millisecond → Millisecond ≤ delay →
  (∀ exited e r', adds (if exited : bool then [GroupGone] else []) r r' → Q (exited, e) r') →
  wp (poll env fuel gracePeriod elapsed delay) Q (λ _, False) r.
Proof.
  revert elapsed delay r. induction fuel as [|fuel IH]; intros elapsed delay r Hf Hd H; cbn [poll];
    wp_step; unfold processGroupExists; wp_step; apply wp_next_call; intros n r1 H1; wp_step.
  all: match goal with |- wp (match ?x with _ => _ end) _ _ _ => destruct x as [e|gone] end;
       [wp_step; by apply H|].
  all: wp_step.
  all: assert (Hrest : ∀ (done : bool) (Q' : bool → run V → Prop),
         (∀ b r2, adds [] r r2 → Q' b r2) →
         wp (if gone then mret false else processWaitCompleted env : M (run V) bool) Q' (λ _, False) r1)
       by (intros _ Q' HQ; destruct gone; [wp_step; by apply HQ|unfold processWaitCompleted; wp_step;
             apply wp_next_call; intros n2 r2 H2; wp_step; apply HQ; exact (adds_app _ _ _ _ _ H1 H2)]).
  all: apply (Hrest false); intros done r2 H2; destruct done;
       [wp_step; apply wp_act; intros r3 H3; wp_step; apply H; exact (adds_app _ _ _ _ _ H2 H3)|].
  all: cbv zeta; split_if (gracePeriod - elapsed <=? 0); [wp_step; by apply H|].
  - exfalso. lia.
  - wp_step. apply wp_next_call. intros n3 r3 H3. apply IH.
    + unfold Millisecond in *. lia.
    + unfold Millisecond in *. lia.
    + intros exited e r4 H4. apply H. eapply (adds_app [] _ _ r3); [exact (adds_app _ _ _ _ _ H2 H3)|exact H4].
Qed.

Lemma waitForProcessInvocation_returns gracePeriod (Q : bool * option error → run V → Prop) r :
  (∀ exited e r', adds (if exited : bool then [GroupGone] else []) r r' → Q (exited, e) r') →
  wp (waitForProcessInvocation env gracePeriod) Q (λ _, False) r.
Proof.
  apply poll_spec; [|unfold Millisecond; lia]. unfold poll_fuel.
  assert (0 < Millisecond) by (unfold Millisecond; lia).
  pose proof (Z.mul_succ_div_gt gracePeriod Millisecond ltac:(done)).
  destruct (Z.le_gt_cases 0 (gracePeriod / Millisecond + 1)); [|unfold Millisecond in *; lia].
  rewrite Z2Nat.id by done. lia.
Qed.

(** The group was told to end; then it was seen to have ended, or killed. *)
Definition group_ended (acts : list action) : Prop :=
  KilledGroup (PID env) SIGTERM ∈ acts ∧ (GroupGone ∈ acts ∨ KilledGroup (PID env) SIGKILL ∈ acts).

Lemma terminateProcess_spec p gracePeriod (Q : option error → run V → Prop) r :
  (∀ e acts r', group_ended acts → run.actions r' = run.actions r ++ acts → run.sent r' = run.sent r →
     (∀ g, g ∈ run.open r' → g ∈ run.open r) → Q e r') →
  wp (terminateProcess env p gracePeriod) Q (λ _, False) r.
Proof.
  intros H. unfold terminateProcess.
  wp_step. apply signal_spec. intros e1 a1 r1 H1. wp_step. apply waitForProcessInvocation_returns.
  intros exited e2 r2 H2. pose proof (adds_app _ _ _ _ _ H1 H2) as H12. wp_step.
  assert (Hclose : ∀ e3 acts r3, group_ended acts → adds acts r r3 →
    wp (closeErr ← parent_closeAll env p;
        mret (join_all [match e1 with
                 | Some e => if exited && errors_Is e EPERM then None else Some e
                 | None => None end; e2; e3; closeErr])) Q (λ _, False) r3).
  { intros e3 acts r3 Hg (HA & HS & HO). wp_step. apply wp_close_files. intros c r4 [A4 S4] Ho4. wp_step.
    eapply H; [exact Hg|by rewrite A4|by rewrite S4|]. intros g Hg4. rewrite <- HO. by apply Ho4 in Hg4 as [? _]. }
  destruct exited.
  - wp_step. eapply Hclose; [|exact H12]. split; [set_solver|]. left. set_solver.
  - apply signal_spec. intros e3 a3 r3 H3. eapply Hclose; [|exact (adds_app _ _ _ _ _ H12 H3)].
    split; [set_solver|]. right. set_solver.
Qed.

(** ** Outputs *)

(** The reads of an output pipe, in order. *)
Fixpoint drained_data (l : list (option bytes)) : list bytes :=
  match l with
  | [] => []
  | None :: l => drained_data l
  | Some data :: l => if bool_decide (data = []) then [] else data :: drained_data l
  end.
Definition reads (o : output_env) : list bytes :=
  chunks o ++ [last_chunk o] ++
  match last_error o, set_nonblock o with
  | ReadTimeout, None => drained_data (drained o)
  | _, _ => []
  end.

(** One event for each read that gave something, with the bytes before it
    counted. *)
Fixpoint outputs (s : ProcessStream) (offset : Z) (l : list bytes) : list (PrimitiveEvent V) :=
  match l with
  | [] => []
  | data :: l =>
    if bool_decide (data = []) then outputs s offset l
    else processOutput request s offset data :: outputs s (offset + len data) l
  end.

(** Why the reads of a stream ended, when that is a failure. *)
Fixpoint drain_failure (s : ProcessStream) (o : output_env) (l : list (option bytes)) : option error :=
  match l with
  | [] => match drain_last o with DrainFailed text => Some (drain_error s "drain" text) | _ => None end
  | None :: l => drain_failure s o l
  | Some data :: l => if bool_decide (data = []) then None else drain_failure s o l
  end.
Definition stream_failure (s : ProcessStream) (o : output_env) : list (PrimitiveEvent V) :=
  let failed (e : option error) := match e with Some e => [processStreamFailure request s e] | None => [] end in
  match last_error o with
  | ReadEOF | ReadBlocks => []
  | ReadTimeout =>
    failed (match set_nonblock o with
            | Some text => Some (errors_New ("drain process " +:+ processStreamName s +:+ ": set nonblocking: " +:+ text))
            | None => drain_failure s o (drained o)
            end)
  | ReadClosed text | ReadFailed text => failed (Some (drain_error s "read" text))
  end.

Lemma outputs_app s offset l1 l2 :
  outputs s offset (l1 ++ l2) = outputs s offset l1 ++ outputs s (offset + len (concat l1)) l2.
Proof.
  revert offset. induction l1 as [|d l1 IH]; intros offset; cbn [app outputs concat].
  - unfold len. cbn. by rewrite Z.add_0_r.
  - rewrite !IH. case_bool_decide as Hd; [by subst|]. cbn [app]. do 3 f_equal. unfold len. rewrite length_app. lia.
Qed.

Section Worker.
Context (s : ProcessStream).
Let o := output env s.

Definition worker_canceled (w : worker (V := V)) : Prop := ∃ k, output_canceled o = Some k ∧ (k ≤ w.1)%nat.

(** [full] is what a run that is not canceled has sent. *)
Definition sent_so_far (full : list (PrimitiveEvent V)) (w : worker (V := V)) : Prop :=
  w.2 = full ∨ (w.2 `prefix_of` full ∧ worker_canceled w).

Lemma sent_prefix full more w : sent_so_far full w → w.2 `prefix_of` full ++ more.
Proof. intros [->|[H _]]; [by apply prefix_app_r|]. by apply prefix_app_r. Qed.

Lemma worker_send_spec e full (Q : bool → worker (V := V) → Prop) E w :
  sent_so_far full w →
  (∀ b w', sent_so_far (full ++ [e]) w' → (b = true → w'.2 = full ++ [e]) →
     (b = false → worker_canceled w') → Q b w') →
  wp (worker_send env s e) Q E w.
Proof.
  intros Hw H. unfold worker_send. wp_step. unfold wp at 1, worker_test. fold o.
  destruct (output_canceled o) as [k|] eqn:Ho.
  - destruct (Nat.leb_spec k w.1).
    + wp_step. apply H; [|done|].
      * right. split; [apply (sent_prefix full [e] w Hw)|]. exists k. split; [done|]. cbn. lia.
      * intros _. exists k. split; [done|]. cbn. lia.
    + wp_step. unfold wp at 1, worker_select. fold o. rewrite Ho. cbn [fst snd].
      destruct Hw as [Hw|[_ (k' & Hk & Hle)]]; [|rewrite Ho in Hk; injection Hk as <-; lia].
      destruct ((S w.1 <? k)%nat || output_prefers_send o (S w.1)) eqn:Hs.
      * wp_steps. apply H; [|by intros _; cbn; rewrite Hw|done]. left. cbn. by rewrite Hw.
      * wp_step. apply orb_false_iff in Hs as [Hs _]. apply Nat.ltb_ge in Hs.
        assert (worker_canceled (S (S w.1), w.2)) by (exists k; split; [done|cbn; lia]).
        apply H; [|done|done]. right. split; [|done]. cbn. rewrite Hw. by apply prefix_app_r.
  - wp_step. unfold wp at 1, worker_select. fold o. rewrite Ho. wp_steps.
    destruct Hw as [Hw|[_ (k' & Hk & _)]]; [|by rewrite Ho in Hk].
    apply H; [|by intros _; cbn; rewrite Hw|done]. left. cbn. by rewrite Hw.
Qed.

Lemma pass_chunk_spec d offset full (Q : Z → worker (V := V) → Prop) E w :
  sent_so_far full w →
  (∀ w', sent_so_far (full ++ outputs s offset [d]) w' → Q (offset + len d) w') →
  wp (pass_chunk env request s offset d) Q E w.
Proof.
  intros Hw H. unfold pass_chunk. cbn [outputs] in H. case_bool_decide as Hd.
  - wp_step. subst. unfold len in H. cbn in H. rewrite Z.add_0_r, app_nil_r in H. by apply H.
  - wp_step. unfold sendProcessOutput. eapply worker_send_spec; [exact Hw|].
    intros b w' Hw' _ _. wp_step. by apply H.
Qed.

Lemma pass_chunks_spec l offset full (Q : Z → worker (V := V) → Prop) E w :
  sent_so_far full w →
  (∀ w', sent_so_far (full ++ outputs s offset l) w' → Q (offset + len (concat l)) w') →
  wp (pass_chunks env request s offset l) Q E w.
Proof.
  revert offset full w. induction l as [|d l IH]; intros offset full w Hw H; cbn [pass_chunks].
  - wp_step. unfold len in H. cbn in H. rewrite Z.add_0_r, app_nil_r in H. by apply H.
  - wp_step. eapply pass_chunk_spec; [exact Hw|]. intros w' Hw'. eapply IH; [exact Hw'|]. intros w2 Hw2.
    rewrite <- app_assoc in Hw2. pose proof (outputs_app s offset [d] l) as E1. cbn [app concat] in E1.
    rewrite app_nil_r in E1. rewrite <- E1 in Hw2.
    replace (offset + len d + len (concat l)) with (offset + len (concat (d :: l))); [by apply H|].
    unfold len. cbn [concat]. rewrite length_app. lia.
Qed.

(** The drain sends what is buffered, unless it is canceled on the way. *)
Lemma drain_chunks_spec l offset full (Q : option (option error) → worker (V := V) → Prop) E w :
  sent_so_far full w →
  (∀ err w', sent_so_far (full ++ outputs s offset (drained_data l)) w' → default None err = drain_failure s o l →
     (err = None → drain_last o = DrainEndless) → Q err w') →
  (∀ w', w'.2 `prefix_of` full ++ outputs s offset (drained_data l) → worker_canceled w' → Q (Some None) w') →
  wp (drain_chunks env request s offset l) Q E w.
Proof.
  revert offset full w. induction l as [|[d|] l IH]; intros offset full w Hw H Hc;
    cbn [drain_chunks drained_data drain_failure] in *.
  - wp_step. fold o. rewrite app_nil_r in H. apply H; [done|..]; by destruct (drain_last o).
  - case_bool_decide as Hd.
    + wp_step. rewrite app_nil_r in H. by apply H.
    + cbn [outputs] in H, Hc. rewrite bool_decide_false in H, Hc by done.
      wp_step. unfold sendProcessOutput. eapply worker_send_spec; [exact Hw|]. intros b w' Hw' Hb Hnb.
      rewrite cons_middle, app_assoc in H, Hc.
      destruct b; [by eapply IH|]. wp_step. apply Hc; [|by apply Hnb]. by apply sent_prefix.
  - by eapply IH.
Qed.

(** The reads never end. *)
Definition endless : Prop := last_error o = ReadBlocks ∨ last_error o = ReadTimeout ∧ drain_last o = DrainEndless.

(** What the goroutine sends: an event for each read, and the failure of the
    stream; a first part of that when the context ends. *)
Lemma output_events_spec :
  output_events env request s `prefix_of` outputs s 0 (reads o) ++ stream_failure s o ∧
  (output_canceled o = None → output_events env request s = outputs s 0 (reads o) ++ stream_failure s o) ∧
  (output_returns (V := V) env request s = false → endless).
Proof.
  set (all := outputs s 0 (reads o) ++ stream_failure s o).
  set (Post := λ w : worker (V := V), w.2 `prefix_of` all ∧ (output_canceled o = None → w.2 = all)).
  assert (Hdone : ∀ w, sent_so_far all w → Post w).
  { intros w [Hw|[Hp (k & Hk & _)]]; split; [by rewrite Hw|done|done|by rewrite Hk]. }
  assert (Hend : ∀ err full w, sent_so_far full w →
    all = full ++ (match default None err with Some e => [processStreamFailure request s e] | None => [] end) →
    wp (match err with
        | Some (Some e) => _ ← worker_send env s (processStreamFailure request s e); mret true
        | Some None => mret true
        | None => mret false
        end)
       (λ ended w, Post w ∧ (ended = false → err = None)) (λ _, False) w).
  { intros [[e|]|] full w Hw Hall.
    - wp_step. eapply worker_send_spec; [exact Hw|]. intros b w' Hw' _ _. wp_step. split; [|done]. apply Hdone. by rewrite Hall.
    - wp_step. split; [|done]. apply Hdone. rewrite Hall. by rewrite app_nil_r.
    - wp_step. split; [|done]. apply Hdone. rewrite Hall. by rewrite app_nil_r. }
  assert (H : wp (runProcessOutput env request s) (λ b w, Post w ∧ (b = false → endless)) (λ _, False) (0%nat, [])).
  { unfold runProcessOutput. wp_step. unfold streamProcessOutput. fold o. wp_step.
    eapply (pass_chunks_spec _ _ []); [by left|]. intros w1 H1. cbn [app] in H1. wp_step.
    eapply pass_chunk_spec; [exact H1|]. intros w2 H2. rewrite Z.add_0_l in *.
    pose proof (outputs_app s 0 (chunks o) [last_chunk o]) as Efull. rewrite Z.add_0_l in Efull.
    rewrite <- Efull in H2. clear H1 Efull. unfold all in *.
    assert (Hthen : ∀ err full w, sent_so_far full w →
      outputs s 0 (reads o) ++ stream_failure s o =
        full ++ (match default None err with Some e => [processStreamFailure request s e] | None => [] end) →
      (err = None → endless) →
      wp (match err with
          | Some (Some e) => _ ← worker_send env s (processStreamFailure request s e); mret true
          | Some None => mret true
          | None => mret false
          end)
         (λ b w, Post w ∧ (b = false → endless)) (λ _, False) w).
    { intros err full w Hw Hall Hend'. eapply wp_mono; [by apply (Hend err full)| |done].
      intros b w' [HP Hb]. split; [done|]. intros ->. auto. }
    unfold endless, reads, stream_failure in Hthen |- *. clear Hend.
    destruct (last_error o) as [| |text|text|] eqn:El.
    - wp_step. apply (Hthen (Some None) _ w2 H2); [by rewrite !app_nil_r|done].
    - unfold drainProcessOutput. fold o. destruct (set_nonblock o) as [text|] eqn:En.
      { wp_step. apply (Hthen (Some (Some _)) _ w2 H2); [by rewrite !app_nil_r|done]. }
      assert (Eall : outputs s 0 (chunks o ++ [last_chunk o] ++ drained_data (drained o)) =
        outputs s 0 (chunks o ++ [last_chunk o]) ++
        outputs s (len (concat (chunks o ++ [last_chunk o]))) (drained_data (drained o))).
      { by rewrite (app_assoc (chunks o)), outputs_app, Z.add_0_l. }
      replace (len (concat (chunks o)) + len (last_chunk o)) with (len (concat (chunks o ++ [last_chunk o])))
        by (rewrite concat_app; unfold len; rewrite length_app; cbn [concat]; rewrite app_nil_r; lia).
      eapply drain_chunks_spec; [exact H2|..].
      + intros err w3 H3 He Hn. eapply Hthen; [exact H3| |auto]. by rewrite Eall, He.
      + intros w3 Hp (k & Hk & _). wp_steps. split; [|done]. split; [|by rewrite Hk].
        unfold reads. rewrite El, En, Eall. by apply prefix_app_r.
    - wp_step. unfold wp at 1, worker_test. fold o. destruct (output_canceled o) as [k|] eqn:Ho.
      + destruct (Nat.leb_spec k w2.1) as [Hk|Hk].
        * wp_steps. split; [|done]. split; [|done]. unfold reads. rewrite El, !app_nil_r. apply prefix_app_r.
          destruct H2 as [->|[Hp _]]; [done|exact Hp].
        * wp_step. eapply (Hthen (Some (Some _))); [|by rewrite !app_nil_r|done].
          destruct H2 as [->|[_ (k' & Hk' & Hle)]]; [by left|]. rewrite Ho in Hk'. injection Hk' as <-. lia.
      + wp_step. eapply (Hthen (Some (Some _))); [|by rewrite !app_nil_r|done].
        destruct H2 as [->|[_ (k' & Hk' & _)]]; [by left|]. by rewrite Ho in Hk'.
    - wp_step. apply (Hthen (Some (Some _)) _ w2 H2); [by rewrite !app_nil_r|done].
    - wp_step. apply (Hthen None _ w2 H2); [by rewrite !app_nil_r|by left]. }
  unfold wp in H. unfold output_events, output_returns.
  destruct (runProcessOutput env request s (0%nat, [])) as [w [b|e|t]]; [|done..].
  destruct H as [[H1 H2] H3]. by split_and!.
Qed.
End Worker.

(** ** The whole run *)

(** Events only. *)
Definition sends (es : list (PrimitiveEvent V)) r r' : Prop :=
  run.actions r' = run.actions r ∧ run.sent r' = run.sent r ++ es ∧ run.open r' = run.open r.

Lemma wp_sendProcessEvent e (Q : bool → run V → Prop) E r :
  (∀ b r', sends (if b : bool then [e] else []) r r' → (canceled_from env = None → b = true) → Q b r') →
  wp (sendProcessEvent env e) Q E r.
Proof.
  intros H. unfold sendProcessEvent. wp_step. unfold wp at 1, ctx_Err.
  destruct (canceled_at env (run.tests r)) eqn:Ec.
  { wp_step. apply H; [split_and!; cbn; by rewrite ?app_nil_r|]. intros E0. unfold canceled_at in Ec. by rewrite E0 in Ec. }
  wp_step. unfold wp at 1, select_or_done. cbn.
  destruct (negb (canceled_at env (S (run.tests r))) || _) eqn:Es; wp_steps; apply H;
    try (split_and!; cbn; by rewrite ?app_nil_r); [done|].
  intros E0. unfold canceled_at in Es. by rewrite E0 in Es.
Qed.

(** The start event, unless the context has ended, and those of the outputs. *)
Definition started_events p (reported : bool) : list (PrimitiveEvent V) :=
  (if reported then [process_event request PrimitiveEventProcessStarted (ProcessStartedResult (PID env))] else [])
  ++ worker_events env request (parent p).

(** None of these events is a terminal one. *)
Definition open_event (e : PrimitiveEvent V) : Prop := completing (event.Type_ e) = false.

Lemma outputs_open s offset l : Forall open_event (outputs s offset l).
Proof.
  revert offset. induction l as [|d l IH]; intros offset; cbn [outputs]; [constructor|].
  case_bool_decide; [apply IH|]. constructor; [done|apply IH].
Qed.

Lemma output_events_open s : Forall open_event (output_events env request s).
Proof.
  destruct (output_events_spec s) as [[k Hk] _]. eapply proj1. rewrite <- Forall_app, <- Hk.
  apply Forall_app. split; [apply outputs_open|]. unfold stream_failure.
  destruct (last_error _); repeat case_match; repeat constructor.
Qed.

Lemma merge_Forall {A} (P : A → Prop) sch l1 l2 : Forall P l1 → Forall P l2 → Forall P (merge sch l1 l2).
Proof.
  revert l1 l2. induction sch as [|first sch IH]; intros l1 l2 H1 H2; cbn [merge]; [by apply Forall_app|].
  destruct first, H1 as [|x l1 Hx H1], H2 as [|y l2 Hy H2]; cbn [merge_step]; constructor; auto.
Qed.

Lemma started_events_open p reported : Forall open_event (started_events p reported).
Proof.
  unfold started_events, worker_events. apply Forall_app. split; [destruct reported; repeat constructor|].
  apply merge_Forall; destruct (parent p _); auto using output_events_open.
Qed.

(** Why a run with the pipes [p] does not come to its end. *)
Definition unfinished p r : Prop :=
  await env = NeverFirst ∧ run.actions r = [] ∨
  group_ended (run.actions r) ∧ wait_returns env (run.actions r) = false ∨
  group_ended (run.actions r) ∧ Waited ∈ run.actions r ∧ ∃ s, p (read_end s) = true ∧ endless s.

(** What a run that started the process with the pipes [p] leaves. *)
Definition started_run p r (how : ending) r' : Prop :=
  ∃ reported, (canceled_from env = None → reported = true) ∧
  match how with
  | Finished => run.open r' = [] ∧ group_ended (run.actions r') ∧ Waited ∈ run.actions r' ∧
      ∃ e, run.sent r' = run.sent r ++ started_events p reported ++ [e] ∧ completing (event.Type_ e) = true
  | Blocked => unfinished p r' ∧ run.sent r' = run.sent r ++ started_events p reported
  end.

Lemma group_ended_more acts before after :
  group_ended acts → group_ended (before ++ acts ++ after).
Proof. intros [? [?|?]]; split; set_solver. Qed.

Lemma awaitProcessCompletion_spec p gracePeriod (Q : option (bool * option error) → run V → Prop) r :
  run.actions r = [] →
  (∀ x r', run.sent r' = run.sent r → (∀ g, g ∈ run.open r' → g ∈ run.open r) →
     match x with
     | Some _ => group_ended (run.actions r') ∧ Waited ∈ run.actions r'
     | None => await env = NeverFirst ∧ run.actions r' = [] ∨
               group_ended (run.actions r') ∧ wait_returns env (run.actions r') = false
     end → Q x r') →
  wp (awaitProcessCompletion env p gracePeriod) Q (λ _, False) r.
Proof.
  intros Hr H. unfold awaitProcessCompletion. destruct (await env) as [|completed|] eqn:Ea.
  - wp_step. apply wp_act. intros r1 (A1 & S1 & O1). wp_step. apply terminateProcess_spec.
    intros e acts r2 Hg HA HS HO. wp_step. apply H; [congruence| |].
    + intros g Hg2. rewrite <- O1. by apply HO.
    + rewrite HA, A1, Hr, <- (app_nil_r acts). split; [by apply group_ended_more|]. by left.
  - wp_step. apply terminateProcess_spec. intros e acts r1 Hg HA HS HO. rewrite Hr in HA. cbn in HA.
    wp_step. unfold receive_wait. wp_step. wp_step. destruct (wait_returns env (run.actions r1)) eqn:Hw.
    + wp_step. apply wp_act. intros r2 (A2 & S2 & O2). wp_steps. apply H; [congruence|by rewrite O2|].
      rewrite A2, HA. split; [by apply (group_ended_more _ [])|]. apply elem_of_app. right. by left.
    + wp_steps. apply H; [congruence|done|]. right. by rewrite HA in *.
  - wp_step. apply H; [done|done|]. by left.
Qed.

Lemma wp_finishOutput p (Q : option error → run V → Prop) E r :
  (∀ e r', silent r r' → (∀ g, g ∈ run.open r' → g ∈ run.open r) → Q e r') → wp (finishOutput env p) Q E r.
Proof.
  intros H. unfold finishOutput.
  assert (Hone : ∀ f (Q : option error → run V → Prop) r, (∀ e r', silent r r' → (∀ g, g ∈ run.open r' → g ∈ run.open r) → Q e r') →
    wp (finishProcessOutput env p f) Q E r).
  { intros f Q' r1 HQ. unfold finishProcessOutput. destruct (p f); [|by wp_step; apply HQ].
    destruct (deadline_fails env f) as [err|]; [|by wp_step; apply HQ].
    wp_step. apply wp_closeProcessFile. intros c r2 Hs Ho. wp_step. apply HQ; [done|]. intros g Hg.
    by apply Ho in Hg as [? _]. }
  wp_step. apply Hone. intros e1 r1 H1 O1. wp_step. apply Hone. intros e2 r2 H2 O2. wp_step.
  apply H; [by etrans|]. auto.
Qed.

Lemma wp_reportCompletion canceled errs (Q : unit → run V → Prop) E r :
  (∀ e r', sends [e] r r' → completing (event.Type_ e) = true → Q tt r') →
  wp (reportCompletion env request canceled errs) Q E r.
Proof.
  intros H. unfold reportCompletion, sendProcessTerminalEvent, send. cbv zeta. wp_step. eapply H; [by split_and!|].
  destruct (join_all _); [done|]. by destruct canceled.
Qed.

Lemma workers_return_false p : workers_return (V := V) env request (parent p) = false → ∃ s, p (read_end s) = true ∧ endless s.
Proof.
  unfold workers_return, parent, only. rewrite !bool_decide_true by set_solver. cbn [andb].
  intros H. apply andb_false_iff in H as [H|H]; apply orb_false_iff in H as [Hp%negb_false_iff Hr].
  - exists ProcessStdout. split; [done|]. by apply (output_events_spec ProcessStdout).
  - exists ProcessStderr. split; [done|]. by apply (output_events_spec ProcessStderr).
Qed.

Lemma wp_joinWorkers p (Q : option (option error) → run V → Prop) E r :
  (∀ e r', run.actions r' = run.actions r → run.sent r' = run.sent r ++ worker_events env request (parent p) →
     match e with
     | Some _ => ∀ g, g ∈ run.open r' ↔ g ∈ run.open r ∧ (parent p g = false ∨ g ∉ [stdoutRead; stderrRead])
     | None => ∃ s, p (read_end s) = true ∧ endless s
     end → Q e r') →
  wp (joinWorkers env request (parent p)) Q E r.
Proof.
  intros H. unfold joinWorkers, send. wp_step. wp_step. destruct (workers_return _ _ _) eqn:Hw.
  - wp_step. apply wp_close_files. intros e r' [A S] O. wp_step. by apply H.
  - wp_step. apply H; [done|done|]. by apply workers_return_false.
Qed.

Lemma wp_finishOutput_unless (canceled : bool) p (Q : option error → run V → Prop) E r :
  (∀ e r', silent r r' → (∀ g, g ∈ run.open r' → g ∈ run.open r) → Q e r') →
  wp (if canceled then mret None else finishOutput env p : M (run V) (option error)) Q E r.
Proof. intros H. destruct canceled; [wp_step; by apply H|by apply wp_finishOutput]. Qed.

(** Everything that was opened is closed by one of the four closings. *)
Lemma all_closed p (open0 open1 open4 open5 open7 : list file) :
  (∀ f, f ∈ open0 → p f = true) →
  (∀ g, g ∈ open1 ↔ g ∈ open0 ∧ (p g = false ∨ g ∉ [stdinRead; stdoutWrite; stderrWrite])) →
  (∀ g, g ∈ open4 → g ∈ open1 ∧ (parent p g = false ∨ g ∉ [stdoutCapture; stderrCapture])) →
  (∀ g, g ∈ open5 → g ∈ open4 ∧ (parent p stdinWrite = false ∨ g ≠ stdinWrite)) →
  (∀ g, g ∈ open7 → g ∈ open5 ∧ (parent p g = false ∨ g ∉ [stdoutRead; stderrRead])) → open7 = [].
Proof.
  intros Hc O1 O4 O5 O7. apply nothing_open. intros f Hf. apply O7 in Hf as [Hf H7].
  apply O5 in Hf as [Hf H5]. apply O4 in Hf as [Hf H4]. apply O1 in Hf as [Hf H1]. apply Hc in Hf.
  unfold parent, only in H4, H5, H7. rewrite Hf in H1, H4, H7.
  assert (H5' : f = stdinWrite → False) by (intros ->; rewrite Hf in H5; by destruct H5).
  assert (Hout : ∀ (b : bool) (fs : list file), (b = false ∨ f ∉ fs) → b = true → bool_decide (f ∈ fs) = true → False)
    by (intros b fs [->|Hn] ? Hin; [done|apply Hn; by apply bool_decide_eq_true in Hin]).
  destruct f; [apply (Hout _ _ H1)|by apply H5'|apply (Hout _ _ H7)|apply (Hout _ _ H1)|apply (Hout _ _ H4)
    |apply (Hout _ _ H7)|apply (Hout _ _ H1)|apply (Hout _ _ H4)]; reflexivity.
Qed.

Lemma runStarted_spec p r :
  covered p r → run.actions r = [] → wp (runStarted env request p) (started_run p r) (λ _, False) r.
Proof.
  intros Hc Hr. unfold runStarted. cbv zeta. wp_step. apply wp_close_files. intros e1 r1 [A1 S1] O1.
  wp_step. apply wp_sendProcessEvent. intros reported r2 (A2 & S2 & O2) Hrep.
  wp_step. apply awaitProcessCompletion_spec; [congruence|]. intros x r3 S3 O3 Hx.
  destruct x as [[canceled e3]|].
  2: { unfold send. wp_steps. exists reported. split; [done|]. cbn. split.
       - unfold unfinished. cbn. destruct Hx; auto.
       - unfold started_events. by rewrite S3, S2, S1, <- app_assoc. }
  unfold finishProcess.
  wp_step. unfold syncCaptures. wp_step. wp_step. apply wp_close_files. intros e4 r4 [A4 S4] O4.
  wp_step. apply wp_closeProcessFile. intros e5 r5 [A5 S5] O5.
  wp_step. apply wp_finishOutput_unless. intros e6 r6 [A6 S6] O6.
  wp_step. apply wp_joinWorkers. intros e7 r7 A7 S7 O7.
  assert (run.sent r7 = run.sent r ++ started_events p reported) as S17.
  { unfold started_events. by rewrite S7, S6, S5, S4, S3, S2, S1, <- !app_assoc. }
  assert (run.actions r7 = run.actions r3) as A37 by congruence.
  destruct e7 as [e7|].
  2: { wp_step. exists reported. split; [done|]. split; [|done]. unfold unfinished. rewrite A37.
       destruct Hx. do 2 right. by split_and!. }
  wp_step. apply wp_reportCompletion. intros e r8 (A8 & S8 & O8) He. wp_step. exists reported. split; [done|].
  rewrite A8, A37, O8, S8, S17, <- app_assoc. split; [|destruct Hx; split_and!; eauto].
  eapply (all_closed p); [exact Hc|exact O1|intros g Hg|exact (λ g Hg, proj1 (O5 g) Hg)|intros g Hg].
  - apply O4 in Hg as [Hg ?]. split; [rewrite <- O2; by apply O3|done].
  - apply O7 in Hg as [Hg ?]. split; [by apply O6|done].
Qed.

(** *** Which pipes there are *)

Lemma wp_trivial {S A} (m : M S A) s : wp m (λ _ _, True) (λ _, True) s.
Proof. unfold wp. by destruct (m s) as [s' []]. Qed.

Lemma wp_fails {A} p e (Q : A → run V → Prop) r : wp (fail_closing env p e) Q (λ _, True) r.
Proof. unfold fail_closing. wp_step. eapply wp_mono; [apply wp_trivial| |done]. intros c r1 _. by wp_step. Qed.

Lemma prepare_output_pipes p s r :
  wp (prepare_output (V := V) env request p s)
    (λ p' _, p' (read_end s) = has_pipe request (pipe_of s) || p (read_end s) ∧
             ∀ s', s' ≠ s → p' (read_end s') = p (read_end s')) (λ _, True) r.
Proof.
  assert (Hset : ∀ fs, (∀ s', s' ≠ s → read_end s' ∉ fs) →
    ∀ s', s' ≠ s → with_files fs p (read_end s') = p (read_end s')).
  { intros fs Hfs s' Hne. unfold with_files. by rewrite bool_decide_false by auto. }
  unfold prepare_output. destruct (has_pipe request (pipe_of s)).
  - destruct (pipe_fails env (read_end s)); [apply wp_fails|].
    wp_step. apply wp_open_files. intros r1 _ _. wp_step. split.
    + unfold with_files. rewrite bool_decide_true; [done|]. set_solver.
    + apply Hset. by destruct s; intros []; intros ? Hin; rewrite !elem_of_cons, elem_of_nil in Hin; naive_solver.
  - case_bool_decide; [by wp_step|]. wp_step. eapply wp_mono; [apply wp_trivial| |done]. intros _ r1 _. wp_step. split.
    + unfold with_files. rewrite bool_decide_false; [done|]. destruct s; rewrite list_elem_of_singleton; done.
    + apply Hset. intros s' _. by destruct s, s'; rewrite list_elem_of_singleton.
Qed.

(** The pipes of the outputs are those that were asked for. *)
Definition asked_pipes p : Prop := ∀ s, p (read_end s) = has_pipe request (pipe_of s).

Lemma prepareProcess_pipes r :
  wp (prepareProcess (V := V) env request) (λ p _, asked_pipes p) (λ _, True) r.
Proof.
  unfold prepareProcess. wp_step.
  assert (Hin : wp (prepare_input (V := V) env request) (λ p _, ∀ s, p (read_end s) = false) (λ _, True) r).
  { unfold prepare_input. destruct (has_pipe request ProcessPipeStdin); [|wp_step; by intros []].
    destruct (pipe_fails env stdinRead); [done|]. wp_step. apply wp_open_files. intros r1 _ _. wp_step. by intros []. }
  eapply wp_mono; [exact Hin| |done]. intros p r1 Hp. wp_step.
  eapply wp_mono; [apply prepare_output_pipes| |done]. intros p2 r2 [Ho Hn]. wp_step.
  eapply wp_mono; [apply prepare_output_pipes| |done]. intros p3 r3 [He Hn2].
  assert (asked_pipes p3) as H3.
  { intros [].
    - rewrite Hn2 by done. by rewrite Ho, Hp, orb_false_r.
    - by rewrite He, Hn, Hp, orb_false_r by done. }
  destruct (_ && _); [apply wp_fails|].
  wp_step. eapply wp_mono; [apply wp_trivial| |done]. intros _ r4 _.
  wp_step. eapply wp_mono; [apply wp_trivial| |done]. intros _ r5 _. by wp_step.
Qed.

(** *** The end of a run *)

(** The process was not started: the terminal event is the only one. *)
Definition not_started r : Prop :=
  run.open r = [] ∧ run.actions r = [] ∧ ∃ e, run.sent r = [e] ∧ completing (event.Type_ e) = true.

Definition ran p (how : ending) r : Prop := asked_pipes p ∧ started_run p (run.Mk 0 0 [] [] []) how r.

Lemma runProcess_spec :
  wp (runProcess env request) (λ how r, how = Finished ∧ not_started r ∨ ∃ p, ran p how r) (λ _, False)
    (run.Mk 0 0 [] [] []).
Proof.
  set (r0 := run.Mk 0 0 [] [] [] : run V).
  set (Post := λ how r, how = Finished ∧ not_started r ∨ ∃ p, ran p how r).
  assert (Hearly : ∀ e r, silent r0 r → run.open r = [] → completing (event.Type_ e) = true →
    wp (finish_with e) Post (λ _, False) r).
  { intros e r [HA HS] Ho He. unfold finish_with, sendProcessTerminalEvent, send. wp_steps. left. split; [done|].
    split; [done|]. split; [done|]. exists e. cbn. by rewrite HS. }
  unfold runProcess. destruct (validateProcessStartRequest request) as [u|e|t] eqn:Hval; [|by apply Hearly|].
  2: { exfalso. revert Hval. apply returns_not_panic.
       unfold validateProcessStartRequest, validate_output. go_returns. }
  wp_step. unfold wp at 1, ctx_Err. destruct (canceled_at env (run.tests r0)); [by apply Hearly|].
  wp_step. apply wp_attempt; [apply prepareProcess_quiet|].
  eapply wp_mono; [apply wp_and; [by apply prepareProcess_spec|apply prepareProcess_pipes]| |].
  2: { intros r [[Hs Ho] _] e. by apply Hearly. }
  intros p r1 [[H1 Hc] Hp]. wp_step. unfold wp at 1, ctx_Err.
  destruct (canceled_at env (run.tests r1)).
  { wp_step. apply wp_closeAll; [done|]. intros c r2 H2 Ho2. apply Hearly; [by etrans|done|]. by destruct c. }
  destruct (start_fails env) as [e|].
  { wp_step. apply wp_closeAll; [done|]. intros c r2 H2 Ho2. apply Hearly; [by etrans|done|done]. }
  destruct H1 as [A1 S1]. eapply wp_mono; [by apply (runStarted_spec p)| |done].
  intros how r2 H. right. exists p. split; [exact Hp|]. unfold started_run in *. cbn [run.sent] in H. by rewrite S1 in H.
Qed.

(** Every call that a run of these requests waits for returns. *)
Record answered : Prop := {
  select_answers : await env ≠ NeverFirst;
  wait_answers : ∀ acts, group_ended acts → wait_returns env acts = true;
  reads_answer : ∀ s, has_pipe request (pipe_of s) = true → ¬ endless s }.

Lemma answered_finishes p r : answered → asked_pipes p → ¬ unfinished p r.
Proof.
  intros [H1 H2 H3] Hp [[H _]|[[H Hw]|(_ & _ & s & Hs & He)]]; [done|by rewrite H2 in Hw|].
  apply (H3 s); [by rewrite <- Hp|done].
Qed.

(** C18: A run of a process leaves nothing behind, whatever the system calls
    answer and whenever the context ends.  When it comes to its end, every pipe
    and capture file that it opened is closed, and it sent exactly one terminal
    event, as its last.  Either the process was not started, and this is the
    only event; or the whole process group was told to terminate and was then
    seen to be gone or killed, the child was waited for, and the events before
    the terminal one are the start and the outputs of the pipes that were asked
    for; the start is left out only when the context has ended.  The run does not come
    to its end only because neither the child nor the context ends, because Wait does
    not return although the group was killed or seen to be gone, or because the
    reads of a pipe never end although the child was waited for; then no
    terminal event was sent.  So it ends when those calls return. *)
Theorem process_leaves_nothing :
  let r := process_run (V := V) env request in
  ∃ how, runProcess env request (run.Mk 0 0 [] [] []) = (r, Ok how) ∧
  match how with
  | Finished =>
    run.open r = [] ∧
    ∃ notices e, run.sent r = notices ++ [e] ∧ completing (event.Type_ e) = true ∧ Forall open_event notices ∧
      (run.actions r = [] ∧ notices = [] ∨
       group_ended (run.actions r) ∧ Waited ∈ run.actions r ∧
       ∃ p reported, asked_pipes p ∧ (canceled_from env = None → reported = true) ∧ notices = started_events p reported)
  | Blocked =>
    Forall open_event (run.sent r) ∧ ∃ p, asked_pipes p ∧ unfinished p r
  end ∧
  (answered → how = Finished).
Proof.
  pose proof runProcess_spec as H. unfold process_run. unfold wp in H.
  destruct (runProcess env request _) as [r [how|e|t]]; [|done..]. cbn. exists how. split; [done|].
  destruct H as [[-> (Ho & HA & e & HS & He)]|(p & Hp & reported & Hrep & H)].
  - split; [|done]. split; [done|]. exists [], e. split_and!; [done|done|constructor|by left].
  - destruct how; cbn in H.
    + destruct H as (Ho & Hg & Hw & e & HS & He). split; [|done]. split; [done|].
      exists (started_events p reported), e. split_and!; [done|done|apply started_events_open|].
      right. split_and!; [done|done|]. by exists p, reported.
    + destruct H as [Hu HS]. split.
      * rewrite HS. split; [apply started_events_open|by exists p].
      * intros Ha. by destruct (answered_finishes p r Ha Hp).
Qed.

(** ** A run in which nothing fails *)

(** The child exits by itself and leaves no process in its group. *)
Record ordinary : Prop := Ordinary {
  never_canceled : canceled_from env = None;
  outputs_not_canceled : ∀ s, output_canceled (output env s) = None;
  pipes_open : ∀ f, pipe_fails env f = None;
  captures_open : ∀ s, open_fails env s = None ∧ capture_info env s = inr true ∧
                       blocking_fails env s = None ∧ truncate_fails env s = None;
  captures_differ : same_file env = false;
  files_close : ∀ f, close_fails env f = None ∧ sync_fails env f = None ∧ deadline_fails env f = None;
  starts : start_fails env = None;
  waited_first : await env = WaitFirst;
  reads_end : ∀ s, ¬ endless s;
  group_empty : ∀ n, kill_group env n = Some (sentinel_error ESRCH) ∧
                     signal_leader env n = Some (sentinel_error ErrProcessDone) ∧ leader_done env n = true }.

Context (Hord : ordinary).

Lemma close_open_clean f r : wp (close_open (V := V) env f) (λ e _, e = None) (λ _, False) r.
Proof. unfold close_open. wp_steps. case_bool_decide; wp_steps; [apply (files_close Hord)|done]. Qed.

Lemma closeProcessFile_clean p f r : wp (closeProcessFile (V := V) env p f) (λ e _, e = None) (λ _, False) r.
Proof. unfold closeProcessFile. destruct (p f); [apply close_open_clean|by wp_step]. Qed.

Lemma close_files_clean p fs r : wp (close_files (V := V) env p fs) (λ e _, e = None) (λ _, False) r.
Proof.
  assert (H : wp (close_each (V := V) env p fs) (λ es _, omap id es = []) (λ _, False) r).
  { revert r. induction fs as [|f fs IH]; intros r; cbn [close_each]; [by wp_step|].
    wp_step. eapply wp_mono; [apply closeProcessFile_clean| |done]. intros e r1 ->.
    wp_step. eapply wp_mono; [apply IH| |done]. intros es r2 Hes. by wp_step. }
  unfold close_files. wp_step. eapply wp_mono; [exact H| |done]. intros es r1 Hes. wp_step.
  unfold join_all. by rewrite Hes.
Qed.

(** The signal meets an empty group and a process that is done. *)
Lemma signal_clean s r : wp (signalProcessInvocation (V := V) env s) (λ e _, e = None) (λ _, False) r.
Proof.
  unfold signalProcessInvocation. wp_step. apply wp_next_call. intros n r1 _. wp_step. apply wp_act. intros r2 _.
  destruct (group_empty Hord n) as (Hk & _). rewrite Hk.
  wp_step. apply (wp_mono _ (λ e _, e = Some (sentinel_error ESRCH)) _ (λ _, False)); [|intros e r3 ->|done].
  - unfold normalizeProcessGroupSignalError. destruct (target env); [by wp_step|].
    assert (errors_Is (sentinel_error ESRCH) EPERM = false) as -> by reflexivity. by wp_step.
  - assert (errors_Is (sentinel_error ESRCH) ESRCH = true) as -> by reflexivity. cbn [negb]. wp_step. apply wp_next_call. intros n' r4 _. wp_step. apply wp_act. intros r5 _. wp_step.
    destruct (group_empty Hord n') as (_ & Hl & _). by rewrite Hl.
Qed.

Lemma terminateProcess_clean p gracePeriod r :
  wp (terminateProcess (V := V) env p gracePeriod) (λ e _, e = None) (λ _, False) r.
Proof.
  unfold terminateProcess. wp_step. eapply wp_mono; [apply signal_clean| |done]. intros e r1 ->. wp_step.
  assert (H : ∀ r, wp (waitForProcessInvocation (V := V) env gracePeriod) (λ x _, x = (true, None)) (λ _, False) r).
  { intros r2. unfold waitForProcessInvocation.
    destruct (poll_fuel gracePeriod); cbn [poll]; unfold processGroupExists;
      (wp_step; wp_step; apply wp_next_call; intros n2 r3 _; wp_step;
       destruct (group_empty Hord n2) as (-> & _);
       rewrite (eq_refl : errors_Is (sentinel_error ESRCH) EPERM = false), (eq_refl : errors_Is (sentinel_error ESRCH) ESRCH = true);
       wp_step; unfold processWaitCompleted; wp_step;
       apply wp_next_call; intros n3 r4 _; wp_step; destruct (group_empty Hord n3) as (_ & _ & ->);
       wp_step; apply wp_act; intros r5 _; by wp_step). }
  eapply wp_mono; [apply H| |done]. intros x r2 ->. wp_step. wp_step. wp_step.
  eapply wp_mono; [apply close_files_clean| |done]. intros e r3 ->. by wp_step.
Qed.

Lemma wp_or_close_clean {A} p (m : M (run V) A) (Q : A → run V → Prop) r :
  quiet m → wp m Q (λ _, False) r → wp (or_close env request p m) Q (λ _, False) r.
Proof.
  intros Hq H. unfold or_close. wp_step. apply wp_attempt; [done|]. eapply wp_mono; [exact H| |done].
  intros a r' Ha. by wp_step.
Qed.

Lemma openProcessCapture_clean s r : wp (openProcessCapture (V := V) env request s) (λ _ _, True) (λ _, False) r.
Proof.
  unfold openProcessCapture. destruct (captures_open Hord s) as (-> & -> & -> & _).
  wp_step. apply wp_open_files. intros r1 _ _. by wp_step.
Qed.

Lemma truncateProcessCapture_clean p s r :
  wp (truncateProcessCapture (V := V) env request p s) (λ _ _, True) (λ _, False) r.
Proof.
  unfold truncateProcessCapture. destruct (p (capture s)); [|by wp_step].
  destruct (captures_open Hord s) as (_ & _ & _ & ->). by wp_step.
Qed.

Lemma prepare_output_clean p s r : wp (prepare_output (V := V) env request p s) (λ _ _, True) (λ _, False) r.
Proof.
  unfold prepare_output. destruct (has_pipe request (pipe_of s)).
  - rewrite (pipes_open Hord). wp_step. apply wp_open_files. intros r1 _ _. by wp_step.
  - case_bool_decide; [by wp_step|]. wp_step. apply wp_or_close_clean; [apply openProcessCapture_quiet|].
    eapply wp_mono; [apply openProcessCapture_clean| |done]. intros _ r1 _. by wp_step.
Qed.

Lemma prepareProcess_clean r : wp (prepareProcess (V := V) env request) (λ _ _, True) (λ _, False) r.
Proof.
  unfold prepareProcess. wp_step.
  apply (wp_mono _ (λ _ _, True) _ (λ _, False)); [|intros p r1 _|done].
  { unfold prepare_input. destruct (has_pipe request ProcessPipeStdin); [|by wp_step].
    rewrite (pipes_open Hord). wp_step. apply wp_open_files. intros r1 _ _. by wp_step. }
  wp_step. eapply wp_mono; [apply prepare_output_clean| |done]. intros p2 r2 _.
  wp_step. eapply wp_mono; [apply prepare_output_clean| |done]. intros p3 r3 _.
  rewrite (captures_differ Hord), andb_false_r.
  wp_step. apply wp_or_close_clean; [apply truncateProcessCapture_quiet|].
  eapply wp_mono; [apply truncateProcessCapture_clean| |done]. intros _ r4 _.
  wp_step. apply wp_or_close_clean; [apply truncateProcessCapture_quiet|].
  eapply wp_mono; [apply truncateProcessCapture_clean| |done]. intros _ r5 _. by wp_step.
Qed.

(** Files close without an error, and nothing is sent. *)
Lemma close_files_silent p fs r :
  wp (close_files (V := V) env p fs) (λ e r', e = None ∧ silent r r') (λ _, False) r.
Proof.
  eapply wp_mono; [apply wp_and; [apply close_files_clean|apply (wp_close_files _ _ (λ _ r', silent r r') (λ _, False))]|..];
    [by intros|by intros e r' []|by intros r' []].
Qed.

Lemma closeProcessFile_silent p f r :
  wp (closeProcessFile (V := V) env p f) (λ e r', e = None ∧ silent r r') (λ _, False) r.
Proof.
  eapply wp_mono;
    [apply wp_and; [apply closeProcessFile_clean|apply (wp_closeProcessFile _ _ (λ _ r', silent r r') (λ _, False))]|..];
    [by intros|by intros e r' []|by intros r' []].
Qed.

(** The exit that Wait tells. *)
Definition exited (code : Z) (sig : option Z) : PrimitiveEvent V :=
  process_event request PrimitiveEventProcessExited (ProcessExitResult code (default 0 sig)).

Lemma runStarted_clean p r code sig :
  processResult (V := V) env request = inr (ProcessExitResult code (default 0 sig)) →
  wp (runStarted env request p)
    (λ _ r', run.sent r' = run.sent r ++ started_events p true ++ [exited code sig]) (λ _, False) r.
Proof.
  intros Hres. unfold runStarted. cbv zeta. wp_step.
  eapply wp_mono; [apply close_files_silent| |done]. intros e r1 [-> [A1 S1]].
  wp_step. unfold sendProcessEvent. wp_step. unfold wp at 1, ctx_Err, canceled_at. rewrite (never_canceled Hord).
  wp_step. unfold wp at 1, select_or_done, canceled_at. rewrite (never_canceled Hord). cbn [negb orb].
  wp_step. unfold send at 1. wp_step. wp_step. wp_step. unfold awaitProcessCompletion. rewrite (waited_first Hord).
  wp_step. apply wp_act. intros r2 (A2 & S2 & O2). wp_step.
  eapply wp_mono; [apply wp_and; [apply terminateProcess_clean|apply (terminateProcess_spec _ _ (λ _ r', run.sent r' = run.sent r2))]|..];
    [by intros|intros e r3 [-> S3]|by intros r' []].
  wp_step. cbv beta iota. unfold finishProcess, syncCaptures.
  assert (Hsync : ∀ s, sync_capture env (parent p) s = None).
  { intros s. unfold sync_capture. destruct (parent p (capture s)); [|done].
    by destruct (files_close Hord (capture s)) as (_ & -> & _). }
  wp_step. rewrite !Hsync. wp_step. wp_step.
  eapply wp_mono; [apply close_files_silent| |done]. intros e r4 [-> [A4 S4]].
  wp_step.
  eapply wp_mono; [apply closeProcessFile_silent| |done]. intros e r5 [-> [A5 S5]].
  wp_step.
  assert (Hfin : ∀ r, wp (finishOutput (V := V) env (parent p)) (λ e r', e = None ∧ silent r r') (λ _, False) r).
  { intros r'. unfold finishOutput, finishProcessOutput.
    destruct (files_close Hord stdoutRead) as (_ & _ & ->), (files_close Hord stderrRead) as (_ & _ & ->).
    wp_step. destruct (parent p stdoutRead); wp_steps; destruct (parent p stderrRead); by wp_steps. }
  eapply wp_mono; [apply Hfin| |done]. intros e r6 [-> [A6 S6]]. wp_step.
  unfold joinWorkers. wp_step. unfold send at 1. wp_step.
  destruct (workers_return env request (parent p)) eqn:Hw;
    [|apply workers_return_false in Hw as (s & _ & Hs); by destruct (reads_end Hord s)].
  wp_step. eapply wp_mono; [apply close_files_silent| |done]. intros e r7 [-> [A7 S7]]. wp_step.
  wp_step. unfold reportCompletion, sendProcessTerminalEvent, send. cbv zeta. wp_step. rewrite Hres. wp_step. cbn in S2, S7 |- *.
  unfold started_events, exited. rewrite S7. cbn. rewrite S6, S5, S4, S3, S2. cbn. rewrite S1, <- !app_assoc. done.
Qed.

(** The bytes of a stream that events carry. *)
Definition data_of (s : ProcessStream) (e : PrimitiveEvent V) : option bytes :=
  match event.Result e with
  | ProcessOutputResult n _ d => if n =? stream_number s then Some d else None
  | _ => None
  end.

Lemma omap_merge {A B} (f : A → option B) sch l1 l2 :
  omap f l1 = [] ∨ omap f l2 = [] → omap f (merge sch l1 l2) = omap f l1 ++ omap f l2.
Proof.
  revert l1 l2. induction sch as [|first sch IH]; intros l1 l2 H; cbn [merge]; [by rewrite omap_app|].
  assert (Hl2 : ∀ b l2', l2 = b :: l2' → omap f (b :: merge sch l1 l2') = omap f l1 ++ omap f l2).
  { intros b l2' ->. cbn [omap list_omap] in *. destruct (f b) as [c|] eqn:Hb.
    - destruct H as [H|H]; [|done]. rewrite IH by by left. by rewrite H.
    - apply IH. done. }
  assert (Hl1 : ∀ a l1', l1 = a :: l1' → omap f (a :: merge sch l1' l2) = omap f l1 ++ omap f l2).
  { intros a l1' ->. cbn [omap list_omap] in *. destruct (f a) as [c|] eqn:Ha.
    - destruct H as [H|H]; [done|]. cbn [app]. f_equal. apply IH. by right.
    - apply IH. destruct H; [by left|by right]. }
  destruct first, l1 as [|a l1], l2 as [|b l2]; cbn [merge_step]; try done;
    first [by apply Hl1|by apply Hl2].
Qed.

Lemma data_outputs s s' offset l :
  omap (data_of s) (outputs s' offset l) = if decide (s = s') then filter (λ d, d ≠ []) l else [].
Proof.
  revert offset. induction l as [|d l IH]; intros offset; cbn [outputs]; [by destruct (decide _)|].
  case_bool_decide as Hd.
  - rewrite IH. destruct (decide (s = s')); [|done]. by rewrite filter_cons_False by naive_solver.
  - assert (Hone : data_of s (processOutput request s' offset d) = if decide (s = s') then Some d else None)
      by by destruct s, s'.
    cbn [omap list_omap]. rewrite Hone, IH. destruct (decide (s = s')); [by rewrite filter_cons_True|done].
Qed.

Lemma concat_nonempty (l : list bytes) : concat (filter (λ d, d ≠ []) l) = concat l.
Proof.
  induction l as [|d l IH]; [done|]. destruct (decide (d = [])) as [->|Hd].
  - rewrite filter_cons_False by naive_solver. exact IH.
  - rewrite filter_cons_True by done. cbn. by rewrite IH.
Qed.

Lemma data_failure s s' : omap (data_of s) (stream_failure s' (output env s')) = [].
Proof. unfold stream_failure. by repeat case_match. Qed.

(** What a goroutine of an output reports of a stream. *)
Lemma data_output_events s s' :
  concat (omap (data_of s) (output_events env request s')) =
    (if decide (s = s') then concat (reads (output env s)) else []) ∧
  (s ≠ s' → omap (data_of s) (output_events env request s') = []).
Proof.
  destruct (output_events_spec s') as (_ & -> & _); [|by apply (outputs_not_canceled Hord)].
  rewrite omap_app, data_failure, app_nil_r, data_outputs. split.
  - destruct (decide (s = s')) as [->|]; [apply concat_nonempty|done].
  - intros Hne. by rewrite decide_False.
Qed.

(** C20: when nothing fails and the child exits by itself, the run reports its
    start, then outputs, and last its exit code and signal as Wait gave them;
    and the outputs of each piped stream, put together in the order of their
    events, are exactly the bytes that were read from its pipe, including what
    was still buffered when the process had ended. *)
Theorem process_exit_reported code sig :
  validateProcessStartRequest request = Ok tt →
  state (wait env) = Some (code, sig) → from_option fst true (wait_err (wait env)) = true →
  ∃ outs, process_events env request =
      process_event request PrimitiveEventProcessStarted (ProcessStartedResult (PID env)) :: outs ++ [exited code sig] ∧
    ∀ s, has_pipe request (pipe_of s) = true →
      concat (omap (data_of s) outs) = concat (reads (output env s)).
Proof.
  intros Hval Hstate Hexit.
  assert (Hres : processResult (V := V) env request = inr (ProcessExitResult code (default 0 sig))).
  { unfold processResult. rewrite Hstate. destruct (wait_err (wait env)) as [[[] e]|]; done. }
  assert (H : wp (runProcess (V := V) env request)
    (λ _ r', ∃ p, asked_pipes p ∧ run.sent r' = started_events p true ++ [exited code sig]) (λ _, False)
    (run.Mk 0 0 [] [] [])).
  { unfold runProcess. rewrite Hval. wp_step. unfold wp at 1, ctx_Err, canceled_at. rewrite (never_canceled Hord).
    wp_step. apply wp_attempt; [apply prepareProcess_quiet|].
    eapply wp_mono; [apply wp_and; [apply wp_and; [apply prepareProcess_clean|apply prepareProcess_pipes]
                                   |by apply prepareProcess_spec]|..].
    2: { intros r' [[] _]. done. }
    intros p r1 [[_ Hp] [[_ S1] Hc]]. wp_step. unfold wp at 1, ctx_Err, canceled_at. rewrite ?(never_canceled Hord).
    rewrite (starts Hord). eapply wp_mono; [by apply runStarted_clean| |done].
    intros how r2 S2. exists p. split; [done|]. cbn in S2. by rewrite S2, S1. }
  unfold process_events, process_run. unfold wp in H.
  destruct (runProcess env request _) as [r [how|e|t]]; [|done..]. destruct H as (p & Hp & HS).
  exists (worker_events env request (parent p)). split; [exact HS|].
  intros s Hs. unfold worker_events, parent, only. rewrite !bool_decide_true by set_solver. cbn [andb].
  pose proof (Hp ProcessStdout) as Hout. pose proof (Hp ProcessStderr) as Herr. cbn in Hout, Herr. rewrite Hout, Herr.
  destruct (data_output_events s ProcessStdout) as [D1 N1]. destruct (data_output_events s ProcessStderr) as [D2 N2].
  rewrite omap_merge, concat_app.
  - destruct s; cbn in Hs; rewrite Hs.
    + rewrite D1. destruct (has_pipe request ProcessPipeStderr); [rewrite (N2 ltac:(done))|]; cbn; by rewrite app_nil_r.
    + rewrite D2. destruct (has_pipe request ProcessPipeStdout); [rewrite (N1 ltac:(done))|]; done.
  - destruct s; [right; destruct (has_pipe request ProcessPipeStderr)|left; destruct (has_pipe request ProcessPipeStdout)];
      [by apply N2|done|by apply N1|done].
Qed.
End Facts.

(** *** Samples *)

Definition calm_output : output_env :=
  OutputEnv [to_bytes "hello "] (to_bytes "wor") ReadTimeout None [None; Some (to_bytes "ld")] DrainEmpty None (λ _, true).

Definition calm_env : process_env :=
  ProcessEnv Unix (λ _, None) (λ _, None) (λ _, inr true) (λ _, None) (λ _, None) false
    (λ _, None) (λ _, None) (λ _, None) None 4242 (λ _, calm_output) [false; true; true]
    WaitFirst (WaitOutcome (Some (3, None)) (Some (true, errors_New "exit status 3"))) (λ _, true)
    (λ _, Some (sentinel_error ESRCH)) (λ _, Some (sentinel_error ErrProcessDone)) (λ _, true) (λ _, inr false)
    (λ _, 0%nat) None (λ _, true).

Definition piped_request : StartRequest :=
  start.Mk (process.Mk "op" "c1" "/bin/sh" ["-c"; "true"]%string EmptyString EmptyString EmptyString) [] 6.

Lemma calm_ordinary : ordinary calm_env.
Proof. split; try done. by intros s [|[_ ?]]. Qed.

Lemma process_exit_reported_witness :
  ∃ outs : list (PrimitiveEvent unit),
    process_events calm_env piped_request =
      process_event piped_request PrimitiveEventProcessStarted (ProcessStartedResult 4242) ::
      outs ++ [exited piped_request 3 None] ∧
    concat (omap (data_of ProcessStderr) outs) = to_bytes "hello world".
Proof.
  destruct (process_exit_reported (V := unit) calm_env piped_request calm_ordinary 3 None eq_refl eq_refl eq_refl)
    as (outs & H & Hdata).
  exists outs. split; [exact H|]. rewrite (Hdata ProcessStderr eq_refl). vm_compute. reflexivity.
Defined.

(** A process that ignores the signal is killed after the grace period; its
    group is gone only then. *)
Example stubborn_process :
  let env := ProcessEnv Unix (λ _, None) (λ _, None) (λ _, inr true) (λ _, None) (λ _, None) false
    (λ _, None) (λ _, None) (λ _, None) None 7 (λ _, calm_output) []
    (DoneFirst false) (WaitOutcome (Some (-1, Some 9)) (Some (true, errors_New "signal: killed"))) (λ acts, bool_decide (length acts = 2%nat))
    (λ _, None) (λ _, None) (λ _, false) (λ _, inr true) (λ _, 1000%nat) (Some 4%nat) (λ _, true) in
  let r := process_run (V := unit) env piped_request in
  run.actions r = [KilledGroup 7 SIGTERM; KilledGroup 7 SIGKILL; Waited] ∧ run.open r = [] ∧
  event.Type_ <$> last (run.sent r) = Some PrimitiveEventCanceled.
Proof. vm_compute. by split_and!. Qed.

(** The same process when it cannot be killed: the run waits for it for ever. *)
Example unkillable_process :
  let env := ProcessEnv Unix (λ _, None) (λ _, None) (λ _, inr true) (λ _, None) (λ _, None) false
    (λ _, None) (λ _, None) (λ _, None) None 7 (λ _, calm_output) []
    (DoneFirst false) (WaitOutcome None None) (λ _, false)
    (λ _, Some (sentinel_error EPERM)) (λ _, None) (λ _, false) (λ _, inr true) (λ _, 1000%nat) (Some 4%nat) (λ _, true) in
  let '(r, how) := runProcess (V := unit) env piped_request (run.Mk 0 0 [] [] []) in
  how = Ok Blocked ∧ run.actions r = [KilledGroup 7 SIGTERM; KilledGroup 7 SIGKILL] ∧
  forallb (λ e, negb (completing (event.Type_ e))) (run.sent r) = true.
Proof. vm_compute. by split_and!. Qed.

Example same_capture :
  let r := process_run (V := unit)
    (ProcessEnv Darwin (λ _, None) (λ _, None) (λ _, inr true) (λ _, None) (λ _, None) true
      (λ _, None) (λ _, None) (λ _, None) None 7 (λ _, calm_output) [] WaitFirst (WaitOutcome None None) (λ _, true)
      (λ _, None) (λ _, None) (λ _, false) (λ _, inr true) (λ _, 0%nat) None (λ _, true))
    (start.Mk (process.Mk "op" "c1" "/bin/true" [] EmptyString "/tmp/a" "/tmp/b") [] 0) in
  run.actions r = [] ∧ run.open r = [] ∧ length (run.sent r) = 1%nat.
Proof. vm_compute. by split_and!. Qed.

(** ** Control

    A control request is canceled by its own context only: not by that of the
    process, and not by a start that was canceled. *)
Lemma control_canceled_own {V : Type} env (q : control.Request) (PropagateToChildren : bool) :
  (∀ e, group_exists env = inl e → errors_Is e ErrCanceled = false) →
  event.Type_ (signal_process (V := V) env q PropagateToChildren) = PrimitiveEventCanceled ↔
  ready env = false ∨ control_ended env = true.
Proof.
  intros Hg. unfold signal_process, prepareControl.
  destruct (ready env) eqn:Hr; cbn [negb]; [|split; [by left|done]].
  destruct (control_ended env) eqn:He; [split; [by right|done]|].
  split; [|by intros []]. intros H. exfalso. revert H.
  destruct (start_err env) as [e|]; [done|]. destruct (process_ended env); [done|].
  destruct PropagateToChildren.
  - destruct (group_exists env) as [e|[]] eqn:Hge; [| |done].
    + unfold processControlFailure. change (errors_Is (Errorf_w _ e) ErrCanceled) with (errors_Is e ErrCanceled).
      by rewrite (Hg e eq_refl).
    + by destruct (signal_result env).
  - destruct (wait_completed env); [done|]. by destruct (signal_result env).
Qed.
