(* ===== verification/Operation.v ===== *)
(** * Operations: durable values, specifications and steps

    harness/operation/operation.go and value.go, with the JSON encoding of
    the records that other packages store. *)

From Stdlib Require Import Ascii ZArith Lia.
From S2P Require Import Prelude GoStrings GoText Json JsonFacts JsonCodec Primitives.

Local Open Scope Z_scope.

(** ** Types and statuses *)

Definition Type_ : Set := string.
Definition Version : Set := Z.           (* uint32 *)
Definition ID : Set := string.
Definition Status : Set := string.

Definition StatusReady : Status := "ready".
Definition StatusAwaiting : Status := "awaiting".
Definition StatusCanceling : Status := "canceling".
Definition StatusCompleted : Status := "completed".
Definition StatusFailed : Status := "failed".
Definition StatusCanceled : Status := "canceled".

Definition TypeValue : Type_ := "value".
Definition VersionValue : Version := 1.

(** errors that wrap [ErrUnsupported] with the verb %w *)
Definition unsupported (text : string) : error :=
  Errorf_w (text +:+ ": ") (sentinel_error ErrUnsupported).

Module spec.
Record Spec : Type := Mk {
  MaxOutputLength : Z; Type' : Type_; Version' : Version;
  State : value; Idempotency : value }.
End spec.
Abbreviation Spec := spec.Spec.

Module op.
Record Operation : Type := Mk {
  MaxOutputLength : Z; ID' : ID; Type' : Type_; Version' : Version;
  Status' : Status; State : value; Idempotency : value }.

Definition set_status (s : Status) (o : Operation) : Operation :=
  Mk (MaxOutputLength o) (ID' o) (Type' o) (Version' o) s (State o) (Idempotency o).
Definition set_state (v : value) (o : Operation) : Operation :=
  Mk (MaxOutputLength o) (ID' o) (Type' o) (Version' o) (Status' o) v (Idempotency o).
Definition set_idempotency (v : value) (o : Operation) : Operation :=
  Mk (MaxOutputLength o) (ID' o) (Type' o) (Version' o) (Status' o) (State o) v.
End op.
Abbreviation Operation := op.Operation.

#[export] Instance Spec_eq_dec : EqDecision Spec.
Proof. solve_decision. Defined.
#[export] Instance Operation_eq_dec : EqDecision Operation.
Proof. solve_decision. Defined.

(** The two updates keep everything else: what a step may not touch. *)
Definition same_identity (o o' : Operation) : Prop :=
  op.MaxOutputLength o' = op.MaxOutputLength o ∧ op.ID' o' = op.ID' o ∧ op.Type' o' = op.Type' o ∧
  op.Version' o' = op.Version' o ∧ op.Idempotency o' = op.Idempotency o.

#[export] Instance same_identity_refl : Reflexive same_identity.
Proof. by intros o. Qed.
#[export] Instance same_identity_trans : Transitive same_identity.
Proof. unfold same_identity. intros a b c. naive_solver congruence. Qed.

Lemma same_identity_set v s o : same_identity o (op.set_state v (op.set_status s o)).
Proof. by repeat split. Qed.

(** ** Encoding *)

Definition Spec_fields (s : Spec) : list field_enc :=
  [field_omit int64_codec "MaxOutputLength" (spec.MaxOutputLength s =? 0) (spec.MaxOutputLength s);
   field string_codec "Type" (spec.Type' s);
   field uint32_codec "Version" (spec.Version' s);
   field_omit value_codec "State" (is_nil (spec.State s)) (spec.State s);
   field_omit value_codec "Idempotency" (is_nil (spec.Idempotency s)) (spec.Idempotency s)].

#[local] Unset Program Cases.

Program Definition Spec_codec : codec Spec := {|
  zero := spec.Mk 0 EmptyString 0 VNil VNil;
  enc s := enc_struct (Spec_fields s);
  dec := dec_struct (spec.Mk 0 EmptyString 0 VNil VNil) (λ o,
    m ← get int64_codec "MaxOutputLength" o;
    t ← get string_codec "Type" o;
    v ← get uint32_codec "Version" o;
    s ← get value_codec "State" o;
    i ← get value_codec "Idempotency" o;
    Some (spec.Mk m t v s i));
  jok s := in_int64 (spec.MaxOutputLength s) = true ∧ in_uint32 (spec.Version' s) = true |}.
Next Obligation.
  intros [m t v s i] j [Hm Hv]. simpl in Hm, Hv. struct_dec.
Qed.
Next Obligation. intros [m t v s i] j. struct_enc_ok. Qed.
#[export] Instance Spec_total : Total Spec_codec.
Proof.
  constructor.
  - struct_zero.
  - struct_total.
Qed.

Definition Operation_fields (o : Operation) : list field_enc :=
  [field_omit int64_codec "MaxOutputLength" (op.MaxOutputLength o =? 0) (op.MaxOutputLength o);
   field string_codec "ID" (op.ID' o);
   field string_codec "Type" (op.Type' o);
   field uint32_codec "Version" (op.Version' o);
   field string_codec "Status" (op.Status' o);
   field_omit value_codec "State" (is_nil (op.State o)) (op.State o);
   field_omit value_codec "Idempotency" (is_nil (op.Idempotency o)) (op.Idempotency o)].

Program Definition Operation_codec : codec Operation := {|
  zero := op.Mk 0 EmptyString EmptyString 0 EmptyString VNil VNil;
  enc o := enc_struct (Operation_fields o);
  dec := dec_struct (op.Mk 0 EmptyString EmptyString 0 EmptyString VNil VNil) (λ o,
    m ← get int64_codec "MaxOutputLength" o;
    n ← get string_codec "ID" o;
    t ← get string_codec "Type" o;
    v ← get uint32_codec "Version" o;
    u ← get string_codec "Status" o;
    s ← get value_codec "State" o;
    i ← get value_codec "Idempotency" o;
    Some (op.Mk m n t v u s i));
  jok o := in_int64 (op.MaxOutputLength o) = true ∧ in_uint32 (op.Version' o) = true |}.
Next Obligation.
  intros [m n t v u s i] j [Hm Hv]. simpl in Hm, Hv. struct_dec.
Qed.
Next Obligation. intros [m n t v u s i] j. struct_enc_ok. Qed.
#[export] Instance Operation_total : Total Operation_codec.
Proof.
  constructor.
  - struct_zero.
  - struct_total.
Qed.

(** ** Primitive dispatches and steps

    The results and the callbacks of compute are those of the view-image
    operation, the one operation that computes. *)

(** A float64 is carried as the JSON number it is written as. *)
Definition float64 : Type := json.

Definition is_number (j : json) : bool :=
  match j with JInt _ | JFloat _ => true | _ => false end.

Module vconfig.
Record ViewImageConfig : Set := Mk {
  MaxSize : Z; MaxHeight : Z; MaxWidth : Z; MaxSourcePixels : Z }.
End vconfig.
Abbreviation ViewImageConfig := vconfig.ViewImageConfig.

Module vresult.
Record ViewImageResult : Type := Mk {
  Content : string; OriginalWidth : Z; OriginalHeight : Z;
  OriginalMIMEType : string; EncodedMIMEType : string;
  ScaleRatio : float64; Error : string }.
End vresult.
Abbreviation ViewImageResult := vresult.ViewImageResult.

(** The values a callback returns: an image result, or another type. *)
Inductive ComputeValue : Type :=
  | ValueViewImageResult (r : ViewImageResult)
  | ValueOther (type_name : string).

(** The closure that [ViewImage.process] dispatches, by what it captures. *)
Module vclosure.
Record Closure : Type := Mk {
  chunks : list bytes; config : ViewImageConfig; cause : option error }.
End vclosure.

Abbreviation Event := (PrimitiveEvent ComputeValue).

Inductive DispatchData : Type :=
  | DataIOCreate (r : IOCreateRequest)
  | DataIORead (r : IOReadRequest)
  | DataProcessStart (r : ProcessStartRequest)
  | DataCompute (r : ComputeRequest vclosure.Closure)
  | DataOther (type_name : string).

Module dispatch.
Record PrimitiveDispatch : Type := Mk { Type' : PrimitiveDispatchType; Data : DispatchData }.
End dispatch.
Abbreviation PrimitiveDispatch := dispatch.PrimitiveDispatch.

Module step.
Record Step : Type := Mk { Operation : option Operation.Operation; Dispatches : list PrimitiveDispatch }.
End step.
Abbreviation Step := step.Step.

Definition checkpoint_step (o : Operation) : Step := step.Mk (Some o) [].

(** ** Value operations: value.go *)

Program Definition ValueState_codec : codec value := {|
  zero := VNil;
  enc v := enc_struct [field value_codec "Value" v];
  dec := dec_struct VNil (λ o, v ← get value_codec "Value" o; Some v);
  jok v := v ≠ VNil |}.
Next Obligation. intros v j Hv. struct_dec. Qed.
Next Obligation. intros v j. struct_enc_ok. Qed.
#[export] Instance ValueState_total : Total ValueState_codec.
Proof.
  constructor.
  - struct_zero.
  - struct_total.
Qed.

Definition NewValueSpec (v : value) : result Spec :=
  if value_empty v || negb (IsValid v) then
    Err (errors_New "value operation result must be valid JSON")
  else
    encoded ← map_err (Errorf_w "encode value operation state: ") (Marshal ValueState_codec v);
    Ok (spec.Mk 0 TypeValue VersionValue encoded VNil).

Definition DecodeValue (current : Operation) : result value :=
  let prefix := "decode value operation " +:+ quote (op.ID' current) in
  if negb (bool_decide (op.Type' current = TypeValue)) then
    Err (unsupported (prefix +:+ ": type " +:+ quote (op.Type' current)))
  else if negb (op.Version' current =? VersionValue) then
    Err (unsupported (prefix +:+ ": version " +:+ Itoa (op.Version' current)))
  else
    v ← map_err (Errorf_w (prefix +:+ " state: ")) (Unmarshal ValueState_codec (op.State current));
    if value_empty v || negb (IsValid v) then
      Err (errors_New (prefix +:+ " state: result must be valid JSON"))
    else Ok v.

Definition AdvanceValue (current : Operation) (event : option Event) : result Step :=
  _ ← DecodeValue current;
  match event with
  | Some _ => Err (errors_New ("advance value operation " +:+ quote (op.ID' current)
                                 +:+ ": unexpected primitive event"))
  | None =>
    if bool_decide (op.Status' current = StatusReady) then
      Ok (checkpoint_step (op.set_status StatusCompleted current))
    else if bool_decide (op.Status' current = StatusCanceling) then
      Ok (checkpoint_step (op.set_status StatusCanceled current))
    else Err (unsupported ("advance value operation " +:+ quote (op.ID' current)
                             +:+ ": status " +:+ quote (op.Status' current)))
  end.

(** [Operation] made from a specification: what the callers of the
    constructors do with it. *)
Definition new_operation (id : ID) (s : Spec) : Operation :=
  op.Mk (spec.MaxOutputLength s) id (spec.Type' s) (spec.Version' s) StatusReady
    (spec.State s) (spec.Idempotency s).

(** A value survives its operation: decoding the operation made from the
    specification of a value returns the value, and the operation completes
    in one step that changes its status only and starts nothing. *)
Theorem value_operation_roundtrip v s id :
  NewValueSpec v = Ok s →
  DecodeValue (new_operation id s) = Ok v ∧
  AdvanceValue (new_operation id s) None
  = Ok (checkpoint_step (op.set_status StatusCompleted (new_operation id s))).
Proof.
  unfold NewValueSpec. destruct (value_empty v || negb (IsValid v)) eqn:Ev; [done|].
  autorewrite with go_ok. intros (j & Hj & [= <-]). apply map_err_ok in Hj.
  assert (DecodeValue (new_operation id (spec.Mk 0 TypeValue VersionValue j VNil)) = Ok v) as Hd.
  { unfold DecodeValue. simpl.
    rewrite (Unmarshal_Marshal ValueState_codec v j) by (simpl; by destruct v). simpl.
    by rewrite Ev. }
  split; [done|]. unfold AdvanceValue. by rewrite Hd.
Qed.

Lemma value_operation_roundtrip_witness :
  NewValueSpec (VText (JInt 7)) = Ok (spec.Mk 0 TypeValue VersionValue
      (VText (JObj [("Value", JInt 7)])) VNil) ∧
  DecodeValue (new_operation "op" (spec.Mk 0 TypeValue VersionValue
      (VText (JObj [("Value", JInt 7)])) VNil)) = Ok (VText (JInt 7)).
Proof.
  split; [vm_compute; reflexivity|].
  apply (value_operation_roundtrip (VText (JInt 7)) _ "op"). vm_compute. reflexivity.
Defined.
