(* ===== verification/TextFacts.v ===== *)
(** * Texts that are valid UTF-8

    The texts the program builds (numbers, quoted names, messages) are valid
    UTF-8 when their parts are, so that the records that hold them can be
    encoded. *)

From Stdlib Require Import Ascii ZArith Lia.
From S2P Require Import Prelude GoStrings GoText Utf8Facts Json.

Local Open Scope Z_scope.

Lemma ascii_valid s :
  forallb (λ c, byte_val c <? 0x80) (to_bytes s) = true → utf8.Valid (to_bytes s) = true.
Proof.
  rewrite forallb_Forall. intros H. apply ascii_chunks.
  eapply Forall_impl; [done|]. simpl. intros c. lia.
Qed.

Lemma string_ok_app s t : string_ok s = true → string_ok t = true → string_ok (s +:+ t) = true.
Proof. unfold string_ok. rewrite to_bytes_app. apply Valid_app. Qed.

Definition ascii_text (s : string) : Prop := Forall (λ c, byte_val c < 0x80) (to_bytes s).

Lemma ascii_text_ok s : ascii_text s → string_ok s = true.
Proof. intros H. by apply ascii_chunks. Qed.

Lemma pretty_N_char_ascii n : byte_val (pretty_N_char n) < 0x80.
Proof. unfold pretty_N_char. by repeat case_match. Qed.

Lemma pretty_N_go_ascii x s : ascii_text s → ascii_text (pretty_N_go x s).
Proof.
  revert s. induction (N.lt_wf_0 x) as [x _ IH]. intros s Hs.
  destruct (decide (x = 0)%N) as [->|]; [by rewrite pretty_N_go_0|].
  rewrite pretty_N_go_step by lia. apply IH; [apply N.div_lt; lia|].
  constructor; [apply pretty_N_char_ascii|done].
Qed.

Lemma Itoa_ascii z : ascii_text (Itoa z).
Proof.
  assert (∀ n : N, ascii_text (pretty n)) as Hn.
  { intros n. unfold pretty, pretty_N. case_decide; [by repeat constructor|].
    apply pretty_N_go_ascii. constructor. }
  destruct z as [|p|p]; [by repeat constructor|apply (Hn (Npos p))|].
  change (ascii_text (String "-" (pretty (Npos p)))). constructor; [done|apply Hn].
Qed.


Create HintDb text discriminated.

Lemma Itoa_ok z : string_ok (Itoa z) = true.
Proof. apply ascii_text_ok, Itoa_ascii. Qed.

(** ** Quoted texts *)

Lemma hex_digit_ascii z : 0 ≤ z < 16 → byte_val (GoText.hex_digit z) < 0x80.
Proof.
  intros Hz. unfold GoText.hex_digit. rewrite byte_val_byte; destruct (Z.ltb_spec z 10); lia.
Qed.

Lemma Valid_ascii p : Forall (λ c, byte_val c < 0x80) p → utf8.Valid p = true.
Proof. intros H. by apply ascii_chunks. Qed.

Lemma Valid_chunk c : is_chunk c → utf8.valid_chunk c = true → utf8.Valid c = true.
Proof.
  intros [Hne Hs] Hv. unfold utf8.Valid. rewrite chunks_cons by done.
  rewrite Hs, take_ge, drop_ge, chunks_nil by lia. simpl. by rewrite Hv.
Qed.

Lemma DecodeRune_nonneg p : 0 ≤ fst (utf8.DecodeRune p).
Proof.
  unfold utf8.DecodeRune, utf8.RuneError.
  repeat case_match; cbn [fst]; try lia;
    rewrite ?Z.lor_nonneg, ?Z.shiftl_nonneg, ?Z.land_nonneg;
    repeat match goal with |- context [byte_val ?c] => pose proof (byte_val_range c); generalize dependent (byte_val c); intros end;
    try lia.
Qed.

Lemma quote_chunk_valid c : is_chunk c → utf8.Valid (quote_chunk c) = true.
Proof.
  intros Hc. unfold quote_chunk.
  destruct (utf8.DecodeRune c) as [r size] eqn:Ed.
  destruct ((r =? utf8.RuneError) && Nat.eqb size 1) eqn:Ee.
  - apply Valid_ascii.
    set (v := match c with b :: _ => byte_val b | [] => 0 end).
    assert (0 ≤ v < 256) as Hv by (unfold v; destruct c; [lia|apply byte_val_range]).
    repeat constructor; try done; apply hex_digit_ascii; Z.to_euclidean_division_equations; lia.
  - destruct ((r =? 34) || (r =? 92)) eqn:E1.
    { apply Valid_ascii. repeat constructor. apply orb_true_iff in E1 as [->%Z.eqb_eq| ->%Z.eqb_eq]; done. }
    destruct ((0x80 <=? r) || utf8.between 0x20 0x7E r) eqn:E2.
    { apply Valid_chunk; [done|]. unfold utf8.valid_chunk. by rewrite Ed, Ee. }
    repeat (case_match; [apply Valid_ascii; by repeat constructor|]).
    apply Valid_ascii. apply orb_false_iff in E2 as [E2%Z.leb_gt _].
    destruct (decide (0 ≤ r)) as [Hr|Hr].
    + repeat constructor; try done; apply hex_digit_ascii; Z.to_euclidean_division_equations; lia.
    + pose proof (DecodeRune_nonneg c) as Hn. rewrite Ed in Hn. simpl in Hn. lia.
Qed.

Lemma quote_ok s : string_ok (quote s) = true.
Proof.
  unfold string_ok, quote. rewrite to_bytes_string.
  change ("034"%char :: ?x ++ ?y) with (["034"%char] ++ x ++ y).
  apply Valid_app; [by vm_compute|]. apply Valid_app; [|by vm_compute].
  pose proof (chunks_is_chunk (to_bytes s)) as Hall.
  induction Hall as [|c cs Hc _ IH]; [by vm_compute|]. simpl.
  apply Valid_app; [by apply quote_chunk_valid|done].
Qed.

#[export] Hint Resolve Itoa_ok quote_ok : text.

(** Proves that a text built from literals, numbers and quoted names is
    valid UTF-8. *)
Ltac text_ok :=
  repeat lazymatch goal with
    | |- string_ok (quote _) = true => exact (quote_ok _)
    | |- string_ok (Itoa _) = true => exact (Itoa_ok _)
    | |- string_ok (_ +:+ _) = true => apply string_ok_app
    | |- string_ok ?s = true => first [assumption | is_ground s; vm_compute; reflexivity | solve [auto with text nocore]]
    end.

(** ** Trimming *)

Lemma trim_left_drop l : ∃ n, trim_left l = drop n l.
Proof.
  induction l as [|c l [n IH]]; [by exists 0%nat|]. simpl.
  destruct (space_chunk c); [by exists (S n)|by exists 0%nat].
Qed.

Lemma trim_left_head l : trim_left l = [] ∨ ∃ c rest, trim_left l = c :: rest ∧ space_chunk c = false.
Proof. induction l as [|c l IH]; [by left|]. simpl. destruct (space_chunk c) eqn:E; [done|]. right. eauto. Qed.

Lemma trim_left_done c rest : space_chunk c = false → trim_left (c :: rest) = c :: rest.
Proof. intros H. simpl. by rewrite H. Qed.

Definition trim_right (l : list bytes) : list bytes := reverse (trim_left (reverse l)).

Lemma trim_right_take l : ∃ n, trim_right l = take n l.
Proof.
  unfold trim_right. destruct (trim_left_drop (reverse l)) as [n Hn]. eexists.
  by rewrite Hn, reverse_drop, reverse_involutive.
Qed.

Lemma trim_right_idem l : trim_right (trim_right l) = trim_right l.
Proof.
  unfold trim_right. rewrite reverse_involutive. f_equal.
  destruct (trim_left_head (reverse l)) as [->|(c & rest & -> & H)]; [done|]. by apply trim_left_done.
Qed.

(** Trimming on the right leaves what was trimmed on the left. *)
Lemma trim_left_right l : trim_left (trim_right (trim_left l)) = trim_right (trim_left l).
Proof.
  destruct (trim_right_take (trim_left l)) as [n ->].
  destruct (trim_left_head l) as [->|(c & rest & -> & H)]; [by destruct n|].
  destruct n; [done|]. by apply trim_left_done.
Qed.

Definition trimmed_chunks (s : string) : list bytes := trim_right (trim_left (utf8.chunks (to_bytes s))).

Lemma TrimSpace_chunks s : utf8.chunks (to_bytes (TrimSpace s)) = trimmed_chunks s.
Proof.
  unfold TrimSpace. rewrite to_bytes_string. fold (trim_right (trim_left (utf8.chunks (to_bytes s)))).
  unfold trimmed_chunks. destruct (trim_left_drop (utf8.chunks (to_bytes s))) as [n ->].
  destruct (trim_right_take (drop n (utf8.chunks (to_bytes s)))) as [m ->].
  rewrite <- (chunks_drop n (to_bytes s)) at 1. rewrite chunks_take, chunks_drop. done.
Qed.

Lemma TrimSpace_idem s : TrimSpace (TrimSpace s) = TrimSpace s.
Proof.
  unfold TrimSpace at 1. rewrite TrimSpace_chunks.
  fold (trim_right (trim_left (trimmed_chunks s))). unfold trimmed_chunks at 1.
  rewrite trim_left_right, trim_right_idem. done.
Qed.

Lemma TrimSpace_ok s : string_ok s = true → string_ok (TrimSpace s) = true.
Proof.
  unfold string_ok. intros Hs. unfold utf8.Valid. rewrite TrimSpace_chunks. unfold trimmed_chunks.
  destruct (trim_left_drop (utf8.chunks (to_bytes s))) as [n ->].
  destruct (trim_right_take (drop n (utf8.chunks (to_bytes s)))) as [m ->].
  unfold utf8.Valid in Hs. rewrite forallb_Forall in Hs |- *. by apply Forall_take, Forall_drop.
Qed.
