(* ===== verification/Output.v ===== *)
(** * Bounding a text: operation/output.go

    [boundOutput] keeps the first and the last runes of a text that has more
    runes than its limit.  The facts at the end are about the two windows that
    a shell operation captures of a long output: bounding the windows is
    bounding the whole output. *)

From Stdlib Require Import Ascii ZArith Lia.
From S2P Require Import Prelude GoStrings GoText Utf8Facts Json JsonCodec TextFacts.

Local Open Scope Z_scope.

Definition DefaultMaxOutputLength : Z := 40000.
Definition MaxOutputLength : Z := 1000000.

(** [string([]rune(text))] *)
Definition sanitizeUTF8 (text : bytes) : bytes := concat (utf8.EncodeRune <$> utf8.runes text).

(** The two loops of [outputPart]; a round lowers [limit] by one, so the fuel
    is the limit. *)
Fixpoint head_loop (fuel : nat) (text : bytes) (end_ : nat) : nat :=
  match fuel with
  | O => end_
  | S limit =>
    if (end_ <? length text)%nat then
      head_loop limit text (end_ + snd (utf8.DecodeRune (drop end_ text)))
    else end_
  end.

Fixpoint tail_loop (fuel : nat) (text : bytes) (start : nat) : nat :=
  match fuel with
  | O => start
  | S limit =>
    if (0 <? start)%nat then
      tail_loop limit text (start - snd (utf8.DecodeLastRune (take start text)))
    else start
  end.

Definition outputPart (text : bytes) (limit : Z) (tail : bool) : bytes * Z :=
  if tail then
    let start := tail_loop (Z.to_nat limit) text (length text) in
    (sanitizeUTF8 (drop start text), len text - Z.of_nat start)
  else
    let end_ := head_loop (Z.to_nat limit) text 0 in
    (sanitizeUTF8 (take end_ text), Z.of_nat end_).

Definition marker (skipped : Z) (path : string) : string :=
  "..." +:+ Itoa skipped +:+ " bytes truncated"
    +:+ (if bool_decide (path = EmptyString) then EmptyString
         else "; complete output in " +:+ path) +:+ "...".

Definition boundOutput (head tail : bytes) (fullSize limit : Z) (path : string)
  : result (string * bool) :=
  let limit := Z.max 0 limit in
  let truncated (tail : bytes) :=
    let '(head, headSize) := outputPart head (limit / 2) false in
    let '(tail, tailSize) := outputPart tail (limit - limit / 2) true in
    let skipped := fullSize - (headSize + tailSize) in
    Ok (to_string (head ++ to_bytes (marker skipped path) ++ tail), true) in
  match tail with
  | [] =>
    if negb (fullSize =? len head) then
      Panic "bound output: empty tail requires the complete output in head"
    else if utf8.RuneCount head <=? limit then Ok (to_string (sanitizeUTF8 head), false)
    else truncated head
  | _ :: _ => truncated tail
  end.

(** [BoundOutput] does not panic: it passes the size of its text. *)
Definition BoundOutput (text : string) (limit : Z) : string * bool :=
  match boundOutput (to_bytes text) [] (slen text) limit EmptyString with
  | Ok r => r
  | _ => (EmptyString, false)
  end.

(** ** What the loops reach *)

Definition first_runes (n : nat) (p : bytes) : bytes := concat (take n (utf8.chunks p)).
Definition last_runes (n : nat) (p : bytes) : bytes :=
  concat (drop (length (utf8.chunks p) - n) (utf8.chunks p)).

Lemma length_concat_take n (p : bytes) :
  take (length (first_runes n p)) p = first_runes n p.
Proof.
  rewrite <- (concat_chunks p) at 2. unfold first_runes.
  rewrite <- (take_drop n (utf8.chunks p)) at 2. rewrite concat_app.
  by rewrite take_app_length.
Qed.

Lemma drop_first_runes n (p : bytes) :
  drop (length (first_runes n p)) p = concat (drop n (utf8.chunks p)).
Proof.
  rewrite <- (concat_chunks p) at 2. unfold first_runes.
  rewrite <- (take_drop n (utf8.chunks p)) at 2. rewrite concat_app.
  by rewrite drop_app_length.
Qed.

Lemma chunks_length (p : bytes) : (length (utf8.chunks p) ≤ length p)%nat.
Proof.
  induction p as [|p Hp IH] using chunks_ind; [done|].
  rewrite chunks_cons by done. simpl. rewrite length_drop in IH.
  pose proof (DecodeRune_size p Hp). lia.
Qed.

Lemma head_loop_from n p end_ :
  (end_ ≤ length p)%nat →
  head_loop n p end_ = (end_ + length (first_runes n (drop end_ p)))%nat.
Proof.
  revert end_. induction n as [|n IH]; intros end_ Hle; cbn [head_loop].
  { unfold first_runes. rewrite take_0. simpl. lia. }
  destruct (Nat.ltb_spec end_ (length p)) as [Hlt|Hge].
  - assert (drop end_ p ≠ []) as Hne.
    { intros H%(f_equal length). rewrite length_drop in H. simpl in H. lia. }
    pose proof (DecodeRune_size _ Hne) as [Hs Hl]. rewrite length_drop in Hl.
    rewrite IH by lia. unfold first_runes.
    rewrite (chunks_cons (drop end_ p)) by done. simpl.
    rewrite length_app, length_take, length_drop, drop_drop. lia.
  - rewrite drop_ge by done. unfold first_runes. rewrite chunks_nil, take_nil. simpl. lia.
Qed.

Lemma head_loop_spec n p : head_loop n p 0 = length (first_runes n p).
Proof. rewrite head_loop_from by lia. by rewrite drop_0. Qed.

Lemma tail_loop_from n p m :
  tail_loop n p (length (first_runes m p)) = length (first_runes (Nat.min m (length (utf8.chunks p)) - n) p).
Proof.
  revert m. induction n as [|n IH]; intros m; cbn [tail_loop].
  { f_equal. unfold first_runes. f_equal. rewrite Nat.sub_0_r.
    destruct (Nat.le_gt_cases m (length (utf8.chunks p))); [by rewrite Nat.min_l|].
    rewrite Nat.min_r by lia. by rewrite !take_ge by lia. }
  rewrite length_concat_take.
  destruct (decide (Nat.min m (length (utf8.chunks p)) = 0%nat)) as [H0|Hn0].
  { assert (first_runes m p = []) as ->.
    { unfold first_runes. destruct m; [done|]. by rewrite (nil_length_inv (utf8.chunks p)) by lia. }
    simpl. rewrite H0. done. }
  destruct (Nat.min m (length (utf8.chunks p))) as [|k] eqn:Ek; [done|].
  assert (first_runes m p = first_runes (S k) p) as ->.
  { unfold first_runes. f_equal.
    destruct (Nat.le_gt_cases m (length (utf8.chunks p))); [f_equal; lia|].
    by rewrite !take_ge by lia. }
  destruct (lookup_lt_is_Some_2 (utf8.chunks p) k) as [c Hc]; [lia|].
  assert (first_runes (S k) p = first_runes k p ++ c) as Hsplit.
  { unfold first_runes. rewrite (take_S_r _ _ c) by done.
    rewrite concat_app. simpl. by rewrite app_nil_r. }
  assert (is_chunk c) as Hchunk.
  { pose proof (chunks_is_chunk p) as H. rewrite Forall_lookup in H. by eapply H. }
  assert (snd (utf8.DecodeLastRune (first_runes (S k) p)) = length c) as ->.
  { apply (DecodeLastRune_chunk _ (take k (utf8.chunks p))).
    unfold first_runes. by rewrite chunks_take, (take_S_r _ _ c). }
  rewrite Hsplit, length_app. destruct (is_chunk_length c Hchunk).
  rewrite (proj2 (Nat.ltb_lt _ _)) by lia.
  replace (length (first_runes k p) + length c - length c)%nat with (length (first_runes k p)) by lia.
  rewrite IH. f_equal. unfold first_runes. f_equal. f_equal. lia.
Qed.

Lemma first_runes_all p : first_runes (length (utf8.chunks p)) p = p.
Proof. unfold first_runes. by rewrite firstn_all, concat_chunks. Qed.

Lemma tail_loop_spec n p :
  tail_loop n p (length p) = length (first_runes (length (utf8.chunks p) - n) p).
Proof.
  rewrite <- (first_runes_all p) at 2. rewrite tail_loop_from.
  f_equal. f_equal. lia.
Qed.

Lemma outputPart_head p limit :
  outputPart p limit false
  = (sanitizeUTF8 (first_runes (Z.to_nat limit) p), len (first_runes (Z.to_nat limit) p)).
Proof. unfold outputPart. by rewrite head_loop_spec, length_concat_take. Qed.

Lemma outputPart_tail p limit :
  outputPart p limit true
  = (sanitizeUTF8 (last_runes (Z.to_nat limit) p), len (last_runes (Z.to_nat limit) p)).
Proof.
  unfold outputPart. rewrite tail_loop_spec, drop_first_runes. f_equal.
  fold (last_runes (Z.to_nat limit) p).
  assert (length p = length (first_runes (length (utf8.chunks p) - Z.to_nat limit) p)
                     + length (last_runes (Z.to_nat limit) p))%nat.
  { rewrite <- length_app. unfold first_runes, last_runes.
    by rewrite <- concat_app, take_drop, concat_chunks. }
  unfold len. lia.
Qed.

(** ** What [boundOutput] promises *)

#[global] Arguments outputPart : simpl never.

Lemma sanitize_valid p : utf8.Valid (sanitizeUTF8 p) = true.
Proof. apply Valid_encode. Qed.

Lemma sanitize_id p : utf8.Valid p = true → sanitizeUTF8 p = p.
Proof. apply encode_runes_valid. Qed.

(** The outcome for a whole text. *)
Lemma boundOutput_whole text limit path :
  boundOutput text [] (len text) limit path =
  if utf8.RuneCount text <=? Z.max 0 limit then Ok (to_string (sanitizeUTF8 text), false)
  else
    let h := Z.to_nat (Z.max 0 limit / 2) in
    let t := Z.to_nat (Z.max 0 limit - Z.max 0 limit / 2) in
    Ok (to_string (sanitizeUTF8 (first_runes h text)
          ++ to_bytes (marker (len text - (len (first_runes h text) + len (last_runes t text))) path)
          ++ sanitizeUTF8 (last_runes t text)), true).
Proof.
  unfold boundOutput. rewrite Z.eqb_refl. cbn [negb].
  case_match; [done|]. by rewrite outputPart_head, outputPart_tail.
Qed.

(** The first and the last runes of a longer text do not overlap. *)
Lemma first_last_split h t (text : bytes) :
  (h + t ≤ length (utf8.chunks text))%nat →
  ∃ middle, text = first_runes h text ++ middle ++ last_runes t text ∧
    length (utf8.chunks text) = (h + length (utf8.chunks middle) + t)%nat.
Proof.
  intros Hht. set (cs := utf8.chunks text) in *.
  exists (concat (take (length cs - h - t) (drop h cs))). split.
  - unfold first_runes, last_runes. fold cs. rewrite <- !concat_app.
    replace (length cs - t)%nat with (h + (length cs - h - t))%nat by lia.
    rewrite <- drop_drop, !take_drop. symmetry. apply concat_chunks.
  - unfold cs. rewrite <- (chunks_drop h text), chunks_take, length_take, chunks_drop, length_drop.
    fold cs. lia.
Qed.

(** Bounding a text keeps a text of at most [limit] runes (with its
    invalid bytes replaced); of a longer text it keeps the first [limit / 2]
    and the last [limit - limit / 2] runes around a marker whose count is the
    number of bytes left out, and these three parts are the whole text. *)
Theorem boundOutput_parts text limit path :
  0 ≤ limit →
  (utf8.RuneCount text ≤ limit ∧
     boundOutput text [] (len text) limit path = Ok (to_string (sanitizeUTF8 text), false)) ∨
  (limit < utf8.RuneCount text ∧ ∃ head middle tail,
     text = head ++ middle ++ tail ∧
     utf8.RuneCount head = limit / 2 ∧ utf8.RuneCount tail = limit - limit / 2 ∧
     utf8.RuneCount middle = utf8.RuneCount text - limit ∧
     boundOutput text [] (len text) limit path
     = Ok (to_string (sanitizeUTF8 head ++ to_bytes (marker (len middle) path)
                      ++ sanitizeUTF8 tail), true)).
Proof.
  intros Hl. rewrite boundOutput_whole, Z.max_r by done.
  destruct (Z.leb_spec (utf8.RuneCount text) limit) as [Hle|Hgt]; [by left|right; split; [done|]].
  simpl. unfold utf8.RuneCount in *. unfold len in Hgt.
  set (h := Z.to_nat (limit / 2)). set (t := Z.to_nat (limit - limit / 2)).
  assert (Z.of_nat h = limit / 2 ∧ Z.of_nat t = limit - limit / 2) as [Hh Ht].
  { unfold h, t. Z.to_euclidean_division_equations. lia. }
  destruct (first_last_split h t text) as (middle & Hsplit & Hcount); [lia|].
  exists (first_runes h text), middle, (last_runes t text).
  assert (len text - (len (first_runes h text) + len (last_runes t text)) = len middle) as ->.
  { rewrite Hsplit at 1. unfold len. rewrite !length_app. lia. }
  unfold len. split_and!; [done| | |lia|done].
  - unfold first_runes. rewrite chunks_take, length_take. lia.
  - unfold last_runes. rewrite chunks_drop, length_drop. lia.
Qed.

Lemma boundOutput_parts_witness :
  0 ≤ 3 ∧
  boundOutput (to_bytes "abcdef") [] 6 3 "p"
  = Ok ("a...3 bytes truncated; complete output in p...ef", true) ∧
  ((utf8.RuneCount (to_bytes "abcdef") ≤ 3 ∧
     boundOutput (to_bytes "abcdef") [] 6 3 "p"
     = Ok (to_string (sanitizeUTF8 (to_bytes "abcdef")), false)) ∨
   (3 < utf8.RuneCount (to_bytes "abcdef") ∧ ∃ head middle tail,
     to_bytes "abcdef" = head ++ middle ++ tail ∧
     utf8.RuneCount head = 3 / 2 ∧ utf8.RuneCount tail = 3 - 3 / 2 ∧
     utf8.RuneCount middle = utf8.RuneCount (to_bytes "abcdef") - 3 ∧
     boundOutput (to_bytes "abcdef") [] 6 3 "p"
     = Ok (to_string (sanitizeUTF8 head ++ to_bytes (marker (len middle) "p")
                      ++ sanitizeUTF8 tail), true))).
Proof.
  split; [lia|]. split; [vm_compute; reflexivity|].
  apply (boundOutput_parts (to_bytes "abcdef") 3 "p"). lia.
Defined.

(** ** The windows of a long output *)

(** Decoding forward looks at four bytes at most. *)
Lemma DecodeRune_prefix p n : (4 ≤ n)%nat → utf8.DecodeRune (take n p) = utf8.DecodeRune p.
Proof.
  intros Hn. destruct n as [|[|[|[|n]]]]; [lia..|].
  by destruct p as [|c0 [|c1 [|c2 [|c3 p]]]].
Qed.

Lemma first_runes_window n (p : bytes) k :
  (4 * n ≤ k)%nat → first_runes n (take k p) = first_runes n p.
Proof.
  revert p k. induction n as [|n IH]; intros p k Hk; [done|].
  destruct (decide (p = [])) as [->|Hp]; [by rewrite take_nil|].
  assert (take k p ≠ []) as Hne by (destruct p; [done|]; by destruct k; [lia|]).
  unfold first_runes. rewrite (chunks_cons p), (chunks_cons (take k p)) by done.
  rewrite DecodeRune_prefix by lia. pose proof (DecodeRune_size p Hp) as [Hs Hl].
  simpl. rewrite take_take, Nat.min_l by lia. f_equal.
  rewrite skipn_firstn_comm. apply (IH (drop (snd (utf8.DecodeRune p)) p)). lia.
Qed.

(** Decoding backward looks at four bytes at most. *)
Lemma last_start_window fuel (q p : bytes) start :
  (fuel ≤ S start)%nat →
  utf8.last_start fuel (q ++ p) (length q + start) = Nat.add (length q) <$> utf8.last_start fuel p start.
Proof.
  revert start. induction fuel as [|fuel IH]; intros start Hf; [done|]. cbn [utf8.last_start].
  rewrite lookup_app_r by lia. replace (length q + start - length q)%nat with start by lia.
  destruct (p !! start); [|done]. destruct (utf8.RuneStart a); [done|].
  destruct start as [|start].
  - destruct fuel as [|fuel]; [|lia]. destruct q; simpl; [done|]. done.
  - rewrite Nat.add_succ_r. apply IH. lia.
Qed.

Lemma DecodeLastRune_window (q p : bytes) :
  (4 ≤ length p)%nat → utf8.DecodeLastRune (q ++ p) = utf8.DecodeLastRune p.
Proof.
  intros Hp. unfold utf8.DecodeLastRune. rewrite length_app.
  destruct (length p) as [|final] eqn:E; [lia|].
  rewrite Nat.add_succ_r, last_start_window by lia.
  assert (∀ o, default (length q + final)%nat (Nat.add (length q) <$> o)
               = (length q + default final o)%nat) as -> by (by intros []).
  set (start := default final (utf8.last_start 4 p final)).
  rewrite drop_app_ge by lia. replace (length q + start - length q)%nat with start by lia.
  destruct (utf8.DecodeRune (drop start p)) as [r size].
  replace (length q + start + size =? S (length q + final))%nat with (start + size =? S final)%nat; [done|].
  destruct (Nat.eqb_spec (start + size) (S final)), (Nat.eqb_spec (length q + start + size) (S (length q + final)));
    lia || done.
Qed.

Lemma DecodeLastRune_size p : (snd (utf8.DecodeLastRune p) ≤ 4)%nat.
Proof.
  unfold utf8.DecodeLastRune. destruct (length p) eqn:E; [simpl; lia|].
  set (d := drop _ p). destruct (decide (d = [])) as [->|Hd].
  - simpl. case_match; simpl; lia.
  - destruct (DecodeRune_size d Hd) as [? _].
    destruct (utf8.DecodeRune d) as [r size]. case_match; simpl in *; lia.
Qed.

Lemma tail_loop_window n (q p : bytes) start :
  (4 * n ≤ start)%nat → (start ≤ length p)%nat →
  tail_loop n (q ++ p) (length q + start) = (length q + tail_loop n p start)%nat.
Proof.
  revert start. induction n as [|n IH]; intros start Hn Hs; cbn [tail_loop]; [done|].
  rewrite !(proj2 (Nat.ltb_lt _ _)) by lia.
  rewrite take_app_ge by lia. replace (length q + start - length q)%nat with start by lia.
  rewrite DecodeLastRune_window by (rewrite length_take; lia).
  pose proof (DecodeLastRune_size (take start p)).
  replace (length q + start - snd (utf8.DecodeLastRune (take start p)))%nat
    with (length q + (start - snd (utf8.DecodeLastRune (take start p))))%nat by lia.
  apply IH; lia.
Qed.

Lemma outputPart_window_tail (c : bytes) k limit :
  (4 * Z.to_nat limit ≤ length c - k)%nat →
  outputPart (drop k c) limit true = outputPart c limit true.
Proof.
  intros Hk. destruct (Nat.le_gt_cases k (length c)) as [Hle|Hgt].
  2: { assert (Z.to_nat limit = 0%nat) as H0 by lia. unfold outputPart. rewrite H0. simpl.
       rewrite !drop_ge by lia. f_equal. unfold len. lia. }
  assert (tail_loop (Z.to_nat limit) c (length c)
          = (k + tail_loop (Z.to_nat limit) (drop k c) (length (drop k c)))%nat) as Ht.
  { pose proof (tail_loop_window (Z.to_nat limit) (take k c) (drop k c) (length (drop k c))) as H.
    rewrite take_drop in H. rewrite length_take, Nat.min_l in H by done.
    rewrite length_drop in H |- *. replace (k + (length c - k))%nat with (length c) in H by lia.
    apply H; lia. }
  unfold outputPart. rewrite Ht, drop_drop. f_equal.
  unfold len. rewrite length_drop. lia.
Qed.

Lemma windows_bounded (c : bytes) limit path :
  0 < limit →
  utf8.UTFMax * limit < len c →
  boundOutput (take (Z.to_nat (utf8.UTFMax * (limit / 2))) c)
              (drop (length c - Z.to_nat (utf8.UTFMax * (limit - limit / 2))) c)
              (len c) limit path
  = boundOutput c [] (len c) limit path.
Proof.
  intros Hl Hc. unfold utf8.UTFMax, len in *.
  set (h := limit / 2). set (t := limit - h).
  assert (0 ≤ h ∧ 0 < t ∧ h + t = limit) as (Hh & Ht & Hht).
  { unfold h, t. Z.to_euclidean_division_equations. lia. }
  unfold boundOutput. rewrite Z.max_r by lia. fold h t.
  rewrite Z.eqb_refl. cbv zeta. cbn [negb].
  assert (limit < utf8.RuneCount c) as Hlong.
  { unfold utf8.RuneCount, len.
    assert (∀ l : list bytes, Forall is_chunk l → length (concat l) ≤ 4 * length l)%nat as H4.
    { induction 1 as [|x l Hx _ IH]; simpl; [lia|].
      rewrite length_app. pose proof (is_chunk_length x Hx). lia. }
    specialize (H4 _ (chunks_is_chunk c)). rewrite concat_chunks in H4. lia. }
  rewrite (proj2 (Z.leb_gt (utf8.RuneCount c) limit)) by done.
  destruct (drop (length c - Z.to_nat (4 * t)) c) as [|x w] eqn:E.
  { apply (f_equal length) in E. rewrite length_drop in E. simpl in E. lia. }
  rewrite <- E, outputPart_window_tail by lia.
  rewrite !outputPart_head, first_runes_window by lia. done.
Qed.

(** Bounding the two windows that a shell operation captures of an output
    longer than its read limit, the first [4 * (limit / 2)] and the last
    [4 * (limit - limit / 2)] bytes, is bounding the complete output. *)
Theorem boundOutput_windows (c : bytes) limit path :
  0 < limit →
  utf8.UTFMax * limit < len c →
  boundOutput (take (Z.to_nat (utf8.UTFMax * (limit / 2))) c)
              (drop (length c - Z.to_nat (utf8.UTFMax * (limit - limit / 2))) c)
              (len c) limit path
  = boundOutput c [] (len c) limit path.
Proof. apply windows_bounded. Qed.

Lemma boundOutput_windows_witness :
  0 < 1 ∧ utf8.UTFMax * 1 < len (to_bytes "abcdef") ∧
  boundOutput (to_bytes EmptyString) (to_bytes "cdef") 6 1 EmptyString
  = boundOutput (to_bytes "abcdef") [] 6 1 EmptyString.
Proof.
  split; [lia|]. split; [vm_compute; reflexivity|].
  apply (boundOutput_windows (to_bytes "abcdef") 1 EmptyString); [lia|vm_compute; reflexivity].
Defined.

(** ** The text is valid UTF-8 *)

Lemma marker_ok skipped path : string_ok path = true → string_ok (marker skipped path) = true.
Proof.
  intros Hp. unfold marker.
  apply string_ok_app; [by vm_compute|]. apply string_ok_app; [apply ascii_text_ok, Itoa_ascii|].
  apply string_ok_app; [by vm_compute|]. apply string_ok_app; [|by vm_compute].
  case_bool_decide; [by vm_compute|]. by apply string_ok_app; [vm_compute|].
Qed.

Lemma boundOutput_string_ok head tail fullSize limit path text truncated :
  string_ok path = true →
  boundOutput head tail fullSize limit path = Ok (text, truncated) →
  string_ok text = true.
Proof.
  intros Hp. unfold boundOutput, outputPart. intros H.
  assert (∀ p q skipped, string_ok
    (to_string (sanitizeUTF8 p ++ to_bytes (marker skipped path) ++ sanitizeUTF8 q)) = true) as Hall.
  { intros p q skipped. unfold string_ok. rewrite to_bytes_string.
    repeat apply Valid_app; try apply sanitize_valid. by apply marker_ok. }
  destruct tail.
  - if_in H; [|done]. if_in H; [|injection H as <- _; apply Hall].
    injection H as <- _. unfold string_ok. rewrite to_bytes_string. apply sanitize_valid.
  - injection H as <- _. apply Hall.
Qed.

(** Whatever bytes are captured, a bounded text is valid UTF-8 when the
    path it names is, so that the state that holds it can be encoded. *)
Theorem boundOutput_valid head tail fullSize limit path text truncated :
  string_ok path = true →
  boundOutput head tail fullSize limit path = Ok (text, truncated) →
  string_ok text = true.
Proof. apply boundOutput_string_ok. Qed.

Lemma boundOutput_valid_witness :
  boundOutput (to_bytes "ab") [] 2 1 "/o" = Ok ("...1 bytes truncated; complete output in /o...b", true) ∧
  string_ok "...1 bytes truncated; complete output in /o...b" = true.
Proof.
  split; [vm_compute; reflexivity|].
  apply (boundOutput_valid (to_bytes "ab") [] 2 1 "/o" _ true); vm_compute; reflexivity.
Defined.

Lemma BoundOutput_ok text limit :
  string_ok (fst (BoundOutput text limit)) = true.
Proof.
  unfold BoundOutput. destruct (boundOutput _ _ _ _ _) as [[t b]| |] eqn:E; [|done|done].
  exact (boundOutput_string_ok _ [] _ _ EmptyString t b eq_refl E).
Qed.

Lemma BoundOutput_empty limit : BoundOutput EmptyString limit = (EmptyString, false).
Proof.
  unfold BoundOutput, boundOutput. change (utf8.RuneCount (to_bytes EmptyString)) with 0.
  simpl. destruct (Z.leb_spec 0 (Z.max 0 limit)); [done|lia].
Qed.

Lemma sanitize_nonempty p : p ≠ [] → sanitizeUTF8 p ≠ [].
Proof.
  intros Hp Hs. unfold sanitizeUTF8 in Hs.
  assert (utf8.runes p ≠ []) as Hr.
  { intros Hr. pose proof (concat_chunks p) as Hc. apply fmap_nil_inv in Hr. by rewrite Hr in Hc. }
  destruct (utf8.runes p) as [|r rs]; [done|]. cbn [fmap list_fmap concat] in Hs.
  apply app_nil in Hs as [Hs _]. pose proof (EncodeRune_length r) as Hl. rewrite Hs in Hl.
  simpl in Hl. lia.
Qed.

Lemma to_string_nil p : to_string p = EmptyString → p = [].
Proof. intros H%(f_equal to_bytes). by rewrite to_bytes_string in H. Qed.

(** A text is not bounded to nothing. *)
Lemma BoundOutput_nonempty text limit :
  text ≠ EmptyString → fst (BoundOutput text limit) ≠ EmptyString.
Proof.
  intros Ht E. unfold BoundOutput, boundOutput in E. rewrite slen_len, Z.eqb_refl in E. cbn [negb] in E.
  destruct (utf8.RuneCount (to_bytes text) <=? Z.max 0 limit).
  - apply to_string_nil in E. revert E. apply sanitize_nonempty.
    intros Hb. apply Ht. rewrite <- (to_string_bytes text). by rewrite Hb.
  - destruct (outputPart _ _ false) as [h hs], (outputPart _ _ true) as [t ts].
    apply to_string_nil in E. apply app_nil in E as [_ E]. by apply app_nil in E as [E _].
Qed.
