(* ===== verification/Handler.v ===== *)
(** * The contract between an operation and the manager that runs it

    A local operation is an actor: it handles the start (no event) and then
    the events of the primitives it dispatched, one at a time, and returns a
    step.  The class [OperationHandler] states what the manager relies on;
    the operations are its instances. *)

From Stdlib Require Import Ascii ZArith Lia.
From S2P Require Import Prelude GoStrings GoText Json JsonCodec Primitives Operation.

Local Open Scope Z_scope.

(** local_manager.go, localOperationFinished *)
Definition localOperationFinished (status : Status) : bool :=
  bool_decide (status = StatusCompleted) || bool_decide (status = StatusFailed)
  || bool_decide (status = StatusCanceled).

(** The dispatch is one that the manager can start, and its events come back
    to operation [id]. *)
Definition dispatch_for (id : ID) (d : PrimitiveDispatch) : Prop :=
  match dispatch.Data d with
  | DataIOCreate r => dispatch.Type' d = PrimitiveDispatchIOCreate ∧ create.Source r = id
  | DataIORead r => dispatch.Type' d = PrimitiveDispatchIORead ∧ read.Source r = id
  | DataProcessStart r => dispatch.Type' d = PrimitiveDispatchProcessStart ∧ process.Source r = id
  | DataCompute r => dispatch.Type' d = PrimitiveDispatchCompute ∧ compute.Source r = id
                     ∧ compute.Run r ≠ None
  | DataOther _ => False
  end.

(** What a step may change: a checkpoint keeps the operation's identity; a
    finished operation dispatches nothing; at most one primitive is started. *)
Definition step_ok (o : Operation) (s : Step) : Prop :=
  (∀ o', step.Operation s = Some o' →
     same_identity o o' ∧
     (op.Status' o' = StatusAwaiting ∨
      localOperationFinished (op.Status' o') = true ∧ step.Dispatches s = [])) ∧
  Forall (dispatch_for (op.ID' o)) (step.Dispatches s) ∧
  (length (step.Dispatches s) ≤ 1)%nat.

Lemma step_ok_checkpoint o o' :
  same_identity o o' →
  op.Status' o' = StatusAwaiting ∨ localOperationFinished (op.Status' o') = true →
  step_ok o (checkpoint_step o').
Proof.
  intros Hid Hs. split_and!; simpl; [|constructor|lia].
  intros ? [= <-]. split; [done|]. destruct Hs; [by left|by right].
Qed.

Lemma step_ok_dispatch o o' d :
  same_identity o o' → op.Status' o' = StatusAwaiting → dispatch_for (op.ID' o) d →
  step_ok o (step.Mk (Some o') [d]).
Proof.
  intros Hid Hs Hd. split_and!; simpl; [|by constructor|lia].
  intros ? [= <-]. split; [done|by left].
Qed.

Lemma step_ok_none o ds :
  Forall (dispatch_for (op.ID' o)) ds → (length ds ≤ 1)%nat → step_ok o (step.Mk None ds).
Proof. intros Hd Hl. by split_and!. Qed.

(** The checkpoint the manager holds after a step. *)
Definition next_operation (o : Operation) (s : Step) : Operation :=
  default o (step.Operation s).

(** An actor has a private state [S] and is handed the checkpoint that the
    manager holds; its invariant ties the two. *)
Class OperationHandler (S : Type) := {
  handle : S → Operation → option Event → S * result Step;
  handler_inv : Operation → S → Prop;
}.

Definition typed (e : option Event) : Prop :=
  match e with Some e => event_typed e = true | None => True end.

Class LawfulHandler (S : Type) `{OperationHandler S} : Prop := {
  handle_ok s o e s' st :
    handler_inv o s → typed e → handle s o e = (s', Ok st) →
    handler_inv (next_operation o st) s' ∧ step_ok o st ∧
    localOperationFinished (op.Status' o) = false;
  handle_returns s o e : handler_inv o s → typed e → returns (snd (handle s o e)) = true;
}.

(** An operation without a private state: the handler is a function of the
    checkpoint. *)
Definition stateless (advance : Operation → option Event → result Step)
    : OperationHandler unit := {|
  handle _ o e := (tt, advance o e);
  handler_inv _ _ := True |}.

Lemma stateless_lawful advance :
  (∀ o e st, advance o e = Ok st →
     step_ok o st ∧ localOperationFinished (op.Status' o) = false) →
  (∀ o e, returns (advance o e) = true) →
  @LawfulHandler unit (stateless advance).
Proof.
  intros Hok Hp. constructor; simpl.
  - intros s o e s' st _ _ H%(f_equal snd). simpl in H. split; [done|]. by eapply Hok.
  - intros s o e _ _. apply Hp.
Qed.

(** Statuses are told apart by evaluation. *)
Lemma not_finished status :
  status = StatusReady ∨ status = StatusAwaiting ∨ status = StatusCanceling →
  localOperationFinished status = false.
Proof. by intros [-> | [-> | ->]]. Qed.
