(* ===== verification/SkillUse.v ===== *)
(** * Skill-use operations: operation/skill_use.go

    A skill-use operation reads one file and keeps what it has read so far in
    its durable state, so that it continues after a restart. *)

From Stdlib Require Import Ascii ZArith Lia.
From S2P Require Import Prelude GoStrings GoText Json JsonCodec Primitives Operation Handler.

Local Open Scope Z_scope.

Definition TypeSkillUse : Type_ := "skill_use".
Definition VersionSkillUse : Version := 1.
Definition skillUseReadCorrelation : CorrelationID := "skill-use-read".
Definition MaxInt64 : Z := 2 ^ 63 - 1.

Record SkillUseState : Set := MkSkillUse {
  Path : string; Content : bytes; TerminalError : string }.

#[local] Unset Program Cases.

Program Definition SkillUseState_codec : codec SkillUseState := {|
  zero := MkSkillUse EmptyString [] EmptyString;
  enc s := enc_struct [field string_codec "Path" (Path s); field bytes_codec "Content" (Content s);
                       field string_codec "TerminalError" (TerminalError s)];
  dec := dec_struct (MkSkillUse EmptyString [] EmptyString) (λ o,
    p ← get string_codec "Path" o;
    c ← get bytes_codec "Content" o;
    t ← get string_codec "TerminalError" o;
    Some (MkSkillUse p c t));
  jok _ := True |}.
Next Obligation. intros [p c t] j _. struct_dec. Qed.
Next Obligation. intros [p c t] j. struct_enc_ok. Qed.
#[export] Instance SkillUseState_total : Total SkillUseState_codec.
Proof.
  constructor.
  - struct_zero.
  - struct_total.
Qed.

Definition validateSkillUseState (state : SkillUseState) : result unit :=
  guard_err (bool_decide (Path state = EmptyString)) (errors_New "skill path must be set").

Definition NewSkillUseSpec (path : string) : result Spec :=
  let state := MkSkillUse path [] EmptyString in
  _ ← validateSkillUseState state;
  encoded ← map_err (Errorf_w "encode skill-use operation state: ") (Marshal SkillUseState_codec state);
  Ok (spec.Mk 0 TypeSkillUse VersionSkillUse encoded VNil).

Definition skillUseOperationState (current : Operation) : result SkillUseState :=
  let decode := "decode skill-use operation " +:+ quote (op.ID' current) in
  if negb (bool_decide (op.Type' current = TypeSkillUse)) then
    Err (unsupported (decode +:+ ": type " +:+ quote (op.Type' current)))
  else if negb (op.Version' current =? VersionSkillUse) then
    Err (unsupported (decode +:+ ": version " +:+ Itoa (op.Version' current)))
  else
    state ← map_err (Errorf_w (decode +:+ " state: ")) (Unmarshal SkillUseState_codec (op.State current));
    _ ← map_err (Errorf_w ("validate skill-use operation " +:+ quote (op.ID' current) +:+ " state: "))
          (validateSkillUseState state);
    Ok state.

Definition DecodeSkillUse (current : Operation) : result SkillUseState :=
  skillUseOperationState current.

Definition skillUseStep (current : Operation) (state : SkillUseState) : result Step :=
  encoded ← map_err (Errorf_w ("encode skill-use operation " +:+ quote (op.ID' current) +:+ " state: "))
              (Marshal SkillUseState_codec state);
  Ok (checkpoint_step (op.set_state encoded current)).

Definition awaitSkillUse (current : Operation) (state : SkillUseState) : result Step :=
  skillUseStep (op.set_status StatusAwaiting current) state.

Definition failSkillUse (current : Operation) (state : SkillUseState) (err : error) : result Step :=
  skillUseStep (op.set_status StatusFailed current)
    (MkSkillUse (Path state) (Content state) (Error err)).

Definition cancelSkillUse (current : Operation) (state : SkillUseState) : result Step :=
  skillUseStep (op.set_status StatusCanceled current)
    (MkSkillUse (Path state) (Content state) "skill-use operation canceled").

Definition skillUseRequest (current : Operation) (state : SkillUseState) : IOReadRequest :=
  read.Mk (op.ID' current) skillUseReadCorrelation (Path state) (len (Content state)) MaxInt64.

Definition dispatchSkillUseRead (current : Operation) (state : SkillUseState) : result Step :=
  step ← awaitSkillUse current state;
  Ok (step.Mk (step.Operation step)
        [dispatch.Mk PrimitiveDispatchIORead (DataIORead (skillUseRequest current state))]).

Definition advanceAwaitingSkillUse (current : Operation) (state : SkillUseState) (event : Event)
  : result Step :=
  if negb (bool_decide (event.Source event = op.ID' current)) then
    failSkillUse current state (errors_New ("skill-use primitive event source is "
      +:+ quote (event.Source event) +:+ ", want " +:+ quote (op.ID' current)))
  else if bool_decide (event.Type_ event = PrimitiveEventCanceled) then cancelSkillUse current state
  else if bool_decide (event.Type_ event = PrimitiveEventFailed) then
    match event.Result event with
    | PrimitiveFailureResult e => failSkillUse current state (errors_New e)
    | _ => failSkillUse current state (errors_New "skill-use primitive failed with an invalid result")
    end
  else if negb (bool_decide (event.Correlation event = skillUseReadCorrelation)) then
    failSkillUse current state (errors_New ("skill-use primitive event correlation is "
      +:+ quote (event.Correlation event) +:+ ", want " +:+ quote skillUseReadCorrelation))
  else if bool_decide (event.Type_ event = PrimitiveEventIOReadOutput) then
    match event.Result event with
    | IOReadOutputResult offset data =>
      if negb (offset =? len (Content state)) then
        failSkillUse current state (errors_New "skill read returned invalid output")
      else awaitSkillUse current
             (MkSkillUse (Path state) (Content state ++ data) (TerminalError state))
    | _ => failSkillUse current state (errors_New "skill read returned invalid output")
    end
  else if bool_decide (event.Type_ event = PrimitiveEventIOReadCompleted) then
    match event.Result event with
    | IOReadCompletedResult size =>
      if negb (size =? len (Content state)) then
        failSkillUse current state (errors_New "skill read returned an invalid completion")
      else skillUseStep (op.set_status StatusCompleted current) state
    | _ => failSkillUse current state (errors_New "skill read returned an invalid completion")
    end
  else failSkillUse current state
         (errors_New ("skill read returned unexpected event " +:+ quote (event.Type_ event))).

Definition AdvanceSkillUse (current : Operation) (event : option Event) : result Step :=
  state ← skillUseOperationState current;
  let named (prefix suffix : string) :=
    errors_New (prefix +:+ quote (op.ID' current) +:+ suffix) in
  if bool_decide (op.Status' current = StatusReady) then
    _ ← guard_err (bool_decide (is_Some event))
          (named "advance ready skill-use operation " ": unexpected primitive event");
    _ ← guard_err (negb (bool_decide (Content state = []))
                   || negb (bool_decide (TerminalError state = EmptyString)))
          (named "advance ready skill-use operation " ": state is not initial");
    dispatchSkillUseRead current state
  else if bool_decide (op.Status' current = StatusAwaiting) then
    _ ← guard_err (negb (bool_decide (TerminalError state = EmptyString)))
          (named "advance awaiting skill-use operation " ": state is terminal");
    match event with
    | None => dispatchSkillUseRead current state
    | Some event => advanceAwaitingSkillUse current state event
    end
  else if bool_decide (op.Status' current = StatusCanceling) then
    _ ← guard_err (bool_decide (is_Some event))
          (named "advance canceling skill-use operation " ": unexpected primitive event");
    cancelSkillUse current state
  else Err (named "advance skill-use operation "
              (": terminal status " +:+ quote (op.Status' current))).

(** ** The contract with the manager *)

Lemma skillUseStep_ok o current state st :
  skillUseStep current state = Ok st →
  same_identity o current →
  op.Status' current = StatusAwaiting ∨ localOperationFinished (op.Status' current) = true →
  step_ok o st.
Proof.
  unfold skillUseStep. autorewrite with go_ok. intros (v & _ & [= <-]) Hid Hs.
  by apply step_ok_checkpoint.
Qed.

Lemma skillUseStep_returns current state : returns (skillUseStep current state) = true.
Proof. unfold skillUseStep. go_returns. Qed.
#[local] Hint Resolve skillUseStep_returns : returns.

Lemma skillUseOperationState_returns current : returns (skillUseOperationState current) = true.
Proof. unfold skillUseOperationState, validateSkillUseState. go_returns. Qed.
#[local] Hint Resolve skillUseOperationState_returns : returns.

Lemma dispatchSkillUseRead_ok current state st :
  dispatchSkillUseRead current state = Ok st → step_ok current st.
Proof.
  unfold dispatchSkillUseRead, awaitSkillUse, skillUseStep.
  autorewrite with go_ok. intros (s & (v & _ & [= <-])%bind_ok & [= <-]).
  apply step_ok_dispatch; [by repeat split|done|by repeat split].
Qed.

Lemma advanceAwaitingSkillUse_ok current state event st :
  advanceAwaitingSkillUse current state event = Ok st → step_ok current st.
Proof.
  unfold advanceAwaitingSkillUse, failSkillUse, cancelSkillUse, awaitSkillUse.
  intros H. cases_in H; (eapply skillUseStep_ok; [exact H|by repeat split|]); auto.
Qed.

Lemma AdvanceSkillUse_ok current event st :
  AdvanceSkillUse current event = Ok st →
  step_ok current st ∧ localOperationFinished (op.Status' current) = false.
Proof.
  unfold AdvanceSkillUse. intros (state & _ & H)%bind_ok.
  cbv zeta in H. if_in H; [|if_in H; [|if_in H; [|done]]];
    (split; [|apply not_finished; by auto]); apply bind_ok in H as (? & _ & H).
  - apply bind_ok in H as (? & _ & H). by eapply dispatchSkillUseRead_ok.
  - destruct event; [by eapply advanceAwaitingSkillUse_ok|by eapply dispatchSkillUseRead_ok].
  - eapply skillUseStep_ok; [exact H|by repeat split|by right].
Qed.

Lemma AdvanceSkillUse_returns current event : returns (AdvanceSkillUse current event) = true.
Proof.
  unfold AdvanceSkillUse, dispatchSkillUseRead, advanceAwaitingSkillUse, awaitSkillUse,
    failSkillUse, cancelSkillUse. go_returns.
Qed.

#[export] Instance skill_use_lawful : @LawfulHandler unit (stateless AdvanceSkillUse).
Proof. apply stateless_lawful; [apply AdvanceSkillUse_ok|apply AdvanceSkillUse_returns]. Qed.

(** ** Reading the whole file *)

(** The checkpoints after a run of events, as the manager keeps them. *)
Fixpoint run_skill_use (o : Operation) (evs : list Event) : result Operation :=
  match evs with
  | [] => Ok o
  | e :: evs => st ← AdvanceSkillUse o (Some e); run_skill_use (next_operation o st) evs
  end.

Lemma enc_skill_use path content error_text :
  string_ok path = true → string_ok error_text = true →
  ∃ v, Marshal SkillUseState_codec (MkSkillUse path content error_text) = Ok v.
Proof.
  intros Hp He. destruct (Marshal_total SkillUseState_codec (MkSkillUse path content error_text))
    as [j Hj]; [|eauto]. simpl. struct_encodes.
Qed.

Lemma decoded_path o path content e :
  skillUseOperationState o = Ok (MkSkillUse path content e) →
  string_ok path = true ∧ path ≠ EmptyString.
Proof.
  unfold skillUseOperationState, validateSkillUseState.
  intros H. if_in H; [|done]. if_in H; [|done].
  apply bind_ok in H as (s & Hs & H). apply bind_ok in H as (u & Hv & [= ->]).
  apply map_err_ok in Hs, Hv. apply guard_err_ok in Hv. simpl in Hv.
  split; [|by intros ->].
  apply string_decoded. destruct (Unmarshal_again _ _ _ Hs) as [j Hj].
  apply (enc_struct_fields _ "Path" false _ (Marshal_encodes _ _ _ Hj)); [in_list|done].
Qed.

(** The state of a checkpoint that was written on a decoded one. *)
Lemma decode_checkpoint o path c e status content error_text v :
  skillUseOperationState o = Ok (MkSkillUse path c e) →
  Marshal SkillUseState_codec (MkSkillUse path content error_text) = Ok v →
  skillUseOperationState (op.set_state v (op.set_status status o))
  = Ok (MkSkillUse path content error_text).
Proof.
  intros H Hv. destruct (decoded_path _ _ _ _ H) as [_ Hp].
  unfold skillUseOperationState in H |- *. simpl.
  if_in H; [|done]. if_in H; [|done].
  rewrite (Unmarshal_Marshal SkillUseState_codec _ _ I Hv). simpl.
  unfold validateSkillUseState. simpl. by rewrite bool_decide_false.
Qed.

(** The checkpoint of an operation that has read [content] so far. *)
Definition reading (o : Operation) (path : string) (content : bytes) : Prop :=
  op.Status' o = StatusAwaiting ∧
  skillUseOperationState o = Ok (MkSkillUse path content EmptyString).

Lemma checkpoint_of o path c status content :
  skillUseOperationState o = Ok (MkSkillUse path c EmptyString) →
  ∃ o', skillUseStep (op.set_status status o) (MkSkillUse path content EmptyString)
        = Ok (checkpoint_step o') ∧
        op.Status' o' = status ∧ op.ID' o' = op.ID' o ∧
        skillUseOperationState o' = Ok (MkSkillUse path content EmptyString).
Proof.
  intros H. destruct (decoded_path _ _ _ _ H) as [Hp _].
  destruct (enc_skill_use path content EmptyString Hp eq_refl) as [v Hv].
  exists (op.set_state v (op.set_status status o)). unfold skillUseStep. rewrite Hv.
  split_and!; [done|done|done|]. by eapply decode_checkpoint.
Qed.

Lemma advance_output o path content data :
  reading o path content →
  ∃ o', AdvanceSkillUse o (Some (event.Mk PrimitiveEventIOReadOutput (op.ID' o)
            skillUseReadCorrelation (IOReadOutputResult (len content) data)))
        = Ok (checkpoint_step o') ∧
        op.ID' o' = op.ID' o ∧ reading o' path (content ++ data).
Proof.
  intros [Hs Hd]. destruct (checkpoint_of o path content StatusAwaiting (content ++ data) Hd)
    as (o' & Hstep & Hst & Hid & Hdec).
  exists o'. split; [|done]. unfold AdvanceSkillUse. rewrite Hd. simpl. rewrite Hs.
  simpl. unfold advanceAwaitingSkillUse. simpl. rewrite bool_decide_true by done. simpl.
  rewrite Z.eqb_refl. simpl. unfold awaitSkillUse. exact Hstep.
Qed.

Lemma run_outputs o path content req evs data :
  reading o path content → read.Source req = op.ID' o →
  read.Correlation req = skillUseReadCorrelation →
  outputs req (len content) evs = Some data →
  ∃ o', (∀ rest, run_skill_use o (evs ++ rest) = run_skill_use o' rest) ∧
        op.ID' o' = op.ID' o ∧ reading o' path (content ++ data).
Proof.
  intros Hr Hsrc Hcor. revert o content data Hr Hsrc.
  induction evs as [|e evs IH]; intros o content data Hr Hsrc; simpl.
  { intros [= <-]. exists o. by rewrite app_nil_r. }
  destruct e as [t src cor r]. simpl. destruct r as [| | |off d| | | | | | | | | | | | | | |]; try done.
  intros H. destruct (bool_decide (t = _) && (off =? len content) && bool_decide (src = _)
    && bool_decide (cor = _)) eqn:E; [|done].
  rewrite !andb_true_iff, !bool_decide_eq_true, Z.eqb_eq in E. destruct E as [[[-> ->] ->] ->].
  apply fmap_Some in H as (rest_data & Hrest & ->).
  destruct (advance_output o path content d Hr) as (o1 & Hadv & Hid & Hr1).
  rewrite Hsrc, Hcor. 
  assert (outputs req (len (content ++ d)) evs = Some rest_data) as Hrest'.
  { rewrite <- Hrest. f_equal. unfold len. rewrite length_app. lia. }
  destruct (IH o1 (content ++ d) rest_data Hr1 ltac:(congruence) Hrest') as (o' & Hrun & Hid' & Hr').
  exists o'. split_and!; [|congruence|by rewrite app_assoc].
  intros rest. rewrite Hadv. apply Hrun.
Qed.

(** A skill-use operation delivers its file: from a checkpoint that holds
    any prefix of a file (none of it on the first start, more after a
    restart), the start dispatches one read from where the content ends, and
    handling the events of that read of a file that does not change completes
    the operation with the whole file as its content. *)
Theorem skill_use_reads_file o os c n path :
  stable_file c os → len c ≤ MaxInt64 →
  op.Status' o = StatusReady ∧ n = 0%nat ∨ op.Status' o = StatusAwaiting →
  skillUseOperationState o = Ok (MkSkillUse path (take n c) EmptyString) →
  ∃ o1 req o2,
    AdvanceSkillUse o None
    = Ok (step.Mk (Some o1) [dispatch.Mk PrimitiveDispatchIORead (DataIORead req)]) ∧
    read.Path req = path ∧
    run_skill_use o1 (streamFile os req) = Ok o2 ∧
    op.Status' o2 = StatusCompleted ∧
    DecodeSkillUse o2 = Ok (MkSkillUse path c EmptyString).
Proof.
  intros Hf Hc Hs Hd.
  destruct (checkpoint_of o path (take n c) StatusAwaiting (take n c) Hd)
    as (o1 & Hstep & Hst & Hid & Hdec).
  set (req := skillUseRequest o (MkSkillUse path (take n c) EmptyString)).
  assert (AdvanceSkillUse o None
    = Ok (step.Mk (Some o1) [dispatch.Mk PrimitiveDispatchIORead (DataIORead req)])) as Hadv.
  { unfold AdvanceSkillUse. rewrite Hd. simpl.
    unfold dispatchSkillUseRead, awaitSkillUse. rewrite Hstep. simpl.
    destruct Hs as [[-> ->]| ->]; done. }
  destruct (streamFile_stable (V:=ComputeValue) c os req Hf) as (evs & Hevs & Hout).
  { simpl. unfold len. lia. }
  { done. }
  simpl in Hout. replace (Z.to_nat (len (take n c))) with (length (take n c)) in Hout
    by (unfold len; lia).
  destruct (run_outputs o1 path (take n c) req evs
    (take (Z.to_nat MaxInt64) (drop (length (take n c)) c))) as (o2 & Hrun & Hid2 & [Hst2 Hd2]);
    [by split|done|done|done|].
  assert (take n c ++ take (Z.to_nat MaxInt64) (drop (length (take n c)) c) = c) as Hwhole.
  { rewrite (take_ge (drop _ _)) by (rewrite length_drop; unfold len in Hc; lia).
    rewrite length_take. destruct (Nat.le_gt_cases n (length c)).
    - by rewrite Nat.min_l, take_drop.
    - rewrite Nat.min_r, drop_ge, take_ge, app_nil_r by lia. done. }
  rewrite Hwhole in Hd2.
  destruct (checkpoint_of o2 path c StatusCompleted c Hd2) as (o3 & Hstep3 & Hst3 & _ & Hdec3).
  exists o1, req, o3. split_and!; [done|done| |done|done].
  rewrite Hevs, Hrun. simpl. unfold AdvanceSkillUse. rewrite Hd2. simpl. rewrite Hst2. simpl.
  unfold advanceAwaitingSkillUse. simpl. rewrite bool_decide_true by congruence. simpl.
  rewrite Z.eqb_refl. simpl. by rewrite Hstep3.
Qed.

(** A file that holds three bytes. *)
Definition abc_file : file_os :=
  let c := to_bytes "abc" in
  FileOS None (inr (true, EmptyString, 3))
    (λ offset n, (take (Z.to_nat n) (drop (Z.to_nat offset) c), None)) (inr 3) None (λ _, false).

Lemma abc_stable : stable_file (to_bytes "abc") abc_file.
Proof. by split. Qed.

Definition skill_operation : Operation :=
  op.Mk 0 "op" TypeSkillUse VersionSkillUse StatusReady
    (VText (JObj [("Path", JStr "/s"); ("Content", JStr EmptyString); ("TerminalError", JStr EmptyString)]))
    VNil.

Lemma skill_use_reads_file_witness :
  NewSkillUseSpec "/s" = Ok (spec.Mk 0 TypeSkillUse VersionSkillUse (op.State skill_operation) VNil) ∧
  ∃ o1 req o2,
    AdvanceSkillUse skill_operation None
    = Ok (step.Mk (Some o1) [dispatch.Mk PrimitiveDispatchIORead (DataIORead req)]) ∧
    read.Path req = "/s" ∧ run_skill_use o1 (streamFile abc_file req) = Ok o2 ∧
    op.Status' o2 = StatusCompleted ∧
    DecodeSkillUse o2 = Ok (MkSkillUse "/s" (to_bytes "abc") EmptyString).
Proof.
  split; [vm_compute; reflexivity|].
  apply (skill_use_reads_file skill_operation abc_file (to_bytes "abc") 0 "/s" abc_stable).
  - vm_compute. discriminate.
  - left. split; reflexivity.
  - vm_compute. reflexivity.
Defined.
