(* ===== verification/Shell.v ===== *)
(** * Shell operations: operation/shell.go

    A shell operation creates a directory and two capture files, runs a
    command with its outputs captured in them, and reads back the two ends of
    each capture.  Its phase is durable; the chunks of a read in progress are
    not.  The methods are state-and-error functions on [Shell]: the mutations
    made before an error stay, as they do through the Go pointer. *)

From Stdlib Require Import Ascii ZArith Lia.
From S2P Require Import Prelude GoStrings GoText Utf8Facts Json JsonCodec Primitives Operation.
From S2P Require Import Output Handler.

Local Open Scope Z_scope.

Definition TypeShell : Type_ := "shell".
Definition VersionShell : Version := 3.
Definition ShellOutFilename : string := "out".
Definition ShellErrFilename : string := "err".

Definition ShellPhase : Set := string.
Definition ShellPhaseCreateDirectory : ShellPhase := "create_directory".
Definition ShellPhaseCreateOut : ShellPhase := "create_out".
Definition ShellPhaseCreateErr : ShellPhase := "create_err".
Definition ShellPhaseProcess : ShellPhase := "process".
Definition ShellPhaseReadOut : ShellPhase := "read_out".
Definition ShellPhaseReadOutTail : ShellPhase := "read_out_tail".
Definition ShellPhaseReadErr : ShellPhase := "read_err".
Definition ShellPhaseReadErrTail : ShellPhase := "read_err_tail".

Module shell_input.
Record ShellInput : Set := Mk { Command : string; Shell : string; Directory : string }.
End shell_input.
Abbreviation ShellInput := shell_input.ShellInput.

Module shell_result.
Record ShellResult : Set := Mk {
  Out : string; Err : string; OutSize : Z; ErrSize : Z; ExitCode : Z }.
End shell_result.
Abbreviation ShellResult := shell_result.ShellResult.

Module shell_state.
Record ShellState : Set := Mk {
  Input : ShellInput;
  BaseDirectory : string;
  Phase : ShellPhase;
  ProcessGroupID : Z;
  PendingExitCode : option Z;
  OutSize : Z;
  ErrSize : Z;
  InlineOut : bytes;
  InlineErr : bytes;
  InlineOutTail : bytes;
  InlineErrTail : bytes;
  Result : option ShellResult;
  TerminalError : string;
  ErrorTruncated : bool;
  OutTruncated : bool;
  ErrTruncated : bool;
  OutPath : string;
  ErrPath : string }.

Definition set_Phase (v : ShellPhase) (s : ShellState) : ShellState :=
  Mk (Input s) (BaseDirectory s) v (ProcessGroupID s) (PendingExitCode s) (OutSize s)
     (ErrSize s) (InlineOut s) (InlineErr s) (InlineOutTail s) (InlineErrTail s) (Result s)
     (TerminalError s) (ErrorTruncated s) (OutTruncated s) (ErrTruncated s) (OutPath s)
     (ErrPath s).
Definition set_ProcessGroupID (v : Z) (s : ShellState) : ShellState :=
  Mk (Input s) (BaseDirectory s) (Phase s) v (PendingExitCode s) (OutSize s) (ErrSize s)
     (InlineOut s) (InlineErr s) (InlineOutTail s) (InlineErrTail s) (Result s)
     (TerminalError s) (ErrorTruncated s) (OutTruncated s) (ErrTruncated s) (OutPath s)
     (ErrPath s).
Definition set_exited (v : Z) (s : ShellState) : ShellState :=
  Mk (Input s) (BaseDirectory s) (Phase s) 0 (Some v) (OutSize s) (ErrSize s) (InlineOut s)
     (InlineErr s) (InlineOutTail s) (InlineErrTail s) (Result s) (TerminalError s)
     (ErrorTruncated s) (OutTruncated s) (ErrTruncated s) (OutPath s) (ErrPath s).
Definition set_out (inline : bytes) (size : Z) (s : ShellState) : ShellState :=
  Mk (Input s) (BaseDirectory s) (Phase s) (ProcessGroupID s) (PendingExitCode s) size
     (ErrSize s) inline (InlineErr s) [] (InlineErrTail s) (Result s) (TerminalError s)
     (ErrorTruncated s) (OutTruncated s) (ErrTruncated s) (OutPath s) (ErrPath s).
Definition set_err (inline : bytes) (size : Z) (s : ShellState) : ShellState :=
  Mk (Input s) (BaseDirectory s) (Phase s) (ProcessGroupID s) (PendingExitCode s) (OutSize
     s) size (InlineOut s) inline (InlineOutTail s) [] (Result s) (TerminalError s)
     (ErrorTruncated s) (OutTruncated s) (ErrTruncated s) (OutPath s) (ErrPath s).
Definition set_InlineOutTail (v : bytes) (s : ShellState) : ShellState :=
  Mk (Input s) (BaseDirectory s) (Phase s) (ProcessGroupID s) (PendingExitCode s) (OutSize
     s) (ErrSize s) (InlineOut s) (InlineErr s) v (InlineErrTail s) (Result s)
     (TerminalError s) (ErrorTruncated s) (OutTruncated s) (ErrTruncated s) (OutPath s)
     (ErrPath s).
Definition set_InlineErrTail (v : bytes) (s : ShellState) : ShellState :=
  Mk (Input s) (BaseDirectory s) (Phase s) (ProcessGroupID s) (PendingExitCode s) (OutSize
     s) (ErrSize s) (InlineOut s) (InlineErr s) (InlineOutTail s) v (Result s)
     (TerminalError s) (ErrorTruncated s) (OutTruncated s) (ErrTruncated s) (OutPath s)
     (ErrPath s).
Definition set_OutPath (v : string) (s : ShellState) : ShellState :=
  Mk (Input s) (BaseDirectory s) (Phase s) (ProcessGroupID s) (PendingExitCode s) (OutSize
     s) (ErrSize s) (InlineOut s) (InlineErr s) (InlineOutTail s) (InlineErrTail s) (Result
     s) (TerminalError s) (ErrorTruncated s) (OutTruncated s) (ErrTruncated s) v (ErrPath s).
Definition set_ErrPath (v : string) (s : ShellState) : ShellState :=
  Mk (Input s) (BaseDirectory s) (Phase s) (ProcessGroupID s) (PendingExitCode s) (OutSize
     s) (ErrSize s) (InlineOut s) (InlineErr s) (InlineOutTail s) (InlineErrTail s) (Result
     s) (TerminalError s) (ErrorTruncated s) (OutTruncated s) (ErrTruncated s) (OutPath s) v.
Definition set_error (text : string) (truncated : bool) (s : ShellState) : ShellState :=
  Mk (Input s) (BaseDirectory s) (Phase s) (ProcessGroupID s) (PendingExitCode s) (OutSize
     s) (ErrSize s) (InlineOut s) (InlineErr s) (InlineOutTail s) (InlineErrTail s) (Result
     s) text truncated (OutTruncated s) (ErrTruncated s) (OutPath s) (ErrPath s).
(** The assignments of [finish]. *)
Definition set_finished (r : ShellResult) (out_truncated err_truncated : bool) (out err : string) (s : ShellState) : ShellState :=
  Mk (Input s) (BaseDirectory s) EmptyString (ProcessGroupID s) None (OutSize s) (ErrSize s)
     [] [] [] [] (Some r) (TerminalError s) (ErrorTruncated s) out_truncated err_truncated
     out err.
End shell_state.
Abbreviation ShellState := shell_state.ShellState.

(** The actor: its operation, whose own state is kept decoded. *)
Record Shell : Type := MkShell {
  current : Operation;
  state : ShellState;
  chunks : list bytes;
  readSize : Z;
}.

(** ** Encoding *)

#[local] Unset Program Cases.

Program Definition ShellInput_codec : codec ShellInput := {|
  zero := shell_input.Mk EmptyString EmptyString EmptyString;
  enc s := enc_struct [field string_codec "Command" (shell_input.Command s);
                       field string_codec "Shell" (shell_input.Shell s);
                       field string_codec "Directory" (shell_input.Directory s)];
  dec := dec_struct (shell_input.Mk EmptyString EmptyString EmptyString) (λ o,
    c ← get string_codec "Command" o;
    s ← get string_codec "Shell" o;
    d ← get string_codec "Directory" o;
    Some (shell_input.Mk c s d));
  jok _ := True |}.
Next Obligation. intros [c s d] j _. struct_dec. Qed.
Next Obligation. intros [c s d] j. struct_enc_ok. Qed.
#[export] Instance ShellInput_total : Total ShellInput_codec.
Proof.
  constructor.
  - struct_zero.
  - struct_total.
Qed.

Program Definition ShellResult_codec : codec ShellResult := {|
  zero := shell_result.Mk EmptyString EmptyString 0 0 0;
  enc s := enc_struct [field string_codec "Out" (shell_result.Out s);
                       field string_codec "Err" (shell_result.Err s);
                       field int64_codec "OutSize" (shell_result.OutSize s);
                       field int64_codec "ErrSize" (shell_result.ErrSize s);
                       field int64_codec "ExitCode" (shell_result.ExitCode s)];
  dec := dec_struct (shell_result.Mk EmptyString EmptyString 0 0 0) (λ o,
    a ← get string_codec "Out" o;
    b ← get string_codec "Err" o;
    c ← get int64_codec "OutSize" o;
    d ← get int64_codec "ErrSize" o;
    e ← get int64_codec "ExitCode" o;
    Some (shell_result.Mk a b c d e));
  jok s := in_int64 (shell_result.OutSize s) = true ∧ in_int64 (shell_result.ErrSize s) = true
           ∧ in_int64 (shell_result.ExitCode s) = true |}.
Next Obligation. intros [a b c d e] j (H1 & H2 & H3). simpl in H1, H2, H3. struct_dec. Qed.
Next Obligation. intros [a b c d e] j. struct_enc_ok. Qed.
#[export] Instance ShellResult_total : Total ShellResult_codec.
Proof.
  constructor.
  - struct_zero.
  - struct_total.
Qed.

Definition ShellState_zero : ShellState :=
  shell_state.Mk (zero ShellInput_codec) EmptyString EmptyString 0 None 0 0 [] [] [] [] None
    EmptyString false false false EmptyString EmptyString.

Definition ShellState_fields (s : ShellState) : list field_enc :=
  [field ShellInput_codec "Input" (shell_state.Input s);
   field string_codec "BaseDirectory" (shell_state.BaseDirectory s);
   field string_codec "Phase" (shell_state.Phase s);
   field int64_codec "ProcessGroupID" (shell_state.ProcessGroupID s);
   field (ptr_codec int64_codec) "PendingExitCode" (shell_state.PendingExitCode s);
   field int64_codec "OutSize" (shell_state.OutSize s);
   field int64_codec "ErrSize" (shell_state.ErrSize s);
   field bytes_codec "InlineOut" (shell_state.InlineOut s);
   field bytes_codec "InlineErr" (shell_state.InlineErr s);
   field bytes_codec "InlineOutTail" (shell_state.InlineOutTail s);
   field bytes_codec "InlineErrTail" (shell_state.InlineErrTail s);
   field (ptr_codec ShellResult_codec) "Result" (shell_state.Result s);
   field string_codec "TerminalError" (shell_state.TerminalError s);
   field bool_codec "ErrorTruncated" (shell_state.ErrorTruncated s);
   field bool_codec "OutTruncated" (shell_state.OutTruncated s);
   field bool_codec "ErrTruncated" (shell_state.ErrTruncated s);
   field string_codec "OutPath" (shell_state.OutPath s);
   field string_codec "ErrPath" (shell_state.ErrPath s)].

Program Definition ShellState_codec : codec ShellState := {|
  zero := ShellState_zero;
  enc s := enc_struct (ShellState_fields s);
  dec := dec_struct ShellState_zero (λ o,
    x0 ← get ShellInput_codec "Input" o;
    x1 ← get string_codec "BaseDirectory" o;
    x2 ← get string_codec "Phase" o;
    x3 ← get int64_codec "ProcessGroupID" o;
    x4 ← get (ptr_codec int64_codec) "PendingExitCode" o;
    x5 ← get int64_codec "OutSize" o;
    x6 ← get int64_codec "ErrSize" o;
    x7 ← get bytes_codec "InlineOut" o;
    x8 ← get bytes_codec "InlineErr" o;
    x9 ← get bytes_codec "InlineOutTail" o;
    x10 ← get bytes_codec "InlineErrTail" o;
    x11 ← get (ptr_codec ShellResult_codec) "Result" o;
    x12 ← get string_codec "TerminalError" o;
    x13 ← get bool_codec "ErrorTruncated" o;
    x14 ← get bool_codec "OutTruncated" o;
    x15 ← get bool_codec "ErrTruncated" o;
    x16 ← get string_codec "OutPath" o;
    x17 ← get string_codec "ErrPath" o;
    Some (shell_state.Mk x0 x1 x2 x3 x4 x5 x6 x7 x8 x9 x10 x11 x12 x13 x14 x15 x16 x17));
  jok s := jok int64_codec (shell_state.ProcessGroupID s)
           ∧ jok (ptr_codec int64_codec) (shell_state.PendingExitCode s)
           ∧ jok int64_codec (shell_state.OutSize s) ∧ jok int64_codec (shell_state.ErrSize s)
           ∧ jok (ptr_codec ShellResult_codec) (shell_state.Result s) |}.
Next Obligation.
  intros [] j (H1 & H2 & H3 & H4 & H5). cbn -[jok] in H1, H2, H3, H4, H5. struct_dec.
Qed.
Next Obligation. intros [] j. struct_enc_ok. Qed.
#[export] Instance ShellState_total : Total ShellState_codec.
Proof.
  constructor.
  - struct_zero.
  - struct_total.
Qed.

(** ** Limits, paths and validation *)

Definition shellReadLimit (o : Operation) : Z := op.MaxOutputLength o * utf8.UTFMax.

Definition shellTailReadLimit (o : Operation) : Z :=
  let limit := op.MaxOutputLength o in (limit - limit / 2) * utf8.UTFMax.

Definition limit_in_range (n : Z) : bool := (0 <? n) && (n <=? MaxOutputLength).

Record shellPaths : Set := MkShellPaths { directory : string; out : string; err : string }.

Definition newShellPaths (baseDirectory : string) (id : ID) : result shellPaths :=
  let name := id in
  if bool_decide (name = EmptyString) || bool_decide (name = ".") || bool_decide (name = "..")
     || filepath.IsAbs name || negb (bool_decide (filepath.Base name = name)) then
    Err (errors_New ("operation ID " +:+ quote id +:+ " is not a path component"))
  else
    let directory := filepath.Join [baseDirectory; name] in
    Ok (MkShellPaths directory (filepath.Join [directory; ShellOutFilename])
          (filepath.Join [directory; ShellErrFilename])).

Definition validateShellState (s : ShellState) : result unit :=
  let input := shell_state.Input s in
  if bool_decide (shell_input.Shell input = EmptyString)
     || negb (filepath.IsAbs (shell_input.Shell input)) then
    Err (errors_New "shell path must be absolute")
  else if bool_decide (shell_state.BaseDirectory s = EmptyString)
     || negb (filepath.IsAbs (shell_state.BaseDirectory s)) then
    Err (errors_New "base directory must be absolute")
  else if (shell_state.ProcessGroupID s <? 0) || (shell_state.ProcessGroupID s =? 1) then
    Err (errors_New "shell process group ID must be zero or greater than one")
  else if (shell_state.OutSize s <? 0) || (shell_state.ErrSize s <? 0) then
    Err (errors_New "captured output sizes must not be negative")
  else Ok tt.

Definition DecodeShellState (o : Operation) : result ShellState :=
  let advance := "advance shell operation " +:+ quote (op.ID' o) in
  if negb (bool_decide (op.Type' o = TypeShell)) then
    Err (unsupported (advance +:+ ": unsupported type " +:+ quote (op.Type' o)))
  else if negb (op.Version' o =? VersionShell) then
    Err (unsupported (advance +:+ ": unsupported version " +:+ Itoa (op.Version' o)))
  else if negb (limit_in_range (op.MaxOutputLength o)) then
    Err (errors_New "max output length is out of range")
  else map_err (Errorf_w ("decode shell operation " +:+ quote (op.ID' o) +:+ " state: "))
         (Unmarshal ShellState_codec (op.State o)).

Definition inline_size (inline tail : bytes) : Z := len inline + len tail.

Definition shellOperationState (o : Operation) : result ShellState :=
  s ← DecodeShellState o;
  _ ← map_err (Errorf_w ("validate shell operation " +:+ quote (op.ID' o) +:+ " state: "))
        (validateShellState s);
  if (shellReadLimit o <? inline_size (shell_state.InlineOut s) (shell_state.InlineOutTail s))
     || (shellReadLimit o <? inline_size (shell_state.InlineErr s) (shell_state.InlineErrTail s)) then
    Err (errors_New "inline shell result exceeds the configured limit")
  else Ok s.

Definition NewShell (o : Operation) : result Shell :=
  s ← shellOperationState o;
  Ok (MkShell (op.set_state VNil o) s [] 0).

Definition initial_state (input : ShellInput) (baseDirectory : string) : ShellState :=
  shell_state.Mk input baseDirectory EmptyString 0 None 0 0 [] [] [] [] None
    EmptyString false true true EmptyString EmptyString.

Definition NewShellSpec (input : ShellInput) (baseDirectory : string) (maxOutputLength : Z)
  : result Spec :=
  if negb (limit_in_range maxOutputLength) then
    Err (errors_New "max output length is out of range")
  else
    let s := initial_state input baseDirectory in
    _ ← validateShellState s;
    encoded ← map_err (Errorf_w "encode shell operation state: ") (Marshal ShellState_codec s);
    Ok (spec.Mk maxOutputLength TypeShell VersionShell encoded VNil).

(** ** Requests *)

Definition createShellPath (id : ID) (correlation : CorrelationID) (kind : IOCreateKind)
    (path : string) (mode : Z) : PrimitiveDispatch :=
  dispatch.Mk PrimitiveDispatchIOCreate (DataIOCreate (create.Mk id correlation kind path mode)).

(** 0o700 and 0o600 *)
Definition createShellDirectory (id : ID) (correlation : CorrelationID) (path : string) :=
  createShellPath id correlation IOCreateDirectory path 448.
Definition createShellFile (id : ID) (correlation : CorrelationID) (path : string) :=
  createShellPath id correlation IOCreateRegularFile path 384.

Definition startShellProcess (id : ID) (s : ShellState) (paths : shellPaths) : PrimitiveDispatch :=
  dispatch.Mk PrimitiveDispatchProcessStart (DataProcessStart
    (process.Mk id ShellPhaseProcess (shell_input.Shell (shell_state.Input s))
       ["-c"; shell_input.Command (shell_state.Input s)]
       (shell_input.Directory (shell_state.Input s)) (out paths) (err paths))).

(** The status of a shell that a signal ended; [int] wraps around. *)
Definition shellExitStatus (exitCode signal : Z) : Z :=
  if negb (signal =? 0) then wrap_int64 (128 + signal) else exitCode.

Definition validateShellCorrelation (event : Event) (correlation : CorrelationID) : result unit :=
  guard_err (negb (bool_decide (event.Correlation event = correlation)))
    (errors_New ("shell primitive event correlation is " +:+ quote (event.Correlation event)
                 +:+ ", want " +:+ quote correlation)).

Definition validateShellCreate (event : Event) (kind : IOCreateKind) : result unit :=
  guard_err (negb (bool_decide (event.Type_ event = PrimitiveEventIOCreateCompleted)
                   && match event.Result event with
                      | IOCreateResult k => bool_decide (k = kind)
                      | _ => false end))
    (errors_New "create shell artifact returned an invalid result").

Definition shellPrimitiveFailure (event : Event) : error :=
  match event.Result event with
  | PrimitiveFailureResult e => errors_New e
  | _ => errors_New "shell primitive failed with an invalid result"
  end.

(** ** Checkpoints *)

Definition with_state (f : ShellState → ShellState) (sh : Shell) : Shell :=
  MkShell (current sh) (f (state sh)) (chunks sh) (readSize sh).
Definition with_status (s : Status) (sh : Shell) : Shell :=
  MkShell (op.set_status s (current sh)) (state sh) (chunks sh) (readSize sh).
Definition reset_read (sh : Shell) : Shell := MkShell (current sh) (state sh) [] 0.

Definition bound_error (sh : Shell) : ShellState :=
  if shell_state.ErrorTruncated (state sh) then state sh
  else
    let '(text, truncated) :=
      BoundOutput (shell_state.TerminalError (state sh)) (op.MaxOutputLength (current sh)) in
    shell_state.set_error text truncated (state sh).

Definition checkpoint : M Shell Step := λ sh,
  let sh := with_state (λ _, bound_error sh) sh in
  match map_err (Errorf_w ("encode shell operation " +:+ quote (op.ID' (current sh)) +:+ " state: "))
          (Marshal ShellState_codec (state sh)) with
  | Ok encoded => (sh, Ok (checkpoint_step (op.set_state encoded (current sh))))
  | Err e => (sh, Err e)
  | Panic t => (sh, Panic t)
  end.

Definition await : M Shell Step :=
  _ ← modify (with_status StatusAwaiting); checkpoint.

Definition dispatch_ (d : PrimitiveDispatch) : M Shell Step :=
  step ← await; mret (step.Mk (step.Operation step) [d]).

Definition fail_ (e : error) : M Shell Step :=
  _ ← modify reset_read;
  _ ← modify (with_state (shell_state.set_Phase EmptyString));
  _ ← modify (with_state (shell_state.set_error (Error e) false));
  _ ← modify (with_status StatusFailed);
  checkpoint.

Definition cancel : M Shell Step :=
  _ ← modify reset_read;
  _ ← modify (with_state (shell_state.set_Phase EmptyString));
  _ ← modify (with_state (shell_state.set_error "shell operation canceled" false));
  _ ← modify (with_status StatusCanceled);
  checkpoint.

(** [if err := check; err != nil { return shell.fail(err) }] *)
Definition or_fail {A} (r : result A) (k : A → M Shell Step) : M Shell Step :=
  match r with
  | Ok a => k a
  | Err e => fail_ e
  | Panic t => lift (Panic t)
  end.

(** ** Phases *)

Definition is_create_phase (p : ShellPhase) : bool :=
  bool_decide (p = ShellPhaseCreateDirectory) || bool_decide (p = ShellPhaseCreateOut)
  || bool_decide (p = ShellPhaseCreateErr).

Definition is_tail_phase (p : ShellPhase) : bool :=
  bool_decide (p = ShellPhaseReadOutTail) || bool_decide (p = ShellPhaseReadErrTail).

Definition is_read_phase (p : ShellPhase) : bool :=
  bool_decide (p = ShellPhaseReadOut) || bool_decide (p = ShellPhaseReadErr) || is_tail_phase p.

Definition invalid_phase (kind : string) (p : ShellPhase) : error :=
  errors_New ("shell operation has invalid " +:+ kind +:+ "phase " +:+ quote p).

Definition readRequest (sh : Shell) (paths : shellPaths) : result IOReadRequest :=
  let s := state sh in
  let p := shell_state.Phase s in
  pathSize ←
    (if bool_decide (p = ShellPhaseReadOut) || bool_decide (p = ShellPhaseReadOutTail) then
       Ok (out paths, shell_state.OutSize s)
     else if bool_decide (p = ShellPhaseReadErr) || bool_decide (p = ShellPhaseReadErrTail) then
       Ok (err paths, shell_state.ErrSize s)
     else Err (invalid_phase "read " p));
  let '(path, size) := (pathSize : string * Z) in
  if is_tail_phase p then
    if size <=? shellReadLimit (current sh) then Err (errors_New "invalid shell tail read size")
    else Ok (read.Mk (op.ID' (current sh)) p path
               (size - shellTailReadLimit (current sh)) (shellTailReadLimit (current sh)))
  else Ok (read.Mk (op.ID' (current sh)) p path 0 (shellReadLimit (current sh))).

Definition dispatchPhase (paths : shellPaths) : M Shell Step :=
  sh ← self;
  let id := op.ID' (current sh) in
  let p := shell_state.Phase (state sh) in
  if bool_decide (p = ShellPhaseCreateDirectory) then
    dispatch_ (createShellDirectory id p (directory paths))
  else if bool_decide (p = ShellPhaseCreateOut) then dispatch_ (createShellFile id p (out paths))
  else if bool_decide (p = ShellPhaseCreateErr) then dispatch_ (createShellFile id p (err paths))
  else if bool_decide (p = ShellPhaseProcess) then
    dispatch_ (startShellProcess id (state sh) paths)
  else if is_read_phase p then
    or_fail (readRequest sh paths) (λ request,
      dispatch_ (dispatch.Mk PrimitiveDispatchIORead (DataIORead request)))
  else fail_ (invalid_phase EmptyString p).

Definition next (phase : ShellPhase) (paths : shellPaths) : M Shell Step :=
  _ ← modify (with_state (shell_state.set_Phase phase)); dispatchPhase paths.

Definition resume : M Shell Step :=
  sh ← self;
  if bool_decide (shell_state.Phase (state sh) = ShellPhaseProcess) then
    if shell_state.ProcessGroupID (state sh) =? 0 then
      fail_ (errors_New "shell execution outcome is unknown because process start was not recorded")
    else fail_ (errors_New "shell execution was interrupted before an exit status was recorded")
  else
    or_fail (newShellPaths (shell_state.BaseDirectory (state sh)) (op.ID' (current sh))) (λ paths,
      _ ← modify reset_read; dispatchPhase paths).

(** ** Events *)

Definition created (event : Event) (paths : shellPaths) : M Shell Step :=
  sh ← self;
  let p := shell_state.Phase (state sh) in
  let kind := if bool_decide (p = ShellPhaseCreateDirectory) then IOCreateDirectory
              else IOCreateRegularFile in
  or_fail (validateShellCreate event kind) (λ _,
    if bool_decide (p = ShellPhaseCreateDirectory) then next ShellPhaseCreateOut paths
    else if bool_decide (p = ShellPhaseCreateOut) then
      _ ← modify (with_state (shell_state.set_OutPath (out paths)));
      next ShellPhaseCreateErr paths
    else if bool_decide (p = ShellPhaseCreateErr) then
      _ ← modify (with_state (shell_state.set_ErrPath (err paths)));
      next ShellPhaseProcess paths
    else fail_ (invalid_phase "create " p)).

Definition processEvent (event : Event) (paths : shellPaths) : M Shell Step :=
  if bool_decide (event.Type_ event = PrimitiveEventProcessStarted) then
    match event.Result event with
    | ProcessStartedResult pid =>
      if pid <=? 1 then fail_ (errors_New "start shell returned an invalid result")
      else _ ← modify (with_state (shell_state.set_ProcessGroupID pid)); await
    | _ => fail_ (errors_New "start shell returned an invalid result")
    end
  else if bool_decide (event.Type_ event = PrimitiveEventProcessExited) then
    match event.Result event with
    | ProcessExitResult exitCode signal =>
      _ ← modify (with_state (shell_state.set_exited (shellExitStatus exitCode signal)));
      next ShellPhaseReadOut paths
    | _ => fail_ (errors_New "shell returned an invalid exit result")
    end
  else if bool_decide (event.Type_ event = PrimitiveEventProcessOutput) then
    fail_ (errors_New "captured shell process produced an unexpected output event")
  else if bool_decide (event.Type_ event = PrimitiveEventProcessStreamFailed) then
    fail_ (errors_New "captured shell process returned an unexpected stream failure")
  else fail_ (errors_New ("shell process returned unexpected event " +:+ quote (event.Type_ event))).

Definition finish (paths : shellPaths) : M Shell Step :=
  sh ← self;
  let s := state sh in
  let limit := op.MaxOutputLength (current sh) in
  match shell_state.PendingExitCode s with
  | None => fail_ (errors_New "shell execution completed without an exit status")
  | Some exitCode =>
    o ← lift (boundOutput (shell_state.InlineOut s) (shell_state.InlineOutTail s)
                (shell_state.OutSize s) limit (out paths));
    e ← lift (boundOutput (shell_state.InlineErr s) (shell_state.InlineErrTail s)
                (shell_state.ErrSize s) limit (err paths));
    _ ← modify (with_state (shell_state.set_finished
          (shell_result.Mk (fst o) (fst e) (shell_state.OutSize s) (shell_state.ErrSize s) exitCode)
          (snd o) (snd e) (out paths) (err paths)));
    _ ← modify (with_status StatusCompleted);
    checkpoint
  end.

Definition readCompleted (data : bytes) (size : Z) (paths : shellPaths) : M Shell Step :=
  sh ← self;
  let p := shell_state.Phase (state sh) in
  let o := current sh in
  let needsTail := shellReadLimit o <? size in
  let keep := shellReadLimit o - shellTailReadLimit o in
  data ←
    (if needsTail && (bool_decide (p = ShellPhaseReadOut) || bool_decide (p = ShellPhaseReadErr)) then
       if (keep <? 0) || (len data <? keep) then lift (Panic "slice bounds out of range")
       else mret (take (Z.to_nat keep) data)
     else mret data);
  if bool_decide (p = ShellPhaseReadOut) then
    _ ← modify (with_state (shell_state.set_out data size));
    if needsTail then next ShellPhaseReadOutTail paths else next ShellPhaseReadErr paths
  else if bool_decide (p = ShellPhaseReadOutTail) then
    _ ← modify (with_state (shell_state.set_InlineOutTail data));
    next ShellPhaseReadErr paths
  else if bool_decide (p = ShellPhaseReadErr) then
    _ ← modify (with_state (shell_state.set_err data size));
    if needsTail then next ShellPhaseReadErrTail paths else finish paths
  else if bool_decide (p = ShellPhaseReadErrTail) then
    _ ← modify (with_state (shell_state.set_InlineErrTail data));
    finish paths
  else fail_ (invalid_phase "read " p).

(** The step that changes nothing and starts nothing. *)
Definition empty_step : Step := step.Mk None [].

Definition add_chunk (data : bytes) (sh : Shell) : Shell :=
  MkShell (current sh) (state sh) (chunks sh ++ [data]) (readSize sh + len data).

Definition readEvent (event : Event) (paths : shellPaths) : M Shell Step :=
  sh ← self;
  or_fail (readRequest sh paths) (λ request,
    let size := readSize sh in
    if bool_decide (event.Type_ event = PrimitiveEventIOReadOutput) then
      match event.Result event with
      | IOReadOutputResult offset data =>
        if negb (offset =? read.Offset request + size) then
          fail_ (errors_New "shell read returned invalid output")
        else if read.Count request - size <? len data then
          fail_ (errors_New "shell read exceeded its configured limit")
        else _ ← modify (add_chunk data); mret empty_step
      | _ => fail_ (errors_New "shell read returned invalid output")
      end
    else if bool_decide (event.Type_ event = PrimitiveEventIOReadCompleted) then
      match event.Result event with
      | IOReadCompletedResult total =>
        if (total <? read.Offset request)
           || negb (size =? Z.min (read.Count request) (total - read.Offset request)) then
          fail_ (errors_New "shell read returned an invalid completion")
        else if is_tail_phase (shell_state.Phase (state sh))
                && negb (total =? read.Offset request + read.Count request) then
          fail_ (errors_New "shell capture size changed while reading its tail")
        else
          let data := concat (chunks sh) in
          _ ← modify reset_read;
          readCompleted data total paths
      | _ => fail_ (errors_New "shell read returned an invalid completion")
      end
    else fail_ (errors_New ("shell read returned unexpected event " +:+ quote (event.Type_ event)))).

Definition handleAwaiting (event : Event) : M Shell Step :=
  sh ← self;
  let p := shell_state.Phase (state sh) in
  let oid := op.ID' (current sh) in
  if negb (bool_decide (event.Source event = oid)) then
    fail_ (errors_New ("shell primitive event source is " +:+ quote (event.Source event)
                       +:+ ", want " +:+ quote oid))
  else if bool_decide (event.Type_ event = PrimitiveEventCanceled) then cancel
  else if bool_decide (event.Type_ event = PrimitiveEventFailed) then
    fail_ (shellPrimitiveFailure event)
  else
    or_fail (validateShellCorrelation event p) (λ _,
    or_fail (newShellPaths (shell_state.BaseDirectory (state sh)) oid) (λ paths,
      if is_create_phase p then created event paths
      else if bool_decide (p = ShellPhaseProcess) then processEvent event paths
      else if is_read_phase p then readEvent event paths
      else fail_ (invalid_phase EmptyString p))).

Definition Handle (event : option Event) : M Shell Step :=
  sh ← self;
  let s := state sh in
  let status := op.Status' (current sh) in
  let named (prefix suffix : string) :=
    errors_New (prefix +:+ quote (op.ID' (current sh)) +:+ suffix) in
  if bool_decide (status = StatusReady) then
    _ ← lift (guard_err (bool_decide (is_Some event))
               (named "advance ready shell operation " ": unexpected primitive event"));
    _ ← lift (guard_err (negb (bool_decide (shell_state.Phase s = EmptyString))
                || bool_decide (is_Some (shell_state.Result s))
                || negb (bool_decide (shell_state.TerminalError s = EmptyString)))
               (named "advance ready shell operation " ": state is not initial"));
    or_fail (newShellPaths (shell_state.BaseDirectory s) (op.ID' (current sh))) (λ paths,
      next ShellPhaseCreateDirectory paths)
  else if bool_decide (status = StatusAwaiting) then
    match event with
    | None => resume
    | Some event => handleAwaiting event
    end
  else if bool_decide (status = StatusCanceling) then
    _ ← lift (guard_err (bool_decide (is_Some event))
               (named "advance canceling shell operation " ": unexpected primitive event"));
    cancel
  else fail (named "advance shell operation " (": terminal status " +:+ quote status)).
