(* ===== verification/ShellFacts.v ===== *)
(** * The invariant of shell operations and the contract with the manager

    A shell operation that starts from a well-formed state keeps it through
    every event, never panics, and every checkpoint it returns restores it:
    decoding the checkpoint gives the actor that returned it, less the chunks
    of a read in progress. *)

From Stdlib Require Import Ascii ZArith Lia.
From S2P Require Import Prelude GoStrings GoText Utf8Facts Json JsonCodec Primitives Operation.
From S2P Require Import Output Handler Shell.

Local Open Scope Z_scope.

#[global] Arguments BoundOutput : simpl never.
#[global] Arguments boundOutput : simpl never.

(** ** Well-formed states *)

Definition absolute (path : string) : Prop := path ≠ EmptyString ∧ filepath.IsAbs path = true.

Record valid_state (s : ShellState) : Prop := {
  valid_shell : absolute (shell_input.Shell (shell_state.Input s));
  valid_base : absolute (shell_state.BaseDirectory s);
  valid_group : 0 ≤ shell_state.ProcessGroupID s ∧ shell_state.ProcessGroupID s ≠ 1;
  valid_sizes : 0 ≤ shell_state.OutSize s ∧ 0 ≤ shell_state.ErrSize s;
}.

Lemma validateShellState_ok s : validateShellState s = Ok tt ↔ valid_state s.
Proof.
  unfold validateShellState. split.
  - intros H. repeat (if_in H; [done|]).
    rewrite !orb_false_iff, ?negb_false_iff, ?bool_decide_eq_false in *.
    constructor; unfold absolute; try tauto; lia.
  - intros [[H1 H2] [H3 H4] H5 H6].
    rewrite !bool_decide_false, H2, H4 by done. simpl.
    rewrite !(proj2 (Z.ltb_ge _ _)) by lia. by rewrite (proj2 (Z.eqb_neq _ _)) by lia.
Qed.

Definition read_limit (n : Z) : Z := n * utf8.UTFMax.
Definition tail_limit (n : Z) : Z := (n - n / 2) * utf8.UTFMax.
Definition head_limit (n : Z) : Z := read_limit n - tail_limit n.

(** The windows of one capture are its whole content or its two ends. *)
Definition captured (inline tail : bytes) (size : Z) : Prop := tail = [] → size = len inline.

Record wf_state (n : Z) (s : ShellState) : Prop := {
  wf_jok : jok ShellState_codec s;
  wf_valid : valid_state s;
  wf_out : inline_size (shell_state.InlineOut s) (shell_state.InlineOutTail s) ≤ read_limit n;
  wf_err : inline_size (shell_state.InlineErr s) (shell_state.InlineErrTail s) ≤ read_limit n;
  wf_out_tail : shell_state.Phase s = ShellPhaseReadOutTail →
    len (shell_state.InlineOut s) = head_limit n;
  wf_err_tail : shell_state.Phase s = ShellPhaseReadErrTail →
    len (shell_state.InlineErr s) = head_limit n;
  wf_captured : shell_state.Phase s = ShellPhaseReadErr ∨ shell_state.Phase s = ShellPhaseReadErrTail →
    captured (shell_state.InlineOut s) (shell_state.InlineOutTail s) (shell_state.OutSize s);
}.

Record wf (sh : Shell) : Prop := {
  wf_type : op.Type' (current sh) = TypeShell;
  wf_version : op.Version' (current sh) = VersionShell;
  wf_limit : limit_in_range (op.MaxOutputLength (current sh)) = true;
  wf_nil : op.State (current sh) = VNil;
  wf_read : readSize sh = len (concat (chunks sh));
  wf_of_state : wf_state (op.MaxOutputLength (current sh)) (state sh);
}.

(** The state with another phase, when the phase asks for nothing new. *)
Lemma wf_set_Phase n s p :
  wf_state n s →
  (p = ShellPhaseReadOutTail → len (shell_state.InlineOut s) = head_limit n) →
  (p = ShellPhaseReadErrTail → len (shell_state.InlineErr s) = head_limit n) →
  (p = ShellPhaseReadErr ∨ p = ShellPhaseReadErrTail →
   captured (shell_state.InlineOut s) (shell_state.InlineOutTail s) (shell_state.OutSize s)) →
  wf_state n (shell_state.set_Phase p s).
Proof.
  intros [Hj [] Ho He _ _ _] H1 H2 H3. constructor; simpl; [exact Hj| |done|done|done|done|done].
  by constructor.
Qed.

Lemma wf_set_error n s text truncated :
  wf_state n s → wf_state n (shell_state.set_error text truncated s).
Proof.
  intros [Hj [] Ho He H1 H2 H3]. constructor; simpl; [exact Hj| |done|done|done|done|done].
  by constructor.
Qed.

Lemma wf_set_OutPath n s p : wf_state n s → wf_state n (shell_state.set_OutPath p s).
Proof.
  intros [Hj [] Ho He H1 H2 H3]. constructor; simpl; [exact Hj| |done|done|done|done|done].
  by constructor.
Qed.

Lemma wf_set_ErrPath n s p : wf_state n s → wf_state n (shell_state.set_ErrPath p s).
Proof.
  intros [Hj [] Ho He H1 H2 H3]. constructor; simpl; [exact Hj| |done|done|done|done|done].
  by constructor.
Qed.

Lemma wf_set_ProcessGroupID n s pid :
  wf_state n s → in_int64 pid = true → 1 < pid →
  wf_state n (shell_state.set_ProcessGroupID pid s).
Proof.
  intros [(Hj1 & Hj) [] Ho He H1 H2 H3] Hi Hp.
  constructor; simpl; [by split| |done|done|done|done|done]. constructor; simpl; [done|done|lia|done].
Qed.

Lemma wf_set_exited n s code :
  wf_state n s → in_int64 code = true → wf_state n (shell_state.set_exited code s).
Proof.
  intros [(Hj1 & Hj2 & Hj) [] Ho He H1 H2 H3] Hi.
  constructor; simpl; [|by constructor; simpl; [done|done|lia|done]|done|done|done|done|done].
  destruct Hj as (?&?&?). split_and!; try done.
Qed.

#[local] Hint Resolve wf_set_error wf_set_OutPath wf_set_ErrPath : go.

(** ** Checkpoints *)

Definition pre (o : Operation) (sh : Shell) : Prop := same_identity o (current sh) ∧ wf sh.

Definition shell_inv (o : Operation) (sh : Shell) : Prop :=
  op.Status' o = op.Status' (current sh) ∧ pre o sh.

(** A completed operation has a result. *)
Definition has_result (sh : Shell) : Prop :=
  op.Status' (current sh) = StatusCompleted → shell_state.Result (state sh) ≠ None.

(** What a handled event leaves behind. *)
Definition post (o : Operation) (r : Shell * result Step) : Prop :=
  match snd r with
  | Ok st => shell_inv (next_operation o st) (fst r) ∧ step_ok o st ∧
             (∀ o', step.Operation st = Some o' → NewShell o' = Ok (reset_read (fst r))) ∧
             has_result (fst r)
  | Err _ => True
  | Panic _ => False
  end.

Lemma wf_with_state (f : ShellState → ShellState) sh :
  wf sh → wf_state (op.MaxOutputLength (current sh)) (f (state sh)) → wf (with_state f sh).
Proof. intros [] H. by constructor. Qed.

Lemma wf_with_status s sh : wf sh → wf (with_status s sh).
Proof. intros []. by constructor. Qed.

Lemma wf_reset_read sh : wf sh → wf (reset_read sh).
Proof. intros []. by constructor. Qed.

#[local] Hint Resolve wf_with_status wf_reset_read : go.

Lemma wf_bound_error sh : wf sh → wf_state (op.MaxOutputLength (current sh)) (bound_error sh).
Proof.
  intros Hwf. pose proof (wf_of_state _ Hwf). unfold bound_error.
  destruct (shell_state.ErrorTruncated (state sh)); [done|].
  destruct (BoundOutput _ _). auto with go.
Qed.

Lemma NewShell_checkpoint sh encoded :
  wf sh → Marshal ShellState_codec (state sh) = Ok encoded →
  NewShell (op.set_state encoded (current sh)) = Ok (reset_read sh).
Proof.
  intros [Ht Hv Hl Hn Hr [Hj Hval Ho He _ _ _]] Hm.
  unfold NewShell, shellOperationState, DecodeShellState. simpl.
  rewrite bool_decide_true, Hv, Hl, (Unmarshal_Marshal ShellState_codec _ _ Hj Hm) by done. simpl.
  rewrite (proj2 (validateShellState_ok _) Hval). simpl.
  unfold shellReadLimit. simpl. unfold read_limit in Ho, He.
  rewrite !(proj2 (Z.ltb_ge _ _)) by done. simpl. unfold reset_read. do 2 f_equal.
  destruct sh as [[] ? ? ?]; simpl in *. by subst.
Qed.

Lemma checkpoint_post o sh :
  pre o sh →
  op.Status' (current sh) = StatusAwaiting ∨ localOperationFinished (op.Status' (current sh)) = true →
  has_result sh → post o (checkpoint sh).
Proof.
  intros [Hid Hwf] Hs Hres. unfold checkpoint.
  set (sh1 := with_state (λ _, bound_error sh) sh).
  assert (wf sh1) as Hwf1 by (apply wf_with_state; [done|by apply wf_bound_error]).
  destruct (Marshal ShellState_codec (state sh1)) as [encoded|e|t] eqn:Hm; simpl.
  - unfold post. simpl. split; [|split; [|split]].
    + split; [done|]. split; [|done]. by repeat split.
    + apply step_ok_checkpoint; [|done]. destruct Hid as (?&?&?&?&?). by repeat split.
    + intros ? [= <-]. exact (NewShell_checkpoint sh1 encoded Hwf1 Hm).
    + unfold has_result, sh1, bound_error in *. simpl.
      destruct (shell_state.ErrorTruncated _); [done|]. by destruct (BoundOutput _ _).
  - done.
  - pose proof (Marshal_returns ShellState_codec (state sh1)) as H. by rewrite Hm in H.
Qed.

Lemma pre_with_status o s sh : pre o sh → pre o (with_status s sh).
Proof. intros [[? ?] ?]. split; [by split|auto with go]. Qed.

Lemma pre_with_state o f sh :
  pre o sh → wf_state (op.MaxOutputLength (current sh)) (f (state sh)) → pre o (with_state f sh).
Proof. intros [? ?] ?. split; [done|by apply wf_with_state]. Qed.

Lemma pre_reset_read o sh : pre o sh → pre o (reset_read sh).
Proof. intros [? ?]. split; [done|auto with go]. Qed.

Lemma await_post o sh : pre o sh → post o (await sh).
Proof.
  intros H. unfold await. autorewrite with M.
  apply checkpoint_post; [by apply pre_with_status|by left|done].
Qed.

(** The states that [fail] and [cancel] leave. *)
Lemma ended_post o sh s text :
  pre o sh → localOperationFinished s = true → s ≠ StatusCompleted →
  post o (checkpoint (with_status s (with_state (shell_state.set_error text false)
            (with_state (shell_state.set_Phase EmptyString) (reset_read sh))))).
Proof.
  intros H Hs Hc. pose proof (wf_of_state _ (proj2 H)). apply checkpoint_post; [|by right|intros Heq; by destruct (Hc Heq)].
  apply pre_with_status, pre_with_state; [apply pre_with_state; [by apply pre_reset_read|]|].
  - apply wf_set_Phase; [done|done|done|by intros [|]].
  - apply wf_set_error, wf_set_Phase; [done|done|done|by intros [|]].
Qed.

Lemma fail_post o e sh : pre o sh → post o (fail_ e sh).
Proof. intros H. unfold fail_. autorewrite with M. apply ended_post; [done|done|discriminate]. Qed.

Lemma cancel_post o sh : pre o sh → post o (cancel sh).
Proof. intros H. unfold cancel. autorewrite with M. apply ended_post; [done|done|discriminate]. Qed.

Lemma await_status sh sh' st o' :
  await sh = (sh', Ok st) → step.Operation st = Some o' → op.Status' o' = StatusAwaiting.
Proof.
  unfold await. autorewrite with M. unfold checkpoint.
  destruct (map_err _ _); intros [= <- <-]. simpl. by intros [= <-].
Qed.

Lemma dispatch_status d sh sh' st o' :
  dispatch_ d sh = (sh', Ok st) → step.Operation st = Some o' → op.Status' o' = StatusAwaiting.
Proof.
  unfold dispatch_, mbind, M_bind. destruct (await sh) as [sh1 [st1| |]] eqn:E; [|done|done].
  intros [= <- <-]. simpl. by eapply await_status.
Qed.

Lemma dispatch_post o d sh :
  pre o sh → dispatch_for (op.ID' o) d → post o (dispatch_ d sh).
Proof.
  intros H Hd. pose proof (await_post o sh H) as Hp. unfold dispatch_, mbind, M_bind.
  destruct (await sh) as [sh' [st|e|t]] eqn:E; unfold post in *; simpl in *; [|done|done].
  destruct Hp as (Hinv & (Hst & _ & _) & Hre & Hres).
  split; [done|]. split; [|done]. split; [|split]; simpl; [|by constructor|lia].
  intros o' Ho'. destruct (Hst o' Ho') as [Hid Hs]. split; [done|].
  left. by eapply await_status.
Qed.

Lemma or_fail_post {A} o (r : result A) k sh :
  pre o sh → returns r = true → (∀ a, r = Ok a → post o (k a sh)) → post o (or_fail r k sh).
Proof. intros H Hr Hk. destruct r; simpl; [by apply Hk|by apply fail_post|done]. Qed.

(** ** Captures *)

Lemma limits n :
  limit_in_range n = true →
  0 < tail_limit n ∧ 0 ≤ head_limit n ∧ head_limit n + tail_limit n = read_limit n ∧
  0 < read_limit n ∧ head_limit n = utf8.UTFMax * (n / 2).
Proof.
  unfold limit_in_range, tail_limit, head_limit, read_limit, tail_limit, utf8.UTFMax.
  intros [?%Z.ltb_lt _]%andb_true_iff. Z.to_euclidean_division_equations. lia.
Qed.

Lemma len_nil_inv {A} (l : list A) n : len l = n → 0 < n → l ≠ [].
Proof. intros <- H ->. unfold len in H. simpl in H. lia. Qed.

Lemma wf_set_out n s inline size :
  wf_state n s → shell_state.Phase s = ShellPhaseReadOut →
  0 ≤ size → in_int64 size = true → len inline ≤ read_limit n →
  wf_state n (shell_state.set_out inline size s).
Proof.
  intros [(Hj1 & Hj2 & Hj3 & Hj4 & Hj5) [] Ho He H1 H2 H3] Hp Hs Hi Hl.
  constructor; simpl; [by split_and!| | |done| | |].
  - constructor; simpl; [done|done|done|lia].
  - unfold inline_size, len in *. simpl. lia.
  - by rewrite Hp.
  - by rewrite Hp.
  - by rewrite Hp; intros [|].
Qed.

Lemma wf_set_err n s inline size :
  wf_state n s → shell_state.Phase s = ShellPhaseReadErr →
  0 ≤ size → in_int64 size = true → len inline ≤ read_limit n →
  wf_state n (shell_state.set_err inline size s).
Proof.
  intros [(Hj1 & Hj2 & Hj3 & Hj4 & Hj5) [] Ho He H1 H2 H3] Hp Hs Hi Hl.
  constructor; simpl; [by split_and!| |done| | | |].
  - constructor; simpl; [done|done|done|lia].
  - unfold inline_size, len in *. simpl. lia.
  - by rewrite Hp.
  - by rewrite Hp.
  - intros H. apply H3. by rewrite Hp in *.
Qed.

Lemma wf_set_InlineOutTail n s tail :
  wf_state n s → shell_state.Phase s = ShellPhaseReadOutTail → len tail = tail_limit n →
  wf_state n (shell_state.set_InlineOutTail tail s).
Proof.
  intros [Hj [] Ho He H1 H2 H3] Hp Hl.
  constructor; simpl; [exact Hj| | |done|done|done|by rewrite Hp; intros [|]].
  - by constructor.
  - unfold inline_size. rewrite (H1 Hp), Hl. unfold head_limit. lia.
Qed.

Lemma wf_set_InlineErrTail n s tail :
  wf_state n s → shell_state.Phase s = ShellPhaseReadErrTail → len tail = tail_limit n →
  wf_state n (shell_state.set_InlineErrTail tail s).
Proof.
  intros [Hj [] Ho He H1 H2 H3] Hp Hl.
  constructor; simpl; [exact Hj| |done| |done|done|done].
  - by constructor.
  - unfold inline_size. rewrite (H2 Hp), Hl. unfold head_limit. lia.
Qed.

Lemma boundOutput_captured inline tail size limit path :
  captured inline tail size → ∃ r, boundOutput inline tail size limit path = Ok r.
Proof.
  unfold captured, boundOutput. intros H.
  destruct (outputPart inline _ false) as [h hs]. destruct tail as [|x tail].
  - rewrite (H eq_refl), Z.eqb_refl. cbn [negb]. destruct (outputPart inline _ true).
    case_match; eauto.
  - destruct (outputPart (x :: tail) _ true). eauto.
Qed.

Lemma wf_set_finished n s r ot et op ep :
  wf_state n s → limit_in_range n = true → jok ShellResult_codec r →
  wf_state n (shell_state.set_finished r ot et op ep s).
Proof.
  intros [(Hj1 & Hj2 & Hj3 & Hj4 & Hj5) [] Ho He H1 H2 H3] Hn Hr. apply limits in Hn.
  constructor; cbn -[jok]; [| | | |done|done|by intros [|]].
  - refine (conj Hj1 (conj I (conj Hj3 (conj Hj4 (conj Hr _))))).
    simpl. unfold enc_struct. by destruct (enc_fields _).
  - by constructor.
  - unfold inline_size, len. simpl. lia.
  - unfold inline_size, len. simpl. lia.
Qed.

(** ** Phases *)

Ltac post_branches :=
  repeat match goal with
  | |- post _ (fail_ _ _) => apply fail_post; assumption
  | |- post _ (cancel _) => apply cancel_post; assumption
  | |- post _ ((if ?b then _ else _) _) => destruct b eqn:?
  | |- post _ (match ?r with _ => _ end _) => destruct r eqn:?
  end.

Lemma dispatchPhase_post o paths sh : pre o sh → post o (dispatchPhase paths sh).
Proof.
  intros H. pose proof (proj1 H) as (_ & Hid & _).
  unfold dispatchPhase. autorewrite with M.
  post_branches;
    lazymatch goal with
    | |- post _ (dispatch_ _ _) => apply dispatch_post; [assumption|by repeat split]
    | _ => idtac
    end.
  apply or_fail_post; [done| |].
  - unfold readRequest. go_returns.
  - intros request Hreq. apply dispatch_post; [done|]. split; [done|]. simpl.
    unfold readRequest in Hreq. apply bind_ok in Hreq as ([path size] & _ & Hreq).
    repeat (if_in Hreq; try done); by injection Hreq as <-.
Qed.

(** The conditions on entering a phase. *)
Definition enters (n : Z) (p : ShellPhase) (s : ShellState) : Prop :=
  (p = ShellPhaseReadOutTail → len (shell_state.InlineOut s) = head_limit n) ∧
  (p = ShellPhaseReadErrTail → len (shell_state.InlineErr s) = head_limit n) ∧
  (p = ShellPhaseReadErr ∨ p = ShellPhaseReadErrTail →
   captured (shell_state.InlineOut s) (shell_state.InlineOutTail s) (shell_state.OutSize s)).

Lemma next_post o p paths sh :
  pre o sh → enters (op.MaxOutputLength (current sh)) p (state sh) → post o (next p paths sh).
Proof.
  intros H (H1 & H2 & H3). unfold next. autorewrite with M.
  apply dispatchPhase_post, pre_with_state; [done|].
  apply wf_set_Phase; [apply H|done|done|done].
Qed.

Lemma newShellPaths_returns base id : returns (newShellPaths base id) = true.
Proof. unfold newShellPaths. go_returns. Qed.

Lemma resume_post o sh : pre o sh → post o (resume sh).
Proof.
  intros H. unfold resume. autorewrite with M.
  post_branches.
  apply or_fail_post; [done|apply newShellPaths_returns|]. intros paths _.
  autorewrite with M. by apply dispatchPhase_post, pre_reset_read.
Qed.

Ltac plain_phase := by split_and!; intros; repeat match goal with H : _ ∨ _ |- _ => destruct H end.

Lemma created_post o event paths sh : pre o sh → post o (created event paths sh).
Proof.
  intros H. pose proof (wf_of_state _ (proj2 H)). unfold created. autorewrite with M.
  apply or_fail_post; [done|apply returns_guard_err|]. intros _ _.
  post_branches; autorewrite with M; (apply next_post; [|plain_phase]);
    try apply pre_with_state; auto with go.
Qed.

Lemma processEvent_post o event paths sh :
  pre o sh → event_typed event = true → post o (processEvent event paths sh).
Proof.
  intros H Ht. pose proof (wf_of_state _ (proj2 H)). unfold processEvent, event_typed in *.
  post_branches; simpl in Ht.
  - autorewrite with M. apply await_post, pre_with_state; [done|].
    apply wf_set_ProcessGroupID; [done|done|]. by apply Z.leb_gt.
  - autorewrite with M. apply next_post; [|plain_phase]. apply pre_with_state; [done|].
    apply wf_set_exited; [done|]. unfold shellExitStatus. apply andb_true_iff in Ht as [Ht _].
    destruct (negb _); [apply wrap_int64_range|done].
Qed.

Lemma finish_post o paths sh :
  pre o sh →
  captured (shell_state.InlineOut (state sh)) (shell_state.InlineOutTail (state sh))
    (shell_state.OutSize (state sh)) →
  captured (shell_state.InlineErr (state sh)) (shell_state.InlineErrTail (state sh))
    (shell_state.ErrSize (state sh)) →
  post o (finish paths sh).
Proof.
  intros H Ho He. pose proof (wf_of_state _ (proj2 H)) as Hst. unfold finish. autorewrite with M.
  destruct (shell_state.PendingExitCode (state sh)) as [code|] eqn:Ec; [|by apply fail_post].
  destruct (boundOutput_captured _ _ _ (op.MaxOutputLength (current sh)) (out paths) Ho) as [ro ->].
  destruct (boundOutput_captured _ _ _ (op.MaxOutputLength (current sh)) (err paths) He) as [re ->].
  autorewrite with M. apply checkpoint_post; [|by right|done].
  apply pre_with_status, pre_with_state; [done|].
  apply wf_set_finished; [done|by apply H|].
  destruct (wf_jok _ _ Hst) as (_ & Hc & Hj3 & Hj4 & _). rewrite Ec in Hc. by destruct Hc.
Qed.

(** What a completed read delivers to its phase. *)
Definition delivered (n : Z) (p : ShellPhase) (data : bytes) (size : Z) : Prop :=
  if is_tail_phase p then len data = tail_limit n
  else len data = Z.min (read_limit n) size.

Lemma readCompleted_post o data size paths sh :
  pre o sh → 0 ≤ size → in_int64 size = true →
  delivered (op.MaxOutputLength (current sh)) (shell_state.Phase (state sh)) data size →
  post o (readCompleted data size paths sh).
Proof.
  intros H Hs Hi Hd. pose proof (wf_of_state _ (proj2 H)) as Hst.
  pose proof (limits _ (wf_limit _ (proj2 H))) as (Hl1 & Hl2 & Hl3 & Hl4 & _).
  set (n := op.MaxOutputLength (current sh)) in *.
  unfold readCompleted. autorewrite with M.
  change (shellReadLimit (current sh)) with (read_limit n).
  change (shellTailReadLimit (current sh)) with (tail_limit n). fold (head_limit n).
  set (p := shell_state.Phase (state sh)) in *. unfold delivered in Hd.
  destruct (bool_decide_reflect (p = ShellPhaseReadOut)) as [Hp|Hp1];
    [|destruct (bool_decide_reflect (p = ShellPhaseReadOutTail)) as [Hp|Hp2];
      [|destruct (bool_decide_reflect (p = ShellPhaseReadErr)) as [Hp|Hp3];
        [|destruct (bool_decide_reflect (p = ShellPhaseReadErrTail)) as [Hp|Hp4]]]].
  - rewrite Hp in Hd. change (is_tail_phase ShellPhaseReadOut) with false in Hd. cbv iota in Hd.
    rewrite orb_true_l, andb_true_r. destruct (Z.ltb_spec (read_limit n) size) as [Hlt|Hge].
    + rewrite (proj2 (Z.ltb_ge _ _)), (proj2 (Z.ltb_ge (len data) _)) by lia.
      cbn [orb]. autorewrite with M.
      assert (len (take (Z.to_nat (head_limit n)) data) = head_limit n) as Hlen.
      { unfold len in *. rewrite length_take. lia. }
      apply next_post; [apply pre_with_state; [done|]; apply wf_set_out; auto; fold n; lia|].
      split_and!; [by intros _|done|by intros [|]].
    + autorewrite with M.
      apply next_post; [apply pre_with_state; [done|]; apply wf_set_out; auto; fold n; lia|].
      split_and!; [done|done|]. intros _ _. simpl. lia.
  - rewrite Hp in Hd. change (is_tail_phase ShellPhaseReadOutTail) with true in Hd. cbv iota in Hd.
    rewrite (bool_decide_false (p = ShellPhaseReadErr)) by (by rewrite Hp).
    rewrite orb_false_r, andb_false_r. autorewrite with M.
    apply next_post; [apply pre_with_state; [done|]; by apply wf_set_InlineOutTail|].
    split_and!; [done|done|]. intros _ Hnil. simpl in Hnil. by apply len_nil_inv in Hd.
  - rewrite Hp in Hd. change (is_tail_phase ShellPhaseReadErr) with false in Hd. cbv iota in Hd.
    rewrite orb_true_r, andb_true_r. destruct (Z.ltb_spec (read_limit n) size) as [Hlt|Hge].
    + rewrite (proj2 (Z.ltb_ge _ _)), (proj2 (Z.ltb_ge (len data) _)) by lia.
      cbn [orb]. autorewrite with M.
      assert (len (take (Z.to_nat (head_limit n)) data) = head_limit n) as Hlen.
      { unfold len in *. rewrite length_take. lia. }
      apply next_post; [apply pre_with_state; [done|]; apply wf_set_err; auto; fold n; lia|].
      split_and!; [done|by intros _|]. intros _. simpl. apply (wf_captured _ _ Hst). by left.
    + autorewrite with M.
      apply finish_post; [apply pre_with_state; [done|]; apply wf_set_err; auto; fold n; lia| |].
      * simpl. apply (wf_captured _ _ Hst). by left.
      * intros _. simpl. lia.
  - rewrite Hp in Hd. change (is_tail_phase ShellPhaseReadErrTail) with true in Hd. cbv iota in Hd.
    cbn [orb]. rewrite andb_false_r. autorewrite with M.
    apply finish_post; [apply pre_with_state; [done|]; by apply wf_set_InlineErrTail| |].
    + simpl. apply (wf_captured _ _ Hst). by right.
    + intros Hnil. simpl in Hnil. by apply len_nil_inv in Hd.
  - cbn [orb]. rewrite andb_false_r. autorewrite with M. by apply fail_post.
Qed.

(** The request of a read phase. *)
Lemma readRequest_ok sh paths request :
  readRequest sh paths = Ok request → wf sh →
  let n := op.MaxOutputLength (current sh) in
  let p := shell_state.Phase (state sh) in
  0 ≤ read.Offset request ∧
  read.Count request = (if is_tail_phase p then tail_limit n else read_limit n) ∧
  (is_tail_phase p = false → read.Offset request = 0) ∧
  read.Source request = op.ID' (current sh) ∧ read.Correlation request = p.
Proof.
  intros Hr Hwf n p. pose proof (limits _ (wf_limit _ Hwf)) as (Hl1 & Hl2 & Hl3 & Hl4 & _).
  fold n in Hl1, Hl2, Hl3, Hl4.
  unfold readRequest in Hr. apply bind_ok in Hr as ([path size] & _ & Hr). fold p in Hr.
  destruct (is_tail_phase p) eqn:Et.
  - if_in Hr; [done|]. injection Hr as <-. simpl.
    change (shellReadLimit (current sh)) with (read_limit n) in *.
    change (shellTailReadLimit (current sh)) with (tail_limit n).
    split_and!; [lia|done|done|done|done].
  - injection Hr as <-. simpl. by split_and!.
Qed.

Lemma pre_add_chunk o data sh : pre o sh → pre o (add_chunk data sh).
Proof.
  intros [Hid [Ht Hv Hl Hn Hr Hs]]. split; [done|]. constructor; simpl; try done.
  rewrite concat_app, Hr. unfold len. simpl. rewrite !length_app. simpl. lia.
Qed.

Lemma readEvent_post o event paths sh :
  shell_inv o sh → event_typed event = true → op.Status' (current sh) = StatusAwaiting →
  post o (readEvent event paths sh).
Proof.
  intros [Hstatus H] Ht Hawait. unfold readEvent, event_typed in *. autorewrite with M.
  apply or_fail_post; [done|unfold readRequest; go_returns|]. intros request Hreq.
  destruct (readRequest_ok _ _ _ Hreq (proj2 H)) as (Hoff & Hcount & Hzero & _ & _).
  cbv zeta. post_branches; autorewrite with M.
  - unfold post, mret, M_ret. cbn [fst snd]. split; [|split; [|split]].
    + split; [done|by apply pre_add_chunk].
    + apply step_ok_none; [constructor|simpl; lia].
    + done.
    + intros Hc. simpl in Hc. by rewrite Hc in Hawait.
  - simpl in Ht. apply orb_false_iff in Heqb1 as [?%Z.ltb_ge Hsize%negb_false_iff%Z.eqb_eq].
    rewrite (wf_read _ (proj2 H)) in Hsize.
    apply readCompleted_post; [by apply pre_reset_read|lia|done|].
    unfold delivered. simpl. destruct (is_tail_phase _) eqn:Et.
    + simpl in Heqb2. apply negb_false_iff, Z.eqb_eq in Heqb2. lia.
    + rewrite (Hzero eq_refl) in Hsize. rewrite Hsize, Hcount. f_equal. lia.
Qed.

Lemma handleAwaiting_post o event sh :
  shell_inv o sh → event_typed event = true → op.Status' (current sh) = StatusAwaiting →
  post o (handleAwaiting event sh).
Proof.
  intros Hinv Ht Hawait. pose proof (proj2 Hinv) as H. unfold handleAwaiting. autorewrite with M.
  post_branches.
  apply or_fail_post; [done|apply returns_guard_err|]. intros _ _.
  apply or_fail_post; [done|apply newShellPaths_returns|]. intros paths _.
  destruct (is_create_phase _); [by apply created_post|].
  destruct (bool_decide (shell_state.Phase (state sh) = ShellPhaseProcess));
    [by apply processEvent_post|].
  destruct (is_read_phase _); [by apply readEvent_post|].
  by apply fail_post.
Qed.

Lemma guard_post {A} b e (k : unit → M Shell A) (P : Shell * result A → Prop) sh :
  (∀ s x, P (s, Err x)) → P (k tt sh) → P ((lift (guard_err b e) ≫= k) sh).
Proof. intros He Hk. destruct b; simpl; [apply He|apply Hk]. Qed.

Lemma Handle_post o event sh :
  shell_inv o sh → typed event → post o (Handle event sh).
Proof.
  intros Hinv Ht. pose proof (proj2 Hinv) as H. unfold Handle. autorewrite with M. cbv zeta.
  destruct (bool_decide (_ = StatusReady)).
  { apply (guard_post _ _ _ (post o)); [done|]. apply (guard_post _ _ _ (post o)); [done|].
    apply or_fail_post; [done|apply newShellPaths_returns|].
    intros paths _. apply next_post; [done|plain_phase]. }
  destruct (bool_decide_reflect (op.Status' (current sh) = StatusAwaiting)).
  { destruct event; [by apply handleAwaiting_post|by apply resume_post]. }
  destruct (bool_decide (_ = StatusCanceling)); [|done].
  apply (guard_post _ _ _ (post o)); [done|]. by apply cancel_post.
Qed.

(** A finished operation handles nothing. *)
Lemma Handle_not_finished event sh sh' st :
  Handle event sh = (sh', Ok st) → localOperationFinished (op.Status' (current sh)) = false.
Proof.
  unfold Handle. autorewrite with M. intros H.
  destruct (bool_decide_reflect (op.Status' (current sh) = StatusReady)) as [->|]; [done|].
  destruct (bool_decide_reflect (op.Status' (current sh) = StatusAwaiting)) as [->|]; [done|].
  by destruct (bool_decide_reflect (op.Status' (current sh) = StatusCanceling)) as [->|].
Qed.

(** ** The contract *)

#[export] Instance shell_handler : OperationHandler Shell := {|
  handle sh _ event := Handle event sh;
  handler_inv o sh := shell_inv o sh |}.

#[export] Instance shell_lawful : LawfulHandler Shell.
Proof.
  constructor; simpl.
  - intros sh o event sh' st Hinv Ht H. pose proof (Handle_post o event sh Hinv Ht) as Hp.
    rewrite H in Hp. destruct Hp as (H1 & H2 & _). split; [done|]. split; [done|].
    rewrite (proj1 Hinv). by eapply Handle_not_finished.
  - intros sh o event Hinv Ht. pose proof (Handle_post o event sh Hinv Ht) as Hp.
    unfold post in Hp. by destruct (snd (Handle event sh)).
Qed.

(** A new actor of a well-formed checkpoint satisfies the invariant. *)
Lemma NewShell_inv o sh :
  NewShell o = Ok sh →
  wf_state (op.MaxOutputLength o) (state sh) →
  shell_inv o sh.
Proof.
  unfold NewShell. intros H Hst. apply bind_ok in H as (s & Hs & [= <-]). simpl in Hst.
  unfold shellOperationState, DecodeShellState in Hs. apply bind_ok in Hs as (s' & Hd & _).
  if_in Hd; [|done]. if_in Hd; [|done]. if_in Hd; [|done].
  split; [done|]. split; [by repeat split|]. by constructor.
Qed.

Lemma wf_initial input base n :
  validateShellState (initial_state input base) = Ok tt → limit_in_range n = true →
  wf_state n (initial_state input base).
Proof.
  intros Hv Hn. apply validateShellState_ok in Hv. apply limits in Hn.
  constructor; simpl; [by split_and!|done|unfold inline_size, len; simpl; lia
    |unfold inline_size, len; simpl; lia|done|done|by intros [|]].
Qed.

(** Every event leaves a shell operation well formed: handling the start,
    a restart or any primitive event whose integers fit their types, in any
    status and phase, never panics; the step keeps the operation's identity,
    dispatches at most one primitive that the manager can start and whose
    events come back to the operation, and dispatches none once finished; and
    a finished operation handles nothing. *)
Theorem shell_handle_safe o sh event :
  shell_inv o sh → typed event →
  (∀ t, snd (Handle event sh) ≠ Panic t) ∧
  (∀ sh' st, Handle event sh = (sh', Ok st) →
     shell_inv (next_operation o st) sh' ∧ step_ok o st ∧
     localOperationFinished (op.Status' o) = false).
Proof.
  intros Hinv Ht. split.
  - intros t. apply returns_not_panic. exact (handle_returns sh o event Hinv Ht).
  - intros sh' st H. exact (handle_ok sh o event sh' st Hinv Ht H).
Qed.

(** A checkpoint restores the actor: whatever step an event gives, the
    operation in it decodes to the actor that returned it, with the chunks of
    a read in progress forgotten. *)
Theorem shell_checkpoint_restores o sh event sh' st o' :
  shell_inv o sh → typed event → Handle event sh = (sh', Ok st) →
  step.Operation st = Some o' →
  NewShell o' = Ok (reset_read sh') ∧ shell_inv o' (reset_read sh').
Proof.
  intros Hinv Ht H Ho. pose proof (Handle_post o event sh Hinv Ht) as Hp.
  rewrite H in Hp. destruct Hp as ((H1 & H2) & _ & H3 & _). specialize (H3 o' Ho).
  split; [done|]. unfold next_operation in *. rewrite Ho in H1, H2.
  split; [done|by apply pre_reset_read].
Qed.

Definition sample_input : ShellInput := shell_input.Mk "true" "/bin/sh" EmptyString.

Definition sample_operation : Operation :=
  match NewShellSpec sample_input "/base" 10 with
  | Ok s => new_operation "op" s
  | _ => op.Mk 0 EmptyString EmptyString 0 EmptyString VNil VNil
  end.

Definition sample_shell : Shell :=
  MkShell (op.set_state VNil sample_operation) (initial_state sample_input "/base") [] 0.

Lemma sample_inv : shell_inv sample_operation sample_shell.
Proof.
  apply NewShell_inv; [vm_compute; reflexivity|].
  apply wf_initial; vm_compute; reflexivity.
Qed.

Lemma shell_handle_safe_witness :
  shell_inv sample_operation sample_shell ∧
  (∀ t, snd (Handle None sample_shell) ≠ Panic t) ∧
  (∀ sh' st, Handle None sample_shell = (sh', Ok st) →
     shell_inv (next_operation sample_operation st) sh' ∧ step_ok sample_operation st ∧
     localOperationFinished (op.Status' sample_operation) = false).
Proof. split; [exact sample_inv|]. exact (shell_handle_safe _ _ None sample_inv I). Defined.

Definition sample_started : Shell * result Step := Handle None sample_shell.

Definition sample_checkpoint : Operation :=
  match snd sample_started with
  | Ok st => next_operation sample_operation st
  | _ => sample_operation
  end.

Lemma shell_checkpoint_restores_witness :
  ∃ st, sample_started = (fst sample_started, Ok st) ∧ step.Operation st = Some sample_checkpoint ∧
  NewShell sample_checkpoint = Ok (reset_read (fst sample_started)) ∧
  shell_inv sample_checkpoint (reset_read (fst sample_started)).
Proof.
  eexists. split; [vm_compute; reflexivity|]. split; [vm_compute; reflexivity|].
  eapply (shell_checkpoint_restores sample_operation sample_shell None (fst sample_started));
    [exact sample_inv|exact I|vm_compute; reflexivity|vm_compute; reflexivity].
Defined.
