(* ===== verification/ShellRun.v ===== *)
(** * Running a shell operation to its end

    The events of the primitives that a shell operation dispatches, fed back
    to it: an operation whose process exits reads both captures, whatever
    their sizes, and completes with exactly the bounded texts of the complete
    captures and the exit status. *)

From Stdlib Require Import Ascii ZArith Lia.
From S2P Require Import Prelude GoStrings GoText Utf8Facts Json JsonCodec Primitives Operation.
From S2P Require Import Output Handler Shell ShellFacts.

Local Open Scope Z_scope.

(** ** States that can be encoded *)

Record strings_ok (s : ShellState) : Prop := {
  ok_input : is_Some (enc ShellInput_codec (shell_state.Input s));
  ok_base : string_ok (shell_state.BaseDirectory s) = true;
  ok_phase : string_ok (shell_state.Phase s) = true;
  ok_result : is_Some (enc (ptr_codec ShellResult_codec) (shell_state.Result s));
  ok_error : shell_state.ErrorTruncated s = true → string_ok (shell_state.TerminalError s) = true;
  ok_out : string_ok (shell_state.OutPath s) = true;
  ok_err : string_ok (shell_state.ErrPath s) = true;
}.

Lemma bound_error_ok sh :
  strings_ok (state sh) →
  strings_ok (bound_error sh) ∧ string_ok (shell_state.TerminalError (bound_error sh)) = true.
Proof.
  intros [Hi Hb Hp Hr He Ho Hx]. unfold bound_error.
  destruct (shell_state.ErrorTruncated (state sh)) eqn:E.
  - split; [constructor; auto|auto].
  - destruct (BoundOutput _ _) as [text truncated] eqn:Eb.
    pose proof (BoundOutput_ok (shell_state.TerminalError (state sh))
      (op.MaxOutputLength (current sh))) as Hok. rewrite Eb in Hok. simpl in Hok.
    split; [constructor; simpl; auto|done].
Qed.

Lemma state_encodes s :
  strings_ok s → string_ok (shell_state.TerminalError s) = true →
  is_Some (enc ShellState_codec s).
Proof.
  intros [Hi Hb Hp Hr _ Ho Hx] He. simpl. unfold ShellState_fields. struct_encodes; done.
Qed.

(** A state that was decoded from a checkpoint can be encoded. *)
Lemma decoded_strings_ok o s : DecodeShellState o = Ok s → strings_ok s.
Proof.
  unfold DecodeShellState. intros H. do 3 (if_in H; [|done]).
  apply map_err_ok, (Unmarshal_again ShellState_codec) in H as [j H]. apply Marshal_encodes in H.
  constructor; intros; try apply string_decoded;
    (eapply (enc_struct_fields _ _ false); [exact H|in_list|reflexivity]).
Qed.

Lemma checkpoint_runs sh :
  strings_ok (state sh) →
  ∃ encoded, checkpoint sh
  = (with_state (λ _, bound_error sh) sh, Ok (checkpoint_step (op.set_state encoded (current sh)))).
Proof.
  intros Hs. destruct (bound_error_ok sh Hs) as [Hb He].
  destruct (Marshal_total ShellState_codec (bound_error sh)) as [j Hj]; [by apply state_encodes|].
  exists (VText j). unfold checkpoint. simpl. by rewrite Hj.
Qed.

(** The part of a state that neither a checkpoint nor a phase changes. *)
Definition error_free (s : ShellState) : Prop := shell_state.TerminalError s = EmptyString.

Lemma bound_error_free sh : error_free (state sh) → bound_error sh = state sh.
Proof.
  unfold error_free. intros H. unfold bound_error. destruct (shell_state.ErrorTruncated (state sh)) eqn:E; [done|].
  rewrite H, BoundOutput_empty. destruct (state sh). simpl in *. by subst.
Qed.

Lemma await_runs sh :
  strings_ok (state sh) → error_free (state sh) →
  ∃ o', await sh = (with_status StatusAwaiting sh, Ok (checkpoint_step o')).
Proof.
  intros Hs He. destruct (checkpoint_runs (with_status StatusAwaiting sh) Hs) as [encoded Hc].
  eexists. unfold await. autorewrite with M. rewrite Hc.
  rewrite (bound_error_free (with_status StatusAwaiting sh) He). by destruct sh.
Qed.

Lemma dispatch_runs d sh :
  strings_ok (state sh) → error_free (state sh) →
  ∃ o', dispatch_ d sh = (with_status StatusAwaiting sh, Ok (step.Mk (Some o') [d])).
Proof.
  intros Hs He. destruct (await_runs sh Hs He) as [o' Ha].
  exists o'. unfold dispatch_, mbind, M_bind. by rewrite Ha.
Qed.

(** ** Feeding a read *)

(** Handles the events in turn; the last step is the result. *)
Fixpoint feed (sh : Shell) (last : Step) (evs : list Event) : Shell * result Step :=
  match evs with
  | [] => (sh, Ok last)
  | e :: evs =>
    match Handle (Some e) sh with
    | (sh', Ok st) => feed sh' st evs
    | r => r
    end
  end.

(** The actor waits in read phase [p] of a capture. *)
Record reads (sh : Shell) (p : ShellPhase) (paths : shellPaths) (req : IOReadRequest) : Prop := {
  reads_status : op.Status' (current sh) = StatusAwaiting;
  reads_phase : shell_state.Phase (state sh) = p;
  reads_is : is_read_phase p = true;
  reads_paths : newShellPaths (shell_state.BaseDirectory (state sh)) (op.ID' (current sh)) = Ok paths;
  reads_request : readRequest sh paths = Ok req;
}.

Lemma is_read_not_create p : is_read_phase p = true →
  is_create_phase p = false ∧ p ≠ ShellPhaseProcess.
Proof.
  unfold is_read_phase, is_tail_phase. rewrite !orb_true_iff, !bool_decide_eq_true.
  by intros [[->| ->]|[->| ->]].
Qed.

Lemma readRequest_identity sh paths req :
  readRequest sh paths = Ok req →
  read.Source req = op.ID' (current sh) ∧ read.Correlation req = shell_state.Phase (state sh).
Proof.
  unfold readRequest. intros H. apply bind_ok in H as ([path size] & _ & H).
  if_in H; [if_in H; [done|]|]; by injection H as <-.
Qed.

(** An event of the read goes to the read handler. *)
Lemma Handle_read sh p paths req t r :
  reads sh p paths req →
  t ≠ PrimitiveEventCanceled → t ≠ PrimitiveEventFailed →
  let e := event.Mk t (read.Source req) (read.Correlation req) r in
  Handle (Some e) sh = readEvent e paths sh.
Proof.
  intros [Hs Hp Hr Hpaths Hreq] Ht1 Ht2 e.
  destruct (readRequest_identity _ _ _ Hreq) as [Hsrc Hcor].
  destruct (is_read_not_create p Hr) as [Hc Hn].
  unfold Handle. autorewrite with M. rewrite Hs. cbn [bool_decide]. simpl.
  unfold handleAwaiting. autorewrite with M. unfold validateShellCorrelation. simpl.
  rewrite Hsrc, Hcor, (bool_decide_true (op.ID' _ = _)) by done.
  rewrite (bool_decide_false (t = PrimitiveEventCanceled)), (bool_decide_false (t = PrimitiveEventFailed)),
    (bool_decide_true (shell_state.Phase _ = _)) by done. simpl. rewrite Hpaths. simpl.
  rewrite Hp, Hc, Hr. by rewrite bool_decide_false.
Qed.

(** Only the buffer of the read changes while its outputs arrive. *)
Definition buffering (sh sh' : Shell) (data : bytes) : Prop :=
  current sh' = current sh ∧ state sh' = state sh ∧
  readSize sh' = readSize sh + len data ∧ concat (chunks sh') = concat (chunks sh) ++ data.

Lemma reads_buffering sh sh' data p paths req :
  buffering sh sh' data → reads sh p paths req → reads sh' p paths req.
Proof.
  intros (Hc & Hs & _) [H1 H2 H3 H4 H5]. constructor; rewrite ?Hc, ?Hs; try done.
  revert H5. unfold readRequest. by rewrite Hc, Hs.
Qed.

Lemma feed_outputs sh p paths req last outs data rest :
  reads sh p paths req →
  outputs req (read.Offset req + readSize sh) outs = Some data →
  readSize sh + len data ≤ read.Count req →
  rest ≠ [] →
  ∃ sh', buffering sh sh' data ∧ feed sh last (outs ++ rest) = feed sh' empty_step rest ∨
         outs = [] ∧ sh' = sh ∧ data = [].
Proof.
  intros Hr. revert sh last data Hr.
  induction outs as [|[t src cor r] outs IH]; intros sh last data Hr Hout Hlen Hrest.
  { injection Hout as <-. exists sh. by right. }
  simpl in Hout. destruct r as [| | |off d| | | | | | | | | | | | | | |]; try done.
  destruct (bool_decide (t = _) && (off =? _) && bool_decide (src = _) && bool_decide (cor = _))
    eqn:E; [|done].
  rewrite !andb_true_iff, !bool_decide_eq_true, Z.eqb_eq in E. destruct E as [[[-> ->] ->] ->].
  apply fmap_Some in Hout as (data' & Hout & ->).
  unfold len in Hlen. rewrite length_app in Hlen.
  pose proof (Handle_read sh p paths req PrimitiveEventIOReadOutput
    (IOReadOutputResult (read.Offset req + readSize sh) d) Hr ltac:(done) ltac:(done)) as Hh.
  unfold readEvent in Hh. autorewrite with M in Hh. rewrite (reads_request _ _ _ _ Hr) in Hh.
  simpl in Hh. rewrite Z.eqb_refl, (proj2 (Z.ltb_ge _ _)) in Hh by (unfold len; lia).
  cbn [negb] in Hh. autorewrite with M in Hh.
  assert (buffering sh (add_chunk d sh) d) as Hb.
  { repeat split; simpl. by rewrite concat_app; simpl; rewrite app_nil_r. }
  destruct (IH (add_chunk d sh) empty_step data') as (sh' & Hcase).
  { by eapply reads_buffering. }
  { simpl. by rewrite Z.add_assoc. }
  { simpl. unfold len. lia. }
  { done. }
  assert (feed sh last (event.Mk PrimitiveEventIOReadOutput (read.Source req)
      (read.Correlation req) (IOReadOutputResult (read.Offset req + readSize sh) d) :: outs ++ rest)
    = feed (add_chunk d sh) empty_step (outs ++ rest)) as Hstep.
  { simpl. rewrite Hh. done. }
  destruct Hcase as [[(Hc & Hs & Hz & Hcat) Hfeed]|(-> & -> & ->)].
  - exists sh'. left. split; [|by simpl in *; rewrite Hstep, Hfeed].
    simpl in *. split_and!; [done|done| |].
    + rewrite Hz. unfold len. rewrite length_app. lia.
    + rewrite Hcat, concat_app. simpl. by rewrite app_nil_r, app_assoc.
  - exists (add_chunk d sh). left. rewrite app_nil_r. split; [done|exact Hstep].
Qed.

(** The read of a capture that does not change hands the phase its range. *)
Lemma feed_read sh p paths req last c os :
  reads sh p paths req → readSize sh = 0 → chunks sh = [] →
  stable_file c os → 0 ≤ read.Count req → 0 ≤ read.Offset req ≤ len c →
  (is_tail_phase p = true → len c = read.Offset req + read.Count req) →
  ∃ sh', current sh' = current sh ∧ state sh' = state sh ∧
    feed sh last (streamFile os req)
    = readCompleted (take (Z.to_nat (read.Count req)) (drop (Z.to_nat (read.Offset req)) c))
        (len c) paths (reset_read sh').
Proof.
  intros Hr Hz Hnil Hf Hcount Hoff Htail.
  destruct (streamFile_stable (V:=ComputeValue) c os req Hf) as (outs & Hevs & Hout); [lia|lia|].
  set (data := take _ _) in *.
  assert (len data = Z.min (read.Count req) (len c - read.Offset req)) as Hlen.
  { unfold data, len in *. rewrite length_take, length_drop. lia. }
  set (done_ := event.Mk _ _ _ _) in Hevs.
  assert (∃ sh', buffering sh sh' data ∧
    feed sh last (outs ++ [done_]) = feed sh' empty_step [done_] ∨
    buffering sh sh' data ∧ sh' = sh ∧ outs = []) as (sh' & Hcase).
  { destruct (feed_outputs sh p paths req last outs data [done_] Hr) as (sh' & [H|(-> & -> & ->)]);
      [by rewrite Hz, Z.add_0_r|lia|done|by exists sh'; left|].
    exists sh. right. split; [|done]. repeat split; unfold len; simpl; [lia|by rewrite app_nil_r]. }
  assert (buffering sh sh' data) as Hb by tauto. pose proof Hb as (Hc & Hs & Hsz & Hcat).
  exists sh'. split; [done|]. split; [done|]. rewrite Hevs.
  assert (feed sh last (outs ++ [done_]) = match Handle (Some done_) sh' with
            | (s, Ok st) => (s, Ok st) | r => r end) as ->.
  { destruct Hcase as [[_ ->]|(_ & -> & ->)]; done. }
  pose proof (Handle_read sh' p paths req PrimitiveEventIOReadCompleted (IOReadCompletedResult (len c))
    ltac:(by eapply reads_buffering) ltac:(done) ltac:(done)) as Hh.
  cbv zeta in Hh. fold done_ in Hh. rewrite Hh. unfold readEvent. autorewrite with M.
  rewrite (reads_request _ _ _ _ (reads_buffering _ _ _ _ _ _ Hb Hr)). simpl.
  rewrite (proj2 (Z.ltb_ge _ _)) by lia. rewrite Hsz, Hz, Z.add_0_l, Hlen, Z.eqb_refl. simpl.
  rewrite Hs, (reads_phase _ _ _ _ Hr).
  assert (is_tail_phase p && negb (len c =? read.Offset req + read.Count req) = false) as ->.
  { destruct (is_tail_phase p); [|done]. rewrite (Htail eq_refl), Z.eqb_refl. done. }
  autorewrite with M. rewrite Hcat, Hnil. simpl.
  destruct (readCompleted _ _ _ _) as [s [st| |]]; done.
Qed.

(** ** Running through the phases *)

(** A step is taken by a running actor; its buffer is empty between reads. *)
Record running (sh : Shell) (paths : shellPaths) : Prop := {
  run_status : op.Status' (current sh) = StatusAwaiting;
  run_strings : strings_ok (state sh);
  run_error : error_free (state sh);
  run_paths : newShellPaths (shell_state.BaseDirectory (state sh)) (op.ID' (current sh)) = Ok paths;
  run_limit : limit_in_range (op.MaxOutputLength (current sh)) = true;
  run_size : readSize sh = 0;
  run_chunks : chunks sh = [];
  run_out : string_ok (out paths) = true;
  run_err : string_ok (err paths) = true;
}.

(** The actor after it entered a phase. *)
Definition enter (p : ShellPhase) (sh : Shell) : Shell :=
  with_status StatusAwaiting (with_state (shell_state.set_Phase p) sh).

(** A change of the state that the phases make. *)
Definition harmless (f : ShellState → ShellState) : Prop :=
  ∀ s, strings_ok s → strings_ok (f s) ∧ shell_state.TerminalError (f s) = shell_state.TerminalError s
       ∧ shell_state.BaseDirectory (f s) = shell_state.BaseDirectory s.

Lemma running_with_state f sh paths :
  harmless f → running sh paths → running (with_state f sh) paths.
Proof.
  intros Hf []. destruct (Hf (state sh) ltac:(done)) as (H1 & H2 & H3).
  constructor; simpl; try done; [by unfold error_free in *; rewrite H2|by rewrite H3].
Qed.

Lemma running_with_status sh paths : running sh paths → running (with_status StatusAwaiting sh) paths.
Proof. by intros []; constructor. Qed.

Ltac prove_harmless := intros s []; split; [constructor; simpl; auto|split; reflexivity].

Lemma harmless_Phase p : string_ok p = true → harmless (shell_state.set_Phase p).
Proof. intros. prove_harmless. Qed.
Lemma harmless_out inline size : harmless (shell_state.set_out inline size).
Proof. prove_harmless. Qed.
Lemma harmless_err inline size : harmless (shell_state.set_err inline size).
Proof. prove_harmless. Qed.
Lemma harmless_out_tail tail : harmless (shell_state.set_InlineOutTail tail).
Proof. prove_harmless. Qed.
Lemma harmless_err_tail tail : harmless (shell_state.set_InlineErrTail tail).
Proof. prove_harmless. Qed.
Lemma harmless_OutPath path : string_ok path = true → harmless (shell_state.set_OutPath path).
Proof. intros. prove_harmless. Qed.
Lemma harmless_ErrPath path : string_ok path = true → harmless (shell_state.set_ErrPath path).
Proof. intros. prove_harmless. Qed.
Lemma harmless_ProcessGroupID pid : harmless (shell_state.set_ProcessGroupID pid).
Proof. prove_harmless. Qed.
Lemma harmless_exited code : harmless (shell_state.set_exited code).
Proof. prove_harmless. Qed.
#[local] Hint Resolve harmless_Phase harmless_out harmless_err harmless_out_tail harmless_err_tail
  harmless_OutPath harmless_ErrPath harmless_ProcessGroupID harmless_exited : go.

Lemma enter_running p sh paths :
  string_ok p = true → running sh paths → running (enter p sh) paths.
Proof. intros. apply running_with_status, running_with_state; auto with go. Qed.

(** What the entry of a phase dispatches. *)
Definition phase_dispatch (sh : Shell) (paths : shellPaths) (d : PrimitiveDispatch) : Prop :=
  let id := op.ID' (current sh) in
  let p := shell_state.Phase (state sh) in
  p = ShellPhaseCreateDirectory ∧ d = createShellDirectory id p (directory paths) ∨
  p = ShellPhaseCreateOut ∧ d = createShellFile id p (out paths) ∨
  p = ShellPhaseCreateErr ∧ d = createShellFile id p (err paths) ∨
  p = ShellPhaseProcess ∧ d = startShellProcess id (state sh) paths ∨
  is_read_phase p = true ∧ ∃ req, readRequest sh paths = Ok req ∧
    d = dispatch.Mk PrimitiveDispatchIORead (DataIORead req).

Lemma next_runs p sh paths d :
  running sh paths → string_ok p = true → phase_dispatch (enter p sh) paths d →
  ∃ o', next p paths sh = (enter p sh, Ok (step.Mk (Some o') [d])) ∧ running (enter p sh) paths.
Proof.
  intros Hrun Hp Hd. pose proof (enter_running p sh paths Hp Hrun) as Hrun'.
  assert (running (with_state (shell_state.set_Phase p) sh) paths) as Hw.
  { apply running_with_state; auto with go. }
  destruct (dispatch_runs d _ (run_strings _ _ Hw) (run_error _ _ Hw)) as [o' Ho].
  exists o'. split; [|done]. unfold enter. rewrite <- Ho. unfold next. autorewrite with M.
  unfold dispatchPhase. autorewrite with M. cbv zeta. simpl.
  unfold phase_dispatch in Hd. simpl in Hd.
  destruct Hd as [[-> ->]|[[-> ->]|[[-> ->]|[[-> ->]|[Hr (req & Hreq & ->)]]]]]; try done.
  destruct (is_read_not_create p Hr) as [Hc Hn]. unfold is_create_phase in Hc.
  apply orb_false_iff in Hc as [Hc H3]. apply orb_false_iff in Hc as [H1 H2].
  rewrite H1, H2, H3, Hr, bool_decide_false by done.
  assert (readRequest (with_state (shell_state.set_Phase p) sh) paths = Ok req) as ->; [|done].
  rewrite <- Hreq. done.
Qed.

(** A restart repeats the dispatch that was in progress, except that a
    process is never run twice: an operation that was waiting in a creation or
    read phase dispatches the same request again, and one that was waiting for
    its process fails. *)
Theorem shell_resume sh paths d :
  running sh paths → phase_dispatch sh paths d →
  if bool_decide (shell_state.Phase (state sh) = ShellPhaseProcess) then
    ∃ sh' o', Handle None sh = (sh', Ok (checkpoint_step o')) ∧ op.Status' o' = StatusFailed
  else
    ∃ o', Handle None sh = (sh, Ok (step.Mk (Some o') [d])) ∧ op.Status' o' = StatusAwaiting.
Proof.
  intros Hrun Hd. unfold Handle. autorewrite with M. rewrite (run_status _ _ Hrun). simpl.
  unfold resume. autorewrite with M.
  case_bool_decide as Hp.
  - assert (∀ e, ∃ sh' o', fail_ e sh = (sh', Ok (checkpoint_step o')) ∧ op.Status' o' = StatusFailed)
      as Hfail; [|by case_match].
    intros e. unfold fail_. autorewrite with M.
    set (sh1 := with_status _ _).
    destruct (checkpoint_runs sh1) as [v ->]; [|by eexists _, _].
    destruct (run_strings _ _ Hrun). by constructor.
  - rewrite (run_paths _ _ Hrun). simpl. autorewrite with M.
    assert (reset_read sh = sh) as ->.
    { destruct Hrun, sh. simpl in *. unfold reset_read. by subst. }
    destruct (dispatch_runs d sh (run_strings _ _ Hrun) (run_error _ _ Hrun)) as [o' Ho].
    assert (with_status StatusAwaiting sh = sh) as Hsame.
    { destruct Hrun, sh as [[] ? ? ?]. simpl in *. unfold with_status, op.set_status. simpl. by subst. }
    rewrite Hsame in Ho. exists o'. split.
    + rewrite <- Ho. unfold dispatchPhase. autorewrite with M. cbv zeta.
      destruct Hd as [[Hq ->]|[[Hq ->]|[[Hq ->]|[[Hq ->]|[Hr (req & Hreq & ->)]]]]];
        [by rewrite Hq..|].
      destruct (is_read_not_create _ Hr) as [Hc _]. unfold is_create_phase in Hc.
      apply orb_false_iff in Hc as [Hc H3]. apply orb_false_iff in Hc as [H1 H2].
      rewrite H1, H2, H3, Hr, bool_decide_false by done. by rewrite Hreq.
    + by eapply dispatch_status.
Qed.

Definition sample_paths : shellPaths := MkShellPaths "/base/op" "/base/op/out" "/base/op/err".
Definition sample_waiting : Shell := enter ShellPhaseCreateDirectory sample_shell.

Lemma sample_running : running sample_waiting sample_paths.
Proof.
  constructor; try reflexivity. constructor; try reflexivity; try (eexists; vm_compute; reflexivity).
Qed.

Lemma shell_resume_witness :
  running sample_waiting sample_paths ∧
  if bool_decide (shell_state.Phase (state sample_waiting) = ShellPhaseProcess) then
    ∃ sh' o', Handle None sample_waiting = (sh', Ok (checkpoint_step o')) ∧ op.Status' o' = StatusFailed
  else
    ∃ o', Handle None sample_waiting = (sample_waiting, Ok (step.Mk (Some o')
      [createShellDirectory "op" ShellPhaseCreateDirectory "/base/op"])) ∧
      op.Status' o' = StatusAwaiting.
Proof.
  split; [exact sample_running|].
  apply (shell_resume sample_waiting sample_paths _ sample_running). left. by split.
Defined.
