(* ===== verification/ShellCapture.v ===== *)
(** * The result of a shell operation

    The whole run of a shell operation against primitives that succeed: the
    three creations, the process and its exit, the reads of both captures and
    the completion with the bounded captures. *)

From Stdlib Require Import Ascii ZArith Lia.
From S2P Require Import Prelude GoStrings GoText Utf8Facts Json JsonCodec Primitives Operation.
From S2P Require Import Output Handler Shell ShellFacts ShellRun.

Local Open Scope Z_scope.

(** The events that answer a dispatch: the entry is created, the process
    starts and exits, the file is read. *)
Definition shell_env (files : string → file_os) (pid code signal : Z) (d : PrimitiveDispatch)
  : list Event :=
  match dispatch.Data d with
  | DataIOCreate r => createPath false (inr (create.Kind r)) r
  | DataProcessStart r =>
    [event.Mk PrimitiveEventProcessStarted (process.Source r) (process.Correlation r)
       (ProcessStartedResult pid);
     event.Mk PrimitiveEventProcessExited (process.Source r) (process.Correlation r)
       (ProcessExitResult code signal)]
  | DataIORead r => streamFile (files (read.Path r)) r
  | _ => []
  end.

(** Feeds the answers of the dispatches of a step, [fuel] times. *)
Fixpoint drive (fuel : nat) (env : PrimitiveDispatch → list Event) (sh : Shell) (st : Step)
  : Shell * result Step :=
  match step.Dispatches st, fuel with
  | d :: _, S fuel =>
    match feed sh st (env d) with
    | (sh', Ok st') => drive fuel env sh' st'
    | r => r
    end
  | _, _ => (sh, Ok st)
  end.

Lemma drive_step fuel env sh o d sh' st' :
  feed sh (step.Mk o [d]) (env d) = (sh', Ok st') →
  drive (S fuel) env sh (step.Mk o [d]) = drive fuel env sh' st'.
Proof. intros H. simpl. by rewrite H. Qed.

Section Run.
Context (files : string → file_os) (pid code signal : Z).
Let env := shell_env files pid code signal.

(** An event of the phase's own primitive reaches the phase's handler. *)
Lemma Handle_phase sh paths p t r :
  running sh paths → shell_state.Phase (state sh) = p →
  t ≠ PrimitiveEventCanceled → t ≠ PrimitiveEventFailed →
  let e := event.Mk t (op.ID' (current sh)) p r in
  Handle (Some e) sh =
  (if is_create_phase p then created e paths
   else if bool_decide (p = ShellPhaseProcess) then processEvent e paths
   else if is_read_phase p then readEvent e paths
   else fail_ (invalid_phase EmptyString p)) sh.
Proof.
  intros [Hs _ _ Hpaths _ _ _ _ _] Hp Ht1 Ht2 e.
  unfold Handle. autorewrite with M. rewrite Hs. simpl.
  unfold handleAwaiting. autorewrite with M. unfold validateShellCorrelation. simpl.
  rewrite Hp, (bool_decide_true (op.ID' _ = _)), (bool_decide_false (t = PrimitiveEventCanceled)),
    (bool_decide_false (t = PrimitiveEventFailed)), (bool_decide_true (p = p)) by done.
  simpl. by rewrite Hpaths.
Qed.

Lemma created_runs sh paths p kind :
  running sh paths → shell_state.Phase (state sh) = p → is_create_phase p = true →
  kind = (if bool_decide (p = ShellPhaseCreateDirectory) then IOCreateDirectory
          else IOCreateRegularFile) →
  Handle (Some (event.Mk PrimitiveEventIOCreateCompleted (op.ID' (current sh)) p (IOCreateResult kind))) sh
  = (if bool_decide (p = ShellPhaseCreateDirectory) then next ShellPhaseCreateOut paths sh
     else if bool_decide (p = ShellPhaseCreateOut) then
       next ShellPhaseCreateErr paths (with_state (shell_state.set_OutPath (out paths)) sh)
     else next ShellPhaseProcess paths (with_state (shell_state.set_ErrPath (err paths)) sh)).
Proof.
  intros Hrun Hp Hc ->.
  pose proof (Handle_phase sh paths p PrimitiveEventIOCreateCompleted
    (IOCreateResult (if bool_decide (p = ShellPhaseCreateDirectory) then IOCreateDirectory
          else IOCreateRegularFile)) Hrun Hp ltac:(done) ltac:(done)) as H.
  cbv zeta in H. rewrite Hc in H. rewrite H. unfold created. autorewrite with M. rewrite Hp.
  unfold validateShellCreate. simpl. rewrite (bool_decide_true (_ = _)) by done. simpl.
  unfold is_create_phase in Hc. rewrite !orb_true_iff, !bool_decide_eq_true in Hc.
  destruct Hc as [[->| ->]| ->]; simpl; autorewrite with M; reflexivity.
Qed.

(** The process starts and exits: the actor reads its output. *)
Lemma process_runs sh paths st :
  running sh paths → shell_state.Phase (state sh) = ShellPhaseProcess → 1 < pid →
  feed sh st (env (startShellProcess (op.ID' (current sh)) (state sh) paths))
  = next ShellPhaseReadOut paths
      (with_state (shell_state.set_exited (shellExitStatus code signal))
        (with_status StatusAwaiting (with_state (shell_state.set_ProcessGroupID pid) sh))).
Proof.
  intros Hrun Hp Hpid. cbn [env shell_env startShellProcess dispatch.Data process.Source process.Correlation feed].
  rewrite (Handle_phase sh paths ShellPhaseProcess _ _ Hrun Hp) by done. simpl.
  unfold processEvent at 1. simpl. rewrite (proj2 (Z.leb_gt _ _)) by done. autorewrite with M.
  set (sh1 := with_state (shell_state.set_ProcessGroupID pid) sh).
  assert (running sh1 paths) as Hrun1 by (apply running_with_state; [apply harmless_ProcessGroupID|done]).
  destruct (await_runs sh1 (run_strings _ _ Hrun1) (run_error _ _ Hrun1)) as [o' ->].
  pose proof (running_with_status _ _ Hrun1) as Hrun2.
  change (op.ID' (current sh)) with (op.ID' (current (with_status StatusAwaiting sh1))).
  rewrite (Handle_phase _ paths ShellPhaseProcess _ _ Hrun2 Hp) by done. simpl.
  unfold processEvent. simpl. autorewrite with M.
  by destruct (next _ _ _) as [? [| |]].
Qed.

(** ** The two reads of a capture *)

Definition window_head (n : Z) (c : bytes) : bytes :=
  if read_limit n <? len c then take (Z.to_nat (head_limit n)) c else c.
Definition window_tail (n : Z) (c : bytes) : bytes :=
  if read_limit n <? len c then drop (Z.to_nat (len c - tail_limit n)) c else [].

Lemma window_bound n c path :
  limit_in_range n = true →
  boundOutput (window_head n c) (window_tail n c) (len c) n path = boundOutput c [] (len c) n path.
Proof.
  intros Hn. pose proof (limits n Hn) as (H1 & H2 & H3 & H4 & H5).
  unfold limit_in_range in Hn. apply andb_true_iff in Hn as [Hn%Z.ltb_lt _].
  unfold window_head, window_tail. destruct (Z.ltb_spec (read_limit n) (len c)) as [Hlt|]; [|done].
  rewrite <- (windows_bounded c n path Hn) by (unfold read_limit in Hlt; lia).
  rewrite H5. f_equal. f_equal. unfold tail_limit in *. unfold len in *. lia.
Qed.

Definition max (sh : Shell) : Z := op.MaxOutputLength (current sh).

Lemma feed_read_running sh p paths req st c o :
  running sh paths → shell_state.Phase (state sh) = p → is_read_phase p = true →
  readRequest sh paths = Ok req → stable_file c (files (read.Path req)) →
  0 ≤ read.Count req → 0 ≤ read.Offset req ≤ len c →
  (is_tail_phase p = true → len c = read.Offset req + read.Count req) →
  feed sh st (env (dispatch.Mk o (DataIORead req)))
  = readCompleted (take (Z.to_nat (read.Count req)) (drop (Z.to_nat (read.Offset req)) c))
      (len c) paths sh.
Proof.
  intros Hrun Hp Hr Hreq Hf Hc Ho Ht.
  change (env (dispatch.Mk o (DataIORead req))) with (streamFile (V:=ComputeValue) (files (read.Path req)) req).
  destruct (feed_read sh p paths req st c (files (read.Path req))) as (sh' & Hcur & Hst & ->);
    try done; try apply Hrun.
  { constructor; try done; apply Hrun. }
  f_equal. destruct Hrun. destruct sh, sh'. simpl in *. unfold reset_read. by subst.
Qed.

(** The first read of a capture, in the phase [p] of its stream. *)
Lemma head_request sh paths p path size :
  running sh paths → shell_state.Phase (state sh) = p →
  p = ShellPhaseReadOut ∧ path = out paths ∧ size = shell_state.OutSize (state sh) ∨
  p = ShellPhaseReadErr ∧ path = err paths ∧ size = shell_state.ErrSize (state sh) →
  readRequest sh paths = Ok (read.Mk (op.ID' (current sh)) p path 0 (read_limit (max sh))).
Proof. intros _ Hp [(-> & -> & _)|(-> & -> & _)]; unfold readRequest; by rewrite Hp. Qed.

Lemma tail_request sh paths p path size :
  running sh paths → shell_state.Phase (state sh) = p →
  p = ShellPhaseReadOutTail ∧ path = out paths ∧ size = shell_state.OutSize (state sh) ∨
  p = ShellPhaseReadErrTail ∧ path = err paths ∧ size = shell_state.ErrSize (state sh) →
  read_limit (max sh) < size →
  readRequest sh paths
  = Ok (read.Mk (op.ID' (current sh)) p path (size - tail_limit (max sh)) (tail_limit (max sh))).
Proof.
  intros _ Hp [(-> & -> & ->)|(-> & -> & ->)] Hlt; unfold readRequest; rewrite Hp; simpl;
    (rewrite (proj2 (Z.leb_gt _ _)); [done|exact Hlt]).
Qed.

(** What a completed first read leads to. *)
Lemma readCompleted_head sh paths p c :
  running sh paths → shell_state.Phase (state sh) = p →
  p = ShellPhaseReadOut ∨ p = ShellPhaseReadErr →
  readCompleted (take (Z.to_nat (read_limit (max sh))) (drop (Z.to_nat 0) c)) (len c) paths sh =
  let inline := window_head (max sh) c in
  let sh' := with_state (if bool_decide (p = ShellPhaseReadOut) then shell_state.set_out inline (len c)
                         else shell_state.set_err inline (len c)) sh in
  if bool_decide (p = ShellPhaseReadOut) then
    if read_limit (max sh) <? len c then next ShellPhaseReadOutTail paths sh'
    else next ShellPhaseReadErr paths sh'
  else if read_limit (max sh) <? len c then next ShellPhaseReadErrTail paths sh' else finish paths sh'.
Proof.
  intros Hrun Hp Hcase. pose proof (limits _ (run_limit _ _ Hrun)) as (H1 & H2 & H3 & H4 & _).
  fold (max sh) in H1, H2, H3, H4. rewrite Z2Nat.inj_0, drop_0.
  unfold readCompleted. autorewrite with M. rewrite Hp.
  change (shellReadLimit (current sh)) with (read_limit (max sh)).
  change (shellTailReadLimit (current sh)) with (tail_limit (max sh)). fold (head_limit (max sh)).
  unfold window_head. destruct (Z.ltb_spec (read_limit (max sh)) (len c)) as [Hlt|Hge].
  - assert (len (take (Z.to_nat (read_limit (max sh))) c) = read_limit (max sh)) as Hlen.
    { unfold len in *. rewrite length_take. lia. }
    rewrite Hlen, (proj2 (Z.ltb_ge (head_limit _) _)), (proj2 (Z.ltb_ge (read_limit _) _)) by lia.
    rewrite take_take, Nat.min_l by lia.
    destruct Hcase as [->| ->]; simpl; autorewrite with M; reflexivity.
  - rewrite take_ge by (unfold len in Hge; lia).
    destruct Hcase as [->| ->]; simpl; autorewrite with M; reflexivity.
Qed.

(** What a completed tail read leads to. *)
Lemma readCompleted_tail sh paths p c :
  running sh paths → shell_state.Phase (state sh) = p →
  p = ShellPhaseReadOutTail ∨ p = ShellPhaseReadErrTail →
  read_limit (max sh) < len c →
  readCompleted (take (Z.to_nat (tail_limit (max sh))) (drop (Z.to_nat (len c - tail_limit (max sh))) c))
    (len c) paths sh =
  let tail := window_tail (max sh) c in
  if bool_decide (p = ShellPhaseReadOutTail) then
    next ShellPhaseReadErr paths (with_state (shell_state.set_InlineOutTail tail) sh)
  else finish paths (with_state (shell_state.set_InlineErrTail tail) sh).
Proof.
  intros Hrun Hp Hcase Hlt. pose proof (limits _ (run_limit _ _ Hrun)) as (H1 & H2 & H3 & H4 & _).
  fold (max sh) in H1, H2, H3, H4.
  unfold readCompleted. autorewrite with M. rewrite Hp.
  unfold window_tail. rewrite (proj2 (Z.ltb_lt _ _) Hlt).
  rewrite take_ge by (rewrite length_drop; unfold len in *; lia).
  change (shellReadLimit (current sh)) with (read_limit (max sh)).
  rewrite (proj2 (Z.ltb_lt _ _) Hlt).
  destruct Hcase as [->| ->]; simpl; autorewrite with M; reflexivity.
Qed.

(** ** The completion *)

Definition completed (sh : Shell) (paths : shellPaths) (exit : Z) (c1 c2 : bytes)
    (sh' : Shell) (o' : Operation) : Prop :=
  op.Status' o' = StatusCompleted ∧
  ∃ r, shell_state.Result (state sh') = Some r ∧
    boundOutput c1 [] (len c1) (max sh) (out paths)
    = Ok (shell_result.Out r, shell_state.OutTruncated (state sh')) ∧
    boundOutput c2 [] (len c2) (max sh) (err paths)
    = Ok (shell_result.Err r, shell_state.ErrTruncated (state sh')) ∧
    shell_result.OutSize r = len c1 ∧ shell_result.ErrSize r = len c2 ∧
    shell_result.ExitCode r = exit.

Lemma finish_runs sh paths exit c1 c2 :
  running sh paths →
  shell_state.PendingExitCode (state sh) = Some exit →
  shell_state.InlineOut (state sh) = window_head (max sh) c1 →
  shell_state.InlineOutTail (state sh) = window_tail (max sh) c1 →
  shell_state.OutSize (state sh) = len c1 →
  shell_state.InlineErr (state sh) = window_head (max sh) c2 →
  shell_state.InlineErrTail (state sh) = window_tail (max sh) c2 →
  shell_state.ErrSize (state sh) = len c2 →
  ∃ sh' o', finish paths sh = (sh', Ok (checkpoint_step o')) ∧ completed sh paths exit c1 c2 sh' o'.
Proof.
  intros Hrun He Ho1 Ho2 Ho3 He1 He2 He3.
  destruct (boundOutput_captured c1 [] (len c1) (max sh) (out paths)) as [[t1 b1] H1]; [done|].
  destruct (boundOutput_captured c2 [] (len c2) (max sh) (err paths)) as [[t2 b2] H2]; [done|].
  pose proof (boundOutput_string_ok _ _ _ _ _ _ _ (run_out _ _ Hrun) H1) as Ht1.
  pose proof (boundOutput_string_ok _ _ _ _ _ _ _ (run_err _ _ Hrun) H2) as Ht2.
  pose proof (window_bound (max sh) c1 (out paths) (run_limit _ _ Hrun)) as Hw1.
  pose proof (window_bound (max sh) c2 (err paths) (run_limit _ _ Hrun)) as Hw2.
  rewrite H1 in Hw1. rewrite H2 in Hw2.
  set (r := shell_result.Mk t1 t2 (len c1) (len c2) exit).
  set (sh1 := with_status StatusCompleted
    (with_state (shell_state.set_finished r b1 b2 (out paths) (err paths)) sh)).
  assert (strings_ok (state sh1)) as Hs.
  { destruct (run_strings _ _ Hrun). constructor; simpl; try done; try apply Hrun.
    struct_encodes. }
  destruct (checkpoint_runs sh1 Hs) as [encoded Hc].
  rewrite (bound_error_free sh1 (run_error _ _ Hrun)) in Hc.
  assert (with_state (λ _, state sh1) sh1 = sh1) as Hsame by (by destruct sh).
  rewrite Hsame in Hc.
  exists sh1, (op.set_state encoded (current sh1)). split.
  - unfold finish. autorewrite with M. rewrite He, Ho1, Ho2, Ho3, He1, He2, He3.
    fold (max sh). rewrite Hw1, Hw2. autorewrite with M. exact Hc.
  - split; [done|]. by exists r.
Qed.

(** ** The stages *)

(** The part of the actor that every stage keeps. *)
Definition kept (sh sh' : Shell) : Prop :=
  max sh' = max sh ∧ op.ID' (current sh') = op.ID' (current sh) ∧
  shell_state.PendingExitCode (state sh') = shell_state.PendingExitCode (state sh).

Definition read_step (o : option Operation) (req : IOReadRequest) : Step :=
  step.Mk o [dispatch.Mk PrimitiveDispatchIORead (DataIORead req)].

Definition head_read (sh : Shell) (p : ShellPhase) (path : string) : IOReadRequest :=
  read.Mk (op.ID' (current sh)) p path 0 (read_limit (max sh)).

Definition tail_read (sh : Shell) (p : ShellPhase) (path : string) (size : Z) : IOReadRequest :=
  read.Mk (op.ID' (current sh)) p path (size - tail_limit (max sh)) (tail_limit (max sh)).

Lemma next_read p sh paths req :
  running sh paths → string_ok p = true → is_read_phase p = true →
  readRequest (enter p sh) paths = Ok req →
  ∃ o', next p paths sh = (enter p sh, Ok (read_step (Some o') req)) ∧ running (enter p sh) paths.
Proof.
  intros Hrun Hp Hr Hreq. apply next_runs; [done|done|].
  right. right. right. right. split; [done|]. eauto.
Qed.

(** Reading the output, in one or two reads. *)
Lemma out_stage sh paths o c :
  running sh paths → shell_state.Phase (state sh) = ShellPhaseReadOut →
  stable_file c (files (out paths)) →
  ∃ k sh' o',
    (∀ fuel, drive (k + fuel) env sh (read_step o (head_read sh ShellPhaseReadOut (out paths)))
             = drive fuel env sh' (read_step (Some o') (head_read sh' ShellPhaseReadErr (err paths)))) ∧
    (k ≤ 2)%nat ∧
    running sh' paths ∧ shell_state.Phase (state sh') = ShellPhaseReadErr ∧ kept sh sh' ∧
    shell_state.InlineOut (state sh') = window_head (max sh) c ∧
    shell_state.InlineOutTail (state sh') = window_tail (max sh) c ∧
    shell_state.OutSize (state sh') = len c.
Proof.
  intros Hrun Hp Hf. pose proof (limits _ (run_limit _ _ Hrun)) as (H1 & H2 & H3 & H4 & _).
  fold (max sh) in H1, H2, H3, H4.
  assert (readRequest sh paths = Ok (head_read sh ShellPhaseReadOut (out paths))) as Hreq
    by (eapply head_request; [done|done|by left]).
  pose proof (feed_read_running sh ShellPhaseReadOut paths _
    (read_step o (head_read sh ShellPhaseReadOut (out paths))) c PrimitiveDispatchIORead
    Hrun Hp eq_refl Hreq Hf ltac:(simpl; lia) ltac:(unfold len; simpl; lia) ltac:(done)) as Hfeed.
  cbn [head_read read.Count read.Offset] in Hfeed.
  rewrite (readCompleted_head sh paths ShellPhaseReadOut c Hrun Hp (or_introl eq_refl)) in Hfeed.
  cbv zeta in Hfeed. rewrite !(bool_decide_true (ShellPhaseReadOut = _)) in Hfeed by done.
  cbv iota in Hfeed.
  set (sh1 := with_state (shell_state.set_out (window_head (max sh) c) (len c)) sh) in *.
  assert (running sh1 paths) as Hrun1 by (apply running_with_state; [apply harmless_out|done]).
  unfold window_tail. destruct (Z.ltb_spec (read_limit (max sh)) (len c)) as [Hlt|Hge].
  - set (sh2 := enter ShellPhaseReadOutTail sh1).
    assert (readRequest sh2 paths = Ok (tail_read sh2 ShellPhaseReadOutTail (out paths) (len c))) as Hreq2.
    { apply (tail_request sh2 paths ShellPhaseReadOutTail (out paths) (len c)); [|done|by left|done].
      by apply enter_running. }
    destruct (next_read ShellPhaseReadOutTail sh1 paths _ Hrun1 eq_refl eq_refl Hreq2) as (o2 & Hn & Hrun2).
    fold sh2 in Hn, Hrun2. rewrite Hn in Hfeed.
    pose proof (feed_read_running sh2 ShellPhaseReadOutTail paths _
      (read_step (Some o2) (tail_read sh2 ShellPhaseReadOutTail (out paths) (len c))) c
      PrimitiveDispatchIORead Hrun2 eq_refl eq_refl Hreq2 Hf ltac:(simpl; unfold max in *; simpl in *; lia)
      ltac:(simpl; unfold max in *; simpl in *; lia) ltac:(simpl; lia)) as Hfeed2.
    cbn [tail_read read.Count read.Offset] in Hfeed2.
    rewrite (readCompleted_tail sh2 paths ShellPhaseReadOutTail c Hrun2 eq_refl (or_introl eq_refl) Hlt) in Hfeed2.
    cbv zeta in Hfeed2. rewrite bool_decide_true in Hfeed2 by done. cbv iota in Hfeed2.
    set (sh3 := with_state (shell_state.set_InlineOutTail (window_tail (max sh2) c)) sh2) in *.
    assert (running sh3 paths) as Hrun3 by (apply running_with_state; [apply harmless_out_tail|done]).
    destruct (next_read ShellPhaseReadErr sh3 paths (head_read sh3 ShellPhaseReadErr (err paths))
      Hrun3 eq_refl eq_refl) as (o4 & Hn4 & Hrun4); [done|].
    exists 2%nat, (enter ShellPhaseReadErr sh3), o4. split.
    + intros fuel. unfold read_step at 1. cbn [Nat.add]. erewrite drive_step by exact Hfeed.
      unfold read_step at 1. erewrite drive_step; [reflexivity|].
      exact (eq_trans Hfeed2 Hn4).
    + split; [lia|]. split; [exact Hrun4|]. split; [done|]. split; [by repeat split|].
      split; [done|]. split; [|done]. simpl. unfold window_tail.
      change (max sh2) with (max sh). by rewrite (proj2 (Z.ltb_lt _ _) Hlt).
  - destruct (next_read ShellPhaseReadErr sh1 paths (head_read sh1 ShellPhaseReadErr (err paths))
      Hrun1 eq_refl eq_refl) as (o4 & Hn4 & Hrun4); [done|].
    exists 1%nat, (enter ShellPhaseReadErr sh1), o4. split.
    + intros fuel. unfold read_step at 1. cbn [Nat.add]. erewrite drive_step; [reflexivity|].
      exact (eq_trans Hfeed Hn4).
    + split; [lia|]. split; [exact Hrun4|]. by repeat split.
Qed.

(** Reading the error output, in one or two reads, completes. *)
Lemma err_stage sh paths o exit c1 c2 :
  running sh paths → shell_state.Phase (state sh) = ShellPhaseReadErr →
  stable_file c2 (files (err paths)) →
  shell_state.PendingExitCode (state sh) = Some exit →
  shell_state.InlineOut (state sh) = window_head (max sh) c1 →
  shell_state.InlineOutTail (state sh) = window_tail (max sh) c1 →
  shell_state.OutSize (state sh) = len c1 →
  ∃ k sh' o',
    (∀ fuel, drive (k + fuel) env sh (read_step o (head_read sh ShellPhaseReadErr (err paths)))
             = (sh', Ok (checkpoint_step o'))) ∧
    (k ≤ 2)%nat ∧ completed sh paths exit c1 c2 sh' o'.
Proof.
  intros Hrun Hp Hf He Ho1 Ho2 Ho3.
  pose proof (limits _ (run_limit _ _ Hrun)) as (H1 & H2 & H3 & H4 & _).
  fold (max sh) in H1, H2, H3, H4.
  assert (readRequest sh paths = Ok (head_read sh ShellPhaseReadErr (err paths))) as Hreq
    by (eapply head_request; [done|done|by right]).
  pose proof (feed_read_running sh ShellPhaseReadErr paths _
    (read_step o (head_read sh ShellPhaseReadErr (err paths))) c2 PrimitiveDispatchIORead
    Hrun Hp eq_refl Hreq Hf ltac:(simpl; lia) ltac:(unfold len; simpl; lia) ltac:(done)) as Hfeed.
  cbn [head_read read.Count read.Offset] in Hfeed.
  rewrite (readCompleted_head sh paths ShellPhaseReadErr c2 Hrun Hp (or_intror eq_refl)) in Hfeed.
  cbv zeta in Hfeed. rewrite !(bool_decide_false (ShellPhaseReadErr = _)) in Hfeed by done.
  cbv iota in Hfeed.
  set (sh1 := with_state (shell_state.set_err (window_head (max sh) c2) (len c2)) sh) in *.
  assert (running sh1 paths) as Hrun1 by (apply running_with_state; [apply harmless_err|done]).
  destruct (Z.ltb_spec (read_limit (max sh)) (len c2)) as [Hlt|Hge].
  - set (sh2 := enter ShellPhaseReadErrTail sh1).
    assert (readRequest sh2 paths = Ok (tail_read sh2 ShellPhaseReadErrTail (err paths) (len c2))) as Hreq2.
    { apply (tail_request sh2 paths ShellPhaseReadErrTail (err paths) (len c2)); [|done|by right|done].
      by apply enter_running. }
    destruct (next_read ShellPhaseReadErrTail sh1 paths _ Hrun1 eq_refl eq_refl Hreq2) as (o2 & Hn & Hrun2).
    fold sh2 in Hn, Hrun2. rewrite Hn in Hfeed.
    pose proof (feed_read_running sh2 ShellPhaseReadErrTail paths _
      (read_step (Some o2) (tail_read sh2 ShellPhaseReadErrTail (err paths) (len c2))) c2
      PrimitiveDispatchIORead Hrun2 eq_refl eq_refl Hreq2 Hf ltac:(simpl; unfold max in *; simpl in *; lia)
      ltac:(simpl; unfold max in *; simpl in *; lia) ltac:(simpl; lia)) as Hfeed2.
    cbn [tail_read read.Count read.Offset] in Hfeed2.
    rewrite (readCompleted_tail sh2 paths ShellPhaseReadErrTail c2 Hrun2 eq_refl (or_intror eq_refl) Hlt) in Hfeed2.
    cbv zeta in Hfeed2. rewrite bool_decide_false in Hfeed2 by done. cbv iota in Hfeed2.
    set (sh3 := with_state (shell_state.set_InlineErrTail (window_tail (max sh2) c2)) sh2) in *.
    assert (running sh3 paths) as Hrun3 by (apply running_with_state; [apply harmless_err_tail|done]).
    destruct (finish_runs sh3 paths exit c1 c2 Hrun3 He Ho1 Ho2 Ho3) as (sh' & o' & Hfin & Hdone);
      [done|done|done|].
    exists 2%nat, sh', o'. split; [|split; [lia|exact Hdone]].
    intros fuel. unfold read_step at 1. cbn [Nat.add]. erewrite drive_step by exact Hfeed.
    unfold read_step at 1. erewrite drive_step by exact (eq_trans Hfeed2 Hfin). by destruct fuel.
  - destruct (finish_runs sh1 paths exit c1 c2 Hrun1 He Ho1 Ho2 Ho3) as (sh' & o' & Hfin & Hdone);
      [done| |done|].
    { simpl. unfold window_tail. change (max sh1) with (max sh).
      rewrite (proj2 (Z.ltb_ge _ _)) by done. done. }
    exists 1%nat, sh', o'. split; [|split; [lia|exact Hdone]].
    intros fuel. unfold read_step at 1. cbn [Nat.add].
    erewrite drive_step by exact (eq_trans Hfeed Hfin). by destruct fuel.
Qed.

(** The creations and the process. *)
Lemma create_stage sh paths o p kind d f p' :
  running sh paths → shell_state.Phase (state sh) = p → is_create_phase p = true →
  kind = (if bool_decide (p = ShellPhaseCreateDirectory) then IOCreateDirectory
          else IOCreateRegularFile) →
  (∃ path mode, d = createShellPath (op.ID' (current sh)) p kind path mode) →
  (if bool_decide (p = ShellPhaseCreateDirectory) then f = Datatypes.id ∧ p' = ShellPhaseCreateOut
   else if bool_decide (p = ShellPhaseCreateOut) then
     f = with_state (shell_state.set_OutPath (out paths)) ∧ p' = ShellPhaseCreateErr
   else f = with_state (shell_state.set_ErrPath (err paths)) ∧ p' = ShellPhaseProcess) →
  ∀ fuel o' sh' d',
    next p' paths (f sh) = (sh', Ok (step.Mk (Some o') [d'])) →
    drive (S fuel) env sh (step.Mk o [d]) = drive fuel env sh' (step.Mk (Some o') [d']).
Proof.
  intros Hrun Hp Hc Hk (path & mode & ->) Hf fuel o' sh' d' Hn.
  apply drive_step. cbn [env shell_env createShellPath dispatch.Data createPath feed
    create.Source create.Correlation create.Kind].
  rewrite (created_runs sh paths p kind Hrun Hp Hc Hk).
  repeat case_bool_decide; destruct Hf as [-> ->]; simpl in Hn; by rewrite Hn.
Qed.

End Run.

(** ** The theorem *)

Lemma NewShell_fresh input base n s id :
  NewShellSpec input base n = Ok s →
  NewShell (new_operation id s)
  = Ok (MkShell (op.set_state VNil (new_operation id s)) (initial_state input base) [] 0) ∧
  spec.MaxOutputLength s = n ∧ limit_in_range n = true ∧ strings_ok (initial_state input base).
Proof.
  unfold NewShellSpec. intros H. if_in H; [|done].
  apply bind_ok in H as ([] & Hv & H). apply bind_ok in H as (v & Hm & [= <-]).
  apply map_err_ok in Hm.
  assert (Unmarshal ShellState_codec v = Ok (initial_state input base)) as Hu.
  { apply Unmarshal_Marshal; [by split_and!|done]. }
  assert (DecodeShellState (new_operation id (spec.Mk n TypeShell VersionShell v VNil))
          = Ok (initial_state input base)) as Hd.
  { unfold DecodeShellState, new_operation. cbn [op.Type' op.Version' op.MaxOutputLength op.State
      spec.Type' spec.Version' spec.MaxOutputLength spec.State].
    rewrite bool_decide_true, Z.eqb_refl, Hif, Hu by done. done. }
  pose proof (limits n Hif) as (_ & _ & _ & Hl & _).
  split; [|split; [done|split; [done|by eapply decoded_strings_ok]]].
  unfold NewShell, shellOperationState. rewrite Hd. simpl. rewrite Hv. simpl.
  unfold shellReadLimit. simpl. unfold inline_size, len. simpl. unfold read_limit in Hl.
  rewrite (proj2 (Z.ltb_ge _ _)) by lia. done.
Qed.

Lemma start_runs sh paths :
  op.Status' (current sh) = StatusReady → shell_state.Phase (state sh) = EmptyString →
  shell_state.Result (state sh) = None → shell_state.TerminalError (state sh) = EmptyString →
  newShellPaths (shell_state.BaseDirectory (state sh)) (op.ID' (current sh)) = Ok paths →
  Handle None sh = next ShellPhaseCreateDirectory paths sh.
Proof.
  intros Hs Hp Hr Ht Hpaths. unfold Handle. autorewrite with M. rewrite Hs, Hp, Hr, Ht.
  simpl. autorewrite with M. by rewrite Hpaths.
Qed.

(** C6: A shell operation runs to its end: made from a specification and
    started, it dispatches the creation of its directory and of its two
    capture files, the process and the reads of both captures, and when these
    succeed it completes within eight dispatches with the exit status and,
    for each stream, exactly the text, the size and the truncation that
    bounding the complete capture gives, however long the captures are. *)
Theorem shell_completes input base n s id paths files pid code signal c1 c2 :
  NewShellSpec input base n = Ok s →
  newShellPaths base id = Ok paths →
  string_ok (out paths) = true → string_ok (err paths) = true → 1 < pid →
  stable_file c1 (files (out paths)) → stable_file c2 (files (err paths)) →
  ∃ sh0 sh1 st1 k sh' o',
    NewShell (new_operation id s) = Ok sh0 ∧ max sh0 = n ∧
    Handle None sh0 = (sh1, Ok st1) ∧ (k ≤ 8)%nat ∧
    drive k (shell_env files pid code signal) sh1 st1 = (sh', Ok (checkpoint_step o')) ∧
    completed sh0 paths (shellExitStatus code signal) c1 c2 sh' o'.
Proof.
  intros Hspec Hpaths Ho He Hpid Hf1 Hf2.
  destruct (NewShell_fresh input base n s id Hspec) as (Hnew & Hmax & Hlim & Hstr).
  set (sh0 := MkShell _ _ _ _) in Hnew.
  set (sh1 := enter ShellPhaseCreateDirectory sh0).
  assert (running sh1 paths) as Hrun1.
  { constructor; simpl; try done; [|by rewrite Hmax]. by destruct Hstr. }
  destruct (dispatch_runs (createShellDirectory id ShellPhaseCreateDirectory (directory paths))
    (with_state (shell_state.set_Phase ShellPhaseCreateDirectory) sh0)) as [o1 Hd1];
    [by destruct Hstr|done|].
  assert (Handle None sh0 = (sh1, Ok (step.Mk (Some o1)
    [createShellDirectory id ShellPhaseCreateDirectory (directory paths)]))) as Hstart.
  { rewrite (start_runs sh0 paths eq_refl eq_refl eq_refl eq_refl Hpaths). exact Hd1. }
  (* the creations *)
  destruct (next_runs ShellPhaseCreateOut sh1 paths
    (createShellFile id ShellPhaseCreateOut (out paths)) Hrun1 eq_refl) as (o2 & Hn2 & Hrun2).
  { right. left. by split. }
  set (sh2 := enter ShellPhaseCreateOut sh1) in *.
  assert (running (with_state (shell_state.set_OutPath (out paths)) sh2) paths) as Hrun2'
    by (apply running_with_state; [by apply harmless_OutPath|done]).
  destruct (next_runs ShellPhaseCreateErr _ paths
    (createShellFile id ShellPhaseCreateErr (err paths)) Hrun2' eq_refl) as (o3 & Hn3 & Hrun3).
  { right. right. left. by split. }
  set (sh3 := enter ShellPhaseCreateErr _) in *.
  assert (running (with_state (shell_state.set_ErrPath (err paths)) sh3) paths) as Hrun3'
    by (apply running_with_state; [by apply harmless_ErrPath|done]).
  set (sh4 := enter ShellPhaseProcess (with_state (shell_state.set_ErrPath (err paths)) sh3)).
  destruct (next_runs ShellPhaseProcess _ paths
    (startShellProcess id (state sh4) paths) Hrun3' eq_refl) as (o4 & Hn4 & Hrun4).
  { right. right. right. left. by split. }
  fold sh4 in Hn4, Hrun4.
  (* the process *)
  set (sh5 := with_state (shell_state.set_exited (shellExitStatus code signal))
        (with_status StatusAwaiting (with_state (shell_state.set_ProcessGroupID pid) sh4))).
  assert (running sh5 paths) as Hrun5.
  { apply running_with_state; [apply harmless_exited|]. apply running_with_status.
    apply running_with_state; [apply harmless_ProcessGroupID|done]. }
  destruct (next_read ShellPhaseReadOut sh5 paths (head_read sh5 ShellPhaseReadOut (out paths))
    Hrun5 eq_refl eq_refl eq_refl) as (o6 & Hn6 & Hrun6).
  set (sh6 := enter ShellPhaseReadOut sh5) in *.
  pose proof (process_runs files pid code signal sh4 paths
    (step.Mk (Some o4) [startShellProcess id (state sh4) paths]) Hrun4 eq_refl Hpid) as Hproc.
  fold sh5 in Hproc.
  (* the captures *)
  destruct (out_stage files pid code signal sh6 paths (Some o6) c1 Hrun6 eq_refl Hf1)
    as (k1 & sh7 & o7 & Hdrive1 & Hk1 & Hrun7 & Hp7 & (Hmax7 & Hid7 & Hexit7) & Ho1 & Ho2 & Ho3).
  destruct (err_stage files pid code signal sh7 paths (Some o7) (shellExitStatus code signal) c1 c2
    Hrun7 Hp7 Hf2) as (k2 & sh8 & o8 & Hdrive2 & Hk2 & Hdone); try (by rewrite ?Hmax7).
  exists sh0, sh1, (step.Mk (Some o1) [createShellDirectory id ShellPhaseCreateDirectory (directory paths)]),
    (4 + (k1 + (k2 + 0)))%nat, sh8, o8.
  split; [exact Hnew|]. split; [exact Hmax|]. split; [exact Hstart|]. split; [lia|]. split.
  - cbn [Nat.add].
    refine (eq_trans (create_stage files pid code signal sh1 paths (Some o1) ShellPhaseCreateDirectory
      IOCreateDirectory (createShellDirectory id _ (directory paths)) Datatypes.id ShellPhaseCreateOut Hrun1 eq_refl eq_refl eq_refl
      (ex_intro _ _ (ex_intro _ _ eq_refl)) (conj eq_refl eq_refl) _ _ _ _ Hn2) _).
    refine (eq_trans (create_stage files pid code signal sh2 paths (Some o2) ShellPhaseCreateOut
      IOCreateRegularFile (createShellFile id _ (out paths)) (with_state (shell_state.set_OutPath (out paths))) ShellPhaseCreateErr Hrun2 eq_refl eq_refl eq_refl
      (ex_intro _ _ (ex_intro _ _ eq_refl)) (conj eq_refl eq_refl) _ _ _ _ Hn3) _).
    refine (eq_trans (create_stage files pid code signal sh3 paths (Some o3) ShellPhaseCreateErr
      IOCreateRegularFile (createShellFile id _ (err paths)) (with_state (shell_state.set_ErrPath (err paths))) ShellPhaseProcess Hrun3 eq_refl eq_refl eq_refl
      (ex_intro _ _ (ex_intro _ _ eq_refl)) (conj eq_refl eq_refl) _ _ _ _ Hn4) _).
    refine (eq_trans (drive_step _ _ _ _ _ _ _ (eq_trans Hproc Hn6)) _).
    rewrite Hdrive1. apply Hdrive2.
  - assert (max sh7 = max sh0) as Hm by (rewrite Hmax7; done).
    unfold completed in Hdone |- *. by rewrite Hm in Hdone.
Qed.

Definition echo_input : ShellInput := shell_input.Mk "echo abc" "/bin/sh" EmptyString.

Definition echo_spec : Spec :=
  match NewShellSpec echo_input "/base" 2 with
  | Ok s => s
  | _ => spec.Mk 0 EmptyString 0 VNil VNil
  end.

(** A file that holds [c] and never fails. *)
Definition file_of (c : bytes) : file_os :=
  FileOS None (inr (true, EmptyString, len c))
    (λ offset n, (take (Z.to_nat n) (drop (Z.to_nat offset) c), None)) (inr (len c)) None (λ _, false).

Lemma file_of_stable c : stable_file c (file_of c).
Proof. by split. Qed.

Definition echo_files (path : string) : file_os :=
  if bool_decide (path = "/base/op/out") then file_of (to_bytes "a long output") else file_of [].

Lemma shell_completes_witness :
  ∃ sh0 sh1 st1 k sh' o',
    NewShell (new_operation "op" echo_spec) = Ok sh0 ∧ max sh0 = 2 ∧
    Handle None sh0 = (sh1, Ok st1) ∧ (k ≤ 8)%nat ∧
    drive k (shell_env echo_files 100 0 9) sh1 st1 = (sh', Ok (checkpoint_step o')) ∧
    completed sh0 (MkShellPaths "/base/op" "/base/op/out" "/base/op/err") 137
      (to_bytes "a long output") [] sh' o'.
Proof.
  apply (shell_completes echo_input "/base" 2 echo_spec "op"
    (MkShellPaths "/base/op" "/base/op/out" "/base/op/err") echo_files 100 0 9).
  - vm_compute. reflexivity.
  - vm_compute. reflexivity.
  - reflexivity.
  - reflexivity.
  - lia.
  - apply file_of_stable.
  - apply file_of_stable.
Defined.
