(* ===== verification/ViewImage.v ===== *)
(** * View-image operations: operation/image.go

    A view-image operation reads a bounded image file, then has a compute
    primitive decode, resize and encode it.  What the image decoders and
    encoders return, and how a float64 is printed, is the argument [env]; the
    floats themselves are the binary64 numbers of the standard library. *)

From Stdlib Require Import Ascii ZArith Lia SpecFloat.
From S2P Require Import Prelude GoStrings GoText Base64 Json JsonCodec Primitives Operation.
From S2P Require Import Handler.

Local Open Scope Z_scope.

Definition TypeViewImage : Type_ := "view_image".
Definition VersionViewImage : Version := 1.
Definition DefaultMaxViewImageSourcePixels : Z := 32000000.
Definition MaxViewImageSourceBytes : Z := 256 * 1024 * 1024.
Definition viewImageReadCorrelation : CorrelationID := "view-image-read".
Definition viewImageProcessCorrelation : CorrelationID := "view-image-process".

Module vstate.
Record ViewImageState : Type := Mk {
  Path : string; Config : ViewImageConfig; Result : option ViewImageResult }.
End vstate.
Abbreviation ViewImageState := vstate.ViewImageState.

Record ViewImage : Type := MkView {
  current : Operation;
  state : ViewImageState;
  chunks : list bytes;
  readSize : Z;
  processing : bool;
}.

(** ** Encoding *)

#[local] Unset Program Cases.

Program Definition ViewImageConfig_codec : codec ViewImageConfig := {|
  zero := vconfig.Mk 0 0 0 0;
  enc s := enc_struct [field int64_codec "MaxSize" (vconfig.MaxSize s);
    field int64_codec "MaxHeight" (vconfig.MaxHeight s);
    field int64_codec "MaxWidth" (vconfig.MaxWidth s);
    field_omit int64_codec "MaxSourcePixels" (vconfig.MaxSourcePixels s =? 0) (vconfig.MaxSourcePixels s)];
  dec := dec_struct (vconfig.Mk 0 0 0 0) (λ o,
    a ← get int64_codec "MaxSize" o;
    b ← get int64_codec "MaxHeight" o;
    c ← get int64_codec "MaxWidth" o;
    d ← get int64_codec "MaxSourcePixels" o;
    Some (vconfig.Mk a b c d));
  jok s := in_int64 (vconfig.MaxSize s) = true ∧ in_int64 (vconfig.MaxHeight s) = true
           ∧ in_int64 (vconfig.MaxWidth s) = true ∧ in_int64 (vconfig.MaxSourcePixels s) = true |}.
Next Obligation. intros [a b c d] j (H1 & H2 & H3 & H4). simpl in *. struct_dec. Qed.
Next Obligation. intros [a b c d] j. struct_enc_ok. Qed.
#[export] Instance ViewImageConfig_total : Total ViewImageConfig_codec.
Proof.
  constructor.
  - struct_zero.
  - struct_total.
Qed.

Program Definition float64_codec : codec float64 := {|
  zero := JInt 0;
  enc f := if is_number f && json_ok f then Some f else None;
  dec j := if is_number j then Some j else match j with JNull => Some (JInt 0) | _ => None end;
  jok _ := True |}.
Next Obligation.
  intros f j _. simpl. destruct (is_number f && json_ok f) eqn:E; [|done]. intros [= <-].
  apply andb_true_iff in E as [E _]. by rewrite E.
Qed.
Next Obligation.
  intros f j. simpl. destruct (is_number f && json_ok f) eqn:E; [|done]. intros [= <-].
  by apply andb_true_iff in E as [_ E].
Qed.
#[export] Instance float64_total : Total float64_codec.
Proof.
  constructor; [done|]. intros j a Hj. simpl. destruct (is_number j) eqn:E.
  - intros [= <-]. rewrite E. by rewrite Hj.
  - destruct j; try done. by intros [= <-].
Qed.

Program Definition ViewImageResult_codec : codec ViewImageResult := {|
  zero := vresult.Mk EmptyString 0 0 EmptyString EmptyString (JInt 0) EmptyString;
  enc s := enc_struct [field string_codec "Content" (vresult.Content s);
    field int64_codec "OriginalWidth" (vresult.OriginalWidth s);
    field int64_codec "OriginalHeight" (vresult.OriginalHeight s);
    field string_codec "OriginalMIMEType" (vresult.OriginalMIMEType s);
    field string_codec "EncodedMIMEType" (vresult.EncodedMIMEType s);
    field float64_codec "ScaleRatio" (vresult.ScaleRatio s);
    field string_codec "Error" (vresult.Error s)];
  dec := dec_struct (vresult.Mk EmptyString 0 0 EmptyString EmptyString (JInt 0) EmptyString) (λ o,
    a ← get string_codec "Content" o;
    b ← get int64_codec "OriginalWidth" o;
    c ← get int64_codec "OriginalHeight" o;
    d ← get string_codec "OriginalMIMEType" o;
    e ← get string_codec "EncodedMIMEType" o;
    f ← get float64_codec "ScaleRatio" o;
    g ← get string_codec "Error" o;
    Some (vresult.Mk a b c d e f g));
  jok s := in_int64 (vresult.OriginalWidth s) = true ∧ in_int64 (vresult.OriginalHeight s) = true |}.
Next Obligation. intros [a b c d e f g] j (H1 & H2). simpl in H1, H2. struct_dec. Qed.
Next Obligation. intros [a b c d e f g] j. struct_enc_ok. Qed.
#[export] Instance ViewImageResult_total : Total ViewImageResult_codec.
Proof.
  constructor.
  - struct_zero.
  - struct_total.
Qed.

Definition ViewImageState_zero : ViewImageState :=
  vstate.Mk EmptyString (zero ViewImageConfig_codec) None.

Program Definition ViewImageState_codec : codec ViewImageState := {|
  zero := ViewImageState_zero;
  enc s := enc_struct [field string_codec "Path" (vstate.Path s);
    field ViewImageConfig_codec "Config" (vstate.Config s);
    field (ptr_codec ViewImageResult_codec) "Result" (vstate.Result s)];
  dec := dec_struct ViewImageState_zero (λ o,
    a ← get string_codec "Path" o;
    b ← get ViewImageConfig_codec "Config" o;
    c ← get (ptr_codec ViewImageResult_codec) "Result" o;
    Some (vstate.Mk a b c));
  jok s := jok ViewImageConfig_codec (vstate.Config s)
           ∧ jok (ptr_codec ViewImageResult_codec) (vstate.Result s) |}.
Next Obligation. intros [a b c] j (H1 & H2). cbn -[jok] in H1, H2. struct_dec. Qed.
Next Obligation. intros [a b c] j. struct_enc_ok. Qed.
#[export] Instance ViewImageState_total : Total ViewImageState_codec.
Proof.
  constructor.
  - struct_zero.
  - struct_total.
Qed.

(** ** Specifications and decoding *)

Definition validateViewImageState (s : ViewImageState) : result unit :=
  let c := vstate.Config s in
  if bool_decide (vstate.Path s = EmptyString) then Err (errors_New "image path must be set")
  else if (vconfig.MaxSize c <=? 0) || (vconfig.MaxHeight c <=? 0) || (vconfig.MaxWidth c <=? 0) then
    Err (errors_New "image MaxSize, MaxHeight, and MaxWidth must be positive")
  else if vconfig.MaxSourcePixels c <? 0 then
    Err (errors_New "image MaxSourcePixels must not be negative")
  else Ok tt.

Definition NewViewImageSpec (path : string) (config : ViewImageConfig) : result Spec :=
  let s := vstate.Mk path config None in
  _ ← validateViewImageState s;
  encoded ← map_err (Errorf_w "encode view-image operation state: ") (Marshal ViewImageState_codec s);
  Ok (spec.Mk 0 TypeViewImage VersionViewImage encoded VNil).

Definition DecodeViewImageState (o : Operation) : result ViewImageState :=
  if negb (bool_decide (op.Type' o = TypeViewImage)) || negb (op.Version' o =? VersionViewImage) then
    Err (unsupported ("decode view-image operation " +:+ quote (op.ID' o) +:+ ": type "
           +:+ quote (op.Type' o) +:+ " version " +:+ Itoa (op.Version' o)))
  else
    s ← map_err (Errorf_w ("decode view-image operation " +:+ quote (op.ID' o) +:+ " state: "))
          (Unmarshal ViewImageState_codec (op.State o));
    _ ← map_err (Errorf_w ("validate view-image operation " +:+ quote (op.ID' o) +:+ " state: "))
          (validateViewImageState s);
    Ok s.

Definition NewViewImage (o : Operation) : result ViewImage :=
  s ← DecodeViewImageState o;
  Ok (MkView (op.set_state VNil o) s [] 0 false).

(** ** Steps *)

Definition checkpoint : M ViewImage Step := λ v,
  match Marshal ViewImageState_codec (state v) with
  | Ok encoded => (v, Ok (checkpoint_step (op.set_state encoded (current v))))
  | Err e => (v, Err (Errorf_w ("encode view-image operation " +:+ quote (op.ID' (current v))
                                  +:+ " state: ") e))
  | Panic t => (v, Panic t)
  end.

Definition finish (r : ViewImageResult) (status : Status) : M ViewImage Step :=
  _ ← modify (λ v, MkView (op.set_status status (current v))
                     (vstate.Mk (vstate.Path (state v)) (vstate.Config (state v)) (Some r)) [] 0 false);
  checkpoint.

Definition error_result (text : string) : ViewImageResult :=
  vresult.Mk EmptyString 0 0 EmptyString EmptyString (JInt 1) text.

Definition fail_ (e : error) : M ViewImage Step := finish (error_result (Error e)) StatusFailed.

Definition cancel : M ViewImage Step :=
  finish (error_result "view-image operation canceled: context canceled") StatusCanceled.

Definition failViewImage (o : Operation) (cause : error) : result Step :=
  v ← NewViewImage o; snd (fail_ cause v).

Definition read_ : M ViewImage Step :=
  _ ← modify (λ v, MkView (op.set_status StatusAwaiting (current v)) (state v) [] 0 (processing v));
  step ← checkpoint;
  v ← self;
  mret (step.Mk (step.Operation step) [dispatch.Mk PrimitiveDispatchIORead (DataIORead
    (read.Mk (op.ID' (current v)) viewImageReadCorrelation (vstate.Path (state v)) 0
       MaxViewImageSourceBytes))]).

Definition process_ (cause : option error) : M ViewImage Step := λ v,
  (MkView (current v) (state v) [] 0 true,
   Ok (step.Mk None [dispatch.Mk PrimitiveDispatchCompute (DataCompute
     (compute.Mk (op.ID' (current v)) viewImageProcessCorrelation
        (Some (vclosure.Mk (chunks v) (vstate.Config (state v)) cause))))])).

(** ** Events *)

Definition processed (event : Event) : M ViewImage Step :=
  if negb (bool_decide (event.Type_ event = PrimitiveEventComputeCompleted)) then
    fail (errors_New ("image processing returned unexpected event " +:+ quote (event.Type_ event)))
  else match event.Result event with
  | ComputeResult (ValueViewImageResult r) =>
    if negb (bool_decide (vresult.Error r = EmptyString)) then
      finish (vresult.Mk EmptyString (vresult.OriginalWidth r) (vresult.OriginalHeight r)
                (vresult.OriginalMIMEType r) (vresult.EncodedMIMEType r) (vresult.ScaleRatio r)
                (vresult.Error r)) StatusFailed
    else finish r StatusCompleted
  | ComputeResult (ValueOther _) => fail (errors_New "image processing returned an invalid image result")
  | _ => fail (errors_New "image processing returned an invalid compute result")
  end.

Definition handleRead (event : Event) : M ViewImage Step :=
  v ← self;
  if bool_decide (event.Type_ event = PrimitiveEventIOReadOutput) then
    match event.Result event with
    | IOReadOutputResult offset data =>
      if negb (offset =? readSize v) || (MaxViewImageSourceBytes - readSize v <? len data) then
        fail (errors_New "image read returned invalid output")
      else
        _ ← modify (λ v, MkView (current v) (state v) (chunks v ++ [data])
                           (readSize v + len data) (processing v));
        mret (step.Mk None [])
    | _ => fail (errors_New "image read returned invalid output")
    end
  else if bool_decide (event.Type_ event = PrimitiveEventIOReadCompleted) then
    match event.Result event with
    | IOReadCompletedResult size =>
      if (size <? 0) || negb (Z.min size MaxViewImageSourceBytes =? readSize v) then
        fail (errors_New "image read returned an invalid completion")
      else if MaxViewImageSourceBytes <? size then
        process_ (Some (errors_New ("image source is " +:+ Itoa size +:+ " bytes; source limit is "
          +:+ Itoa MaxViewImageSourceBytes +:+ " bytes (exceeded by "
          +:+ Itoa (size - MaxViewImageSourceBytes) +:+ " bytes)")))
      else process_ None
    | _ => fail (errors_New "image read returned an invalid completion")
    end
  else fail (errors_New ("image read returned unexpected event " +:+ quote (event.Type_ event))).

Definition handleEvent (event : Event) : M ViewImage Step :=
  v ← self;
  let oid := op.ID' (current v) in
  let correlation := if processing v then viewImageProcessCorrelation else viewImageReadCorrelation in
  let dispatchRejected := bool_decide (event.Type_ event = PrimitiveEventFailed)
                          && bool_decide (event.Correlation event = EmptyString) in
  if negb (bool_decide (event.Source event = oid)) then
    fail (errors_New ("image event source is " +:+ quote (event.Source event) +:+ ", want " +:+ quote oid))
  else if negb (bool_decide (event.Correlation event = correlation)) && negb dispatchRejected then
    fail (errors_New ("image event correlation is " +:+ quote (event.Correlation event)
                        +:+ ", want " +:+ quote correlation))
  else if bool_decide (event.Type_ event = PrimitiveEventCanceled) then
    match event.Result event with
    | ResultNil => cancel
    | _ => fail (errors_New "image cancellation returned an invalid result")
    end
  else if bool_decide (event.Type_ event = PrimitiveEventFailed) then
    match event.Result event with
    | PrimitiveFailureResult text =>
      if processing v || dispatchRejected then
        fail_ (errors_New ("image primitive failed: " +:+ text))
      else
        let cause := errors_New ("read image: " +:+ text) in
        if readSize v =? 0 then fail_ cause else process_ (Some cause)
    | _ => fail (errors_New "image primitive failed with an invalid result")
    end
  else if processing v then processed event
  else handleRead event.

Definition Handle (event : option Event) : M ViewImage Step :=
  v ← self;
  let status := op.Status' (current v) in
  let named (prefix suffix : string) :=
    errors_New (prefix +:+ quote (op.ID' (current v)) +:+ suffix) in
  if bool_decide (status = StatusReady) || bool_decide (status = StatusAwaiting) then
    if bool_decide (is_Some (vstate.Result (state v))) then
      fail (named "advance view-image operation " ": state is terminal")
    else match event with
    | None =>
      if processing v then
        fail (named "advance view-image operation " ": processing is already in progress")
      else read_
    | Some event =>
      if bool_decide (status = StatusReady) then
        fail (named "advance ready view-image operation " ": unexpected primitive event")
      else handleEvent event
    end
  else if bool_decide (status = StatusCanceling) then
    match event with
    | Some _ => fail (named "advance canceling view-image operation " ": unexpected primitive event")
    | None => cancel
    end
  else fail (named "advance view-image operation " (": terminal status " +:+ quote status)).
