(* ===== verification/ViewImageCompute.v ===== *)
(** * Preparing an image: the callback of the view-image operation

    inspectViewImage, prepareViewImage, viewImageDimensions and the bounded
    writer of operation/image.go.  The image decoders and encoders (package
    image, golang.org/x/image), the printing of floats and the moments at
    which the context is canceled are the fields of [image_env]. *)

From Stdlib Require Import Ascii ZArith Lia SpecFloat.
From S2P Require Import Prelude GoStrings GoText Base64 Json JsonCodec Primitives Operation.
From S2P Require Import ViewImage.

Local Open Scope Z_scope.

(** ** float64 *)

Module float.
Definition of_int (z : Z) : spec_float := binary_normalize 53 1024 z 0 false.
Definition div (x y : spec_float) : spec_float := SFdiv 53 1024 x y.
Definition mul (x y : spec_float) : spec_float := SFmul 53 1024 x y.
Definition min (x y : spec_float) : spec_float := if SFltb y x then y else x.
Definition one : spec_float := of_int 1.

(** [int(math.Round(x))]: half away from zero. *)
Definition Round (x : spec_float) : Z :=
  match x with
  | S754_finite s m e =>
    let a := if 0 <=? e then Z.pos m * 2 ^ e
             else (Z.pos m + 2 ^ (- e - 1)) / 2 ^ (- e) in
    if s then - a else a
  | _ => 0
  end.
End float.

Definition viewImageDimensions (width height : Z) (config : ViewImageConfig) : Z * Z * spec_float :=
  let ratio := float.min (float.min float.one
      (float.div (float.of_int (vconfig.MaxWidth config)) (float.of_int width)))
      (float.div (float.of_int (vconfig.MaxHeight config)) (float.of_int height)) in
  (Z.max 1 (float.Round (float.mul (float.of_int width) ratio)),
   Z.max 1 (float.Round (float.mul (float.of_int height) ratio)), ratio).

Example dimensions_fit :
  fst (viewImageDimensions 4000 3000 (vconfig.Mk 1 1000 1000 0)) = (1000, 750).
Proof. vm_compute. reflexivity. Qed.

(** ** The writer of the encoded content *)

Record imageContentWriter : Type := MkWriter { limit : Z; size : Z; content : bytes }.

Definition Write (ctx : option error) (data : bytes) : M imageContentWriter Z := λ w,
  match ctx with
  | Some e => (w, Err e)
  | None =>
    let size := size w + len data in
    if limit w <? size then (MkWriter (limit w) size [], Ok (len data))
    else (MkWriter (limit w) size (content w ++ data), Ok (len data))
  end.

(** The pieces that an encoder writes, up to the first error. *)
Fixpoint write_all (ctx : nat → option error) (n : nat) (pieces : list bytes) : M imageContentWriter Z :=
  match pieces with
  | [] => mret 0
  | p :: pieces => _ ← Write (ctx n) p; write_all ctx (S n) pieces
  end.

(** ** Inspection and preparation *)

(** What is not modelled: an image and its pixels are in [image]. *)
Record image_env : Type := ImageEnv {
  image : Type;
  DecodeConfig : bytes → Z * Z * string * option error;   (* width, height, format *)
  Decode : bytes → error + image;
  Scale : image → Z → Z → image;
  (* the pieces of base64 text an encoder writes, and its error *)
  EncodeJpeg : image → list bytes * option error;
  EncodePng : image → list bytes * option error;
  CopySource : bytes → list bytes;
  ctx_decoded : option error;
  ctx_writes : nat → option error;
  ctx_closed : option error;
  close_pieces : list bytes;
  float_json : spec_float → json;
  format_ratio : spec_float → string;                     (* %.6g *)
  format_percent : Z → Z → string;                        (* %.1f of 100*a/b *)
}.

(** [errors.Join] of errors that may be nil. *)
Definition Join_opt (l : list (option error)) : option error :=
  match omap (λ e, e) l with
  | [] => None
  | es => Some (MkError (GoText.Join (Error <$> es) (String "010" EmptyString)) (mjoin (Is <$> es)))
  end.

Section Prepare.
Context (env : image_env).

Definition empty_result : ViewImageResult :=
  vresult.Mk EmptyString 0 0 EmptyString EmptyString (JInt 1) EmptyString.

Definition with_size (w h : Z) (mime : string) : ViewImageResult :=
  vresult.Mk EmptyString w h mime EmptyString (JInt 1) EmptyString.

Definition inspectViewImage (source : bytes) : ViewImageResult * string * option error :=
  let '(width, height, format, err) := DecodeConfig env source in
  match err with
  | Some e => (empty_result, format,
      Some (Errorf_w "decode image header; original dimensions unavailable: " e))
  | None =>
    if (width <=? 0) || (height <=? 0) then
      (with_size width height EmptyString, format, Some (errors_New "image dimensions must be positive"))
    else if bool_decide (format = "gif") then
      (with_size width height "image/gif", format,
       Some (errors_New ("unsupported image format " +:+ quote "gif")))
    else if bool_decide (format ∈ ["jpeg"; "png"; "bmp"; "tiff"; "webp"]) then
      (with_size width height ("image/" +:+ format), format, None)
    else (with_size width height EmptyString, format,
          Some (errors_New ("unsupported image format " +:+ quote format)))
  end.

Definition set_ratio (r : ViewImageResult) (ratio : spec_float) : ViewImageResult :=
  vresult.Mk (vresult.Content r) (vresult.OriginalWidth r) (vresult.OriginalHeight r)
    (vresult.OriginalMIMEType r) (vresult.EncodedMIMEType r) (float_json env ratio) (vresult.Error r).
Definition set_encoded (r : ViewImageResult) (mime : string) : ViewImageResult :=
  vresult.Mk (vresult.Content r) (vresult.OriginalWidth r) (vresult.OriginalHeight r)
    (vresult.OriginalMIMEType r) mime (vresult.ScaleRatio r) (vresult.Error r).
Definition set_content (r : ViewImageResult) (content error : string) : ViewImageResult :=
  vresult.Mk content (vresult.OriginalWidth r) (vresult.OriginalHeight r)
    (vresult.OriginalMIMEType r) (vresult.EncodedMIMEType r) (vresult.ScaleRatio r) error.

(** The pieces written and the encoder's own error: a JPEG that keeps its
    size is copied, not encoded again. *)
Definition encoder (source : bytes) (format : string) (ratio : spec_float) (img : image env)
  : list bytes * option error :=
  if bool_decide (format = "jpeg") && SFeqb ratio float.one then (CopySource env source, None)
  else if bool_decide (format = "jpeg") then EncodeJpeg env img
  else EncodePng env img.

Definition error_of {A} (r : result A) : option error :=
  match r with Err e => Some e | _ => None end.

Definition prepareViewImage (chunks : list bytes) (config : ViewImageConfig) (cause : option error)
  : ViewImageResult * option error :=
  let source := concat chunks in
  let '(r, format, err) := inspectViewImage source in
  match Join_opt [cause; err] with
  | Some e => (r, Some e)
  | None =>
    let maxPixels := if vconfig.MaxSourcePixels config =? 0 then DefaultMaxViewImageSourcePixels
                     else vconfig.MaxSourcePixels config in
    if maxPixels / vresult.OriginalHeight r <? vresult.OriginalWidth r then
      (r, Some (errors_New ("refuse to decode " +:+ Itoa (vresult.OriginalWidth r) +:+ "x"
        +:+ Itoa (vresult.OriginalHeight r) +:+ " " +:+ format +:+ " image: exceeds MaxSourcePixels "
        +:+ Itoa maxPixels)))
    else match Decode env source with
    | inl e => (r, Some (Errorf_w ("decode " +:+ format +:+ " pixels: ") e))
    | inr img =>
      let '(width, height, ratio) :=
        viewImageDimensions (vresult.OriginalWidth r) (vresult.OriginalHeight r) config in
      let r := set_ratio r ratio in
      match ctx_decoded env with
      | Some e => (r, Some e)
      | None =>
        let img := if SFltb ratio float.one then Scale env img width height else img in
        let r := set_encoded r (if bool_decide (format = "jpeg") then "image/jpeg" else "image/png") in
        let '(pieces, encode_err) := encoder source format ratio img in
        let '(w, written) := write_all (ctx_writes env) 0 pieces
                               (MkWriter (vconfig.MaxSize config) 0 []) in
        let '(w, closed) := write_all (ctx_writes env) (length pieces) (close_pieces env) w in
        match Join_opt [match error_of written with Some e => Some e | None => encode_err end;
                        error_of closed; ctx_closed env] with
        | Some e =>
          (r, Some (MkError ("encode " +:+ vresult.EncodedMIMEType r +:+ ": " +:+ Error e
             +:+ "; produced " +:+ Itoa (size w) +:+ " base64 bytes before stopping, final size unavailable (MaxSize "
             +:+ Itoa (vconfig.MaxSize config) +:+ " bytes)") (Is e)))
        | None =>
          if vconfig.MaxSize config <? size w then
            (r, Some (errors_New (vresult.EncodedMIMEType r +:+ " image after resizing "
              +:+ Itoa (vresult.OriginalWidth r) +:+ "x" +:+ Itoa (vresult.OriginalHeight r) +:+ " to "
              +:+ Itoa width +:+ "x" +:+ Itoa height +:+ " (scale " +:+ format_ratio env ratio +:+ ") needs "
              +:+ Itoa (size w) +:+ " base64 bytes; MaxSize is " +:+ Itoa (vconfig.MaxSize config)
              +:+ " bytes, exceeded by " +:+ Itoa (size w - vconfig.MaxSize config) +:+ " bytes ("
              +:+ format_percent env (size w - vconfig.MaxSize config) (vconfig.MaxSize config) +:+ "%)")))
          else (set_content r (to_string (content w)) (vresult.Error r), None)
        end
      end
    end
  end.

(** The closure that [process] dispatches: a failure is a value. *)
Definition run_closure (c : vclosure.Closure) : ComputeValue :=
  let '(r, err) := prepareViewImage (vclosure.chunks c) (vclosure.config c) (vclosure.cause c) in
  ValueViewImageResult (match err with
    | Some e => set_content r EmptyString (Error e)
    | None => r
    end).

End Prepare.

(** ** Rounding to float64 *)

Lemma digits_bounds p : 2 ^ (Z.pos (digits2_pos p) - 1) ≤ Z.pos p < 2 ^ Z.pos (digits2_pos p).
Proof.
  induction p as [p IH|p IH|]; simpl digits2_pos; [| |done];
    rewrite Pos2Z.inj_succ, Z.pow_succ_r by lia;
    replace (Z.succ (Z.pos (digits2_pos p)) - 1) with (Z.succ (Z.pos (digits2_pos p) - 1)) by lia;
    rewrite Z.pow_succ_r by lia; lia.
Qed.

Lemma pow_le_inv a b : 0 ≤ b → 2 ^ a < 2 ^ b → a < b.
Proof. intros Hb H. apply (Z.pow_lt_mono_r_iff 2); lia. Qed.

Lemma digits_eq m d : 0 < d → 2 ^ (d - 1) ≤ m < 2 ^ d → Zdigits2 m = d.
Proof.
  intros Hd [H1 H2]. destruct m as [|p|p]; [|simpl|].
  - pose proof (Z.pow_pos_nonneg 2 (d - 1)). lia.
  - destruct (digits_bounds p) as [H3 H4].
    assert (d - 1 < Z.pos (digits2_pos p)) by (apply pow_le_inv; lia).
    assert (Z.pos (digits2_pos p) - 1 < d) by (apply pow_le_inv; lia). lia.
  - pose proof (Z.pow_pos_nonneg 2 (d - 1)). lia.
Qed.

Lemma digits_of m : 0 < m → ∃ d, 0 < d ∧ Zdigits2 m = d ∧ 2 ^ (d - 1) ≤ m < 2 ^ d.
Proof. destruct m as [|p|p]; [lia| |lia]. intros _. exists (Z.pos (digits2_pos p)). split; [lia|]. split; [done|apply digits_bounds]. Qed.

Lemma shr_1_half r : 0 ≤ shr_m r → shr_m (shr_1 r) = shr_m r / 2.
Proof.
  destruct r as [[|[p|p|]|p] a b]; simpl; intros H; try lia; [done| | |done].
  - rewrite Pos2Z.inj_xI. apply Z.div_unique with 1; lia.
  - rewrite Pos2Z.inj_xO. apply Z.div_unique with 0; lia.
Qed.

Lemma iter_shr (p : positive) (r : shr_record) : 0 ≤ shr_m r → shr_m (SpecFloat.iter_pos shr_1 p r) = shr_m r / 2 ^ Z.pos p.
Proof.
  revert r. induction p as [p IH|p IH|]; intros r Hr; simpl SpecFloat.iter_pos.
  - assert (0 ≤ shr_m (shr_1 r)) as H1 by (rewrite shr_1_half by done; by apply Z.div_pos).
    assert (0 ≤ shr_m (SpecFloat.iter_pos shr_1 p (shr_1 r))) as H2 by (rewrite IH by done; by apply Z.div_pos; lia).
    rewrite !IH, shr_1_half, !Z.div_div by (try done; lia).
    f_equal. rewrite (Pos2Z.inj_xI p). replace (2 * Z.pos p + 1) with (Z.pos p + Z.pos p + 1) by lia.
    rewrite !Z.pow_add_r by lia. change (2 ^ 1) with 2. ring.
  - assert (0 ≤ shr_m (SpecFloat.iter_pos shr_1 p r)) as H2 by (rewrite IH by done; by apply Z.div_pos; lia).
    rewrite !IH, !Z.div_div by (try done; lia).
    f_equal. rewrite (Pos2Z.inj_xO p). replace (2 * Z.pos p) with (Z.pos p + Z.pos p) by lia.
    by rewrite Z.pow_add_r by lia.
  - by apply shr_1_half.
Qed.

Lemma shr_spec r e n :
  0 ≤ shr_m r → 0 ≤ n → ∃ r', shr r e n = (r', e + n) ∧ shr_m r' = shr_m r / 2 ^ n ∧ (n = 0 → r' = r).
Proof.
  intros Hr Hn. destruct n as [|p|p]; [| |lia]; simpl shr.
  - exists r. rewrite Z.div_1_r, Z.add_0_r. done.
  - eexists. split; [reflexivity|]. split; [by apply iter_shr|done].
Qed.

Lemma shr_m_loc m l : shr_m (shr_record_of_loc m l) = m.
Proof. by destruct l as [|[]]. Qed.

Lemma nearest_bounds m l : m ≤ round_nearest_even m l ≤ m + 1.
Proof. destruct l as [|[]]; simpl; try destruct (Z.even m); lia. Qed.

Abbreviation p52 := 4503599627370496.

Lemma fexp_normal d e : 53 ≤ d → -1074 ≤ e → fexp 53 1024 (d + e) - e = d - 53.
Proof. unfold fexp, emin. lia. Qed.

(** Rounding of a mantissa of at least 53 bits: at least that of its powers
    of two, and within one unit of 52 bits. *)
Lemma round_aux mx ex lx :
  p52 ≤ mx < 2 ^ 110 → -1000 ≤ ex ≤ 800 →
  ∃ m e, binary_round_aux 53 1024 false mx ex lx = S754_finite false m e ∧
    p52 ≤ Z.pos m < 2 * p52 ∧ ex ≤ e ≤ ex + 60 ∧
    mx * (p52 - 1) ≤ Z.pos m * 2 ^ (e - ex) * p52 ≤ mx * (p52 + 1) ∧
    (∀ j, 0 ≤ j → 2 ^ j ≤ mx → 2 ^ j ≤ Z.pos m * 2 ^ (e - ex)) ∧
    (mx < 2 * p52 → lx = loc_Exact → Z.pos m = mx ∧ e = ex).
Proof.
  intros Hmx Hex. destruct (digits_of mx) as (D & HD0 & HD & HD1 & HD2); [lia|].
  assert (53 ≤ D) as HD53 by (cut (52 < D); [lia|]; apply pow_le_inv; [lia|]; change (2 ^ 52) with p52; lia).
  assert (D ≤ 110) as HD110 by (cut (D - 1 < 110); [lia|]; apply pow_le_inv; lia).
  unfold binary_round_aux, shr_fexp. rewrite HD, fexp_normal by lia. set (n := D - 53).
  assert (0 ≤ n) as Hn by lia.
  destruct (shr_spec (shr_record_of_loc mx lx) ex n) as (r1 & -> & Hr1 & Hexact); [rewrite shr_m_loc; lia|done|].
  rewrite shr_m_loc in Hr1. rewrite Hr1.
  pose proof (Z.pow_pos_nonneg 2 n ltac:(lia) Hn) as Hpn. pose proof (Z.mul_div_le mx (2 ^ n) Hpn) as Hfl.
  pose proof (Z.mod_pos_bound mx (2 ^ n) Hpn) as Hmod. pose proof (Z.div_mod mx (2 ^ n) ltac:(lia)) as Hdm.
  assert (2 ^ (D - 1) = p52 * 2 ^ n) as E1 by (change p52 with (2 ^ 52); rewrite <- Z.pow_add_r by lia; f_equal; lia).
  assert (2 ^ D = 2 * p52 * 2 ^ n) as E2 by (change (2 * p52) with (2 ^ 53); rewrite <- Z.pow_add_r by lia; f_equal; lia).
  remember (mx / 2 ^ n) as m1 eqn:Em1.
  assert (p52 ≤ m1 < 2 * p52) as Hm1 by nia.
  assert (∀ j, 0 ≤ j → 2 ^ j ≤ mx → 2 ^ j ≤ m1 * 2 ^ n) as Hpow.
  { intros j Hj Hle. destruct (Z.le_gt_cases n j) as [Hnj|Hnj].
    - assert (2 ^ j = 2 ^ (j - n) * 2 ^ n) as Ej by (rewrite <- Z.pow_add_r by lia; f_equal; lia).
      rewrite Ej. apply Z.mul_le_mono_nonneg_r; [lia|]. rewrite Em1. apply Z.div_le_lower_bound; lia.
    - pose proof (Z.pow_lt_mono_r 2 j n). nia. }
  pose proof (nearest_bounds m1 (loc_of_shr_record r1)) as Hr.
  assert (lx = loc_Exact → n = 0 → round_nearest_even m1 (loc_of_shr_record r1) = m1) as Hre.
  { intros -> ->%Hexact. done. }
  remember (round_nearest_even m1 (loc_of_shr_record r1)) as rr eqn:Err.
  assert (∃ n', (n' = 0 ∧ rr < 2 * p52 ∨ n' = 1 ∧ rr = 2 * p52) ∧ Zdigits2 rr = 53 + n') as (n' & Hn' & ->).
  { destruct (Z.eq_dec rr (2 * p52)) as [->|Hne]; [exists 1|exists 0]; (split; [lia|]); apply digits_eq; try lia. }
  rewrite fexp_normal by lia.
  destruct (shr_spec (shr_record_of_loc rr loc_Exact) (ex + n) (53 + n' - 53)) as (r2 & -> & Hr2 & _);
    [rewrite shr_m_loc; lia|lia|].
  rewrite shr_m_loc in Hr2. rewrite Hr2. replace (53 + n' - 53) with n' by lia.
  assert (p52 ≤ rr / 2 ^ n' < 2 * p52 ∧ rr / 2 ^ n' * 2 ^ n' = rr) as [Hm2 Hm2'].
  { destruct Hn' as [[-> ?]|[-> ->]]; [change (2 ^ 0) with 1; rewrite Z.div_1_r, Z.mul_1_r; lia|]. change (2 ^ 1) with 2.
    rewrite Z.mul_comm, Z.div_mul by lia. lia. }
  destruct (rr / 2 ^ n') as [|m|m] eqn:Em; [lia| |lia].
  rewrite (proj2 (Z.leb_le _ _)) by lia. exists m, (ex + n + n').
  replace (ex + n + n' - ex) with (n' + n) by lia. rewrite Z.pow_add_r, Z.mul_assoc, Hm2' by lia.
  split; [done|]. split; [done|]. split; [lia|]. split; [|split].
  - nia.
  - intros j Hj Hle. specialize (Hpow j Hj Hle). nia.
  - intros Hlt ->. assert (D = 53) as -> by (cut (D - 1 < 53); [lia|]; apply pow_le_inv; [lia|];
      change (2 ^ 53) with (2 * p52); lia).
    subst n. change (2 ^ (53 - 53)) with 1 in *. rewrite Z.div_1_r in Em1. assert (rr = m1) by (by apply Hre).
    destruct Hn' as [[-> ?]|[-> ?]]; [|lia]. change (2 ^ 0) with 1 in *. lia.
Qed.

(** A positive float64 with all its bits, and its value in units of 2^-200. *)
Definition normal (x : spec_float) (m : positive) (e : Z) : Prop :=
  x = S754_finite false m e ∧ p52 ≤ Z.pos m < 2 * p52 ∧ -170 ≤ e ≤ 150.

Definition units (m : positive) (e : Z) : Z := Z.pos m * 2 ^ (e + 200).

Abbreviation unit_ := (2 ^ 200).

Lemma iter_xO (p q : positive) : Z.pos (Pos.iter xO p q) = Z.pos p * 2 ^ Z.pos q.
Proof.
  induction q as [|q IH] using Pos.peano_ind; [simpl; lia|].
  rewrite Pos.iter_succ, Pos2Z.inj_xO, IH, Pos2Z.inj_succ, Z.pow_succ_r by lia. lia.
Qed.

Lemma of_int_ok z :
  0 < z < 2 ^ 48 → ∃ m e, normal (float.of_int z) m e ∧ -52 ≤ e ≤ 0 ∧ Z.pos m = z * 2 ^ (- e).
Proof.
  intros Hz. destruct z as [|p|p]; [lia| |lia]. unfold float.of_int. simpl. unfold binary_round.
  destruct (digits_bounds p) as [H1 H2]. remember (Z.pos (digits2_pos p)) as d eqn:Ed.
  assert (0 < d) by lia. assert (d ≤ 48) by (cut (d - 1 < 48); [lia|]; apply pow_le_inv; lia).
  assert (shl_align p 0 (fexp 53 1024 (d + 0)) = (Pos.iter xO p (Z.to_pos (53 - d)), d - 53)) as ->.
  { assert (fexp 53 1024 (d + 0) = d - 53) as -> by (unfold fexp, emin; lia).
    unfold shl_align. destruct (d - 53 - 0) as [|q|q] eqn:Eq; [lia|lia|]. f_equal; f_equal; lia. }
  set (m := Pos.iter xO p _). assert (Z.pos m = Z.pos p * 2 ^ (53 - d)) as Em.
  { unfold m. rewrite iter_xO. f_equal. f_equal. lia. }
  assert (2 ^ (d - 1) * 2 ^ (53 - d) = p52) as E1 by (rewrite <- Z.pow_add_r by lia; by replace (d - 1 + (53 - d)) with 52 by lia).
  assert (2 ^ d * 2 ^ (53 - d) = 2 * p52) as E2 by (rewrite <- Z.pow_add_r by lia; by replace (d + (53 - d)) with 53 by lia).
  assert (p52 ≤ Z.pos m < 2 * p52) as Hm by nia.
  destruct (round_aux (Z.pos m) (d - 53) loc_Exact) as (m' & e & H3 & H4 & H5 & _ & _ & H6); [|lia|].
  { split; [lia|]. transitivity (2 * p52); [lia|]. reflexivity. }
  destruct H6 as [H6 ->]; [lia|done|]. injection H6 as ->. exists m, (d - 53).
  split; [|split; [lia|rewrite Em; f_equal; f_equal; lia]]. split; [done|]. split; [lia|lia].
Qed.

Lemma div_ok a b :
  0 < a < 2 ^ 48 → 0 < b < 2 ^ 48 →
  ∃ m e, normal (float.div (float.of_int a) (float.of_int b)) m e ∧ -105 ≤ e ≤ 60 ∧
    a * unit_ * (p52 - 1) * (p52 - 1) ≤ units m e * b * p52 * p52 ∧
    units m e * b * p52 ≤ a * unit_ * (p52 + 1) ∧
    (b ≤ a → unit_ ≤ units m e).
Proof.
  intros Ha Hb. destruct (of_int_ok a Ha) as (m1 & e1 & (-> & H1 & _) & He1 & Em1).
  destruct (of_int_ok b Hb) as (m2 & e2 & (-> & H2 & _) & He2 & Em2).
  unfold float.div, SFdiv, SFdiv_core_binary.
  rewrite (digits_eq (Z.pos m1) 53), (digits_eq (Z.pos m2) 53) by lia.
  assert (Z.min (fexp 53 1024 (53 + e1 - (53 + e2))) (e1 - e2) = e1 - e2 - 53) as -> by (unfold fexp, emin; lia).
  replace (e1 - e2 - (e1 - e2 - 53)) with 53 by lia. cbv iota beta. rewrite Z.shiftl_mul_pow2 by lia.
  change (2 ^ 53) with (2 * p52).
  pose proof (Z_div_mod (Z.pos m1 * (2 * p52)) (Z.pos m2) ltac:(lia)) as Hqr.
  destruct (Z.div_eucl _ _) as [q r]. destruct Hqr as [Hqr Hr].
  assert (p52 ≤ q < 4 * p52) as Hq by nia.
  destruct (round_aux q (e1 - e2 - 53) (new_location (Z.pos m2) r)) as (m & e & E & Hm & He & Hv & Hp & _).
  { split; [lia|]. transitivity (4 * p52); [lia|reflexivity]. }
  { lia. }
  exists m, e. split; [split; [exact E|split; [done|lia]]|]. split; [lia|].
  set (k := e - (e1 - e2 - 53)) in *. assert (0 ≤ k) by lia.
  assert (2 ^ (e + 200) = 2 ^ k * 2 ^ (147 + e1) * 2 ^ (- e2)) as Ek by (rewrite <- !Z.pow_add_r by lia; f_equal; lia).
  assert (2 ^ (- e1) * 2 ^ (147 + e1) * (2 * p52) = unit_) as Eu.
  { change (2 * p52) with (2 ^ 53). rewrite <- !Z.pow_add_r by lia. f_equal. lia. }
  pose proof (Z.pow_pos_nonneg 2 (147 + e1) ltac:(lia) ltac:(lia)) as HW.
  set (A := Z.pos m1 * (2 * p52)) in *. set (X := Z.pos m * 2 ^ k) in *.
  assert (units m e * b = X * Z.pos m2 * 2 ^ (147 + e1)) as Ex by (unfold units, X; rewrite Ek, Em2; ring).
  assert (a * unit_ = A * 2 ^ (147 + e1)) as Ea by (rewrite <- Eu; unfold A; rewrite Em1; ring).
  rewrite Ea, Ex. split; [|split].
  - assert (A * (p52 - 1) * (p52 - 1) ≤ X * Z.pos m2 * p52 * p52); [|nia].
    assert (A * (p52 - 1) ≤ (A - Z.pos m2) * p52) by nia.
    assert ((A - Z.pos m2) * (p52 - 1) ≤ X * Z.pos m2 * p52) by nia. nia.
  - assert (X * Z.pos m2 * p52 ≤ A * (p52 + 1)); [|nia]. nia.
  - intros Hab. set (j := 53 - e1 + e2).
    assert (2 ^ j ≤ X) as HX.
    { apply Hp; [lia|]. assert (2 ^ j * Z.pos m2 ≤ A); [|nia].
      assert (2 ^ j * 2 ^ (- e2) = 2 ^ (- e1) * (2 * p52)) as E2.
      { change (2 * p52) with (2 ^ 53). rewrite <- !Z.pow_add_r by lia. f_equal. lia. }
      unfold A. rewrite Em1, Em2. pose proof (Z.pow_pos_nonneg 2 (- e1) ltac:(lia) ltac:(lia)). nia. }
    assert (2 ^ j * 2 ^ (e1 - e2 + 147) = unit_) as E3 by (rewrite <- !Z.pow_add_r by lia; f_equal; lia).
    assert (2 ^ (e + 200) = 2 ^ k * 2 ^ (e1 - e2 + 147)) as E4 by (rewrite <- !Z.pow_add_r by lia; f_equal; lia).
    unfold units. rewrite E4, <- E3, Z.mul_assoc. apply Z.mul_le_mono_nonneg_r; [lia|exact HX].
Qed.

Lemma mul_ok w r m e :
  0 < w < 2 ^ 48 → normal r m e → -105 ≤ e ≤ 60 →
  ∃ m' e', normal (float.mul (float.of_int w) r) m' e' ∧
    w * units m e * (p52 - 1) ≤ units m' e' * p52 ≤ w * units m e * (p52 + 1).
Proof.
  intros Hw (-> & Hm & _) He. destruct (of_int_ok w Hw) as (m1 & e1 & (-> & H1 & _) & He1 & Em1).
  unfold float.mul, SFmul. simpl xorb. rewrite Pos2Z.inj_mul.
  destruct (round_aux (Z.pos m1 * Z.pos m) (e1 + e) loc_Exact) as (m' & e' & E & Hm' & He' & Hv & _).
  { split; [nia|]. transitivity ((2 * p52) * (2 * p52)); [nia|reflexivity]. }
  { lia. }
  exists m', e'. split; [split; [exact E|split; [done|lia]]|].
  set (k := e' - (e1 + e)) in *. assert (0 ≤ k) by lia.
  assert (2 ^ (e' + 200) = 2 ^ k * 2 ^ (e1 + e + 200)) as Ek by (rewrite <- !Z.pow_add_r by lia; f_equal; lia).
  assert (2 ^ (e + 200) = 2 ^ (- e1) * 2 ^ (e1 + e + 200)) as Eu by (rewrite <- !Z.pow_add_r by lia; f_equal; lia).
  pose proof (Z.pow_pos_nonneg 2 (e1 + e + 200) ltac:(lia) ltac:(lia)) as HW.
  unfold units. rewrite Ek, Eu.
  replace (w * (Z.pos m * (2 ^ (- e1) * 2 ^ (e1 + e + 200)))) with (Z.pos m1 * Z.pos m * 2 ^ (e1 + e + 200))
    by (rewrite Em1; ring).
  nia.
Qed.

Lemma Round_ok x m e z :
  normal x m e → 0 ≤ z →
  (units m e * 2 < (2 * z + 1) * unit_ → float.Round x ≤ z) ∧
  ((2 * z - 1) * unit_ ≤ units m e * 2 → z ≤ float.Round x).
Proof.
  intros (-> & Hm & He) Hz. unfold float.Round, units. cbv zeta. destruct (Z.leb_spec 0 e) as [H0|H0].
  - assert (2 ^ (e + 200) = 2 ^ e * unit_) as -> by (rewrite <- !Z.pow_add_r by lia; done).
    generalize (Z.pow_pos_nonneg 2 e). intros Hp. assert (0 < unit_) by done. generalize dependent unit_. intros u Hu.
    split; intros H; nia.
  - assert (unit_ = 2 ^ (- e) * 2 ^ (e + 200)) as -> by (rewrite <- !Z.pow_add_r by lia; f_equal; lia).
    pose proof (Z.pow_pos_nonneg 2 (e + 200) ltac:(lia) ltac:(lia)) as Hu. generalize dependent (2 ^ (e + 200)). intros u Hu.
    assert (2 ^ (- e) = 2 * 2 ^ (- e - 1)) as Eh by (rewrite <- Z.pow_succ_r by lia; f_equal; lia).
    pose proof (Z.pow_pos_nonneg 2 (- e - 1) ltac:(lia) ltac:(lia)) as Hh. rewrite Eh.
    generalize dependent (2 ^ (- e - 1)). intros h _ Hh.
    split; intros H.
    + apply Z.lt_succ_r, Z.div_lt_upper_bound; [lia|]. nia.
    + apply Z.div_le_lower_bound; [lia|]. nia.
Qed.

Lemma ltb_ok x y m1 e1 m2 e2 :
  normal x m1 e1 → normal y m2 e2 →
  if SFltb x y then units m1 e1 < units m2 e2 else units m2 e2 ≤ units m1 e1.
Proof.
  assert (∀ (m1 m2 : positive) e1 e2, p52 ≤ Z.pos m2 → Z.pos m1 < 2 * p52 → -200 ≤ e1 < e2 →
    units m1 e1 < units m2 e2) as Hlt.
  { clear. intros m1 m2 e1 e2 H2 H1 He. unfold units.
    assert (2 ^ (e2 + 200) = 2 ^ (e2 - e1 - 1) * 2 * 2 ^ (e1 + 200)) as ->.
    { change 2 with (2 ^ 1) at 3. rewrite <- !Z.pow_add_r by lia. f_equal. lia. }
    pose proof (Z.pow_pos_nonneg 2 (e1 + 200) ltac:(lia) ltac:(lia)).
    pose proof (Z.pow_pos_nonneg 2 (e2 - e1 - 1) ltac:(lia) ltac:(lia)).
    assert (Z.pos m1 < Z.pos m2 * (2 ^ (e2 - e1 - 1) * 2)) by nia. nia. }
  intros (-> & H1 & He1) (-> & H2 & He2). unfold SFltb, SFcompare.
  destruct (Z.compare_spec e1 e2) as [->|H|H].
  - change (Pos.compare_cont Eq m1 m2) with (Pos.compare m1 m2).
    pose proof (Z.pow_pos_nonneg 2 (e2 + 200) ltac:(lia) ltac:(lia)). unfold units.
    destruct (Pos.compare_spec m1 m2) as [->|H'|H']; nia.
  - apply Hlt; lia.
  - apply Z.lt_le_incl, Hlt; lia.
Qed.

(** ** The size of a prepared image *)

Lemma one_ok : ∃ m e, normal float.one m e ∧ -105 ≤ e ≤ 60 ∧ units m e = unit_.
Proof. exists 4503599627370496%positive, (-52). split; [|done]. split; [vm_compute; reflexivity|]. lia. Qed.

Lemma min_ok x y m1 e1 m2 e2 :
  normal x m1 e1 → normal y m2 e2 →
  units m2 e2 < units m1 e1 ∧ float.min x y = y ∨ units m1 e1 ≤ units m2 e2 ∧ float.min x y = x.
Proof.
  intros Hx Hy. pose proof (ltb_ok y x _ _ _ _ Hy Hx) as H. unfold float.min. destruct (SFltb y x); auto.
Qed.

(** A size scaled by a ratio that is about [z / w]. *)
Lemma scaled_le w z r m e :
  0 < w < 2 ^ 48 → 0 < z < 2 ^ 48 → normal r m e → -105 ≤ e ≤ 60 →
  units m e * w * p52 ≤ z * unit_ * (p52 + 1) → float.Round (float.mul (float.of_int w) r) ≤ z.
Proof.
  intros Hw Hz Hr He Hv. destruct (mul_ok w r m e Hw Hr He) as (m' & e' & H & _ & Hu).
  apply (Round_ok _ _ _ z H); [lia|]. assert (0 < unit_) by done. generalize dependent unit_. intros u Hv Hp.
  assert (units m' e' * p52 * p52 ≤ z * u * (p52 + 1) * (p52 + 1)) by nia.
  assert (2 * z * (p52 + 1) * (p52 + 1) < (2 * z + 1) * p52 * p52) by lia. nia.
Qed.

Lemma scaled_ge w z r m e :
  0 < w < 2 ^ 48 → 0 < z < 2 ^ 48 → normal r m e → -105 ≤ e ≤ 60 →
  z * unit_ * (p52 - 1) * (p52 - 1) ≤ units m e * w * p52 * p52 → z ≤ float.Round (float.mul (float.of_int w) r).
Proof.
  intros Hw Hz Hr He Hv. destruct (mul_ok w r m e Hw Hr He) as (m' & e' & H & Hu & _).
  apply (Round_ok _ _ _ z H); [lia|]. assert (0 < unit_) by done. generalize dependent unit_. intros u Hv Hp.
  assert (z * u * (p52 - 1) * (p52 - 1) * (p52 - 1) ≤ units m' e' * p52 * p52 * p52) by nia.
  assert ((2 * z - 1) * p52 * p52 * p52 ≤ 2 * z * (p52 - 1) * (p52 - 1) * (p52 - 1)) by lia. nia.
Qed.

Lemma ltb_eqb x y : SFltb x y = true → SFeqb x y = false.
Proof. unfold SFltb, SFeqb. by destruct (SFcompare x y) as [[]|]. Qed.

Lemma fits_inv w z u : 0 < z < 2 ^ 48 → unit_ ≤ u → u * w * p52 ≤ z * unit_ * (p52 + 1) → w ≤ z.
Proof.
  intros Hz. assert (0 < unit_) by done. generalize dependent unit_. intros v Hv Hu H.
  destruct (Z.le_gt_cases w z) as [|Hlt]; [done|]. exfalso.
  assert (v * w * p52 ≤ u * w * p52) by nia. assert (w * p52 ≤ z * (p52 + 1)) by nia. lia.
Qed.

(** The ratio is one when both quotients are at least one, and else the
    smaller of them. *)
Lemma ratio_ok dw dh m2 e2 m3 e3 :
  normal dw m2 e2 → -105 ≤ e2 ≤ 60 → normal dh m3 e3 → -105 ≤ e3 ≤ 60 →
  let ratio := float.min (float.min float.one dw) dh in
  ratio = float.one ∧ unit_ ≤ units m2 e2 ∧ unit_ ≤ units m3 e3 ∨
  SFltb ratio float.one = true ∧
  ∃ m e, normal ratio m e ∧ -105 ≤ e ≤ 60 ∧
    units m e < unit_ ∧ units m e ≤ units m2 e2 ∧ units m e ≤ units m3 e3 ∧
    (units m e = units m2 e2 ∨ units m e = units m3 e3).
Proof.
  intros H2 He2 H3 He3. cbv zeta. destruct one_ok as (m1 & e1 & H1 & He1 & Hu1).
  assert (∀ x m e, normal x m e → units m e < unit_ → SFltb x float.one = true) as Hltb.
  { intros x m e Hx Hlt. pose proof (ltb_ok x float.one _ _ _ _ Hx H1) as H.
    destruct (SFltb x float.one); [done|]. rewrite Hu1 in H. lia. }
  destruct (min_ok _ _ _ _ _ _ H1 H2) as [[Hc ->]|[Hc ->]]; rewrite Hu1 in Hc.
  - destruct (min_ok _ _ _ _ _ _ H2 H3) as [[Hd ->]|[Hd ->]]; right.
    + split; [apply (Hltb _ _ _ H3); lia|]. exists m3, e3. split; [done|]. lia.
    + split; [by apply (Hltb _ _ _ H2)|]. exists m2, e2. split; [done|]. lia.
  - destruct (min_ok _ _ _ _ _ _ H1 H3) as [[Hd ->]|[Hd ->]]; rewrite Hu1 in Hd.
    + right. split; [by apply (Hltb _ _ _ H3)|]. exists m3, e3. split; [done|]. lia.
    + left. done.
Qed.

(** An image that is within the limits keeps its size; another is scaled to
    sizes that are within the limits and within its own, and reaches one of
    the limits. *)
Definition fits (width height : Z) (config : ViewImageConfig) : Prop :=
  width ≤ vconfig.MaxWidth config ∧ height ≤ vconfig.MaxHeight config.

Definition scaled_to (width height : Z) (config : ViewImageConfig) (w h : Z) : Prop :=
  1 ≤ w ≤ Z.min width (vconfig.MaxWidth config) ∧ 1 ≤ h ≤ Z.min height (vconfig.MaxHeight config) ∧
  (w = vconfig.MaxWidth config ∨ h = vconfig.MaxHeight config).

Lemma viewImageDimensions_ok width height config :
  0 < width < 2 ^ 48 → 0 < height < 2 ^ 48 →
  0 < vconfig.MaxWidth config < 2 ^ 48 → 0 < vconfig.MaxHeight config < 2 ^ 48 →
  let '(w, h, ratio) := viewImageDimensions width height config in
  fits width height config ∧ ratio = float.one ∨
  ¬ fits width height config ∧ SFltb ratio float.one = true ∧ scaled_to width height config w h.
Proof.
  intros Hw Hh HW HH. unfold viewImageDimensions, fits, scaled_to. cbv zeta.
  destruct (div_ok _ _ HW Hw) as (m2 & e2 & H2 & He2 & Hl2 & Hg2 & Hf2).
  destruct (div_ok _ _ HH Hh) as (m3 & e3 & H3 & He3 & Hl3 & Hg3 & Hf3).
  set (dw := float.div _ (float.of_int width)) in *. set (dh := float.div _ (float.of_int height)) in *.
  set (W := vconfig.MaxWidth config) in *. set (H := vconfig.MaxHeight config) in *.
  destruct (ratio_ok dw dh _ _ _ _ H2 He2 H3 He3) as [(-> & Hu2 & Hu3)|(Hlt & m & e & Hr & He & Hu & Hu2 & Hu3 & Heq)].
  - left. split; [|done]. split; [exact (fits_inv _ _ _ HW Hu2 Hg2)|exact (fits_inv _ _ _ HH Hu3 Hg3)].
  - right. split; [intros [Hfw%Hf2 Hfh%Hf3]; lia|]. split; [done|].
    set (ratio := float.min _ dh) in *.
    pose proof (scaled_le width W ratio m e Hw HW Hr He ltac:(nia)) as A1.
    pose proof (scaled_le width width ratio m e Hw Hw Hr He ltac:(nia)) as A2.
    pose proof (scaled_le height H ratio m e Hh HH Hr He ltac:(nia)) as A3.
    pose proof (scaled_le height height ratio m e Hh Hh Hr He ltac:(nia)) as A4.
    split; [lia|]. split; [lia|].
    destruct Heq as [E|E]; rewrite <- E in *.
    + left. pose proof (scaled_ge width W ratio m e Hw HW Hr He Hl2). lia.
    + right. pose proof (scaled_ge height H ratio m e Hh HH Hr He Hl3). lia.
Qed.

(** ** What the writer keeps *)

Definition writer_ok (w : imageContentWriter) : Prop :=
  if limit w <? size w then content w = [] else len (content w) = size w.

Lemma Write_ok ctx data w : writer_ok w → writer_ok (fst (Write ctx data w)).
Proof.
  unfold writer_ok, Write. intros Hw. destruct ctx; [done|].
  destruct (Z.ltb_spec (limit w) (size w + len data)) as [Hlt|Hge]; simpl.
  - by rewrite (proj2 (Z.ltb_lt _ _)).
  - rewrite (proj2 (Z.ltb_ge _ _)) by done.
    rewrite (proj2 (Z.ltb_ge _ _)) in Hw by (unfold len in *; lia).
    unfold len in *. rewrite length_app. lia.
Qed.

Lemma Write_limit ctx data w : limit (fst (Write ctx data w)) = limit w.
Proof. unfold Write. destruct ctx; [done|]. by destruct (limit w <? _). Qed.

Lemma write_all_ok ctx n pieces w :
  writer_ok w → writer_ok (fst (write_all ctx n pieces w)) ∧
  limit (fst (write_all ctx n pieces w)) = limit w.
Proof.
  revert n w. induction pieces as [|p pieces IH]; intros n w Hw; [done|]. simpl.
  unfold mbind, M_bind. pose proof (Write_ok (ctx n) p w Hw) as H1.
  pose proof (Write_limit (ctx n) p w) as H2.
  destruct (Write (ctx n) p w) as [w' [r|e|t]]; simpl in *; [|done|done].
  rewrite <- H2. by apply IH.
Qed.

(** When no write fails the writer counts every byte, and holds what was
    written as long as it is not too much. *)
Lemma write_all_content ctx n pieces w :
  writer_ok w →
  let '(w', r) := write_all ctx n pieces w in
  match r with
  | Ok _ => size w' = size w + len (concat pieces) ∧
      (size w' ≤ limit w → content w' = content w ++ concat pieces)
  | Err _ => True
  | Panic _ => False
  end.
Proof.
  revert n w. induction pieces as [|p pieces IH]; intros n w Hw; simpl.
  { unfold len. simpl. split; [lia|]. intros _. by rewrite app_nil_r. }
  pose proof (Write_ok (ctx n) p w Hw) as H1. pose proof (Write_limit (ctx n) p w) as H2.
  unfold mbind, M_bind. unfold Write in *. destruct (ctx n); [done|].
  destruct (Z.ltb_spec (limit w) (size w + len p)) as [Hlt|Hge]; simpl in *;
    match goal with H : writer_ok ?w1 |- _ => specialize (IH (S n) w1 H) end;
    destruct (write_all ctx (S n) pieces _) as [w' [r|e|t]]; simpl in *; try done;
    destruct IH as [Hs Hc]; unfold len in *; rewrite length_app; (split; [lia|]); intros H.
  - lia.
  - rewrite Hc by lia. by rewrite app_assoc.
Qed.

Lemma Join_opt_none l : Join_opt l = None → Forall (λ e, e = None) l.
Proof.
  unfold Join_opt. induction l as [|[e|] l IH]; simpl; [constructor|done|]. intros H. constructor; [done|by apply IH].
Qed.

Lemma positive_pixels width height maxPixels :
  0 < height → (maxPixels / height <? width) = false → width * height ≤ maxPixels.
Proof. intros Hh Hlt%Z.ltb_ge. Z.to_euclidean_division_equations. nia. Qed.

(** A result with an error meets the bounds: it has no content. *)
Ltac failed_result :=
  let H := fresh in intros H; injection H as <- <-; split; [discriminate|reflexivity].

(** Limits within which float64 arithmetic is exact enough; those of a
    configuration that was validated are positive. *)
Record limits_ok (config : ViewImageConfig) : Prop := {
  width_ok : 0 < vconfig.MaxWidth config < 2 ^ 48;
  height_ok : 0 < vconfig.MaxHeight config < 2 ^ 48;
  pixels_ok : 0 ≤ vconfig.MaxSourcePixels config < 2 ^ 48;
}.

Definition max_pixels (config : ViewImageConfig) : Z :=
  if vconfig.MaxSourcePixels config =? 0 then DefaultMaxViewImageSourcePixels
  else vconfig.MaxSourcePixels config.

(** The image that is encoded. *)
Definition sized (env : image_env) (config : ViewImageConfig) (width height : Z) (img out : image env) : Prop :=
  fits width height config ∧ out = img ∨
  ¬ fits width height config ∧ ∃ w h, scaled_to width height config w h ∧ out = Scale env img w h.

(** What the encoder wrote: a JPEG that keeps its size is copied. *)
Definition encoded (env : image_env) (source : bytes) (format mime : string) (keeps : Prop) (out : image env)
    (pieces : list bytes) : Prop :=
  (format = "jpeg" → mime = "image/jpeg" ∧
     (keeps → pieces = CopySource env source) ∧ (¬ keeps → EncodeJpeg env out = (pieces, None))) ∧
  (format ≠ "jpeg" → mime = "image/png" ∧ EncodePng env out = (pieces, None)).

(** A result without an error. *)
Definition prepared (env : image_env) (source : bytes) (config : ViewImageConfig) (r : ViewImageResult) : Prop :=
  ∃ format img out pieces,
    let width := vresult.OriginalWidth r in
    let height := vresult.OriginalHeight r in
    DecodeConfig env source = (width, height, format, None) ∧
    format ∈ ["jpeg"; "png"; "bmp"; "tiff"; "webp"] ∧ vresult.OriginalMIMEType r = "image/" +:+ format ∧
    0 < width ∧ 0 < height ∧ width * height ≤ max_pixels config ∧
    Decode env source = inr img ∧ sized env config width height img out ∧
    encoded env source format (vresult.EncodedMIMEType r) (fits width height config) out pieces ∧
    vresult.Content r = to_string (concat pieces ++ concat (close_pieces env)) ∧
    slen (vresult.Content r) ≤ vconfig.MaxSize config.

Lemma max_pixels_small config : limits_ok config → max_pixels config < 2 ^ 48.
Proof. intros [_ _ H]. unfold max_pixels. destruct (_ =? 0); [reflexivity|lia]. Qed.

Lemma sized_ok env config width height img :
  limits_ok config → 0 < width → 0 < height → width * height ≤ max_pixels config →
  let '(w, h, ratio) := viewImageDimensions width height config in
  sized env config width height img (if SFltb ratio float.one then Scale env img w h else img) ∧
  (SFeqb ratio float.one = true ↔ fits width height config).
Proof.
  intros Hl Hw Hh Hp. pose proof (max_pixels_small _ Hl). destruct Hl as [HW HH _].
  pose proof (viewImageDimensions_ok width height config ltac:(nia) ltac:(nia) HW HH) as H1.
  destruct (viewImageDimensions width height config) as [[w h] ratio].
  destruct H1 as [[Hf ->]|(Hf & Hlt & Hs)].
  - split; [by left|]. split; [done|]. intros _. vm_compute. reflexivity.
  - rewrite Hlt, (ltb_eqb _ _ Hlt). split; [right; eauto 10|done].
Qed.

Lemma encoded_ok env source format ratio (keeps : Prop) out pieces :
  (SFeqb ratio float.one = true ↔ keeps) → encoder env source format ratio out = (pieces, None) →
  encoded env source format (if bool_decide (format = "jpeg") then "image/jpeg" else "image/png") keeps out pieces.
Proof.
  unfold encoder, encoded. intros Hk. case_bool_decide as Hf; (split; [intros Hf'|intros Hf']); try done.
  - split; [done|]. cbn [andb] in *. destruct (SFeqb ratio float.one) eqn:E.
    + injection H as <-. split; [done|]. intros Hn. by destruct Hn; apply Hk.
    + split; [|done]. intros Hk'%Hk. done.
Qed.

(** C39: A prepared image respects its limits: when preparation gives no error,
    no read failed, the header was decoded, to positive sizes of at most the
    configured number of pixels and to one of the formats that are accepted,
    among which gif is not; the image encoded is the decoded one if this is
    within [MaxWidth] and [MaxHeight], and else it is scaled to sizes within
    both, not larger than its own, with one of the limits reached; the content
    is what the encoder wrote of it, a JPEG that keeps its size being copied,
    and has at most [MaxSize] bytes; and a result that carries an error
    carries no content. *)
Theorem prepared_image_bounded env chunks config cause r err :
  limits_ok config → prepareViewImage env chunks config cause = (r, err) →
  (err = None → cause = None ∧ prepared env (concat chunks) config r) ∧
  (err ≠ None → vresult.Content r = EmptyString).
Proof.
  intros Hlimits. unfold prepareViewImage, inspectViewImage. set (source := concat chunks).
  destruct (DecodeConfig env source) as [[[width height] format] [e|]] eqn:Hdecode.
  { destruct cause; simpl; failed_result. }
  destruct (_ || _) eqn:Hpos.
  { destruct cause; simpl; failed_result. }
  apply orb_false_iff in Hpos as [Hw%Z.leb_gt Hh%Z.leb_gt].
  case_bool_decide; [destruct cause; simpl; failed_result|].
  case_bool_decide as Hformat; [|destruct cause; simpl; failed_result].
  destruct cause as [e|]; [simpl; failed_result|]. change (Join_opt [None; None]) with (@None error). cbv iota zeta.
  cbn [vresult.OriginalWidth vresult.OriginalHeight with_size]. fold (max_pixels config).
  destruct (max_pixels config / height <? width) eqn:Hpix; [failed_result|].
  apply positive_pixels in Hpix; [|done].
  destruct (Decode env source) as [e|img] eqn:Himg; [failed_result|].
  pose proof (sized_ok env config width height img Hlimits Hw Hh Hpix) as Hsized.
  destruct (viewImageDimensions width height config) as [[w h] ratio]. destruct Hsized as [Hsized Hfits].
  destruct (ctx_decoded env); [failed_result|].
  remember (if SFltb ratio float.one then Scale env img w h else img) as out eqn:Eout. clear Eout.
  destruct (encoder env source format ratio out) as [pieces encode_err] eqn:Hencoder.
  assert (writer_ok (MkWriter (vconfig.MaxSize config) 0 [])) as Hok.
  { unfold writer_ok. simpl. by destruct (_ <? 0). }
  pose proof (write_all_ok (ctx_writes env) 0 pieces _ Hok) as [H1 H2].
  pose proof (write_all_content (ctx_writes env) 0 pieces _ Hok) as C1.
  destruct (write_all (ctx_writes env) 0 pieces _) as [w1 written]. simpl in H1, H2, C1.
  pose proof (write_all_ok (ctx_writes env) (length pieces) (close_pieces env) w1 H1) as [H3 H4].
  pose proof (write_all_content (ctx_writes env) (length pieces) (close_pieces env) w1 H1) as C2.
  destruct (write_all (ctx_writes env) (length pieces) (close_pieces env) w1) as [w2 closed].
  simpl in H3, H4. destruct (Join_opt _) eqn:Hjoin; [failed_result|].
  destruct (Z.ltb_spec (vconfig.MaxSize config) (size w2)) as [|Hsize]; [failed_result|].
  intros [= <- <-]. split; [|done]. intros _. split; [done|].
  apply Join_opt_none in Hjoin. rewrite !Forall_cons in Hjoin. destruct Hjoin as (Hj1 & Hj2 & _).
  destruct written as [x|e|t]; [|done|done]. destruct closed as [y|e|t]; [|done|done]. simpl in Hj1. subst encode_err.
  exists format, img, out, pieces. simpl. split_and!; try done.
  - by apply encoded_ok with ratio.
  - f_equal. destruct C1 as [Cs1 Cc1], C2 as [Cs2 Cc2]. rewrite Cc2, Cc1 by (unfold len in *; lia). done.
  - unfold writer_ok in H3. rewrite H4, H2, (proj2 (Z.ltb_ge _ _)) in H3 by done.
    unfold slen. rewrite <- length_to_bytes, to_bytes_string. unfold len in H3. lia.
Qed.

(** A environment whose decoder knows one image of six by four pixels. *)
Definition tiny_env : image_env :=
  ImageEnv (Z * Z) (λ _, (6, 4, "png", None)) (λ _, inr (6, 4)) (λ _ w h, (w, h)) (λ _, ([], None))
    (λ _, ([to_bytes "QUJD"], None)) (λ _, []) None (λ _, None) None [] (λ _, JInt 1)
    (λ _, "1") (λ _ _, "0.0").

Lemma prepared_image_bounded_witness :
  ∃ r, prepareViewImage tiny_env [to_bytes "x"] (vconfig.Mk 8 3 2 0) None = (r, None) ∧
  vresult.Content r = "QUJD" ∧ fst (viewImageDimensions 6 4 (vconfig.Mk 8 3 2 0)) = (2, 1) ∧
  (@None error = None → @None error = None ∧ prepared tiny_env (concat [to_bytes "x"]) (vconfig.Mk 8 3 2 0) r) ∧
  (@None error ≠ None → vresult.Content r = EmptyString).
Proof.
  eexists. split; [vm_compute; reflexivity|]. split; [reflexivity|]. split; [vm_compute; reflexivity|].
  apply (prepared_image_bounded tiny_env [to_bytes "x"] (vconfig.Mk 8 3 2 0) None _ None).
  - constructor; simpl; lia.
  - vm_compute. reflexivity.
Defined.
