(* ===== verification/ViewImageFacts.v ===== *)
(** * The invariant of view-image operations and the contract with the manager

    A view-image operation keeps a well-formed state through every event,
    never panics, and its checkpoints restore it, as [Handler] asks. *)

From Stdlib Require Import Ascii ZArith Lia.
From S2P Require Import Prelude GoStrings GoText Json JsonCodec Primitives Operation Handler.
From S2P Require Import ViewImage.

Local Open Scope Z_scope.

(** The buffer holds at most the source limit, and the state is one that a
    checkpoint can hold. *)
Record wf (v : ViewImage) : Prop := {
  wf_type : op.Type' (current v) = TypeViewImage;
  wf_version : op.Version' (current v) = VersionViewImage;
  wf_nil : op.State (current v) = VNil;
  wf_valid : validateViewImageState (state v) = Ok tt;
  wf_jok : jok ViewImageState_codec (state v);
  wf_read : readSize v = len (concat (chunks v));
  wf_limit : readSize v ≤ MaxViewImageSourceBytes;
}.

Definition view_inv (o : Operation) (v : ViewImage) : Prop :=
  op.Status' o = op.Status' (current v) ∧ same_identity o (current v) ∧ wf v.

(** The actor that a checkpoint restores: nothing is read or computed. *)
Definition restored (v : ViewImage) : ViewImage := MkView (current v) (state v) [] 0 false.

Definition post (o : Operation) (r : ViewImage * result Step) : Prop :=
  match snd r with
  | Ok st => view_inv (next_operation o st) (fst r) ∧ step_ok o st ∧
             ∀ o', step.Operation st = Some o' → NewViewImage o' = Ok (restored (fst r))
  | Err _ => True
  | Panic _ => False
  end.

(** A result that a callback computed has dimensions in range. *)
Definition value_typed (e : Event) : bool :=
  event_typed e &&
  match event.Result e with
  | ComputeResult (ValueViewImageResult r) =>
    in_int64 (vresult.OriginalWidth r) && in_int64 (vresult.OriginalHeight r)
  | _ => true
  end.

Lemma NewViewImage_checkpoint v encoded :
  wf v → Marshal ViewImageState_codec (state v) = Ok encoded →
  NewViewImage (op.set_state encoded (current v)) = Ok (restored v).
Proof.
  intros [Ht Hv Hn Hval Hj _ _] Hm. unfold NewViewImage, DecodeViewImageState. simpl.
  rewrite Ht, Hv, bool_decide_true, (Unmarshal_Marshal ViewImageState_codec _ _ Hj Hm) by done. simpl.
  rewrite Hval. simpl. unfold restored. destruct v as [[] ? ? ? ?]; simpl in *. by subst.
Qed.

Lemma view_checkpoint_post o v :
  same_identity o (current v) → wf v →
  op.Status' (current v) = StatusAwaiting ∨ localOperationFinished (op.Status' (current v)) = true →
  post o (checkpoint v).
Proof.
  intros Hid Hwf Hs. unfold checkpoint, post.
  destruct (Marshal ViewImageState_codec (state v)) as [encoded|e|t] eqn:Hm; simpl; [|done|].
  - split; [|split].
    + split; [done|]. split; [by repeat split|done].
    + apply step_ok_checkpoint; [|done]. destruct Hid as (?&?&?&?&?). by repeat split.
    + intros ? [= <-]. by apply NewViewImage_checkpoint.
  - pose proof (Marshal_returns ViewImageState_codec (state v)) as H. by rewrite Hm in H.
Qed.

Lemma view_finish_post o v r s :
  same_identity o (current v) → wf v → localOperationFinished s = true →
  in_int64 (vresult.OriginalWidth r) = true → in_int64 (vresult.OriginalHeight r) = true →
  post o (finish r s v).
Proof.
  intros Hid [Ht Hv Hn Hval Hj Hr Hl] Hs Hw Hh. unfold finish. autorewrite with M.
  apply view_checkpoint_post; [|constructor; simpl; try done|by right].
  - destruct Hid as (?&?&?&?&?). by repeat split.
  - destruct Hj as [Hj _]. split; [exact Hj|]. split; [by split|].
    simpl. unfold enc_struct. by destruct (enc_fields _).
Qed.

Lemma view_fail_post o v e : same_identity o (current v) → wf v → post o (fail_ e v).
Proof. intros. unfold fail_, cancel. apply view_finish_post; [assumption|assumption|reflexivity..]. Qed.

Lemma view_cancel_post o v : same_identity o (current v) → wf v → post o (cancel v).
Proof. intros. unfold fail_, cancel. apply view_finish_post; [assumption|assumption|reflexivity..]. Qed.

Lemma process_post o v cause :
  op.Status' o = op.Status' (current v) → same_identity o (current v) → wf v → post o (process_ cause v).
Proof.
  intros Hst Hid [Ht Hv Hn Hval Hj Hr Hl]. unfold process_, post. simpl. split; [|split].
  - split; [done|]. split; [done|]. constructor; simpl; try done.
  - apply step_ok_none; [|simpl; lia]. constructor; [|constructor]. simpl.
    destruct Hid as (_ & Hid & _). by rewrite Hid.
  - done.
Qed.

Lemma read_post o v :
  same_identity o (current v) → wf v → post o (read_ v).
Proof.
  intros Hid Hwf. unfold read_. autorewrite with M.
  set (v1 := MkView _ _ _ _ _).
  assert (same_identity o (current v1)) as Hid1 by (destruct Hid as (?&?&?&?&?); by repeat split).
  assert (wf v1) as Hwf1.
  { destruct Hwf. by constructor. }
  pose proof (view_checkpoint_post o v1 Hid1 Hwf1 (or_introl eq_refl)) as Hp.
  unfold mbind, M_bind. destruct (checkpoint v1) as [v2 [st|e|t]] eqn:E; [|done|done].
  destruct Hp as (H1 & (H2 & _ & _) & H3). unfold post. simpl.
  revert E. unfold checkpoint. destruct (Marshal _ _); intros [= <- <-].
  simpl in *. split; [done|]. split; [|done].
  apply step_ok_dispatch; [|done|split; [done|simpl; by destruct Hid as (_ & -> & _)]].
  destruct (H2 _ eq_refl) as [Hsame _]. exact Hsame.
Qed.

Ltac view_branches :=
  repeat match goal with
  | |- post _ (fail _ _) => exact I
  | |- post _ (fail_ _ _) => apply view_fail_post; assumption
  | |- post _ (cancel _) => apply view_cancel_post; assumption
  | |- post _ (process_ _ _) => apply process_post; assumption
  | |- post _ ((if ?b then _ else _) _) => destruct b eqn:?
  | |- post _ (match ?r with _ => _ end _) => destruct r eqn:?
  end.

Lemma view_Handle_post o event v :
  view_inv o v → match event with Some e => value_typed e = true | None => True end →
  post o (Handle event v).
Proof.
  intros (Hst & Hid & Hwf) Ht. unfold Handle. autorewrite with M. cbv zeta.
  view_branches; [|by apply read_post]. subst event.
  unfold value_typed in Ht. apply andb_true_iff in Ht as [_ Ht].
  unfold handleEvent. autorewrite with M. cbv zeta. view_branches.
  - unfold processed. view_branches; simpl in Ht;
      apply andb_true_iff in Ht as [Hw Hh]; by apply view_finish_post.
  - unfold handleRead. autorewrite with M. view_branches. autorewrite with M.
    unfold post, mret, M_ret. cbn [fst snd]. split; [|split; [|done]].
    + split; [done|]. split; [done|]. destruct Hwf. constructor; simpl; try done.
      * rewrite concat_app. unfold len. simpl. rewrite !length_app. simpl. unfold len in *. lia.
      * match goal with H : _ || _ = false |- _ => apply orb_false_iff in H as [_ H%Z.ltb_ge] end. lia.
    + apply step_ok_none; [constructor|simpl; lia].
Qed.

Lemma view_Handle_not_finished event v v' st :
  Handle event v = (v', Ok st) → localOperationFinished (op.Status' (current v)) = false.
Proof.
  unfold Handle. autorewrite with M. intros H.
  destruct (bool_decide_reflect (op.Status' (current v) = StatusReady)) as [->|]; [done|].
  destruct (bool_decide_reflect (op.Status' (current v) = StatusAwaiting)) as [->|]; [done|].
  by destruct (bool_decide_reflect (op.Status' (current v) = StatusCanceling)) as [->|].
Qed.

(** A view-image operation is a lawful actor with a bounded buffer: every
    event leaves it with at most [MaxViewImageSourceBytes] bytes read, never
    panics, dispatches at most one primitive that the manager can start, and
    every checkpoint decodes to the actor with its buffer emptied. *)
Theorem view_image_handle_safe o v event :
  view_inv o v → match event with Some e => value_typed e = true | None => True end →
  (∀ t, snd (Handle event v) ≠ Panic t) ∧
  ∀ v' st, Handle event v = (v', Ok st) →
    view_inv (next_operation o st) v' ∧ len (concat (chunks v')) ≤ MaxViewImageSourceBytes ∧
    step_ok o st ∧ localOperationFinished (op.Status' o) = false ∧
    ∀ o', step.Operation st = Some o' → NewViewImage o' = Ok (restored v').
Proof.
  intros Hinv Ht. pose proof (view_Handle_post o event v Hinv Ht) as Hp. unfold post in Hp. split.
  - intros t E. by rewrite E in Hp.
  - intros v' st H. rewrite H in Hp. destruct Hp as (H1 & H2 & H3).
    split; [done|]. split; [|split; [done|split; [|done]]].
    + destruct H1 as (_ & _ & [_ _ _ _ _ Hr Hl]). simpl in Hr, Hl. by rewrite <- Hr.
    + rewrite (proj1 Hinv). by eapply view_Handle_not_finished.
Qed.

Definition sample_operation : Operation :=
  match NewViewImageSpec "/i.png" (vconfig.Mk 100 10 10 0) with
  | Ok s => new_operation "op" s
  | _ => op.Mk 0 EmptyString EmptyString 0 EmptyString VNil VNil
  end.

Definition sample_view : ViewImage :=
  MkView (op.set_state VNil sample_operation) (vstate.Mk "/i.png" (vconfig.Mk 100 10 10 0) None) [] 0 false.

Lemma view_image_handle_safe_witness :
  NewViewImage sample_operation = Ok sample_view ∧
  (∀ t, snd (Handle None sample_view) ≠ Panic t) ∧
  ∀ v' st, Handle None sample_view = (v', Ok st) →
    view_inv (next_operation sample_operation st) v' ∧
    len (concat (chunks v')) ≤ MaxViewImageSourceBytes ∧
    step_ok sample_operation st ∧ localOperationFinished (op.Status' sample_operation) = false ∧
    ∀ o', step.Operation st = Some o' → NewViewImage o' = Ok (restored v').
Proof.
  split; [vm_compute; reflexivity|].
  apply (view_image_handle_safe sample_operation sample_view None); [|exact I].
  split; [vm_compute; reflexivity|]. split; [vm_compute; repeat split|].
  constructor; try (vm_compute; reflexivity); [vm_compute; repeat split|vm_compute; discriminate].
Defined.
