(* ===== verification/Remote.v ===== *)
(** * Remote: HTTP requests with retries

    The file remote.go of harness/primitives.  A remote request runs in a
    goroutine of its own: it tries the request, streams what the response
    carries to the channel of its caller, and tries again after a backoff
    while the failure is one that may pass.  The goroutine is modelled by the
    trace of what it does: the requests it makes, the events it sends, the
    bodies it closes and the waits.

    The environment of a run is what the network and the scheduler answer: for
    each attempt what [http.Client.Do] returns and what the body gives, and
    the test of the context from which on it is canceled.  [NewRequest] and
    [ParseMediaType] stand for the functions of net/http and mime. *)

From Stdlib Require Import Ascii ZArith Lia.
From S2P Require Import Prelude StateLogic GoStrings GoText GoHttp Primitives RemoteSSE.

Local Open Scope Z_scope.

(** ** Types and constants *)

Definition PrimitiveEventRemoteResponseStarted : PrimitiveEventType := "remote.response_started".
Definition PrimitiveEventRemoteOutput : PrimitiveEventType := "remote.output".
Definition PrimitiveEventRemoteStreamFailed : PrimitiveEventType := "remote.stream_failed".
Definition PrimitiveEventRemoteRetryScheduled : PrimitiveEventType := "remote.retry_scheduled".
Definition PrimitiveEventRemoteCompleted : PrimitiveEventType := "remote.completed".

Definition DefaultRemoteMaxAttempts : Z := 5.

(** Durations are counts of nanoseconds. *)
Definition Second : Z := 1000000000.

Module policy.
Record RemoteRetryPolicy : Set := Mk {
  MaxAttempts : Z; InitialBackoff : Z; MaxBackoff : Z; RetryableStatusCodes : list Z }.
End policy.
Abbreviation RemoteRetryPolicy := policy.RemoteRetryPolicy.

Module sse.
Record RemoteSSEOptions : Set := Mk { MaxFrameSize : Z; FrameDelimiter : SSEFrameDelimiter }.
End sse.
Abbreviation RemoteSSEOptions := sse.RemoteSSEOptions.

(** [Headers] is the map in the order in which the request walks it. *)
Module remote.
Record RemoteRequest : Type := Mk {
  Source : SourceID;
  Correlation : CorrelationID;
  Method : string;
  URL : string;
  Headers : list (string * list string);
  Body : bytes;
  ResponseIdleTimeout : Z;
  SSE : option RemoteSSEOptions;
  RetryPolicy : RemoteRetryPolicy;
}.
End remote.
Abbreviation RemoteRequest := remote.RemoteRequest.

Definition default_policy : RemoteRetryPolicy :=
  policy.Mk DefaultRemoteMaxAttempts (2 * Second) (30 * Second)
    [408; 425; 429; 500; 502; 503; 504; 520; 521; 522; 523; 524; 529].

Definition DefaultRemoteRequest (source : SourceID) (correlationID : CorrelationID) (url : string)
  : RemoteRequest :=
  remote.Mk source correlationID MethodGet url [] [] (30 * Second) None default_policy.

(** ** Retries *)

(** The loop of [Backoff] runs [failedAttempts - 1] times; the doubling and the
    difference are those of int64. *)
Fixpoint backoffLoop (policy : RemoteRetryPolicy) (rounds : nat) (delay : Z) : Z :=
  match rounds with
  | O => Z.min delay (policy.MaxBackoff policy)
  | S rounds =>
    if (policy.MaxBackoff policy <=? delay)
       || (wrap_int64 (policy.MaxBackoff policy - delay) <? delay)
    then policy.MaxBackoff policy
    else backoffLoop policy rounds (wrap_int64 (delay * 2))
  end.
Definition Backoff (policy : RemoteRetryPolicy) (failedAttempts : Z) : Z :=
  backoffLoop policy (Z.to_nat (failedAttempts - 1)) (policy.InitialBackoff policy).

Definition isRetryableRemoteStatus (policy : RemoteRetryPolicy) (statusCode : Z) : bool :=
  bool_decide (statusCode ∈ policy.RetryableStatusCodes policy).

Definition isRetryableRemoteError (err : remote_error) : bool :=
  Is_ err context_DeadlineExceeded || Is_ err target_EOF || Is_ err target_UnexpectedEOF
  || times_out err || is_temporary err
  || existsb (Is_ err) [ECONNABORTED; ECONNREFUSED; ECONNRESET; EHOSTDOWN; EHOSTUNREACH;
                        ENETDOWN; ENETUNREACH; EPIPE; ETIMEDOUT].

(** ** The environment *)

(** A response body: what each read without an error returns, then what the
    read that ends it returns.  [net/http] fills at most the buffer. *)
Record http_response : Type := HttpResponse {
  StatusCode : Z;
  ResponseHeader : Header;
  reads : list bytes;
  last_read : bytes;
  read_err : remote_error;
  close_err : option remote_error;
}.

(** [client.Do] fails, perhaps with a response whose Close returns the second
    error, or returns a response. *)
Inductive do_result : Type :=
  | DoFailed (err : remote_error) (body : option (option remote_error))
  | DoResponse (r : http_response).

(** [idle_expired]: the idle timer has canceled the context of the attempt. *)
Record attempt_env : Type := AttemptEnv { Do : do_result; idle_expired : bool }.

(** The context is canceled from the test [cancel_at] on, with [ctx_err]; when
    a select can send or see the end of the context, [prefers_send] says
    which. *)
Record remote_env : Type := RemoteEnv {
  cancel_at : option nat;
  ctx_err : remote_error;
  prefers_send : nat → bool;
  attempt_of : Z → attempt_env;
}.

(** The request that goes to the client; [Added] are the headers added, [Host]
    the host when a header sets it. *)
Module http.
Record http_request : Type := Mk {
  Method : string; URL : string; Added : list (string * string); Host : option string; Body : bytes }.
End http.
Abbreviation http_request := http.http_request.

Inductive action (V : Type) : Type :=
  | Requested (attempt : Z) (r : http_request)
  | Sent (e : PrimitiveEvent V)
  | Closed (attempt : Z)
  | Waited (delay : Z).
Arguments Requested {V}.
Arguments Sent {V}.
Arguments Closed {V}.
Arguments Waited {V}.

(** The goroutine's run: the tests of the context so far and its trace. *)
Module run.
Record run (V : Type) : Type := Mk { tests : nat; trace : list (action V) }.
Arguments Mk {V}.
Arguments tests {V}.
Arguments trace {V}.
End run.
Abbreviation run := run.run.

(** ** Validation *)

Section Prepare.
(** [http.NewRequest] fails or gives the scheme and the host of the URL. *)
Context (NewRequest : string → string → remote_error + (string * string)).

Definition prepare_error (text : string) : remote_error :=
  plain_error ("send remote request: " +:+ text).

(** The first status code that is none. *)
Definition bad_status (codes : list Z) : option Z :=
  snd <$> list_find (λ c, c < 100 ∨ 599 < c) codes.

(** The loop over the headers: the values of Host and the others. *)
Fixpoint splitHeaders (headers : list (string * list string)) : list string * list (string * string) :=
  match headers with
  | [] => ([], [])
  | (name, values) :: headers =>
    let '(hosts, added) := splitHeaders headers in
    if EqualFold name "Host" then (values ++ hosts, added)
    else (hosts, (pair name <$> values) ++ added)
  end.

Definition prepareRemoteRequest (request : RemoteRequest) : remote_error + http_request :=
  let p := remote.RetryPolicy request in
  if bool_decide (remote.Method request = EmptyString) then inl (prepare_error "method must be set")
  else match NewRequest (remote.Method request) (remote.URL request) with
  | inl err => inl (wrapped "send remote request: " err)
  | inr (scheme, host) =>
    if bool_decide (host = EmptyString)
       || negb (bool_decide (scheme = "http")) && negb (bool_decide (scheme = "https")) then
      inl (prepare_error "URL must be an absolute HTTP or HTTPS URL")
    else if remote.ResponseIdleTimeout request <=? 0 then
      inl (prepare_error "response idle timeout must be positive")
    else if match remote.SSE request with Some o => sse.MaxFrameSize o <=? 0 | None => false end then
      inl (prepare_error "SSE maximum frame size must be positive")
    else if match remote.SSE request with
            | Some o => negb (sse.FrameDelimiter o =? SSEFrameDelimiterStrip)
                        && negb (sse.FrameDelimiter o =? SSEFrameDelimiterPassThrough)
            | None => false
            end then
      inl (prepare_error "invalid SSE frame delimiter mode")
    else if policy.MaxAttempts p <=? 0 then inl (prepare_error "maximum attempts must be positive")
    else if policy.InitialBackoff p <? 0 then inl (prepare_error "initial backoff must not be negative")
    else if policy.MaxBackoff p <? policy.InitialBackoff p then
      inl (prepare_error "maximum backoff must not be less than initial backoff")
    else if (policy.InitialBackoff p =? 0) && negb (policy.MaxBackoff p =? 0) then
      inl (prepare_error "maximum backoff must be zero when initial backoff is zero")
    else match bad_status (policy.RetryableStatusCodes p) with
    | Some c => inl (prepare_error ("retryable status code " +:+ Itoa c +:+ " must be between 100 and 599"))
    | None =>
      let '(hosts, added) := splitHeaders (remote.Headers request) in
      match hosts with
      | [] => inr (http.Mk (remote.Method request) (remote.URL request) added None (remote.Body request))
      | [h] => inr (http.Mk (remote.Method request) (remote.URL request) added (Some h) (remote.Body request))
      | _ => inl (prepare_error "Host header must have at most one value")
      end
    end
  end.
End Prepare.

(** ** A run *)

Section Run.
Context {V : Type}.
Context (NewRequest : string → string → remote_error + (string * string)).
(** [mime.ParseMediaType]: the media type, or none for an error. *)
Context (ParseMediaType : string → option string).
Context (env : remote_env) (request : RemoteRequest).

Definition act (a : action V) : M (run V) unit :=
  modify (λ r, run.Mk (run.tests r) (run.trace r ++ [a])).

(** One test of the context: whether it is canceled. *)
Definition canceled_at (test : nat) : bool :=
  match cancel_at env with None => false | Some k => (k <=? test)%nat end.
Definition ctx_Err : M (run V) bool := λ r,
  (run.Mk (S (run.tests r)) (run.trace r), Ok (canceled_at (run.tests r))).

(** A select of [ready] and the end of the context. *)
Definition select_or_done : M (run V) bool := λ r,
  (run.Mk (S (run.tests r)) (run.trace r),
   Ok (negb (canceled_at (run.tests r)) || prefers_send env (run.tests r))).

Definition remoteEvent (type : PrimitiveEventType) (result : PrimitiveResult V) : PrimitiveEvent V :=
  event.Mk type (remote.Source request) (remote.Correlation request) result.

Definition sendRemoteEvent (e : PrimitiveEvent V) : M (run V) bool :=
  c ← ctx_Err;
  if (c : bool) then mret false
  else
    s ← select_or_done;
    if (s : bool) then act (Sent e) ≫= λ _, mret true else mret false.

Definition sendRemoteTerminalEvent (e : PrimitiveEvent V) : M (run V) unit := act (Sent e).

Definition remoteFailure (err : remote_error) : PrimitiveEvent V :=
  primitiveFailure (remote.Source request) (remote.Correlation request) (errors_New (rerr.Error err)).
Definition remoteCanceled : PrimitiveEvent V :=
  primitiveCanceled (remote.Source request) (remote.Correlation request).
Definition remoteStreamFailure (attempt : Z) (err : remote_error) : PrimitiveEvent V :=
  remoteEvent PrimitiveEventRemoteStreamFailed (RemoteStreamFailureResult attempt (rerr.Error err)).
Definition remoteRetryScheduled (attempt : Z) (err : remote_error) (delay : Z) : PrimitiveEvent V :=
  remoteEvent PrimitiveEventRemoteRetryScheduled (RemoteRetryScheduledResult attempt (rerr.Error err) delay).
Definition remoteAttemptFailure (attempt : Z) (err : remote_error) : remote_error :=
  wrapped ("send remote request " +:+ remote.Method request +:+ " " +:+ quote (remote.URL request)
           +:+ ": attempt " +:+ Itoa attempt +:+ ": ") err.

Definition sendRemoteOutput (attempt offset : Z) (data : bytes) : M (run V) bool :=
  sendRemoteEvent (remoteEvent PrimitiveEventRemoteOutput (RemoteOutputResult attempt offset data)).

Fixpoint sendFrames (attempt : Z) (frames : list remoteOutputFrame) : M (run V) bool :=
  match frames with
  | [] => mret true
  | fr :: frames =>
    ok ← sendRemoteOutput attempt (frame.offset fr) (frame.data fr);
    if (ok : bool) then sendFrames attempt frames else mret false
  end.

(** ** Streaming a response *)

(** The framer of a stream of events, or the offset of a plain body. *)
Inductive reader : Type := SSEReader (f : remoteSSEFramer) | PlainReader (offset : Z).

(** The context's end stops the stream. *)
Definition stop_canceled (attempt : Z) : M (run V) (reader + option remote_error) :=
  act (Closed attempt) ≫= λ _, mret (inr (Some (ctx_err env))).

(** The part of the loop of [streamRemoteResponse] that follows a read of
    [data]: the loop goes on with a reader, or the function returns an error. *)
Definition deliver (attempt : Z) (r : http_response) (rd : reader) (data : bytes)
  : M (run V) (reader + option remote_error) :=
  if bool_decide (data = []) then mret (inl rd)
  else match rd with
  | SSEReader f =>
    let '(frames, outcome) := append f data in
    ok ← sendFrames attempt frames;
    if negb ok then stop_canceled attempt
    else match outcome with
    | inl frameErr =>
      act (Closed attempt) ≫= λ _,
      mret (inr (Some (joined_with (plain_error (Error frameErr)) (close_err r))))
    | inr f => mret (inl (SSEReader f))
    end
  | PlainReader offset =>
    ok ← sendRemoteOutput attempt offset data;
    if negb ok then stop_canceled attempt else mret (inl (PlainReader (offset + len data)))
  end.

(** What follows the read that returned an error. *)
Definition finishStream (attempt : Z) (r : http_response) (rd : reader) : M (run V) (option remote_error) :=
  ok ← match rd with
       | SSEReader f => sendFrames attempt (finish f).1
       | PlainReader _ => mret true
       end;
  act (Closed attempt) ≫= λ _,
  if negb ok then mret (Some (ctx_err env))
  else if Is_ (read_err r) target_EOF then mret None
  else mret (Some (joined_with (read_err r) (close_err r))).

Fixpoint readBody (attempt : Z) (r : http_response) (rd : reader) (chunks : list bytes)
  : M (run V) (option remote_error) :=
  match chunks with
  | [] =>
    out ← deliver attempt r rd (last_read r);
    match (out : reader + option remote_error) with
    | inl rd => finishStream attempt r rd
    | inr err => mret err
    end
  | chunk :: chunks =>
    out ← deliver attempt r rd chunk;
    match (out : reader + option remote_error) with
    | inl rd => readBody attempt r rd chunks
    | inr err => mret err
    end
  end.

Definition framesSSE (r : http_response) : bool :=
  match remote.SSE request with
  | None => false
  | Some _ =>
    let contentType := Get (ResponseHeader r) "Content-Type" in
    if bool_decide (contentType = EmptyString) then success (StatusCode r)
    else bool_decide (ParseMediaType contentType = Some "text/event-stream"%string)
  end.

Definition newReader (r : http_response) : reader :=
  match remote.SSE request with
  | Some o => if framesSSE r then SSEReader (newRemoteSSEFramer (sse.MaxFrameSize o) (sse.FrameDelimiter o))
              else PlainReader 0
  | None => PlainReader 0
  end.

Definition responseStarted (attempt : Z) (r : http_response) : PrimitiveEvent V :=
  remoteEvent PrimitiveEventRemoteResponseStarted
    (RemoteResponseStartedResult attempt (StatusCode r) (ResponseHeader r)).

Definition streamRemoteResponse (attempt : Z) (r : http_response) : M (run V) (option remote_error) :=
  ok ← sendRemoteEvent (responseStarted attempt r);
  if negb ok then act (Closed attempt) ≫= λ _, mret (Some (ctx_err env))
  else readBody attempt r (newReader r) (reads r).

(** ** The attempts *)

Definition idle_timeout_error : remote_error :=
  wrapped "remote request response idle timeout: " DeadlineExceeded.

Definition normalizeRemoteAttemptError (a : attempt_env) (err : option remote_error)
  : M (run V) (option remote_error) :=
  c ← ctx_Err;
  mret (if negb c && idle_expired a then Some idle_timeout_error else err).

(** [client.Do] and what follows it: the error of the attempt and whether the
    stream failed. *)
Definition doAttempt (base : http_request) (attempt : Z) (a : attempt_env)
  : M (run V) (option remote_error * bool) :=
  act (Requested attempt base) ≫= λ _,
  match Do a with
  | DoResponse r =>
    err ← streamRemoteResponse attempt r;
    mret (err, bool_decide (is_Some err))
  | DoFailed err None => mret (Some err, false)
  | DoFailed err (Some close) =>
    act (Closed attempt) ≫= λ _, mret (Some (joined_with err close), false)
  end.

Definition retryable_status_error (r : http_response) : remote_error :=
  plain_error ("response status " +:+ Itoa (StatusCode r) +:+ " " +:+ StatusText (StatusCode r)
               +:+ " is retryable").

(** The error for which the attempt is tried again; none when it completed the
    request. *)
Definition retryReason (attempt : Z) (a : attempt_env) (err : option remote_error) : option remote_error :=
  match err, Do a with
  | Some err, _ => Some err
  | None, DoResponse r =>
    if negb (isRetryableRemoteStatus (remote.RetryPolicy request) (StatusCode r))
       || (attempt =? policy.MaxAttempts (remote.RetryPolicy request)) then None
    else Some (retryable_status_error r)
  | None, DoFailed _ _ => None
  end.

Definition waitForRemoteRetry (delay : Z) : M (run V) bool :=
  c ← ctx_Err;
  if (c : bool) then mret false
  else
    s ← select_or_done;
    if (s : bool) then act (Waited delay) ≫= λ _, mret true else mret false.

(** One round of the loop of [runRemoteRequest]: whether the loop goes on. *)
Definition attemptRound (base : http_request) (attempt : Z) : M (run V) bool :=
  let a := attempt_of env attempt in
  let maximum := policy.MaxAttempts (remote.RetryPolicy request) in
  let stop e := sendRemoteTerminalEvent e ≫= λ _, mret false in
  '(err, streamFailed) ← doAttempt base attempt a;
  err ← normalizeRemoteAttemptError a err;
  c ← ctx_Err;
  if (c : bool) then stop remoteCanceled
  else
    ok ← match err with
         | Some e => if (streamFailed : bool) then sendRemoteEvent (remoteStreamFailure attempt e) else mret true
         | None => mret true
         end;
    if negb ok then stop remoteCanceled
    else if match err with Some e => negb (isRetryableRemoteError e) | None => false end then
      stop (remoteFailure (remoteAttemptFailure attempt (default EOF err)))
    else match retryReason attempt a err with
    | None => stop (remoteEvent PrimitiveEventRemoteCompleted (RemoteCompletedResult attempt))
    | Some e =>
      if attempt =? maximum then stop (remoteFailure (remoteAttemptFailure attempt e))
      else
        let delay := Backoff (remote.RetryPolicy request) attempt in
        ok ← sendRemoteEvent (remoteRetryScheduled attempt e delay);
        if negb ok then stop remoteCanceled
        else
          ok ← waitForRemoteRetry delay;
          if negb ok then stop remoteCanceled else mret true
    end.

(** [for attempt := 1; attempt <= MaxAttempts; attempt++]: [rounds] is the
    number of attempts that are left. *)
Fixpoint attemptLoop (base : http_request) (rounds : nat) (attempt : Z) : M (run V) unit :=
  match rounds with
  | O => mret tt
  | S rounds =>
    more ← attemptRound base attempt;
    if (more : bool) then attemptLoop base rounds (attempt + 1) else mret tt
  end.

Definition runRemoteRequest : M (run V) unit :=
  match prepareRemoteRequest NewRequest request with
  | inl err => sendRemoteTerminalEvent (remoteFailure err)
  | inr base =>
    c ← ctx_Err;
    if (c : bool) then sendRemoteTerminalEvent remoteCanceled
    else attemptLoop base (Z.to_nat (policy.MaxAttempts (remote.RetryPolicy request))) 1
  end.

(** What the goroutine does from its start. *)
Definition remoteTrace : list (action V) := run.trace (runRemoteRequest (run.Mk 0 [])).1.

(** The events that its caller receives. *)
Definition sent (a : action V) : option (PrimitiveEvent V) :=
  match a with Sent e => Some e | _ => None end.
Definition remoteEvents : list (PrimitiveEvent V) := omap sent remoteTrace.
End Run.
