(* ===== verification/RemoteFacts.v ===== *)
(** * RemoteFacts: the protocol of a remote request

    [does n m Q]: from the [n]-th test of the context on, [m] returns, adds to
    the trace and ends with [Q]; its rules take the goroutine apart as it is
    written.  [runs] is the protocol: attempts in order, each but the last
    complete and followed by its backoff, then one terminal event. *)

From Stdlib Require Import Ascii ZArith Lia.
From S2P Require Import Prelude StateLogic GoStrings GoText GoHttp Primitives RemoteSSE SSEFacts Remote.

Local Open Scope Z_scope.

(** ** Backoff *)

Definition policy_ok (p : RemoteRetryPolicy) : Prop :=
  0 ≤ policy.InitialBackoff p ≤ policy.MaxBackoff p ∧ policy.MaxBackoff p < 2 ^ 63.

Lemma backoffLoop_power p rounds delay :
  policy.MaxBackoff p < 2 ^ 63 → 0 ≤ delay →
  (policy.MaxBackoff p < 2 ^ 63 ∧ delay ≤ policy.MaxBackoff p) →
  backoffLoop p rounds delay = Z.min (delay * 2 ^ Z.of_nat rounds) (policy.MaxBackoff p).
Proof.
  intros Hm. revert delay. induction rounds as [|rounds IH]; intros delay H0 [_ Hd]; cbn [backoffLoop].
  { by rewrite Z.mul_1_r. }
  rewrite Nat2Z.inj_succ, Z.pow_succ_r by lia.
  assert (Hp : 1 ≤ 2 ^ Z.of_nat rounds) by (apply Z.lt_pred_le; by apply Z.pow_pos_nonneg; lia).
  rewrite wrap_int64_small by (unfold in_int64; lia).
  split_if (policy.MaxBackoff p <=? delay); cbn [orb]; [nia|].
  split_if (policy.MaxBackoff p - delay <? delay); [nia|].
  rewrite wrap_int64_small by (unfold in_int64; lia).
  rewrite IH by lia. f_equal. lia.
Qed.

Lemma Backoff_power p k :
  policy_ok p → 1 ≤ k →
  Backoff p k = Z.min (policy.InitialBackoff p * 2 ^ (k - 1)) (policy.MaxBackoff p) ∧
  0 ≤ Backoff p k ≤ Backoff p (k + 1) ∧ Backoff p (k + 1) ≤ policy.MaxBackoff p.
Proof.
  intros [Hi Hm] Hk.
  assert (E : ∀ j, 1 ≤ j → Backoff p j = Z.min (policy.InitialBackoff p * 2 ^ (j - 1)) (policy.MaxBackoff p)).
  { intros j Hj. unfold Backoff. rewrite backoffLoop_power by lia. by rewrite Z2Nat.id by lia. }
  rewrite !E by lia. replace (k + 1 - 1) with (Z.succ (k - 1)) by lia.
  rewrite Z.pow_succ_r by lia.
  assert (0 < 2 ^ (k - 1)) by (apply Z.pow_pos_nonneg; lia).
  split; [done|]. nia.
Qed.

(** The delay after the k-th failed attempt is the initial backoff doubled
    k-1 times, capped at the maximum; no doubling leaves int64. *)
Theorem Backoff_doubles p k :
  policy_ok p → 1 ≤ k →
  Backoff p k = Z.min (policy.InitialBackoff p * 2 ^ (k - 1)) (policy.MaxBackoff p) ∧
  0 ≤ Backoff p k ≤ Backoff p (k + 1) ∧ Backoff p (k + 1) ≤ policy.MaxBackoff p.
Proof. apply Backoff_power. Qed.

Lemma Backoff_doubles_witness : Backoff default_policy 4 = 16 * Second ∧ Backoff default_policy 5 = 30 * Second.
Proof.
  assert (H : policy_ok default_policy) by (split; vm_compute; split; congruence).
  destruct (Backoff_doubles default_policy 4 H ltac:(lia)) as [E4 _].
  destruct (Backoff_doubles default_policy 5 H ltac:(lia)) as [E5 _].
  by rewrite E4, E5.
Defined.

Lemma frameBody_cons f data rest :
  frameBody f (data :: rest) =
    match append f data with
    | (frames, inl err) => (frames, Some err)
    | (frames, inr g) => (frames ++ (frameBody g rest).1, (frameBody g rest).2)
    end.
Proof.
  unfold frameBody. cbn [appendAll]. destruct (append f data) as [frames [err|g]]; [done|].
  destruct (appendAll g rest) as [more [err|h]]; cbn; [done|]. by rewrite app_assoc.
Qed.

Lemma seqZ_from k m m' : m = m' + 1 → 0 ≤ m' → seqZ k m = k :: seqZ (k + 1) m'.
Proof. intros -> H. rewrite seqZ_cons by lia. by replace (Z.pred (m' + 1)) with m' by lia. Qed.

Section Run.
Context {V : Type}.
Context (NewRequest : string → string → remote_error + (string * string)).
Context (ParseMediaType : string → option string).
Context (env : remote_env) (request : RemoteRequest).

Abbreviation canceled := (canceled_at env).

(** ** Rules *)

Definition does {A} (n : nat) (m : M (run V) A) (Q : A → nat → list (action V) → Prop) : Prop :=
  ∃ a n' tr, (∀ t, m (run.Mk n t) = (run.Mk n' (t ++ tr), Ok a)) ∧ (n ≤ n')%nat ∧ Q a n' tr.

Lemma does_mono {A} n (m : M (run V) A) (Q Q' : A → nat → list (action V) → Prop) :
  does n m Q → (∀ a n' tr, (n ≤ n')%nat → Q a n' tr → Q' a n' tr) → does n m Q'.
Proof. intros (a & n' & tr & E & Hn & H) HQ. exists a, n', tr. auto. Qed.

Lemma does_ret {A} n (a : A) (Q : A → nat → list (action V) → Prop) : Q a n [] → does n (mret a) Q.
Proof. intros H. exists a, n, []. split; [|done]. intros t. by rewrite app_nil_r. Qed.

Lemma does_bind {A B} n (m : M (run V) A) (f : A → M (run V) B) (Q : B → nat → list (action V) → Prop) :
  does n m (λ a n1 tr1, does n1 (f a) (λ b n2 tr2, Q b n2 (tr1 ++ tr2))) → does n (m ≫= f) Q.
Proof.
  intros (a & n1 & tr1 & E1 & Hn1 & b & n2 & tr2 & E2 & Hn2 & H).
  exists b, n2, (tr1 ++ tr2). split; [|split; [lia|done]].
  intros t. unfold mbind, M_bind. by rewrite E1, E2, app_assoc.
Qed.

Lemma does_act n (x : action V) (Q : unit → nat → list (action V) → Prop) :
  Q tt n [x] → does n (act x) Q.
Proof. intros H. by exists tt, n, [x]. Qed.

Lemma does_ctx_Err n (Q : bool → nat → list (action V) → Prop) :
  Q (canceled n) (S n) [] → does n (ctx_Err env) Q.
Proof.
  intros H. exists (canceled n), (S n), []. split; [|split; [lia|done]].
  intros t. by rewrite app_nil_r.
Qed.

Lemma does_select n (Q : bool → nat → list (action V) → Prop) :
  (∀ b, (b = false → canceled n = true) → Q b (S n) []) → does n (select_or_done env) Q.
Proof.
  intros H. exists (negb (canceled n) || prefers_send env n), (S n), []. split; [|split; [lia|]].
  - intros t. by rewrite app_nil_r.
  - apply H. by destruct (canceled n).
Qed.

Lemma canceled_later n n' : (n ≤ n')%nat → canceled n = true → canceled n' = true.
Proof.
  unfold canceled_at. destruct (cancel_at env) as [k|]; [|done].
  rewrite !Nat.leb_le. lia.
Qed.

Lemma uncanceled_before n n' : (n ≤ n')%nat → canceled n' = false → canceled n = false.
Proof.
  intros Hn H. destruct (canceled n) eqn:E; [|done]. by rewrite (canceled_later n n' Hn E) in H.
Qed.

(** An event is sent, or the context has ended. *)
Lemma does_send n e (Q : bool → nat → list (action V) → Prop) :
  (∀ n', (n ≤ n')%nat → Q true n' [Sent e]) →
  (∀ n', (n ≤ n')%nat → canceled n' = true → Q false n' []) →
  does n (sendRemoteEvent env e) Q.
Proof.
  intros Hsent Hnot. unfold sendRemoteEvent. apply does_bind, does_ctx_Err.
  destruct (canceled n) eqn:E.
  { apply does_ret, Hnot; [lia|]. apply (canceled_later n); [lia|done]. }
  apply does_bind, does_select. intros [|] Hb.
  - apply does_bind, does_act, does_ret. apply Hsent. lia.
  - apply does_ret, Hnot; [lia|]. apply (canceled_later (S n)); [lia|by apply Hb].
Qed.

(** ** Streams *)

Definition outputs_trace (k : Z) (frames : list remoteOutputFrame) : list (action V) :=
  (λ fr, Sent (remoteEvent request PrimitiveEventRemoteOutput
                 (RemoteOutputResult k (frame.offset fr) (frame.data fr)))) <$> frames.

(** The frames that the rest of a body gives a reader. *)
Definition reader_frames (rd : reader) (chunks : list bytes) : list remoteOutputFrame * option error :=
  match rd with
  | SSEReader f => frameBody f chunks
  | PlainReader offset => (frames_from offset (filter (λ c, c ≠ []) chunks), None)
  end.

Definition reads_error (r : http_response) (frame_error : option error) : option remote_error :=
  match frame_error with
  | Some e => Some (joined_with (plain_error (Error e)) (close_err r))
  | None => if Is_ (read_err r) target_EOF then None else Some (joined_with (read_err r) (close_err r))
  end.

Lemma sendFrames_does k frames n :
  does n (sendFrames env request k frames) (λ ok n' tr,
    ∃ outs, tr = outputs_trace k outs ∧ outs `prefix_of` frames ∧
      (if ok : bool then outs = frames else canceled n' = true)).
Proof.
  revert n. induction frames as [|fr frames IH]; intros n; cbn [sendFrames].
  { apply does_ret. by exists []. }
  apply does_bind. unfold sendRemoteOutput. apply does_send.
  - intros n1 _. eapply does_mono; [apply IH|]. cbn. intros ok n2 tr _ (outs & -> & Hp & H).
    exists (fr :: outs). split; [done|]. split; [by apply prefix_cons|]. destruct ok; [by subst|done].
  - intros n1 _ Hc. apply does_ret. exists []. split; [done|]. split; [apply prefix_nil|done].
Qed.

Lemma deliver_does k r rd data rest n :
  does n (deliver env request k r rd data) (λ out n' tr,
    ∃ outs, outs `prefix_of` (reader_frames rd (data :: rest)).1 ∧
      match out with
      | inl rd' =>
          tr = outputs_trace k outs ∧
          (reader_frames rd (data :: rest)).1 = outs ++ (reader_frames rd' rest).1 ∧
          (reader_frames rd (data :: rest)).2 = (reader_frames rd' rest).2
      | inr err =>
          tr = outputs_trace k outs ++ [Closed k] ∧
          (canceled n' = true ∨
           outs = (reader_frames rd (data :: rest)).1 ∧
           err = reads_error r (reader_frames rd (data :: rest)).2)
      end).
Proof.
  unfold deliver. case_bool_decide as Hd.
  { subst. apply does_ret. exists []. split; [apply prefix_nil|]. split; [done|].
    destruct rd as [f|offset]; cbn [reader_frames fst snd].
    - by rewrite frameBody_cons.
    - rewrite filter_cons_False by auto. done. }
  destruct rd as [f|offset].
  - destruct (append f data) as [frames outcome] eqn:E. apply does_bind.
    eapply does_mono; [apply sendFrames_does|]. cbn. intros ok n1 tr Hn1 (outs & -> & Hp & Hok).
    assert (Hsub : frames `prefix_of` (frameBody f (data :: rest)).1).
    { rewrite frameBody_cons, E. destruct outcome as [err|g]; [done|]. by apply prefix_app_r. }
    destruct ok; cbn [negb].
    + subst outs. destruct outcome as [frameErr|g].
      * apply does_bind, does_act, does_ret. exists frames. split; [done|]. split; [done|]. right.
        cbn [reader_frames]. by rewrite frameBody_cons, E.
      * apply does_ret. exists frames. split; [done|]. rewrite app_nil_r. split; [done|].
        cbn [reader_frames]. by rewrite frameBody_cons, E.
    + unfold stop_canceled. apply does_bind, does_act, does_ret. exists outs.
      split; [by etrans|]. split; [done|]. by left.
  - apply does_bind. unfold sendRemoteOutput. cbn [reader_frames fst snd]. rewrite filter_cons_True by done.
    cbn [frames_from]. apply does_send.
    + intros n1 Hn1. cbn [negb]. apply does_ret. exists [frame.Mk offset data].
      split; [|done]. apply (prefix_app_r [frame.Mk offset data] [frame.Mk offset data]). done.
    + intros n1 Hn1 Hc. cbn [negb]. unfold stop_canceled. apply does_bind, does_act, does_ret.
      exists []. split; [apply prefix_nil|]. split; [done|]. by left.
Qed.

Definition stream_does (k : Z) (r : http_response) (whole : list remoteOutputFrame * option error)
    (err : option remote_error) (n' : nat) (tr : list (action V)) : Prop :=
  ∃ outs, tr = outputs_trace k outs ++ [Closed k] ∧ outs `prefix_of` whole.1 ∧
    (canceled n' = true ∨ outs = whole.1 ∧ err = reads_error r whole.2).

Lemma finishStream_does k r rd n :
  does n (finishStream env request k r rd) (stream_does k r (reader_frames rd [])).
Proof.
  unfold finishStream. apply does_bind.
  assert (H : does n (match rd with
                      | SSEReader f => sendFrames env request k (finish f).1
                      | PlainReader _ => mret true
                      end) (λ ok n' tr, ∃ outs, tr = outputs_trace k outs ∧
                outs `prefix_of` (reader_frames rd []).1 ∧
                (if ok : bool then outs = (reader_frames rd []).1 else canceled n' = true))).
  { destruct rd as [f|offset]; [apply sendFrames_does|]. apply does_ret. by exists []. }
  eapply does_mono; [exact H|]. cbn beta. intros ok n1 tr Hn1 (outs & -> & Hp & Hok).
  apply does_bind, does_act. destruct ok; cbn [negb].
  - assert (E : (reader_frames rd []).2 = None) by (by destruct rd). unfold stream_does, reads_error.
    rewrite E. destruct (Is_ (read_err r) target_EOF); apply does_ret; exists outs; auto.
  - apply does_ret. exists outs. auto.
Qed.

Lemma stream_after k r outs whole rest err n' tr :
  whole.1 = outs ++ rest.1 → whole.2 = rest.2 →
  stream_does k r rest err n' tr → stream_does k r whole err n' (outputs_trace k outs ++ tr).
Proof.
  intros E1 E2 (more & -> & Hp & H). exists (outs ++ more). rewrite E1, E2.
  split; [by unfold outputs_trace; rewrite fmap_app, <- app_assoc|].
  split; [by apply prefix_app|]. destruct H as [H|[-> H]]; auto.
Qed.

Lemma readBody_does k r chunks rd n :
  does n (readBody env request k r rd chunks) (stream_does k r (reader_frames rd (chunks ++ [last_read r]))).
Proof.
  revert rd n. induction chunks as [|chunk chunks IH]; intros rd n; cbn [readBody app];
    apply does_bind; (eapply does_mono; [apply deliver_does|]); cbn beta;
    intros out n1 tr Hn1 (outs & Hp & H); destruct out as [rd'|err].
  - destruct H as (-> & E1 & E2). eapply does_mono; [apply finishStream_does|].
    intros err n2 tr Hn2 H. by apply (stream_after _ _ _ _ _ _ _ _ E1 E2).
  - destruct H as [-> H]. apply does_ret. exists outs. by rewrite app_nil_r.
  - destruct H as (-> & E1 & E2). eapply does_mono; [apply IH|].
    intros err n2 tr Hn2 H. by apply (stream_after _ _ _ _ _ _ _ _ E1 E2).
  - destruct H as [-> H]. apply does_ret. exists outs. by rewrite app_nil_r.
Qed.

(** ** Attempts *)

(** What a response gives the caller when nothing interrupts it, and the error
    its stream ends with. *)
Definition response_frames (r : http_response) : list remoteOutputFrame * option error :=
  reader_frames (newReader ParseMediaType request r) (reads r ++ [last_read r]).
Definition stream_error (r : http_response) : option remote_error := reads_error r (response_frames r).2.

Definition streamed (k : Z) (r : http_response) (outs : list remoteOutputFrame) : list (action V) :=
  Sent (responseStarted request k r) :: outputs_trace k outs ++ [Closed k].

(** The traces of an attempt, whole or cut short by the end of the context. *)
Inductive attempted (k : Z) (base : http_request) (a : attempt_env) : list (action V) → Prop :=
  | attempted_failed err : Do a = DoFailed err None → attempted k base a [Requested k base]
  | attempted_closed err c : Do a = DoFailed err (Some c) → attempted k base a [Requested k base; Closed k]
  | attempted_unstarted r : Do a = DoResponse r → attempted k base a [Requested k base; Closed k]
  | attempted_streamed r outs :
      Do a = DoResponse r → outs `prefix_of` (response_frames r).1 →
      attempted k base a (Requested k base :: streamed k r outs).

Definition do_trace (k : Z) (base : http_request) (a : attempt_env) : list (action V) :=
  Requested k base ::
  match Do a with
  | DoFailed _ None => []
  | DoFailed _ (Some _) => [Closed k]
  | DoResponse r => streamed k r (response_frames r).1
  end.

Definition do_error (a : attempt_env) : option remote_error :=
  match Do a with
  | DoFailed err None => Some err
  | DoFailed err (Some c) => Some (joined_with err c)
  | DoResponse r => stream_error r
  end.

Definition attempt_error (a : attempt_env) : option remote_error :=
  if idle_expired a then Some idle_timeout_error else do_error a.

Definition stream_failed (a : attempt_env) : bool :=
  match Do a with DoResponse r => bool_decide (is_Some (stream_error r)) | DoFailed _ _ => false end.

(** The whole of an attempt: its requests, events and the note that its
    stream failed. *)
Definition whole_attempt (k : Z) (base : http_request) (a : attempt_env) : list (action V) :=
  do_trace k base a ++
  match attempt_error a with
  | Some e => if stream_failed a then [Sent (remoteStreamFailure request k e)] else []
  | None => []
  end.

Lemma do_trace_attempted k base a : attempted k base a (do_trace k base a).
Proof.
  unfold do_trace. destruct (Do a) as [err [c|]|r] eqn:E;
    [by eapply attempted_closed|by eapply attempted_failed|by apply attempted_streamed].
Qed.

Lemma streamRemoteResponse_does k r n :
  does n (streamRemoteResponse ParseMediaType env request k r) (λ err n' tr,
    (tr = streamed k r (response_frames r).1 ∧ err = stream_error r) ∨
    (canceled n' = true ∧ (tr = [Closed k] ∨
      ∃ outs, outs `prefix_of` (response_frames r).1 ∧ tr = streamed k r outs))).
Proof.
  unfold streamRemoteResponse. apply does_bind, does_send.
  - intros n1 Hn1. cbn [negb]. eapply does_mono; [apply readBody_does|].
    intros err n2 tr Hn2 (outs & -> & Hp & [Hc|[-> ->]]); [|by left].
    right. split; [done|]. right. by exists outs.
  - intros n1 Hn1 Hc. cbn [negb]. apply does_bind, does_act, does_ret. auto.
Qed.

Lemma doAttempt_does k base a n :
  does n (doAttempt ParseMediaType env request base k a) (λ out n' tr,
    (tr = do_trace k base a ∧ out = (do_error a, stream_failed a)) ∨
    (canceled n' = true ∧ attempted k base a tr)).
Proof.
  unfold doAttempt, do_trace, do_error, stream_failed. apply does_bind, does_act.
  destruct (Do a) as [err [c|]|r] eqn:E.
  - apply does_bind, does_act, does_ret. by left.
  - apply does_ret. by left.
  - apply does_bind. eapply does_mono; [apply streamRemoteResponse_does|]. cbn beta.
    intros err n1 tr Hn1 [[-> ->]|[Hc H]]; apply does_ret; rewrite app_nil_r; [by left|].
    right. split; [done|]. destruct H as [->|(outs & Hp & ->)].
    + by eapply attempted_unstarted.
    + by apply attempted_streamed.
Qed.

(** ** Rounds *)

Inductive verdict : Type := Completes | Fails (err : remote_error) | Retries (err : remote_error).

Definition judge (k : Z) (a : attempt_env) : verdict :=
  match attempt_error a with
  | Some e =>
    if negb (isRetryableRemoteError e) || (k =? policy.MaxAttempts (remote.RetryPolicy request))
    then Fails (remoteAttemptFailure request k e) else Retries e
  | None => match retryReason request k a None with Some e => Retries e | None => Completes end
  end.

Definition final_event (k : Z) (v : verdict) : option (PrimitiveEvent V) :=
  match v with
  | Completes => Some (remoteEvent request PrimitiveEventRemoteCompleted (RemoteCompletedResult k))
  | Fails err => Some (remoteFailure request err)
  | Retries _ => None
  end.

Definition backoff_of (k : Z) : Z := Backoff (remote.RetryPolicy request) k.

(** What is sent between an attempt and its end or the next attempt. *)
Definition notice (k : Z) (x : action V) : Prop :=
  ∃ e, x = Sent (remoteStreamFailure request k e) ∨
       x = Sent (remoteRetryScheduled request k e (backoff_of k)).

Definition canceled_round (k : Z) (base : http_request) (tr : list (action V)) : Prop :=
  ∃ body notes, attempted k base (attempt_of env k) body ∧ Forall (notice k) notes ∧
    tr = body ++ notes ++ [Sent (remoteCanceled request)].

Definition round_does (k : Z) (base : http_request) (more : bool) (n' : nat) (tr : list (action V)) : Prop :=
  let a := attempt_of env k in
  if more then ∃ e, judge k a = Retries e ∧
    tr = whole_attempt k base a ++ [Sent (remoteRetryScheduled request k e (backoff_of k)); Waited (backoff_of k)]
  else (∃ e, final_event k (judge k a) = Some e ∧ tr = whole_attempt k base a ++ [Sent e]) ∨
       (canceled n' = true ∧ canceled_round k base tr).

Lemma retryReason_last k a e :
  retryReason request k a None = Some e → (k =? policy.MaxAttempts (remote.RetryPolicy request)) = false.
Proof.
  unfold retryReason. destruct (Do a); [done|]. intros H.
  destruct (k =? _); [|done]. by rewrite orb_true_r in H.
Qed.

Lemma canceled_stop k base body notes n :
  attempted k base (attempt_of env k) body → Forall (notice k) notes → canceled n = true →
  does n (sendRemoteTerminalEvent (remoteCanceled request) ≫= λ _, mret false)
    (λ more n' tr, round_does k base more n' (body ++ notes ++ tr)).
Proof.
  intros Hb Hn Hc. apply does_bind, does_act, does_ret. right. split; [done|].
  by exists body, notes.
Qed.

(** The round after the tests of the context that follow the attempt. *)
Lemma settled_round k base n :
  let a := attempt_of env k in
  let stop e := sendRemoteTerminalEvent e ≫= λ _, mret false in
  does n (
    ok ← match attempt_error a with
         | Some e => if stream_failed a then sendRemoteEvent env (remoteStreamFailure request k e) else mret true
         | None => mret true
         end;
    if negb ok then stop (remoteCanceled request)
    else if match attempt_error a with Some e => negb (isRetryableRemoteError e) | None => false end then
      stop (remoteFailure request (remoteAttemptFailure request k (default EOF (attempt_error a))))
    else match retryReason request k a (attempt_error a) with
    | None => stop (remoteEvent request PrimitiveEventRemoteCompleted (RemoteCompletedResult k))
    | Some e =>
      if k =? policy.MaxAttempts (remote.RetryPolicy request)
      then stop (remoteFailure request (remoteAttemptFailure request k e))
      else
        ok ← sendRemoteEvent env (remoteRetryScheduled request k e (backoff_of k));
        if negb ok then stop (remoteCanceled request)
        else
          ok ← waitForRemoteRetry env (backoff_of k);
          if negb ok then stop (remoteCanceled request) else mret true
    end) (λ more n' tr, round_does k base more n' (do_trace k base a ++ tr)).
Proof.
  intros a stop.
  set (failure := match attempt_error a with
                  | Some e => if stream_failed a then [Sent (remoteStreamFailure request k e)] else []
                  | None => []
                  end : list (action V)).
  assert (Hfail : Forall (notice k) failure).
  { unfold failure. destruct (attempt_error a) as [e|]; [|constructor].
    destruct (stream_failed a); [|constructor]. constructor; [|constructor]. exists e. by left. }
  assert (Hbody : attempted k base a (do_trace k base a)) by apply do_trace_attempted.
  apply does_bind. eapply does_mono with (Q := λ ok n' tr,
    if ok : bool then tr = failure else canceled n' = true ∧ tr = []).
  { unfold failure. destruct (attempt_error a) as [e|]; [|by apply does_ret].
    destruct (stream_failed a); [|by apply does_ret]. by apply does_send. }
  intros [|] n1 tr Hn1 Hsent; cbn [negb].
  2: { destruct Hsent as [Hc ->]. exact (canceled_stop k base _ [] n1 Hbody ltac:(constructor) Hc). }
  subst tr. clear Hn1 n. assert (Hend : ∀ e, final_event k (judge k a) = Some e →
    does n1 (stop e) (λ more n' tr, round_does k base more n' (do_trace k base a ++ failure ++ tr))).
  { intros e He. apply does_bind, does_act, does_ret. left. exists e. split; [done|].
    unfold whole_attempt. fold failure. by rewrite <- app_assoc. }
  destruct (match attempt_error a with Some e => negb (isRetryableRemoteError e) | None => false end) eqn:Enr.
  { apply Hend. unfold judge. destruct (attempt_error a) as [e|]; [|done]. by rewrite Enr. }
  destruct (retryReason request k a (attempt_error a)) as [e|] eqn:Er.
  2: { apply Hend. unfold judge. destruct (attempt_error a); [done|]. by rewrite Er. }
  destruct (k =? _) eqn:Ek.
  { apply Hend. unfold judge. destruct (attempt_error a) as [e'|] eqn:Ea.
    - unfold retryReason in Er. injection Er as ->. by rewrite Ek, orb_true_r.
    - apply retryReason_last in Er. congruence. }
  assert (Hretry : judge k a = Retries e).
  { unfold judge. destruct (attempt_error a) as [e'|]; [|by rewrite Er].
    unfold retryReason in Er. injection Er as ->. by rewrite Enr, Ek. }
  assert (Hnote : Forall (notice k) (failure ++ [Sent (remoteRetryScheduled request k e (backoff_of k))])).
  { apply Forall_app. split; [done|]. constructor; [|constructor]. exists e. by right. }
  apply does_bind, does_send; cbn [negb].
  2: { intros n2 _ Hc. exact (canceled_stop k base _ failure n2 Hbody Hfail Hc). }
  intros n2 _. apply does_bind. unfold waitForRemoteRetry. apply does_bind, does_ctx_Err.
  assert (Hstop : ∀ n', canceled n' = true →
    does n' (stop (remoteCanceled request)) (λ more n' tr, round_does k base more n' (do_trace k base a ++
      failure ++ [Sent (remoteRetryScheduled request k e (backoff_of k))] ++ tr))).
  { intros n' Hc. pose proof (canceled_stop k base _ _ n' Hbody Hnote Hc) as H.
    eapply does_mono; [exact H|]. cbn beta. intros more n3 tr _ Hr. by rewrite <- app_assoc in Hr. }
  destruct (canceled n2) eqn:Ec.
  { apply does_ret. cbn [negb]. apply Hstop. apply (canceled_later n2); [lia|done]. }
  apply does_bind, does_select. intros [|] Hs.
  - apply does_bind, does_act, does_ret. cbn [negb]. apply does_ret. exists e. split; [done|].
    change (whole_attempt k base (attempt_of env k)) with (do_trace k base a ++ failure).
    rewrite <- (app_assoc (do_trace k base a)). done.
  - apply does_ret. cbn [negb]. apply Hstop. apply (canceled_later (S n2)); [lia|by apply Hs].
Qed.

Lemma attemptRound_does k base n :
  does n (attemptRound ParseMediaType env request base k) (round_does k base).
Proof.
  unfold attemptRound. cbv zeta. apply does_bind. eapply does_mono; [apply doAttempt_does|]. cbn beta.
  intros out n1 tr Hn1 [[-> ->]|[Hc Hb]].
  - apply does_bind. unfold normalizeRemoteAttemptError. apply does_bind, does_ctx_Err, does_ret.
    apply does_bind, does_ctx_Err. destruct (canceled (S n1)) eqn:Ec.
    + apply (canceled_stop k base _ []); [apply do_trace_attempted|constructor|].
      apply (canceled_later (S n1)); [lia|done].
    + rewrite (uncanceled_before n1 (S n1)) by (lia || done). cbn [negb andb].
      exact (settled_round k base (S (S n1))).
  - destruct out as [err sf]. apply does_bind. unfold normalizeRemoteAttemptError.
    apply does_bind, does_ctx_Err, does_ret. apply does_bind, does_ctx_Err.
    rewrite (canceled_later n1 (S n1)) by (lia || done).
    apply (canceled_stop k base _ []); [done|constructor|]. apply (canceled_later n1); [lia|done].
Qed.

(** ** The protocol *)

Abbreviation max_attempts := (policy.MaxAttempts (remote.RetryPolicy request)).

(** The runs from attempt [k] on. *)
Inductive runs (base : http_request) : Z → list (action V) → Prop :=
  | runs_end k e :
      k ≤ max_attempts → final_event k (judge k (attempt_of env k)) = Some e →
      runs base k (whole_attempt k base (attempt_of env k) ++ [Sent e])
  | runs_canceled k tr :
      k ≤ max_attempts → cancel_at env ≠ None → canceled_round k base tr → runs base k tr
  | runs_retry k e tr :
      k < max_attempts → judge k (attempt_of env k) = Retries e → runs base (k + 1) tr →
      runs base k (whole_attempt k base (attempt_of env k)
                   ++ Sent (remoteRetryScheduled request k e (backoff_of k)) :: Waited (backoff_of k) :: tr).

Lemma judge_last k a e : judge k a = Retries e → k ≠ max_attempts.
Proof.
  unfold judge. intros H ->. destruct (attempt_error a) as [e'|].
  - by rewrite Z.eqb_refl, orb_true_r in H.
  - destruct (retryReason request _ a None) as [e'|] eqn:E; [|done].
    apply retryReason_last in E. by rewrite Z.eqb_refl in E.
Qed.

Lemma attemptLoop_does base rounds k n :
  Z.of_nat rounds = max_attempts - k + 1 → k ≤ max_attempts →
  does n (attemptLoop ParseMediaType env request base rounds k) (λ _ _ tr, runs base k tr).
Proof.
  revert k n. induction rounds as [|rounds IH]; intros k n Hr Hk; [lia|]. cbn [attemptLoop].
  apply does_bind. eapply does_mono; [apply attemptRound_does|]. cbn beta.
  intros [|] n1 tr Hn1 H; cbv beta iota zeta delta [round_does] in H.
  - destruct H as (e & He & ->). pose proof (judge_last k _ _ He).
    eapply does_mono; [apply IH; lia|]. cbn beta. intros _ n2 tr Hn2 Hruns.
    rewrite <- (app_assoc (whole_attempt _ _ _)). apply runs_retry; [lia|done..].
  - apply does_ret. rewrite app_nil_r. destruct H as [(e & He & ->)|[Hc Hcr]].
    + by apply runs_end.
    + apply runs_canceled; [done| |done]. unfold canceled_at in Hc. by destruct (cancel_at env).
Qed.

Lemma MaxAttempts_positive base : prepareRemoteRequest NewRequest request = inr base → 1 ≤ max_attempts.
Proof.
  unfold prepareRemoteRequest. intros H.
  repeat match type of H with
  | (if ?c then _ else _) = _ => destruct c eqn:?; [done|]
  | match ?x with inl _ => _ | inr _ => _ end = _ => destruct x as [|[]]; [done|]
  end. lia.
Qed.

Lemma remoteTrace_runs base :
  prepareRemoteRequest NewRequest request = inr base → canceled 0 = false →
  runs base 1 (remoteTrace NewRequest ParseMediaType env request).
Proof.
  intros Hp H0. pose proof (MaxAttempts_positive base Hp).
  assert (H' : does 0 (runRemoteRequest NewRequest ParseMediaType env request) (λ _ _ tr, runs base 1 tr)).
  { unfold runRemoteRequest. rewrite Hp. apply does_bind, does_ctx_Err. rewrite H0.
    apply attemptLoop_does; lia. }
  destruct H' as (a & n' & tr & E & _ & Hr). unfold remoteTrace. by rewrite E.
Qed.

(** ** What a trace holds *)

(** The requests and the waits of a trace, as they follow each other. *)
Definition paced (x : action V) : option (action V) :=
  match x with Requested _ _ | Waited _ => Some x | _ => None end.
Definition output_of (k : Z) (x : action V) : option remoteOutputFrame :=
  match x with
  | Sent e =>
    match event.Result e with
    | RemoteOutputResult j o d => if j =? k then Some (frame.Mk o d) else None
    | _ => None
    end
  | _ => None
  end.
Definition terminal (e : PrimitiveEvent V) : bool :=
  bool_decide (event.Type_ e ∈ [PrimitiveEventRemoteCompleted; PrimitiveEventFailed; PrimitiveEventCanceled]).
Definition quiet (x : action V) : bool := match x with Sent e => negb (terminal e) | _ => true end.

(** The frames of the response to attempt [k]. *)
Definition frames_of (k : Z) : list remoteOutputFrame :=
  match Do (attempt_of env k) with DoResponse r => (response_frames r).1 | DoFailed _ _ => [] end.

Record piece (k : Z) (steps : list (action V)) (tr : list (action V)) : Prop := {
  piece_steps : omap paced tr = steps;
  piece_quiet : forallb quiet tr = true;
  piece_outputs j : omap (output_of j) tr `prefix_of` (if j =? k then frames_of j else []);
}.

Lemma outputs_piece k outs : 
  omap paced (outputs_trace k outs) = [] ∧
  forallb quiet (outputs_trace k outs) = true ∧
  ∀ j, omap (output_of j) (outputs_trace k outs) = if j =? k then outs else [].
Proof.
  unfold outputs_trace. split_and!.
  1-2: by induction outs; cbn.
  intros j. rewrite (Z.eqb_sym j k). induction outs as [|[o d] outs IH]; cbn.
  - by destruct (k =? j).
  - destruct (k =? j); cbn; by rewrite IH.
Qed.

Lemma attempted_piece k base body : attempted k base (attempt_of env k) body → piece k [Requested k base] body.
Proof.
  intros H. destruct H as [err E|err c E|r E|r outs E Hp].
  1-3: split; [done..|]; intros j; cbn; apply prefix_nil.
  destruct (outputs_piece k outs) as (H1 & H3 & H4). unfold streamed.
  split; cbn; rewrite ?omap_app, ?forallb_app, ?H1, ?H3; try done.
  intros j. rewrite omap_app, H4. cbn. rewrite app_nil_r.
  split_if (j =? k); [|done]. subst. unfold frames_of. by rewrite E.
Qed.

Lemma notices_piece k notes : Forall (notice k) notes → piece k [] notes.
Proof.
  intros H. split.
  1-2: induction H as [|x notes (e & [->| ->]) H IH]; cbn; [done|exact IH..].
  intros j. assert (omap (output_of j) notes = []) as ->; [|apply prefix_nil].
  induction H as [|x notes (e & [->| ->]) H IH]; cbn; [done|exact IH..].
Qed.

Lemma piece_app k reqs reqs' tr tr' :
  piece k reqs tr → piece k reqs' tr' → (∀ j, omap (output_of j) tr' = []) → piece k (reqs ++ reqs') (tr ++ tr').
Proof.
  intros [H1 H3 H4] [G1 G3 G4] Hno.
  split; rewrite ?omap_app, ?forallb_app; [by rewrite H1, G1|by rewrite H3, G3|].
  intros j. by rewrite omap_app, Hno, app_nil_r.
Qed.

Lemma notices_no_output k notes j : Forall (notice k) notes → omap (output_of j) notes = [].
Proof. intros H. induction H as [|x notes (e & [->| ->]) H IH]; cbn; [done|exact IH..]. Qed.

Lemma whole_piece k base : piece k [Requested k base] (whole_attempt k base (attempt_of env k)).
Proof.
  unfold whole_attempt. rewrite <- (app_nil_r [Requested k base]).
  assert (Hn : Forall (notice k) (match attempt_error (attempt_of env k) with
    | Some e => if stream_failed (attempt_of env k) then [Sent (remoteStreamFailure request k e)] else []
    | None => [] end)).
  { destruct (attempt_error _) as [e|]; [|constructor]. destruct (stream_failed _); [|constructor].
    constructor; [|constructor]. exists e. by left. }
  apply piece_app; [apply attempted_piece, do_trace_attempted|by apply notices_piece|].
  intros j. by apply (notices_no_output k).
Qed.

Lemma final_terminal k v e : final_event k v = Some e → terminal e = true.
Proof. destruct v; cbn; intros [= <-]; reflexivity. Qed.

(** Attempts from [k] on, [m] of them tried again: between two there is one
    wait, for the backoff of the first. *)
Fixpoint timeline (base : http_request) (k : Z) (m : nat) : list (action V) :=
  match m with
  | O => [Requested k base]
  | S m => Requested k base :: Waited (backoff_of k) :: timeline base (k + 1) m
  end.

Lemma runs_shape base k tr :
  runs base k tr →
  ∃ n pre e, k ≤ n ≤ max_attempts ∧ tr = pre ++ [Sent e] ∧ terminal e = true ∧ forallb quiet pre = true ∧
    omap paced pre = timeline base k (Z.to_nat (n - k)) ∧
    ∀ j, omap (output_of j) tr `prefix_of` (if k <=? j then frames_of j else []).
Proof.
  induction 1 as [k e Hk He|k tr Hk Hc (body & notes & Hb & Hn & ->)|k e tr Hk He Hr IH].
  - destruct (whole_piece k base) as [H1 H3 H4].
    exists k, (whole_attempt k base (attempt_of env k)), e. split; [lia|].
    split; [done|]. split; [by eapply final_terminal|]. split; [done|].
    rewrite Z.sub_diag. split; [done|].
    intros j. specialize (H4 j). rewrite omap_app.
    assert (omap (output_of j) [Sent e] = []) as ->
      by (destruct (judge k (attempt_of env k)); simplify_eq/=; done).
    rewrite app_nil_r. split_if (j =? k); [subst; by rewrite Z.leb_refl|].
    apply prefix_nil_inv in H4. rewrite H4. apply prefix_nil.
  - destruct (piece_app k _ _ _ _ (attempted_piece k base body Hb) (notices_piece k notes Hn)) as [H1 H3 H4].
    { intros j. by apply (notices_no_output k). }
    exists k, (body ++ notes), (remoteCanceled request). split; [lia|].
    split; [by rewrite app_assoc|]. split; [done|]. split; [done|].
    rewrite Z.sub_diag. split; [done|].
    intros j. specialize (H4 j). rewrite app_assoc, (omap_app _ (body ++ notes)). cbn. rewrite app_nil_r.
    split_if (j =? k); [subst; by rewrite Z.leb_refl|].
    apply prefix_nil_inv in H4. rewrite H4. apply prefix_nil.
  - destruct (whole_piece k base) as [H1 H3 H4].
    destruct IH as (n & pre & e' & Hn & -> & Ht & Hq & Hreq & Hout).
    exists n, (whole_attempt k base (attempt_of env k)
      ++ Sent (remoteRetryScheduled request k e (backoff_of k)) :: Waited (backoff_of k) :: pre), e'.
    split; [lia|]. split; [by rewrite <- app_assoc|]. split; [done|].
    rewrite omap_app, forallb_app, H1, H3. split; [exact Hq|].
    replace (Z.to_nat (n - k)) with (S (Z.to_nat (n - (k + 1)))) by lia.
    split; [cbn; by rewrite Hreq|].
    intros j. rewrite omap_app. cbn [app omap list_omap output_of event.Result remoteRetryScheduled remoteEvent].
    specialize (H4 j). specialize (Hout j).
    split_if (j =? k).
    + subst. rewrite Z.leb_refl. rewrite (proj2 (Z.leb_gt (k + 1) k)) in Hout by lia.
      apply prefix_nil_inv in Hout. by rewrite Hout, app_nil_r.
    + apply prefix_nil_inv in H4. rewrite H4. cbn [app].
      split_if (k <=? j); split_if (k + 1 <=? j); done || lia.
Qed.

(** C21: Every run of a request, whatever the network answers and whenever the
    context ends, sends exactly one terminal event, as its last action.  A
    request that is not accepted, and a context that is canceled already, are
    answered by that event alone, a failure and a cancellation.  Otherwise the
    run makes the prepared request at most MaxAttempts times, for attempts
    numbered from 1; what it does besides sending is to make a request, to wait
    once for the backoff of that attempt, to make the next request, and so on;
    and the outputs it sends for an attempt are the first frames of what the
    response of that attempt carries. *)
Theorem remote_request_protocol :
  let tr := remoteTrace NewRequest ParseMediaType env request in
  match prepareRemoteRequest NewRequest request with
  | inl err => tr = [Sent (remoteFailure request err)]
  | inr base =>
    if canceled 0 then tr = [Sent (remoteCanceled request)]
    else ∃ n pre e, 1 ≤ n ≤ max_attempts ∧ tr = pre ++ [Sent e] ∧ terminal e = true ∧ forallb quiet pre = true ∧
      omap paced pre = timeline base 1 (Z.to_nat (n - 1)) ∧
      ∀ k, 1 ≤ k → omap (output_of k) tr `prefix_of` frames_of k
  end.
Proof.
  intros tr. destruct (prepareRemoteRequest NewRequest request) as [err|base] eqn:Hp.
  { unfold tr, remoteTrace, runRemoteRequest. by rewrite Hp. }
  destruct (canceled 0) eqn:H0.
  { unfold tr, remoteTrace, runRemoteRequest. rewrite Hp.
    unfold mbind, M_bind, ctx_Err. cbn [run.tests run.trace]. by rewrite H0. }
  destruct (runs_shape base 1 tr (remoteTrace_runs base Hp H0)) as (n & pre & e & Hn & E & Ht & Hq & Hreq & Hout).
  exists n, pre, e. split_and!; try done; try lia.
  intros k Hk. specialize (Hout k). by rewrite (proj2 (Z.leb_le 1 k)) in Hout by lia.
Qed.

(** An attempt that is tried again, with its backoff. *)
Definition retried (base : http_request) (k : Z) : list (action V) :=
  whole_attempt k base (attempt_of env k) ++
  match judge k (attempt_of env k) with
  | Retries e => [Sent (remoteRetryScheduled request k e (backoff_of k)); Waited (backoff_of k)]
  | _ => []
  end.

Lemma remoteTrace_outcome base :
  prepareRemoteRequest NewRequest request = inr base → cancel_at env = None →
  ∃ n e, 1 ≤ n ≤ max_attempts ∧
    (∀ k, 1 ≤ k < n → ∃ err, judge k (attempt_of env k) = Retries err) ∧
    final_event n (judge n (attempt_of env n)) = Some e ∧
    remoteTrace NewRequest ParseMediaType env request =
      concat (retried base <$> seqZ 1 (n - 1)) ++ whole_attempt n base (attempt_of env n) ++ [Sent e].
Proof.
  intros Hp Hc.
  assert (Hgen : ∀ k tr, runs base k tr → ∃ n e, k ≤ n ≤ max_attempts ∧
    (∀ j, k ≤ j < n → ∃ err, judge j (attempt_of env j) = Retries err) ∧
    final_event n (judge n (attempt_of env n)) = Some e ∧
    tr = concat (retried base <$> seqZ k (n - k)) ++ whole_attempt n base (attempt_of env n) ++ [Sent e]).
  { induction 1 as [k e Hk He|k tr Hk Hcancel _|k e tr Hk He Hr IH].
    - exists k, e. rewrite Z.sub_diag. split_and!; [lia..| |done|done]. intros j Hj. lia.
    - done.
    - destruct IH as (n & e' & Hn & Hall & He' & ->). exists n, e'. split; [lia|]. split.
      { intros j Hj. destruct (decide (j = k)) as [->|]; [by exists e|]. apply Hall. lia. }
      split; [done|].
      rewrite (seqZ_from k (n - k) (n - (k + 1))) by lia. cbn [fmap list_fmap concat]. unfold retried at 2.
      by rewrite He, <- !app_assoc. }
  apply (Hgen 1). apply remoteTrace_runs; [done|]. unfold canceled_at. by rewrite Hc.
Qed.

(** When the context does not end, the attempts go on until one completes
    the request, fails for good or is the last one allowed: the trace is the
    whole of every attempt, and it ends with the event that the outcome of the
    last attempt calls for. *)
Theorem remote_request_outcome base :
  prepareRemoteRequest NewRequest request = inr base → cancel_at env = None →
  ∃ n e, 1 ≤ n ≤ max_attempts ∧
    (∀ k, 1 ≤ k < n → ∃ err, judge k (attempt_of env k) = Retries err) ∧
    final_event n (judge n (attempt_of env n)) = Some e ∧
    remoteTrace NewRequest ParseMediaType env request =
      concat (retried base <$> seqZ 1 (n - 1)) ++ whole_attempt n base (attempt_of env n) ++ [Sent e].
Proof. apply remoteTrace_outcome. Qed.
End Run.

(** ** A sample

    The first attempt answers 503, the second streams one event and breaks
    off, the third completes. *)

Definition sample_newRequest (method url : string) : remote_error + (string * string) :=
  inr ("https"%string, "api.example"%string).
Definition sample_mediaType (content_type : string) : option string := Some content_type.

Definition sample_request : RemoteRequest :=
  remote.Mk "source" "call" MethodPost "https://api.example/responses" [("Accept"%string, ["text/event-stream"%string])]
    (to_bytes "{}") Second (Some (sse.Mk 1024 SSEFrameDelimiterStrip)) default_policy.

Definition sample_response (code : Z) (chunks : list bytes) (err : remote_error) : attempt_env :=
  AttemptEnv (DoResponse (HttpResponse code {["Content-Type"%string := ["text/event-stream"%string]]} chunks [] err None)) false.

Definition sample_env : remote_env :=
  RemoteEnv None ContextCanceled (λ _, true) (λ k,
    if k =? 1 then sample_response 503 [] EOF
    else if k =? 2 then sample_response 200 [to_bytes "data: a" ++ [LF; LF]] UnexpectedEOF
    else sample_response 200 [to_bytes "data: a" ++ [LF]; [LF] ++ to_bytes "data: b" ++ [LF; LF]] EOF).

Definition sample_base : http_request :=
  http.Mk MethodPost "https://api.example/responses" [("Accept"%string, "text/event-stream"%string)] None (to_bytes "{}").

Lemma sample_prepared : prepareRemoteRequest sample_newRequest sample_request = inr sample_base.
Proof. reflexivity. Qed.

Lemma remote_request_protocol_witness :
  ∃ n pre e, 1 ≤ n ≤ 5 ∧
    remoteTrace (V := unit) sample_newRequest sample_mediaType sample_env sample_request = pre ++ [Sent e] ∧
    terminal e = true ∧ omap paced pre = timeline sample_request sample_base 1 (Z.to_nat (n - 1)).
Proof.
  pose proof (remote_request_protocol (V := unit) sample_newRequest sample_mediaType sample_env sample_request) as H.
  cbv zeta in H. rewrite sample_prepared in H.
  destruct H as (n & pre & e & Hn & E & Ht & _ & Hw & _).
  exists n, pre, e. split; [exact Hn|]. split; [exact E|]. split; [exact Ht|exact Hw].
Defined.

Lemma remote_request_outcome_witness :
  ∃ pre, remoteTrace (V := unit) sample_newRequest sample_mediaType sample_env sample_request =
    pre ++ [Sent (remoteEvent sample_request PrimitiveEventRemoteCompleted (RemoteCompletedResult 3))].
Proof.
  destruct (remote_request_outcome (V := unit) sample_newRequest sample_mediaType sample_env sample_request
              sample_base sample_prepared eq_refl) as (n & e & Hn & Hbefore & He & ->).
  assert (n = 3) as ->.
  { destruct (decide (n = 1)) as [->|]; [vm_compute in He; discriminate He|].
    destruct (decide (n = 2)) as [->|]; [vm_compute in He; discriminate He|].
    destruct (decide (n = 3)) as [|]; [done|].
    destruct (Hbefore 3 ltac:(lia)) as [err Herr]. vm_compute in Herr. discriminate Herr. }
  assert (e = remoteEvent sample_request PrimitiveEventRemoteCompleted (RemoteCompletedResult 3)) as ->.
  { vm_compute in He. injection He as <-. reflexivity. }
  eexists. rewrite app_assoc. reflexivity.
Defined.
