(* ===== verification/ResponsesRetry.v ===== *)
(** * ResponsesRetry: which failures of the model are tried again, and when

    The file retry.go of harness/llm/responsesapi and the error type of
    adapter.go: the classification of API errors, the delays a provider asks
    for in a header or in a message, and the backoff with jitter.
    [ParseTime] stands for the date parser of net/http; it returns an instant
    in nanoseconds. *)

From Stdlib Require Import Ascii ZArith Lia SpecFloat.
From S2P Require Import Prelude GoStrings GoText GoHttp Primitives Remote RemoteFacts.
From S2P Require Import ViewImageCompute.

Local Open Scope Z_scope.

(** ** Errors of the API *)

Module apierr.
Record APIError : Set := Mk { StatusCode : Z; Code : string; Message : string; Param : string; Type' : string }.
End apierr.
Abbreviation APIError := apierr.APIError.

Definition APIError_Error (err : APIError) : string :=
  if negb (bool_decide (apierr.Code err = EmptyString)) then
    "responses API error " +:+ apierr.Code err +:+ ": " +:+ apierr.Message err
  else if negb (apierr.StatusCode err =? 0) then
    "responses API request failed with status " +:+ Itoa (apierr.StatusCode err) +:+ ": " +:+ apierr.Message err
  else "responses API request failed: " +:+ apierr.Message err.

Definition final_codes : list string :=
  ["context_length_exceeded"; "insufficient_quota"; "usage_not_included"; "usage_limit_reached";
   "credit_balance_exhausted"; "billing_hard_limit_reached";
   "cyber_policy"; "misalignment_policy_violation"; "invalid_prompt"; "bio_policy";
   "invalid_api_key"; "invalid_token"].
Definition final_types : list string := ["authentication_error"; "permission_error"; "insufficient_quota"].

Definition retryableResponseError (err : option APIError) (retryableStatuses : list Z) : bool :=
  match err with
  | None => false
  | Some err =>
    if bool_decide (apierr.Code err ∈ final_codes) then false
    else if bool_decide (apierr.Type' err ∈ final_types) then false
    else if negb (success (apierr.StatusCode err)) then bool_decide (apierr.StatusCode err ∈ retryableStatuses)
    else true
  end.

(** ** strconv.ParseUint and time.ParseDuration *)

Definition digit (r : Z) : bool := utf8.between 48 57 r.

(** [strconv.ParseUint(value, 10, 64)] *)
Definition ParseUint (value : string) : option Z :=
  let p := byte_val <$> to_bytes value in
  if bool_decide (p = []) || negb (forallb digit p) then None
  else
    let n := foldl (λ n c, n * 10 + (c - 48)) 0 p in
    if in_uint64 n then Some n else None.

(** [leadingInt]: none when the number exceeds 2^63. *)
Fixpoint leadingInt (x : Z) (digits : list Z) : option Z :=
  match digits with
  | [] => Some x
  | c :: digits =>
    if 2 ^ 63 / 10 <? x then None
    else
      let x := x * 10 + (c - 48) in
      if 2 ^ 63 <? x then None else leadingInt x digits
  end.

(** [leadingFraction]: digits that would overflow are dropped; the scale is a
    float64. *)
Fixpoint leadingFraction (x : Z) (scale : spec_float) (digits : list Z) : Z * spec_float :=
  match digits with
  | [] => (x, scale)
  | c :: digits =>
    if (2 ^ 63 - 1) / 10 <? x then (x, scale)
    else
      let y := x * 10 + (c - 48) in
      if 2 ^ 63 <? y then (x, scale)
      else leadingFraction y (float.mul scale (float.of_int 10)) digits
  end.

(** The conversion of a float64 that is not negative to an integer. *)
Definition truncate (x : spec_float) : Z :=
  match x with
  | S754_finite false m e => if 0 <=? e then Z.pos m * 2 ^ e else Z.pos m / 2 ^ (- e)
  | _ => 0
  end.

(** [time.ParseDuration] of one number (its digits before and after the point)
    and a unit in nanoseconds; none for an error. *)
Definition ParseDuration (int_part : list Z) (fraction : option (list Z)) (unit : Z) : option Z :=
  match leadingInt 0 int_part with
  | None => None
  | Some v =>
    if 2 ^ 63 / unit <? v then None
    else
      let '(f, scale) := leadingFraction 0 (float.of_int 1) (default [] fraction) in
      let v := v * unit + (if 0 <? f then truncate (float.mul (float.of_int f) (float.div (float.of_int unit) scale))
                           else 0) in
      if 2 ^ 63 - 1 <? v then None else Some v
  end.

(** ** The pattern of a delay in a message

    [(?i)\btry again in\s*(\d+(?:\.\d+)?)\s*(ms|milliseconds?|s|seconds?)\b],
    leftmost match.  A shorter run of digits or spaces never lets the rest
    match, so the greedy choice is the only one to try. *)

Definition word_rune (r : Z) : bool :=
  utf8.between 48 57 r || utf8.between 65 90 r || utf8.between 97 122 r || (r =? 95).
Definition word_at (r : option Z) : bool := match r with Some r => word_rune r | None => false end.
Definition boundary (before after : option Z) : bool := xorb (word_at before) (word_at after).

Definition space_rune (r : Z) : bool := bool_decide (r ∈ [9; 10; 12; 13; 32]).

Fixpoint drop_runes (f : Z → bool) (rs : list Z) : list Z :=
  match rs with [] => [] | r :: rs' => if f r then drop_runes f rs' else rs end.
Fixpoint take_runes (f : Z → bool) (rs : list Z) : list Z :=
  match rs with [] => [] | r :: rs => if f r then r :: take_runes f rs else [] end.

(** A literal, case folded: its last rune and the rest. *)
Fixpoint literal (last : option Z) (pattern rs : list Z) : option (option Z * list Z) :=
  match pattern, rs with
  | [], _ => Some (last, rs)
  | p :: pattern, r :: rs => if fold_rune r =? p then literal (Some r) pattern rs else None
  | _ :: _, [] => None
  end.

Definition pattern_runes (s : string) : list Z := utf8.runes (to_bytes s).

(** The first unit that matches and ends at a boundary: in nanoseconds. *)
Fixpoint match_unit (units : list (string * Z)) (rs : list Z) : option Z :=
  match units with
  | [] => None
  | (name, unit) :: units =>
    match literal None (pattern_runes name) rs with
    | Some (last, rest) => if boundary last (head rest) then Some unit else match_unit units rs
    | None => match_unit units rs
    end
  end.
Definition retry_units : list (string * Z) :=
  [("ms", 1000000); ("milliseconds", 1000000); ("millisecond", 1000000);
   ("s", Second); ("seconds", Second); ("second", Second)]%string.

Definition match_here (before : option Z) (rs : list Z) : option (list Z * option (list Z) * Z) :=
  if negb (boundary before (head rs)) then None
  else match literal None (pattern_runes "try again in") rs with
  | None => None
  | Some (_, rs) =>
    let rs := drop_runes space_rune rs in
    match take_runes digit rs with
    | [] => None
    | int_part =>
      let rs := drop_runes digit rs in
      let '(fraction, rs) :=
        match rs with
        | 46 :: rest =>
          match take_runes digit rest with
          | [] => (None, rs)
          | ds => (Some ds, drop_runes digit rest)
          end
        | _ => (None, rs)
        end in
      unit ← match_unit retry_units (drop_runes space_rune rs);
      Some (int_part, fraction, unit)
    end
  end.

Fixpoint find_match (before : option Z) (rs : list Z) : option (list Z * option (list Z) * Z) :=
  match match_here before rs with
  | Some m => Some m
  | None => match rs with [] => None | r :: rs => find_match (Some r) rs end
  end.

Definition retryAfterMessage (message : string) : Z :=
  match find_match None (utf8.runes (to_bytes message)) with
  | None => 0
  | Some (int_part, fraction, unit) => default 0 (ParseDuration int_part fraction unit)
  end.

(** ** Delays *)

(** [deadline.Sub(now)] saturates. *)
Definition Sub (deadline now : Z) : Z := Z.max (- 2 ^ 63) (Z.min (2 ^ 63 - 1) (deadline - now)).

(** A product of a non-negative integer and a float64 is rounded to 53 bits,
    half to even. *)
Definition round53 (n : Z) : Z :=
  if n <? 2 ^ 53 then n
  else
    let unit := 2 ^ (Z.log2 n - 52) in
    let q := n / unit in
    let r := n mod unit in
    (if (unit <? 2 * r) || ((2 * r =? unit) && Z.odd q) then q + 1 else q) * unit.

(** [time.Duration(float64(d) * jitter)] with the jitter [k / 2^53] that
    [rand.Float64] returns. *)
Definition jittered (d k : Z) : Z := round53 (round53 d * k) / 2 ^ 53.

Section Delay.
Context (ParseTime : string → option Z).

Definition retryAfterHeader (value : string) (now : Z) : Z :=
  let value := TrimSpace value in
  match ParseUint value with
  | Some seconds => if (2 ^ 63 - 1) / Second <? seconds then 0 else seconds * Second
  | None =>
    match ParseTime value with
    | Some deadline => Z.max 0 (Sub deadline now)
    | None => 0
    end
  end.

(** The delay the provider asks for. *)
Definition retry_hint (err : option APIError) (headers : Header) (now : Z) : Z :=
  let hint := retryAfterHeader (Get headers "Retry-After") now in
  match err with
  | Some err => if bool_decide (apierr.Code err = "rate_limit_exceeded")
                then Z.max hint (retryAfterMessage (apierr.Message err)) else hint
  | None => hint
  end.

(** Overloads back off longer. *)
Definition retry_policy (p : RemoteRetryPolicy) (err : option APIError) : RemoteRetryPolicy :=
  match err with
  | Some err => if bool_decide (apierr.Code err = "server_is_overloaded") || bool_decide (apierr.Code err = "slow_down")
                then policy.Mk (policy.MaxAttempts p) (10 * Second) (60 * Second) (policy.RetryableStatusCodes p)
                else p
  | None => p
  end.

Definition responseRetryDelay (p : RemoteRetryPolicy) (attempt : Z) (err : option APIError) (headers : Header)
    (now jitter : Z) : Z :=
  let hint := retry_hint err headers now in
  if 0 <? hint then Z.min hint (policy.MaxBackoff p)
  else
    let delay := Backoff (retry_policy p err) attempt in
    delay - jittered (delay / 5) jitter.
End Delay.

(** ** The cases of the repository's tests *)

Example message_decimal : retryAfterMessage "Please try again in 11.054s. Visit the docs." = 11054 * 1000000.
Proof. vm_compute. reflexivity. Qed.
Example message_ms : retryAfterMessage "Please try again in 28ms." = 28 * 1000000.
Proof. vm_compute. reflexivity. Qed.
Example message_fraction_ms : retryAfterMessage "Please try again in 1.5 milliseconds." = 1500000.
Proof. vm_compute. reflexivity. Qed.
Example message_capitals : retryAfterMessage "TRY AGAIN IN 35 SECONDS." = 35 * Second.
Proof. vm_compute. reflexivity. Qed.
Example message_second : retryAfterMessage "try again in 1 second" = Second.
Proof. vm_compute. reflexivity. Qed.
Example message_none :
  retryAfterMessage <$> ["try again in 0s"; "try again in -1s"; "try again in NaNs";
    "try again in 999999999999999999999s"; "try again in 1 minute"; "try again in 12snowflakes";
    "try again in 2"; "try again in tomorrow"; "quota exhausted"]%string = repeat 0 9.
Proof. vm_compute. reflexivity. Qed.
Example header_values :
  (λ v, retryAfterHeader (λ _, None) v 0) <$> [" 120 "; "0"; "-1"; "1.5"; "9223372036"; "9223372037";
    "18446744073709551615"; "999999999999999999999"; "garbage"; EmptyString]%string
  = [120 * Second; 0; 0; 0; 9223372036 * Second; 0; 0; 0; 0; 0].
Proof. vm_compute. reflexivity. Qed.

(** ** Bounds *)

Lemma round53_le n y e :
  0 ≤ n ≤ y → (2 ^ e | y) → Z.log2 n - 52 ≤ e → 0 ≤ round53 n ≤ y.
Proof.
  intros Hn [c ->] He. unfold round53. split_if (n <? 2 ^ 53); [lia|].
  assert (Hl : 53 ≤ Z.log2 n) by (apply Z.log2_le_pow2; lia).
  set (u := 2 ^ (Z.log2 n - 52)).
  assert (Hu : 0 < u) by (apply Z.pow_pos_nonneg; lia).
  assert (Hdiv : c * 2 ^ e = c * 2 ^ (e - (Z.log2 n - 52)) * u).
  { unfold u. rewrite <- Z.mul_assoc, <- Z.pow_add_r by lia. f_equal. f_equal. lia. }
  rewrite Hdiv in *. generalize dependent (c * 2 ^ (e - (Z.log2 n - 52))). intros m Hn _.
  pose proof (Z.div_mod n u ltac:(lia)) as Hdm. pose proof (Z.mod_pos_bound n u Hu) as Hmod.
  assert (0 ≤ n / u) by (apply Z.div_pos; lia).
  destruct ((u <? 2 * (n mod u)) || _) eqn:Eup; [|nia].
  assert (0 < n mod u).
  { apply orb_true_iff in Eup as [E|E]; [lia|]. apply andb_prop in E as [E _]. lia. }
  assert (n / u + 1 ≤ m) by (apply Z.le_succ_l, (Z.mul_lt_mono_pos_l u); lia).
  clearbody u. nia.
Qed.

Lemma round53_exact n : 0 ≤ n ≤ 2 ^ 53 → round53 n = n.
Proof.
  intros Hn. unfold round53. split_if (n <? 2 ^ 53); [done|].
  assert (n = 2 ^ 53) as -> by lia. reflexivity.
Qed.

Lemma jittered_bounds d k : 0 ≤ d ≤ 2 ^ 53 → 0 ≤ k < 2 ^ 53 → 0 ≤ jittered d k ≤ d.
Proof.
  intros Hd Hk. unfold jittered. rewrite (round53_exact d) by done.
  assert (H : 0 ≤ round53 (d * k) ≤ d * 2 ^ 53).
  { destruct (decide (d = 0)) as [->|]; [done|].
    apply (round53_le _ _ 53); [nia|by exists d|].
    assert (Z.log2 (d * k) < 106); [|lia]. destruct (decide (k = 0)) as [->|]; [by rewrite Z.mul_0_r|].
    apply Z.log2_lt_pow2; [nia|]. change (2 ^ 106) with (2 ^ 53 * 2 ^ 53). nia. }
  split; [apply Z.div_pos; lia|].
  apply Z.le_trans with (d * 2 ^ 53 / 2 ^ 53); [apply Z.div_le_mono; lia|].
  rewrite Z.div_mul by lia. lia.
Qed.

Lemma retry_policy_ok p err : policy_ok p → policy_ok (retry_policy p err).
Proof.
  intros H. unfold retry_policy. destruct err as [err|]; [|done].
  destruct (_ || _); [|done]. split; cbn; unfold Second; lia.
Qed.

Lemma responseRetryDelay_bounds ParseTime p attempt err headers now jitter :
  policy_ok p → policy.MaxBackoff p ≤ 2 ^ 53 → 1 ≤ attempt → 0 ≤ jitter < 2 ^ 53 →
  let hint := retry_hint ParseTime err headers now in
  let delay := responseRetryDelay ParseTime p attempt err headers now jitter in
  let full := Backoff (retry_policy p err) attempt in
  (0 < hint → delay = Z.min hint (policy.MaxBackoff p)) ∧
  (hint ≤ 0 → full - full / 5 ≤ delay ≤ full) ∧
  0 ≤ delay ≤ Z.max (policy.MaxBackoff p) (60 * Second).
Proof.
  intros Hp Hm Ha Hj hint delay full.
  assert (Hfull : 0 ≤ full ≤ policy.MaxBackoff (retry_policy p err)).
  { destruct (Backoff_power _ attempt (retry_policy_ok p err Hp) Ha) as (_ & H1 & H2). unfold full. lia. }
  assert (Hmax : policy.MaxBackoff (retry_policy p err) ≤ Z.max (policy.MaxBackoff p) (60 * Second)).
  { unfold retry_policy. destruct err as [err|]; [|lia]. destruct (_ || _); cbn; lia. }
  assert (Hcap : Z.max (policy.MaxBackoff p) (60 * Second) ≤ 2 ^ 53) by (unfold Second; lia).
  assert (Hdiv : 0 ≤ full / 5 ≤ full).
  { split; [apply Z.div_pos; lia|]. apply Z.div_le_upper_bound; lia. }
  pose proof (jittered_bounds (full / 5) jitter ltac:(lia) Hj) as Hjit.
  assert (E : delay = if 0 <? hint then Z.min hint (policy.MaxBackoff p) else full - jittered (full / 5) jitter)
    by reflexivity.
  clearbody delay full hint. destruct Hp as [Hp _]. rewrite E. split_if (0 <? hint); split_and!; lia.
Qed.

(** The delay before a retry: a hint of the provider is followed up to the
    policy's maximum; without one the delay is the exponential backoff of the
    policy (for overloads, from 10 seconds to a minute) shortened by the
    jitter by at most a fifth. *)
Theorem retry_delay_bounds ParseTime p attempt err headers now jitter :
  policy_ok p → policy.MaxBackoff p ≤ 2 ^ 53 → 1 ≤ attempt → 0 ≤ jitter < 2 ^ 53 →
  let hint := retry_hint ParseTime err headers now in
  let delay := responseRetryDelay ParseTime p attempt err headers now jitter in
  let full := Backoff (retry_policy p err) attempt in
  (0 < hint → delay = Z.min hint (policy.MaxBackoff p)) ∧
  (hint ≤ 0 → full - full / 5 ≤ delay ≤ full) ∧
  0 ≤ delay ≤ Z.max (policy.MaxBackoff p) (60 * Second).
Proof. apply responseRetryDelay_bounds. Qed.

Lemma retry_delay_bounds_witness :
  let overload := Some (apierr.Mk 200 "slow_down" EmptyString EmptyString EmptyString) in
  let delay := responseRetryDelay (λ _, None) default_policy 2 overload ∅ 0 (2 ^ 52) in
  16 * Second ≤ delay ≤ 20 * Second.
Proof.
  assert (Hp : policy_ok default_policy) by (split; vm_compute; split; congruence).
  destruct (retry_delay_bounds (λ _, None) default_policy 2 (Some (apierr.Mk 200 "slow_down" EmptyString EmptyString EmptyString)) ∅ 0 (2 ^ 52)
              Hp ltac:(vm_compute; congruence) ltac:(lia) ltac:(lia)) as (_ & H & _).
  apply H. vm_compute. congruence.
Defined.
