(* ===== verification/ResponsesStream.v ===== *)
(** * ResponsesStream: one exchange with the responses API

    The file stream.go of harness/llm/responsesapi and the request and errors
    of adapter.go.  An exchange runs remote requests of one attempt each
    ([Remote]), reads the events of the stream that each response carries into
    a [responseState], and tries again, after a timer, what may pass.

    A [jsontext.Value] is the tree of its text.  The environment of an exchange
    gives for each attempt the environment of its remote request, the context
    and the clock at the points where the code asks for them, the jitter, and
    the run of the timer. *)

From Stdlib Require Import Ascii ZArith Lia.
From S2P Require Import Prelude GoStrings GoText GoHttp Json JsonCodec Primitives.
From S2P Require Import RemoteSSE Remote ResponsesRetry.

Local Open Scope Z_scope.

(** ** Errors *)

Inductive response_error : Type :=
  | InvalidEvent                 (* invalid Responses stream event JSON *)
  | TooLarge                     (* the error response exceeds 1 MiB *)
  | Api (err : APIError)
  | NoTerminalResponse           (* wraps io.ErrUnexpectedEOF *)
  | InvalidOutput                (* a response whose output is no array *)
  | Transport (err : error)
  | ContextError (err : error)
  | UnexpectedTimer (type : PrimitiveEventType).

(** [errors.As] with a pointer to an [APIError]. *)
Definition As_APIError (err : response_error) : option APIError :=
  match err with Api e => Some e | _ => None end.

(** [errors.Is(err, io.ErrUnexpectedEOF)] *)
Definition is_UnexpectedEOF (err : response_error) : bool :=
  match err with NoTerminalResponse => true | _ => false end.

(** The body of an answer: bytes as they came, or a JSON text. *)
Inductive exchange_body : Type := RawBody (b : bytes) | JsonBody (j : json).

Definition nil_body : exchange_body := RawBody [].

Definition body_value (b : exchange_body) : value :=
  match b with RawBody b => value_of_text b | JsonBody j => VText j end.
Definition value_text (v : value) : string :=
  match v with VNil => EmptyString | VText j => to_string (print j) | VBad raw => raw end.
Definition body_text (b : exchange_body) : string :=
  match b with RawBody b => to_string b | JsonBody j => to_string (print j) end.

(** ** Errors in bodies *)

(** The members of the object [error]: code, message, param and type. *)
Module envelope.
Record error_fields : Set := Mk { Code : option string; Message : string; Param : option string; Type' : string }.
End envelope.
Abbreviation error_fields := envelope.error_fields.

Definition no_error_fields : error_fields := envelope.Mk None EmptyString None EmptyString.

Definition dec_error_fields : json → option error_fields :=
  dec_struct no_error_fields (λ o,
    code ← get (ptr_codec string_codec) "code" o; message ← get string_codec "message" o;
    param ← get (ptr_codec string_codec) "param" o; type ← get string_codec "type" o;
    Some (envelope.Mk code message param type)).

(** The member [error] of the envelope, decoded into a struct. *)
Definition dec_envelope : json → option error_fields :=
  dec_struct no_error_fields (λ o,
    match assoc "error" o with None => Some no_error_fields | Some j => dec_error_fields j end).

Definition decode_with {A} (dec : json → option A) (v : value) : option A :=
  match v with VText j => if json_ok j then dec j else None | _ => None end.

Definition providerError (statusCode : Z) (v : value) (text : string) : APIError :=
  let message := TrimSpace text in
  let plain := apierr.Mk statusCode EmptyString
    (if bool_decide (message = EmptyString) then StatusText statusCode else message) EmptyString EmptyString in
  match decode_with dec_envelope v with
  | Some f =>
    if bool_decide (envelope.Message f = EmptyString) && bool_decide (default EmptyString (envelope.Code f) = EmptyString)
    then plain
    else apierr.Mk statusCode (default EmptyString (envelope.Code f)) (envelope.Message f)
           (default EmptyString (envelope.Param f)) (envelope.Type' f)
  | None => plain
  end.

(** ** Stream events *)

Module sevent.
Record stream_event : Type := Mk {
  Type' : string; Response : value; Item : value; OutputIndex : option Z;
  Code : string; Message : string; Param : string;
  Error : option (string * string * string * string);   (* code, message, param, type *)
}.
End sevent.
Abbreviation stream_event := sevent.stream_event.

Definition dec_event_error : json → option (string * string * string * string) :=
  dec_struct (EmptyString, EmptyString, EmptyString, EmptyString) (λ o,
    code ← get string_codec "code" o; message ← get string_codec "message" o;
    param ← get string_codec "param" o; type ← get string_codec "type" o;
    Some (code, message, param, type)).

(** A pointer to a struct: nil for null. *)
Definition get_ptr {A} (dec : json → option A) (n : string) (o : list (string * json)) : option (option A) :=
  match assoc n o with
  | None | Some JNull => Some None
  | Some j => Some <$> dec j
  end.

Definition dec_event : json → option stream_event :=
  dec_struct (sevent.Mk EmptyString VNil VNil None EmptyString EmptyString EmptyString None) (λ o,
    type ← get string_codec "type" o; response ← get value_codec "response" o;
    item ← get value_codec "item" o; index ← get (ptr_codec int64_codec) "output_index" o;
    code ← get string_codec "code" o; message ← get string_codec "message" o;
    param ← get string_codec "param" o; err ← get_ptr dec_event_error "error" o;
    Some (sevent.Mk type response item index code message param err)).

Module rstate.
Record responseState : Type := Mk {
  terminal : bool;
  response : value;
  items : gmap Z json;
  failure : option APIError;
  err : option APIError;
}.
End rstate.
Abbreviation responseState := rstate.responseState.

Definition zero_state : responseState := rstate.Mk false VNil ∅ None None.

Definition terminal_types : list string := ["response.completed"; "response.failed"; "response.incomplete"].

(** The object that an item, trimmed, starts with a brace for. *)
Definition value_object (v : value) : option (list (string * json)) :=
  match v with VText (JObj o) => Some o | _ => None end.

(** The block for each type of event. *)
Definition observe_terminal (event : stream_event) (st : responseState) : responseState :=
  if bool_decide (sevent.Type' event ∈ terminal_types) then
    rstate.Mk true (sevent.Response event) (rstate.items st)
      (if bool_decide (sevent.Type' event = "response.failed")
       then Some (providerError StatusOK (sevent.Response event) (value_text (sevent.Response event)))
       else rstate.failure st)
      (rstate.err st)
  else st.

Definition observe_item (event : stream_event) (st : responseState) : responseState :=
  match sevent.OutputIndex event, value_object (sevent.Item event) with
  | Some index, Some o =>
    if index <? 0 then st
    else rstate.Mk (rstate.terminal st) (rstate.response st) (<[index := JObj o]> (rstate.items st))
           (rstate.failure st) (rstate.err st)
  | _, _ => st
  end.

Definition or_else (a b : string) : string := if bool_decide (a = EmptyString) then b else a.

Definition event_APIError (event : stream_event) : APIError :=
  let '(code, message, param, kind) :=
    match sevent.Error event with
    | Some (c, m, p, k) =>
      (or_else (sevent.Code event) c, or_else (sevent.Message event) m, or_else (sevent.Param event) p, k)
    | None => (sevent.Code event, sevent.Message event, sevent.Param event, EmptyString)
    end in
  apierr.Mk StatusOK code message param (or_else kind "error").

(** [observe] of one event that decodes; an item that is no object returns
    before the test for an error, whose type differs. *)
Definition observe_event (event : stream_event) (st : responseState) : responseState :=
  let st := observe_terminal event st in
  if bool_decide (sevent.Type' event = "response.output_item.done") then observe_item event st
  else if bool_decide (sevent.Type' event = "error") then
    rstate.Mk (rstate.terminal st) (rstate.response st) (rstate.items st) (rstate.failure st)
      (Some (event_APIError event))
  else st.

Definition observe (data : bytes) (st : responseState) : responseState * option response_error :=
  if rstate.terminal st || bool_decide (is_Some (rstate.err st)) then (st, Api <$> rstate.err st)
  else match decode_with dec_event (value_of_text data) with
  | None => (st, Some InvalidEvent)
  | Some event => (observe_event event st, None)
  end.

(** The members of a map, marshalled in the order of their names. *)
Fixpoint insert_member (m : string * json) (l : list (string * json)) : list (string * json) :=
  match l with
  | [] => [m]
  | x :: l' => if String.leb m.1 x.1 then m :: l else x :: insert_member m l'
  end.
Definition sorted_members (l : list (string * json)) : list (string * json) := foldr insert_member [] l.

(** [slices.Sorted(maps.Keys(items))] *)
Fixpoint insert_index (i : Z) (l : list Z) : list Z :=
  match l with
  | [] => [i]
  | x :: l' => if i <=? x then i :: l else x :: insert_index i l'
  end.
Definition sorted_indices (items : gmap Z json) : list Z := foldr insert_index [] (map_to_list items).*1.

Definition sorted_items (items : gmap Z json) : list json :=
  omap (λ i, items !! i) (sorted_indices items).

Definition unwrap (st : responseState) : response_error + json :=
  match rstate.err st with
  | Some e => inl (Api e)
  | None =>
    match value_object (rstate.response st) with
    | None => inl NoTerminalResponse
    | Some fields =>
      if bool_decide (rstate.items st = ∅) then inr (JObj fields)
      else match match assoc "output" fields with
                 | None | Some JNull => Some []
                 | Some (JArr l) => Some l
                 | Some _ => None
                 end with
      | None => inl InvalidOutput
      | Some (_ :: _) => inr (JObj fields)
      | Some [] =>
        inr (JObj (sorted_members (("output"%string, JArr (sorted_items (rstate.items st)))
                                   :: filter (λ m, m.1 ≠ "output"%string) fields)))
      end
    end
  end.

(** ** One attempt *)

Module rattempt.
Record responseAttempt : Type := Mk {
  status : Z; headers : Header; body : exchange_body; err : option response_error;
  apiError : option APIError; retry : bool }.
End rattempt.
Abbreviation responseAttempt := rattempt.responseAttempt.

(** What [exchangeAttempt] holds between two events. *)
Module progress.
Record progress : Type := Mk {
  status : Z; headers : Header; body : bytes; state : responseState; streaming : bool;
  parseErr : option response_error }.
End progress.
Abbreviation progress := progress.progress.

Definition no_progress : progress := progress.Mk 0 ∅ [] zero_state false None.

Definition DONE : bytes := to_bytes "[DONE]".

Section Attempt.
Context {V : Type}.
Implicit Types (e : PrimitiveEvent V) (p : progress).

(** [bytes.TrimSpace(primitives.SSEData(data))] *)
Definition payload_of (data : bytes) : bytes :=
  to_bytes (TrimSpace (to_string (default [] (SSEData data)))).

(** A PrimitiveEventRemoteOutput. *)
Definition on_output (data : bytes) p : progress :=
  if bool_decide (is_Some (progress.parseErr p)) || rstate.terminal (progress.state p)
     || bool_decide (is_Some (rstate.err (progress.state p))) then p
  else if progress.streaming p then
    let payload := payload_of data in
    if bool_decide (payload = []) || bool_decide (payload = DONE) then p
    else
      let '(st, err) := observe payload (progress.state p) in
      progress.Mk (progress.status p) (progress.headers p) (progress.body p) st true err
  else if 2 ^ 20 <? len (progress.body p) + len data then
    progress.Mk (progress.status p) (progress.headers p) (progress.body p) (progress.state p) false (Some TooLarge)
  else
    progress.Mk (progress.status p) (progress.headers p) (progress.body p ++ data) (progress.state p) false None.

(** A PrimitiveEventRemoteResponseStarted. *)
Definition on_started (status : Z) (headers : Header) p : progress :=
  progress.Mk status headers (progress.body p) (progress.state p) (success status) (progress.parseErr p).

Definition remoteFailureError (ctx : option error) e : error :=
  match ctx with
  | Some err => err
  | None =>
    match event.Result e with
    | PrimitiveFailureResult text => errors_New text
    | _ => errors_New "remote request failed with an invalid result"
    end
  end.
Definition canceledError (ctx : option error) : error :=
  match ctx with Some err => err | None => sentinel_error ErrCanceled end.

(** The part after the switch on the type of the event that ends the attempt:
    [transport] is its transport error and whether the event is a failure. *)
Definition conclude (statuses : list Z) (ctx : option error) (transport : option (error * bool)) p
  : responseAttempt :=
  let mk body err api retry := rattempt.Mk (progress.status p) (progress.headers p) body err api retry in
  let raw := RawBody (progress.body p) in
  let classified body err api := mk body err api (retryableResponseError api statuses) in
  let st := progress.state p in
  match progress.parseErr p with
  | Some err => mk raw (Some err) None false
  | None =>
    if rstate.terminal st then
      match unwrap st with
      | inl err => mk nil_body (Some err) None false
      | inr j => classified (JsonBody j) None (rstate.failure st)
      end
    else match ctx with
    | Some err => mk raw (Some (ContextError err)) None false
    | None =>
      match rstate.err st with
      | Some err => classified raw (Some (Api err)) (Some err)
      | None =>
        if negb (progress.status p =? 0) && negb (progress.streaming p) then
          classified raw None (Some (providerError (progress.status p) (value_of_text (progress.body p))
                                       (to_string (progress.body p))))
        else match transport with
        | Some (err, failed) => mk raw (Some (Transport err)) None failed
        | None =>
          match unwrap st with
          | inl err => mk nil_body (Some err) None (is_UnexpectedEOF err)
          | inr j => mk (JsonBody j) None None false
          end
        end
      end
    end
  end.

(** The loop over the events: none while it waits for an event.  A result of
    another type than its event calls for panics. *)
Fixpoint exchangeAttempt (statuses : list Z) (ctx : option error) (events : list (PrimitiveEvent V)) p
  : option (result responseAttempt) :=
  match events with
  | [] => None
  | e :: events =>
    let type := event.Type_ e in
    if bool_decide (type = PrimitiveEventRemoteResponseStarted) then
      match event.Result e with
      | RemoteResponseStartedResult _ status headers =>
        exchangeAttempt statuses ctx events (on_started status headers p)
      | _ => Some (Panic "interface conversion")
      end
    else if bool_decide (type = PrimitiveEventRemoteOutput) then
      if bool_decide (is_Some (progress.parseErr p)) || rstate.terminal (progress.state p)
         || bool_decide (is_Some (rstate.err (progress.state p))) then exchangeAttempt statuses ctx events p
      else match event.Result e with
      | RemoteOutputResult _ _ data => exchangeAttempt statuses ctx events (on_output data p)
      | _ => Some (Panic "interface conversion")
      end
    else if bool_decide (type = PrimitiveEventRemoteCompleted) then
      Some (Ok (conclude statuses ctx None p))
    else if bool_decide (type = PrimitiveEventFailed) then
      Some (Ok (conclude statuses ctx (Some (remoteFailureError ctx e, true)) p))
    else if bool_decide (type = PrimitiveEventCanceled) then
      Some (Ok (conclude statuses ctx (Some (canceledError ctx, false)) p))
    else exchangeAttempt statuses ctx events p
  end.
End Attempt.
