(* ===== verification/ResponsesExchange.v ===== *)
(** * ResponsesExchange: an exchange and its retries

    The rest of stream.go and adapter.go of harness/llm/responsesapi: the
    remote request of an attempt, and the loop that tries again.  The channel
    on which an attempt receives its events is the list of events that the
    goroutine of [Remote] sends; the timer between two attempts is the one of
    [Primitives]. *)

From Stdlib Require Import Ascii ZArith Lia.
From S2P Require Import Prelude GoStrings GoText GoHttp Json JsonCodec Primitives.
From S2P Require Import RemoteSSE Remote ResponsesRetry ResponsesStream.

Local Open Scope Z_scope.

Definition remoteSource : SourceID := "llm.responsesapi".

Module placement.
Record CacheKeyPlacement : Set := Mk { Header : string; UsePromptCacheKeyField : bool }.
End placement.
Abbreviation CacheKeyPlacement := placement.CacheKeyPlacement.

(** [MaxAttempts] is a pointer; [Trace], a callback that only reads, is left
    out. *)
Module config.
Record Config : Type := Mk {
  Endpoint : string; Headers : Header; Placement : CacheKeyPlacement; MaxAttempts : option Z;
  Extensions : list (string * value) }.
End config.
Abbreviation Config := config.Config.

Module adapter.
Record adapter : Type := Mk {
  endpoint : string; headers : Header; cacheKeyPlacement : CacheKeyPlacement; maxAttempts : Z;
  extensions : list (string * value) }.
End adapter.
Abbreviation adapter := adapter.adapter.

Definition DefaultMaxAttempts : Z := DefaultRemoteMaxAttempts.

Definition NewAdapter (remote_set : bool) (c : Config) : error + adapter :=
  if negb remote_set then inl (errors_New "remote client must be set")
  else if bool_decide (TrimSpace (config.Endpoint c) = EmptyString) then
    inl (errors_New "responses API endpoint must be set")
  else
    let maxAttempts := default DefaultMaxAttempts (config.MaxAttempts c) in
    if maxAttempts <=? 0 then inl (errors_New "max attempts must be positive")
    else inr (adapter.Mk (config.Endpoint c) (config.Headers c) (config.Placement c) maxAttempts
                (config.Extensions c)).

Definition modelResponseIdleTimeout : Z := 30 * 60 * Second.
Definition maxSSEFrameBytes : Z := 256 * 2 ^ 20.

(** The headers of a request, as a map. *)
Definition request_headers (a : adapter) (cacheKey : string) : Header :=
  let name := placement.Header (adapter.cacheKeyPlacement a) in
  let base := <["Accept"%string := ["text/event-stream"%string]]>
                (filter (λ h, EqualFold h.1 "Accept" = false) (adapter.headers a)) in
  if negb (bool_decide (name = EmptyString)) && negb (bool_decide (cacheKey = EmptyString))
  then <[name := [cacheKey]]> base else base.

Definition with_attempts (n : Z) (p : RemoteRetryPolicy) : RemoteRetryPolicy :=
  policy.Mk n (policy.InitialBackoff p) (policy.MaxBackoff p) (policy.RetryableStatusCodes p).

Definition remoteRequest (a : adapter) (body : bytes) (cacheKey : string) (correlationID : CorrelationID)
  : RemoteRequest :=
  remote.Mk remoteSource correlationID MethodPost (adapter.endpoint a)
    (map_to_list (request_headers a cacheKey)) body modelResponseIdleTimeout
    (Some (sse.Mk maxSSEFrameBytes SSEFrameDelimiterStrip)) (with_attempts 1 default_policy).

(** The environment of an exchange, by the number of the attempt: the identity
    of its request, the network, the context at the start of the attempt, at
    its last event, before the backoff and after the timer, the clock, the
    jitter, and the timer's run. *)
Record exchange_env : Type := ExchangeEnv {
  correlation_of : Z → CorrelationID;
  network : Z → remote_env;
  ctx_start : Z → option error;
  ctx_last : Z → option error;
  ctx_backoff : Z → option error;
  ctx_timer : Z → option error;
  clock : Z → Z;
  jitter_of : Z → Z;
  timer_canceled : Z → bool;
  timer_run : Z → list timer_input;
}.

(** The status, the body and the error that [exchange] returns. *)
Definition exchange_result : Type := Z * exchange_body * option response_error.

Definition Add_suffix (c : CorrelationID) : CorrelationID := c +:+ ":backoff".

Section Exchange.
Context {V : Type}.
Context (NewRequest : string → string → remote_error + (string * string)).
Context (ParseMediaType : string → option string) (ParseTime : string → option Z).
Context (env : exchange_env) (a : adapter) (body : bytes) (cacheKey : string).

Definition request_of (attempt : Z) : RemoteRequest :=
  remoteRequest a body cacheKey (correlation_of env attempt).

(** The attempt: the events of the remote request, one after the other. *)
Definition attempt_result (attempt : Z) : option (result responseAttempt) :=
  exchangeAttempt (policy.RetryableStatusCodes (remote.RetryPolicy (request_of attempt)))
    (ctx_last env attempt)
    (remoteEvents (V := V) NewRequest ParseMediaType (network env attempt) (request_of attempt))
    no_progress.

Definition retry_delay (attempt : Z) (r : responseAttempt) : Z :=
  responseRetryDelay ParseTime (remote.RetryPolicy (request_of attempt)) attempt (rattempt.apiError r)
    (rattempt.headers r) (clock env attempt) (jitter_of env attempt).

(** The first event of the timer that is scheduled for a delay. *)
Definition timer_event (attempt delay : Z) : option (PrimitiveEvent V) :=
  head (runTimer (timer_canceled env attempt)
          (timer.Mk remoteSource (Add_suffix (correlation_of env attempt)) (clock env attempt + delay))
          (timer_run env attempt)).

(** The switch on the timer's event: none when the loop goes on. *)
Definition timer_error (attempt : Z) (e : PrimitiveEvent V) : option response_error :=
  let type := event.Type_ e in
  if bool_decide (type = PrimitiveEventTimerFired) then None
  else if bool_decide (type = PrimitiveEventCanceled) then
    Some (ContextError (canceledError (ctx_timer env attempt)))
  else if bool_decide (type = PrimitiveEventFailed) then
    Some (Transport (remoteFailureError (ctx_timer env attempt) e))
  else Some (UnexpectedTimer type).

(** The loop from [attempt] on, with the delays that have been scheduled.
    [rounds] bounds the attempts: the test of [maxAttempts] ends the loop
    before they run out ([exchangeLoop_returns]).  None while the loop waits
    for an event. *)
Fixpoint exchangeLoop (rounds : nat) (attempt : Z) (delays : list Z)
  : list Z * option (result exchange_result) :=
  match rounds with
  | O => (delays, None)
  | S rounds =>
    match ctx_start env attempt with
    | Some err => (delays, Some (Ok (0, nil_body, Some (ContextError err))))
    | None =>
      match attempt_result attempt with
      | None => (delays, None)
      | Some (Panic t) => (delays, Some (Panic t))
      | Some (Err e) => (delays, Some (Err e))
      | Some (Ok r) =>
        if negb (rattempt.retry r) || (adapter.maxAttempts a <=? attempt) then
          (delays, Some (Ok (rattempt.status r, rattempt.body r, rattempt.err r)))
        else match ctx_backoff env attempt with
        | Some err => (delays, Some (Ok (rattempt.status r, nil_body, Some (ContextError err))))
        | None =>
          let delay := retry_delay attempt r in
          let delays := delays ++ [delay] in
          match timer_event attempt delay with
          | None => (delays, None)
          | Some e =>
            match timer_error attempt e with
            | None => exchangeLoop rounds (attempt + 1) delays
            | Some err => (delays, Some (Ok (rattempt.status r, nil_body, Some err)))
            end
          end
        end
      end
    end
  end.

Definition exchange : list Z * option (result exchange_result) :=
  exchangeLoop (Z.to_nat (adapter.maxAttempts a)) 1 [].
End Exchange.
