(* ===== verification/ResponsesFacts.v ===== *)
(** * ResponsesFacts: exchanges end, retry only what may pass, and return what
      the stream carried

    The composition of [Remote], [RemoteSSE] and [ResponsesExchange]: from the
    network's answers to what [exchange] returns. *)

From Stdlib Require Import Ascii ZArith Lia.
From S2P Require Import Prelude GoStrings GoText GoHttp Json JsonCodec Primitives.
From S2P Require Import RemoteSSE SSEFacts Remote RemoteFacts ResponsesRetry ResponsesStream ResponsesExchange.

Local Open Scope Z_scope.

Section Facts.
Context {V : Type}.
Context (NewRequest : string → string → remote_error + (string * string)).
Context (ParseMediaType : string → option string) (ParseTime : string → option Z).

(** ** The events of a remote request *)

(** The results that the events' types call for. *)
Definition event_ok (e : PrimitiveEvent V) : bool :=
  if bool_decide (event.Type_ e = PrimitiveEventRemoteResponseStarted) then
    match event.Result e with RemoteResponseStartedResult _ _ _ => true | _ => false end
  else if bool_decide (event.Type_ e = PrimitiveEventRemoteOutput) then
    match event.Result e with RemoteOutputResult _ _ _ => true | _ => false end
  else true.
Definition action_ok (x : action V) : bool := match x with Sent e => event_ok e | _ => true end.

Lemma outputs_ok request k outs : forallb action_ok (outputs_trace (V := V) request k outs) = true.
Proof. by induction outs. Qed.

Lemma attempted_ok request k base a body :
  attempted (V := V) ParseMediaType request k base a body → forallb action_ok body = true.
Proof.
  intros [err E|err c E|r E|r outs E Hp]; [done..|]. cbn. by rewrite forallb_app, outputs_ok.
Qed.

Lemma notices_ok request k notes : Forall (notice (V := V) request k) notes → forallb action_ok notes = true.
Proof. intros H. induction H as [|x notes (e & [->| ->]) H IH]; cbn; [done|exact IH..]. Qed.

Lemma whole_ok env request k base :
  forallb action_ok (whole_attempt (V := V) ParseMediaType request k base (attempt_of env k)) = true.
Proof.
  unfold whole_attempt. rewrite forallb_app, (attempted_ok request k base (attempt_of env k))
    by apply do_trace_attempted.
  destruct (attempt_error _ _ _); [|done]. by destruct (stream_failed _ _ _).
Qed.

Lemma runs_ok env request base k tr : runs (V := V) ParseMediaType env request base k tr → forallb action_ok tr = true.
Proof.
  induction 1 as [k e Hk He|k tr Hk Hc (body & notes & Hb & Hn & ->)|k e tr Hk He Hr IH].
  - rewrite forallb_app, whole_ok. destruct (judge _ _ _ _); by simplify_eq/=.
  - rewrite !forallb_app, (attempted_ok _ _ _ _ _ Hb), (notices_ok _ _ _ Hn). done.
  - rewrite forallb_app, whole_ok. exact IH.
Qed.

(** The events of a request end with the only terminal one, and each has the
    result that its type calls for. *)
Lemma remoteEvents_shape env request :
  ∃ pre e, remoteEvents (V := V) NewRequest ParseMediaType env request = pre ++ [e] ∧
    terminal e = true ∧ forallb (λ e, negb (terminal e) && event_ok e) pre = true.
Proof.
  unfold remoteEvents.
  destruct (prepareRemoteRequest NewRequest request) as [err|base] eqn:Hp.
  { exists [], (remoteFailure request err). split; [|done].
    unfold remoteTrace, runRemoteRequest. by rewrite Hp. }
  destruct (canceled_at env 0) eqn:Hc.
  { exists [], (remoteCanceled request). split; [|done].
    unfold remoteTrace, runRemoteRequest. rewrite Hp. unfold mbind, M_bind, ctx_Err. cbn. by rewrite Hc. }
  pose proof (remoteTrace_runs (V := V) NewRequest ParseMediaType env request base Hp Hc) as Hr.
  destruct (runs_shape _ _ _ _ _ _ Hr) as (n & pre & e & _ & E & Ht & Hq & _).
  apply runs_ok in Hr. rewrite E, forallb_app in Hr. apply andb_prop in Hr as [Hok _].
  exists (omap sent pre), e. rewrite E, omap_app. split; [done|]. split; [done|].
  clear -Hq Hok. induction pre as [|x pre IH]; [done|]. cbn in *.
  apply andb_prop in Hq as [Hx Hq], Hok as [Hxo Hok]. destruct x as [| | |]; cbn in *; auto.
  by rewrite Hx, Hxo, IH.
Qed.

(** ** An attempt ends *)

Lemma exchangeAttempt_returns statuses ctx pre (e : PrimitiveEvent V) p :
  terminal e = true → forallb (λ e, negb (terminal e) && event_ok e) pre = true →
  ∃ r, exchangeAttempt statuses ctx (pre ++ [e]) p = Some (Ok r).
Proof.
  intros Ht. revert p. induction pre as [|x pre IH]; intros p Hpre; cbn [app exchangeAttempt].
  - unfold terminal in Ht. apply bool_decide_eq_true in Ht.
    rewrite !elem_of_cons in Ht.
    destruct Ht as [Ht|[Ht|[Ht|Ht%elem_of_nil]]]; [..|done]; rewrite Ht; by eexists.
  - cbn in Hpre. apply andb_prop in Hpre as [Hx Hpre]. apply andb_prop in Hx as [Hxt Hxo].
    unfold event_ok in Hxo.
    case_bool_decide as H1; [destruct (event.Result x); done || by apply IH|].
    case_bool_decide as H2.
    { destruct (bool_decide (is_Some (progress.parseErr p)) || _ || _); [by apply IH|].
      destruct (event.Result x); done || by apply IH. }
    case_bool_decide; [by eexists|]. case_bool_decide; [by eexists|]. case_bool_decide; [by eexists|].
    by apply IH.
Qed.

(** ** The loop of an exchange *)

Section Exchange.
Context (env : exchange_env) (a : adapter) (body : bytes) (cacheKey : string).

Abbreviation result_of := (attempt_result (V := V) NewRequest ParseMediaType env a body cacheKey).
Abbreviation delay_of := (retry_delay ParseTime env a body cacheKey).
Abbreviation timer_of := (timer_event (V := V) env).

Lemma attempt_returns k : ∃ r, result_of k = Some (Ok r).
Proof.
  unfold attempt_result.
  destruct (remoteEvents_shape (network env k) (request_of env a body cacheKey k)) as (pre & e & -> & Ht & Hpre).
  by apply exchangeAttempt_returns.
Qed.

Lemma timerLoop_types request inputs (e : PrimitiveEvent V) :
  head (timerLoop request inputs) = Some e →
  event.Type_ e = PrimitiveEventTimerFired ∨ event.Type_ e = PrimitiveEventCanceled.
Proof.
  induction inputs as [|[now|] inputs IH]; cbn; [done| |].
  - destruct (negb _); [intros [= <-]; by left|apply IH].
  - intros [= <-]. by right.
Qed.

(** The timer was canceled or failed, and the error says which. *)
Definition timer_broke (k : Z) (e : PrimitiveEvent V) (err : response_error) : Prop :=
  event.Type_ e = PrimitiveEventCanceled ∧ err = ContextError (canceledError (ctx_timer env k)) ∨
  event.Type_ e = PrimitiveEventFailed ∧ err = Transport (remoteFailureError (ctx_timer env k) e).

Lemma timer_outcome k d e :
  timer_of k d = Some e →
  timer_error env k e = None ∨ ∃ err, timer_error env k e = Some err ∧ timer_broke k e err.
Proof.
  unfold timer_event, runTimer. intros H.
  assert (event.Type_ e = PrimitiveEventTimerFired ∨ event.Type_ e = PrimitiveEventCanceled
          ∨ event.Type_ e = PrimitiveEventFailed) as Ht.
  { destruct (validateTimerRequest _); [cbn in H; injection H as <-; auto|].
    destruct (timer_canceled env k); [cbn in H; injection H as <-; auto|].
    apply timerLoop_types in H as [?|?]; auto. }
  unfold timer_error, timer_broke. destruct Ht as [-> |[-> | ->]]; cbn; [by left|right; eauto..].
Qed.

(** What each delay that was scheduled follows. *)
Definition delays_ok (delays : list Z) : Prop :=
  ∀ i d, delays !! i = Some d →
    ∃ r, result_of (Z.of_nat i + 1) = Some (Ok r) ∧ rattempt.retry r = true ∧
         d = delay_of (Z.of_nat i + 1) r ∧ 0 ≤ d ≤ 60 * Second.

(** What an exchange returns after [delays], and why: the result of its last
    attempt; the error of the context, which ended before that attempt or
    before its backoff; or that of the timer of the last delay. *)
Inductive ended (delays : list Z) : exchange_result → Prop :=
  | ended_attempt r :
      ctx_start env (len delays + 1) = None → result_of (len delays + 1) = Some (Ok r) →
      rattempt.retry r = false ∨ len delays + 1 = adapter.maxAttempts a →
      ended delays (rattempt.status r, rattempt.body r, rattempt.err r)
  | ended_start e :
      ctx_start env (len delays + 1) = Some e → ended delays (0, nil_body, Some (ContextError e))
  | ended_backoff r e :
      result_of (len delays + 1) = Some (Ok r) → rattempt.retry r = true →
      ctx_backoff env (len delays + 1) = Some e →
      ended delays (rattempt.status r, nil_body, Some (ContextError e))
  | ended_timer r e err :
      result_of (len delays) = Some (Ok r) → timer_of (len delays) (delay_of (len delays) r) = Some e →
      timer_broke (len delays) e err → ended delays (rattempt.status r, nil_body, Some err).

Definition outcome_ok (delays : list Z) (out : option (result exchange_result)) : Prop :=
  match out with
  | None => ∃ r, result_of (len delays) = Some (Ok r) ∧ timer_of (len delays) (delay_of (len delays) r) = None
  | Some (Ok res) => ended delays res
  | _ => False
  end.

Hypothesis jitter_ok : ∀ k, 0 ≤ jitter_of env k < 2 ^ 53.

Lemma delay_bounds k r : 1 ≤ k → 0 ≤ delay_of k r ≤ 60 * Second.
Proof.
  intros Hk. unfold retry_delay.
  destruct (responseRetryDelay_bounds ParseTime (remote.RetryPolicy (request_of env a body cacheKey k)) k
    (rattempt.apiError r) (rattempt.headers r) (clock env k) (jitter_of env k)) as (_ & _ & H).
  - split; vm_compute; split; congruence.
  - vm_compute. congruence.
  - done.
  - apply jitter_ok.
  - change (policy.MaxBackoff (remote.RetryPolicy (request_of env a body cacheKey k))) with (30 * Second) in H.
    unfold Second in *. lia.
Qed.

Lemma exchangeLoop_spec rounds k delays :
  1 ≤ k → k - 1 = len delays → Z.of_nat rounds = adapter.maxAttempts a - k + 1 → k ≤ adapter.maxAttempts a →
  delays_ok delays →
  let '(delays', out) := exchangeLoop (V := V) NewRequest ParseMediaType ParseTime env a body cacheKey rounds k delays in
  len delays' < adapter.maxAttempts a ∧ delays_ok delays' ∧ outcome_ok delays' out.
Proof.
  revert k delays. induction rounds as [|rounds IH]; intros k delays Hk Hlen Hr Hmax Hd; [lia|].
  cbn [exchangeLoop].
  assert (Hkd : len delays + 1 = k) by lia.
  destruct (ctx_start env k) as [err|] eqn:Estart.
  { split; [lia|]. split; [done|]. apply ended_start. by rewrite Hkd. }
  destruct (attempt_returns k) as [r Er]. rewrite Er.
  destruct (negb (rattempt.retry r) || (adapter.maxAttempts a <=? k)) eqn:Estop.
  { split; [lia|]. split; [done|]. apply ended_attempt; rewrite ?Hkd; [done|done|].
    apply orb_true_iff in Estop as [E|E]; [left; by destruct (rattempt.retry r)|right; lia]. }
  apply orb_false_elim in Estop as [Eretry Elast].
  destruct (ctx_backoff env k) as [err|] eqn:Eback.
  { split; [lia|]. split; [done|]. apply ended_backoff; rewrite ?Hkd; [done| |done]. by destruct (rattempt.retry r). }
  assert (Hlen' : len (delays ++ [delay_of k r]) = k) by (rewrite len_app; change (len [delay_of k r]) with 1; lia).
  assert (Hd' : delays_ok (delays ++ [delay_of k r])).
  { intros i d Hi. apply lookup_app_Some in Hi as [Hi|[Hle Hi]]; [by apply Hd|].
    apply list_lookup_singleton_Some in Hi as [Hi <-].
    assert (Z.of_nat i + 1 = k) as -> by (unfold len in *; lia). exists r.
    split; [done|]. split; [by destruct (rattempt.retry r)|]. split; [done|]. by apply delay_bounds. }
  destruct (timer_of k (delay_of k r)) as [e|] eqn:Et.
  - destruct (timer_outcome k _ e Et) as [->|(err & -> & Hbroke)].
    + apply IH; [lia|lia|lia|lia|done].
    + split; [lia|]. split; [done|]. by apply (ended_timer _ r e); rewrite Hlen'.
  - split; [lia|]. split; [done|]. exists r. by rewrite Hlen'.
Qed.

(** C23: Whatever the network does, an exchange makes at most MaxAttempts
    attempts, never panics, and waits for nothing but its timers; it tries
    again only after an attempt whose failure may pass, after the delay that
    failure calls for, at most a minute.  What it returns is the result of its
    last attempt, which completed, failed for good or was the last one allowed;
    or, when the context has ended before an attempt or a backoff, that error of the
    context; or, when the timer of its last delay was canceled or failed, the
    error of that timer. *)
Theorem exchange_retries :
  1 ≤ adapter.maxAttempts a →
  let '(delays, out) := exchange (V := V) NewRequest ParseMediaType ParseTime env a body cacheKey in
  len delays < adapter.maxAttempts a ∧ delays_ok delays ∧ outcome_ok delays out.
Proof.
  intros Hmax. unfold exchange. apply exchangeLoop_spec; [lia|done|lia|lia|].
  intros i d Hi. by rewrite lookup_nil in Hi.
Qed.
End Exchange.

(** ** A streamed answer *)

(** The response to the first attempt of [request] is a stream of the messages
    [ms], complete but for what follows them, and nothing interrupts it. *)
Record served (net : remote_env) (request : RemoteRequest) (r : http_response) (ms : list sse_message) : Prop := {
  served_accepted : ∃ base, prepareRemoteRequest NewRequest request = inr base;
  served_context : cancel_at net = None;
  served_answer : attempt_of net 1 = AttemptEnv (DoResponse r) false;
  served_success : success (StatusCode r) = true;
  served_stream : framesSSE ParseMediaType request r = true;
  served_end : Is_ (read_err r) target_EOF = true;
  served_messages : Forall (message_ok maxSSEFrameBytes) ms;
  served_body : ∃ tail, text tail ∧ len tail ≤ maxSSEFrameBytes ∧
    concat (reads r ++ [last_read r]) = concat (encode_event ∘ message_event <$> ms) ++ tail;
}.

Definition output_event (request : RemoteRequest) (fr : remoteOutputFrame) : PrimitiveEvent V :=
  remoteEvent request PrimitiveEventRemoteOutput (RemoteOutputResult 1 (frame.offset fr) (frame.data fr)).

Lemma outputs_sent request outs :
  omap sent (outputs_trace (V := V) request 1 outs) = output_event request <$> outs.
Proof.
  induction outs as [|fr outs IH]; [done|].
  change (output_event request fr :: omap sent (outputs_trace (V := V) request 1 outs)
          = output_event request fr :: (output_event request <$> outs)). by rewrite IH.
Qed.

Lemma served_events net request r ms :
  policy.MaxAttempts (remote.RetryPolicy request) = 1 →
  remote.SSE request = Some (sse.Mk maxSSEFrameBytes SSEFrameDelimiterStrip) →
  served net request r ms →
  remoteEvents NewRequest ParseMediaType net request =
    responseStarted request 1 r
    :: (output_event request <$> frames_from 0 (event_text ∘ message_event <$> ms))
    ++ [remoteEvent request PrimitiveEventRemoteCompleted (RemoteCompletedResult 1)].
Proof.
  intros H1 Ho [[base Hp] Hc Ha Hs Hf He Hm (tail & Ht & Htl & Hb)].
  destruct (remoteTrace_outcome (V := V) NewRequest ParseMediaType net request base Hp Hc)
    as (n & e & Hn & _ & Hfin & E).
  assert (n = 1) as -> by lia. unfold remoteEvents. rewrite E. cbn [Z.sub Z.pos_sub seqZ fmap list_fmap concat].
  assert (Hframes : response_frames ParseMediaType request r
    = (frames_from 0 (event_text ∘ message_event <$> ms), None)).
  { unfold response_frames, newReader. rewrite Ho, Hf. cbn [reader_frames sse.MaxFrameSize sse.FrameDelimiter].
    apply (frameBody_messages maxSSEFrameBytes ms [] tail); [done|constructor|done|exact Htl|exact Hb]. }
  assert (Herr : attempt_error ParseMediaType request (attempt_of net 1) = None).
  { unfold attempt_error, do_error, stream_error. rewrite Ha.
    cbn [idle_expired Do]. rewrite Hframes. unfold reads_error. cbn [snd]. by rewrite He. }
  assert (Hj : judge ParseMediaType request 1 (attempt_of net 1) = Completes).
  { unfold judge, retryReason. rewrite Herr, Ha, H1. cbn. by rewrite orb_true_r. }
  rewrite Hj in Hfin. injection Hfin as <-.
  unfold whole_attempt. rewrite Herr, app_nil_r. unfold do_trace. rewrite Ha. cbn [Do app].
  unfold streamed. rewrite Hframes. cbn [fst].
  set (outs := frames_from 0 _).
  change (omap sent ([Requested 1 base; Sent (responseStarted request 1 r)]
            ++ (outputs_trace request 1 outs ++ [Closed 1])
            ++ [Sent (remoteEvent request PrimitiveEventRemoteCompleted (RemoteCompletedResult 1))])
          = responseStarted request 1 r :: (output_event request <$> outs)
            ++ [remoteEvent request PrimitiveEventRemoteCompleted (RemoteCompletedResult 1)]).
  rewrite !omap_app, outputs_sent. cbn. by rewrite app_nil_r.
Qed.

Definition payload (m : sse_message) : bytes :=
  to_bytes (TrimSpace (to_string (default [] (message_data m)))).

(** The event of a message's data. *)
Definition decoded (m : sse_message) : option stream_event :=
  decode_with dec_event (value_of_text (payload m)).

Definition skipped (m : sse_message) : bool := bool_decide (payload m = []) || bool_decide (payload m = DONE).

(** A message that does not end the stream. *)
Definition passing (m : sse_message) : Prop :=
  skipped m = true ∨
  ∃ ev, decoded m = Some ev ∧ (sevent.Type' ev ∉ terminal_types) ∧ sevent.Type' ev ≠ "error"%string.

(** The output item that a message carries, with its index. *)
Definition item_of (m : sse_message) : option (Z * json) :=
  if skipped m then None
  else
    ev ← decoded m;
    if bool_decide (sevent.Type' ev = "response.output_item.done"%string) then
      i ← sevent.OutputIndex ev; o ← value_object (sevent.Item ev);
      if i <? 0 then None else Some (i, JObj o)
    else None.

Definition add_item (items : gmap Z json) (m : sse_message) : gmap Z json :=
  match item_of m with Some (i, j) => <[i := j]> items | None => items end.
Definition items_of (ms : list sse_message) : gmap Z json := foldl add_item ∅ ms.

(** The response that is returned: the terminal event's own, with the items of
    the stream in the order of their indices when it has no output. *)
Definition answer (o : list (string * json)) (items : gmap Z json) : option json :=
  if bool_decide (items = ∅) then Some (JObj o)
  else match assoc "output" o with
  | None | Some JNull | Some (JArr []) =>
    Some (JObj (sorted_members (("output"%string, JArr (sorted_items items))
                                :: filter (λ m, m.1 ≠ "output"%string) o)))
  | Some (JArr _) => Some (JObj o)
  | Some _ => None
  end.

Lemma unwrap_answer o items j :
  answer o items = Some j → unwrap (rstate.Mk true (VText (JObj o)) items None None) = inr j.
Proof.
  unfold answer, unwrap. cbn. intros H. case_bool_decide; [by simplify_eq|].
  destruct (assoc "output" o) as [[| | | | |[|]|]|]; by simplify_eq.
Qed.

Lemma exchangeAttempt_outputs statuses ctx request outs rest p :
  exchangeAttempt statuses ctx ((output_event request <$> outs) ++ rest) p =
  exchangeAttempt (V := V) statuses ctx rest (foldl (λ p fr, on_output (frame.data fr) p) p outs).
Proof.
  revert p. induction outs as [|fr outs IH]; intros p; [done|]. cbn [fmap list_fmap app foldl].
  rewrite <- IH. cbn [exchangeAttempt output_event remoteEvent event.Type_ event.Result].
  rewrite bool_decide_false by done. rewrite bool_decide_true by done.
  destruct (bool_decide (is_Some (progress.parseErr p)) || _ || _) eqn:E; [|done].
  unfold on_output. by rewrite E.
Qed.

Lemma foldl_frames p off texts :
  foldl (λ p fr, on_output (frame.data fr) p) p (frames_from off texts) = foldl (λ p d, on_output d p) p texts.
Proof. revert p off. induction texts as [|t texts IH]; intros p off; cbn; [done|apply IH]. Qed.

Definition streaming_progress (r : http_response) (st : responseState) : progress :=
  progress.Mk (StatusCode r) (ResponseHeader r) [] st true None.
Definition collecting (items : gmap Z json) : responseState := rstate.Mk false VNil items None None.

Lemma payload_of_message maximum m :
  message_ok maximum m → payload_of (event_text (message_event m)) = payload m.
Proof. intros Hm. unfold payload_of, payload. by rewrite (SSEData_message maximum m Hm). Qed.

Lemma on_passing r items m maximum :
  message_ok maximum m → passing m →
  on_output (event_text (message_event m)) (streaming_progress r (collecting items)) =
  streaming_progress r (collecting (add_item items m)).
Proof.
  intros Hm Hp. unfold on_output. cbn [streaming_progress progress.parseErr progress.state progress.streaming
    collecting rstate.terminal rstate.err].
  rewrite !bool_decide_false by (by intros [? ?]). cbn [orb]. rewrite (payload_of_message maximum) by done.
  unfold add_item, item_of. fold (skipped m). destruct Hp as [Hs|(ev & Hd & Ht & He)]; [by rewrite Hs|].
  destruct (skipped m) eqn:Hs; [done|]. rewrite Hd. cbn [mbind option_bind]. unfold decoded in Hd.
  unfold observe. cbn [rstate.terminal rstate.err orb]. rewrite bool_decide_false by (by intros [? ?]). rewrite Hd.
  unfold observe_event, observe_terminal, observe_item. rewrite (bool_decide_false (_ ∈ terminal_types)) by done.
  case_bool_decide as Hi; [|by rewrite bool_decide_false by done].
  destruct (sevent.OutputIndex ev) as [i|]; [|done]. cbn.
  destruct (value_object (sevent.Item ev)) as [o|]; [|done]. cbn. by destruct (i <? 0).
Qed.

Lemma on_all_passing r ms maximum : ∀ items,
  Forall (message_ok maximum) ms → Forall passing ms →
  foldl (λ p d, on_output d p) (streaming_progress r (collecting items)) (event_text ∘ message_event <$> ms) =
  streaming_progress r (collecting (foldl add_item items ms)).
Proof.
  induction ms as [|m ms IH]; intros items Hm Hp; [done|]. cbn [fmap list_fmap foldl].
  inversion Hm; inversion Hp; subst. cbn [compose]. rewrite (on_passing _ _ _ maximum) by done. by apply IH.
Qed.

Lemma on_final r items m ev o maximum :
  message_ok maximum m → skipped m = false → decoded m = Some ev →
  sevent.Type' ev ∈ ["response.completed"%string; "response.incomplete"%string] →
  sevent.Response ev = VText (JObj o) →
  on_output (event_text (message_event m)) (streaming_progress r (collecting items)) =
  streaming_progress r (rstate.Mk true (VText (JObj o)) items None None).
Proof.
  intros Hm Hs Hd Ht Hr. unfold on_output. cbn [streaming_progress progress.parseErr progress.state progress.streaming
    collecting rstate.terminal rstate.err].
  rewrite !bool_decide_false by (by intros [? ?]). cbn [orb]. rewrite (payload_of_message maximum) by done.
  fold (skipped m). rewrite Hs. unfold decoded in Hd.
  unfold observe. cbn [rstate.terminal rstate.err orb]. rewrite bool_decide_false by (by intros [? ?]). rewrite Hd.
  rewrite !elem_of_cons in Ht.
  destruct Ht as [Ht|[Ht|Ht%elem_of_nil]]; [..|done]; unfold observe_event, observe_terminal;
    rewrite Ht, Hr; done.
Qed.

Lemma on_ignored r o items texts :
  foldl (λ p d, on_output d p) (streaming_progress r (rstate.Mk true o items None None)) texts =
  streaming_progress r (rstate.Mk true o items None None).
Proof. induction texts as [|t texts IH]; [done|]. cbn [foldl]. rewrite <- IH at 2. done. Qed.

(** C22: From the wire to the answer: when the provider streams events, in
    whatever chunks the network delivers them, of which none before [final]
    ends the response and [final] completes it, then [exchange] returns after
    one attempt, with the status and the response of that event; if that
    response has no output, its output is the items that the events carried,
    the last one for each index, in the order of their indices. *)
Theorem streamed_answer env a body cacheKey r before final after ev o j :
  served (network env 1) (request_of env a body cacheKey 1) r (before ++ final :: after) →
  Forall passing before →
  skipped final = false → decoded final = Some ev →
  sevent.Type' ev ∈ ["response.completed"%string; "response.incomplete"%string] →
  sevent.Response ev = VText (JObj o) → answer o (items_of before) = Some j →
  ctx_start env 1 = None → 1 ≤ adapter.maxAttempts a →
  exchange (V := V) NewRequest ParseMediaType ParseTime env a body cacheKey =
    ([], Some (Ok (StatusCode r, JsonBody j, None))).
Proof.
  intros Hs Hbefore Hskip Hd Ht Hr Hans Hctx Hmax.
  assert (Hres : attempt_result (V := V) NewRequest ParseMediaType env a body cacheKey 1 =
    Some (Ok (rattempt.Mk (StatusCode r) (ResponseHeader r) (JsonBody j) None None false))).
  { pose proof (served_messages _ _ _ _ Hs) as Hm. apply Forall_app in Hm as [Hmb Hmf].
    inversion Hmf as [|? ? Hmfinal _]; subst.
    unfold attempt_result. rewrite (served_events _ (request_of env a body cacheKey 1) r _ eq_refl eq_refl Hs).
    cbn [exchangeAttempt responseStarted remoteEvent event.Type_ event.Result].
    rewrite bool_decide_true by done. rewrite exchangeAttempt_outputs, foldl_frames.
    assert (Hstart : on_started (StatusCode r) (ResponseHeader r) no_progress
                     = streaming_progress r (collecting ∅)).
    { unfold on_started, streaming_progress. by rewrite (served_success _ _ _ _ Hs). }
    rewrite Hstart, fmap_app, foldl_app, (on_all_passing r before maxSSEFrameBytes) by done.
    fold (items_of before). cbn [fmap list_fmap foldl compose].
    rewrite (on_final r _ final ev o maxSSEFrameBytes), on_ignored by done.
    cbn [exchangeAttempt remoteEvent event.Type_].
    rewrite !bool_decide_false by done. rewrite bool_decide_true by done. unfold conclude.
    cbn [streaming_progress progress.parseErr progress.state rstate.terminal].
    by rewrite (unwrap_answer _ _ _ Hans). }
  unfold exchange. destruct (Z.to_nat (adapter.maxAttempts a)) as [|rounds] eqn:E; [lia|].
  cbn [exchangeLoop]. rewrite Hctx, Hres. done.
Qed.
End Facts.

(** ** A sample

    A response of two chunks that carries an output item and then completes,
    without an output of its own. *)

Definition sample_item : json := JObj [("type"%string, JStr "message")].
Definition sample_item_event : json :=
  JObj [("type"%string, JStr "response.output_item.done"); ("output_index"%string, JInt 0);
        ("item"%string, sample_item)].
Definition sample_response_members : list (string * json) := [("id"%string, JStr "resp_1")].
Definition sample_completed_event : json :=
  JObj [("type"%string, JStr "response.completed"); ("response"%string, JObj sample_response_members)].

Definition data_message (j : json) : sse_message :=
  SSEMessage [] (SSEField (to_bytes "data") (print j) TLF) TLF.

Definition sample_messages : list sse_message := data_message <$> [sample_item_event; sample_completed_event].
Definition sample_stream : bytes := concat (encode_event ∘ message_event <$> sample_messages).
Definition sample_answer : http_response :=
  HttpResponse 200 {["Content-Type"%string := ["text/event-stream"%string]]}
    [take 31 sample_stream] (drop 31 sample_stream) EOF None.

Definition sample_adapter : adapter := adapter.Mk "https://api.example/responses" ∅ (placement.Mk EmptyString false) 3 [].

Definition sample_exchange (answer : attempt_env) : exchange_env :=
  ExchangeEnv (λ _, "call"%string) (λ _, RemoteEnv None ContextCanceled (λ _, true) (λ _, answer))
    (λ _, None) (λ _, None) (λ _, None) (λ _, None) (λ _, 1) (λ _, 0) (λ _, false) (λ _, [TimerC (2 ^ 62)]).

Lemma data_message_ok j :
  forallb (λ c, negb (line_end c)) (print j) = true →
  len (encode_event (message_event (data_message j))) ≤ maxSSEFrameBytes →
  message_ok maxSSEFrameBytes (data_message j).
Proof.
  intros Ht Hlen. split; [|split; [done|exact Hlen]].
  constructor; [|constructor]. split; [by repeat constructor|]. split.
  - cbn [field_value]. apply forallb_Forall in Ht. eapply Forall_impl; [exact Ht|].
    intros c Hc. cbv beta in Hc. by apply negb_true_iff in Hc.
  - split; [|by repeat constructor]. change (":"%char ∉ to_bytes "data").
    apply (bool_decide_unpack _). vm_compute. exact I.
Qed.

Lemma sample_served :
  served sample_newRequest sample_mediaType (network (sample_exchange (AttemptEnv (DoResponse sample_answer) false)) 1)
    (request_of (sample_exchange (AttemptEnv (DoResponse sample_answer) false)) sample_adapter [] EmptyString 1)
    sample_answer ([data_message sample_item_event] ++ data_message sample_completed_event :: []).
Proof.
  split.
  - eexists. vm_compute. reflexivity.
  - reflexivity.
  - reflexivity.
  - reflexivity.
  - vm_compute. reflexivity.
  - reflexivity.
  - constructor; [|constructor; [|constructor]]; apply data_message_ok; vm_compute; congruence.
  - exists []. split; [constructor|]. split; [vm_compute; congruence|]. vm_compute. reflexivity.
Qed.

Lemma streamed_answer_witness :
  exchange (V := unit) sample_newRequest sample_mediaType (λ _, None)
    (sample_exchange (AttemptEnv (DoResponse sample_answer) false)) sample_adapter [] EmptyString
  = ([], Some (Ok (200, JsonBody (JObj [("id"%string, JStr "resp_1"); ("output"%string, JArr [sample_item])]), None))).
Proof.
  refine (streamed_answer sample_newRequest sample_mediaType (λ _, None) _ sample_adapter [] EmptyString sample_answer
    [data_message sample_item_event] (data_message sample_completed_event) []
    (sevent.Mk "response.completed" (VText (JObj sample_response_members)) VNil None EmptyString EmptyString EmptyString None)
    sample_response_members _ sample_served _ _ _ _ _ _ _ _).
  - constructor; [|constructor]. right.
    exists (sevent.Mk "response.output_item.done" VNil (VText sample_item) (Some 0) EmptyString EmptyString EmptyString None).
    split; [vm_compute; reflexivity|]. split; [|done]. by apply (bool_decide_unpack _).
  - vm_compute. reflexivity.
  - vm_compute. reflexivity.
  - left.
  - reflexivity.
  - vm_compute. reflexivity.
  - reflexivity.
  - vm_compute. congruence.
Defined.

(** The provider is unavailable: three attempts, two delays. *)
Lemma exchange_retries_witness :
  let env := sample_exchange (AttemptEnv (DoResponse (HttpResponse 503 ∅ [] [] EOF None)) false) in
  let '(delays, out) := exchange (V := unit) sample_newRequest sample_mediaType (λ _, None) env sample_adapter [] EmptyString in
  delays = [2 * Second; 4 * Second] ∧ len delays < 3 ∧ out ≠ None.
Proof.
  intros env.
  pose proof (exchange_retries (V := unit) sample_newRequest sample_mediaType (λ _, None) env sample_adapter [] EmptyString
    ltac:(intros k; cbn; lia) ltac:(vm_compute; congruence)) as H.
  destruct (exchange _ _ _ _ _ _ _) as [delays out] eqn:E. destruct H as [Hlen _].
  vm_compute in E. injection E as <- <-. split; [reflexivity|]. split; [exact Hlen|discriminate].
Defined.
