(* ===== verification/RemoteJob.v ===== *)
(** * Remote jobs: operation/remote_job.go, remote_job_output.go and
      remote_job_handler.go

    A remote job is run by a handler outside the manager; the manager routes
    an operation to the one handler of its plan and checks every update that
    the handler sends. *)

From Stdlib Require Import Ascii ZArith Lia Sorting.Sorted.
From S2P Require Import Prelude GoStrings GoText GoTime Json JsonCodec Primitives Operation.
From S2P Require Import Output Handler.

Local Open Scope Z_scope.

Definition TypeRemoteJob : Type_ := "remote_job".
Definition VersionRemoteJob : Version := 2.

Module plan.
Record RemoteJobPlan : Type := Mk { Type' : string; Version' : Z; Data : value }.
End plan.
Abbreviation RemoteJobPlan := plan.RemoteJobPlan.

Module rstate.
Record RemoteJobState : Type := Mk {
  Plan : RemoteJobPlan; Handle : value; NextInspectionAt : Time; OutstandingInput : value;
  Subscription : value; TerminalResult : string; TerminalError : string;
  ResultBytes : Z; ResultTruncated : bool; ErrorBytes : Z; ErrorTruncated : bool }.
End rstate.
Abbreviation RemoteJobState := rstate.RemoteJobState.

#[export] Instance RemoteJobPlan_eq_dec : EqDecision RemoteJobPlan.
Proof. solve_decision. Defined.

(** ** Encoding *)

#[local] Unset Program Cases.

Program Definition RemoteJobPlan_codec : codec RemoteJobPlan := {|
  zero := plan.Mk EmptyString 0 VNil;
  enc p := enc_struct [field string_codec "Type" (plan.Type' p);
    field uint32_codec "Version" (plan.Version' p); field value_codec "Data" (plan.Data p)];
  dec := dec_struct (plan.Mk EmptyString 0 VNil) (λ o,
    a ← get string_codec "Type" o;
    b ← get uint32_codec "Version" o;
    c ← get value_codec "Data" o;
    Some (plan.Mk a b c));
  jok p := in_uint32 (plan.Version' p) = true ∧ plan.Data p ≠ VNil |}.
Next Obligation. intros [a b c] j (H1 & H2). simpl in H1, H2. struct_dec. Qed.
Next Obligation. intros [a b c] j. struct_enc_ok. Qed.
#[export] Instance RemoteJobPlan_total : Total RemoteJobPlan_codec.
Proof.
  constructor.
  - struct_zero.
  - struct_total.
Qed.

Definition RemoteJobState_fields (s : RemoteJobState) : list field_enc :=
  [field RemoteJobPlan_codec "Plan" (rstate.Plan s);
   field_omit value_codec "Handle" (is_nil (rstate.Handle s)) (rstate.Handle s);
   field_omit Time_codec "NextInspectionAt" (IsZero (rstate.NextInspectionAt s)) (rstate.NextInspectionAt s);
   field_omit value_codec "OutstandingInput" (is_nil (rstate.OutstandingInput s)) (rstate.OutstandingInput s);
   field_omit value_codec "Subscription" (is_nil (rstate.Subscription s)) (rstate.Subscription s);
   field_omit string_codec "TerminalResult" (bool_decide (rstate.TerminalResult s = EmptyString)) (rstate.TerminalResult s);
   field_omit string_codec "TerminalError" (bool_decide (rstate.TerminalError s = EmptyString)) (rstate.TerminalError s);
   field_omit int64_codec "ResultBytes" (rstate.ResultBytes s =? 0) (rstate.ResultBytes s);
   field_omit bool_codec "ResultTruncated" (negb (rstate.ResultTruncated s)) (rstate.ResultTruncated s);
   field_omit int64_codec "ErrorBytes" (rstate.ErrorBytes s =? 0) (rstate.ErrorBytes s);
   field_omit bool_codec "ErrorTruncated" (negb (rstate.ErrorTruncated s)) (rstate.ErrorTruncated s)].

Definition RemoteJobState_zero : RemoteJobState :=
  rstate.Mk (zero RemoteJobPlan_codec) VNil Time_zero VNil VNil EmptyString EmptyString 0 false 0 false.

Lemma IsZero_true t : IsZero t = true → t = Time_zero.
Proof. apply bool_decide_eq_true. Qed.
#[local] Hint Resolve IsZero_true : go.

Program Definition RemoteJobState_codec : codec RemoteJobState := {|
  zero := RemoteJobState_zero;
  enc s := enc_struct (RemoteJobState_fields s);
  dec := dec_struct RemoteJobState_zero (λ o,
    a ← get RemoteJobPlan_codec "Plan" o;
    b ← get value_codec "Handle" o;
    c ← get Time_codec "NextInspectionAt" o;
    d ← get value_codec "OutstandingInput" o;
    e ← get value_codec "Subscription" o;
    f ← get string_codec "TerminalResult" o;
    g ← get string_codec "TerminalError" o;
    h ← get int64_codec "ResultBytes" o;
    i ← get bool_codec "ResultTruncated" o;
    k ← get int64_codec "ErrorBytes" o;
    l ← get bool_codec "ErrorTruncated" o;
    Some (rstate.Mk a b c d e f g h i k l));
  jok s := jok RemoteJobPlan_codec (rstate.Plan s) ∧ in_int64 (rstate.ResultBytes s) = true
           ∧ in_int64 (rstate.ErrorBytes s) = true |}.
Next Obligation.
  intros [a b c d e f g h i k l] j (H1 & H2 & H3). cbn -[jok] in H1, H2, H3. struct_dec.
Qed.
Next Obligation. intros [a b c d e f g h i k l] j. struct_enc_ok. Qed.
#[export] Instance RemoteJobState_total : Total RemoteJobState_codec.
Proof.
  constructor.
  - struct_zero.
  - struct_total.
Qed.

(** ** Operations *)

Definition validateRemoteJobPlan (p : RemoteJobPlan) : result unit :=
  if bool_decide (plan.Type' p = EmptyString) then Err (errors_New "remote job plan type must be set")
  else if plan.Version' p =? 0 then Err (errors_New "remote job plan version must be positive")
  else if value_empty (plan.Data p) || negb (IsValid (plan.Data p)) then
    Err (errors_New "remote job plan data must be valid JSON")
  else Ok tt.

Definition NewRemoteJobSpec (p : RemoteJobPlan) : result Spec :=
  _ ← validateRemoteJobPlan p;
  encoded ← map_err (Errorf_w "encode remote job operation state: ")
    (Marshal RemoteJobState_codec
       (rstate.Mk p VNil Time_zero VNil VNil EmptyString EmptyString 0 false 0 false));
  Ok (spec.Mk DefaultMaxOutputLength TypeRemoteJob VersionRemoteJob encoded VNil).

Definition DecodeRemoteJobState (o : Operation) : result RemoteJobState :=
  let advance := "advance remote job operation " +:+ quote (op.ID' o) in
  if negb (bool_decide (op.Type' o = TypeRemoteJob)) then
    Err (unsupported (advance +:+ ": type " +:+ quote (op.Type' o)))
  else if negb (op.Version' o =? VersionRemoteJob) then
    Err (unsupported (advance +:+ ": version " +:+ Itoa (op.Version' o)))
  else if op.MaxOutputLength o <=? 0 then Err (errors_New "max output length must be positive")
  else if MaxOutputLength <? op.MaxOutputLength o then
    Err (errors_New ("max output length must not exceed " +:+ Itoa MaxOutputLength))
  else
    s ← map_err (Errorf_w ("decode remote job operation " +:+ quote (op.ID' o) +:+ " state: "))
          (Unmarshal RemoteJobState_codec (op.State o));
    _ ← map_err (Errorf_w ("validate remote job operation " +:+ quote (op.ID' o) +:+ " state: "))
          (validateRemoteJobPlan (rstate.Plan s));
    Ok s.

(** [BoundOutput] once: a text that was truncated is kept as it is. *)
Definition prepare_text (limit : Z) (text : string) (size : Z) (truncated : bool)
  : string * Z * bool :=
  if negb truncated || bool_decide (text = EmptyString) then
    let '(bounded, t) := BoundOutput text limit in (bounded, slen text, t)
  else (text, size, truncated).

Definition prepareRemoteJobOutput (o : Operation) (s : RemoteJobState) : RemoteJobState :=
  let limit := op.MaxOutputLength o in
  let '(result, result_bytes, result_truncated) :=
    prepare_text limit (rstate.TerminalResult s) (rstate.ResultBytes s) (rstate.ResultTruncated s) in
  let '(error, error_bytes, error_truncated) :=
    prepare_text limit (rstate.TerminalError s) (rstate.ErrorBytes s) (rstate.ErrorTruncated s) in
  rstate.Mk (rstate.Plan s) (rstate.Handle s) (rstate.NextInspectionAt s) (rstate.OutstandingInput s)
    (rstate.Subscription s) result error result_bytes result_truncated error_bytes error_truncated.

Definition UpdateRemoteJob (o : Operation) (s : RemoteJobState) (status : Status)
    (dispatches : list PrimitiveDispatch) : result Step :=
  _ ← DecodeRemoteJobState o;
  _ ← map_err (Errorf_w ("validate remote job operation " +:+ quote (op.ID' o) +:+ " state: "))
        (validateRemoteJobPlan (rstate.Plan s));
  let o := op.set_status status o in
  encoded ← map_err (Errorf_w ("encode remote job operation " +:+ quote (op.ID' o) +:+ " state: "))
              (Marshal RemoteJobState_codec (prepareRemoteJobOutput o s));
  Ok (step.Mk (Some (op.set_state encoded o)) dispatches).

(** [FailRemoteJob] of an error that is set. *)
Definition FailRemoteJob (o : Operation) (err : error) : result Step :=
  s ← DecodeRemoteJobState o;
  UpdateRemoteJob o
    (rstate.Mk (rstate.Plan s) (rstate.Handle s) (rstate.NextInspectionAt s) (rstate.OutstandingInput s)
       VNil EmptyString (Error err) (rstate.ResultBytes s) (rstate.ResultTruncated s) 0 false)
    StatusFailed [].

Definition CancelRemoteJob (o : Operation) : result Step :=
  s ← DecodeRemoteJobState o;
  UpdateRemoteJob o
    (rstate.Mk (rstate.Plan s) (rstate.Handle s) (rstate.NextInspectionAt s) (rstate.OutstandingInput s)
       VNil EmptyString (rstate.TerminalError s) (rstate.ResultBytes s) (rstate.ResultTruncated s)
       (rstate.ErrorBytes s) (rstate.ErrorTruncated s))
    StatusCanceled [].

(** ** Updates from a handler *)

Definition validRemoteJobStatusTransition (current updated : Status) : bool :=
  if bool_decide (current = StatusReady) || bool_decide (current = StatusAwaiting) then
    bool_decide (updated ∈ [StatusAwaiting; StatusCanceling; StatusCompleted; StatusFailed; StatusCanceled])
  else if bool_decide (current = StatusCanceling) then
    bool_decide (updated ∈ [StatusCanceling; StatusFailed; StatusCanceled])
  else false.

Definition validateRemoteJobUpdate (current updated : Operation) : result unit :=
  if negb (op.MaxOutputLength updated =? op.MaxOutputLength current) then
    Err (errors_New ("remote job handler changed output limit for operation " +:+ quote (op.ID' current)))
  else if negb (bool_decide (op.Type' updated = op.Type' current))
          || negb (op.Version' updated =? op.Version' current) then
    Err (errors_New ("remote job handler changed operation " +:+ quote (op.ID' current)
      +:+ " type or version from " +:+ quote (op.Type' current) +:+ " version " +:+ Itoa (op.Version' current)
      +:+ " to " +:+ quote (op.Type' updated) +:+ " version " +:+ Itoa (op.Version' updated)))
  else
    s ← map_err (Errorf_w "validate current remote job: ") (DecodeRemoteJobState current);
    s' ← map_err (Errorf_w "validate remote job handler update: ") (DecodeRemoteJobState updated);
    if negb (bool_decide (plan.Type' (rstate.Plan s') = plan.Type' (rstate.Plan s)))
       || negb (plan.Version' (rstate.Plan s') =? plan.Version' (rstate.Plan s))
       || negb (bool_decide (plan.Data (rstate.Plan s') = plan.Data (rstate.Plan s))) then
      Err (errors_New ("remote job handler changed plan for operation " +:+ quote (op.ID' current)))
    else if negb (validRemoteJobStatusTransition (op.Status' current) (op.Status' updated)) then
      Err (errors_New ("remote job handler produced invalid status transition for operation "
        +:+ quote (op.ID' current) +:+ " from " +:+ quote (op.Status' current)
        +:+ " to " +:+ quote (op.Status' updated)))
    else Ok tt.

(** ** Routing: remoteJobHandlers *)

(** What the router knows of a handler: its plan type and version, [None] for
    a nil handler; and whether its updates ended. *)
Record remoteJobHandlers : Type := MkHandlers {
  handlers : list (option (string * Z));
  closed : list bool;
}.

Definition newRemoteJobHandlers (hs : list (option (string * Z))) : remoteJobHandlers :=
  MkHandlers hs (replicate (length hs) false).

Definition markClosed (index : nat) (r : remoteJobHandlers) : remoteJobHandlers :=
  MkHandlers (handlers r) (<[index:=true]> (closed r)).

(** The loop over the handlers: the index matched so far. *)
Fixpoint match_handlers (s : RemoteJobState) (index : nat) (hs : list (option (string * Z)))
    (matched : option nat) : result (option nat) :=
  match hs with
  | [] => Ok matched
  | h :: hs =>
    let skip := match h with
                | None => true
                | Some (t, v) => negb (bool_decide (t = plan.Type' (rstate.Plan s)))
                                 || negb (v =? plan.Version' (rstate.Plan s))
                end in
    if (skip : bool) then match_handlers s (S index) hs matched
    else match matched with
    | Some _ => Err (errors_New ("local operation manager has multiple handlers for remote job plan "
        +:+ quote (plan.Type' (rstate.Plan s)) +:+ " version " +:+ Itoa (plan.Version' (rstate.Plan s))))
    | None => match_handlers s (S index) hs (Some index)
    end
  end.

(** [add]: [accept] is the handler's own AddRemoteJob. *)
Definition add_remote (accept : nat → Operation → option error) (r : remoteJobHandlers) (o : Operation)
  : result nat :=
  s ← DecodeRemoteJobState o;
  matched ← match_handlers s 0 (handlers r) None;
  match matched with
  | None => Err (unsupported ("local operation manager does not support remote job plan "
      +:+ quote (plan.Type' (rstate.Plan s)) +:+ " version " +:+ Itoa (plan.Version' (rstate.Plan s))))
  | Some index =>
    if default false (closed r !! index) then
      Err (errors_New ("remote job handler " +:+ Itoa (Z.of_nat index) +:+ " stopped"))
    else match accept index o with
    | Some e => Err e
    | None => Ok index
    end
  end.

(** ** Facts *)

Lemma DecodeRemoteJobState_returns o : returns (DecodeRemoteJobState o) = true.
Proof. unfold DecodeRemoteJobState, validateRemoteJobPlan. go_returns. Qed.
#[export] Hint Resolve DecodeRemoteJobState_returns : returns.

Lemma validateRemoteJobPlan_ok p u :
  validateRemoteJobPlan p = Ok u →
  plan.Type' p ≠ EmptyString ∧ plan.Version' p ≠ 0 ∧ IsValid (plan.Data p) = true.
Proof.
  unfold validateRemoteJobPlan. intros H. if_in H; [done|]. if_in H; [done|].
  destruct (value_empty _ || negb (IsValid _)) eqn:E; [done|].
  apply orb_false_iff in E as [_ E%negb_false_iff]. done.
Qed.

(** How far a remote job has come. *)
Definition rank (s : Status) : nat :=
  if bool_decide (s = StatusReady) then 0
  else if bool_decide (s = StatusAwaiting) then 1
  else if bool_decide (s = StatusCanceling) then 2 else 3.

Lemma transition_rank s s' :
  validRemoteJobStatusTransition s s' = true →
  localOperationFinished s = false ∧ (rank s ≤ rank s')%nat ∧ (0 < rank s')%nat.
Proof.
  unfold validRemoteJobStatusTransition. intros H.
  if_in H.
  - apply orb_true_iff in Hif. rewrite !bool_decide_eq_true in Hif. apply bool_decide_eq_true in H.
    split; [by destruct Hif as [-> | ->]|].
    rewrite !elem_of_cons in H.
    destruct Hif as [-> | ->], H as [-> | [-> | [-> | [-> | [-> | H]]]]];
      (split; [vm_compute; lia|vm_compute; lia]) || by apply elem_of_nil in H.
  - if_in H; [|done]. subst s. apply bool_decide_eq_true in H. rewrite !elem_of_cons in H.
    split; [done|].
    destruct H as [-> | [-> | [-> | H]]];
      (split; [vm_compute; lia|vm_compute; lia]) || by apply elem_of_nil in H.
Qed.

Definition plan_of (o : Operation) : option RemoteJobPlan :=
  match DecodeRemoteJobState o with Ok s => Some (rstate.Plan s) | _ => None end.

Lemma validateRemoteJobUpdate_ok o o' u :
  validateRemoteJobUpdate o o' = Ok u →
  op.MaxOutputLength o' = op.MaxOutputLength o ∧ op.Type' o' = op.Type' o ∧
  op.Version' o' = op.Version' o ∧ plan_of o' = plan_of o ∧ is_Some (plan_of o) ∧
  validRemoteJobStatusTransition (op.Status' o) (op.Status' o') = true.
Proof.
  unfold validateRemoteJobUpdate, plan_of. intros H. if_in H; [|done].
  destruct (negb _ || negb _) eqn:E1; [done|].
  apply orb_false_iff in E1 as [E1%negb_false_iff E2%negb_false_iff].
  apply bool_decide_eq_true in E1. apply Z.eqb_eq in E2.
  apply bind_ok in H as (s & Hs & H). apply bind_ok in H as (s' & Hs' & H).
  apply map_err_ok in Hs, Hs'. rewrite Hs, Hs'.
  destruct (negb _ || negb _ || negb _) eqn:E3; [done|].
  rewrite !orb_false_iff, !negb_false_iff, !bool_decide_eq_true, Z.eqb_eq in E3.
  destruct E3 as [[E3 E4] E5]. if_in H; [|done].
  split_and!; try done. f_equal. destruct (rstate.Plan s), (rstate.Plan s'). simpl in *. congruence.
Qed.

(** The operations that the manager accepts one after the other. *)
Inductive accepted_updates : Operation → list Operation → Prop :=
  | accepted_nil o : accepted_updates o []
  | accepted_cons o o' l :
      validateRemoteJobUpdate o o' = Ok tt → accepted_updates o' l → accepted_updates o (o' :: l).

(** However a remote job handler behaves, the updates that are accepted
    form a monotone history: the plan and the output limit stay those of the
    job, every status is at least as far as the one before, and nothing is
    accepted after a terminal status, which only the last update can have. *)
Theorem remote_job_history o l :
  accepted_updates o l →
  Forall (λ o', op.MaxOutputLength o' = op.MaxOutputLength o ∧ plan_of o' = plan_of o) l ∧
  Sorted (λ a b, (rank (op.Status' a) ≤ rank (op.Status' b))%nat) (o :: l) ∧
  (∀ l1 o' o'' l2, o :: l = l1 ++ o' :: o'' :: l2 → localOperationFinished (op.Status' o') = false).
Proof.
  induction 1 as [o|o o' l Hv _ (IH1 & IH2 & IH3)].
  - split_and!; [constructor|repeat constructor|].
    intros [|? [|]] ? ? ?; discriminate.
  - apply validateRemoteJobUpdate_ok in Hv as (Hm & _ & _ & Hp & _ & Hs).
    apply transition_rank in Hs as (Hf & Hr & _). split_and!.
    + constructor; [done|]. eapply Forall_impl; [exact IH1|]. simpl. intros x [-> ->]. by split.
    + constructor; [done|by constructor].
    + intros [|x l1] a b l2 Heq; [by injection Heq as <- <- <-|].
      injection Heq as <- Heq. by eapply IH3.
Qed.

(** ** Routing *)

Definition handles (s : RemoteJobState) (h : option (string * Z)) : Prop :=
  h = Some (plan.Type' (rstate.Plan s), plan.Version' (rstate.Plan s)).

Lemma match_handlers_ok s hs index matched r :
  match_handlers s index hs matched = Ok r →
  match matched with
  | Some i => r = Some i ∧ Forall (λ h, ¬ handles s h) hs
  | None =>
    match r with
    | Some i => ∃ k, i = (index + k)%nat ∧ (∃ h, hs !! k = Some h ∧ handles s h) ∧
                ∀ k' h, hs !! k' = Some h → handles s h → k' = k
    | None => Forall (λ h, ¬ handles s h) hs
    end
  end.
Proof.
  revert index matched. induction hs as [|h hs IH]; intros index matched; cbn [match_handlers].
  { intros [= <-]. by destruct matched. }
  assert ((∃ t v, h = Some (t, v) ∧ handles s h) ∨ ¬ handles s h) as Hh.
  { unfold handles. destruct h as [[t v]|]; [|by right].
    destruct (decide (Some (t, v) = Some (plan.Type' (rstate.Plan s), plan.Version' (rstate.Plan s))));
      [left|by right]. eauto. }
  destruct Hh as [(t & v & -> & Hh)|Hn].
  - pose proof Hh as Heq. unfold handles in Heq. injection Heq as -> ->.
    rewrite bool_decide_true, Z.eqb_refl by done. cbn [negb orb].
    destruct matched; [done|]. intros H. apply IH in H as [-> Hall].
    exists 0%nat. split; [lia|]. split; [by eexists|].
    intros [|k'] h' Hk Hh'; [done|]. simpl in Hk. rewrite Forall_lookup in Hall.
    by apply Hall in Hk.
  - assert ((match h with None => true | Some (t, v) =>
        negb (bool_decide (t = plan.Type' (rstate.Plan s))) || negb (v =? plan.Version' (rstate.Plan s))
      end) = true) as ->.
    { destruct h as [[t v]|]; [|done]. unfold handles in Hn.
      destruct (bool_decide_reflect (t = plan.Type' (rstate.Plan s))) as [->|]; [|done]. simpl.
      destruct (Z.eqb_spec v (plan.Version' (rstate.Plan s))) as [->|]; done. }
    intros H. apply IH in H. destruct matched as [i|].
    + destruct H as [-> H]. split; [done|by constructor].
    + destruct r as [i|]; [|by constructor].
      destruct H as (k & -> & (h' & Hk & Hh') & Hu). exists (S k).
      split; [lia|]. split; [by exists h'|]. intros [|k'] h'' Hk' Hh''; simpl in Hk'; simplify_eq; [done|].
      f_equal. by eapply Hu.
Qed.

(** A remote job goes to the one handler that declares its plan: when the
    router accepts an operation, the handler at the index it returns has the
    type and version of the operation's plan, no other handler has them, its
    updates have not ended, and it accepted the operation. *)
Theorem remote_job_routed accept r o index :
  add_remote accept r o = Ok index →
  ∃ s, DecodeRemoteJobState o = Ok s ∧
    handlers r !! index = Some (Some (plan.Type' (rstate.Plan s), plan.Version' (rstate.Plan s))) ∧
    (∀ k, handlers r !! k = Some (Some (plan.Type' (rstate.Plan s), plan.Version' (rstate.Plan s))) →
          k = index) ∧
    default false (closed r !! index) = false ∧ accept index o = None.
Proof.
  unfold add_remote. intros H. apply bind_ok in H as (s & Hs & H). apply bind_ok in H as (m & Hm & H).
  apply match_handlers_ok in Hm. destruct m as [i|]; [|done].
  destruct Hm as (k & -> & (h & Hk & Hh) & Hu). simpl in *.
  destruct (default false (closed r !! k)) eqn:Hc; [done|].
  destruct (accept k o) eqn:Ha; [done|]. injection H as <-.
  exists s. unfold handles in *. subst h. split_and!; try done.
  intros k' Hk'. by eapply Hu.
Qed.

(** ** The texts of a remote job *)

Lemma prepare_text_again limit text size truncated :
  string_ok text = true →
  let '(t, n, b) := prepare_text limit text size truncated in
  prepare_text limit t n b = (t, n, b).
Proof.
  intros Hok. unfold prepare_text at 1.
  destruct (negb truncated || bool_decide (text = EmptyString)) eqn:E.
  - destruct (BoundOutput text limit) as [t b] eqn:Eb. unfold BoundOutput in Eb.
    rewrite slen_len in Eb |- *.
    pose proof Eb as Eb'. rewrite boundOutput_whole in Eb.
    destruct (utf8.RuneCount _ <=? _).
    + injection Eb as Et <-.
      assert (t = text) as -> by (rewrite <- Et, sanitize_id by done; apply to_string_bytes).
      unfold prepare_text. cbn [negb orb]. unfold BoundOutput. rewrite slen_len. by rewrite Eb'.
    + injection Eb as Et <-. unfold prepare_text. rewrite bool_decide_false; [done|]. intros ->.
      apply (f_equal to_bytes) in Et. rewrite to_bytes_string in Et.
      unfold marker in Et. rewrite to_bytes_app in Et. apply (f_equal length) in Et.
      rewrite !length_app in Et. simpl in Et. lia.
  - unfold prepare_text. by rewrite E.
Qed.

(** The output of a remote job is bounded once: preparing the output of a
    state whose texts are valid UTF-8 a second time changes nothing, so that
    the sizes and truncations recorded first survive every later update. *)
Theorem prepareRemoteJobOutput_idempotent o s :
  string_ok (rstate.TerminalResult s) = true → string_ok (rstate.TerminalError s) = true →
  prepareRemoteJobOutput o (prepareRemoteJobOutput o s) = prepareRemoteJobOutput o s.
Proof.
  intros Hr He. unfold prepareRemoteJobOutput at 2.
  pose proof (prepare_text_again (op.MaxOutputLength o) _ (rstate.ResultBytes s) (rstate.ResultTruncated s) Hr) as H1.
  pose proof (prepare_text_again (op.MaxOutputLength o) _ (rstate.ErrorBytes s) (rstate.ErrorTruncated s) He) as H2.
  unfold prepareRemoteJobOutput.
  destruct (prepare_text _ (rstate.TerminalResult s) _ _) as [[t n] b].
  destruct (prepare_text _ (rstate.TerminalError s) _ _) as [[t' n'] b']. simpl. by rewrite H1, H2.
Qed.

(** ** Witnesses *)

Definition job_operation (status : Status) : Operation :=
  match NewRemoteJobSpec (plan.Mk "test" 1 (VText (JObj []))) with
  | Ok s => op.set_status status (new_operation "job" s)
  | _ => op.Mk 0 EmptyString EmptyString 0 EmptyString VNil VNil
  end.

Lemma remote_job_history_witness :
  let o := job_operation StatusReady in
  let l := [job_operation StatusAwaiting; job_operation StatusCompleted] in
  accepted_updates o l ∧
  Forall (λ o', op.MaxOutputLength o' = op.MaxOutputLength o ∧ plan_of o' = plan_of o) l ∧
  Sorted (λ a b, (rank (op.Status' a) ≤ rank (op.Status' b))%nat) (o :: l) ∧
  (∀ l1 o' o'' l2, o :: l = l1 ++ o' :: o'' :: l2 → localOperationFinished (op.Status' o') = false).
Proof.
  assert (accepted_updates (job_operation StatusReady)
    [job_operation StatusAwaiting; job_operation StatusCompleted]) as H.
  { repeat (constructor; [vm_compute; reflexivity|]). constructor. }
  split; [exact H|]. exact (remote_job_history _ _ H).
Defined.

Definition job_handlers : remoteJobHandlers :=
  newRemoteJobHandlers [None; Some ("other", 1); Some ("test", 1)].

Lemma remote_job_routed_witness :
  add_remote (λ _ _, None) job_handlers (job_operation StatusReady) = Ok 2%nat ∧
  ∃ s, DecodeRemoteJobState (job_operation StatusReady) = Ok s ∧
    handlers job_handlers !! 2%nat = Some (Some (plan.Type' (rstate.Plan s), plan.Version' (rstate.Plan s))) ∧
    (∀ k, handlers job_handlers !! k = Some (Some (plan.Type' (rstate.Plan s), plan.Version' (rstate.Plan s))) →
          k = 2%nat) ∧
    default false (closed job_handlers !! 2%nat) = false ∧ @None error = None.
Proof.
  split; [vm_compute; reflexivity|].
  apply (remote_job_routed (λ _ _, None) job_handlers (job_operation StatusReady) 2).
  vm_compute. reflexivity.
Defined.

Definition job_state : RemoteJobState :=
  rstate.Mk (plan.Mk "test" 1 (VText (JObj []))) VNil Time_zero VNil VNil "abcdef" "error" 0 false 0 false.

Lemma prepareRemoteJobOutput_idempotent_witness :
  rstate.TerminalResult (prepareRemoteJobOutput
     (op.Mk 3 "job" TypeRemoteJob 2 StatusReady VNil VNil) job_state) = "a...3 bytes truncated...ef" ∧
  prepareRemoteJobOutput (op.Mk 3 "job" TypeRemoteJob 2 StatusReady VNil VNil)
    (prepareRemoteJobOutput (op.Mk 3 "job" TypeRemoteJob 2 StatusReady VNil VNil) job_state)
  = prepareRemoteJobOutput (op.Mk 3 "job" TypeRemoteJob 2 StatusReady VNil VNil) job_state.
Proof.
  split; [vm_compute; reflexivity|].
  apply prepareRemoteJobOutput_idempotent; vm_compute; reflexivity.
Defined.
