(* ===== verification/LocalManager.v ===== *)
(** * The local operation manager: operation/local_manager.go

    The manager is one goroutine that owns its state; its select receives one
    input at a time.  [manager_step] is one round of the loop on an input, so
    a run is a list of inputs.  A primitive is started by recording it in
    [started]; its events come back as inputs.  The remote job handlers answer
    through the arguments [AddRemoteJob] and [CancelRemoteJob]. *)

From Stdlib Require Import Ascii ZArith Lia.
From S2P Require Import Prelude GoStrings GoText Json JsonCodec Primitives Operation Handler.
From S2P Require Import SkillUse Shell ViewImage RemoteJob.

Local Open Scope Z_scope.

(** ** Running operations *)

(** The [handle] field: a method of an actor, a closure over the operation's
    own checkpoint, or nil for a remote job. *)
Inductive Actor : Type :=
  | ActorShell (shell : Shell)
  | ActorView (view : ViewImage)
  | ActorStateless
  | ActorNil.

Record localRunningOperation : Type := MkRunning {
  canceled : bool;
  operation : Operation;
  remoteJobHandlerIndex : option nat;
  actor : Actor;
}.

Definition advanceLocalOperation (o : Operation) (event : option Event) : result Step :=
  if bool_decide (op.Type' o = TypeValue) then AdvanceValue o event
  else if bool_decide (op.Type' o = TypeSkillUse) then AdvanceSkillUse o event
  else Err (unsupported ("local operation manager does not support type " +:+ quote (op.Type' o))).

Definition initialize (o : Operation) : result Actor :=
  if bool_decide (op.Type' o = TypeShell) then ActorShell <$> NewShell o
  else if bool_decide (op.Type' o = TypeViewImage) then ActorView <$> NewViewImage o
  else Ok ActorStateless.

Definition handle_actor (a : Actor) (o : Operation) (event : option Event) : Actor * result Step :=
  match a with
  | ActorShell sh => let '(sh, r) := Shell.Handle event sh in (ActorShell sh, r)
  | ActorView v => let '(v, r) := ViewImage.Handle event v in (ActorView v, r)
  | ActorStateless => (ActorStateless, advanceLocalOperation o event)
  | ActorNil => (ActorNil, Panic "invalid memory address or nil pointer dereference")
  end.

(** The operation that the manager publishes when it gives one up. *)
Definition failLocalOperation (o : Operation) (err : error) : result Operation :=
  let plain := Ok (op.set_status StatusFailed o) in
  let step_or (r : result Step) (otherwise : error → result Operation) :=
    match r with
    | Ok st => match step.Operation st with
               | Some o => Ok o
               | None => Panic "invalid memory address or nil pointer dereference"
               end
    | Err e => otherwise e
    | Panic t => Panic t
    end in
  if bool_decide (op.Type' o = TypeSkillUse) then
    step_or (s ← skillUseOperationState o; failSkillUse o s err) (λ _, plain)
  else if bool_decide (op.Type' o = TypeShell) then
    step_or (sh ← NewShell o; snd (Shell.fail_ err sh)) (λ _, plain)
  else if bool_decide (op.Type' o = TypeViewImage) then
    step_or (failViewImage o err) (λ e,
      Panic ("fail validated view-image operation " +:+ quote (op.ID' o) +:+ ": " +:+ Error e))
  else if bool_decide (op.Type' o = TypeRemoteJob) then
    step_or (FailRemoteJob o err) (λ e,
      Panic ("fail validated remote job operation " +:+ quote (op.ID' o) +:+ ": " +:+ Error e))
  else plain.

(** The error of a dispatch that cannot be started. *)
Definition startLocalPrimitive (d : PrimitiveDispatch) : option error :=
  let t := dispatch.Type' d in
  let wrong (name want : string) :=
    Some (errors_New (name +:+ " dispatch data is not primitives." +:+ want)) in
  if bool_decide (t = PrimitiveDispatchIOCreate) then
    match dispatch.Data d with DataIOCreate _ => None | _ => wrong "io.create" "IOCreateRequest" end
  else if bool_decide (t = PrimitiveDispatchIORead) then
    match dispatch.Data d with DataIORead _ => None | _ => wrong "io.read" "IOReadRequest" end
  else if bool_decide (t = PrimitiveDispatchProcessStart) then
    match dispatch.Data d with
    | DataProcessStart _ => None | _ => wrong "process.start" "ProcessStartRequest" end
  else if bool_decide (t = PrimitiveDispatchCompute) then
    match dispatch.Data d with DataCompute _ => None | _ => wrong "compute" "ComputeRequest" end
  else Some (errors_New ("local operation manager does not support dispatch " +:+ quote t)).

Definition localPrimitiveCompleted (t : PrimitiveEventType) : bool := completing t.

(** ** The manager's state *)

Inductive phase : Set := Running | Draining | Stopped.

(** [log] is every update appended, [delivered] those received from the
    updates channel, [started] the primitives started, with their operation,
    and [completed] the number of completing events received: they are kept
    to state the theorems. *)
Record manager : Type := MkManager {
  mode : phase;
  operations : gmap ID localRunningOperation;
  accepted : gset ID;
  activePrimitives : Z;
  pendingUpdates : list Operation;
  remoteJobs : remoteJobHandlers;
  log : list Operation;
  delivered : list Operation;
  started : list (ID * PrimitiveDispatch);
  completed : Z;
}.

Definition NewLocalOperationManager (handlers : list (option (string * Z))) : manager :=
  MkManager Running ∅ ∅ 0 [] (newRemoteJobHandlers handlers) [] [] [] 0.

Definition set_operations (f : gmap ID localRunningOperation → gmap ID localRunningOperation)
    (m : manager) : manager :=
  MkManager (mode m) (f (operations m)) (accepted m) (activePrimitives m) (pendingUpdates m)
    (remoteJobs m) (log m) (delivered m) (started m) (completed m).

Definition accept_id (id : ID) (m : manager) : manager :=
  MkManager (mode m) (operations m) ({[id]} ∪ accepted m) (activePrimitives m) (pendingUpdates m)
    (remoteJobs m) (log m) (delivered m) (started m) (completed m).

Definition appendLocalUpdate (o : Operation) (m : manager) : manager :=
  MkManager (mode m) (operations m) (accepted m) (activePrimitives m) (pendingUpdates m ++ [o])
    (remoteJobs m) (log m ++ [o]) (delivered m) (started m) (completed m).

Definition start_primitive (id : ID) (d : PrimitiveDispatch) (m : manager) : manager :=
  MkManager (mode m) (operations m) (accepted m) (activePrimitives m + 1) (pendingUpdates m)
    (remoteJobs m) (log m) (delivered m) (started m ++ [(id, d)]) (completed m).

Definition complete_primitive (m : manager) : manager :=
  MkManager (mode m) (operations m) (accepted m) (activePrimitives m - 1) (pendingUpdates m)
    (remoteJobs m) (log m) (delivered m) (started m) (completed m + 1).

Definition set_mode (p : phase) (m : manager) : manager :=
  MkManager p (operations m) (accepted m) (activePrimitives m) (pendingUpdates m)
    (remoteJobs m) (log m) (delivered m) (started m) (completed m).

Definition set_remote (r : remoteJobHandlers) (m : manager) : manager :=
  MkManager (mode m) (operations m) (accepted m) (activePrimitives m) (pendingUpdates m)
    r (log m) (delivered m) (started m) (completed m).

Definition deliver (m : manager) : manager :=
  match pendingUpdates m with
  | [] => m
  | o :: rest =>
    MkManager (mode m) (operations m) (accepted m) (activePrimitives m) rest
      (remoteJobs m) (log m) (delivered m ++ [o]) (started m) (completed m)
  end.

(** [current] is a pointer: its changes are seen through the map as long as
    the map holds it. *)
Definition store_running (c : localRunningOperation) : manager → manager :=
  set_operations (λ ops, if decide (is_Some (ops !! op.ID' (operation c)))
                         then <[op.ID' (operation c) := c]> ops else ops).

Definition with_operation (o : Operation) (c : localRunningOperation) : localRunningOperation :=
  MkRunning (canceled c) o (remoteJobHandlerIndex c) (actor c).
Definition with_actor (a : Actor) (c : localRunningOperation) : localRunningOperation :=
  MkRunning (canceled c) (operation c) (remoteJobHandlerIndex c) a.
Definition cancel_running (c : localRunningOperation) : localRunningOperation :=
  MkRunning true (operation c) (remoteJobHandlerIndex c) (actor c).

(** manager.failLocalOperation *)
Definition fail_operation (c : localRunningOperation) (err : error) : M manager unit :=
  failed ← lift (failLocalOperation (operation c) err);
  _ ← modify (appendLocalUpdate failed);
  modify (set_operations (delete (op.ID' (operation c)))).

(** [acceptLocalStep]: a dispatch that cannot be started is reported to the
    operation, whose step is accepted in turn; [fuel] bounds these turns.  The
    count it returns in Go is added to [activePrimitives] at once. *)
Fixpoint acceptLocalStep (fuel : nat) (c : localRunningOperation) (s : Step) : M manager unit :=
  let '(c, finished) :=
    match step.Operation s with
    | Some o => (with_operation o c, localOperationFinished (op.Status' o))
    | None => (c, false)
    end in
  _ ← match step.Operation s with
      | Some o => modify (appendLocalUpdate o)
      | None => mret tt
      end;
  _ ← modify (store_running c);
  if finished then modify (set_operations (delete (op.ID' (operation c))))
  else
    (fix start (ds : list PrimitiveDispatch) : M manager unit :=
      match ds with
      | [] => mret tt
      | d :: ds =>
        match startLocalPrimitive d with
        | None => _ ← modify (start_primitive (op.ID' (operation c)) d); start ds
        | Some err =>
          let '(a, r) := handle_actor (actor c) (operation c)
            (Some (event.Mk PrimitiveEventFailed (op.ID' (operation c)) EmptyString
                     (PrimitiveFailureResult (Error err)))) in
          let c := with_actor a c in
          match r with
          | Err e => fail_operation c e
          | Panic t => lift (Panic t)
          | Ok failed =>
            match fuel with
            | O => lift (Panic "stack overflow")
            | S fuel => acceptLocalStep fuel c failed
            end
          end
        end
      end) (step.Dispatches s).

(** ** The inputs of the select *)

Inductive input : Type :=
  | InDeliver
  | InAdd (o : Operation)
  | InCancel (id : ID) (reason : string)
  | InRemoteClosed (handler : nat) (order : list ID)
  | InRemoteUpdate (handler : nat) (o : Operation)
  | InEvent (e : Event)
  | InDone.

Section Step.
Context (AddRemoteJob : nat → Operation → option error)
        (CancelRemoteJob : nat → ID → string → option error).

Definition depth : nat := 8.

(** [remoteJobHandlers.cancel]: the handlers are indexed with the operation's
    handler index, which is -1 for an operation that is not remote. *)
Definition cancel_remote (index : option nat) (id : ID) (reason : string) : result (option error) :=
  match index with
  | Some i => Ok (CancelRemoteJob i id reason)
  | None => Panic "index out of range [-1]"
  end.

Definition failRemoteJobOperation (c : localRunningOperation) (cause : error) : M manager unit :=
  rejected ← lift (cancel_remote (remoteJobHandlerIndex c) (op.ID' (operation c)) (Error cause));
  fail_operation c
    match rejected with
    | Some e => errors_Join cause (Errorf_w "cancel rejected remote job: " e)
    | None => cause
    end.

(** The response is the error sent to the caller of Add or Cancel. *)
Definition add_operation (o : Operation) : M manager (option error) :=
  m ← self;
  if decide (op.ID' o ∈ accepted m) then mret None
  else if bool_decide (op.Type' o = TypeRemoteJob) then
    match add_remote AddRemoteJob (remoteJobs m) o with
    | Err e => mret (Some e)
    | Panic t => lift (Panic t)
    | Ok index =>
      _ ← modify (accept_id (op.ID' o));
      _ ← modify (set_operations (insert (op.ID' o) (MkRunning false o (Some index) ActorNil)));
      mret None
    end
  else
    match initialize o with
    | Err e => mret (Some e)
    | Panic t => lift (Panic t)
    | Ok a =>
      match handle_actor a o None with
      | (_, Err e) => mret (Some e)
      | (_, Panic t) => lift (Panic t)
      | (a, Ok s) =>
        let c := MkRunning false o None a in
        _ ← modify (accept_id (op.ID' o));
        _ ← modify (set_operations (insert (op.ID' o) c));
        _ ← acceptLocalStep depth c s;
        mret None
      end
    end.

Definition cancel_operation (id : ID) (reason : string) : M manager (option error) :=
  m ← self;
  match operations m !! id with
  | None => mret None
  | Some c =>
    match remoteJobHandlerIndex c with
    | Some _ => lift (cancel_remote (remoteJobHandlerIndex c) id reason)
    | None => _ ← modify (store_running (cancel_running c)); mret None
    end
  end.

Definition remote_closed (index : nat) (order : list ID) : M manager unit :=
  _ ← modify (λ m, set_remote (markClosed index (remoteJobs m)) m);
  for_each (λ id,
    m ← self;
    match operations m !! id with
    | Some c =>
      if bool_decide (remoteJobHandlerIndex c = Some index) then
        fail_operation c (errors_New ("remote job handler " +:+ Itoa (Z.of_nat index) +:+ " stopped"))
      else mret tt
    | None => mret tt
    end) order.

Definition remote_update (index : nat) (updated : Operation) : M manager unit :=
  m ← self;
  match operations m !! op.ID' updated with
  | None => mret tt
  | Some c =>
    if negb (bool_decide (remoteJobHandlerIndex c = Some index)) then
      failRemoteJobOperation c (errors_New ("remote job operation " +:+ quote (op.ID' updated)
                                              +:+ " update came from the wrong handler"))
    else match validateRemoteJobUpdate (operation c) updated with
    | Err e => failRemoteJobOperation c e
    | Panic t => lift (Panic t)
    | Ok _ =>
      _ ← modify (store_running (with_operation updated c));
      _ ← modify (appendLocalUpdate updated);
      if localOperationFinished (op.Status' updated) then
        modify (set_operations (delete (op.ID' updated)))
      else mret tt
    end
  end.

Definition primitive_event (e : Event) : M manager unit :=
  let is_completed := localPrimitiveCompleted (event.Type_ e) in
  _ ← modify (λ m, if is_completed then complete_primitive m else m);
  m ← self;
  match operations m !! event.Source e with
  | None => mret tt
  | Some c =>
    let e := if is_completed && canceled c
             then event.Mk PrimitiveEventCanceled (event.Source e) (event.Correlation e) ResultNil
             else e in
    let '(a, r) := handle_actor (actor c) (operation c) (Some e) in
    let c := with_actor a c in
    match r with
    | Err err => fail_operation c err
    | Panic t => lift (Panic t)
    | Ok s => acceptLocalStep depth c s
    end
  end.

(** The context is done: every operation is canceled and the primitives that
    are active are waited for. *)
Definition shutdown : M manager unit :=
  _ ← modify (set_operations (fmap cancel_running));
  modify (λ m, set_mode (if activePrimitives m =? 0 then Stopped else Draining) m).

Definition drain_event (e : Event) : M manager unit :=
  _ ← modify (λ m, if localPrimitiveCompleted (event.Type_ e) then complete_primitive m else m);
  modify (λ m, if activePrimitives m =? 0 then set_mode Stopped m else m).

(** One round of [run]; the response of an Add or a Cancel. *)
Definition manager_step (i : input) : M manager (option error) :=
  m ← self;
  match mode m, i with
  | Running, InDeliver => _ ← modify deliver; mret None
  | Running, InAdd o => add_operation o
  | Running, InCancel id reason => cancel_operation id reason
  | Running, InRemoteClosed index order => _ ← remote_closed index order; mret None
  | Running, InRemoteUpdate index o => _ ← remote_update index o; mret None
  | Running, InEvent e => _ ← primitive_event e; mret None
  | Running, InDone => _ ← shutdown; mret None
  | Draining, InEvent e => _ ← drain_event e; mret None
  | _, _ => mret None
  end.

End Step.
