(* ===== verification/LocalManagerFacts.v ===== *)
(** * Failing an operation never panics

    The manager gives up an operation with [failLocalOperation], which panics
    when a view-image or remote job operation cannot record its own failure.
    The lemmas of this file show that this does not happen for operations the
    manager accepted. *)

From Stdlib Require Import Ascii ZArith Lia.
From S2P Require Import Prelude GoStrings GoText Json JsonCodec GoTime TextFacts Primitives.
From S2P Require Import Operation Output Handler SkillUse Shell ShellFacts ViewImage.
From S2P Require Import ViewImageFacts RemoteJob LocalManager.

Local Open Scope Z_scope.

(** ** Errors with a valid text *)

Definition err_ok {A} (r : result A) : Prop :=
  match r with Err e => string_ok (Error e) = true | _ => True end.

Lemma err_ok_named prefix suffix id :
  string_ok prefix = true → string_ok suffix = true →
  string_ok (prefix +:+ quote id +:+ suffix) = true.
Proof. intros. text_ok. Qed.

Lemma view_checkpoint_err v : err_ok (snd (ViewImage.checkpoint v)).
Proof.
  unfold ViewImage.checkpoint, Marshal. destruct (enc _ _); [exact I|].
  cbn [snd err_ok Errorf_w Error]. text_ok.
Qed.

Lemma view_finish_err r s v : err_ok (snd (ViewImage.finish r s v)).
Proof. unfold ViewImage.finish. autorewrite with M. apply view_checkpoint_err. Qed.

Lemma view_read_err v : err_ok (snd (ViewImage.read_ v)).
Proof.
  unfold ViewImage.read_. autorewrite with M. set (v1 := MkView _ _ _ _ _).
  pose proof (view_checkpoint_err v1) as H. unfold mbind, M_bind.
  by destruct (ViewImage.checkpoint v1) as [? [| |]].
Qed.

Lemma fail_err {S A} text (s : S) : string_ok text = true → err_ok (snd (fail (A := A) (errors_New text) s)).
Proof. done. Qed.

Lemma view_fail_err e v : err_ok (snd (ViewImage.fail_ e v)).
Proof. unfold ViewImage.fail_. apply view_finish_err. Qed.

Lemma view_cancel_err v : err_ok (snd (ViewImage.cancel v)).
Proof. unfold ViewImage.cancel. apply view_finish_err. Qed.

Lemma view_process_err cause v : err_ok (snd (ViewImage.process_ cause v)).
Proof. exact I. Qed.

Ltac err_branches :=
  repeat match goal with
  | |- err_ok (snd (fail _ _)) => apply fail_err; text_ok
  | |- err_ok (snd (ViewImage.fail_ _ _)) => apply view_fail_err
  | |- err_ok (snd (ViewImage.cancel _)) => apply view_cancel_err
  | |- err_ok (snd (ViewImage.finish _ _ _)) => apply view_finish_err
  | |- err_ok (snd (ViewImage.process_ _ _)) => apply view_process_err
  | |- err_ok (snd (ViewImage.read_ _)) => apply view_read_err
  | |- err_ok (snd ((if ?b then _ else _) _)) => destruct b
  | |- err_ok (snd (match ?r with _ => _ end _)) => destruct r
  end.

(** The errors of a view-image handler name texts that it quotes. *)
Lemma view_handle_err event v : err_ok (snd (ViewImage.Handle event v)).
Proof.
  unfold ViewImage.Handle. autorewrite with M. cbv zeta. err_branches.
  unfold handleEvent. autorewrite with M. cbv zeta. err_branches.
  - unfold processed. err_branches.
  - unfold handleRead. autorewrite with M. err_branches. exact I.
Qed.

(** ** Recording a failure *)

Lemma view_fail_runs o v err :
  NewViewImage o = Ok v → string_ok (Error err) = true →
  ∃ o', failLocalOperation o err = Ok o' ∧ op.ID' o' = op.ID' o ∧ op.Status' o' = StatusFailed.
Proof.
  intros Hv He. pose proof Hv as Hv'. unfold NewViewImage in Hv'.
  apply bind_ok in Hv' as (s & Hs & [= Hvs]).
  assert (op.Type' o = TypeViewImage) as Ht.
  { unfold DecodeViewImageState in Hs. destruct (_ || _) eqn:E; [done|].
    by apply orb_false_iff in E as [E%negb_false_iff%bool_decide_eq_true _]. }
  unfold failLocalOperation. rewrite Ht. simpl. unfold failViewImage. rewrite Hv. simpl.
  unfold ViewImage.fail_, ViewImage.finish. autorewrite with M. unfold ViewImage.checkpoint. simpl.
  destruct (Marshal_total ViewImageState_codec
    (vstate.Mk (vstate.Path (ViewImage.state v)) (vstate.Config (ViewImage.state v))
       (Some (error_result (Error err))))) as [j Hj].
  { unfold DecodeViewImageState in Hs. destruct (_ || _); [done|].
    apply bind_ok in Hs as (s' & Hu & Hs). apply bind_ok in Hs as (u & _ & [= ->]).
    apply map_err_ok, (Unmarshal_again ViewImageState_codec) in Hu as [j Hu]. apply Marshal_encodes in Hu.
    subst v. simpl.
    assert (is_Some (enc string_codec (vstate.Path s))) as Hp.
    { eapply (enc_struct_fields _ _ false); [exact Hu|in_list|reflexivity]. }
    assert (is_Some (enc ViewImageConfig_codec (vstate.Config s))) as Hc.
    { eapply (enc_struct_fields _ _ false); [exact Hu|in_list|reflexivity]. }
    apply enc_struct_total. repeat (apply Forall_cons; split; [cbn [snd field]|]); [done|done| |done].
    apply (ptr_encodes ViewImageResult_codec). intros ? [= <-]. simpl. struct_encodes. }
  rewrite Hj. simpl. eexists. split; [done|]. subst v. by simpl.
Qed.

Lemma remote_fail_runs o s err :
  DecodeRemoteJobState o = Ok s →
  ∃ o', failLocalOperation o err = Ok o' ∧ op.ID' o' = op.ID' o ∧ op.Status' o' = StatusFailed.
Proof.
  intros Hs. pose proof Hs as Hd. unfold DecodeRemoteJobState in Hd.
  if_in Hd; [|done]. if_in Hd; [|done]. if_in Hd; [done|]. if_in Hd; [done|].
  apply bind_ok in Hd as (s' & Hu & Hd). apply bind_ok in Hd as (u & Hv & [= ->]).
  apply map_err_ok in Hv. apply map_err_ok, (Unmarshal_again RemoteJobState_codec) in Hu as [j Hu]. apply Marshal_encodes in Hu.
  unfold failLocalOperation. rewrite Hif. simpl. unfold FailRemoteJob. rewrite Hs. simpl.
  unfold UpdateRemoteJob. rewrite Hs. simpl. rewrite Hv. simpl.
  set (s1 := prepareRemoteJobOutput _ _).
  destruct (Marshal_total RemoteJobState_codec s1) as [j1 Hj]; [|rewrite Hj; simpl; by eexists].
  unfold s1, prepareRemoteJobOutput. cbn [rstate.TerminalResult rstate.TerminalError rstate.ResultBytes
    rstate.ResultTruncated rstate.ErrorBytes rstate.ErrorTruncated].
  assert (∀ limit text n b, b = false ∨ text = EmptyString →
    string_ok (fst (fst (prepare_text limit text n b))) = true) as Hok.
  { intros limit text n b Hb. unfold prepare_text.
    assert (negb b || bool_decide (text = EmptyString) = true) as ->
      by (destruct Hb as [-> | ->]; [done|by rewrite orb_true_r]).
    pose proof (BoundOutput_ok text limit). by destruct (BoundOutput text limit). }
  pose proof (Hok (op.MaxOutputLength (op.set_status StatusFailed o)) EmptyString
    (rstate.ResultBytes s) (rstate.ResultTruncated s) (or_intror eq_refl)) as H1.
  pose proof (Hok (op.MaxOutputLength (op.set_status StatusFailed o)) (Error err) 0 false
    (or_introl eq_refl)) as H2.
  destruct (prepare_text _ EmptyString _ _) as [[t1 n1] b1].
  destruct (prepare_text _ (Error err) _ _) as [[t2 n2] b2]. simpl in H1, H2.
  assert (is_Some (enc RemoteJobPlan_codec (rstate.Plan s))) as Hp.
  { eapply (enc_struct_fields _ _ false); [exact Hu|in_list|reflexivity]. }
  assert (∀ v n, (n, is_nil v, enc value_codec v) ∈ RemoteJobState_fields s →
                 is_Some (enc value_codec v)) as Hval.
  { intros v n Hin. destruct (is_nil v) eqn:En; [by destruct v|].
    exact (enc_struct_fields (RemoteJobState_fields s) n false _ Hu Hin eq_refl). }
  assert (is_Some (enc Time_codec (rstate.NextInspectionAt s))) as Htime.
  { destruct (IsZero (rstate.NextInspectionAt s)) eqn:Ez.
    - apply bool_decide_eq_true in Ez. rewrite Ez. exact (zero_total (c := Time_codec)).
    - eapply (enc_struct_fields (RemoteJobState_fields s) _ (IsZero _)); [exact Hu|in_list|exact Ez]. }
  simpl. unfold RemoteJobState_fields. cbn [rstate.Plan rstate.Handle rstate.NextInspectionAt
    rstate.OutstandingInput rstate.Subscription rstate.TerminalResult rstate.TerminalError
    rstate.ResultBytes rstate.ResultTruncated rstate.ErrorBytes rstate.ErrorTruncated].
  apply enc_struct_total.
  repeat (apply Forall_cons; split; [cbn [snd field field_omit]; first
    [assumption | apply string_encodes; assumption | apply int_encodes | apply bool_encodes | idtac]|]);
    try (apply Forall_nil; exact I).
  - apply (Hval _ "Handle"). in_list.
  - apply (Hval _ "OutstandingInput"). in_list.
  - done.
Qed.
