(* ===== verification/ManagerRun.v ===== *)
(** * Runs of the local operation manager

    The invariant of the manager's loop: what its map, its queue and its
    counter say about the updates it published and the primitives it
    started. *)

From Stdlib Require Import Ascii ZArith Lia.
From S2P Require Import Prelude GoStrings GoText Json JsonCodec TextFacts Primitives Operation.
From S2P Require Import Output Handler SkillUse Shell ShellFacts ViewImage ViewImageFacts.
From S2P Require Import RemoteJob LocalManager LocalManagerFacts.

Local Open Scope Z_scope.

Definition finished (o : Operation) : bool := localOperationFinished (op.Status' o).

(** ** Running operations *)

(** What a handler may assume of the operation that the manager holds. *)
Definition actor_inv (o : Operation) (a : Actor) : Prop :=
  match a with
  | ActorShell sh => shell_inv o sh
  | ActorView v => view_inv o v ∧ is_ok (NewViewImage o) = true
  | ActorStateless => op.Type' o ≠ TypeViewImage ∧ op.Type' o ≠ TypeRemoteJob
  | ActorNil => is_ok (DecodeRemoteJobState o) = true
  end.

Record run_inv (c : localRunningOperation) : Prop := {
  run_actor : actor_inv (operation c) (actor c);
  run_remote : remoteJobHandlerIndex c = None ↔ actor c ≠ ActorNil;
}.

Lemma DecodeRemoteJobState_type o s : DecodeRemoteJobState o = Ok s → op.Type' o = TypeRemoteJob.
Proof. unfold DecodeRemoteJobState. intros H. by if_in H. Qed.

(** The types that record their failure in their state are those of a
    checkpoint that decodes. *)
Definition recordable (o : Operation) : Prop :=
  (op.Type' o = TypeViewImage → is_ok (NewViewImage o) = true) ∧
  (op.Type' o = TypeRemoteJob → is_ok (DecodeRemoteJobState o) = true).

Lemma actor_recordable o a : actor_inv o a → recordable o.
Proof.
  unfold recordable. destruct a as [sh|v| |]; simpl.
  - intros (_ & (_ & _ & Ht & _) & Hwf). pose proof (ShellFacts.wf_type _ Hwf) as Hty. rewrite Ht in Hty.
    by rewrite Hty.
  - intros ((_ & (_ & _ & Ht & _) & Hwf) & Hok). pose proof (ViewImageFacts.wf_type _ Hwf) as Hty.
    rewrite Ht in Hty. by rewrite Hty.
  - by intros [? ?].
  - intros H. destruct (DecodeRemoteJobState o) as [s| |] eqn:E; [|done|done].
    by rewrite (DecodeRemoteJobState_type o s E).
Qed.

Definition is_view (a : Actor) : bool := match a with ActorView _ => true | _ => false end.

Lemma actor_view_type o a : actor_inv o a → op.Type' o = TypeViewImage → is_view a = true.
Proof.
  destruct a as [sh|v| |]; simpl.
  - intros (_ & (_ & _ & Ht & _) & Hwf). pose proof (ShellFacts.wf_type _ Hwf) as Hty. rewrite Ht in Hty.
    by rewrite Hty.
  - done.
  - by intros [? ?].
  - intros H. destruct (DecodeRemoteJobState o) as [s| |] eqn:E; [|done|done].
    by rewrite (DecodeRemoteJobState_type o s E).
Qed.

Lemma NewShell_returns o : returns (NewShell o) = true.
Proof.
  unfold NewShell, shellOperationState, DecodeShellState, validateShellState. go_returns.
Qed.

Lemma fail_shell_runs err sh :
  match snd (Shell.fail_ err sh) with
  | Ok st => ∃ o', step.Operation st = Some o' ∧ op.ID' o' = op.ID' (Shell.current sh)
                   ∧ finished o' = true
  | Err _ => True
  | Panic _ => False
  end.
Proof.
  unfold Shell.fail_. autorewrite with M. unfold Shell.checkpoint. cbv zeta.
  set (sh' := with_state _ _). assert (op.ID' (Shell.current sh') = op.ID' (Shell.current sh)) as Hid by done.
  assert (op.Status' (Shell.current sh') = StatusFailed) as Hs by done. clearbody sh'.
  pose proof (Marshal_returns ShellState_codec (Shell.state sh')) as Hr.
  destruct (Marshal _ _); [|done|done]. cbn [map_err snd].
  eexists. split; [done|]. split; [exact Hid|]. unfold finished. simpl. by rewrite Hs.
Qed.

(** An operation that is given up is published as failed. *)
Lemma fail_runs o err :
  recordable o → (op.Type' o = TypeViewImage → string_ok (Error err) = true) →
  ∃ o', failLocalOperation o err = Ok o' ∧ op.ID' o' = op.ID' o ∧ finished o' = true.
Proof.
  intros [Hview Hremote] Htext.
  destruct (decide (op.Type' o = TypeViewImage)) as [Hv|Hv].
  { specialize (Hview Hv). destruct (NewViewImage o) as [v| |] eqn:E; [|done|done].
    destruct (view_fail_runs o v err E (Htext Hv)) as (o' & H1 & H2 & H3).
    exists o'. unfold finished. by rewrite H3. }
  destruct (decide (op.Type' o = TypeRemoteJob)) as [Hr|Hr].
  { specialize (Hremote Hr). destruct (DecodeRemoteJobState o) as [s| |] eqn:E; [|done|done].
    destruct (remote_fail_runs o s err E) as (o' & H1 & H2 & H3).
    exists o'. unfold finished. by rewrite H3. }
  unfold failLocalOperation.
  rewrite (bool_decide_false (op.Type' o = TypeViewImage)), (bool_decide_false (op.Type' o = TypeRemoteJob))
    by done.
  assert (∃ o', Ok (op.set_status StatusFailed o) = Ok o' ∧ op.ID' o' = op.ID' o ∧ finished o' = true)
    as Hplain by by eexists.
  case_bool_decide; [|case_bool_decide; [|done]].
  - pose proof (skillUseOperationState_returns o) as Hret.
    destruct (skillUseOperationState o) as [s| |]; [|done|done]. simpl.
    unfold failSkillUse, skillUseStep.
    destruct (Marshal _ _) as [e| |] eqn:Em; simpl; [by eexists|done|].
    pose proof (Marshal_returns SkillUseState_codec (MkSkillUse (SkillUse.Path s) (SkillUse.Content s) (Error err))) as Hm.
    by rewrite Em in Hm.
  - pose proof (NewShell_returns o) as Hret. destruct (NewShell o) as [sh|e|t] eqn:E; [|done|done]. simpl.
    pose proof (fail_shell_runs err sh) as Hc.
    destruct (snd (Shell.fail_ err sh)) as [st|e|t]; [|done|done].
    destruct Hc as (o' & -> & Hid & Hf). exists o'. split; [done|]. split; [|done].
    rewrite Hid. unfold NewShell in E. by apply bind_ok in E as (s & _ & [= <-]).
Qed.

(** ** The log of updates *)

(** Nothing is published of an operation after its final update. *)
Definition closed_log (l : list Operation) : Prop :=
  ∀ l1 o l2, l = l1 ++ o :: l2 → finished o = true → ∀ o', o' ∈ l2 → op.ID' o' ≠ op.ID' o.

Lemma closed_log_snoc l o :
  closed_log l → (∀ o', o' ∈ l → op.ID' o' = op.ID' o → finished o' = false) →
  closed_log (l ++ [o]).
Proof.
  intros Hl Ho l1 p l2 Heq Hp o' Hin.
  destruct l2 as [|x l2 _] using rev_ind; [by apply elem_of_nil in Hin|].
  rewrite app_comm_cons, app_assoc in Heq. apply app_inj_tail in Heq as [-> <-].
  apply elem_of_app in Hin as [Hin|Hin]; [by eapply Hl|].
  apply list_elem_of_singleton in Hin. subst o'. intros Hid.
  rewrite (Ho p) in Hp; [done|set_solver|done].
Qed.

(** ** The invariant *)

Definition live (m : manager) (id : ID) : Prop := is_Some (operations m !! id).

(** [pending] is the operation whose step is being accepted: its entry in the
    map is updated last. *)
Record pinv (pending : option ID) (m : manager) : Prop := {
  inv_running : ∀ id c, operations m !! id = Some c →
    id ∈ accepted m ∧ (pending ≠ Some id → op.ID' (operation c) = id ∧ run_inv c);
  inv_published : ∀ o, o ∈ log m → op.ID' o ∈ accepted m;
  inv_closed : closed_log (log m);
  inv_live : ∀ o, o ∈ log m → live m (op.ID' o) → finished o = false;
  inv_ended : ∀ id, id ∈ accepted m → ¬ live m id →
    ∃ o, o ∈ log m ∧ op.ID' o = id ∧ finished o = true;
  inv_queue : log m = delivered m ++ pendingUpdates m;
  inv_active : activePrimitives m = Z.of_nat (length (started m)) - completed m;
  inv_started : ∀ id d, (id, d) ∈ started m → id ∈ accepted m ∧ dispatch_for id d ∧
    ∀ c, operations m !! id = Some c → remoteJobHandlerIndex c = None;
}.

Abbreviation inv := (pinv None).

Lemma inv_pending id m : inv m → pinv (Some id) m.
Proof.
  intros []. constructor; try done. intros i c Hc. destruct (inv_running0 i c Hc) as [H1 H2].
  split; [done|]. auto.
Qed.

(** The operation is published and stays. *)
Lemma publish_live id m o c :
  pinv (Some id) m → live m id → op.ID' o = id → finished o = false →
  op.ID' (operation c) = id → run_inv c →
  (remoteJobHandlerIndex c = None ∨ ∃ c0, operations m !! id = Some c0 ∧
     remoteJobHandlerIndex c0 = remoteJobHandlerIndex c) →
  inv (set_operations (insert id c) (appendLocalUpdate o m)).
Proof.
  intros [H1 H2 H3 H4 H5 H6 H7 H8] Hlive Hid Hf Hc Hrun Hremote.
  assert (id ∈ accepted m) as Hacc by (destruct Hlive as [c0 Hc0]; by eapply H1).
  constructor; simpl.
  - intros i c'. destruct (decide (id = i)) as [->|Hne].
    + rewrite lookup_insert_eq. by intros [= <-].
    + rewrite lookup_insert_ne by done. intros Hi. destruct (H1 i c' Hi) as [Ha Hb].
      split; [done|]. intros _. apply Hb. congruence.
  - intros p [Hp|Hp%list_elem_of_singleton]%elem_of_app; [by apply H2|by subst].
  - apply closed_log_snoc; [done|]. intros p Hp Heq. apply H4; [done|]. by rewrite Heq, Hid.
  - intros p [Hp|Hp%list_elem_of_singleton]%elem_of_app Hl; [|by subst].
    apply H4; [done|]. destruct (decide (op.ID' p = id)) as [->|Hne]; [done|].
    unfold live in Hl. simpl in Hl. by rewrite lookup_insert_ne in Hl by done.
  - intros i Hi Hl. destruct (H5 i Hi) as (p & Hp & Hpi & Hpf).
    { intros Hl'. apply Hl. unfold live. simpl. destruct (decide (id = i)) as [->|Hne].
      - by rewrite lookup_insert_eq.
      - by rewrite lookup_insert_ne. }
    exists p. set_solver.
  - by rewrite H6, app_assoc.
  - done.
  - intros i d Hd. destruct (H8 i d Hd) as (Ha & Hb & Hx). split; [done|]. split; [done|].
    intros c'. destruct (decide (id = i)) as [->|Hne].
    + rewrite lookup_insert_eq. intros [= <-]. destruct Hremote as [|(c0 & Hc0 & <-)]; [done|by apply Hx].
    + rewrite lookup_insert_ne by done. by apply Hx.
Qed.

(** The operation is published for the last time. *)
Lemma publish_final pending id m o :
  pinv pending m → (pending = None ∨ pending = Some id) → live m id → op.ID' o = id → finished o = true →
  inv (set_operations (delete id) (appendLocalUpdate o m)).
Proof.
  intros [H1 H2 H3 H4 H5 H6 H7 H8] Hpend Hlive Hid Hf.
  assert (id ∈ accepted m) as Hacc by (destruct Hlive as [c0 Hc0]; by eapply H1).
  constructor; simpl.
  - intros i c' [Hne Hi]%lookup_delete_Some. destruct (H1 i c' Hi) as [Ha Hb].
    split; [done|]. intros _. apply Hb. by destruct Hpend as [-> | ->]; congruence.
  - intros p [Hp|Hp%list_elem_of_singleton]%elem_of_app; [by apply H2|by subst].
  - apply closed_log_snoc; [done|]. intros p Hp Heq. apply H4; [done|]. by rewrite Heq, Hid.
  - intros p Hp [c' Hc']. simpl in Hc'. apply lookup_delete_Some in Hc' as [Hne Hi].
    apply elem_of_app in Hp as [Hp|Hp%list_elem_of_singleton]; [|by subst]. apply H4; [done|by exists c'].
  - intros i Hi Hl. destruct (decide (id = i)) as [<-|Hne].
    { exists o. set_solver. }
    destruct (H5 i Hi) as (p & Hp & Hpi & Hpf); [|exists p; set_solver].
    intros Hl'. apply Hl. unfold live. simpl. by rewrite lookup_delete_ne.
  - by rewrite H6, app_assoc.
  - done.
  - intros i d Hd. destruct (H8 i d Hd) as (Ha & Hb & Hx). split; [done|]. split; [done|].
    intros c' [_ Hi]%lookup_delete_Some. by apply Hx.
Qed.

(** The actor of an operation changes without an update. *)
Lemma update_running id m c c0 :
  pinv (Some id) m → operations m !! id = Some c0 → op.ID' (operation c) = id → run_inv c →
  remoteJobHandlerIndex c = remoteJobHandlerIndex c0 →
  inv (set_operations (insert id c) m).
Proof.
  intros [H1 H2 H3 H4 H5 H6 H7 H8] Hlive Hc Hrun Hremote.
  assert (∀ i, live (set_operations (insert id c) m) i ↔ live m i) as Hl.
  { intros i. unfold live. simpl. destruct (decide (id = i)) as [->|Hne].
    - rewrite lookup_insert_eq, Hlive. by split.
    - by rewrite lookup_insert_ne. }
  constructor; simpl; try done.
  - intros i c'. destruct (decide (id = i)) as [->|Hne].
    + rewrite lookup_insert_eq. intros [= <-]. split; [by eapply H1|done].
    + rewrite lookup_insert_ne by done. intros Hi. destruct (H1 i c' Hi) as [Ha Hb].
      split; [done|]. intros _. apply Hb. congruence.
  - intros p Hp Hlp. apply H4; [done|]. by apply Hl.
  - intros i Hi Hni. apply H5; [done|]. by rewrite <- Hl.
  - intros i d Hd. destruct (H8 i d Hd) as (Ha & Hb & Hx). split; [done|]. split; [done|].
    intros c'. destruct (decide (id = i)) as [->|Hne].
    + rewrite lookup_insert_eq. intros [= <-]. rewrite Hremote. by apply Hx.
    + rewrite lookup_insert_ne by done. by apply Hx.
Qed.

(** A primitive is started for a running local operation. *)
Lemma start_inv id d m c :
  inv m → operations m !! id = Some c → remoteJobHandlerIndex c = None → dispatch_for id d →
  inv (start_primitive id d m).
Proof.
  intros [H1 H2 H3 H4 H5 H6 H7 H8] Hc Hr Hd. constructor; simpl; try done.
  - rewrite H7, length_app. simpl. lia.
  - intros i d' [Hin|Hin%list_elem_of_singleton]%elem_of_app; [by apply H8|].
    injection Hin as -> ->. split; [by eapply H1|]. split; [done|]. intros c'. rewrite Hc. by intros [= <-].
Qed.

(** ** Steps *)

Lemma dispatch_starts id d : dispatch_for id d → startLocalPrimitive d = None.
Proof.
  unfold dispatch_for, startLocalPrimitive. destruct (dispatch.Data d); [..|done];
    intros [-> _]; reflexivity.
Qed.

Lemma AdvanceValue_ok o e st :
  AdvanceValue o e = Ok st → step_ok o st ∧ localOperationFinished (op.Status' o) = false.
Proof.
  unfold AdvanceValue. intros (v & _ & H)%bind_ok. destruct e; [done|].
  if_in H; [|if_in H; [|done]]; injection H as <-;
    (split; [apply step_ok_checkpoint; [by repeat split|by right]|apply not_finished; auto]).
Qed.

Lemma AdvanceValue_returns o e : returns (AdvanceValue o e) = true.
Proof. unfold AdvanceValue, DecodeValue. go_returns. Qed.

#[export] Instance value_lawful : @LawfulHandler unit (stateless AdvanceValue).
Proof. apply stateless_lawful; [apply AdvanceValue_ok|apply AdvanceValue_returns]. Qed.

Definition input_typed (e : option Event) : Prop :=
  match e with Some e => value_typed e = true | None => True end.

Lemma input_typed_typed e : input_typed e → typed e.
Proof. destruct e; [|done]. simpl. by intros [H _]%andb_true_iff. Qed.

Lemma advanceLocal_post o e :
  match advanceLocalOperation o e with
  | Ok st => step_ok o st ∧ localOperationFinished (op.Status' o) = false
  | Err _ => True
  | Panic _ => False
  end.
Proof.
  unfold advanceLocalOperation. case_bool_decide; [|case_bool_decide; [|done]].
  - pose proof (AdvanceValue_returns o e). destruct (AdvanceValue o e) eqn:E; [|done|done].
    by apply (AdvanceValue_ok o e).
  - pose proof (AdvanceSkillUse_returns o e). destruct (AdvanceSkillUse o e) eqn:E; [|done|done].
    by apply (AdvanceSkillUse_ok o e).
Qed.

Lemma step_ok_type o st : step_ok o st → op.Type' (next_operation o st) = op.Type' o.
Proof.
  intros (H & _ & _). unfold next_operation. destruct (step.Operation st) as [o'|]; [|done].
  by destruct (H o' eq_refl) as [(_ & _ & Ht & _) _].
Qed.

(** What a running operation answers. *)
Lemma handle_actor_post o a e :
  actor_inv o a → a ≠ ActorNil → input_typed e →
  match handle_actor a o e with
  | (a', Ok st) => step_ok o st ∧ actor_inv (next_operation o st) a' ∧ a' ≠ ActorNil
  | (_, Err err) => is_view a = true → string_ok (Error err) = true
  | (_, Panic _) => False
  end.
Proof.
  intros Ha Hnil Ht. destruct a as [sh|v| |]; [| | |done]; simpl in *.
  - pose proof (ShellFacts.Handle_post o e sh Ha (input_typed_typed e Ht)) as Hp.
    unfold ShellFacts.post in Hp. destruct (Shell.Handle e sh) as [sh' [st|err|t]]; simpl in *; [|done|done].
    by destruct Hp as (H1 & H2 & _).
  - destruct Ha as [Ha Hok]. pose proof (ViewImageFacts.view_Handle_post o e v Ha Ht) as Hp.
    pose proof (view_handle_err e v) as Herr.
    unfold ViewImageFacts.post in Hp. destruct (ViewImage.Handle e v) as [v' [st|err|t]]; simpl in *; [|done|done].
    destruct Hp as (H1 & H2 & H3). split; [done|]. split; [|done]. split; [done|].
    unfold next_operation. destruct (step.Operation st) as [o'|] eqn:E; [|done]. simpl. by rewrite (H3 o').
  - pose proof (advanceLocal_post o e) as Hp. destruct (advanceLocalOperation o e) as [st|err|t]; [|done|done].
    destruct Hp as [Hp _]. split; [done|]. split; [|done]. by rewrite (step_ok_type o st Hp).
Qed.

Lemma store_running_live m c id :
  live m id → op.ID' (operation c) = id → store_running c m = set_operations (insert id c) m.
Proof.
  intros Hl <-. unfold store_running, set_operations. by rewrite decide_True.
Qed.

Definition starts (id : ID) (ds : list PrimitiveDispatch) (m : manager) : manager :=
  fold_left (λ m d, start_primitive id d m) ds m.

(** A step whose dispatches the manager supports. *)
Lemma acceptLocalStep_some fuel c o' ds m :
  Forall (λ d, startLocalPrimitive d = None) ds → (length ds ≤ 1)%nat →
  let m1 := store_running (with_operation o' c) (appendLocalUpdate o' m) in
  acceptLocalStep fuel c (step.Mk (Some o') ds) m
  = (if finished o' then set_operations (delete (op.ID' o')) m1 else starts (op.ID' o') ds m1, Ok tt).
Proof.
  intros Hds Hlen m1. unfold finished.
  destruct fuel; simpl; autorewrite with M; fold m1;
    (destruct (localOperationFinished _); [done|]);
    (destruct ds as [|d [|]]; simpl in *; [done| |lia]); apply Forall_cons in Hds as [-> _]; done.
Qed.

Lemma acceptLocalStep_none fuel c ds m :
  Forall (λ d, startLocalPrimitive d = None) ds → (length ds ≤ 1)%nat →
  acceptLocalStep fuel c (step.Mk None ds) m
  = (starts (op.ID' (operation c)) ds (store_running c m), Ok tt).
Proof.
  intros Hds Hlen.
  destruct fuel; simpl; autorewrite with M;
    (destruct ds as [|d [|]]; simpl in *; [done| |lia]); apply Forall_cons in Hds as [-> _]; done.
Qed.

Lemma starts_inv id ds m c :
  inv m → operations m !! id = Some c → remoteJobHandlerIndex c = None →
  Forall (dispatch_for id) ds → (length ds ≤ 1)%nat →
  inv (starts id ds m) ∧ mode (starts id ds m) = mode m.
Proof.
  intros Hm Hc Hr Hds Hlen. destruct ds as [|d [|]]; simpl in *; [done| |lia].
  apply Forall_cons in Hds as [Hd _]. split; [by eapply start_inv|done].
Qed.

Lemma delete_inserted id c m :
  set_operations (delete id) (set_operations (insert id c) m) = set_operations (delete id) m.
Proof. unfold set_operations. simpl. by rewrite delete_insert_eq. Qed.

Lemma delete_stored id c m :
  live m id → op.ID' (operation c) = id →
  set_operations (delete id) (store_running c m) = set_operations (delete id) m.
Proof. intros Hl Hid. by rewrite (store_running_live m c id), delete_inserted. Qed.

(** A step that a handler returned is accepted, whatever the fuel. *)
Lemma accept_inv fuel id c c0 s m :
  pinv (Some id) m → operations m !! id = Some c0 → remoteJobHandlerIndex c0 = None →
  remoteJobHandlerIndex c = None → op.ID' (operation c) = id → actor c ≠ ActorNil →
  step_ok (operation c) s → actor_inv (next_operation (operation c) s) (actor c) →
  ∃ m', acceptLocalStep fuel c s m = (m', Ok tt) ∧ inv m' ∧ mode m' = mode m.
Proof.
  intros Hinv Hc0 Hr0 Hr Hid Hnil (Hop & Hds & Hlen) Hact.
  assert (live m id) as Hlive by (by exists c0). rewrite Hid in Hds.
  assert (Forall (λ d, startLocalPrimitive d = None) (step.Dispatches s)) as Hstart.
  { eapply Forall_impl; [exact Hds|]. apply dispatch_starts. }
  destruct s as [[o'|] ds]; simpl in *.
  - destruct (Hop o' eq_refl) as [(_ & Hi & _) Hs]. rewrite Hid in Hi.
    rewrite acceptLocalStep_some by done. eexists. split; [reflexivity|].
    destruct (finished o') eqn:Ef.
    + rewrite Hi, delete_stored by done. split; [|done]. by eapply publish_final; [|right| | |].
    + rewrite Hi, (store_running_live _ _ id) by done.
      assert (inv (set_operations (insert id (with_operation o' c)) (appendLocalUpdate o' m))) as Hm1.
      { apply publish_live; try done. by left. }
      destruct (starts_inv id ds _ (with_operation o' c) Hm1) as [H1 ->];
        [simpl; by rewrite lookup_insert_eq|done..].
  - rewrite acceptLocalStep_none by done. eexists. split; [reflexivity|].
    rewrite Hid, (store_running_live _ _ id) by done.
    assert (inv (set_operations (insert id c) m)) as Hm1.
    { eapply update_running; [done|done|done| |congruence]. by constructor. }
    destruct (starts_inv id ds _ c Hm1) as [H1 ->]; [simpl; by rewrite lookup_insert_eq|done..].
Qed.

(** A running operation is given up. *)
Lemma fail_inv pending id c m err :
  pinv pending m → (pending = None ∨ pending = Some id) → live m id → op.ID' (operation c) = id →
  recordable (operation c) →
  (op.Type' (operation c) = TypeViewImage → string_ok (Error err) = true) →
  ∃ m', fail_operation c err m = (m', Ok tt) ∧ inv m' ∧ mode m' = mode m
        ∧ operations m' = delete id (operations m) ∧ remoteJobs m' = remoteJobs m.
Proof.
  intros Hinv Hp Hlive Hid Hrec Htext.
  destruct (fail_runs (operation c) err Hrec Htext) as (o' & Ho & Hi & Hf).
  unfold fail_operation. rewrite Ho. autorewrite with M. eexists. split; [reflexivity|].
  rewrite Hid. split; [|done]. eapply publish_final; [done|done|done|congruence|done].
Qed.

(** ** Inputs *)

(** The manager is handed operations whose checkpoint is well formed, and
    events of primitives that it started whose values fit their types. *)
Definition sound (o : Operation) : Prop :=
  ∀ a, initialize o = Ok a →
  match a with ActorShell sh => shell_inv o sh | ActorView v => view_inv o v | _ => True end.

Definition admissible (m : manager) (i : input) : Prop :=
  match i with
  | InAdd o => op.ID' o ∉ accepted m → sound o
  | InEvent e => value_typed e = true ∧ ∃ d, (event.Source e, d) ∈ started m
  | _ => True
  end.

Lemma initialize_inv o a :
  initialize o = Ok a → op.Type' o ≠ TypeRemoteJob → sound o → actor_inv o a ∧ a ≠ ActorNil.
Proof.
  intros H Hr Hs. specialize (Hs a H). unfold initialize in H. if_in H; [|if_in H].
  - destruct (NewShell o); simplify_eq/=. by split.
  - destruct (NewViewImage o) eqn:E; simplify_eq/=. by rewrite E.
  - by injection H as <-.
Qed.

Lemma initialize_returns o : returns (initialize o) = true.
Proof.
  unfold initialize. pose proof (NewShell_returns o).
  assert (returns (NewViewImage o) = true).
  { unfold NewViewImage, DecodeViewImageState, validateViewImageState. go_returns. }
  case_bool_decide; [by destruct (NewShell o)|]. case_bool_decide; [by destruct (NewViewImage o)|done].
Qed.

Lemma match_handlers_returns s hs index matched : returns (match_handlers s index hs matched) = true.
Proof.
  revert index matched. induction hs as [|h hs IH]; intros index matched; [done|]. cbn [match_handlers].
  cbv zeta. destruct (match h with Some _ => _ | None => _ end); [apply IH|]. destruct matched; [done|apply IH].
Qed.

(** A new operation is accepted. *)
Lemma accept_id_inv o c m :
  inv m → op.ID' o ∉ accepted m →
  pinv (Some (op.ID' o)) (set_operations (insert (op.ID' o) c) (accept_id (op.ID' o) m)) ∧
  (op.ID' (operation c) = op.ID' o → run_inv c →
   inv (set_operations (insert (op.ID' o) c) (accept_id (op.ID' o) m))).
Proof.
  intros [H1 H2 H3 H4 H5 H6 H7 H8] Hnew. set (id := op.ID' o) in *.
  set (m' := set_operations _ _).
  assert (∀ pending, (pending ≠ Some id → op.ID' (operation c) = id ∧ run_inv c) → pinv pending m')
    as H.
  { intros pending Hc. constructor; simpl; try done.
    - intros i c'. destruct (decide (id = i)) as [->|Hne].
      + rewrite lookup_insert_eq. intros [= <-]. split; [set_solver|done].
      + rewrite lookup_insert_ne by done. intros Hi. destruct (H1 i c' Hi) as [Ha Hb].
        split; [set_solver|]. intros _. by apply Hb.
    - intros p Hp. apply elem_of_union_r, H2, Hp.
    - intros p Hp Hl. apply H4; [done|]. unfold live in *. simpl in Hl.
      rewrite lookup_insert_ne in Hl; [done|]. intros Heq. specialize (H2 p Hp). by rewrite <- Heq in H2.
    - intros i Hi Hl. assert (id ≠ i) as Hne.
      { intros ->. apply Hl. unfold live. simpl. by rewrite lookup_insert_eq. }
      apply H5; [set_solver|]. intros Hl'. apply Hl. unfold live. simpl. by rewrite lookup_insert_ne.
    - intros i d Hd. destruct (H8 i d Hd) as (Ha & Hb & Hx). split; [set_solver|]. split; [done|].
      intros c'. rewrite lookup_insert_ne by congruence. by apply Hx. }
  split; [apply H; congruence|]. intros Hc Hrun. by apply H.
Qed.

Section Step.
Context (AddRemoteJob : nat → Operation → option error)
        (CancelRemoteJob : nat → ID → string → option error).

Lemma add_inv o m :
  inv m → (op.ID' o ∉ accepted m → sound o) →
  ∃ m' r, add_operation AddRemoteJob o m = (m', Ok r) ∧ inv m' ∧ mode m' = mode m.
Proof.
  intros Hm Hs. unfold add_operation. autorewrite with M.
  destruct (decide (op.ID' o ∈ accepted m)) as [Hin|Hnew]; [by eexists _, _|]. specialize (Hs Hnew).
  case_bool_decide as Ht.
  - unfold add_remote. pose proof (DecodeRemoteJobState_returns o) as Hret.
    destruct (DecodeRemoteJobState o) as [s|e|t] eqn:Ed; [|by eexists _, _|done]. simpl.
    destruct (match_handlers s 0 (handlers (remoteJobs m)) None) as [[index|]|e|t] eqn:Em; simpl;
      [|by eexists _, _|by eexists _, _|].
    + destruct (default false (closed (remoteJobs m) !! index)); [by eexists _, _|].
      destruct (AddRemoteJob index o); [by eexists _, _|]. autorewrite with M.
      eexists _, _. split; [reflexivity|]. split; [|done].
      apply accept_id_inv; [done|done|done|]. constructor; simpl; [by rewrite Ed|by split].
    + pose proof (match_handlers_returns s (handlers (remoteJobs m)) 0 None) as Hr. by rewrite Em in Hr.
  - pose proof (initialize_returns o) as Hret.
    destruct (initialize o) as [a|e|t] eqn:Ei; [|by eexists _, _|done].
    destruct (initialize_inv o a Ei Ht Hs) as [Ha Hnil].
    pose proof (handle_actor_post o a None Ha Hnil I) as Hp.
    destruct (handle_actor a o None) as [a' [st|e|t]]; [|by eexists _, _|done].
    destruct Hp as (Hst & Ha' & Hnil'). autorewrite with M. set (c := MkRunning false o None a').
    pose proof (proj1 (accept_id_inv o c m Hm Hnew)) as Hm1.
    edestruct (accept_inv depth (op.ID' o) c c st _ Hm1) as (m' & Hacc & Hinv & Hmode);
      [simpl; by rewrite lookup_insert_eq|done|done|done|done|exact Hst|exact Ha'|].
    unfold mbind, M_bind. rewrite Hacc. eexists _, _. split; [reflexivity|]. split; [done|].
    by rewrite Hmode.
Qed.

Lemma set_remote_inv r m : inv m → inv (set_remote r m).
Proof. intros []. by constructor. Qed.

Lemma running_fail id c m err :
  inv m → operations m !! id = Some c →
  (op.Type' (operation c) = TypeViewImage → string_ok (Error err) = true) →
  ∃ m', fail_operation c err m = (m', Ok tt) ∧ inv m' ∧ mode m' = mode m.
Proof.
  intros Hm Hc Ht. destruct (inv_running _ m Hm id c Hc) as [_ [Hid [Hact _]]]; [done|].
  destruct (fail_inv None id c m err) as (m' & ? & ? & ? & _); try done; [by left|by exists c| |by exists m'].
  by eapply actor_recordable.
Qed.

Lemma remote_closed_inv index order m :
  inv m → ∃ m', remote_closed index order m = (m', Ok tt) ∧ inv m' ∧ mode m' = mode m.
Proof.
  intros Hm. unfold remote_closed. autorewrite with M.
  edestruct (for_each_runs (A := ID) (λ m', inv m' ∧ mode m' = mode m)) as (m' & Hrun & H1 & H2);
    [|split; [by apply set_remote_inv|done]|by exists m'].
  intros id m' _ [Hm' Hmode]. autorewrite with M.
  destruct (operations m' !! id) as [c|] eqn:Ec; [|by exists m']. case_bool_decide; [|by exists m'].
  set (err := errors_New _). destruct (running_fail id c m' err Hm' Ec) as (m1 & Hf & Hm1 & Hmode1).
  { intros _. unfold err. cbn [Error errors_New]. text_ok. }
  exists m1. by rewrite Hmode1.
Qed.

Lemma remote_decoded c : run_inv c → actor c = ActorNil →
  is_ok (DecodeRemoteJobState (operation c)) = true.
Proof. intros [Ha _] E. by rewrite E in Ha. Qed.

Lemma failRemoteJob_inv id c i err m :
  inv m → operations m !! id = Some c → remoteJobHandlerIndex c = Some i →
  ∃ m', failRemoteJobOperation CancelRemoteJob c err m = (m', Ok tt) ∧ inv m' ∧ mode m' = mode m.
Proof.
  intros Hm Hc Hi. unfold failRemoteJobOperation, cancel_remote. rewrite Hi. autorewrite with M.
  destruct (inv_running _ m Hm id c Hc) as [_ [Hid Hrun]]; [done|].
  eapply (running_fail id); [done..|].
  intros Hv. pose proof (proj1 (actor_recordable _ _ (run_actor _ Hrun)) Hv) as Hok.
  assert (actor c = ActorNil) as Ha.
  { destruct (run_remote _ Hrun) as [_ H]. destruct (actor c); try done; by rewrite H in Hi. }
  pose proof (remote_decoded c Hrun Ha) as Hd.
  destruct (DecodeRemoteJobState (operation c)) as [s| |] eqn:Es; [|done|done].
  apply DecodeRemoteJobState_type in Es. by rewrite Es in Hv.
Qed.

Lemma validateRemoteJobUpdate_returns o o' : returns (validateRemoteJobUpdate o o') = true.
Proof. unfold validateRemoteJobUpdate. go_returns. Qed.

(** An update names a local operation that runs: it is answered by a cancel
    of the handler -1. *)
Definition misdirected (m : manager) (i : input) : bool :=
  match mode m, i with
  | Running, InRemoteUpdate _ o =>
    match operations m !! op.ID' o with
    | Some c => bool_decide (remoteJobHandlerIndex c = None)
    | None => false
    end
  | _, _ => false
  end.

Lemma remote_update_inv index updated m :
  inv m → mode m = Running →
  if misdirected m (InRemoteUpdate index updated)
  then ∃ m' t, remote_update CancelRemoteJob index updated m = (m', Panic t)
  else ∃ m', remote_update CancelRemoteJob index updated m = (m', Ok tt) ∧ inv m' ∧ mode m' = mode m.
Proof.
  intros Hm Hrunning. unfold misdirected. rewrite Hrunning.
  unfold remote_update. autorewrite with M.
  destruct (operations m !! op.ID' updated) as [c|] eqn:Ec; [|by exists m].
  destruct (inv_running _ m Hm _ c Ec) as [_ [Hid Hrun]]; [done|].
  case_bool_decide as Hnone.
  { rewrite Hnone, bool_decide_false by done. unfold failRemoteJobOperation. rewrite Hnone.
    by eexists _, _. }
  destruct (bool_decide_reflect (remoteJobHandlerIndex c = Some index)) as [Hi|_]; cbn [negb].
  2: { destruct (remoteJobHandlerIndex c) as [i|] eqn:Ei; [|done]. rewrite <- Hrunning.
       by eapply failRemoteJob_inv. }
  rewrite <- Hrunning.
  assert (actor c = ActorNil) as Ha.
  { destruct (run_remote _ Hrun) as [_ H]. destruct (actor c); try done; by rewrite H in Hi. }
  pose proof (validateRemoteJobUpdate_returns (operation c) updated) as Hret.
  destruct (validateRemoteJobUpdate (operation c) updated) as [u|e|t] eqn:Hv; [| |done].
  - apply validateRemoteJobUpdate_ok in Hv as (_ & _ & _ & Hp & [p Hsome] & _).
    assert (is_ok (DecodeRemoteJobState updated) = true) as Hok.
    { rewrite Hsome in Hp. unfold plan_of in Hp. by destruct (DecodeRemoteJobState updated). }
    autorewrite with M. set (c' := with_operation updated c).
    rewrite (store_running_live m c' (op.ID' updated)) by (done || by exists c).
    change (appendLocalUpdate updated (set_operations (insert (op.ID' updated) c') m))
      with (set_operations (insert (op.ID' updated) c') (appendLocalUpdate updated m)).
    destruct (localOperationFinished (op.Status' updated)) eqn:Ef; (eexists; split; [reflexivity|]); (split; [|done]).
    + rewrite delete_inserted. by apply (publish_final None (op.ID' updated)); [|left|exists c| |].
    + apply publish_live; try done; [by apply inv_pending|by exists c| |].
      * constructor; simpl; [by rewrite Ha|]. rewrite Ha, Hi. split; [done|congruence].
      * right. exists c. by rewrite Hi.
  - by eapply failRemoteJob_inv.
Qed.

Lemma complete_inv m : inv m → inv (complete_primitive m).
Proof. intros []. constructor; try done. simpl. lia. Qed.

Lemma primitive_event_inv e m :
  inv m → value_typed e = true → (∃ d, (event.Source e, d) ∈ started m) →
  ∃ m', primitive_event e m = (m', Ok tt) ∧ inv m' ∧ mode m' = mode m.
Proof.
  intros Hm Ht [d Hd]. unfold primitive_event. autorewrite with M.
  set (m1 := if localPrimitiveCompleted _ then _ else _).
  assert (inv m1) as Hm1 by (unfold m1; destruct (localPrimitiveCompleted _); [by apply complete_inv|done]).
  assert (mode m = mode m1) as -> by (unfold m1; by destruct (localPrimitiveCompleted _)).
  assert ((event.Source e, d) ∈ started m1) as Hd1 by (unfold m1; by destruct (localPrimitiveCompleted _)).
  set (is_completed := localPrimitiveCompleted (event.Type_ e)). clearbody m1 is_completed. clear Hm Hd m.
  destruct (operations m1 !! event.Source e) as [c|] eqn:Ec; [|by exists m1].
  destruct (inv_running _ m1 Hm1 _ c Ec) as [_ [Hid Hrun]]; [done|].
  destruct (inv_started _ m1 Hm1 _ d Hd1) as (_ & _ & Hr). specialize (Hr c Ec).
  pose proof (proj1 (run_remote _ Hrun) Hr) as Hnil.
  set (e' := if _ : bool then _ else e).
  assert (input_typed (Some e')) as Ht'.
  { unfold e'. destruct (is_completed && canceled c); [reflexivity|exact Ht]. }
  clearbody e'.
  pose proof (handle_actor_post _ (actor c) (Some e') (run_actor _ Hrun) Hnil Ht') as Hp.
  destruct (handle_actor (actor c) (operation c) (Some e')) as [a [st|err|t]] eqn:Eh; [| |done].
  - destruct Hp as (Hst & Ha & Ha').
    by apply (accept_inv depth (event.Source e) (with_actor a c) c st m1 (inv_pending _ _ Hm1) Ec).
  - destruct (fail_inv None (event.Source e) (with_actor a c) m1 err) as (m' & H1 & H2 & H3 & _);
      try done; [by left|by exists c| | |by exists m'].
    + exact (actor_recordable _ _ (run_actor _ Hrun)).
    + intros Hv. apply Hp. exact (actor_view_type _ _ (run_actor _ Hrun) Hv).
Qed.

Lemma cancel_running_inv f m :
  inv m → (∀ c, f c = c ∨ f c = cancel_running c) → inv (set_operations (fmap f) m).
Proof.
  intros [H1 H2 H3 H4 H5 H6 H7 H8] Hf.
  assert (∀ id, live (set_operations (fmap f) m) id ↔ live m id) as Hl.
  { intros id. unfold live. simpl. rewrite lookup_fmap. apply fmap_is_Some. }
  constructor; simpl; try done.
  - intros id c. rewrite lookup_fmap. intros (c0 & Hc & ->)%fmap_Some. destruct (H1 id c0 Hc) as [Ha Hb].
    split; [done|]. intros _. destruct Hb as [Hid [Hact Hr]]; [done|].
    by destruct (Hf c0) as [-> | ->].
  - intros o Ho Hlive. apply H4; [done|by apply Hl].
  - intros id Hid Hn. apply H5; [done|by rewrite <- Hl].
  - intros id d Hd. destruct (H8 id d Hd) as (Ha & Hb & Hx). split; [done|]. split; [done|].
    intros c. rewrite lookup_fmap. intros (c0 & Hc & ->)%fmap_Some. specialize (Hx c0 Hc).
    by destruct (Hf c0) as [-> | ->].
Qed.

Lemma cancel_one_inv id c m : inv m → operations m !! id = Some c → inv (store_running (cancel_running c) m).
Proof.
  intros Hm Hc. destruct (inv_running _ m Hm id c Hc) as [_ [Hid Hrun]]; [done|].
  rewrite (store_running_live m _ id) by (done || by exists c).
  eapply update_running; [by apply inv_pending|exact Hc|done| |done]. by destruct Hrun.
Qed.

Lemma set_mode_inv p m : inv m → inv (set_mode p m).
Proof. intros []. by constructor. Qed.

Lemma deliver_inv m : inv m → inv (deliver m).
Proof.
  intros Hm. unfold deliver. destruct (pendingUpdates m) as [|o rest] eqn:E; [done|]. destruct Hm.
  constructor; try done. simpl. by rewrite inv_queue0, E, <- app_assoc.
Qed.

(** Nothing is left to wait for once the loop ended. *)
Definition stopped_idle (m : manager) : Prop := mode m = Stopped → activePrimitives m = 0.

(** A round panics on a misdirected update only, and keeps the invariant. *)
Lemma manager_step_inv i m :
  inv m → stopped_idle m → admissible m i →
  if misdirected m i
  then ∃ m' t, manager_step AddRemoteJob CancelRemoteJob i m = (m', Panic t)
  else ∃ m' r, manager_step AddRemoteJob CancelRemoteJob i m = (m', Ok r) ∧ inv m' ∧ stopped_idle m'.
Proof.
  intros Hm Hs Hi. unfold manager_step, misdirected. autorewrite with M.
  assert (∀ m', mode m = Running → mode m' = mode m → stopped_idle m') as Hrun.
  { intros m' E1 E2. unfold stopped_idle. congruence. }
  destruct (mode m) eqn:Emode; [|destruct i; autorewrite with M; (eexists _, _; split; [reflexivity|])|by eexists _, _].
  - destruct i as [|o|id reason|index order|index o|e|]; autorewrite with M.
    + eexists _, _. split; [reflexivity|]. split; [by apply deliver_inv|]. apply Hrun; [done|].
      unfold deliver. by destruct (pendingUpdates m).
    + destruct (add_inv o m Hm Hi) as (m' & r & H1 & H2 & H3). exists m', r. rewrite Emode in H3. auto.
    + unfold cancel_operation. autorewrite with M. destruct (operations m !! id) as [c|] eqn:Ec; [|by eexists _, _].
      destruct (remoteJobHandlerIndex c); [by eexists _, _|]. autorewrite with M.
      eexists _, _. split; [reflexivity|]. split; [by eapply cancel_one_inv|by apply Hrun].
    + destruct (remote_closed_inv index order m Hm) as (m' & H1 & H2 & H3). rewrite Emode in H3.
      unfold mbind, M_bind. rewrite H1. eexists _, _. auto.
    + pose proof (remote_update_inv index o m Hm Emode) as H.
      unfold misdirected in H. rewrite Emode in H. unfold mbind, M_bind. cbn beta iota in *.
      destruct (match operations m !! op.ID' o with Some _ => _ | None => _ end); [destruct H as (m' & t & ->); by eexists _, _|].
      destruct H as (m' & H1 & H2 & H3). rewrite H1. eexists _, _. auto.
    + destruct Hi as [Ht Hd]. destruct (primitive_event_inv e m Hm Ht Hd) as (m' & H1 & H2 & H3).
      rewrite Emode in H3. unfold mbind, M_bind. rewrite H1. eexists _, _. auto.
    + unfold shutdown. autorewrite with M. eexists _, _. split; [reflexivity|]. split.
      * apply set_mode_inv, cancel_running_inv; [done|by right].
      * unfold stopped_idle. simpl. by destruct (Z.eqb_spec (activePrimitives m) 0).
  - by split.
  - by split.
  - by split.
  - by split.
  - by split.
  - unfold drain_event. autorewrite with M. autorewrite with M. simpl.
    set (m1 := if localPrimitiveCompleted (event.Type_ e) then complete_primitive m else m).
    assert (inv m1) as H1 by (unfold m1; destruct (localPrimitiveCompleted _); [by apply complete_inv|done]).
    assert (mode m1 = Draining) as H2 by (unfold m1; by destruct (localPrimitiveCompleted _)).
    split; [destruct (_ =? 0); [by apply set_mode_inv|done]|]. unfold stopped_idle.
    destruct (Z.eqb_spec (activePrimitives m1) 0); [done|by rewrite H2].
  - by split.
Qed.

End Step.

(** ** Reachable managers *)

Section Reachable.
Context (AddRemoteJob : nat → Operation → option error)
        (CancelRemoteJob : nat → ID → string → option error)
        (handlers : list (option (string * Z))).

Inductive reachable : manager → Prop :=
  | reachable_new : reachable (NewLocalOperationManager handlers)
  | reachable_step m i :
      reachable m → admissible m i →
      is_ok (snd (manager_step AddRemoteJob CancelRemoteJob i m)) = true →
      reachable (fst (manager_step AddRemoteJob CancelRemoteJob i m)).

Lemma new_inv : inv (NewLocalOperationManager handlers).
Proof.
  constructor; simpl; try (set_solver || done).
  intros l1 o l2 H. by destruct l1.
Qed.

Lemma reachable_inv m : reachable m → inv m ∧ stopped_idle m.
Proof.
  induction 1 as [|m i _ [IH1 IH2] Hi Hok]; [split; [apply new_inv|done]|].
  pose proof (manager_step_inv AddRemoteJob CancelRemoteJob i m IH1 IH2 Hi) as H.
  destruct (misdirected m i); [destruct H as (m' & t & E); by rewrite E in Hok|].
  by destruct H as (m' & r & -> & H1 & H2).
Qed.

(** C3: The manager's loop panics in one case only.  Whatever inputs come in
    whatever order, as long as checkpoints added are well formed and events
    come from primitives that were started, a round panics exactly when a
    remote job handler sends an update under the ID of a local operation that
    runs (the code then indexes the handlers with -1); every other round
    returns.  And every primitive the manager starts is one it supports, whose
    events come back to the operation that asked for it. *)
Theorem manager_safe m i :
  reachable m → admissible m i →
  is_ok (snd (manager_step AddRemoteJob CancelRemoteJob i m)) = negb (misdirected m i) ∧
  ∀ id d, (id, d) ∈ started m → id ∈ accepted m ∧ dispatch_for id d.
Proof.
  intros Hr Hi. apply reachable_inv in Hr as [Hm Hs]. split.
  - pose proof (manager_step_inv AddRemoteJob CancelRemoteJob i m Hm Hs Hi) as H.
    destruct (misdirected m i); [by destruct H as (m' & t & ->)|by destruct H as (m' & r & -> & _)].
  - intros id d Hd. by destruct (inv_started _ m Hm id d Hd) as (H1 & H2 & _).
Qed.

(** C4: Every accepted operation is reported to its end exactly once, in every
    run whose rounds return (C3 says which do not): the
    updates delivered and queued are those published, in order; an operation
    that runs has no final update; an operation that was accepted and runs no
    more has one final update and none after it. *)
Theorem manager_reports_once m :
  reachable m →
  log m = delivered m ++ pendingUpdates m ∧
  ∀ id, id ∈ accepted m →
    (live m id → ∀ o, o ∈ log m → op.ID' o = id → finished o = false) ∧
    (¬ live m id → ∃ l1 o l2, log m = l1 ++ o :: l2 ∧ op.ID' o = id ∧ finished o = true ∧
       (∀ o', o' ∈ l1 → op.ID' o' = id → finished o' = false) ∧ ∀ o', o' ∈ l2 → op.ID' o' ≠ id).
Proof.
  intros Hr. apply reachable_inv in Hr as [Hm _]. split; [apply (inv_queue _ m Hm)|].
  intros id Hid. split.
  - intros Hl o Ho <-. by apply (inv_live _ m Hm).
  - intros Hl. destruct (inv_ended _ m Hm id Hid Hl) as (o & Ho & Hoid & Hf).
    apply list_elem_of_split in Ho as (l1 & l2 & Heq). exists l1, o, l2. subst id.
    split_and!; try done; [|by apply (inv_closed _ m Hm l1 o l2 Heq Hf)].
    intros o' Ho' Hid'. destruct (finished o') eqn:Hf'; [|done].
    apply list_elem_of_split in Ho' as (k1 & k2 & ->).
    rewrite <- app_assoc in Heq. simpl in Heq.
    destruct (inv_closed _ m Hm k1 o' (k2 ++ o :: l2) Heq Hf' o); [set_solver|done].
Qed.

(** The manager stops only when every primitive it started has completed. *)
Theorem manager_stops_idle m :
  reachable m → mode m = Stopped → completed m = Z.of_nat (length (started m)).
Proof.
  intros Hr Hs. apply reachable_inv in Hr as [Hm Hidle]. specialize (Hidle Hs).
  pose proof (inv_active _ m Hm). lia.
Qed.

End Reachable.

(** ** A run: a shell operation whose directory cannot be created *)

Definition no_remote : nat → Operation → option error := λ _ _, None.
Definition no_cancel : nat → ID → string → option error := λ _ _ _, None.

Definition run_step (i : input) (m : manager) : manager := fst (manager_step no_remote no_cancel i m).

Definition m_new : manager := NewLocalOperationManager [].
Definition m_added : manager := run_step (InAdd ShellFacts.sample_operation) m_new.
Definition create_failed : Event :=
  event.Mk PrimitiveEventFailed "op" "create_directory" (PrimitiveFailureResult "disk full").
Definition m_failed : manager := run_step (InEvent create_failed) m_added.
Definition m_draining : manager := run_step InDone m_added.
Definition m_stopped : manager := run_step (InEvent create_failed) m_draining.

Lemma m_added_reachable : reachable no_remote no_cancel [] m_added.
Proof.
  apply reachable_step; [apply reachable_new| |vm_compute; reflexivity]. intros _ a Ha.
  vm_compute in Ha. injection Ha as <-. exact ShellFacts.sample_inv.
Qed.

Lemma create_failed_admissible m : started m = started m_added → admissible m (InEvent create_failed).
Proof. intros H. split; [reflexivity|]. rewrite H. vm_compute. eexists. left. Qed.

(** An update of a remote job handler that carries the local operation's ID. *)
Definition stray_update : input := InRemoteUpdate 0 ShellFacts.sample_operation.

Lemma manager_safe_witness :
  (reachable no_remote no_cancel [] m_added ∧
   misdirected m_added (InEvent create_failed) = false ∧
   is_ok (snd (manager_step no_remote no_cancel (InEvent create_failed) m_added))
     = negb (misdirected m_added (InEvent create_failed)) ∧
   ∀ id d, (id, d) ∈ started m_added → id ∈ accepted m_added ∧ dispatch_for id d) ∧
  misdirected m_added stray_update = true ∧
  is_ok (snd (manager_step no_remote no_cancel stray_update m_added)) = negb (misdirected m_added stray_update).
Proof.
  split; [split; [exact m_added_reachable|]; split; [vm_compute; reflexivity|]|].
  - apply (manager_safe no_remote no_cancel []); [exact m_added_reachable|].
    apply create_failed_admissible. vm_compute. reflexivity.
  - split; [vm_compute; reflexivity|].
    apply (manager_safe no_remote no_cancel []); [exact m_added_reachable|exact I].
Defined.

Lemma manager_reports_once_witness :
  operations m_failed = ∅ ∧ length (log m_failed) = 2%nat ∧
  (log m_failed = delivered m_failed ++ pendingUpdates m_failed ∧
   ∀ id, id ∈ accepted m_failed →
    (live m_failed id → ∀ o, o ∈ log m_failed → op.ID' o = id → finished o = false) ∧
    (¬ live m_failed id → ∃ l1 o l2, log m_failed = l1 ++ o :: l2 ∧ op.ID' o = id ∧ finished o = true ∧
       (∀ o', o' ∈ l1 → op.ID' o' = id → finished o' = false) ∧ ∀ o', o' ∈ l2 → op.ID' o' ≠ id)).
Proof.
  split; [vm_compute; reflexivity|]. split; [vm_compute; reflexivity|].
  apply (manager_reports_once no_remote no_cancel []).
  apply reachable_step; [exact m_added_reachable|apply create_failed_admissible; vm_compute; reflexivity|].
  vm_compute. reflexivity.
Defined.

Lemma manager_stops_idle_witness :
  length (started m_stopped) = 1%nat ∧ completed m_stopped = Z.of_nat (length (started m_stopped)).
Proof.
  split; [vm_compute; reflexivity|].
  apply (manager_stops_idle no_remote no_cancel []); [|vm_compute; reflexivity].
  apply reachable_step; [apply reachable_step; [exact m_added_reachable|exact I|]| |]; [vm_compute; reflexivity| |].
  - apply create_failed_admissible. vm_compute. reflexivity.
  - vm_compute. reflexivity.
Defined.
