(* ===== verification/Llm.v ===== *)
(** * The model interface: llm/model.go, llm/itemjson.go, llm/adapter.go

    The items exchanged with a model, their JSON encoding, and the request and
    response types.  The data of an item is an [any] in the source: here the
    four types it may hold, nil, or a value of another type. *)

From Stdlib Require Import Ascii ZArith Lia.
From S2P Require Import Prelude GoStrings GoText Json JsonFacts JsonCodec.

Local Open Scope Z_scope.

Definition Role : Set := string.
Definition RoleUser : Role := "user".
Definition RoleAssistant : Role := "assistant".
Definition RoleSystem : Role := "system".

Definition ItemType : Set := string.
Definition ItemMessage : ItemType := "message".
Definition ItemToolCall : ItemType := "tool_call".
Definition ItemToolResult : ItemType := "tool_result".
Definition ItemReasoning : ItemType := "reasoning".

Module msg.
Record Message : Set := Mk { Role' : Role; Text : string; Phase : string }.
End msg.
Abbreviation Message := msg.Message.

Module call.
Record ToolCall : Set := Mk { CallID : string; Name : string; Arguments : string }.
End call.
Abbreviation ToolCall := call.ToolCall.

Definition ToolResultKind : Set := string.
Definition ToolResultText : ToolResultKind := "text".
Definition ToolResultImage : ToolResultKind := "image".

Module tro.
Record ToolResultOutput : Set := Mk { Kind : ToolResultKind; Value : string }.
End tro.
Abbreviation ToolResultOutput := tro.ToolResultOutput.

Module tr.
Record ToolResult : Set := Mk { CallID : string; Output : list ToolResultOutput }.
End tr.
Abbreviation ToolResult := tr.ToolResult.

Module reasoning.
Record Reasoning : Type := Mk { Summary : list string; Raw : value }.
End reasoning.
Abbreviation Reasoning := reasoning.Reasoning.

(** The dynamic type of [Item.Data]. *)
Inductive ItemData : Type :=
  | DataMessage (m : Message)
  | DataToolCall (c : ToolCall)
  | DataToolResult (r : ToolResult)
  | DataReasoning (r : Reasoning)
  | DataNil
  | DataAny (type_name : string).

Module item.
Record Item : Type := Mk { ProviderID : string; Type' : ItemType; Data : ItemData }.
End item.
Abbreviation Item := item.Item.

#[export] Instance Message_eq_dec : EqDecision Message. Proof. solve_decision. Defined.
#[export] Instance ToolCall_eq_dec : EqDecision ToolCall. Proof. solve_decision. Defined.
#[export] Instance ToolResultOutput_eq_dec : EqDecision ToolResultOutput. Proof. solve_decision. Defined.
#[export] Instance ToolResult_eq_dec : EqDecision ToolResult. Proof. solve_decision. Defined.
#[export] Instance Reasoning_eq_dec : EqDecision Reasoning. Proof. solve_decision. Defined.
#[export] Instance ItemData_eq_dec : EqDecision ItemData. Proof. solve_decision. Defined.
#[export] Instance Item_eq_dec : EqDecision Item. Proof. solve_decision. Defined.

(** ** Codecs of the data types *)

#[local] Unset Program Cases.

Program Definition Message_codec : codec Message := {|
  zero := msg.Mk EmptyString EmptyString EmptyString;
  enc s := enc_struct [field string_codec "Role" (msg.Role' s); field string_codec "Text" (msg.Text s);
                       field string_codec "Phase" (msg.Phase s)];
  dec := dec_struct (msg.Mk EmptyString EmptyString EmptyString) (λ o,
    a ← get string_codec "Role" o; b ← get string_codec "Text" o; c ← get string_codec "Phase" o;
    Some (msg.Mk a b c));
  jok _ := True |}.
Next Obligation. intros [a b c] j _. struct_dec. Qed.
Next Obligation. intros [a b c] j. struct_enc_ok. Qed.
#[export] Instance Message_total : Total Message_codec.
Proof. constructor; [struct_zero|struct_total]. Qed.

Program Definition ToolCall_codec : codec ToolCall := {|
  zero := call.Mk EmptyString EmptyString EmptyString;
  enc s := enc_struct [field string_codec "CallID" (call.CallID s); field string_codec "Name" (call.Name s);
                       field string_codec "Arguments" (call.Arguments s)];
  dec := dec_struct (call.Mk EmptyString EmptyString EmptyString) (λ o,
    a ← get string_codec "CallID" o; b ← get string_codec "Name" o; c ← get string_codec "Arguments" o;
    Some (call.Mk a b c));
  jok _ := True |}.
Next Obligation. intros [a b c] j _. struct_dec. Qed.
Next Obligation. intros [a b c] j. struct_enc_ok. Qed.
#[export] Instance ToolCall_total : Total ToolCall_codec.
Proof. constructor; [struct_zero|struct_total]. Qed.

Program Definition ToolResultOutput_codec : codec ToolResultOutput := {|
  zero := tro.Mk EmptyString EmptyString;
  enc s := enc_struct [field string_codec "Kind" (tro.Kind s); field string_codec "Value" (tro.Value s)];
  dec := dec_struct (tro.Mk EmptyString EmptyString) (λ o,
    a ← get string_codec "Kind" o; b ← get string_codec "Value" o; Some (tro.Mk a b));
  jok _ := True |}.
Next Obligation. intros [a b] j _. struct_dec. Qed.
Next Obligation. intros [a b] j. struct_enc_ok. Qed.
#[export] Instance ToolResultOutput_total : Total ToolResultOutput_codec.
Proof. constructor; [struct_zero|struct_total]. Qed.

Lemma Forall_true {A} (l : list A) : Forall (λ _, True) l.
Proof. by apply Forall_true. Qed.
#[export] Hint Resolve Forall_true : go.

Program Definition ToolResult_codec : codec ToolResult := {|
  zero := tr.Mk EmptyString [];
  enc s := enc_struct [field string_codec "CallID" (tr.CallID s);
                       field (list_codec ToolResultOutput_codec) "Output" (tr.Output s)];
  dec := dec_struct (tr.Mk EmptyString []) (λ o,
    a ← get string_codec "CallID" o; b ← get (list_codec ToolResultOutput_codec) "Output" o;
    Some (tr.Mk a b));
  jok _ := True |}.
Next Obligation. intros [a b] j _. struct_dec. Qed.
Next Obligation. intros [a b] j. struct_enc_ok. Qed.
#[export] Instance ToolResult_total : Total ToolResult_codec.
Proof. constructor; [struct_zero|struct_total]. Qed.

Definition is_empty {A} (l : list A) : bool := match l with [] => true | _ => false end.

Lemma is_empty_true {A} (l : list A) : is_empty l = true → l = [].
Proof. by destruct l. Qed.
#[export] Hint Resolve is_empty_true : go.

Program Definition Reasoning_codec : codec Reasoning := {|
  zero := reasoning.Mk [] VNil;
  enc s := enc_struct [
    field_omit (list_codec string_codec) "Summary" (is_empty (reasoning.Summary s)) (reasoning.Summary s);
    field_omit value_codec "Raw" (is_nil (reasoning.Raw s)) (reasoning.Raw s)];
  dec := dec_struct (reasoning.Mk [] VNil) (λ o,
    a ← get (list_codec string_codec) "Summary" o; b ← get value_codec "Raw" o;
    Some (reasoning.Mk a b));
  jok _ := True |}.
Next Obligation. intros [a b] j _. struct_dec. Qed.
Next Obligation. intros [a b] j. struct_enc_ok. Qed.
#[export] Instance Reasoning_total : Total Reasoning_codec.
Proof. constructor; [struct_zero|struct_total]. Qed.

(** ** Items *)

(** The text of the verb %T. *)
Definition type_name (d : ItemData) : string :=
  match d with
  | DataMessage _ => "llm.Message"
  | DataToolCall _ => "llm.ToolCall"
  | DataToolResult _ => "llm.ToolResult"
  | DataReasoning _ => "llm.Reasoning"
  | DataNil => "<nil>"
  | DataAny t => t
  end.

Definition Validate (i : Item) : result unit :=
  let wrong (what want : string) :=
    Err (errors_New (what +:+ " data must be llm." +:+ want +:+ ", got " +:+ type_name (item.Data i))) in
  let t := item.Type' i in
  if bool_decide (t = ItemMessage) then
    match item.Data i with DataMessage _ => Ok tt | _ => wrong "message" "Message" end
  else if bool_decide (t = ItemToolCall) then
    match item.Data i with DataToolCall _ => Ok tt | _ => wrong "tool call" "ToolCall" end
  else if bool_decide (t = ItemToolResult) then
    match item.Data i with DataToolResult _ => Ok tt | _ => wrong "tool result" "ToolResult" end
  else if bool_decide (t = ItemReasoning) then
    match item.Data i with DataReasoning _ => Ok tt | _ => wrong "reasoning" "Reasoning" end
  else Err (errors_New ("unsupported item type " +:+ quote t)).

Definition decodeItemData (kind : ItemType) (encoded : value) : result ItemData :=
  let named (what : string) := Errorf_w ("decode " +:+ what +:+ " data: ") in
  if bool_decide (encoded = VText JNull) then Err (errors_New (kind +:+ " data must not be null"))
  else if bool_decide (kind = ItemMessage) then
    DataMessage <$> map_err (named "message") (Unmarshal Message_codec encoded)
  else if bool_decide (kind = ItemToolCall) then
    DataToolCall <$> map_err (named "tool call") (Unmarshal ToolCall_codec encoded)
  else if bool_decide (kind = ItemToolResult) then
    DataToolResult <$> map_err (named "tool result") (Unmarshal ToolResult_codec encoded)
  else if bool_decide (kind = ItemReasoning) then
    DataReasoning <$> map_err (named "reasoning") (Unmarshal Reasoning_codec encoded)
  else Err (errors_New ("unsupported item type " +:+ quote kind)).

(** The value of the [any] field as encoding/json writes it. *)
Definition enc_item_data (d : ItemData) : option json :=
  match d with
  | DataMessage m => enc Message_codec m
  | DataToolCall c => enc ToolCall_codec c
  | DataToolResult r => enc ToolResult_codec r
  | DataReasoning r => enc Reasoning_codec r
  | DataNil => Some JNull
  | DataAny _ => None
  end.

Definition option_of {A} (r : result A) : option A := match r with Ok a => Some a | _ => None end.

Lemma enc_item_data_ok d j : enc_item_data d = Some j → json_ok j = true.
Proof.
  destruct d as [m|c|r|r| |t]; [apply (enc_ok Message_codec)|apply (enc_ok ToolCall_codec)
    |apply (enc_ok ToolResult_codec)|apply (enc_ok Reasoning_codec)| |done].
  by intros [= <-].
Qed.

Lemma enc_struct_object l j : enc_struct l = Some j → ∃ o, j = JObj o.
Proof. unfold enc_struct. destruct (enc_fields l); naive_solver. Qed.

#[local] Arguments Unmarshal : simpl never.

(** What [MarshalJSON] wrote of a valid item, [decodeItemData] reads. *)
Lemma decode_encoded_data i j :
  Validate i = Ok tt → enc_item_data (item.Data i) = Some j →
  decodeItemData (item.Type' i) (VText j) = Ok (item.Data i).
Proof.
  destruct i as [p t d]. unfold Validate, decodeItemData. cbn [item.Type' item.Data]. intros Hv Hj.
  pose proof (enc_item_data_ok d j Hj) as Hok.
  assert (∀ l, enc_struct l = Some j → bool_decide (VText j = VText JNull) = false) as Hnull.
  { intros l (o & ->)%enc_struct_object. by apply bool_decide_false. }
  assert (∀ A (c : codec A) a, jok c a → enc c a = Some j → Unmarshal c (VText j) = Ok a) as Hd.
  { intros A c a Ha Hc. unfold Unmarshal. by rewrite Hok, (dec_enc c a j Ha Hc). }
  repeat (if_in Hv; [destruct d; try done; subst t; rewrite (Hnull _ Hj); simpl;
                     first [by rewrite (Hd _ Message_codec _ I Hj) | by rewrite (Hd _ ToolCall_codec _ I Hj)
                           | by rewrite (Hd _ ToolResult_codec _ I Hj) | by rewrite (Hd _ Reasoning_codec _ I Hj)]|]); done.
Qed.

(** [MarshalJSON] and [UnmarshalJSON].  A null reads as an item without a type. *)
Program Definition Item_codec : codec Item := {|
  zero := item.Mk EmptyString EmptyString DataNil;
  enc i := match Validate i with
           | Ok _ => enc_struct [field string_codec "ProviderID" (item.ProviderID i);
                                 field string_codec "Type" (item.Type' i);
                                 ("Data", false, enc_item_data (item.Data i))]
           | _ => None
           end;
  dec j := match j with
           | JObj o =>
             p ← get string_codec "ProviderID" o;
             t ← get string_codec "Type" o;
             v ← get value_codec "Data" o;
             d ← option_of (decodeItemData t v);
             Some (item.Mk p t d)
           | _ => None
           end;
  jok _ := True |}.
Next Obligation.
  intros i j _. simpl. destruct (Validate i) as [[]| |] eqn:Hv; [|done|done].
  intros H. apply fmap_Some in H as (o & H & ->).
  assert (is_Some (enc_item_data (item.Data i))) as [jd Hjd].
  { eapply (enc_struct_fields _ "Data" false);
      [exists (JObj o); apply fmap_Some; exists o; split; [exact H|done]|in_list|done]. }
  do 2 struct_get H.
  unfold get. struct_assoc H "Data" (enc_item_data (item.Data i)). rewrite Hjd. simpl. rewrite (decode_encoded_data i jd Hv Hjd). by destruct i.
Qed.
Next Obligation.
  intros i j. simpl. destruct (Validate i); [|done|done]. apply enc_struct_ok;
    [nodup_names|lazy; reflexivity|].
  repeat (apply Forall_cons; split; [first [intros ?; apply field_enc_ok|exact (enc_item_data_ok _)]|]).
  apply Forall_nil. exact I.
Qed.

(** An item survives its encoding: what [MarshalJSON] writes of an item,
    [UnmarshalJSON] reads back as the same item; and only an item whose data
    has the type its kind names is written. *)
Theorem item_roundtrip i v :
  Marshal Item_codec i = Ok v →
  Validate i = Ok tt ∧ Unmarshal Item_codec v = Ok i.
Proof.
  intros H. split; [|by apply Unmarshal_Marshal].
  unfold Marshal in H. simpl in H. by destruct (Validate i) as [[]| |].
Qed.

Lemma item_roundtrip_witness :
  ∃ v, Marshal Item_codec (item.Mk "p" ItemToolCall (DataToolCall (call.Mk "c" "bash" "{}"))) = Ok v ∧
  (Validate (item.Mk "p" ItemToolCall (DataToolCall (call.Mk "c" "bash" "{}"))) = Ok tt ∧
   Unmarshal Item_codec v = Ok (item.Mk "p" ItemToolCall (DataToolCall (call.Mk "c" "bash" "{}")))).
Proof. eexists. split; [vm_compute; reflexivity|]. apply item_roundtrip. vm_compute. reflexivity. Defined.

(** ** Tools, models, requests and responses *)

Definition ToolType : Set := string.
Definition ToolFunction : ToolType := "function".
Definition ToolHosted : ToolType := "hosted".

(** [Parameters] is a JSON schema, kept as the JSON value it is. *)
Module ltool.
Record Tool : Type := Mk { Type' : ToolType; Name : string; Description : string; Parameters : json }.
End ltool.
Abbreviation LTool := ltool.Tool.

Definition ReasoningEffort : Set := string.
Definition ReasoningEffortLow : ReasoningEffort := "low".
Definition ReasoningEffortMedium : ReasoningEffort := "medium".
Definition ReasoningEffortHigh : ReasoningEffort := "high".
Definition ReasoningEffortXHigh : ReasoningEffort := "xhigh".
Definition ReasoningEffortMax : ReasoningEffort := "max".

Definition Valid (effort : ReasoningEffort) : bool :=
  bool_decide (effort = ReasoningEffortLow) || bool_decide (effort = ReasoningEffortMedium)
  || bool_decide (effort = ReasoningEffortHigh) || bool_decide (effort = ReasoningEffortXHigh)
  || bool_decide (effort = ReasoningEffortMax).

Module model.
Record Model : Type := Mk {
  ID : string; MaxOutputTokens : option Z; ReasoningEffort' : ReasoningEffort }.
End model.
Abbreviation Model := model.Model.

Module request.
Record Request : Type := Mk { Model' : Model; Input : list Item; Tools : list LTool }.
End request.
Abbreviation Request := request.Request.

Definition StopReason : Set := string.
Definition StopComplete : StopReason := "complete".
Definition StopMaxOutputTokens : StopReason := "max_output_tokens".
Definition StopRefused : StopReason := "refused".

Module usage.
Record Usage : Type := Mk {
  InputTokens : Z; CachedInputTokens : Z; CacheWriteInputTokens : Z; OutputTokens : Z;
  ReasoningTokens : Z; Raw : value }.
End usage.
Abbreviation Usage := usage.Usage.

Module failure.
Record Failure : Type := Mk { Code : string; Message : string }.
End failure.
Abbreviation Failure := failure.Failure.

Module response.
Record Response : Type := Mk {
  ID : string; Stop : StopReason; Output : list Item; Usage' : Usage; Failure' : option Failure }.
End response.
Abbreviation Response := response.Response.

#[export] Instance Usage_eq_dec : EqDecision Usage. Proof. solve_decision. Defined.
#[export] Instance Failure_eq_dec : EqDecision Failure. Proof. solve_decision. Defined.
#[export] Instance Response_eq_dec : EqDecision Response. Proof. solve_decision. Defined.

Definition RequestOptions : Set := string. (* the CacheKey *)

Definition Usage_ok (u : Usage) : Prop :=
  in_int64 (usage.InputTokens u) = true ∧ in_int64 (usage.CachedInputTokens u) = true ∧
  in_int64 (usage.CacheWriteInputTokens u) = true ∧ in_int64 (usage.OutputTokens u) = true ∧
  in_int64 (usage.ReasoningTokens u) = true.

Program Definition Usage_codec : codec Usage := {|
  zero := usage.Mk 0 0 0 0 0 VNil;
  enc s := enc_struct [field int64_codec "InputTokens" (usage.InputTokens s);
    field int64_codec "CachedInputTokens" (usage.CachedInputTokens s);
    field int64_codec "CacheWriteInputTokens" (usage.CacheWriteInputTokens s);
    field int64_codec "OutputTokens" (usage.OutputTokens s);
    field int64_codec "ReasoningTokens" (usage.ReasoningTokens s);
    field_omit value_codec "Raw" (is_nil (usage.Raw s)) (usage.Raw s)];
  dec := dec_struct (usage.Mk 0 0 0 0 0 VNil) (λ o,
    a ← get int64_codec "InputTokens" o; b ← get int64_codec "CachedInputTokens" o;
    c ← get int64_codec "CacheWriteInputTokens" o; d ← get int64_codec "OutputTokens" o;
    e ← get int64_codec "ReasoningTokens" o; f ← get value_codec "Raw" o;
    Some (usage.Mk a b c d e f));
  jok := Usage_ok |}.
Next Obligation. intros [a b c d e f] j (H1 & H2 & H3 & H4 & H5). simpl in H1, H2, H3, H4, H5. struct_dec. Qed.
Next Obligation. intros [a b c d e f] j. struct_enc_ok. Qed.
#[export] Instance Usage_total : Total Usage_codec.
Proof. constructor; [struct_zero|struct_total]. Qed.

Program Definition Failure_codec : codec Failure := {|
  zero := failure.Mk EmptyString EmptyString;
  enc s := enc_struct [field string_codec "Code" (failure.Code s);
                       field string_codec "Message" (failure.Message s)];
  dec := dec_struct (failure.Mk EmptyString EmptyString) (λ o,
    a ← get string_codec "Code" o; b ← get string_codec "Message" o; Some (failure.Mk a b));
  jok _ := True |}.
Next Obligation. intros [a b] j _. struct_dec. Qed.
Next Obligation. intros [a b] j. struct_enc_ok. Qed.
#[export] Instance Failure_total : Total Failure_codec.
Proof. constructor; [struct_zero|struct_total]. Qed.

Lemma failure_jok f : jok (ptr_codec Failure_codec) f.
Proof.
  destruct f as [f|]; [|done]. split; [done|]. simpl.
  intros (o & H)%enc_struct_object. done.
Qed.

Lemma items_jok (l : list Item) : jok (list_codec Item_codec) l.
Proof. apply Forall_true. Qed.

Program Definition Response_codec : codec Response := {|
  zero := response.Mk EmptyString EmptyString [] (zero Usage_codec) None;
  enc s := enc_struct [field string_codec "ID" (response.ID s); field string_codec "Stop" (response.Stop s);
    field_omit (list_codec Item_codec) "Output" (is_empty (response.Output s)) (response.Output s);
    field Usage_codec "Usage" (response.Usage' s);
    field (ptr_codec Failure_codec) "Failure" (response.Failure' s)];
  dec := dec_struct (response.Mk EmptyString EmptyString [] (zero Usage_codec) None) (λ o,
    a ← get string_codec "ID" o; b ← get string_codec "Stop" o;
    c ← get (list_codec Item_codec) "Output" o; d ← get Usage_codec "Usage" o;
    e ← get (ptr_codec Failure_codec) "Failure" o;
    Some (response.Mk a b c d e));
  jok s := jok Usage_codec (response.Usage' s) |}.
Next Obligation.
  intros [a b c d e] j H1. cbn -[jok] in H1. pose proof (failure_jok e). pose proof (items_jok c). struct_dec.
Qed.
Next Obligation. intros [a b c d e] j. struct_enc_ok. Qed.
