(* ===== verification/ResponsesCodec.v ===== *)
(** * ResponsesCodec: requests to and responses from the responses API

    The files request.go and response.go of harness/llm/responsesapi, and
    [Respond] of adapter.go: items of the conversation become input items of a
    request, output items of a response become items of the conversation.

    The structs of internal/openaiapi are the objects that they marshal to and
    unmarshal from.  Their unions keep the JSON text they are given and decode
    it, with version 1 of encoding/json, when they are asked what they are:
    names match in any case and the last of two members counts.  Members that
    the code does not read are checked by parameters: [response_rest_ok] for a
    response, [logprobs_ok] for the log probabilities of a text. *)

From Stdlib Require Import Ascii ZArith Lia.
From S2P Require Import Prelude GoStrings GoText GoHttp Json JsonCodec Primitives Llm.
From S2P Require Import Remote ResponsesRetry ResponsesStream ResponsesExchange.

Local Open Scope Z_scope.

(** ** Marshalling *)

Definition marshal (o : option json) : result json :=
  match o with Some j => Ok j | None => Err json_error end.

(** Version 2 omits a member with [omitempty] when it is encoded as an empty
    value. *)
Definition empty_json (j : json) : bool :=
  match j with JNull | JStr EmptyString | JArr [] | JObj [] => true | _ => false end.

(** A pointer with [omitempty]: nil, or what its value is encoded to. *)
Definition field_ptr (name : string) (pointer : option (option json)) : field_enc :=
  (name, match pointer with None | Some None => bool_decide (pointer = None) | Some (Some j) => empty_json j end,
   default None pointer).
Definition str (s : string) : option json := enc string_codec s.
Definition raw_field (name : string) (j : json) : field_enc := (name, false, Some j).

(** Version 1 replaces the bytes that are not UTF-8. *)
Definition coerce (s : string) : string :=
  to_string (concat ((λ c, if utf8.valid_chunk c then c else RuneErrorBytes) <$> utf8.chunks (to_bytes s))).

(** The object of a map: its members in the order of their names. *)
Fixpoint sorted_tree (j : json) : json :=
  match j with
  | JArr l => JArr (sorted_tree <$> l)
  | JObj l => JObj (sorted_members ((λ m, (m.1, sorted_tree m.2)) <$> l))
  | _ => j
  end.

(** ** Input items *)

Definition InputTextContent (text : string) : option json :=
  enc_struct [field string_codec "text" text; field string_codec "type" "input_text"%string].

Definition InputImageContent (url : string) : option json :=
  enc_struct [field_ptr "image_url" (Some (str url)); field string_codec "type" "input_image"%string].

Definition OutputTextContent (text : string) : option json :=
  enc_struct [raw_field "annotations" (JArr []); raw_field "logprobs" (JArr []);
              field string_codec "text" text; field string_codec "type" "output_text"%string].

(** A phase that is empty leaves a nil pointer. *)
Definition phase_pointer (phase : string) : option (option json) :=
  if bool_decide (phase = EmptyString) then None else Some (str phase).

Definition EasyInputMessage (content : json) (m : Message) : option json :=
  enc_struct [raw_field "content" content; field_ptr "phase" (phase_pointer (msg.Phase m));
              field string_codec "role" (msg.Role' m)].

Definition InputMessage (content : json) (role : Role) : option json :=
  enc_struct [raw_field "content" (JArr [content]); field string_codec "role" role;
              field_ptr "type" (Some (str "message"))].

Definition OutputMessage (content : list json) (id phase : string) : option json :=
  enc_struct [raw_field "content" (JArr content); field string_codec "id" id;
              field_ptr "phase" (phase_pointer phase); field string_codec "role" "assistant"%string;
              field string_codec "status" "completed"%string; field string_codec "type" "message"%string].

Definition FunctionToolCall (arguments id : string) (c : ToolCall) : option json :=
  enc_struct [field string_codec "arguments" arguments; field string_codec "call_id" (call.CallID c);
              field_ptr "id" (if bool_decide (id = EmptyString) then None else Some (str id));
              field string_codec "name" (call.Name c); field string_codec "type" "function_call"%string].

Definition FunctionCallOutput (callID : string) (output : list json) : option json :=
  enc_struct [field_ptr "call_id" (Some (str callID)); raw_field "output" (JArr output);
              field string_codec "type" "function_call_output"%string].

Definition requestOutputMessageContent (m : Message) : result (list json) :=
  if bool_decide (msg.Text m = EmptyString) then Ok []
  else j ← marshal (OutputTextContent (msg.Text m)); Ok [j].

Definition requestToolCallArguments (arguments : string) : result string :=
  match value_of_text (to_bytes arguments) with
  | VText (JObj _) => Ok arguments
  | _ => j ← marshal (enc_struct [field string_codec "invalid_arguments" arguments]); Ok (to_string (print j))
  end.

Definition bad_data (kind expected : string) (d : ItemData) : error :=
  errors_New (kind +:+ " item data must be llm." +:+ expected +:+ ", got " +:+ type_name d).

Definition requestToolResultPart (part : ToolResultOutput) : result json :=
  if bool_decide (tro.Kind part = ToolResultText) then marshal (InputTextContent (tro.Value part))
  else if bool_decide (tro.Kind part = ToolResultImage) then marshal (InputImageContent (tro.Value part))
  else Err (errors_New ("unsupported tool result kind " +:+ quote (tro.Kind part))).

Fixpoint map_result {A B} (f : A → result B) (l : list A) : result (list B) :=
  match l with
  | [] => Ok []
  | a :: l => b ← f a; bs ← map_result f l; Ok (b :: bs)
  end.

Definition requestItem (source : Item) : result json :=
  let id := item.ProviderID source in
  if bool_decide (item.Type' source = ItemMessage) then
    match item.Data source with
    | DataMessage m =>
      if bool_decide (msg.Role' m = RoleAssistant) then
        content ← requestOutputMessageContent m;
        marshal (OutputMessage content id (msg.Phase m))
      else
        content ← marshal (InputTextContent (msg.Text m));
        marshal (InputMessage content (msg.Role' m))
    | d => Err (bad_data "message" "Message" d)
    end
  else if bool_decide (item.Type' source = ItemToolCall) then
    match item.Data source with
    | DataToolCall c =>
      arguments ← map_err (Errorf_w ("encode tool call " +:+ quote (call.CallID c) +:+ " arguments: "))
                          (requestToolCallArguments (call.Arguments c));
      marshal (FunctionToolCall arguments id c)
    | d => Err (bad_data "tool_call" "ToolCall" d)
    end
  else if bool_decide (item.Type' source = ItemToolResult) then
    match item.Data source with
    | DataToolResult r =>
      contents ← map_result requestToolResultPart (tr.Output r);
      marshal (FunctionCallOutput (tr.CallID r) contents)
    | d => Err (bad_data "tool_result" "ToolResult" d)
    end
  else if bool_decide (item.Type' source = ItemReasoning) then
    match item.Data source with
    | DataReasoning r =>
      if value_empty (reasoning.Raw r) then
        Err (errors_New "reasoning item must carry the provider item in Raw")
      else marshal (enc value_codec (reasoning.Raw r))
    | d => Err (bad_data "reasoning" "Reasoning" d)
    end
  else Err (errors_New ("unsupported input item type " +:+ quote (item.Type' source))).

Definition requestInputItem (source : Item) : result json :=
  if bool_decide (item.Type' source = ItemMessage) && bool_decide (item.ProviderID source = EmptyString) then
    match item.Data source with
    | DataMessage m => marshal (EasyInputMessage (JStr (coerce (msg.Text m))) m)
    | d => Err (bad_data "message" "Message" d)
    end
  else requestItem source.

(** The errors of the items carry their index. *)
Fixpoint indexed {A B} (what : string) (f : A → result B) (index : Z) (l : list A) : result (list B) :=
  match l with
  | [] => Ok []
  | a :: l =>
    b ← map_err (Errorf_w (what +:+ " " +:+ Itoa index +:+ ": ")) (f a);
    bs ← indexed what f (index + 1) l; Ok (b :: bs)
  end.

Definition requestInput (items : list Item) : result json :=
  l ← indexed "input item" requestInputItem 0 items; Ok (JArr l).

(** ** Tools and requests *)

Definition FunctionTool (t : LTool) : option json :=
  enc_struct [field_ptr "description" (if bool_decide (ltool.Description t = EmptyString) then None
                                       else Some (str (ltool.Description t)));
              field string_codec "name" (ltool.Name t);
              ("parameters"%string, false, if json_ok (ltool.Parameters t)
                                           then Some (sorted_tree (ltool.Parameters t)) else None);
              raw_field "strict" (JBool false); field string_codec "type" "function"%string].

Definition requestTool (t : LTool) : result json :=
  if bool_decide (ltool.Type' t = ToolFunction) then marshal (FunctionTool t)
  else if bool_decide (ltool.Type' t = ToolHosted) then
    if bool_decide (ltool.Name t = "web_search"%string)
    then marshal (enc_struct [field string_codec "type" "web_search"%string])
    else Err (errors_New ("unsupported hosted tool name " +:+ quote (ltool.Name t)))
  else Err (errors_New ("unsupported tool type " +:+ quote (ltool.Type' t))).

Definition requestTools (tools : list LTool) : result (list json) := indexed "tool" requestTool 0 tools.

Definition reasoning_options (effort : ReasoningEffort) : option json :=
  enc_struct [field_ptr "effort" (Some (str effort)); field_ptr "summary" (Some (str "auto"))].

Definition CreateResponse (r : Request) (promptCacheKey : string) (input : json) (tools : list json)
  : option json :=
  let m := request.Model' r in
  enc_struct [raw_field "include" (JArr [JStr "reasoning.encrypted_content"]);
    field_ptr "input" (Some (Some input));
    field_ptr "max_output_tokens" (match model.MaxOutputTokens m with Some n => Some (Some (JInt n)) | None => None end);
    field_ptr "model" (Some (Some (JStr (coerce (model.ID m)))));
    field_ptr "prompt_cache_key" (if bool_decide (promptCacheKey = EmptyString) then None
                                  else Some (str promptCacheKey));
    field_ptr "reasoning" (if bool_decide (model.ReasoningEffort' m = EmptyString) then None
                           else Some (reasoning_options (model.ReasoningEffort' m)));
    raw_field "store" (JBool false); raw_field "stream" (JBool true);
    field_ptr "tools" (match tools with [] => None | _ => Some (Some (JArr tools)) end)].

(** The loop over the extensions, in the order in which their map is walked. *)
Fixpoint add_extensions (fields : list (string * json)) (extensions : list (string * value))
  : result (list (string * json)) :=
  match extensions with
  | [] => Ok fields
  | (name, v) :: extensions =>
    if bool_decide (is_Some (assoc name fields)) then
      Err (errors_New ("request extension " +:+ quote name +:+ " overrides a Responses API field"))
    else match v with
    | VText j =>
      if json_ok j then add_extensions (fields ++ [(name, j)]) extensions
      else Err (errors_New ("request extension " +:+ quote name +:+ " is not valid JSON"))
    | _ => Err (errors_New ("request extension " +:+ quote name +:+ " is not valid JSON"))
    end
  end.

Definition extendRequestBody (body : json) (extensions : list (string * value)) : result json :=
  match body with
  | JObj fields =>
    fields ← add_extensions fields extensions;
    if forallb (λ m, string_ok m.1) fields then Ok (JObj (sorted_members fields))
    else Err (Errorf_w "encode response request: " json_error)
  | _ => Err (Errorf_w "decode response request: " json_error)
  end.

Definition requestBody (r : Request) (promptCacheKey : string) (extensions : list (string * value)) : result json :=
  input ← requestInput (request.Input r);
  tools ← requestTools (request.Tools r);
  let effort := model.ReasoningEffort' (request.Model' r) in
  if negb (bool_decide (effort = EmptyString)) && negb (Valid effort) then
    Err (errors_New ("unsupported reasoning effort " +:+ quote effort))
  else
    body ← map_err (Errorf_w "encode response request: ") (marshal (CreateResponse r promptCacheKey input tools));
    match extensions with [] => Ok body | _ => extendRequestBody body extensions end.

(** ** Unmarshalling with version 1

    A member counts for the field whose name it folds to; null leaves a field
    as it is, but for a pointer. *)

Section Members.
Context {A : Type} (dec : json → A → option A) (name : string).

Fixpoint get1 (o : list (string * json)) (acc : A) : option A :=
  match o with
  | [] => Some acc
  | (m, j) :: o => if EqualFold m name then a ← dec j acc; get1 o a else get1 o acc
  end.
End Members.

Definition dec1_string (j : json) (acc : string) : option string :=
  match j with JStr s => Some s | JNull => Some acc | _ => None end.
Definition dec1_pointer (j : json) (acc : option string) : option (option string) :=
  match j with JStr s => Some (Some s) | JNull => Some None | _ => None end.
Definition dec1_list (j : json) (acc : list json) : option (list json) :=
  match j with JArr l => Some l | JNull => Some [] | _ => None end.

Definition get1_string (name : string) (o : list (string * json)) : option string :=
  get1 dec1_string name o EmptyString.
Definition get1_pointer (name : string) (o : list (string * json)) : option (option string) :=
  get1 dec1_pointer name o None.
Definition get1_list (name : string) (o : list (string * json)) : option (list json) :=
  get1 dec1_list name o [].

(** A struct reads from an object, or as its zero value from null. *)
Definition members1 (j : json) : option (list (string * json)) :=
  match j with JObj o => Some o | JNull => Some [] | _ => None end.

(** ** Output items *)

(** The member [type] of a union. *)
Definition Discriminator (j : json) : option string := o ← members1 j; get1_string "type" o.

(** The members of openaiapi.Response that the code reads; the usage is the
    one that [responseUsage] makes of it. *)
Module oa.
Record response : Type := Mk {
  Id : string; Status : option string; Error : option (string * string);
  IncompleteDetails : option (option string); Output : list json; Usage' : option Usage }.
End oa.
Abbreviation oa_response := oa.response.

Section Output.
Context (logprobs_ok : json → bool).

(** The log probabilities of a text, decoded and dropped. *)
Definition dec1_logprobs (j : json) (acc : unit) : option unit := if logprobs_ok j then Some tt else None.

(** [AsOutputTextContent] and [AsRefusalContent]: the text. *)
Definition AsOutputTextContent (j : json) : option string :=
  o ← members1 j;
  _ ← get1_list "annotations" o; _ ← get1 dec1_logprobs "logprobs" o tt;
  t ← get1_string "text" o; _ ← get1_string "type" o; Some t.
Definition AsRefusalContent (j : json) : option string :=
  o ← members1 j; r ← get1_string "refusal" o; _ ← get1_string "type" o; Some r.

(** [AsOutputMessage]: the content, the id and the phase. *)
Definition AsOutputMessage (j : json) : option (list json * string * option string) :=
  o ← members1 j;
  content ← get1_list "content" o; id ← get1_string "id" o; phase ← get1_pointer "phase" o;
  _ ← get1_string "role" o; _ ← get1_string "status" o; _ ← get1_string "type" o;
  Some (content, id, phase).

(** [AsFunctionToolCall]: the call, the id and the status. *)
Definition AsFunctionToolCall (j : json) : option (ToolCall * option string * option string) :=
  o ← members1 j;
  arguments ← get1_string "arguments" o; call_id ← get1_string "call_id" o;
  id ← get1_pointer "id" o; name ← get1_string "name" o; _ ← get1_pointer "namespace" o;
  status ← get1_pointer "status" o; _ ← get1_string "type" o;
  Some (call.Mk call_id name arguments, id, status).

(** [ReasoningTextContent] and [SummaryTextContent]: the text. *)
Definition dec_text_part (j : json) : option string :=
  o ← members1 j; t ← get1_string "text" o; _ ← get1_string "type" o; Some t.
Definition dec1_parts (j : json) (acc : list string) : option (list string) :=
  l ← dec1_list j []; mapM dec_text_part l.

(** [AsReasoningItem]: the id and the summary. *)
Definition AsReasoningItem (j : json) : option (string * list string) :=
  o ← members1 j;
  _ ← get1 dec1_parts "content" o []; _ ← get1_pointer "encrypted_content" o;
  id ← get1_string "id" o; _ ← get1_pointer "status" o;
  summary ← get1 dec1_parts "summary" o []; _ ← get1_string "type" o;
  Some (id, summary).

Definition decoded_or {A} (o : option A) (err : error) : result A :=
  match o with Some a => Ok a | None => Err err end.

(** The loop over the contents of a message. *)
Fixpoint message_text (content : list json) : result string :=
  match content with
  | [] => Ok EmptyString
  | j :: content =>
    type ← decoded_or (Discriminator j) (Errorf_w "decode message content type: " json_error);
    part ← (if bool_decide (type = "output_text"%string) then decoded_or (AsOutputTextContent j) json_error
            else if bool_decide (type = "refusal"%string) then decoded_or (AsRefusalContent j) json_error
            else Err (errors_New ("unsupported message content type " +:+ quote type)));
    rest ← message_text content; Ok (part +:+ rest)
  end.

(** The item and whether it is included: none when it is not. *)
Definition responseOutputItem (source : json) : result (option Item) :=
  type ← decoded_or (Discriminator source) (Errorf_w "decode output item type: " json_error);
  if bool_decide (type = "web_search_call"%string) then Ok None
  else if bool_decide (type = "message"%string) then
    '(content, id, phase) ← decoded_or (AsOutputMessage source) json_error;
    text ← message_text content;
    Ok (Some (item.Mk id ItemMessage (DataMessage (msg.Mk RoleAssistant text (default EmptyString phase)))))
  else if bool_decide (type = "function_call"%string) then
    '(call, id, status) ← decoded_or (AsFunctionToolCall source) json_error;
    if bool_decide (status = Some "in_progress"%string) || bool_decide (status = Some "incomplete"%string)
    then Ok None
    else Ok (Some (item.Mk (default EmptyString id) ItemToolCall (DataToolCall call)))
  else if bool_decide (type = "reasoning"%string) then
    '(id, summary) ← decoded_or (AsReasoningItem source) json_error;
    Ok (Some (item.Mk id ItemReasoning (DataReasoning (reasoning.Mk summary (VText source)))))
  else Err (errors_New ("unsupported output item type " +:+ quote type)).

Fixpoint output_items (index : Z) (l : list json) : result (list Item) :=
  match l with
  | [] => Ok []
  | j :: l =>
    i ← map_err (Errorf_w ("output item " +:+ Itoa index +:+ ": ")) (responseOutputItem j);
    rest ← output_items (index + 1) l;
    Ok (match i with Some i => i :: rest | None => rest end)
  end.

(** ** Responses *)

Context (response_rest_ok : list (string * json) → bool).

Definition dec_response_error : json → option (string * string) :=
  dec_struct (EmptyString, EmptyString) (λ o,
    code ← get string_codec "code" o; message ← get string_codec "message" o; Some (code, message)).
Definition dec_incomplete : json → option (option string) :=
  dec_struct None (λ o, get (ptr_codec string_codec) "reason" o).

(** A struct member that is no pointer. *)
Definition get_struct {A} (zero : A) (dec : json → option A) (n : string) (o : list (string * json)) : option A :=
  match assoc n o with None => Some zero | Some j => dec j end.

Definition dec_input_details : json → option (Z * Z) :=
  dec_struct (0, 0) (λ o,
    write ← get int64_codec "cache_write_tokens" o; cached ← get int64_codec "cached_tokens" o;
    Some (write, cached)).
Definition dec_output_details : json → option Z :=
  dec_struct 0 (λ o, get int64_codec "reasoning_tokens" o).

(** [ResponseUsage] and [responseUsage], which copies it. *)
Definition dec_usage : json → option Usage :=
  dec_struct (usage.Mk 0 0 0 0 0 VNil) (λ o,
    input ← get int64_codec "input_tokens" o;
    '(write, cached) ← get_struct (0, 0) dec_input_details "input_tokens_details" o;
    output ← get int64_codec "output_tokens" o;
    reasoning ← get_struct 0 dec_output_details "output_tokens_details" o;
    _ ← get int64_codec "total_tokens" o;
    Some (usage.Mk input cached write output reasoning VNil)).

Definition raw_list (n : string) (o : list (string * json)) : option (list json) :=
  match assoc n o with
  | None | Some JNull => Some []
  | Some (JArr l) => Some l
  | Some _ => None
  end.

Definition dec_response : json → option oa_response :=
  dec_struct (oa.Mk EmptyString None None None [] None) (λ o,
    id ← get string_codec "id" o; status ← get (ptr_codec string_codec) "status" o;
    err ← get_ptr dec_response_error "error" o; incomplete ← get_ptr dec_incomplete "incomplete_details" o;
    output ← raw_list "output" o; usage ← get_ptr dec_usage "usage" o;
    if response_rest_ok o then Some (oa.Mk id status err incomplete output usage) else None).

Definition incompleteStopReason (source : oa_response) : result StopReason :=
  match oa.IncompleteDetails source with
  | Some (Some reason) =>
    if bool_decide (reason = "max_output_tokens"%string) then Ok StopMaxOutputTokens
    else if bool_decide (reason = "content_filter"%string) then Ok StopRefused
    else Err (errors_New ("unsupported incomplete reason " +:+ quote reason))
  | _ => Err (errors_New ("unsupported incomplete reason " +:+ quote EmptyString))
  end.

Definition responseFailure (source : oa_response) : Failure :=
  match oa.Error source with
  | None => failure.Mk EmptyString "response failed"
  | Some (code, message) => failure.Mk code message
  end.

Definition responseUsage (source : oa_response) : Usage :=
  default (usage.Mk 0 0 0 0 0 VNil) (oa.Usage' source).

(** The stop reason and the failure of a status. *)
Definition response_status (source : oa_response) (status : string) : result (StopReason * option Failure) :=
  if bool_decide (status = "completed"%string) then Ok (StopComplete, None)
  else if bool_decide (status = "incomplete"%string) then stop ← incompleteStopReason source; Ok (stop, None)
  else if bool_decide (status = "failed"%string) then Ok (EmptyString, Some (responseFailure source))
  else Err (errors_New ("unsupported response status " +:+ quote status)).

Definition response (source : oa_response) : result Response :=
  match oa.Status source with
  | None => Err (errors_New ("unsupported response status " +:+ quote EmptyString))
  | Some status =>
    '(stop, failure) ← response_status source status;
    output ← output_items 0 (oa.Output source);
    Ok (response.Mk (oa.Id source) stop output (responseUsage source) failure)
  end.

Definition with_raw_usage (raw : value) (r : Response) : Response :=
  let u := response.Usage' r in
  response.Mk (response.ID r) (response.Stop r) (response.Output r)
    (usage.Mk (usage.InputTokens u) (usage.CachedInputTokens u) (usage.CacheWriteInputTokens u)
      (usage.OutputTokens u) (usage.ReasoningTokens u) raw) (response.Failure' r).

Definition dec_raw_usage : json → option value := dec_struct VNil (λ o, get value_codec "usage" o).

Definition decodeResponse (body : value) : result Response :=
  raw ← decoded_or (decode_with dec_raw_usage body) (Errorf_w "decode response: " json_error);
  source ← decoded_or (decode_with dec_response body) (Errorf_w "decode response: " json_error);
  r ← response source;
  Ok (with_raw_usage raw r).

(** ** Respond *)

Definition response_error_text (err : response_error) : error :=
  match err with
  | InvalidEvent => Errorf_w "invalid Responses stream event JSON: " json_error
  | TooLarge => errors_New "responses API error response exceeds 1 MiB"
  | Api err => errors_New (APIError_Error err)
  | NoTerminalResponse => errors_New "responses stream ended without a terminal response: unexpected EOF"
  | InvalidOutput => json_error
  | Transport err | ContextError err => err
  | UnexpectedTimer type => errors_New ("unexpected retry timer event " +:+ quote type)
  end.

Section Respond.
Context {V : Type}.
Context (NewRequest : string → string → remote_error + (string * string)).
Context (ParseMediaType : string → option string) (ParseTime : string → option Z).
(** The hexadecimal SHA-256 of a cache key. *)
Context (hash : string → string).

Definition cache_key (options : RequestOptions) : string :=
  if bool_decide (options = EmptyString) then EmptyString else hash options.

(** What [Respond] makes of a status and a body. *)
Definition answered (out : exchange_result) : result Response :=
  let '(status, body, err) := out in
  match err with
  | Some err => Err (response_error_text err)
  | None =>
    if negb (success status) then
      Err (errors_New ("create response: " +:+ APIError_Error (providerError status (body_value body) (body_text body))))
    else decodeResponse (body_value body)
  end.

(** The request and its exchange; None while the exchange waits. *)
Definition exchanged (env : exchange_env) (a : adapter) (r : Request) (options : RequestOptions)
  : option (result exchange_result) :=
  let key := cache_key options in
  let promptCacheKey := if placement.UsePromptCacheKeyField (adapter.cacheKeyPlacement a) then key else EmptyString in
  match requestBody r promptCacheKey (adapter.extensions a) with
  | Ok body => (exchange (V := V) NewRequest ParseMediaType ParseTime env a (print body) key).2
  | Err err => Some (Err err)
  | Panic t => Some (Panic t)
  end.

Definition Respond (env : exchange_env) (a : adapter) (r : Request) (options : RequestOptions)
  : option (result Response) := (λ out, out ≫= answered) <$> exchanged env a r options.
End Respond.
End Output.
