(* ===== verification/ResponsesReplay.v ===== *)
(** * ResponsesReplay: what a provider answers can be sent back

    The conversation of a session is replayed in every request: an item that
    a response gave becomes an input item of the next requests.  The theorem
    says that the provider reads back the item it gave. *)

From Stdlib Require Import Ascii ZArith Lia.
From S2P Require Import Prelude GoStrings GoText GoHttp Json JsonCodec TextFacts Primitives Llm.
From S2P Require Import ResponsesRetry ResponsesStream ResponsesExchange ResponsesCodec.

Local Open Scope Z_scope.

(** ** Members *)

Lemma get1_hit {A} (dec : json → A → option A) name m j o acc :
  EqualFold m name = true → get1 dec name ((m, j) :: o) acc = a ← dec j acc; get1 dec name o a.
Proof. intros H. cbn [get1]. by rewrite H. Qed.

Lemma get1_skip {A} (dec : json → A → option A) name m j o acc :
  EqualFold m name = false → get1 dec name ((m, j) :: o) acc = get1 dec name o acc.
Proof. intros H. cbn [get1]. by rewrite H. Qed.

Lemma get1_nil {A} (dec : json → A → option A) name acc : get1 dec name [] acc = Some acc.
Proof. done. Qed.

(** Evaluates the members of an object whose names are constants. *)
Ltac get1_steps :=
  unfold get1_string, get1_pointer, get1_list, members1;
  repeat first
    [ rewrite get1_skip by (vm_compute; reflexivity)
    | rewrite get1_hit by (vm_compute; reflexivity)
    | rewrite get1_nil
    | progress cbn [mbind option_bind dec1_string dec1_pointer dec1_list] ].

(** Strings read from a valid text are valid. *)
Lemma get1_ok {A} (dec : json → A → option A) (ok : A → Prop) name o : ∀ acc a,
  (∀ j acc a, json_ok j = true → ok acc → dec j acc = Some a → ok a) →
  forallb (λ m, string_ok m.1 && json_ok m.2) o = true → ok acc → get1 dec name o acc = Some a → ok a.
Proof.
  induction o as [|[m j] o IH]; intros acc a Hdec Hok Hacc H; [by simplify_eq/=|].
  cbn [forallb] in Hok. apply andb_prop in Hok as [[_ Hj]%andb_prop Hok]. cbn [get1] in H.
  destruct (EqualFold m name); [|by eapply IH].
  destruct (dec j acc) as [b|] eqn:E; [|done]. cbn in H. eapply IH; [done|done| |exact H].
  by eapply Hdec.
Qed.

Lemma get1_string_ok name o s :
  forallb (λ m, string_ok m.1 && json_ok m.2) o = true → get1_string name o = Some s → string_ok s = true.
Proof.
  intros Ho. apply (get1_ok dec1_string (λ s, string_ok s = true)); [|done|done].
  intros j acc a Hj Hacc. destruct j; intros H; simplify_eq/=; done.
Qed.

Lemma get1_pointer_ok name o p :
  forallb (λ m, string_ok m.1 && json_ok m.2) o = true → get1_pointer name o = Some p →
  string_ok (default EmptyString p) = true.
Proof.
  intros Ho. apply (get1_ok dec1_pointer (λ p, string_ok (default EmptyString p) = true)); [|done|done].
  intros j acc a Hj Hacc. destruct j; intros H; simplify_eq/=; done.
Qed.

Lemma get1_list_ok name o l :
  forallb (λ m, string_ok m.1 && json_ok m.2) o = true → get1_list name o = Some l → forallb json_ok l = true.
Proof.
  intros Ho. apply (get1_ok dec1_list (λ l, forallb json_ok l = true)); [|done|done].
  intros j acc a Hj Hacc. destruct j; intros H; simplify_eq/=; done.
Qed.

Lemma members1_ok j o :
  json_ok j = true → members1 j = Some o → forallb (λ m, string_ok m.1 && json_ok m.2) o = true.
Proof. intros Hj. destruct j; intros H; simplify_eq/=; [done|]. by apply andb_prop in Hj as [? _]. Qed.

Lemma bind_Some_inv {A B} (o : option A) (f : A → option B) b :
  (a ← o; f a) = Some b → ∃ a, o = Some a ∧ f a = Some b.
Proof. destruct o as [a|]; [|done]. by exists a. Qed.

(** Takes a chain of reads of members apart. *)
Ltac reads_in H :=
  repeat match type of H with
  | mbind _ ?o = Some _ =>
    let E := fresh "E" in apply bind_Some_inv in H as (? & E & H); cbv beta in H
  end.

(** ** The objects that are sent *)

Lemma str_ok s : string_ok s = true → str s = Some (JStr s).
Proof. intros H. unfold str. cbn. by rewrite H. Qed.

Definition phase_member (phase : string) : list (string * json) :=
  if bool_decide (phase = EmptyString) then [] else [("phase"%string, JStr phase)].

Lemma empty_text s : s ≠ EmptyString → empty_json (JStr s) = false.
Proof. by destruct s. Qed.

Lemma OutputMessage_object content id phase :
  string_ok id = true → string_ok phase = true →
  OutputMessage content id phase = Some (JObj ([("content"%string, JArr content); ("id"%string, JStr id)] ++ phase_member phase
    ++ [("role"%string, JStr "assistant"); ("status"%string, JStr "completed"); ("type"%string, JStr "message")])).
Proof.
  intros Hid Hp. unfold OutputMessage, enc_struct, phase_member, phase_pointer, field, raw_field, field_ptr.
  case_bool_decide as E; cbn; rewrite Hid; cbn.
  - done.
  - rewrite Hp. by destruct phase.
Qed.

Definition id_member (id : string) : list (string * json) :=
  if bool_decide (id = EmptyString) then [] else [("id"%string, JStr id)].

Lemma FunctionToolCall_object arguments id c :
  string_ok arguments = true → string_ok id = true → string_ok (call.CallID c) = true → string_ok (call.Name c) = true →
  FunctionToolCall arguments id c = Some (JObj (
    [("arguments"%string, JStr arguments); ("call_id"%string, JStr (call.CallID c))]
    ++ id_member id ++ [("name"%string, JStr (call.Name c)); ("type"%string, JStr "function_call")])).
Proof.
  intros Ha Hid Hc Hn. unfold FunctionToolCall, enc_struct, id_member, field, field_ptr.
  case_bool_decide as E; cbn; rewrite Ha; cbn; rewrite Hc; cbn; rewrite Hn; cbn.
  - done.
  - rewrite Hid. by destruct id.
Qed.

Lemma OutputTextContent_object t :
  string_ok t = true →
  OutputTextContent t = Some (JObj [("annotations", JArr []); ("logprobs", JArr []); ("text", JStr t);
                                    ("type", JStr "output_text")])%string.
Proof. intros H. unfold OutputTextContent, enc_struct, field, raw_field. cbn. by rewrite H. Qed.

(** ** What is read back *)

Section Replay.
Context (logprobs_ok : json → bool).
Hypothesis no_logprobs : logprobs_ok (JArr []) = true.

Lemma decoded_ok {A} (o : option A) err a : decoded_or o err = Ok a → o = Some a.
Proof. destruct o; intros H; by simplify_eq/=. Qed.

Lemma AsOutputTextContent_ok j t : json_ok j = true → AsOutputTextContent logprobs_ok j = Some t → string_ok t = true.
Proof.
  intros Hj H. unfold AsOutputTextContent in H. reads_in H. simplify_eq.
  eapply get1_string_ok; [|done]. by eapply members1_ok.
Qed.

Lemma AsRefusalContent_ok j t : json_ok j = true → AsRefusalContent j = Some t → string_ok t = true.
Proof.
  intros Hj H. unfold AsRefusalContent in H. reads_in H. simplify_eq.
  eapply get1_string_ok; [|done]. by eapply members1_ok.
Qed.

Lemma message_text_ok content text :
  forallb json_ok content = true → message_text logprobs_ok content = Ok text → string_ok text = true.
Proof.
  revert text. induction content as [|j content IH]; intros text Hok H; [by simplify_eq/=|].
  cbn [forallb] in Hok. apply andb_prop in Hok as [Hj Hok]. cbn [message_text] in H.
  apply bind_ok in H as (type & _ & H). apply bind_ok in H as (part & Hpart & H).
  apply bind_ok in H as (rest & Hrest & H). simplify_eq/=.
  apply string_ok_app; [|by apply IH].
  revert Hpart. case_bool_decide; [|case_bool_decide]; intros Hpart; [..|done]; apply decoded_ok in Hpart.
  - by eapply AsOutputTextContent_ok.
  - by eapply AsRefusalContent_ok.
Qed.

Lemma dec1_no_logprobs : dec1_logprobs logprobs_ok (JArr []) tt = Some tt.
Proof. unfold dec1_logprobs. by rewrite no_logprobs. Qed.

Lemma string_app_empty s : s +:+ EmptyString = s.
Proof. induction s as [|c s IH]; [done|]. change (String c (s +:+ EmptyString) = String c s). by rewrite IH. Qed.

(** The contents that a message is sent with read as its text. *)
Lemma message_content_read (m : Message) :
  string_ok (msg.Text m) = true →
  ∃ l, requestOutputMessageContent m = Ok l ∧ message_text logprobs_ok l = Ok (msg.Text m).
Proof.
  intros Hok. unfold requestOutputMessageContent. case_bool_decide as E.
  - exists []. by rewrite E.
  - rewrite OutputTextContent_object by done. eexists; split; [reflexivity|].
    cbn [message_text]. unfold Discriminator, AsOutputTextContent. get1_steps.
    rewrite dec1_no_logprobs. get1_steps. cbn [decoded_or mbind result_bind].
    rewrite bool_decide_true by done. cbn [mbind result_bind]. f_equal. apply string_app_empty.
Qed.

(** ** The items *)

Lemma OutputMessage_read content id phase :
  let j := JObj ([("content"%string, JArr content); ("id"%string, JStr id)] ++ phase_member phase
    ++ [("role"%string, JStr "assistant"); ("status"%string, JStr "completed"); ("type"%string, JStr "message")]) in
  ∃ p, Discriminator j = Some "message"%string ∧ AsOutputMessage j = Some (content, id, p) ∧
       default EmptyString p = phase.
Proof.
  unfold Discriminator, AsOutputMessage, phase_member. case_bool_decide as E; cbn [app].
  - exists None. split_and!; [| |done]; get1_steps; done.
  - exists (Some phase). split_and!; get1_steps; done.
Qed.

Lemma FunctionToolCall_read arguments id c :
  let j := JObj ([("arguments"%string, JStr arguments); ("call_id"%string, JStr (call.CallID c))]
    ++ id_member id ++ [("name"%string, JStr (call.Name c)); ("type"%string, JStr "function_call")]) in
  ∃ p, Discriminator j = Some "function_call"%string ∧
       AsFunctionToolCall j = Some (call.Mk (call.CallID c) (call.Name c) arguments, p, None) ∧
       default EmptyString p = id.
Proof.
  unfold Discriminator, AsFunctionToolCall, id_member. case_bool_decide as E; cbn [app].
  - exists None. split_and!; [| |done]; get1_steps; done.
  - exists (Some id). split_and!; get1_steps; done.
Qed.

Lemma message_replayed source i :
  json_ok source = true → Discriminator source = Some "message"%string →
  responseOutputItem logprobs_ok source = Ok (Some i) → item.ProviderID i ≠ EmptyString →
  ∃ j, requestInputItem i = Ok j ∧ responseOutputItem logprobs_ok j = Ok (Some i).
Proof.
  intros Hok Htype H Hid. unfold responseOutputItem in H. rewrite Htype in H. cbn in H.
  apply bind_ok in H as ([[content id] phase] & Hm%decoded_ok & H).
  apply bind_ok in H as (text & Htext & H). simplify_eq/=.
  unfold AsOutputMessage in Hm. reads_in Hm. simplify_eq.
  assert (Ho : forallb (λ m, string_ok m.1 && json_ok m.2) x = true) by by eapply members1_ok.
  assert (Htok : string_ok text = true) by (eapply message_text_ok; [by eapply get1_list_ok|done]).
  assert (Hidok : string_ok id = true) by by eapply get1_string_ok.
  assert (Hpok : string_ok (default EmptyString phase) = true) by by eapply get1_pointer_ok.
  destruct (message_content_read (msg.Mk RoleAssistant text (default EmptyString phase)) Htok) as (l & Hl & Hread).
  unfold requestInputItem, requestItem. cbn [item.Type' item.ProviderID item.Data msg.Role' msg.Phase].
  rewrite (bool_decide_false (id = EmptyString)) by done. cbn [bool_decide andb].
  rewrite !bool_decide_true by done. cbn [andb]. rewrite Hl. cbn [mbind result_bind].
  rewrite OutputMessage_object by done. eexists; split; [reflexivity|].
  destruct (OutputMessage_read l id (default EmptyString phase)) as (p & HD & HM & Hp).
  unfold responseOutputItem. rewrite HD, HM. cbn [decoded_or mbind result_bind].
  rewrite bool_decide_false by done. rewrite bool_decide_true by done. rewrite Hread, Hp. done.
Qed.

Lemma call_replayed source i c :
  json_ok source = true → Discriminator source = Some "function_call"%string →
  responseOutputItem logprobs_ok source = Ok (Some i) → item.Data i = DataToolCall c →
  (∃ o, value_of_text (to_bytes (call.Arguments c)) = VText (JObj o)) →
  ∃ j, requestInputItem i = Ok j ∧ responseOutputItem logprobs_ok j = Ok (Some i).
Proof.
  intros Hok Htype H Hc [o Ho]. unfold responseOutputItem in H. rewrite Htype in H. cbn [decoded_or mbind result_bind] in H.
  rewrite !bool_decide_false in H by done. rewrite bool_decide_true in H by done.
  apply bind_ok in H as ([[call id] status] & Hm%decoded_ok & H).
  destruct (bool_decide (status = _) || _); [done|]. simplify_eq. cbn [item.Data] in Hc. simplify_eq.
  unfold AsFunctionToolCall in Hm. reads_in Hm. simplify_eq. cbn [call.Arguments] in Ho.
  assert (Hx : forallb (λ m, string_ok m.1 && json_ok m.2) x = true) by by eapply members1_ok.
  unfold requestInputItem, requestItem. cbn [item.Type' item.ProviderID item.Data call.Arguments].
  rewrite !(bool_decide_false (ItemToolCall = _)) by done. cbn [andb]. rewrite bool_decide_true by done.
  unfold requestToolCallArguments. rewrite Ho. cbn [map_err mbind result_bind].
  rewrite FunctionToolCall_object by
    first [by eapply get1_string_ok | by eapply get1_pointer_ok].
  eexists; split; [reflexivity|].
  destruct (FunctionToolCall_read x0 (default EmptyString id) (call.Mk x1 x3 x0)) as (p & HD & HM & Hp).
  unfold responseOutputItem. rewrite HD, HM. cbn [decoded_or mbind result_bind].
  rewrite !bool_decide_false by done. rewrite bool_decide_true by done. cbn [orb]. by rewrite Hp.
Qed.

Lemma reasoning_replayed source i :
  json_ok source = true → Discriminator source = Some "reasoning"%string →
  responseOutputItem logprobs_ok source = Ok (Some i) → requestInputItem i = Ok source.
Proof.
  intros Hok Htype H. unfold responseOutputItem in H. rewrite Htype in H. cbn [decoded_or mbind result_bind] in H.
  rewrite !bool_decide_false in H by done. rewrite bool_decide_true in H by done.
  apply bind_ok in H as ([id summary] & _ & H). simplify_eq.
  unfold requestInputItem, requestItem. cbn [item.Type' item.ProviderID item.Data reasoning.Raw].
  rewrite !(bool_decide_false (ItemReasoning = _)) by done. cbn [andb]. rewrite bool_decide_true by done.
  cbn. by rewrite Hok.
Qed.

(** What an answered item must have for its replay: a message an id, since one
    without is sent as an input message, and a tool call arguments that are an
    object, since others are wrapped in one. *)
Definition replayable (i : Item) : Prop :=
  match item.Data i with
  | DataMessage _ => item.ProviderID i ≠ EmptyString
  | DataToolCall c => ∃ o, value_of_text (to_bytes (call.Arguments c)) = VText (JObj o)
  | _ => True
  end.

(** C25: every item that is read from the output of a response can be sent
    back in a later request, and the provider reads the item it gave: a
    message with an id comes back with its text, phase and id, a tool call
    whose arguments are an object with its arguments, and a reasoning item is
    sent as the very text that came. *)
Theorem replayed_item source i :
  json_ok source = true → responseOutputItem logprobs_ok source = Ok (Some i) → replayable i →
  ∃ j, requestInputItem i = Ok j ∧ responseOutputItem logprobs_ok j = Ok (Some i) ∧
       (item.Type' i = ItemReasoning → j = source).
Proof.
  intros Hok H Hi. destruct (Discriminator source) as [type|] eqn:Htype;
    [|unfold responseOutputItem in H; by rewrite Htype in H].
  assert (Hcases : responseOutputItem logprobs_ok source = Ok (Some i)) by done.
  unfold responseOutputItem in H. rewrite Htype in H. cbn [decoded_or mbind result_bind] in H.
  split_if (bool_decide (type = "web_search_call"%string)); [done|].
  case_bool_decide as T1; [|case_bool_decide as T2; [|case_bool_decide as T3; [|done]]]; subst type.
  - assert (∃ m, item.Type' i = ItemMessage ∧ item.Data i = DataMessage m) as (m & Hty & Hdata).
    { apply bind_ok in H as ([[? ?] ?] & _ & H). apply bind_ok in H as (? & _ & H). simplify_eq. by eexists. }
    unfold replayable in Hi. rewrite Hdata in Hi.
    destruct (message_replayed source i) as (j & ? & ?); [done..|].
    exists j. rewrite Hty. by split_and!.
  - assert (∃ c, item.Type' i = ItemToolCall ∧ item.Data i = DataToolCall c) as (c & Hty & Hdata).
    { apply bind_ok in H as ([[c call_id] status] & _ & H). exists c.
      destruct (bool_decide (status = _) || _); by simplify_eq. }
    unfold replayable in Hi. rewrite Hdata in Hi.
    destruct (call_replayed source i c) as (j & ? & ?); [done..|].
    exists j. rewrite Hty. by split_and!.
  - exists source. split_and!; [by apply reasoning_replayed|done..].
Qed.
End Replay.

(** *** Samples *)

Definition sample_call : json := JObj [("type", JStr "function_call"); ("id", JStr "fc_1"); ("call_id", JStr "call_1");
  ("name", JStr "Bash"); ("arguments", JStr "{}"); ("status", JStr "completed")]%string.

Lemma replayed_item_witness :
  ∃ j, requestInputItem (item.Mk "fc_1" ItemToolCall (DataToolCall (call.Mk "call_1" "Bash" "{}"))) = Ok j ∧
       responseOutputItem (λ _, true) j = Ok (Some (item.Mk "fc_1" ItemToolCall (DataToolCall (call.Mk "call_1" "Bash" "{}")))) ∧
       (ItemToolCall = ItemReasoning → j = sample_call).
Proof.
  refine (replayed_item (λ _, true) eq_refl sample_call
    (item.Mk "fc_1" ItemToolCall (DataToolCall (call.Mk "call_1" "Bash" "{}"))) _ _ _).
  - vm_compute. reflexivity.
  - vm_compute. reflexivity.
  - exists []. vm_compute. reflexivity.
Defined.
