(* ===== verification/Clients.v ===== *)
(** * The clients of the providers (src/harness/llm/clients, src/cmd/internal/agentrunner/providers.go)

    Each client is an adapter of the responses API with the address, the
    headers and the cache placement of its provider; two of them also look at
    the request or at the answer.  What a constructor does with its connection
    pool, and whether it follows redirects, is a record of effects.  The
    parser of URLs, the authentication file and the clock are arguments. *)

From Stdlib Require Import Ascii ZArith Lia.
From S2P Require Import Prelude StateLogic GoStrings GoText Utf8Facts GoHttp NetIP Base64 Json JsonCodec.
From S2P Require Import Primitives Remote ResponsesRetry ResponsesStream ResponsesExchange Llm ResponsesCodec.

Local Open Scope Z_scope.

(** ** Connections *)

(** [primitives.NewRemoteClient] follows redirects; the client that codex
    passes to [NewRemoteClientWithHTTPClient] does not. *)
Inductive connection : Type :=
  | NewRemote (redirects : bool)
  | CloseRemote.

Definition open_remotes (l : list connection) : Z :=
  foldr (λ e n, match e with NewRemote _ => n + 1 | CloseRemote => n - 1 end) 0 l.

Definition does (e : connection) : M (list connection) unit := modify (λ l, l ++ [e]).

Fixpoint trim_slashes (reversed : bytes) : bytes :=
  match reversed with
  | c :: rest => if Ascii.eqb c "/" then trim_slashes rest else reversed
  | [] => []
  end.

(** [strings.TrimRight(s, slash)] *)
Definition TrimRight_slash (s : string) : string := to_string (reverse (trim_slashes (reverse (to_bytes s)))).

Definition blank (s : string) : bool := bool_decide (s = EmptyString).

(** What the constructors share: the adapter over a new connection, which is
    closed when the adapter refuses its configuration. *)
Definition over_remote (redirects : bool) (c : Config) : M (list connection) adapter :=
  _ ← does (NewRemote redirects);
  match NewAdapter true c with
  | inr a => mret a
  | inl e => _ ← does CloseRemote; fail e
  end.

Definition bearer (key : string) : string := "Bearer " +:+ key.

Definition json_headers : Header := {["Content-Type" := ["application/json"]]}.
Definition key_headers (key : string) : Header := <["Authorization" := [bearer key]]> json_headers.

(** ** OpenAI, OpenRouter, Fireworks and Ollama *)

Module cconfig.
Record Config : Type := Mk { APIKey : string; BaseURL : string; MaxAttempts : option Z }.
End cconfig.

(** [name] is how the errors call the provider. *)
Definition keyed_client (name : string) (place : CacheKeyPlacement) (extensions : list (string * value))
    (c : cconfig.Config) : M (list connection) adapter :=
  if blank (TrimSpace (cconfig.APIKey c)) then fail (errors_New (name +:+ " API key must be set"))
  else
    let baseURL := TrimRight_slash (TrimSpace (cconfig.BaseURL c)) in
    if blank baseURL then fail (errors_New (name +:+ " base URL must be set"))
    else over_remote true (config.Mk (baseURL +:+ "/responses") (key_headers (cconfig.APIKey c)) place
                             (cconfig.MaxAttempts c) extensions).

Definition openai_NewClient : cconfig.Config → M (list connection) adapter :=
  keyed_client "OpenAI" (placement.Mk EmptyString true) [].

Definition cache_control : json := JObj [("type", JStr "ephemeral"); ("ttl", JStr "1h")].

Definition openrouter_NewClient : cconfig.Config → M (list connection) adapter :=
  keyed_client "OpenRouter" (placement.Mk "x-session-id" false) [("cache_control", VText cache_control)].

Definition fireworks_NewClient : cconfig.Config → M (list connection) adapter :=
  keyed_client "fireworks" (placement.Mk "x-session-affinity" false) [].

Definition ollama_BaseURL : string := "http://localhost:11434/v1".

Definition ollama_NewClient (base_url : string) (maxAttempts : option Z) : M (list connection) adapter :=
  let baseURL := TrimRight_slash (TrimSpace base_url) in
  let baseURL := if blank baseURL then ollama_BaseURL else baseURL in
  over_remote true (config.Mk (baseURL +:+ "/responses") json_headers (placement.Mk EmptyString false) maxAttempts []).

(** *** The usage that Fireworks reports *)

Module fireworks.
Record usage : Set := Mk {
  PromptTokens : option Z; CompletionTokens : option Z; CachedTokens : option Z; ReasoningTokens : option Z }.
End fireworks.

Definition int64_pointer (n : string) (o : list (string * json)) : option (option Z) := get (ptr_codec int64_codec) n o.

(** A pointer to a struct with one pointer: nil and a nil member are read the
    same way. *)
Definition details (n member : string) (o : list (string * json)) : option (option Z) :=
  get_struct None (dec_struct None (int64_pointer member)) n o.

Definition dec_fireworks : json → option fireworks.usage :=
  dec_struct (fireworks.Mk None None None None) (λ o,
    prompt ← int64_pointer "prompt_tokens" o; completion ← int64_pointer "completion_tokens" o;
    cached ← details "prompt_tokens_details" "cached_tokens" o;
    reasoning ← details "completion_tokens_details" "reasoning_tokens" o;
    Some (fireworks.Mk prompt completion cached reasoning)).

Definition override (f : fireworks.usage) (u : Usage) : Usage :=
  usage.Mk (default (usage.InputTokens u) (fireworks.PromptTokens f))
    (default (usage.CachedInputTokens u) (fireworks.CachedTokens f)) (usage.CacheWriteInputTokens u)
    (default (usage.OutputTokens u) (fireworks.CompletionTokens f))
    (default (usage.ReasoningTokens u) (fireworks.ReasoningTokens f)) (usage.Raw u).

(** [Client.Respond] of Fireworks, after the adapter has answered. *)
Definition fireworks_response (r : Response) : result Response :=
  let raw := usage.Raw (response.Usage' r) in
  if value_empty raw then Ok r
  else
    f ← decoded_or (decode_with dec_fireworks raw) (Errorf_w "decode Fireworks response usage: " json_error);
    Ok (response.Mk (response.ID r) (response.Stop r) (response.Output r) (override f (response.Usage' r))
          (response.Failure' r)).

(** ** Codex *)

Definition codex_BaseURL : string := "https://chatgpt.com/backend-api/codex".

Module codex.
Record Config : Type := Mk {
  AccessToken : string; AccountID : string; AuthFile : string; BaseURL : string; MaxAttempts : option Z }.
End codex.

Module credentials.
Record credentials : Set := Mk { accessToken : string; accountID : string }.
End credentials.
Abbreviation credentials := credentials.credentials.

(** What [validateBaseURL] reads of a parsed URL. *)
Module url.
Record URL : Set := Mk {
  Scheme : string; User : bool; Hostname : string; RawQuery : string; Fragment : string }.
End url.
Abbreviation URL := url.URL.

Definition headerValue (v : string) : bool :=
  forallb (λ char, negb ((char <=? 32) || (126 <? char))) (utf8.runes (to_bytes v)) && negb (blank v).

(** *** Claims of a token *)

Definition from_url_byte (c : ascii) : option ascii :=
  if Ascii.eqb c "-" then Some "+"%char
  else if Ascii.eqb c "_" then Some "/"%char
  else if Ascii.eqb c "+" || Ascii.eqb c "/" || Ascii.eqb c "=" then None
  else Some c.

(** [base64.RawURLEncoding.DecodeString]: the other alphabet, no padding, line
    ends ignored.  One byte left over has no padding that is accepted. *)
Definition RawURL_decode (p : bytes) : option bytes :=
  p ← mapM from_url_byte (filter (λ c, c ≠ "010"%char ∧ c ≠ "013"%char) p);
  base64.decode (p ++ replicate ((4 - length p mod 4) mod 4) base64.pad).

Definition dec_auth : json → option string := dec_struct EmptyString (get string_codec "chatgpt_account_id").

(** The account and the expiry, the zero values when there are none. *)
Definition dec_claims : json → option (string * Z) :=
  dec_struct (EmptyString, 0) (λ o,
    expires ← get int64_codec "exp" o;
    account ← get_struct EmptyString dec_auth "https://api.openai.com/auth" o;
    Some (account, expires)).

Definition invalid_claims : error := errors_New "invalid Codex access token claims".

Definition tokenClaims (token : string) : result (string * Z) :=
  match split_on "." (to_bytes token) with
  | [_; payload; _] =>
    payload ← decoded_or (RawURL_decode payload) invalid_claims;
    decoded_or (decode_with dec_claims (value_of_text payload)) invalid_claims
  | _ => Ok (EmptyString, 0)
  end.

(** *** The authentication file *)

(** What opening the file, its Stat and reading it give: [contents] is all
    that could be read. *)
Module authfile.
Record opened : Type := Mk { stat : error + (bool * Z); contents : error + bytes }.
End authfile.

Definition auth_limit : Z := 2 ^ 20.

Definition dec_tokens : json → option (string * string) :=
  dec_struct (EmptyString, EmptyString) (λ o,
    token ← get string_codec "access_token" o; account ← get string_codec "account_id" o; Some (token, account)).

Definition dec_authfile : json → option (string * (string * string)) :=
  dec_struct (EmptyString, (EmptyString, EmptyString)) (λ o,
    mode ← get string_codec "auth_mode" o;
    tokens ← get_struct (EmptyString, EmptyString) dec_tokens "tokens" o;
    Some (mode, tokens)).

Definition invalid_authfile : error :=
  errors_New "invalid Codex auth file; expected a JSON object with tokens.access_token and tokens.account_id".

Definition readAuthFile (file : error + authfile.opened) : result (string * string) :=
  match file with
  | inl e => Err (Errorf_w "open Codex auth file (provide existing ChatGPT credentials; login is not implemented): " e)
  | inr f =>
    match authfile.stat f with
    | inl e => Err (Errorf_w "inspect Codex auth file: " e)
    | inr (regular, perm) =>
      if negb regular || negb (Z.land perm 63 =? 0) then
        Err (errors_New "codex auth file must be a regular file with private permissions (chmod 600)")
      else
        match authfile.contents f with
        | inl e => Err (Errorf_w "read Codex auth file: " e)
        | inr all =>
          let data := take (Z.to_nat (auth_limit + 1)) all in
          if auth_limit <? len data then Err invalid_authfile
          else
            '(mode, (token, account)) ← decoded_or (decode_with dec_authfile (value_of_text data)) invalid_authfile;
            if negb (blank mode) && negb (bool_decide (mode = "chatgpt")) then
              Err (errors_New "codex auth file is not a ChatGPT subscription login")
            else Ok (TrimSpace token, TrimSpace account)
        end
    end
  end.

(** *** Credentials *)

(** [now] is the clock in seconds. *)
Definition Config_credentials (file : error + authfile.opened) (now : Z) (c : codex.Config) : result credentials :=
  let token := TrimSpace (codex.AccessToken c) in
  let accountID := TrimSpace (codex.AccountID c) in
  '(token, accountID) ←
    (if negb (blank (codex.AuthFile c)) then
       if negb (blank token) || negb (blank accountID) then
         Err (errors_New "codex AuthFile cannot be combined with AccessToken or AccountID")
       else readAuthFile file
     else Ok (token, accountID));
  if blank token then
    Err (errors_New "codex access token must be set; use OPENAI_CODEX_ACCESS_TOKEN or a ChatGPT-authenticated Codex auth file")
  else if HasPrefix token "sk-" || negb (headerValue token) then
    Err (errors_New "codex requires a subscription access token, not an API key or invalid header value")
  else
    '(claimAccount, expires) ← tokenClaims token;
    if negb (expires =? 0) && (expires <=? now) then
      Err (errors_New "codex access token has expired; renew credentials externally (interactive login and token refresh are not implemented)")
    else if negb (blank accountID) && negb (blank claimAccount) && negb (bool_decide (accountID = claimAccount)) then
      Err (errors_New "codex account ID does not match the access token")
    else
      let accountID := if blank accountID then claimAccount else accountID in
      if blank accountID || negb (headerValue accountID) then
        Err (errors_New "codex account ID must be set in OPENAI_CODEX_ACCOUNT_ID, the auth file, or the access token")
      else Ok (credentials.Mk token accountID).

(** [user_home] is what os.UserHomeDir answers. *)
Definition EnvironmentConfig (getenv : string → string) (user_home : error + string) : result codex.Config :=
  let token := TrimSpace (getenv "OPENAI_CODEX_ACCESS_TOKEN") in
  let account := TrimSpace (getenv "OPENAI_CODEX_ACCOUNT_ID") in
  let file := TrimSpace (getenv "OPENAI_CODEX_AUTH_FILE") in
  let config file := codex.Mk token account file EmptyString None in
  if negb (blank file) && (negb (blank token) || negb (blank account)) then
    Err (errors_New "choose OPENAI_CODEX_AUTH_FILE or OPENAI_CODEX_ACCESS_TOKEN/OPENAI_CODEX_ACCOUNT_ID, not both")
  else if negb (blank token) || negb (blank account) || negb (blank file) then Ok (config file)
  else
    let home := TrimSpace (getenv "CODEX_HOME") in
    home ←
      (if blank home then
         let userHome := TrimSpace (getenv "HOME") in
         userHome ←
           (if blank userHome then
              match user_home with inl e => Err (Errorf_w "find Codex home: " e) | inr h => Ok h end
            else Ok userHome);
         Ok (filepath.Join [userHome; ".codex"])
       else Ok home);
    Ok (config (filepath.Join [home; "auth.json"])).

(** *** The client *)

Section Codex.
Context (parse_url : string → option URL).

Definition validateBaseURL (v : string) : result string :=
  let v := TrimRight_slash (TrimSpace v) in
  if blank v || bool_decide (v = codex_BaseURL) then Ok codex_BaseURL
  else
    let loopback :=
      match parse_url v with
      | Some parsed =>
        negb (url.User parsed) && blank (url.RawQuery parsed) && blank (url.Fragment parsed)
        && (bool_decide (url.Scheme parsed = "http") || bool_decide (url.Scheme parsed = "https"))
        && match ParseIP (to_bytes (url.Hostname parsed)) with Some ip => IsLoopback ip | None => false end
      | None => false
      end in
    if loopback then Ok v
    else Err (errors_New "codex base URL must be https://chatgpt.com/backend-api/codex or an explicit loopback IP endpoint").

Definition codex_headers (c : credentials) : Header :=
  list_to_map [("Authorization", [bearer (credentials.accessToken c)]);
               ("ChatGPT-Account-ID", [credentials.accountID c]);
               ("Content-Type", ["application/json"]);
               ("originator", ["unreal-agent"]);
               ("User-Agent", ["unreal-agent"])].

Definition codex_NewClient (file : error + authfile.opened) (now : Z) (c : codex.Config)
    : M (list connection) adapter :=
  baseURL ← lift (validateBaseURL (codex.BaseURL c));
  if match codex.MaxAttempts c with Some n => n <=? 0 | None => false end then
    fail (errors_New "max attempts must be positive")
  else
    cred ← lift (Config_credentials file now c);
    over_remote false (config.Mk (baseURL +:+ "/responses") (codex_headers cred) (placement.Mk "session-id" true)
                         (codex.MaxAttempts c) []).
End Codex.

(** [errors.As] with an [APIError] in the error that [Respond] returns. *)
Definition answered_api (out : exchange_result) : option APIError :=
  let '(status, body, err) := out in
  match err with
  | Some err => As_APIError err
  | None => if negb (success status) then Some (providerError status (body_value body) (body_text body)) else None
  end.

Section Respond.
Context {V : Type}.
Context (NewRequest : string → string → remote_error + (string * string)).
Context (ParseMediaType : string → option string) (ParseTime : string → option Z) (hash : string → string).
Context (logprobs_ok : json → bool) (response_rest_ok : list (string * json) → bool).

Definition codex_answered (out : exchange_result) : result Response :=
  match answered logprobs_ok response_rest_ok out with
  | Err e =>
    if match answered_api out with Some api => apierr.StatusCode api =? 401 | None => false end then
      Err (Errorf_w "codex credentials rejected; renew them externally and recreate the client: " e)
    else Err e
  | r => r
  end.

Definition fireworks_Respond (env : exchange_env) (a : adapter) (r : Request) (options : RequestOptions)
    : option (result Response) :=
  (λ response, response ≫= fireworks_response)
    <$> Respond (V := V) logprobs_ok response_rest_ok NewRequest ParseMediaType ParseTime hash env a r options.

(** [ctx_err] is ctx.Err() at the start. *)
Definition codex_Respond (ctx_err : option error) (env : exchange_env) (a : adapter) (r : Request)
    (options : RequestOptions) : option (result Response) :=
  match ctx_err with
  | Some e => Some (Err e)
  | None =>
    if bool_decide (is_Some (model.MaxOutputTokens (request.Model' r))) then
      Some (Err (errors_New "codex does not support max_output_tokens"))
    else (λ out, out ≫= codex_answered)
           <$> exchanged (V := V) NewRequest ParseMediaType ParseTime hash env a r options
  end.
End Respond.

(** ** The table of providers *)

(** A client is its adapter, with the part of its own that it adds. *)
Inductive client : Type :=
  | Plain (a : adapter)
  | Fireworks (a : adapter)
  | Codex (a : adapter).

Definition adapter_of (c : client) : adapter := match c with Plain a | Fireworks a | Codex a => a end.

Module rprovider.
Record Provider : Type := Mk {
  Name : string; BaseURL : string; DefaultModel : string; APIKeyEnvironment : string;
  NewClient : option (string → string → Z → (string → string) → M (list connection) client) }.
End rprovider.
Abbreviation Provider := rprovider.Provider.

Definition as_client (f : adapter → client) (m : M (list connection) adapter) : M (list connection) client :=
  a ← m; mret (f a).

(** What the constructor of codex reads of the machine: the parser of URLs, the
    files, the clock and the home directory. *)
Record machine : Type := MkMachine {
  parse_url : string → option URL;
  auth_files : string → error + authfile.opened;
  now : Z;
  user_home : error + string;
}.

Definition new_codex (m : machine) (baseURL : string) (maxAttempts : Z) (getenv : string → string)
    : M (list connection) client :=
  config ← lift (EnvironmentConfig getenv (user_home m));
  let config := codex.Mk (codex.AccessToken config) (codex.AccountID config) (codex.AuthFile config)
                  baseURL (Some maxAttempts) in
  as_client Codex (codex_NewClient (parse_url m) (auth_files m (codex.AuthFile config)) (now m) config).

Definition DefaultProviders (m : machine) : list Provider :=
  let keyed new f := Some (λ key base n (_ : string → string), as_client f (new (cconfig.Mk key base (Some n)))) in
  [rprovider.Mk "ollama" ollama_BaseURL EmptyString EmptyString
     (Some (λ _ base n _, as_client Plain (ollama_NewClient base (Some n))));
   rprovider.Mk "openai" "https://api.openai.com/v1" "gpt-6-astra" "OPENAI_API_KEY" (keyed openai_NewClient Plain);
   rprovider.Mk "openai-codex" codex_BaseURL EmptyString EmptyString (Some (λ _ base n getenv, new_codex m base n getenv));
   rprovider.Mk "openrouter" "https://openrouter.ai/api/v1" EmptyString "OPENROUTER_API_KEY"
     (keyed openrouter_NewClient Plain);
   rprovider.Mk "fireworks" "https://api.fireworks.ai/inference/v1" EmptyString "FIREWORKS_API_KEY"
     (keyed fireworks_NewClient Fireworks)].

(** ** Where credentials go *)

(** *** Values of headers *)

(** A byte that a header can hold and that is not white space. *)
Definition printable (c : ascii) : Prop := 33 ≤ byte_val c ≤ 126.

Lemma headerValue_printable v : headerValue v = true → Forall printable (to_bytes v) ∧ v ≠ EmptyString.
Proof.
  unfold headerValue. intros [H Hne]%andb_true_iff. split.
  2:{ intros ->. done. }
  assert (Forall (λ r, 33 ≤ r ≤ 126) (utf8.runes (to_bytes v))) as Hr.
  { apply forallb_Forall in H. eapply Forall_impl; [exact H|]. intros r Hr. simpl in Hr. lia. }
  assert (utf8.Valid (to_bytes v) = true) as Hv.
  { unfold utf8.Valid, utf8.runes in *. apply forallb_Forall. rewrite Forall_fmap in Hr.
    eapply Forall_impl; [exact Hr|]. intros c Hc. simpl in Hc. unfold utf8.valid_chunk.
    destruct (utf8.DecodeRune c) as [r size]. simpl in Hc.
    rewrite (proj2 (Z.eqb_neq r utf8.RuneError)); [done|]. unfold utf8.RuneError. lia. }
  rewrite <- (encode_runes_valid _ Hv). clear H Hne Hv. induction Hr as [|r rs Hr Hrs IH]; [constructor|].
  rewrite fmap_cons. change (concat (?x :: ?y)) with (x ++ concat y). apply Forall_app. split; [|exact IH].
  unfold utf8.EncodeRune, utf8.between.
  rewrite (proj2 (Z.ltb_ge r 0)), (proj2 (Z.ltb_ge 0x10FFFF r)), (proj2 (Z.leb_gt 0xD800 r)) by lia.
  simpl. rewrite (proj2 (Z.leb_le r 0x7F)) by lia. constructor; [|constructor].
  unfold printable. by rewrite byte_val_byte by lia.
Qed.

(** *** Tokens *)

Lemma blank_false s : blank s = false ↔ s ≠ EmptyString.
Proof. unfold blank. by rewrite bool_decide_eq_false. Qed.
Lemma blank_true s : blank s = true ↔ s = EmptyString.
Proof. unfold blank. by rewrite bool_decide_eq_true. Qed.

(** Where the credentials come from: the configuration or, in its place, the
    file. *)
Definition source (file : error + authfile.opened) (c : codex.Config) (token given : string) : Prop :=
  codex.AuthFile c = EmptyString ∧ token = TrimSpace (codex.AccessToken c) ∧ given = TrimSpace (codex.AccountID c)
  ∨ codex.AuthFile c ≠ EmptyString ∧ TrimSpace (codex.AccessToken c) = EmptyString
    ∧ TrimSpace (codex.AccountID c) = EmptyString ∧ readAuthFile file = Ok (token, given).

(** The account that is sent: the one that was given, which the claims of the
    token may not contradict, or else the claimed one; the token has not
    expired. *)
Definition account_of (token given account : string) (now : Z) : Prop :=
  ∃ claimed expires, tokenClaims token = Ok (claimed, expires) ∧
    account = (if bool_decide (given = EmptyString) then claimed else given) ∧
    (given ≠ EmptyString → claimed ≠ EmptyString → given = claimed) ∧
    (expires = 0 ∨ now < expires).

Lemma credentials_ok file now c cred :
  Config_credentials file now c = Ok cred →
  let token := credentials.accessToken cred in
  let account := credentials.accountID cred in
  headerValue token = true ∧ headerValue account = true ∧ HasPrefix token "sk-" = false
  ∧ ∃ given, source file c token given ∧ account_of token given account now.
Proof.
  unfold Config_credentials. intros H. cbv zeta in H. apply bind_ok in H as ([token account] & Hsrc & H).
  destruct (blank token) eqn:Hb; [done|].
  destruct (HasPrefix token "sk-") eqn:Hsk; [done|]. destruct (headerValue token) eqn:Hv; [|done]. simpl in H.
  apply bind_ok in H as ([claimed expires] & Hcl & H).
  destruct (negb (expires =? 0) && (expires <=? now)) eqn:He; [done|].
  destruct (negb (blank account) && _ && _) eqn:Hac; [done|].
  set (account' := if blank account then claimed else account) in H.
  destruct (blank account') eqn:Hba; [done|]. destruct (headerValue account') eqn:Hva; [|done]. simpl in H.
  injection H as <-. simpl. split_and!; [done..|]. exists account. split.
  - destruct (blank (codex.AuthFile c)) eqn:Hf; simpl in Hsrc.
    + left. injection Hsrc as <- <-. split; [by apply blank_true|done].
    + right. destruct (negb _ || _) eqn:Hboth; [done|]. split; [by apply blank_false|].
      apply orb_false_iff in Hboth as [H1%negb_false_iff H2%negb_false_iff].
      by apply blank_true in H1, H2.
  - exists claimed, expires. split; [done|]. split; [done|]. split.
    + intros H1%blank_false H2%blank_false. rewrite H1, H2 in Hac. simpl in Hac.
      by apply negb_false_iff, bool_decide_eq_true in Hac.
    + destruct (Z.eqb_spec expires 0); [by left|]. simpl in He. right. lia.
Qed.

(** *** Addresses *)

Definition loopback_url (parse_url : string → option URL) (base : string) : Prop :=
  ∃ u ip, parse_url base = Some u ∧ (url.Scheme u = "http" ∨ url.Scheme u = "https") ∧ url.User u = false
    ∧ url.RawQuery u = EmptyString ∧ url.Fragment u = EmptyString
    ∧ ParseIP (to_bytes (url.Hostname u)) = Some ip ∧ IsLoopback ip = true.

Lemma validateBaseURL_ok parse_url v base :
  validateBaseURL parse_url v = Ok base →
  base = codex_BaseURL ∨ base = TrimRight_slash (TrimSpace v) ∧ loopback_url parse_url base.
Proof.
  unfold validateBaseURL. cbv zeta. set (w := TrimRight_slash (TrimSpace v)).
  destruct (blank w || _); [intros [= <-]; by left|].
  destruct (parse_url w) as [u|] eqn:Hu; [|done].
  destruct (_ && _) eqn:E; [|done]. intros [= <-]. right. split; [done|].
  apply andb_true_iff in E as [E Hip]. apply andb_true_iff in E as [E Hs]. apply andb_true_iff in E as [E Hf].
  apply andb_true_iff in E as [Husr Hq]. apply negb_true_iff in Husr. apply blank_true in Hf, Hq.
  apply orb_true_iff in Hs. rewrite !bool_decide_eq_true in Hs.
  destruct (ParseIP _) as [ip|] eqn:Ep; [|done]. by exists u, ip.
Qed.

(** *** Constructors *)

Lemma over_remote_spec redirects c l :
  let '(l', r) := over_remote redirects c l in
  match r with
  | Ok a => l' = l ++ [NewRemote redirects] ∧ NewAdapter true c = inr a
  | Err _ => l' = l ++ [NewRemote redirects; CloseRemote]
  | Panic _ => False
  end.
Proof.
  unfold over_remote, does. rewrite M_modify. destruct (NewAdapter true c) as [e|a]; [|done].
  rewrite M_modify. unfold fail. by rewrite <- (assoc_L app).
Qed.

Lemma NewAdapter_inr c a :
  NewAdapter true c = inr a →
  adapter.endpoint a = config.Endpoint c ∧ adapter.headers a = config.Headers c
  ∧ adapter.cacheKeyPlacement a = config.Placement c
  ∧ adapter.maxAttempts a = default DefaultMaxAttempts (config.MaxAttempts c) ∧ 0 < adapter.maxAttempts a.
Proof.
  unfold NewAdapter. simpl. destruct (bool_decide _); [done|].
  destruct (Z.leb_spec (default DefaultMaxAttempts (config.MaxAttempts c)) 0); [done|].
  by intros [= <-].
Qed.

Lemma trace_of_over_remote redirects c (l : list connection) l' r :
  over_remote redirects c l = (l', r) →
  match r with
  | Ok a => l' = l ++ [NewRemote redirects] ∧ NewAdapter true c = inr a
  | Err _ => l' = l ++ [NewRemote redirects; CloseRemote]
  | Panic _ => False
  end.
Proof. intros H. pose proof (over_remote_spec redirects c l) as Hs. by rewrite H in Hs. Qed.

Lemma request_header a key name :
  EqualFold name "Accept" = false → name ≠ "Accept" → name ≠ placement.Header (adapter.cacheKeyPlacement a) →
  request_headers a key !! name = adapter.headers a !! name.
Proof.
  intros Hf Ha Hp. unfold request_headers.
  assert ((<["Accept":=["text/event-stream"]]> (filter (λ h, EqualFold h.1 "Accept" = false) (adapter.headers a))) !! name
          = adapter.headers a !! name) as Hb.
  { unfold Header. rewrite lookup_insert_ne by done. rewrite map_lookup_filter.
    destruct (@lookup string (list string) (gmap string (list string)) _ name (adapter.headers a)) as [v|]; [|done].
    simpl. by rewrite option_guard_True. }
  destruct (_ && _); [|done]. unfold Header. by rewrite lookup_insert_ne.
Qed.

Lemma request_map a body key id :
  (list_to_map (remote.Headers (remoteRequest a body key id)) : Header) = request_headers a key.
Proof. apply (list_to_map_to_list (M := gmap string)). Qed.

Lemma credentials_returns file now c : returns (Config_credentials file now c) = true.
Proof.
  unfold Config_credentials, readAuthFile, tokenClaims, decoded_or. go_returns.
Qed.

Lemma validateBaseURL_returns parse_url v : returns (validateBaseURL parse_url v) = true.
Proof. unfold validateBaseURL. go_returns. Qed.

Section Confined.
Context (parse_url : string → option URL).

(** The credentials that a request of the adapter shows, and to whom. *)
Definition sends_to (a : adapter) (url : string) (headers : list (string * string)) : Prop :=
  ∀ body key id,
    let r := remoteRequest a body key id in
    remote.URL r = url ∧
    ∀ name value, (name, value) ∈ headers → (list_to_map (remote.Headers r) : Header) !! name = Some [value].

(** C14: Whatever the configuration and the file of credentials: when a client
    of codex is made, every request it sends goes to the address of the
    service or to the configured one, which is then a loopback address over
    HTTP or HTTPS; redirects are not followed.  The token in its headers is
    that of the configuration, or that of the file when the configuration names
    one and holds no credentials itself; the account is the one that comes with
    the token there, and the one that the claims of the token name only when
    none was given; claims that name another account are refused.  Neither
    holds a blank or a control byte, so no header can be smuggled in; the token
    is no API key and has not expired.  When the client is not made, no
    connection pool is left. *)
Theorem codex_credentials_confined file now c :
  let '(l, r) := codex_NewClient parse_url file now c [] in
  match r with
  | Ok a =>
    ∃ base token given account,
      (base = codex_BaseURL ∨ base = TrimRight_slash (TrimSpace (codex.BaseURL c)) ∧ loopback_url parse_url base) ∧
      sends_to a (base +:+ "/responses") [("Authorization", bearer token); ("ChatGPT-Account-ID", account)] ∧
      l = [NewRemote false] ∧
      source file c token given ∧ account_of token given account now ∧
      Forall printable (to_bytes token) ∧ Forall printable (to_bytes account) ∧
      token ≠ EmptyString ∧ account ≠ EmptyString ∧ HasPrefix token "sk-" = false
  | Err _ => open_remotes l = 0
  | Panic _ => False
  end.
Proof.
  destruct (codex_NewClient parse_url file now c []) as [l r] eqn:H. unfold codex_NewClient in H.
  unfold mbind at 1, M_bind at 1, lift at 1 in H.
  destruct (validateBaseURL parse_url (codex.BaseURL c)) as [base|e|t] eqn:Hb.
  2:{ by injection H as <- <-. }
  2:{ by pose proof (validateBaseURL_returns parse_url (codex.BaseURL c)) as Hr; rewrite Hb in Hr. }
  destruct (match codex.MaxAttempts c with Some n => _ | None => _ end); [by injection H as <- <-|].
  unfold mbind at 1, M_bind at 1, lift at 1 in H.
  destruct (Config_credentials file now c) as [cred|e|t] eqn:Hc.
  2:{ by injection H as <- <-. }
  2:{ by pose proof (credentials_returns file now c) as Hr; rewrite Hc in Hr. }
  apply trace_of_over_remote in H. destruct r as [a|e|t]; [|by subst l|done].
  destruct H as [-> Ha]. apply NewAdapter_inr in Ha as (He & Hh & Hp & _).
  destruct (credentials_ok _ _ _ _ Hc) as (Ht & Hacc & Hsk & given & Hsrc & Hadm).
  apply headerValue_printable in Ht as [Ht Htn], Hacc as [Hacc Hann].
  exists base, (credentials.accessToken cred), given, (credentials.accountID cred).
  split; [by eapply validateBaseURL_ok|]. split_and!; try done.
  intros body key id. split; [exact He|]. intros name value Hin. rewrite request_map.
  rewrite elem_of_cons, list_elem_of_singleton in Hin.
  rewrite request_header; rewrite ?Hh, ?Hp; by destruct Hin as [[= -> ->]|[= -> ->]].
Qed.
End Confined.

(** A token with claims, and what is made of it. *)
Definition sample_token : string := "e30.eyJleHAiOjk5LCJodHRwczovL2FwaS5vcGVuYWkuY29tL2F1dGgiOnsiY2hhdGdwdF9hY2NvdW50X2lkIjoiYWNjIn19.sig".

Definition credentials_at (now : Z) (token account : string) : option credentials :=
  match Config_credentials (inl (errors_New "no file")) now (codex.Mk token account EmptyString EmptyString None) with
  | Ok c => Some c
  | _ => None
  end.

Example some_credentials :
  [credentials_at 98 sample_token EmptyString; credentials_at 98 (" " +:+ sample_token) "acc";
   credentials_at 99 sample_token EmptyString; credentials_at 98 sample_token "other";
   credentials_at 98 "opaque" "acc"; credentials_at 98 "opaque" EmptyString; credentials_at 98 "sk-secret" "acc";
   credentials_at 98 (String "013" "opaque") "acc"; credentials_at 98 ("opa" +:+ String "013" "que") "acc";
   credentials_at 98 "e30.invalid.payload" "acc"]
  = [Some (credentials.Mk sample_token "acc"); Some (credentials.Mk sample_token "acc"); None; None;
     Some (credentials.Mk "opaque" "acc"); None; None; Some (credentials.Mk "opaque" "acc"); None; None].
Proof. vm_compute. reflexivity. Qed.

(** *** Every provider *)

(** Opening a client leaves one connection pool or none. *)
Definition opens_one (m : M (list connection) client) (n : Z) : Prop :=
  ∀ l, let '(l', r) := m l in
    match r with
    | Ok c => open_remotes l' = open_remotes l + 1 ∧ adapter.maxAttempts (adapter_of c) = n ∧ 0 < n
    | Err _ => open_remotes l' = open_remotes l
    | Panic _ => False
    end.

Lemma open_remotes_app l k : open_remotes (l ++ k) = open_remotes l + open_remotes k.
Proof. induction l as [|[] l IH]; simpl; lia. Qed.

Lemma over_remote_opens redirects c f n :
  config.MaxAttempts c = Some n → (∀ a, adapter_of (f a) = a) →
  opens_one (as_client f (over_remote redirects c)) n.
Proof.
  intros Hn Hf l. unfold as_client, mbind, M_bind. destruct (over_remote redirects c l) as [l' r] eqn:H.
  apply trace_of_over_remote in H. destruct r as [a|e|t]; [|subst l'; rewrite open_remotes_app; simpl; lia|done].
  destruct H as [-> Ha]. apply NewAdapter_inr in Ha as (_ & _ & _ & Hm & Hp). simpl.
  rewrite open_remotes_app, Hf. rewrite Hn in Hm. simpl in *. split_and!; [lia|done|lia].
Qed.

Lemma failing_opens e f n : opens_one (as_client f (fail e)) n.
Proof. intros l. done. Qed.

Lemma keyed_opens name place ext key base n f :
  (∀ a, adapter_of (f a) = a) → opens_one (as_client f (keyed_client name place ext (cconfig.Mk key base (Some n)))) n.
Proof.
  intros Hf. unfold keyed_client. destruct (blank _); [apply failing_opens|]. cbv zeta.
  destruct (blank _); [apply failing_opens|]. by apply over_remote_opens.
Qed.


Lemma lift_opens {A} (r : result A) (k : A → M (list connection) client) n :
  returns r = true → (∀ a, r = Ok a → opens_one (k a) n) → opens_one (lift r ≫= k) n.
Proof.
  intros Hr Hk l. unfold mbind, M_bind, lift. destruct r as [a|e|t]; [by apply Hk|done|done].
Qed.

Lemma as_client_lift {A} (r : result A) (k : A → M (list connection) adapter) f l :
  as_client f (lift r ≫= k) l = (lift r ≫= λ a, as_client f (k a)) l.
Proof. unfold as_client, mbind, M_bind, lift. by destruct r. Qed.

Lemma EnvironmentConfig_returns getenv home : returns (EnvironmentConfig getenv home) = true.
Proof. unfold EnvironmentConfig. go_returns. Qed.

Lemma codex_opens parse file now c n :
  codex.MaxAttempts c = Some n → opens_one (as_client Codex (codex_NewClient parse file now c)) n.
Proof.
  intros Hn. unfold codex_NewClient. intros l. rewrite as_client_lift. revert l.
  apply lift_opens; [apply validateBaseURL_returns|]. intros base _. rewrite Hn.
  destruct (n <=? 0); [apply failing_opens|]. intros l. rewrite as_client_lift. revert l.
  apply lift_opens; [apply credentials_returns|]. intros cred _. by apply over_remote_opens.
Qed.

Lemma new_codex_opens m base n getenv : opens_one (new_codex m base n getenv) n.
Proof. apply lift_opens; [apply EnvironmentConfig_returns|]. intros c _. by apply codex_opens. Qed.

(** Whichever provider is chosen: opening its client leaves one connection
    pool, in a client with the attempts that were asked for, or none. *)
Lemma default_clients_open m p new key base n getenv :
  p ∈ DefaultProviders m → rprovider.NewClient p = Some new → opens_one (new key base n getenv) n.
Proof.
  intros Hp. unfold DefaultProviders in Hp.
  repeat (apply elem_of_cons in Hp as [->|Hp]; [intros [= <-]|]); [by apply over_remote_opens|by apply keyed_opens| |
    by apply keyed_opens|by apply keyed_opens|by apply not_elem_of_nil in Hp].
  apply new_codex_opens.
Qed.

(** The answers of Fireworks: what it reports of its usage overrides what the
    adapter read, and a usage that is missing or empty changes nothing. *)
Lemma fireworks_response_plain r :
  value_empty (usage.Raw (response.Usage' r)) = true → fireworks_response r = Ok r.
Proof. unfold fireworks_response. by intros ->. Qed.
