(* ===== verification/Inbox.v ===== *)
(** * The inbox of a session: inbox/inbox.go, inbox/local.go

    Inputs, control messages, and the goroutine that forwards every input ID
    once, in the order of submission. *)

From Stdlib Require Import Ascii ZArith Lia.
From S2P Require Import Prelude GoStrings GoText Json JsonFacts JsonCodec TextFacts Llm.

Local Open Scope Z_scope.

Definition InputID : Set := string.

Definition InputKind : Set := string.
Definition InputExternal : InputKind := "external".
Definition InputControl : InputKind := "control".
Definition InputCrash : InputKind := "crash".

Module input.
Record Input : Type := Mk { ID : InputID; Kind : InputKind; Payload : value }.
End input.
Abbreviation Input := input.Input.

#[export] Instance Input_eq_dec : EqDecision Input. Proof. solve_decision. Defined.

Definition ControlMode : Set := string.
Definition StopHard : ControlMode := "hard".
Definition StopWhenIdle : ControlMode := "when_idle".
Definition Heartbeat : ControlMode := "heartbeat".
Definition UpdateSettings : ControlMode := "settings".

(** [Parameters] is nil or a [Settings], the reasoning effort. *)
Module control.
Record ControlMessage : Type := Mk {
  Mode : ControlMode; Reason : string; Parameters : option ReasoningEffort }.
End control.
Abbreviation ControlMessage := control.ControlMessage.

#[export] Instance ControlMessage_eq_dec : EqDecision ControlMessage. Proof. solve_decision. Defined.

(** ** Encoding *)

#[local] Unset Program Cases.

Program Definition Input_codec : codec Input := {|
  zero := input.Mk EmptyString EmptyString VNil;
  enc s := enc_struct [field string_codec "ID" (input.ID s); field string_codec "Kind" (input.Kind s);
    field_omit value_codec "Payload" (is_nil (input.Payload s)) (input.Payload s)];
  dec := dec_struct (input.Mk EmptyString EmptyString VNil) (λ o,
    a ← get string_codec "ID" o; b ← get string_codec "Kind" o; c ← get value_codec "Payload" o;
    Some (input.Mk a b c));
  jok _ := True |}.
Next Obligation. intros [a b c] j _. struct_dec. Qed.
Next Obligation. intros [a b c] j. struct_enc_ok. Qed.
#[export] Instance Input_total : Total Input_codec.
Proof. constructor; [struct_zero|struct_total]. Qed.

Module envelope.
Record Envelope : Type := Mk { Mode : ControlMode; Reason : string; Parameters : value }.
End envelope.
Abbreviation Envelope := envelope.Envelope.

Program Definition Envelope_codec : codec Envelope := {|
  zero := envelope.Mk EmptyString EmptyString VNil;
  enc s := enc_struct [field string_codec "Mode" (envelope.Mode s);
    field string_codec "Reason" (envelope.Reason s);
    field_omit value_codec "Parameters" (is_nil (envelope.Parameters s)) (envelope.Parameters s)];
  dec := dec_struct (envelope.Mk EmptyString EmptyString VNil) (λ o,
    a ← get string_codec "Mode" o; b ← get string_codec "Reason" o; c ← get value_codec "Parameters" o;
    Some (envelope.Mk a b c));
  jok _ := True |}.
Next Obligation. intros [a b c] j _. struct_dec. Qed.
Next Obligation. intros [a b c] j. struct_enc_ok. Qed.

(** [Settings], written without its field when the effort is empty. *)
Program Definition Settings_codec : codec ReasoningEffort := {|
  zero := EmptyString;
  enc s := enc_struct [field_omit string_codec "ReasoningEffort" (bool_decide (s = EmptyString)) s];
  dec := dec_struct EmptyString (λ o, a ← get string_codec "ReasoningEffort" o; Some a);
  jok _ := True |}.
Next Obligation. intros s j _. struct_dec. Qed.
Next Obligation. intros s j. struct_enc_ok. Qed.

(** [json.RejectUnknownMembers(true)] *)
Definition known_members (ns : list string) (v : value) : bool :=
  match v with
  | VText (JObj o) => forallb (λ m, bool_decide (fst m ∈ ns)) o
  | _ => true
  end.

Definition Unmarshal_strict {A} (c : codec A) (ns : list string) (v : value) : result A :=
  if known_members ns v then Unmarshal c v else Err json_error.

Definition envelope_members : list string := ["Mode"; "Reason"; "Parameters"].

(** ** Control messages *)

Definition DecodeControlMessage (i : Input) : result ControlMessage :=
  if negb (bool_decide (input.Kind i = InputControl)) then
    Err (errors_New ("control message input has kind " +:+ quote (input.Kind i)))
  else
    e ← map_err (Errorf_w "decode control message: ")
          (Unmarshal_strict Envelope_codec envelope_members (input.Payload i));
    let mode := envelope.Mode e in
    let request := control.Mk mode (envelope.Reason e) None in
    if negb (bool_decide (mode = UpdateSettings)) && negb (value_empty (envelope.Parameters e)) then
      Err (errors_New ("control mode " +:+ quote mode +:+ " does not accept parameters"))
    else if bool_decide (mode = StopHard) || bool_decide (mode = StopWhenIdle) then Ok request
    else if bool_decide (mode = Heartbeat) then
      if bool_decide (envelope.Reason e = EmptyString) then Err (errors_New "heartbeat reason is empty")
      else Ok request
    else if bool_decide (mode = UpdateSettings) then
      settings ← map_err (Errorf_w "decode settings parameters: ")
                   (Unmarshal_strict Settings_codec ["ReasoningEffort"] (envelope.Parameters e));
      if negb (Valid settings) then
        Err (errors_New ("unsupported reasoning effort " +:+ quote settings))
      else Ok (control.Mk mode (envelope.Reason e) (Some settings))
    else Err (errors_New ("unsupported control mode " +:+ quote mode)).

Definition Validate (i : Input) : result unit :=
  if bool_decide (input.ID i = EmptyString) then Err (errors_New "input ID is empty")
  else
    _ ← (if bool_decide (input.Kind i = InputExternal) || bool_decide (input.Kind i = InputCrash) then Ok tt
         else if bool_decide (input.Kind i = InputControl) then (λ _, tt) <$> DecodeControlMessage i
         else Err (errors_New ("input " +:+ quote (input.ID i) +:+ " has unsupported kind "
                                 +:+ quote (input.Kind i))));
    if negb (is_nil (input.Payload i)) && negb (IsValid (input.Payload i)) then
      Err (errors_New ("input " +:+ quote (input.ID i) +:+ " payload is not valid JSON"))
    else Ok tt.

(** What the coordinator marshals: [json.Marshal] of a [ControlMessage]. *)
Definition Marshal_control (m : ControlMessage) : result value :=
  parameters ← match control.Parameters m with
               | None => Ok VNil
               | Some s => Marshal Settings_codec s
               end;
  Marshal Envelope_codec (envelope.Mk (control.Mode m) (control.Reason m) parameters).

(** ** The inbox: local.go *)

(** The state of the goroutine; [delivered] is what was received from the
    output channel and [closed] says that the loop returned. *)
Record Inbox : Type := MkInbox {
  seen : gset InputID;
  queued : list Input;
  delivered : list Input;
  closed : bool;
}.

Fixpoint mark_seen (seenIDs : list InputID) (s : gset InputID) : result (gset InputID) :=
  match seenIDs with
  | [] => Ok s
  | id :: rest =>
    if bool_decide (id = EmptyString) then Err (errors_New "seen input ID is empty")
    else mark_seen rest ({[id]} ∪ s)
  end.

Definition New (seenIDs : list InputID) : result Inbox :=
  s ← mark_seen seenIDs ∅; Ok (MkInbox s [] [] false).

(** [Submit] hands a valid input to the goroutine unless a context is done:
    the cause of the caller's context, of the inbox's. *)
Definition Submit (ctx inputs_ctx : option error) (i : Input) : result Input :=
  _ ← map_err (Errorf_w "submit input: ") (Validate i);
  match ctx with
  | Some e => Err e
  | None => match inputs_ctx with Some e => Err e | None => Ok i end
  end.

(** The cases of the select in [run]. *)
Inductive inbox_event : Type :=
  | Received (i : Input)
  | Output
  | Done.

Definition run (e : inbox_event) (s : Inbox) : Inbox :=
  if closed s then s
  else match e with
  | Received i =>
    if decide (input.ID i ∈ seen s) then s
    else MkInbox ({[input.ID i]} ∪ seen s) (queued s ++ [i]) (delivered s) false
  | Output =>
    match queued s with
    | [] => s
    | next :: rest => MkInbox (seen s) rest (delivered s ++ [next]) false
    end
  | Done => MkInbox (seen s) (queued s) (delivered s) true
  end.

Definition run_all (es : list inbox_event) (s : Inbox) : Inbox := fold_left (λ s e, run e s) es s.

(** ** Properties *)

(** The messages that [DecodeControlMessage] accepts. *)
Definition well_formed (m : ControlMessage) : Prop :=
  (control.Mode m = StopHard ∨ control.Mode m = StopWhenIdle ∨
   control.Mode m = Heartbeat ∧ control.Reason m ≠ EmptyString) ∧ control.Parameters m = None ∨
  control.Mode m = UpdateSettings ∧ ∃ effort, control.Parameters m = Some effort ∧ Valid effort = true.

Lemma Envelope_strict m v :
  Marshal Envelope_codec m = Ok v → Unmarshal_strict Envelope_codec envelope_members v = Ok m.
Proof.
  intros H. unfold Unmarshal_strict.
  assert (known_members envelope_members v = true) as ->; [|by apply Unmarshal_Marshal].
  revert H. unfold Marshal. destruct (enc Envelope_codec m) as [j|] eqn:E; [|done]. intros [= <-].
  apply fmap_Some in E as (o & Ho & ->). apply enc_fields_names in Ho. simpl.
  apply forallb_Forall, Forall_forall. intros x Hx. apply bool_decide_eq_true.
  apply (Ho (fst x)). by apply list_elem_of_fmap_2.
Qed.

Lemma Settings_strict s v :
  Marshal Settings_codec s = Ok v → Unmarshal_strict Settings_codec ["ReasoningEffort"] v = Ok s.
Proof.
  intros H. unfold Unmarshal_strict.
  assert (known_members ["ReasoningEffort"] v = true) as ->; [|by apply Unmarshal_Marshal].
  revert H. unfold Marshal. destruct (enc Settings_codec s) as [j|] eqn:E; [|done]. intros [= <-].
  apply fmap_Some in E as (o & Ho & ->). apply enc_fields_names in Ho. simpl.
  apply forallb_Forall, Forall_forall. intros x Hx. apply bool_decide_eq_true.
  apply (Ho (fst x)). by apply list_elem_of_fmap_2.
Qed.

Lemma DecodeControl_marshalled m v id :
  well_formed m → Marshal_control m = Ok v → DecodeControlMessage (input.Mk id InputControl v) = Ok m.
Proof.
  unfold well_formed. intros Hwf H. apply bind_ok in H as (p & Hp & H). apply Envelope_strict in H.
  unfold DecodeControlMessage. simpl. rewrite H. simpl. clear H. destruct m as [mode reason parameters].
  simpl in *. destruct Hwf as [[Hmode ->]|(-> & effort & -> & Hv)].
  - injection Hp as <-. simpl. rewrite andb_false_r.
    by destruct Hmode as [-> | [-> | [-> Hr]]]; [| |rewrite (bool_decide_false (reason = _)) by done].
  - apply Settings_strict in Hp. simpl. rewrite Hp. simpl. by rewrite Hv.
Qed.

(** A control message survives its encoding: what the harness marshals of
    a stop, a heartbeat with a reason or a settings update with a known
    effort, an input of kind control decodes to the same message, and the
    input is valid as soon as it has an ID. *)
Theorem control_roundtrip m v id :
  well_formed m → Marshal_control m = Ok v → id ≠ EmptyString →
  DecodeControlMessage (input.Mk id InputControl v) = Ok m ∧
  Validate (input.Mk id InputControl v) = Ok tt.
Proof.
  intros Hwf H Hid. pose proof (DecodeControl_marshalled m v id Hwf H) as Hd. split; [done|].
  unfold Validate. simpl. rewrite bool_decide_false by done. rewrite Hd. simpl.
  apply bind_ok in H as (p & _ & H). by rewrite (Marshal_valid _ _ _ H), andb_false_r.
Qed.

Lemma control_roundtrip_witness :
  ∃ v, Marshal_control (control.Mk Heartbeat "waited" None) = Ok v ∧
  (DecodeControlMessage (input.Mk "h1" InputControl v) = Ok (control.Mk Heartbeat "waited" None) ∧
   Validate (input.Mk "h1" InputControl v) = Ok tt).
Proof.
  eexists. split; [vm_compute; reflexivity|].
  apply control_roundtrip; [left; split; [right; right; by split|done]|vm_compute; reflexivity|done].
Defined.

(** The first occurrence of every ID that is not in [s]. *)
Fixpoint fresh_inputs (s : gset InputID) (xs : list Input) : list Input :=
  match xs with
  | [] => []
  | i :: xs => if decide (input.ID i ∈ s) then fresh_inputs s xs
               else i :: fresh_inputs ({[input.ID i]} ∪ s) xs
  end.

(** What was received before the loop returned. *)
Fixpoint received (es : list inbox_event) : list Input :=
  match es with
  | [] => []
  | Received i :: es => i :: received es
  | Output :: es => received es
  | Done :: _ => []
  end.

Lemma run_all_cons e es s : run_all (e :: es) s = run_all es (run e s).
Proof. done. Qed.

Lemma run_closed es s : closed s = true → run_all es s = s.
Proof.
  intros H. induction es as [|e es IH]; [done|]. rewrite run_all_cons. unfold run. by rewrite H.
Qed.

Lemma run_all_spec es s :
  closed s = false →
  delivered (run_all es s) ++ queued (run_all es s)
  = delivered s ++ queued s ++ fresh_inputs (seen s) (received es).
Proof.
  revert s. induction es as [|e es IH]; intros s Hs; [by rewrite app_nil_r|].
  rewrite run_all_cons. unfold run. rewrite Hs. destruct e as [i| |]; simpl.
  - destruct (decide (input.ID i ∈ seen s)); [by rewrite IH|]. rewrite IH by done. simpl.
    by rewrite <- !app_assoc.
  - destruct (queued s) as [|next rest] eqn:E; [by rewrite IH, E|]. rewrite IH by done. simpl.
    by rewrite <- !app_assoc.
  - rewrite run_closed by done. simpl. by rewrite app_nil_r.
Qed.

Lemma fresh_inputs_ids s xs :
  NoDup (input.ID <$> fresh_inputs s xs) ∧ Forall (λ i, input.ID i ∉ s) (fresh_inputs s xs).
Proof.
  revert s. induction xs as [|i xs IH]; intros s; simpl; [by split; constructor|].
  case_decide as Hi; [apply IH|]. destruct (IH ({[input.ID i]} ∪ s)) as [H1 H2]. split.
  - simpl. apply NoDup_cons. split; [|done]. intros (x & Hx & Hin)%list_elem_of_fmap.
    rewrite Forall_forall in H2. specialize (H2 x Hin). set_solver.
  - constructor; [done|]. eapply Forall_impl; [exact H2|]. simpl. set_solver.
Qed.

Lemma mark_seen_ok ids s s' : mark_seen ids s = Ok s' → s' = list_to_set ids ∪ s.
Proof.
  revert s. induction ids as [|id ids IH]; intros s H; simpl in *; [injection H as <-; set_solver|].
  case_bool_decide; [done|]. apply IH in H. set_solver.
Qed.

(** C38: The inbox delivers every input at most once and in order: whatever the
    interleaving of submissions and receives, what was delivered followed by
    what is queued is the sequence of first submissions of the IDs that the
    inbox was not told about, so that no ID is delivered twice and none that
    was seen before. *)
Theorem inbox_once_in_order seenIDs s es :
  New seenIDs = Ok s →
  delivered (run_all es s) ++ queued (run_all es s)
  = fresh_inputs (list_to_set seenIDs) (received es) ∧
  NoDup (input.ID <$> delivered (run_all es s)) ∧
  Forall (λ i, input.ID i ∉ seenIDs) (delivered (run_all es s)).
Proof.
  intros H. apply bind_ok in H as (s0 & Hs0 & [= <-]). apply mark_seen_ok in Hs0.
  rewrite (right_id_L ∅ (∪)) in Hs0. subst s0.
  pose proof (run_all_spec es (MkInbox (list_to_set seenIDs) [] [] false) eq_refl) as Hrun.
  simpl in Hrun. destruct (fresh_inputs_ids (list_to_set seenIDs) (received es)) as [H1 H2].
  rewrite <- Hrun in H1, H2. split; [done|]. rewrite fmap_app in H1.
  apply NoDup_app in H1 as [H1 _]. apply Forall_app in H2 as [H2 _]. split; [done|].
  eapply Forall_impl; [exact H2|]. simpl. set_solver.
Qed.

Lemma inbox_once_in_order_witness :
  ∃ s, New ["a"] = Ok s ∧
  let i id := input.Mk id InputExternal VNil in
  let es := [Received (i "a"); Received (i "b"); Received (i "b"); Output; Received (i "c")] in
  delivered (run_all es s) = [i "b"] ∧
  (delivered (run_all es s) ++ queued (run_all es s)
   = fresh_inputs (list_to_set ["a"]) (received es) ∧
   NoDup (input.ID <$> delivered (run_all es s)) ∧
   Forall (λ i, input.ID i ∉ ["a"]) (delivered (run_all es s))).
Proof.
  eexists. split; [vm_compute; reflexivity|]. intros i es. split; [vm_compute; reflexivity|].
  apply inbox_once_in_order. vm_compute. reflexivity.
Defined.
