(* ===== verification/RunInputs.v ===== *)
(** * What an inbox is given before a run starts

    Both the runner and the desktop application make an inbox, submit the
    settings, the messages and last the order to stop when idle, and only then
    start the coordinator that reads from it. *)

From Stdlib Require Import Ascii ZArith Lia.
From S2P Require Import Prelude GoStrings GoText Json JsonCodec Llm Inbox.

Local Open Scope Z_scope.

Definition settings_message (effort : ReasoningEffort) : ControlMessage :=
  control.Mk UpdateSettings EmptyString (Some effort).
Definition stop_message : ControlMessage := control.Mk StopWhenIdle EmptyString None.

Lemma Submit_same ctx inputs_ctx i i' : Inbox.Submit ctx inputs_ctx i = Ok i' → i' = i.
Proof.
  unfold Inbox.Submit. intros (_ & _ & H)%bind_ok. destruct ctx; [done|]. destruct inputs_ctx; [done|].
  by injection H.
Qed.

Lemma Submit_returns ctx inputs_ctx i : returns (Inbox.Submit ctx inputs_ctx i) = true.
Proof. unfold Inbox.Submit, Validate, DecodeControlMessage, Unmarshal_strict. go_returns. Qed.

Lemma received_inputs inputs : received (Inbox.Received <$> inputs) = inputs.
Proof. induction inputs as [|i inputs IH]; [done|]. simpl. f_equal. exact IH. Qed.

Lemma run_all_received inputs s :
  closed s = false →
  closed (run_all (Inbox.Received <$> inputs) s) = false ∧
  delivered (run_all (Inbox.Received <$> inputs) s) = delivered s ∧
  seen (run_all (Inbox.Received <$> inputs) s) = list_to_set (input.ID <$> inputs) ∪ seen s.
Proof.
  revert s. induction inputs as [|i inputs IH]; intros s Hs; [split_and!; [done..|set_solver]|].
  rewrite !fmap_cons, run_all_cons. unfold Inbox.run. rewrite Hs.
  destruct (decide (input.ID i ∈ seen s)) as [Hin|Hin].
  - destruct (IH s Hs) as (H1 & H2 & H3). split_and!; [done..|set_solver].
  - destruct (IH (MkInbox ({[input.ID i]} ∪ seen s) (queued s ++ [i]) (delivered s) false) eq_refl)
      as (H1 & H2 & H3). split_and!; [done..|]. rewrite H3. simpl. set_solver.
Qed.

(** The inbox of a run: what was pending, less what the session has. *)
Record inbox_of (ids : list InputID) (inputs : list Input) (s : Inbox) : Prop := {
  inbox_open : closed s = false;
  inbox_delivered : delivered s = [];
  inbox_queued : queued s = fresh_inputs (list_to_set ids) inputs;
  inbox_seen : seen s = list_to_set (input.ID <$> inputs) ∪ list_to_set ids;
}.

Lemma New_received ids inputs s :
  Inbox.New ids = Ok s → inbox_of ids inputs (run_all (Inbox.Received <$> inputs) s).
Proof.
  intros (seen0 & Hids%mark_seen_ok & [= <-])%bind_ok.
  rewrite (right_id_L ∅ (∪)) in Hids. subst seen0. set (s0 := MkInbox _ [] [] false).
  destruct (run_all_received inputs s0 eq_refl) as (Hc & Hd & Hs).
  constructor; [done|done| |done].
  pose proof (run_all_spec (Inbox.Received <$> inputs) s0 eq_refl) as Hrun.
  rewrite Hd, received_inputs in Hrun. exact Hrun.
Qed.
