(* ===== verification/Tool.v ===== *)
(** * Tools: tool/tool.go, tool/output.go, tool/static.go

    Call statuses, the translator interface between model calls and
    operations, and the static tools. *)

From Stdlib Require Import Ascii ZArith Lia.
From S2P Require Import Prelude GoStrings GoText Json JsonFacts JsonCodec TextFacts Operation.
From S2P Require Import Output Llm.

Local Open Scope Z_scope.

Module status.
Record CallStatus : Type := Mk { Error : string; ErrorTruncated : bool; WaitingFor : list ID }.
End status.
Abbreviation CallStatus := status.CallStatus.

#[export] Instance CallStatus_eq_dec : EqDecision CallStatus. Proof. solve_decision. Defined.

Definition error_status (text : string) : CallStatus := status.Mk text false [].
Definition waiting_status (ids : list ID) : CallStatus := status.Mk EmptyString false ids.

#[local] Unset Program Cases.

Lemma is_empty_jok (l : list ID) : jok (list_codec string_codec) l.
Proof. apply Forall_true. Qed.

Program Definition CallStatus_codec : codec CallStatus := {|
  zero := status.Mk EmptyString false [];
  enc s := enc_struct [field string_codec "Error" (status.Error s);
    field_omit bool_codec "ErrorTruncated" (negb (status.ErrorTruncated s)) (status.ErrorTruncated s);
    field_omit (list_codec string_codec) "WaitingFor" (is_empty (status.WaitingFor s)) (status.WaitingFor s)];
  dec := dec_struct (status.Mk EmptyString false []) (λ o,
    a ← get string_codec "Error" o; b ← get bool_codec "ErrorTruncated" o;
    c ← get (list_codec string_codec) "WaitingFor" o;
    Some (status.Mk a b c));
  jok _ := True |}.
Next Obligation. intros [a b c] j _. pose proof (is_empty_jok c). struct_dec. Qed.
Next Obligation. intros [a b c] j. struct_enc_ok. Qed.
#[export] Instance CallStatus_total : Total CallStatus_codec.
Proof. constructor; [struct_zero|struct_total]. Qed.

(** ** The context of a turn: coordinator/loop.go, [toolCallContext]

    [uuid] is the supply of identifiers; [next] counts those taken. *)

Record toolCallContext : Type := MkContext {
  uuid : nat → ID;
  next : nat;
  operations : list Operation;
}.

Definition Submit (s : Spec) (c : toolCallContext) : toolCallContext * ID :=
  let id := uuid c (next c) in
  (MkContext (uuid c) (S (next c)) (operations c ++ [new_operation id s]), id).

(** ** Translators *)

Record Translator : Type := MkTranslator {
  Translate : ToolCall → toolCallContext → toolCallContext * CallStatus;
  TranslateResult : string → CallStatus → list Operation → result ToolResult;
}.

Definition text_result (callID text : string) : ToolResult :=
  tr.Mk callID [tro.Mk ToolResultText text].

(** What the coordinator relies on: a translator only appends operations made
    from specifications, with identifiers of the supply, and a call that does
    not fail waits for exactly those that it submitted. *)
Definition submits (c c' : toolCallContext) (specs : list Spec) : Prop :=
  uuid c' = uuid c ∧ next c' = (next c + length specs)%nat ∧
  operations c' = operations c ++ imap (λ i s, new_operation (uuid c (next c + i)%nat) s) specs.

Definition translates (t : Translator) : Prop := ∀ call c c' s,
  Translate t call c = (c', s) →
  ∃ specs, submits c c' specs ∧
    (status.Error s = EmptyString → specs ≠ [] ∧
       status.WaitingFor s = imap (λ i _, uuid c (next c + i)%nat) specs) ∧
    (status.Error s ≠ EmptyString → specs = [] ∧ status.WaitingFor s = []).

(** [reports] holds of the checkpoints of the operations that a translator
    submits; the coordinator hands it these and no others. *)
Class Reports (t : Translator) : Type := reports : Operation → Prop.
#[global] Arguments reports t {_} o.

(** The operations that one call submitted. *)
Definition submitted (t : Translator) (call : ToolCall) (c : toolCallContext) : list Operation :=
  drop (length (operations c)) (operations (fst (Translate t call c))).

(** A translator that the coordinator can rely on: its operations are reported
    from the start, and a status it gave has a result for every checkpoint. *)
Class LawfulTranslator (t : Translator) `{!Reports t} : Prop := {
  law_translates : translates t;
  law_submitted call c : Forall (reports t) (submitted t call c);
  law_result call c c' s callID ops :
    Translate t call c = (c', s) → op.ID' <$> ops = status.WaitingFor s →
    Forall (reports t) ops → ∃ out, TranslateResult t callID s ops = Ok (tr.Mk callID out);
}.

(** A call that fails submits nothing, a call that does not submits one operation. *)
Lemma submitted_none t call c s : Translate t call c = (c, s) → submitted t call c = [].
Proof. unfold submitted. intros ->. simpl. by rewrite drop_all. Qed.

Lemma submitted_one t call c spec s :
  Translate t call c = (fst (Submit spec c), s) →
  submitted t call c = [new_operation (uuid c (next c)) spec].
Proof. unfold submitted. intros ->. simpl. by rewrite drop_app_length. Qed.

Lemma submits_none c : submits c c [].
Proof. split; [done|]. split; simpl; [lia|by rewrite app_nil_r]. Qed.

Lemma submits_one c s :
  submits c (fst (Submit s c)) [s].
Proof. split; [done|]. split; simpl; [lia|]. by rewrite Nat.add_0_r. Qed.

(** ** tool/output.go *)

Definition ErrorStatus (message : string) (limit : Z) : CallStatus :=
  let limit := if limit <=? 0 then DefaultMaxOutputLength else limit in
  let '(message, truncated) := BoundOutput message limit in
  status.Mk message truncated [].

Lemma ErrorStatus_waits message limit : status.WaitingFor (ErrorStatus message limit) = [].
Proof. unfold ErrorStatus. by destruct (BoundOutput _ _). Qed.

Lemma ErrorStatus_error message limit :
  message ≠ EmptyString → status.Error (ErrorStatus message limit) ≠ EmptyString.
Proof.
  intros H. unfold ErrorStatus. pose proof (BoundOutput_nonempty message (if limit <=? 0 then DefaultMaxOutputLength else limit) H).
  by destruct (BoundOutput _ _).
Qed.

(** The length of a jsontext.Value is zero when the member is missing. *)
Definition ParseMaxOutputLength (encoded : value) : result Z :=
  if value_empty encoded then Ok DefaultMaxOutputLength
  else
    limit ← map_err (Errorf_w "decode max_output_length: ") (Unmarshal int64_codec encoded);
    if limit <=? 0 then Err (errors_New "max_output_length must be a positive integer")
    else if MaxOutputLength <? limit then
      Err (errors_New ("max_output_length must not exceed " +:+ Itoa MaxOutputLength))
    else Ok limit.

Lemma ParseMaxOutputLength_range v limit :
  ParseMaxOutputLength v = Ok limit → 0 < limit ≤ MaxOutputLength.
Proof.
  unfold ParseMaxOutputLength. destruct (value_empty v); [by intros [= <-]|].
  intros (l & _ & H)%bind_ok. if_in H; [done|]. if_in H; [done|]. by injection H as <-.
Qed.

Lemma ParseMaxOutputLength_returns v : returns (ParseMaxOutputLength v) = true.
Proof. unfold ParseMaxOutputLength. go_returns. Qed.
#[export] Hint Resolve ParseMaxOutputLength_returns : returns.

(** ** tool/static.go *)

Definition BashName : string := "Bash".
Definition ViewImageName : string := "ViewImage".
Definition SkillUseName : string := "SkillUse".

Definition errorMessage (name : string) : string :=
  "static tool " +:+ quote name +:+ " is not configured".

Definition unavailableTranslator (name : string) : Translator := {|
  Translate _ c := (c, error_status (errorMessage name));
  TranslateResult callID _ _ := Ok (text_result callID (errorMessage name)) |}.

Lemma unavailable_translates name : translates (unavailableTranslator name).
Proof.
  intros call c c' s. intros [= <- <-]. exists []. split; [apply submits_none|]. by split.
Qed.

#[export] Instance unavailable_reports name : Reports (unavailableTranslator name) := λ _, True.
#[export] Instance unavailable_lawful name : LawfulTranslator (unavailableTranslator name).
Proof.
  constructor; [apply unavailable_translates| |].
  - intros call c. by rewrite (submitted_none _ _ _ (error_status (errorMessage name))).
  - intros. by eexists.
Qed.

Module definition.
Record Definition_ : Type := Mk { Tool : LTool; Metadata : value }.
End definition.
Abbreviation ToolDefinition := definition.Definition_.

Definition object (l : list (string * json)) : json := JObj l.

Definition maxOutputLengthSchema : json := object
  [("type", JStr "integer");
   ("description", JStr ("Maximum characters per output text field. Truncated text keeps its head and tail, around a marker stating how much was omitted, and path to the file with the complete stream. Defaults to "
      +:+ Itoa DefaultMaxOutputLength +:+ "."));
   ("minimum", JInt 1);
   ("maximum", JInt MaxOutputLength);
   ("default", JInt DefaultMaxOutputLength)].

Definition string_property (description : string) : json := object
  [("type", JStr "string"); ("description", JStr description)].

Definition staticDefinitions : list ToolDefinition :=
  [definition.Mk (ltool.Mk ToolFunction BashName
     "Execute a shell command in background. Independent commands may be issued as parallel tool calls in one turn. Command child processes are killed when the shell exits."
     (object [("type", JStr "object");
       ("properties", object [("command", string_property "The shell command to execute.");
                              ("max_output_length", maxOutputLengthSchema)]);
       ("required", JArr [JStr "command"])])) VNil;
   definition.Mk (ltool.Mk ToolFunction ViewImageName
     "View a local JPEG, PNG, BMP, TIFF, or WebP image."
     (object [("type", JStr "object");
       ("properties", object [("path",
          string_property "Image file path, absolute or relative to the workspace.")]);
       ("required", JArr [JStr "path"])])) VNil;
   definition.Mk (ltool.Mk ToolFunction SkillUseName
     "Load the instructions for a registered skill."
     (object [("type", JStr "object");
       ("properties", object [("name", string_property "The exact name of the skill to load.")]);
       ("required", JArr [JStr "name"])])) VNil].

Definition StaticNames : list string := (λ d, ltool.Name (definition.Tool d)) <$> staticDefinitions.
