(* ===== verification/Registry.v ===== *)
(** * The tool registry: tool/registry.go and tool/skill_use.go

    The registry of static tools and of skills, the discovery of skill files
    with the parser of their frontmatter, and the translator of the SkillUse
    tool.  The registry keeps the skills in three structures; [registered]
    says that together they are one ordered list of skills. *)

From Stdlib Require Import Ascii ZArith Lia.
From S2P Require Import Prelude GoStrings GoText Utf8Facts Json JsonCodec Primitives.
From S2P Require Import Operation Handler SkillUse Llm Tool.

Local Open Scope Z_scope.

(** ** Skills *)

Definition RegistrationID : Set := string.
Definition uuid_Nil : RegistrationID := "00000000-0000-0000-0000-000000000000".

Module skill.
Record Skill : Set := Mk { Name : string; Description : string; Path : string }.
End skill.
Abbreviation Skill := skill.Skill.

#[export] Instance Skill_eq_dec : EqDecision Skill.
Proof. solve_decision. Defined.

Definition blank (s : string) : bool := bool_decide (TrimSpace s = EmptyString).

Definition validateSkill (s : Skill) : result unit :=
  if blank (skill.Path s) then Err (errors_New "skill path must be set")
  else if blank (skill.Name s) then Err (errors_New "skill name must be set")
  else if blank (skill.Description s) then Err (errors_New "skill description must be set")
  else Ok tt.

(** ** The registry *)

Module statics.
Record StaticTranslators : Type := Mk { Bash : option Translator; ViewImage : option Translator }.
End statics.
Abbreviation StaticTranslators := statics.StaticTranslators.

Record registry : Type := MkRegistry {
  enabled : gset string;
  static : StaticTranslators;
  skills : gmap RegistrationID Skill;
  skillIDsByPath : gmap string RegistrationID;
  skillOrder : list RegistrationID;
}.

Definition NewRegistry (configured : StaticTranslators) (enabled : list string) : registry :=
  MkRegistry (list_to_set enabled) configured ∅ ∅ [].

Definition StaticDefinitions (r : registry) : list ToolDefinition :=
  filter (λ d, ltool.Name (definition.Tool d) ∈ enabled r) staticDefinitions.

(** The registry with the skills changed. *)
Definition with_skills (r : registry) (s : gmap RegistrationID Skill)
    (paths : gmap string RegistrationID) (order : list RegistrationID) : registry :=
  MkRegistry (enabled r) (static r) s paths order.

(** [new_id] is the identifier that uuid.New gives. *)
Definition RegisterSkill (s : Skill) (new_id : RegistrationID) : M registry RegistrationID := λ r,
  match validateSkill s with
  | Err e => (r, Err e)
  | Panic t => (r, Panic t)
  | Ok _ =>
    if bool_decide (is_Some (skillIDsByPath r !! skill.Path s)) then
      (r, Err (errors_New ("skill path " +:+ quote (skill.Path s) +:+ " is already registered")))
    else if existsb (λ m, bool_decide (skill.Name (snd m) = skill.Name s)) (map_to_list (skills r)) then
      (r, Err (errors_New ("skill name " +:+ quote (skill.Name s) +:+ " is already registered")))
    else
      (with_skills r (<[new_id := s]> (skills r)) (<[skill.Path s := new_id]> (skillIDsByPath r))
         (skillOrder r ++ [new_id]), Ok new_id)
  end.

(** The first occurrence is removed. *)
Fixpoint removeRegistrationID (ids : list RegistrationID) (target : RegistrationID)
    : list RegistrationID :=
  match ids with
  | [] => []
  | id :: ids => if bool_decide (id = target) then ids else id :: removeRegistrationID ids target
  end.

Definition UnregisterSkill (id : RegistrationID) (r : registry) : registry :=
  if bool_decide (id = uuid_Nil) then r
  else match skills r !! id with
       | None => r
       | Some s =>
         with_skills r (delete id (skills r)) (delete (skill.Path s) (skillIDsByPath r))
           (removeRegistrationID (skillOrder r) id)
       end.

(** A missing key of a Go map reads as the zero value. *)
Definition zero_skill : Skill := skill.Mk EmptyString EmptyString EmptyString.
Definition skill_at (r : registry) (id : RegistrationID) : Skill := default zero_skill (skills r !! id).

Definition Skills (r : registry) : list Skill := skill_at r <$> skillOrder r.

Fixpoint resolve_in (r : registry) (name : string) (ids : list RegistrationID) : option Skill :=
  match ids with
  | [] => None
  | id :: ids =>
    let s := skill_at r id in
    if bool_decide (skill.Name s = name) then Some s else resolve_in r name ids
  end.

Definition resolveSkill (r : registry) (name : string) : option Skill :=
  resolve_in r name (skillOrder r).

(** ** The SkillUse tool *)

Program Definition skillUseArguments_codec : codec string := {|
  zero := EmptyString;
  enc n := enc_struct [field string_codec "name" n];
  dec := dec_struct EmptyString (λ o, n ← get string_codec "name" o; Some n);
  jok _ := True |}.
Next Obligation. intros n j _. struct_dec. Qed.
Next Obligation. intros n j. struct_enc_ok. Qed.

(** [json.Unmarshal([]byte(text), &value)] *)
Definition Unmarshal_text {A} (c : codec A) (text : string) : result A :=
  Unmarshal c (value_of_text (to_bytes text)).

Definition skill_use_Translate (r : registry) (c : ToolCall) (ctx : toolCallContext)
    : toolCallContext * CallStatus :=
  if negb (bool_decide (call.Name c = EmptyString)) && negb (bool_decide (call.Name c = SkillUseName)) then
    (ctx, error_status ("skill-use call name " +:+ quote (call.Name c)
            +:+ " does not match static tool " +:+ quote SkillUseName))
  else
    let encodedArguments := if blank (call.Arguments c) then "{}" else call.Arguments c in
    match Unmarshal_text skillUseArguments_codec encodedArguments with
    | Ok name =>
      if blank name then
        (ctx, error_status ("skill-use argument " +:+ quote "name" +:+ " must be set"))
      else match resolveSkill r name with
           | None => (ctx, error_status ("skill " +:+ quote name +:+ " is not registered"))
           | Some s =>
             match NewSkillUseSpec (skill.Path s) with
             | Ok spec => let '(ctx, id) := Submit spec ctx in (ctx, waiting_status [id])
             | Err e => (ctx, error_status ("build skill-use operation: " +:+ Error e))
             | Panic t => (ctx, error_status t)
             end
           end
    | Err e => (ctx, error_status ("decode skill-use arguments: " +:+ Error e))
    | Panic t => (ctx, error_status t)
    end.

Definition skill_use_TranslateResult (callID : string) (s : CallStatus) (ops : list Operation)
    : result ToolResult :=
  let named := "skill-use call " +:+ quote callID in
  if negb (bool_decide (status.Error s = EmptyString)) then Ok (text_result callID (status.Error s))
  else match ops with
  | [current] =>
    state ← map_err (Errorf_w ("decode " +:+ named +:+ " result: ")) (DecodeSkillUse current);
    if bool_decide (op.Status' current = StatusCompleted) then
      Ok (text_result callID (to_string (ToValidUTF8 (Content state) RuneErrorBytes)))
    else if bool_decide (op.Status' current ∈ [StatusReady; StatusAwaiting; StatusCanceling]) then
      Ok (text_result callID "Skill is loading.")
    else if bool_decide (op.Status' current ∈ [StatusCanceled; StatusFailed]) then
      if bool_decide (TerminalError state = EmptyString) then
        Err (errors_New (named +:+ " terminal operation " +:+ quote (op.ID' current) +:+ " has no error"))
      else Ok (text_result callID (TerminalError state))
    else Err (errors_New (named +:+ " operation " +:+ quote (op.ID' current)
                +:+ " has unsupported status " +:+ quote (op.Status' current)))
  | _ => Err (errors_New (named +:+ " has " +:+ Itoa (len ops) +:+ " operations, want 1"))
  end.

Definition skillUseTranslator (r : registry) : Translator := {|
  Translate := skill_use_Translate r;
  TranslateResult := skill_use_TranslateResult |}.

(** The translators of the three static tools. *)
Definition staticTranslators (r : registry) (name : string) : option Translator :=
  if bool_decide (name = BashName) then
    Some (default (unavailableTranslator BashName) (statics.Bash (static r)))
  else if bool_decide (name = ViewImageName) then
    Some (default (unavailableTranslator ViewImageName) (statics.ViewImage (static r)))
  else if bool_decide (name = SkillUseName) then Some (skillUseTranslator r)
  else None.

Definition Resolve (r : registry) (name : string) : option Translator :=
  match staticTranslators r name with
  | Some t => if bool_decide (name ∈ enabled r) then Some t else None
  | None => None
  end.

(** ** Discovering skills *)

Record skillFrontmatter : Set := MkFront { FrontName : string; FrontDescription : string }.

Definition closing (line : bytes) : bool := bool_decide (TrimSpace (to_string line) = "---").

(** The lines after the opening delimiter; [too_long] when the scanner stopped
    at a line that its buffer cannot hold. *)
Fixpoint scan_frontmatter (lines : list bytes) (too_long : bool) (m : skillFrontmatter)
    : result skillFrontmatter :=
  match lines with
  | [] =>
    if too_long then Err (errors_New "read YAML frontmatter: bufio.Scanner: token too long")
    else Err (errors_New "missing closing YAML frontmatter delimiter")
  | line :: lines =>
    if closing line then Ok m
    else match Cut ":"%char line with
         | None => scan_frontmatter lines too_long m
         | Some (key, value) =>
           scan_frontmatter lines too_long
             (if bool_decide (key = to_bytes "name") then
                MkFront (TrimSpace (to_string value)) (FrontDescription m)
              else if bool_decide (key = to_bytes "description") then
                MkFront (FrontName m) (TrimSpace (to_string value))
              else m)
         end
  end.

Definition parseSkillFrontmatter (contents : bytes) : result skillFrontmatter :=
  let '(lines, too_long) := ScanLines contents in
  match lines with
  | opening :: lines =>
    if closing opening then scan_frontmatter lines too_long (MkFront EmptyString EmptyString)
    else Err (errors_New "missing opening YAML frontmatter delimiter")
  | [] => Err (errors_New "missing opening YAML frontmatter delimiter")
  end.

(** The loop over the paths of the skill files. *)
Fixpoint discover (ReadFile : string → result bytes) (paths : list string) (names : gset string)
    : list Skill * list error :=
  match paths with
  | [] => ([], [])
  | path :: paths =>
    let failed (e : error) :=
      let '(found, errs) := discover ReadFile paths names in (found, e :: errs) in
    match ReadFile path with
    | Ok contents =>
      match parseSkillFrontmatter contents with
      | Ok front =>
        let s := skill.Mk (TrimSpace (FrontName front)) (TrimSpace (FrontDescription front)) path in
        match validateSkill s with
        | Ok _ =>
          if bool_decide (skill.Name s ∈ names) then
            failed (errors_New ("skill " +:+ quote path +:+ ": duplicate name " +:+ quote (skill.Name s)))
          else
            let '(found, errs) := discover ReadFile paths ({[skill.Name s]} ∪ names) in
            (s :: found, errs)
        | Err e => failed (Errorf_w ("validate skill " +:+ quote path +:+ ": ") e)
        | Panic t => failed (errors_New t)
        end
      | Err e => failed (Errorf_w ("parse skill " +:+ quote path +:+ ": ") e)
      | Panic t => failed (errors_New t)
      end
    | Err e => failed (Errorf_w ("read skill " +:+ quote path +:+ ": ") e)
    | Panic t => failed (errors_New t)
    end
  end.

(** [glob] is what filepath.Glob returns for the skill files of the directory. *)
Definition DiscoverSkills (glob : result (list string)) (ReadFile : string → result bytes)
    : list Skill * list error :=
  match glob with
  | Ok paths => discover ReadFile paths ∅
  | Err e => ([], [Errorf_w "find skills: " e])
  | Panic t => ([], [errors_New t])
  end.
