(* ===== verification/RegistryFacts.v ===== *)
(** * The registry is an ordered list of skills with distinct names and paths

    The abstract registry is a list of identified skills; [registered] relates
    it to the three structures of the registry, and every operation keeps the
    relation.  The parser of the frontmatter reads back what it should. *)

From Stdlib Require Import Ascii ZArith Lia.
From S2P Require Import Prelude GoStrings GoText Utf8Facts Json JsonCodec Primitives.
From S2P Require Import Operation Handler SkillUse Llm Tool Registry.

Local Open Scope Z_scope.

Lemma filter_id {A} (P : A → Prop) `{!∀ x, Decision (P x)} (l : list A) : Forall P l → filter P l = l.
Proof. induction 1; [done|]. rewrite filter_cons, decide_True by done. by f_equal. Qed.

Lemma filter_fmap {A B} (f : A → B) (P : B → Prop) (Q : A → Prop)
    `{!∀ x, Decision (P x)} `{!∀ x, Decision (Q x)} (l : list A) :
  (∀ x, x ∈ l → P (f x) ↔ Q x) → filter P (f <$> l) = f <$> filter Q l.
Proof.
  induction l as [|x l IH]; intros Hf; [done|]. rewrite fmap_cons, !filter_cons.
  rewrite IH by set_solver. rewrite (decide_ext (P (f x)) (Q x)) by (apply Hf; set_solver).
  by destruct (decide (Q x)).
Qed.

(** ** The abstract registry *)

Abbreviation entry := (RegistrationID * Skill)%type.

Inductive command : Type :=
  | Register (s : Skill) (new_id : RegistrationID)
  | Unregister (id : RegistrationID).

(** A skill that can be added: complete, and its name and path are new. *)
Definition admits (l : list entry) (s : Skill) : bool :=
  is_ok (validateSkill s)
  && forallb (λ e : entry, negb (bool_decide (skill.Path (snd e) = skill.Path s))
                  && negb (bool_decide (skill.Name (snd e) = skill.Name s))) l.

Definition spec_step (l : list entry) (c : command) : list entry :=
  match c with
  | Register s id => if admits l s then l ++ [(id, s)] else l
  | Unregister id => filter (λ e, fst e ≠ id) l
  end.

Definition run_command (r : registry) (c : command) : registry :=
  match c with
  | Register s id => fst (RegisterSkill s id r)
  | Unregister id => UnregisterSkill id r
  end.

Definition find_skill (l : list entry) (name : string) : option Skill :=
  snd <$> head (filter (λ e, skill.Name (snd e) = name) l).

(** The identifiers that uuid.New gave. *)
Definition new_ids (cs : list command) : list RegistrationID :=
  omap (λ c, match c with Register _ id => Some id | Unregister _ => None end) cs.

Definition path_entry (e : entry) : string * RegistrationID := (skill.Path (snd e), fst e).

Record registered (r : registry) (l : list entry) : Prop := {
  reg_order : skillOrder r = fst <$> l;
  reg_skills : skills r = list_to_map l;
  reg_paths : skillIDsByPath r = list_to_map (path_entry <$> l);
  reg_ids : NoDup (fst <$> l);
  reg_names : NoDup ((λ e, skill.Name (snd e)) <$> l);
  reg_distinct : NoDup ((λ e, skill.Path (snd e)) <$> l);
}.

(** ** The representation *)

Lemma registered_at r l id s : registered r l → (id, s) ∈ l → skill_at r id = s.
Proof.
  intros H Hin. unfold skill_at. rewrite (reg_skills _ _ H).
  erewrite elem_of_list_to_map_1; [done|apply H|done].
Qed.

Lemma registered_skills r l : registered r l → Skills r = snd <$> l.
Proof.
  intros H. unfold Skills. rewrite (reg_order _ _ H), <- list_fmap_compose.
  apply list_fmap_ext. intros i [id s] Hi. simpl.
  apply (registered_at r l); [done|by eapply list_elem_of_lookup_2].
Qed.

Lemma registered_resolve r l name : registered r l → resolveSkill r name = find_skill l name.
Proof.
  intros H. unfold resolveSkill. rewrite (reg_order _ _ H).
  assert (Forall (λ e, skill_at r (fst e) = snd e) l) as Hat.
  { apply Forall_forall. intros [id s] Hin. by apply (registered_at r l). }
  clear H. unfold find_skill. induction Hat as [|e l He _ IH]; [done|].
  cbn [fmap list_fmap resolve_in]. rewrite He, filter_cons.
  case_bool_decide as Hn; case_decide; try done.
Qed.

Lemma path_taken r l s :
  registered r l →
  bool_decide (is_Some (skillIDsByPath r !! skill.Path s)) = true ↔
  ∃ e, e ∈ l ∧ skill.Path (snd e) = skill.Path s.
Proof.
  intros H. rewrite bool_decide_eq_true, (reg_paths _ _ H).
  rewrite <- elem_of_dom, dom_list_to_map_L, elem_of_list_to_set, <- list_fmap_compose,
    list_elem_of_fmap. naive_solver.
Qed.

Lemma name_taken r l s :
  registered r l →
  existsb (λ m, bool_decide (skill.Name (snd m) = skill.Name s)) (map_to_list (skills r)) = true ↔
  ∃ e, e ∈ l ∧ skill.Name (snd e) = skill.Name s.
Proof.
  intros H. rewrite existsb_exists. setoid_rewrite <- list_elem_of_In.
  setoid_rewrite bool_decide_eq_true. rewrite (reg_skills _ _ H).
  split; intros (e & He & Hn); exists e; (split; [|done]).
  - rewrite map_to_list_to_map in He by apply H. done.
  - rewrite map_to_list_to_map by apply H. done.
Qed.

Lemma admits_true l s :
  admits l s = true ↔
  is_ok (validateSkill s) = true ∧
  Forall (λ e : entry, skill.Path (snd e) ≠ skill.Path s ∧ skill.Name (snd e) ≠ skill.Name s) l.
Proof.
  unfold admits. rewrite andb_true_iff, forallb_Forall. apply and_iff_compat_l, Forall_iff.
  intros e. by rewrite andb_true_iff, !negb_true_iff, !bool_decide_eq_false.
Qed.

Lemma registered_add r l id s :
  registered r l → admits l s = true → id ∉ fst <$> l →
  registered (with_skills r (<[id := s]> (skills r)) (<[skill.Path s := id]> (skillIDsByPath r))
                (skillOrder r ++ [id])) (l ++ [(id, s)]).
Proof.
  intros H [_ Hfree]%admits_true Hid. rewrite Forall_forall in Hfree.
  constructor; simpl.
  - by rewrite (reg_order _ _ H), fmap_app.
  - rewrite (reg_skills _ _ H), list_to_map_snoc by done. done.
  - rewrite (reg_paths _ _ H), fmap_app.
    change (path_entry <$> [(id, s)]) with [(skill.Path s, id)]. rewrite list_to_map_snoc; [done|].
    rewrite <- list_fmap_compose. intros (e & He & Hin)%list_elem_of_fmap.
    by destruct (Hfree e Hin) as [[] _].
  - rewrite fmap_app. apply NoDup_app. split_and!; [apply H| |apply NoDup_singleton].
    intros x Hx ->%list_elem_of_singleton. done.
  - rewrite fmap_app. apply NoDup_app. split_and!; [apply H| |apply NoDup_singleton].
    intros x (e & -> & He)%list_elem_of_fmap Hx%list_elem_of_singleton.
    by destruct (Hfree e He) as [_ []].
  - rewrite fmap_app. apply NoDup_app. split_and!; [apply H| |apply NoDup_singleton].
    intros x (e & -> & He)%list_elem_of_fmap Hx%list_elem_of_singleton.
    by destruct (Hfree e He) as [[] _].
Qed.

(** A rejected registration leaves the registry as it was. *)
Lemma register_step r l s id :
  registered r l → id ∉ fst <$> l →
  registered (fst (RegisterSkill s id r)) (spec_step l (Register s id)) ∧
  is_ok (snd (RegisterSkill s id r)) = admits l s.
Proof.
  intros H Hid. unfold RegisterSkill. simpl spec_step.
  pose proof (path_taken r l s H) as Hp. pose proof (name_taken r l s H) as Hn.
  destruct (validateSkill s) as [u|e|t] eqn:Hv.
  2,3: assert (admits l s = false) as -> by (unfold admits; by rewrite Hv); by simpl.
  destruct (bool_decide (is_Some _)) eqn:Ep.
  { destruct ((proj1 Hp) eq_refl) as (e & He & Heq).
    assert (admits l s = false) as ->; [|done]. apply not_true_iff_false.
    intros [_ Hf]%admits_true. rewrite Forall_forall in Hf. by destruct (Hf e He) as [[] _]. }
  destruct (existsb _ _) eqn:En.
  { destruct ((proj1 Hn) eq_refl) as (e & He & Heq).
    assert (admits l s = false) as ->; [|done]. apply not_true_iff_false.
    intros [_ Hf]%admits_true. rewrite Forall_forall in Hf. by destruct (Hf e He) as [_ []]. }
  assert (admits l s = true) as Ha.
  { apply admits_true. rewrite Hv. split; [done|]. apply Forall_forall. intros e He. split; intros Heq.
    - by assert (false = true) by (apply Hp; eauto).
    - by assert (false = true) by (apply Hn; eauto). }
  rewrite Ha. simpl. split; [|done]. by apply registered_add.
Qed.

Lemma removeRegistrationID_filter ids target :
  NoDup ids → removeRegistrationID ids target = filter (λ id, id ≠ target) ids.
Proof.
  induction 1 as [|id ids Hid _ IH]; [done|]. simpl. rewrite filter_cons.
  case_bool_decide as He; case_decide; try done.
  - subst. symmetry. apply filter_id, Forall_forall. by intros x Hx ->.
  - by rewrite IH.
Qed.

Lemma NoDup_filter_fmap {A} (f : entry → A) P `{!∀ e : entry, Decision (P e)} l :
  NoDup (f <$> l) → NoDup (f <$> filter P l).
Proof.
  induction l as [|e l IH]; [done|]. rewrite fmap_cons, NoDup_cons, filter_cons. intros [He Hl].
  case_decide; [|auto]. rewrite fmap_cons. apply NoDup_cons. split; [|auto].
  intros (x & Hx & [_ Hin]%list_elem_of_filter)%list_elem_of_fmap. apply He.
  rewrite Hx. by apply list_elem_of_fmap_2.
Qed.

Lemma delete_list_to_map {B} (l : list (string * B)) k :
  delete k (list_to_map l : gmap string B) = list_to_map (filter (λ e, fst e ≠ k) l).
Proof.
  induction l as [|[i x] l IH]; simpl; [by rewrite delete_empty|]. rewrite filter_cons. simpl.
  case_decide as Hk; simpl.
  - by rewrite delete_insert_ne, IH.
  - subst. by rewrite delete_insert_eq, IH.
Qed.

(** Distinct entries have distinct paths, so removing the path removes the entry. *)
Lemma filter_path_entry (l : list entry) id s :
  NoDup (fst <$> l) → NoDup ((λ e, skill.Path (snd e)) <$> l) → (id, s) ∈ l →
  filter (λ p, fst p ≠ skill.Path s) (path_entry <$> l) = path_entry <$> filter (λ e, fst e ≠ id) l.
Proof.
  intros Hi Hp Hin. apply filter_fmap. intros e He. simpl. split; intros Hne Heq; apply Hne.
  - apply list_elem_of_lookup in He as [n Hn], Hin as [m Hm].
    assert (n = m) as ->; [|rewrite Hn in Hm; by injection Hm as ->].
    eapply (NoDup_lookup _ _ _ _ Hi); [rewrite list_lookup_fmap, Hn; simpl; by rewrite Heq|].
    by rewrite list_lookup_fmap, Hm.
  - apply list_elem_of_lookup in He as [n Hn], Hin as [m Hm].
    assert (n = m) as ->; [|rewrite Hn in Hm; by injection Hm as ->].
    eapply (NoDup_lookup _ _ _ _ Hp); [rewrite list_lookup_fmap, Hn; simpl; by rewrite Heq|].
    by rewrite list_lookup_fmap, Hm.
Qed.

Lemma unregister_step r l id :
  registered r l → uuid_Nil ∉ fst <$> l →
  registered (UnregisterSkill id r) (spec_step l (Unregister id)).
Proof.
  intros H Hnil. unfold UnregisterSkill. simpl.
  assert (id ∉ fst <$> l → filter (λ e, fst e ≠ id) l = l) as Habsent.
  { intros Hid. apply filter_id, Forall_forall. intros e He <-. apply Hid. by apply list_elem_of_fmap_2. }
  case_bool_decide as He; [subst; by rewrite Habsent|].
  destruct (skills r !! id) as [s|] eqn:Hs; rewrite (reg_skills _ _ H) in Hs.
  2: by rewrite Habsent; [|by apply not_elem_of_list_to_map].
  apply elem_of_list_to_map in Hs; [|apply H].
  constructor; simpl.
  - rewrite (reg_order _ _ H), removeRegistrationID_filter by apply H. by apply filter_fmap.
  - by rewrite (reg_skills _ _ H), delete_list_to_map.
  - rewrite (reg_paths _ _ H), delete_list_to_map. f_equal. apply filter_path_entry; [apply H..|done].
  - apply NoDup_filter_fmap, H.
  - apply NoDup_filter_fmap, H.
  - apply NoDup_filter_fmap, H.
Qed.

Lemma spec_step_ids l c x :
  x ∈ fst <$> spec_step l c → x ∈ (fst <$> l) ++ new_ids [c].
Proof.
  destruct c as [s id|id]; simpl.
  - destruct (admits l s); [|set_solver]. rewrite fmap_app. set_solver.
  - rewrite app_nil_r. intros (e & -> & [_ He]%list_elem_of_filter)%list_elem_of_fmap.
    by apply list_elem_of_fmap_2.
Qed.

Lemma run_registered cs : ∀ r l,
  registered r l → uuid_Nil ∉ (fst <$> l) ++ new_ids cs → NoDup (new_ids cs) →
  (∀ id, id ∈ fst <$> l → id ∉ new_ids cs) →
  registered (fold_left run_command cs r) (fold_left spec_step cs l).
Proof.
  induction cs as [|c cs IH]; intros r l H Hnil Hnd Hfresh; [done|]. simpl.
  assert (new_ids (c :: cs) = new_ids [c] ++ new_ids cs) as Hids by (by destruct c).
  rewrite Hids in Hnil, Hnd, Hfresh. apply NoDup_app in Hnd as (Hc & Hdisj & Hcs).
  apply IH; [| |done|].
  - destruct c as [s id|id]; simpl run_command.
    + apply register_step; [done|]. intros Hin. apply (Hfresh id Hin). simpl. set_solver.
    + apply unregister_step; [done|set_solver].
  - intros Hin. apply Hnil. apply elem_of_app in Hin as [Hin|Hin]; [|set_solver].
    apply spec_step_ids in Hin. set_solver.
  - intros id Hin Hid. apply spec_step_ids in Hin. apply elem_of_app in Hin as [Hin|Hin].
    + apply (Hfresh id Hin). set_solver.
    + by apply (Hdisj id Hin).
Qed.

Lemma registered_new static enabled : registered (NewRegistry static enabled) [].
Proof. constructor; try done; apply NoDup_nil_2. Qed.

(** The registry is an ordered list of skills: whatever sequence of
    registrations and removals it sees, it lists the skills that the abstract
    list holds, in their order of registration, resolves a name to the one
    skill that has it, and accepts exactly the complete skills whose name and
    path are not taken, provided that uuid.New gives distinct identifiers. *)
Theorem registry_is_ordered_list cs static enabled :
  NoDup (new_ids cs) → uuid_Nil ∉ new_ids cs →
  let r := fold_left run_command cs (NewRegistry static enabled) in
  let l := fold_left spec_step cs [] in
  Skills r = snd <$> l ∧
  NoDup ((λ e, skill.Name (snd e)) <$> l) ∧ NoDup ((λ e, skill.Path (snd e)) <$> l) ∧
  (∀ name, resolveSkill r name = find_skill l name) ∧
  (∀ s id, id ∉ fst <$> l → is_ok (snd (RegisterSkill s id r)) = admits l s).
Proof.
  intros Hnd Hnil r l.
  assert (registered r l) as H.
  { apply run_registered; [apply registered_new|done|done|set_solver]. }
  split_and!; [by apply registered_skills|apply H|apply H|by intros; apply registered_resolve|].
  intros s id Hid. by apply (register_step r l s id H Hid).
Qed.

Lemma registry_is_ordered_list_witness :
  let a := skill.Mk "a" "first" "/skills/a/SKILL.md" in
  let b := skill.Mk "b" "second" "/skills/b/SKILL.md" in
  let cs := [Register a "1"; Register b "2"; Register a "3"; Unregister "1"; Register a "4"] in
  Skills (fold_left run_command cs (NewRegistry (statics.Mk None None) [])) = [b; a].
Proof.
  intros a b cs.
  rewrite (proj1 (registry_is_ordered_list cs (statics.Mk None None) []
    ltac:(apply (bool_decide_unpack _); vm_compute; exact I)
    ltac:(apply (bool_decide_unpack _); vm_compute; exact I))).
  vm_compute. reflexivity.
Defined.
