(* ===== verification/SkillTool.v ===== *)
(** * The SkillUse tool keeps the contract of a translator

    Every checkpoint of a skill-use operation, from its submission on, has a
    tool result: the content of the skill when it completed, the error when it
    did not.  tool/skill_use.go with operation/skill_use.go. *)

From Stdlib Require Import Ascii ZArith Lia.
From S2P Require Import Prelude GoStrings GoText Utf8Facts Json JsonCodec Primitives.
From S2P Require Import Operation Handler SkillUse Llm Tool Registry RegistryFacts.

Local Open Scope Z_scope.

#[local] Arguments Unmarshal : simpl never.
#[local] Arguments Marshal : simpl never.

Definition live_status (st : Status) : bool :=
  bool_decide (st ∈ [StatusReady; StatusAwaiting; StatusCanceling]).

(** A checkpoint of a skill-use operation: a stopped one says why. *)
Definition skill_reported (o : Operation) : Prop :=
  ∃ state, DecodeSkillUse o = Ok state ∧
    (live_status (op.Status' o) = true ∨ op.Status' o = StatusCompleted ∨
     op.Status' o ∈ [StatusCanceled; StatusFailed] ∧ TerminalError state ≠ EmptyString).

Lemma skill_result callID s o :
  status.Error s = EmptyString → skill_reported o →
  ∃ out, skill_use_TranslateResult callID s [o] = Ok (tr.Mk callID out).
Proof.
  intros He (state & Hs & Hst). unfold skill_use_TranslateResult. rewrite He.
  rewrite bool_decide_true by done. cbn [negb]. rewrite Hs. cbn.
  destruct Hst as [Hl | [-> | [Hf Ht]]].
  - apply bool_decide_eq_true in Hl.
    rewrite (bool_decide_false (op.Status' o = StatusCompleted)).
    2: intros E; rewrite E in Hl; by apply (bool_decide_unpack _) in Hl || set_solver.
    rewrite bool_decide_true by done. by eexists.
  - rewrite bool_decide_true by done. by eexists.
  - assert (op.Status' o = StatusCompleted → False) as Hc by (intros E; rewrite E in Hf; set_solver).
    rewrite (bool_decide_false (op.Status' o = StatusCompleted)) by done.
    rewrite (bool_decide_false (_ ∈ [StatusReady; _; _])).
    2: { intros Hl. repeat (apply elem_of_cons in Hl as [Hl|Hl]; [rewrite Hl in Hf; set_solver|]).
         by apply elem_of_nil in Hl. }
    rewrite bool_decide_true by done. rewrite bool_decide_false by done. by eexists.
Qed.

(** The translator submits nothing or one skill-use operation. *)
Lemma skill_use_calls r c ctx :
  (∃ text, text ≠ EmptyString ∧ skill_use_Translate r c ctx = (ctx, error_status text)) ∨
  (∃ path spec, NewSkillUseSpec path = Ok spec ∧
     skill_use_Translate r c ctx = (fst (Submit spec ctx), waiting_status [uuid ctx (next ctx)])).
Proof.
  unfold skill_use_Translate. if_goal; [left; eexists; (split; [|reflexivity]); done|].
  set (args := if blank (call.Arguments c) then "{}" else call.Arguments c).
  pose proof (Unmarshal_returns skillUseArguments_codec (value_of_text (to_bytes args))) as Hr.
  unfold Unmarshal_text. destruct (Unmarshal _ _) as [name|e|t]; [|left; eexists; (split; [|reflexivity]); done|done].
  destruct (blank name); [left; eexists; (split; [|reflexivity]); done|].
  destruct (resolveSkill r name) as [s|]; [|left; eexists; (split; [|reflexivity]); done].
  assert (returns (NewSkillUseSpec (skill.Path s)) = true) as Hn
    by (unfold NewSkillUseSpec, validateSkillUseState; go_returns).
  destruct (NewSkillUseSpec (skill.Path s)) as [spec|e|t] eqn:Hs; [|left; eexists; (split; [|reflexivity]); done|done].
  right. exists (skill.Path s), spec. split; [done|]. done.
Qed.

(** A submitted operation decodes to the state of its specification. *)
Lemma skill_spec_decodes path spec id :
  NewSkillUseSpec path = Ok spec → skill_reported (new_operation id spec).
Proof.
  intros (u & Hv & (v & Hm%map_err_ok & [= <-])%bind_ok)%bind_ok. exists (MkSkillUse path [] EmptyString).
  split; [|by left].
  unfold DecodeSkillUse, skillUseOperationState. simpl.
  rewrite (Unmarshal_Marshal SkillUseState_codec _ v I Hm). simpl. by rewrite Hv.
Qed.

#[export] Instance skill_reports r : Reports (skillUseTranslator r) := λ o, skill_reported o.
#[export] Instance skill_lawful r : LawfulTranslator (skillUseTranslator r).
Proof.
  constructor.
  - intros c ctx ctx' s. simpl. destruct (skill_use_calls r c ctx) as [(t & Ht & ->)|(p & spec & _ & ->)];
      intros [= <- <-].
    + exists []. split; [apply submits_none|]. by split.
    + exists [spec]. split; [apply submits_one|]. split; [|done]. intros _. split; [done|].
      simpl. by rewrite Nat.add_0_r.
  - intros c ctx. destruct (skill_use_calls r c ctx) as [(t & Ht & E)|(p & spec & Hs & E)].
    + by rewrite (submitted_none (skillUseTranslator r) _ _ _ E).
    + rewrite (submitted_one (skillUseTranslator r) _ _ _ _ E). apply Forall_singleton. by eapply skill_spec_decodes.
  - intros c ctx ctx' s callID ops. cbn [Translate TranslateResult skillUseTranslator].
    destruct (skill_use_calls r c ctx) as [(t & Ht & ->)|(p & spec & _ & ->)];
      intros [= <- <-] Hw Hops.
    + unfold skill_use_TranslateResult. simpl. rewrite bool_decide_false by done. by eexists.
    + destruct ops as [|o [|]]; simplify_eq/=. apply Forall_cons in Hops as [Hops _].
      apply (skill_result callID _ o); [done|exact Hops].
Qed.

(** ** The checkpoints of the actor *)

(** A failure of a primitive has a text. *)
Definition failure_texts (e : option Event) : Prop :=
  ∀ ev text, e = Some ev → event.Result ev = PrimitiveFailureResult text → text ≠ EmptyString.

Lemma skill_step_reported current state st o' :
  skillUseStep current state = Ok st → step.Operation st = Some o' →
  op.Type' current = TypeSkillUse → op.Version' current = VersionSkillUse →
  Path state ≠ EmptyString →
  live_status (op.Status' current) = true ∨ op.Status' current = StatusCompleted ∨
    op.Status' current ∈ [StatusCanceled; StatusFailed] ∧ TerminalError state ≠ EmptyString →
  skill_reported o'.
Proof.
  intros (v & Hm%map_err_ok & [= <-])%bind_ok [= <-] Ht Hv Hp Hst. exists state. split; [|done].
  unfold DecodeSkillUse, skillUseOperationState, validateSkillUseState. cbn.
  rewrite Ht, Hv. rewrite bool_decide_true by done. cbn [negb].
  rewrite (Unmarshal_Marshal SkillUseState_codec state v I Hm). cbn.
  by rewrite bool_decide_false.
Qed.

Lemma await_reported current state st o' :
  awaitSkillUse current state = Ok st → step.Operation st = Some o' →
  op.Type' current = TypeSkillUse → op.Version' current = VersionSkillUse →
  Path state ≠ EmptyString → skill_reported o'.
Proof. intros H Ho Ht Hv Hp. eapply skill_step_reported; [exact H|done..|by left]. Qed.

Lemma dispatch_reported current state st o' :
  dispatchSkillUseRead current state = Ok st → step.Operation st = Some o' →
  op.Type' current = TypeSkillUse → op.Version' current = VersionSkillUse →
  Path state ≠ EmptyString → skill_reported o'.
Proof. intros (s & H & [= <-])%bind_ok Ho. by eapply await_reported. Qed.

Lemma fail_reported current state e st o' :
  failSkillUse current state e = Ok st → step.Operation st = Some o' →
  op.Type' current = TypeSkillUse → op.Version' current = VersionSkillUse →
  Path state ≠ EmptyString → Error e ≠ EmptyString → skill_reported o'.
Proof.
  intros H Ho Ht Hv Hp He. eapply skill_step_reported; [exact H|done..|].
  right. right. split; [|done]. apply elem_of_cons. right. by apply list_elem_of_singleton.
Qed.

Lemma cancel_reported current state st o' :
  cancelSkillUse current state = Ok st → step.Operation st = Some o' →
  op.Type' current = TypeSkillUse → op.Version' current = VersionSkillUse →
  Path state ≠ EmptyString → skill_reported o'.
Proof.
  intros H Ho Ht Hv Hp. eapply skill_step_reported; [exact H|done..|].
  right. right. split; [|done]. apply elem_of_cons. by left.
Qed.

Ltac reported_by H :=
  lazymatch type of H with
  | failSkillUse _ _ _ = _ => eapply fail_reported; [exact H|assumption..|]
  | cancelSkillUse _ _ = _ => eapply cancel_reported; [exact H|assumption..]
  | awaitSkillUse _ _ = _ => eapply await_reported; [exact H|assumption..]
  | skillUseStep _ _ = _ => eapply skill_step_reported; [exact H|assumption..|]
  end.

Lemma awaiting_reported current state ev st o' :
  advanceAwaitingSkillUse current state ev = Ok st → step.Operation st = Some o' →
  op.Type' current = TypeSkillUse → op.Version' current = VersionSkillUse →
  Path state ≠ EmptyString → failure_texts (Some ev) → skill_reported o'.
Proof.
  unfold advanceAwaitingSkillUse. intros H Ho Ht Hv Hp Hf.
  if_in H; [|by reported_by H]. if_in H; [by reported_by H|].
  if_in H; [destruct (event.Result ev) eqn:Er; reported_by H; solve [done|by eapply Hf]|].
  if_in H; [|by reported_by H]. if_in H.
  { destruct (event.Result ev) eqn:Er; try (by reported_by H). if_in H; by reported_by H. }
  if_in H; [|by reported_by H].
  destruct (event.Result ev) eqn:Er; try (by reported_by H). if_in H; [|by reported_by H].
  reported_by H. by right; left.
Qed.

(** The state of an operation that decodes. *)
Lemma skillUseOperationState_ok o state :
  skillUseOperationState o = Ok state →
  op.Type' o = TypeSkillUse ∧ op.Version' o = VersionSkillUse ∧ Path state ≠ EmptyString.
Proof.
  unfold skillUseOperationState. cbv zeta. intros H.
  if_in H; [|done]. if_in H; [|done]. apply bind_ok in H as (s & _ & H). apply bind_ok in H as (u & Hv%map_err_ok & [= ->]).
  unfold validateSkillUseState in Hv. rewrite guard_err_ok in Hv.
  by apply bool_decide_eq_false in Hv.
Qed.

(** Whatever happens to a skill-use operation, the model can be told:
    every checkpoint that its actor makes from a checkpoint, on the start and
    on every event, is one whose result the SkillUse tool translates, also
    when the operation failed or was canceled. *)
Theorem skill_use_always_reported o e st o' :
  AdvanceSkillUse o e = Ok st → failure_texts e → step.Operation st = Some o' →
  skill_reported o' ∧
  ∀ callID s, status.Error s = EmptyString →
    ∃ out, skill_use_TranslateResult callID s [o'] = Ok (tr.Mk callID out).
Proof.
  intros H Hf Ho. assert (skill_reported o') as Hr.
  { unfold AdvanceSkillUse in H. apply bind_ok in H as (state & Hs & H).
    apply skillUseOperationState_ok in Hs as (Ht & Hv & Hp). cbv zeta in H.
    if_in H; [|if_in H; [|if_in H; [|done]]]; apply bind_ok in H as (? & _ & H).
    - apply bind_ok in H as (? & _ & H). by eapply dispatch_reported.
    - destruct e; [by eapply awaiting_reported|by eapply dispatch_reported].
    - by eapply cancel_reported. }
  split; [done|]. intros. by apply skill_result.
Qed.

Lemma skill_use_always_reported_witness :
  let e := event.Mk PrimitiveEventFailed "op" EmptyString (PrimitiveFailureResult "no such file") in
  let started := default skill_operation (r ← option_of (AdvanceSkillUse skill_operation None); step.Operation r) in
  ∃ st o', AdvanceSkillUse started (Some e) = Ok st ∧ step.Operation st = Some o' ∧
    op.Status' o' = StatusFailed ∧ skill_reported o'.
Proof.
  intros e started. eexists _, _. split; [vm_compute; reflexivity|]. split; [reflexivity|].
  split; [reflexivity|].
  eapply (skill_use_always_reported started (Some e)); [vm_compute; reflexivity| |reflexivity].
  intros ev text [= <-] [= <-]. discriminate.
Defined.
