(* ===== verification/BashTool.v ===== *)
(** * The Bash tool: tool/bash/bash.go

    The translator that turns a call into a shell operation and the
    checkpoints of the operation into tool results, and the proof that it
    keeps the contract of a translator. *)

From Stdlib Require Import Ascii ZArith Lia.
From S2P Require Import Prelude GoStrings GoText Utf8Facts Json JsonCodec Primitives.
From S2P Require Import Operation Output Handler Shell ShellFacts Llm Tool Registry.

Local Open Scope Z_scope.

Module bash_config.
Record Config : Set := Mk { Shell : string; Directory : string; BaseDirectory : string }.
End bash_config.
Abbreviation BashConfig := bash_config.Config.

(** ** Arguments *)

(** A [map[string]jsontext.Value]. *)
Definition Unmarshal_members (text : string) : result (list (string * json)) :=
  match value_of_text (to_bytes text) with
  | VText j =>
    if json_ok j then match j with JObj o => Ok o | JNull => Ok [] | _ => Err json_error end
    else Err json_error
  | _ => Err json_error
  end.

(** The value of a key; the zero value when it is missing. *)
Definition member (o : list (string * json)) (key : string) : value :=
  match assoc key o with Some j => VText j | None => VNil end.

Definition NUL : ascii := "000"%char.

Definition argument (name suffix : string) : error :=
  errors_New ("bash argument " +:+ quote name +:+ suffix).

(** The command, its limit, and the error: the limit is set when the error
    is about the command. *)
Definition validateArguments (encoded : string) : string * Z * option error :=
  match map_err (Errorf_w "decode Bash arguments: ") (Unmarshal_members encoded) with
  | Err e => (EmptyString, 0, Some e)
  | Panic t => (EmptyString, 0, Some (errors_New t))
  | Ok arguments =>
    match map_err (Errorf_w "bash argument: ")
            (ParseMaxOutputLength (member arguments "max_output_length")) with
    | Err e => (EmptyString, 0, Some e)
    | Panic t => (EmptyString, 0, Some (errors_New t))
    | Ok limit =>
      if negb (bool_decide (is_Some (assoc "command" arguments))) then
        (EmptyString, limit, Some (argument "command" " must be set"))
      else match Unmarshal (ptr_codec string_codec) (member arguments "command") with
      | Err e => (EmptyString, limit,
          Some (Errorf_w ("decode Bash argument " +:+ quote "command" +:+ ": ") e))
      | Panic t => (EmptyString, limit, Some (errors_New t))
      | Ok None => (EmptyString, limit, Some (argument "command" " must be a string"))
      | Ok (Some command) =>
        match IndexByte NUL (to_bytes command) with
        | Some offset => (EmptyString, limit,
            Some (argument "command" (" contains a NUL byte at offset " +:+ Itoa (Z.of_nat offset))))
        | None => (command, limit, None)
        end
      end
    end
  end.

Definition buildOperation (config : BashConfig) (command : string) (limit : Z) : result Spec :=
  map_err (Errorf_w "build Bash operation: ")
    (NewShellSpec (shell_input.Mk command (bash_config.Shell config) (bash_config.Directory config))
       (bash_config.BaseDirectory config) limit).

(** NewShellSpec returns: its last case does not occur. *)
Definition bash_Translate (config : BashConfig) (c : ToolCall) (ctx : toolCallContext)
    : toolCallContext * CallStatus :=
  match validateArguments (call.Arguments c) with
  | (_, limit, Some e) => (ctx, ErrorStatus (Error e) limit)
  | (command, limit, None) =>
    match buildOperation config command limit with
    | Err e => (ctx, ErrorStatus (Error e) limit)
    | Panic t => (ctx, ErrorStatus t limit)
    | Ok spec => let '(ctx, id) := Submit spec ctx in (ctx, waiting_status [id])
    end
  end.

(** ** Results *)

(** [if cond { parts = append(parts, part) }] *)
Definition part_if (cond : bool) (part : string) : list string := if cond then [part] else [].

Definition nonempty (s : string) : bool := negb (bool_decide (s = EmptyString)).

Definition result_parts (s : ShellState) : list string :=
  match shell_state.Result s with
  | Some r =>
    part_if (nonempty (shell_result.Out r)) (shell_result.Out r)
    ++ part_if (nonempty (shell_result.Err r)) ("Stderr:" +:+ String "010" (shell_result.Err r))
    ++ part_if (negb (shell_result.ExitCode r =? 0)) ("Exit code: " +:+ Itoa (shell_result.ExitCode r))
  | None =>
    part_if (nonempty (shell_state.OutPath s)) ("Stdout capture: " +:+ shell_state.OutPath s)
    ++ part_if (nonempty (shell_state.ErrPath s)) ("Stderr capture: " +:+ shell_state.ErrPath s)
  end.

Definition output_text (s : ShellState) (terminalError : string) : string :=
  match (result_parts s ++ part_if (nonempty terminalError) ("Error: " +:+ terminalError))%list with
  | [] => "(no output)"
  | parts => Join parts (String "010" EmptyString)
  end.

Definition translateOperationResult (callID : string) (current : Operation) : result string :=
  let named := "bash tool call " +:+ quote callID in
  if negb (bool_decide (op.Type' current = TypeShell)) then
    Err (errors_New (named +:+ " operation " +:+ quote (op.ID' current) +:+ " has type "
           +:+ quote (op.Type' current) +:+ ", want " +:+ quote TypeShell))
  else
    s ← map_err (Errorf_w ("decode Bash operation " +:+ quote (op.ID' current) +:+ " state: "))
          (DecodeShellState current);
    let status := op.Status' current in
    if bool_decide (status ∈ [StatusReady; StatusAwaiting; StatusCanceling]) then
      Ok "Command is still running."
    else if bool_decide (status = StatusCompleted) then
      match shell_state.Result s with
      | None => Err (errors_New (named +:+ " completed operation " +:+ quote (op.ID' current)
                       +:+ " has no result"))
      | Some _ => Ok (output_text s (shell_state.TerminalError s))
      end
    else if bool_decide (status ∈ [StatusFailed; StatusCanceled]) then
      Ok (output_text s
            (if nonempty (shell_state.TerminalError s) then shell_state.TerminalError s
             else "shell operation " +:+ status))
    else Err (errors_New (named +:+ " operation " +:+ quote (op.ID' current)
                +:+ " has invalid status " +:+ quote status)).

Definition bash_TranslateResult (callID : string) (s : CallStatus) (ops : list Operation)
    : result ToolResult :=
  let named := "bash tool call " +:+ quote callID in
  if nonempty (status.Error s) then
    if negb (len ops =? 0) then
      Err (errors_New (named +:+ " has both a validation error and operations"))
    else Ok (text_result callID ("Error: " +:+ status.Error s))
  else match ops with
  | [current] =>
    output ← translateOperationResult callID current; Ok (text_result callID output)
  | _ => Err (errors_New (named +:+ " has " +:+ Itoa (len ops) +:+ " operations, want 1"))
  end.

Definition bash_New (config : BashConfig) : Translator := {|
  Translate := bash_Translate config;
  TranslateResult := bash_TranslateResult |}.

(** ** The contract of a translator *)

Definition running_status (st : Status) : bool :=
  bool_decide (st ∈ [StatusReady; StatusAwaiting; StatusCanceling]).
Definition stopped_status (st : Status) : bool := bool_decide (st ∈ [StatusFailed; StatusCanceled]).

(** A checkpoint of a shell operation: a completed one has a result. *)
Definition shell_reported (o : Operation) : Prop :=
  ∃ s, DecodeShellState o = Ok s ∧
    (running_status (op.Status' o) = true ∨ stopped_status (op.Status' o) = true ∨
     op.Status' o = StatusCompleted ∧ shell_state.Result s ≠ None).

Lemma shell_reported_result callID o :
  shell_reported o → ∃ text, translateOperationResult callID o = Ok text.
Proof.
  intros (s & Hs & Hst). unfold translateOperationResult. cbv zeta.
  assert (op.Type' o = TypeShell) as Ht.
  { unfold DecodeShellState in Hs. cbv zeta in Hs. by if_in Hs; [|]. }
  rewrite (bool_decide_true _ Ht). cbn [negb]. rewrite Hs. cbn [map_err].
  unfold mbind, result_bind. fold (running_status (op.Status' o)) (stopped_status (op.Status' o)).
  destruct (running_status (op.Status' o)) eqn:Hr; [by eexists|].
  case_bool_decide as Hc; [|destruct Hst as [?|[->|[? _]]]; [done|by eexists|done]].
  destruct Hst as [?|[Hf|[_ Hres]]]; [done| |destruct (shell_state.Result s); [by eexists|done]].
  by rewrite Hc in Hf.
Qed.

Lemma bash_result callID s o :
  status.Error s = EmptyString → shell_reported o →
  ∃ out, bash_TranslateResult callID s [o] = Ok (tr.Mk callID out).
Proof.
  intros He Ho. unfold bash_TranslateResult. rewrite He. cbn.
  destruct (shell_reported_result callID o Ho) as [text ->]. by eexists.
Qed.

(** *** The translator submits nothing or one shell operation *)

Lemma Unmarshal_members_returns text : returns (Unmarshal_members text) = true.
Proof. unfold Unmarshal_members. go_returns. Qed.

Lemma validateArguments_error encoded command limit e :
  validateArguments encoded = (command, limit, Some e) → Error e ≠ EmptyString.
Proof.
  unfold validateArguments.
  pose proof (Unmarshal_members_returns encoded) as Hm.
  destruct (Unmarshal_members encoded) as [args|err|t]; cbn [map_err]; [|by intros [= <- <- <-]|done].
  pose proof (ParseMaxOutputLength_returns (member args "max_output_length")) as Hp.
  destruct (ParseMaxOutputLength _) as [n|err|t]; cbn [map_err]; [|by intros [= <- <- <-]|done].
  if_goal; [|by intros [= <- <- <-]].
  pose proof (Unmarshal_returns (ptr_codec string_codec) (member args "command")) as Hu.
  destruct (Unmarshal _ _) as [[c|]|err|t]; [|by intros [= <- <- <-]|by intros [= <- <- <-]|done].
  destruct (IndexByte NUL (to_bytes c)); [by intros [= <- <- <-]|done].
Qed.

Lemma validateArguments_ok encoded command limit :
  validateArguments encoded = (command, limit, None) → 0 < limit ≤ MaxOutputLength.
Proof.
  unfold validateArguments.
  destruct (Unmarshal_members encoded) as [args|err|t]; cbn [map_err]; [|done..].
  destruct (ParseMaxOutputLength _) as [n|err|t] eqn:Hn; cbn [map_err]; [|done..].
  if_goal; [|done]. destruct (Unmarshal _ _) as [[c|]|err|t]; try done.
  destruct (IndexByte NUL (to_bytes c)); [done|]. intros [= <- <-].
  by apply ParseMaxOutputLength_range in Hn.
Qed.

Lemma buildOperation_returns config command limit :
  returns (buildOperation config command limit) = true.
Proof. unfold buildOperation, NewShellSpec, validateShellState. go_returns. Qed.

Lemma bash_calls config c ctx :
  (∃ s, status.Error s ≠ EmptyString ∧ status.WaitingFor s = [] ∧
     bash_Translate config c ctx = (ctx, s)) ∨
  (∃ command limit spec, buildOperation config command limit = Ok spec ∧
     bash_Translate config c ctx = (fst (Submit spec ctx), waiting_status [uuid ctx (next ctx)])).
Proof.
  unfold bash_Translate.
  destruct (validateArguments (call.Arguments c)) as [[command limit] [e|]] eqn:Hv.
  - left. eexists. split; [|split; [|reflexivity]].
    + apply ErrorStatus_error. by eapply validateArguments_error.
    + apply ErrorStatus_waits.
  - pose proof (buildOperation_returns config command limit) as Hr.
    destruct (buildOperation config command limit) as [spec|e|t] eqn:Hb; [| |done].
    + right. by exists command, limit, spec.
    + left. eexists. split; [|split; [|reflexivity]]; [|apply ErrorStatus_waits].
      apply ErrorStatus_error. unfold buildOperation in Hb.
      destruct (NewShellSpec _ _ _); [done| |done]. by injection Hb as <-.
Qed.

Lemma shell_spec_reported config command limit spec id :
  buildOperation config command limit = Ok spec → shell_reported (new_operation id spec).
Proof.
  unfold buildOperation. rewrite map_err_ok. unfold NewShellSpec. intros H.
  if_in H; [|done]. apply bind_ok in H as (u & Hv & (v & Hm%map_err_ok & [= <-])%bind_ok).
  destruct u. set (input := shell_input.Mk _ _ _) in *.
  exists (initial_state input (bash_config.BaseDirectory config)). split; [|by left].
  pose proof (wf_jok _ _ (wf_initial _ _ _ Hv Hif)) as Hj.
  unfold DecodeShellState. simpl. rewrite Hif. simpl.
  by rewrite (Unmarshal_Marshal ShellState_codec _ v Hj Hm).
Qed.

#[export] Instance bash_reports config : Reports (bash_New config) := λ o, shell_reported o.
#[export] Instance bash_lawful config : LawfulTranslator (bash_New config).
Proof.
  constructor.
  - intros c ctx ctx' s. cbn [Translate bash_New].
    destruct (bash_calls config c ctx) as [(s' & He & Hw & ->)|(cmd & n & spec & _ & ->)];
      intros [= <- <-].
    + exists []. split; [apply submits_none|]. by split.
    + exists [spec]. split; [apply submits_one|]. split; [|done]. intros _. split; [done|].
      simpl. by rewrite Nat.add_0_r.
  - intros c ctx. destruct (bash_calls config c ctx) as [(s' & He & Hw & E)|(cmd & n & spec & Hb & E)].
    + by rewrite (submitted_none (bash_New config) _ _ _ E).
    + rewrite (submitted_one (bash_New config) _ _ _ _ E).
      apply Forall_singleton. by eapply shell_spec_reported.
  - intros c ctx ctx' s callID ops. cbn [Translate TranslateResult bash_New].
    destruct (bash_calls config c ctx) as [(s' & He & Hw & ->)|(cmd & n & spec & _ & ->)];
      intros [= <- <-] Hids Hops.
    + rewrite Hw in Hids. apply fmap_nil_inv in Hids as ->. unfold bash_TranslateResult, nonempty.
      rewrite bool_decide_false by done. by eexists.
    + destruct ops as [|o [|]]; simplify_eq/=. apply Forall_cons in Hops as [Ho _].
      apply (bash_result callID _ o); [done|exact Ho].
Qed.

(** *** The checkpoints of the actor *)

(** The model can always be told how a command went: whatever event a
    shell operation handles, the checkpoint that it makes is one whose result
    the Bash tool translates, and the text of a completed one says so when
    there was no output. *)
Theorem shell_always_reported o sh event sh' st o' :
  shell_inv o sh → typed event → Handle event sh = (sh', Ok st) → step.Operation st = Some o' →
  shell_reported o' ∧
  ∀ callID s, status.Error s = EmptyString →
    ∃ out, bash_TranslateResult callID s [o'] = Ok (tr.Mk callID out).
Proof.
  intros Hinv Ht H Ho. assert (shell_reported o') as Hr.
  { pose proof (Handle_post o event sh Hinv Ht) as Hp. rewrite H in Hp.
    destruct Hp as ([Hs _] & (Hst & _ & _) & Hn & Hres). specialize (Hn o' Ho).
    unfold next_operation in Hs. rewrite Ho in Hs. change (op.Status' o' = op.Status' (current sh')) in Hs.
    unfold NewShell in Hn. apply bind_ok in Hn as (s & Hd & Hc).
    assert (s = state sh') as -> by (cbn [fst reset_read] in Hc; unfold reset_read in Hc; congruence). clear Hc.
    unfold shellOperationState in Hd. apply bind_ok in Hd as (s' & Hd & Hrest).
    apply bind_ok in Hrest as (u & _ & Hrest). if_in Hrest; [done|]. injection Hrest as ->.
    exists (state sh'). split; [done|].
    destruct (Hst o' Ho) as [_ [Ha|[Hf _]]]; [left; by rewrite Ha|]. right.
    unfold localOperationFinished in Hf.
    destruct (bool_decide_reflect (op.Status' o' = StatusCompleted)) as [E|_].
    - right. split; [done|]. rewrite E in Hs. exact (Hres (eq_sym Hs)).
    - left. destruct (bool_decide_reflect (op.Status' o' = StatusFailed)) as [->|_]; [done|].
      destruct (bool_decide_reflect (op.Status' o' = StatusCanceled)) as [->|_]; done. }
  split; [done|]. intros callID s He. by apply bash_result.
Qed.

Lemma shell_always_reported_witness :
  ∃ sh' st o', Handle None sample_shell = (sh', Ok st) ∧ step.Operation st = Some o' ∧
    shell_reported o'.
Proof.
  eexists _, _, _. split; [vm_compute; reflexivity|]. split; [reflexivity|].
  eapply (shell_always_reported sample_operation sample_shell None);
    [apply sample_inv|exact I|vm_compute; reflexivity|reflexivity].
Defined.
