(* ===== verification/Approvals.v ===== *)
(** * The approval gate: gui/approvals.go

    What sits between the coordinator of a chat and its operation manager.
    The state of the gate is its list of held commands together with the
    calls that are past a lock: every step is what one goroutine does while
    it holds the mutex, or one call it makes after, so that a run is any
    interleaving of the coordinator, the handlers of the server, the
    goroutine that forwards updates and those that [finish] starts. *)

From Stdlib Require Import Ascii ZArith Lia.
From S2P Require Import Prelude GoStrings GoText Utf8Facts TextFacts Json JsonCodec Primitives Operation.
From S2P Require Import Output Handler Shell ShellFacts ShellRun Llm Tool BashTool.

Local Open Scope Z_scope.

Definition permissionAsk : string := "ask".
Definition permissionAuto : string := "auto".

(** ** Ending a held command *)

Definition declined : string :=
  "The user declined to run this command. Ask what they would prefer, or try a different approach.".

Definition finished_state (reason : string) (s : ShellState) : ShellState :=
  shell_state.set_error (TrimSpace reason) false (shell_state.set_Phase EmptyString s).

(** What [finish] sends: the operation as it reports it. *)
Definition finish (held : Operation) (status : Status) (reason : string) : result Operation :=
  state ← DecodeShellState held;
  encoded ← Marshal ShellState_codec (finished_state reason state);
  Ok (op.set_state encoded (op.set_status status held)).

(** ** The gate *)

Inductive origin : Type :=
  | ByAdd (ask : bool)   (* a call of Add, with what ask() answered, if it was called *)
  | ByDecide.            (* an approval *)

(** What the gate does that others see: the calls it makes, the goroutines it
    starts and what is received from its channel; [Lost] marks a chosen
    command that an early return leaves behind. *)
Inductive effect : Type :=
  | Held (o : Operation)
  | Chosen (o : Operation) (approve : bool)
  | Changed
  | NextAdd (o : Operation) (by_ : origin)
  | NextCancel (id : ID) (reason : string)
  | Ended (held o : Operation)
  | Lost (o : Operation)
  | Taken (o : Operation)
  | Received (from_manager : bool) (o : Operation)
  | Abandoned (o : Operation)
  | Dropped (o : Operation).

(** The goroutine of [newApprovalGate]: at its select, in [send] with an
    update, or returned. *)
Inductive forwarder : Type :=
  | Idle
  | Sending (update : Operation)
  | Gone.

Record gate : Type := MkGate {
  pending : list Operation;                  (* gate.pending *)
  adding : list Operation;                   (* calls of Add between ask() and the lock *)
  deciding : list (list Operation * bool);   (* calls of decide, what is left of [chosen] *)
  forwarding : forwarder;                    (* the goroutine of newApprovalGate *)
  sending : list Operation;                  (* the goroutines of finish *)
  done : bool;                               (* gate.ctx is done *)
  log : list effect;
}.

Definition newApprovalGate : gate := MkGate [] [] [] Idle [] false [].

Definition set_pending (l : list Operation) (g : gate) : gate :=
  MkGate l (adding g) (deciding g) (forwarding g) (sending g) (done g) (log g).
Definition set_adding (l : list Operation) (g : gate) : gate :=
  MkGate (pending g) l (deciding g) (forwarding g) (sending g) (done g) (log g).
Definition set_deciding (l : list (list Operation * bool)) (g : gate) : gate :=
  MkGate (pending g) (adding g) l (forwarding g) (sending g) (done g) (log g).
Definition set_forwarding (u : forwarder) (g : gate) : gate :=
  MkGate (pending g) (adding g) (deciding g) u (sending g) (done g) (log g).
Definition set_sending (l : list Operation) (g : gate) : gate :=
  MkGate (pending g) (adding g) (deciding g) (forwarding g) l (done g) (log g).
Definition set_done (g : gate) : gate :=
  MkGate (pending g) (adding g) (deciding g) (forwarding g) (sending g) true (log g).
Definition emits (es : list effect) (g : gate) : gate :=
  MkGate (pending g) (adding g) (deciding g) (forwarding g) (sending g) (done g) (log g ++ es).

Definition emit (e : effect) : M gate unit := modify (emits [e]).

(** The manager's answer to a call: nil or an error. *)
Definition answered (answer : option error) : M gate unit :=
  match answer with Some e => fail e | None => mret tt end.

(** ** Its methods *)

Definition needs_approval (o : Operation) : bool :=
  bool_decide (op.Type' o = TypeShell) && bool_decide (op.Status' o = StatusReady).

(** [Add] up to the lock, and the rest. *)
Definition Add (current : Operation) (ask : bool) (answer : option error) : M gate unit :=
  if negb (needs_approval current) || negb ask then
    _ ← emit (NextAdd current (ByAdd ask));
    answered answer
  else modify (λ g, set_adding (adding g ++ [current]) g).

Definition hold (k : nat) : M gate unit :=
  g ← self;
  match adding g !! k with
  | None => mret tt
  | Some current =>
    _ ← modify (λ g, set_pending (pending g ++ [current]) (set_adding (delete k (adding g)) g));
    _ ← emit (Held current);
    emit Changed
  end.

(** [slices.IndexFunc] *)
Fixpoint index_of (id : ID) (l : list Operation) : option nat :=
  match l with
  | [] => None
  | o :: l => if bool_decide (op.ID' o = id) then Some 0%nat else S <$> index_of id l
  end.

Definition take_held (id : ID) : M gate (option Operation) :=
  g ← self;
  match index_of id (pending g) with
  | None => mret None
  | Some index =>
    _ ← modify (set_pending (delete index (pending g)));
    mret (pending g !! index)
  end.

(** [go gate.send(held)] once the report is made *)
Definition finish_held (held : Operation) (status : Status) (reason : string) : M gate unit :=
  match finish held status reason with
  | Ok o => _ ← emit (Ended held o); modify (λ g, set_sending (sending g ++ [o]) g)
  | Err e => _ ← emit (Lost held); fail e
  | Panic t => lift (Panic t)
  end.

Definition Cancel (id : ID) (reason : string) (answer : option error) : M gate unit :=
  held ← take_held id;
  match held with
  | Some held => _ ← emit Changed; finish_held held StatusCanceled reason
  | None => _ ← emit (NextCancel id reason); answered answer
  end.

Module approval.
Record pendingApproval : Set := Mk { ID : Operation.ID; Command : string }.
End approval.
Abbreviation pendingApproval := approval.pendingApproval.

Definition command_of (held : Operation) : string :=
  match DecodeShellState held with
  | Ok s => shell_input.Command (shell_state.Input s)
  | _ => EmptyString
  end.

Definition list_pending (g : gate) : list pendingApproval :=
  (λ held, approval.Mk (op.ID' held) (command_of held)) <$> pending g.

Definition selects (id : ID) (held : Operation) : Prop := id = EmptyString ∨ op.ID' held = id.
#[export] Instance selects_dec id held : Decision (selects id held) := _.

(** [decide] up to the loop, and the body of the loop. *)
Definition decide_ (id : ID) (approve : bool) : M gate unit :=
  g ← self;
  let chosen := filter (selects id) (pending g) in
  _ ← modify (set_pending (filter (λ held, ¬ selects id held) (pending g)));
  match chosen with
  | [] => fail (errors_New ("no command " +:+ quote id +:+ " is waiting for approval"))
  | _ =>
    _ ← modify (emits ((λ o, Chosen o approve) <$> chosen));
    _ ← modify (λ g, set_deciding (deciding g ++ [(chosen, approve)]) g);
    emit Changed
  end.

Definition on_error {A} (m : M gate A) (f : gate → gate) : M gate A := λ g,
  match m g with
  | (g, Ok a) => (g, Ok a)
  | (g, r) => (f g, r)
  end.

Definition release (held : Operation) (approve : bool) (answer : option error) : M gate unit :=
  if approve then
    _ ← emit (NextAdd held ByDecide);
    answered answer
  else finish_held held StatusFailed declined.

(** One round of the loop of the [k]th call: when it fails, the rest of its
    commands stay behind. *)
Definition decide_next (k : nat) (answer : option error) : M gate unit :=
  g ← self;
  match deciding g !! k with
  | None => mret tt
  | Some (chosen, approve) =>
    _ ← modify (set_deciding (delete k (deciding g)));
    match chosen with
    | [] => mret tt
    | held :: rest =>
      _ ← on_error (release held approve answer) (emits (Lost <$> rest));
      modify (λ g, set_deciding (deciding g ++ [(rest, approve)]) g)
    end
  end.

(** ** Its channel *)

(** The goroutine of [newApprovalGate] takes an update from the manager, which
    its select may do after the context is done too, and sends it. *)
Definition forward (update : Operation) : M gate unit :=
  g ← self;
  match forwarding g with
  | Idle => _ ← modify (set_forwarding (Sending update)); emit (Taken update)
  | _ => mret tt
  end.

Definition deliver_forwarded : M gate unit :=
  g ← self;
  match forwarding g with
  | Sending update => _ ← modify (set_forwarding Idle); emit (Received true update)
  | _ => mret tt
  end.

(** [case <-ctx.Done()], of the select that waits for an update and of [send],
    which drops the one that it has: the goroutine returns. *)
Definition stop_forwarding : M gate unit :=
  g ← self;
  if done g then
    match forwarding g with
    | Idle => modify (set_forwarding Gone)
    | Sending update => _ ← modify (set_forwarding Gone); emit (Dropped update)
    | Gone => mret tt
    end
  else mret tt.

Definition deliver_ended (k : nat) : M gate unit :=
  g ← self;
  match sending g !! k with
  | Some update => _ ← modify (set_sending (delete k (sending g))); emit (Received false update)
  | None => mret tt
  end.

(** [case <-gate.ctx.Done()] *)
Definition abandon (k : nat) : M gate unit :=
  g ← self;
  match sending g !! k with
  | Some update =>
    if done g then _ ← modify (set_sending (delete k (sending g))); emit (Abandoned update)
    else mret tt
  | None => mret tt
  end.

(** ** Runs *)

Inductive action : Type :=
  | ActAdd (o : Operation) (ask : bool) (answer : option error)
  | ActHold (k : nat)
  | ActCancel (id : ID) (reason : string) (answer : option error)
  | ActDecide (id : ID) (approve : bool)
  | ActNext (k : nat) (answer : option error)
  | ActUpdate (o : Operation)
  | ActForward
  | ActStopForward
  | ActSend (k : nat)
  | ActDone
  | ActAbandon (k : nat).

Definition act (a : action) : M gate unit :=
  match a with
  | ActAdd o ask answer => Add o ask answer
  | ActHold k => hold k
  | ActCancel id reason answer => Cancel id reason answer
  | ActDecide id approve => decide_ id approve
  | ActNext k answer => decide_next k answer
  | ActUpdate o => forward o
  | ActForward => deliver_forwarded
  | ActStopForward => stop_forwarding
  | ActSend k => deliver_ended k
  | ActDone => modify set_done
  | ActAbandon k => abandon k
  end.

Definition run (actions : list action) (g : gate) : gate :=
  fold_left (λ g a, fst (act a g)) actions g.

(** ** Traces *)

Definition held_of (e : effect) : option Operation := match e with Held o => Some o | _ => None end.
Definition started_of (e : effect) : option Operation :=
  match e with NextAdd o ByDecide => Some o | _ => None end.
Definition ended_of (e : effect) : option Operation := match e with Ended o _ => Some o | _ => None end.
Definition report_of (e : effect) : option Operation := match e with Ended _ o => Some o | _ => None end.
Definition lost_of (e : effect) : option Operation := match e with Lost o => Some o | _ => None end.
Definition received_of (from_manager : bool) (e : effect) : option Operation :=
  match e with Received b o => if bool_decide (b = from_manager) then Some o else None | _ => None end.
Definition taken_of (e : effect) : option Operation := match e with Taken o => Some o | _ => None end.
Definition abandoned_of (e : effect) : option Operation := match e with Abandoned o => Some o | _ => None end.

Definition dropped_of (e : effect) : option Operation := match e with Dropped o => Some o | _ => None end.

Definition traced (f : effect → option Operation) (g : gate) : list Operation := omap f (log g).

(** The update that the goroutine of [newApprovalGate] has in hand. *)
Definition in_hand (g : gate) : list Operation :=
  match forwarding g with Sending o => [o] | _ => [] end.

(** The commands of the calls of decide that are not done. *)
Definition undecided (g : gate) : list Operation := deciding g ≫= fst.

(** Who may hand an operation to the manager: a call of [Add] that needs no
    approval or was told not to ask, or an approval that chose the command
    after it was held. *)
Definition allowed (before : list effect) (o : Operation) (by_ : origin) : Prop :=
  match by_ with
  | ByAdd ask => needs_approval o = false ∨ ask = false
  | ByDecide => Held o ∈ before ∧ Chosen o true ∈ before
  end.

Definition approved_log (l : list effect) : Prop :=
  ∀ before o by_ after, l = before ++ NextAdd o by_ :: after → allowed before o by_.

Lemma approved_log_app l es :
  approved_log l → (∀ before o by_ after, es = before ++ NextAdd o by_ :: after → allowed (l ++ before) o by_) →
  approved_log (l ++ es).
Proof.
  intros Hl He before o by_ after Heq. apply app_eq_inv in Heq as [(k & -> & Hk)|(k & Hk & ->)].
  - destruct k as [|x k]; simplify_eq/=.
    + specialize (He [] o by_ after eq_refl). by rewrite !app_nil_r in He.
    + by apply (Hl before o by_ k).
  - subst before. by apply (He k o by_ after).
Qed.

Lemma approved_log_snoc l e :
  approved_log l → (∀ o by_, e = NextAdd o by_ → allowed l o by_) → approved_log (l ++ [e]).
Proof.
  intros Hl He. apply approved_log_app; [done|]. intros [|x before] o by_ after Heq; simplify_eq/=.
  - rewrite app_nil_r. by apply He.
  - destruct before; simplify_eq/=.
Qed.

Record inv (g : gate) : Prop := {
  inv_held : traced held_of g ≡ₚ
    pending g ++ undecided g ++ traced started_of g ++ traced ended_of g ++ traced lost_of g;
  inv_report : traced report_of g ≡ₚ sending g ++ traced (received_of false) g ++ traced abandoned_of g;
  inv_taken : traced taken_of g = traced (received_of true) g ++ in_hand g ++ traced dropped_of g;
  inv_dropped : (length (traced dropped_of g) ≤ 1)%nat;
  inv_forwarding : forwarding g ≠ Gone → traced dropped_of g = [];
  inv_gone : forwarding g = Gone → done g = true;
  inv_live : done g = false → traced abandoned_of g = [];
  inv_pending : ∀ o, o ∈ pending g → Held o ∈ log g;
  inv_chosen : ∀ chosen approve o, (chosen, approve) ∈ deciding g → o ∈ chosen →
    Held o ∈ log g ∧ Chosen o approve ∈ log g;
  inv_approved : approved_log (log g);
}.

(** What a step does of the manager's updates: nothing, or one step of the
    goroutine that forwards them. *)
Definition forwards (g g' : gate) (es : list effect) : Prop :=
  (omap taken_of es = [] ∧ omap (received_of true) es = [] ∧ omap dropped_of es = [] ∧
   forwarding g' = forwarding g) ∨
  (forwarding g ≠ Gone ∧
   in_hand g ++ omap taken_of es = omap (received_of true) es ++ in_hand g' ++ omap dropped_of es ∧
   (length (omap dropped_of es) ≤ 1)%nat ∧
   (forwarding g' ≠ Gone → omap dropped_of es = []) ∧
   (forwarding g' = Gone → done g' = true)).

(** What a step must say of its effects: each command that enters or leaves
    a list of the gate is accounted for. *)
Record accounted (g g' : gate) (es : list effect) : Prop := {
  acc_log : log g' = log g ++ es;
  acc_held : omap held_of es ++ pending g ++ undecided g ≡ₚ
    pending g' ++ undecided g' ++ omap started_of es ++ omap ended_of es ++ omap lost_of es;
  acc_report : omap report_of es ++ sending g ≡ₚ
    sending g' ++ omap (received_of false) es ++ omap abandoned_of es;
  acc_forwards : forwards g g' es;
  acc_done : done g = true → done g' = true;
  acc_live : done g' = false → omap abandoned_of es = [];
  acc_pending : ∀ o, o ∈ pending g' → o ∈ pending g ∨ Held o ∈ es;
  acc_chosen : ∀ chosen approve o, (chosen, approve) ∈ deciding g' → o ∈ chosen →
    (∃ before, (before, approve) ∈ deciding g ∧ o ∈ before) ∨ (o ∈ pending g ∧ Chosen o approve ∈ es);
  acc_approved : Forall (λ e, ∀ o by_, e = NextAdd o by_ → allowed (log g) o by_) es;
}.

Lemma allowed_app l es o by_ : allowed l o by_ → allowed (l ++ es) o by_.
Proof. destruct by_; simpl; [done|]. rewrite !elem_of_app. tauto. Qed.

Lemma accounted_inv g g' es : inv g → accounted g g' es → inv g'.
Proof.
  intros [Hh Hr Ht Hd Hf Hg Hl Hp Hc Ha] [El Eh Er Et Ed Ev Ep Ec Ea]. unfold traced in *.
  assert (done g' = false → done g = false) as Hdone by (intros H; destruct (done g); [by rewrite Ed in H|done]).
  constructor; unfold traced; rewrite ?El, ?omap_app.
  - rewrite Hh. transitivity ((omap held_of es ++ pending g ++ undecided g)
      ++ omap started_of (log g) ++ omap ended_of (log g) ++ omap lost_of (log g)); [solve_Permutation|].
    rewrite Eh. solve_Permutation.
  - rewrite Hr. transitivity ((omap report_of es ++ sending g)
      ++ omap (received_of false) (log g) ++ omap abandoned_of (log g)); [solve_Permutation|].
    rewrite Er. solve_Permutation.
  - destruct Et as [(-> & -> & -> & E)|(Hn & E & _)]; rewrite Ht.
    + unfold in_hand. by rewrite E, !app_nil_r.
    + rewrite (Hf Hn), app_nil_r, <- !(assoc_L (++)). by rewrite E.
  - destruct Et as [(_ & _ & -> & _)|(Hn & _ & H & _)]; [by rewrite app_nil_r|by rewrite (Hf Hn)].
  - intros Hn. destruct Et as [(_ & _ & -> & E)|(Hn' & _ & _ & H & _)].
    + rewrite app_nil_r. apply Hf. by rewrite <- E.
    + by rewrite (Hf Hn'), (H Hn).
  - intros E. destruct Et as [(_ & _ & _ & E')|(_ & _ & _ & _ & H)]; [|by apply H].
    apply Ed, Hg. by rewrite <- E'.
  - intros H. by rewrite (Hl (Hdone H)), (Ev H).
  - intros o [H|H]%Ep; apply elem_of_app; auto.
  - intros chosen approve o Hin Ho. rewrite !elem_of_app.
    destruct (Ec chosen approve o Hin Ho) as [(before & Hb & Hob)|[H1 H2]]; [|by auto].
    destruct (Hc before approve o Hb Hob); auto.
  - apply approved_log_app; [done|]. intros before o by_ after ->. apply allowed_app.
    rewrite Forall_app, Forall_cons in Ea. by apply Ea.
Qed.

(** A step that touches none of the lists of commands. *)
Lemma chosen_kept (g : gate) (es : list effect) (chosen : list Operation) approve (o : Operation) :
  (chosen, approve) ∈ deciding g → o ∈ chosen →
  (∃ before, (before, approve) ∈ deciding g ∧ o ∈ before) ∨ (o ∈ pending g ∧ Chosen o approve ∈ es).
Proof. left. eauto. Qed.

Lemma accounted_refl g : accounted g g [].
Proof.
  split; simpl; rewrite ?app_nil_r; auto; [by left; split_and!|].
  intros chosen approve o. apply chosen_kept.
Qed.

Ltac account :=
  unfold emit, answered; rewrite ?M_modify;
  split; cbn -[needs_approval]; unfold undecided; cbn -[needs_approval];
    rewrite ?app_nil_r, <- ?(assoc_L (++)); auto;
    try solve [reflexivity | by intros; left | exact (chosen_kept _ _)];
    try solve [repeat constructor; intros; simplify_eq/=];
    try solve [left; split_and!; reflexivity].

Lemma Add_accounted o ask answer g : ∃ es, accounted g (fst (Add o ask answer g)) es.
Proof.
  unfold Add. destruct (negb (needs_approval o) || negb ask) eqn:E.
  - exists [NextAdd o (ByAdd ask)]. destruct answer; account.
    all: constructor; [|done]; intros o' by_ [= <- <-]; simpl.
    all: destruct (needs_approval o), ask; auto; done.
  - exists []. account.
Qed.

Lemma hold_accounted k g : ∃ es, accounted g (fst (hold k g)) es.
Proof.
  unfold hold. rewrite M_self. destruct (adding g !! k) as [o|]; [|exists []; apply accounted_refl].
  exists [Held o; Changed]. account.
  - solve_Permutation.
  - intros o' [H|H]%elem_of_app; set_solver.
Qed.

(** *** Cancel *)

Lemma index_of_some id l k : index_of id l = Some k → ∃ o, l !! k = Some o ∧ op.ID' o = id.
Proof.
  revert k. induction l as [|o l IH]; intros k H; simpl in *; [done|].
  case_bool_decide as Hid; [injection H as <-; eauto|].
  apply fmap_Some in H as (j & Hj & ->). simpl. by apply IH.
Qed.

Lemma elem_of_delete {A} (x : A) k (l : list A) : x ∈ delete k l → x ∈ l.
Proof. revert k. induction l as [|y l IH]; intros [|k]; simpl; rewrite ?elem_of_cons; naive_solver. Qed.

Lemma finish_held_steps held status reason g :
  (∃ o, finish held status reason = Ok o ∧
     finish_held held status reason g
     = (set_sending (sending g ++ [o]) (emits [Ended held o] g), Ok tt)) ∨
  (∃ e, finish_held held status reason g = (emits [Lost held] g, Err e)).
Proof.
  unfold finish_held. assert (returns (finish held status reason) = true) as Hr.
  { unfold finish, DecodeShellState. go_returns. }
  destruct (finish held status reason) as [o|e|t]; [left|right|done]; eauto.
Qed.

Lemma take_held_runs id g :
  take_held id g = match index_of id (pending g) with
              | Some k => (set_pending (delete k (pending g)) g, Ok (pending g !! k))
              | None => (g, Ok None)
              end.
Proof. unfold take_held. rewrite M_self. by destruct (index_of id (pending g)). Qed.

Lemma M_after {A B} (m : M gate A) (f : A → M gate B) g g' a : m g = (g', Ok a) → (m ≫= f) g = f a g'.
Proof. unfold mbind, M_bind. by intros ->. Qed.

Lemma Cancel_accounted id reason answer g : ∃ es, accounted g (fst (Cancel id reason answer g)) es.
Proof.
  unfold Cancel. pose proof (take_held_runs id g) as Ht.
  destruct (index_of id (pending g)) as [k|] eqn:Hk; rewrite (M_after _ _ _ _ _ Ht).
  - destruct (index_of_some _ _ _ Hk) as (o & Ho & _). rewrite Ho. unfold emit. rewrite M_modify.
    set (g1 := emits [Changed] (set_pending (delete k (pending g)) g)).
    pose proof (delete_Permutation _ _ _ Ho) as Hp.
    assert (∀ o1, o1 ∈ delete k (pending g) → o1 ∈ pending g) as Hin by (intros ? ?%elem_of_delete; auto).
    clear Ht. generalize dependent (delete k (pending g)). intros rest g1 Hp Hin.
    destruct (finish_held_steps o StatusCanceled reason g1) as [(o' & _ & ->)|(e & ->)].
    + exists [Changed; Ended o o']. account; [|solve_Permutation].
      rewrite Hp. solve_Permutation.
    + exists [Changed; Lost o]. account. rewrite Hp. solve_Permutation.
  - exists [NextCancel id reason]. destruct answer; account.
Qed.

(** *** Decide *)

Lemma omap_lost (l : list Operation) : omap lost_of (Lost <$> l) = l.
Proof. induction l as [|o l IH]; [done|]. simpl. f_equal. exact IH. Qed.

Lemma omap_none (f : effect → option Operation) (h : Operation → effect) (l : list Operation) :
  (∀ o, f (h o) = None) → omap f (h <$> l) = [].
Proof. intros H. induction l as [|o l IH]; [done|]. simpl. rewrite H. exact IH. Qed.

Ltac omaps :=
  rewrite ?omap_app, ?(omap_none held_of), ?(omap_none started_of), ?(omap_none ended_of),
    ?(omap_none report_of), ?(omap_none taken_of), ?(omap_none abandoned_of),
    ?(omap_none dropped_of), ?(omap_none (received_of _)) by done.

Lemma decide_accounted id approve g : ∃ es, accounted g (fst (decide_ id approve g)) es.
Proof.
  unfold decide_. rewrite M_self. cbv zeta. rewrite M_modify.
  pose proof (filter_app_complement (selects id) (pending g)) as Hp.
  destruct (filter (selects id) (pending g)) as [|c cs] eqn:Hc.
  - exists []. account.
    + by rewrite <- Hp at 1.
    + intros o Ho%list_elem_of_filter. left. apply Ho.
  - set (chosen := c :: cs) in *.
    assert (∀ o, o ∈ chosen → o ∈ pending g) as Hin by (rewrite <- Hc; intros o Ho%list_elem_of_filter; apply Ho).
    exists (((λ o, Chosen o approve) <$> chosen) ++ [Changed]). clearbody chosen. clear Hc c cs.
    account.
    + omaps. rewrite (omap_none lost_of) by done. simpl. rewrite bind_app. simpl.
      rewrite <- Hp at 1. rewrite !app_nil_r. solve_Permutation.
    + omaps. simpl. by rewrite !app_nil_r.
    + left. omaps. by split_and!.
    + by omaps.
    + intros o Ho%list_elem_of_filter. left. apply Ho.
    + intros l a o [H|H]%elem_of_app Ho; [by apply (chosen_kept g _ l)|].
      apply list_elem_of_singleton in H. simplify_eq. right. split; [auto|].
      apply elem_of_app. left. apply list_elem_of_fmap. eauto.
    + apply Forall_app. split; [|by constructor]. apply Forall_fmap, Forall_forall. by intros x _ o by_.
Qed.

Lemma release_steps held approve answer g :
  (∃ e, (e = NextAdd held ByDecide ∧ approve = true) ∧
     (release held approve answer g = (emits [e] g, Ok tt) ∨
      ∃ err, release held approve answer g = (emits [e] g, Err err))) ∨
  (∃ o, approve = false ∧ release held approve answer g
     = (set_sending (sending g ++ [o]) (emits [Ended held o] g), Ok tt)) ∨
  (∃ err, approve = false ∧ release held approve answer g = (emits [Lost held] g, Err err)).
Proof.
  unfold release. destruct approve.
  - left. exists (NextAdd held ByDecide). split; [done|]. unfold emit. rewrite M_modify.
    destruct answer as [e|]; [right; by exists e|by left].
  - right. destruct (finish_held_steps held StatusFailed declined g) as [(o & _ & ->)|(e & ->)];
      [left|right]; eauto.
Qed.

(** The calls of decide that a round leaves. *)
Lemma chosen_rest (g : gate) (others : list (list Operation * bool)) held rest approve :
  (∀ x, x ∈ others → x ∈ deciding g) → (held :: rest, approve) ∈ deciding g →
  ∀ (chosen : list Operation) a o, (chosen, a) ∈ others ++ [(rest, approve)] → o ∈ chosen →
    ∃ before, (before, a) ∈ deciding g ∧ o ∈ before.
Proof.
  intros Hin Hc chosen a o [H|H]%elem_of_app Ho; [eauto|].
  apply list_elem_of_singleton in H. simplify_eq. exists (held :: rest). split; [done|].
  by apply elem_of_cons; right.
Qed.

Lemma decide_next_accounted k answer g : inv g → ∃ es, accounted g (fst (decide_next k answer g)) es.
Proof.
  intros Hinv. unfold decide_next. rewrite M_self.
  destruct (deciding g !! k) as [[chosen approve]|] eqn:Hk; [|exists []; apply accounted_refl].
  rewrite M_modify. pose proof (delete_Permutation _ _ _ Hk) as Hp.
  assert (∀ x, x ∈ delete k (deciding g) → x ∈ deciding g) as Hin by (intros ? ?%elem_of_delete; auto).
  assert ((chosen, approve) ∈ deciding g) as Hc by (by apply list_elem_of_lookup; exists k).
  clear Hk. generalize dependent (delete k (deciding g)). intros others Hp Hin.
  assert (undecided g ≡ₚ chosen ++ (others ≫= fst)) as Hu by (unfold undecided; by rewrite Hp).
  unfold undecided in Hu.
  destruct chosen as [|held rest].
  - exists []. account; [by rewrite Hu|]. intros chosen a o Ho H. left. eauto.
  - pose proof (chosen_rest g others held rest approve Hin Hc) as Hrest.
    assert (∀ (chosen : list Operation) a o, (chosen, a) ∈ others → o ∈ chosen →
      ∃ before, (before, a) ∈ deciding g ∧ o ∈ before) as Hothers by eauto.
    unfold on_error, mbind, M_bind.
    destruct (release_steps held approve answer (set_deciding others g))
      as [(e & [-> ->] & [->|(err & ->)])|[(o & -> & ->)|(err & -> & ->)]].
    + exists [NextAdd held ByDecide]. account.
      * rewrite Hu, bind_app. simpl. rewrite app_nil_r. solve_Permutation.
      * intros. left. by eapply Hrest.
      * constructor; [|done]. intros o by_ [= <- <-]. apply (inv_chosen g Hinv _ _ _ Hc). by left.
    + exists (NextAdd held ByDecide :: (Lost <$> rest)). account; omaps; rewrite ?omap_lost.
      * rewrite Hu. solve_Permutation.
      * by rewrite app_nil_r.
      * left. cbn. omaps. by split_and!.
      * done.
      * intros. left. by eapply Hothers.
      * constructor; [|by apply Forall_fmap, Forall_forall]. intros o by_ [= <- <-].
        apply (inv_chosen g Hinv _ _ _ Hc). by left.
    + exists [Ended held o]. account.
      * rewrite Hu, bind_app. simpl. rewrite app_nil_r. solve_Permutation.
      * solve_Permutation.
      * intros. left. by eapply Hrest.
    + exists (Lost held :: (Lost <$> rest)). account; omaps; rewrite ?omap_lost.
      * rewrite Hu. solve_Permutation.
      * by rewrite app_nil_r.
      * left. cbn. omaps. by split_and!.
      * done.
      * intros. left. by eapply Hothers.
      * constructor; [done|by apply Forall_fmap, Forall_forall].
Qed.

(** *** The channel *)

Ltac forwarded Hu := right; unfold in_hand; cbn; rewrite Hu; split_and!; try done; try lia; congruence.

Lemma forward_accounted o g : ∃ es, accounted g (fst (forward o g)) es.
Proof.
  unfold forward. rewrite M_self.
  destruct (forwarding g) as [|u|] eqn:Hu; try (exists []; apply accounted_refl).
  exists [Taken o]. account. forwarded Hu.
Qed.

Lemma deliver_forwarded_accounted g : ∃ es, accounted g (fst (deliver_forwarded g)) es.
Proof.
  unfold deliver_forwarded. rewrite M_self.
  destruct (forwarding g) as [|u|] eqn:Hu; try (exists []; apply accounted_refl).
  exists [Received true u]. account. forwarded Hu.
Qed.

Lemma stop_forwarding_accounted g : ∃ es, accounted g (fst (stop_forwarding g)) es.
Proof.
  unfold stop_forwarding. rewrite M_self. destruct (done g) eqn:Hd; [|exists []; apply accounted_refl].
  destruct (forwarding g) as [|u|] eqn:Hu.
  - exists []. account. forwarded Hu.
  - exists [Dropped u]. account. forwarded Hu.
  - exists []. apply accounted_refl.
Qed.

Lemma deliver_ended_accounted k g : ∃ es, accounted g (fst (deliver_ended k g)) es.
Proof.
  unfold deliver_ended. rewrite M_self.
  destruct (sending g !! k) as [u|] eqn:Hu; [|exists []; apply accounted_refl].
  exists [Received false u]. account. rewrite (delete_Permutation _ _ _ Hu) at 1. solve_Permutation.
Qed.

Lemma abandon_accounted k g : ∃ es, accounted g (fst (abandon k g)) es.
Proof.
  unfold abandon. rewrite M_self.
  destruct (sending g !! k) as [u|] eqn:Hu; [|exists []; apply accounted_refl].
  destruct (done g) eqn:Hd; [|exists []; apply accounted_refl].
  exists [Abandoned u]. account; [|congruence].
  rewrite (delete_Permutation _ _ _ Hu) at 1. solve_Permutation.
Qed.

Lemma act_inv a g : inv g → inv (fst (act a g)).
Proof.
  intros Hg. assert (∃ es, accounted g (fst (act a g)) es) as [es Hes]; [|by eapply accounted_inv].
  destruct a; simpl act;
    eauto using Add_accounted, hold_accounted, Cancel_accounted, decide_accounted,
      decide_next_accounted, forward_accounted, deliver_forwarded_accounted, stop_forwarding_accounted,
      deliver_ended_accounted, abandon_accounted.
  exists []. account.
Qed.

Lemma new_gate_inv : inv newApprovalGate.
Proof.
  constructor; try done.
  - simpl. lia.
  - by intros o ?%elem_of_nil.
  - by intros ??? ?%elem_of_nil.
  - by intros [] ? ? ? ?.
Qed.

Lemma run_inv actions g : inv g → inv (run actions g).
Proof.
  revert g. induction actions as [|a actions IH]; intros g Hg; [done|]. apply IH. by apply act_inv.
Qed.

(** ** What the model is told *)

Lemma finished_state_encodes held s reason :
  DecodeShellState held = Ok s → string_ok reason = true →
  ∃ j, Marshal ShellState_codec (finished_state reason s) = Ok (VText j).
Proof.
  intros Hs Hr. apply Marshal_total, state_encodes; [|by apply TrimSpace_ok].
  destruct (decoded_strings_ok held s Hs). by constructor.
Qed.

(** A command whose state decodes can be ended, and keeps its identity. *)
Lemma finish_returns held status reason s :
  DecodeShellState held = Ok s → string_ok reason = true →
  ∃ o, finish held status reason = Ok o ∧ same_identity held o ∧ op.Status' o = status.
Proof.
  intros Hs Hr. destruct (finished_state_encodes held s reason Hs Hr) as [j Hj].
  exists (op.set_state (VText j) (op.set_status status held)). split; [|split; [apply same_identity_set|done]].
  unfold finish. rewrite Hs. simpl. by rewrite Hj.
Qed.

(** The commands that the Bash tool makes. *)
Lemma made_state config command limit spec id :
  buildOperation config command limit = Ok spec →
  let s := initial_state (shell_input.Mk command (bash_config.Shell config) (bash_config.Directory config))
             (bash_config.BaseDirectory config) in
  DecodeShellState (new_operation id spec) = Ok s ∧ wf_state limit s ∧
  ∃ v, spec = spec.Mk limit TypeShell VersionShell v VNil ∧ limit_in_range limit = true.
Proof.
  unfold buildOperation. rewrite map_err_ok. unfold NewShellSpec. intros H. cbv zeta in *.
  if_in H; [|done]. apply bind_ok in H as (u & Hv & (v & Hm%map_err_ok & [= <-])%bind_ok). destruct u.
  set (s := initial_state _ _) in *. pose proof (wf_initial _ _ _ Hv Hif) as Hwf.
  split; [|split; [done|by exists v]].
  unfold DecodeShellState. simpl. rewrite Hif. simpl.
  by rewrite (Unmarshal_Marshal ShellState_codec _ v (wf_jok _ _ Hwf) Hm).
Qed.

(** The result of an operation that ended without a result or a capture. *)
Lemma finished_result callID s o st :
  status.Error s = EmptyString → stopped_status (op.Status' o) = true →
  op.Type' o = TypeShell → DecodeShellState o = Ok st → result_parts st = [] →
  bash_TranslateResult callID s [o]
  = Ok (text_result callID ("Error: " +:+
      (if nonempty (shell_state.TerminalError st) then shell_state.TerminalError st
       else "shell operation " +:+ op.Status' o))).
Proof.
  intros He Hst Ht Hd Hp. unfold bash_TranslateResult. rewrite He. cbn.
  unfold translateOperationResult. cbv zeta. rewrite (bool_decide_true _ Ht). cbn [negb].
  rewrite Hd. cbn [map_err]. unfold mbind, result_bind.
  fold (running_status (op.Status' o)) (stopped_status (op.Status' o)). rewrite Hst.
  assert (running_status (op.Status' o) = false ∧ op.Status' o ≠ StatusCompleted) as [-> Hc].
  { unfold stopped_status in Hst. apply bool_decide_eq_true in Hst.
    rewrite !elem_of_cons, elem_of_nil in Hst. by destruct Hst as [->|[->|[]]]. }
  rewrite (bool_decide_false _ Hc). unfold output_text. rewrite Hp. simpl.
  by destruct (nonempty (shell_state.TerminalError st)) eqn:Hne; rewrite ?Hne.
Qed.

(** ** Runs in which nothing is refused *)

Definition decodes (o : Operation) : Prop := ∃ s, DecodeShellState o = Ok s.

(** The manager accepts what it is given, the commands decode, and the reasons
    are text. *)
Definition smooth (a : action) : Prop :=
  match a with
  | ActAdd o _ answer => answer = None ∧ (needs_approval o = true → decodes o)
  | ActNext _ answer => answer = None
  | ActCancel _ reason answer => answer = None ∧ string_ok reason = true
  | _ => True
  end.

Record whole (g : gate) : Prop := {
  whole_adding : Forall decodes (adding g);
  whole_pending : Forall decodes (pending g);
  whole_deciding : Forall (λ d, Forall decodes (fst d)) (deciding g);
  whole_lost : traced lost_of g = [];
}.

Lemma whole_emits es g : omap lost_of es = [] → whole g → whole (emits es g).
Proof.
  intros He [Ha Hp Hd Hl]. constructor; try done. unfold traced in *. simpl. by rewrite omap_app, Hl, He.
Qed.

Lemma finish_held_smooth held status reason g :
  decodes held → string_ok reason = true →
  ∃ o, finish_held held status reason g = (set_sending (sending g ++ [o]) (emits [Ended held o] g), Ok tt).
Proof.
  intros [s Hs] Hr. destruct (finish_returns held status reason s Hs Hr) as (o & Ho & _).
  exists o. unfold finish_held. by rewrite Ho.
Qed.

Lemma Forall_delete {A} (P : A → Prop) k (l : list A) : Forall P l → Forall P (delete k l).
Proof. rewrite !Forall_forall. intros H x Hx%elem_of_delete. auto. Qed.

Lemma declined_ok : string_ok declined = true.
Proof. vm_compute. reflexivity. Qed.

Lemma act_whole a g : smooth a → whole g → whole (fst (act a g)).
Proof.
  intros Hs Hg. pose proof Hg as [Ha Hp Hd Hl]. destruct a as [o ask answer|k|id reason answer|id approve|k answer|o| | |k| |k];
    cbn [act].
  - destruct Hs as [-> Hs]. unfold Add. destruct (negb (needs_approval o) || negb ask) eqn:E.
    + by apply whole_emits.
    + constructor; try done. apply Forall_app. split; [done|]. apply Forall_singleton, Hs.
      by destruct (needs_approval o).
  - unfold hold. rewrite M_self. destruct (adding g !! k) as [o|] eqn:Hk; [|done].
    unfold emit. rewrite !M_modify. apply (whole_emits [Changed]); [done|]. apply (whole_emits [Held o]); [done|].
    constructor; try done; simpl; [by apply Forall_delete|].
    apply Forall_app. split; [done|]. apply Forall_singleton. exact (Forall_lookup_1 _ _ _ _ Ha Hk).
  - destruct Hs as [-> Hr]. unfold Cancel. pose proof (take_held_runs id g) as Ht.
    destruct (index_of id (pending g)) as [k|] eqn:Hk; rewrite (M_after _ _ _ _ _ Ht); [|by apply whole_emits].
    destruct (index_of_some _ _ _ Hk) as (o & Ho & _). rewrite Ho. unfold emit. rewrite M_modify.
    set (g1 := emits [Changed] (set_pending (delete k (pending g)) g)).
    destruct (finish_held_smooth o StatusCanceled reason g1) as [o' ->];
      [exact (Forall_lookup_1 _ _ _ _ Hp Ho)|done|].
    cut (whole (emits [Ended o o'] g1)); [by intros []|]. apply whole_emits; [done|]. apply whole_emits; [done|].
    constructor; try done. by apply Forall_delete.
  - unfold decide_. rewrite M_self. cbv zeta. rewrite M_modify.
    assert (Forall decodes (filter (selects id) (pending g))
      ∧ Forall decodes (filter (λ o, ¬ selects id o) (pending g))) as [H1 H2].
    { split; apply Forall_forall; intros o Ho%list_elem_of_filter; rewrite Forall_forall in Hp; apply Hp, Ho. }
    destruct (filter (selects id) (pending g)) as [|c cs] eqn:Hc.
    + by constructor.
    + set (chosen := c :: cs) in *. unfold emit. rewrite !M_modify. apply (whole_emits [Changed]); [done|].
      clearbody chosen. clear Hc. constructor; simpl; [done|done| |].
      * apply Forall_app. split; [done|by apply Forall_singleton].
      * unfold traced in *. simpl. rewrite omap_app, Hl. rewrite (omap_none lost_of); done.
  - simpl in Hs. subst answer. unfold decide_next. rewrite M_self.
    destruct (deciding g !! k) as [[chosen approve]|] eqn:Hk; [|done]. rewrite M_modify.
    pose proof (Forall_lookup_1 _ _ _ _ Hd Hk) as Hch. pose proof (Forall_delete _ k _ Hd) as Hd'.
    simpl in Hch. destruct chosen as [|held rest]; [by constructor|].
    apply Forall_cons in Hch as [Hheld Hrest].
    set (g1 := set_deciding (delete k (deciding g)) g).
    assert (whole g1) as Hg1 by by constructor.
    assert (∃ g2, release held approve None g1 = (g2, Ok tt) ∧ whole g2) as (g2 & Hr & [Ha2 Hp2 Hd2 Hl2]).
    { unfold release. destruct approve; [eexists; split; [reflexivity|by apply whole_emits]|].
      destruct (finish_held_smooth held StatusFailed declined g1 Hheld declined_ok) as [o Ho].
      rewrite Ho. eexists. split; [reflexivity|].
      cut (whole (emits [Ended held o] g1)); [by intros []|]. by apply whole_emits. }
    unfold on_error, mbind, M_bind. rewrite Hr. constructor; try done. simpl.
    apply Forall_app. split; [done|by apply Forall_singleton].
  - unfold forward. rewrite M_self. destruct (forwarding g); try done.
    by apply (whole_emits [Taken o]).
  - unfold deliver_forwarded. rewrite M_self. destruct (forwarding g) as [|u|]; try done.
    by apply (whole_emits [Received true u]).
  - unfold stop_forwarding. rewrite M_self. destruct (done g); [|done].
    destruct (forwarding g) as [|u|]; [by constructor| |done].
    by apply (whole_emits [Dropped u]).
  - unfold deliver_ended. rewrite M_self. destruct (sending g !! k) as [u|]; [|done].
    by apply (whole_emits [Received false u]).
  - by constructor.
  - unfold abandon. rewrite M_self. destruct (sending g !! k) as [u|]; [|done]. destruct (done g); [|done].
    by apply (whole_emits [Abandoned u]).
Qed.

Lemma run_whole actions g : Forall smooth actions → whole g → whole (run actions g).
Proof.
  intros H. revert g. induction H as [|a actions Ha _ IH]; intros g Hg; [done|]. apply IH. by apply act_whole.
Qed.

(** ** Properties *)

(** C11: No command starts that was not let through: whatever the coordinator,
    the user and the manager do, and however their calls interleave, an
    operation that the gate hands to its manager either needed no approval, or
    came when commands are not asked about, or is a held command that an
    approval chose before. *)
Theorem approval_required actions before o by_ after :
  log (run actions newApprovalGate) = before ++ NextAdd o by_ :: after →
  match by_ with
  | ByAdd ask => needs_approval o = false ∨ ask = false
  | ByDecide => Held o ∈ before ∧ Chosen o true ∈ before
  end.
Proof. intros H. eapply (inv_approved _ (run_inv actions _ new_gate_inv)). exact H. Qed.

(** C28: Every held command ends once: at any time the commands that were held
    are those still waiting, those of decisions being carried out, those
    handed to the manager after an approval, those reported as ended, and
    those that a decision which failed left behind, of which there are none
    when the manager refuses nothing and the commands decode; the reports are
    those still being sent, those received and those given up; the manager's
    own updates pass in their order, each that was taken being received, in the
    hands of the goroutine that forwards them or dropped, and only the last one
    can be dropped; and as long as the context of the run is not done, that
    goroutine goes on, and no report is given up and no update dropped. *)
Theorem held_commands_conserved actions :
  let g := run actions newApprovalGate in
  traced held_of g ≡ₚ
    pending g ++ undecided g ++ traced started_of g ++ traced ended_of g ++ traced lost_of g ∧
  (Forall smooth actions → traced lost_of g = []) ∧
  traced report_of g ≡ₚ sending g ++ traced (received_of false) g ++ traced abandoned_of g ∧
  traced taken_of g = traced (received_of true) g ++ in_hand g ++ traced dropped_of g ∧
  (length (traced dropped_of g) ≤ 1)%nat ∧
  (traced dropped_of g ≠ [] → forwarding g = Gone) ∧
  (done g = false → forwarding g ≠ Gone ∧ traced abandoned_of g = [] ∧ traced dropped_of g = []).
Proof.
  intros g. assert (inv g) as [Hh Hr Ht Hd Hf Hg Hl Hp Hc Ha] by exact (run_inv actions _ new_gate_inv).
  split_and!; try done.
  - intros H. by apply (run_whole actions newApprovalGate).
  - intros H. destruct (forwarding g) eqn:E; [| |done]; by destruct H; apply Hf.
  - intros H. assert (forwarding g ≠ Gone) as Hn by (intros E%Hg; congruence). auto.
Qed.

Definition sample_command (id : ID) : Operation :=
  match buildOperation (bash_config.Mk "/bin/sh" "/work" "/ops") ("run " +:+ id) 1000 with
  | Ok spec => new_operation id spec
  | _ => op.Mk 0 id EmptyString 0 EmptyString VNil VNil
  end.

(** Two commands are held, one is approved and one canceled; the manager
    reports twice, and the second report is dropped. *)
Definition gate_actions : list action :=
  [ActAdd (sample_command "a") true None; ActAdd (sample_command "b") true None; ActHold 0; ActHold 0;
   ActDecide "a" true; ActNext 0 None; ActCancel "b" "Stopped." None; ActSend 0;
   ActUpdate (sample_command "a"); ActForward; ActDone; ActUpdate (sample_command "a"); ActStopForward].

Lemma sample_smooth : Forall smooth gate_actions.
Proof.
  repeat constructor; simpl.
  - intros _. eexists. vm_compute. reflexivity.
  - intros _. eexists. vm_compute. reflexivity.
Qed.

Lemma held_commands_conserved_witness :
  let g := run gate_actions newApprovalGate in
  op.ID' <$> traced started_of g = ["a"] ∧ op.ID' <$> traced ended_of g = ["b"] ∧
  op.ID' <$> traced taken_of g = ["a"; "a"] ∧ op.ID' <$> traced dropped_of g = ["a"] ∧
  Forall smooth gate_actions ∧
  traced held_of g ≡ₚ
    pending g ++ undecided g ++ traced started_of g ++ traced ended_of g ++ traced lost_of g ∧
  (Forall smooth gate_actions → traced lost_of g = []) ∧
  traced report_of g ≡ₚ sending g ++ traced (received_of false) g ++ traced abandoned_of g ∧
  traced taken_of g = traced (received_of true) g ++ in_hand g ++ traced dropped_of g ∧
  (length (traced dropped_of g) ≤ 1)%nat ∧
  (traced dropped_of g ≠ [] → forwarding g = Gone) ∧
  (done g = false → forwarding g ≠ Gone ∧ traced abandoned_of g = [] ∧ traced dropped_of g = []).
Proof.
  intros g. do 4 (split; [vm_compute; reflexivity|]).
  split; [exact sample_smooth|]. exact (held_commands_conserved gate_actions).
Defined.

Lemma approval_required_witness :
  ∃ before after,
    log (run gate_actions newApprovalGate) = before ++ NextAdd (sample_command "a") ByDecide :: after ∧
    Held (sample_command "a") ∈ before ∧ Chosen (sample_command "a") true ∈ before.
Proof.
  assert (∃ before after,
    log (run gate_actions newApprovalGate) = before ++ NextAdd (sample_command "a") ByDecide :: after)
    as (before & after & H).
  { exists (take 6 (log (run gate_actions newApprovalGate))), (drop 7 (log (run gate_actions newApprovalGate))).
    vm_compute. reflexivity. }
  exists before, after. split; [exact H|]. exact (approval_required gate_actions before _ ByDecide after H).
Defined.

(** The model is told what became of a command that did not run: a command
    of the Bash tool that is held is shown to the user as it was asked for,
    and when it is declined or canceled, the report keeps its identity, has the
    status given and is one from which the Bash tool makes a result that says
    why. *)
Theorem held_command_reported config command limit spec id status reason callID s :
  buildOperation config command limit = Ok spec → stopped_status status = true →
  string_ok reason = true → status.Error s = EmptyString →
  let held := new_operation id spec in
  needs_approval held = true ∧ command_of held = command ∧
  ∃ o, finish held status reason = Ok o ∧ same_identity held o ∧ op.Status' o = status ∧
    bash_TranslateResult callID s [o]
    = Ok (text_result callID ("Error: " +:+
        (if nonempty (TrimSpace reason) then TrimSpace reason else "shell operation " +:+ status))).
Proof.
  intros Hb Hst Hr He held. subst held. destruct (made_state _ _ _ _ id Hb) as (Hs & Hwf & v & -> & Hn).
  cbv zeta in Hs. set (st := initial_state _ _) in *. set (held := new_operation id _) in *.
  split; [done|]. split; [unfold command_of; by rewrite Hs|].
  destruct (finished_state_encodes _ _ reason Hs Hr) as [j Hj].
  revert Hj. generalize (VText j) as report. intros report Hj.
  exists (op.set_state (report) (op.set_status status held)).
  split; [unfold finish; rewrite Hs; simpl; by rewrite Hj|]. split; [apply same_identity_set|]. split; [done|].
  assert (DecodeShellState (op.set_state (report) (op.set_status status held)) = Ok (finished_state reason st)) as Hd.
  { unfold DecodeShellState. simpl. rewrite Hn. simpl.
    by rewrite (Unmarshal_Marshal ShellState_codec (finished_state reason st) _ (wf_jok _ _ Hwf) Hj). }
  exact (finished_result callID s (op.set_state report (op.set_status status held)) (finished_state reason st) He Hst eq_refl Hd eq_refl).
Qed.

Lemma held_command_reported_witness :
  ∃ spec, buildOperation (bash_config.Mk "/bin/sh" "/work" "/ops") "rm -rf build" 1000 = Ok spec ∧
  let held := new_operation "op" spec in
  needs_approval held = true ∧ command_of held = "rm -rf build" ∧
  ∃ o, finish held StatusFailed declined = Ok o ∧ same_identity held o ∧ op.Status' o = StatusFailed ∧
    bash_TranslateResult "call" (waiting_status ["op"]) [o]
    = Ok (text_result "call" ("Error: " +:+
        (if nonempty (TrimSpace declined) then TrimSpace declined else "shell operation " +:+ StatusFailed))).
Proof.
  eexists. split; [vm_compute; reflexivity|].
  apply (held_command_reported (bash_config.Mk "/bin/sh" "/work" "/ops") "rm -rf build" 1000);
    vm_compute; reflexivity.
Defined.

