(* ===== verification/GuiConfig.v ===== *)
(** * The configuration of the application: gui/config.go

    The table of providers, which one a configuration selects, how an update
    is applied, and what of a configuration the browser is shown.  The
    environment of the process is an argument, and so are what the file
    system says of a workspace and what the constructor of a provider's
    client returns.  A nil map reads as an empty one; the maps of an update
    are lists, in the order in which the loop over them goes. *)

From Stdlib Require Import Ascii ZArith Lia.
From S2P Require Import Prelude GoStrings GoText Utf8Facts TextFacts Llm Approvals.

Local Open Scope Z_scope.

Definition secretMask : string := "••••••••".

Definition thinkingLevels : list string := ["low"; "medium"; "high"; "xhigh"; "max"].

Module config.
Record Config : Type := Mk {
  Provider : string;
  Models : gmap string string;
  BaseURLs : gmap string string;
  APIKeys : gmap string string;
  Thinking : string;
  WebSearch : bool;
  Workspace : string;
  Instructions : string;
  Env : gmap string string;
  Permission : string;
  Enabled : gmap string bool }.

Definition set_Models (m : gmap string string) (c : Config) : Config :=
  Mk (Provider c) m (BaseURLs c) (APIKeys c) (Thinking c) (WebSearch c) (Workspace c) (Instructions c) (Env c)
    (Permission c) (Enabled c).
Definition set_BaseURLs (m : gmap string string) (c : Config) : Config :=
  Mk (Provider c) (Models c) m (APIKeys c) (Thinking c) (WebSearch c) (Workspace c) (Instructions c) (Env c)
    (Permission c) (Enabled c).
Definition set_APIKeys (m : gmap string string) (c : Config) : Config :=
  Mk (Provider c) (Models c) (BaseURLs c) m (Thinking c) (WebSearch c) (Workspace c) (Instructions c) (Env c)
    (Permission c) (Enabled c).
Definition set_Provider (p : string) (c : Config) : Config :=
  Mk p (Models c) (BaseURLs c) (APIKeys c) (Thinking c) (WebSearch c) (Workspace c) (Instructions c) (Env c)
    (Permission c) (Enabled c).
Definition set_Thinking (t : string) (c : Config) : Config :=
  Mk (Provider c) (Models c) (BaseURLs c) (APIKeys c) t (WebSearch c) (Workspace c) (Instructions c) (Env c)
    (Permission c) (Enabled c).
Definition set_WebSearch (b : bool) (c : Config) : Config :=
  Mk (Provider c) (Models c) (BaseURLs c) (APIKeys c) (Thinking c) b (Workspace c) (Instructions c) (Env c)
    (Permission c) (Enabled c).
Definition set_Workspace (w : string) (c : Config) : Config :=
  Mk (Provider c) (Models c) (BaseURLs c) (APIKeys c) (Thinking c) (WebSearch c) w (Instructions c) (Env c)
    (Permission c) (Enabled c).
Definition set_Instructions (i : string) (c : Config) : Config :=
  Mk (Provider c) (Models c) (BaseURLs c) (APIKeys c) (Thinking c) (WebSearch c) (Workspace c) i (Env c)
    (Permission c) (Enabled c).
Definition set_Permission (p : string) (c : Config) : Config :=
  Mk (Provider c) (Models c) (BaseURLs c) (APIKeys c) (Thinking c) (WebSearch c) (Workspace c) (Instructions c)
    (Env c) p (Enabled c).
Definition set_Enabled (m : gmap string bool) (c : Config) : Config :=
  Mk (Provider c) (Models c) (BaseURLs c) (APIKeys c) (Thinking c) (WebSearch c) (Workspace c) (Instructions c)
    (Env c) (Permission c) m.
Definition set_Env (m : gmap string string) (c : Config) : Config :=
  Mk (Provider c) (Models c) (BaseURLs c) (APIKeys c) (Thinking c) (WebSearch c) (Workspace c) (Instructions c) m
    (Permission c) (Enabled c).
End config.
Abbreviation Config := config.Config.

Module update.
Record configUpdate : Type := Mk {
  Provider : option string;
  Models : list (string * string);
  BaseURLs : list (string * string);
  APIKeys : list (string * string);
  Thinking : option string;
  WebSearch : option bool;
  Workspace : option string;
  Instructions : option string;
  Env : option (list (string * string));
  Permission : option string;
  Enabled : option (list (string * bool)) }.
End update.
Abbreviation configUpdate := update.configUpdate.

(** ** Providers *)

(** The constructor that [newClient] calls. *)
Inductive client_kind : Set := ClientOpenRouter | ClientOpenAI | ClientCodex | ClientFireworks | ClientOllama.

Module moption.
Record modelOption : Set := Mk { ID : string; Label : string }.
End moption.
Abbreviation modelOption := moption.modelOption.

Module provider.
Record provider : Set := Mk {
  Name : string; Label : string; BaseURL : string; KeyEnv : string; Models : list modelOption;
  Catalog : bool; HostedSearch : bool; newClient : client_kind }.
End provider.
Abbreviation provider := provider.provider.

(** openaicodex.BaseURL and ollama.BaseURL *)
Definition codex_BaseURL : string := "https://chatgpt.com/backend-api/codex".
Definition ollama_BaseURL : string := "http://localhost:11434/v1".

Definition providers : list provider := [
  provider.Mk "openrouter" "OpenRouter" "https://openrouter.ai/api/v1" "OPENROUTER_API_KEY"
    [moption.Mk "nvidia/nemotron-3-super-120b-a12b:free" "Nemotron 3 Super · free";
     moption.Mk "openai/gpt-6-astra" "GPT-6 Astra · best"] true false ClientOpenRouter;
  provider.Mk "openai" "OpenAI" "https://api.openai.com/v1" "OPENAI_API_KEY"
    [moption.Mk "gpt-6-luna" "GPT-6 Luna · cheaper"; moption.Mk "gpt-6-astra" "GPT-6 Astra · best"]
    true true ClientOpenAI;
  provider.Mk "openai-codex" "ChatGPT (Codex login)" codex_BaseURL EmptyString
    [moption.Mk "gpt-6-sol" "GPT-6 Sol"; moption.Mk "gpt-6-astra" "GPT-6 Astra · best"] false true ClientCodex;
  provider.Mk "fireworks" "Fireworks" "https://api.fireworks.ai/inference/v1" "FIREWORKS_API_KEY" []
    true false ClientFireworks;
  provider.Mk "ollama" "Ollama (local)" ollama_BaseURL EmptyString [] true false ClientOllama].

Definition providerNamed (name : string) : option provider :=
  find (λ p, bool_decide (provider.Name p = name)) providers.

(** The process and its file system, as far as a configuration depends on
    them: os.Getenv, os.UserHomeDir, os.Getwd, and whether os.Stat finds a
    directory. *)
Record system : Type := MkSystem {
  getenv : string → string;
  UserHomeDir : result string;
  Getwd : result string;
  is_dir : string → bool;
}.

(** What [view] returns: the members of the object. *)
Module cview.
Record view : Type := Mk {
  provider : string;
  available : list string;
  selected : gmap string string;
  permission : string;
  enabled : gmap string bool;
  models : gmap string string;
  base_urls : gmap string string;
  key_status : gmap string string;
  thinking : string;
  web_search : bool;
  workspace : string;
  instructions : string;
  env : gmap string string }.
End cview.

Section System.
Context (sys : system).

Definition blank_string (s : string) : bool := bool_decide (s = EmptyString).

Definition at_key (m : gmap string string) (key : string) : string := default EmptyString (m !! key).

Definition baseURL (p : provider) (cfg : Config) : string :=
  let override := TrimSpace (at_key (config.BaseURLs cfg) (provider.Name p)) in
  if negb (blank_string override) then override else provider.BaseURL p.

Definition apiKey (p : provider) (cfg : Config) : string :=
  let key := TrimSpace (at_key (config.APIKeys cfg) (provider.Name p)) in
  if negb (blank_string key) then key
  else if negb (blank_string (provider.KeyEnv p)) then TrimSpace (getenv sys (provider.KeyEnv p))
  else EmptyString.

Definition model_of (p : provider) (cfg : Config) : string :=
  let chosen := TrimSpace (at_key (config.Models cfg) (provider.Name p)) in
  if negb (blank_string chosen) then chosen
  else match provider.Models p with o :: _ => moption.ID o | [] => EmptyString end.

Definition available (p : provider) (cfg : Config) : bool :=
  if negb (blank_string (provider.KeyEnv p)) then negb (blank_string (apiKey p cfg))
  else default false (config.Enabled cfg !! provider.Name p).

Definition selectedProvider (cfg : Config) : option provider :=
  let first := find (λ p, available p cfg) providers in
  match providerNamed (config.Provider cfg) with
  | Some p => if available p cfg then Some p else first
  | None => first
  end.

(** [newClient] is what the constructor of the kind returns for a key and a
    base URL. *)
Definition connect {C} (newClient : client_kind → string → string → result C) (p : provider) (cfg : Config)
    : result C :=
  let key := apiKey p cfg in
  if negb (blank_string (provider.KeyEnv p)) && blank_string key then
    Err (errors_New (provider.Label p +:+ " needs an API key: add it in Settings or set " +:+ provider.KeyEnv p))
  else map_err (Errorf_w ("connect to " +:+ provider.Label p +:+ ": "))
         (newClient (provider.newClient p) key (baseURL p cfg)).

Definition defaultConfig : Config :=
  let home := match UserHomeDir sys with Ok h => h | _ => EmptyString end in
  config.Mk "openrouter" ∅ ∅ ∅ "high" true (filepath.Join [home; "UnrealAgent"]) EmptyString ∅ permissionAsk ∅.

(** ** What the browser is shown *)

Definition key_status (cfg : Config) : gmap string string :=
  fold_left (λ keys p,
    let name := provider.Name p in
    if negb (blank_string (TrimSpace (at_key (config.APIKeys cfg) name))) then <[name := "saved"]> keys
    else if negb (blank_string (provider.KeyEnv p)) && negb (blank_string (getenv sys (provider.KeyEnv p))) then
      <[name := "env"]> keys
    else keys) providers ∅.

Definition view (cfg : Config) : cview.view :=
  cview.Mk
    (match selectedProvider cfg with Some p => provider.Name p | None => EmptyString end)
    (provider.Name <$> filter (λ p, available p cfg = true) providers)
    (fold_left (λ m p, <[provider.Name p := model_of p cfg]> m) providers ∅)
    (config.Permission cfg) (config.Enabled cfg) (config.Models cfg) (config.BaseURLs cfg)
    (key_status cfg) (config.Thinking cfg) (config.WebSearch cfg) (config.Workspace cfg)
    (config.Instructions cfg) ((λ _, secretMask) <$> config.Env cfg).

(** ** Updates *)

Definition mergeStrings (current : gmap string string) (update : list (string * string)) : gmap string string :=
  fold_left (λ merged '(key, value),
    let value := TrimSpace value in
    if blank_string value then delete key merged else <[key := value]> merged) update current.

Definition merge_key (keys : gmap string string) '(name, key) : gmap string string :=
  let key := TrimSpace key in
  if blank_string key || bool_decide (key = secretMask) then keys
  else if bool_decide (key = "-") then delete name keys
  else <[name := key]> keys.

Definition tail_of_home (path : string) : string :=
  match path with String _ rest => rest | EmptyString => EmptyString end.

Definition filepath_Abs (path : string) : result string :=
  if filepath.IsAbs path then Ok (filepath.Clean path)
  else wd ← Getwd sys; Ok (filepath.Join [wd; path]).

Definition resolveWorkspace (path : string) : result string :=
  let path := TrimSpace path in
  path ← (if bool_decide (path = "~") || HasPrefix path "~/" then
            home ← UserHomeDir sys; Ok (filepath.Join [home; tail_of_home path])
          else Ok path);
  if blank_string path then Err (errors_New "workspace must be set")
  else
    absolute ← filepath_Abs path;
    if negb (is_dir sys absolute) then
      Err (errors_New ("workspace " +:+ quote absolute +:+ " is not a directory"))
    else Ok absolute.

(** [strings.ContainsAny(name, "= \t\n")] *)
Definition contains_separator (name : string) : bool :=
  existsb (λ c, bool_decide (c ∈ ["="%char; " "%char; "009"%char; "010"%char])) (to_bytes name).

Fixpoint apply_env (stored : gmap string string) (update : list (string * string)) (next : gmap string string)
    : result (gmap string string) :=
  match update with
  | [] => Ok next
  | (name, value) :: rest =>
    let name := TrimSpace name in
    if blank_string name || contains_separator name then
      Err (errors_New ("invalid environment variable name " +:+ quote name))
    else
      let value := if bool_decide (value = secretMask) then at_key stored name else value in
      apply_env stored rest (<[name := value]> next)
  end.

(** [if update.F != nil { ... }] *)
Definition when_set {A} (field : option A) (f : A → Config → result Config) (next : Config) : result Config :=
  match field with Some a => f a next | None => Ok next end.

Definition apply_ (cfg : Config) (update : configUpdate) : result Config :=
  let next := config.set_Models (mergeStrings (config.Models cfg) (update.Models update)) cfg in
  let next := config.set_BaseURLs (mergeStrings (config.BaseURLs cfg) (update.BaseURLs update)) next in
  let next := config.set_APIKeys (fold_left merge_key (update.APIKeys update) (config.APIKeys cfg)) next in
  next ← when_set (update.Provider update) (λ name next,
    match providerNamed name with
    | None => Err (errors_New ("unknown provider " +:+ quote name))
    | Some _ => Ok (config.set_Provider name next)
    end) next;
  next ← when_set (update.Thinking update) (λ t next,
    if negb (bool_decide (t ∈ thinkingLevels)) then
      Err (errors_New ("thinking must be one of " +:+ Join thinkingLevels ", "))
    else Ok (config.set_Thinking t next)) next;
  next ← when_set (update.WebSearch update) (λ b next, Ok (config.set_WebSearch b next)) next;
  next ← when_set (update.Workspace update) (λ w next,
    workspace ← resolveWorkspace w; Ok (config.set_Workspace workspace next)) next;
  next ← when_set (update.Instructions update) (λ i next,
    Ok (config.set_Instructions (TrimSpace i) next)) next;
  next ← when_set (update.Permission update) (λ p next,
    if negb (bool_decide (p = permissionAsk)) && negb (bool_decide (p = permissionAuto)) then
      Err (errors_New ("permission must be " +:+ quote permissionAsk +:+ " or " +:+ quote permissionAuto))
    else Ok (config.set_Permission p next)) next;
  next ← when_set (update.Enabled update) (λ l next,
    Ok (config.set_Enabled (fold_left (λ m '(name, on), <[name := on]> m) l (config.Enabled cfg)) next)) next;
  when_set (update.Env update) (λ l next,
    env ← apply_env (config.Env cfg) l ∅; Ok (config.set_Env env next)) next.

End System.

(** ** Selection *)

Lemma find_found {A} (f : A → bool) l x : find f l = Some x → x ∈ l ∧ f x = true.
Proof. intros H. apply find_some in H as [H1 H2]. split; [by apply list_elem_of_In|done]. Qed.

Lemma find_ext {A} (f g : A → bool) l : (∀ x, f x = g x) → find f l = find g l.
Proof. intros H. induction l as [|x l IH]; [done|]. simpl. rewrite H, IH. done. Qed.

Lemma fold_left_ext {A B} (f g : A → B → A) l a : (∀ a b, f a b = g a b) → fold_left f l a = fold_left g l a.
Proof. intros H. revert a. induction l as [|b l IH]; intros a; [done|]. simpl. by rewrite H, IH. Qed.

Lemma providerNamed_some name p : providerNamed name = Some p → p ∈ providers ∧ provider.Name p = name.
Proof. intros [H1 H2]%find_found. by apply bool_decide_eq_true in H2. Qed.

Lemma available_key sys p cfg :
  available sys p cfg = true → blank_string (provider.KeyEnv p) = false → blank_string (apiKey sys p cfg) = false.
Proof. unfold available. intros H Hk. rewrite Hk in H. simpl in H. by destruct (blank_string (apiKey sys p cfg)). Qed.

(** The selected provider can be used: it is one of the table that is
    available, the configured one whenever that is available; there is none
    only when none is available; and connecting to it fails only when the
    constructor of its client does. *)
Theorem selected_provider_usable sys cfg :
  match selectedProvider sys cfg with
  | Some p =>
    p ∈ providers ∧ available sys p cfg = true ∧
    (∀ q, providerNamed (config.Provider cfg) = Some q → available sys q cfg = true → p = q) ∧
    ∀ C (newClient : client_kind → string → string → result C),
      is_ok (connect sys newClient p cfg)
      = is_ok (newClient (provider.newClient p) (apiKey sys p cfg) (baseURL p cfg))
  | None => ∀ p, p ∈ providers → available sys p cfg = false
  end.
Proof.
  assert (∀ p C (newClient : client_kind → string → string → result C), available sys p cfg = true →
    is_ok (connect sys newClient p cfg)
    = is_ok (newClient (provider.newClient p) (apiKey sys p cfg) (baseURL p cfg))) as Hconnect.
  { intros p C newClient Ha. unfold connect. cbv zeta. destruct (blank_string (provider.KeyEnv p)) eqn:Hk.
    - simpl. by destruct (newClient _ _ _).
    - rewrite (available_key _ _ _ Ha Hk). simpl. by destruct (newClient _ _ _). }
  assert (∀ p, find (λ p, available sys p cfg) providers = Some p → p ∈ providers ∧ available sys p cfg = true)
    as Hfirst by (intros p; apply (find_found (λ p, available sys p cfg))).
  unfold selectedProvider. cbv zeta.
  destruct (providerNamed (config.Provider cfg)) as [q|] eqn:Hq.
  - destruct (providerNamed_some _ _ Hq) as [Hin _]. destruct (available sys q cfg) eqn:Ha.
    + split; [done|]. split; [done|]. split; [by intros ? [= ->]|]. intros. by apply Hconnect.
    + destruct (find _ providers) as [p|] eqn:Hf.
      * destruct (Hfirst p eq_refl) as [H1 H2]. split; [done|]. split; [done|].
        split; [intros ? [= ->]; congruence|]. intros. by apply Hconnect.
      * intros p Hp. apply (find_none _ _ Hf). by apply list_elem_of_In.
  - destruct (find _ providers) as [p|] eqn:Hf.
    + destruct (Hfirst p eq_refl) as [H1 H2]. split; [done|]. split; [done|].
      split; [done|]. intros. by apply Hconnect.
    + intros p Hp. apply (find_none _ _ Hf). by apply list_elem_of_In.
Qed.

(** ** Secrets *)

(** Configurations that differ in nothing but the values of keys and of
    environment variables. *)
Record same_but_secrets (cfg cfg' : Config) : Prop := {
  same_Provider : config.Provider cfg = config.Provider cfg';
  same_Models : config.Models cfg = config.Models cfg';
  same_BaseURLs : config.BaseURLs cfg = config.BaseURLs cfg';
  same_Thinking : config.Thinking cfg = config.Thinking cfg';
  same_WebSearch : config.WebSearch cfg = config.WebSearch cfg';
  same_Workspace : config.Workspace cfg = config.Workspace cfg';
  same_Instructions : config.Instructions cfg = config.Instructions cfg';
  same_Permission : config.Permission cfg = config.Permission cfg';
  same_Enabled : config.Enabled cfg = config.Enabled cfg';
  same_keys : ∀ name, blank_string (TrimSpace (at_key (config.APIKeys cfg) name))
    = blank_string (TrimSpace (at_key (config.APIKeys cfg') name));
  same_env : dom (config.Env cfg) = dom (config.Env cfg');
}.

(** Processes whose environments set the same variables to something. *)
Definition same_variables (sys sys' : system) : Prop :=
  ∀ name, blank_string (getenv sys name) = blank_string (getenv sys' name) ∧
    blank_string (TrimSpace (getenv sys name)) = blank_string (TrimSpace (getenv sys' name)).

Lemma apiKey_blank sys sys' p cfg cfg' :
  same_variables sys sys' → same_but_secrets cfg cfg' →
  blank_string (apiKey sys p cfg) = blank_string (apiKey sys' p cfg').
Proof.
  intros Hv Hs. unfold apiKey. cbv zeta. pose proof (same_keys _ _ Hs (provider.Name p)) as Hk.
  rewrite <- Hk. destruct (blank_string (TrimSpace (at_key (config.APIKeys cfg) _))) eqn:E; simpl.
  - destruct (blank_string (provider.KeyEnv p)); [done|]. apply Hv.
  - congruence.
Qed.

Lemma available_same sys sys' p cfg cfg' :
  same_variables sys sys' → same_but_secrets cfg cfg' → available sys p cfg = available sys' p cfg'.
Proof.
  intros Hv Hs. unfold available. rewrite (apiKey_blank sys sys' p cfg cfg' Hv Hs).
  by rewrite (same_Enabled _ _ Hs).
Qed.

Lemma filter_same {A} (f g : A → bool) (l : list A) :
  (∀ x, f x = g x) → filter (λ x, f x = true) l = filter (λ x, g x = true) l.
Proof. intros H. apply list_filter_iff. intros x. by rewrite H. Qed.

(** The browser learns nothing of a secret: what it is shown of a
    configuration is determined by everything but the keys and the values of
    the environment variables, of which it sees only which are set. *)
Theorem view_hides_secrets sys sys' cfg cfg' :
  same_variables sys sys' → same_but_secrets cfg cfg' → view sys cfg = view sys' cfg'.
Proof.
  intros Hv Hs. pose proof (λ p, available_same sys sys' p cfg cfg' Hv Hs) as Ha.
  unfold view. f_equal; try apply Hs.
  - unfold selectedProvider. cbv zeta. rewrite (same_Provider _ _ Hs).
    rewrite (find_ext _ _ providers Ha). destruct (providerNamed _) as [p|]; [|done]. by rewrite Ha.
  - f_equal. by apply filter_same.
  - apply fold_left_ext. intros m p. unfold model_of. by rewrite (same_Models _ _ Hs).
  - unfold key_status. apply fold_left_ext. intros m p. cbv zeta. rewrite (same_keys _ _ Hs).
    by destruct (Hv (provider.KeyEnv p)) as [-> _].
  - apply map_eq. intros name. rewrite !lookup_fmap. pose proof (same_env _ _ Hs) as Hd.
    destruct (config.Env cfg !! name) eqn:E1, (config.Env cfg' !! name) eqn:E2; try done.
    + apply not_elem_of_dom in E2. rewrite <- Hd in E2. by apply elem_of_dom_2 in E1.
    + apply not_elem_of_dom in E1. rewrite Hd in E1. by apply elem_of_dom_2 in E2.
Qed.

Definition sample_system : system :=
  MkSystem (λ _, EmptyString) (Ok "/home/u") (Ok "/home/u") (λ _, true).

Definition sample_config (key : string) : Config :=
  config.set_Env {["TOKEN" := key]} (config.set_APIKeys {["openai" := key]} (defaultConfig sample_system)).

Lemma sample_key key name :
  at_key (config.APIKeys (sample_config key)) name = if decide (name = "openai") then key else EmptyString.
Proof.
  change (config.APIKeys (sample_config key)) with ({["openai" := key]} : gmap string string). unfold at_key.
  destruct (decide (name = "openai")) as [->|Hn];
    [by rewrite lookup_singleton_eq|by rewrite lookup_singleton_ne by congruence].
Qed.

Lemma view_hides_secrets_witness :
  same_variables sample_system sample_system ∧ same_but_secrets (sample_config "sk-1") (sample_config "sk-2") ∧
  view sample_system (sample_config "sk-1") = view sample_system (sample_config "sk-2").
Proof.
  assert (same_but_secrets (sample_config "sk-1") (sample_config "sk-2")) as H.
  { constructor; try reflexivity.
    intros name. rewrite !sample_key. by destruct (decide (name = "openai")). }
  split; [by intros name|]. split; [exact H|].
  apply view_hides_secrets; [by intros name|exact H].
Defined.

(** ** What every update keeps *)

Definition trimmed (s : string) : Prop := TrimSpace s = s ∧ blank_string s = false.

Definition variable_name (name : string) : Prop := trimmed name ∧ contains_separator name = false.

Record config_ok (cfg : Config) : Prop := {
  ok_Provider : is_Some (providerNamed (config.Provider cfg));
  ok_Models : map_Forall (λ _, trimmed) (config.Models cfg);
  ok_BaseURLs : map_Forall (λ _, trimmed) (config.BaseURLs cfg);
  ok_APIKeys : map_Forall (λ _ key, trimmed key ∧ key ≠ secretMask ∧ key ≠ "-") (config.APIKeys cfg);
  ok_Thinking : config.Thinking cfg ∈ thinkingLevels;
  ok_Instructions : TrimSpace (config.Instructions cfg) = config.Instructions cfg;
  ok_Env : map_Forall (λ name value, variable_name name ∧ value ≠ secretMask) (config.Env cfg);
  ok_Permission : config.Permission cfg = permissionAsk ∨ config.Permission cfg = permissionAuto;
}.

Lemma trimmed_TrimSpace s : blank_string (TrimSpace s) = false → trimmed (TrimSpace s).
Proof. intros H. split; [apply TrimSpace_idem|done]. Qed.

Lemma map_Forall_fold {A V} (P : string → V → Prop) (f : gmap string V → A → gmap string V) l m :
  map_Forall P m → (∀ m x, map_Forall P m → map_Forall P (f m x)) → map_Forall P (fold_left f l m).
Proof. intros Hm Hf. revert m Hm. induction l as [|x l IH]; intros m Hm; [done|]. apply IH. by apply Hf. Qed.

Lemma mergeStrings_ok current update :
  map_Forall (λ _ : string, trimmed) current → map_Forall (λ _, trimmed) (mergeStrings current update).
Proof.
  intros H. apply map_Forall_fold; [done|]. intros m [key value] Hm. cbv zeta.
  destruct (blank_string (TrimSpace value)) eqn:E; [by apply map_Forall_delete|].
  apply map_Forall_insert_2; [by apply trimmed_TrimSpace|done].
Qed.

Lemma merge_key_ok keys update :
  map_Forall (λ _ key, trimmed key ∧ key ≠ secretMask ∧ key ≠ "-") keys →
  map_Forall (λ _ key, trimmed key ∧ key ≠ secretMask ∧ key ≠ "-") (fold_left merge_key update keys).
Proof.
  intros H. apply map_Forall_fold; [done|]. intros m [name key] Hm. unfold merge_key. cbv zeta.
  destruct (blank_string (TrimSpace key)) eqn:E; simpl; [done|].
  case_bool_decide; [done|]. case_bool_decide; [by apply map_Forall_delete|].
  apply map_Forall_insert_2; [|done]. split; [by apply trimmed_TrimSpace|done].
Qed.

Lemma apply_env_ok stored update next env :
  map_Forall (λ name value, variable_name name ∧ value ≠ secretMask) stored →
  map_Forall (λ name value, variable_name name ∧ value ≠ secretMask) next →
  apply_env stored update next = Ok env →
  map_Forall (λ name value, variable_name name ∧ value ≠ secretMask) env.
Proof.
  intros Hs. revert next. induction update as [|[name value] update IH]; intros next Hn H; simpl in H;
    [by injection H as <-|].
  if_in H; [done|]. apply orb_false_iff in Hif as [H1 H2].
  apply IH in H; [done|]. apply map_Forall_insert_2; [|done].
  split; [split; [by apply trimmed_TrimSpace|done]|].
  case_bool_decide as Hm; [|done]. unfold at_key.
  destruct (stored !! TrimSpace name) as [v|] eqn:E; [|done]. simpl. by destruct (map_Forall_lookup_1 _ _ _ _ Hs E).
Qed.

Lemma when_set_keeps {A} (P : Config → Prop) (field : option A) f next c :
  when_set field f next = Ok c → P next → (∀ a, f a next = Ok c → P c) → P c.
Proof. unfold when_set. destruct field as [a|]; [intros H _ Hf; by apply (Hf a)|by intros [= ->]]. Qed.

(** An update leaves the configuration in order, and a rejected one leaves
    it alone: when [apply] accepts an update of a configuration whose provider
    is known, whose thinking level and permission are of those allowed, whose
    keys, models and addresses are trimmed texts and whose variables have names
    a shell accepts, the result is such a configuration, and neither a key nor
    a variable ever holds the mask that the browser is shown for it. *)
Theorem apply_keeps_config_ok sys cfg update next :
  config_ok cfg → apply_ sys cfg update = Ok next → config_ok next.
Proof.
  intros [Hp Hm Hb Hk Ht Hi He Hq] H. unfold apply_ in H. cbv zeta in H.
  set (merged := config.set_APIKeys _ _) in H.
  assert (config_ok merged) as Hok.
  { constructor; try done; simpl; auto using mergeStrings_ok. by apply merge_key_ok. }
  clearbody merged.
  apply bind_ok in H as (c1 & H1 & H). apply bind_ok in H as (c2 & H2 & H).
  apply bind_ok in H as (c3 & H3 & H). apply bind_ok in H as (c4 & H4 & H).
  apply bind_ok in H as (c5 & H5 & H). apply bind_ok in H as (c6 & H6 & H).
  apply bind_ok in H as (c7 & H7 & H).
  apply (when_set_keeps config_ok _ _ _ _ H1) in Hok;
    [|intros name; destruct (providerNamed name) eqn:En; [intros [= <-]|done];
      destruct Hok; constructor; simpl; try done; by rewrite En].
  apply (when_set_keeps config_ok _ _ _ _ H2) in Hok;
    [|intros t Ht'; if_in Ht'; [injection Ht' as <-; destruct Hok; by constructor|done]].
  apply (when_set_keeps config_ok _ _ _ _ H3) in Hok;
    [|intros b [= <-]; destruct Hok; by constructor].
  apply (when_set_keeps config_ok _ _ _ _ H4) in Hok;
    [|intros w (w' & _ & [= <-])%bind_ok; destruct Hok; by constructor].
  apply (when_set_keeps config_ok _ _ _ _ H5) in Hok;
    [|intros i [= <-]; destruct Hok; constructor; try done; apply TrimSpace_idem].
  apply (when_set_keeps config_ok _ _ _ _ H6) in Hok.
  2: { intros p Hp'. destruct (decide (p = permissionAsk)) as [->|H61];
       [|destruct (decide (p = permissionAuto)) as [->|H62]].
       - injection Hp' as <-. destruct Hok. constructor; try done. by left.
       - injection Hp' as <-. destruct Hok. constructor; try done. by right.
       - by rewrite !bool_decide_false in Hp' by done. }
  apply (when_set_keeps config_ok _ _ _ _ H7) in Hok;
    [|intros l [= <-]; destruct Hok; by constructor].
  apply (when_set_keeps config_ok _ _ _ _ H); [done|].
  intros l (env & Henv & [= <-])%bind_ok. destruct Hok. constructor; try done.
  simpl. eapply apply_env_ok; [| |exact Henv]; [exact He|apply map_Forall_empty].
Qed.

Lemma default_config_ok : config_ok (defaultConfig sample_system).
Proof.
  constructor; simpl.
  - vm_compute. by eexists.
  - apply map_Forall_empty.
  - apply map_Forall_empty.
  - apply map_Forall_empty.
  - do 2 right. left.
  - vm_compute. reflexivity.
  - apply map_Forall_empty.
  - by left.
Qed.

Definition sample_update : configUpdate :=
  update.Mk (Some "openai") [("openai", " gpt-6-luna ")] [] [("openai", " sk-1 ")] None (Some false) None None
    (Some [(" TOKEN ", "secret")]) (Some "auto") None.

Lemma apply_keeps_config_ok_witness :
  ∃ next, apply_ sample_system (defaultConfig sample_system) sample_update = Ok next ∧
    config.APIKeys next !! "openai" = Some "sk-1" ∧ config_ok next.
Proof.
  eexists. split; [vm_compute; reflexivity|]. split; [vm_compute; reflexivity|].
  apply (apply_keeps_config_ok sample_system (defaultConfig sample_system) sample_update);
    [exact default_config_ok|vm_compute; reflexivity].
Defined.

(** *** What the browser sends back *)

(** An update with the values that the view shows, the masks included. *)
Definition resend (v : cview.view) : configUpdate :=
  update.Mk None (map_to_list (cview.models v)) (map_to_list (cview.base_urls v))
    ((λ p, (provider.Name p, secretMask)) <$> providers) (Some (cview.thinking v)) (Some (cview.web_search v))
    None (Some (cview.instructions v)) (Some (map_to_list (cview.env v))) (Some (cview.permission v))
    (Some (map_to_list (cview.enabled v))).

Lemma fold_unchanged {A B} (f : A → B → A) l a : (∀ b, b ∈ l → f a b = a) → fold_left f l a = a.
Proof.
  induction l as [|b l IH]; intros H; [done|]. simpl. rewrite H by (by left). apply IH.
  intros b' Hb. apply H. by right.
Qed.

Lemma mergeStrings_same (m : gmap string string) :
  map_Forall (λ _, trimmed) m → mergeStrings m (map_to_list m) = m.
Proof.
  intros Hm. apply fold_unchanged. intros [key value] Hin%elem_of_map_to_list.
  destruct (map_Forall_lookup_1 _ _ _ _ Hm Hin) as [H1 H2]. cbv zeta. rewrite H1, H2. by apply insert_id.
Qed.

Lemma apply_env_masked stored names next :
  Forall (λ name, variable_name name ∧ is_Some (stored !! name)) names →
  ∃ env, apply_env stored ((λ name, (name, secretMask)) <$> names) next = Ok env ∧
    ∀ name, env !! name = if decide (name ∈ names) then stored !! name else next !! name.
Proof.
  intros H. revert next. induction H as [|name names [[[Ht Hb] Hc] [v Hv]] _ IH]; intros next.
  - exists next. split; [done|]. intros name. by rewrite decide_False by apply not_elem_of_nil.
  - cbn [fmap list_fmap apply_env]. cbv zeta. rewrite Ht, Hb, Hc. simpl.
    unfold at_key. rewrite Hv. simpl. destruct (IH (<[name := v]> next)) as (env & He & Hl).
    exists env. split; [exact He|]. intros name'. rewrite Hl.
    destruct (decide (name' ∈ names)) as [Hin|Hin].
    + by rewrite decide_True by (by right).
    + destruct (decide (name' = name)) as [->|Hne].
      * rewrite decide_True by (by left). by rewrite lookup_insert_eq.
      * rewrite decide_False by (by intros [?|?]%elem_of_cons). by rewrite lookup_insert_ne.
Qed.

(** Saving the settings as they are shown changes nothing: when the browser
    sends back everything that it was shown of a configuration in order, masks
    in the place of keys and of variables, the update is accepted and the
    configuration, secrets included, is what it was. *)
Theorem resent_view_changes_nothing sys cfg :
  config_ok cfg → apply_ sys cfg (resend (view sys cfg)) = Ok cfg.
Proof.
  intros [Hp Hm Hb Hk Ht Hi He Hq]. unfold apply_. cbv zeta. cbn [resend view cview.models cview.base_urls
    cview.thinking cview.web_search cview.instructions cview.permission cview.env cview.enabled
    update.Models update.BaseURLs update.APIKeys update.Provider update.Thinking update.WebSearch update.Workspace
    update.Instructions update.Permission update.Enabled update.Env].
  rewrite !mergeStrings_same by done.
  rewrite (fold_unchanged merge_key) by (intros [name key] (p & [= -> ->] & _)%list_elem_of_fmap; reflexivity).
  unfold when_set, mbind, result_bind. rewrite (bool_decide_true _ Ht). cbn [negb].
  assert (negb (bool_decide (config.Permission cfg = permissionAsk))
    && negb (bool_decide (config.Permission cfg = permissionAuto)) = false) as Hperm
    by (destruct Hq as [-> | ->]; reflexivity).
  rewrite Hperm, Hi. rewrite (fold_unchanged _ (map_to_list (config.Enabled cfg)) (config.Enabled cfg))
    by (intros [name on] Hin%elem_of_map_to_list; by apply insert_id).
  rewrite map_to_list_fmap.
  destruct (apply_env_masked (config.Env cfg) ((map_to_list (config.Env cfg)).*1) ∅) as (env & Hr & Hl).
  { apply Forall_fmap, Forall_forall. intros [name v] Hin%elem_of_map_to_list. simpl. split; [|by exists v].
    apply (map_Forall_lookup_1 _ _ _ _ He Hin). }
  replace (prod_map id (λ _ : string, secretMask) <$> map_to_list (config.Env cfg))
    with ((λ name, (name, secretMask)) <$> (map_to_list (config.Env cfg)).*1)
    by (rewrite <- list_fmap_compose; apply list_fmap_ext; by intros ? [? ?] ?).
  rewrite Hr. assert (env = config.Env cfg) as ->; [|by destruct cfg].
  apply map_eq. intros name. rewrite Hl.
  destruct (decide (name ∈ (map_to_list (config.Env cfg)).*1)) as [Hin|Hin]; [reflexivity|].
  rewrite lookup_empty. symmetry. apply eq_None_not_Some. intros [v Hv]. apply Hin.
  apply list_elem_of_fmap. exists (name, v). split; [done|]. by apply elem_of_map_to_list.
Qed.

Lemma resent_view_changes_nothing_witness :
  config_ok (defaultConfig sample_system) ∧
  apply_ sample_system (defaultConfig sample_system) (resend (view sample_system (defaultConfig sample_system)))
  = Ok (defaultConfig sample_system).
Proof. split; [exact default_config_ok|]. apply resent_view_changes_nothing. exact default_config_ok. Defined.
