(* ===== verification/ViewImageTool.v ===== *)
(** * The ViewImage tool: tool/viewimage/viewimage.go

    The translator that turns a call into a view-image operation and its
    checkpoints into tool results with the image or the failure, with the
    binary64 arithmetic of the scale ratio and its printing, and the proof
    that it keeps the contract of a translator. *)

From Stdlib Require Import Ascii ZArith Lia SpecFloat.
From S2P Require Import Prelude GoStrings GoText Utf8Facts Json JsonCodec Primitives.
From S2P Require Import Operation Output Handler ViewImage ViewImageCompute ViewImageFacts.
From S2P Require Import Llm Tool Registry BashTool.

Local Open Scope Z_scope.

Definition DefaultMaxSize : Z := 5000000 - 1000.
Definition DefaultMaxWidth : Z := 2000.
Definition DefaultMaxHeight : Z := 2000.

Module view_config.
Record Config : Set := Mk { Directory : string; Limits : ViewImageConfig }.
End view_config.
Abbreviation ViewConfig := view_config.Config.

(** The limits that are not set take their defaults. *)
Definition or_default (n d : Z) : Z := if n =? 0 then d else n.

Definition with_defaults (c : ViewConfig) : ViewConfig :=
  let l := view_config.Limits c in
  view_config.Mk (view_config.Directory c)
    (vconfig.Mk (or_default (vconfig.MaxSize l) DefaultMaxSize)
       (or_default (vconfig.MaxHeight l) DefaultMaxHeight)
       (or_default (vconfig.MaxWidth l) DefaultMaxWidth)
       (vconfig.MaxSourcePixels l)).

(** ** Calls *)

Program Definition view_arguments_codec : codec string := {|
  zero := EmptyString;
  enc n := enc_struct [field string_codec "path" n];
  dec := dec_struct EmptyString (λ o, n ← get string_codec "path" o; Some n);
  jok _ := True |}.
Next Obligation. intros n j _. struct_dec. Qed.
Next Obligation. intros n j. struct_enc_ok. Qed.

Definition view_argument (suffix : string) : string :=
  "ViewImage argument " +:+ quote "path" +:+ suffix.

(** A relative path is put after the directory without cleaning it. *)
Definition view_path (directory path : string) : string :=
  if nonempty directory && negb (filepath.IsAbs path) then
    directory +:+ String filepath.Separator path
  else path.

(** Neither decoding nor NewViewImageSpec panics: those cases do not occur. *)
Definition view_Translate (config : ViewConfig) (c : ToolCall) (ctx : toolCallContext)
    : toolCallContext * CallStatus :=
  match Unmarshal_text view_arguments_codec (call.Arguments c) with
  | Err e => (ctx, ErrorStatus ("decode ViewImage arguments: " +:+ Error e) DefaultMaxOutputLength)
  | Panic t => (ctx, error_status t)
  | Ok path =>
    if blank path then (ctx, error_status (view_argument " must be set"))
    else match IndexByte NUL (to_bytes path) with
    | Some offset => (ctx, error_status (view_argument
        (" contains a NUL byte at offset " +:+ Itoa (Z.of_nat offset))))
    | None =>
      match NewViewImageSpec (view_path (view_config.Directory config) path)
              (view_config.Limits config) with
      | Err e => (ctx, error_status ("build ViewImage operation: " +:+ Error e))
      | Panic t => (ctx, error_status t)
      | Ok spec => let '(ctx, id) := Submit spec ctx in (ctx, waiting_status [id])
      end
    end
  end.

(** ** float64 numbers in JSON

    [strconv.ParseFloat] of a number literal, correctly rounded, and the verb
    %.2f. *)

Definition digits_value (ds : bytes) : Z :=
  fold_left (λ n c, n * 10 + (byte_val c - 48)) ds 0.

(** m * 10^e *)
Definition of_decimal (negative : bool) (m e : Z) : spec_float :=
  let magnitude :=
    if 0 <=? e then binary_normalize 53 1024 (m * 10 ^ e) 0 false
    else match m, 10 ^ (- e) with
         | Z.pos m, Z.pos d => SFdiv 53 1024 (S754_finite false m 0) (S754_finite false d 0)
         | _, _ => S754_zero false
         end in
  if negative then SFopp magnitude else magnitude.

Definition parse_literal (p : bytes) : spec_float :=
  let '(negative, p) := match p with "-"%char :: q => (true, q) | _ => (false, p) end in
  let '(int, p) := span is_digit p in
  let '(frac, p) := match p with "."%char :: q => span is_digit q | _ => ([], p) end in
  let exponent :=
    match p with
    | _ :: "-"%char :: q => - digits_value q
    | _ :: "+"%char :: q => digits_value q
    | _ :: q => digits_value q
    | [] => 0
    end in
  of_decimal negative (digits_value (int ++ frac)) (exponent - len frac).

Definition float_of_json (f : float64) : spec_float :=
  match f with
  | JInt z => float.of_int z
  | JFloat literal => parse_literal (to_bytes literal)
  | _ => S754_zero false
  end.

Example parse_half : float_of_json (JFloat "5e-1") = float.div float.one (float.of_int 2).
Proof. vm_compute. reflexivity. Qed.

(** The hundredths of m * 2^e, rounded half to even. *)
Definition hundredths (m : positive) (e : Z) : Z :=
  if 0 <=? e then Z.pos m * 100 * 2 ^ e
  else
    let d := 2 ^ (- e) in
    let q := (Z.pos m * 100) / d in
    let r := (Z.pos m * 100) mod d in
    if (d <? 2 * r) || ((2 * r =? d) && Z.odd q) then q + 1 else q.

Definition pad2 (n : Z) : string := if n <? 10 then "0" +:+ Itoa n else Itoa n.

Definition format_2f (x : spec_float) : string :=
  let sign (s : bool) := if s then "-" else EmptyString in
  let unsigned (h : Z) := Itoa (h / 100) +:+ "." +:+ pad2 (h mod 100) in
  match x with
  | S754_zero s => sign s +:+ unsigned 0
  | S754_infinity s => (if s then "-" else "+") +:+ "Inf"
  | S754_nan => "NaN"
  | S754_finite s m e => sign s +:+ unsigned (hundredths m e)
  end.

Example two_and_a_half : format_2f (float.div float.one (float_of_json (JFloat "0.4"))) = "2.50".
Proof. vm_compute. reflexivity. Qed.

(** ** Results *)

Definition ratio_of (r : ViewImageResult) : spec_float := float_of_json (vresult.ScaleRatio r).
Definition scaled_down (r : ViewImageResult) : bool := SFltb (ratio_of r) float.one.

Definition imageMetadata (r : ViewImageResult) (failed : bool) : list string :=
  part_if (nonempty (vresult.OriginalMIMEType r)
           && (failed || negb (bool_decide (vresult.OriginalMIMEType r = vresult.EncodedMIMEType r))))
    ("original MIME type: " +:+ vresult.OriginalMIMEType r)
  ++ part_if ((0 <? vresult.OriginalWidth r) && (0 <? vresult.OriginalHeight r)
              && (failed || scaled_down r))
       ("original dimensions: " +:+ Itoa (vresult.OriginalWidth r) +:+ "x"
          +:+ Itoa (vresult.OriginalHeight r)).

(** The image can be shown: the negation of the guard of a completed operation. *)
Definition displayable (r : ViewImageResult) : bool :=
  nonempty (vresult.Content r) && nonempty (vresult.EncodedMIMEType r)
  && negb (SFleb (ratio_of r) (S754_zero false)) && negb (SFltb float.one (ratio_of r))
  && negb (nonempty (vresult.Error r)).

Definition with_details (output : list ToolResultOutput) (details : list string)
    : list ToolResultOutput :=
  match details with
  | [] => output
  | _ => output ++ [tro.Mk ToolResultText (Join details "; ")]
  end.

Definition failed_details (st : Status) (res : option ViewImageResult) : list string :=
  match res with
  | None => ["Error: view-image operation " +:+ st]
  | Some r =>
    ("Error: " +:+ (if nonempty (vresult.Error r) then vresult.Error r
                    else "view-image operation " +:+ st)) :: imageMetadata r true
  end.

Definition view_TranslateResult (callID : string) (s : CallStatus) (ops : list Operation)
    : result ToolResult :=
  let named := "ViewImage call " +:+ quote callID in
  if nonempty (status.Error s) then
    if negb (len ops =? 0) then
      Err (errors_New (named +:+ " has both a validation error and operations"))
    else Ok (text_result callID ("Error: " +:+ status.Error s))
  else match ops with
  | [current] =>
    state ← map_err (Errorf_w ("decode " +:+ named +:+ " result: ")) (DecodeViewImageState current);
    let st := op.Status' current in
    if running_status st then
      Ok (tr.Mk callID (with_details [] ["Image is still loading."]))
    else if stopped_status st then
      Ok (tr.Mk callID (with_details [] (failed_details st (vstate.Result state))))
    else if bool_decide (st = StatusCompleted) then
      match vstate.Result state with
      | Some r =>
        if displayable r then
          Ok (tr.Mk callID (with_details
            [tro.Mk ToolResultImage ("data:" +:+ vresult.EncodedMIMEType r +:+ ";base64,"
                                     +:+ vresult.Content r)]
            (imageMetadata r false ++
             part_if (scaled_down r) ("multiply coordinates by "
               +:+ format_2f (float.div float.one (ratio_of r)) +:+ " to approximate original"))))
        else Err (errors_New (named +:+ " completed operation " +:+ quote (op.ID' current)
                    +:+ " has an invalid image result"))
      | None => Err (errors_New (named +:+ " completed operation " +:+ quote (op.ID' current)
                    +:+ " has an invalid image result"))
      end
    else Err (errors_New (named +:+ " operation " +:+ quote (op.ID' current)
                +:+ " has invalid status " +:+ quote st))
  | _ => Err (errors_New (named +:+ " has " +:+ Itoa (len ops) +:+ " operations, want 1"))
  end.

Definition view_New (config : ViewConfig) : Translator := {|
  Translate := view_Translate (with_defaults config);
  TranslateResult := view_TranslateResult |}.

(** ** The contract of a translator *)

Definition view_reported (o : Operation) : Prop :=
  ∃ s, DecodeViewImageState o = Ok s ∧
    (running_status (op.Status' o) = true ∨ stopped_status (op.Status' o) = true ∨
     op.Status' o = StatusCompleted ∧ ∃ r, vstate.Result s = Some r ∧ displayable r = true).

Lemma view_result callID s o :
  status.Error s = EmptyString → view_reported o →
  ∃ out, view_TranslateResult callID s [o] = Ok (tr.Mk callID out).
Proof.
  intros He (state & Hs & Hst). unfold view_TranslateResult, nonempty at 1. cbv zeta.
  rewrite He, bool_decide_true by done. cbn [negb]. rewrite Hs. cbn [map_err].
  unfold mbind, result_bind.
  destruct (running_status (op.Status' o)) eqn:Hr; [by eexists|].
  destruct (stopped_status (op.Status' o)) eqn:Hf; [by eexists|].
  destruct Hst as [?|[?|(Hc & r & -> & Hd)]]; [done|done|].
  rewrite bool_decide_true, Hd by done. by eexists.
Qed.

Lemma NewViewImageSpec_returns path config : returns (NewViewImageSpec path config) = true.
Proof. unfold NewViewImageSpec, validateViewImageState. go_returns. Qed.

Lemma view_calls config c ctx :
  (∃ s, status.Error s ≠ EmptyString ∧ status.WaitingFor s = [] ∧
     view_Translate config c ctx = (ctx, s)) ∨
  (∃ path spec, NewViewImageSpec path (view_config.Limits config) = Ok spec ∧
     view_Translate config c ctx = (fst (Submit spec ctx), waiting_status [uuid ctx (next ctx)])).
Proof.
  unfold view_Translate, Unmarshal_text.
  pose proof (Unmarshal_returns view_arguments_codec (value_of_text (to_bytes (call.Arguments c)))) as Hu.
  destruct (Unmarshal _ _) as [path|e|t]; [| |done].
  2: { left. eexists. split; [|split; [|reflexivity]]; [|apply ErrorStatus_waits].
       by apply ErrorStatus_error. }
  destruct (blank path); [left; by eexists; split; [|split; [|reflexivity]]|].
  destruct (IndexByte NUL _); [left; by eexists; split; [|split; [|reflexivity]]|].
  set (p := view_path _ path). pose proof (NewViewImageSpec_returns p (view_config.Limits config)) as Hr.
  destruct (NewViewImageSpec p _) as [spec|e|t] eqn:Hs; [| |done].
  - right. by exists p, spec.
  - left. by eexists; split; [|split; [|reflexivity]].
Qed.

Lemma view_spec_reported path config spec id :
  jok ViewImageConfig_codec config →
  NewViewImageSpec path config = Ok spec → view_reported (new_operation id spec).
Proof.
  intros Hj (u & Hv & (v & Hm%map_err_ok & [= <-])%bind_ok)%bind_ok.
  exists (vstate.Mk path config None). split; [|by left].
  unfold DecodeViewImageState. cbn.
  rewrite (Unmarshal_Marshal ViewImageState_codec (vstate.Mk path config None) v (conj Hj I) Hm). cbn.
  by rewrite Hv.
Qed.

Section Contract.
(** The limits are Go ints. *)
Context (config : ViewConfig)
  (config_ints : jok ViewImageConfig_codec (view_config.Limits (with_defaults config))).

#[local] Instance view_reports : Reports (view_New config) := λ o, view_reported o.

Lemma view_lawful : LawfulTranslator (view_New config).
Proof.
  constructor.
  - intros c ctx ctx' s. cbn [Translate view_New].
    destruct (view_calls (with_defaults config) c ctx) as [(s' & He & Hw & ->)|(p & spec & _ & ->)];
      intros [= <- <-].
    + exists []. split; [apply submits_none|]. by split.
    + exists [spec]. split; [apply submits_one|]. split; [|done]. intros _. split; [done|].
      simpl. by rewrite Nat.add_0_r.
  - intros c ctx. destruct (view_calls (with_defaults config) c ctx) as [(s' & He & Hw & E)|(p & spec & Hs & E)].
    + by rewrite (submitted_none (view_New config) _ _ _ E).
    + rewrite (submitted_one (view_New config) _ _ _ _ E).
      apply Forall_singleton. by eapply view_spec_reported.
  - intros c ctx ctx' s callID ops. cbn [Translate TranslateResult view_New].
    destruct (view_calls (with_defaults config) c ctx) as [(s' & He & Hw & ->)|(p & spec & _ & ->)];
      intros [= <- <-] Hids Hops.
    + rewrite Hw in Hids. apply fmap_nil_inv in Hids as ->. unfold view_TranslateResult, nonempty.
      rewrite bool_decide_false by done. by eexists.
    + destruct ops as [|o [|]]; simplify_eq/=. apply Forall_cons in Hops as [Ho _].
      apply (view_result callID _ o); [done|exact Ho].
Qed.
End Contract.

(** *** The checkpoints of the actor *)

(** A completed operation holds the result that its last event brought. *)
Definition completes (event : option Event) (res : ViewImage * result Step) : Prop :=
  match snd res with
  | Ok st => ∀ o', step.Operation st = Some o' → op.Status' o' = StatusCompleted →
      ∃ e r, event = Some e ∧ event.Result e = ComputeResult (ValueViewImageResult r) ∧
        vresult.Error r = EmptyString ∧ vstate.Result (state (fst res)) = Some r
  | _ => True
  end.

Lemma checkpoint_completes event v :
  (op.Status' (current v) = StatusCompleted →
   ∃ e r, event = Some e ∧ event.Result e = ComputeResult (ValueViewImageResult r) ∧
     vresult.Error r = EmptyString ∧ vstate.Result (state v) = Some r) →
  completes event (checkpoint v).
Proof.
  intros H. unfold checkpoint, completes. destruct (Marshal _ _); [|done..]. simpl.
  intros o' [= <-]. exact H.
Qed.

Lemma failed_completes event e v : completes event (fail_ e v).
Proof. unfold fail_, finish. autorewrite with M. by apply checkpoint_completes. Qed.

Lemma cancel_completes event v : completes event (cancel v).
Proof. unfold cancel, finish. autorewrite with M. by apply checkpoint_completes. Qed.

Lemma read_completes event v : completes event (read_ v).
Proof.
  unfold read_. autorewrite with M. set (v1 := MkView _ _ _ _ _).
  pose proof (checkpoint_completes event v1 ltac:(done)) as H. unfold mbind, M_bind.
  destruct (checkpoint v1) as [v2 [st|e|t]]; [|done|done]. exact H.
Qed.

Ltac completes_branches :=
  repeat match goal with
  | |- completes _ (fail _ _) => exact I
  | |- completes _ (fail_ _ _) => apply failed_completes
  | |- completes _ (cancel _) => apply cancel_completes
  | |- completes _ (read_ _) => apply read_completes
  | |- completes _ (process_ _ _) => unfold completes; simpl; intros ? [=]
  | |- completes _ ((if ?b then _ else _) _) => destruct b eqn:?
  | |- completes _ (match ?r with _ => _ end _) => destruct r eqn:?
  end.

Lemma Handle_completes event v : completes event (Handle event v).
Proof.
  unfold Handle. autorewrite with M. cbv zeta. completes_branches. subst event.
  unfold handleEvent. autorewrite with M. cbv zeta. completes_branches.
  - unfold processed. completes_branches.
    + unfold finish. autorewrite with M. by apply checkpoint_completes.
    + unfold finish. autorewrite with M. apply checkpoint_completes. intros _. simpl.
      match goal with H : negb (bool_decide (vresult.Error _ = _)) = false |- _ =>
        apply negb_false_iff, bool_decide_eq_true in H end. eauto 10.
  - unfold handleRead. autorewrite with M. completes_branches. autorewrite with M.
    unfold completes. simpl. intros ? [=].
Qed.

(** The model can always be shown an image or told why not: whatever event
    a view-image operation handles, provided that an image that was prepared
    without an error is not empty, has a type and a scale in (0, 1], the
    checkpoint is one whose result the ViewImage tool translates. *)
Theorem view_image_always_reported o v event v' st o' :
  view_inv o v → match event with Some e => value_typed e = true | None => True end →
  (∀ e r, event = Some e → event.Result e = ComputeResult (ValueViewImageResult r) →
     vresult.Error r = EmptyString → displayable r = true) →
  Handle event v = (v', Ok st) → step.Operation st = Some o' →
  view_reported o' ∧
  ∀ callID s, status.Error s = EmptyString →
    ∃ out, view_TranslateResult callID s [o'] = Ok (tr.Mk callID out).
Proof.
  intros Hinv Ht Himg H Ho. assert (view_reported o') as Hr.
  { pose proof (view_Handle_post o event v Hinv Ht) as Hp. unfold post in Hp.
    pose proof (Handle_completes event v) as Hc. unfold completes in Hc. rewrite H in Hp, Hc.
    destruct Hp as ([Hs _] & (Hst & _ & _) & Hn). specialize (Hn o' Ho). cbn in Hc.
    unfold NewViewImage in Hn. apply bind_ok in Hn as (s & Hd & Hv).
    assert (s = state v') as -> by (cbn [fst] in Hv; unfold restored in Hv; congruence).
    exists (state v'). split; [done|].
    destruct (Hst o' Ho) as [_ [Ha|[Hf _]]]; [left; by rewrite Ha|]. right.
    unfold localOperationFinished in Hf.
    destruct (bool_decide_reflect (op.Status' o' = StatusCompleted)) as [E|_].
    - right. split; [done|]. destruct (Hc o' Ho E) as (e & r & He & Hres & Herr & ->).
      exists r. split; [done|]. by eapply Himg.
    - left. destruct (bool_decide_reflect (op.Status' o' = StatusFailed)) as [->|_]; [done|].
      destruct (bool_decide_reflect (op.Status' o' = StatusCanceled)) as [->|_]; done. }
  split; [done|]. intros callID s He. by apply view_result.
Qed.

Definition shown_result : ViewImageResult :=
  vresult.Mk "aGk=" 2 2 "image/png" "image/png" (JInt 1) EmptyString.

Definition processing_view : ViewImage :=
  MkView (op.set_status StatusAwaiting (current sample_view)) (state sample_view) [] 0 true.

Lemma view_image_always_reported_witness :
  let e := event.Mk PrimitiveEventComputeCompleted "op" viewImageProcessCorrelation
             (ComputeResult (ValueViewImageResult shown_result)) in
  ∃ v' st o', Handle (Some e) processing_view = (v', Ok st) ∧ step.Operation st = Some o' ∧
    op.Status' o' = StatusCompleted ∧ view_reported o'.
Proof.
  intros e. eexists _, _, _. split; [vm_compute; reflexivity|]. split; [reflexivity|].
  split; [reflexivity|].
  eapply (view_image_always_reported (current processing_view) processing_view (Some e));
    [|vm_compute; reflexivity| |vm_compute; reflexivity|reflexivity].
  - split; [reflexivity|]. split; [by repeat split|].
    constructor; try (vm_compute; reflexivity); [vm_compute; repeat split|vm_compute; discriminate].
  - intros e' r [= <-] [= <-] _. vm_compute. reflexivity.
Defined.
