(* ===== verification/ContextBuilder.v ===== *)
(** * The context builder: contextbuilder/builder.go and contextbuilder/skills.go

    The model request as it is built: a committed prefix, which later requests
    repeat, and a staged suffix.  The class [ContextBuilder] is the interface
    that the coordinator uses; the embedded prompt files are the texts
    [preamble] and [skillPreamble]. *)

From Stdlib Require Import Ascii ZArith Lia.
From S2P Require Import Prelude GoStrings GoText Utf8Facts Json JsonCodec Primitives.
From S2P Require Import Operation Llm Inbox Tool Registry.

Local Open Scope Z_scope.

(** The interface [contextbuilder.Builder], as far as the coordinator uses it. *)
Class ContextBuilder (B : Type) : Type := {
  AddExternalInput : Input → M B unit;
  AddControlMessage : ControlMessage → M B unit;
  AddModelResponse : Response → B → B;
  AddToolResult : string → list ToolResultOutput → bool → B → B;
  Commit : B → B;
  Build : B → result Request;
}.

(** ** The prompts *)

Definition newline : string := String "010" EmptyString.

Definition lines (l : list string) : string := Join l newline.

(** prompts/preamble.md, trimmed. *)
Definition preamble : string := lines
  ["You run on Unreal Agent Harness built by Unreal Labs.";
   EmptyString;
   "You work in turns. A turn is one reading of the conversation and one reply: text, tool calls, or both. Each turn re-sends the whole conversation, so prefer to go wider with tool calls — they are cheap — rather than chaining them across a longer sequence of turns. When the next commands do not depend on each other's output (inspecting several files, running the build and the tests, probing two hypotheses), issue them as separate tool calls in the same turn instead of one at a time.";
   EmptyString;
   "Tool calls are asynchronous: each starts the moment you issue it and runs in the background, so issuing one never blocks you and many run at once. As each finishes, its result is appended and wakes a new turn; results that land together arrive in the same turn, and a call still running shows a placeholder until its own result comes.";
   EmptyString;
   "You never have to babysit a running call: harness does it for you. As a backup, if calls are active and nothing has happened for ten minutes, a heartbeat wakes you, and this is an opportunity to check that all is well.";
   EmptyString;
   "Ending a turn with no tool calls while calls are running means you sleep until one finishes; ending a turn with nothing running ends the session, so do that only when the task is complete.";
   EmptyString;
   "Treat the prompt as a goal and keep working until it is met. I believe in you!"].

(** prompts/skill-preamble.md, trimmed. *)
Definition skillPreamble : string := lines
  ["The following skills provide specialized instructions for specific tasks.";
   "Use SkillUse to load a skill's file when the task matches its description.";
   "When a skill file references a relative path, resolve it against the skill directory (parent of SKILL.md / dirname of the path) and use that absolute path in tool calls."].

Definition ToolCallRunningPayload : string :=
  "Tool call is still running. Its result arrives in a later turn: continue with independent work, or end your turn to wait for it.".

(** ** xml.Marshal of the skills *)

Definition isInCharacterRange (r : Z) : bool :=
  bool_decide (r ∈ [0x09; 0x0A; 0x0D]) || utf8.between 0x20 0xD7FF r || utf8.between 0xE000 0xFFFD r
  || utf8.between 0x10000 0x10FFFF r.

(** The escape of one rune of a text. *)
Definition xml_escape (c : bytes) : bytes :=
  let '(r, width) := utf8.DecodeRune c in
  if r =? 34 then to_bytes "&#34;"
  else if r =? 39 then to_bytes "&#39;"
  else if r =? 38 then to_bytes "&amp;"
  else if r =? 60 then to_bytes "&lt;"
  else if r =? 62 then to_bytes "&gt;"
  else if r =? 9 then to_bytes "&#x9;"
  else if r =? 10 then to_bytes "&#xA;"
  else if r =? 13 then to_bytes "&#xD;"
  else if negb (isInCharacterRange r) || ((r =? utf8.RuneError) && Nat.eqb width 1) then RuneErrorBytes
  else c.

Definition EscapeString (s : string) : string :=
  to_string (concat (xml_escape <$> utf8.chunks (to_bytes s))).

Definition element (name content : string) : string :=
  "<" +:+ name +:+ ">" +:+ content +:+ "</" +:+ name +:+ ">".

Definition promptSkill (s : Skill) : string :=
  element "skill"
    (element "name" (EscapeString (skill.Name s))
     +:+ element "description" (EscapeString (skill.Description s))
     +:+ element "location" (EscapeString (skill.Path s))).

Definition availableSkills (l : list Skill) : string :=
  element "available_skills" (Join (promptSkill <$> l) EmptyString).

Definition formatSkillsForPrompt (l : list Skill) : string :=
  match l with
  | [] => EmptyString
  | _ => skillPreamble +:+ newline +:+ newline +:+ availableSkills l
  end.

(** ** The builder *)

Record builder : Type := MkBuilder {
  reqModel : Model;
  reqTools : list LTool;
  prompt : string;               (* the preamble of this builder *)
  systemPrompt : string;
  committedPrefix : list Item;
  stagedSuffix : list Item;
}.

Definition set_committed (l : list Item) (b : builder) : builder :=
  MkBuilder (reqModel b) (reqTools b) (prompt b) (systemPrompt b) l (stagedSuffix b).
Definition set_staged (l : list Item) (b : builder) : builder :=
  MkBuilder (reqModel b) (reqTools b) (prompt b) (systemPrompt b) (committedPrefix b) l.

Definition stage (i : Item) (b : builder) : builder := set_staged (stagedSuffix b ++ [i]) b.

Definition message (role : Role) (text : string) : Item :=
  item.Mk EmptyString ItemMessage (DataMessage (msg.Mk role text EmptyString)).

Definition SetModel (m : Model) (b : builder) : builder :=
  MkBuilder m (reqTools b) (prompt b) (systemPrompt b) (committedPrefix b) (stagedSuffix b).

(** The system message is the first item of the prefix, which has one. *)
Definition SetSystemPrompt (p : string) (b : builder) : builder :=
  MkBuilder (reqModel b) (reqTools b) (prompt b) p
    (<[0%nat := message RoleSystem (TrimSpace (prompt b +:+ newline +:+ newline +:+ p))]> (committedPrefix b))
    (stagedSuffix b).

Definition zero_item : Item := item.Mk EmptyString EmptyString DataNil.

Definition NewBuilder (skills : list Skill) : builder :=
  let skillPrompt := formatSkillsForPrompt skills in
  let current := if bool_decide (skillPrompt = EmptyString) then preamble
                 else preamble +:+ newline +:+ newline +:+ skillPrompt in
  SetSystemPrompt EmptyString
    (MkBuilder (model.Mk EmptyString None EmptyString) [] current EmptyString [zero_item] []).

Definition builder_AddExternalInput (i : Input) : M builder unit := λ b,
  if negb (bool_decide (input.Kind i = InputExternal)) then
    (b, Err (errors_New ("external input " +:+ quote (input.ID i) +:+ " has input kind "
                           +:+ quote (input.Kind i))))
  else match map_err (Errorf_w ("decode external input " +:+ quote (input.ID i) +:+ ": "))
               (Unmarshal string_codec (input.Payload i)) with
       | Ok text => (stage (message RoleUser text) b, Ok tt)
       | Err e => (b, Err e)
       | Panic t => (b, Panic t)
       end.

Definition builder_AddControlMessage (m : ControlMessage) : M builder unit := λ b,
  if bool_decide (control.Mode m = UpdateSettings) then
    match control.Parameters m with
    | Some effort =>
      (SetModel (model.Mk (model.ID (reqModel b)) (model.MaxOutputTokens (reqModel b)) effort) b, Ok tt)
    | None => (b, Panic "interface conversion: interface is nil, not inbox.Settings")
    end
  else if bool_decide (control.Mode m = Heartbeat) then
    (stage (message RoleUser (control.Reason m)) b, Ok tt)
  else (b, Ok tt).

Definition builder_AddModelResponse (r : Response) (b : builder) : builder :=
  set_committed (committedPrefix b ++ response.Output r) b.

Definition AddReasoning (r : Reasoning) (b : builder) : builder :=
  stage (item.Mk EmptyString ItemReasoning (DataReasoning r)) b.

Definition AddTool (t : LTool) (b : builder) : builder :=
  MkBuilder (reqModel b) (reqTools b ++ [t]) (prompt b) (systemPrompt b) (committedPrefix b) (stagedSuffix b).

Definition runningOutput : list ToolResultOutput := [tro.Mk ToolResultText ToolCallRunningPayload].

Definition tool_result (callID : string) (output : list ToolResultOutput) : Item :=
  item.Mk EmptyString ItemToolResult (DataToolResult (tr.Mk callID output)).

(** A staged placeholder of the call. *)
Definition is_placeholder (callID : string) (i : Item) : bool :=
  bool_decide (item.Type' i = ItemToolResult) &&
  match item.Data i with
  | DataToolResult r => bool_decide (tr.CallID r = callID) && bool_decide (tr.Output r = runningOutput)
  | _ => false
  end.

Definition builder_AddToolResult (callID : string) (payload : list ToolResultOutput) (running : bool)
    (b : builder) : builder :=
  let payload := if running then runningOutput else payload in
  stage (tool_result callID payload)
    (set_staged (filter (λ i, is_placeholder callID i = false) (stagedSuffix b)) b).

Definition builder_Commit (b : builder) : builder :=
  set_staged [] (set_committed (committedPrefix b ++ stagedSuffix b) b).

Definition builder_Build (b : builder) : result Request :=
  Ok (request.Mk (reqModel b) (committedPrefix b ++ stagedSuffix b) (reqTools b)).

#[export] Instance builder_is_builder : ContextBuilder builder := {|
  AddExternalInput := builder_AddExternalInput;
  AddControlMessage := builder_AddControlMessage;
  AddModelResponse := builder_AddModelResponse;
  AddToolResult := builder_AddToolResult;
  Commit := builder_Commit;
  Build := builder_Build |}.

(** ** What the coordinator relies on

    [sent b] is the part of the conversation that the model has seen: every
    later request starts with it, whatever is added to the builder. *)
Class LawfulContextBuilder (B : Type) `{!ContextBuilder B} : Type := {
  sent : B → list Item;
  sent_external i b : sent b `prefix_of` sent (fst (AddExternalInput i b));
  sent_control m b : sent b `prefix_of` sent (fst (AddControlMessage m b));
  sent_response r b : sent b `prefix_of` sent (AddModelResponse r b);
  sent_result id out running b : sent b `prefix_of` sent (AddToolResult id out running b);
  sent_commit b : sent b `prefix_of` sent (Commit b);
  sent_build b r : Build b = Ok r → sent b `prefix_of` request.Input r ∧ sent (Commit b) = request.Input r;
}.

#[export] Instance builder_lawful : LawfulContextBuilder builder.
Proof.
  refine {| sent := committedPrefix |}.
  - intros i b. unfold AddExternalInput, builder_is_builder, builder_AddExternalInput.
    destruct (negb _); [done|]. by destruct (map_err _ _).
  - intros m b. unfold AddControlMessage, builder_is_builder, builder_AddControlMessage.
    case_bool_decide; [by destruct (control.Parameters m)|]. by case_bool_decide.
  - intros r b. by apply prefix_app_r.
  - done.
  - intros b. by apply prefix_app_r.
  - intros b r [= <-]. split; [by apply prefix_app_r|done].
Defined.
