(* ===== verification/SessionStore.v ===== *)
(** * Session history: session/session.go, sessionstore/sessionstore.go, sessionstore/itemjson.go

    The items of a session's history, with their JSON encoding, and the types
    that a store exchanges with the coordinator.  [Item.Data] is an [any]: one
    of the five item types, nil, or a value of another type. *)

From Stdlib Require Import Ascii ZArith Lia.
From S2P Require Import Prelude GoStrings GoText Json JsonFacts JsonCodec GoTime Operation Llm.
From S2P Require Import Inbox Tool.

Local Open Scope Z_scope.

(** ** session/session.go *)

Definition SessionID : Set := string.
Definition TurnID : Set := string.
Definition TurnType : Set := string.
Definition TurnRegular : TurnType := "regular".
Definition TurnCompaction : TurnType := "compaction".

Module session.
Record Session : Type := Mk { ID : SessionID; CreatedAt : Time }.
End session.
Abbreviation Session := session.Session.

Module turn.
Record Turn : Type := Mk { ID : TurnID; PreviousTurnID : TurnID; Type' : TurnType }.
End turn.
Abbreviation Turn := turn.Turn.

(** ** sessionstore/sessionstore.go *)

Definition Sequence : Set := Z.          (* uint64 *)
Definition BeforeFirst : Sequence := 0.

Definition ItemKind : Set := string.
Definition ItemFork : ItemKind := "fork".
Definition ItemInput : ItemKind := "input".
Definition ItemTurn : ItemKind := "turn".
Definition ItemModelResponse : ItemKind := "model_response".
Definition ItemToolCallStatus : ItemKind := "tool_call_status".

Module fork.
Record Fork : Type := Mk { ParentID : SessionID; PreviousTurnID : TurnID }.
End fork.
Abbreviation Fork := fork.Fork.

Module mresponse.
Record ModelResponse : Type := Mk { TurnID' : TurnID; Response' : Response }.
End mresponse.
Abbreviation ModelResponse := mresponse.ModelResponse.

Module tcs.
Record ToolCallStatus : Type := Mk {
  TurnID' : TurnID; CallID : string; Status' : CallStatus; Operations : list Operation }.
Definition set_operations (ops : list Operation) (s : ToolCallStatus) : ToolCallStatus :=
  Mk (TurnID' s) (CallID s) (Status' s) ops.
End tcs.
Abbreviation ToolCallStatus := tcs.ToolCallStatus.

Inductive StoreData : Type :=
  | StoreFork (f : Fork)
  | StoreInput (i : Input)
  | StoreTurn (t : Turn)
  | StoreModelResponse (r : ModelResponse)
  | StoreToolCallStatus (s : ToolCallStatus)
  | StoreNil
  | StoreOther (type_name : string).

Module sitem.
Record Item : Type := Mk {
  Sequence' : Sequence; RecordedAt : Time; Kind : ItemKind; Data : StoreData }.
Definition set_data (d : StoreData) (i : Item) : Item := Mk (Sequence' i) (RecordedAt i) (Kind i) d.
End sitem.
Abbreviation SItem := sitem.Item.

#[export] Instance Session_eq_dec : EqDecision Session. Proof. solve_decision. Defined.
#[export] Instance Turn_eq_dec : EqDecision Turn. Proof. solve_decision. Defined.
#[export] Instance Fork_eq_dec : EqDecision Fork. Proof. solve_decision. Defined.
#[export] Instance ModelResponse_eq_dec : EqDecision ModelResponse. Proof. solve_decision. Defined.
#[export] Instance ToolCallStatus_eq_dec : EqDecision ToolCallStatus. Proof. solve_decision. Defined.
#[export] Instance StoreData_eq_dec : EqDecision StoreData. Proof. solve_decision. Defined.
#[export] Instance SItem_eq_dec : EqDecision SItem. Proof. solve_decision. Defined.

(** A [Snapshot] holds the session. *)
Definition Snapshot : Type := Session.

Record SessionInfo : Type := MkInfo { InfoID : SessionID; LastUpdatedAt : Time }.

Module page.
Record Page : Type := Mk { Items : list SItem; NextAfter : Sequence; More : bool }.
End page.
Abbreviation Page := page.Page.

Module resumed.
Record ResumeState : Type := Mk {
  Snapshot' : Snapshot; Operations : list Operation; ExternalInputIDs : list InputID }.
End resumed.
Abbreviation ResumeState := resumed.ResumeState.

(** ** Codecs *)

#[local] Unset Program Cases.

Program Definition Session_codec : codec Session := {|
  zero := session.Mk EmptyString Time_zero;
  enc s := enc_struct [field string_codec "ID" (session.ID s);
                       field Time_codec "CreatedAt" (session.CreatedAt s)];
  dec := dec_struct (session.Mk EmptyString Time_zero) (λ o,
    a ← get string_codec "ID" o; b ← get Time_codec "CreatedAt" o; Some (session.Mk a b));
  jok _ := True |}.
Next Obligation. intros [a b] j _. struct_dec. Qed.
Next Obligation. intros [a b] j. struct_enc_ok. Qed.

Program Definition Turn_codec : codec Turn := {|
  zero := turn.Mk EmptyString EmptyString EmptyString;
  enc s := enc_struct [field string_codec "ID" (turn.ID s);
    field string_codec "PreviousTurnID" (turn.PreviousTurnID s); field string_codec "Type" (turn.Type' s)];
  dec := dec_struct (turn.Mk EmptyString EmptyString EmptyString) (λ o,
    a ← get string_codec "ID" o; b ← get string_codec "PreviousTurnID" o; c ← get string_codec "Type" o;
    Some (turn.Mk a b c));
  jok _ := True |}.
Next Obligation. intros [a b c] j _. struct_dec. Qed.
Next Obligation. intros [a b c] j. struct_enc_ok. Qed.

Program Definition Fork_codec : codec Fork := {|
  zero := fork.Mk EmptyString EmptyString;
  enc s := enc_struct [field string_codec "ParentID" (fork.ParentID s);
                       field string_codec "PreviousTurnID" (fork.PreviousTurnID s)];
  dec := dec_struct (fork.Mk EmptyString EmptyString) (λ o,
    a ← get string_codec "ParentID" o; b ← get string_codec "PreviousTurnID" o; Some (fork.Mk a b));
  jok _ := True |}.
Next Obligation. intros [a b] j _. struct_dec. Qed.
Next Obligation. intros [a b] j. struct_enc_ok. Qed.

Program Definition ModelResponse_codec : codec ModelResponse := {|
  zero := mresponse.Mk EmptyString (zero Response_codec);
  enc s := enc_struct [field string_codec "TurnID" (mresponse.TurnID' s);
                       field Response_codec "Response" (mresponse.Response' s)];
  dec := dec_struct (mresponse.Mk EmptyString (zero Response_codec)) (λ o,
    a ← get string_codec "TurnID" o; b ← get Response_codec "Response" o; Some (mresponse.Mk a b));
  jok s := jok Response_codec (mresponse.Response' s) |}.
Next Obligation. intros [a b] j H. cbn -[jok] in H. struct_dec. Qed.
Next Obligation. intros [a b] j. struct_enc_ok. Qed.

Definition operations_jok (ops : list Operation) : Prop := jok (list_codec Operation_codec) ops.

Program Definition ToolCallStatus_codec : codec ToolCallStatus := {|
  zero := tcs.Mk EmptyString EmptyString (zero CallStatus_codec) [];
  enc s := enc_struct [field string_codec "TurnID" (tcs.TurnID' s); field string_codec "CallID" (tcs.CallID s);
    field CallStatus_codec "Status" (tcs.Status' s);
    field_omit (list_codec Operation_codec) "Operations" (is_empty (tcs.Operations s)) (tcs.Operations s)];
  dec := dec_struct (tcs.Mk EmptyString EmptyString (zero CallStatus_codec) []) (λ o,
    a ← get string_codec "TurnID" o; b ← get string_codec "CallID" o;
    c ← get CallStatus_codec "Status" o; d ← get (list_codec Operation_codec) "Operations" o;
    Some (tcs.Mk a b c d));
  jok s := operations_jok (tcs.Operations s) |}.
Next Obligation. intros [a b c d] j H. unfold operations_jok in H. cbn -[jok] in H. struct_dec. Qed.
Next Obligation. intros [a b c d] j. struct_enc_ok. Qed.

(** ** sessionstore/itemjson.go *)

(** The text of the verb %T. *)
Definition data_type_name (d : StoreData) : string :=
  match d with
  | StoreFork _ => "sessionstore.Fork"
  | StoreInput _ => "inbox.Input"
  | StoreTurn _ => "session.Turn"
  | StoreModelResponse _ => "sessionstore.ModelResponse"
  | StoreToolCallStatus _ => "sessionstore.ToolCallStatus"
  | StoreNil => "<nil>"
  | StoreOther t => t
  end.

Definition validateData (i : SItem) : result unit :=
  let wrong (what want : string) :=
    Err (errors_New (what +:+ " data must be " +:+ want +:+ ", got " +:+ data_type_name (sitem.Data i))) in
  let k := sitem.Kind i in
  if bool_decide (k = ItemFork) then
    match sitem.Data i with StoreFork _ => Ok tt | _ => wrong "fork" "sessionstore.Fork" end
  else if bool_decide (k = ItemInput) then
    match sitem.Data i with
    | StoreInput input => map_err (Errorf_w "invalid input data: ") (Inbox.Validate input)
    | _ => wrong "input" "inbox.Input"
    end
  else if bool_decide (k = ItemTurn) then
    match sitem.Data i with StoreTurn _ => Ok tt | _ => wrong "turn" "session.Turn" end
  else if bool_decide (k = ItemModelResponse) then
    match sitem.Data i with
    | StoreModelResponse _ => Ok tt | _ => wrong "model response" "sessionstore.ModelResponse" end
  else if bool_decide (k = ItemToolCallStatus) then
    match sitem.Data i with
    | StoreToolCallStatus _ => Ok tt | _ => wrong "tool-call status" "sessionstore.ToolCallStatus" end
  else Err (errors_New ("unsupported item kind " +:+ quote k)).

Definition decodeItemData (kind : ItemKind) (encoded : value) : result StoreData :=
  let named (what : string) := Errorf_w ("decode " +:+ what +:+ " data: ") in
  if bool_decide (encoded = VText JNull) then Err (errors_New (kind +:+ " data must not be null"))
  else if bool_decide (kind = ItemFork) then
    StoreFork <$> map_err (named "fork") (Unmarshal Fork_codec encoded)
  else if bool_decide (kind = ItemInput) then
    input ← map_err (named "input") (Unmarshal Input_codec encoded);
    _ ← map_err (named "input") (Inbox.Validate input);
    Ok (StoreInput input)
  else if bool_decide (kind = ItemTurn) then
    StoreTurn <$> map_err (named "turn") (Unmarshal Turn_codec encoded)
  else if bool_decide (kind = ItemModelResponse) then
    StoreModelResponse <$> map_err (named "model response") (Unmarshal ModelResponse_codec encoded)
  else if bool_decide (kind = ItemToolCallStatus) then
    StoreToolCallStatus <$> map_err (named "tool-call status") (Unmarshal ToolCallStatus_codec encoded)
  else Err (errors_New ("unsupported item kind " +:+ quote kind)).

Definition enc_data (d : StoreData) : option json :=
  match d with
  | StoreFork f => enc Fork_codec f
  | StoreInput i => enc Input_codec i
  | StoreTurn t => enc Turn_codec t
  | StoreModelResponse r => enc ModelResponse_codec r
  | StoreToolCallStatus s => enc ToolCallStatus_codec s
  | StoreNil => Some JNull
  | StoreOther _ => None
  end.

(** The integers of the data fit their types. *)
Definition data_jok (d : StoreData) : Prop :=
  match d with
  | StoreModelResponse r => jok ModelResponse_codec r
  | StoreToolCallStatus s => jok ToolCallStatus_codec s
  | _ => True
  end.

Lemma enc_data_ok d j : enc_data d = Some j → json_ok j = true.
Proof.
  destruct d as [f|i|t|r|s| |t]; [apply (enc_ok Fork_codec)|apply (enc_ok Input_codec)
    |apply (enc_ok Turn_codec)|apply (enc_ok ModelResponse_codec)|apply (enc_ok ToolCallStatus_codec)| |done].
  by intros [= <-].
Qed.

#[local] Arguments Unmarshal : simpl never.

Lemma decode_encoded_item_data i j :
  validateData i = Ok tt → data_jok (sitem.Data i) → enc_data (sitem.Data i) = Some j →
  decodeItemData (sitem.Kind i) (VText j) = Ok (sitem.Data i).
Proof.
  destruct i as [n r k d]. unfold validateData, decodeItemData. cbn [sitem.Kind sitem.Data].
  intros Hv Ha Hj. pose proof (enc_data_ok d j Hj) as Hok.
  assert (∀ l, enc_struct l = Some j → bool_decide (VText j = VText JNull) = false) as Hnull.
  { intros l (o & ->)%enc_struct_object. by apply bool_decide_false. }
  assert (∀ A (c : codec A) a, jok c a → enc c a = Some j → Unmarshal c (VText j) = Ok a) as Hd.
  { intros A c a Hc He. unfold Unmarshal. by rewrite Hok, (dec_enc c a j Hc He). }
  repeat (if_in Hv; [destruct d as [f|i|t|m|s| |t]; try done; subst k; rewrite (Hnull _ Hj); simpl;
                     first [by rewrite (Hd _ Fork_codec _ I Hj) | by rewrite (Hd _ Turn_codec _ I Hj)
                           | by rewrite (Hd _ ModelResponse_codec _ Ha Hj)
                           | by rewrite (Hd _ ToolCallStatus_codec _ Ha Hj)
                           | rewrite (Hd _ Input_codec _ I Hj); simpl; apply map_err_ok in Hv; by rewrite Hv]|]);
    done.
Qed.

(** [MarshalJSON] and [UnmarshalJSON].  A null reads as an item without a kind. *)
Program Definition SItem_codec : codec SItem := {|
  zero := sitem.Mk 0 Time_zero EmptyString StoreNil;
  enc i := match validateData i with
           | Ok _ => enc_struct [field uint64_codec "Sequence" (sitem.Sequence' i);
                                 field Time_codec "RecordedAt" (sitem.RecordedAt i);
                                 field string_codec "Kind" (sitem.Kind i);
                                 ("Data", false, enc_data (sitem.Data i))]
           | _ => None
           end;
  dec j := match j with
           | JObj o =>
             s ← get uint64_codec "Sequence" o;
             r ← get Time_codec "RecordedAt" o;
             k ← get string_codec "Kind" o;
             v ← get value_codec "Data" o;
             d ← option_of (decodeItemData k v);
             Some (sitem.Mk s r k d)
           | _ => None
           end;
  jok i := in_uint64 (sitem.Sequence' i) = true ∧ data_jok (sitem.Data i) |}.
Next Obligation.
  intros i j [Hs Ha]. simpl. destruct (validateData i) as [[]| |] eqn:Hv; [|done|done].
  intros H. apply fmap_Some in H as (o & H & ->).
  assert (is_Some (enc_data (sitem.Data i))) as [jd Hjd].
  { eapply (enc_struct_fields _ "Data" false);
      [exists (JObj o); apply fmap_Some; exists o; split; [exact H|done]|in_list|done]. }
  do 3 struct_get H.
  unfold get. struct_assoc H "Data" (enc_data (sitem.Data i)). rewrite Hjd. simpl.
  rewrite (decode_encoded_item_data i jd Hv Ha Hjd). by destruct i.
Qed.
Next Obligation.
  intros i j. simpl. destruct (validateData i); [|done|done]. apply enc_struct_ok;
    [nodup_names|lazy; reflexivity|].
  repeat (apply Forall_cons; split; [first [intros ?; apply field_enc_ok|exact (enc_data_ok _)]|]).
  apply Forall_nil. exact I.
Qed.
