(* ===== verification/Coordinator.v ===== *)
(** * The coordinator: coordinator/loop.go

    The decision loop of one session as a step function.  The local state
    [loop.State] is what the loop replays from the session's items; around it
    [coord] holds the accepted stop, the request in flight, the timers and the
    effects made so far.  The environment is a record of oracles: what the
    store, the manager and the inbox answer to each call, the identifiers
    that uuid.New gives, and the order in which a map is walked. *)

From Stdlib Require Import Ascii ZArith Lia.
From stdpp Require Import sorting.
From S2P Require Import Prelude GoStrings GoText Json JsonCodec GoTime Primitives.
From S2P Require Import Operation Llm Inbox Tool ContextBuilder SessionStore.

Local Open Scope Z_scope.

Definition historyPageSize : Z := 256.
Definition slurpMaxItems : Z := 100.

(** ** State *)

Definition toolCallKey : Type := TurnID * string.

Module tcall.
(** [status] is nil until the call was scheduled. *)
Record toolCallState : Type := Mk {
  toolCall : ToolCall;
  status : option CallStatus;
  operations : gset ID }.
End tcall.
Abbreviation toolCallState := tcall.toolCallState.

(** The fields of loopState; [builder] is the context builder.  A timer is the
    fact that it is set.  Counters are integers: they count items of a session. *)
Module loop.
Record State (B : Type) : Type := Mk {
  currentTurnID : TurnID;
  currentTurnType : TurnType;
  toolCalls : gmap toolCallKey toolCallState;
  operations : gmap ID Operation;
  availableInputs : Z;
  deliveredInputs : Z;
  currentTurnInputs : Z;
  callModel : bool;
  grace : bool;
  graceToolCalls : gset toolCallKey;
  builder : B }.
Arguments Mk {B}.
Arguments currentTurnID {B}.
Arguments currentTurnType {B}.
Arguments toolCalls {B}.
Arguments operations {B}.
Arguments availableInputs {B}.
Arguments deliveredInputs {B}.
Arguments currentTurnInputs {B}.
Arguments callModel {B}.
Arguments grace {B}.
Arguments graceToolCalls {B}.
Arguments builder {B}.

Section Setters.
Context {B : Type}.
Implicit Types s : State B.

Definition set_turn (t : Turn) s : State B :=
  Mk (turn.ID t) (turn.Type' t) (toolCalls s) (operations s) (availableInputs s) (deliveredInputs s)
    (availableInputs s) (callModel s) (grace s) (graceToolCalls s) (builder s).
Definition set_toolCalls (f : gmap toolCallKey toolCallState → gmap toolCallKey toolCallState) s : State B :=
  Mk (currentTurnID s) (currentTurnType s) (f (toolCalls s)) (operations s) (availableInputs s)
    (deliveredInputs s) (currentTurnInputs s) (callModel s) (grace s) (graceToolCalls s) (builder s).
Definition set_operations (f : gmap ID Operation → gmap ID Operation) s : State B :=
  Mk (currentTurnID s) (currentTurnType s) (toolCalls s) (f (operations s)) (availableInputs s)
    (deliveredInputs s) (currentTurnInputs s) (callModel s) (grace s) (graceToolCalls s) (builder s).
Definition add_input s : State B :=
  Mk (currentTurnID s) (currentTurnType s) (toolCalls s) (operations s) (availableInputs s + 1)
    (deliveredInputs s) (currentTurnInputs s) (callModel s) (grace s) (graceToolCalls s) (builder s).
Definition deliver_inputs s : State B :=
  Mk (currentTurnID s) (currentTurnType s) (toolCalls s) (operations s) (availableInputs s)
    (currentTurnInputs s) (currentTurnInputs s) (callModel s) (grace s) (graceToolCalls s) (builder s).
Definition set_callModel (b : bool) s : State B :=
  Mk (currentTurnID s) (currentTurnType s) (toolCalls s) (operations s) (availableInputs s)
    (deliveredInputs s) (currentTurnInputs s) b (grace s) (graceToolCalls s) (builder s).
Definition set_grace (b : bool) (calls : gset toolCallKey) s : State B :=
  Mk (currentTurnID s) (currentTurnType s) (toolCalls s) (operations s) (availableInputs s)
    (deliveredInputs s) (currentTurnInputs s) (callModel s) b calls (builder s).
Definition set_builder (f : B → B) s : State B :=
  Mk (currentTurnID s) (currentTurnType s) (toolCalls s) (operations s) (availableInputs s)
    (deliveredInputs s) (currentTurnInputs s) (callModel s) (grace s) (graceToolCalls s) (f (builder s)).
End Setters.
End loop.
Abbreviation loopState := loop.State.

(** What the coordinator does to the outside. *)
Inductive effect : Type :=
  | EAppend (i : SItem)                       (* Sessions.Append... *)
  | ESave (o : Operation)                     (* Sessions.SaveOperation *)
  | EAdd (o : Operation)                      (* Operations.Add *)
  | ECancel (id : ID) (reason : string)       (* Operations.Cancel *)
  | ESubmit (i : Input)                       (* Inbox.Submit *)
  | ERequest (turn : TurnID) (r : Request).   (* LLM.Respond is started *)

(** The environment of a run; [history] are the effects before the call. *)
Record environment : Type := Environment {
  resolve : string → option Translator;
  answer : list effect → effect → option error;
  new_id : nat → string;
  walk_calls : list effect → list toolCallKey → list toolCallKey;
  walk_operations : list effect → list ID → list ID;
  heartbeat_seconds : string;
}.

(** A walk visits every key of a map once. *)
Definition walks (env : environment) : Prop :=
  (∀ h l, walk_calls env h l ≡ₚ l) ∧ (∀ h l, walk_operations env h l ≡ₚ l).

Inductive timer : Set := Unset | Armed | Fired.

Record coord (B : Type) : Type := MkCoord {
  state : loopState B;
  stop : ControlMessage;
  cancellationRequested : bool;
  cancelModel : bool;            (* a request is in flight *)
  heartbeat : timer;
  trace : list effect;
  ids : nat;                     (* identifiers taken *)
}.
Arguments MkCoord {B}.
Arguments state {B}.
Arguments stop {B}.
Arguments cancellationRequested {B}.
Arguments cancelModel {B}.
Arguments heartbeat {B}.
Arguments trace {B}.
Arguments ids {B}.

Definition no_stop : ControlMessage := control.Mk EmptyString EmptyString None.

Definition newLoopState {B} (builder : B) : loopState B :=
  loop.Mk EmptyString EmptyString ∅ ∅ 0 0 0 false false ∅ builder.

Definition New_coordinator {B} (builder : B) : coord B :=
  MkCoord (newLoopState builder) no_stop false false Unset [] 0.

Definition operationIsTerminal (status : Status) : bool :=
  bool_decide (status = StatusCompleted) || bool_decide (status = StatusFailed)
  || bool_decide (status = StatusCanceled).

Definition toolCallStatusesRequireModelResponse (statuses : list ToolCallStatus) : bool :=
  existsb (λ s, negb (bool_decide (status.Error (tcs.Status' s) = EmptyString))
                || is_empty (status.WaitingFor (tcs.Status' s))) statuses.

Definition toolCallRequiresTranslator (s : ToolCallStatus) : bool :=
  bool_decide (status.Error (tcs.Status' s) = EmptyString)
  || negb (is_empty (status.WaitingFor (tcs.Status' s)))
  || negb (is_empty (tcs.Operations s)).

(** An item as the coordinator makes it: the store numbers and dates it. *)
Definition local_item (kind : ItemKind) (d : StoreData) : SItem := sitem.Mk 0 Time_zero kind d.

(** ** The local state *)

Section Local.
Context {B : Type} `{!ContextBuilder B} (env : environment).
Implicit Types s : loopState B.

Definition clearToolGrace s : loopState B := loop.set_grace false ∅ s.

Definition pendingInputs s : Z := loop.availableInputs s - loop.deliveredInputs s.

Definition hasPendingOperations s : bool :=
  existsb (λ m, negb (operationIsTerminal (op.Status' (snd m)))) (map_to_list (loop.operations s)).

Definition addOperationToLocalState (value : Operation) s : loopState B :=
  loop.set_operations <[op.ID' value := value]> s.

(** The panic of a type assertion that fails. *)
Definition add_tool_call (turnID : TurnID) (output : Item) : M (loopState B) unit :=
  if bool_decide (item.Type' output = ItemToolCall) then
    match item.Data output with
    | DataToolCall c =>
      modify (loop.set_toolCalls <[(turnID, call.CallID c) := tcall.Mk c None ∅]>)
    | _ => lift (Panic "interface conversion: interface is not llm.ToolCall")
    end
  else mret tt.

Definition addToolCallsToLocalState (r : ModelResponse) : M (loopState B) unit :=
  for_each (add_tool_call (mresponse.TurnID' r)) (response.Output (mresponse.Response' r)).

Definition status_key (s : ToolCallStatus) : toolCallKey := (tcs.TurnID' s, tcs.CallID s).

Definition addToolCallOperationsToLocalState (st : ToolCallStatus) s : loopState B :=
  match loop.toolCalls s !! status_key st with
  | None => s
  | Some c =>
    loop.set_toolCalls <[status_key st := tcall.Mk (tcall.toolCall c) (Some (tcs.Status' st))
      (tcall.operations c ∪ list_to_set (status.WaitingFor (tcs.Status' st)))]> s
  end.

Definition finishToolCall (key : toolCallKey) s : loopState B :=
  let s := loop.set_toolCalls (delete key) s in
  let calls := loop.graceToolCalls s ∖ {[key]} in
  let s := loop.set_grace (loop.grace s) calls s in
  let s := if bool_decide (calls = ∅) then clearToolGrace s else s in
  loop.add_input s.

Definition operation_terminal (ops : gmap ID Operation) (id : ID) : bool :=
  match ops !! id with Some v => operationIsTerminal (op.Status' v) | None => false end.

Definition toolCallOperationsAreTerminal s (key : toolCallKey) : bool :=
  match loop.toolCalls s !! key with
  | None => true
  | Some c => forallb (operation_terminal (loop.operations s)) (elements (tcall.operations c))
  end.

(** The operations that a status waits for; none when one is missing. *)
Definition waited_operations (known : gset ID) (ops : gmap ID Operation) (ids : list ID)
    : option (list Operation) :=
  mapM (λ id, if bool_decide (id ∈ known) then ops !! id else None) ids.

Definition addToolResultToLocalState (st : ToolCallStatus) : M (loopState B) unit :=
  s ← self;
  match loop.toolCalls s !! status_key st with
  | None => mret tt
  | Some c =>
    match resolve env (call.Name (tcall.toolCall c)) with
    | None =>
      if toolCallRequiresTranslator st then mret tt
      else
        _ ← modify (loop.set_builder (AddToolResult (tcs.CallID st)
               [tro.Mk ToolResultText (status.Error (tcs.Status' st))] false));
        modify (finishToolCall (status_key st))
    | Some t =>
      match waited_operations (tcall.operations c) (loop.operations s) (status.WaitingFor (tcs.Status' st)) with
      | None => mret tt
      | Some operations =>
        r ← lift (map_err (Errorf_w ("add tool call " +:+ quote (tcs.CallID st) +:+ " result to context: "))
                    (TranslateResult t (tcs.CallID st) (tcs.Status' st) operations));
        let running := negb (toolCallOperationsAreTerminal s (status_key st)) in
        _ ← modify (loop.set_builder (AddToolResult (tcs.CallID st) (tr.Output r) running));
        if running then mret tt else modify (finishToolCall (status_key st))
      end
    end
  end.

(** A method of the builder. *)
Definition on_builder (m : M B unit) : M (loopState B) unit := λ s,
  let '(b, r) := m (loop.builder s) in (loop.set_builder (λ _, b) s, r).

Definition data_error (what want : string) (d : StoreData) : error :=
  errors_New (what +:+ " data is " +:+ data_type_name d +:+ ", want " +:+ want).

Definition add_input_item (i : Input) : M (loopState B) unit :=
  _ ← lift (map_err (Errorf_w "invalid input: ") (Validate i));
  _ ← (if bool_decide (input.Kind i = InputExternal) then
         _ ← (λ s, let '(s', r) := on_builder (AddExternalInput i) s in
                (s', map_err (Errorf_w ("add input " +:+ quote (input.ID i) +:+ " to context: ")) r));
         modify loop.add_input
       else mret tt);
  if bool_decide (input.Kind i = InputControl) then
    request ← lift (DecodeControlMessage i);
    _ ← on_builder (AddControlMessage request);
    if bool_decide (control.Mode request = Heartbeat) then modify loop.add_input else mret tt
  else mret tt.

Definition compaction_response s (r : ModelResponse) : bool :=
  bool_decide (loop.currentTurnType s = TurnCompaction)
  && bool_decide (mresponse.TurnID' r = loop.currentTurnID s).

(** The item is returned as it came. *)
Definition addItemToLocalState (i : SItem) : M (loopState B) unit :=
  let kind := sitem.Kind i in
  if bool_decide (kind = ItemFork) then
    match sitem.Data i with
    | StoreFork _ =>
      _ ← modify (loop.set_toolCalls (λ _, ∅)); _ ← modify (loop.set_operations (λ _, ∅));
      modify clearToolGrace
    | d => fail (data_error "fork" "sessionstore.Fork" d)
    end
  else if bool_decide (kind = ItemInput) then
    match sitem.Data i with
    | StoreInput i => add_input_item i
    | d => fail (data_error "input" "inbox.Input" d)
    end
  else if bool_decide (kind = ItemTurn) then
    match sitem.Data i with
    | StoreTurn t => _ ← modify (loop.set_turn t); modify (loop.set_builder Commit)
    | d => fail (data_error "turn" "session.Turn" d)
    end
  else if bool_decide (kind = ItemModelResponse) then
    match sitem.Data i with
    | StoreModelResponse r =>
      s ← self;
      if compaction_response s r then mret tt
      else
        _ ← modify (loop.set_builder (AddModelResponse (mresponse.Response' r)));
        _ ← (if bool_decide (mresponse.TurnID' r = loop.currentTurnID s) then modify loop.deliver_inputs
             else mret tt);
        addToolCallsToLocalState r
    | d => fail (data_error "model response" "sessionstore.ModelResponse" d)
    end
  else if bool_decide (kind = ItemToolCallStatus) then
    match sitem.Data i with
    | StoreToolCallStatus st =>
      _ ← for_each (λ v, modify (addOperationToLocalState v)) (tcs.Operations st);
      _ ← modify (addToolCallOperationsToLocalState st);
      addToolResultToLocalState st
    | d => fail (data_error "tool-call status" "sessionstore.ToolCallStatus" d)
    end
  else fail (errors_New ("unsupported item kind " +:+ quote kind)).

(** ** Restoring a session *)

Definition restoreItem (i : SItem) : M (loopState B) unit :=
  s ← self;
  let unavailable :=
    match sitem.Data i with
    | StoreToolCallStatus st =>
      if bool_decide (sitem.Kind i = ItemToolCallStatus) && toolCallRequiresTranslator st then
        match loop.toolCalls s !! status_key st with
        | Some c =>
          match resolve env (call.Name (tcall.toolCall c)) with
          | Some _ => None
          | None => Some (errors_New ("tool " +:+ quote (call.Name (tcall.toolCall c))
              +:+ " required by recorded call " +:+ quote (tcs.CallID st) +:+ " is not available"))
          end
        | None => None
        end
      else None
    | _ => None
    end in
  match unavailable with
  | Some e => fail e
  | None => addItemToLocalState i
  end.

(** The loop over the pages of the history; none when the fuel is used up. *)
Fixpoint loadHistory (Items : Sequence → Z → result Page) (fuel : nat) (after : Sequence)
    : M (loopState B) (option unit) :=
  match fuel with
  | O => mret None
  | S fuel =>
    p ← lift (map_err (Errorf_w ("load session history after " +:+ Itoa after +:+ ": "))
                (Items after historyPageSize));
    _ ← for_each (λ i s, let '(s', r) := restoreItem i s in
          (s', map_err (Errorf_w ("load session item " +:+ Itoa (sitem.Sequence' i) +:+ ": ")) r))
        (page.Items p);
    if negb (page.More p) then mret (Some tt)
    else if page.NextAfter p <=? after then
      fail (errors_New ("load session history did not advance after " +:+ Itoa after))
    else loadHistory Items fuel (page.NextAfter p)
  end.

Definition restore (Items : Sequence → Z → result Page) (restored : list Operation) (fuel : nat)
    : M (loopState B) (option unit) :=
  r ← loadHistory Items fuel BeforeFirst;
  match r with
  | None => mret None
  | Some _ => _ ← for_each (λ v, modify (addOperationToLocalState v)) restored; mret (Some tt)
  end.

End Local.

(** ** The loop *)

(** What one select of slurpChannel receives. *)
Inductive slurp_event (T : Type) : Type :=
  | SlurpDone (cause : error)
  | SlurpClosed
  | SlurpItem (x : T)
  | SlurpIdle.
Arguments SlurpDone {T}.
Arguments SlurpClosed {T}.
Arguments SlurpItem {T}.
Arguments SlurpIdle {T}.

(** [room] items fit; when nothing more is sent the idle timer fires. *)
Fixpoint slurp {T} (room : nat) (events : list (slurp_event T)) : result (list T) :=
  match room, events with
  | S room, SlurpItem x :: events => inputs ← slurp room events; Ok (x :: inputs)
  | S _, SlurpDone cause :: _ => Err cause
  | _, _ => Ok []
  end.

Definition slurpChannel {T} (events : list (slurp_event T)) : result (list T) :=
  slurp (Z.to_nat slurpMaxItems) events.

Section Run.
Context {B : Type} `{!ContextBuilder B} (env : environment).
Implicit Types c : coord B.

Definition with_state (f : loopState B → loopState B) c : coord B :=
  MkCoord (f (state c)) (stop c) (cancellationRequested c) (cancelModel c) (heartbeat c) (trace c) (ids c).
Definition set_stop (m : ControlMessage) c : coord B :=
  MkCoord (state c) m (cancellationRequested c) (cancelModel c) (heartbeat c) (trace c) (ids c).
Definition set_requested (b : bool) c : coord B :=
  MkCoord (state c) (stop c) b (cancelModel c) (heartbeat c) (trace c) (ids c).
Definition set_cancelModel (b : bool) c : coord B :=
  MkCoord (state c) (stop c) (cancellationRequested c) b (heartbeat c) (trace c) (ids c).
Definition set_heartbeat (t : timer) c : coord B :=
  MkCoord (state c) (stop c) (cancellationRequested c) (cancelModel c) t (trace c) (ids c).
Definition set_ids (n : nat) c : coord B :=
  MkCoord (state c) (stop c) (cancellationRequested c) (cancelModel c) (heartbeat c) (trace c) n.
Definition log (e : effect) c : coord B :=
  MkCoord (state c) (stop c) (cancellationRequested c) (cancelModel c) (heartbeat c) (trace c ++ [e]) (ids c).

Definition on_state {A} (m : M (loopState B) A) : M (coord B) A := λ c,
  let '(s, r) := m (state c) in (with_state (λ _, s) c, r).

(** A call to the outside and what it answers. *)
Definition perform (e : effect) : M (coord B) (option error) := λ c,
  (log e c, Ok (answer env (trace c) e)).

(** [if err := call; err != nil { return wrap(err) }] *)
Definition perform_or_fail (e : effect) (wrap : error → error) : M (coord B) unit :=
  r ← perform e;
  match r with None => mret tt | Some err => fail (wrap err) end.

Definition fresh_id : M (coord B) string := λ c, (set_ids (S (ids c)) c, Ok (new_id env (ids c))).

(** *** Storing *)

Definition store_error (i : SItem) (err : error) : error :=
  match sitem.Data i with
  | StoreInput i => Errorf_w ("store input " +:+ quote (input.ID i) +:+ ": ") err
  | StoreTurn t => Errorf_w ("store turn " +:+ quote (turn.ID t) +:+ ": ") err
  | StoreModelResponse r => Errorf_w ("store turn " +:+ quote (mresponse.TurnID' r) +:+ " response: ") err
  | StoreToolCallStatus s => Errorf_w ("store tool call " +:+ quote (tcs.CallID s) +:+ " status: ") err
  | _ => err
  end.

Definition storeItemInSessionStore (i : SItem) : M (coord B) unit :=
  if bool_decide (sitem.Kind i ∈ [ItemInput; ItemTurn; ItemModelResponse; ItemToolCallStatus]) then
    perform_or_fail (EAppend i) (store_error i)
  else fail (errors_New ("unsupported local item kind " +:+ quote (sitem.Kind i))).

Definition storeOperationInSessionStore (v : Operation) : M (coord B) unit :=
  perform_or_fail (ESave v) (Errorf_w ("store operation " +:+ quote (op.ID' v) +:+ ": ")).

Definition add_and_store (i : SItem) : M (coord B) unit :=
  _ ← on_state (addItemToLocalState env i); storeItemInSessionStore i.

(** *** Operations *)

Definition dispatchOperationToManager (v : Operation) : M (coord B) unit :=
  if operationIsTerminal (op.Status' v) then mret tt
  else perform_or_fail (EAdd v) (Errorf_w ("dispatch operation " +:+ quote (op.ID' v) +:+ ": ")).

Definition operations_walk c : list Operation :=
  omap (λ id, loop.operations (state c) !! id)
    (walk_operations env (trace c) (map_to_list (loop.operations (state c))).*1).

Definition dispatchOperationsToManager : M (coord B) unit :=
  vs ← gets operations_walk; for_each dispatchOperationToManager vs.

Fixpoint cancel_each (reason : string) (vs : list Operation) (failed : option error)
    : M (coord B) (option error) :=
  match vs with
  | [] => mret failed
  | v :: vs =>
    if operationIsTerminal (op.Status' v) then cancel_each reason vs failed
    else
      r ← perform (ECancel (op.ID' v) reason);
      let failed :=
        match r with
        | None => failed
        | Some e =>
          let e := Errorf_w ("cancel operation " +:+ quote (op.ID' v) +:+ ": ") e in
          Some (match failed with None => e | Some f => errors_Join f e end)
        end in
      cancel_each reason vs failed
  end.

Definition cancelOperations : M (coord B) unit :=
  c ← self;
  r ← cancel_each (control.Reason (stop c)) (operations_walk c) None;
  match r with None => mret tt | Some e => fail e end.

Definition handleOperationUpdate (update : Operation) : M (coord B) unit :=
  _ ← modify (with_state (addOperationToLocalState update)); storeOperationInSessionStore update.

(** *** Tool calls *)

Definition calls_walk c : list toolCallKey :=
  walk_calls env (trace c) (map_to_list (loop.toolCalls (state c))).*1.

Definition scheduleToolCall (key : toolCallKey) (tc : ToolCall) : M (coord B) ToolCallStatus :=
  c ← self;
  let ctx := MkContext (new_id env) (ids c) [] in
  let '(ctx, status) :=
    match resolve env (call.Name tc) with
    | Some t => Translate t tc ctx
    | None => (ctx, ErrorStatus ("tool " +:+ quote (call.Name tc) +:+ " is not available") 0)
    end in
  _ ← modify (set_ids (next ctx));
  _ ← for_each (λ v, modify (with_state (addOperationToLocalState v))) (operations ctx);
  let st := tcs.Mk (fst key) (snd key) status (operations ctx) in
  _ ← add_and_store (local_item ItemToolCallStatus (StoreToolCallStatus st));
  mret st.

(** The calls of the walk that were not scheduled. *)
Fixpoint schedule_each (keys : list toolCallKey) : M (coord B) (list ToolCallStatus) :=
  match keys with
  | [] => mret []
  | key :: keys =>
    c ← self;
    match loop.toolCalls (state c) !! key with
    | Some tc =>
      if bool_decide (is_Some (tcall.status tc)) then schedule_each keys
      else
        st ← scheduleToolCall key (tcall.toolCall tc);
        sts ← schedule_each keys; mret (st :: sts)
    | None => schedule_each keys
    end
  end.

Definition scheduleToolCalls : M (coord B) (list ToolCallStatus) :=
  keys ← gets calls_walk; schedule_each keys.

(** A missing operation reads as the zero value. *)
Definition zero_operation : Operation := op.Mk 0 EmptyString EmptyString 0 EmptyString VNil VNil.

Definition reconciled (ops : gmap ID Operation) (key : toolCallKey) (status : CallStatus) : ToolCallStatus :=
  tcs.Mk (fst key) (snd key) status
    ((λ id, default zero_operation (ops !! id)) <$> status.WaitingFor status).

Fixpoint reconcile_each (keys : list toolCallKey) : M (coord B) (list ToolCallStatus) :=
  match keys with
  | [] => mret []
  | key :: keys =>
    c ← self;
    match loop.toolCalls (state c) !! key with
    | None => reconcile_each keys
    | Some tc =>
      if negb (toolCallOperationsAreTerminal (state c) key) then reconcile_each keys
      else match tcall.status tc with
      | None => fail (errors_New ("reconcile untranslated tool call " +:+ quote (snd key) +:+ " in turn "
                        +:+ quote (fst key)))
      | Some status =>
        let st := reconciled (loop.operations (state c)) key status in
        _ ← add_and_store (local_item ItemToolCallStatus (StoreToolCallStatus st));
        c ← self;
        rest ← reconcile_each keys;
        mret (if bool_decide (is_Some (loop.toolCalls (state c) !! key)) then rest else st :: rest)
      end
    end
  end.

Definition reconcileToolCalls : M (coord B) (list ToolCallStatus) :=
  keys ← gets calls_walk; reconcile_each keys.

(** *** Inputs *)

Definition acceptStop (m : ControlMessage) c : coord B :=
  if bool_decide (control.Mode (stop c) = StopHard) then c else set_stop m c.

Definition handleInboxInput (i : Input) : M (coord B) unit :=
  _ ← add_and_store (local_item ItemInput (StoreInput i));
  if bool_decide (input.Kind i = InputControl) then
    m ← lift (DecodeControlMessage i);
    if bool_decide (control.Mode m = UpdateSettings) then mret tt
    else
      _ ← (if bool_decide (control.Mode m ∈ [StopHard; StopWhenIdle]) then modify (acceptStop m)
           else mret tt);
      modify (with_state clearToolGrace)
  else modify (with_state clearToolGrace).

Definition handleInboxInputs (inputs : list Input) : M (coord B) unit :=
  for_each (λ i,
    _ ← handleInboxInput i;
    if bool_decide (input.Kind i = InputExternal) then modify (with_state (loop.set_callModel true))
    else mret tt) inputs.

(** *** Requests and responses *)

Definition interruptModel : M (coord B) unit := modify (set_cancelModel false).

Definition requestModelResponse : M (coord B) unit :=
  _ ← interruptModel;
  c ← self;
  built ← lift (map_err (Errorf_w "build model request: ") (Build (loop.builder (state c))));
  id ← fresh_id;
  let turn := turn.Mk id (loop.currentTurnID (state c)) TurnRegular in
  _ ← add_and_store (local_item ItemTurn (StoreTurn turn));
  _ ← modify (set_cancelModel true);
  _ ← modify (with_state (loop.set_callModel false));
  _ ← perform (ERequest id built); mret tt.

Definition handleModelResponse (r : ModelResponse) : M (coord B) (list ToolCallStatus) :=
  _ ← add_and_store (local_item ItemModelResponse (StoreModelResponse r));
  c ← self;
  if compaction_response (state c) r then mret []
  else
    statuses ← scheduleToolCalls;
    _ ← modify (with_state (loop.set_callModel (toolCallStatusesRequireModelResponse statuses)));
    mret statuses.

(** [ctx_err] is what ctx.Err() returns. *)
Definition processModelResponse (ctx_err : option error) (turn : TurnID) (r : Response + error)
    : M (coord B) unit :=
  _ ← interruptModel;
  match r with
  | inr e =>
    match ctx_err with
    | Some c => fail c
    | None => fail (Errorf_w ("call model for turn " +:+ quote turn +:+ ": ") e)
    end
  | inl response =>
    statuses ← handleModelResponse (mresponse.Mk turn response);
    _ ← for_each dispatchOperationToManager (concat (tcs.Operations <$> statuses));
    c ← self;
    if negb (loop.callModel (state c)) && negb (is_empty statuses) then
      modify (with_state (λ s, loop.set_grace true
        (loop.graceToolCalls s ∪ list_to_set (status_key <$> statuses)) s))
    else mret tt
  end.

(** *** Stopping *)

Definition isIdle c : bool :=
  negb (cancelModel c) && (pendingInputs (state c) =? 0)
  && bool_decide (loop.toolCalls (state c) = ∅) && negb (hasPendingOperations (state c)).

Definition isWaitingForOnlyToolCalls c : bool :=
  negb (cancelModel c) && negb (bool_decide (control.Mode (stop c) = StopHard))
  && (pendingInputs (state c) =? 0) && negb (bool_decide (loop.toolCalls (state c) = ∅)).

Definition handleStop : M (coord B) bool :=
  c ← self;
  _ ← (if cancellationRequested c then mret tt
       else _ ← interruptModel; _ ← cancelOperations; modify (set_requested true));
  c ← self; mret (negb (hasPendingOperations (state c))).

(** *** Heartbeats *)

Definition call_le (a b : ToolCall) : Prop := String.leb (call.CallID a) (call.CallID b).
#[local] Instance call_le_dec a b : Decision (call_le a b).
Proof. unfold call_le. apply _. Defined.

Definition running_calls c : list ToolCall :=
  merge_sort call_le (tcall.toolCall <$> omap (λ key, loop.toolCalls (state c) !! key) (calls_walk c)).

Definition text_of (v : value) : string :=
  match v with VText j => to_string (print j) | VBad raw => raw | VNil => EmptyString end.

Definition postHeartbeat : M (coord B) unit :=
  c ← self;
  running ← lift (map_err (Errorf_w "encode heartbeat tool calls: ")
                    (Marshal (list_codec ToolCall_codec) (running_calls c)));
  payload ← lift (map_err (Errorf_w "encode heartbeat: ")
    (Marshal_control (control.Mk Heartbeat
       ("Heartbeat: waited " +:+ heartbeat_seconds env +:+ " seconds for tool calls." +:+ newline
          +:+ "Running: " +:+ text_of running) None)));
  id ← fresh_id;
  perform_or_fail (ESubmit (input.Mk id InputControl payload)) (λ e, e).

(** *** One round of the loop *)

(** What the select receives; nil for a channel that is closed. *)
Inductive event : Type :=
  | InDone (err : error)
  | InInput (i : option Input)
  | InOperation (o : option Operation)
  | InHeartbeat
  | InGrace
  | InResponse (turn : TurnID) (r : Response + error).

(** A round: what was received, what the two slurps then receive from the inbox
    and from the operations, and what ctx.Err() says. *)
Record round : Type := MkRound {
  received : event;
  inbox_events : list (slurp_event Input);
  update_events : list (slurp_event Operation);
  ctx_err : option error;
}.

Inductive outcome : Type :=
  | Continue
  | Return (err : option error).

(** The heartbeat timer at the top of the loop. *)
Definition arm_heartbeat (interval_positive : bool) c : coord B :=
  if negb (isWaitingForOnlyToolCalls c) then set_heartbeat Unset c
  else match heartbeat c with
       | Unset => if interval_positive then set_heartbeat Armed c else c
       | _ => c
       end.

Definition closedInputError (r : round) (name : string) : error :=
  match ctx_err r with Some e => e | None => errors_New (name +:+ " closed") end.

Definition processOperations (updates : list Operation) : M (coord B) unit :=
  for_each handleOperationUpdate updates.

Definition processEvents (r : round) : M (coord B) bool :=
  inputs ← lift (map_err (Errorf_w "slurp inbox: ") (slurpChannel (inbox_events r)));
  _ ← handleInboxInputs inputs;
  updates ← lift (map_err (Errorf_w "slurp operation updates: ") (slurpChannel (update_events r)));
  _ ← processOperations updates;
  _ ← reconcileToolCalls;
  c ← self;
  mret (loop.callModel (state c)
        || ((0 <? pendingInputs (state c)) && negb (cancelModel c)
            && bool_decide (loop.graceToolCalls (state c) = ∅))).

(** The branch of the select; false for [continue]. *)
Definition handleEvent (r : round) : M (coord B) bool :=
  match received r with
  | InDone e => fail e
  | InInput None => fail (closedInputError r "inbox output")
  | InInput (Some i) => _ ← handleInboxInputs [i]; mret true
  | InOperation None => fail (closedInputError r "operation updates")
  | InOperation (Some o) => _ ← processOperations [o]; mret true
  | InHeartbeat => _ ← modify (set_heartbeat Fired); _ ← postHeartbeat; mret true
  | InGrace => _ ← modify (with_state clearToolGrace); mret true
  | InResponse turn res =>
    c ← self;
    if negb (cancelModel c) || negb (bool_decide (turn = loop.currentTurnID (state c))) then mret false
    else _ ← processModelResponse (ctx_err r) turn res; mret true
  end.

Definition finish_round (r : round) (callModel : bool) : M (coord B) outcome :=
  c ← self;
  if bool_decide (control.Mode (stop c) = StopHard) then
    stopped ← handleStop;
    mret (if (stopped : bool) then Return (ctx_err r) else Continue)
  else
    _ ← (if callModel then _ ← requestModelResponse; modify (with_state clearToolGrace) else mret tt);
    c ← self;
    mret (if bool_decide (control.Mode (stop c) = StopWhenIdle) && isIdle c then Return (ctx_err r)
          else Continue).

Definition run_round (interval_positive : bool) (r : round) : M (coord B) outcome :=
  _ ← modify (arm_heartbeat interval_positive);
  go ← handleEvent r;
  if (go : bool) then callModel ← processEvents r; finish_round r callModel
  else mret Continue.

(** What Run does before its loop, after the session was restored. *)
Definition start : M (coord B) unit :=
  statuses ← scheduleToolCalls;
  _ ← reconcileToolCalls;
  _ ← dispatchOperationsToManager;
  c ← self;
  if toolCallStatusesRequireModelResponse statuses || (0 <? pendingInputs (state c)) then
    requestModelResponse
  else mret tt.

End Run.

(** [Run] up to its loop; none when the fuel of the history is used up. *)
Definition Run {B} `{!ContextBuilder B} (env : environment) (interval : Z)
    (Items : Sequence → Z → result Page) (restored : list Operation) (fuel : nat)
    : M (coord B) (option unit) :=
  if interval <? 0 then fail (errors_New "tool heartbeat interval must not be negative")
  else
    r ← on_state (restore env Items restored fuel);
    match r with
    | None => mret None
    | Some _ => _ ← start env; mret (Some tt)
    end.
