(* ===== verification/CoordinatorSamples.v ===== *)
(** * A session of the coordinator to run

    A user asks, the model calls Bash, and a hard stop arrives while the
    command runs.  The example at the end evaluates it. *)

From Stdlib Require Import Ascii ZArith Lia.
From S2P Require Import Prelude GoStrings GoText Json JsonCodec GoTime Primitives.
From S2P Require Import Operation Llm Inbox Tool BashTool ContextBuilder SessionStore Coordinator.

Local Open Scope Z_scope.

Definition sample_env : environment := {|
  resolve name := if bool_decide (name = BashName)
                  then Some (bash_New (bash_config.Mk "/bin/sh" "/work" "/sessions/s")) else None;
  answer _ _ := None;
  new_id n := "id" +:+ Itoa (Z.of_nat n);
  walk_calls _ l := l;
  walk_operations _ l := rev l;
  heartbeat_seconds := "600" |}.

Definition first_page (items : list SItem) : Sequence → Z → result Page :=
  λ _ _, Ok (page.Mk items 0 false).

Definition sample_Items : Sequence → Z → result Page := first_page [].

Definition sample_input : Input := input.Mk "i1" InputExternal (VText (JStr "list the files")).

Definition stop_input (mode : ControlMode) : Input :=
  input.Mk "i2" InputControl
    (VText (JObj [("Mode", JStr mode); ("Reason", JStr "enough")])).

Definition sample_call : ToolCall :=
  call.Mk "c1" BashName (to_string (print (JObj [("command", JStr "ls")]))).

Definition no_usage : Usage := usage.Mk 0 0 0 0 0 VNil.

Definition sample_response : Response :=
  response.Mk "r1" StopComplete [item.Mk EmptyString ItemToolCall (DataToolCall sample_call)] no_usage None.

Definition quietly (e : event) : round := MkRound e [] [SlurpIdle] None.

Definition sample_rounds : list round :=
  [quietly (InInput (Some sample_input));
   quietly (InResponse "id0" (inl sample_response))].

(** The coordinator after its rounds. *)
Definition after_rounds (c : coord builder) (rs : list round) : coord builder :=
  fold_left (λ c r, fst (run_round sample_env true r c)) rs c.

Definition sample_start : coord builder :=
  fst (Run sample_env 600 sample_Items [] 1 (New_coordinator (NewBuilder []))).

Definition sample_asked : coord builder := after_rounds sample_start (take 1 sample_rounds).

(** A second question while the first one is in flight. *)
Definition sample_asked_again : coord builder :=
  after_rounds sample_asked
    [quietly (InInput (Some (input.Mk "i3" InputExternal (VText (JStr "and count them")))))].

Definition sample_running : coord builder := after_rounds sample_start sample_rounds.

Definition sample_stop : round := quietly (InInput (Some (stop_input StopHard))).

Definition sample_stopped : coord builder := after_rounds sample_running [sample_stop].

(** The shell operation of the call, as its manager reports it canceled. *)
Definition sample_canceled : list Operation :=
  (λ p, op.set_status StatusCanceled (snd p)) <$> map_to_list (loop.operations (state sample_stopped)).

Definition sample_update : round := 
  MkRound (InInput (Some (stop_input StopWhenIdle))) [] (SlurpItem <$> sample_canceled) None.

Lemma ran {A T} (p : A * result T) x : snd p = Ok x → p = (fst p, Ok x).
Proof. by destruct p as [a r]; simpl; intros ->. Qed.

Example sample_stop_cancels :
  last (trace sample_stopped) = Some (ECancel "id1" "enough").
Proof. vm_compute. reflexivity. Qed.
