(* ===== verification/CoordinatorFacts.v ===== *)
(** * Reasoning about the coordinator's methods

    Three layers of rules, which the theorems about the loop share.
    [LocalSteps J]: the elementary changes of the local state keep [J], so
    adding and restoring items keeps it.  [Kept I E] and [Steps I E]: the
    elementary steps of the handlers keep [I], or fail in [E], so every
    handler and every round of the loop does.  [local_inv] is the accounting
    of the local state. *)

From Stdlib Require Import Ascii ZArith Lia Sorted.
From S2P Require Import Prelude StateLogic GoStrings GoText Json JsonCodec GoTime Primitives.
From S2P Require Import Operation Llm Inbox Tool ContextBuilder SessionStore Coordinator.

Local Open Scope Z_scope.

#[local] Arguments Validate : simpl never.
#[local] Arguments DecodeControlMessage : simpl never.

(** ** Rules for the coordinator's own methods *)

Section Rules.
Context {B : Type} `{!ContextBuilder B} (env : environment).

Lemma wp_on_state {A} (m : M (loopState B) A) (Q : A → coord B → Prop) (E : coord B → Prop) c :
  wp m (λ a s, Q a (with_state (λ _, s) c)) (λ s, E (with_state (λ _, s) c)) (state c) →
  wp (on_state m) Q E c.
Proof. unfold wp, on_state. by destruct (m (state c)) as [s [a|e|t]]. Qed.

Lemma wp_perform e (Q : option error → coord B → Prop) (E : coord B → Prop) c :
  (∀ r, Q r (log e c)) → wp (perform env e) Q E c.
Proof. intros H. apply H. Qed.

Lemma wp_perform_or_fail e wrap (Q : unit → coord B → Prop) (E : coord B → Prop) c :
  (answer env (trace c) e = None → Q tt (log e c)) → E (log e c) →
  wp (perform_or_fail env e wrap) Q E c.
Proof.
  intros HQ HE. unfold wp, perform_or_fail, perform, mbind, M_bind.
  destruct (answer env (trace c) e); [exact HE|by apply HQ].
Qed.

Definition storable : list ItemKind := [ItemInput; ItemTurn; ItemModelResponse; ItemToolCallStatus].

(** An item is first added to the local state, then stored. *)
Lemma wp_add_and_store i (Q : unit → coord B → Prop) (E : coord B → Prop) c :
  sitem.Kind i ∈ storable →
  wp (addItemToLocalState env i)
    (λ _ s, let c' := with_state (λ _, s) c in
            (answer env (trace c) (EAppend i) = None → Q tt (log (EAppend i) c')) ∧ E (log (EAppend i) c'))
    (λ s, E (with_state (λ _, s) c)) (state c) →
  wp (add_and_store env i) Q E c.
Proof.
  intros Hk H. unfold add_and_store. apply wp_bind, wp_on_state.
  eapply wp_mono; [exact H| |done]. cbv zeta. intros [] s [HQ HE].
  unfold storeItemInSessionStore. rewrite bool_decide_true by exact Hk.
  by apply wp_perform_or_fail.
Qed.

Lemma wp_fresh_id (Q : string → coord B → Prop) (E : coord B → Prop) c :
  Q (new_id env (ids c)) (set_ids (S (ids c)) c) → wp (fresh_id env) Q E c.
Proof. done. Qed.

Lemma wp_on_builder (m : M B unit) (Q : unit → loopState B → Prop) (E : loopState B → Prop) s :
  (∀ b, Q tt (loop.set_builder (λ _, b) s)) → (∀ b, E (loop.set_builder (λ _, b) s)) →
  wp (on_builder m) Q E s.
Proof.
  intros HQ HE. unfold wp, on_builder. destruct (m (loop.builder s)) as [b [[]|e|t]]; auto.
Qed.

Lemma wp_wrap {S A} (m : M S A) (wrap : error → error) (Q : A → S → Prop) (E : S → Prop) s :
  wp m Q E s → wp (λ s, let '(s', r) := m s in (s', map_err wrap r)) Q E s.
Proof. unfold wp. by destruct (m s) as [s' [a|e|t]]. Qed.
End Rules.

(** ** What an item may change of the local state

    [LocalSteps J]: the elementary changes of the local state keep [J].
    Adding an item then keeps it, when the operations of the item do. *)

Section LocalSteps.
Context {B : Type} `{!ContextBuilder B} (env : environment).
Implicit Types s : loopState B.

(** One call of the context builder. *)
Inductive builder_call (b : B) : B → Prop :=
  | call_external i : builder_call b (fst (AddExternalInput i b))
  | call_control m : builder_call b (fst (AddControlMessage m b))
  | call_response r : builder_call b (AddModelResponse r b)
  | call_result id out running : builder_call b (AddToolResult id out running b)
  | call_commit : builder_call b (Commit b).

(** What an input may change. *)
Record BuilderSteps (J : loopState B → Prop) : Prop := {
  ls_builder b s : builder_call (loop.builder s) b → J s → J (loop.set_builder (λ _, b) s);
  ls_input s : J s → J (loop.add_input s);
}.

Record LocalSteps (J : loopState B → Prop) : Prop := {
  ls_inputs :> BuilderSteps J;
  ls_toolCalls f s : J s → J (loop.set_toolCalls f s);
  ls_no_operations s : J s → J (loop.set_operations (λ _, ∅) s);
  ls_clear s : J s → J (clearToolGrace s);
  ls_deliver s : J s → J (loop.deliver_inputs s);
  ls_turn t s : J s → J (loop.set_turn t s);
  ls_finish key s : J s → J (finishToolCall key s);
}.

Definition item_operations (i : SItem) : list Operation :=
  if bool_decide (sitem.Kind i = ItemToolCallStatus) then
    match sitem.Data i with StoreToolCallStatus st => tcs.Operations st | _ => [] end
  else [].

Lemma wp_builder_call J (f : B → B) s (Q : unit → loopState B → Prop) E :
  BuilderSteps J → builder_call (loop.builder s) (f (loop.builder s)) → J s →
  (J (loop.set_builder f s) → Q tt (loop.set_builder f s)) → wp (modify (loop.set_builder f)) Q E s.
Proof. intros HJ Hf H HQ. apply wp_modify, HQ. by apply (ls_builder J HJ (f (loop.builder s)) s). Qed.

Lemma wp_builder_method J m s :
  BuilderSteps J → builder_call (loop.builder s) (fst (m (loop.builder s))) → J s →
  wp (on_builder m) (λ _, J) J s.
Proof.
  intros HJ Hm H. pose proof (ls_builder J HJ _ _ Hm H) as H1. unfold wp, on_builder.
  by destruct (m (loop.builder s)) as [b [[]|e|t]].
Qed.

Lemma add_input_item_steps J i s : BuilderSteps J → J s → wp (add_input_item i) (λ _, J) J s.
Proof.
  intros HJ H. unfold add_input_item. do 2 wp_step; [|done]. wp_step.
  eapply (wp_mono _ (λ _, J) _ J); [|intros [] s1 Hs1|done].
  - case_bool_decide; [|by wp_step]. wp_step. apply wp_wrap.
    eapply wp_mono; [apply (wp_builder_method J); [done|constructor|done]| |done]. intros [] s1 Hs1. wp_step.
    by apply (ls_input J).
  - case_bool_decide; [|by wp_step]. do 2 wp_step; [|done]. wp_step.
    eapply wp_mono; [apply (wp_builder_method J); [done|constructor|done]| |done]. intros [] s2 Hs2.
    case_bool_decide; wp_step; [by apply (ls_input J)|done].
Qed.

Context (J : loopState B → Prop) (HJ : LocalSteps J).

Lemma addToolCalls_steps r s : J s → wp (addToolCallsToLocalState r) (λ _, J) J s.
Proof.
  intros H. apply wp_for_each; [done|]. intros i s1 _ H1. unfold add_tool_call.
  case_bool_decide; [|by wp_step]. destruct (item.Data i); try by wp_step; intros; try wp_step.
  wp_step. by apply ls_toolCalls.
Qed.

Lemma addToolResult_steps st s : J s → wp (addToolResultToLocalState env st) (λ _, J) J s.
Proof.
  intros H. unfold addToolResultToLocalState. do 2 wp_step.
  destruct (loop.toolCalls s !! status_key st) as [c|]; [|by wp_step].
  destruct (resolve env _) as [t|].
  - destruct (waited_operations _ _ _) as [ops|]; [|by wp_step]. do 2 wp_step; [|done]. cbv zeta. wp_step.
    eapply (wp_builder_call J); [apply HJ|constructor|done|]. intros H1.
    destruct (negb _); wp_step; [done|]. by apply ls_finish.
  - destruct (toolCallRequiresTranslator st); [by wp_step|]. wp_step.
    eapply (wp_builder_call J); [apply HJ|constructor|done|]. intros H1. wp_step. by apply ls_finish.
Qed.

Lemma addItem_steps i s :
  (∀ v s, v ∈ item_operations i → J s → J (addOperationToLocalState v s)) →
  J s → wp (addItemToLocalState env i) (λ _, J) J s.
Proof.
  intros Hv H. unfold addItemToLocalState. cbv zeta.
  repeat (case_bool_decide as Hk; [destruct (sitem.Data i) eqn:Ed; try (by wp_step)|clear Hk]); [..|by wp_step].
  - do 5 wp_step. by apply ls_clear, ls_no_operations, ls_toolCalls.
  - apply add_input_item_steps; [apply HJ|done].
  - do 2 wp_step. eapply (wp_builder_call J); [apply HJ|constructor|by apply ls_turn|done].
  - do 2 wp_step. destruct (compaction_response _ _); [by wp_step|]. wp_step.
    eapply (wp_builder_call J); [apply HJ|constructor|done|]. intros Hs1. wp_step.
    case_bool_decide; wp_step; apply addToolCalls_steps; [by apply ls_deliver|done].
  - wp_step. eapply (wp_mono _ (λ _, J) _ J); [|intros [] s1 Hs1|done].
    + apply wp_for_each; [done|]. intros v s1 Hin Hs1. wp_step. apply Hv; [|done].
      unfold item_operations. by rewrite bool_decide_true, Ed.
    + do 2 wp_step. apply addToolResult_steps. unfold addToolCallOperationsToLocalState.
      case_match; [by apply ls_toolCalls|done].
Qed.

Context (Hop : ∀ v s, J s → J (addOperationToLocalState v s)).

Lemma restoreItem_steps i s : J s → wp (restoreItem env i) (λ _, J) J s.
Proof.
  intros H. unfold restoreItem. apply wp_bind, wp_self. cbv zeta.
  case_match; [by apply wp_fail|apply addItem_steps; auto].
Qed.

Lemma loadHistory_steps Items fuel after s :
  J s → wp (loadHistory env Items fuel after) (λ _, J) J s.
Proof.
  revert after s. induction fuel as [|fuel IH]; intros after s H; simpl; [by wp_step|]. do 2 wp_step; [|done].
  wp_step. eapply (wp_mono _ (λ _, J)); [|intros [] s1 H1|done].
  { apply wp_for_each; [done|]. intros i s1 _ H1. apply wp_wrap. by apply restoreItem_steps. }
  destruct (negb _); [by wp_step|]. destruct (_ <=? _); [by wp_step|by apply IH].
Qed.

Lemma restore_steps Items restored fuel s :
  J s → wp (restore env Items restored fuel) (λ _, J) J s.
Proof.
  intros H. unfold restore. wp_step. eapply wp_mono; [by apply loadHistory_steps| |done].
  intros [[]|] s1 H1; [|by wp_step]. wp_step.
  eapply (wp_mono _ (λ _, J)); [|intros [] s2 H2; by wp_step|done].
  apply wp_for_each; [done|]. intros v s2 _ H2. wp_step. by apply Hop.
Qed.
End LocalSteps.

(** ** The accounts

    [local_inv] holds of states that keep the accounting: the grace timer is
    set while calls have grace, the counters are ordered, and operations are
    filed under their identifiers. *)

Section LocalInv.
Context {B : Type} `{!ContextBuilder B} (env : environment).
Implicit Types s : loopState B.

Record accounts s : Prop := {
  acc_grace : loop.grace s = negb (bool_decide (loop.graceToolCalls s = ∅));
  acc_order : 0 ≤ loop.deliveredInputs s ≤ loop.currentTurnInputs s ∧
              loop.currentTurnInputs s ≤ loop.availableInputs s;
  acc_keyed : ∀ id v, loop.operations s !! id = Some v → op.ID' v = id;
}.

Definition local_inv (call : bool) s : Prop := accounts s ∧ loop.callModel s = call.

Lemma local_inv_builder b f s : local_inv b s → local_inv b (loop.set_builder f s).
Proof. intros [[] Hc]. split; [by split|done]. Qed.
Lemma local_inv_toolCalls b f s : local_inv b s → local_inv b (loop.set_toolCalls f s).
Proof. intros [[] Hc]. split; [by split|done]. Qed.
Lemma local_inv_no_operations b s : local_inv b s → local_inv b (loop.set_operations (λ _, ∅) s).
Proof. intros [[Hg Ho Hk] Hc]. split; [|done]. split; [done|done|]. intros id v. simpl. by rewrite lookup_empty. Qed.
Lemma local_inv_operation b v s : local_inv b s → local_inv b (addOperationToLocalState v s).
Proof.
  intros [[Hg Ho Hk] Hc]. split; [|done]. split; [done|done|]. simpl.
  intros id v' [[<- <-]|[_ H]]%lookup_insert_Some; [done|by apply Hk].
Qed.
Lemma local_inv_clear b s : local_inv b s → local_inv b (clearToolGrace s).
Proof. intros [[] Hc]. split; [by split|done]. Qed.
Lemma local_inv_input b s : local_inv b s → local_inv b (loop.add_input s).
Proof. intros [[Hg [H1 H2] Hk] ?]. split; [|done]. split; simpl; [done|lia|done]. Qed.
Lemma local_inv_deliver b s : local_inv b s → local_inv b (loop.deliver_inputs s).
Proof. intros [[Hg [H1 H2] Hk] ?]. split; [|done]. split; simpl; [done|lia|done]. Qed.
Lemma local_inv_turn b t s : local_inv b s → local_inv b (loop.set_turn t s).
Proof. intros [[Hg [H1 H2] Hk] ?]. split; [|done]. split; simpl; [done|lia|done]. Qed.
Lemma local_inv_callModel b b' s : local_inv b s → local_inv b' (loop.set_callModel b' s).
Proof. intros [[] Hc]. split; [by split|done]. Qed.
Lemma local_inv_grace b calls s :
  calls ≠ ∅ → local_inv b s → local_inv b (loop.set_grace true calls s).
Proof. intros Hc [[Hg Ho Hk] ?]. split; [|done]. split; [|done|done]. simpl. by rewrite bool_decide_false. Qed.

Lemma local_inv_finish b key s : local_inv b s → local_inv b (finishToolCall key s).
Proof.
  intros [[Hg Ho Hk] Hc]. unfold finishToolCall, clearToolGrace. cbv zeta. apply local_inv_input.
  destruct (decide (loop.graceToolCalls s ∖ {[key]} = ∅)) as [He|He].
  - rewrite (bool_decide_true _ He). split; [by split|exact Hc].
  - rewrite (bool_decide_false _ He). split; [|exact Hc]. split; [simpl|exact Ho|exact Hk].
    rewrite Hg, (bool_decide_false (_ ∖ _ = ∅)) by done.
    rewrite bool_decide_false; [done|]. intros H0. apply He. rewrite H0. set_solver.
Qed.

Lemma local_inv_steps b : LocalSteps (local_inv b).
Proof.
  constructor; [constructor|..]; intros.
  - by apply local_inv_builder.
  - by apply local_inv_input.
  - by apply local_inv_toolCalls.
  - by apply local_inv_no_operations.
  - by apply local_inv_clear.
  - by apply local_inv_deliver.
  - by apply local_inv_turn.
  - by apply local_inv_finish.
Qed.

Lemma addItem_local_inv b i s :
  local_inv b s → wp (addItemToLocalState env i) (λ _, local_inv b) (local_inv b) s.
Proof. apply addItem_steps; [apply local_inv_steps|]. intros v s' _. apply local_inv_operation. Qed.

Lemma restore_local_inv b Items restored fuel s :
  local_inv b s → wp (restore env Items restored fuel) (λ _, local_inv b) (local_inv b) s.
Proof. apply restore_steps; [apply local_inv_steps|apply local_inv_operation]. Qed.
End LocalInv.

(** ** What the handlers keep

    [Kept I]: the elementary steps of the handlers keep [I].  Every handler
    then keeps it, and a status that a handler returns was stored. *)

Section Kept.
Context {B : Type} `{!ContextBuilder B} (env : environment).
Implicit Types (c : coord B) (I : coord B → Prop).

(** The store accepted the item. *)
Definition was_stored (tr : list effect) (i : SItem) : Prop :=
  ∃ before after, tr = before ++ EAppend i :: after ∧ answer env before (EAppend i) = None.

Lemma was_stored_app tr tr' i : was_stored tr i → was_stored (tr ++ tr') i.
Proof.
  intros (before & after & -> & H). exists before, (after ++ tr'). split; [|done].
  by rewrite <- (assoc_L app).
Qed.
Lemma was_stored_mono tr tr' i : tr `prefix_of` tr' → was_stored tr i → was_stored tr' i.
Proof. intros [k ->]. apply was_stored_app. Qed.
Lemma was_stored_now tr i : answer env tr (EAppend i) = None → was_stored (tr ++ [EAppend i]) i.
Proof. intros H. by exists tr, []. Qed.

Definition status_item (st : ToolCallStatus) : SItem := local_item ItemToolCallStatus (StoreToolCallStatus st).

(** The operations of a new status are first added to the local state. *)
Definition add_new_status (st : ToolCallStatus) : M (coord B) unit :=
  _ ← for_each (λ v, modify (with_state (addOperationToLocalState v))) (tcs.Operations st);
  add_and_store env (status_item st).

(** [E] holds where a method failed. *)
Record KeptItems I (E : coord B → Prop) : Prop := {
  kept_fail c : I c → E c;
  kept_item i c : sitem.Kind i ∈ [ItemInput; ItemModelResponse] → I c →
    wp (add_and_store env i) (λ _, I) E c;
  kept_scheduled key tc c :
    I c → loop.toolCalls (state c) !! key = Some tc → tcall.status tc = None →
    wp (scheduleToolCall env key (tcall.toolCall tc)) (λ _, I) E c;
  kept_reconciled key tc status c :
    I c → loop.toolCalls (state c) !! key = Some tc → tcall.status tc = Some status →
    toolCallOperationsAreTerminal (state c) key = true →
    wp (add_and_store env (status_item (reconciled (loop.operations (state c)) key status))) (λ _, I) E c;
}.

Record Kept I (E : coord B → Prop) : Prop := {
  kept_items :> KeptItems I E;
  kept_operation v c : I c → I (with_state (addOperationToLocalState v) c);
  kept_clear c : I c → I (with_state clearToolGrace c);
  kept_callModel b c : I c → I (with_state (loop.set_callModel b) c);
  kept_save v c : I c → I (log (ESave v) c);
  kept_submit i c : I c → I (log (ESubmit i) c);
  kept_ids n c : I c → I (set_ids n c);
  kept_heartbeat t c : I c → I (set_heartbeat t c);
  kept_stop m c : I c → I (acceptStop m c);
}.

(** A schedule adds a status as it was translated. *)
Lemma scheduleToolCall_adds key tc c Q E :
  (∀ ctx status,
     match resolve env (call.Name tc) with
     | Some t => Translate t tc (MkContext (new_id env) (ids c) [])
     | None => (MkContext (new_id env) (ids c) [],
                ErrorStatus ("tool " +:+ quote (call.Name tc) +:+ " is not available") 0)
     end = (ctx, status) →
     let st := tcs.Mk key.1 key.2 status (Tool.operations ctx) in
     wp (add_new_status st) (λ _, Q st) E (set_ids (next ctx) c)) →
  wp (scheduleToolCall env key tc) Q E c.
Proof.
  intros H. unfold scheduleToolCall. do 2 wp_step. cbv zeta.
  destruct (match resolve env (call.Name tc) with Some _ => _ | None => _ end) as [ctx status].
  do 2 wp_step. eapply wp_bind_assoc, wp_mono; [by apply (H ctx status)| |done].
  intros [] c2 H2. by wp_step.
Qed.

Lemma KeptItems_new I E :
  (∀ c, I c → E c) →
  (∀ i c, sitem.Kind i ∈ storable → sitem.Kind i ≠ ItemTurn → I c → wp (add_and_store env i) (λ _, I) E c) →
  (∀ st c, I c → wp (add_new_status st) (λ _, I) E c) →
  (∀ n c, I c → I (set_ids n c)) → KeptItems I E.
Proof.
  intros HE Hi Hs Hn. constructor; [exact HE|..].
  - intros i c Hk. apply Hi; [set_solver|].
    apply elem_of_cons in Hk as [->|Hk%list_elem_of_singleton]; [done|by rewrite Hk].
  - intros key tc c HI _ _. apply scheduleToolCall_adds. intros ctx status _ st. by apply Hs, Hn.
  - intros key tc status c HI _ _ _. by apply Hi; [set_solver|..].
Qed.

Lemma KeptItems_intro I :
  (∀ i c, sitem.Kind i ∈ storable → sitem.Kind i ≠ ItemTurn → I c → wp (add_and_store env i) (λ _, I) I c) →
  (∀ v c, I c → I (with_state (addOperationToLocalState v) c)) →
  (∀ n c, I c → I (set_ids n c)) → KeptItems I I.
Proof.
  intros Hi Ho Hn. apply KeptItems_new; [done|exact Hi| |exact Hn]. intros st c HI. unfold add_new_status. wp_step.
  eapply (wp_mono _ (λ _, I) _ I); [|intros [] c1 H1; apply Hi; [set_solver|done|done]|done].
  apply wp_for_each; [done|]. intros v c1 _ H1. wp_step. by apply Ho.
Qed.

Lemma trace_add_and_store i c : sitem.Kind i ∈ storable →
  wp (add_and_store env i) (λ _ c', trace c `prefix_of` trace c' ∧ was_stored (trace c') i)
    (λ c', trace c `prefix_of` trace c') c.
Proof.
  intros Hi. apply wp_add_and_store; [done|]. unfold wp.
  destruct (addItemToLocalState env i (state c)) as [s [[]|e|t]]; simpl.
  - split; [intros Ha; split|]; [by eexists|by apply was_stored_now|by eexists].
  - done.
  - done.
Qed.

Lemma trace_new_status st c :
  wp (add_new_status st) (λ _ c', trace c `prefix_of` trace c' ∧ was_stored (trace c') (status_item st))
    (λ _, True) c.
Proof.
  unfold add_new_status. wp_step. eapply (wp_mono _ (λ _ c', trace c' = trace c) _ (λ c', trace c' = trace c)).
  - apply wp_for_each; [done|]. intros v c1 _ H1. by wp_step.
  - intros [] c1 <-. eapply wp_mono; [apply trace_add_and_store; set_solver|done|done].
  - done.
Qed.

Lemma trace_schedule key tc c :
  wp (scheduleToolCall env key tc)
    (λ st c', trace c `prefix_of` trace c' ∧ was_stored (trace c') (status_item st)) (λ _, True) c.
Proof. apply scheduleToolCall_adds. intros ctx status _ st. exact (trace_new_status st (set_ids (next ctx) c)). Qed.

(** Two facts about a method that returns. *)
Lemma wp_both {A} (m : M (coord B) A) (Q1 Q2 : A → coord B → Prop) E c :
  wp m Q1 E c → wp m Q2 (λ _, True) c → wp m (λ a c', Q1 a c' ∧ Q2 a c') E c.
Proof. unfold wp. by destruct (m c) as [c' [a|e|t]]. Qed.

(** An invariant together with a known start of the trace. *)
Lemma Kept_prefix I E tr : KeptItems I E → KeptItems (λ c, I c ∧ tr `prefix_of` trace c) E.
Proof.
  assert (∀ A (m : M (coord B) A) c, tr `prefix_of` trace c → wp m (λ _, I) E c →
            wp m (λ _ c', trace c `prefix_of` trace c') (λ _, True) c →
            wp m (λ _ c', I c' ∧ tr `prefix_of` trace c') E c) as Hp.
  { intros A m c Htr H1 H2. eapply wp_mono; [by apply (wp_both m _ _ _ _ H1 H2)| |done].
    intros a c' [H3 H4]. split; [done|]. by etransitivity. }
  assert (∀ i c, sitem.Kind i ∈ storable →
            wp (add_and_store env i) (λ _ c', trace c `prefix_of` trace c') (λ _, True) c) as Hadd.
  { intros i c Hk. eapply wp_mono; [by apply trace_add_and_store|by intros ? ? []|done]. }
  intros [HE Hi Hs Hr]. constructor.
  - intros c [HI _]. by apply HE.
  - intros i c Hk [HI Htr]. apply Hp; [done|by apply Hi|]. apply Hadd. set_solver.
  - intros key tc c [HI Htr] Htc Hst. apply Hp; [done|by apply Hs|].
    eapply wp_mono; [apply trace_schedule|by intros ? ? []|done].
  - intros key tc status c [HI Htr] Htc Hst Ht. apply Hp; [done|by eapply Hr|]. apply Hadd. set_solver.
Qed.

Definition statuses_stored (tr : list effect) (sts : list ToolCallStatus) : Prop :=
  Forall (λ st, was_stored tr (status_item st)) sts.

Lemma statuses_stored_nil tr : statuses_stored tr [].
Proof. constructor. Qed.
#[local] Hint Resolve statuses_stored_nil : core.

Lemma kept_fails I E c : Kept I E → I c → E c.
Proof. intros HK. apply (kept_fail I E HK). Qed.

Lemma handleInboxInput_kept I E i c :
  Kept I E → I c → wp (handleInboxInput env i) (λ _, I) E c.
Proof.
  intros HK HI. unfold handleInboxInput. wp_step.
  eapply wp_mono; [by apply (kept_item I E HK); [set_solver|]| |done]. intros [] c1 H1.
  case_bool_decide; [|apply wp_modify; by apply (kept_clear I E)].
  repeat wp_step; [|by apply (kept_fails I)]. case_bool_decide; [by apply wp_ret|]. wp_step.
  case_bool_decide; repeat wp_step; apply (kept_clear I E); try done. by apply (kept_stop I E).
Qed.

Lemma handleInboxInputs_kept I E inputs c :
  Kept I E → I c → wp (handleInboxInputs env inputs) (λ _, I) E c.
Proof.
  intros HK HI. apply wp_for_each; [done|]. intros i c1 _ H1. wp_step.
  eapply wp_mono; [by apply handleInboxInput_kept| |done]. intros [] c2 H2.
  case_bool_decide; wp_step; [by apply (kept_callModel I E)|done].
Qed.

Lemma processOperations_kept I E updates c :
  Kept I E → I c → wp (processOperations env updates) (λ _, I) E c.
Proof.
  intros HK HI. apply wp_for_each; [done|]. intros v c1 _ H1. unfold handleOperationUpdate. repeat wp_step.
  assert (I (log (ESave v) (with_state (addOperationToLocalState v) c1)))
    by by apply (kept_save I E), (kept_operation I E).
  apply wp_perform_or_fail; [done|]. by apply (kept_fails I).
Qed.

(** The calls that were not scheduled are scheduled; the statuses are stored. *)
Lemma schedule_each_kept I E keys c :
  KeptItems I E → I c →
  wp (schedule_each env keys) (λ sts c', I c' ∧ statuses_stored (trace c') sts) E c.
Proof.
  revert I c. induction keys as [|key keys IH]; intros I c HK HI; simpl; [by wp_step; split|]. do 2 wp_step.
  destruct (loop.toolCalls (state c) !! key) as [tc|] eqn:Etc; [|by apply IH].
  case_bool_decide as Hst; [by apply IH|]. apply eq_None_not_Some in Hst. wp_step.
  eapply wp_mono; [apply wp_both; [by apply (kept_scheduled I E HK key tc)|apply trace_schedule]| |done].
  intros st c1 (H1 & _ & Hs). cbv beta. wp_step.
  eapply wp_mono; [apply (IH (λ c, I c ∧ trace c1 `prefix_of` trace c)); [by apply Kept_prefix|done]| |done].
  intros sts c2 [[H2 Hp] Hsts]. wp_step. split; [done|]. constructor; [by eapply was_stored_mono|done].
Qed.

Lemma scheduleToolCalls_kept I E c :
  KeptItems I E → I c →
  wp (scheduleToolCalls env) (λ sts c', I c' ∧ statuses_stored (trace c') sts) E c.
Proof. intros HK HI. unfold scheduleToolCalls. repeat wp_step. by apply schedule_each_kept. Qed.

Lemma reconcile_each_kept I E keys c : KeptItems I E → I c → wp (reconcile_each env keys) (λ _, I) E c.
Proof.
  intros HK. revert c. induction keys as [|key keys IH]; intros c HI; simpl; [by wp_step|]. do 2 wp_step.
  destruct (loop.toolCalls (state c) !! key) as [tc|] eqn:Etc; [|by apply IH].
  destruct (toolCallOperationsAreTerminal (state c) key) eqn:Et; [|by apply IH]. cbn [negb].
  destruct (tcall.status tc) as [status|] eqn:Est; [|wp_step; by apply (kept_fail I)].
  cbv zeta. wp_step.
  eapply wp_mono; [by apply (kept_reconciled I E HK key tc)| |done]. intros [] c1 H1. do 3 wp_step.
  eapply wp_mono; [by apply IH| |done]. intros rest c2 H2. by wp_step.
Qed.

Lemma reconcileToolCalls_kept I E c : KeptItems I E → I c → wp (reconcileToolCalls env) (λ _, I) E c.
Proof. intros HK HI. unfold reconcileToolCalls. repeat wp_step. by apply reconcile_each_kept. Qed.

Lemma handleModelResponse_kept I E r c :
  Kept I E → I c →
  wp (handleModelResponse env r) (λ sts c', I c' ∧ statuses_stored (trace c') sts) E c.
Proof.
  intros HK HI. unfold handleModelResponse. wp_step.
  eapply wp_mono; [by apply (kept_item I E HK); [set_solver|]| |done]. intros [] c1 H1. do 2 wp_step.
  destruct (compaction_response _ _); [by wp_step; split|]. wp_step.
  eapply wp_mono; [apply (scheduleToolCalls_kept I E); [apply HK|done]| |done]. intros sts c2 [H2 Hs].
  cbv beta. repeat wp_step. split; [by apply (kept_callModel I E)|done].
Qed.

Lemma postHeartbeat_kept I E c : Kept I E → I c → wp (postHeartbeat env) (λ _, I) E c.
Proof.
  intros HK HI. pose proof (kept_fails I E c HK HI) as HE.
  unfold postHeartbeat. do 4 wp_step; [|done]. do 2 wp_step; [|done]. wp_step. apply wp_fresh_id.
  assert (∀ i, I (log (ESubmit i) (set_ids (S (ids c)) c))) by (intros i; by apply (kept_submit I E), (kept_ids I E)).
  apply wp_perform_or_fail; [done|]. by apply (kept_fails I).
Qed.

(** A round asks for the model exactly when somebody waits for it. *)
Definition wants_model c : bool :=
  loop.callModel (state c)
  || ((0 <? pendingInputs (state c)) && negb (cancelModel c)
      && bool_decide (loop.graceToolCalls (state c) = ∅)).

Lemma processEvents_kept I E r c :
  Kept I E → I c → wp (processEvents env r) (λ b c', I c' ∧ b = wants_model c') E c.
Proof.
  intros HK HI. unfold processEvents. do 2 wp_step; [|by apply (kept_fails I)]. wp_step.
  eapply wp_mono; [by apply handleInboxInputs_kept| |done]. intros [] c1 H1.
  do 2 wp_step; [|by apply (kept_fails I)]. wp_step.
  eapply wp_mono; [by apply processOperations_kept| |done]. intros [] c2 H2. cbv beta. wp_step.
  eapply wp_mono; [apply (reconcileToolCalls_kept I E); [apply HK|done]| |done].
  intros sts c3 H3. cbv beta. by repeat wp_step.
Qed.

(** [Steps I E]: a whole round keeps [I], or fails in [E]. *)
Record Steps I (E : coord B → Prop) : Prop := {
  steps_kept :> Kept I E;
  steps_model b c : I c → I (set_cancelModel b c);
  steps_requested b c : I c → I (set_requested b c);
  steps_grace calls c : calls ≠ ∅ → I c → I (with_state (loop.set_grace true calls) c);
  steps_cancel id reason c : I c → I (log (ECancel id reason) c);
  steps_dispatch statuses c : statuses_stored (trace c) statuses → I c →
    wp (for_each (dispatchOperationToManager env) (concat (tcs.Operations <$> statuses))) (λ _, I) E c;
  steps_request c : I c → wp (requestModelResponse env) (λ _, I) E c;
}.

Lemma steps_fail I E c : Steps I E → I c → E c.
Proof. intros HS. by apply kept_fails, HS. Qed.

Lemma processModelResponse_steps I E e turn r c :
  Steps I E → I c → wp (processModelResponse env e turn r) (λ _, I) E c.
Proof.
  intros HS H. unfold processModelResponse, interruptModel. do 2 wp_step.
  apply (steps_model I E HS false) in H.
  destruct r as [response|err]; [|destruct e; wp_step; by apply (steps_fail I)]. wp_step.
  eapply wp_mono; [apply (handleModelResponse_kept I); [apply HS|done]| |done].
  intros statuses c1 [H1 Hs]. cbv beta. wp_step.
  eapply wp_mono; [by apply (steps_dispatch I E HS)| |done].
  intros [] c2 H2. do 2 wp_step. destruct (_ && _) eqn:Eb; wp_step; [|done].
  apply (steps_grace I E HS); [|done]. apply andb_true_iff in Eb as [_ Eb].
  destruct statuses as [|st statuses]; [done|]. set_solver.
Qed.

Lemma cancel_each_steps I E reason vs failed c :
  Steps I E → I c → wp (cancel_each env reason vs failed) (λ _, I) E c.
Proof.
  intros HS. revert failed c. induction vs as [|v vs IH]; intros failed c H; simpl; [by wp_step|].
  destruct (operationIsTerminal _); [by apply IH|]. wp_step. apply wp_perform. intros r.
  apply IH. by apply (steps_cancel I E HS).
Qed.

Lemma handleStop_steps I E c : Steps I E → I c → wp (handleStop env) (λ _, I) E c.
Proof.
  intros HS H. unfold handleStop, interruptModel, cancelOperations. do 3 wp_step.
  destruct (cancellationRequested c); [by repeat wp_step|]. do 6 wp_step.
  eapply wp_mono; [apply (cancel_each_steps I); [done|by apply (steps_model I E HS)]| |done].
  intros failed c1 H1. destruct failed; repeat wp_step; [by apply (steps_fail I)|].
  by apply (steps_requested I E HS).
Qed.

Lemma arm_heartbeat_kept I E pos c : Kept I E → I c → I (arm_heartbeat pos c).
Proof.
  intros HK H. unfold arm_heartbeat. destruct (negb _); [by apply (kept_heartbeat I E)|].
  destruct (heartbeat c); [|done..]. destruct pos; [by apply (kept_heartbeat I E)|done].
Qed.

Lemma handleEvent_steps I E r c : Steps I E → I c → wp (handleEvent env r) (λ _, I) E c.
Proof.
  intros HS H. pose proof (steps_kept I E HS) as HK. pose proof (steps_fail I E c HS H) as HE.
  unfold handleEvent. destruct (received r) as [e|[i|]|[o|]| | |turn res]; try by wp_step.
  - wp_step. eapply wp_mono; [by apply handleInboxInputs_kept| |done]. intros [] c1 H1. by wp_step.
  - wp_step. eapply wp_mono; [by apply processOperations_kept| |done]. intros [] c1 H1. by wp_step.
  - do 3 wp_step. eapply wp_mono; [apply (postHeartbeat_kept I); [done|by apply (kept_heartbeat I E)]| |done].
    intros [] c1 H1. by wp_step.
  - do 3 wp_step. by apply (kept_clear I E).
  - do 2 wp_step. destruct (_ || _); [by wp_step|]. wp_step.
    eapply wp_mono; [by apply processModelResponse_steps| |done]. intros [] c1 H1. by wp_step.
Qed.

Lemma run_round_steps I E pos r c : Steps I E → I c → wp (run_round env pos r) (λ _, I) E c.
Proof.
  intros HS H. pose proof (steps_kept I E HS) as HK. unfold run_round. do 2 wp_step.
  apply (arm_heartbeat_kept I E pos) in H; [|done].
  wp_step. eapply wp_mono; [by apply handleEvent_steps| |done].
  intros [] c1 H1; cbv beta; [|by wp_step]. wp_step.
  eapply wp_mono; [by apply (processEvents_kept I)| |done]. intros go c2 [H2 _]. cbv beta.
  unfold finish_round. do 2 wp_step. case_bool_decide.
  - wp_step. eapply wp_mono; [by apply handleStop_steps| |done]. intros stopped c3 H'. by wp_step.
  - wp_step. destruct go; [|by repeat wp_step]. wp_step.
    eapply wp_mono; [by apply (steps_request I E HS)| |done]. intros [] c3 H'. repeat wp_step.
    by apply (kept_clear I E).
Qed.

(** The start of a run keeps what a round keeps, when every operation may be
    dispatched. *)
Lemma start_steps I E c :
  Steps I E → (∀ v c, I c → wp (dispatchOperationToManager env v) (λ _, I) E c) → I c →
  wp (start env) (λ _, I) E c.
Proof.
  intros HS Hd H. pose proof (kept_items I E HS) as HK. unfold start. wp_step.
  eapply wp_mono; [by apply (scheduleToolCalls_kept I E)| |done].
  intros statuses c1 [H1 _]. cbv beta. wp_step.
  eapply wp_mono; [by apply (reconcileToolCalls_kept I E)| |done].
  intros completed c2 H2. cbv beta. unfold dispatchOperationsToManager. do 3 wp_step.
  eapply (wp_mono _ (λ _, I) _ E); [apply wp_for_each; [done|auto]| |done].
  intros [] c3 H3. do 2 wp_step. destruct (_ || _); [by apply (steps_request I E)|by wp_step].
Qed.
End Kept.
