(* ===== verification/CoordinatorLoop.v ===== *)
(** * The loop of the coordinator: inputs are served, stops are obeyed

    [loop_inv] is the invariant at the top of the loop: the counters of inputs
    are ordered, an input that was not delivered is on its way to the model,
    and after a hard stop the operations were cancelled and no request is in
    flight. *)

From Stdlib Require Import Ascii ZArith Lia.
From S2P Require Import Prelude StateLogic GoStrings GoText Json JsonCodec GoTime Primitives.
From S2P Require Import Operation Llm Inbox Tool ContextBuilder SessionStore.
From S2P Require Import Coordinator CoordinatorSamples CoordinatorFacts.

Local Open Scope Z_scope.

#[local] Arguments Validate : simpl never.
#[local] Arguments DecodeControlMessage : simpl never.

Section Loop.
Context {B : Type} `{!ContextBuilder B} (env : environment).
Implicit Types c : coord B.

Definition hard c : Prop := control.Mode (stop c) = StopHard.

(** Effects that start nothing. *)
Definition quiet (e : effect) : Prop :=
  match e with EAppend _ | ESave _ | ESubmit _ => True | _ => False end.

(** Quiet effects, and operations that a response submits. *)
Definition busy (e : effect) : Prop :=
  match e with EAdd _ => True | _ => quiet e end.

(** From [c0] to [c]: the effects are in [P], no request is started, and a
    hard stop stays. *)
Record frame (P : effect → Prop) c0 c : Prop := {
  fr_accounts : accounts (state c);
  fr_model : cancelModel c = true → cancelModel c0 = true;
  fr_requested : cancellationRequested c = cancellationRequested c0;
  fr_stop : hard c0 → stop c = stop c0;
  fr_trace : ∃ effs, trace c = trace c0 ++ effs ∧ Forall P effs;
}.

Lemma frame_refl P c : accounts (state c) → frame P c c.
Proof. intros Ha. split; try done. exists []. by rewrite app_nil_r. Qed.

Lemma frame_state P c0 c f :
  (∀ b, local_inv b (state c) → ∃ b', local_inv b' (f (state c))) → frame P c0 c → frame P c0 (with_state f c).
Proof.
  intros Hf [Ha Hm Hr Hs Ht]. split; try done.
  by destruct (Hf (loop.callModel (state c))) as [b' [H _]]; [by split|].
Qed.

Lemma frame_log (P : effect → Prop) c0 c e : P e → frame P c0 c → frame P c0 (log e c).
Proof.
  intros He [Ha Hm Hr Hs (effs & Ht & HP)]. split; try done. exists (effs ++ [e]). simpl.
  rewrite Ht, (assoc_L app). split; [done|]. apply Forall_app. by split; [|constructor].
Qed.

Lemma frame_weaken (P P' : effect → Prop) c0 c : (∀ e, P e → P' e) → frame P c0 c → frame P' c0 c.
Proof.
  intros HP [Ha Hm Hr Hs (effs & Ht & HF)]. split; try done. exists effs. split; [done|].
  by eapply Forall_impl.
Qed.

(** A frame in which the wish for a response and the stop stay. *)
Definition steady (P : effect → Prop) c0 (b : bool) (m : ControlMessage) c : Prop :=
  frame P c0 c ∧ loop.callModel (state c) = b ∧ stop c = m.

Lemma steady_refl P c : accounts (state c) → steady P c (loop.callModel (state c)) (stop c) c.
Proof. intros Ha. split; [by apply frame_refl|done]. Qed.

Lemma steady_item (P : effect → Prop) c0 b m i c :
  (∀ e, quiet e → P e) → sitem.Kind i ∈ storable → steady P c0 b m c →
  wp (add_and_store env i) (λ _, steady P c0 b m) (steady P c0 b m) c.
Proof.
  intros HP Hk (Hf & Hb & Hm). apply wp_add_and_store; [done|].
  eapply wp_mono; [apply (addItem_local_inv env b)|..].
  - split; [apply (fr_accounts _ _ _ Hf)|done].
  - intros [] s Hs. cbv zeta. assert (steady P c0 b m (log (EAppend i) (with_state (λ _, s) c))) as H; [|by split].
    split; [|split; [apply Hs|done]]. apply frame_log; [by apply HP|]. apply frame_state; [|done]. by eexists.
  - intros s Hs. split; [|split; [apply Hs|done]]. apply frame_state; [|done]. by eexists.
Qed.

Lemma steady_kept (P : effect → Prop) c0 b m :
  (∀ e, quiet e → P e) → KeptItems env (steady P c0 b m) (steady P c0 b m).
Proof.
  intros HP. apply KeptItems_intro.
  - intros i c Hk _ Hf. by apply steady_item.
  - intros v c (Hf & Hb & Hm). split; [|done]. apply frame_state; [|done].
    intros b' Hb'. eexists. by apply local_inv_operation.
  - by intros n c ([] & Hb & Hm).
Qed.

Lemma frame_kept (P : effect → Prop) c0 : (∀ e, quiet e → P e) → Kept env (frame P c0) (frame P c0).
Proof.
  intros HP. constructor; [apply KeptItems_intro|..].
  - intros i c Hk _ Hf. eapply wp_mono; [by apply (steady_item P c0 (loop.callModel (state c)) (stop c))|by intros ? ? []|by intros ? []].
  - intros v c. apply frame_state. intros b Hb. eexists. by apply local_inv_operation.
  - by intros n c [].
  - intros v c. apply frame_state. intros b Hb. eexists. by apply local_inv_operation.
  - intros c. apply frame_state. intros b Hb. eexists. by apply local_inv_clear.
  - intros b c. apply frame_state. intros b' Hb. eexists. by eapply local_inv_callModel.
  - intros v c. apply frame_log. by apply HP.
  - intros i c. apply frame_log. by apply HP.
  - by intros n c [].
  - by intros t c [].
  - intros m c [Ha Hm Hr Hs Ht]. unfold acceptStop. case_bool_decide as Hd; [by split|].
    split; try done. intros H0. exfalso. apply Hd. by rewrite (Hs H0).
Qed.

(** A round that is not over while the request in flight goes on: none is in
    flight, or its response is received. *)
Definition rests r c : Prop :=
  cancelModel c = true → ∃ res, received r = InResponse (loop.currentTurnID (state c)) res.

Lemma dispatch_frame (P : effect → Prop) v c0 c :
  P (EAdd v) → frame P c0 c → wp (dispatchOperationToManager env v) (λ _, frame P c0) (frame P c0) c.
Proof.
  intros HP Hf. unfold dispatchOperationToManager. destruct (operationIsTerminal _); [by wp_step|].
  apply wp_perform_or_fail; [intros _|]; by apply frame_log.
Qed.

Lemma processModelResponse_frame (P : effect → Prop) e turn r c0 c :
  (∀ e, busy e → P e) → frame P c0 (set_cancelModel false c) →
  wp (processModelResponse env e turn r) (λ _, frame P c0) (frame P c0) c.
Proof.
  intros HP Hf. assert (Kept env (frame P c0) (frame P c0)) as HK by (apply frame_kept; intros []; naive_solver).
  unfold processModelResponse, interruptModel. do 2 wp_step.
  destruct r as [response|err]; [|destruct e; by wp_step]. wp_step.
  eapply wp_mono; [by apply handleModelResponse_kept| |done]. intros statuses c1 [H1 _]. cbv beta. wp_step.
  eapply (wp_mono _ (λ _, frame P c0) _ (frame P c0)); [| |done].
  { apply wp_for_each; [done|]. intros v c2 _ H2. apply dispatch_frame; [by apply HP|done]. }
  intros [] c2 H2. do 2 wp_step. destruct (_ && _) eqn:Eb; [|by wp_step]. wp_step.
  apply frame_state; [|done]. intros b Hb. eexists. apply local_inv_grace; [|exact Hb].
  apply andb_true_iff in Eb as [_ Eb]. destruct statuses as [|st statuses]; [done|]. set_solver.
Qed.

Lemma frame_rests P r c c' : (∀ turn res, received r ≠ InResponse turn res) → frame P c c' →
  frame P c c' ∧ (rests r c → cancelModel c' = false).
Proof.
  intros Hr Hf. split; [done|]. intros Hc. apply not_true_iff_false. intros E.
  destruct (Hc (fr_model _ _ _ Hf E)) as [res H]. by apply (Hr _ _ H).
Qed.

Lemma frame_answered P c c' : frame P (set_cancelModel false c) c' → frame P c c' ∧ cancelModel c' = false.
Proof.
  intros [Ha Hm Hr Hs Ht]. assert (cancelModel c' = false) as E.
  { apply not_true_iff_false. by intros E%Hm. }
  split; [|done]. split; try done. by rewrite E.
Qed.

(** The branch of the select; a stale response changes nothing. *)
Lemma handleEvent_frame (P : effect → Prop) r c :
  (∀ e, quiet e → P e) → (cancelModel c = true → ∀ e, busy e → P e) → accounts (state c) →
  wp (handleEvent env r)
    (λ go c', if go : bool then frame P c c' ∧ (rests r c → cancelModel c' = false)
              else c' = c ∧ ∃ turn res, received r = InResponse turn res ∧
                     (cancelModel c = true → turn ≠ loop.currentTurnID (state c)))
    (frame P c) c.
Proof.
  intros HP Hb Ha. pose proof (frame_kept P c HP) as HK. pose proof (frame_refl P c Ha) as Hf.
  unfold handleEvent. destruct (received r) as [e|[i|]|[o|]| | |turn res] eqn:Er; try by wp_step.
  - wp_step. eapply wp_mono; [by apply handleInboxInputs_kept| |done]. intros [] c1 H1. wp_step.
    apply frame_rests; [by rewrite Er|done].
  - wp_step. eapply wp_mono; [by apply processOperations_kept| |done]. intros [] c1 H1. wp_step.
    apply frame_rests; [by rewrite Er|done].
  - do 2 wp_step. wp_step. eapply wp_mono; [apply (postHeartbeat_kept env (frame P c) (frame P c)); [done|by apply (kept_heartbeat env _ _ HK)]| |done].
    intros [] c1 H1. wp_step. apply frame_rests; [by rewrite Er|done].
  - do 2 wp_step. wp_step. apply frame_rests; [by rewrite Er|]. by apply (kept_clear env _ _ HK).
  - do 2 wp_step. destruct (_ || _) eqn:Es.
    { wp_step. split; [done|]. exists turn, res. split; [done|]. intros Em. rewrite Em in Es. simpl in Es.
      apply negb_true_iff in Es. by eapply bool_decide_eq_false_1. }
    wp_step. apply orb_false_iff in Es as [Em _]. apply negb_false_iff in Em.
    eapply wp_mono; [apply (processModelResponse_frame P _ _ _ (set_cancelModel false c));
                       [by apply Hb|by apply frame_refl]|..].
    + intros [] c1 H1. wp_step. destruct (frame_answered P c c1 H1). by split.
    + intros c1 H1. by apply frame_answered.
Qed.

(** ** Stopping *)

Definition logs (effs : list effect) c : coord B :=
  MkCoord (state c) (stop c) (cancellationRequested c) (cancelModel c) (heartbeat c) (trace c ++ effs) (ids c).

Definition pending (v : Operation) : Prop := operationIsTerminal (op.Status' v) = false.

Definition cancels (reason : string) (vs : list Operation) : list effect :=
  (λ v, ECancel (op.ID' v) reason) <$> filter pending vs.

(** Every pending operation is canceled, also after a cancellation failed. *)
Lemma cancel_each_spec reason vs failed c :
  wp (cancel_each env reason vs failed) (λ _ c', c' = logs (cancels reason vs) c) (λ _, False) c.
Proof.
  revert failed c. induction vs as [|v vs IH]; intros failed c; simpl.
  - wp_step. unfold logs, cancels. simpl. rewrite app_nil_r. by destruct c.
  - unfold cancels. rewrite filter_cons. destruct (decide (pending v)) as [Hp|Hp]; unfold pending in Hp.
    + rewrite Hp. wp_step. apply wp_perform. intros r.
      eapply wp_mono; [apply IH| |done]. intros _ c' ->. unfold logs. simpl. by rewrite <- (assoc_L app).
    + apply not_false_iff_true in Hp. rewrite Hp. apply IH.
Qed.

Lemma hasPendingOperations_false (s : loopState B) :
  hasPendingOperations s = false ↔ ∀ id v, loop.operations s !! id = Some v → ¬ pending v.
Proof.
  unfold hasPendingOperations, pending. rewrite <- not_true_iff_false, existsb_exists. split.
  - intros H id v Hv Hp. apply H. exists (id, v). split; [|by simpl; rewrite Hp].
    apply list_elem_of_In. by apply elem_of_map_to_list.
  - intros H ([id v] & Hin%list_elem_of_In & Hp). apply (H id v); [by apply elem_of_map_to_list|].
    simpl in Hp. by apply negb_true_iff.
Qed.

(** What the first [handleStop] does. *)
Definition stopping c : coord B := set_requested true (logs (cancels (control.Reason (stop c))
  (operations_walk env (set_cancelModel false c))) (set_cancelModel false c)).

Lemma handleStop_spec c :
  wp (handleStop env)
    (λ stopped c', c' = (if cancellationRequested c then c else stopping c) ∧
       stopped = negb (hasPendingOperations (state c'))) (λ _, True) c.
Proof.
  unfold handleStop, interruptModel, cancelOperations. do 3 wp_step.
  destruct (cancellationRequested c) eqn:Er; [by repeat wp_step|]. do 6 wp_step.
  eapply wp_mono; [apply cancel_each_spec| |done]. intros failed c1 ->.
  destruct failed; by repeat wp_step.
Qed.

(** ** The invariant of the loop *)

Definition idle_or_served c : Prop :=
  loop.callModel (state c) = false ∧
  (0 < pendingInputs (state c) → cancelModel c = true ∨ loop.graceToolCalls (state c) ≠ ∅).

Record loop_inv c : Prop := {
  li_accounts : accounts (state c);
  li_running : ¬ hard c → cancellationRequested c = false ∧ idle_or_served c;
  li_stopped : hard c →
    cancellationRequested c = true ∧ cancelModel c = false ∧ hasPendingOperations (state c) = true;
}.

(** From [c] to [c']: the last thing done was to ask for a response to
    everything that is available, as the context builder built it. *)
Definition asked c c' : Prop :=
  cancelModel c' = true ∧ loop.currentTurnInputs (state c') = loop.availableInputs (state c') ∧
  ∃ effs before built,
    trace c' = trace c ++ effs ++ [ERequest (loop.currentTurnID (state c')) built] ∧
    loop.builder (state c') = Commit before ∧ Build before = Ok built.

(** A request takes the turn's place in the local state and is in flight. *)
Lemma requestModelResponse_spec c :
  accounts (state c) →
  wp (requestModelResponse env)
    (λ _ c', accounts (state c') ∧ loop.callModel (state c') = false ∧ cancelModel c' = true ∧
       stop c' = stop c ∧ cancellationRequested c' = cancellationRequested c ∧ asked c c')
    (λ _, True) c.
Proof.
  intros Ha. unfold requestModelResponse, interruptModel. do 5 wp_step. apply wp_lift; [|done].
  intros built Hb. wp_step.
  apply wp_fresh_id. cbv zeta. wp_step. apply wp_add_and_store; [set_solver|].
  set (t := turn.Mk _ _ _).
  assert (wp (addItemToLocalState env (local_item ItemTurn (StoreTurn t)))
            (λ _ s, s = loop.set_builder Commit (loop.set_turn t (state c))) (λ _, False) (state c)) as Hitem
    by done.
  eapply wp_mono; [apply wp_and; [apply (addItem_local_inv env (loop.callModel (state c))); by split|exact Hitem]|..];
    [|by intros s [_ []]].
  intros [] s [[Hs _] Ht]. split; [|done]. intros _. do 5 wp_step. apply wp_perform. intros _. wp_step.
  split; [by eapply local_inv_callModel with (b := loop.callModel s)|]. do 4 (split; [done|]).
  split; [done|]. simpl. rewrite Ht. split; [done|].
  exists [EAppend (local_item ItemTurn (StoreTurn t))], (loop.builder (state c)), built.
  split; [by rewrite <- (assoc_L app)|]. split; [done|]. simpl in Hb.
  destruct (Build (loop.builder (state c))) as [b| |]; [by injection Hb as <-|done..].
Qed.

(** ** One round *)

(** Operations are only dispatched for a response that is in flight. *)
Definition started c (e : effect) : Prop := quiet e ∨ cancelModel c = true ∧ busy e.

(** What a round can do: ignore a response that nobody waits for, obey a hard
    stop, or go on. *)
Inductive round_result (r : round) c : outcome → coord B → Prop :=
  | round_stale t turn res :
      received r = InResponse turn res → (cancelModel c = true → turn ≠ loop.currentTurnID (state c)) →
      round_result r c Continue (set_heartbeat t c)
  | round_stop c1 c' :
      frame (started c) c c1 → hard c1 →
      c' = (if cancellationRequested c1 then c1 else stopping c1) →
      round_result r c (if hasPendingOperations (state c') then Continue else Return (ctx_err r)) c'
  | round_run c1 c' :
      frame (started c) c c1 → ¬ hard c1 → accounts (state c') → idle_or_served c' →
      stop c' = stop c1 → cancellationRequested c' = cancellationRequested c1 →
      (rests r c → 0 < pendingInputs (state c') → asked c c' ∨ loop.graceToolCalls (state c') ≠ ∅) →
      round_result r c (if bool_decide (control.Mode (stop c') = StopWhenIdle) && isIdle c'
                        then Return (ctx_err r) else Continue) c'.

Lemma arm_heartbeat_sets b c : ∃ t, arm_heartbeat b c = set_heartbeat t c.
Proof.
  unfold arm_heartbeat. assert (c = set_heartbeat (heartbeat c) c) as Hc by by destruct c.
  destruct (negb _); [by eexists|]. destruct (heartbeat c) eqn:Eh; [destruct b|..]; by eexists.
Qed.

Lemma wants_nothing c : wants_model c = false → idle_or_served c.
Proof.
  unfold wants_model, idle_or_served. intros [-> H]%orb_false_iff. split; [done|]. intros Hp.
  apply Z.ltb_lt in Hp. rewrite Hp in H. simpl in H. apply andb_false_iff in H as [H|H].
  - left. by apply negb_false_iff.
  - right. by eapply bool_decide_eq_false_1.
Qed.

Lemma wants_nothing_free c :
  wants_model c = false → cancelModel c = false → 0 < pendingInputs (state c) →
  loop.graceToolCalls (state c) ≠ ∅.
Proof. intros Hw Hm Hp. destruct (wants_nothing c Hw) as [_ H]. destruct (H Hp); [congruence|done]. Qed.

(** What was done before asking. *)
Lemma asked_before P c0 c1 c' : frame P c0 c1 → asked c1 c' → asked c0 c'.
Proof.
  intros [_ _ _ _ (effs & Ht & _)] (Hm & Hi & more & before & built & Htr & Hb).
  split; [done|]. split; [done|]. exists (effs ++ more), before, built. split; [|done].
  by rewrite Htr, Ht, <- !(assoc_L app).
Qed.

Lemma finish_round_spec r c0 c1 :
  frame (started c0) c0 c1 → (rests r c0 → cancelModel c1 = false) →
  wp (finish_round env r (wants_model c1)) (round_result r c0) (λ _, True) c1.
Proof.
  intros Hf Hrest. unfold finish_round. do 2 wp_step. case_bool_decide as Hh.
  - wp_step. eapply wp_mono; [apply handleStop_spec| |done]. intros stopped c' [Hc ->]. wp_step.
    pose proof (round_stop r c0 c1 c' Hf Hh Hc) as H. by destruct (hasPendingOperations (state c')).
  - wp_step. destruct (wants_model c1) eqn:Ew.
    + wp_step. eapply wp_mono; [apply requestModelResponse_spec, (fr_accounts _ _ _ Hf)| |done].
      intros [] c2 (Ha & Hcm & Hm & Hs & Hr & Hask). do 4 wp_step. apply (round_run r c0 c1); try done.
      * by apply (local_inv_clear (loop.callModel (state c2))).
      * split; [done|]. by left.
      * intros _ _. left. by eapply asked_before.
    + do 4 wp_step. apply (round_run r c0 c1); try done; [apply Hf|by apply wants_nothing|].
      intros H Hp. right. apply wants_nothing_free; auto.
Qed.

Lemma run_round_spec b r c :
  accounts (state c) → wp (run_round env b r) (round_result r c) (λ _, True) c.
Proof.
  intros Ha. unfold run_round. do 2 wp_step. destruct (arm_heartbeat_sets b c) as [t ->]. wp_step.
  assert (∀ c', frame (started c) (set_heartbeat t c) c' → frame (started c) c c') as Hc by (intros c' []; by split).
  eapply wp_mono; [apply (handleEvent_frame (started c))| |done].
  - by left.
  - by right.
  - done.
  - intros [] c1 H1; cbv beta iota in H1 |- *.
    + destruct H1 as [H1 Hrest]. wp_step. pose proof (fr_accounts _ _ _ H1) as Ha1.
      assert (∀ e, quiet e → started c e) as Hquiet by by left.
      eapply wp_mono; [apply wp_and;
        [apply (processEvents_kept env (frame (started c) c) (frame (started c) c)); [by apply frame_kept|by apply Hc]
        |apply (processEvents_kept env (frame (started c) c1) (frame (started c) c1));
           [by apply frame_kept|by apply frame_refl]]| |done].
      intros go c2 [[H2 ->] [H3 _]]. apply finish_round_spec; [done|]. intros Hr.
      apply not_true_iff_false. intros E%(fr_model _ _ _ H3). by rewrite (Hrest Hr) in E.
    + wp_step. destruct H1 as [-> (turn & res & Hr & Hid)]. by eapply round_stale.
Qed.

(** ** Runs *)

Lemma dispatch_all_steady (P : effect → Prop) vs c0 b m c :
  (∀ e, busy e → P e) → steady P c0 b m c →
  wp (for_each (dispatchOperationToManager env) vs)
    (λ _ c', steady P c0 b m c' ∧ state c' = state c) (λ _, True) c.
Proof.
  intros HP Hf. apply (wp_for_each _ (λ c', steady P c0 b m c' ∧ state c' = state c)); [done|].
  intros v c1 _ [(H1 & Hb & Hm) Hs]. unfold dispatchOperationToManager.
  destruct (operationIsTerminal _); [by wp_step|]. apply wp_perform_or_fail; [intros _|done].
  split; [|done]. split; [|done]. apply frame_log; [by apply HP|done].
Qed.

Lemma quiet_busy e : quiet e → busy e.
Proof. by destruct e. Qed.

Lemma start_spec c :
  accounts (state c) → loop.callModel (state c) = false → ¬ hard c → cancellationRequested c = false →
  wp (start env) (λ _, loop_inv) (λ _, True) c.
Proof.
  intros Ha Hc Hh Hr. unfold start. wp_step.
  pose proof (steady_kept busy c false (stop c) quiet_busy) as HK.
  pose proof (steady_refl busy c Ha) as H0. rewrite Hc in H0.
  eapply wp_mono; [apply (scheduleToolCalls_kept env _ _ c HK H0)| |done].
  intros statuses c1 [H1 _]. cbv beta. wp_step.
  eapply wp_mono; [apply (reconcileToolCalls_kept env _ _ c1 HK H1)| |done].
  intros completed c2 H2. cbv beta. unfold dispatchOperationsToManager. do 3 wp_step.
  eapply wp_mono; [by apply (dispatch_all_steady busy _ c false (stop c))| |done].
  intros [] c3 [([Ha3 Hm3 Hr3 _ _] & Hc3 & Hs3) _]. cbv beta. do 2 wp_step.
  destruct (_ || _) eqn:Eq.
  - eapply wp_mono; [by apply requestModelResponse_spec| |done]. intros [] c4 (Ha4 & Hc4 & Hm4 & Hs4 & Hr4 & _).
    split; [done| |].
    + intros _. split; [by rewrite Hr4, Hr3|]. split; [done|]. by left.
    + unfold hard. by rewrite Hs4, Hs3.
  - wp_step. apply orb_false_iff in Eq as [_ Eq%Z.ltb_ge]. split; [done| |].
    + intros _. split; [by rewrite Hr3|]. split; [done|]. lia.
    + unfold hard. by rewrite Hs3.
Qed.

Lemma Run_spec interval Items restored fuel b :
  wp (Run env interval Items restored fuel) (λ o c, o = Some tt → loop_inv c) (λ _, True) (New_coordinator b).
Proof.
  unfold Run. destruct (_ <? _); [by wp_step|]. wp_step. apply wp_on_state.
  eapply wp_mono; [apply (restore_local_inv env false)| |done].
  { split; [|done]. split; simpl; [|lia|].
    - by rewrite bool_decide_true.
    - intros id v. by rewrite lookup_empty. }
  intros [[]|] s [Hs Hc]; [|by wp_step]. wp_step.
  eapply wp_mono; [by apply start_spec| |done]. intros [] c H. by wp_step.
Qed.

(** The states at the top of the loop. *)
Inductive reachable : coord B → Prop :=
  | reach_run interval Items restored fuel b c :
      Run env interval Items restored fuel (New_coordinator b) = (c, Ok (Some tt)) → reachable c
  | reach_round c pos r c' :
      reachable c → run_round env pos r c = (c', Ok Continue) → reachable c'.

(** A hard stop at the top of the loop was obeyed, so that a round finds no
    request in flight. *)
Lemma round_inv r c o c' :
  loop_inv c → round_result r c o c' → o = Continue → loop_inv c'.
Proof.
  intros [Ha Hrun Hstop] [t turn res _ _|c1 c2 Hf Hh Hc|c1 c2 Hf Hh Ha2 Hs2 Hst Hrq _] Ho.
  - by split.
  - destruct (hasPendingOperations (state c2)) eqn:Ep; [clear Ho|done]. assert (accounts (state c2) ∧ stop c2 = stop c1) as [Ha2 Hst].
    { rewrite Hc. destruct (cancellationRequested c1); split; try done; apply Hf. }
    split; [done|intros []; by unfold hard; rewrite Hst|]. intros _.
    assert (cancellationRequested c2 = true ∧ cancelModel c2 = false) as []; [|done]. clear Ep. rewrite Hc. destruct (cancellationRequested c1) eqn:E1; [|done]. split; [done|].
    destruct Hf as [_ Hm Hr _ _]. rewrite Hr in E1.
    destruct (decide (hard c)) as [H|H]; [|by destruct (Hrun H) as [E _]; rewrite E1 in E].
    apply not_true_iff_false. intros E. apply Hm in E. destruct (Hstop H) as (_ & E' & _). by rewrite E' in E.
  - clear Ho. unfold hard in Hh. split; [done| |].
    + intros _. split; [|done]. rewrite Hrq. destruct Hf as [_ _ Hr Hs _]. rewrite Hr.
      apply Hrun. intros H. apply Hh. by rewrite (Hs H).
    + unfold hard. by rewrite Hst.
Qed.

Lemma loop_reachable_inv c : reachable c → loop_inv c.
Proof.
  induction 1 as [interval Items restored fuel b c Hrun|c pos r c' _ IH Hround].
  - by apply (wp_ok _ _ _ _ _ _ (Run_spec interval Items restored fuel b) Hrun).
  - eapply round_inv; [exact IH| |reflexivity].
    exact (wp_ok _ _ _ _ _ _ (run_round_spec pos r c (li_accounts _ IH)) Hround).
Qed.

Lemma round_cases c pos r c' o :
  reachable c → run_round env pos r c = (c', Ok o) → round_result r c o c'.
Proof.
  intros Hc Hr. exact (wp_ok _ _ _ _ _ _ (run_round_spec pos r c (li_accounts _ (loop_reachable_inv c Hc))) Hr).
Qed.

(** ** The properties of the loop *)

(** C2: No wake-up is lost.  At the top of the loop, unless a hard stop was
    accepted, every wish for a response was served; and when inputs were not
    delivered to the model, a request is in flight or the grace timer of running
    tool calls, which wakes the loop, is set.  The request in flight may be
    older than the inputs; but the round in which its response is received, and
    every round that finds no request in flight, ends with all inputs delivered,
    with the grace timer set, or with a new request in flight whose turn counts
    every available input and which is what the context builder built. *)
Theorem no_lost_wakeup c :
  reachable c → ¬ hard c →
  loop.callModel (state c) = false ∧ 0 ≤ pendingInputs (state c) ∧
  (0 < pendingInputs (state c) →
     cancelModel c = true ∨ loop.grace (state c) = true ∧ loop.graceToolCalls (state c) ≠ ∅) ∧
  ∀ pos r c', rests r c → run_round env pos r c = (c', Ok Continue) → ¬ hard c' →
    0 < pendingInputs (state c') →
    asked c c' ∨ loop.grace (state c') = true ∧ loop.graceToolCalls (state c') ≠ ∅.
Proof.
  intros Hc Hh. pose proof (loop_reachable_inv c Hc) as [[Hg Ho _] Hrun _].
  destruct (Hrun Hh) as [_ [Hcm Hp]].
  split; [done|]. split; [unfold pendingInputs; lia|]. split.
  { intros [H|H]%Hp; [by left|right]. by rewrite Hg, bool_decide_false. }
  intros pos r c' Hrest Hr Hh' Hpend.
  pose proof (loop_reachable_inv c' (reach_round _ _ _ _ Hc Hr)) as [[Hg' _ _] _ _].
  assert (asked c c' ∨ loop.graceToolCalls (state c') ≠ ∅) as [|H]; [|by left|].
  { pose proof (round_cases _ _ _ _ _ Hc Hr) as H. remember Continue as o. clear Hr.
    destruct H as [t turn res Hres Hid|c1 c2 Hf Hh1 Hc2|c1 c2 Hf Hh1 _ _ _ _ Hask]; [| |by apply Hask].
    - destruct (Hp Hpend) as [Hm|Hm]; [exfalso|by right].
      destruct (Hrest Hm) as [res' E]. rewrite E in Hres. apply (Hid Hm). by injection Hres.
    - destruct Hh'. unfold hard. rewrite Hc2. by destruct (cancellationRequested c1). }
  right. by rewrite Hg', bool_decide_false.
Qed.

Lemma handleStop_requested c :
  cancellationRequested c = true → handleStop env c = (c, Ok (negb (hasPendingOperations (state c)))).
Proof. intros H. unfold handleStop, mbind, M_bind, self. by rewrite H. Qed.

(** Once the stop was obeyed a round starts nothing, whether it fails or not. *)
Lemma hard_round pos r c :
  loop_inv c → hard c →
  wp (run_round env pos r)
    (λ o c', frame quiet c c' ∧ o = if hasPendingOperations (state c') then Continue else Return (ctx_err r))
    (frame quiet c) c.
Proof.
  intros [Ha _ Hstop] Hh. destruct (Hstop Hh) as (Hr & Hm & Hpend). unfold run_round. do 2 wp_step.
  destruct (arm_heartbeat_sets pos c) as [t ->]. wp_step.
  assert (∀ c', frame quiet (set_heartbeat t c) c' → frame quiet c c') as Hc by (intros c' []; by split).
  eapply wp_mono; [apply (handleEvent_frame quiet); simpl; [done|by rewrite Hm|done]|..]; [|exact Hc].
  intros [] c1 H1; cbv beta iota in H1 |- *.
  - destruct H1 as [H1 _]. wp_step. eapply wp_mono; [apply (processEvents_kept env (frame quiet c) (frame quiet c)); [by apply frame_kept|by apply Hc]| |done].
    intros go c2 [H2 _]. cbv beta. unfold finish_round. do 2 wp_step.
    assert (stop c2 = stop c) as Hs by by apply H2. rewrite Hs, bool_decide_true by done. wp_step.
    unfold wp. rewrite handleStop_requested by (rewrite (fr_requested _ _ _ H2); exact Hr).
    cbv beta iota. unfold mret, M_ret. split; [done|]. by destruct (hasPendingOperations (state c2)).
  - wp_step. destruct H1 as [-> _]. split; [apply Hc, frame_refl, Ha|].
    change (state (set_heartbeat t c)) with (state c). by rewrite Hpend.
Qed.

(** C8: After a hard stop the session winds down.  Whatever a round receives and
    however it ends, it keeps the stop, has no request in flight, starts no
    operation and no request and cancels nothing twice: its effects only
    record what happened.  A round that does not fail makes the loop return, with
    the error of the context, exactly when no operation is pending after it;
    otherwise the loop goes on. *)
Theorem hard_stop_quiet c pos r c' res :
  reachable c → hard c → run_round env pos r c = (c', res) →
  stop c' = stop c ∧ cancelModel c' = false ∧
  (∃ effs, trace c' = trace c ++ effs ∧ Forall quiet effs) ∧
  (∀ o, res = Ok o → o = if hasPendingOperations (state c') then Continue else Return (ctx_err r)).
Proof.
  intros Hc%loop_reachable_inv Hh Hr. pose proof (hard_round pos r c Hc Hh) as H. unfold wp in H. rewrite Hr in H.
  assert (frame quiet c c' → stop c' = stop c ∧ cancelModel c' = false ∧
            ∃ effs, trace c' = trace c ++ effs ∧ Forall quiet effs) as Hf.
  { intros [_ Hm _ Hs Ht]. split; [by apply Hs|]. split; [|done]. apply not_true_iff_false. intros E.
    destruct (li_stopped _ Hc Hh) as (_ & E' & _). by rewrite (Hm E) in E'. }
  destruct res as [o|e|t]; [destruct H as [H Ho]| |];
    (destruct (Hf H) as (H1 & H2 & H3); do 3 (split; [done|])); [|done..].
  by intros o' [= <-].
Qed.

Lemma operations_walk_all c id v :
  walks env → loop.operations (state c) !! id = Some v → v ∈ operations_walk env c.
Proof.
  intros [_ Hw] Hv. unfold operations_walk. apply list_elem_of_omap. exists id. split; [|done].
  rewrite Hw. apply list_elem_of_fmap. exists (id, v). split; [done|]. by apply elem_of_map_to_list.
Qed.

(** The round that accepts a hard stop interrupts the request in flight and
    asks the manager to cancel every operation that is still pending, with the
    reason of the stop, in whatever order the map is walked. *)
Theorem hard_stop_cancels_all c pos r c' o :
  walks env → reachable c → ¬ hard c → run_round env pos r c = (c', Ok o) → hard c' →
  cancelModel c' = false ∧ cancellationRequested c' = true ∧
  ∃ effs, trace c' = trace c ++ effs ∧
    ∀ id v, loop.operations (state c') !! id = Some v → operationIsTerminal (op.Status' v) = false →
      ECancel id (control.Reason (stop c')) ∈ effs.
Proof.
  intros Hw Hc Hh Hr Hh'. pose proof (round_cases _ _ _ _ _ Hc Hr) as H. apply loop_reachable_inv in Hc.
  destruct (li_running _ Hc Hh) as [Hreq _].
  destruct H as [t turn res _ _|c1 c2 Hf Hh1 Hc2|c1 c2 Hf Hh1 _ _ Hs _ _]; [done| |by unfold hard in *; rewrite Hs in Hh'].
  rewrite (fr_requested _ _ _ Hf), Hreq in Hc2. subst c2. unfold stopping. simpl.
  destruct Hf as [[_ _ Hk] _ _ _ (effs & Ht & _)]. do 2 (split; [done|]).
  exists (effs ++ cancels (control.Reason (stop c1)) (operations_walk env (set_cancelModel false c1))).
  split; [by rewrite Ht, (assoc_L app)|]. intros id v Hv Hp. apply elem_of_app. right.
  apply list_elem_of_fmap. exists v. rewrite (Hk id v Hv). split; [done|].
  apply list_elem_of_filter. split; [exact Hp|]. by eapply operations_walk_all.
Qed.

(** The loop returns without a failure of its own only when it was told to
    stop: after a hard stop with no operation pending, or after a stop when
    idle with no request in flight, no input undelivered, no tool call open and
    no operation pending. *)
Theorem return_means_stopped c pos r c' e :
  reachable c → run_round env pos r c = (c', Ok (Return e)) →
  e = ctx_err r ∧ hasPendingOperations (state c') = false ∧
  (control.Mode (stop c') = StopHard ∨
   control.Mode (stop c') = StopWhenIdle ∧ cancelModel c' = false ∧
     pendingInputs (state c') = 0 ∧ loop.toolCalls (state c') = ∅).
Proof.
  intros Hc Hr. pose proof (round_cases _ _ _ _ _ Hc Hr) as H. clear Hr.
  inversion H as [t turn res _ _|c1 c2 Hf Hh Hc2 Ho|c1 c2 Hf Hh _ _ Hs _ _ Ho]; subst.
  - destruct (hasPendingOperations _) eqn:Ep; [done|]. injection Ho as <-. do 2 (split; [done|]). left.
    destruct (cancellationRequested c1); exact Hh.
  - destruct (bool_decide _) eqn:Em; [|done]. simpl in Ho. destruct (isIdle c') eqn:Ei; [|done].
    injection Ho as <-. apply bool_decide_eq_true in Em. unfold isIdle in Ei. rewrite !andb_true_iff in Ei.
    destruct Ei as [[[Ei1 Ei2] Ei3] Ei4]. split; [done|]. split; [by apply negb_true_iff|]. right.
    split; [done|]. split; [by apply negb_true_iff|]. split; [by apply Z.eqb_eq|]. by eapply bool_decide_eq_true_1.
Qed.
End Loop.

(** ** The properties hold of the sample session *)

Lemma sample_start_reachable : reachable sample_env sample_start.
Proof.
  apply (reach_run sample_env 600 sample_Items [] 1 (NewBuilder [])). apply ran. vm_compute. reflexivity.
Qed.

Lemma reach_next c r :
  reachable sample_env c → snd (run_round sample_env true r c) = Ok Continue →
  reachable sample_env (after_rounds c [r]).
Proof. intros Hc Hr. eapply reach_round; [exact Hc|]. by apply ran. Qed.

Lemma ran_round c r x :
  snd (run_round sample_env true r c) = x → run_round sample_env true r c = (after_rounds c [r], x).
Proof.
  intros <-. unfold after_rounds, fold_left. by destruct (run_round sample_env true r c).
Qed.

Lemma sample_asked_reachable : reachable sample_env sample_asked.
Proof. apply reach_next; [apply sample_start_reachable|vm_compute; reflexivity]. Qed.

Lemma sample_running_reachable : reachable sample_env sample_running.
Proof.
  change (reachable sample_env (after_rounds sample_asked (drop 1 sample_rounds))).
  apply reach_next; [apply sample_asked_reachable|vm_compute; reflexivity].
Qed.

Lemma sample_stopped_reachable : reachable sample_env sample_stopped.
Proof. apply reach_next; [apply sample_running_reachable|vm_compute; reflexivity]. Qed.

Lemma no_lost_wakeup_witness :
  (pendingInputs (state sample_asked) = 1 ∧
   (0 < pendingInputs (state sample_asked) →
     cancelModel sample_asked = true ∨
     loop.grace (state sample_asked) = true ∧ loop.graceToolCalls (state sample_asked) ≠ ∅)) ∧
  cancelModel sample_start = false ∧
  (asked sample_start sample_asked ∨
   loop.grace (state sample_asked) = true ∧ loop.graceToolCalls (state sample_asked) ≠ ∅).
Proof.
  split; [split; [vm_compute; reflexivity|]|split; [vm_compute; reflexivity|]].
  - assert (¬ hard sample_asked) as Hh by (vm_compute; discriminate).
    exact (proj1 (proj2 (proj2 (no_lost_wakeup sample_env sample_asked sample_asked_reachable Hh)))).
  - assert (¬ hard sample_start) as Hh by (vm_compute; discriminate).
    apply (proj2 (proj2 (proj2 (no_lost_wakeup sample_env sample_start sample_start_reachable Hh)))
             true (quietly (InInput (Some sample_input)))).
    + vm_compute. discriminate.
    + apply ran. vm_compute. reflexivity.
    + vm_compute. discriminate.
    + vm_compute. reflexivity.
Defined.

Definition sample_end : coord builder := after_rounds sample_stopped [sample_update].

Lemma hard_stop_quiet_witness :
  hard sample_stopped ∧ cancelModel sample_end = false ∧
  Return None = if hasPendingOperations (state sample_end) then Continue else Return (ctx_err sample_update).
Proof.
  assert (run_round sample_env true sample_update sample_stopped = (sample_end, Ok (Return None))) as Hr
    by (apply (ran_round sample_stopped sample_update); vm_compute; reflexivity).
  assert (hard sample_stopped) as Hh by (vm_compute; reflexivity).
  destruct (hard_stop_quiet _ _ _ _ _ _ sample_stopped_reachable Hh Hr) as (_ & Hm & _ & Hp).
  split; [exact Hh|]. split; [exact Hm|]. by apply Hp.
Defined.

Lemma hard_stop_cancels_all_witness :
  hasPendingOperations (state sample_running) = true ∧
  ∃ effs, trace sample_stopped = trace sample_running ++ effs ∧
    ∀ id v, loop.operations (state sample_stopped) !! id = Some v → operationIsTerminal (op.Status' v) = false →
      ECancel id (control.Reason (stop sample_stopped)) ∈ effs.
Proof.
  split; [vm_compute; reflexivity|].
  assert (run_round sample_env true sample_stop sample_running = (sample_stopped, Ok Continue)) as Hr
    by (apply (ran_round sample_running sample_stop); vm_compute; reflexivity).
  assert (walks sample_env) as Hw by (split; intros h l; [reflexivity|symmetry; apply Permutation_rev]).
  assert (¬ hard sample_running) as Hh by (vm_compute; discriminate).
  assert (hard sample_stopped) as Hh' by (vm_compute; reflexivity).
  exact (proj2 (proj2 (hard_stop_cancels_all _ _ _ _ _ _ Hw sample_running_reachable Hh Hr Hh'))).
Defined.

Lemma return_means_stopped_witness :
  control.Mode (stop sample_end) = StopHard ∨
  control.Mode (stop sample_end) = StopWhenIdle ∧ cancelModel sample_end = false ∧
    pendingInputs (state sample_end) = 0 ∧ loop.toolCalls (state sample_end) = ∅.
Proof.
  assert (run_round sample_env true sample_update sample_stopped = (sample_end, Ok (Return None))) as Hr
    by (apply (ran_round sample_stopped sample_update); vm_compute; reflexivity).
  exact (proj2 (proj2 (return_means_stopped _ _ _ _ _ _ sample_stopped_reachable Hr))).
Defined.
