(* ===== verification/CoordinatorTrace.v ===== *)
(** * What the coordinator did, in the order in which it did it

    Two properties of the effects of a session: nothing is started before the
    store accepted the record of it, and every request to the model repeats
    the conversation that the model has seen. *)

From Stdlib Require Import Ascii ZArith Lia.
From stdpp Require Import sorting.
From S2P Require Import Prelude StateLogic GoStrings GoText Json JsonCodec GoTime Primitives.
From S2P Require Import Operation Llm Inbox Tool ContextBuilder SessionStore.
From S2P Require Import Coordinator CoordinatorSamples CoordinatorFacts.

Local Open Scope Z_scope.

#[local] Arguments Validate : simpl never.
#[local] Arguments DecodeControlMessage : simpl never.

(** ** The order of the effects *)

Section Order.
Context {B : Type} `{!ContextBuilder B} (env : environment).
Implicit Types c : coord B.

(** An operation that a stored item carries: a tool-call status. *)
Definition carried (tr : list effect) (v : Operation) : Prop :=
  ∃ i, was_stored env tr i ∧ v ∈ item_operations i.

(** What must have been stored before an effect; [known] are the operations
    of the session before this process. *)
Definition recorded (known : Operation → Prop) (before : list effect) (e : effect) : Prop :=
  match e with
  | ERequest turn _ => ∃ previous,
      was_stored env before (local_item ItemTurn (StoreTurn (turn.Mk turn previous TurnRegular)))
  | EAdd v => known v ∨ carried before v
  | _ => True
  end.

Definition write_ahead (known : Operation → Prop) (tr : list effect) : Prop :=
  ∀ before e after, tr = before ++ e :: after → recorded known before e.

Lemma write_ahead_nil known : write_ahead known [].
Proof. intros [|e0 before] e after H; by simplify_eq/=. Qed.

Lemma write_ahead_snoc known tr e :
  write_ahead known tr → recorded known tr e → write_ahead known (tr ++ [e]).
Proof.
  intros Htr He before e' after Hb.
  destruct (decide (after = [])) as [->|Hne].
  - apply app_inj_tail in Hb as [<- <-]. exact He.
  - destruct (exists_last Hne) as (after' & x & ->).
    rewrite app_comm_cons, (assoc_L app) in Hb. apply app_inj_tail in Hb as [Hb _]. by eapply Htr.
Qed.

Lemma carried_app tr tr' v : carried tr v → carried (tr ++ tr') v.
Proof. intros (st & H & Hv). exists st. split; [by apply was_stored_app|done]. Qed.

Context (known : Operation → Prop).

Definition ordered c : Prop := write_ahead known (trace c).

Lemma ordered_log e c : (∀ v, e ≠ EAdd v) → (∀ t r, e ≠ ERequest t r) → ordered c → ordered (log e c).
Proof.
  intros Ha Hr H. apply write_ahead_snoc; [done|]. destruct e; simpl; try done.
  - by destruct (Ha o).
  - by destruct (Hr turn r).
Qed.

Lemma ordered_item i c :
  sitem.Kind i ∈ storable → ordered c → wp (add_and_store env i) (λ _, ordered) ordered c.
Proof.
  intros Hk H. apply wp_add_and_store; [done|]. unfold wp.
  destruct (addItemToLocalState env i (state c)) as [s [[]|e|t]]; [|done..].
  cbv zeta. assert (ordered (log (EAppend i) (with_state (λ _, s) c))) by by apply ordered_log.
  by split.
Qed.

Lemma ordered_kept : Kept env ordered ordered.
Proof.
  constructor; [apply KeptItems_intro|..]; try done.
  - intros i c Hk _ H. by apply ordered_item.
  - intros v c. by apply ordered_log.
  - intros i c. by apply ordered_log.
  - intros m c H. unfold acceptStop. by case_bool_decide.
Qed.

Lemma dispatch_ordered v c :
  known v ∨ carried (trace c) v → ordered c →
  wp (dispatchOperationToManager env v)
    (λ _ c', ordered c' ∧ trace c `prefix_of` trace c') ordered c.
Proof.
  intros Hv H. unfold dispatchOperationToManager. destruct (operationIsTerminal _); [by wp_step|].
  assert (ordered (log (EAdd v) c)) by by apply write_ahead_snoc.
  apply wp_perform_or_fail; [intros _|done]. split; [done|]. by eexists.
Qed.

Lemma dispatch_all_ordered vs c :
  Forall (λ v, known v ∨ carried (trace c) v) vs → ordered c →
  wp (for_each (dispatchOperationToManager env) vs) (λ _, ordered) ordered c.
Proof.
  intros Hvs H. rewrite Forall_forall in Hvs.
  eapply (wp_mono _ (λ _ c', ordered c' ∧ trace c `prefix_of` trace c') _ ordered); [|by intros ? ? []|done].
  apply wp_for_each; [done|]. intros v c1 Hv [H1 [k Hk]].
  eapply wp_mono; [apply dispatch_ordered; [|done]| |done].
  - destruct (Hvs v Hv) as [|Hc]; [by left|right]. rewrite Hk. by apply carried_app.
  - intros [] c2 [H2 Hp]. split; [done|]. etransitivity; [by eexists|exact Hp].
Qed.

Lemma statuses_carried tr statuses :
  statuses_stored env tr statuses →
  Forall (λ v, known v ∨ carried tr v) (concat (tcs.Operations <$> statuses)).
Proof.
  intros H. apply Forall_forall. intros v Hv. right. apply list_elem_of_In, in_concat in Hv as (vs & Hvs & Hv).
  apply list_elem_of_In in Hvs, Hv. apply list_elem_of_fmap in Hvs as (st & -> & Hst).
  exists (status_item st). split; [|done]. unfold statuses_stored in H. rewrite Forall_forall in H. by apply H.
Qed.

(** The turn is stored before the request is made. *)
Lemma requestModelResponse_ordered c :
  ordered c → wp (requestModelResponse env) (λ _, ordered) ordered c.
Proof.
  intros H. unfold requestModelResponse, interruptModel. do 6 wp_step; [|done]. wp_step.
  apply wp_fresh_id. cbv zeta. wp_step.
  set (i := local_item _ _). set (c1 := set_ids _ _).
  pose proof (ordered_item i c1 ltac:(set_solver) H) as H1.
  pose proof (trace_add_and_store env i c1 ltac:(set_solver)) as H2. unfold wp in H1, H2 |- *.
  destruct (add_and_store env i c1) as [c2 [[]|e|t]]; [|done..].
  apply write_ahead_snoc; [exact H1|]. simpl. eexists. by apply H2.
Qed.

Lemma ordered_steps : Steps env ordered ordered.
Proof.
  constructor; [apply ordered_kept|..]; try done.
  - intros id reason c. by apply ordered_log.
  - intros statuses c Hs H. apply dispatch_all_ordered; [by apply statuses_carried|done].
  - intros c. apply requestModelResponse_ordered.
Qed.

(** *** The start *)

(** The operations of the local state are known or carried. *)
Definition held c : Prop :=
  ∀ id v, loop.operations (state c) !! id = Some v → known v ∨ carried (trace c) v.

(** Adding an item adds no operations but its own. *)
Definition operations_from (s : loopState B) (vs : list Operation) (s' : loopState B) : Prop :=
  ∀ id v, loop.operations s' !! id = Some v → loop.operations s !! id = Some v ∨ v ∈ vs.

Lemma operations_from_steps s vs : LocalSteps (operations_from s vs).
Proof.
  constructor; [constructor|..].
  - by intros b s' _ H.
  - by intros s' H.
  - by intros f s' H.
  - intros s' H id v. simpl. by rewrite lookup_empty.
  - by intros s' H.
  - by intros s' H.
  - by intros t s' H.
  - intros key s' H. unfold finishToolCall. cbv zeta. by destruct (bool_decide _).
Qed.

Lemma operations_from_add s vs v s' :
  v ∈ vs → operations_from s vs s' → operations_from s vs (addOperationToLocalState v s').
Proof.
  intros Hv H id v'. simpl. intros [[_ <-]|[_ Hl]]%lookup_insert_Some; [by right|by apply H].
Qed.

Lemma operations_from_refl s vs : operations_from s vs s.
Proof. intros id v H. by left. Qed.

Lemma add_and_store_held (vs : list Operation) i c :
  sitem.Kind i ∈ storable → (∀ v, v ∈ vs → v ∈ item_operations i) → ordered c →
  (∀ id v, loop.operations (state c) !! id = Some v → known v ∨ carried (trace c) v ∨ v ∈ vs) →
  wp (add_and_store env i) (λ _ c', ordered c' ∧ held c') ordered c.
Proof.
  intros Hk Hvs Ho Hh. apply wp_add_and_store; [done|].
  eapply wp_mono; [apply (addItem_steps env (operations_from (state c) (item_operations i)))|..].
  - apply operations_from_steps.
  - intros v s. apply operations_from_add.
  - apply operations_from_refl.
  - intros [] s Hs. cbv zeta. assert (ordered (log (EAppend i) (with_state (λ _, s) c))) by by apply ordered_log.
    split; [|done]. intros Ha. split; [done|]. intros id v Hv. simpl in *.
    assert (v ∈ item_operations i → carried (trace c ++ [EAppend i]) v) as Hi.
    { intros Hin. exists i. split; [by apply was_stored_now|done]. }
    destruct (Hs id v Hv) as [Hv'|Hin]; [|by right; apply Hi].
    destruct (Hh id v Hv') as [?|[?|?]]; [by left|right; by apply carried_app|right; by apply Hi, Hvs].
  - intros s _. exact Ho.
Qed.

Lemma held_kept : KeptItems env (λ c, ordered c ∧ held c) ordered.
Proof.
  apply KeptItems_new.
  - by intros c [].
  - intros i c Hk _ [Ho Hh]. apply (add_and_store_held []); [done|set_solver|done|].
    intros id v Hv. destruct (Hh id v Hv); auto.
  - intros st c [Ho Hh]. unfold add_new_status. wp_step.
    eapply (wp_mono _ (λ _ c', trace c' = trace c ∧ operations_from (state c) (tcs.Operations st) (state c'))
              _ (λ c', trace c' = trace c)); [| |intros c' Hc'; by red; rewrite Hc'].
    + apply wp_for_each; [split; [done|apply operations_from_refl]|]. intros v c1 Hv [Hc1 H1]. wp_step.
      split; [done|]. by apply operations_from_add.
    + intros [] c1 [Hc1 H1]. apply (add_and_store_held (tcs.Operations st)); [set_solver|done|by red; rewrite Hc1|].
      intros id v Hv. rewrite Hc1. destruct (H1 id v Hv) as [Hv'|]; [|by auto].
      destruct (Hh id v Hv'); auto.
  - by intros n c [].
Qed.

Lemma start_ordered c :
  ordered c → (∀ id v, loop.operations (state c) !! id = Some v → known v) →
  wp (start env) (λ _, ordered) ordered c.
Proof.
  intros Ho Hv. unfold start. wp_step. pose proof held_kept as HK.
  eapply wp_mono; [apply (scheduleToolCalls_kept env _ ordered _ HK)| |done].
  { split; [done|]. intros id v H. left. by eapply Hv. }
  intros statuses c1 [H1 _]. cbv beta. wp_step.
  eapply wp_mono; [apply (reconcileToolCalls_kept env _ ordered c1 HK H1)| |done].
  intros completed c2 [H2 Hh]. cbv beta. unfold dispatchOperationsToManager. do 3 wp_step.
  eapply wp_mono; [apply dispatch_all_ordered; [|done]| |done].
  - apply Forall_forall. intros v (id & _ & Hl)%list_elem_of_omap. by eapply Hh.
  - intros [] c3 H3. do 2 wp_step. destruct (_ || _); [by apply requestModelResponse_ordered|by wp_step].
Qed.
End Order.

(** What a process that ran on a session with the operations [ops] can have
    done, whether the last step failed or not. *)
Inductive execution {B} `{!ContextBuilder B} (env : environment) (ops : list Operation) : coord B → Prop :=
  | exec_start Items restored fuel b s c res :
      restore env Items restored fuel (newLoopState b) = (s, Ok (Some tt)) →
      ops = (map_to_list (loop.operations s)).*2 →
      start env (with_state (λ _, s) (New_coordinator b)) = (c, res) → execution env ops c
  | exec_round c pos r c' res :
      execution env ops c → run_round env pos r c = (c', res) → execution env ops c'.

Lemma wp_any {S A} (m : M S A) (I : S → Prop) s s' r : wp m (λ _, I) I s → m s = (s', r) → I s'.
Proof. unfold wp. intros H Hm. rewrite Hm in H. by destruct r. Qed.

(** C7: Nothing is started before it is on record.  Whatever a process does on a
    session, and whether it fails in the end or not: before an operation is
    dispatched the store accepted a tool-call status that carries it, unless
    the session was restored with it; and before a request is made the store
    accepted its turn. *)
Theorem recorded_before_started {B} `{!ContextBuilder B} env ops (c : coord B) before e after :
  execution env ops c → trace c = before ++ e :: after →
  match e with
  | ERequest turn _ => ∃ previous,
      was_stored env before (local_item ItemTurn (StoreTurn (turn.Mk turn previous TurnRegular)))
  | EAdd v => v ∈ ops ∨ ∃ i st, was_stored env before i ∧ sitem.Kind i = ItemToolCallStatus ∧
      sitem.Data i = StoreToolCallStatus st ∧ v ∈ tcs.Operations st
  | _ => True
  end.
Proof.
  intros He Htr. assert (ordered env (λ v, v ∈ ops) c) as H.
  { clear Htr. induction He as [Items restored fuel b s c res Hr -> Hs|c pos r c' res _ IH Hr].
    - refine (wp_any _ _ _ _ _ (start_ordered env _ _ _ _) Hs); [apply write_ahead_nil|].
      intros id v Hv. simpl. apply list_elem_of_fmap. exists (id, v). split; [done|].
      by apply elem_of_map_to_list.
    - exact (wp_any _ _ _ _ _ (run_round_steps env _ _ pos r c (ordered_steps env _) IH) Hr). }
  specialize (H before e after Htr). destruct e; try done. destruct H as [H|(i & Hi & Hv)]; [by left|right].
  unfold item_operations in Hv. case_bool_decide as Hk; [|by apply elem_of_nil in Hv].
  destruct (sitem.Data i) as [| | | |st| |] eqn:Ed; try by apply elem_of_nil in Hv. by exists i, st.
Qed.

(** ** Requests repeat the conversation *)

Section Extend.
Context {B : Type} `{!ContextBuilder B} `{!LawfulContextBuilder B} (env : environment).
Implicit Types (c : coord B) (s : loopState B).

(** The model has seen at least [l]. *)
Definition seen_in (l : list Item) s : Prop := l `prefix_of` sent (loop.builder s).

Lemma builder_call_sent (b b' : B) : builder_call b b' → sent b `prefix_of` sent b'.
Proof.
  intros [i|m|r|id out running|].
  - apply sent_external.
  - apply sent_control.
  - apply sent_response.
  - apply sent_result.
  - apply sent_commit.
Qed.

Lemma seen_in_steps l : LocalSteps (seen_in l).
Proof.
  constructor; [constructor|..].
  - intros b s Hb H. red. etransitivity; [exact H|]. by apply builder_call_sent.
  - by intros s H.
  - by intros f s H.
  - by intros s H.
  - by intros s H.
  - by intros s H.
  - by intros t s H.
  - intros key s H. unfold finishToolCall. cbv zeta. by destruct (bool_decide _).
Qed.

Definition requests (tr : list effect) : list Request :=
  omap (λ e, match e with ERequest _ r => Some r | _ => None end) tr.

Definition extends (r1 r2 : Request) : Prop := request.Input r1 `prefix_of` request.Input r2.

(** The requests extend each other, and the model has seen them. *)
Definition extending c : Prop :=
  StronglySorted extends (requests (trace c)) ∧
  ∀ r, r ∈ requests (trace c) → seen_in (request.Input r) (state c).

Lemma requests_snoc tr e :
  requests (tr ++ [e]) = requests tr ++ match e with ERequest _ r => [r] | _ => [] end.
Proof. unfold requests. rewrite omap_app. by destruct e. Qed.

Lemma extending_log e c : (∀ t r, e ≠ ERequest t r) → extending c → extending (log e c).
Proof.
  intros He H. unfold extending. simpl. rewrite requests_snoc.
  destruct e; rewrite ?app_nil_r; try exact H. by destruct (He turn r).
Qed.

Lemma extending_state f c :
  (∀ l, seen_in l (state c) → seen_in l (f (state c))) → extending c → extending (with_state f c).
Proof. intros Hf [Hs Hr]. split; [done|]. intros r Hin. by apply Hf, Hr. Qed.

Lemma extending_item i c :
  sitem.Kind i ∈ storable → extending c → wp (add_and_store env i) (λ _, extending) extending c.
Proof.
  intros Hk H. apply wp_add_and_store; [done|].
  eapply wp_mono; [apply (addItem_steps env (seen_in (sent (loop.builder (state c))))); [apply seen_in_steps|done|by red]|..].
  - intros [] s Hs. cbv zeta. split; [intros _|]; (apply extending_log; [done|]; apply extending_state; [|done]);
      intros l Hl; red; by etransitivity.
  - intros s Hs. apply extending_state; [|done]. intros l Hl. red. by etransitivity.
Qed.

Lemma extending_kept : Kept env extending extending.
Proof.
  constructor; [apply KeptItems_intro|..]; try done.
  - intros i c Hk _. by apply extending_item.
  - intros v c. by apply extending_log.
  - intros i c. by apply extending_log.
  - intros m c H. unfold acceptStop. by case_bool_decide.
Qed.

Lemma dispatch_extending vs c :
  extending c → wp (for_each (dispatchOperationToManager env) vs) (λ _, extending) extending c.
Proof.
  intros H. apply wp_for_each; [done|]. intros v c1 _ H1. unfold dispatchOperationToManager.
  destruct (operationIsTerminal _); [by wp_step|].
  apply wp_perform_or_fail; [intros _|]; by apply extending_log.
Qed.

Lemma extending_request t r c :
  sent (loop.builder (state c)) = request.Input r →
  StronglySorted extends (requests (trace c)) →
  (∀ r', r' ∈ requests (trace c) → extends r' r) → extending (log (ERequest t r) c).
Proof.
  intros Hr Hs He. unfold extending, seen_in. simpl. rewrite requests_snoc, Hr. split.
  - apply StronglySorted_app_2; [|done|by repeat constructor].
    intros r1 r2 H1 ->%list_elem_of_singleton. by apply He.
  - intros r' Hin. apply elem_of_app in Hin as [Hin|Hin]; [by apply He|].
    by apply list_elem_of_singleton in Hin as ->.
Qed.

(** The turn of a request commits what was built. *)
Lemma requestModelResponse_extending c :
  extending c → wp (requestModelResponse env) (λ _, extending) extending c.
Proof.
  intros [Hs Hr]. unfold requestModelResponse, interruptModel. do 6 wp_step; [|by split].
  apply map_err_ok in H. destruct (sent_build _ _ H) as [H1 H2]. simpl in H2.
  assert (∀ r', r' ∈ requests (trace c) → extends r' a) as He.
  { intros r' Hin. red. etransitivity; [by apply Hr|exact H1]. }
  wp_step. apply wp_fresh_id. cbv zeta. wp_step. apply wp_add_and_store; [set_solver|].
  set (t := turn.Mk _ _ _).
  assert (addItemToLocalState env (local_item ItemTurn (StoreTurn t)) (state (set_ids (S (ids (set_cancelModel false c)))
    (set_cancelModel false c))) = (loop.set_builder Commit (loop.set_turn t (state c)), Ok tt)) as Hi by reflexivity.
  unfold wp. rewrite Hi. cbv zeta. split.
  - intros _. apply extending_request; simpl; rewrite ?requests_snoc, ?app_nil_r; done.
  - apply extending_log; [done|]. split; [done|]. intros r' Hin. red. simpl. rewrite H2. by apply He.
Qed.

Lemma extending_steps : Steps env extending extending.
Proof.
  constructor; [apply extending_kept|..]; try done.
  - intros id reason c. by apply extending_log.
  - intros statuses c _. apply dispatch_extending.
  - intros c. apply requestModelResponse_extending.
Qed.

Lemma start_extending c : extending c → wp (start env) (λ _, extending) extending c.
Proof.
  apply start_steps; [apply extending_steps|]. intros v c' H. unfold dispatchOperationToManager.
  destruct (operationIsTerminal _); [by wp_step|]. apply wp_perform_or_fail; [intros _|]; by apply extending_log.
Qed.

Lemma execution_extending ops c : execution env ops c → extending c.
Proof.
  induction 1 as [Items restored fuel b s c res Hr _ Hs|c pos r c' res _ IH Hr].
  - refine (wp_any _ _ _ _ _ (start_extending _ _) Hs). split; [constructor|]. intros r Hin. by apply elem_of_nil in Hin.
  - exact (wp_any _ _ _ _ _ (run_round_steps env _ _ pos r c extending_steps IH) Hr).
Qed.

(** C9: The model reads a conversation that only grows.  Of two requests of a
    process, the input of the later one starts with the whole input of the
    earlier one, whatever was received, restored or failed between the two,
    so that a prefix which the provider cached is valid. *)
Theorem requests_extend ops c before t1 r1 middle t2 r2 after :
  execution env ops c →
  trace c = before ++ ERequest t1 r1 :: middle ++ ERequest t2 r2 :: after →
  request.Input r1 `prefix_of` request.Input r2.
Proof.
  intros [Hs _]%execution_extending Htr. rewrite Htr in Hs. unfold requests in Hs.
  rewrite omap_app in Hs. apply StronglySorted_app_1_r in Hs. simpl in Hs.
  apply StronglySorted_inv in Hs as [_ Hs]. rewrite omap_app in Hs.
  apply Forall_app in Hs as [_ Hs]. simpl in Hs. by apply Forall_inv in Hs.
Qed.
End Extend.

(** ** The properties hold of the sample session *)

Lemma exec_next ops c r :
  execution sample_env ops c → execution sample_env ops (after_rounds c [r]).
Proof.
  intros H. eapply exec_round; [exact H|]. apply surjective_pairing.
Qed.

Lemma sample_start_execution : execution sample_env [] sample_start.
Proof.
  assert (sample_start = fst (start sample_env (with_state (λ _, newLoopState (NewBuilder []))
            (New_coordinator (NewBuilder []))))) as -> by (vm_compute; reflexivity).
  eapply exec_start with (Items := sample_Items) (restored := []) (fuel := 1%nat) (b := NewBuilder [])
    (s := newLoopState (NewBuilder []));
    [vm_compute; reflexivity|vm_compute; reflexivity|apply surjective_pairing].
Qed.

Lemma sample_asked_execution : execution sample_env [] sample_asked.
Proof. apply exec_next, sample_start_execution. Qed.

Lemma sample_running_execution : execution sample_env [] sample_running.
Proof.
  change (execution sample_env [] (after_rounds sample_asked (drop 1 sample_rounds))).
  apply exec_next, sample_asked_execution.
Qed.

Lemma sample_again_execution : execution sample_env [] sample_asked_again.
Proof. apply exec_next, sample_asked_execution. Qed.

Definition dispatched (tr : list effect) : list Operation :=
  omap (λ e, match e with EAdd v => Some v | _ => None end) tr.

(** The command of the sample session was dispatched after its status was stored. *)
Lemma recorded_before_started_witness :
  ∃ v, dispatched (trace sample_running) = [v] ∧
    ∃ i st, was_stored sample_env (take 5 (trace sample_running)) i ∧ sitem.Kind i = ItemToolCallStatus ∧
      sitem.Data i = StoreToolCallStatus st ∧ v ∈ tcs.Operations st.
Proof.
  eexists. split; [vm_compute; reflexivity|]. set (v := op.Mk _ _ _ _ _ _ _).
  assert (trace sample_running = take 5 (trace sample_running) ++ EAdd v :: []) as Htr
    by (vm_compute; reflexivity).
  generalize (recorded_before_started sample_env [] sample_running _ _ _ sample_running_execution Htr).
  generalize (take 5 (trace sample_running)). clear. intros tr [H|H]; [by apply not_elem_of_nil in H|exact H].
Defined.

Lemma requests_extend_witness :
  ∃ r1 r2, requests (trace sample_asked_again) = [r1; r2] ∧
    (length (request.Input r1) < length (request.Input r2))%nat ∧ request.Input r1 `prefix_of` request.Input r2.
Proof.
  eexists _, _. split; [vm_compute; reflexivity|]. split; [vm_compute; lia|].
  set (r1 := request.Mk _ _ _) at 1. set (r2 := request.Mk _ _ _).
  assert (trace sample_asked_again = take 2 (trace sample_asked_again) ++ ERequest "id0" r1 ::
            take 2 (drop 3 (trace sample_asked_again)) ++ ERequest "id1" r2 :: []) as Htr
    by (vm_compute; reflexivity).
  exact (requests_extend sample_env [] sample_asked_again _ _ _ _ _ _ _ sample_again_execution Htr).
Defined.
