(* ===== verification/CoordinatorReplay.v ===== *)
(** * A session survives its process

    What the coordinator holds of a session is a function of the items that it
    stored: [crash_recovery] shows that replaying them on a new local state
    gives the state of the running loop, but for the operations, which the
    store keeps apart, and the timers. *)

From Stdlib Require Import Ascii ZArith Lia.
From S2P Require Import Prelude StateLogic GoStrings GoText Json JsonCodec GoTime Primitives.
From S2P Require Import Operation Llm Inbox Tool BashTool ContextBuilder SessionStore.
From S2P Require Import Coordinator CoordinatorSamples CoordinatorFacts.

Local Open Scope Z_scope.

#[local] Arguments Validate : simpl never.
#[local] Arguments DecodeControlMessage : simpl never.

Section Core.
Context {B : Type} `{!ContextBuilder B} (env : environment).
Implicit Types s : loopState B.

(** ** The part of the local state that the items determine *)

Record same_core s1 s2 : Prop := {
  same_turn : loop.currentTurnID s1 = loop.currentTurnID s2;
  same_type : loop.currentTurnType s1 = loop.currentTurnType s2;
  same_calls : loop.toolCalls s1 = loop.toolCalls s2;
  same_available : loop.availableInputs s1 = loop.availableInputs s2;
  same_delivered : loop.deliveredInputs s1 = loop.deliveredInputs s2;
  same_current : loop.currentTurnInputs s1 = loop.currentTurnInputs s2;
  same_builder : loop.builder s1 = loop.builder s2;
}.

Lemma same_core_refl s : same_core s s.
Proof. by split. Qed.
Lemma same_core_sym s1 s2 : same_core s1 s2 → same_core s2 s1.
Proof. by intros []; split. Qed.
Lemma same_core_trans s1 s2 s3 : same_core s1 s2 → same_core s2 s3 → same_core s1 s3.
Proof. intros [] []. split; congruence. Qed.

(** A method does the same on both states. *)
Definition agree {A} (m : M (loopState B) A) s1 s2 : Prop :=
  same_core (fst (m s1)) (fst (m s2)) ∧ snd (m s1) = snd (m s2).

Lemma agree_bind {A T} (m : M (loopState B) A) (k : A → M (loopState B) T) s1 s2 :
  agree m s1 s2 → (∀ a t1 t2, same_core t1 t2 → agree (k a) t1 t2) → agree (m ≫= k) s1 s2.
Proof.
  unfold agree, mbind, M_bind. intros [Hs Hr] Hk.
  destruct (m s1) as [t1 r1], (m s2) as [t2 r2]. simpl in *. subst r2.
  destruct r1 as [a|e|t]; [by apply Hk|by split|by split].
Qed.

Lemma agree_modify f s1 s2 : same_core (f s1) (f s2) → agree (modify f) s1 s2.
Proof. by split. Qed.
Lemma agree_done {A} (r : result A) s1 s2 : same_core s1 s2 → agree (lift r) s1 s2.
Proof. by split. Qed.
Lemma agree_fail {A} e s1 s2 : same_core s1 s2 → agree (A := A) (fail e) s1 s2.
Proof. by split. Qed.
Lemma agree_ret {A} (a : A) s1 s2 : same_core s1 s2 → agree (mret a) s1 s2.
Proof. by split. Qed.

Lemma agree_self {A} (k : loopState B → M (loopState B) A) s1 s2 :
  agree (k s1) s1 s2 → k s1 = k s2 → agree (self ≫= k) s1 s2.
Proof. unfold agree, mbind, M_bind, self. simpl. by intros H <-. Qed.

Lemma agree_for_each {A} (f : A → M (loopState B) unit) xs s1 s2 :
  (∀ x t1 t2, same_core t1 t2 → agree (f x) t1 t2) → same_core s1 s2 → agree (for_each f xs) s1 s2.
Proof.
  intros Hf. revert s1 s2. induction xs as [|x xs IH]; intros s1 s2 H; simpl; [by apply agree_ret|].
  apply agree_bind; [by apply Hf|]. intros [] t1 t2. apply IH.
Qed.

Lemma agree_on_builder m s1 s2 : same_core s1 s2 → agree (on_builder m) s1 s2.
Proof.
  intros [? ? ? ? ? ? Hb]. unfold agree, on_builder. rewrite Hb.
  destruct (m (loop.builder s2)) as [b r]. by split.
Qed.

Lemma agree_wrap {A} (m : M (loopState B) A) (wrap : error → error) s1 s2 :
  agree m s1 s2 → agree (λ s, let '(s', r) := m s in (s', map_err wrap r)) s1 s2.
Proof.
  unfold agree. destruct (m s1) as [t1 r1], (m s2) as [t2 r2]. simpl. intros [Hs ->]. by split.
Qed.

Lemma same_builder_set f s1 s2 : same_core s1 s2 → same_core (loop.set_builder f s1) (loop.set_builder f s2).
Proof. intros []. split; simpl; congruence. Qed.
Lemma same_add_input s1 s2 : same_core s1 s2 → same_core (loop.add_input s1) (loop.add_input s2).
Proof. intros []. split; simpl; congruence. Qed.
Lemma same_deliver s1 s2 : same_core s1 s2 → same_core (loop.deliver_inputs s1) (loop.deliver_inputs s2).
Proof. intros []. split; simpl; congruence. Qed.
Lemma same_set_turn t s1 s2 : same_core s1 s2 → same_core (loop.set_turn t s1) (loop.set_turn t s2).
Proof. intros []. split; simpl; congruence. Qed.
Lemma same_set_calls f s1 s2 : same_core s1 s2 → same_core (loop.set_toolCalls f s1) (loop.set_toolCalls f s2).
Proof. intros []. split; simpl; congruence. Qed.

Lemma same_finish key s1 s2 : same_core s1 s2 → same_core (finishToolCall key s1) (finishToolCall key s2).
Proof.
  intros H. unfold finishToolCall. cbv zeta. apply same_add_input. apply (same_set_calls (delete key)) in H.
  destruct H. destruct (bool_decide (_ = ∅)), (bool_decide (_ = ∅)); by split.
Qed.

(** Operations, timers and wishes are not part of it. *)
Lemma same_operation v s : same_core (addOperationToLocalState v s) s.
Proof. by split. Qed.

Lemma same_set_operations f s1 s2 :
  same_core s1 s2 → same_core (loop.set_operations f s1) (loop.set_operations f s2).
Proof. by intros []; split. Qed.
Lemma same_clear s1 s2 : same_core s1 s2 → same_core (clearToolGrace s1) (clearToolGrace s2).
Proof. by intros []; split. Qed.

Ltac agree_step :=
  lazymatch goal with
  | |- agree (mbind _ _) _ _ => apply agree_bind; [|intros ? ? ? ?]
  | |- agree (mret _) _ _ => apply agree_ret
  | |- agree (lift _) _ _ => apply agree_done
  | |- agree (fail _) _ _ => apply agree_fail
  | |- agree (modify _) _ _ => apply agree_modify
  | |- agree (on_builder _) _ _ => apply agree_on_builder
  | |- agree (for_each _ _) _ _ => apply agree_for_each; [intros ? ? ? ?|]
  | |- agree (if ?b then _ else _) _ _ => destruct b
  | |- agree (match ?x with _ => _ end) _ _ => destruct x
  end.

#[local] Hint Resolve same_builder_set same_add_input same_deliver same_set_turn same_set_calls same_finish
  same_set_operations same_clear : core.

Lemma agree_input_item i s1 s2 : same_core s1 s2 → agree (add_input_item i) s1 s2.
Proof.
  intros H. unfold add_input_item. repeat agree_step; auto.
  apply agree_wrap. repeat agree_step; auto.
Qed.

Lemma agree_tool_calls r s1 s2 : same_core s1 s2 → agree (addToolCallsToLocalState r) s1 s2.
Proof. intros H. unfold addToolCallsToLocalState, add_tool_call. repeat agree_step; auto. Qed.

Lemma agree_other i s1 s2 :
  sitem.Kind i ≠ ItemToolCallStatus → same_core s1 s2 → agree (addItemToLocalState env i) s1 s2.
Proof.
  intros Hk H. unfold addItemToLocalState. cbv zeta.
  rewrite (bool_decide_false (sitem.Kind i = ItemToolCallStatus)) by done.
  case_bool_decide; [destruct (sitem.Data i); repeat agree_step; auto|].
  case_bool_decide; [destruct (sitem.Data i); try (by apply agree_fail); by apply agree_input_item|].
  case_bool_decide; [destruct (sitem.Data i); repeat agree_step; auto|].
  case_bool_decide; [|by apply agree_fail].
  destruct (sitem.Data i); try (by apply agree_fail).
  apply agree_self.
  - destruct (compaction_response s1 r); [by apply agree_ret|].
    repeat agree_step; auto using agree_tool_calls.
  - unfold compaction_response. by rewrite (same_turn _ _ H), (same_type _ _ H).
Qed.

(** ** Statuses carry what they need *)

Definition add_all (vs : list Operation) s : loopState B :=
  fold_left (λ s v, addOperationToLocalState v s) vs s.

Lemma for_each_add vs s : for_each (λ v, modify (addOperationToLocalState v)) vs s = (add_all vs s, Ok tt).
Proof. revert s. induction vs as [|v vs IH]; intros s; [done|]. apply IH. Qed.

Lemma add_all_core vs s : same_core (add_all vs s) s.
Proof.
  revert s. induction vs as [|v vs IH]; intros s; [by split|]. eapply same_core_trans; [apply IH|by split].
Qed.

Lemma add_all_missing vs s id :
  id ∉ op.ID' <$> vs → loop.operations (add_all vs s) !! id = loop.operations s !! id.
Proof.
  revert s. induction vs as [|v vs IH]; intros s H; [done|]. apply not_elem_of_cons in H as [Hv H].
  simpl. rewrite IH by done. simpl. by rewrite lookup_insert_ne by congruence.
Qed.

(** After the operations of an item were added they are the same everywhere. *)
Lemma add_all_lookup vs s1 s2 id :
  id ∈ op.ID' <$> vs → loop.operations (add_all vs s1) !! id = loop.operations (add_all vs s2) !! id.
Proof.
  revert s1 s2. induction vs as [|v vs IH]; intros s1 s2 H; [by apply elem_of_nil in H|].
  simpl. destruct (decide (id ∈ op.ID' <$> vs)) as [Hin|Hn]; [by apply IH|].
  rewrite !add_all_missing by done. apply elem_of_cons in H as [->|H]; [|done].
  simpl. by rewrite !lookup_insert_eq.
Qed.

(** A status is sound for a state: it carries the operations that it waits
    for, and the call waits for no others. *)
Definition sound_status s (st : ToolCallStatus) : Prop :=
  (∀ id, id ∈ status.WaitingFor (tcs.Status' st) → id ∈ op.ID' <$> tcs.Operations st) ∧
  ∀ tc, loop.toolCalls s !! status_key st = Some tc →
    tcall.operations tc ⊆ list_to_set (status.WaitingFor (tcs.Status' st)).

Definition sound_item s (i : SItem) : Prop :=
  ∀ st, sitem.Kind i = ItemToolCallStatus → sitem.Data i = StoreToolCallStatus st → sound_status s st.

Lemma waited_same known (m1 m2 : gmap ID Operation) ids :
  (∀ id, id ∈ ids → m1 !! id = m2 !! id) → waited_operations known m1 ids = waited_operations known m2 ids.
Proof.
  intros H. unfold waited_operations. induction ids as [|id ids IH]; [done|]. simpl.
  rewrite (H id) by set_solver. rewrite IH; [done|]. set_solver.
Qed.

Lemma terminal_same s1 s2 key :
  same_core s1 s2 →
  (∀ tc id, loop.toolCalls s1 !! key = Some tc → id ∈ tcall.operations tc →
            loop.operations s1 !! id = loop.operations s2 !! id) →
  toolCallOperationsAreTerminal s1 key = toolCallOperationsAreTerminal s2 key.
Proof.
  intros [_ _ Hc _ _ _ _] H. unfold toolCallOperationsAreTerminal. rewrite <- Hc.
  destruct (loop.toolCalls s1 !! key) as [tc|] eqn:Etc; [|done].
  assert (∀ id, id ∈ elements (tcall.operations tc) → loop.operations s1 !! id = loop.operations s2 !! id) as Hid
    by (intros id Hid%elem_of_elements; by eapply H).
  clear H Etc. induction (elements (tcall.operations tc)) as [|id ids IH]; [done|]. simpl.
  rewrite IH by set_solver. unfold operation_terminal. by rewrite (Hid id) by set_solver.
Qed.

Lemma agree_result st s1 s2 :
  same_core s1 s2 →
  (∀ id, id ∈ status.WaitingFor (tcs.Status' st) → loop.operations s1 !! id = loop.operations s2 !! id) →
  (∀ tc id, loop.toolCalls s1 !! status_key st = Some tc → id ∈ tcall.operations tc →
            loop.operations s1 !! id = loop.operations s2 !! id) →
  agree (addToolResultToLocalState env st) s1 s2.
Proof.
  intros H Hw Ht. unfold addToolResultToLocalState. apply agree_self.
  - destruct (loop.toolCalls s1 !! status_key st) as [c|]; [|by apply agree_ret].
    destruct (resolve env _) as [t|]; [destruct (waited_operations _ _ _); [|by apply agree_ret]|].
    + repeat agree_step; auto.
    + repeat agree_step; auto.
  - rewrite <- (terminal_same s1 s2 (status_key st) H Ht), <- (same_calls _ _ H).
    destruct (loop.toolCalls s1 !! status_key st) as [c|]; [|done].
    by rewrite (waited_same _ _ _ _ Hw).
Qed.

Definition with_status (st : ToolCallStatus) (c : toolCallState) : toolCallState :=
  tcall.Mk (tcall.toolCall c) (Some (tcs.Status' st))
    (tcall.operations c ∪ list_to_set (status.WaitingFor (tcs.Status' st))).

Lemma add_status_calls st s :
  loop.toolCalls (addToolCallOperationsToLocalState st s) !! status_key st =
  with_status st <$> (loop.toolCalls s !! status_key st).
Proof.
  unfold addToolCallOperationsToLocalState. destruct (loop.toolCalls s !! status_key st) as [c|] eqn:Ec; [|done].
  simpl. by rewrite lookup_insert_eq.
Qed.

Lemma add_status_operations st s :
  loop.operations (addToolCallOperationsToLocalState st s) = loop.operations s.
Proof. unfold addToolCallOperationsToLocalState. by destruct (loop.toolCalls s !! status_key st). Qed.

Lemma same_add_status st s1 s2 :
  same_core s1 s2 →
  same_core (addToolCallOperationsToLocalState st s1) (addToolCallOperationsToLocalState st s2).
Proof.
  intros H. unfold addToolCallOperationsToLocalState. rewrite (same_calls _ _ H).
  destruct (loop.toolCalls s2 !! status_key st); auto.
Qed.

(** Adding a sound item does the same on states with the same core. *)
Lemma agree_item i s1 s2 :
  sound_item s1 i → same_core s1 s2 → agree (addItemToLocalState env i) s1 s2.
Proof.
  intros Hi H. destruct (decide (sitem.Kind i = ItemToolCallStatus)) as [Hk|Hk]; [|by apply agree_other].
  unfold addItemToLocalState. cbv zeta. rewrite Hk. do 4 (rewrite bool_decide_false by done).
  rewrite bool_decide_true by done. destruct (sitem.Data i) as [| | | |st| |] eqn:Ed; try by apply agree_fail.
  destruct (Hi st Hk Ed) as [Hw Hc]. unfold agree, mbind, M_bind. rewrite !for_each_add.
  assert (same_core (add_all (tcs.Operations st) s1) (add_all (tcs.Operations st) s2)) as Ha.
  { eapply same_core_trans; [apply add_all_core|]. eapply same_core_trans; [exact H|].
    apply same_core_sym, add_all_core. }
  unfold modify. apply agree_result.
  - by apply same_add_status.
  - intros id Hid. rewrite !add_status_operations. by apply add_all_lookup, Hw.
  - intros tc id Htc Hid. rewrite !add_status_operations. apply add_all_lookup, Hw.
    rewrite add_status_calls, (same_calls _ _ (add_all_core (tcs.Operations st) s1)) in Htc.
    apply fmap_Some in Htc as (c & Hc' & ->). simpl in Hid. specialize (Hc c Hc'). set_solver.
Qed.

(** ** What is known of the open tool calls *)

(** A call that was scheduled waits for the operations of its status, and the
    tool of a status that needs one is available. *)
Definition call_known (c : toolCallState) : Prop :=
  match tcall.status c with
  | None => tcall.operations c = ∅
  | Some st =>
    tcall.operations c = list_to_set (status.WaitingFor st) ∧
    (status.Error st = EmptyString ∨ status.WaitingFor st ≠ [] →
       is_Some (resolve env (call.Name (tcall.toolCall c))))
  end.

Definition tracked s : Prop := map_Forall (λ _, call_known) (loop.toolCalls s).

Lemma tracked_core s1 s2 : same_core s1 s2 → tracked s1 → tracked s2.
Proof. unfold tracked. intros H. by rewrite (same_calls _ _ H). Qed.

(** The tool that a recorded status needs is available. *)
Definition available s (i : SItem) : Prop :=
  ∀ st c, sitem.Kind i = ItemToolCallStatus → sitem.Data i = StoreToolCallStatus st →
    toolCallRequiresTranslator st = true → loop.toolCalls s !! status_key st = Some c →
    is_Some (resolve env (call.Name (tcall.toolCall c))).

Lemma restoreItem_available s i : available s i → restoreItem env i s = addItemToLocalState env i s.
Proof.
  intros H. unfold restoreItem, mbind, M_bind, self. cbv zeta.
  destruct (sitem.Data i) as [| | | |st| |] eqn:Ed; try done.
  destruct (decide (sitem.Kind i = ItemToolCallStatus)) as [Hk|Hk]; [|by rewrite (bool_decide_false _ Hk)].
  rewrite (bool_decide_true _ Hk). destruct (toolCallRequiresTranslator st) eqn:Er; [|done]. simpl.
  destruct (loop.toolCalls s !! status_key st) as [c|] eqn:Ec; [|done].
  by destruct (H st c Hk Ed Er Ec) as [t ->].
Qed.

Lemma restoreItem_ok s i s' :
  restoreItem env i s = (s', Ok tt) → available s i ∧ addItemToLocalState env i s = (s', Ok tt).
Proof.
  intros H. assert (available s i) as Ha; [|by rewrite <- restoreItem_available].
  intros st c Hk Ed Er Ec. revert H. unfold restoreItem, mbind, M_bind, self. cbv zeta.
  rewrite Ed, Er, (bool_decide_true _ Hk), Ec. simpl. by destruct (resolve env _).
Qed.

Lemma tracked_finish key s : tracked s → tracked (finishToolCall key s).
Proof.
  unfold tracked, finishToolCall. intros H. cbv zeta. destruct (bool_decide _); simpl; by apply map_Forall_delete.
Qed.

Lemma tracked_input_steps : BuilderSteps tracked.
Proof. by constructor. Qed.

Lemma tracked_result st s :
  tracked s → wp (addToolResultToLocalState env st) (λ _, tracked) (λ _, True) s.
Proof.
  intros H. unfold addToolResultToLocalState. do 2 wp_step.
  destruct (loop.toolCalls s !! status_key st); [|by wp_step]. destruct (resolve env _) as [tr|].
  - destruct (waited_operations _ _ _); [|by wp_step]. do 2 wp_step; [|done]. cbv zeta. do 2 wp_step.
    destruct (negb _); wp_step; [done|by apply tracked_finish].
  - destruct (toolCallRequiresTranslator st); [by wp_step|]. do 3 wp_step. by apply tracked_finish.
Qed.

Lemma call_known_status s st c :
  sound_status s st → loop.toolCalls s !! status_key st = Some c →
  (toolCallRequiresTranslator st = true → is_Some (resolve env (call.Name (tcall.toolCall c)))) →
  call_known (with_status st c).
Proof.
  intros [_ Hs] Hc Ha. unfold call_known, with_status. simpl. specialize (Hs c Hc). split; [set_solver|].
  intros [He|He]; apply Ha; unfold toolCallRequiresTranslator.
  - by rewrite bool_decide_true.
  - destruct (status.WaitingFor (tcs.Status' st)); [done|]. simpl. by rewrite orb_true_r.
Qed.

Lemma addItem_tracked i s :
  sound_item s i → available s i → tracked s →
  wp (addItemToLocalState env i) (λ _, tracked) (λ _, True) s.
Proof.
  intros Hi Ha H. unfold addItemToLocalState. cbv zeta.
  repeat (case_bool_decide as Hk; [destruct (sitem.Data i) as [| | | |st| |] eqn:Ed; try (by wp_step)|clear Hk]);
    [..|by wp_step].
  - eapply wp_mono; [by apply (add_input_item_steps tracked); [apply tracked_input_steps|]|done|done].
  - do 2 wp_step. destruct (compaction_response _ _); [by wp_step|]. do 3 wp_step.
    eapply (wp_mono _ (λ _, tracked) _ (λ _, True)); [|intros [] s1 Hs1|done]; [by case_bool_decide; wp_step|].
    apply wp_for_each; [done|]. intros x s2 _ Hs2. unfold add_tool_call. case_bool_decide; [|by wp_step].
    destruct (item.Data x); try by (wp_step; [done|]). wp_step. by apply map_Forall_insert_2.
  - unfold wp, mbind, M_bind, modify. rewrite for_each_add. set (s1 := add_all (tcs.Operations st) s).
    apply tracked_result. unfold addToolCallOperationsToLocalState, tracked.
    assert (loop.toolCalls s1 = loop.toolCalls s) as Hc by apply add_all_core. rewrite Hc.
    destruct (loop.toolCalls s !! status_key st) as [c|] eqn:Ec; [|by rewrite Hc].
    simpl. rewrite Hc. apply map_Forall_insert_2; [|exact H].
    apply (call_known_status s); [by apply Hi|done|]. intros Hr. by eapply Ha.
Qed.

(** ** Logs *)

(** [sound_log b L s]: replaying [L] on a new state with the builder [b] gives
    [s], and every status is sound where it is replayed. *)
Inductive sound_log (b : B) : list SItem → loopState B → Prop :=
  | log_nil : sound_log b [] (newLoopState b)
  | log_snoc L s i s' :
      sound_log b L s → sound_item s i → restoreItem env i s = (s', Ok tt) → sound_log b (L ++ [i]) s'.

Lemma sound_log_tracked b L s : sound_log b L s → tracked s.
Proof.
  induction 1 as [|L s i s' _ IH Hi Hr]; [apply map_Forall_empty|].
  apply restoreItem_ok in Hr as [Ha Hr]. exact (wp_ok _ _ _ _ _ _ (addItem_tracked i s Hi Ha IH) Hr).
Qed.

Lemma for_each_snoc {S A} (f : A → M S unit) xs x (s1 s2 s3 : S) :
  for_each f xs s1 = (s2, Ok tt) → f x s2 = (s3, Ok tt) → for_each f (xs ++ [x]) s1 = (s3, Ok tt).
Proof.
  revert s1. induction xs as [|y xs IH]; intros s1; simpl; unfold mbind, M_bind.
  - intros [= <-] H. by rewrite H.
  - destruct (f y s1) as [s' [[]|err|msg]]; [|done..]. apply IH.
Qed.

Lemma sound_log_replays b L s : sound_log b L s → for_each (restoreItem env) L (newLoopState b) = (s, Ok tt).
Proof. induction 1; [done|]. by eapply for_each_snoc. Qed.

(** A state whose core the log gives. *)
Definition mirrors (b : B) (L : list SItem) s : Prop := ∃ s', sound_log b L s' ∧ same_core s s'.

Lemma sound_item_core s1 s2 i : same_core s1 s2 → sound_item s1 i → sound_item s2 i.
Proof.
  intros H Hi st Hk Ed. destruct (Hi st Hk Ed) as [Hw Hc]. split; [done|]. by rewrite <- (same_calls _ _ H).
Qed.

Lemma available_core s1 s2 i : same_core s1 s2 → available s1 i → available s2 i.
Proof. intros H Hi st c. rewrite <- (same_calls _ _ H). apply Hi. Qed.

(** One more item in the state and in the log. *)
Lemma mirrors_snoc b L s i s1 :
  mirrors b L s → sound_item s i → available s i → addItemToLocalState env i s = (s1, Ok tt) →
  mirrors b (L ++ [i]) s1.
Proof.
  intros (s' & Hl & Hs) Hi Ha H1. pose proof (agree_item i s s' Hi Hs) as [Hc Hr].
  rewrite H1 in Hc, Hr. simpl in *. destruct (addItemToLocalState env i s') as [s1' r'] eqn:E'. simpl in *. subst r'.
  exists s1'. split; [|done]. eapply log_snoc; [done|by eapply sound_item_core|].
  rewrite restoreItem_available; [done|by eapply available_core].
Qed.

Lemma mirrors_core b L s1 s2 : same_core s2 s1 → mirrors b L s1 → mirrors b L s2.
Proof. intros H (s' & Hl & Hs). exists s'. split; [done|]. by eapply same_core_trans. Qed.

Lemma mirrors_tracked b L s : mirrors b L s → tracked s.
Proof. intros (s' & Hl & Hs). eapply tracked_core; [by apply same_core_sym|]. by eapply sound_log_tracked. Qed.
End Core.

(** ** The running loop mirrors its log *)

Section Alive.
Context {B : Type} `{!ContextBuilder B} (env : environment).
Context (Hlawful : ∀ name t, resolve env name = Some t → translates t).
Context (b : B) (history : list SItem).
Implicit Types (c : coord B) (s : loopState B).

(** Operations are filed under their identifiers. *)
Definition keyed s : Prop := map_Forall (λ id v, op.ID' v = id) (loop.operations s).

Lemma keyed_operation v s : keyed s → keyed (addOperationToLocalState v s).
Proof. intros H. by apply map_Forall_insert_2. Qed.

Lemma keyed_steps : LocalSteps keyed.
Proof.
  constructor; [constructor|..].
  - by intros b' s _ H.
  - by intros s H.
  - by intros f s H.
  - intros s _. apply map_Forall_empty.
  - by intros s H.
  - by intros s H.
  - by intros t s H.
  - intros key s H. unfold finishToolCall. cbv zeta. by destruct (bool_decide _).
Qed.

Definition appended (tr : list effect) : list SItem :=
  omap (λ e, match e with EAppend i => Some i | _ => None end) tr.

Definition mirror c : Prop := mirrors env b (history ++ appended (trace c)) (state c) ∧ keyed (state c).

Lemma appended_snoc tr e :
  appended (tr ++ [e]) = appended tr ++ match e with EAppend i => [i] | _ => [] end.
Proof. unfold appended. rewrite omap_app. by destruct e. Qed.

Lemma mirror_log e c : (∀ i, e ≠ EAppend i) → mirror c → mirror (log e c).
Proof.
  intros He H. unfold mirror. simpl. rewrite appended_snoc. destruct e; rewrite ?app_nil_r; try exact H.
  by destruct (He i).
Qed.

Lemma mirror_state f c :
  (∀ s, same_core (f s) s) → (keyed (state c) → keyed (f (state c))) → mirror c → mirror (with_state f c).
Proof. intros Hf Hk [Hm Hkc]. split; [|by apply Hk]. eapply mirrors_core; [apply Hf|exact Hm]. Qed.

Lemma mirror_item i c :
  sitem.Kind i ∈ storable → sound_item (state c) i → available env (state c) i → mirror c →
  wp (add_and_store env i) (λ _, mirror) (λ _, True) c.
Proof.
  intros Hk Hi Ha [Hm Hkc]. apply wp_add_and_store; [done|].
  pose proof (addItem_steps env keyed keyed_steps i (state c) (λ v s _, keyed_operation v s) Hkc) as Hw.
  unfold wp in *. destruct (addItemToLocalState env i (state c)) as [s [[]|e|t]] eqn:Ei; [|done..].
  split; [intros _|done]. split; [|exact Hw]. simpl. rewrite appended_snoc, (assoc_L app).
  by apply mirrors_snoc with (s := state c).
Qed.

Lemma other_item i s : sitem.Kind i ≠ ItemToolCallStatus → sound_item s i ∧ available env s i.
Proof. intros Hk. split; by intros ?. Qed.

Lemma add_operations_mirror vs c :
  mirror c →
  wp (for_each (λ v, modify (with_state (addOperationToLocalState v))) vs)
    (λ _ c', mirror c' ∧ same_core (state c') (state c)) (λ _, True) c.
Proof.
  intros H. eapply wp_for_each; [split; [done|by split]|]. intros v c1 _ [H1 Hc]. wp_step. split.
  - apply mirror_state; [by split|apply keyed_operation|done].
  - exact (same_core_trans _ _ _ (same_operation v (state c1)) Hc).
Qed.

Lemma map_id_imap (uuid : nat → ID) n (specs : list Spec) :
  op.ID' <$> imap (λ i sp, new_operation (uuid (n + i)%nat) sp) specs = imap (λ i _, uuid (n + i)%nat) specs.
Proof. rewrite fmap_imap. by apply imap_ext. Qed.

(** A status as it was translated carries the operations that it waits for,
    and needs a tool only when there is one. *)
Lemma translated_status tc k ctx status :
  match resolve env (call.Name tc) with
  | Some t => Translate t tc (MkContext (new_id env) k [])
  | None => (MkContext (new_id env) k [],
             ErrorStatus ("tool " +:+ quote (call.Name tc) +:+ " is not available") 0)
  end = (ctx, status) →
  (∀ id, id ∈ status.WaitingFor status → id ∈ op.ID' <$> Tool.operations ctx) ∧
  (resolve env (call.Name tc) = None →
     status.Error status ≠ EmptyString ∧ status.WaitingFor status = [] ∧ Tool.operations ctx = []).
Proof.
  destruct (resolve env (call.Name tc)) as [t|] eqn:Et.
  - intros Ht. split; [|done]. destruct (Hlawful _ _ Et _ _ _ _ Ht) as (specs & (_ & _ & Hops) & Hok & Herr).
    simpl in Hops. rewrite Hops, map_id_imap. intros id Hid.
    destruct (decide (status.Error status = EmptyString)) as [He|He].
    + destruct (Hok He) as [_ Hw]. by rewrite Hw in Hid.
    + destruct (Herr He) as [_ Hw]. rewrite Hw in Hid. by apply elem_of_nil in Hid.
  - intros [= <- <-]. rewrite ErrorStatus_waits. split; [intros id Hid; by apply elem_of_nil in Hid|].
    intros _. split; [|done]. apply ErrorStatus_error. done.
Qed.

Lemma mirror_scheduled key tc c :
  mirror c → loop.toolCalls (state c) !! key = Some tc → tcall.status tc = None →
  wp (scheduleToolCall env key (tcall.toolCall tc)) (λ _, mirror) (λ _, True) c.
Proof.
  intros H Htc Hst. apply scheduleToolCall_adds. intros ctx status [Hw Hr]%translated_status st.
  unfold add_new_status. wp_step. eapply wp_mono; [by apply add_operations_mirror| |done].
  intros [] c1 [H1 Hc]. simpl in Hc.
  assert (loop.toolCalls (state c1) !! status_key st = Some tc) as Htc1.
  { rewrite (same_calls _ _ Hc). by destruct key. }
  pose proof (mirrors_tracked _ _ _ _ (proj1 H1) _ _ Htc1) as Hkn. unfold call_known in Hkn. rewrite Hst in Hkn.
  apply mirror_item; [set_solver|..|done].
  - intros st' _ [= <-]. split; [exact Hw|]. intros tc' Htc'. rewrite Htc1 in Htc'. injection Htc' as <-. set_solver.
  - intros st' c' _ [= <-] Hreq Hc'. rewrite Htc1 in Hc'. injection Hc' as <-.
    destruct (resolve env (call.Name (tcall.toolCall tc))) as [t|] eqn:Et; [done|].
    destruct (Hr eq_refl) as (He & Hwf & Hops). unfold toolCallRequiresTranslator in Hreq. simpl in Hreq.
    by rewrite (bool_decide_false _ He), Hwf, Hops in Hreq.
Qed.

Lemma mirror_reconciled key tc status c :
  mirror c → loop.toolCalls (state c) !! key = Some tc → tcall.status tc = Some status →
  toolCallOperationsAreTerminal (state c) key = true →
  wp (add_and_store env (status_item (reconciled (loop.operations (state c)) key status))) (λ _, mirror) (λ _, True) c.
Proof.
  intros H Htc Hst Ht. pose proof (mirrors_tracked _ _ _ _ (proj1 H) _ _ Htc) as Hkn.
  unfold call_known in Hkn. rewrite Hst in Hkn. destruct Hkn as [Hops Hres].
  assert (status_key (reconciled (loop.operations (state c)) key status) = key) as Hkey by by destruct key.
  apply mirror_item; [set_solver|..|done].
  - intros st' _ [= <-]. split.
    + intros id Hid. simpl in *. unfold toolCallOperationsAreTerminal in Ht. rewrite Htc in Ht.
      rewrite forallb_forall in Ht. setoid_rewrite <- list_elem_of_In in Ht. setoid_rewrite elem_of_elements in Ht.
      rewrite Hops in Ht. specialize (Ht id ltac:(by apply elem_of_list_to_set)). unfold operation_terminal in Ht.
      destruct (loop.operations (state c) !! id) as [v|] eqn:Ev; [|done].
      apply list_elem_of_fmap. exists v. split; [symmetry; by apply (proj2 H id v)|].
      apply list_elem_of_fmap. exists id. by rewrite Ev.
    + intros tc' Htc'. rewrite Hkey, Htc in Htc'. injection Htc' as <-. simpl. by rewrite Hops.
  - intros st' c' _ [= <-] Hreq Hc'. rewrite Hkey, Htc in Hc'. injection Hc' as <-. apply Hres.
    unfold toolCallRequiresTranslator in Hreq. simpl in Hreq.
    destruct (decide (status.Error status = EmptyString)) as [He|He]; [by left|right].
    rewrite (bool_decide_false _ He) in Hreq. by destruct (status.WaitingFor status).
Qed.

Lemma mirror_kept : Kept env mirror (λ _, True).
Proof.
  constructor; [constructor|..]; try done.
  - intros i c Hk H. assert (sitem.Kind i ≠ ItemToolCallStatus) as Hne.
    { apply elem_of_cons in Hk as [->|Hk%list_elem_of_singleton]; [done|by rewrite Hk]. }
    destruct (other_item i (state c) Hne). apply mirror_item; [set_solver|done..].
  - intros key tc c. apply mirror_scheduled.
  - intros key tc status c. apply mirror_reconciled.
  - intros v c. apply mirror_state; [by split|apply keyed_operation].
  - intros c. apply mirror_state; [by split|done].
  - intros w c. apply mirror_state; [by split|done].
  - intros v c. by apply mirror_log.
  - intros i c. by apply mirror_log.
  - intros m c H. unfold acceptStop. by case_bool_decide.
Qed.

Lemma mirror_dispatch v c :
  mirror c → wp (dispatchOperationToManager env v) (λ _, mirror) (λ _, True) c.
Proof.
  intros H. unfold dispatchOperationToManager. destruct (operationIsTerminal _); [by wp_step|].
  apply wp_perform_or_fail; [intros _|done]. by apply mirror_log.
Qed.

Lemma mirror_request c : mirror c → wp (requestModelResponse env) (λ _, mirror) (λ _, True) c.
Proof.
  intros H. unfold requestModelResponse, interruptModel. do 6 wp_step; [|done]. wp_step. apply wp_fresh_id.
  cbv zeta. wp_step. eapply wp_mono.
  - apply mirror_item; [set_solver|by apply other_item|by apply other_item|exact H].
  - intros [] c1 H1. do 5 wp_step. apply wp_perform. intros _. wp_step. apply mirror_log; [done|].
    by apply (mirror_state (loop.set_callModel false) (set_cancelModel true c1)); [split|..].
  - done.
Qed.

Lemma mirror_rounds : Steps env mirror (λ _, True).
Proof.
  constructor; [apply mirror_kept|..]; try done.
  - intros calls c _. apply mirror_state; [by split|done].
  - intros id reason c. by apply mirror_log.
  - intros statuses c _ H. apply wp_for_each; [done|]. intros v c1 _. apply mirror_dispatch.
  - intros c. apply mirror_request.
Qed.

(** A process that runs on a session with these items and these checkpoints. *)
Inductive alive (restored : list Operation) : coord B → Prop :=
  | alive_start s c :
      sound_log env b history s →
      start env (with_state (λ _, add_all restored s) (New_coordinator b)) = (c, Ok tt) → alive restored c
  | alive_round c pos r c' :
      alive restored c → run_round env pos r c = (c', Ok Continue) → alive restored c'.

Lemma alive_mirror restored c : alive restored c → mirror c.
Proof.
  induction 1 as [s c Hs Hr|c pos r c' _ IH Hr].
  - refine (wp_ok _ (λ _, mirror) (λ _, True) _ _ _ _ Hr).
    apply (start_steps env mirror (λ _, True)); [apply mirror_rounds|apply mirror_dispatch|]. split; simpl.
    + rewrite app_nil_r. exists s. split; [done|apply add_all_core].
    + assert (keyed s) as Hk.
      { apply sound_log_replays in Hs. refine (wp_ok _ (λ _, keyed) keyed _ _ _ _ Hs).
        apply (wp_for_each _ keyed keyed); [apply map_Forall_empty|]. intros i s' _ Hk.
        apply restoreItem_steps; [apply keyed_steps|apply keyed_operation|done]. }
      clear Hs Hr. revert s Hk. induction restored as [|v vs IH]; intros s Hk; [done|].
      by apply IH, keyed_operation.
  - exact (wp_ok _ _ _ _ _ _ (run_round_steps env _ _ pos r c mirror_rounds IH) Hr).
Qed.

(** C1: A session survives its process.  Whenever the loop is at its top, the
    items of the session, those it was restored from and those it stored
    since, replay without a failure on a new local state, and what they give
    is the local state of the loop: the turn, the open tool calls, the
    accounting of inputs and the context of the next request.  A process that
    takes over therefore owes the model the same inputs. *)
Theorem crash_recovery restored c :
  alive restored c →
  ∃ s, for_each (restoreItem env) (history ++ appended (trace c)) (newLoopState b) = (s, Ok tt) ∧
    same_core (state c) s ∧ pendingInputs s = pendingInputs (state c) ∧
    sound_log env b (history ++ appended (trace c)) s.
Proof.
  intros [(s & Hl & Hc) _]%alive_mirror. exists s. split; [by apply sound_log_replays|]. split; [done|].
  split; [|done]. unfold pendingInputs. by rewrite (same_available _ _ Hc), (same_delivered _ _ Hc).
Qed.
End Alive.

(** ** The sample session survives *)

Lemma sample_lawful name t : resolve sample_env name = Some t → translates t.
Proof. simpl. case_bool_decide; [|done]. intros [= <-]. apply law_translates. Qed.

Lemma alive_next restored c r :
  alive sample_env (NewBuilder []) [] restored c → snd (run_round sample_env true r c) = Ok Continue →
  alive sample_env (NewBuilder []) [] restored (after_rounds c [r]).
Proof. intros Hc Hr. eapply alive_round; [exact Hc|]. by apply ran. Qed.

Lemma sample_start_alive : alive sample_env (NewBuilder []) [] [] sample_start.
Proof.
  assert (sample_start = fst (start sample_env (with_state (λ _, add_all [] (newLoopState (NewBuilder [])))
            (New_coordinator (NewBuilder []))))) as -> by (vm_compute; reflexivity).
  eapply (alive_start _ _ _ _ (newLoopState (NewBuilder []))); [apply log_nil|]. apply ran. vm_compute. reflexivity.
Qed.

Lemma sample_running_alive : alive sample_env (NewBuilder []) [] [] sample_running.
Proof.
  change (alive sample_env (NewBuilder []) [] [] (after_rounds (after_rounds sample_start
            [quietly (InInput (Some sample_input))]) (drop 1 sample_rounds))).
  apply alive_next.
  - apply alive_next; [apply sample_start_alive|]. vm_compute. reflexivity.
  - vm_compute. reflexivity.
Qed.

Lemma crash_recovery_witness :
  length (appended (trace sample_running)) = 4%nat ∧
  ∃ s, for_each (restoreItem sample_env) ([] ++ appended (trace sample_running))
         (newLoopState (NewBuilder [])) = (s, Ok tt) ∧
    same_core (state sample_running) s.
Proof.
  split; [vm_compute; reflexivity|].
  destruct (crash_recovery sample_env sample_lawful (NewBuilder []) [] [] sample_running sample_running_alive)
    as (s & H1 & H2 & _). exists s. split; [exact H1|exact H2].
Defined.
