(* ===== verification/LocalState.v ===== *)
(** * The state of a stored session: sessionstore/localfile/state.go

    The head of a session, which the writers check and update, and the whole
    state with its items, which readers rebuild from the log.  A method keeps
    the changes it made before it fails. *)

From Stdlib Require Import Ascii ZArith Lia.
From S2P Require Import Prelude GoStrings GoText Json JsonCodec GoTime Operation Handler Llm.
From S2P Require Import Inbox Tool SessionStore.

Local Open Scope Z_scope.

(** [toolCallStatusKey] *)
Definition toolCallStatusKey : Type := TurnID * string.

Module head.
Record sessionHead : Type := Mk {
  Snapshot' : Snapshot;
  Operations : list Operation;
  itemSequence : Sequence;
  latestTurnID : TurnID;
  turns : gset TurnID;
  ownedTurns : gset TurnID;
  respondedTurns : gset TurnID;
  toolCallStatuses : gset toolCallStatusKey;
  operationPositions : gmap ID nat;
}.
End head.
Abbreviation sessionHead := head.sessionHead.

Module stored.
Record storedState : Type := Mk { sessionHead' : sessionHead; Items : list SItem }.
End stored.
Abbreviation storedState := stored.storedState.

Definition newSessionHead (id : SessionID) (createdAt : Time) : sessionHead :=
  head.Mk (session.Mk id createdAt) [] 0 EmptyString ∅ ∅ ∅ ∅ ∅.

Definition newStoredState (id : SessionID) (createdAt : Time) : storedState :=
  stored.Mk (newSessionHead id createdAt) [].

Definition head_id (h : sessionHead) : SessionID := session.ID (head.Snapshot' h).

(** ** Updates of the fields *)

Definition set_sequence (n : Sequence) (h : sessionHead) : sessionHead :=
  head.Mk (head.Snapshot' h) (head.Operations h) n (head.latestTurnID h) (head.turns h)
    (head.ownedTurns h) (head.respondedTurns h) (head.toolCallStatuses h) (head.operationPositions h).

Definition add_turn (id : TurnID) (h : sessionHead) : sessionHead :=
  head.Mk (head.Snapshot' h) (head.Operations h) (head.itemSequence h) id ({[id]} ∪ head.turns h)
    ({[id]} ∪ head.ownedTurns h) (head.respondedTurns h) (head.toolCallStatuses h) (head.operationPositions h).

Definition add_responded (id : TurnID) (h : sessionHead) : sessionHead :=
  head.Mk (head.Snapshot' h) (head.Operations h) (head.itemSequence h) (head.latestTurnID h) (head.turns h)
    (head.ownedTurns h) ({[id]} ∪ head.respondedTurns h) (head.toolCallStatuses h) (head.operationPositions h).

Definition add_status (key : toolCallStatusKey) (h : sessionHead) : sessionHead :=
  head.Mk (head.Snapshot' h) (head.Operations h) (head.itemSequence h) (head.latestTurnID h) (head.turns h)
    (head.ownedTurns h) (head.respondedTurns h) ({[key]} ∪ head.toolCallStatuses h) (head.operationPositions h).

(** [head.operationPositions[value.ID] = len(head.Operations)], then the append. *)
Definition add_operation (value : Operation) (h : sessionHead) : sessionHead :=
  head.Mk (head.Snapshot' h) (head.Operations h ++ [value]) (head.itemSequence h) (head.latestTurnID h)
    (head.turns h) (head.ownedTurns h) (head.respondedTurns h) (head.toolCallStatuses h)
    (<[op.ID' value := length (head.Operations h)]> (head.operationPositions h)).

Definition set_operation (index : nat) (value : Operation) (h : sessionHead) : sessionHead :=
  head.Mk (head.Snapshot' h) (<[index := value]> (head.Operations h)) (head.itemSequence h)
    (head.latestTurnID h) (head.turns h) (head.ownedTurns h) (head.respondedTurns h)
    (head.toolCallStatuses h) (head.operationPositions h).

Definition resetOwnedState (h : sessionHead) : sessionHead :=
  head.Mk (head.Snapshot' h) [] (head.itemSequence h) (head.latestTurnID h) (head.turns h) ∅ ∅ ∅ ∅.

(** ** Validation *)

Definition terminalOperationStatus (status : Status) : bool :=
  bool_decide (status = StatusCompleted) || bool_decide (status = StatusFailed)
  || bool_decide (status = StatusCanceled).

Definition supported_status (status : Status) : bool :=
  bool_decide (status = StatusReady) || bool_decide (status = StatusAwaiting)
  || bool_decide (status = StatusCanceling) || bool_decide (status = StatusCompleted)
  || bool_decide (status = StatusFailed) || bool_decide (status = StatusCanceled).

Definition validateOperation (value : Operation) : result unit :=
  if bool_decide (op.ID' value = EmptyString) then Err (errors_New "operation ID is empty")
  else
    let named (suffix : string) := Err (errors_New ("operation " +:+ quote (op.ID' value) +:+ suffix)) in
    if bool_decide (op.Type' value = EmptyString) then named " type is empty"
    else if op.Version' value =? 0 then named " version is zero"
    else if negb (supported_status (op.Status' value)) then
      named (" has unsupported status " +:+ quote (op.Status' value))
    else if negb (is_nil (op.State value)) && negb (IsValid (op.State value)) then
      named " state is not valid JSON"
    else if negb (is_nil (op.Idempotency value)) && negb (IsValid (op.Idempotency value)) then
      named " idempotency data is not valid JSON"
    else Ok tt.

(** The loop over the operations that a status initializes. *)
Fixpoint check_new_operations (index : Z) (seen : gset ID) (positions : gmap ID nat)
    (operations : list Operation) : result unit :=
  match operations with
  | [] => Ok tt
  | value :: rest =>
    _ ← map_err (Errorf_w ("initialize operation " +:+ Itoa index +:+ ": ")) (validateOperation value);
    let exists_ := Err (Errorf_w ("initialize operation " +:+ quote (op.ID' value) +:+ ": ")
                          (sentinel_error ErrExist)) in
    if decide (op.ID' value ∈ seen) then exists_
    else if decide (is_Some (positions !! op.ID' value)) then exists_
    else check_new_operations (index + 1) ({[op.ID' value]} ∪ seen) positions rest
  end.

(** The loop over [status.WaitingFor]. *)
Fixpoint check_waiting (initialized waiting : gset ID) (ids : list ID) : result unit :=
  match ids with
  | [] => Ok tt
  | id :: rest =>
    if decide (id ∈ waiting) then Err (errors_New ("status repeats operation " +:+ quote id))
    else if negb (bool_decide (id ∈ initialized)) then
      Err (errors_New ("status waits for operation " +:+ quote id +:+ " that was not initialized"))
    else check_waiting initialized ({[id]} ∪ waiting) rest
  end.

Definition validateStatusOperationReferences (status : CallStatus) (operations : list Operation)
  : result unit :=
  if negb (bool_decide (status.Error status = EmptyString)) then
    if negb (is_empty (status.WaitingFor status)) then
      Err (errors_New "error status cannot wait for operations")
    else if negb (is_empty operations) then
      Err (errors_New "error status cannot initialize operations")
    else Ok tt
  else if is_empty operations then
    Err (errors_New "successful status must initialize at least one operation")
  else if negb (Nat.eqb (length (status.WaitingFor status)) (length operations)) then
    Err (errors_New ("status waits for " +:+ Itoa (Z.of_nat (length (status.WaitingFor status)))
      +:+ " operations, initialized " +:+ Itoa (Z.of_nat (length operations))))
  else check_waiting (list_to_set (op.ID' <$> operations)) ∅ (status.WaitingFor status).

(** ** Appending to the head *)

Definition append_named (what : string) (h : sessionHead) (suffix : string) : string :=
  "append " +:+ what +:+ " to session " +:+ quote (head_id h) +:+ suffix.

(** The sequence is a uint64. *)
Definition appendItem (kind : ItemKind) (data : StoreData) (recordedAt : Time) : M sessionHead SItem :=
  _ ← modify (λ h, set_sequence (wrap_uint64 (head.itemSequence h + 1)) h);
  h ← self;
  mret (sitem.Mk (head.itemSequence h) recordedAt kind data).

Definition appendInput (i : Input) (recordedAt : Time) : M sessionHead SItem :=
  h ← self;
  _ ← lift (map_err (Errorf_w (append_named "input" h ": ")) (Inbox.Validate i));
  appendItem ItemInput (StoreInput i) recordedAt.

Definition appendTurn (t : Turn) (recordedAt : Time) : M sessionHead SItem :=
  h ← self;
  if bool_decide (turn.ID t = EmptyString) then fail (errors_New (append_named "turn" h ": turn ID is empty"))
  else if negb (bool_decide (turn.PreviousTurnID t = head.latestTurnID h)) then
    fail (errors_New ("append turn " +:+ quote (turn.ID t) +:+ " to session " +:+ quote (head_id h)
      +:+ ": previous turn is " +:+ quote (turn.PreviousTurnID t) +:+ ", want " +:+ quote (head.latestTurnID h)))
  else if decide (turn.ID t ∈ head.turns h) then
    fail (Errorf_w ("append turn " +:+ quote (turn.ID t) +:+ ": ") (sentinel_error ErrExist))
  else
    _ ← modify (add_turn (turn.ID t));
    appendItem ItemTurn (StoreTurn t) recordedAt.

Definition appendModelResponse (r : ModelResponse) (recordedAt : Time) : M sessionHead SItem :=
  h ← self;
  if negb (bool_decide (mresponse.TurnID' r ∈ head.ownedTurns h)) then
    fail (Errorf_w (append_named "model response" h (" for turn " +:+ quote (mresponse.TurnID' r) +:+ ": "))
            (sentinel_error ErrNotExist))
  else if decide (mresponse.TurnID' r ∈ head.respondedTurns h) then
    fail (Errorf_w ("append model response for turn " +:+ quote (mresponse.TurnID' r) +:+ ": ")
            (sentinel_error ErrExist))
  else
    _ ← modify (add_responded (mresponse.TurnID' r));
    appendItem ItemModelResponse (StoreModelResponse r) recordedAt.

Definition appendToolCallStatus (status : ToolCallStatus) (operations : list Operation) (recordedAt : Time)
  : M sessionHead SItem :=
  h ← self;
  let key := (tcs.TurnID' status, tcs.CallID status) in
  if negb (bool_decide (tcs.TurnID' status ∈ head.ownedTurns h)) then
    fail (Errorf_w (append_named "tool-call status" h (" for turn " +:+ quote (tcs.TurnID' status) +:+ ": "))
            (sentinel_error ErrNotExist))
  else if bool_decide (tcs.CallID status = EmptyString) then
    fail (errors_New ("append tool-call status for turn " +:+ quote (tcs.TurnID' status)
                        +:+ ": call ID is empty"))
  else if decide (key ∈ head.toolCallStatuses h) then
    appendItem ItemToolCallStatus (StoreToolCallStatus status) recordedAt
  else
    _ ← lift (check_new_operations 0 ∅ (head.operationPositions h) operations);
    _ ← lift (map_err (Errorf_w ("append tool-call status for turn " +:+ quote (tcs.TurnID' status)
                +:+ " and call " +:+ quote (tcs.CallID status) +:+ ": "))
           (validateStatusOperationReferences (tcs.Status' status) operations));
    _ ← modify (add_status key);
    _ ← for_each (λ value, modify (add_operation value)) operations;
    appendItem ItemToolCallStatus (StoreToolCallStatus status) recordedAt.

Definition saveOperation (value : Operation) : M sessionHead unit :=
  _ ← lift (validateOperation value);
  h ← self;
  match head.operationPositions h !! op.ID' value with
  | None => fail (Errorf_w ("save operation " +:+ quote (op.ID' value) +:+ " in session "
                    +:+ quote (head_id h) +:+ ": ") (sentinel_error ErrNotExist))
  | Some index =>
    match head.Operations h !! index with
    | None => lift (Panic "index out of range")
    | Some existing =>
      if negb (bool_decide (op.Type' existing = op.Type' value))
         || negb (op.Version' existing =? op.Version' value) then
        fail (errors_New ("save operation " +:+ quote (op.ID' value) +:+ ": type and version cannot change"))
      else modify (set_operation index value)
    end
  end.

(** ** The stored state *)

(** A method of the head on the state that embeds it. *)
Definition on_head {A} (m : M sessionHead A) : M storedState A := λ s,
  let '(h, r) := m (stored.sessionHead' s) in (stored.Mk h (stored.Items s), r).

Definition push_item (i : SItem) : M storedState unit :=
  modify (λ s, stored.Mk (stored.sessionHead' s) (stored.Items s ++ [i])).

Module state.
Definition appendInput (i : Input) (recordedAt : Time) : M storedState unit :=
  item ← on_head (appendInput i recordedAt); push_item item.

Definition appendTurn (t : Turn) (recordedAt : Time) : M storedState unit :=
  item ← on_head (appendTurn t recordedAt); push_item item.

Definition appendModelResponse (r : ModelResponse) (recordedAt : Time) : M storedState unit :=
  item ← on_head (appendModelResponse r recordedAt); push_item item.

Definition appendToolCallStatus (status : ToolCallStatus) (operations : list Operation) (recordedAt : Time)
  : M storedState unit :=
  item ← on_head (appendToolCallStatus status operations recordedAt);
  push_item (sitem.set_data (StoreToolCallStatus (tcs.set_operations operations status)) item).

Definition saveOperation (value : Operation) : M storedState unit := on_head (saveOperation value).
End state.

Definition bad_assertion {A} (d : StoreData) (want : string) : result A :=
  Panic ("interface conversion: interface {} is " +:+ data_type_name d +:+ ", not " +:+ want).

(** [state.sessionHead] changed in place. *)
Definition modify_head (f : sessionHead → sessionHead) : M storedState unit := on_head (modify f).

(** An item of the parent's history: the cases of the switch, then the append. *)
Definition inheritItem (i : SItem) : M storedState unit :=
  let k := sitem.Kind i in
  let d := sitem.Data i in
  _ ← modify_head (set_sequence (sitem.Sequence' i));
  if bool_decide (k = ItemTurn) then
    match d with
    | StoreTurn t => _ ← modify_head (add_turn (turn.ID t)); push_item i
    | _ => lift (bad_assertion d "session.Turn")
    end
  else if bool_decide (k = ItemModelResponse) then
    match d with
    | StoreModelResponse r => _ ← modify_head (add_responded (mresponse.TurnID' r)); push_item i
    | _ => lift (bad_assertion d "sessionstore.ModelResponse")
    end
  else if bool_decide (k = ItemToolCallStatus) then
    match d with
    | StoreToolCallStatus s =>
      _ ← modify_head (add_status (tcs.TurnID' s, tcs.CallID s));
      push_item (sitem.set_data (StoreToolCallStatus (tcs.set_operations [] s)) i)
    | _ => lift (bad_assertion d "sessionstore.ToolCallStatus")
    end
  else if bool_decide (k = ItemFork) then _ ← modify_head resetOwnedState; push_item i
  else push_item i.

Definition appendFork (f : Fork) (recordedAt : Time) : M storedState unit :=
  item ← on_head (appendItem ItemFork (StoreFork f) recordedAt);
  _ ← push_item item;
  modify_head resetOwnedState.

(** ** Forking *)

(** The item belongs to the turn: the cases of the switch. *)
Definition of_turn (previousTurnID : TurnID) (i : SItem) : result bool :=
  let k := sitem.Kind i in
  let d := sitem.Data i in
  if bool_decide (k = ItemTurn) then
    match d with
    | StoreTurn t => Ok (bool_decide (turn.ID t = previousTurnID))
    | _ => bad_assertion d "session.Turn"
    end
  else if bool_decide (k = ItemModelResponse) then
    match d with
    | StoreModelResponse r => Ok (bool_decide (mresponse.TurnID' r = previousTurnID))
    | _ => bad_assertion d "sessionstore.ModelResponse"
    end
  else if bool_decide (k = ItemToolCallStatus) then
    match d with
    | StoreToolCallStatus s => Ok (bool_decide (tcs.TurnID' s = previousTurnID))
    | _ => bad_assertion d "sessionstore.ToolCallStatus"
    end
  else Ok false.

(** The loop that looks for the last item of the turn: [None] is -1. *)
Fixpoint fork_boundary (previousTurnID : TurnID) (index : nat) (boundary : option nat) (items : list SItem)
  : result (option nat) :=
  match items with
  | [] => Ok boundary
  | i :: rest =>
    if bool_decide (is_Some boundary) && bool_decide (sitem.Kind i = ItemTurn) then Ok boundary
    else
      matches ← of_turn previousTurnID i;
      fork_boundary previousTurnID (S index) (if matches : bool then Some index else boundary) rest
  end.

Definition forkStoredState (parent : storedState) (id : SessionID) (previousTurnID : TurnID)
    (createdAt : Time) : result storedState :=
  boundary ← fork_boundary previousTurnID 0 None (stored.Items parent);
  match boundary with
  | None => Err (Errorf_w ("fork session " +:+ quote (head_id (stored.sessionHead' parent))
      +:+ " at turn " +:+ quote previousTurnID +:+ ": ") (sentinel_error ErrNotExist))
  | Some b =>
    let '(state, r) :=
      (_ ← for_each inheritItem (take (S b) (stored.Items parent));
       appendFork (fork.Mk (head_id (stored.sessionHead' parent)) previousTurnID) createdAt)
        (newStoredState id createdAt) in
    (λ _, state) <$> r
  end.

(** ** Resuming *)

(** The scan of the items: the IDs of external inputs and the operations whose
    latest recorded status is not terminal. *)
Fixpoint scan_items (externalInputIDs : list InputID) (pending : gset ID) (items : list SItem)
  : result (list InputID * gset ID) :=
  match items with
  | [] => Ok (externalInputIDs, pending)
  | i :: rest =>
    if bool_decide (sitem.Kind i = ItemInput) then
      match sitem.Data i with
      | StoreInput input =>
        scan_items (if bool_decide (input.Kind input = InputExternal)
                    then externalInputIDs ++ [input.ID input] else externalInputIDs) pending rest
      | d => bad_assertion d "inbox.Input"
      end
    else if bool_decide (sitem.Kind i = ItemToolCallStatus) then
      match sitem.Data i with
      | StoreToolCallStatus s =>
        scan_items externalInputIDs
          (fold_left (λ pending value,
             if terminalOperationStatus (op.Status' value) then pending ∖ {[op.ID' value]}
             else {[op.ID' value]} ∪ pending) (tcs.Operations s) pending) rest
      | d => bad_assertion d "sessionstore.ToolCallStatus"
      end
    else scan_items externalInputIDs pending rest
  end.

Definition resume (s : storedState) : result ResumeState :=
  '(externalInputIDs, pending) ← scan_items [] ∅ (stored.Items s);
  let h := stored.sessionHead' s in
  Ok (resumed.Mk (head.Snapshot' h)
        (filter (λ value, terminalOperationStatus (op.Status' value) = false ∨ op.ID' value ∈ pending)
           (head.Operations h)) externalInputIDs).
