(* ===== verification/LocalCodec.v ===== *)
(** * The log of a session: sessionstore/localfile/codec.go

    A log is a line per record: the session, then items and operation
    updates.  A last line without a newline is not committed. *)

From Stdlib Require Import Ascii ZArith Lia.
From S2P Require Import Prelude GoStrings GoText Json JsonFacts JsonCodec GoTime Operation Llm.
From S2P Require Import Inbox Tool SessionStore LocalState.

Local Open Scope Z_scope.

Definition formatVersion : Z := 2.

Definition recordType : Set := string.
Definition recordSession : recordType := "session".
Definition recordItem : recordType := "item".
Definition recordOperation : recordType := "operation".

Definition newline : ascii := "010"%char.

(** ** Records *)

Module logrec.
Record logRecord : Type := Mk { Type' : recordType; Data : value }.
End logrec.
Abbreviation logRecord := logrec.logRecord.

Module sessionrec.
Record sessionRecord : Type := Mk { Version' : Z; Session' : Session }.
End sessionrec.
Abbreviation sessionRecord := sessionrec.sessionRecord.

Module itemrec.
Record itemRecord : Type := Mk { Item' : SItem; Operations : list Operation }.
End itemrec.
Abbreviation itemRecord := itemrec.itemRecord.

#[local] Unset Program Cases.

Program Definition logRecord_codec : codec logRecord := {|
  zero := logrec.Mk EmptyString VNil;
  enc s := enc_struct [field string_codec "type" (logrec.Type' s); field value_codec "data" (logrec.Data s)];
  dec := dec_struct (logrec.Mk EmptyString VNil) (λ o,
    a ← get string_codec "type" o; b ← get value_codec "data" o; Some (logrec.Mk a b));
  jok s := logrec.Data s ≠ VNil |}.
Next Obligation. intros [a b] j H. simpl in H. struct_dec. Qed.
Next Obligation. intros [a b] j. struct_enc_ok. Qed.

Program Definition sessionRecord_codec : codec sessionRecord := {|
  zero := sessionrec.Mk 0 (zero Session_codec);
  enc s := enc_struct [field int64_codec "Version" (sessionrec.Version' s);
                       field Session_codec "Session" (sessionrec.Session' s)];
  dec := dec_struct (sessionrec.Mk 0 (zero Session_codec)) (λ o,
    a ← get int64_codec "Version" o; b ← get Session_codec "Session" o; Some (sessionrec.Mk a b));
  jok s := in_int64 (sessionrec.Version' s) = true |}.
Next Obligation. intros [a b] j H. simpl in H. struct_dec. Qed.
Next Obligation. intros [a b] j. struct_enc_ok. Qed.

Program Definition itemRecord_codec : codec itemRecord := {|
  zero := itemrec.Mk (zero SItem_codec) [];
  enc s := enc_struct [field SItem_codec "Item" (itemrec.Item' s);
    field_omit (list_codec Operation_codec) "Operations" (is_empty (itemrec.Operations s)) (itemrec.Operations s)];
  dec := dec_struct (itemrec.Mk (zero SItem_codec) []) (λ o,
    a ← get SItem_codec "Item" o; b ← get (list_codec Operation_codec) "Operations" o;
    Some (itemrec.Mk a b));
  jok s := jok SItem_codec (itemrec.Item' s) ∧ operations_jok (itemrec.Operations s) |}.
Next Obligation. intros [a b] j [H1 H2]. unfold operations_jok in H2. cbn -[jok] in H1, H2. struct_dec. Qed.
Next Obligation. intros [a b] j. struct_enc_ok. Qed.

Program Definition operationRecord_codec : codec Operation := {|
  zero := zero Operation_codec;
  enc s := enc_struct [field Operation_codec "Operation" s];
  dec := dec_struct (zero Operation_codec) (λ o, a ← get Operation_codec "Operation" o; Some a);
  jok := jok Operation_codec |}.
Next Obligation. intros a j H. struct_dec. Qed.
Next Obligation. intros a j. struct_enc_ok. Qed.

(** ** Session identifiers *)

Definition id_char (c : ascii) : bool :=
  utf8.between 97 122 (byte_val c) || utf8.between 65 90 (byte_val c) || utf8.between 48 57 (byte_val c)
  || Ascii.eqb c "-".

(** The loop ranges over runes: one of several bytes, or one that is not
    valid, is not a letter, a digit or a dash. *)
Definition validateSessionID (id : SessionID) : result unit :=
  if bool_decide (id = EmptyString) then Err (errors_New "session ID is empty")
  else if forallb id_char (to_bytes id) then Ok tt
  else Err (errors_New ("session ID " +:+ quote id
              +:+ " must contain only ASCII letters, digits, and dashes")).

(** ** Encoding *)

Definition encodeRecord {A} (c : codec A) (kind : recordType) (a : A) : result bytes :=
  data ← Marshal c a;
  encoded ← Marshal logRecord_codec (logrec.Mk kind data);
  let text := match encoded with VText j => print j | VBad raw => to_bytes raw | VNil => [] end in
  if bool_decide (newline ∈ text) then Err (errors_New "encoded record contains a newline")
  else Ok (text ++ [newline]).

(** An item as it is recorded: the operations of a tool-call status apart. *)
Definition item_record (i : SItem) : result itemRecord :=
  if bool_decide (sitem.Kind i = ItemToolCallStatus) then
    match sitem.Data i with
    | StoreToolCallStatus s =>
      Ok (itemrec.Mk (sitem.set_data (StoreToolCallStatus (tcs.set_operations [] s)) i) (tcs.Operations s))
    | d => bad_assertion d "sessionstore.ToolCallStatus"
    end
  else Ok (itemrec.Mk i []).

Fixpoint encode_items (index : Z) (items : list SItem) : result bytes :=
  match items with
  | [] => Ok []
  | i :: rest =>
    if negb (sitem.Sequence' i =? index + 1) then
      Err (errors_New ("item " +:+ Itoa index +:+ " has non-contiguous sequence "
                         +:+ Itoa (sitem.Sequence' i)))
    else if IsZero (sitem.RecordedAt i) then
      Err (errors_New ("item " +:+ Itoa index +:+ " recorded time is zero"))
    else
      record ← item_record i;
      line ← map_err (Errorf_w ("encode item " +:+ Itoa index +:+ ": "))
               (encodeRecord itemRecord_codec recordItem record);
      lines ← encode_items (index + 1) rest;
      Ok (line ++ lines)
  end.

Definition encodeInitialLog (s : Session) (items : list SItem) : result bytes :=
  _ ← validateSessionID (session.ID s);
  encoded ← map_err (Errorf_w "encode session: ")
              (encodeRecord sessionRecord_codec recordSession (sessionrec.Mk formatVersion s));
  lines ← encode_items 0 items;
  Ok (encoded ++ lines).

(** ** Decoding *)

Inductive decodedRecord : Type :=
  | DecodedItem (r : itemRecord)
  | DecodedOperation (o : Operation).

(** The variables of the first loop. *)
Record decoding : Type := MkDecoding {
  dvalue : storedState;
  records : list decodedRecord;
  itemCount : Z;
  inheritedItemCount : Z;
}.

Definition must_be_first : error := errors_New "session record must be first".

Definition decode_session (data : value) : result storedState :=
  header ← map_err (Errorf_w "decode session record: ") (Unmarshal sessionRecord_codec data);
  let s := sessionrec.Session' header in
  if sessionrec.Version' header =? 1 then
    Err (errors_New "legacy session format version 1 cannot be resumed")
  else if negb (sessionrec.Version' header =? formatVersion) then
    Err (errors_New ("unsupported session format version " +:+ Itoa (sessionrec.Version' header)))
  else
    _ ← validateSessionID (session.ID s);
    if IsZero (session.CreatedAt s) then
      Err (errors_New ("session " +:+ quote (session.ID s) +:+ " creation time is zero"))
    else Ok (newStoredState (session.ID s) (session.CreatedAt s)).

Definition decode_item (data : value) (d : decoding) : result decoding :=
  item ← map_err (Errorf_w "decode item record: ") (Unmarshal itemRecord_codec data);
  let i := itemrec.Item' item in
  let named (suffix : string) := Err (errors_New ("item " +:+ Itoa (itemCount d) +:+ suffix)) in
  if negb (sitem.Sequence' i =? itemCount d + 1) then
    named (" has sequence " +:+ Itoa (sitem.Sequence' i) +:+ ", want " +:+ Itoa (itemCount d + 1))
  else if IsZero (sitem.RecordedAt i) then named " recorded time is zero"
  else if negb (bool_decide (sitem.Kind i = ItemToolCallStatus)) && negb (is_empty (itemrec.Operations item)) then
    named (" of kind " +:+ quote (sitem.Kind i) +:+ " initializes operations")
  else
    let count := itemCount d + 1 in
    Ok (MkDecoding (dvalue d) (records d ++ [DecodedItem item]) count
          (if bool_decide (sitem.Kind i = ItemFork) then count else inheritedItemCount d)).

(** One turn of the loop over the lines. *)
Definition decode_line (lineIndex : Z) (line : bytes) (d : decoding) : result decoding :=
  record ← map_err (Errorf_w ("decode record " +:+ Itoa (lineIndex + 1) +:+ ": "))
             (Unmarshal logRecord_codec (value_of_text line));
  let t := logrec.Type' record in
  if bool_decide (t = recordSession) then
    if negb (lineIndex =? 0) then Err must_be_first
    else
      s ← decode_session (logrec.Data record);
      Ok (MkDecoding s (records d) (itemCount d) (inheritedItemCount d))
  else if bool_decide (t = recordItem) then
    if lineIndex =? 0 then Err must_be_first else decode_item (logrec.Data record) d
  else if bool_decide (t = recordOperation) then
    if lineIndex =? 0 then Err must_be_first
    else
      update ← map_err (Errorf_w "decode operation record: ")
                 (Unmarshal operationRecord_codec (logrec.Data record));
      Ok (MkDecoding (dvalue d) (records d ++ [DecodedOperation update]) (itemCount d) (inheritedItemCount d))
  else Err (errors_New ("unsupported record type " +:+ quote t)).

Fixpoint decode_lines (lineIndex : Z) (lines : list bytes) (d : decoding) : result decoding :=
  match lines with
  | [] => Ok d
  | line :: rest => d ← decode_line lineIndex line d; decode_lines (lineIndex + 1) rest d
  end.

Definition replayItem (r : itemRecord) : M storedState unit :=
  let i := itemrec.Item' r in
  let k := sitem.Kind i in
  let d := sitem.Data i in
  if bool_decide (k = ItemInput) then
    match d with
    | StoreInput input => state.appendInput input (sitem.RecordedAt i)
    | _ => lift (bad_assertion d "inbox.Input")
    end
  else if bool_decide (k = ItemTurn) then
    match d with
    | StoreTurn t => state.appendTurn t (sitem.RecordedAt i)
    | _ => lift (bad_assertion d "session.Turn")
    end
  else if bool_decide (k = ItemModelResponse) then
    match d with
    | StoreModelResponse m => state.appendModelResponse m (sitem.RecordedAt i)
    | _ => lift (bad_assertion d "sessionstore.ModelResponse")
    end
  else if bool_decide (k = ItemToolCallStatus) then
    match d with
    | StoreToolCallStatus s => state.appendToolCallStatus s (itemrec.Operations r) (sitem.RecordedAt i)
    | _ => lift (bad_assertion d "sessionstore.ToolCallStatus")
    end
  else fail (errors_New ("unexpected owned item kind " +:+ quote k)).

Definition wrap_state {A} (wrap : error → error) (m : M storedState A) : M storedState A := λ s,
  let '(s, r) := m s in (s, map_err wrap r).

(** The second loop: [replayed] items so far. *)
Fixpoint replay (inherited : Z) (recordIndex replayed : Z) (rs : list decodedRecord)
  : M storedState unit :=
  match rs with
  | [] => mret tt
  | DecodedItem r :: rest =>
    _ ← (if replayed <? inherited then
           if negb (is_empty (itemrec.Operations r)) then
             fail (errors_New ("inherited item " +:+ Itoa replayed +:+ " initializes operations"))
           else inheritItem (itemrec.Item' r)
         else wrap_state (Errorf_w ("apply item " +:+ Itoa replayed +:+ ": ")) (replayItem r));
    replay inherited (recordIndex + 1) (replayed + 1) rest
  | DecodedOperation o :: rest =>
    _ ← (if replayed <? inherited then
           fail (errors_New ("operation record " +:+ Itoa (recordIndex + 2)
                               +:+ " appears in inherited history"))
         else wrap_state (Errorf_w "apply operation record: ") (state.saveOperation o));
    replay inherited (recordIndex + 1) replayed rest
  end.

(** The committed lines: what precedes the last newline. *)
Definition committed_lines (encoded : bytes) : list bytes := removelast (split_on newline encoded).

Definition committed_size (encoded : bytes) : Z := len encoded - len (List.last (split_on newline encoded) []).

(** The zero [storedState]; the first line replaces it. *)
Definition zero_state : storedState := newStoredState EmptyString Time_zero.

Definition decodeLog (encoded : bytes) : result (storedState * Z) :=
  if negb (bool_decide (newline ∈ encoded)) then
    Err (errors_New "session log has no committed records")
  else
    d ← decode_lines 0 (committed_lines encoded) (MkDecoding zero_state [] 0 0);
    let '(value, r) := replay (inheritedItemCount d) 0 0 (records d) (dvalue d) in
    (λ _, (value, committed_size encoded)) <$> r.
