(* ===== verification/LocalStore.v ===== *)
(** * The session store: sessionstore/localfile/store.go, list.go

    The store with the files of its directory, its cache of write states and
    its observers.  The clock, the cause of a done context and the failures of
    the file system are arguments of the methods: what each failure leaves on
    the disk is written out. *)

From Stdlib Require Import Ascii ZArith Lia.
From stdpp Require Import sorting.
From S2P Require Import Prelude GoStrings GoText Json JsonFacts JsonCodec GoTime Operation Llm.
From S2P Require Import Inbox Tool SessionStore LocalState LocalCodec.

Local Open Scope Z_scope.

Definition sessionFileSuffix : string := ".session.jsonl".

Definition sessionFilename (id : SessionID) : string := id +:+ sessionFileSuffix.

Definition sessionPath (directory : string) (id : SessionID) : string :=
  filepath.Join [directory; sessionFilename id].

Record cachedWriteState : Type := MkCached { chead : sessionHead; committedSize : Z }.

Definition ObserverID : Set := string.
Definition nil_uuid : ObserverID := EmptyString.

(** [files] is the content of the directory by session, at [sessionPath];
    [notified] records the calls of the observers. *)
Record Store : Type := MkStore {
  files : gmap SessionID bytes;
  writeStateCache : gmap SessionID cachedWriteState;
  observers : gset ObserverID;
  observerOrder : list ObserverID;
  notified : list (ObserverID * SessionID * SItem);
}.

Definition set_files (f : gmap SessionID bytes → gmap SessionID bytes) (s : Store) : Store :=
  MkStore (f (files s)) (writeStateCache s) (observers s) (observerOrder s) (notified s).
Definition set_cache (f : gmap SessionID cachedWriteState → gmap SessionID cachedWriteState) (s : Store)
  : Store :=
  MkStore (files s) (f (writeStateCache s)) (observers s) (observerOrder s) (notified s).

(** The store of an empty directory. *)
Definition New_store : Store := MkStore ∅ ∅ ∅ [] [].

(** ** Observers *)

(** [uuid.New()] is the argument; the observer is a function of the caller. *)
Definition AddObserver (is_nil : bool) (new_id : ObserverID) : M Store ObserverID :=
  if is_nil then mret nil_uuid
  else
    _ ← modify (λ s, MkStore (files s) (writeStateCache s) ({[new_id]} ∪ observers s)
                       (observerOrder s ++ [new_id]) (notified s));
    mret new_id.

Definition RemoveObserver (id : ObserverID) : M Store unit :=
  modify (λ s, MkStore (files s) (writeStateCache s) (observers s ∖ {[id]}) (observerOrder s) (notified s)).

Definition notifyObservers (id : SessionID) (i : SItem) : M Store unit :=
  modify (λ s, MkStore (files s) (writeStateCache s) (observers s) (observerOrder s)
    (notified s ++ ((λ o, (o, id, i)) <$> filter (λ o, o ∈ observers s) (observerOrder s)))).

(** ** Files *)

(** What happens to an append, after the file was opened. *)
Inductive append_outcome : Type :=
  | AppendOk
  | OpenFailed (e : error)
  | TruncateFailed (e : error)
  | WriteFailed (written : nat) (e : error)   (* a part of the data is written *)
  | SyncFailed (e : error)
  | CloseFailed (e : error).

(** A file that is extended is filled with zero bytes. *)
Definition truncate (size : Z) (content : bytes) : bytes :=
  take (Z.to_nat size) content ++ replicate (Z.to_nat size - length content) "000"%char.

Definition appendFile (id : SessionID) (size : Z) (data : bytes) (outcome : append_outcome) : M Store unit :=
  s ← self;
  match files s !! id with
  | None => fail (Errorf_w "open session log for append: " (sentinel_error ErrNotExist))
  | Some content =>
    let write (p : bytes) := modify (set_files (insert id p)) in
    match outcome with
    | OpenFailed e => fail (Errorf_w "open session log for append: " e)
    | TruncateFailed e => fail (Errorf_w "discard incomplete session record: " e)
    | WriteFailed n e =>
      _ ← write (truncate size content ++ take (Nat.min n (length data - 1)) data);
      fail (Errorf_w "append session record: " e)
    | SyncFailed e => _ ← write (truncate size content ++ data); fail (Errorf_w "sync session log: " e)
    | CloseFailed e => _ ← write (truncate size content ++ data); fail (Errorf_w "close session log: " e)
    | AppendOk => write (truncate size content ++ data)
    end
  end.

(** The temporary file replaces the target in one step, or not at all. *)
Inductive publish_outcome : Type :=
  | PublishOk
  | NotPublished (e : error)          (* creating, writing or renaming failed *)
  | DirectorySyncFailed (e : error).

Definition publishFile (id : SessionID) (data : bytes) (outcome : publish_outcome) : M Store unit :=
  match outcome with
  | NotPublished e => fail e
  | DirectorySyncFailed e => _ ← modify (set_files (insert id data)); fail e
  | PublishOk => modify (set_files (insert id data))
  end.

(** ** The cache *)

Definition getCachedWriteState (id : SessionID) (s : Store) : option cachedWriteState :=
  writeStateCache s !! id.
Definition putCachedWriteState (id : SessionID) (h : sessionHead) (size : Z) : M Store unit :=
  modify (set_cache (insert id (MkCached h size))).
Definition evictCachedWriteState (id : SessionID) : M Store unit := modify (set_cache (delete id)).

(** ** Reading *)

(** The error of [context.Cause] when the context is done, and of reading a
    file that exists. *)
Definition readState (ctx read_error : option error) (id : SessionID) : M Store (storedState * Z) :=
  _ ← lift (validateSessionID id);
  match ctx with
  | Some e => fail e
  | None =>
    let named := Errorf_w ("read session " +:+ quote id +:+ ": ") in
    s ← self;
    content ← lift (map_err named (match read_error with
                                   | Some e => Err e
                                   | None => match files s !! id with
                                             | Some content => Ok content
                                             | None => Err (sentinel_error ErrNotExist)
                                             end
                                   end));
    '(state, size) ← lift (map_err named (decodeLog content));
    if negb (bool_decide (head_id (stored.sessionHead' state) = id)) then
      fail (errors_New ("read session " +:+ quote id +:+ ": file contains session "
                          +:+ quote (head_id (stored.sessionHead' state))))
    else mret (state, size)
  end.

Definition loadWriteState (ctx read_error : option error) (id : SessionID)
  : M Store (sessionHead * Z) :=
  _ ← lift (validateSessionID id);
  match ctx with
  | Some e => fail e
  | None =>
    s ← self;
    match getCachedWriteState id s with
    | Some c => mret (chead c, committedSize c)
    | None =>
      '(state, size) ← readState ctx read_error id;
      _ ← putCachedWriteState id (stored.sessionHead' state) size;
      mret (stored.sessionHead' state, size)
    end
  end.

(** ** Writing *)

(** A call whose error is looked at: [if err := f(); err != nil]. *)
Definition attempt {A} (m : M Store A) : M Store (result A) := λ s,
  match m s with
  | (s, Panic t) => (s, Panic t)
  | (s, r) => (s, Ok r)
  end.

(** The error is returned after the head was evicted. *)
Definition evict_and_fail {A} (id : SessionID) (e : error) : M Store A :=
  _ ← evictCachedWriteState id; fail e.

Definition wrap_store {A} (wrap : error → error) (m : M Store A) : M Store A := λ s,
  let '(s, r) := m s in (s, map_err wrap r).

Definition publishInitialState (state : storedState) (outcome : publish_outcome) : M Store unit :=
  let id := head_id (stored.sessionHead' state) in
  encoded ← lift (encodeInitialLog (head.Snapshot' (stored.sessionHead' state)) (stored.Items state));
  r ← attempt (publishFile id encoded outcome);
  match r with
  | Err e => evict_and_fail id e
  | _ => putCachedWriteState id (stored.sessionHead' state) (len encoded)
  end.

(** [append]: a failure to encode or to write evicts the head. *)
Definition append {A} (c : codec A) (id : SessionID) (h : sessionHead) (size : Z) (kind : recordType) (a : A)
    (outcome : append_outcome) : M Store unit :=
  r ← attempt (lift (encodeRecord c kind a));
  match r with
  | Ok encoded =>
    r ← attempt (appendFile id size encoded outcome);
    match r with
    | Err e => evict_and_fail id e
    | _ => putCachedWriteState id h (size + len encoded)
    end
  | Err e => evict_and_fail id e
  | Panic t => lift (Panic t)
  end.

(** The maps of a head are shared with the cached head: what a failed method
    changed in them would be seen there. *)
Definition shared (cached h : sessionHead) : sessionHead :=
  head.Mk (head.Snapshot' cached) (head.Operations cached) (head.itemSequence cached)
    (head.latestTurnID cached) (head.turns h) (head.ownedTurns h) (head.respondedTurns h)
    (head.toolCallStatuses h) (head.operationPositions h).

(** A method of the head that the cache holds. *)
Definition on_cached {A} (id : SessionID) (h : sessionHead) (m : M sessionHead A)
  : M Store (sessionHead * A) := λ s,
  match m h with
  | (h', Ok a) => (set_cache (alter (λ c, MkCached (shared (chead c) h') (committedSize c)) id) s, Ok (h', a))
  | (h', Err e) => (set_cache (alter (λ c, MkCached (shared (chead c) h') (committedSize c)) id) s, Err e)
  | (h', Panic t) => (s, Panic t)
  end.

Section Methods.
(** One call: its context, the result of reading a file, the clock. *)
Context (ctx read_error : option error) (now : Time).

Definition Create (id : SessionID) (outcome : publish_outcome) : M Store Snapshot :=
  _ ← lift (validateSessionID id);
  match ctx with
  | Some e => fail e
  | None =>
    let state := newStoredState id now in
    _ ← wrap_store (Errorf_w ("create session " +:+ quote id +:+ ": ")) (publishInitialState state outcome);
    mret (head.Snapshot' (stored.sessionHead' state))
  end.

Definition Inspect (id : SessionID) : M Store Snapshot :=
  '(state, _) ← readState ctx read_error id;
  mret (head.Snapshot' (stored.sessionHead' state)).

(** The bounds are uint64. *)
Definition page_of (items : list SItem) (after limit : Z) : result Page :=
  let total := len items in
  let start := Z.min after total in
  let end_ := Z.min (wrap_uint64 (start + limit)) total in
  if end_ <? start then Panic "slice bounds out of range"
  else
    let items' := take (Z.to_nat (end_ - start)) (drop (Z.to_nat start) items) in
    Ok (page.Mk items'
          (match last items' with Some i => sitem.Sequence' i | None => after end)
          (end_ <? total)).

Definition Items (id : SessionID) (after limit : Z) : M Store Page :=
  if limit <=? 0 then fail (errors_New "item page limit must be positive")
  else
    '(state, _) ← readState ctx read_error id;
    lift (page_of (stored.Items state) after limit).

Definition AppendInput (id : SessionID) (i : Input) (outcome : append_outcome) : M Store unit :=
  '(h, size) ← loadWriteState ctx read_error id;
  '(h, item) ← on_cached id h (LocalState.appendInput i now);
  _ ← append itemRecord_codec id h size recordItem (itemrec.Mk item []) outcome;
  notifyObservers id item.

Definition AppendTurn (id : SessionID) (t : Turn) (outcome : append_outcome) : M Store unit :=
  '(h, size) ← loadWriteState ctx read_error id;
  '(h, item) ← on_cached id h (LocalState.appendTurn t now);
  _ ← append itemRecord_codec id h size recordItem (itemrec.Mk item []) outcome;
  notifyObservers id item.

Definition AppendModelResponse (id : SessionID) (r : ModelResponse) (outcome : append_outcome)
  : M Store unit :=
  '(h, size) ← loadWriteState ctx read_error id;
  '(h, item) ← on_cached id h (LocalState.appendModelResponse r now);
  _ ← append itemRecord_codec id h size recordItem (itemrec.Mk item []) outcome;
  notifyObservers id item.

Definition AppendToolCallStatus (id : SessionID) (status : ToolCallStatus) (outcome : append_outcome)
  : M Store unit :=
  '(h, size) ← loadWriteState ctx read_error id;
  let operations := tcs.Operations status in
  let status := tcs.set_operations [] status in
  '(h, item) ← on_cached id h (LocalState.appendToolCallStatus status operations now);
  _ ← append itemRecord_codec id h size recordItem (itemrec.Mk item operations) outcome;
  notifyObservers id (sitem.set_data (StoreToolCallStatus (tcs.set_operations operations status)) item).

Definition SaveOperation (id : SessionID) (value : Operation) (outcome : append_outcome) : M Store unit :=
  _ ← lift (validateOperation value);
  '(h, size) ← loadWriteState ctx read_error id;
  '(h, _) ← on_cached id h (LocalState.saveOperation value);
  append operationRecord_codec id h size recordOperation value outcome.

Definition Resume (id : SessionID) : M Store ResumeState :=
  '(state, _) ← readState ctx read_error id;
  lift (resume state).

Definition Fork (id parentID : SessionID) (previousTurnID : TurnID) (outcome : publish_outcome)
  : M Store Snapshot :=
  _ ← lift (validateSessionID id);
  if bool_decide (id = parentID) then fail (errors_New ("fork session " +:+ quote id +:+ " onto itself"))
  else
    '(parent, _) ← wrap_store (Errorf_w ("fork parent " +:+ quote parentID +:+ ": "))
                     (readState ctx read_error parentID);
    state ← lift (forkStoredState parent id previousTurnID now);
    _ ← wrap_store (Errorf_w ("fork session " +:+ quote id +:+ ": ")) (publishInitialState state outcome);
    match last (stored.Items state) with
    | None => lift (Panic "index out of range")
    | Some item =>
      _ ← notifyObservers id item;
      mret (head.Snapshot' (stored.sessionHead' state))
    end.

End Methods.

(** ** list.go *)

(** A directory entry: its name, whether it is a regular file, and what
    [Info] returns: the modification time or an error, which may be
    errors.ErrUnsupported. *)
Record DirEntry : Type := MkEntry {
  Name : string; IsRegular : bool; Info : result Time; InfoUnsupported : bool }.

(** [strings.CutSuffix] *)
Definition CutSuffix (s suffix : string) : option string :=
  let p := to_bytes s in let q := to_bytes suffix in
  let n := (length p - length q)%nat in
  if bool_decide (length q ≤ length p)%nat && bool_decide (drop n p = q) then Some (to_string (take n p))
  else None.

Definition info_le (a b : SessionInfo) : Prop := String.leb (InfoID a) (InfoID b) = true.
#[export] Instance info_le_dec a b : Decision (info_le a b).
Proof. unfold info_le. apply _. Defined.

(** The loop over the entries. *)
Fixpoint list_entries (ctx : option error) (entries : list DirEntry) (sessions : list SessionInfo)
  : result (list SessionInfo) :=
  match entries with
  | [] => Ok sessions
  | entry :: rest =>
    match ctx with
    | Some e => Err e
    | None =>
      match CutSuffix (Name entry) sessionFileSuffix with
      | None => list_entries ctx rest sessions
      | Some id =>
        if negb (IsRegular entry) then list_entries ctx rest sessions
        else if negb (is_ok (validateSessionID id)) then list_entries ctx rest sessions
        else match Info entry with
        | Ok modified => list_entries ctx rest (sessions ++ [MkInfo id modified])
        | Err e => if InfoUnsupported entry
                   then Err (Errorf_w ("list session " +:+ quote id +:+ ": ") e)
                   else list_entries ctx rest sessions
        | Panic t => Panic t
        end
      end
    end
  end.

Definition listSessionEntries (ctx : option error) (entries : list DirEntry) : result (list SessionInfo) :=
  sessions ← list_entries ctx entries []; Ok (merge_sort info_le sessions).

Definition ListSessions (ctx : option error) (entries : result (list DirEntry)) : result (list SessionInfo) :=
  match ctx with
  | Some e => Err e
  | None => entries ← map_err (Errorf_w "list sessions: ") entries; listSessionEntries ctx entries
  end.
