(* ===== verification/LocalStateFacts.v ===== *)
(** * Facts about the state of a session

    What every method of the head does when it succeeds and that it changes
    nothing when it fails; the invariant of the states that the methods and
    forks build; what a resumed and a forked session hold. *)

From Stdlib Require Import Ascii ZArith Lia.
From S2P Require Import Prelude GoStrings GoText Json JsonCodec GoTime Operation Handler Llm.
From S2P Require Import Inbox Tool SessionStore LocalState.

Local Open Scope Z_scope.

(** ** What the methods of the head do *)

Definition next_item (h : sessionHead) (kind : ItemKind) (d : StoreData) (recordedAt : Time) : SItem :=
  sitem.Mk (wrap_uint64 (head.itemSequence h + 1)) recordedAt kind d.

Definition bump (h : sessionHead) : sessionHead := set_sequence (wrap_uint64 (head.itemSequence h + 1)) h.

Lemma appendItem_eq kind d t h : appendItem kind d t h = (bump h, Ok (next_item h kind d t)).
Proof. reflexivity. Qed.

#[local] Arguments appendItem : simpl never.

(** The updates that succeed. *)
Inductive update : Type :=
  | UpdateInput (i : Input)
  | UpdateTurn (t : Turn)
  | UpdateResponse (r : ModelResponse)
  | UpdateStatus (s : ToolCallStatus) (ops : list Operation).

Definition update_kind (u : update) : ItemKind :=
  match u with
  | UpdateInput _ => ItemInput | UpdateTurn _ => ItemTurn | UpdateResponse _ => ItemModelResponse
  | UpdateStatus _ _ => ItemToolCallStatus
  end.

(** The data of the item that the head returns and of the item that is kept. *)
Definition update_data (u : update) : StoreData :=
  match u with
  | UpdateInput i => StoreInput i | UpdateTurn t => StoreTurn t | UpdateResponse r => StoreModelResponse r
  | UpdateStatus s _ => StoreToolCallStatus s
  end.

Definition kept_data (u : update) : StoreData :=
  match u with
  | UpdateStatus s ops => StoreToolCallStatus (tcs.set_operations ops s)
  | _ => update_data u
  end.

Definition update_method (u : update) (t : Time) : M sessionHead SItem :=
  match u with
  | UpdateInput i => appendInput i t
  | UpdateTurn x => appendTurn x t
  | UpdateResponse r => appendModelResponse r t
  | UpdateStatus s ops => appendToolCallStatus s ops t
  end.

Definition update_head (u : update) (h : sessionHead) : sessionHead :=
  match u with
  | UpdateInput _ => h
  | UpdateTurn t => add_turn (turn.ID t) h
  | UpdateResponse r => add_responded (mresponse.TurnID' r) h
  | UpdateStatus s ops =>
    if decide ((tcs.TurnID' s, tcs.CallID s) ∈ head.toolCallStatuses h) then h
    else fold_left (λ h o, add_operation o h) ops (add_status (tcs.TurnID' s, tcs.CallID s) h)
  end.

(** The conditions that the methods check. *)
Definition admits (h : sessionHead) (u : update) : Prop :=
  match u with
  | UpdateInput i => Inbox.Validate i = Ok tt
  | UpdateTurn t => turn.ID t ≠ EmptyString ∧ turn.PreviousTurnID t = head.latestTurnID h ∧
                    turn.ID t ∉ head.turns h
  | UpdateResponse r => mresponse.TurnID' r ∈ head.ownedTurns h ∧
                        mresponse.TurnID' r ∉ head.respondedTurns h
  | UpdateStatus s ops =>
    tcs.TurnID' s ∈ head.ownedTurns h ∧ tcs.CallID s ≠ EmptyString ∧
    ((tcs.TurnID' s, tcs.CallID s) ∈ head.toolCallStatuses h ∨
     check_new_operations 0 ∅ (head.operationPositions h) ops = Ok tt ∧
     validateStatusOperationReferences (tcs.Status' s) ops = Ok tt)
  end.

Lemma for_each_modify {A} (f : A → sessionHead → sessionHead) xs h :
  for_each (λ x, modify (f x)) xs h = (fold_left (λ h x, f x h) xs h, Ok tt).
Proof.
  revert h. induction xs as [|x xs IH]; intros h; [done|]. simpl. by rewrite M_modify.
Qed.

Lemma fold_add_operation_sequence ops h :
  head.itemSequence (fold_left (λ h o, add_operation o h) ops h) = head.itemSequence h.
Proof. revert h. induction ops as [|o ops IH]; intros h; [done|]. simpl. by rewrite IH. Qed.

Lemma update_head_sequence u h : head.itemSequence (update_head u h) = head.itemSequence h.
Proof.
  destruct u; simpl; try done. case_decide; [done|]. by rewrite fold_add_operation_sequence.
Qed.

Lemma check_new_operations_returns n seen positions ops :
  returns (check_new_operations n seen positions ops) = true.
Proof.
  revert n seen. induction ops as [|o ops IH]; intros n seen; [done|]. simpl. unfold validateOperation.
  go_returns.
Qed.

Lemma check_waiting_returns i w ids : returns (check_waiting i w ids) = true.
Proof.
  revert w. induction ids as [|id ids IH]; intros w; [done|]. simpl. go_returns.
Qed.
#[export] Hint Resolve check_new_operations_returns check_waiting_returns : returns.

Lemma validate_references_returns s ops : returns (validateStatusOperationReferences s ops) = true.
Proof. unfold validateStatusOperationReferences. go_returns. Qed.

Lemma DecodeControlMessage_returns i : returns (DecodeControlMessage i) = true.
Proof. unfold DecodeControlMessage, Unmarshal_strict. go_returns. Qed.

Lemma Validate_returns i : returns (Inbox.Validate i) = true.
Proof.
  unfold Inbox.Validate. pose proof (DecodeControlMessage_returns i) as H.
  case_bool_decide; [done|]. apply returns_bind; [|intros; go_returns].
  destruct (_ || _); [done|]. case_bool_decide; [|done].
  destruct (DecodeControlMessage i); [done|done|discriminate H].
Qed.
#[export] Hint Resolve validate_references_returns DecodeControlMessage_returns Validate_returns : returns.

(** A method succeeds exactly when its conditions hold, with the update of
    the head and the next item; otherwise it fails and changes nothing. *)
Lemma update_method_spec u t h :
  match update_method u t h with
  | (h', Ok i) => admits h u ∧ h' = bump (update_head u h) ∧ i = next_item h (update_kind u) (update_data u) t
  | (h', Err _) => ¬ admits h u ∧ h' = h
  | (_, Panic _) => False
  end.
Proof.
  destruct u as [i|x|r|s ops]; simpl.
  - unfold appendInput. rewrite M_self. pose proof (Validate_returns i) as Hr.
    unfold mbind, M_bind, lift. destruct (Inbox.Validate i) as [[]|e|p]; [|by split|done].
    by split_and!.
  - unfold appendTurn. rewrite M_self.
    case_bool_decide; [by split; [intros []|]|].
    destruct (bool_decide_reflect (turn.PreviousTurnID x = head.latestTurnID h)); simpl;
      [|by split; [intros (_&?&_)|]].
    case_decide; [by split; [intros (_&_&?)|]|]. by rewrite M_modify, appendItem_eq.
  - unfold appendModelResponse. rewrite M_self.
    destruct (bool_decide_reflect (mresponse.TurnID' r ∈ head.ownedTurns h)); simpl; [|by split; [intros []|]].
    case_decide; [by split; [intros []|]|]. by rewrite M_modify, appendItem_eq.
  - unfold appendToolCallStatus. rewrite M_self. cbv zeta.
    destruct (bool_decide_reflect (tcs.TurnID' s ∈ head.ownedTurns h)); simpl; [|by split; [intros []|]].
    case_bool_decide; [by split; [intros (_&?&_)|]|].
    case_decide as Hk; [rewrite appendItem_eq; split; [by split; [|split; [|left]]|done]|].
    pose proof (check_new_operations_returns 0 ∅ (head.operationPositions h) ops) as Hr1.
    pose proof (validate_references_returns (tcs.Status' s) ops) as Hr2.
    unfold mbind, M_bind, lift.
    destruct (check_new_operations _ _ _ _) as [[]|err|p]; simpl; [|by split; [intros (_&_&[?|[? _]])|]|done].
    destruct (validateStatusOperationReferences _ _) as [[]|err|p]; simpl;
      [|by split; [intros (_&_&[?|[_ ?]])|]|done].
    rewrite for_each_modify, appendItem_eq. split; [split; [done|split; [done|by right]]|]. split; [done|].
    unfold next_item. f_equal. by rewrite fold_add_operation_sequence.
Qed.

(** ** The methods of the state *)

Definition state_method (u : update) (t : Time) : M storedState unit :=
  match u with
  | UpdateInput i => state.appendInput i t
  | UpdateTurn x => state.appendTurn x t
  | UpdateResponse r => state.appendModelResponse r t
  | UpdateStatus s ops => state.appendToolCallStatus s ops t
  end.

Definition kept_item (h : sessionHead) (u : update) (t : Time) : SItem :=
  next_item h (update_kind u) (kept_data u) t.

Definition updated (u : update) (t : Time) (s : storedState) : storedState :=
  stored.Mk (bump (update_head u (stored.sessionHead' s)))
    (stored.Items s ++ [kept_item (stored.sessionHead' s) u t]).

Lemma state_method_eq u t s :
  state_method u t s =
  match update_method u t (stored.sessionHead' s) with
  | (h, Ok _) => (updated u t s, Ok tt)
  | (h, Err e) => (stored.Mk h (stored.Items s), Err e)
  | (h, Panic p) => (stored.Mk h (stored.Items s), Panic p)
  end.
Proof.
  pose proof (update_method_spec u t (stored.sessionHead' s)) as H.
  destruct u; simpl in *; unfold state.appendInput, state.appendTurn, state.appendModelResponse,
    state.appendToolCallStatus, on_head, mbind, M_bind;
    match goal with |- context [match ?m _ with _ => _ end] => destruct (m (stored.sessionHead' s)) as [h' [a|e|p]] end;
    try done; destruct H as (_ & -> & ->); reflexivity.
Qed.

Lemma state_method_spec u t s :
  match state_method u t s with
  | (s', Ok _) => admits (stored.sessionHead' s) u ∧ s' = updated u t s
  | (s', Err _) => ¬ admits (stored.sessionHead' s) u ∧ s' = s
  | (_, Panic _) => False
  end.
Proof.
  rewrite state_method_eq. pose proof (update_method_spec u t (stored.sessionHead' s)) as H.
  destruct (update_method u t (stored.sessionHead' s)) as [h' [a|e|p]]; [|destruct H as [H ->]|done].
  - by destruct H.
  - split; [done|by destruct s].
Qed.

(** A stored operation is replaced by one of the same type and version. *)
Definition saves (h : sessionHead) (v : Operation) (index : nat) : Prop :=
  validateOperation v = Ok tt ∧ head.operationPositions h !! op.ID' v = Some index ∧
  ∃ existing, head.Operations h !! index = Some existing ∧
    op.Type' existing = op.Type' v ∧ op.Version' existing = op.Version' v.

Lemma validateOperation_returns v : returns (validateOperation v) = true.
Proof. unfold validateOperation. go_returns. Qed.
#[export] Hint Resolve validateOperation_returns : returns.

Lemma saveOperation_spec v h :
  match saveOperation v h with
  | (h', Ok _) => ∃ index, saves h v index ∧ h' = set_operation index v h
  | (h', Err _) => h' = h ∧ ∀ index, ¬ saves h v index
  | (_, Panic _) => ∃ index, head.operationPositions h !! op.ID' v = Some index ∧
                             head.Operations h !! index = None
  end.
Proof.
  unfold saveOperation, saves. pose proof (validateOperation_returns v) as Hr.
  unfold mbind at 1, M_bind at 1, lift at 1. destruct (validateOperation v) as [[]|err|p] eqn:Hv; [|by split; [|intros ? []]|done].
  rewrite M_self. destruct (head.operationPositions h !! op.ID' v) as [index|] eqn:Hp; [|split; [done|naive_solver]].
  destruct (head.Operations h !! index) as [existing|] eqn:Ho; [|by exists index].
  destruct (bool_decide_reflect (op.Type' existing = op.Type' v)) as [Ht|]; simpl; [|split; [done|naive_solver]].
  destruct (Z.eqb_spec (op.Version' existing) (op.Version' v)) as [Hver|]; simpl; [|split; [done|naive_solver]].
  exists index. split; [|done]. split; [done|]. split; [done|]. by exists existing.
Qed.

(** ** The invariant *)

Definition kind_ok (i : SItem) : bool :=
  match sitem.Data i with
  | StoreFork _ => bool_decide (sitem.Kind i = ItemFork)
  | StoreInput _ => bool_decide (sitem.Kind i = ItemInput)
  | StoreTurn _ => bool_decide (sitem.Kind i = ItemTurn)
  | StoreModelResponse _ => bool_decide (sitem.Kind i = ItemModelResponse)
  | StoreToolCallStatus _ => bool_decide (sitem.Kind i = ItemToolCallStatus)
  | _ => false
  end.

Definition turn_of (i : SItem) : option Turn :=
  match sitem.Data i with StoreTurn t => Some t | _ => None end.

Definition turns_of (items : list SItem) : list Turn := omap turn_of items.

(** The turn that a response or a status belongs to. *)
Definition refers (i : SItem) : option TurnID :=
  match sitem.Data i with
  | StoreModelResponse r => Some (mresponse.TurnID' r)
  | StoreToolCallStatus s => Some (tcs.TurnID' s)
  | _ => None
  end.

(** Every turn names the turn before it. *)
Fixpoint chained (previous : TurnID) (ts : list Turn) : Prop :=
  match ts with
  | [] => True
  | t :: ts => turn.PreviousTurnID t = previous ∧ turn.ID t ≠ EmptyString ∧ chained (turn.ID t) ts
  end.

Definition latest_turn (ts : list Turn) : TurnID :=
  match last ts with Some t => turn.ID t | None => EmptyString end.

Record wf_items (items : list SItem) : Prop := {
  items_sequence : ∀ n i, items !! n = Some i → sitem.Sequence' i = Z.of_nat n + 1;
  items_kind : Forall (λ i, kind_ok i = true) items;
  items_chained : chained EmptyString (turns_of items);
  items_distinct : NoDup (turn.ID <$> turns_of items);
  items_refer : ∀ n i id, items !! n = Some i → refers i = Some id →
    id ∈ turn.ID <$> turns_of (take n items);
}.

Record wf_head (h : sessionHead) (items : list SItem) : Prop := {
  head_sequence : head.itemSequence h = len items;
  head_turns : head.turns h = list_to_set (turn.ID <$> turns_of items);
  head_latest : head.latestTurnID h = latest_turn (turns_of items);
  head_owned : head.ownedTurns h ⊆ head.turns h;
  head_positions : ∀ id n, head.operationPositions h !! id = Some n ↔
    ∃ o, head.Operations h !! n = Some o ∧ op.ID' o = id;
  head_valid : Forall (λ o, validateOperation o = Ok tt) (head.Operations h);
}.

Definition wf (s : storedState) : Prop :=
  wf_items (stored.Items s) ∧ wf_head (stored.sessionHead' s) (stored.Items s).

(** A uint64 counts the items. *)
Definition countable_items (s : storedState) : Prop := len (stored.Items s) < 2 ^ 64 - 1.

Lemma turns_of_app a b : turns_of (a ++ b) = turns_of a ++ turns_of b.
Proof. apply omap_app. Qed.

Lemma turns_of_cons i items : turns_of (i :: items) = option_list (turn_of i) ++ turns_of items.
Proof. unfold turns_of. simpl. by destruct (turn_of i). Qed.

Lemma chained_snoc p ts t :
  chained p ts → turn.ID t ≠ EmptyString →
  turn.PreviousTurnID t = match last ts with Some t => turn.ID t | None => p end →
  chained p (ts ++ [t]).
Proof.
  revert p. induction ts as [|x ts IH]; intros p; cbn [chained app]; [done|].
  intros (H1 & H2 & H3) Hn Hp. split; [done|]. split; [done|]. apply IH; [done|done|].
  rewrite last_cons in Hp. by destruct (last ts).
Qed.

Lemma chained_take p ts us : chained p (ts ++ us) → chained p ts.
Proof. revert p. induction ts; naive_solver. Qed.

Lemma turn_of_kept h u t :
  turn_of (kept_item h u t) = match u with UpdateTurn x => Some x | _ => None end.
Proof. by destruct u. Qed.

Lemma latest_turn_snoc ts t : latest_turn (ts ++ [t]) = turn.ID t.
Proof. unfold latest_turn. by rewrite last_snoc. Qed.

(** What the operations loop leaves alone. *)
Lemma fold_add_operation ops h :
  let h' := fold_left (λ h o, add_operation o h) ops h in
  head.turns h' = head.turns h ∧ head.latestTurnID h' = head.latestTurnID h ∧
  head.ownedTurns h' = head.ownedTurns h ∧ head.respondedTurns h' = head.respondedTurns h ∧
  head.toolCallStatuses h' = head.toolCallStatuses h ∧ head.Snapshot' h' = head.Snapshot' h ∧
  head.Operations h' = head.Operations h ++ ops.
Proof.
  revert h. induction ops as [|o ops IH]; intros h; simpl; [by rewrite app_nil_r|].
  destruct (IH (add_operation o h)) as (-> & -> & -> & -> & -> & -> & ->). simpl.
  by rewrite <- app_assoc.
Qed.

Definition positions_ok (h : sessionHead) : Prop := ∀ id n,
  head.operationPositions h !! id = Some n ↔ ∃ o, head.Operations h !! n = Some o ∧ op.ID' o = id.

Lemma add_operation_positions o h :
  positions_ok h → head.operationPositions h !! op.ID' o = None → positions_ok (add_operation o h).
Proof.
  intros Hp Hnew id n. simpl. destruct (decide (op.ID' o = id)) as [<-|Hne].
  - rewrite lookup_insert_eq. split.
    + intros [= <-]. exists o. split; [by apply list_lookup_middle|done].
    + intros (o' & Ho & Hid). apply lookup_app_Some in Ho as [Ho|[Hlen Ho]].
      * assert (head.operationPositions h !! op.ID' o = Some n) as H by (apply Hp; eauto). congruence.
      * apply list_lookup_singleton_Some in Ho as [Ho _]. f_equal. lia.
  - rewrite lookup_insert_ne by done. rewrite (Hp id n). split.
    + intros (o' & Ho & Hid). exists o'. split; [by apply lookup_app_l_Some|done].
    + intros (o' & Ho & Hid). apply lookup_app_Some in Ho as [Ho|[_ Ho]]; [eauto|].
      apply list_lookup_singleton_Some in Ho as [_ ->]. done.
Qed.

Lemma check_new_operations_ok n seen positions ops :
  check_new_operations n seen positions ops = Ok tt →
  Forall (λ o, validateOperation o = Ok tt ∧ op.ID' o ∉ seen ∧ positions !! op.ID' o = None) ops ∧
  NoDup (op.ID' <$> ops).
Proof.
  revert n seen. induction ops as [|o ops IH]; intros n seen H; [by split; constructor|].
  simpl in H. apply bind_ok in H as ([] & Hv & H). apply map_err_ok in Hv.
  case_decide as Hs; [done|]. case_decide as Hp; [done|]. apply IH in H as [Hf Hnd]. split.
  - constructor; [split; [done|split; [done|by apply eq_None_not_Some]]|].
    eapply Forall_impl; [exact Hf|]. simpl. set_solver.
  - simpl. apply NoDup_cons. split; [|done]. intros (x & Hx & Hin)%list_elem_of_fmap.
    rewrite Forall_forall in Hf. destruct (Hf x Hin) as (_ & Hns & _). set_solver.
Qed.

Lemma add_operations_positions ops h :
  positions_ok h → Forall (λ o, head.operationPositions h !! op.ID' o = None) ops →
  NoDup (op.ID' <$> ops) → positions_ok (fold_left (λ h o, add_operation o h) ops h).
Proof.
  revert h. induction ops as [|o ops IH]; intros h Hp Hf Hnd; [done|].
  apply Forall_cons in Hf as [Ho Hf]. simpl in Hnd. apply NoDup_cons in Hnd as [Hni Hnd].
  simpl. apply IH; [by apply add_operation_positions| |done].
  rewrite Forall_forall in *. intros x Hx. simpl. rewrite lookup_insert_ne; [by apply Hf|].
  intros Heq. apply Hni. rewrite Heq. by apply list_elem_of_fmap_2.
Qed.

Lemma wf_items_snoc items h u t :
  wf_items items → wf_head h items → admits h u → len items < 2 ^ 64 - 1 →
  wf_items (items ++ [kept_item h u t]).
Proof.
  intros [H1 H2 H3 H4 H5] [G1 G2 G3 G4 _ _] Hu Hlen.
  assert (wrap_uint64 (head.itemSequence h + 1) = len items + 1) as Hseq.
  { rewrite G1. apply wrap_uint64_small. unfold len in *. lia. }
  constructor.
  - intros n i [Hi|[Hn Hi]]%lookup_app_Some; [by apply H1|].
    apply list_lookup_singleton_Some in Hi as [Hn' <-]. simpl. rewrite Hseq. unfold len. lia.
  - apply Forall_app. split; [done|]. constructor; [by destruct u|constructor].
  - rewrite turns_of_app. unfold turns_of at 2. simpl. rewrite turn_of_kept.
    destruct u as [i|x|r|s ops]; try by rewrite app_nil_r. destruct Hu as (Hne & Hprev & _).
    apply chained_snoc; [done|done|]. rewrite Hprev, G3. done.
  - rewrite turns_of_app, fmap_app. unfold turns_of at 2. simpl. rewrite turn_of_kept.
    destruct u as [i|x|r|s ops]; try by rewrite app_nil_r. destruct Hu as (_ & _ & Hnew).
    apply NoDup_app. split; [done|]. split; [|apply NoDup_singleton].
    intros y Hy ->%list_elem_of_singleton. apply Hnew. rewrite G2. by apply elem_of_list_to_set.
  - intros n i id [Hi|[Hn Hi]]%lookup_app_Some Hid.
    + rewrite take_app_le by (apply lookup_lt_Some in Hi; lia). by eapply H5.
    + apply list_lookup_singleton_Some in Hi as [Hn' <-].
      replace n with (length items + 0)%nat by lia. rewrite take_app_add, take_0, app_nil_r.
      apply (elem_of_list_to_set (C := gset TurnID)). rewrite <- G2. apply G4.
      destruct u as [i|x|r|s ops]; simpl in Hid; try discriminate Hid; injection Hid as <-; apply Hu.
Qed.

Lemma wf_update u t s :
  wf s → admits (stored.sessionHead' s) u → countable_items s → wf (updated u t s).
Proof.
  intros [Hi Hh] Hu Hlen. split; [by apply wf_items_snoc|].
  destruct s as [h items]. simpl in *. destruct Hh as [G1 G2 G3 G4 G5 G6].
  assert (wrap_uint64 (head.itemSequence h + 1) = len (items ++ [kept_item h u t])) as Hseq.
  { unfold countable_items, len in *. simpl in Hlen. rewrite G1, length_app. simpl.
    rewrite wrap_uint64_small; unfold len in *; lia. }
  assert (head.itemSequence (bump (update_head u h)) = len (items ++ [kept_item h u t])) as Hs.
  { unfold bump. simpl. by rewrite update_head_sequence. }
  assert (turns_of (items ++ [kept_item h u t]) = turns_of items ++ match u with UpdateTurn x => [x] | _ => [] end) as Ht.
  { rewrite turns_of_app. f_equal. unfold turns_of. simpl. rewrite turn_of_kept. by destruct u. }
  destruct u as [i|x|r|st ops]; rewrite ?app_nil_r in Ht; constructor; try exact Hs; rewrite ?Ht; simpl; try done.
  - rewrite fmap_app, list_to_set_app_L, G2. simpl. set_solver.
  - by rewrite latest_turn_snoc.
  - set_solver.
  - case_decide; [done|]. by destruct (fold_add_operation ops (add_status (tcs.TurnID' st, tcs.CallID st) h)) as (-> & _).
  - case_decide; [done|]. by destruct (fold_add_operation ops (add_status (tcs.TurnID' st, tcs.CallID st) h)) as (_ & -> & _).
  - case_decide; [done|]. by destruct (fold_add_operation ops (add_status (tcs.TurnID' st, tcs.CallID st) h)) as (-> & _ & -> & _).
  - case_decide as Hk; [done|]. destruct Hu as (_ & _ & [?|[Hc _]]); [done|].
    apply check_new_operations_ok in Hc as [Hf Hnd].
    apply (add_operations_positions ops (add_status (tcs.TurnID' st, tcs.CallID st) h) G5); [|done].
    eapply Forall_impl; [exact Hf|]. by intros o (_ & _ & ?).
  - case_decide as Hk; [done|]. destruct Hu as (_ & _ & [?|[Hc _]]); [done|].
    apply check_new_operations_ok in Hc as [Hf Hnd].
    destruct (fold_add_operation ops (add_status (tcs.TurnID' st, tcs.CallID st) h)) as (_&_&_&_&_&_& ->).
    apply Forall_app. split; [done|]. eapply Forall_impl; [exact Hf|]. by intros o (? & _).
Qed.

Lemma wf_new id t : wf (newStoredState id t).
Proof.
  split; constructor; simpl; try done; try constructor.
  - done.
  - by intros (o & Ho & _).
Qed.

Lemma wf_save v index s :
  wf s → saves (stored.sessionHead' s) v index →
  wf (stored.Mk (set_operation index v (stored.sessionHead' s)) (stored.Items s)).
Proof.
  destruct s as [h items]. intros [Hi [G1 G2 G3 G4 G5 G6]] (Hv & Hp & existing & He & Ht & Hver).
  simpl in *. assert (op.ID' existing = op.ID' v) as Hid.
  { apply G5 in Hp as (o & Ho & <-). congruence. }
  split; [done|]. constructor; simpl; try done; [|by apply Forall_insert].
  intros id n. rewrite G5. destruct (decide (index = n)) as [<-|Hne].
  - rewrite list_lookup_insert_eq by (by eapply lookup_lt_Some). rewrite He.
    split; intros (o & [= <-] & <-); eauto.
  - by rewrite list_lookup_insert_ne.
Qed.

(** ** Inheriting *)

Definition strip_item (i : SItem) : SItem :=
  match sitem.Data i with
  | StoreToolCallStatus s => sitem.set_data (StoreToolCallStatus (tcs.set_operations [] s)) i
  | _ => i
  end.

Definition inherit_head (i : SItem) (h : sessionHead) : sessionHead :=
  let h := set_sequence (sitem.Sequence' i) h in
  match sitem.Data i with
  | StoreTurn t => add_turn (turn.ID t) h
  | StoreModelResponse r => add_responded (mresponse.TurnID' r) h
  | StoreToolCallStatus s => add_status (tcs.TurnID' s, tcs.CallID s) h
  | StoreFork _ => resetOwnedState h
  | _ => h
  end.

Definition inherited (i : SItem) (s : storedState) : storedState :=
  stored.Mk (inherit_head i (stored.sessionHead' s)) (stored.Items s ++ [strip_item i]).

Lemma inheritItem_ok i s : kind_ok i = true → inheritItem i s = (inherited i s, Ok tt).
Proof.
  unfold kind_ok, inheritItem, inherited, inherit_head, strip_item. destruct i as [n t k d]. simpl.
  destruct d; simpl; intros H; try discriminate H; apply bool_decide_eq_true in H; subst k; reflexivity.
Qed.

Definition inherit_all (items : list SItem) (s : storedState) : storedState :=
  fold_left (λ s i, inherited i s) items s.

Lemma inherit_items items s :
  Forall (λ i, kind_ok i = true) items → for_each inheritItem items s = (inherit_all items s, Ok tt).
Proof.
  revert s. induction items as [|i items IH]; intros s H; [done|]. apply Forall_cons in H as [Hi H].
  simpl. unfold mbind, M_bind. rewrite inheritItem_ok by done. by apply IH.
Qed.

Lemma inherit_all_snoc items i s : inherit_all (items ++ [i]) s = inherited i (inherit_all items s).
Proof. unfold inherit_all. by rewrite fold_left_app. Qed.

Lemma strip_turn i : turn_of (strip_item i) = turn_of i.
Proof. unfold turn_of, strip_item. destruct i as [n t k []]; done. Qed.

Lemma turns_of_strip items : turns_of (strip_item <$> items) = turns_of items.
Proof.
  induction items as [|i items IH]; [done|]. rewrite fmap_cons, !turns_of_cons, strip_turn. by rewrite IH.
Qed.

Lemma wf_items_take n items : wf_items items → wf_items (take n items).
Proof.
  intros [H1 H2 H3 H4 H5].
  assert (turns_of items = turns_of (take n items) ++ turns_of (drop n items)) as Ht.
  { by rewrite <- turns_of_app, take_drop. }
  constructor.
  - intros m i [Hi _]%lookup_take_Some. by apply H1.
  - by apply Forall_take.
  - rewrite Ht in H3. by eapply chained_take.
  - rewrite Ht, fmap_app in H4. by apply NoDup_app in H4 as [H4 _].
  - intros m i id [Hi Hm]%lookup_take_Some Hid. rewrite take_take, Nat.min_l by lia. by eapply H5.
Qed.

Lemma wf_items_strip items : wf_items items → wf_items (strip_item <$> items).
Proof.
  intros [H1 H2 H3 H4 H5]. constructor; rewrite ?turns_of_strip; try done.
  - intros n i. rewrite list_lookup_fmap. intros (j & Hj & ->)%fmap_Some. rewrite <- (H1 n j Hj).
    unfold strip_item. by destruct j as [? ? ? []].
  - apply Forall_fmap. eapply Forall_impl; [exact H2|]. intros i. unfold kind_ok, strip_item. simpl.
    by destruct i as [n t k []].
  - intros n i id. rewrite list_lookup_fmap. intros (j & Hj & ->)%fmap_Some Hid.
    rewrite <- fmap_take, turns_of_strip. eapply H5; [exact Hj|]. rewrite <- Hid.
    unfold refers, strip_item. by destruct j as [? ? ? []].
Qed.

(** What a state holds that only inherited. *)
Lemma inherit_all_spec items id t :
  wf_items items →
  let s := inherit_all items (newStoredState id t) in
  let h := stored.sessionHead' s in
  stored.Items s = strip_item <$> items ∧ head.Operations h = [] ∧ head.operationPositions h = ∅ ∧
  head.Snapshot' h = session.Mk id t ∧ head.itemSequence h = len items ∧
  head.turns h = list_to_set (turn.ID <$> turns_of items) ∧
  head.latestTurnID h = latest_turn (turns_of items) ∧ head.ownedTurns h ⊆ head.turns h.
Proof.
  induction items as [|i items IH] using rev_ind; intros Hwf; [by split_and!|].
  assert (wf_items items) as Hwf'.
  { apply (wf_items_take (length items)) in Hwf. by rewrite take_app_length in Hwf. }
  assert (sitem.Sequence' i = len (items ++ [i])) as Hseq.
  { rewrite (items_sequence _ Hwf (length items)) by (by apply list_lookup_middle).
    unfold len. rewrite length_app. simpl. lia. }
  destruct (IH Hwf') as (H1 & H2 & H3 & H4 & H5 & H6 & H7 & H8). clear IH.
  rewrite inherit_all_snoc. set (s := inherit_all items (newStoredState id t)) in *.
  rewrite turns_of_app, !fmap_app, turns_of_cons.
  destruct i as [n u k d]. unfold inherited, inherit_head, strip_item, turn_of. cbn [sitem.Data sitem.Sequence'] in *.
  split_and!; destruct d; simpl; rewrite ?app_nil_r, ?H1, ?H2, ?H3, ?H4, ?H6, ?H7, ?latest_turn_snoc;
    try exact Hseq; try done; try set_solver.
Qed.

(** ** Forking *)

Definition belongs (turnID : TurnID) (i : SItem) : bool :=
  match turn_of i with
  | Some t => bool_decide (turn.ID t = turnID)
  | None => bool_decide (refers i = Some turnID)
  end.

Lemma of_turn_ok turnID i : kind_ok i = true → of_turn turnID i = Ok (belongs turnID i).
Proof.
  unfold kind_ok, of_turn, belongs, turn_of, refers. destruct i as [n t k d]. simpl.
  destruct d; simpl; intros H; try discriminate H; apply bool_decide_eq_true in H; subst k; try reflexivity;
    simpl; f_equal; apply bool_decide_ext; naive_solver.
Qed.

Lemma turn_kind i : kind_ok i = true → bool_decide (sitem.Kind i = ItemTurn) = bool_decide (is_Some (turn_of i)).
Proof.
  unfold kind_ok, turn_of. destruct i as [n t k d]. simpl.
  destruct d; simpl; intros H; try discriminate H; apply bool_decide_eq_true in H; by subst k.
Qed.

(** After the boundary is found, up to the next turn. *)
Lemma boundary_running turnID index b0 items :
  Forall (λ i, kind_ok i = true) items → (b0 < index)%nat →
  ∃ b, fork_boundary turnID index (Some b0) items = Ok (Some b) ∧ (b0 ≤ b < index + length items)%nat ∧
    turns_of (take (S b - index) items) = [].
Proof.
  revert index b0. induction items as [|i items IH]; intros index b0 Hk Hb.
  { exists b0. simpl. rewrite take_nil. split; [done|]. split; [lia|done]. }
  apply Forall_cons in Hk as [Hi Hk]. cbn [fork_boundary].
  rewrite (bool_decide_true (is_Some (Some b0))), turn_kind by done. simpl.
  case_bool_decide as Ht.
  { exists b0. split; [done|]. split; [lia|]. by replace (S b0 - index)%nat with 0%nat by lia. }
  rewrite of_turn_ok by done. simpl. apply eq_None_not_Some in Ht.
  destruct (IH (S index) (if belongs turnID i then index else b0) Hk) as (b & Hr & Hlt & Hno);
    [destruct (belongs turnID i); lia|].
  exists b. split; [by destruct (belongs turnID i)|].
  split; [destruct (belongs turnID i); lia|].
  destruct (S b - index)%nat as [|m] eqn:Em; [done|]. cbn [take]. rewrite turns_of_cons, Ht. simpl.
  by replace m with (S b - S index)%nat by lia.
Qed.

Lemma boundary_search turnID index items :
  Forall (λ i, kind_ok i = true) items →
  (Forall (λ i, belongs turnID i = false) items ∧ fork_boundary turnID index None items = Ok None) ∨
  ∃ pre i post b, items = pre ++ i :: post ∧ Forall (λ i, belongs turnID i = false) pre ∧
    belongs turnID i = true ∧ fork_boundary turnID index None items = Ok (Some b) ∧
    (index + length pre ≤ b < index + length items)%nat ∧
    turns_of (take (b - (index + length pre)) post) = [].
Proof.
  revert index. induction items as [|i items IH]; intros index Hk; [by left|].
  apply Forall_cons in Hk as [Hi Hk]. cbn [fork_boundary]. simpl. rewrite of_turn_ok by done. simpl.
  destruct (belongs turnID i) eqn:Eb.
  - right. destruct (boundary_running turnID (S index) index items Hk) as (b & Hr & Hlt & Hno); [lia|].
    exists [], i, items, b. rewrite Nat.add_0_r. split_and!; try done; try (simpl; lia).
  - destruct (IH (S index) Hk) as [[Hf Hr]|(pre & j & post & b & -> & Hf & Hj & Hr & Hlt & Hno)].
    + left. split; [by constructor|done].
    + right. exists (i :: pre), j, post, b. rewrite length_app in *. simpl in *.
      split_and!; try done; try lia; [by constructor|].
      by replace (b - (index + S (length pre)))%nat with (b - (S index + length pre))%nat by lia.
Qed.

Definition fork_item (n : Z) (parent : SessionID) (turnID : TurnID) (t : Time) : SItem :=
  sitem.Mk n t ItemFork (StoreFork (fork.Mk parent turnID)).

Lemma appendFork_eq f t s :
  appendFork f t s =
  (stored.Mk (resetOwnedState (bump (stored.sessionHead' s)))
     (stored.Items s ++ [next_item (stored.sessionHead' s) ItemFork (StoreFork f) t]), Ok tt).
Proof. reflexivity. Qed.

(** What a fork is: a prefix of the parent's history that ends in the turn, and
    the fork itself. *)
Lemma fork_ok parent id turnID t :
  wf parent → countable_items parent →
  match forkStoredState parent id turnID t with
  | Ok s => ∃ n, (n ≤ length (stored.Items parent))%nat ∧
      stored.Items s = (strip_item <$> take n (stored.Items parent)) ++
        [fork_item (Z.of_nat n + 1) (head_id (stored.sessionHead' parent)) turnID t] ∧
      head.latestTurnID (stored.sessionHead' s) = turnID ∧
      head.Operations (stored.sessionHead' s) = [] ∧ head_id (stored.sessionHead' s) = id ∧ wf s
  | Err _ => turnID ∉ head.turns (stored.sessionHead' parent)
  | Panic _ => False
  end.
Proof.
  intros [Hi Hh] Hcount. unfold forkStoredState.
  destruct (boundary_search turnID 0 (stored.Items parent) (items_kind _ Hi))
    as [[Hf ->]|(pre & i & post & b & Heq & Hf & Hb & -> & Hlt & Hno)]; simpl.
  { rewrite (head_turns _ _ Hh). intros Hin%elem_of_list_to_set.
    apply list_elem_of_fmap in Hin as (x & -> & Hx). apply list_elem_of_omap in Hx as (i & Hi' & Hx).
    rewrite Forall_forall in Hf. specialize (Hf i Hi'). unfold belongs in Hf. rewrite Hx in Hf.
    by apply bool_decide_eq_false in Hf. }
  pose proof (wf_items_take (S b) _ Hi) as Hwp.
  unfold mbind at 1, M_bind at 1. rewrite inherit_items by apply Hwp. rewrite appendFork_eq. simpl.
  destruct (inherit_all_spec _ id t Hwp) as (H1 & H2 & H3 & H4 & H5 & H6 & H7 & H8).
  set (s := inherit_all _ _) in *. set (h := stored.sessionHead' s) in *.
  assert (length (take (S b) (stored.Items parent)) = S b) as Hlen by (rewrite length_take; lia).
  assert (wrap_uint64 (head.itemSequence h + 1) = Z.of_nat (S b) + 1) as Hseq.
  { rewrite H5. unfold len. rewrite Hlen. apply wrap_uint64_small.
    unfold countable_items, len in Hcount. lia. }
  assert (∃ x, turn_of i = Some x ∧ turn.ID x = turnID) as (x & Hx & Hxid).
  { unfold belongs in Hb. destruct (turn_of i) as [x|] eqn:E; [by apply bool_decide_eq_true in Hb; eauto|].
    apply bool_decide_eq_true in Hb. exfalso.
    assert (stored.Items parent !! length pre = Some i) as Hl by (rewrite Heq; by apply list_lookup_middle).
    pose proof (items_refer _ Hi _ _ _ Hl Hb) as Hin. rewrite Heq, take_app_length in Hin.
    apply list_elem_of_fmap in Hin as (y & -> & Hy). apply list_elem_of_omap in Hy as (j & Hj & Hy).
    rewrite Forall_forall in Hf. specialize (Hf j Hj). unfold belongs in Hf. rewrite Hy in Hf.
    by apply bool_decide_eq_false in Hf. }
  assert (latest_turn (turns_of (take (S b) (stored.Items parent))) = turnID) as Hlatest.
  { rewrite Heq. replace (S b) with (length pre + S (b - length pre))%nat by lia.
    rewrite take_app_add. cbn [take]. rewrite turns_of_app, turns_of_cons, Hx.
    replace (b - length pre)%nat with (b - (0 + length pre))%nat by lia. rewrite Hno. simpl.
    by rewrite latest_turn_snoc. }
  exists (S b). split; [lia|]. split; [|split; [|split; [|split]]]; simpl.
  - rewrite H1. unfold next_item, fork_item. fold h. by rewrite Hseq.
  - fold h. by rewrite H7.
  - done.
  - unfold head_id. simpl. by rewrite H4.
  - pose proof (wf_items_strip _ Hwp) as [W1 W2 W3 W4 W5]. rewrite H1. split; constructor; simpl.
    + intros n j [Hj|[Hn Hj]]%lookup_app_Some; [by apply W1|].
      apply list_lookup_singleton_Some in Hj as [Hn' <-]. simpl. fold h. rewrite Hseq.
      rewrite length_fmap, Hlen in *. lia.
    + apply Forall_app. split; [done|]. by repeat constructor.
    + rewrite turns_of_app, app_nil_r. done.
    + rewrite turns_of_app, app_nil_r. done.
    + intros n j jd [Hj|[Hn Hj]]%lookup_app_Some Hid.
      * rewrite take_app_le by (apply lookup_lt_Some in Hj; lia). by eapply W5.
      * apply list_lookup_singleton_Some in Hj as [_ <-]. discriminate Hid.
    + fold h. rewrite Hseq. unfold len. rewrite length_app, length_fmap, Hlen. simpl. lia.
    + rewrite turns_of_app, app_nil_r, turns_of_strip. exact H6.
    + rewrite turns_of_app, app_nil_r, turns_of_strip. exact H7.
    + set_solver.
    + intros jd n. split; [done|]. by intros (o & Ho & _).
    + constructor.
Qed.

(** ** Resuming *)

Definition snapshots_of (i : SItem) : list Operation :=
  match sitem.Data i with StoreToolCallStatus s => tcs.Operations s | _ => [] end.

(** The operations as tool-call statuses recorded them, in order. *)
Definition snapshots (items : list SItem) : list Operation := concat (snapshots_of <$> items).

(** The latest recorded state of an operation is not terminal. *)
Definition recorded_running (id : ID) (ops : list Operation) : bool :=
  match last (filter (λ o, op.ID' o = id) ops) with
  | Some o => negb (terminalOperationStatus (op.Status' o))
  | None => false
  end.

Definition external_id (i : SItem) : option InputID :=
  match sitem.Data i with
  | StoreInput x => if bool_decide (input.Kind x = InputExternal) then Some (input.ID x) else None
  | _ => None
  end.

Definition mark_pending (pending : gset ID) (value : Operation) : gset ID :=
  if terminalOperationStatus (op.Status' value) then pending ∖ {[op.ID' value]}
  else {[op.ID' value]} ∪ pending.

Lemma mark_pending_spec ops id :
  id ∈ fold_left mark_pending ops ∅ ↔ recorded_running id ops = true.
Proof.
  induction ops as [|o ops IH] using rev_ind; [done|].
  rewrite fold_left_app. simpl. unfold recorded_running in *. rewrite filter_app.
  unfold mark_pending at 1. destruct (decide (op.ID' o = id)) as [Hid|Hne].
  - rewrite filter_cons_True by done. rewrite filter_nil, last_snoc.
    destruct (terminalOperationStatus (op.Status' o)); simpl; set_solver.
  - rewrite filter_cons_False by done. rewrite filter_nil, app_nil_r, <- IH.
    destruct (terminalOperationStatus (op.Status' o)); set_solver.
Qed.

Lemma scan_items_ok ids pending items :
  Forall (λ i, kind_ok i = true) items →
  scan_items ids pending items
  = Ok (ids ++ omap external_id items, fold_left mark_pending (snapshots items) pending).
Proof.
  revert ids pending. induction items as [|i items IH]; intros ids pending Hk; [by rewrite app_nil_r|].
  apply Forall_cons in Hk as [Hi Hk]. unfold snapshots. cbn [scan_items fmap list_fmap concat].
  rewrite fold_left_app. unfold kind_ok in Hi. destruct i as [n t k d]. cbn [sitem.Kind sitem.Data] in *.
  destruct d; try discriminate Hi; apply bool_decide_eq_true in Hi; subst k; simpl; rewrite IH by done;
    try done.
  f_equal. f_equal. simpl. unfold external_id at 2. simpl. by case_bool_decide; rewrite <- ?app_assoc.
Qed.

Definition unfinished (items : list SItem) (o : Operation) : Prop :=
  terminalOperationStatus (op.Status' o) = false ∨ recorded_running (op.ID' o) (snapshots items) = true.

Lemma resume_ok s :
  wf s → ∃ r, resume s = Ok r ∧
    resumed.Snapshot' r = head.Snapshot' (stored.sessionHead' s) ∧
    resumed.ExternalInputIDs r = omap external_id (stored.Items s) ∧
    sublist (resumed.Operations r) (head.Operations (stored.sessionHead' s)) ∧
    ∀ o, o ∈ resumed.Operations r ↔
      o ∈ head.Operations (stored.sessionHead' s) ∧ unfinished (stored.Items s) o.
Proof.
  intros [Hi _]. unfold resume. rewrite scan_items_ok by apply Hi. simpl.
  eexists. split; [reflexivity|]. simpl. split; [done|]. split; [done|]. split; [apply sublist_filter|].
  intros o. rewrite list_elem_of_filter, mark_pending_spec. unfold unfinished. tauto.
Qed.

(** ** Reachable states *)

Inductive built : storedState → Prop :=
  | built_new id t : built (newStoredState id t)
  | built_update u t s s' :
      built s → countable_items s → state_method u t s = (s', Ok tt) → built s'
  | built_save v s s' : built s → state.saveOperation v s = (s', Ok tt) → built s'
  | built_fork parent id turnID t s :
      built parent → countable_items parent → forkStoredState parent id turnID t = Ok s → built s.

Lemma state_save_spec v s :
  wf s →
  match state.saveOperation v s with
  | (s', Ok _) => ∃ index, saves (stored.sessionHead' s) v index ∧
      s' = stored.Mk (set_operation index v (stored.sessionHead' s)) (stored.Items s)
  | (s', Err _) => s' = s ∧ ∀ index, ¬ saves (stored.sessionHead' s) v index
  | (_, Panic _) => False
  end.
Proof.
  intros [_ Hh]. unfold state.saveOperation, on_head. pose proof (saveOperation_spec v (stored.sessionHead' s)) as H.
  destruct (saveOperation v (stored.sessionHead' s)) as [h [[]|e|p]].
  - destruct H as (index & Hs & ->). by exists index.
  - destruct H as [-> H]. split; [by destruct s|done].
  - destruct H as (index & Hp & Ho). apply (head_positions _ _ Hh) in Hp as (o & Ho' & _). congruence.
Qed.

Lemma built_wf s : built s → wf s.
Proof.
  induction 1 as [id t|u t s s' _ IH Hc H|v s s' _ IH H|parent id turnID t s _ IH Hc H].
  - apply wf_new.
  - pose proof (state_method_spec u t s) as Hs. rewrite H in Hs. destruct Hs as [Ha ->]. by apply wf_update.
  - pose proof (state_save_spec v s IH) as Hs. rewrite H in Hs. destruct Hs as (index & Hs & ->). by apply wf_save.
  - pose proof (fork_ok parent id turnID t IH Hc) as Hs. rewrite H in Hs. by destruct Hs as (n & _ & _ & _ & _ & _ & ?).
Qed.

(** The head with other operations. *)
Definition set_all_operations (l : list Operation) (h : sessionHead) : sessionHead :=
  head.Mk (head.Snapshot' h) l (head.itemSequence h) (head.latestTurnID h) (head.turns h) (head.ownedTurns h)
    (head.respondedTurns h) (head.toolCallStatuses h) (head.operationPositions h).

(** C5: The history of a session is well formed however it was built, by
    appends, by saves and by forks of forks: its items are numbered from one
    without a gap and hold what their kinds say; every turn names the turn
    before it, no turn ID repeats, and every response and status belongs to an
    earlier turn; the head's sequence, latest turn and operation positions are
    those of the items. *)
Theorem stored_history_wf s :
  built s → wf_items (stored.Items s) ∧ wf_head (stored.sessionHead' s) (stored.Items s).
Proof. apply built_wf. Qed.

(** What a save writes: the operation in its place, and nothing else. *)
Record replaced (index : nat) (v : Operation) (s s' : storedState) : Prop := {
  rep_operations : head.Operations (stored.sessionHead' s') = <[index := v]> (head.Operations (stored.sessionHead' s));
  rep_found : is_Some (head.Operations (stored.sessionHead' s) !! index);
  rep_items : stored.Items s' = stored.Items s;
  rep_rest : ∀ l, set_all_operations l (stored.sessionHead' s') = set_all_operations l (stored.sessionHead' s);
}.

(** C40: A rejected update leaves no trace: a method that appends to the
    session's state succeeds exactly when its conditions hold, and then changes
    the state as [updated] says; saving an operation succeeds exactly when the
    operation is valid, the session has it and its type and version are those
    of before, and then writes it in its place and changes nothing else;
    otherwise they fail, never panic, and the state, its head and its maps
    included, is the one before the call. *)
Theorem rejected_updates_change_nothing u v t s :
  match state_method u t s with
  | (s', Ok _) => admits (stored.sessionHead' s) u ∧ s' = updated u t s
  | (s', Err _) => ¬ admits (stored.sessionHead' s) u ∧ s' = s
  | (_, Panic _) => False
  end ∧
  (built s →
   match state.saveOperation v s with
   | (s', Ok _) => ∃ index, saves (stored.sessionHead' s) v index ∧ replaced index v s s'
   | (s', Err _) => (∀ index, ¬ saves (stored.sessionHead' s) v index) ∧ s' = s
   | (_, Panic _) => False
   end).
Proof.
  split; [apply state_method_spec|]. intros Hb. pose proof (state_save_spec v s (built_wf s Hb)) as H.
  destruct (state.saveOperation v s) as [s' [[]|e|p]]; [|by destruct H|done].
  destruct H as (index & Hs & ->). exists index. split; [done|]. constructor; try done.
  destruct Hs as (_ & _ & o & Ho & _). by exists o.
Qed.

(** C37: Resuming a session never panics and returns the operations, in their
    order, that are not terminal or whose latest state in the history of tool
    calls is not terminal, and no other; and the IDs of the external inputs in
    the order in which they were stored. *)
Theorem resume_exact s :
  built s → ∃ r, resume s = Ok r ∧
    resumed.ExternalInputIDs r = omap external_id (stored.Items s) ∧
    sublist (resumed.Operations r) (head.Operations (stored.sessionHead' s)) ∧
    ∀ o, o ∈ resumed.Operations r ↔
      o ∈ head.Operations (stored.sessionHead' s) ∧ unfinished (stored.Items s) o.
Proof. intros H. destruct (resume_ok s (built_wf s H)) as (r & ? & _ & ?). by exists r. Qed.

(** A fork is a prefix of its parent: forking at a turn that the parent
    has does not fail, and gives the parent's items up to the last one of that
    turn before the next turn, without their operations, then the fork itself;
    the next turn continues the turn forked at, and nothing can be resumed. *)
Theorem fork_prefix parent id turnID t :
  built parent → countable_items parent →
  (∀ e, forkStoredState parent id turnID t = Err e → turnID ∉ head.turns (stored.sessionHead' parent)) ∧
  (∀ p, forkStoredState parent id turnID t ≠ Panic p) ∧
  ∀ s, forkStoredState parent id turnID t = Ok s →
    (∃ n, stored.Items s = (strip_item <$> take n (stored.Items parent)) ++
            [fork_item (Z.of_nat n + 1) (head_id (stored.sessionHead' parent)) turnID t]) ∧
    head.latestTurnID (stored.sessionHead' s) = turnID ∧
    ∃ r, resume s = Ok r ∧ resumed.Operations r = [].
Proof.
  intros Hb Hc. pose proof (fork_ok parent id turnID t (built_wf _ Hb) Hc) as H.
  destruct (forkStoredState parent id turnID t) as [s|e|p]; [|split_and!; [by intros e' [= <-]|done|done]|done].
  destruct H as (n & _ & Hitems & Hl & Hops & _ & Hwf). split_and!; [done|done|].
  intros s' [= <-]. split; [by exists n|]. split; [done|].
  destruct (resume_ok s Hwf) as (r & Hr & _ & _ & Hsub & _). exists r. split; [done|].
  rewrite Hops in Hsub. by apply sublist_nil_r in Hsub.
Qed.

(** ** A sample session *)

Definition sample_time : Time := "2024-05-01T10:00:00Z".
Definition sample_op (status : Status) : Operation :=
  op.Mk 10 "o1" TypeValue 1 status VNil VNil.
Definition sample_updates : list update :=
  [UpdateInput (input.Mk "i1" InputExternal (VText (JStr "hello")));
   UpdateTurn (turn.Mk "t1" EmptyString TurnRegular);
   UpdateResponse (mresponse.Mk "t1" (response.Mk "r" StopComplete [] (usage.Mk 0 0 0 0 0 VNil) None));
   UpdateStatus (tcs.Mk "t1" "c1" (waiting_status ["o1"]) []) [sample_op StatusReady];
   UpdateTurn (turn.Mk "t2" "t1" TurnRegular)].

Definition run_updates (us : list update) (s : storedState) : storedState :=
  fold_left (λ s u, fst (state_method u sample_time s)) us s.

Definition sample_state : storedState :=
  fst (state.saveOperation (sample_op StatusCompleted)
         (run_updates sample_updates (newStoredState "s1" sample_time))).

Lemma built_step u t s :
  built s → len (stored.Items s) <? 2 ^ 64 - 1 = true → is_ok (snd (state_method u t s)) = true →
  built (fst (state_method u t s)).
Proof.
  intros Hs Hc%Z.ltb_lt Hok. destruct (state_method u t s) as [s' [[]| |]] eqn:E; [|done|done].
  by eapply built_update.
Qed.

Lemma built_saved v s :
  built s → is_ok (snd (state.saveOperation v s)) = true → built (fst (state.saveOperation v s)).
Proof.
  intros Hs Hok. destruct (state.saveOperation v s) as [s' [[]| |]] eqn:E; [|done|done].
  by eapply built_save.
Qed.

Lemma sample_built : built sample_state.
Proof.
  apply built_saved; [|vm_compute; reflexivity].
  unfold sample_updates, run_updates. cbn [fold_left].
  do 5 (apply built_step; [|vm_compute; reflexivity|vm_compute; reflexivity]).
  apply built_new.
Qed.

Lemma stored_history_wf_witness :
  built sample_state ∧ length (stored.Items sample_state) = 5%nat ∧
  (wf_items (stored.Items sample_state) ∧ wf_head (stored.sessionHead' sample_state) (stored.Items sample_state)).
Proof.
  split; [exact sample_built|]. split; [vm_compute; reflexivity|].
  apply stored_history_wf. exact sample_built.
Defined.

Lemma rejected_updates_change_nothing_witness :
  built sample_state ∧ is_ok (snd (state.saveOperation (sample_op StatusFailed) sample_state)) = true ∧
  match state.saveOperation (sample_op StatusFailed) sample_state with
  | (s', Ok _) => ∃ index, saves (stored.sessionHead' sample_state) (sample_op StatusFailed) index ∧
      replaced index (sample_op StatusFailed) sample_state s'
  | (s', Err _) => (∀ index, ¬ saves (stored.sessionHead' sample_state) (sample_op StatusFailed) index) ∧ s' = sample_state
  | (_, Panic _) => False
  end.
Proof.
  split; [exact sample_built|]. split; [vm_compute; reflexivity|].
  pose proof (rejected_updates_change_nothing (UpdateTurn (turn.Mk "t3" "t2" TurnRegular)) (sample_op StatusFailed)
    sample_time sample_state) as [_ H].
  exact (H sample_built).
Defined.

Lemma resume_exact_witness :
  ∃ r, resume sample_state = Ok r ∧
    resumed.ExternalInputIDs r = omap external_id (stored.Items sample_state) ∧
    sublist (resumed.Operations r) (head.Operations (stored.sessionHead' sample_state)) ∧
    ∀ o, o ∈ resumed.Operations r ↔
      o ∈ head.Operations (stored.sessionHead' sample_state) ∧ unfinished (stored.Items sample_state) o.
Proof. apply resume_exact. exact sample_built. Defined.

Lemma fork_prefix_witness :
  is_ok (forkStoredState sample_state "s2" "t1" sample_time) = true ∧
  ((∀ e, forkStoredState sample_state "s2" "t1" sample_time = Err e →
      "t1" ∉ head.turns (stored.sessionHead' sample_state)) ∧
   (∀ p, forkStoredState sample_state "s2" "t1" sample_time ≠ Panic p) ∧
   ∀ s, forkStoredState sample_state "s2" "t1" sample_time = Ok s →
    (∃ n, stored.Items s = (strip_item <$> take n (stored.Items sample_state)) ++
            [fork_item (Z.of_nat n + 1) (head_id (stored.sessionHead' sample_state)) "t1" sample_time]) ∧
    head.latestTurnID (stored.sessionHead' s) = "t1" ∧
    ∃ r, resume s = Ok r ∧ resumed.Operations r = []).
Proof.
  split; [vm_compute; reflexivity|]. apply fork_prefix; [exact sample_built|vm_compute; reflexivity].
Defined.
