(* ===== verification/SessionRecovery.v ===== *)
(** * The coordinator on the local store

    The history that the coordinator loads page by page from the local store
    is the whole session, in order and once; a process that takes a session
    over continues where the one before it was. *)

From Stdlib Require Import Ascii ZArith Lia.
From S2P Require Import Prelude StateLogic GoStrings GoText Json JsonCodec GoTime Primitives.
From S2P Require Import Operation Llm Inbox Tool ContextBuilder SessionStore.
From S2P Require Import LocalState LocalStore LocalStateFacts.
From S2P Require Import Coordinator CoordinatorSamples CoordinatorFacts CoordinatorReplay.

Local Open Scope Z_scope.

#[local] Arguments Validate : simpl never.
#[local] Arguments DecodeControlMessage : simpl never.

Section Paging.
Context {B : Type} `{!ContextBuilder B} (env : environment).

(** Restoring one item, with its position in the error. *)
Definition restore_named (i : SItem) : M (loopState B) unit := λ s,
  let '(s', r) := restoreItem env i s in
  (s', map_err (Errorf_w ("load session item " +:+ Itoa (sitem.Sequence' i) +:+ ": ")) r).

Definition numbered (items : list SItem) : Prop :=
  ∀ n i, items !! n = Some i → sitem.Sequence' i = Z.of_nat n + 1.

(** The bounds of a page fit a uint64. *)
Definition pageable (items : list SItem) : Prop := len items + historyPageSize < 2 ^ 64.

Lemma page_of_at items k :
  pageable items → (k ≤ length items)%nat →
  page_of items (Z.of_nat k) historyPageSize =
    let items' := take 256 (drop k items) in
    Ok (page.Mk items' (match last items' with Some i => sitem.Sequence' i | None => Z.of_nat k end)
          (bool_decide (k + 256 < length items)%nat)).
Proof.
  unfold pageable, historyPageSize, page_of, len. intros Hp Hk. rewrite (Z.min_l (Z.of_nat k)) by lia.
  rewrite wrap_uint64_small by lia.
  destruct (decide (k + 256 < length items)%nat) as [Hlt|Hge].
  - rewrite (Z.min_l (Z.of_nat k + 256)) by lia. rewrite bool_decide_true by done.
    destruct (Z.ltb_spec (Z.of_nat k + 256) (Z.of_nat k)); [lia|].
    replace (Z.to_nat (Z.of_nat k + 256 - Z.of_nat k)) with 256%nat by lia. rewrite Nat2Z.id.
    by destruct (Z.ltb_spec (Z.of_nat k + 256) (Z.of_nat (length items))); [|lia].
  - rewrite (Z.min_r (Z.of_nat k + 256)) by lia. rewrite bool_decide_false by done.
    destruct (Z.ltb_spec (Z.of_nat (length items)) (Z.of_nat k)); [lia|]. rewrite Nat2Z.id, Z.ltb_irrefl.
    rewrite (take_ge (drop k items) 256) by (rewrite length_drop; lia).
    by rewrite (take_ge (drop k items)) by (rewrite length_drop; lia).
Qed.

Lemma last_page_sequence items k :
  numbered items → (k + 256 < length items)%nat →
  match last (take 256 (drop k items)) with Some i => sitem.Sequence' i | None => Z.of_nat k end
  = Z.of_nat (k + 256).
Proof.
  intros Hn Hk. rewrite last_lookup, length_take, length_drop, Nat.min_l by lia.
  rewrite lookup_take_lt by lia. rewrite lookup_drop.
  destruct (lookup_lt_is_Some_2 items (k + Nat.pred 256)) as [i Hi]; [simpl; lia|].
  rewrite Hi, (Hn _ _ Hi). simpl. lia.
Qed.

(** Running a loop over two parts of a list. *)
Lemma for_each_app {S A} (f : A → M S unit) xs ys (s : S) :
  for_each f (xs ++ ys) s = (for_each f xs ≫= λ _, for_each f ys) s.
Proof.
  revert s. induction xs as [|x xs IH]; intros s; [done|]. simpl. unfold mbind, M_bind in *.
  destruct (f x s) as [s' [[]|e|t]]; [apply IH|done..].
Qed.

Definition loaded {S} (m : M S unit) : M S (option unit) := λ s,
  let '(s', r) := m s in (s', (λ _, Some tt) <$> r).

Lemma loadHistory_pages items fuel k s :
  numbered items → pageable items → (k ≤ length items)%nat → (length items - k ≤ 256 * fuel)%nat → (0 < fuel)%nat →
  loadHistory env (page_of items) fuel (Z.of_nat k) s = loaded (for_each restore_named (drop k items)) s.
Proof.
  intros Hn Hp. revert k s. induction fuel as [|fuel IH]; intros k s Hk Hf H0; [lia|].
  cbn [loadHistory]. unfold mbind, M_bind, lift. rewrite page_of_at by done. cbv zeta. cbn [map_err page.Items page.More page.NextAfter].
  fold restore_named. unfold loaded. destruct (decide (k + 256 < length items)%nat) as [Hlt|Hge].
  - rewrite bool_decide_true, last_page_sequence by done.
    rewrite <- (take_drop 256 (drop k items)) at 2. rewrite for_each_app. unfold mbind, M_bind.
    destruct (for_each restore_named (take 256 (drop k items)) s) as [s1 [[]|e|t]]; [|done..].
    cbn [negb]. destruct (Z.leb_spec (Z.of_nat (k + 256)) (Z.of_nat k)); [lia|].
    rewrite IH by lia. by rewrite drop_drop.
  - rewrite bool_decide_false by done. rewrite (take_ge (drop k items)) by (rewrite length_drop; lia).
    by destruct (for_each restore_named (drop k items) s) as [s1 [[]|e|t]].
Qed.

(** The coordinator replays the whole history, in order and once.  Loading
    the pages of a numbered history does exactly what adding its items one by
    one does, failures included: no page is skipped or read twice, and the
    loop ends after one page more than there are full ones. *)
Theorem history_replayed_exactly items fuel s :
  numbered items → pageable items → (length items ≤ 256 * fuel)%nat → (0 < fuel)%nat →
  loadHistory env (page_of items) fuel BeforeFirst s = loaded (for_each restore_named items) s.
Proof.
  intros Hn Hp Hf H0. change BeforeFirst with (Z.of_nat 0). rewrite loadHistory_pages by (done || lia).
  by rewrite drop_0.
Qed.

Lemma loadHistory_built st fuel s :
  built st → pageable (stored.Items st) → (length (stored.Items st) ≤ 256 * fuel)%nat → (0 < fuel)%nat →
  loadHistory env (page_of (stored.Items st)) fuel BeforeFirst s =
    loaded (for_each restore_named (stored.Items st)) s.
Proof.
  intros Hb Hp Hf H0. change BeforeFirst with (Z.of_nat 0). rewrite loadHistory_pages by (done || lia || exact (items_sequence _ (proj1 (built_wf _ Hb)))).
  by rewrite drop_0.
Qed.

(** ** Taking a session over *)

(** The same items but for the number and the time that the store adds. *)
Definition same_records (l1 l2 : list SItem) : Prop :=
  Forall2 (λ i j, sitem.Kind i = sitem.Kind j ∧ sitem.Data i = sitem.Data j) l1 l2.

Lemma restoreItem_same i j s :
  sitem.Kind i = sitem.Kind j → sitem.Data i = sitem.Data j → restoreItem env i s = restoreItem env j s.
Proof. intros Hk Hd. unfold restoreItem, addItemToLocalState. by rewrite Hk, Hd. Qed.

Lemma restore_named_same l1 l2 (s s' : loopState B) :
  same_records l1 l2 → for_each (restoreItem env) l2 s = (s', Ok tt) → for_each restore_named l1 s = (s', Ok tt).
Proof.
  intros H. revert s. induction H as [|i j l1 l2 [Hk Hd] _ IH]; intros s; [done|]. simpl. unfold mbind, M_bind.
  unfold restore_named at 1. rewrite (restoreItem_same i j s Hk Hd).
  destruct (restoreItem env j s) as [s1 [[]|e|t]]; [apply IH|done..].
Qed.

(** C26: A session can be taken over.  When the store holds what a coordinator
    stored, on top of what it was restored from, a new coordinator that loads
    the session from the store reaches the local state of the first one: the
    same turn, open tool calls, input accounting and context. *)
Theorem takeover_resumes st fuel b history restored c :
  (∀ name t, resolve env name = Some t → translates t) →
  built st → pageable (stored.Items st) → (length (stored.Items st) < 256 * fuel)%nat →
  alive env b history restored c →
  same_records (stored.Items st) (history ++ appended (trace c)) →
  ∃ s, loadHistory env (page_of (stored.Items st)) fuel BeforeFirst (newLoopState b) = (s, Ok (Some tt)) ∧
    same_core (state c) s.
Proof.
  intros Hl Hb Hp Hf (s & Hl' & Hc)%alive_mirror%proj1 Hsame; [|done]. exists s. split; [|done].
  rewrite loadHistory_built by (done || lia). unfold loaded.
  by rewrite (restore_named_same _ _ _ _ Hsame (sound_log_replays _ _ _ _ Hl')).
Qed.
End Paging.

(** ** The sample session is taken over *)

(** What LocalStore's Append... methods do with an item. *)
Definition item_update (i : SItem) : option update :=
  match sitem.Data i with
  | StoreInput x => Some (UpdateInput x)
  | StoreTurn t => Some (UpdateTurn t)
  | StoreModelResponse r => Some (UpdateResponse r)
  | StoreToolCallStatus s => Some (UpdateStatus (tcs.set_operations [] s) (tcs.Operations s))
  | _ => None
  end.

Definition sample_stored : storedState :=
  run_updates (omap item_update (appended (trace sample_running))) (newStoredState "s1" sample_time).

Fixpoint all_admitted (us : list update) (s : storedState) : bool :=
  match us with
  | [] => true
  | u :: us => (len (stored.Items s) <? 2 ^ 64 - 1) && is_ok (snd (state_method u sample_time s))
               && all_admitted us (fst (state_method u sample_time s))
  end.

Lemma built_run us s : all_admitted us s = true → built s → built (run_updates us s).
Proof.
  unfold run_updates. revert s. induction us as [|u us IH]; intros s H Hs; [done|].
  cbn [all_admitted] in H. apply andb_true_iff in H as [[H1 H2]%andb_true_iff H3].
  simpl. apply IH; [done|]. by apply built_step.
Qed.

Lemma sample_stored_built : built sample_stored.
Proof. apply built_run; [vm_compute; reflexivity|apply built_new]. Qed.

Lemma history_replayed_exactly_witness :
  loadHistory sample_env (page_of (stored.Items sample_stored)) 1 BeforeFirst (newLoopState (NewBuilder [])) =
    loaded (for_each (restore_named sample_env) (stored.Items sample_stored)) (newLoopState (NewBuilder [])).
Proof.
  assert (numbered (stored.Items sample_stored)) as Hn
    by exact (items_sequence _ (proj1 (built_wf _ sample_stored_built))).
  assert (pageable (stored.Items sample_stored)) as Hp by (vm_compute; reflexivity).
  assert (length (stored.Items sample_stored) = 4%nat) as Hlen by (vm_compute; reflexivity).
  exact (history_replayed_exactly sample_env _ 1 _ Hn Hp ltac:(rewrite Hlen; lia) ltac:(lia)).
Defined.

Lemma sample_same_records : same_records (stored.Items sample_stored) ([] ++ appended (trace sample_running)).
Proof. vm_compute. repeat constructor. Qed.

Lemma takeover_resumes_witness :
  ∃ s, loadHistory sample_env (page_of (stored.Items sample_stored)) 1 BeforeFirst (newLoopState (NewBuilder []))
         = (s, Ok (Some tt)) ∧ same_core (state sample_running) s.
Proof.
  assert (pageable (stored.Items sample_stored)) as Hp by (vm_compute; reflexivity).
  assert (length (stored.Items sample_stored) = 4%nat) as Hlen by (vm_compute; reflexivity).
  exact (takeover_resumes sample_env sample_stored 1 (NewBuilder []) [] [] sample_running sample_lawful
           sample_stored_built Hp ltac:(rewrite Hlen; lia) sample_running_alive sample_same_records).
Defined.
