(* ===== verification/GuiRun.v ===== *)
(** * Preparing a run: gui/chat.go (prepareRun), gui/app.go (skills)

    What a chat puts together before its coordinator starts: the workspace,
    the restored session, the client of the provider, the tools and skills,
    the context builder with its system prompt, and the inbox, which is given
    the settings, the pending messages and last the order to stop when idle.
    The file system, the store and the client's constructor are arguments. *)

From Stdlib Require Import Ascii ZArith Lia.
From S2P Require Import Prelude GoStrings GoText TextFacts Json JsonCodec JsonFacts GoTime Operation.
From S2P Require Import Llm Inbox RunInputs Tool Registry BashTool ViewImageTool ContextBuilder SessionStore.
From S2P Require Import Approvals GuiConfig StateLogic.

Local Open Scope Z_scope.

Module meta.
Record SessionMeta : Set := Mk {
  ID : SessionID; Title : string; Workspace : string; CreatedAt : Time; UpdatedAt : Time }.
End meta.
Abbreviation SessionMeta := meta.SessionMeta.

#[export] Instance SessionMeta_eq_dec : EqDecision SessionMeta. Proof. solve_decision. Defined.

(** ** Skills *)

(** [app.skills]: those of the workspace, then the built-in ones whose names
    they do not have. *)
Definition app_skills (workspace builtin : list Skill) : list Skill :=
  fold_left (λ skills skill,
    if existsb (λ s, bool_decide (skill.Name s = skill.Name skill)) skills then skills
    else skills ++ [skill]) builtin workspace.

(** ** The system prompt *)

Definition prompt_head (workspace goos goarch today : string) : string := lines [
  "You are a research and engineering agent working for the user through Unreal Agent GUI. You run directly on the user's computer, not in a sandbox.";
  EmptyString;
  "## Environment";
  "- Workspace: " +:+ workspace +:+ ". Bash starts here. Save deliverables here; the user previews workspace files in the GUI's Files panel.";
  "- Files the user attaches are saved under uploads/ in the workspace.";
  "- Host: " +:+ goos +:+ "/" +:+ goarch +:+ ". Today is " +:+ today +:+ ".";
  EmptyString;
  "## Guidelines";
  "- Load the matching skill before specialized work: web-research for anything current, factual, or cited; documents for PDFs, Office files, and reports; github for GitHub.";
  EmptyString].

Definition prompt_search : string := lines [
  "- You also have a native web_search tool. Use it for discovery, and the web-research skill's fetch command to read full pages.";
  EmptyString].

Definition prompt_rules : string := lines [
  "- Look at attached or generated images with ViewImage.";
  "- Cite web sources as markdown links. Link workspace files by relative path, like [report.md](report.md), so the user can click to preview them.";
  "- Ask before destructive or outward-facing actions: deleting or overwriting the user's files, pushing code, publishing, or sending messages on the user's behalf.";
  "- Never read, print, or send API keys, tokens, or the Unreal Agent settings folder (~/Library/Application Support/unreal-agent-gui), and never commit secrets.";
  "- Shell commands may wait for the user's approval. Continue with independent work meanwhile; if the user declines one, do not retry it unchanged.";
  "- Reply in GitHub-flavored markdown. Keep final answers concise and lead with the result.";
  EmptyString].

(** [host] are runtime.GOOS, runtime.GOARCH and the date as it is written. *)
Definition systemPrompt (host : string * string * string) (workspace instructions : string) (hostedSearch : bool)
    : string :=
  let '(goos, goarch, today) := host in
  prompt_head workspace goos goarch today
  +:+ (if hostedSearch then prompt_search else EmptyString)
  +:+ prompt_rules
  +:+ (if negb (blank_string instructions) then
         newline +:+ "## User instructions" +:+ newline +:+ instructions +:+ newline
       else EmptyString).

(** ** Inputs *)

Definition controlInput (id : InputID) (m : ControlMessage) : result Input :=
  payload ← map_err (Errorf_w "encode control message: ") (Marshal_control m);
  Ok (input.Mk id InputControl payload).


(** [for _, input := range inputs { if err := in.Submit(ctx, input); ... }]:
    nobody reads from the inbox yet. *)
Fixpoint submit_all (ctx : option error) (inputs : list Input) (s : Inbox) : result Inbox :=
  match inputs with
  | [] => Ok s
  | i :: rest =>
    i ← map_err (Errorf_w "submit input: ") (Inbox.Submit ctx ctx i);
    submit_all ctx rest (Inbox.run (Inbox.Received i) s)
  end.

(** ** The run *)

(** What happens outside, in order. *)
Inductive run_effect : Type :=
  | EMkdirAll (path : string)
  | EConnect
  | EClose.

Record run_env (C : Type) : Type := MkRunEnv {
  env_config : Config;
  env_system : system;
  env_session : SessionID → option SessionMeta;
  env_data : string;                          (* app.dataDir *)
  env_mkdir : string → option error;
  env_resume : result ResumeState;
  env_client : client_kind → string → string → result C;
  env_close : option error;
  env_skills : string → list Skill;           (* app.skills *)
  env_skill_id : nat → RegistrationID;
  env_input_id : nat → InputID;
  env_host : string * string * string;
  env_ctx : option error;                     (* context.Cause(ctx) *)
}.
Arguments MkRunEnv {C}.
Arguments env_config {C}.
Arguments env_system {C}.
Arguments env_session {C}.
Arguments env_data {C}.
Arguments env_mkdir {C}.
Arguments env_resume {C}.
Arguments env_client {C}.
Arguments env_close {C}.
Arguments env_skills {C}.
Arguments env_skill_id {C}.
Arguments env_input_id {C}.
Arguments env_host {C}.
Arguments env_ctx {C}.

Record preparedRun (C : Type) : Type := MkPrepared {
  run_registry : registry;
  run_builder : builder;
  run_restored : ResumeState;
  run_client : C;
  run_inbox : Inbox;
  run_gate : gate;
}.
Arguments MkPrepared {C}.
Arguments run_registry {C}.
Arguments run_builder {C}.
Arguments run_restored {C}.
Arguments run_client {C}.
Arguments run_inbox {C}.
Arguments run_gate {C}.

Section Prepare.
Context {C : Type} (env : run_env C).

Definition does (e : run_effect) : M (list run_effect) unit := modify (λ l, l ++ [e]).

Definition from_option {A} (o : option A) (e : error) : M (list run_effect) A :=
  match o with Some a => mret a | None => fail e end.

Definition wrapped {A} (prefix : string) (r : result A) : M (list run_effect) A :=
  lift (map_err (Errorf_w prefix) r).

Definition mkdir (prefix path : string) : M (list run_effect) unit :=
  _ ← does (EMkdirAll path);
  match env_mkdir env path with Some e => fail (Errorf_w prefix e) | None => mret tt end.

(** [errors.Join(err, llmClient.Close())] when a step fails. *)
Definition or_close {A} (r : result A) : M (list run_effect) A :=
  match r with
  | Ok a => mret a
  | Err e =>
    _ ← does EClose;
    fail (match env_close env with Some e' => errors_Join e e' | None => e end)
  | Panic t => lift (Panic t)
  end.

Fixpoint register_skills (n : nat) (skills : list Skill) (r : registry) : result registry :=
  match skills with
  | [] => Ok r
  | s :: rest =>
    match RegisterSkill s (env_skill_id env n) r with
    | (r, Ok _) => register_skills (S n) rest r
    | (_, Err e) => Err (Errorf_w ("register skill " +:+ quote (skill.Name s) +:+ ": ") e)
    | (_, Panic t) => Panic t
    end
  end.

Definition shell_path : string :=
  let shell := TrimSpace (getenv (env_system env) "SHELL") in
  if blank_string shell then "/bin/sh" else shell.

Definition new_registry (workspace operationDir : string) : registry :=
  NewRegistry (statics.Mk (Some (bash_New (bash_config.Mk shell_path workspace operationDir)))
                 (Some (view_New (view_config.Mk workspace (vconfig.Mk 0 0 0 0)))))
    [BashName; ViewImageName; SkillUseName].

Definition reasoning_effort (cfg : Config) : ReasoningEffort :=
  if Valid (config.Thinking cfg) then config.Thinking cfg else ReasoningEffortHigh.

Definition hosted_search (cfg : Config) (p : provider) : bool := config.WebSearch cfg && provider.HostedSearch p.

Definition new_builder (cfg : Config) (p : provider) (workspace : string) (r : registry) : builder :=
  let b := NewBuilder (Skills r) in
  let b := SetModel (model.Mk (model_of p cfg) None (reasoning_effort cfg)) b in
  let b := SetSystemPrompt (systemPrompt (env_host env) workspace (config.Instructions cfg) (hosted_search cfg p)) b in
  let b := fold_left (λ b d, AddTool (definition.Tool d) b) (StaticDefinitions r) b in
  if hosted_search cfg p then AddTool (ltool.Mk ToolHosted "web_search" EmptyString JNull) b else b.

Definition new_inbox (cfg : Config) (restored : ResumeState) (inputs : list Input) : result Inbox :=
  inbox ← map_err (Errorf_w "open inbox: ") (Inbox.New (resumed.ExternalInputIDs restored));
  settings ← controlInput (env_input_id env 0%nat) (settings_message (reasoning_effort cfg));
  stopWhenIdle ← controlInput (env_input_id env 1%nat) stop_message;
  submit_all (env_ctx env) ([settings] ++ inputs ++ [stopWhenIdle]) inbox.

Definition prepareRun (id : SessionID) (inputs : list Input) : M (list run_effect) (preparedRun C) :=
  let cfg := env_config env in
  meta ← from_option (env_session env id) (errors_New ("unknown session " +:+ id));
  p ← from_option (selectedProvider (env_system env) cfg)
        (errors_New "add an API key in Settings to choose a model provider");
  _ ← (if blank_string (model_of p cfg) then
         fail (errors_New ("choose a " +:+ provider.Label p +:+ " model in the toolbar"))
       else mret tt);
  _ ← mkdir "create workspace: " (meta.Workspace meta);
  restored ← wrapped "resume session: " (env_resume env);
  let operationDir := filepath.Join [filepath.Join [env_data env; "operations"]; id] in
  _ ← mkdir "create operation directory: " operationDir;
  llmClient ← lift (connect (env_system env) (env_client env) p cfg);
  _ ← does EConnect;
  registry ← or_close (register_skills 0 (env_skills env (meta.Workspace meta))
                         (new_registry (meta.Workspace meta) operationDir));
  let builder := new_builder cfg p (meta.Workspace meta) registry in
  inbox ← or_close (new_inbox cfg restored inputs);
  mret (MkPrepared registry builder restored llmClient inbox newApprovalGate).

End Prepare.

(** ** What a run starts with *)

Lemma submit_all_ok ctx inputs s s' :
  submit_all ctx inputs s = Ok s' → s' = run_all (Inbox.Received <$> inputs) s.
Proof.
  revert s. induction inputs as [|i inputs IH]; intros s H; simpl in H; [by injection H as <-|].
  apply bind_ok in H as (i' & Hi & H). apply map_err_ok in Hi.
  apply Submit_same in Hi as ->. by apply IH.
Qed.

Lemma new_inbox_of {C} (env : run_env C) cfg restored inputs s :
  new_inbox env cfg restored inputs = Ok s →
  ∃ settings stop,
    controlInput (env_input_id env 0) (settings_message (reasoning_effort cfg)) = Ok settings ∧
    controlInput (env_input_id env 1) stop_message = Ok stop ∧
    inbox_of (resumed.ExternalInputIDs restored) ([settings] ++ inputs ++ [stop]) s.
Proof.
  unfold new_inbox. intros H. apply bind_ok in H as (s0 & Hs0%map_err_ok & H).
  apply bind_ok in H as (settings & H1 & H). apply bind_ok in H as (stop & H2 & H).
  exists settings, stop. split; [done|]. split; [done|].
  apply submit_all_ok in H. subst s. by apply New_received.
Qed.

(** *** The client is not leaked *)

#[export] Instance run_effect_eq_dec : EqDecision run_effect. Proof. solve_decision. Defined.

Definition occurs (e : run_effect) (l : list run_effect) : nat := length (filter (λ x, x = e) l).

Definition open_clients (l : list run_effect) : Z := Z.of_nat (occurs EConnect l) - Z.of_nat (occurs EClose l).

Lemma open_clients_snoc l e :
  open_clients (l ++ [e]) = open_clients l + (match e with EConnect => 1 | EClose => -1 | _ => 0 end).
Proof. unfold open_clients, occurs. rewrite !filter_app, !length_app. destruct e; simpl; lia. Qed.


Section PrepareFacts.
Context {C : Type} (env : run_env C).

Lemma wp_mkdir prefix path n (Q : unit → list run_effect → Prop) l :
  open_clients l = n → (∀ l', open_clients l' = n → Q tt l') →
  wp (mkdir env prefix path) Q (λ l', open_clients l' = n) l.
Proof.
  intros Hl HQ. assert (open_clients (l ++ [EMkdirAll path]) = n) as Hn by (rewrite open_clients_snoc; lia).
  unfold mkdir, does. apply wp_bind, wp_modify. destruct (env_mkdir env path); [by apply wp_fail|].
  apply wp_ret. auto.
Qed.

Lemma wp_or_close_client {A} (r : result A) n (Q : A → list run_effect → Prop) (E : list run_effect → Prop) l :
  open_clients l = n → returns r = true → (∀ a, r = Ok a → Q a l) → (∀ l', open_clients l' = n - 1 → E l') →
  wp (or_close env r) Q E l.
Proof.
  intros Hl Hr HQ HE. unfold or_close. destruct r as [a|e|t]; [apply wp_ret; auto| |done].
  unfold does. apply wp_bind, wp_modify, wp_fail, HE. rewrite open_clients_snoc. lia.
Qed.

Lemma register_skills_returns n skills r : returns (register_skills env n skills r) = true.
Proof.
  revert n r. induction skills as [|s skills IH]; intros n r; [done|]. simpl.
  assert (returns (snd (RegisterSkill s (env_skill_id env n) r)) = true) as Hr.
  { unfold RegisterSkill. assert (returns (validateSkill s) = true) as Hv by (unfold validateSkill; go_returns).
    destruct (validateSkill s); [|done|done]. by repeat if_goal. }
  destruct (RegisterSkill s _ r) as [r' [a|e|t]]; [apply IH|done|done].
Qed.

Lemma submit_all_returns ctx inputs s : returns (submit_all ctx inputs s) = true.
Proof.
  revert s. induction inputs as [|i inputs IH]; intros s; [done|]. simpl. apply returns_bind; [|auto].
  unfold Inbox.Submit, Validate, DecodeControlMessage, Unmarshal_strict. go_returns.
Qed.

Lemma mark_seen_returns ids s : returns (mark_seen ids s) = true.
Proof. revert s. induction ids as [|id ids IH]; intros s; simpl; [done|]. by case_bool_decide. Qed.

Lemma new_inbox_returns cfg restored inputs : returns (new_inbox env cfg restored inputs) = true.
Proof.
  unfold new_inbox, controlInput, Marshal_control, Inbox.New.
  pose proof mark_seen_returns as Hm. pose proof submit_all_returns as Hs. go_returns.
Qed.

(** What the caller of [prepareRun] may rely on. *)
Definition run_ready (id : SessionID) (inputs : list Input) (run : preparedRun C) : Prop :=
  ∃ meta p settings stop,
    env_session env id = Some meta ∧ selectedProvider (env_system env) (env_config env) = Some p ∧
    env_resume env = Ok (run_restored run) ∧
    run_gate run = newApprovalGate ∧
    controlInput (env_input_id env 0) (settings_message (reasoning_effort (env_config env))) = Ok settings ∧
    controlInput (env_input_id env 1) stop_message = Ok stop ∧
    inbox_of (resumed.ExternalInputIDs (run_restored run)) ([settings] ++ inputs ++ [stop]) (run_inbox run).

Lemma prepareRun_wp id inputs l :
  wp (prepareRun env id inputs)
    (λ run l', run_ready id inputs run ∧ open_clients l' = open_clients l + 1)
    (λ l', open_clients l' = open_clients l) l.
Proof.
  unfold prepareRun. cbv zeta. apply wp_bind. unfold from_option at 1.
  destruct (env_session env id) as [meta|] eqn:Hm; [|by apply wp_fail]. apply wp_ret, wp_bind.
  unfold from_option. destruct (selectedProvider _ _) as [p|] eqn:Hp; [|by apply wp_fail]. apply wp_ret, wp_bind.
  destruct (blank_string (model_of p _)); [by apply wp_fail|]. apply wp_ret, wp_bind.
  apply wp_mkdir; [done|]. intros l1 Hl1. apply wp_bind. unfold wrapped. apply wp_lift; [|done].
  intros restored Hr%map_err_ok. apply wp_bind. apply wp_mkdir; [done|]. intros l2 Hl2. apply wp_bind.
  apply wp_lift; [|done]. intros llmClient _. unfold does. apply wp_bind, wp_modify, wp_bind.
  apply (wp_or_close_client _ (open_clients l + 1)); [rewrite open_clients_snoc; lia|apply register_skills_returns| |lia].
  intros registry Hreg. apply wp_bind.
  apply (wp_or_close_client _ (open_clients l + 1)); [rewrite open_clients_snoc; lia|apply new_inbox_returns| |lia].
  intros inbox Hi. apply wp_ret. split; [|rewrite open_clients_snoc; lia].
  destruct (new_inbox_of _ _ _ _ _ Hi) as (settings & stop & H1 & H2 & H3).
  by exists meta, p, settings, stop.
Qed.
End PrepareFacts.

Lemma reasoning_effort_valid cfg : Valid (reasoning_effort cfg) = true.
Proof. unfold reasoning_effort. by destruct (Valid (config.Thinking cfg)) eqn:E. Qed.

Lemma controlInput_decodes id m i : well_formed m → controlInput id m = Ok i → DecodeControlMessage i = Ok m.
Proof.
  intros Hwf H. apply bind_ok in H as (v & Hv%map_err_ok & [= <-]). by apply DecodeControl_marshalled.
Qed.

(** C36: A run is prepared in full or not at all: when [prepareRun] succeeds, for
    a session that is known and a provider that can be used, the session was
    restored, nothing waits for approval, one client was opened and is open,
    and the inbox holds, in this order, the settings, the pending messages that
    the session does not have yet, each once, and last the order to stop when
    idle; when it fails, whatever the reason, no client is left open. *)
Theorem run_prepared_or_nothing {C} (env : run_env C) id inputs :
  let '(effects, r) := prepareRun env id inputs [] in
  match r with
  | Ok run =>
    (∃ meta p, env_session env id = Some meta ∧ selectedProvider (env_system env) (env_config env) = Some p) ∧
    env_resume env = Ok (run_restored run) ∧ run_gate run = newApprovalGate ∧
    (∃ settings stop,
      DecodeControlMessage settings = Ok (settings_message (reasoning_effort (env_config env))) ∧
      DecodeControlMessage stop = Ok stop_message ∧
      delivered (run_inbox run) = [] ∧
      queued (run_inbox run)
      = fresh_inputs (list_to_set (resumed.ExternalInputIDs (run_restored run))) ([settings] ++ inputs ++ [stop])) ∧
    open_clients effects = 1
  | _ => open_clients effects = 0
  end.
Proof.
  pose proof (prepareRun_wp env id inputs []) as H. unfold wp in H.
  destruct (prepareRun env id inputs []) as [effects [run|e|t]]; [|done..].
  destruct H as [(meta & p & settings & stop & H1 & H2 & H3 & H4 & H5 & H6 & [H7 H8 H9 H10]) H11].
  split; [eauto|]. split; [done|]. split; [done|]. split; [|done].
  exists settings, stop. split; [|split; [|done]]; eapply controlInput_decodes; try eassumption.
  - right. split; [done|]. eexists. split; [reflexivity|apply reasoning_effort_valid].
  - left. split; [right; by left|done].
Qed.
