(* ===== verification/Chat.v ===== *)
(** * Chats: gui/chat.go

    The state of one chat, shared by the handlers of the server, the goroutine
    that runs its coordinator and the observer of the store.  Every method
    holds the mutex while it runs, so a step of the model is one method; the
    steps of the coordinator are those that the chat can see: it takes an
    input from its inbox and stores it, it stores another item, it submits a
    heartbeat, it returns.  [history] is what the store holds of the session. *)

From Stdlib Require Import Ascii ZArith Sorted Lia.
From S2P Require Import Prelude StateLogic GoStrings GoText Json JsonCodec GoTime Operation.
From S2P Require Import Llm Inbox Tool SessionStore LocalState LocalStore SessionRecovery.
From S2P Require Import Approvals GuiConfig RunInputs GuiRun.

Local Open Scope Z_scope.

Module citem.
Record storedItem : Type := Mk { seq : Z; data : value }.
End citem.
Abbreviation storedItem := citem.storedItem.

(** The events of a chat: an item, or the status as its handler writes it. *)
Inductive chat_event : Type :=
  | EvItem (i : storedItem)
  | EvStatus (running : bool) (error : string) (approvals : list pendingApproval).

(** A channel of [subscribe] with what was sent on it: the part that its
    handler has received, then the part in the buffer. *)
Record subscriber : Type := MkSubscriber {
  sub_after : Z;
  sub_backlog : list storedItem;
  sub_status : chat_event;
  received : list chat_event;
  buffer : list chat_event;
  sub_open : bool;          (* in c.subs; a channel leaves it when it is closed *)
}.

Definition capacity : Z := 512.

(** Where the goroutine of a run is: in Run, or past it with its error. *)
Inductive stage : Type :=
  | Coordinating
  | Returned (err : option error).

Record chat : Type := MkChat {
  items : list storedItem;
  subs : gmap nat subscriber;
  running : bool;
  stopped : bool;
  inbox_ : option Inbox;
  canceled : bool;              (* c.ctx is done *)
  pending : list Input;
  lastErr : string;
  gate_ : option gate;
  history : list SItem;
  goroutine : option stage;
  clients : Z;                  (* clients that are open *)
  accepted : list Input;        (* what send took *)
  dropped : list Input;         (* what a stop threw away *)
}.

Definition set_items (l : list storedItem) (c : chat) : chat :=
  MkChat l (subs c) (running c) (stopped c) (inbox_ c) (canceled c) (pending c) (lastErr c) (gate_ c)
    (history c) (goroutine c) (clients c) (accepted c) (dropped c).
Definition set_subs (m : gmap nat subscriber) (c : chat) : chat :=
  MkChat (items c) m (running c) (stopped c) (inbox_ c) (canceled c) (pending c) (lastErr c) (gate_ c)
    (history c) (goroutine c) (clients c) (accepted c) (dropped c).
Definition set_stopped (b : bool) (c : chat) : chat :=
  MkChat (items c) (subs c) (running c) b (inbox_ c) (canceled c) (pending c) (lastErr c) (gate_ c)
    (history c) (goroutine c) (clients c) (accepted c) (dropped c).
Definition set_inbox (i : Inbox) (c : chat) : chat :=
  MkChat (items c) (subs c) (running c) (stopped c) (Some i) (canceled c) (pending c) (lastErr c) (gate_ c)
    (history c) (goroutine c) (clients c) (accepted c) (dropped c).
Definition set_canceled (c : chat) : chat :=
  MkChat (items c) (subs c) (running c) (stopped c) (inbox_ c) true (pending c) (lastErr c) (gate_ c)
    (history c) (goroutine c) (clients c) (accepted c) (dropped c).
Definition set_pending (l : list Input) (c : chat) : chat :=
  MkChat (items c) (subs c) (running c) (stopped c) (inbox_ c) (canceled c) l (lastErr c) (gate_ c)
    (history c) (goroutine c) (clients c) (accepted c) (dropped c).
Definition set_lastErr (e : string) (c : chat) : chat :=
  MkChat (items c) (subs c) (running c) (stopped c) (inbox_ c) (canceled c) (pending c) e (gate_ c)
    (history c) (goroutine c) (clients c) (accepted c) (dropped c).
Definition set_gate (g : gate) (c : chat) : chat :=
  MkChat (items c) (subs c) (running c) (stopped c) (inbox_ c) (canceled c) (pending c) (lastErr c) (Some g)
    (history c) (goroutine c) (clients c) (accepted c) (dropped c).
Definition set_history (h : list SItem) (c : chat) : chat :=
  MkChat (items c) (subs c) (running c) (stopped c) (inbox_ c) (canceled c) (pending c) (lastErr c) (gate_ c)
    h (goroutine c) (clients c) (accepted c) (dropped c).
Definition set_goroutine (s : option stage) (c : chat) : chat :=
  MkChat (items c) (subs c) (running c) (stopped c) (inbox_ c) (canceled c) (pending c) (lastErr c) (gate_ c)
    (history c) s (clients c) (accepted c) (dropped c).
Definition add_clients (n : Z) (c : chat) : chat :=
  MkChat (items c) (subs c) (running c) (stopped c) (inbox_ c) (canceled c) (pending c) (lastErr c) (gate_ c)
    (history c) (goroutine c) (clients c + n) (accepted c) (dropped c).
Definition accept (i : Input) (c : chat) : chat :=
  MkChat (items c) (subs c) (running c) (stopped c) (inbox_ c) (canceled c) (pending c) (lastErr c) (gate_ c)
    (history c) (goroutine c) (clients c) (accepted c ++ [i]) (dropped c).

(** [c.running, c.stopped = true, false] and the assignments that follow it *)
Definition started (inbox : Inbox) (g : gate) (c : chat) : chat :=
  MkChat (items c) (subs c) true false (Some inbox) false (pending c) (lastErr c) (Some g)
    (history c) (goroutine c) (clients c) (accepted c) (dropped c).

(** [c.running, c.inbox, c.gate = false, nil, nil], and
    [if c.stopped { c.pending = nil }] *)
Definition ended (c : chat) : chat :=
  MkChat (items c) (subs c) false (stopped c) None (canceled c) (if stopped c then [] else pending c)
    (lastErr c) None (history c) None (clients c) (accepted c)
    (if stopped c then dropped c ++ pending c else dropped c).

(** ** Subscribers *)

Definition offer (ev : chat_event) (s : subscriber) : subscriber :=
  if sub_open s then
    if len (buffer s) <? capacity then
      MkSubscriber (sub_after s) (sub_backlog s) (sub_status s) (received s) (buffer s ++ [ev]) true
    else MkSubscriber (sub_after s) (sub_backlog s) (sub_status s) (received s) (buffer s) false
  else s.

Definition broadcastLocked (ev : chat_event) (c : chat) : chat := set_subs (offer ev <$> subs c) c.

Definition statusLocked (c : chat) : chat_event :=
  EvStatus (running c) (lastErr c) (match gate_ c with Some g => list_pending g | None => [] end).

Definition approvalsChanged (c : chat) : chat := broadcastLocked (statusLocked c) c.

(** [sort.Search(n, f)] between [i] and [j] *)
Fixpoint search (fuel : nat) (f : Z → bool) (i j : Z) : Z :=
  match fuel with
  | O => i
  | S fuel =>
    if i <? j then
      let h := Z.shiftr (i + j) 1 in
      if negb (f h) then search fuel f (h + 1) j else search fuel f i h
    else i
  end.

Definition sort_Search (n : nat) (f : Z → bool) : Z := search (S n) f 0 (Z.of_nat n).

(** [c.items[i].seq > after] *)
Definition seq_after (l : list storedItem) (after i : Z) : bool :=
  match l !! Z.to_nat i with Some item => after <? citem.seq item | None => true end.

Definition subscribe (after : Z) (c : chat) : chat :=
  let start := sort_Search (length (items c)) (seq_after (items c) after) in
  set_subs (<[fresh (dom (subs c)) :=
    MkSubscriber after (drop (Z.to_nat start) (items c)) (statusLocked c) [] [] true]> (subs c)) c.

Definition unsubscribe (ch : nat) (c : chat) : chat :=
  set_subs (alter (λ s, MkSubscriber (sub_after s) (sub_backlog s) (sub_status s) (received s) (buffer s) false)
              ch (subs c)) c.

(** The handler of a channel receives. *)
Definition receive (ch : nat) (c : chat) : chat :=
  set_subs (alter (λ s,
    match buffer s with
    | ev :: rest => MkSubscriber (sub_after s) (sub_backlog s) (sub_status s) (received s ++ [ev]) rest (sub_open s)
    | [] => s
    end) ch (subs c)) c.

(** ** Items *)

Definition input_of (i : SItem) : option Input :=
  match sitem.Data i with StoreInput input => Some input | _ => None end.

Definition remove_pending (id : InputID) (c : chat) : chat :=
  set_pending (filter (λ p, input.ID p ≠ id) (pending c)) c.

Definition publish (i : SItem) (c : chat) : chat :=
  match Marshal SItem_codec i with
  | Ok encoded =>
    let stored := citem.Mk (sitem.Sequence' i) encoded in
    let c := set_items (items c ++ [stored]) c in
    let c := match input_of i with Some input => remove_pending (input.ID input) c | None => c end in
    broadcastLocked (EvItem stored) c
  | _ => c
  end.

Fixpoint encode_items (acc : list storedItem) (l : list SItem) : result (list storedItem) :=
  match l with
  | [] => Ok acc
  | i :: rest =>
    encoded ← map_err (Errorf_w ("encode session item " +:+ Itoa (sitem.Sequence' i) +:+ ": "))
                (Marshal SItem_codec i);
    encode_items (acc ++ [citem.Mk (sitem.Sequence' i) encoded]) rest
  end.

(** The loop of [loadHistory]; none when the fuel is used up. *)
Fixpoint load_pages (id : SessionID) (Items : Sequence → Z → result Page) (fuel : nat) (after : Sequence)
    (acc : list storedItem) : option (result (list storedItem)) :=
  match fuel with
  | O => None
  | S fuel =>
    match Items after 256 with
    | Err e => Some (if errors_Is e ErrNotExist then Ok acc
                     else Err (Errorf_w ("load session " +:+ id +:+ ": ") e))
    | Panic t => Some (Panic t)
    | Ok p =>
      match encode_items acc (page.Items p) with
      | Ok acc =>
        if negb (page.More p) || (page.NextAfter p <=? after) then Some (Ok acc)
        else load_pages id Items fuel (page.NextAfter p) acc
      | r => Some r
      end
    end
  end.

(** ** Runs *)

(** The external inputs that the session holds: what [Resume] lists. *)
Definition external_of (i : SItem) : option InputID :=
  match input_of i with
  | Some input => if bool_decide (input.Kind input = InputExternal) then Some (input.ID input) else None
  | None => None
  end.

Definition external_ids (h : list SItem) : list InputID := omap external_of h.

Definition join_opt (e1 e2 : option error) : option error :=
  match e1, e2 with
  | Some a, Some b => Some (errors_Join a b)
  | Some a, None => Some a
  | None, e => e
  end.

Section Methods.
Context {C : Type}.

(** [Resume] reads what the store holds. *)
Definition resumed_env (h : list SItem) (env : run_env C) : run_env C :=
  MkRunEnv (env_config env) (env_system env) (env_session env) (env_data env) (env_mkdir env)
    (match env_resume env with
     | Ok r => Ok (resumed.Mk (resumed.Snapshot' r) (resumed.Operations r) (external_ids h))
     | r => r
     end)
    (env_client env) (env_close env) (env_skills env) (env_skill_id env) (env_input_id env) (env_host env) (env_ctx env).

(** [startLocked]: a new context, the run, and its goroutine. *)
Definition startLocked (id : SessionID) (env : run_env C) : M chat unit :=
  c ← self;
  let '(effects, r) := prepareRun (resumed_env (history c) env) id (pending c) [] in
  _ ← modify (add_clients (open_clients effects));
  match r with
  | Ok run =>
    _ ← modify (started (run_inbox run) (run_gate run));
    _ ← modify (λ c, broadcastLocked (statusLocked c) c);
    modify (set_goroutine (Some Coordinating))
  | Err e => fail e
  | Panic t => lift (Panic t)
  end.

(** [c.inbox.Submit(c.ctx, input)]; the inbox has the same context. *)
Definition submit_input (i : Input) : M chat unit :=
  c ← self;
  match inbox_ c with
  | None => lift (Panic "invalid memory address or nil pointer dereference")
  | Some inbox =>
    let ctx := if canceled c then Some (sentinel_error ErrCanceled) else None in
    i ← lift (Inbox.Submit ctx ctx i);
    modify (set_inbox (Inbox.run (Inbox.Received i) inbox))
  end.

(** The result of a call, which goes on whatever it is. *)
Definition try {S A} (m : M S A) : M S (result A) := λ s, let '(s, r) := m s in (s, Ok r).

Definition send (id : SessionID) (input_id : InputID) (text : string) (env : run_env C) : M chat unit :=
  payload ← lift (Marshal string_codec text);
  let i := input.Mk input_id InputExternal payload in
  _ ← modify (λ c, set_pending (pending c ++ [i]) c);
  _ ← modify (set_lastErr EmptyString);
  c ← self;
  _ ← (if negb (running c) then
         r ← try (startLocked id env);
         match r with
         | Ok _ => mret tt
         | Err e => _ ← modify (remove_pending input_id); fail e
         | Panic t => lift (Panic t)
         end
       else
         r ← try (submit_input i);
         c ← self;
         match r with
         | Ok _ => mret tt
         | Err e => if canceled c then mret tt else fail e
         | Panic t => lift (Panic t)
         end);
  modify (accept i).

Definition retry (id : SessionID) (env : run_env C) : M chat unit :=
  c ← self;
  if running c then mret tt
  else
    _ ← modify (set_lastErr EmptyString);
    startLocked id env.

Definition stop (input_id : InputID) : M chat unit :=
  c ← self;
  if negb (running c) then mret tt
  else if stopped c then modify set_canceled
  else
    _ ← modify (set_stopped true);
    payload ← lift (Marshal_control (control.Mk StopHard "Stopped by the user." None));
    submit_input (input.Mk input_id InputControl payload).

(** [finished]: the run's own error with that of closing its client. *)
Definition finished (id : SessionID) (err : option error) (env : run_env C) : M chat unit :=
  _ ← modify ended;
  _ ← match err with
      | Some e => if errors_Is e ErrCanceled then mret tt else modify (set_lastErr (Error e))
      | None => mret tt
      end;
  c ← self;
  restarted ← (match err, pending c with
               | None, _ :: _ =>
                 r ← try (startLocked id env);
                 match r with
                 | Ok _ => mret true
                 | Err e => _ ← modify (set_lastErr (Error e)); mret false
                 | Panic t => lift (Panic t)
                 end
               | _, _ => mret false
               end);
  if (restarted : bool) then mret tt else modify (λ c, broadcastLocked (statusLocked c) c).

(** ** The goroutine of the run *)

Definition coordinating (c : chat) : bool :=
  match goroutine c with Some Coordinating => true | _ => false end.

(** [coordinator.Run] returned; its context is canceled. *)
Definition return_run (err : option error) : M chat unit :=
  c ← self;
  if coordinating c then
    _ ← modify (set_goroutine (Some (Returned err)));
    modify set_canceled
  else mret tt.

(** What the store makes of an append: done, or failed before or after the
    record was in the file. *)
Inductive stored_outcome : Type :=
  | Stored
  | NotStored (e : error)
  | StoredUnseen (e : error).

Definition next_item (now : Time) (kind : ItemKind) (data : StoreData) (c : chat) : SItem :=
  sitem.Mk (Z.of_nat (length (history c)) + 1) now kind data.

Definition append_item (now : Time) (kind : ItemKind) (data : StoreData) (outcome : stored_outcome) : M chat unit :=
  c ← self;
  let i := next_item now kind data c in
  match Marshal SItem_codec i with
  | Ok _ =>
    match outcome with
    | Stored => _ ← modify (set_history (history c ++ [i])); modify (publish i)
    | NotStored e => return_run (Some e)
    | StoredUnseen e => _ ← modify (set_history (history c ++ [i])); return_run (Some e)
    end
  | Err e => return_run (Some e)
  | Panic t => lift (Panic t)
  end.

(** The coordinator takes the next input from its inbox and stores it. *)
Definition take_input (now : Time) (outcome : stored_outcome) : M chat unit :=
  c ← self;
  match inbox_ c with
  | Some inbox =>
    match queued inbox with
    | i :: _ =>
      if coordinating c then
        _ ← modify (set_inbox (Inbox.run Output inbox));
        append_item now ItemInput (StoreInput i) outcome
      else mret tt
    | [] => mret tt
    end
  | None => mret tt
  end.

(** It stores an item of another kind. *)
Definition store_item (now : Time) (kind : ItemKind) (data : StoreData) (outcome : stored_outcome) : M chat unit :=
  c ← self;
  match data with
  | StoreInput _ => mret tt
  | _ => if coordinating c then append_item now kind data outcome else mret tt
  end.

(** It submits a heartbeat. *)
Definition heartbeat (i : Input) : M chat unit :=
  c ← self;
  if coordinating c && negb (bool_decide (input.Kind i = InputExternal)) then
    _ ← try (submit_input i); mret tt
  else mret tt.

(** The goroutine closes the client and calls [finished]. *)
Definition finish_run (id : SessionID) (env : run_env C) : M chat unit :=
  c ← self;
  match goroutine c with
  | Some (Returned err) =>
    _ ← modify (add_clients (-1));
    finished id (join_opt err (env_close env)) env
  | _ => mret tt
  end.

(** ** The gate of the run *)

Definition is_changed (e : Approvals.effect) : bool := match e with Changed => true | _ => false end.

(** A call of the gate, which reports its changes; [decide] is refused when no
    run has a gate. *)
Definition on_gate (a : Approvals.action) : M chat unit :=
  c ← self;
  match gate_ c with
  | None => fail (errors_New "nothing is waiting for approval")
  | Some g =>
    let '(g', r) := act a g in
    _ ← modify (set_gate g');
    _ ← (if existsb is_changed (drop (length (log g)) (log g')) then modify approvalsChanged else mret tt);
    lift r
  end.

(** ** Steps *)

Inductive chat_action : Type :=
  | CSend (input_id : InputID) (text : string) (env : run_env C)
  | CRetry (env : run_env C)
  | CStop (input_id : InputID)
  | CSubscribe (after : Z)
  | CUnsubscribe (ch : nat)
  | CReceive (ch : nat)
  | CTake (now : Time) (outcome : stored_outcome)
  | CStore (now : Time) (kind : ItemKind) (data : StoreData) (outcome : stored_outcome)
  | CHeartbeat (i : Input)
  | CReturn (err : option error)
  | CFinish (env : run_env C)
  | CAppDone
  | CGate (a : Approvals.action).

Definition chat_step (id : SessionID) (a : chat_action) : M chat unit :=
  match a with
  | CSend input_id text env => send id input_id text env
  | CRetry env => retry id env
  | CStop input_id => stop input_id
  | CSubscribe after => modify (subscribe after)
  | CUnsubscribe ch => modify (unsubscribe ch)
  | CReceive ch => modify (receive ch)
  | CTake now outcome => take_input now outcome
  | CStore now kind data outcome => store_item now kind data outcome
  | CHeartbeat i => heartbeat i
  | CReturn err => return_run err
  | CFinish env => finish_run id env
  | CAppDone => modify (λ c, if running c then set_canceled c else c)
  | CGate a => on_gate a
  end.

(** The identifier that [send] makes is new. *)
Definition admissible (a : chat_action) (c : chat) : Prop :=
  match a with CSend input_id _ _ => input_id ∉ input.ID <$> accepted c | _ => True end.

End Methods.

(** A chat that is opened on a session with this history. *)
Definition opened_chat (items : list storedItem) (h : list SItem) : chat :=
  MkChat items ∅ false false None false [] EmptyString None h None 0 [] [].

(** ** Messages and runs *)

Definition input_ids (h : list SItem) : list InputID := omap (λ i, input.ID <$> input_of i) h.

Record inbox_inv (h : list SItem) (s : Inbox) : Prop := {
  ii_open : closed s = false;
  ii_history : ∀ id, id ∈ external_ids h → id ∈ seen s;
  ii_unique : NoDup (input.ID <$> queued s);
  ii_queued : ∀ i, i ∈ queued s → input.ID i ∈ seen s ∧ input.ID i ∉ external_ids h;
}.

Record chat_inv (c : chat) : Prop := {
  ci_running : running c = bool_decide (is_Some (goroutine c));
  ci_inbox : running c = bool_decide (is_Some (inbox_ c));
  ci_gate : running c = bool_decide (is_Some (gate_ c));
  ci_clients : clients c = if running c then 1 else 0;
  ci_accepted : ∀ i, i ∈ accepted c → i ∈ pending c ∨ i ∈ dropped c ∨ input.ID i ∈ input_ids (history c);
  ci_ids : NoDup (external_ids (history c));
  ci_queue : ∀ s, inbox_ c = Some s → inbox_inv (history c) s;
}.

Lemma fresh_inbox_inv ids inputs h s :
  inbox_of ids inputs s → ids = external_ids h → inbox_inv h s.
Proof.
  intros [Ho _ Hq Hs] ->. destruct (fresh_inputs_ids (list_to_set (external_ids h)) inputs) as [H1 H2].
  rewrite <- Hq in H1, H2. constructor; [done| |done|].
  - intros id Hid. rewrite Hs. set_solver.
  - intros i Hi. rewrite Forall_forall in H2. specialize (H2 i Hi).
    split; [|set_solver]. rewrite Hs. rewrite Hq in Hi.
    assert (∀ x s0 l, x ∈ fresh_inputs s0 l → x ∈ l) as Hsub.
    { intros x s0 l. revert s0. induction l as [|y l IH]; intros s0; simpl; [done|].
      case_decide; [intros Hx; right; by eapply IH|].
      intros [->|Hx]%elem_of_cons; [by left|right; by eapply IH]. }
    apply Hsub in Hi. apply elem_of_union_l, elem_of_list_to_set, list_elem_of_fmap. eauto.
Qed.

Section Invariant.
Context {C : Type} (id : SessionID).
Implicit Types (c : chat) (env : run_env C).

Lemma add_no_clients c : add_clients 0 c = c.
Proof. destruct c. unfold add_clients. simpl. f_equal. lia. Qed.

(** What [startLocked] leaves alone. *)
Definition same_messages c c' : Prop :=
  pending c' = pending c ∧ accepted c' = accepted c ∧ dropped c' = dropped c ∧ history c' = history c.

Lemma startLocked_wp env c :
  chat_inv c → running c = false →
  wp (startLocked id env)
    (λ _ c', chat_inv c' ∧ running c' = true ∧ same_messages c c')
    (λ c', c' = c) c.
Proof.
  intros Hc Hr. unfold startLocked. apply wp_bind, wp_self.
  pose proof (prepareRun_wp (resumed_env (history c) env) id (pending c) []) as Hp. unfold wp in Hp.
  destruct (prepareRun _ id (pending c) []) as [effects r]. apply wp_bind, wp_modify.
  change (open_clients []) with 0 in Hp.
  assert (open_clients effects = 0 → add_clients (open_clients effects) c = c) as Hadd
    by (intros ->; apply add_no_clients).
  destruct r as [run|e|t]; [|by apply wp_fail, Hadd|by apply wp_lift, Hadd].
  destruct Hp as [(meta & p & settings & stop & _ & _ & Hres & Hgate & _ & _ & Hin) ->].
  apply wp_bind, wp_modify, wp_bind, wp_modify, wp_modify.
  assert (resumed.ExternalInputIDs (run_restored run) = external_ids (history c)) as Hids.
  { unfold resumed_env in Hres. simpl in Hres. destruct (env_resume env); simplify_eq/=.
    by rewrite <- Hres. }
  destruct Hc as [H1 H2 H3 H4 H5 H6 H7]. split; [|by repeat split].
  constructor; try done; simpl.
  - rewrite H4, Hr. done.
  - intros s [= <-]. by eapply fresh_inbox_inv.
Qed.

Lemma chat_inv_subs m c : chat_inv c → chat_inv (set_subs m c).
Proof. intros []. by constructor. Qed.

Lemma chat_inv_broadcast ev c : chat_inv c → chat_inv (broadcastLocked ev c).
Proof. apply chat_inv_subs. Qed.

Lemma chat_inv_lastErr e c : chat_inv c → chat_inv (set_lastErr e c).
Proof. intros []. by constructor. Qed.

Lemma chat_inv_canceled c : chat_inv c → chat_inv (set_canceled c).
Proof. intros []. by constructor. Qed.

Lemma chat_inv_stopped b c : chat_inv c → chat_inv (set_stopped b c).
Proof. intros []. by constructor. Qed.

Lemma chat_inv_pending i c : chat_inv c → chat_inv (set_pending (pending c ++ [i]) c).
Proof.
  intros [H1 H2 H3 H4 H5 H6 H7]. constructor; try done. intros j Hj. simpl. destruct (H5 j Hj) as [H|H]; [|by right].
  left. by apply elem_of_app; left.
Qed.

Lemma inbox_inv_received h i s : inbox_inv h s → inbox_inv h (Inbox.run (Inbox.Received i) s).
Proof.
  intros [Ho Hh Hu Hq]. unfold Inbox.run. rewrite Ho.
  destruct (decide (input.ID i ∈ seen s)) as [Hin|Hin]; [by constructor|].
  constructor; simpl; [done|set_solver| |].
  - rewrite fmap_app. apply NoDup_app. split; [done|]. split; [|apply NoDup_singleton].
    intros x (j & -> & Hj)%list_elem_of_fmap Hx. apply list_elem_of_singleton in Hx.
    destruct (Hq j Hj) as [H _]. simpl in Hx. congruence.
  - intros j [Hj|Hj]%elem_of_app; [destruct (Hq j Hj); split; [set_solver|done]|].
    apply list_elem_of_singleton in Hj. subst j. split; [set_solver|]. intros H%Hh. done.
Qed.

Lemma chat_inv_inbox s c : chat_inv c → running c = true → inbox_inv (history c) s → chat_inv (set_inbox s c).
Proof.
  intros [H1 H2 H3 H4 H5 H6 H7] Hr Hs. constructor; try done.
  by intros s' [= <-].
Qed.

Lemma running_inbox c : chat_inv c → running c = true → ∃ s, inbox_ c = Some s ∧ inbox_inv (history c) s.
Proof.
  intros Hc Hr. pose proof (ci_inbox c Hc) as H. rewrite Hr in H. symmetry in H.
  apply bool_decide_eq_true in H as [s Hs]. exists s. split; [done|]. by apply Hc.
Qed.

Lemma submit_wp i c :
  chat_inv c → running c = true →
  wp (submit_input i) (λ _ c', chat_inv c' ∧ running c' = true ∧ same_messages c c')
    (λ c', c' = c) c.
Proof.
  intros Hc Hr. destruct (running_inbox c Hc Hr) as (s & Hs & Hi).
  unfold submit_input. apply wp_bind, wp_self. rewrite Hs. cbv zeta. apply wp_bind, wp_lift; [|done].
  intros i' _. apply wp_modify. split; [|by repeat split].
  apply chat_inv_inbox; [done|done|]. by apply inbox_inv_received.
Qed.

(** A call whose error is looked at later. *)
Lemma wp_try {A} (m : M chat A) (Q : result A → chat → Prop) E c :
  wp m (λ a c', Q (Ok a) c') (λ c', (∀ e, Q (Err e) c') ∧ ∀ t, Q (Panic t) c') c → wp (try m) Q E c.
Proof. unfold wp, try. destruct (m c) as [c' [a|e|t]]; [done|intros [H _]; apply H|intros [_ H]; apply H]. Qed.

Lemma chat_inv_accept i c : chat_inv c → i ∈ pending c → chat_inv (accept i c).
Proof.
  intros [H1 H2 H3 H4 H5 H6 H7] Hi. constructor; try done.
  intros j [Hj|Hj]%elem_of_app; [by apply H5|]. apply list_elem_of_singleton in Hj. subst j. by left.
Qed.

(** Removing a message that was not taken. *)
Lemma chat_inv_remove input_id c :
  chat_inv c → input_id ∉ input.ID <$> accepted c → chat_inv (remove_pending input_id c).
Proof.
  intros [H1 H2 H3 H4 H5 H6 H7] Hid. constructor; try done. intros j Hj. simpl.
  destruct (H5 j Hj) as [H|H]; [|by right]. left. apply list_elem_of_filter. split; [|done].
  intros <-. apply Hid, list_elem_of_fmap. eauto.
Qed.

Lemma send_wp input_id text env c :
  chat_inv c → input_id ∉ input.ID <$> accepted c →
  wp (send id input_id text env) (λ _, chat_inv) chat_inv c.
Proof.
  intros Hc Hid. unfold send. apply wp_bind, wp_lift; [|done]. intros payload _. cbv zeta.
  set (i := input.Mk input_id InputExternal payload).
  apply wp_bind, wp_modify, wp_bind, wp_modify, wp_bind, wp_self.
  set (c1 := set_lastErr EmptyString (set_pending (pending c ++ [i]) c)).
  assert (chat_inv c1) as Hc1 by (by apply chat_inv_lastErr, chat_inv_pending).
  assert (i ∈ pending c1) as Hi by (simpl; apply elem_of_app; right; by left).
  assert (input_id ∉ input.ID <$> accepted c1) as Hid1 by exact Hid. clearbody c1.
  apply wp_bind. destruct (running c1) eqn:Hr; simpl.
  - apply wp_bind, wp_try. eapply wp_mono; [by apply submit_wp| |].
    + intros _ c2 (Hc2 & _ & Hs & _). apply wp_bind, wp_self, wp_ret, wp_modify.
      apply chat_inv_accept; [done|]. by rewrite Hs.
    + intros c2 ->. split; intros; apply wp_bind, wp_self; [|by apply wp_lift].
      destruct (canceled c1); [apply wp_ret, wp_modify; by apply chat_inv_accept|by apply wp_fail].
  - apply wp_bind, wp_try. eapply wp_mono; [by apply startLocked_wp| |].
    + intros _ c2 (Hc2 & _ & Hs & _). apply wp_ret, wp_modify.
      apply chat_inv_accept; [done|]. by rewrite Hs.
    + intros c2 ->. split; intros; [|by apply wp_lift].
      apply wp_bind, wp_modify, wp_fail. by apply chat_inv_remove.
Qed.

Lemma retry_wp env c : chat_inv c → wp (retry id env) (λ _, chat_inv) chat_inv c.
Proof.
  intros Hc. unfold retry. apply wp_bind, wp_self. destruct (running c) eqn:Hr; [by apply wp_ret|].
  apply wp_bind, wp_modify. eapply wp_mono; [apply startLocked_wp; [by apply chat_inv_lastErr|exact Hr]| |].
  - by intros _ c' [H _].
  - intros c' ->. by apply chat_inv_lastErr.
Qed.

Lemma stop_wp input_id c : chat_inv c → wp (stop input_id) (λ _, chat_inv) chat_inv c.
Proof.
  intros Hc. unfold stop. apply wp_bind, wp_self. destruct (running c) eqn:Hr; simpl; [|by apply wp_ret].
  destruct (stopped c); [by apply wp_modify, chat_inv_canceled|].
  apply wp_bind, wp_modify. pose proof (chat_inv_stopped true c Hc) as Hs.
  apply wp_bind, wp_lift; [|done]. intros payload _.
  eapply wp_mono; [apply submit_wp; [exact Hs|exact Hr]|by intros _ c' [H _]|by intros c' ->].
Qed.

(** The goroutine of an ended run is gone, and so is its client. *)
Lemma chat_inv_ended c :
  chat_inv c → running c = true → chat_inv (ended (add_clients (-1) c)).
Proof.
  intros [H1 H2 H3 H4 H5 H6 H7] Hr. constructor; try done; simpl.
  - rewrite H4, Hr. done.
  - intros i Hi. destruct (stopped c).
    + right. destruct (H5 i Hi) as [H|[H|H]]; [left..|by right]; apply elem_of_app; auto.
    + by apply H5.
Qed.

Lemma finished_wp err env c :
  chat_inv (ended c) → wp (finished id err env) (λ _, chat_inv) chat_inv c.
Proof.
  intros Hc. unfold finished. apply wp_bind, wp_modify. set (c1 := ended c) in *.
  assert (running c1 = false) as Hr by done. clearbody c1. apply wp_bind.
  assert (∀ c2, chat_inv c2 → running c2 = false →
    wp (c ← self;
        restarted ← (match err, pending c with
                     | None, _ :: _ =>
                       r ← try (startLocked id env);
                       match r with
                       | Ok _ => mret true
                       | Err e => _ ← modify (set_lastErr (Error e)); mret false
                       | Panic t => lift (Panic t)
                       end
                     | _, _ => mret false
                     end);
        if (restarted : bool) then mret tt else modify (λ c, broadcastLocked (statusLocked c) c))
      (λ _, chat_inv) chat_inv c2) as Hrest.
  { intros c2 Hc2 Hr2. apply wp_bind, wp_self, wp_bind.
    assert (wp (mret false) (λ restarted, wp (if (restarted : bool) then mret tt
      else modify (λ c, broadcastLocked (statusLocked c) c)) (λ _, chat_inv) chat_inv) chat_inv c2) as Hidle
      by (apply wp_ret, wp_modify; by apply chat_inv_broadcast).
    destruct err as [e|]; [exact Hidle|]. destruct (pending c2) as [|p ps]; [exact Hidle|].
    apply wp_bind, wp_try. eapply wp_mono; [by apply startLocked_wp| |].
    - intros _ c3 (Hc3 & _). apply wp_ret. by apply wp_ret.
    - intros c3 ->. split; intros; [|by apply wp_lift].
      apply wp_bind, wp_modify, wp_ret, wp_modify. by apply chat_inv_broadcast, chat_inv_lastErr. }
  destruct err as [e|]; [|by apply wp_ret, Hrest].
  destruct (errors_Is e ErrCanceled); [by apply wp_ret, Hrest|].
  apply wp_modify, Hrest; [by apply chat_inv_lastErr|done].
Qed.

Lemma return_run_wp err c (Q : chat → Prop) :
  (∀ c', Q c' → Q (set_canceled c')) → (coordinating c = true → Q (set_goroutine (Some (Returned err)) c)) → Q c →
  wp (return_run err) (λ _, Q) Q c.
Proof.
  intros Hcan Hg Hc. unfold return_run. apply wp_bind, wp_self. destruct (coordinating c); [|by apply wp_ret].
  apply wp_bind, wp_modify, wp_modify. auto.
Qed.

Lemma chat_inv_returned err c :
  chat_inv c → coordinating c = true → chat_inv (set_goroutine (Some (Returned err)) c).
Proof.
  intros [H1 H2 H3 H4 H5 H6 H7] Hg. constructor; try done. simpl. rewrite H1.
  unfold coordinating in Hg. destruct (goroutine c); [|done]. by rewrite !bool_decide_true by done.
Qed.

Lemma chat_inv_return err c : chat_inv c → wp (return_run err) (λ _, chat_inv) chat_inv c.
Proof.
  intros Hc. apply return_run_wp; [apply chat_inv_canceled| |done]. by apply chat_inv_returned.
Qed.

(** *** Items *)

Lemma external_ids_snoc h i : external_ids (h ++ [i]) = external_ids h ++ omap external_of [i].
Proof. apply omap_app. Qed.

Lemma input_ids_snoc h i x : x ∈ input_ids h → x ∈ input_ids (h ++ [i]).
Proof. unfold input_ids. rewrite omap_app. intros H. by apply elem_of_app; left. Qed.

(** An item whose external input, if any, is new to the session, and is no
    longer queued. *)
Definition fits (i : SItem) c : Prop :=
  ∀ x, external_of i = Some x → x ∉ external_ids (history c) ∧
    ∀ s, inbox_ c = Some s → x ∈ seen s ∧ x ∉ input.ID <$> queued s.

Lemma chat_inv_history i c : chat_inv c → fits i c → chat_inv (set_history (history c ++ [i]) c).
Proof.
  intros [H1 H2 H3 H4 H5 H6 H7] Hf. constructor; try done; simpl.
  - intros j Hj. destruct (H5 j Hj) as [H|[H|H]]; [by left|by right; left|].
    right. right. by apply input_ids_snoc.
  - rewrite external_ids_snoc. simpl. destruct (external_of i) as [x|] eqn:E; [|by rewrite app_nil_r].
    destruct (Hf x E) as [Hx _]. apply NoDup_app. split; [done|]. split; [|apply NoDup_singleton].
    intros y Hy Hy'. apply list_elem_of_singleton in Hy'. by subst y.
  - intros s Hs. destruct (H7 s Hs) as [Ho Hh Hu Hq]. constructor; [done| |done|].
    + intros y. rewrite external_ids_snoc, elem_of_app. intros [Hy|Hy]; [auto|].
      simpl in Hy. destruct (external_of i) as [x|] eqn:E; [|by apply elem_of_nil in Hy].
      apply list_elem_of_singleton in Hy. subst y. by apply (proj2 (Hf x E) s).
    + intros j Hj. destruct (Hq j Hj) as [H8 H9]. split; [done|].
      rewrite external_ids_snoc, elem_of_app. intros [Hy|Hy]; [done|].
      simpl in Hy. destruct (external_of i) as [x|] eqn:E; [|by apply elem_of_nil in Hy].
      apply list_elem_of_singleton in Hy. apply (proj2 (proj2 (Hf x E) s Hs)).
      rewrite <- Hy. by apply list_elem_of_fmap_2.
Qed.

Lemma chat_inv_items l c : chat_inv c → chat_inv (set_items l c).
Proof. intros []. by constructor. Qed.

(** A pending message leaves the list when an input of its ID is stored. *)
Lemma chat_inv_published i c :
  chat_inv c → (∀ input, input_of i = Some input → input.ID input ∈ input_ids (history c)) →
  chat_inv (publish i c).
Proof.
  intros Hc Hi. unfold publish. destruct (Marshal SItem_codec i) as [v|e|t]; [|done..]. cbv zeta.
  apply chat_inv_broadcast. destruct (input_of i) as [input|] eqn:E; [|by apply chat_inv_items].
  specialize (Hi input eq_refl). apply (chat_inv_items (items c ++ [citem.Mk (sitem.Sequence' i) v])) in Hc.
  set (c1 := set_items _ c) in *. assert (history c1 = history c) as Hh by done. rewrite <- Hh in Hi. clearbody c1.
  destruct Hc as [H1 H2 H3 H4 H5 H6 H7]. constructor; try done. intros j Hj. simpl.
  destruct (H5 j Hj) as [H|H]; [|by right]. destruct (decide (input.ID j = input.ID input)) as [->|Hne].
  - right. by right.
  - left. by apply list_elem_of_filter.
Qed.

Lemma append_item_wp now kind data outcome c :
  chat_inv c → fits (next_item now kind data c) c →
  wp (append_item now kind data outcome) (λ _, chat_inv) chat_inv c.
Proof.
  intros Hc Hf. unfold append_item. apply wp_bind, wp_self. cbv zeta.
  destruct (Marshal SItem_codec _) as [v|e|t]; [|by apply chat_inv_return|by apply wp_lift].
  pose proof (chat_inv_history _ c Hc Hf) as Hh.
  destruct outcome as [|e|e].
  - apply wp_bind, wp_modify, wp_modify. apply chat_inv_published; [done|].
    intros i Hi. simpl. unfold input_ids. rewrite omap_app. apply elem_of_app. right.
    simpl. rewrite Hi. by left.
  - by apply chat_inv_return.
  - apply wp_bind, wp_modify. by apply chat_inv_return.
Qed.

Lemma store_item_wp now kind data outcome c :
  chat_inv c → wp (store_item now kind data outcome) (λ _, chat_inv) chat_inv c.
Proof.
  intros Hc. unfold store_item. apply wp_bind, wp_self.
  assert (∀ d, (∀ i, d ≠ StoreInput i) → fits (next_item now kind d c) c) as Hf.
  { intros d Hd x Hx. unfold external_of, input_of, next_item in Hx. simpl in Hx.
    destruct d as [f|i|t|r|s| |t]; try done. by destruct (Hd i). }
  destruct data; try (by apply wp_ret); (destruct (coordinating c); [|by apply wp_ret]);
    (apply append_item_wp; [done|by apply Hf]).
Qed.

Lemma coordinating_running c : chat_inv c → coordinating c = true → running c = true.
Proof.
  unfold coordinating. intros Hc Hg. rewrite (ci_running c Hc).
  destruct (goroutine c); [|done]. by apply bool_decide_true.
Qed.

Lemma take_input_wp now outcome c :
  chat_inv c → wp (take_input now outcome) (λ _, chat_inv) chat_inv c.
Proof.
  intros Hc. unfold take_input. apply wp_bind, wp_self.
  destruct (inbox_ c) as [s|] eqn:Hs; [|by apply wp_ret].
  destruct (queued s) as [|i rest] eqn:Hq; [by apply wp_ret|].
  destruct (coordinating c) eqn:Hg; [|by apply wp_ret].
  apply wp_bind, wp_modify. pose proof (ci_queue c Hc s Hs) as [Ho Hh Hu Hqs].
  rewrite Hq in Hu. apply NoDup_cons in Hu as [Hi Hu].
  pose proof (coordinating_running c Hc Hg) as Hr.
  set (s' := Inbox.run Output s).
  assert (s' = MkInbox (seen s) rest (delivered s ++ [i]) false) as Hs'.
  { unfold s', Inbox.run. by rewrite Ho, Hq. }
  apply append_item_wp.
  - apply chat_inv_inbox; [done|done|]. rewrite Hs'. constructor; simpl; [done|done|done|].
    intros j Hj. apply Hqs. rewrite Hq. by right.
  - intros x Hx. unfold external_of, input_of, next_item in Hx. simpl in Hx.
    case_bool_decide; [|done]. injection Hx as <-. destruct (Hqs i) as [H1 H2]; [rewrite Hq; by left|].
    split; [done|]. intros s0 [= <-]. rewrite Hs'. by split.
Qed.

Lemma heartbeat_wp i c : chat_inv c → wp (heartbeat i) (λ _, chat_inv) chat_inv c.
Proof.
  intros Hc. unfold heartbeat. apply wp_bind, wp_self.
  destruct (coordinating c) eqn:Hg; [|by apply wp_ret]. simpl. if_goal; [by apply wp_ret|].
  pose proof (coordinating_running c Hc Hg) as Hr.
  apply wp_bind, wp_try. eapply wp_mono; [by apply submit_wp| |].
  - intros _ c' [H _]. by apply wp_ret.
  - intros c' ->. split; intros; by apply wp_ret.
Qed.

Lemma on_gate_wp a c : chat_inv c → wp (on_gate a) (λ _, chat_inv) chat_inv c.
Proof.
  intros Hc. unfold on_gate. apply wp_bind, wp_self. destruct (gate_ c) as [g|] eqn:Hg; [|by apply wp_fail].
  destruct (act a g) as [g' r]. apply wp_bind, wp_modify.
  assert (chat_inv (set_gate g' c)) as Hc'.
  { destruct Hc as [H1 H2 H3 H4 H5 H6 H7]. constructor; try done. rewrite Hg in H3. done. }
  apply wp_bind. destruct (existsb _ _).
  - apply wp_modify. apply (chat_inv_broadcast (statusLocked (set_gate g' c))) in Hc'. by apply wp_lift.
  - apply wp_ret. by apply wp_lift.
Qed.

Lemma finish_run_wp env c : chat_inv c → wp (finish_run id env) (λ _, chat_inv) chat_inv c.
Proof.
  intros Hc. unfold finish_run. apply wp_bind, wp_self.
  destruct (goroutine c) as [[|err]|] eqn:Hg; [by apply wp_ret| |by apply wp_ret].
  apply wp_bind, wp_modify, finished_wp, chat_inv_ended; [done|].
  rewrite (ci_running c Hc), Hg. by apply bool_decide_true.
Qed.

Lemma chat_step_wp (a : chat_action (C := C)) c :
  chat_inv c → admissible a c → wp (chat_step id a) (λ _, chat_inv) chat_inv c.
Proof.
  intros Hc Ha. destruct a; cbn [chat_step].
  - by apply send_wp.
  - by apply retry_wp.
  - by apply stop_wp.
  - apply wp_modify. by apply chat_inv_subs.
  - apply wp_modify. by apply chat_inv_subs.
  - apply wp_modify. by apply chat_inv_subs.
  - by apply take_input_wp.
  - by apply store_item_wp.
  - by apply heartbeat_wp.
  - by apply chat_inv_return.
  - by apply finish_run_wp.
  - apply wp_modify. destruct (running c); [by apply chat_inv_canceled|done].
  - by apply on_gate_wp.
Qed.
End Invariant.

Lemma opened_inv items h : NoDup (external_ids h) → chat_inv (opened_chat items h).
Proof. intros H. constructor; try done. by intros i Hi%elem_of_nil. Qed.

(** The states of a chat that was opened on [h]. *)
Section Reachable.
Context {C : Type} (id : SessionID) (items0 : list storedItem) (h0 : list SItem).

Inductive chat_reachable : chat → Prop :=
  | reach_open : chat_reachable (opened_chat items0 h0)
  | reach_step c (a : chat_action (C := C)) :
      chat_reachable c → admissible a c → chat_reachable (fst (chat_step id a c)).

Lemma chat_reachable_inv c : NoDup (external_ids h0) → chat_reachable c → chat_inv c.
Proof.
  intros H0. induction 1 as [|c a _ IH Ha]; [by apply opened_inv|].
  pose proof (chat_step_wp id a c IH Ha) as H. unfold wp in H.
  by destruct (chat_step id a c) as [c' [r|e|t]].
Qed.

(** C10: A message that was taken is never lost and never stored twice: in every
    state that a chat reaches, whatever its users, its coordinators, the store
    and the network do, each message that [send] took is stored in the session,
    or still pending, or was thrown away by a stop of the user; and the session
    holds no external input twice, over any number of runs, retries and failed
    appends. *)
Theorem messages_kept_and_stored_once c :
  NoDup (external_ids h0) → chat_reachable c →
  (∀ i, i ∈ accepted c → i ∈ pending c ∨ i ∈ dropped c ∨ input.ID i ∈ input_ids (history c)) ∧
  NoDup (external_ids (history c)).
Proof. intros H0 Hc. destruct (chat_reachable_inv c H0 Hc). done. Qed.

(** C27: A chat has at most one run: in every state that it reaches, it says that
    it is running exactly when the goroutine of a run is there, with its inbox
    and its gate, so that no method finds a nil inbox, and exactly then one
    client of the provider is open: none is leaked by a run that ends, that
    fails to start or that is started again. *)
Theorem one_run_at_a_time c :
  NoDup (external_ids h0) → chat_reachable c →
  (running c = true ↔ is_Some (goroutine c)) ∧ (running c = true ↔ is_Some (inbox_ c)) ∧
  (running c = true ↔ is_Some (gate_ c)) ∧ clients c = (if running c then 1 else 0).
Proof.
  intros H0 Hc. destruct (chat_reachable_inv c H0 Hc) as [H1 H2 H3 H4 _ _ _].
  split_and!; [rewrite H1|rewrite H2|rewrite H3|done]; apply bool_decide_eq_true.
Qed.
End Reachable.

(** ** Subscribers *)

Definition items_of (evs : list chat_event) : list storedItem :=
  omap (λ ev, match ev with EvItem i => Some i | EvStatus _ _ _ => None end) evs.

(** What was sent to a subscriber continues its backlog: the items after the
    one that it asked from, up to the present while its channel is open. *)
Definition sub_inv (l : list storedItem) (s : subscriber) : Prop :=
  ∃ before missed,
    l = before ++ sub_backlog s ++ items_of (received s ++ buffer s) ++ missed ∧
    (sub_open s = true → missed = []) ∧
    Forall (λ i, citem.seq i ≤ sub_after s) before ∧
    Forall (λ i, sub_after s < citem.seq i) (sub_backlog s).

Record view_inv (c : chat) : Prop := {
  vi_sorted : StronglySorted Z.lt (citem.seq <$> items c);
  vi_bound : Forall (λ i, citem.seq i ≤ Z.of_nat (length (history c))) (items c);
  vi_subs : map_Forall (λ _ : nat, sub_inv (items c)) (subs c);
}.

Lemma view_same c c' :
  view_inv c → items c' = items c → subs c' = subs c → (length (history c) ≤ length (history c'))%nat → view_inv c'.
Proof.
  intros [H1 H2 H3] Hi Hs Hh. constructor; rewrite ?Hi, ?Hs; try done.
  eapply Forall_impl; [exact H2|]. simpl. lia.
Qed.

Lemma items_of_app l1 l2 : items_of (l1 ++ l2) = items_of l1 ++ items_of l2.
Proof. apply omap_app. Qed.

Lemma items_of_status l1 l2 r e a : items_of (l1 ++ l2 ++ [EvStatus r e a]) = items_of (l1 ++ l2).
Proof. rewrite (app_assoc l1 l2), items_of_app. apply app_nil_r. Qed.

Lemma items_of_item l1 l2 i : items_of (l1 ++ l2 ++ [EvItem i]) = items_of (l1 ++ l2) ++ [i].
Proof. by rewrite (app_assoc l1 l2), items_of_app. Qed.

Lemma offer_status l s r e a : sub_inv l s → sub_inv l (offer (EvStatus r e a) s).
Proof.
  intros (before & missed & Hl & Ho & Hb & Ha). unfold offer. destruct (sub_open s) eqn:E; [|by exists before, missed; rewrite E].
  destruct (len (buffer s) <? capacity).
  - exists before, missed. simpl. rewrite items_of_status. by split_and!.
  - exists before, missed. by split_and!.
Qed.

Lemma offer_item l s i : sub_inv l s → sub_inv (l ++ [i]) (offer (EvItem i) s).
Proof.
  intros (before & missed & Hl & Ho & Hb & Ha). unfold offer. destruct (sub_open s) eqn:E.
  - specialize (Ho eq_refl). subst missed. rewrite app_nil_r in Hl.
    destruct (len (buffer s) <? capacity).
    + exists before, []. simpl. rewrite items_of_item.
      split_and!; [|done..]. rewrite Hl, app_nil_r, <- !(assoc_L (++)). done.
    + exists before, [i]. simpl. split_and!; [|done..]. rewrite Hl, <- !(assoc_L (++)). done.
  - exists before, (missed ++ [i]). rewrite E. split_and!; [|done..]. rewrite Hl, <- !(assoc_L (++)). done.
Qed.

Lemma view_status r e a c : view_inv c → view_inv (broadcastLocked (EvStatus r e a) c).
Proof.
  intros [H1 H2 H3]. constructor; try done. intros ch s. simpl. rewrite lookup_fmap.
  intros (s0 & Hs & ->)%fmap_Some. apply offer_status. by apply (H3 ch).
Qed.

Lemma StronglySorted_snoc (l : list Z) x : StronglySorted Z.lt l → Forall (λ y, y < x) l → StronglySorted Z.lt (l ++ [x]).
Proof.
  induction 1 as [|y l Hs IH Hy]; intros Hx; simpl; [repeat constructor|].
  apply Forall_cons in Hx as [Hyx Hx]. constructor; [by apply IH|].
  apply Forall_app. split; [done|by apply Forall_singleton].
Qed.

Lemma view_publish i c :
  view_inv c → sitem.Sequence' i = Z.of_nat (length (history c)) + 1 →
  view_inv (publish i (set_history (history c ++ [i]) c)).
Proof.
  intros [H1 H2 H3] Hi. unfold publish.
  assert (view_inv (set_history (history c ++ [i]) c)) as Hh.
  { apply (view_same c); [by constructor|done|done|]. simpl. rewrite length_app. lia. }
  destruct (Marshal SItem_codec i) as [v|e|t]; [|done..]. cbv zeta.
  set (c1 := set_items _ _). set (x := citem.Mk (sitem.Sequence' i) v) in *.
  assert (∀ c2, items c2 = items c1 → subs c2 = subs c1 → history c2 = history c1 →
    view_inv (broadcastLocked (EvItem x) c2)) as Hb.
  { intros c2 E1 E2 E3. constructor; simpl; rewrite ?E1, ?E2, ?E3; simpl.
    - rewrite fmap_app. simpl. apply StronglySorted_snoc; [done|]. apply Forall_fmap.
      eapply Forall_impl; [exact H2|]. simpl. lia.
    - rewrite length_app. simpl. apply Forall_app. split; [|apply Forall_singleton; simpl; lia].
      eapply Forall_impl; [exact H2|]. simpl. lia.
    - intros ch s. rewrite lookup_fmap. intros (s0 & Hs & ->)%fmap_Some. apply offer_item. by apply (H3 ch). }
  by destruct (input_of i) as [input|]; apply Hb.
Qed.

(** *** sort.Search *)

Lemma search_first fuel f i j k :
  (∀ n, i ≤ n → n < k → f n = false) → (∀ n, k ≤ n → n < j → f n = true) →
  i ≤ k ≤ j → (Z.to_nat (j - i) < fuel)%nat → search fuel f i j = k.
Proof.
  revert i j. induction fuel as [|fuel IH]; intros i j Hlo Hhi Hk Hf; [lia|]. simpl.
  destruct (Z.ltb_spec i j) as [Hlt|Hge]; [|lia].
  rewrite Z.shiftr_div_pow2, Z.pow_1_r by lia.
  pose proof (Z.div_mod (i + j) 2 ltac:(lia)) as Hd. pose proof (Z.mod_pos_bound (i + j) 2 ltac:(lia)) as Hm.
  set (h := (i + j) / 2) in *.
  destruct (decide (h < k)) as [Hlow|Hhigh].
  - rewrite (Hlo h) by lia. simpl. apply IH; [intros; apply Hlo; lia|done|lia|lia].
  - rewrite (Hhi h) by lia. simpl. apply IH; [done|intros; apply Hhi; lia|lia|lia].
Qed.

(** Where the items after [after] begin. *)
Lemma sorted_split (l : list storedItem) after :
  StronglySorted Z.lt (citem.seq <$> l) →
  ∃ before rest, l = before ++ rest ∧
    Forall (λ i, citem.seq i ≤ after) before ∧ Forall (λ i, after < citem.seq i) rest.
Proof.
  induction l as [|i l IH]; intros H; [by exists [], []|].
  change (StronglySorted Z.lt (citem.seq i :: (citem.seq <$> l))) in H. inversion H as [|x y Hs Hi]; subst.
  destruct (decide (citem.seq i ≤ after)) as [Hle|Hgt].
  - destruct (IH Hs) as (before & rest & -> & H1 & H2). exists (i :: before), rest.
    split_and!; [done|by constructor|done].
  - exists [], (i :: l). split_and!; [done|done|]. constructor; [lia|].
    apply Forall_forall. intros x Hx. rewrite Forall_forall in Hi.
    assert (citem.seq i < citem.seq x) by (apply Hi; by apply list_elem_of_fmap_2). lia.
Qed.

Lemma search_splits before rest after :
  Forall (λ i, citem.seq i ≤ after) before → Forall (λ i, after < citem.seq i) rest →
  sort_Search (length (before ++ rest)) (seq_after (before ++ rest) after) = Z.of_nat (length before).
Proof.
  intros Hb Hr. unfold sort_Search. rewrite length_app. apply search_first; [| |lia|lia].
  - intros n H0 Hn. unfold seq_after. rewrite lookup_app_l by lia.
    destruct (lookup_lt_is_Some_2 before (Z.to_nat n)) as [i Hi]; [lia|]. rewrite Hi.
    rewrite Forall_forall in Hb. apply Z.ltb_ge, Hb. by apply list_elem_of_lookup_2 in Hi.
  - intros n H0 Hn. unfold seq_after. rewrite lookup_app_r by lia.
    destruct (lookup_lt_is_Some_2 rest (Z.to_nat n - length before)) as [i Hi]; [lia|]. rewrite Hi.
    rewrite Forall_forall in Hr. apply Z.ltb_lt, Hr. by apply list_elem_of_lookup_2 in Hi.
Qed.

Lemma subscribe_backlog after c before rest :
  items c = before ++ rest →
  Forall (λ i, citem.seq i ≤ after) before → Forall (λ i, after < citem.seq i) rest →
  drop (Z.to_nat (sort_Search (length (items c)) (seq_after (items c) after))) (items c) = rest.
Proof. intros -> Hb Hr. rewrite search_splits by done. by rewrite Nat2Z.id, drop_app_length. Qed.

Lemma view_subscribe after c : view_inv c → view_inv (subscribe after c).
Proof.
  intros [H1 H2 H3]. destruct (sorted_split _ after H1) as (before & rest & Hl & Hb & Hr).
  unfold subscribe. cbv zeta. rewrite (subscribe_backlog after c before rest Hl Hb Hr).
  constructor; try done. simpl. apply map_Forall_insert_2; [|done].
  exists before, []. simpl. rewrite app_nil_r. by split_and!.
Qed.

Lemma view_alter ch f c :
  (∀ s, sub_inv (items c) s → sub_inv (items c) (f s)) → view_inv c → view_inv (set_subs (alter f ch (subs c)) c).
Proof.
  intros Hf [H1 H2 H3]. constructor; try done. simpl. intros ch' s Hs.
  destruct (decide (ch' = ch)) as [->|Hne].
  - rewrite lookup_alter_eq in Hs. apply fmap_Some in Hs as (s0 & Hs0 & ->). apply Hf. by apply (H3 ch).
  - rewrite lookup_alter_ne in Hs by done. by apply (H3 ch').
Qed.

Lemma view_unsubscribe ch c : view_inv c → view_inv (unsubscribe ch c).
Proof.
  apply view_alter. intros s (before & missed & Hl & Ho & Hb & Ha). exists before, missed. by split_and!.
Qed.

Lemma view_receive ch c : view_inv c → view_inv (receive ch c).
Proof.
  apply view_alter. intros s (before & missed & Hl & Ho & Hb & Ha).
  destruct (buffer s) as [|ev rest] eqn:E; [exists before, missed; rewrite E; by split_and!|].
  exists before, missed. simpl. rewrite <- (assoc_L (++)). by split_and!.
Qed.

(** *** The methods *)

(** A method keeps an invariant, whether it fails or not. *)
Definition keeps (I : chat → Prop) {A} (m : M chat A) : Prop := ∀ c, I c → wp m (λ _, I) I c.

Section Keeps.
Context (I : chat → Prop).

Lemma keeps_bind {A B} (m : M chat A) (f : A → M chat B) : keeps I m → (∀ a, keeps I (f a)) → keeps I (m ≫= f).
Proof.
  intros Hm Hf c Hc. apply wp_bind. eapply wp_mono; [by apply Hm| |done]. intros a c' Hc'. by apply Hf.
Qed.
Lemma keeps_ret {A} (a : A) : keeps I (mret a).
Proof. intros c Hc. by apply wp_ret. Qed.
Lemma keeps_self : keeps I self.
Proof. intros c Hc. by apply wp_self. Qed.
Lemma keeps_fail {A} e : keeps I (fail (A := A) e).
Proof. intros c Hc. by apply wp_fail. Qed.
Lemma keeps_lift {A} (r : result A) : keeps I (lift r).
Proof. intros c Hc. by apply wp_lift. Qed.
Lemma keeps_try {A} (m : M chat A) : keeps I m → keeps I (try m).
Proof.
  intros Hm c Hc. specialize (Hm c Hc). unfold wp, try in *. by destruct (m c) as [c' [a|e|t]].
Qed.
Lemma keeps_modify f : (∀ c, I c → I (f c)) → keeps I (modify f).
Proof. intros Hf c Hc. apply wp_modify. auto. Qed.

(** A state that was read is one that the invariant held of. *)
Lemma keeps_read {A} (k : chat → M chat A) :
  (∀ c, I c → wp (k c) (λ _, I) I c) → keeps I (self ≫= k).
Proof. intros Hk c Hc. apply wp_bind, wp_self. by apply Hk. Qed.
End Keeps.

(** An assignment to a field that the subscribers do not see. *)
Lemma keeps_assign f :
  (∀ c, items (f c) = items c ∧ subs (f c) = subs c ∧ history (f c) = history c) → keeps view_inv (modify f).
Proof.
  intros Hf. apply keeps_modify. intros c Hc. destruct (Hf c) as (H1 & H2 & H3).
  apply (view_same c); [done..|by rewrite H3].
Qed.

Create HintDb view discriminated.
#[local] Hint Resolve keeps_ret keeps_self keeps_fail keeps_lift keeps_try : view.

Ltac keep :=
  repeat first
    [ progress auto with view nocore
    | apply keeps_bind; [|intros ?]
    | apply keeps_try
    | apply keeps_assign; by intros []
    | apply keeps_modify; intros ? ?; apply view_status; assumption
    | progress cbv zeta
    | match goal with
      | |- keeps _ (match ?x with _ => _ end) => destruct x eqn:?
      end ].

Section View.
Context {C : Type} (id : SessionID).
Implicit Types (env : run_env C).

Lemma keeps_started inbox g : keeps view_inv (modify (started inbox g)).
Proof. apply keeps_assign. by intros []. Qed.

Lemma keeps_startLocked env : keeps view_inv (startLocked id env).
Proof. unfold startLocked. keep. Qed.

Lemma keeps_submit i : keeps view_inv (submit_input i).
Proof. unfold submit_input. keep. Qed.
#[local] Hint Resolve keeps_startLocked keeps_submit : view.

Lemma keeps_return err : keeps view_inv (return_run err).
Proof. unfold return_run. keep. Qed.
#[local] Hint Resolve keeps_return : view.

Lemma keeps_append now kind data outcome : keeps view_inv (append_item now kind data outcome).
Proof.
  intros c Hc. unfold append_item. apply wp_bind, wp_self. cbv zeta.
  destruct (Marshal SItem_codec _) as [v|e|t]; [|by apply keeps_return|by apply wp_lift].
  destruct outcome as [|e|e]; [|by apply keeps_return|].
  - apply wp_bind, wp_modify, wp_modify. by apply view_publish.
  - apply wp_bind, wp_modify, keeps_return.
    apply (view_same c); [done..|]. simpl. rewrite length_app. lia.
Qed.
#[local] Hint Resolve keeps_append : view.

Lemma chat_step_view (a : chat_action (C := C)) : keeps view_inv (chat_step id a).
Proof.
  destruct a as [input_id text env|env|input_id|after|ch|ch|now outcome|now kind data outcome|i|err|env| |a];
    cbn [chat_step].
  - unfold send. keep.
  - unfold retry. keep.
  - unfold stop. keep.
  - apply keeps_modify. intros c. apply view_subscribe.
  - apply keeps_modify. intros c. apply view_unsubscribe.
  - apply keeps_modify. intros c. apply view_receive.
  - unfold take_input. keep.
  - unfold store_item. keep.
  - unfold heartbeat. keep.
  - apply keeps_return.
  - unfold finish_run, finished. keep.
  - apply keeps_modify. intros c Hc. destruct (running c); [|done]. by apply (view_same c).
  - unfold on_gate. keep.
Qed.
End View.

(** *** Opening *)

Lemma encode_items_app acc l1 l2 :
  encode_items acc (l1 ++ l2) = (acc' ← encode_items acc l1; encode_items acc' l2).
Proof.
  revert acc. induction l1 as [|i l1 IH]; intros acc; [done|]. simpl.
  destruct (Marshal SItem_codec i) as [v|e|t]; simpl; [apply IH|done..].
Qed.

Lemma encode_items_seqs acc l items :
  encode_items acc l = Ok items → citem.seq <$> items = (citem.seq <$> acc) ++ (sitem.Sequence' <$> l).
Proof.
  revert acc. induction l as [|i l IH]; intros acc H; simpl in H; [injection H as <-; by rewrite app_nil_r|].
  apply bind_ok in H as (v & _ & H). apply IH in H. rewrite H, fmap_app. simpl. by rewrite <- (assoc_L (++)).
Qed.

Lemma numbered_seqs h : numbered h → sitem.Sequence' <$> h = (λ n, Z.of_nat n + 1) <$> seq 0 (length h).
Proof.
  intros Hn. apply list_eq. intros n. rewrite !list_lookup_fmap.
  destruct (decide (n < length h)%nat) as [Hlt|Hge].
  - rewrite lookup_seq_lt by done. simpl. destruct (lookup_lt_is_Some_2 h n Hlt) as [i Hi].
    rewrite Hi. simpl. by rewrite (Hn n i Hi).
  - rewrite lookup_seq_ge by lia. by rewrite lookup_ge_None_2 by lia.
Qed.

Lemma opened_view items h :
  numbered h → encode_items [] h = Ok items → view_inv (opened_chat items h).
Proof.
  intros Hn He. pose proof (encode_items_seqs _ _ _ He) as Hs. simpl in Hs.
  rewrite (numbered_seqs h Hn) in Hs. constructor; simpl; [| |apply map_Forall_empty].
  - rewrite Hs. clear. generalize 0%nat. generalize (length h). intros len_h.
    induction len_h as [|n IH]; intros k; simpl; [constructor|].
    constructor; [apply IH|]. apply Forall_forall. intros x (m & -> & Hm)%list_elem_of_fmap.
    apply elem_of_seq in Hm. lia.
  - apply Forall_forall. intros i Hi. apply (list_elem_of_fmap_2 citem.seq) in Hi. rewrite Hs in Hi.
    apply list_elem_of_fmap in Hi as (m & -> & Hm). apply elem_of_seq in Hm. lia.
Qed.

Lemma load_pages_from id h fuel k acc :
  numbered h → pageable h → (k ≤ length h)%nat → (length h - k ≤ 256 * fuel)%nat → (0 < fuel)%nat →
  load_pages id (page_of h) fuel (Z.of_nat k) acc = Some (encode_items acc (drop k h)).
Proof.
  intros Hn Hp. revert k acc. induction fuel as [|fuel IH]; intros k acc Hk Hf H0; [lia|].
  cbn [load_pages]. change 256 with Coordinator.historyPageSize. rewrite page_of_at by done. cbv zeta.
  cbn [page.Items page.More page.NextAfter].
  destruct (decide (k + 256 < length h)%nat) as [Hlt|Hge].
  - rewrite bool_decide_true, last_page_sequence by done. cbn [negb orb].
    rewrite <- (take_drop 256 (drop k h)) at 2. rewrite encode_items_app.
    destruct (encode_items acc (take 256 (drop k h))) as [acc'|e|t]; [|done..].
    destruct (Z.leb_spec (Z.of_nat (k + 256)) (Z.of_nat k)); [lia|].
    rewrite IH by lia. by rewrite drop_drop.
  - rewrite bool_decide_false by done. rewrite (take_ge (drop k h)) by (rewrite length_drop; lia).
    by destruct (encode_items acc (drop k h)).
Qed.

(** [loadHistory] reads the pages of a numbered history to its end. *)
Lemma loadHistory_complete id h fuel :
  numbered h → pageable h → (length h ≤ 256 * fuel)%nat → (0 < fuel)%nat →
  load_pages id (page_of h) fuel BeforeFirst [] = Some (encode_items [] h).
Proof. intros Hn Hp Hf H0. by rewrite (load_pages_from id h fuel 0) by (done || lia). Qed.

Section Subscribers.
Context {C : Type} (id : SessionID) (items0 : list storedItem) (h0 : list SItem) (fuel : nat).
Hypothesis h0_numbered : numbered h0.
Hypothesis h0_pageable : pageable h0.
Hypothesis fuel_enough : (length h0 ≤ 256 * fuel)%nat ∧ (0 < fuel)%nat.
Hypothesis loaded_items : load_pages id (page_of h0) fuel BeforeFirst [] = Some (Ok items0).

Lemma reachable_view c : chat_reachable (C := C) id items0 h0 c → view_inv c.
Proof.
  induction 1 as [|c a _ IH _].
  - apply opened_view; [done|]. rewrite loadHistory_complete in loaded_items by (done || apply fuel_enough).
    by injection loaded_items.
  - pose proof (chat_step_view id a c IH) as H. unfold wp in H.
    by destruct (chat_step id a c) as [c' [r|e|t]].
Qed.

(** C12: A browser misses nothing and sees nothing twice: the items of a chat
    are numbered in increasing order, and at any time the items that a
    subscriber was sent, its backlog and then the items on its channel, are
    the items of the chat in their order, from the first one after the number
    that it gave, and up to the present while its channel is open, even when
    it was closed because the subscriber was too slow; and whoever has all
    items up to a number and subscribes with it is given exactly the rest. *)
Theorem subscribers_miss_nothing c :
  chat_reachable (C := C) id items0 h0 c →
  StronglySorted Z.lt (citem.seq <$> items c) ∧
  (∀ ch s, subs c !! ch = Some s →
    ∃ before missed,
      items c = before ++ sub_backlog s ++ items_of (received s ++ buffer s) ++ missed ∧
      Forall (λ i, citem.seq i ≤ sub_after s) before ∧
      Forall (λ i, sub_after s < citem.seq i) (sub_backlog s) ∧
      (sub_open s = true → missed = [])) ∧
  (∀ after before rest, items c = before ++ rest →
    Forall (λ i, citem.seq i ≤ after) before → Forall (λ i, after < citem.seq i) rest →
    ∃ ch s, subs c !! ch = None ∧ subs (subscribe after c) !! ch = Some s ∧
      sub_backlog s = rest ∧ sub_open s = true ∧ items_of (received s ++ buffer s) = []).
Proof.
  intros Hc. destruct (reachable_view c Hc) as [H1 H2 H3]. split_and!; [done| |].
  - intros ch s Hs. destruct (H3 ch s Hs) as (before & missed & Ha & Hb & Hd & He).
    exists before, missed. by split_and!.
  - intros after before rest Hi Hb Hr. exists (fresh (dom (subs c))). eexists. split_and!.
    + apply not_elem_of_dom, is_fresh.
    + unfold subscribe. cbv zeta. simpl. apply lookup_insert_eq.
    + simpl. by apply (subscribe_backlog after c before rest).
    + done.
    + done.
Qed.
End Subscribers.

(** ** A stored message that stays pending

    When an append fails after its record is in the file, the observer is not
    told: the message stays pending although the session has it.  The next run
    is given it again, its inbox knows it, and nothing ever takes it off the
    list: a run that ends without an error is started again. *)
Section Stuck.
Context {C : Type} (id : SessionID) (m : Input).

Record stuck (c : chat) : Prop := {
  st_stopped : stopped c = false;
  st_accepted : m ∈ accepted c;
  st_pending : m ∈ pending c;
  st_stored : input.ID m ∈ external_ids (history c);
  st_queue : ∀ s, inbox_ c = Some s →
    closed s = false ∧ input.ID m ∈ seen s ∧ input.ID m ∉ input.ID <$> queued s;
}.

Lemma stuck_same c c' :
  stuck c → stopped c' = stopped c → (∀ i, i ∈ accepted c → i ∈ accepted c') →
  (∀ i, i ∈ pending c → i ∈ pending c') → history c' = history c → inbox_ c' = inbox_ c → stuck c'.
Proof.
  intros [H1 H2 H3 H4 H5] E1 E2 E3 E4 E5. constructor; rewrite ?E1, ?E4, ?E5; auto.
Qed.

Lemma stuck_assign f :
  (∀ c, stopped (f c) = stopped c ∧ accepted (f c) = accepted c ∧ pending (f c) = pending c ∧
        history (f c) = history c ∧ inbox_ (f c) = inbox_ c) →
  keeps stuck (modify f).
Proof.
  intros Hf. apply keeps_modify. intros c Hc. destruct (Hf c) as (H1 & H2 & H3 & H4 & H5).
  apply (stuck_same c); try done; [by rewrite H2|by rewrite H3].
Qed.

Lemma stuck_received i s :
  closed s = false ∧ input.ID m ∈ seen s ∧ input.ID m ∉ input.ID <$> queued s →
  let s' := Inbox.run (Inbox.Received i) s in
  closed s' = false ∧ input.ID m ∈ seen s' ∧ input.ID m ∉ input.ID <$> queued s'.
Proof.
  intros (Ho & Hs & Hq). unfold Inbox.run. rewrite Ho. destruct (decide (input.ID i ∈ seen s)); [done|].
  simpl. split; [done|]. split; [set_solver|]. rewrite fmap_app, elem_of_app. intros [H|H]; [done|].
  apply list_elem_of_singleton in H. congruence.
Qed.

Lemma stuck_inbox s c :
  stuck c → closed s = false ∧ input.ID m ∈ seen s ∧ input.ID m ∉ input.ID <$> queued s → stuck (set_inbox s c).
Proof. intros [H1 H2 H3 H4 H5] Hs. constructor; try done. by intros s' [= <-]. Qed.

Lemma stuck_submit i : keeps stuck (submit_input i).
Proof.
  intros c Hc. unfold submit_input. apply wp_bind, wp_self. destruct (inbox_ c) as [s|] eqn:Hs; [|by apply wp_lift].
  cbv zeta. apply wp_bind, wp_lift; [|done]. intros i' _. apply wp_modify, stuck_inbox; [done|].
  apply stuck_received. by apply (st_queue c Hc).
Qed.

Lemma stuck_start (env : run_env C) c :
  stuck c →
  wp (startLocked id env) (λ _ c', stuck c' ∧ running c' = true) stuck c.
Proof.
  intros Hc. unfold startLocked. apply wp_bind, wp_self.
  pose proof (prepareRun_wp (resumed_env (history c) env) id (pending c) []) as Hp. unfold wp in Hp.
  destruct (prepareRun _ id (pending c) []) as [effects r]. apply wp_bind, wp_modify.
  assert (stuck (add_clients (open_clients effects) c)) as Hc1 by by apply (stuck_same c).
  destruct r as [run|e|t]; [|by apply wp_fail|by apply wp_lift].
  destruct Hp as [(meta & p & settings & stop & _ & _ & Hres & _ & _ & _ & Hin) _].
  apply wp_bind, wp_modify, wp_bind, wp_modify, wp_modify. split; [|done].
  destruct Hc as [H1 H2 H3 H4 H5]. constructor; try done. simpl. intros s [= <-].
  assert (resumed.ExternalInputIDs (run_restored run) = external_ids (history c)) as Hids.
  { unfold resumed_env in Hres. simpl in Hres. destruct (env_resume env); simplify_eq/=. by rewrite <- Hres. }
  destruct Hin as [Ho _ Hq Hs]. rewrite Hids in Hq, Hs. split; [done|].
  split; [rewrite Hs; by apply elem_of_union_r, elem_of_list_to_set|].
  rewrite Hq. intros (i & Hi & Hin)%list_elem_of_fmap.
  destruct (fresh_inputs_ids (list_to_set (external_ids (history c))) ([settings] ++ pending c ++ [stop]))
    as [_ Hf]. rewrite Forall_forall in Hf. apply (Hf i Hin). rewrite <- Hi.
  by apply elem_of_list_to_set.
Qed.

Lemma stuck_startLocked (env : run_env C) : keeps stuck (startLocked id env).
Proof. intros c Hc. eapply wp_mono; [by apply stuck_start|by intros _ c' [H _]|done]. Qed.

(** The run ends without an error, and its client closes: the message is
    pending still, and the chat runs again unless the run cannot be prepared. *)
Lemma stuck_restarts (env : run_env C) c :
  stuck c → goroutine c = Some (Returned None) → env_close env = None →
  wp (finish_run id env) (λ _ c', stuck c' ∧ (running c' = true ∨
      ∃ e, snd (startLocked id env (ended (add_clients (-1) c))) = Err e)) stuck c.
Proof.
  intros Hc Hg Hcl. unfold finish_run. apply wp_bind, wp_self. rewrite Hg, Hcl. cbn [join_opt].
  apply wp_bind, wp_modify. unfold finished. apply wp_bind, wp_modify.
  set (c1 := ended (add_clients (-1) c)).
  assert (stuck c1) as Hc1.
  { destruct Hc as [H1 H2 H3 H4 H5]. constructor; try done. simpl. by rewrite H1. }
  apply wp_bind, wp_ret, wp_bind, wp_self, wp_bind.
  pose proof (st_pending _ Hc1) as Hin.
  destruct (pending c1) as [|p ps] eqn:Hp; [by apply elem_of_nil in Hin|]. clear Hin Hp.
  pose proof (stuck_start env c1 Hc1) as Hs. unfold wp, mbind, M_bind, try in *.
  destruct (startLocked id env c1) as [c2 [u|e|t]] eqn:Es; simpl.
  - destruct Hs as [Hs Hr]. split; [done|by left].
  - split; [by apply (stuck_same c2)|right; by eexists].
  - exact Hs.
Qed.

Lemma stuck_broadcast ev c : stuck c → stuck (broadcastLocked ev c).
Proof. intros Hc. by apply (stuck_same c). Qed.

#[local] Hint Resolve keeps_ret keeps_self keeps_fail keeps_lift keeps_try stuck_submit stuck_startLocked : view.

Ltac stay :=
  repeat first
    [ progress auto with view nocore
    | apply keeps_bind; [|intros ?]
    | apply stuck_assign; by intros []
    | apply keeps_modify; intros ? ?; apply stuck_broadcast; assumption
    | progress cbv zeta
    | match goal with
      | |- keeps _ (match ?x with _ => _ end) => destruct x eqn:?
      end ].

Lemma stuck_return err : keeps stuck (return_run err).
Proof. unfold return_run. stay. Qed.

Lemma stuck_published i c :
  stuck c → (∀ input, input_of i = Some input → input.ID input ≠ input.ID m) → stuck (publish i c).
Proof.
  intros Hc Hi. unfold publish. destruct (Marshal SItem_codec i) as [v|e|t]; [|done..]. cbv zeta.
  apply stuck_broadcast. set (c1 := set_items _ c). assert (stuck c1) as Hc1 by by apply (stuck_same c).
  clearbody c1. destruct (input_of i) as [input|]; [|done].
  destruct Hc1 as [H1 H2 H3 H4 H5]. constructor; try done. simpl. apply list_elem_of_filter.
  split; [|done]. intros Heq. by apply (Hi input).
Qed.

Lemma stuck_append now kind data outcome c :
  stuck c → (∀ input, input_of (next_item now kind data c) = Some input → input.ID input ≠ input.ID m) →
  wp (append_item now kind data outcome) (λ _, stuck) stuck c.
Proof.
  intros Hc Hi. unfold append_item. apply wp_bind, wp_self. cbv zeta.
  assert (stuck (set_history (history c ++ [next_item now kind data c]) c)) as Hh.
  { destruct Hc as [H1 H2 H3 H4 H5]. constructor; try done. simpl. rewrite external_ids_snoc.
    by apply elem_of_app; left. }
  destruct (Marshal SItem_codec _) as [v|e|t]; [|by apply stuck_return|by apply wp_lift].
  destruct outcome as [|e|e]; [|by apply stuck_return|].
  - apply wp_bind, wp_modify, wp_modify. by apply stuck_published.
  - by apply wp_bind, wp_modify, stuck_return.
Qed.

Lemma stuck_send input_id text (env : run_env C) c :
  stuck c → input_id ∉ input.ID <$> accepted c → wp (send id input_id text env) (λ _, stuck) stuck c.
Proof.
  intros Hc Hid. assert (input_id ≠ input.ID m) as Hne.
  { intros ->. apply Hid, list_elem_of_fmap_2, Hc. }
  unfold send. apply wp_bind, wp_lift; [|done]. intros payload _. cbv zeta. apply wp_bind, wp_modify.
  assert (∀ i, stuck (set_pending (pending c ++ [i]) c)) as Hadd.
  { intros i. apply (stuck_same c); try done. intros j Hj. by apply elem_of_app; left. }
  assert (keeps stuck (modify (remove_pending input_id))) as Hremove.
  { apply keeps_modify. intros c' [H1 H2 H3 H4 H5]. constructor; try done. simpl. by apply list_elem_of_filter. }
  assert (∀ i, keeps stuck (modify (accept i))) as Haccept.
  { intros i. apply keeps_modify. intros c' Hc'. apply (stuck_same c'); try done.
    intros j Hj. by apply elem_of_app; left. }
  generalize (Hadd (input.Mk input_id InputExternal payload)).
  generalize (set_pending (pending c ++ [input.Mk input_id InputExternal payload]) c).
  change (keeps stuck (_ ← modify (set_lastErr EmptyString); c ← self;
    _ ← (if negb (running c) then
           r ← try (startLocked id env);
           match r with
           | Ok _ => mret tt
           | Err e => _ ← modify (remove_pending input_id); fail e
           | Panic t => lift (Panic t)
           end
         else
           r ← try (submit_input (input.Mk input_id InputExternal payload));
           c ← self;
           match r with
           | Ok _ => mret tt
           | Err e => if canceled c then mret tt else fail e
           | Panic t => lift (Panic t)
           end);
    modify (accept (input.Mk input_id InputExternal payload)))).
  stay.
Qed.

(** Nothing but a stop of the user ends it. *)
Lemma stuck_stays (a : chat_action (C := C)) c :
  stuck c → admissible a c → (∀ input_id, a ≠ CStop input_id) → wp (chat_step id a) (λ _, stuck) stuck c.
Proof.
  intros Hc Ha Hstop.
  destruct a as [input_id text env|env|input_id|after|ch|ch|now outcome|now kind data outcome|i|err|env| |a];
    cbn [chat_step].
  - by apply stuck_send.
  - assert (keeps stuck (retry id env)) as H by (unfold retry; stay). by apply H.
  - by destruct (Hstop input_id).
  - apply wp_modify. by apply (stuck_same c).
  - apply wp_modify. by apply (stuck_same c).
  - apply wp_modify. by apply (stuck_same c).
  - unfold take_input. apply wp_bind, wp_self. destruct (inbox_ c) as [s|] eqn:Hs; [|by apply wp_ret].
    destruct (queued s) as [|i rest] eqn:Hq; [by apply wp_ret|].
    destruct (coordinating c); [|by apply wp_ret]. apply wp_bind, wp_modify.
    destruct (st_queue c Hc s Hs) as (Ho & Hseen & Hn). rewrite Hq in Hn.
    change (input.ID <$> i :: rest) with (input.ID i :: (input.ID <$> rest)) in Hn.
    rewrite elem_of_cons in Hn. apply stuck_append.
    + apply stuck_inbox; [done|]. unfold Inbox.run. rewrite Ho, Hq. simpl. tauto.
    + intros input [= <-]. intros Heq. apply Hn. by left.
  - unfold store_item. apply wp_bind, wp_self.
    destruct data; try (by apply wp_ret); (destruct (coordinating c); [|by apply wp_ret]);
      by apply stuck_append.
  - assert (keeps stuck (heartbeat i)) as H by (unfold heartbeat; stay). by apply H.
  - by apply stuck_return.
  - assert (keeps stuck (modify ended)) as He.
    { apply keeps_modify. intros c' [H1 H2 H3 H4 H5]. constructor; try done. simpl. by rewrite H1. }
    assert (keeps stuck (finish_run id env)) as H by (unfold finish_run, finished; stay). by apply H.
  - apply wp_modify. destruct (running c); [|done]. by apply (stuck_same c).
  - assert (keeps stuck (on_gate a)) as H by (unfold on_gate; stay). by apply H.
Qed.
End Stuck.

(** ** A sample session *)

Definition sample_now : Time := "2026-01-02T03:04:05Z".

Definition sample_env : run_env unit :=
  MkRunEnv (sample_config "sk-1") sample_system
    (λ id, Some (meta.Mk id "Title" "/work" sample_now sample_now)) "/data" (λ _, None)
    (Ok (resumed.Mk (session.Mk "s" sample_now) [] [])) (λ _ _ _, Ok tt) None (λ _, [])
    (λ n, "skill-" +:+ Itoa (Z.of_nat n)) (λ n, "control-" +:+ Itoa (Z.of_nat n)) ("linux", "amd64", "Friday") None.

(** A message is sent, the coordinator stores the settings and then it, and a
    browser that subscribed before reads an event. *)
Definition sample_actions : list (chat_action (C := unit)) :=
  [CSubscribe 0; CSend "m1" "hello" sample_env; CTake sample_now Stored; CTake sample_now Stored; CReceive 0].

Definition run_chat {C} (id : SessionID) (actions : list (chat_action (C := C))) (c : chat) : chat :=
  fold_left (λ c a, fst (chat_step id a c)) actions c.

Definition sample_chat : chat := run_chat "s" sample_actions (opened_chat [] []).

Lemma sample_reachable : chat_reachable (C := unit) "s" [] [] sample_chat.
Proof.
  unfold sample_chat, run_chat, sample_actions. cbn [fold_left].
  repeat (apply reach_step; [|first [exact I|apply not_elem_of_nil]]). apply reach_open.
Qed.

Lemma messages_kept_and_stored_once_witness :
  NoDup (external_ids []) ∧ chat_reachable (C := unit) "s" [] [] sample_chat ∧
  input.ID <$> accepted sample_chat = ["m1"] ∧ external_ids (history sample_chat) = ["m1"] ∧
  (∀ i, i ∈ accepted sample_chat → i ∈ pending sample_chat ∨ i ∈ dropped sample_chat ∨
        input.ID i ∈ input_ids (history sample_chat)) ∧
  NoDup (external_ids (history sample_chat)).
Proof.
  split; [constructor|]. split; [exact sample_reachable|]. split; [vm_compute; reflexivity|].
  split; [vm_compute; reflexivity|].
  apply (messages_kept_and_stored_once (C := unit) "s" [] []); [constructor|exact sample_reachable].
Defined.

Lemma one_run_at_a_time_witness :
  NoDup (external_ids []) ∧ chat_reachable (C := unit) "s" [] [] sample_chat ∧ running sample_chat = true ∧
  (running sample_chat = true ↔ is_Some (goroutine sample_chat)) ∧
  (running sample_chat = true ↔ is_Some (inbox_ sample_chat)) ∧
  (running sample_chat = true ↔ is_Some (gate_ sample_chat)) ∧
  clients sample_chat = (if running sample_chat then 1 else 0).
Proof.
  split; [constructor|]. split; [exact sample_reachable|]. split; [vm_compute; reflexivity|].
  apply (one_run_at_a_time (C := unit) "s" [] []); [constructor|exact sample_reachable].
Defined.

Lemma subscribers_miss_nothing_witness :
  numbered [] ∧ pageable [] ∧ load_pages "s" (page_of []) 1 BeforeFirst [] = Some (Ok []) ∧
  chat_reachable (C := unit) "s" [] [] sample_chat ∧
  (citem.seq <$> items sample_chat) = [1; 2] ∧
  StronglySorted Z.lt (citem.seq <$> items sample_chat) ∧
  (∀ ch s, subs sample_chat !! ch = Some s →
    ∃ before missed,
      items sample_chat = before ++ sub_backlog s ++ items_of (received s ++ buffer s) ++ missed ∧
      Forall (λ i, citem.seq i ≤ sub_after s) before ∧
      Forall (λ i, sub_after s < citem.seq i) (sub_backlog s) ∧
      (sub_open s = true → missed = [])) ∧
  (∀ after before rest, items sample_chat = before ++ rest →
    Forall (λ i, citem.seq i ≤ after) before → Forall (λ i, after < citem.seq i) rest →
    ∃ ch s, subs sample_chat !! ch = None ∧ subs (subscribe after sample_chat) !! ch = Some s ∧
      sub_backlog s = rest ∧ sub_open s = true ∧ items_of (received s ++ buffer s) = []).
Proof.
  assert (numbered []) as Hn by (intros n i [=]).
  assert (pageable []) as Hp by (vm_compute; reflexivity).
  assert (load_pages "s" (page_of []) 1 BeforeFirst [] = Some (Ok [])) as Hl by (vm_compute; reflexivity).
  split; [exact Hn|]. split; [exact Hp|]. split; [exact Hl|]. split; [exact sample_reachable|].
  split; [vm_compute; reflexivity|].
  apply (subscribers_miss_nothing (C := unit) "s" [] [] 1 Hn Hp); [simpl; lia|exact Hl|exact sample_reachable].
Defined.
