(* ===== verification/Documents.v ===== *)
(** * Pages of a text (src/gui/tools.go)

    The commands fetch and read print a text in pages: [paginate] cuts a page
    of at most [limit] bytes out of the text, at the boundaries of its runes,
    and says where to go on.  A reader that follows these notes gets the whole
    text when a page has room for a rune; when it has not, it may be told to
    go on where it is. *)

From Stdlib Require Import Ascii ZArith Lia.
From S2P Require Import Prelude GoStrings GoText Utf8Facts TextFacts.

Local Open Scope Z_scope.

(** [for offset < total && !utf8.RuneStart(text[offset]) { offset++ }], from
    the bytes at the offset. *)
Fixpoint next_start (rest : bytes) (offset : Z) : Z :=
  match rest with
  | c :: rest => if utf8.RuneStart c then offset else next_start rest (offset + 1)
  | [] => offset
  end.

(** [for end > offset && !utf8.RuneStart(text[end]) { end-- }], where [end] is
    [n] bytes after the offset and [rest] is the text from there on. *)
Fixpoint back_to_start (rest : bytes) (n : nat) : nat :=
  match n with
  | O => O
  | S n' =>
    match rest !! n with
    | Some c => if utf8.RuneStart c then n else back_to_start rest n'
    | None => n
    end
  end.

(** Where the page begins and where it ends. *)
Definition page_bounds (text : bytes) (offset limit : Z) : Z * Z :=
  let total := len text in
  let offset := Z.min (Z.max offset 0) total in
  let offset := next_start (drop (Z.to_nat offset) text) offset in
  let end_ := wrap_int64 (offset + limit) in
  if (0 <? limit) && (end_ <? total) then
    (offset, if offset <? end_
             then offset + Z.of_nat (back_to_start (drop (Z.to_nat offset) text) (Z.to_nat (end_ - offset)))
             else end_)
  else (offset, total).

(** A page, and the offset that its note gives, when it is not the last. *)
Definition page_of (text : bytes) (offset limit : Z) : result (bytes * option Z) :=
  let '(offset, end_) := page_bounds text offset limit in
  if end_ <? offset then Panic "slice bounds out of range"
  else Ok (take (Z.to_nat (end_ - offset)) (drop (Z.to_nat offset) text),
           if end_ <? len text then Some end_ else None).

Definition paginate (text : bytes) (offset limit : Z) : result bytes :=
  '(page, next) ← page_of text offset limit;
  Ok (match next with
      | Some end_ =>
        page ++ to_bytes (String "010" (String "010" ("[Truncated: showing characters "
          +:+ Itoa (fst (page_bounds text offset limit)) +:+ "-" +:+ Itoa end_ +:+ " of " +:+ Itoa (len text)
          +:+ ". Continue with -offset " +:+ Itoa end_ +:+ "]")))
      | None => page
      end).

(** What a reader does: it asks for a page, and for the next one where the
    note says, until there is no note. *)
Fixpoint read_pages (fuel : nat) (text : bytes) (offset limit : Z) : option (list bytes) :=
  match fuel with
  | O => None
  | S fuel =>
    match page_of text offset limit with
    | Ok (page, Some next) => (λ rest, page :: rest) <$> read_pages fuel text next limit
    | Ok (page, None) => Some [page]
    | _ => None
    end
  end.

Example pages_of_a_text :
  read_pages 4 (to_bytes "añejo año") 0 4 = Some (to_bytes <$> ["añe"; "jo a"; "ño"]) ∧
  paginate (to_bytes "añejo año") 0 4 = Ok (to_bytes ("añe" +:+ String "010" (String "010"
    "[Truncated: showing characters 0-4 of 11. Continue with -offset 4]"))).
Proof. split; vm_compute; reflexivity. Qed.

(** ** Boundaries *)

(** The text is cut between two runes at this offset. *)
Definition boundary (text : bytes) (n : nat) : Prop :=
  (n ≤ length text)%nat ∧ ∀ c, text !! n = Some c → utf8.RuneStart c = true.

Lemma next_start_boundary text n :
  boundary text n → next_start (drop n text) (Z.of_nat n) = Z.of_nat n.
Proof.
  intros [Hn H]. destruct (drop n text) as [|c rest] eqn:E; [done|]. simpl.
  rewrite H; [done|]. rewrite <- (Nat.add_0_r n), <- lookup_drop, E. done.
Qed.

Lemma back_to_start_spec rest n :
  (back_to_start rest n ≤ n)%nat ∧
  (back_to_start rest n ≠ 0%nat → ∀ c, rest !! back_to_start rest n = Some c → utf8.RuneStart c = true) ∧
  (∀ k c, (back_to_start rest n < k)%nat → (k ≤ n)%nat → rest !! k = Some c → utf8.RuneStart c = false).
Proof.
  induction n as [|n (IH1 & IH2 & IH3)]; [cbn; split_and!; [lia|done|intros; lia]|]. cbn [back_to_start].
  destruct (rest !! S n) as [c|] eqn:Hc.
  - destruct (utf8.RuneStart c) eqn:Hr.
    + split_and!; [lia|intros _ c' Hc'; congruence|intros; lia].
    + split_and!; [lia|done|]. intros k c' Hk1 Hk2 Hc'.
      destruct (decide (k = S n)) as [->|]; [congruence|]. apply (IH3 k c'); [done|lia|done].
  - split_and!; [lia|intros _ c' Hc'; congruence|intros; lia].
Qed.

Lemma valid_head p : utf8.Valid p = true → ∀ c, p !! 0%nat = Some c → utf8.RuneStart c = true.
Proof.
  intros Hv c Hc. destruct p as [|c0 p]; [done|]. injection Hc as ->.
  unfold utf8.Valid in Hv. rewrite chunks_cons in Hv by done. simpl in Hv.
  apply andb_true_iff in Hv as [Hv _]. unfold utf8.valid_chunk in Hv. rewrite DecodeRune_take in Hv.
  destruct (decide (1 < snd (utf8.DecodeRune (c :: p)))%nat) as [Hs|Hs]; [by apply DecodeRune_head in Hs|].
  pose proof (DecodeRune_size (c :: p) ltac:(done)) as [H1 _].
  assert (snd (utf8.DecodeRune (c :: p)) = 1%nat) as Hs1 by lia.
  unfold utf8.RuneStart, utf8.continuation, utf8.between.
  destruct (byte_val c <? 0x80) eqn:Hb; [by rewrite (proj2 (Z.leb_gt _ _)) by lia|].
  pose proof (DecodeRune_single_byte c p Hs1) as Hd. rewrite <- Hd in Hv.
  unfold utf8.DecodeRune in Hv. rewrite Hb in Hv. by destruct (utf8.first c) as [[[? ?] ?]|].
Qed.

Lemma valid_rest p : p ≠ [] → utf8.Valid p = true → utf8.Valid (drop (snd (utf8.DecodeRune p)) p) = true.
Proof.
  intros Hp Hv. unfold utf8.Valid in *. rewrite chunks_cons in Hv by done. simpl in Hv.
  by apply andb_true_iff in Hv as [_ Hv].
Qed.

(** Four bytes of a valid text hold the first byte of a rune. *)
Lemma valid_window p k :
  utf8.Valid p = true → (k + 3 < length p)%nat →
  ∃ j c, (k ≤ j ≤ k + 3)%nat ∧ p !! j = Some c ∧ utf8.RuneStart c = true.
Proof.
  revert k. induction p as [|p Hp IH] using chunks_ind; intros k Hv Hk; [simpl in Hk; lia|].
  destruct (DecodeRune_size p Hp) as [Hs Hl]. pose proof (valid_rest p Hp Hv) as Hrest.
  set (size := snd (utf8.DecodeRune p)) in *.
  destruct (decide (k = 0%nat)) as [->|Hk0].
  { destruct (lookup_lt_is_Some_2 p 0) as [c Hc]; [lia|]. exists 0%nat, c.
    split; [lia|]. split; [done|]. by apply (valid_head p). }
  destruct (decide (k < size)%nat) as [Hlt|Hge].
  - destruct (lookup_lt_is_Some_2 p size) as [c Hc]; [lia|]. exists size, c.
    split; [lia|]. split; [done|]. apply (valid_head _ Hrest). by rewrite lookup_drop, Nat.add_0_r.
  - destruct (IH (k - size)%nat Hrest) as (j & c & Hj & Hc & Hr); [rewrite length_drop; lia|].
    exists (size + j)%nat, c. split; [lia|]. by rewrite <- lookup_drop.
Qed.

Lemma valid_cut p n :
  utf8.Valid p = true → boundary p n → utf8.Valid (take n p) = true ∧ utf8.Valid (drop n p) = true.
Proof.
  intros Hv [Hn Hb]. destruct (decide (n = length p)) as [->|].
  { by rewrite firstn_all, drop_all. }
  destruct (lookup_lt_is_Some_2 p n) as [c Hc]; [lia|].
  destruct (rune_start_boundary p n c Hc (Hb c Hc)) as (k & Hk & Hd).
  assert (take n p = concat (take k (utf8.chunks p))) as Ht.
  { rewrite <- (concat_chunks p) at 1. rewrite <- (take_drop k (utf8.chunks p)) at 1.
    rewrite concat_app, <- Hk. apply take_app_length. }
  rewrite Ht, Hd. unfold utf8.Valid in *. rewrite chunks_take, chunks_drop.
  rewrite <- (take_drop k (utf8.chunks p)), forallb_app in Hv. by apply andb_true_iff in Hv.
Qed.

(** ** Pages *)

Section Pages.
Context (text : bytes) (limit : Z).
Context (Hvalid : utf8.Valid text = true) (Hroom : 4 ≤ limit) (Hsize : len text + limit < 2 ^ 63).

(** A page that is not the last one ends at a boundary, at most three bytes
    before its limit. *)
Lemma page_of_boundary n :
  boundary text n →
  page_of text (Z.of_nat n) limit = Ok (drop n text, None) ∧ len text ≤ Z.of_nat n + limit ∨
  ∃ m, Z.of_nat n + limit - 3 ≤ Z.of_nat m ≤ Z.of_nat n + limit ∧ boundary text m ∧
    page_of text (Z.of_nat n) limit = Ok (take (m - n) (drop n text), Some (Z.of_nat m)).
Proof.
  intros Hb. pose proof Hb as [Hn _]. unfold page_of, page_bounds. cbv zeta. unfold len in *.
  rewrite (Z.max_l (Z.of_nat n)), Z.min_l by lia. rewrite Nat2Z.id, next_start_boundary by done.
  rewrite wrap_int64_small by (unfold in_int64; lia). rewrite (proj2 (Z.ltb_lt 0 limit)) by lia. simpl.
  destruct (Z.ltb_spec (Z.of_nat n + limit) (Z.of_nat (length text))) as [Hlt|Hge].
  - right. rewrite (proj2 (Z.ltb_lt (Z.of_nat n) _)) by lia.
    replace (Z.of_nat n + limit - Z.of_nat n) with limit by lia. rewrite Nat2Z.id.
    destruct (back_to_start_spec (drop n text) (Z.to_nat limit)) as (H1 & H2 & H3).
    set (k := back_to_start (drop n text) (Z.to_nat limit)) in *.
    assert (Z.to_nat limit - 3 ≤ k)%nat as Hk.
    { destruct (valid_cut text n Hvalid Hb) as [_ Hv].
      destruct (valid_window (drop n text) (Z.to_nat limit - 3) Hv) as (j & c & Hj & Hc & Hr);
        [rewrite length_drop; lia|].
      destruct (decide (k < j)%nat) as [Hkj|]; [|lia].
      rewrite (H3 j c Hkj) in Hr by (done || lia). done. }
    exists (n + k)%nat. split; [lia|]. split.
    + split; [lia|]. intros c Hc. apply H2; [lia|]. by rewrite lookup_drop.
    + rewrite (proj2 (Z.ltb_ge _ _)) by lia. rewrite (proj2 (Z.ltb_lt _ _)) by lia.
      do 2 f_equal; [|f_equal; lia]. f_equal. lia.
  - left. split; [|lia]. rewrite (proj2 (Z.ltb_ge _ _)) by lia. rewrite (proj2 (Z.ltb_ge _ _)) by lia.
    rewrite Nat2Z.id. rewrite firstn_all2 by (rewrite length_drop; lia). done.
Qed.

Lemma pages_from fuel n :
  boundary text n → Z.of_nat (length text) - Z.of_nat n < Z.of_nat fuel * (limit - 3) →
  ∃ pages, read_pages fuel text (Z.of_nat n) limit = Some pages ∧ concat pages = drop n text ∧
    Forall (λ page, len page ≤ limit ∧ utf8.Valid page = true) pages.
Proof.
  revert n. induction fuel as [|fuel IH]; intros n Hb Hf; [destruct Hb; lia|].
  destruct (valid_cut text n Hvalid Hb) as [_ Hv]. cbn [read_pages].
  destruct (page_of_boundary n Hb) as [[-> Hlast]|(m & Hm & Hbm & ->)].
  - exists [drop n text]. split; [done|]. split; [apply app_nil_r|]. constructor; [|done].
    split; [|done]. unfold len in *. rewrite length_drop. lia.
  - destruct (IH m Hbm) as (pages & -> & Hc & Hp); [lia|].
    exists (take (m - n) (drop n text) :: pages). split; [done|]. split.
    + simpl. rewrite Hc. rewrite <- (take_drop (m - n) (drop n text)) at 2. rewrite drop_drop.
      by replace (n + (m - n))%nat with m by lia.
    + constructor; [|done]. split; [unfold len; rewrite length_take; lia|].
      apply valid_cut; [done|]. split; [rewrite length_drop; destruct Hbm; lia|].
      intros c Hc'. rewrite lookup_drop in Hc'. apply (proj2 Hbm). by replace m with (n + (m - n))%nat by lia.
Qed.
End Pages.

(** C35: A reader that follows the notes gets the whole text: when a page has
    room for any rune (four bytes) and the sizes do not overflow, reading a
    valid text from its start ends after at most one page for every
    [limit - 3] bytes and one more, every page is valid and within the limit,
    and the pages are the text. *)
Theorem text_read_in_pages text limit :
  utf8.Valid text = true → 4 ≤ limit → len text + limit < 2 ^ 63 →
  ∃ pages, read_pages (S (Z.to_nat (len text / (limit - 3)))) text 0 limit = Some pages ∧
    concat pages = text ∧ Forall (λ page, len page ≤ limit ∧ utf8.Valid page = true) pages.
Proof.
  intros Hv Hl Hs. apply (pages_from text limit Hv Hl Hs _ 0).
  - split; [lia|]. by apply valid_head.
  - unfold len in *. pose proof (Z.div_pos (Z.of_nat (length text)) (limit - 3) ltac:(lia) ltac:(lia)).
    pose proof (Z.mul_succ_div_gt (Z.of_nat (length text)) (limit - 3) ltac:(lia)). lia.
Qed.

Lemma text_read_in_pages_witness :
  ∃ pages, read_pages 12 (to_bytes "añejo año") 0 4 = Some pages ∧
    concat pages = to_bytes "añejo año" ∧ Forall (λ page, len page ≤ 4 ∧ utf8.Valid page = true) pages.
Proof. apply (text_read_in_pages (to_bytes "añejo año") 4); [vm_compute; reflexivity|lia|reflexivity]. Defined.

(** With less room a page can be empty and send the reader to where it is,
    and a limit at the end of the integers makes the offset wrap. *)
Definition grin : bytes := utf8.EncodeRune 0x1F600.

Lemma narrow_page_stalls limit fuel :
  0 < limit < 4 → page_of grin 0 limit = Ok ([], Some 0) ∧ read_pages fuel grin 0 limit = None.
Proof.
  intros H. assert (page_of grin 0 limit = Ok ([], Some 0)) as Hp.
  { assert (limit = 1 ∨ limit = 2 ∨ limit = 3) as [->|[->| ->]] by lia; vm_compute; reflexivity. }
  split; [done|]. induction fuel as [|fuel IH]; [done|]. cbn [read_pages]. by rewrite Hp, IH.
Qed.

Lemma wide_page_panics : paginate (to_bytes "text") 1 (2 ^ 63 - 1) = Panic "slice bounds out of range".
Proof. vm_compute. reflexivity. Qed.
