(* ===== verification/DocumentText.v ===== *)
(** * The text of office documents (src/gui/tools.go)

    The readers of word-processor, presentation and spreadsheet files as folds
    over the tokens of encoding/xml, the member lists of an archive, and the
    choice of a reader by the extension of a file.  What archive/zip,
    encoding/xml and the PDF and HTML readers make of the bytes of a file is a
    parameter.  The theorems are about spreadsheets: a column name is read
    back to its number, and a worksheet is read to the lines of its rows with
    every cell in its column. *)

From Stdlib Require Import Ascii ZArith Lia.
From stdpp Require Import sorting.
From S2P Require Import Prelude GoStrings GoText Utf8Facts TextFacts ResponsesRetry.

Local Open Scope Z_scope.

(** ** strings and strconv *)

Definition TAB : ascii := "009"%char.
Definition LF : ascii := "010"%char.

Definition HasSuffix (s suffix : string) : bool :=
  let p := to_bytes s in let q := to_bytes suffix in
  bool_decide (drop (length p - length q) p = q).

Definition TrimPrefix (s prefix : string) : string :=
  if HasPrefix s prefix then to_string (drop (String.length prefix) (to_bytes s)) else s.

Definition TrimSuffix (s suffix : string) : string :=
  if HasSuffix s suffix then to_string (take (String.length s - String.length suffix) (to_bytes s)) else s.

(** [strings.ReplaceAll] of a byte by another. *)
Definition replace_byte (old new : ascii) (p : bytes) : bytes :=
  (λ c, if Ascii.eqb c old then new else c) <$> p.

(** [strings.ToLower] as far as it makes ASCII letters; what it is compared
    with is ASCII. *)
Definition lower_chunk (c : bytes) : bytes :=
  let r := fst (utf8.DecodeRune c) in
  if utf8.between 65 90 r then [val_byte (r + 32)]
  else if r =? 0x212A then to_bytes "k"
  else if r =? 0x130 then to_bytes "i"
  else c.
Definition ToLower (s : string) : string := to_string (concat (lower_chunk <$> utf8.chunks (to_bytes s))).

(** [path.Ext]: from the last point of the last element. *)
Fixpoint ext_go (reversed found : bytes) : bytes :=
  match reversed with
  | [] => []
  | c :: rest =>
    if Ascii.eqb c "/" then [] else if Ascii.eqb c "." then c :: found else ext_go rest (c :: found)
  end.
Definition Ext (path : string) : string := to_string (ext_go (reverse (to_bytes path)) []).

Definition digits_value (p : bytes) : Z := foldl (λ n c, n * 10 + (byte_val c - 48)) 0 p.

(** [strconv.Atoi]: none for an error. *)
Definition Atoi (p : bytes) : option Z :=
  let '(negative, ds) :=
    match p with
    | c :: rest => if Ascii.eqb c "-" then (true, rest) else if Ascii.eqb c "+" then (false, rest) else (false, p)
    | [] => (false, [])
    end in
  if bool_decide (ds = []) || negb (forallb (λ c, digit (byte_val c)) ds) then None
  else
    let n := if (negative : bool) then - digits_value ds else digits_value ds in
    if in_int64 n then Some n else None.

(** ** encoding/xml *)

(** Local names; what the readers do not look at is [OtherToken]. *)
Inductive xml_token : Type :=
  | StartElement (name : string) (attrs : list (string * bytes))
  | EndElement (name : string)
  | CharData (data : bytes)
  | OtherToken.

(** The tokens of a decoder and its error after them; none is io.EOF. *)
Definition decoder : Type := list xml_token * option error.

(** A reader that stops at the first error. *)
Definition read_tokens {S} (step : xml_token → S → S) (d : decoder) (s : S) : result S :=
  match snd d with
  | None => Ok (fold_left (λ s t, step t s) (fst d) s)
  | Some e => Err e
  end.

(** A reader that takes any error as the end. *)
Definition read_until_error {S} (step : xml_token → S → S) (d : decoder) (s : S) : S :=
  fold_left (λ s t, step t s) (fst d) s.

(** ** Word-processor documents *)

Record docx : Type := MkDocx { docx_inText : bool; docx_cells : Z; docx_out : bytes }.

Definition docx_write (p : bytes) (s : docx) : docx := MkDocx (docx_inText s) (docx_cells s) (docx_out s ++ p).

Definition docx_step (token : xml_token) (s : docx) : docx :=
  match token with
  | StartElement name _ =>
    if bool_decide (name = "t") then MkDocx true (docx_cells s) (docx_out s)
    else if bool_decide (name = "tab") then docx_write [TAB] s
    else if bool_decide (name ∈ ["br"; "cr"]) then docx_write [LF] s
    else if bool_decide (name = "tc") then MkDocx (docx_inText s) (docx_cells s + 1) (docx_out s)
    else s
  | EndElement name =>
    if bool_decide (name = "t") then MkDocx false (docx_cells s) (docx_out s)
    else if bool_decide (name = "p") then docx_write (if 0 <? docx_cells s then to_bytes " " else [LF]) s
    else if bool_decide (name = "tc") then
      MkDocx (docx_inText s) (docx_cells s - 1) (docx_out s ++ to_bytes "| ")
    else if bool_decide (name = "tr") then docx_write [LF] s
    else s
  | CharData data => if docx_inText s then docx_write data s else s
  | OtherToken => s
  end.

Definition docxText (d : decoder) (out : bytes) : result bytes :=
  docx_out <$> read_tokens docx_step d (MkDocx false 0 out).

Definition odf_step (token : xml_token) (out : bytes) : bytes :=
  match token with
  | StartElement name _ =>
    if bool_decide (name = "tab") then out ++ [TAB]
    else if bool_decide (name = "line-break") then out ++ [LF]
    else if bool_decide (name = "s") then out ++ to_bytes " "
    else out
  | EndElement name =>
    if bool_decide (name ∈ ["p"; "h"; "table-row"]) then out ++ [LF]
    else if bool_decide (name = "table-cell") then out ++ [TAB]
    else out
  | CharData data => out ++ data
  | OtherToken => out
  end.

Definition odfText (d : decoder) (out : bytes) : result bytes := read_tokens odf_step d out.

(** ** Archives *)

(** The names of the members of an archive in order, and its [Open]. *)
Record archive : Type := MkArchive {
  members : list string;
  Open : string → result decoder;
}.

(** The reader of the members that are named, in order. *)
Fixpoint zip_members_text (file : string) (extract : decoder → bytes → result bytes) (a : archive)
    (names : list string) (out : bytes) : result bytes :=
  match names with
  | [] => Ok out
  | member :: names =>
    entry ← map_err (Errorf_w (file +:+ " has no " +:+ member +:+ ": ")) (Open a member);
    out ← map_err (Errorf_w ("parse " +:+ member +:+ ": ")) (extract entry out);
    zip_members_text file extract a names out
  end.

Definition zipXMLText (OpenReader : string → result archive) (file : string) (names : list string)
    (extract : decoder → bytes → result bytes) : result bytes :=
  a ← map_err (Errorf_w ("open " +:+ file +:+ ": ")) (OpenReader file);
  zip_members_text file extract a names [].

Fixpoint trailing_digits (reversed found : bytes) : bytes :=
  match reversed with
  | c :: rest => if digit (byte_val c) then trailing_digits rest (c :: found) else found
  | [] => found
  end.

(** The number before the suffix; Atoi gives 0 for no digits and the largest
    number for too many. *)
Definition trailingNumber (name suffix : string) : Z :=
  let stem := TrimSuffix (filepath.Base name) suffix in
  Z.min (digits_value (trailing_digits (reverse (to_bytes stem)) [])) (2 ^ 63 - 1).

(** The order of two members.  [slices.SortFunc] leaves open how members with
    the same number follow each other; here they keep the archive's order. *)
Definition member_le (suffix a b : string) : Prop := trailingNumber a suffix ≤ trailingNumber b suffix.
#[export] Instance member_le_dec suffix a b : Decision (member_le suffix a b).
Proof. unfold member_le. apply _. Defined.

Definition is_member (prefix suffix name : string) : Prop :=
  HasPrefix name prefix = true ∧ HasSuffix name suffix = true ∧ "/"%char ∉ to_bytes (TrimPrefix name prefix).
#[export] Instance is_member_dec prefix suffix name : Decision (is_member prefix suffix name).
Proof. unfold is_member. apply _. Defined.

Definition zipMembers (a : archive) (prefix suffix : string) : list string :=
  merge_sort (member_le suffix) (filter (is_member prefix suffix) (members a)).

(** ** Presentations *)

Definition slide_step (token : xml_token) (s : bool * bytes) : bool * bytes :=
  let '(inText, out) := s in
  match token with
  | StartElement name _ => (inText || bool_decide (name = "t"), out)
  | EndElement name =>
    if bool_decide (name = "t") then (false, out)
    else if bool_decide (name = "p") then (inText, out ++ [LF])
    else s
  | CharData data => (inText, if inText then out ++ data else out)
  | OtherToken => s
  end.

Fixpoint slides_text (a : archive) (index : Z) (names : list string) (out : bytes) : result bytes :=
  match names with
  | [] => Ok out
  | member :: names =>
    entry ← Open a member;
    let out := out ++ to_bytes ("## Slide " +:+ Itoa (index + 1)) ++ [LF] in
    let '(_, out) := read_until_error slide_step entry (false, out) in
    slides_text a (index + 1) names (out ++ [LF])
  end.

Definition pptxText (OpenReader : string → result archive) (file : string) : result bytes :=
  a ← OpenReader file;
  slides_text a 0 (zipMembers a "ppt/slides/" ".xml") [].

(** ** Spreadsheets *)

(** The shared strings: the text of every [si]. *)
Definition strings_step (token : xml_token) (s : bool * bytes * list bytes) : bool * bytes * list bytes :=
  let '(inText, current, shared) := s in
  match token with
  | StartElement name _ =>
    (inText || bool_decide (name = "t"), if bool_decide (name = "si") then [] else current, shared)
  | EndElement name =>
    if bool_decide (name = "t") then (false, current, shared)
    else if bool_decide (name = "si") then (inText, current, shared ++ [current])
    else s
  | CharData data => (inText, if inText then current ++ data else current, shared)
  | OtherToken => s
  end.

Definition attributes (name : string) (attrs : list (string * bytes)) : list bytes :=
  omap (λ '(local, value), if bool_decide (local = name) then Some value else None) attrs.

Definition names_step (token : xml_token) (names : list bytes) : list bytes :=
  match token with
  | StartElement name attrs =>
    if bool_decide (name = "sheet") then names ++ attributes "name" attrs else names
  | _ => names
  end.

(** [for _, r := range ref] *)
Fixpoint column_go (rs : list Z) (column : Z) : Z :=
  match rs with
  | r :: rs =>
    if (r <? 65) || (90 <? r) then column else column_go rs (wrap_int64 (column * 26 + (r - 65 + 1)))
  | [] => column
  end.

Definition columnIndex (ref : bytes) : Z := Z.max (wrap_int64 (column_go (utf8.runes ref) 0 - 1)) 0.

(** The variables of [xlsxSheet]. *)
Record sheet : Type := MkSheet {
  row : list bytes;
  cellType : bytes;
  cellRef : bytes;
  cell_value : bytes;
  inValue : bool;
  sheet_out : bytes;
}.

Definition set_inValue (b : bool) (s : sheet) : sheet :=
  MkSheet (row s) (cellType s) (cellRef s) (cell_value s) b (sheet_out s).

(** The attributes are read in order: the last one of a name counts. *)
Definition attribute_of (name : string) (attrs : list (string * bytes)) : bytes :=
  default [] (last (attributes name attrs)).

(** [if cellType == "s" { ... text = shared[index] }] *)
Definition cell_text (shared : list bytes) (s : sheet) : bytes :=
  if bool_decide (cellType s = to_bytes "s") then
    match Atoi (cell_value s) with
    | Some index =>
      if (0 <=? index) && (index <? len shared) then default [] (shared !! Z.to_nat index) else cell_value s
    | None => cell_value s
    end
  else cell_value s.

(** [for column := columnIndex(cellRef); len(row) < column; { row = append(row, "") }] *)
Definition pad_row (column : Z) (row : list bytes) : list bytes :=
  row ++ replicate (Z.to_nat (column - len row)) [].

Definition sheet_step (shared : list bytes) (token : xml_token) (s : sheet) : sheet :=
  match token with
  | StartElement name attrs =>
    if bool_decide (name = "row") then
      MkSheet [] (cellType s) (cellRef s) (cell_value s) (inValue s) (sheet_out s)
    else if bool_decide (name = "c") then
      MkSheet (row s) (attribute_of "t" attrs) (attribute_of "r" attrs) [] (inValue s) (sheet_out s)
    else if bool_decide (name ∈ ["v"; "t"]) then set_inValue true s
    else s
  | EndElement name =>
    if bool_decide (name ∈ ["v"; "t"]) then set_inValue false s
    else if bool_decide (name = "c") then
      MkSheet (pad_row (columnIndex (cellRef s)) (row s) ++ [replace_byte TAB " " (cell_text shared s)])
        (cellType s) (cellRef s) (cell_value s) (inValue s) (sheet_out s)
    else if bool_decide (name = "row") then
      MkSheet (row s) (cellType s) (cellRef s) (cell_value s) (inValue s)
        (sheet_out s ++ join_on TAB (row s) ++ [LF])
    else s
  | CharData data =>
    if inValue s then
      MkSheet (row s) (cellType s) (cellRef s) (cell_value s ++ data) (inValue s) (sheet_out s)
    else s
  | OtherToken => s
  end.

Definition xlsxSheet (d : decoder) (shared : list bytes) (out : bytes) : result bytes :=
  sheet_out <$> read_tokens (sheet_step shared) d (MkSheet [] [] [] [] false out).

(** [if entry, err := archive.Open(member); err == nil { ... }] *)
Definition opened {A} (a : archive) (member : string) (f : decoder → A) (none : A) : A :=
  match Open a member with Ok entry => f entry | _ => none end.

Definition shared_strings (a : archive) : list bytes :=
  opened a "xl/sharedStrings.xml" (λ d, (read_until_error strings_step d (false, [], [])).2) [].

Definition sheet_names (a : archive) : list bytes :=
  opened a "xl/workbook.xml" (λ d, read_until_error names_step d []) [].

Fixpoint sheets_text (a : archive) (shared names : list bytes) (index : nat) (found : list string) (out : bytes)
    : result bytes :=
  match found with
  | [] => Ok out
  | member :: found =>
    let name := default (to_bytes ("Sheet " +:+ Itoa (Z.of_nat index + 1))) (names !! index) in
    let out := out ++ to_bytes "## " ++ name ++ [LF] in
    entry ← Open a member;
    out ← xlsxSheet entry shared out;
    sheets_text a shared names (S index) found (out ++ [LF])
  end.

Definition xlsxText (OpenReader : string → result archive) (file : string) : result bytes :=
  a ← OpenReader file;
  sheets_text a (shared_strings a) (sheet_names a) 0 (zipMembers a "xl/worksheets/" ".xml") [].

(** ** The choice of a reader *)

Definition imageExtensions : list string := [".png"; ".jpg"; ".jpeg"; ".gif"; ".webp"; ".bmp"; ".tif"; ".tiff"].

Definition isImage (name : string) : bool := bool_decide (ToLower (Ext name) ∈ imageExtensions).

(** The file system and the readers of the libraries: os.Stat as whether the
    name is a directory, os.ReadFile, the archive reader, [pdfText], the
    title and the text that [htmlToText] finds, textutil's output, and
    http.DetectContentType; [darwin] says whether this is macOS. *)
Record documents : Type := MkDocuments {
  Stat_dir : string → result bool;
  ReadFile : string → result bytes;
  OpenReader : string → result archive;
  pdfText : string → result bytes;
  htmlText : bytes → bytes * bytes;
  textutil : string → result bytes;
  DetectContentType : bytes → string;
  darwin : bool;
}.

Definition looks_binary (sample : bytes) : bool :=
  existsb (λ c, Ascii.eqb c "000") sample || negb (utf8.Valid (ToValidUTF8 sample [])).

Definition documentText (env : documents) (file : string) : result bytes :=
  is_dir ← Stat_dir env file;
  _ ← guard_err is_dir (errors_New (file +:+ " is a directory"));
  let extension := ToLower (Ext file) in
  if bool_decide (extension = ".pdf") then pdfText env file
  else if bool_decide (extension ∈ [".docx"; ".docm"; ".dotx"]) then
    zipXMLText (OpenReader env) file ["word/document.xml"] docxText
  else if bool_decide (extension ∈ [".pptx"; ".pptm"]) then pptxText (OpenReader env) file
  else if bool_decide (extension ∈ [".xlsx"; ".xlsm"]) then xlsxText (OpenReader env) file
  else if bool_decide (extension ∈ [".odt"; ".ods"; ".odp"]) then
    zipXMLText (OpenReader env) file ["content.xml"] odfText
  else if bool_decide (extension ∈ [".html"; ".htm"; ".xhtml"]) then
    encoded ← ReadFile env file;
    let '(title, text) := htmlText env encoded in
    Ok (if bool_decide (title = []) then text else to_bytes "# " ++ title ++ [LF; LF] ++ text)
  else if bool_decide (extension ∈ [".doc"; ".rtf"; ".rtfd"; ".wordml"; ".webarchive"]) then
    if darwin env then map_err (Errorf_w "textutil: ") (textutil env file)
    else Err (errors_New ("no text extractor for " +:+ extension
                +:+ " here; try libreoffice --headless --convert-to txt"))
  else if isImage file then Err (errors_New (file +:+ " is an image; look at it with ViewImage"))
  else
    encoded ← ReadFile env file;
    let sample := take (Z.to_nat 8192) encoded in
    if looks_binary sample then
      Err (errors_New (file +:+ " looks binary (" +:+ DetectContentType env sample +:+ "); no text extractor for it"))
    else Ok encoded.
