(* ===== verification/DocumentFacts.v ===== *)
(** * What is read of a spreadsheet

    The check of a text file that never fails, numbers and column names that
    are read back, and the lines of a worksheet. *)

From Stdlib Require Import Ascii ZArith Sorted Lia.
From stdpp Require Import sorting.
From S2P Require Import Prelude GoStrings GoText Utf8Facts TextFacts ResponsesRetry DocumentText.

Local Open Scope Z_scope.

(** ** The check of a text file *)

Lemma to_valid_valid run cs : Forall is_chunk cs → utf8.Valid (to_valid [] run cs) = true.
Proof.
  intros H. revert run. induction H as [|c cs Hc _ IH]; intros run; [done|]. cbn [to_valid].
  destruct (utf8.valid_chunk c) eqn:Hv; [|destruct run; apply IH].
  apply Valid_app; [by apply Valid_chunk|apply IH].
Qed.

(** [bytes.ToValidUTF8] makes any text valid, so only a zero byte counts. *)
Lemma looks_binary_zero sample : looks_binary sample = existsb (λ c, Ascii.eqb c "000") sample.
Proof.
  unfold looks_binary, ToValidUTF8. rewrite to_valid_valid by apply chunks_is_chunk. apply orb_false_r.
Qed.

(** ** Numbers *)

Definition is_digit (c : ascii) : Prop := digit (byte_val c) = true.

Lemma pretty_N_char_digit (x : N) :
  (x < 10)%N → is_digit (pretty_N_char x) ∧ byte_val (pretty_N_char x) = 48 + Z.of_N x.
Proof.
  intros H. assert (x ∈ [0;1;2;3;4;5;6;7;8;9]%N) as Hx.
  { destruct x as [|p]; [by left|].
    do 10 (destruct p as [p|p|]; try (exfalso; lia); try (set_solver by lia)). }
  repeat (apply elem_of_cons in Hx as [->|Hx]; [done|]). by apply elem_of_nil in Hx.
Qed.

Definition digit_step (n : Z) (c : ascii) : Z := n * 10 + (byte_val c - 48).

Lemma pretty_N_go_value x s :
  Forall is_digit (to_bytes s) →
  Forall is_digit (to_bytes (pretty_N_go x s)) ∧
  foldl digit_step 0 (to_bytes (pretty_N_go x s)) = foldl digit_step (Z.of_N x) (to_bytes s).
Proof.
  revert s. induction (N.lt_wf_0 x) as [x _ IH]. intros s Hs.
  destruct (decide (x = 0)%N) as [->|Hx]; [by rewrite pretty_N_go_0|].
  rewrite pretty_N_go_step by lia.
  assert (x `mod` 10 < 10)%N as Hm by (apply N.mod_lt; lia).
  destruct (pretty_N_char_digit _ Hm) as [Hd Hv].
  destruct (IH (x `div` 10)%N) with (s := String (pretty_N_char (x `mod` 10)) s) as [H1 H2];
    [apply N.div_lt; lia|by constructor|].
  split; [done|]. rewrite H2. simpl. f_equal. unfold digit_step. rewrite Hv.
  pose proof (N.div_mod x 10 ltac:(lia)). lia.
Qed.

(** A number is read back from its digits. *)
Lemma Itoa_digits n :
  0 ≤ n → Forall is_digit (to_bytes (Itoa n)) ∧ to_bytes (Itoa n) ≠ [] ∧ digits_value (to_bytes (Itoa n)) = n.
Proof.
  intros Hn. destruct (decide (n = 0)) as [->|Hne]; [by repeat constructor|].
  destruct n as [|p|p]; [done| |lia].
  assert (Itoa (Zpos p) = pretty_N_go (Npos p) EmptyString) as ->.
  { unfold Itoa. change (pretty (Zpos p)) with (pretty (Npos p)). unfold pretty, pretty_N. by case_decide. }
  destruct (pretty_N_go_value (Npos p) EmptyString) as [H1 H2]; [constructor|].
  split; [done|]. assert (digits_value (to_bytes (pretty_N_go (Npos p) EmptyString)) = Zpos p) as Hv
    by (unfold digits_value; exact H2).
  split; [|done]. intros He. rewrite He in Hv. done.
Qed.

Lemma digit_not_sign c : is_digit c → Ascii.eqb c "-" = false ∧ Ascii.eqb c "+" = false.
Proof. intros H. split; [destruct (Ascii.eqb_spec c "-") as [->|]|destruct (Ascii.eqb_spec c "+") as [->|]]; done. Qed.

Lemma Atoi_Itoa n : 0 ≤ n < 2 ^ 63 → Atoi (to_bytes (Itoa n)) = Some n.
Proof.
  intros Hn. destruct (Itoa_digits n ltac:(lia)) as (Hd & Hne & Hv).
  unfold Atoi. destruct (to_bytes (Itoa n)) as [|c rest] eqn:E; [done|].
  apply Forall_cons in Hd as Hd'. destruct Hd' as [Hc _]. destruct (digit_not_sign c Hc) as [-> ->].
  rewrite bool_decide_false by done.
  assert (forallb (λ c, digit (byte_val c)) (c :: rest) = true) as -> by (by apply forallb_Forall).
  cbn [negb orb]. rewrite Hv. unfold in_int64.
  by rewrite (proj2 (Z.leb_le _ _)), (proj2 (Z.ltb_lt _ _)) by lia.
Qed.

(** ** Column names *)

(** The letters of a number from 1 on: A to Z, AA to ZZ, and so on. *)
Fixpoint letters (fuel : nat) (n : Z) : bytes :=
  match fuel with
  | O => []
  | S fuel => if n <=? 0 then [] else letters fuel ((n - 1) / 26) ++ [val_byte (65 + (n - 1) mod 26)]
  end.

(** The name of a column, counted from 0; a letter for every bit suffices. *)
Definition column_name (column : Z) : bytes := letters 64 (column + 1).

Example column_names : column_name 0 = to_bytes "A" ∧ column_name 27 = to_bytes "AB" ∧
  column_name 16383 = to_bytes "XFD" ∧ columnIndex (to_bytes "XFD7") = 16383.
Proof. by repeat split; vm_compute. Qed.

Lemma letter_value n : byte_val (val_byte (65 + (n - 1) mod 26)) = 65 + (n - 1) mod 26.
Proof. pose proof (Z.mod_pos_bound (n - 1) 26 eq_refl). apply byte_val_byte. lia. Qed.

Lemma letters_read fuel n rest :
  0 ≤ n < 2 ^ 63 → n < 2 ^ Z.of_nat fuel →
  column_go ((byte_val <$> letters fuel n) ++ rest) 0 = column_go rest n.
Proof.
  revert n rest. induction fuel as [|fuel IH]; intros n rest Hn Hf; cbn [letters].
  { assert (n = 0) as -> by (simpl in Hf; lia). done. }
  destruct (Z.leb_spec n 0); [by replace n with 0 by lia|].
  pose proof (Z.mod_pos_bound (n - 1) 26 eq_refl) as Hm. pose proof (Z.div_mod (n - 1) 26 ltac:(lia)) as Hd.
  assert (0 ≤ (n - 1) / 26) by (apply Z.div_pos; lia).
  rewrite fmap_app, <- app_assoc, IH.
  - cbn [fmap list_fmap app column_go]. rewrite letter_value.
    rewrite (proj2 (Z.ltb_ge _ _)), (proj2 (Z.ltb_ge _ _)) by lia. cbn [orb].
    rewrite wrap_int64_small by (unfold in_int64; lia). f_equal. lia.
  - lia.
  - rewrite Nat2Z.inj_succ, Z.pow_succ_r in Hf by lia. lia.
Qed.

Lemma letters_ascii fuel n : Forall (λ c, byte_val c < 0x80) (letters fuel n).
Proof.
  revert n. induction fuel as [|fuel IH]; intros n; cbn [letters]; [constructor|].
  destruct (n <=? 0); [constructor|]. apply Forall_app. split; [apply IH|].
  constructor; [|done]. rewrite letter_value. pose proof (Z.mod_pos_bound (n - 1) 26 eq_refl). lia.
Qed.

Lemma runes_ascii p : Forall (λ c, byte_val c < 0x80) p → utf8.runes p = byte_val <$> p.
Proof.
  intros H. unfold utf8.runes. destruct (ascii_chunks p H) as [-> _].
  rewrite <- list_fmap_compose. apply list_fmap_ext. intros i c Hc. simpl.
  assert (byte_val c < 0x80) as Hb by (by eapply Forall_lookup_1 in H).
  unfold utf8.DecodeRune. by rewrite (proj2 (Z.ltb_lt _ _)).
Qed.

(** The reference of a cell: the name of its column and the number of its row. *)
Definition cell_reference (column row : Z) : bytes := column_name column ++ to_bytes (Itoa row).

Lemma columnIndex_reference column row :
  0 ≤ column < 2 ^ 63 - 1 → 0 ≤ row → columnIndex (cell_reference column row) = column.
Proof.
  intros Hc Hr. destruct (Itoa_digits row Hr) as (Hd & _ & _). unfold columnIndex, cell_reference.
  rewrite runes_ascii.
  - unfold column_name. rewrite fmap_app, letters_read by lia.
    assert (column_go (byte_val <$> to_bytes (Itoa row)) (column + 1) = column + 1) as ->.
    { destruct (to_bytes (Itoa row)) as [|c rest]; [done|]. cbn [fmap list_fmap column_go].
      apply Forall_cons in Hd as [Hd _]. unfold is_digit, digit, utf8.between in Hd.
      apply andb_true_iff in Hd as [_ Hd%Z.leb_le]. by rewrite (proj2 (Z.ltb_lt (byte_val c) 65)) by lia. }
    rewrite wrap_int64_small by (unfold in_int64; lia). lia.
  - apply Forall_app. split; [apply letters_ascii|apply Itoa_ascii].
Qed.

(** ** Worksheets *)

(** A cell as a spreadsheet program writes it: a number or another plain
    value, a reference to a shared string, or a text of its own. *)
Inductive content : Type :=
  | Plain (text : bytes)
  | Shared (index : nat)
  | Inline (text : bytes).

Record cell : Type := MkCell { cell_column : nat; cell_content : content }.

Definition cell_tokens (row : Z) (c : cell) : list xml_token :=
  let ref := ("r", cell_reference (Z.of_nat (cell_column c)) row) in
  match cell_content c with
  | Plain text => [StartElement "c" [ref]; StartElement "v" []; CharData text; EndElement "v"; EndElement "c"]
  | Shared index =>
    [StartElement "c" [ref; ("t", to_bytes "s")]; StartElement "v" []; CharData (to_bytes (Itoa (Z.of_nat index)));
     EndElement "v"; EndElement "c"]
  | Inline text =>
    [StartElement "c" [ref; ("t", to_bytes "inlineStr")]; StartElement "is" []; StartElement "t" []; CharData text;
     EndElement "t"; EndElement "is"; EndElement "c"]
  end.

Definition row_tokens (row : Z) (cells : list cell) : list xml_token :=
  StartElement "row" [] :: concat (cell_tokens row <$> cells) ++ [EndElement "row"].

Fixpoint sheet_tokens (row : Z) (rows : list (list cell)) : list xml_token :=
  match rows with
  | [] => []
  | cells :: rows => row_tokens row cells ++ sheet_tokens (row + 1) rows
  end.

Lemma find_app {A} (f : A → bool) l k :
  find f (l ++ k) = match find f l with Some x => Some x | None => find f k end.
Proof. induction l as [|x l IH]; [done|]. simpl. by destruct (f x). Qed.

Section Worksheet.
Context (shared : list bytes).

(** What is shown of a cell: tabs, which separate the cells, are spaces. *)
Definition shown (c : cell) : bytes :=
  replace_byte TAB " "
    match cell_content c with
    | Plain text | Inline text => text
    | Shared index => default [] (shared !! index)
    end.

(** A row as the spreadsheet shows it: under every column its cell. *)
Definition cell_at (cells : list cell) (j : nat) : bytes :=
  match find (λ c, Nat.eqb (cell_column c) j) cells with Some c => shown c | None => [] end.

Definition row_width (cells : list cell) : nat := match last cells with Some c => S (cell_column c) | None => 0 end.

Definition row_view (cells : list cell) : list bytes := cell_at cells <$> seq 0 (row_width cells).

Definition left_of (c c' : cell) : Prop := (cell_column c < cell_column c')%nat.

(** Cells from left to right, in columns that can be counted, with shared
    strings that are there. *)
Definition readable (c : cell) : Prop :=
  Z.of_nat (cell_column c) < 2 ^ 63 - 1 ∧
  match cell_content c with Shared index => (index < length shared)%nat ∧ Z.of_nat index < 2 ^ 63 | _ => True end.

Definition row_ok (cells : list cell) : Prop :=
  StronglySorted left_of cells ∧ Forall readable cells.

Lemma sorted_before cells c : StronglySorted left_of (cells ++ [c]) → Forall (λ c', left_of c' c) cells.
Proof.
  intros Hs. induction cells as [|c' cells IH]; [done|].
  apply StronglySorted_inv in Hs as [Hs Hf]. constructor; [|auto].
  apply Forall_app in Hf as [_ Hf]. by apply Forall_inv in Hf.
Qed.

Lemma sorted_width cells :
  StronglySorted left_of cells → Forall (λ c, (cell_column c < row_width cells)%nat) cells.
Proof.
  intros Hs. destruct cells as [|c cells _] using rev_ind; [constructor|].
  unfold row_width. rewrite last_snoc. apply Forall_app. split; [|by repeat constructor].
  eapply Forall_impl; [by apply sorted_before|]. unfold left_of. intros c' H. simpl in H. lia.
Qed.

Lemma no_cell cells j : Forall (λ c, cell_column c ≠ j) cells → find (λ c, Nat.eqb (cell_column c) j) cells = None.
Proof.
  induction 1 as [|c cells Hc _ IH]; [done|]. simpl. by rewrite (proj2 (Nat.eqb_neq _ _)).
Qed.

Lemma cell_at_snoc cells c j :
  StronglySorted left_of (cells ++ [c]) →
  cell_at (cells ++ [c]) j = if Nat.eqb (cell_column c) j then shown c else cell_at cells j.
Proof.
  intros Hs. pose proof (sorted_before cells c Hs) as Hb. unfold cell_at. rewrite find_app.
  destruct (Nat.eqb_spec (cell_column c) j) as [<-|Hne].
  - rewrite no_cell; [by simpl; rewrite Nat.eqb_refl|]. eapply Forall_impl; [done|].
    unfold left_of. intros c' H. simpl in H. lia.
  - simpl. rewrite (proj2 (Nat.eqb_neq _ _) Hne). by destruct (find _ cells).
Qed.

Lemma row_view_snoc cells c :
  StronglySorted left_of (cells ++ [c]) →
  row_view (cells ++ [c]) = pad_row (Z.of_nat (cell_column c)) (row_view cells) ++ [shown c].
Proof.
  intros Hs. pose proof (sorted_before cells c Hs) as Hb.
  assert (row_width cells ≤ cell_column c)%nat as Hw.
  { unfold row_width. destruct (last cells) as [c'|] eqn:El; [|lia]. apply last_Some_elem_of in El.
    rewrite Forall_forall in Hb. specialize (Hb c' El). unfold left_of in Hb. lia. }
  assert (StronglySorted left_of cells) as Hs' by (by apply StronglySorted_app_1_l in Hs).
  unfold row_view. replace (row_width (cells ++ [c])) with (S (cell_column c))
    by (unfold row_width; by rewrite last_snoc).
  rewrite seq_S, fmap_app. simpl. rewrite cell_at_snoc, Nat.eqb_refl by done. f_equal.
  unfold pad_row, len. rewrite length_fmap, length_seq.
  replace (Z.to_nat (Z.of_nat (cell_column c) - Z.of_nat (row_width cells)))
    with (cell_column c - row_width cells)%nat by lia.
  rewrite <- (Nat.sub_add _ _ Hw) at 1. rewrite Nat.add_comm, seq_app, fmap_app. f_equal.
  - apply list_fmap_ext. intros i j [-> Hj]%lookup_seq. rewrite cell_at_snoc by done.
    by rewrite (proj2 (Nat.eqb_neq _ _)) by lia.
  - apply list_eq. intros i. rewrite list_lookup_fmap.
    destruct (decide (i < cell_column c - row_width cells)%nat) as [Hi|Hi].
    + rewrite lookup_seq_lt, lookup_replicate_2 by done. simpl. f_equal.
      rewrite cell_at_snoc, (proj2 (Nat.eqb_neq _ _)) by (done || lia).
      unfold cell_at. rewrite no_cell; [done|]. eapply Forall_impl; [by apply sorted_width|].
      intros c' H. simpl in H. lia.
    + rewrite lookup_seq_ge by lia. symmetry. apply lookup_replicate_None. lia.
Qed.

Definition read (tokens : list xml_token) (s : sheet) : sheet :=
  fold_left (λ s t, sheet_step shared t s) tokens s.

Lemma read_app l k s : read (l ++ k) s = read k (read l s).
Proof. apply fold_left_app. Qed.

(** The state between two cells: what the code keeps of the last one does not
    matter. *)
Definition between (cells : list bytes) (out : bytes) (s : sheet) : Prop :=
  row s = cells ∧ sheet_out s = out ∧ inValue s = false.

Lemma step_cell attrs s :
  sheet_step shared (StartElement "c" attrs) s
  = MkSheet (row s) (attribute_of "t" attrs) (attribute_of "r" attrs) [] (inValue s) (sheet_out s).
Proof. reflexivity. Qed.

Lemma step_value name attrs s :
  name ∈ ["v"; "t"] →
  sheet_step shared (StartElement name attrs) s = set_inValue true s ∧
  sheet_step shared (EndElement name) s = set_inValue false s.
Proof.
  intros H. repeat (apply elem_of_cons in H as [->|H]; [by split|]). by apply elem_of_nil in H.
Qed.

Lemma step_data data s :
  inValue s = true →
  sheet_step shared (CharData data) s
  = MkSheet (row s) (cellType s) (cellRef s) (cell_value s ++ data) (inValue s) (sheet_out s).
Proof. intros H. cbn [sheet_step]. by rewrite H. Qed.

Lemma step_end s :
  sheet_step shared (EndElement "c") s
  = MkSheet (pad_row (columnIndex (cellRef s)) (row s) ++ [replace_byte TAB " " (cell_text shared s)])
      (cellType s) (cellRef s) (cell_value s) (inValue s) (sheet_out s).
Proof. reflexivity. Qed.

(** The tokens of a value. *)
Lemma value_read name attrs data s :
  name ∈ ["v"; "t"] → inValue s = false →
  read [StartElement name attrs; CharData data; EndElement name] s
  = MkSheet (row s) (cellType s) (cellRef s) (cell_value s ++ data) false (sheet_out s).
Proof.
  intros Hn Hv. unfold read. cbn [fold_left]. destruct (step_value name attrs s Hn) as [-> _].
  rewrite step_data by done. by destruct (step_value name attrs (MkSheet (row (set_inValue true s))
    (cellType (set_inValue true s)) (cellRef (set_inValue true s)) (cell_value (set_inValue true s) ++ data)
    (inValue (set_inValue true s)) (sheet_out (set_inValue true s))) Hn) as [_ ->].
Qed.

Lemma read_cons t l s : read (t :: l) s = read l (sheet_step shared t s).
Proof. reflexivity. Qed.

Lemma read_value name attrs data l s :
  name ∈ ["v"; "t"] → inValue s = false →
  read (StartElement name attrs :: CharData data :: EndElement name :: l) s
  = read l (MkSheet (row s) (cellType s) (cellRef s) (cell_value s ++ data) false (sheet_out s)).
Proof.
  intros Hn Hv. rewrite <- (value_read name attrs) by done.
  apply (read_app [StartElement name attrs; CharData data; EndElement name] l).
Qed.

(** What the cell is when its end is read. *)
Definition cell_state (n : Z) (c : cell) (type value : bytes) (s : sheet) : sheet :=
  MkSheet (row s) type (cell_reference (Z.of_nat (cell_column c)) n) value false (sheet_out s).

Lemma cell_tokens_read n c s :
  inValue s = false →
  read (cell_tokens n c) s = sheet_step shared (EndElement "c")
    match cell_content c with
    | Plain text => cell_state n c [] text s
    | Shared index => cell_state n c (to_bytes "s") (to_bytes (Itoa (Z.of_nat index))) s
    | Inline text => cell_state n c (to_bytes "inlineStr") text s
    end.
Proof.
  intros Hv. unfold cell_tokens. destruct (cell_content c) as [text|index|text];
    rewrite read_cons, step_cell; [rewrite read_value|rewrite read_value|rewrite read_cons, read_value];
    (done || by left || by right; left).
Qed.

Lemma cell_read n c cells out s :
  0 ≤ n → readable c → between cells out s →
  between (pad_row (Z.of_nat (cell_column c)) cells ++ [shown c]) out (read (cell_tokens n c) s).
Proof.
  intros Hn [Hc Hk] (<- & <- & Hv). rewrite cell_tokens_read by done. rewrite step_end.
  assert (∀ type value, columnIndex (cellRef (cell_state n c type value s)) = Z.of_nat (cell_column c)) as Hi
    by (intros; apply columnIndex_reference; lia).
  unfold shown. destruct (cell_content c) as [text|index|text]; rewrite Hi; (split; [|done]); cbn [row];
    do 3 f_equal; unfold cell_text; cbn [cell_state cellType cell_value].
  destruct Hk as [Hk1 Hk2]. rewrite bool_decide_true, Atoi_Itoa by (done || lia).
  rewrite (proj2 (Z.leb_le 0 _)), (proj2 (Z.ltb_lt _ _)) by (unfold len; lia). simpl. by rewrite Nat2Z.id.
Qed.

Lemma cells_read n cells before out s :
  0 ≤ n → StronglySorted left_of (before ++ cells) → Forall readable cells →
  between (row_view before) out s →
  between (row_view (before ++ cells)) out (read (concat (cell_tokens n <$> cells)) s).
Proof.
  intros Hn. revert before s. induction cells as [|c cells IH]; intros before s Hs Hr Hb.
  { by rewrite app_nil_r. }
  apply Forall_cons in Hr as [Hc Hr]. rewrite (cons_middle c before cells), app_assoc in Hs |- *.
  cbn [fmap list_fmap concat]. rewrite read_app. apply IH; [done..|].
  rewrite row_view_snoc by (by apply StronglySorted_app_1_l in Hs). by apply cell_read.
Qed.

Lemma read_row_end s :
  read [EndElement "row"] s
  = MkSheet (row s) (cellType s) (cellRef s) (cell_value s) (inValue s) (sheet_out s ++ join_on TAB (row s) ++ [LF]).
Proof. reflexivity. Qed.

Lemma row_read n cells out s :
  0 ≤ n → row_ok cells → sheet_out s = out → inValue s = false →
  sheet_out (read (row_tokens n cells) s) = out ++ join_on TAB (row_view cells) ++ [LF] ∧
  inValue (read (row_tokens n cells) s) = false.
Proof.
  intros Hn [Hs Hr] <- Hv. unfold row_tokens. rewrite app_comm_cons, read_app.
  set (s1 := sheet_step shared (StartElement "row" []) s).
  change (read (StartElement "row" [] :: ?l) s) with (read l s1).
  destruct (cells_read n cells [] (sheet_out s) s1 Hn Hs Hr) as (H1 & H2 & H3); [done|].
  rewrite read_row_end. cbn [sheet_out inValue]. by rewrite H1, H2, H3.
Qed.

Lemma sheet_read n rows s :
  0 ≤ n → Forall row_ok rows → inValue s = false →
  sheet_out (read (sheet_tokens n rows) s)
  = sheet_out s ++ concat ((λ cells, join_on TAB (row_view cells) ++ [LF]) <$> rows).
Proof.
  revert n s. induction rows as [|cells rows IH]; intros n s Hn Hr Hv; [by rewrite app_nil_r|].
  apply Forall_cons in Hr as [Hc Hr]. cbn [sheet_tokens]. rewrite read_app.
  destruct (row_read n cells (sheet_out s) s Hn Hc eq_refl Hv) as [Ho Hi].
  rewrite IH by (done || lia). rewrite Ho. cbn [fmap list_fmap concat]. by rewrite <- !app_assoc.
Qed.

Lemma no_tab c : TAB ∉ shown c.
Proof.
  unfold shown, replace_byte. intros (x & Hx & _)%list_elem_of_fmap. revert Hx.
  destruct (Ascii.eqb_spec x TAB) as [->|Hne]; [done|]. intros <-. done.
Qed.
End Worksheet.

Lemma split_join sep l : l ≠ [] → Forall (λ p, sep ∉ p) l → split_on sep (join_on sep l) = l.
Proof.
  intros Hl H. induction H as [|p l Hp _ IH]; [done|].
  destruct l as [|q l]; [by apply split_on_none|].
  change (join_on sep (p :: q :: l)) with (p ++ sep :: join_on sep (q :: l)).
  rewrite split_on_app by done. by rewrite IH.
Qed.

(** A worksheet is read row by row, every cell in its column: for the
    tokens of any rows whose cells go from left to right, the text has one
    line for each row, and the part of the line after [j] tabs is what the
    spreadsheet shows in the [j]th column of the row (a shared string at its
    index, a value or text of the cell with spaces for its tabs, or nothing),
    up to the last cell. *)
Theorem worksheet_cells_in_columns shared rows out :
  Forall (row_ok shared) rows →
  ∃ lines, xlsxSheet (sheet_tokens 1 rows, None) shared out = Ok (out ++ concat ((λ line, line ++ [LF]) <$> lines)) ∧
    Forall2 (λ line cells, cells ≠ [] →
      split_on TAB line = cell_at shared cells <$> seq 0 (row_width cells)) lines rows.
Proof.
  intros Hr. exists ((λ cells, join_on TAB (row_view shared cells)) <$> rows). split.
  - unfold xlsxSheet, read_tokens. cbn [snd fst]. unfold fmap, result_fmap.
    fold (read shared (sheet_tokens 1 rows) (MkSheet [] [] [] [] false out)).
    rewrite sheet_read by done. by rewrite <- list_fmap_compose.
  - apply Forall2_fmap_l, Forall_Forall2_diag, Forall_forall. intros cells _ Hne. simpl.
    apply split_join.
    + unfold row_view, row_width. destruct cells as [|c cells _] using rev_ind; [done|]. by rewrite last_snoc.
    + apply Forall_forall. intros p (j & -> & _)%list_elem_of_fmap. unfold cell_at.
      destruct (find _ cells); [apply no_tab|by apply not_elem_of_nil].
Qed.

Definition sample_rows : list (list cell) :=
  [[MkCell 0 (Shared 1); MkCell 2 (Plain (to_bytes "42"))]; [MkCell 27 (Inline (to_bytes "note"))]].

Lemma worksheet_cells_in_columns_witness :
  ∃ lines, xlsxSheet (sheet_tokens 1 sample_rows, None) [[]; to_bytes "total"] [] =
      Ok ([] ++ concat ((λ line, line ++ [LF]) <$> lines)) ∧
    Forall2 (λ line cells, cells ≠ [] →
      split_on TAB line = cell_at [[]; to_bytes "total"] cells <$> seq 0 (row_width cells)) lines sample_rows.
Proof.
  apply (worksheet_cells_in_columns [[]; to_bytes "total"] sample_rows []).
  repeat constructor; cbn; lia.
Defined.

(** A line feed inside a cell is kept, and breaks its row. *)
Lemma line_feed_breaks_row :
  xlsxSheet (sheet_tokens 1 [[MkCell 0 (Inline [LF]); MkCell 1 (Plain (to_bytes "b"))]], None) [] []
  = Ok ([LF; TAB] ++ to_bytes "b" ++ [LF]).
Proof. vm_compute. reflexivity. Qed.
