(* ===== verification/HtmlText.v ===== *)
(** * The text of a web page (src/gui/tools.go)

    [htmlToText] renders the tree that golang.org/x/net/html parses out of a
    page.  The writer appends to a buffer, collapses white space and separates
    blocks; the theorem is that in spite of all that no visible text is lost
    or put out of order: the runes of a text that are not white space are its
    ink, and whatever the writer does, the ink of its buffer only grows, by the
    ink of the text that was written. *)

From Stdlib Require Import Ascii ZArith Lia.
From S2P Require Import Prelude GoStrings GoText Utf8Facts TextFacts Documents DocumentText Json.

Local Open Scope Z_scope.

(** ** Trees *)

(** A node: comments and the document type, which have no children, are
    [OtherNode]. *)
#[warnings="-register-all"] Inductive html_node : Type :=
  | TextNode (data : bytes)
  | DocumentNode (children : list html_node)
  | ElementNode (tag : string) (attrs : list (string * bytes)) (children : list html_node)
  | OtherNode.

Definition children_of (n : html_node) : list html_node :=
  match n with DocumentNode cs | ElementNode _ _ cs => cs | _ => [] end.

Section NodeInd.
Context (P : html_node → Prop) (Htext : ∀ data, P (TextNode data)) (Hother : P OtherNode)
  (Hdoc : ∀ cs, Forall P cs → P (DocumentNode cs))
  (Helem : ∀ tag attrs cs, Forall P cs → P (ElementNode tag attrs cs)).

Fixpoint node_ind (n : html_node) : P n :=
  let all := fix all (cs : list html_node) : Forall P cs :=
    match cs with [] => List.Forall_nil P | c :: cs => List.Forall_cons P c cs (node_ind c) (all cs) end in
  match n with
  | TextNode data => Htext data
  | DocumentNode cs => Hdoc cs (all cs)
  | ElementNode tag attrs cs => Helem tag attrs cs (all cs)
  | OtherNode => Hother
  end.
End NodeInd.

(** [attributeLookup]: the first attribute with the name. *)
Definition attributeLookup (attrs : list (string * bytes)) (name : string) : option bytes :=
  snd <$> find (λ a, bool_decide (fst a = name)) attrs.

Definition attribute (attrs : list (string * bytes)) (name : string) : bytes :=
  default [] (attributeLookup attrs name).

(** [strings.FieldsFunc(text, unicode.IsSpace)], over the runes of the text;
    [run] is the field so far. *)
Fixpoint fields_go (cs : list bytes) (run : list bytes) : list bytes :=
  match cs with
  | [] => match run with [] => [] | _ => [concat run] end
  | c :: cs =>
    if space_chunk c then match run with [] => fields_go cs [] | _ => concat run :: fields_go cs [] end
    else fields_go cs (run ++ [c])
  end.
Definition Fields (text : bytes) : list bytes := fields_go (utf8.chunks text) [].

(** The texts that [walk] finds. *)
Fixpoint node_texts (n : html_node) : bytes :=
  match n with
  | TextNode data => data
  | DocumentNode cs | ElementNode _ _ cs => concat (map node_texts cs)
  | OtherNode => []
  end.

(** [nodeText]: the fields of the text, joined with single spaces. *)
Definition nodeText (n : html_node) : bytes := join_on " "%char (Fields (node_texts n)).

Fixpoint find_first {A B} (f : A → option B) (l : list A) : option B :=
  match l with
  | [] => None
  | a :: l => match f a with Some b => Some b | None => find_first f l end
  end.

Fixpoint findElement (tag : string) (n : html_node) : option html_node :=
  match n with
  | ElementNode t _ cs => if bool_decide (t = tag) then Some n else find_first (findElement tag) cs
  | DocumentNode cs => find_first (findElement tag) cs
  | _ => None
  end.

Fixpoint countElements (tag : string) (n : html_node) : Z :=
  match n with
  | ElementNode t _ cs =>
    (if bool_decide (t = tag) then 1 else 0) + foldr (λ c k, countElements tag c + k) 0 cs
  | DocumentNode cs => foldr (λ c k, countElements tag c + k) 0 cs
  | _ => 0
  end.

(** ** The writer *)

Definition skippedTags : list string :=
  ["script"; "style"; "noscript"; "template"; "svg"; "iframe"; "head"; "button"; "select"; "canvas"; "dialog"; "form"].
Definition chromeTags : list string := ["nav"; "footer"; "aside"].
Definition blockTags : list string :=
  ["p"; "div"; "section"; "article"; "main"; "header"; "ul"; "ol"; "table"; "blockquote"; "dl"; "dt"; "dd";
   "figure"; "figcaption"; "details"; "summary"; "address"].

Record textWriter : Type := MkWriter { buffer : bytes; pre : Z; spacing : bool }.

Definition atLineStart (w : textWriter) : bool :=
  match last (buffer w) with Some c => Ascii.eqb c LF | None => true end.

Definition append_text (text : bytes) (w : textWriter) : textWriter := MkWriter (buffer w ++ text) (pre w) (spacing w).
Definition set_spacing (b : bool) (w : textWriter) : textWriter := MkWriter (buffer w) (pre w) b.
Definition add_pre (n : Z) (w : textWriter) : textWriter := MkWriter (buffer w) (pre w + n) (spacing w).

Definition write (text : bytes) (w : textWriter) : textWriter :=
  let w := if spacing w && negb (atLineStart w) then append_text (to_bytes " ") w else w in
  append_text text (set_spacing false w).

Definition space_rune (r : Z) : bool :=
  utf8.between 9 13 r || bool_decide (r ∈ [0x20; 0x85; 0xA0; 0x1680; 0x2028; 0x2029; 0x202F; 0x205F; 0x3000])
  || utf8.between 0x2000 0x200A r.

(** The loop over the fields; all but the first one are written after a space. *)
Fixpoint write_fields (first : bool) (fields : list bytes) (w : textWriter) : textWriter :=
  match fields with
  | [] => w
  | field :: fields => write_fields false fields (write field (if first then w else set_spacing true w))
  end.

Definition write_text (text : bytes) (w : textWriter) : textWriter :=
  if 0 <? pre w then append_text text w
  else match text with
  | [] => w
  | _ =>
    let w := if space_rune (fst (utf8.DecodeRune text)) then set_spacing true w else w in
    let w := write_fields true (Fields text) w in
    if space_rune (fst (utf8.DecodeLastRune text)) then set_spacing true w else w
  end.

Fixpoint drop_spaces (reversed : bytes) : bytes :=
  match reversed with
  | c :: rest => if Ascii.eqb c " " then drop_spaces rest else reversed
  | [] => []
  end.

Fixpoint count_lines (reversed : bytes) : nat :=
  match reversed with
  | c :: rest => if Ascii.eqb c LF then S (count_lines rest) else O
  | [] => O
  end.

Definition newline (count : nat) (w : textWriter) : textWriter :=
  let b := reverse (drop_spaces (reverse (buffer w))) in
  match b with
  | [] => MkWriter [] (pre w) false
  | _ => MkWriter (b ++ replicate (count - count_lines (reverse b)) LF) (pre w) false
  end.

(** ** Rendering *)

Section Render.
(** url.Parse, the resolution against the address of the page and the text
    of the result, with its scheme; none when the reference does not parse. *)
Context (resolve_reference : bytes → option (string * bytes)).

Definition resolve (href : bytes) : bytes :=
  let href := TrimSpace (to_string href) in
  if bool_decide (href = EmptyString) || HasPrefix href "#" || HasPrefix (ToLower href) "javascript:" then []
  else match resolve_reference (to_bytes href) with
       | Some (scheme, text) => if bool_decide (scheme ∈ ["http"; "https"; "mailto"]) then text else []
       | None => []
       end.

Definition hidden (attrs : list (string * bytes)) : bool :=
  bool_decide (is_Some (attributeLookup attrs "hidden"))
  || bool_decide (attribute attrs "aria-hidden" = to_bytes "true").

(** Headings: [int(tag[1]-'0')]. *)
Definition heading (tag : string) : option nat :=
  match list_find (λ t, t = tag) ["h1"; "h2"; "h3"; "h4"; "h5"; "h6"] with Some (i, _) => Some (S i) | None => None end.

Definition fence : bytes := to_bytes "```".

(** [w.node(node)]; [render] writes the children. *)
Definition render_element (tag : string) (attrs : list (string * bytes)) (text : bytes)
    (render : textWriter → textWriter) (w : textWriter) : textWriter :=
  match heading tag with
  | Some level =>
    newline 2 (render (write (replicate level "#"%char ++ to_bytes " ") (newline 2 w)))
  | None =>
    if bool_decide (tag = "br") then newline 1 w
    else if bool_decide (tag = "hr") then newline 2 (write (to_bytes "---") (newline 2 w))
    else if bool_decide (tag = "li") then newline 1 (render (write (to_bytes "- ") (newline 1 w)))
    else if bool_decide (tag = "tr") then newline 1 (render (newline 1 w))
    else if bool_decide (tag ∈ ["td"; "th"]) then set_spacing true (write (to_bytes " |") (render w))
    else if bool_decide (tag = "pre") then
      let w := add_pre 1 (newline 1 (write fence (newline 2 w))) in
      newline 2 (write fence (newline 1 (add_pre (-1) (render w))))
    else if bool_decide (tag = "a") then
      let href := resolve (attribute attrs "href") in
      if bool_decide (href = []) || bool_decide (text = []) then render w
      else append_text (to_bytes "](" ++ href ++ to_bytes ")") (set_spacing false (render (write (to_bytes "[") w)))
    else if bool_decide (tag = "img") then
      let alt := to_bytes (TrimSpace (to_string (attribute attrs "alt"))) in
      if bool_decide (alt = []) then w else write (to_bytes "[image: " ++ alt ++ to_bytes "]") w
    else if negb (bool_decide (tag ∈ blockTags)) then render w
    else
      let gap := if bool_decide (tag ∈ ["p"; "blockquote"; "table"]) then 2%nat else 1%nat in
      newline gap (render (newline gap w))
  end.

Definition invisible (is_root : bool) (tag : string) (attrs : list (string * bytes)) : bool :=
  bool_decide (tag ∈ skippedTags) || (bool_decide (tag ∈ chromeTags) && negb is_root) || hidden attrs.

(** [is_root] says whether the node is [w.root]. *)
Fixpoint render_node (is_root : bool) (n : html_node) (w : textWriter) : textWriter :=
  match n with
  | TextNode data => write_text data w
  | DocumentNode cs => fold_left (λ w c, render_node false c w) cs w
  | ElementNode tag attrs cs =>
    if invisible is_root tag attrs then w
    else render_element tag attrs (nodeText n) (λ w, fold_left (λ w c, render_node false c w) cs w) w
  | OtherNode => w
  end.

Definition root_of (document : html_node) : html_node :=
  match findElement "main" document with
  | Some n => n
  | None =>
    match (if countElements "article" document =? 1 then findElement "article" document else None) with
    | Some n => n
    | None => default document (findElement "body" document)
    end
  end.

(** The title and the text; [parse] is html.Parse. *)
Definition htmlToText (parse : bytes → result html_node) (body : bytes) : bytes * bytes :=
  match parse body with
  | Ok document =>
    let title := match findElement "title" document with Some n => nodeText n | None => [] end in
    let w := render_node true (root_of document) (MkWriter [] 0 false) in
    (title, to_bytes (TrimSpace (to_string (buffer w))))
  | _ => ([], body)
  end.
End Render.

Example a_page :
  htmlToText (λ _, None) (λ _, Ok (DocumentNode [ElementNode "body" [] [
      ElementNode "h2" [] [TextNode (to_bytes "A   title ")];
      ElementNode "nav" [] [TextNode (to_bytes "menu")];
      ElementNode "p" [] [TextNode (to_bytes " one"); ElementNode "b" [] [TextNode (to_bytes " two ")];
                          TextNode (to_bytes "three")];
      ElementNode "ul" [] [ElementNode "li" [] [TextNode (to_bytes "x")]; ElementNode "li" [] [TextNode (to_bytes "y")]]]])) []
  = ([], to_bytes (to_string (concat (((λ s, to_bytes s ++ [LF]) <$> ["## A title"; EmptyString; "one two three"; EmptyString; "- x"]))
       ++ to_bytes "- y"))).
Proof. vm_compute. reflexivity. Qed.

(** * No visible text of a page is lost *)


Definition inked (c : bytes) : Prop := space_chunk c = false.

Definition ink (p : bytes) : list bytes := filter inked (utf8.chunks p).

(** ** Ink of texts *)

Lemma filter_inked l : Forall inked l → filter inked l = l.
Proof. induction 1 as [|c l Hc _ IH]; [done|]. rewrite filter_cons, decide_True by done. by f_equal. Qed.

Lemma ink_app p q : utf8.Valid p = true → ink (p ++ q) = ink p ++ ink q.
Proof. intros Hp. unfold ink. by rewrite Valid_chunks_app, filter_app. Qed.

Lemma chunks_of_chunks cs :
  Forall (λ c, is_chunk c ∧ utf8.valid_chunk c = true) cs → utf8.chunks (concat cs) = cs ∧ utf8.Valid (concat cs) = true.
Proof.
  induction 1 as [|c cs [Hc Hv] _ [IH1 IH2]]; [done|]. simpl.
  assert (utf8.Valid c = true) as Hvc by (by apply Valid_chunk).
  split; [|by apply Valid_app]. rewrite Valid_chunks_app, IH1 by done.
  assert (utf8.chunks c = [c]) as ->; [|done].
  destruct Hc as [Hne Hs]. rewrite chunks_cons, Hs, firstn_all, drop_all by done. done.
Qed.

Definition good_chunk (c : bytes) : Prop := is_chunk c ∧ utf8.valid_chunk c = true.

Lemma valid_chunks p : utf8.Valid p = true → Forall good_chunk (utf8.chunks p).
Proof.
  intros Hv. pose proof (chunks_is_chunk p) as H. unfold utf8.Valid in Hv. rewrite forallb_Forall in Hv.
  rewrite Forall_forall in H, Hv |- *. intros c Hc. split; auto.
Qed.

(** The fields hold the ink of a text, and nothing else. *)
Lemma fields_go_ink cs run :
  Forall good_chunk cs → Forall good_chunk run → Forall inked run →
  Forall (λ p, utf8.Valid p = true) (fields_go cs run) ∧ concat (ink <$> fields_go cs run) = run ++ filter inked cs.
Proof.
  revert run. induction cs as [|c cs IH]; intros run Hcs Hrun Hi; cbn [fields_go].
  - destruct run as [|r run]; [done|]. destruct (chunks_of_chunks (r :: run) Hrun) as [H1 H2].
    split; [constructor; [exact H2|apply Forall_nil_2]|]. cbn [fmap list_fmap]. unfold ink at 1. rewrite H1.
    rewrite (filter_inked _ Hi). done.
  - apply Forall_cons in Hcs as [Hc Hcs]. destruct (space_chunk c) eqn:Hsp.
    + rewrite filter_cons, decide_False by (unfold inked; congruence). destruct run as [|r run]; [by apply IH|].
      destruct (IH [] Hcs (Forall_nil_2 _) (Forall_nil_2 _)) as [H1 H2].
      destruct (chunks_of_chunks (r :: run) Hrun) as [H3 H4]. split; [by constructor|].
      change (ink (concat (r :: run)) ++ concat (ink <$> fields_go cs []) = (r :: run) ++ filter inked cs).
      rewrite H2. unfold ink. by rewrite H3, (filter_inked _ Hi).
    + rewrite filter_cons, decide_True by done.
      destruct (IH (run ++ [c])) as [H1 H2]; [done|by apply Forall_app; auto..|].
      split; [done|]. by rewrite H2, <- app_assoc.
Qed.

Lemma Fields_ink p :
  utf8.Valid p = true →
  Forall (λ f, utf8.Valid f = true) (Fields p) ∧ concat (ink <$> Fields p) = ink p.
Proof. intros Hv. apply (fields_go_ink (utf8.chunks p) []); [by apply valid_chunks|apply Forall_nil_2..]. Qed.

(** ** What the writer adds *)

(** From [w] to [w'] the buffer grew by ink that holds [vis], in order. *)
Definition adds (vis : list bytes) (w w' : textWriter) : Prop :=
  utf8.Valid (buffer w) = true →
  utf8.Valid (buffer w') = true ∧ ∃ more, ink (buffer w') = ink (buffer w) ++ more ∧ vis `sublist_of` more.

Lemma adds_refl w w' : buffer w' = buffer w → adds [] w w'.
Proof. intros He Hv. rewrite He. split; [done|]. exists []. by rewrite app_nil_r. Qed.

Lemma adds_trans vis vis' w1 w2 w3 : adds vis w1 w2 → adds vis' w2 w3 → adds (vis ++ vis') w1 w3.
Proof.
  intros H1 H2 Hv. destruct (H1 Hv) as (Hv2 & m1 & E1 & S1). destruct (H2 Hv2) as (Hv3 & m2 & E2 & S2).
  split; [done|]. exists (m1 ++ m2). rewrite E2, E1, app_assoc. split; [done|by apply sublist_app].
Qed.

(** A step that adds no visible text, before or after one that does. *)
Lemma adds_after vis w1 w2 w3 : adds vis w1 w2 → adds [] w2 w3 → adds vis w1 w3.
Proof. intros H1 H2. rewrite <- (app_nil_r vis). by eapply adds_trans. Qed.

Lemma adds_before vis w1 w2 w3 : adds [] w1 w2 → adds vis w2 w3 → adds vis w1 w3.
Proof. apply (adds_trans []). Qed.

Lemma adds_weaken vis vis' w w' : vis' `sublist_of` vis → adds vis w w' → adds vis' w w'.
Proof.
  intros Hs H Hv. destruct (H Hv) as (Hv' & m & E & S). split; [done|]. exists m. split; [done|by etrans].
Qed.

Lemma adds_append text w : utf8.Valid text = true → adds (ink text) w (append_text text w).
Proof.
  intros Ht Hv. simpl. split; [by apply Valid_app|]. exists (ink text). by rewrite ink_app.
Qed.

Lemma adds_mark text w : utf8.Valid text = true → adds [] w (append_text text w).
Proof. intros Ht. eapply adds_weaken; [apply sublist_nil_l|by apply adds_append]. Qed.

Lemma adds_write text w : utf8.Valid text = true → adds (ink text) w (write text w).
Proof.
  intros Ht. unfold write. cbv zeta. destruct (spacing w && negb (atLineStart w)).
  - eapply adds_before; [by apply (adds_mark (to_bytes " "))|].
    eapply adds_before; [by apply (adds_refl _ (set_spacing false (append_text (to_bytes " ") w)))|].
    by apply adds_append.
  - eapply adds_before; [by apply (adds_refl _ (set_spacing false w))|]. by apply adds_append.
Qed.

Lemma adds_write_mark text w : utf8.Valid text = true → adds [] w (write text w).
Proof. intros Ht. eapply adds_weaken; [apply sublist_nil_l|by apply adds_write]. Qed.

Lemma adds_spacing b w : adds [] w (set_spacing b w).
Proof. by apply adds_refl. Qed.

Lemma adds_pre n w : adds [] w (add_pre n w).
Proof. by apply adds_refl. Qed.

(** *** Line ends *)

Lemma valid_before_space p : utf8.Valid (p ++ [" "%char]) = true → utf8.Valid p = true ∧ ink (p ++ [" "%char]) = ink p.
Proof.
  intros Hv. assert (utf8.Valid p = true) as Hp.
  { destruct (valid_cut (p ++ [" "%char]) (length p) Hv) as [H _]; [|by rewrite take_app_length in H].
    split; [rewrite length_app; lia|]. intros c. rewrite list_lookup_middle by done. by intros [= <-]. }
  split; [done|]. rewrite ink_app by done. apply app_nil_r.
Qed.

Lemma dropped_spaces r :
  utf8.Valid (reverse r) = true →
  utf8.Valid (reverse (drop_spaces r)) = true ∧ ink (reverse (drop_spaces r)) = ink (reverse r).
Proof.
  induction r as [|c r IH]; intros Hv; [done|]. cbn [drop_spaces].
  destruct (Ascii.eqb_spec c " ") as [->|]; [|done]. rewrite reverse_cons in Hv |- *.
  destruct (valid_before_space _ Hv) as [Hv' Hi]. rewrite Hi. by apply IH.
Qed.

Lemma line_feeds n : utf8.Valid (replicate n LF) = true ∧ ink (replicate n LF) = [].
Proof.
  destruct (ascii_chunks (replicate n LF)) as [Hc Hv]; [by apply Forall_replicate|]. split; [done|].
  unfold ink. rewrite Hc. clear. induction n as [|n IH]; [done|]. cbn [replicate fmap list_fmap].
  rewrite filter_cons, decide_False by done. exact IH.
Qed.

Lemma adds_newline n w : adds [] w (newline n w).
Proof.
  intros Hv. unfold newline. cbv zeta. rewrite <- (reverse_involutive (buffer w)) in Hv.
  destruct (dropped_spaces _ Hv) as [Hv' Hi]. rewrite reverse_involutive in Hi.
  destruct (line_feeds (n - count_lines (reverse (reverse (drop_spaces (reverse (buffer w))))))) as [Hlv Hli].
  destruct (reverse (drop_spaces (reverse (buffer w)))) as [|c b] eqn:E; simpl.
  - split; [done|]. exists []. by rewrite <- Hi.
  - split; [by apply (Valid_app (c :: b))|]. exists []. split; [|done].
    rewrite app_comm_cons, ink_app, Hli by done. by rewrite Hi.
Qed.

(** *** Texts *)

Lemma adds_fields first fields w :
  Forall (λ f, utf8.Valid f = true) fields → adds (concat (ink <$> fields)) w (write_fields first fields w).
Proof.
  intros H. revert first w. induction H as [|f fields Hf _ IH]; intros first w; [by apply adds_refl|].
  cbn [write_fields fmap list_fmap concat]. eapply adds_trans; [|apply IH].
  destruct first; [by apply adds_write|]. eapply adds_before; [apply adds_spacing|by apply adds_write].
Qed.

Lemma adds_text text w : utf8.Valid text = true → adds (ink text) w (write_text text w).
Proof.
  intros Ht. destruct (Fields_ink text Ht) as [Hf Hi]. unfold write_text.
  destruct (0 <? pre w); [by apply adds_append|]. destruct text as [|c text]; [by apply adds_refl|].
  set (w1 := if space_rune _ then set_spacing true w else w).
  assert (adds [] w w1) as H1 by (unfold w1; case_match; [apply adds_spacing|by apply adds_refl]).
  set (w2 := write_fields true (Fields (c :: text)) w1).
  assert (adds (ink (c :: text)) w1 w2) as H2 by (rewrite <- Hi; by apply adds_fields).
  eapply adds_before; [exact H1|]. eapply adds_after; [exact H2|].
  case_match; [apply adds_spacing|by apply adds_refl].
Qed.

(** ** Rendering *)

(** Elements that are written without their children, of which a page has none. *)
Definition void_tags : list string := ["br"; "hr"; "img"].

(** The ink of the text nodes that are neither hidden nor inside an element
    that the reader leaves out, in the order of the page. *)
Fixpoint visible (is_root : bool) (n : html_node) : list bytes :=
  match n with
  | TextNode data => ink data
  | DocumentNode cs => concat (map (visible false) cs)
  | ElementNode tag attrs cs =>
    if invisible is_root tag attrs || bool_decide (tag ∈ void_tags) then [] else concat (map (visible false) cs)
  | OtherNode => []
  end.

(** The texts and the attributes of a page are valid UTF-8. *)
Fixpoint page_valid (n : html_node) : bool :=
  match n with
  | TextNode data => utf8.Valid data
  | DocumentNode cs => forallb page_valid cs
  | ElementNode _ attrs cs => forallb (λ a, utf8.Valid (snd a)) attrs && forallb page_valid cs
  | OtherNode => true
  end.

Lemma attribute_valid attrs name :
  forallb (λ a : string * bytes, utf8.Valid (snd a)) attrs = true → utf8.Valid (attribute attrs name) = true.
Proof.
  intros H. unfold attribute, attributeLookup. destruct (find _ attrs) as [a|] eqn:Ef; [|done].
  apply find_some in Ef as [Hin _]. rewrite forallb_forall in H. by apply H.
Qed.

Lemma trimmed_valid p : utf8.Valid p = true → utf8.Valid (to_bytes (TrimSpace (to_string p))) = true.
Proof. intros H. apply (TrimSpace_ok (to_string p)). unfold string_ok. by rewrite to_bytes_string. Qed.

Section Rendering.
Context (resolve_reference : bytes → option (string * bytes)).
(** Addresses made out of valid texts are valid. *)
Context (Haddress : ∀ href scheme text, utf8.Valid href = true →
  resolve_reference href = Some (scheme, text) → utf8.Valid text = true).

Lemma resolve_valid href : utf8.Valid href = true → utf8.Valid (resolve resolve_reference href) = true.
Proof.
  intros Hv. unfold resolve. case_match; [done|].
  destruct (resolve_reference _) as [[scheme text]|] eqn:E; [|done].
  case_match; [|done]. eapply Haddress; [|done]. by apply trimmed_valid.
Qed.

(** Takes the steps that add no visible text off the end. *)
Ltac adds :=
  lazymatch goal with
  | |- adds _ _ (newline _ _) => eapply adds_after; [|apply adds_newline]; adds
  | |- adds _ _ (set_spacing _ _) => eapply adds_after; [|apply adds_spacing]; adds
  | |- adds _ _ (add_pre _ _) => eapply adds_after; [|apply adds_pre]; adds
  | |- adds _ _ (write _ _) => eapply adds_after; [|apply adds_write_mark; reflexivity]; adds
  | |- adds [] ?w ?w => by apply adds_refl
  | _ => idtac
  end.

Lemma adds_element tag attrs text render vis w :
  forallb (λ a : string * bytes, utf8.Valid (snd a)) attrs = true → (∀ w, adds vis w (render w)) →
  adds (if bool_decide (tag ∈ void_tags) then [] else vis) w (render_element resolve_reference tag attrs text render w).
Proof.
  intros Ha Hr. assert (∀ w', adds [] w w' → adds (if bool_decide (tag ∈ void_tags) then [] else vis) w (render w')) as Hin.
  { intros w' H. eapply adds_before; [exact H|]. eapply adds_weaken; [|apply Hr]. case_match; [apply sublist_nil_l|done]. }
  assert (∀ w', adds [] w w' → tag ∈ void_tags → adds (if bool_decide (tag ∈ void_tags) then [] else vis) w w') as Hvoid.
  { intros w' H Ht. by rewrite bool_decide_true. }
  assert (∀ k, adds [] w (newline k w)) as Hn by (intros; apply adds_newline).
  set (kept := if bool_decide (tag ∈ void_tags) then [] else vis) in *. clearbody kept.
  unfold render_element. cbv zeta. destruct (heading tag) as [level|].
  { adds. apply Hin. eapply adds_after; [apply Hn|]. apply adds_write_mark, ascii_chunks.
    apply Forall_app. split; [by apply Forall_replicate|by repeat constructor]. }
  repeat if_goal.
  - subst. apply Hvoid; [apply Hn|by left].
  - subst. apply Hvoid; [|by right; left]. by adds.
  - adds. apply Hin. by adds.
  - adds. apply Hin, Hn.
  - adds. apply Hin. by apply adds_refl.
  - adds. apply Hin. by adds.
  - apply Hin. by apply adds_refl.
  - eapply adds_after; [|apply adds_mark].
    + adds. apply Hin. by adds.
    + apply (Valid_app (to_bytes "](")); [done|]. apply Valid_app; [|done]. by apply resolve_valid, attribute_valid.
  - subst. apply Hvoid; [by apply adds_refl|by right; right; left].
  - subst. apply Hvoid; [|by right; right; left]. apply adds_write_mark.
    apply (Valid_app (to_bytes "[image: ")); [done|]. apply Valid_app; [|done].
    by apply trimmed_valid, attribute_valid.
  - adds. apply Hin, Hn.
  - adds. apply Hin, Hn.
  - apply Hin. by apply adds_refl.
Qed.

Lemma adds_nodes cs w :
  Forall (λ n, ∀ is_root w, adds (visible is_root n) w (render_node resolve_reference is_root n w)) cs →
  adds (concat (map (visible false) cs)) w (fold_left (λ w c, render_node resolve_reference false c w) cs w).
Proof.
  intros H. revert w. induction H as [|n cs Hn _ IH]; intros w; [by apply adds_refl|].
  simpl. eapply adds_trans; [apply Hn|apply IH].
Qed.

Lemma adds_node n is_root w :
  page_valid n = true → adds (visible is_root n) w (render_node resolve_reference is_root n w).
Proof.
  revert is_root w. induction n as [data| |cs IH|tag attrs cs IH] using node_ind; intros is_root w Hv.
  - by apply adds_text.
  - by apply adds_refl.
  - apply adds_nodes. simpl in Hv. rewrite forallb_Forall in Hv. rewrite Forall_forall in Hv, IH |- *.
    intros c Hc is_root' w'. by apply IH, Hv.
  - simpl in Hv. apply andb_true_iff in Hv as [Ha Hv]. cbn [visible render_node].
    destruct (invisible is_root tag attrs); [by apply adds_refl|]. cbn [orb].
    apply adds_element; [done|]. intros w'. apply adds_nodes.
    rewrite forallb_Forall in Hv. rewrite Forall_forall in Hv, IH |- *. intros c Hc is_root' w''. by apply IH, Hv.
Qed.
End Rendering.

(** ** The text of a page *)

Lemma find_first_valid tag cs n :
  Forall (λ c, page_valid c = true → ∀ n, findElement tag c = Some n → page_valid n = true) cs →
  forallb page_valid cs = true → find_first (findElement tag) cs = Some n → page_valid n = true.
Proof.
  induction 1 as [|c cs Hc _ IH]; simpl; [done|]. intros [Hv Hvs]%andb_true_iff.
  destruct (findElement tag c) as [m|] eqn:E; [intros [= <-]; by apply Hc|by apply IH].
Qed.

Lemma findElement_valid tag n m : page_valid n = true → findElement tag n = Some m → page_valid m = true.
Proof.
  revert m. induction n as [data| |cs IH|t attrs cs IH] using node_ind; intros m Hv Hf; try done; cbn [findElement] in Hf.
  - eapply find_first_valid; [|exact Hv|exact Hf]. eapply Forall_impl; [exact IH|]. intros c HI Hc k. by apply HI.
  - case_bool_decide; [by injection Hf as <-|]. simpl in Hv. apply andb_true_iff in Hv as [_ Hv].
    eapply find_first_valid; [|exact Hv|exact Hf]. eapply Forall_impl; [exact IH|]. intros c HI Hc k. by apply HI.
Qed.

Lemma root_valid document : page_valid document = true → page_valid (root_of document) = true.
Proof.
  intros Hv. unfold root_of. destruct (findElement "main" document) as [n|] eqn:E1; [by eapply findElement_valid|].
  destruct (countElements "article" document =? 1); [destruct (findElement "article" document) as [n|] eqn:E2|];
    try (by eapply findElement_valid); destruct (findElement "body" document) as [n|] eqn:E3; simpl;
    first [done|by eapply findElement_valid].
Qed.

Lemma filter_trim_left l : filter inked (trim_left l) = filter inked l.
Proof.
  induction l as [|c l IH]; [done|]. simpl. destruct (space_chunk c) eqn:E; [|done].
  rewrite filter_cons, decide_False by (unfold inked; congruence). done.
Qed.

Lemma ink_trimmed s : ink (to_bytes (TrimSpace s)) = ink (to_bytes s).
Proof.
  unfold ink. rewrite TrimSpace_chunks. unfold trimmed_chunks, trim_right.
  rewrite filter_reverse, filter_trim_left, <- filter_reverse, reverse_involutive. apply filter_trim_left.
Qed.

(** C34: No visible text of a page is lost: whatever the tree of a page, when its
    texts are valid UTF-8 the text that is made of it holds, in the order of
    the page, every rune that is not white space of every text node of the
    main part that is neither hidden nor in an element the reader leaves out
    (scripts, menus, forms and the like). *)
Theorem visible_text_kept resolve_reference parse body document :
  (∀ href scheme text, utf8.Valid href = true → resolve_reference href = Some (scheme, text) → utf8.Valid text = true) →
  parse body = Ok document → page_valid document = true →
  visible true (root_of document) `sublist_of` ink (snd (htmlToText resolve_reference parse body)).
Proof.
  intros Ha Hp Hv. unfold htmlToText. rewrite Hp. simpl. rewrite ink_trimmed, to_bytes_string.
  destruct (adds_node resolve_reference Ha (root_of document) true (MkWriter [] 0 false) (root_valid _ Hv) eq_refl)
    as (_ & more & -> & Hs). exact Hs.
Qed.

Definition sample_page : html_node :=
  DocumentNode [ElementNode "head" [] [ElementNode "title" [] [TextNode (to_bytes "T")]];
    ElementNode "body" [] [ElementNode "nav" [] [TextNode (to_bytes "menu")];
      ElementNode "p" [] [TextNode (to_bytes " a "); ElementNode "a" [("href", to_bytes "x")] [TextNode (to_bytes "b")]]]].

Lemma visible_text_kept_witness :
  visible true (root_of sample_page) = to_bytes <$> ["a"; "b"] ∧
  visible true (root_of sample_page) `sublist_of`
    ink (snd (htmlToText (λ href, Some ("https", to_bytes "https://h/" ++ href)) (λ _, Ok sample_page) [])).
Proof.
  split; [vm_compute; reflexivity|].
  apply (visible_text_kept (λ href, Some ("https", to_bytes "https://h/" ++ href)) (λ _, Ok sample_page) [] sample_page).
  - intros href scheme text Hv [= <- <-]. by apply (Valid_app (to_bytes "https://h/")).
  - reflexivity.
  - vm_compute. reflexivity.
Defined.
