(* ===== verification/GuiServer.v ===== *)
(** * The server of the desktop application (src/gui/server.go, src/gui/app.go)

    What the server decides before and after its input and output: which
    requests it admits, which file of a workspace a path names, the text of a
    message with attachments, the title of a session, the name of an uploaded
    file and the texts of the event stream.  Requests, file names and the
    outcomes of opening a file are arguments.  A request is served only to
    whoever holds the token, over a loopback name; paths stay inside the
    workspace; and the event stream is read back by the framer of the harness
    itself. *)

From Stdlib Require Import Ascii ZArith Lia.
From S2P Require Import Prelude GoStrings GoText NetIP Json JsonCodec ResponsesRetry Approvals Chat DocumentText HtmlText.

Local Open Scope Z_scope.

(** ** The guard *)

Definition bracket (c : ascii) : bool := Ascii.eqb c "[" || Ascii.eqb c "]".

Fixpoint trim_brackets (p : bytes) : bytes :=
  match p with c :: rest => if bracket c then trim_brackets rest else p | [] => [] end.

(** [strings.Trim(host, "[]")] *)
Definition Trim_brackets (p : bytes) : bytes := reverse (trim_brackets (reverse (trim_brackets p))).

Definition loopbackHost (hostport : string) : bool :=
  let host := default (to_bytes hostport) (SplitHost (to_bytes hostport)) in
  bool_decide (host = to_bytes "localhost")
  || match ParseIP (Trim_brackets host) with Some ip => IsLoopback ip | None => false end.

Example loopback_hosts :
  loopbackHost <$> ["localhost:80"; "127.0.0.1:8080"; "[::1]:80"; "::1"; "[::ffff:127.0.0.9]"; "evil.example:80";
                    "127.0.0.1.evil.example"; "10.0.0.1"; "localhost.evil.example"; "127.1"; "[::2]:80"]
  = [true; true; true; true; true; false; false; false; false; false; false].
Proof. vm_compute. reflexivity. Qed.

(** What the guard reads of a request: no token or cookie is the empty text
    and none. *)
Record request : Type := MkRequest {
  Host : string;
  Method : string;
  URL_Path : string;
  query_token : string;
  cookie_uag : option string;
  header_X_UAG : string;
}.

Inductive verdict : Type :=
  | ForbiddenHost                  (* 403 *)
  | LoggedIn (cookie : string)     (* the cookie, and a redirect to / *)
  | Unauthorized                   (* 401 *)
  | MissingHeader                  (* 403 *)
  | Served.

(** [subtle.ConstantTimeCompare] compares texts; [token] is app.token. *)
Definition guard (token : string) (r : request) : verdict :=
  if negb (loopbackHost (Host r)) then ForbiddenHost
  else if negb (bool_decide (query_token r = EmptyString)) && bool_decide (URL_Path r = "/")
          && bool_decide (query_token r = token) then LoggedIn token
  else if negb (match cookie_uag r with Some value => bool_decide (value = token) | None => false end) then Unauthorized
  else if negb (bool_decide (Method r = "GET")) && negb (bool_decide (Method r = "HEAD"))
          && negb (bool_decide (header_X_UAG r = "1")) then MissingHeader
  else Served.

(** ** Paths *)

(** path.Clean is filepath.Clean on Unix, where filepath.ToSlash changes
    nothing. *)
Definition relativePath (value : string) : string :=
  TrimPrefix (filepath.Clean ("/" +:+ value)) "/".

(** ** Messages *)

Definition attachmentHeader : string := "[Attached files]".
Definition uploadDir : string := "uploads".

Definition attachment_line (attachment : string) : option string :=
  let attachment := filepath.Clean (TrimSpace attachment) in
  if bool_decide (attachment = ".") || HasPrefix attachment "../" || filepath.IsAbs attachment then None
  else Some ("- " +:+ attachment +:+ (if isImage attachment then " (image: view it with ViewImage)" else EmptyString)).

Definition newline_text : string := String LF EmptyString.

Definition composeMessage (text : string) (attachments : list string) : string :=
  let text := TrimSpace text in
  match omap attachment_line attachments with
  | [] => text
  | lines =>
    let block := attachmentHeader +:+ newline_text +:+ Join lines newline_text in
    if bool_decide (text = EmptyString) then block else text +:+ newline_text +:+ newline_text +:+ block
  end.

(** The text before the first place where [sep] is, if it is anywhere. *)
Fixpoint before_text (sep p : bytes) : option bytes :=
  if bool_decide (take (length sep) p = sep) then Some []
  else match p with [] => None | c :: p => (λ b, c :: b) <$> before_text sep p end.

Definition title (text : string) : string :=
  let text := TrimSpace text in
  let text := match before_text (to_bytes attachmentHeader) (to_bytes text) with
              | Some before =>
                let before := TrimSpace (to_string before) in
                if bool_decide (before = EmptyString) then "Attached files" else before
              | None => text
              end in
  let text := join_on " "%char (Fields (to_bytes text)) in
  let runes := utf8.runes text in
  if 60 <? len runes then TrimSpace (to_string (concat (utf8.EncodeRune <$> take 60 runes))) +:+ "…"
  else to_string text.

(** ** Uploads *)

(** The name that the [attempt]th round of the loop tries. *)
Definition candidate (name : string) (attempt : nat) : string :=
  let extension := Ext name in
  let stem := TrimSuffix name extension in
  match attempt with O => name | _ => stem +:+ "-" +:+ Itoa (Z.of_nat attempt) +:+ extension end.

(** [open] is root.OpenFile with O_CREATE and O_EXCL. *)
Fixpoint create_from (open : string → result unit) (name : string) (rounds attempt : nat) : result string :=
  match rounds with
  | O => Err (errors_New "too many files with the same name")
  | S rounds =>
    let relative := filepath.Join [uploadDir; candidate name attempt] in
    match open relative with
    | Ok _ => Ok relative
    | Err e => if errors_Is e ErrExist then create_from open name rounds (S attempt) else Err e
    | Panic t => Panic t
    end
  end.

Definition createUnique (open : string → result unit) (name : string) : result string :=
  create_from open name 1000 0.

(** ** Events *)

(** [write]: an event of the stream; no identifier is 0. *)
Definition write_event (id : Z) (name : string) (data : bytes) : bytes :=
  (if negb (id =? 0) then to_bytes ("id: " +:+ Itoa id) ++ [LF] else [])
  ++ to_bytes ("event: " +:+ name) ++ [LF] ++ to_bytes "data: " ++ data ++ [LF; LF].

Definition stored_text (v : value) : bytes := match v with VText j => print j | _ => [] end.

Section Stream.
(** What json.Marshal makes of the members of the status. *)
Context (status_text : bool → string → list pendingApproval → bytes).

Definition event_data (ev : chat_event) : bytes :=
  match ev with
  | EvItem i => stored_text (citem.data i)
  | EvStatus running error approvals => status_text running error approvals
  end.

Definition event_id (ev : chat_event) : Z := match ev with EvItem i => citem.seq i | EvStatus _ _ _ => 0 end.
Definition event_name (ev : chat_event) : string := match ev with EvItem _ => "item" | EvStatus _ _ _ => "status" end.

Definition written (ev : chat_event) : bytes := write_event (event_id ev) (event_name ev) (event_data ev).

(** What the loop takes: an event from the channel or a tick of the ticker. *)
Inductive turn : Type :=
  | Event (ev : chat_event)
  | Ping.

Definition write_turn (t : turn) : bytes :=
  match t with Event ev => written ev | Ping => to_bytes ": ping" ++ [LF; LF] end.

(** All that [handleEvents] writes. *)
Definition handleEvents (backlog : list storedItem) (status : chat_event) (turns : list turn) : bytes :=
  to_bytes "retry: 1500" ++ [LF; LF]
  ++ concat ((λ i, written (EvItem i)) <$> backlog)
  ++ written status
  ++ concat (write_turn <$> turns).
End Stream.


From S2P Require Import JsonFacts RemoteSSE SSEFacts.
From S2P Require Import GoText Approvals Chat DocumentText DocumentFacts.

(** ** Requests *)

Definition ipv4_char (c : ascii) : Prop := is_digit c ∨ c = "."%char.

Lemma ipv4_go_chars s val digits fields r :
  ipv4_go s val digits fields = Some r →
  Forall ipv4_char s ∧ length r = 4%nat ∧ fields `prefix_of` r.
Proof.
  revert val digits fields. induction s as [|c s IH]; intros val digits fields H; cbn [ipv4_go] in H.
  - destruct (Nat.eqb_spec (length fields) 3) as [Hf|]; [|done]. destruct (negb _); [|done].
    injection H as <-. rewrite length_app, Hf. split; [done|]. split; [done|]. by eexists.
  - destruct (decimal c) eqn:Hd.
    + destruct (_ && _); [done|]. cbv zeta in H. destruct (255 <? _); [done|].
      apply IH in H as (H1 & H2 & H3). split; [|done]. constructor; [by left|done].
    + destruct (Ascii.eqb_spec c ".") as [->|]; [|done]. destruct (_ || _); [done|].
      apply IH in H as (H1 & H2 & H3). split; [constructor; [by right|done]|]. split; [done|].
      etrans; [|exact H3]. by eexists.
Qed.

(** A host name with a point is refused unless it is four numbers. *)
Lemma ParseIP_name s ip :
  ParseIP s = Some ip → ":"%char ∉ s →
  Forall ipv4_char s ∧ ∃ fields, parse_ipv4 s = Some fields ∧ length fields = 4%nat ∧ ip = v4_prefix ++ fields.
Proof.
  unfold ParseIP. intros H Hc. destruct (find _ s) as [c|] eqn:Ef; [|done].
  apply find_some in Ef as [Hin Hsep]. apply list_elem_of_In in Hin.
  destruct (Ascii.eqb_spec c ".") as [->|].
  - destruct (parse_ipv4 s) as [fields|] eqn:Ep; [|done]. injection H as <-.
    destruct (ipv4_go_chars s 0 0 [] fields Ep) as (H1 & H2 & _). split; [done|]. by exists fields.
  - destruct (Ascii.eqb_spec c ":") as [->|]; [done|done].
Qed.

(** The name that a browser was told to connect to. *)
Definition host_of (hostport : string) : bytes :=
  Trim_brackets (default (to_bytes hostport) (SplitHost (to_bytes hostport))).

Lemma loopbackHost_name hostport :
  loopbackHost hostport = true → ":"%char ∉ host_of hostport →
  host_of hostport = to_bytes "localhost" ∨
  Forall ipv4_char (host_of hostport) ∧
    ∃ a b c, parse_ipv4 (host_of hostport) = Some [127; a; b; c].
Proof.
  unfold loopbackHost, host_of. intros [H|H]%orb_true_iff Hc.
  { apply bool_decide_eq_true in H as ->. by left. }
  right. destruct (ParseIP _) as [ip|] eqn:Ep; [|done].
  destruct (ParseIP_name _ _ Ep Hc) as (Hf & fields & -> & Hl & ->). split; [done|].
  destruct fields as [|x [|a [|b [|c [|]]]]]; try done. unfold IsLoopback in H.
  rewrite bool_decide_true in H by done. apply bool_decide_eq_true in H. simpl in H.
  injection H as ->. by exists a, b, c.
Qed.

(** The request shows the token, in its cookie or in the address of the page. *)
Definition presents (r : request) (token : string) : Prop :=
  cookie_uag r = Some token ∨ query_token r = token ∧ query_token r ≠ EmptyString.

(** C29: A request is served only when its host is localhost, an address of
    127.0.0.0/8 in full or a text with a colon (an IPv6 address), so never
    under a domain name, when its cookie holds the token, and when it is a GET
    or HEAD or has the header that other sites cannot send; the cookie is set
    only for a request that gave the token; and what a request that does not
    present the token is answered does not depend on the token. *)
Theorem requests_guarded token r :
  (guard token r = Served →
    (host_of (Host r) = to_bytes "localhost" ∨ ":"%char ∈ host_of (Host r) ∨
      ∃ a b c, parse_ipv4 (host_of (Host r)) = Some [127; a; b; c]) ∧
    cookie_uag r = Some token ∧ (Method r ∈ ["GET"; "HEAD"] ∨ header_X_UAG r = "1")) ∧
  (∀ cookie, guard token r = LoggedIn cookie → cookie = token ∧ query_token r = token ∧ URL_Path r = "/") ∧
  (∀ token', ¬ presents r token → ¬ presents r token' →
    guard token r = guard token' r ∧ guard token r ∈ [ForbiddenHost; Unauthorized]).
Proof.
  split_and!.
  - unfold guard. intros H. destruct (loopbackHost (Host r)) eqn:Hl; [|done]. cbn [negb] in H.
    destruct (_ && _ && _); [done|]. destruct (cookie_uag r) as [value|] eqn:Hc; [|done].
    destruct (bool_decide_reflect (value = token)) as [->|]; [|done]. cbn [negb] in H. split; [|split; [done|]].
    + destruct (decide (":"%char ∈ host_of (Host r))) as [|Hcolon]; [by right; left|].
      destruct (loopbackHost_name _ Hl Hcolon) as [|[_ ?]]; [by left|by right; right].
    + destruct (bool_decide_reflect (Method r = "GET")) as [->|]; [left; by left|].
      destruct (bool_decide_reflect (Method r = "HEAD")) as [->|]; [left; by right; left|].
      destruct (bool_decide_reflect (header_X_UAG r = "1")); [by right|done].
  - intros cookie H. unfold guard in H. destruct (loopbackHost _); [|done]. cbn [negb] in H.
    destruct (bool_decide_reflect (URL_Path r = "/")) as [Hp|Hp]; [|rewrite andb_false_r in H; simpl in H].
    + destruct (bool_decide_reflect (query_token r = token)) as [Ht|Ht]; [|rewrite andb_false_r in H; simpl in H].
      * destruct (negb (bool_decide (query_token r = EmptyString))); simpl in H; [by injection H as <-|].
        by repeat case_match.
      * by repeat case_match.
    + by repeat case_match.
  - intros token' H1 H2. assert (∀ t, ¬ presents r t →
      guard t r = if loopbackHost (Host r) then Unauthorized else ForbiddenHost) as Hg.
    { intros t Ht. unfold guard. destruct (loopbackHost (Host r)); [|done]. cbn [negb].
      destruct (bool_decide_reflect (query_token r = EmptyString)) as [He|He];
        [|destruct (bool_decide_reflect (query_token r = t)) as [Hq|Hq];
          [exfalso; apply Ht; by right|rewrite andb_false_r]]; cbn [negb andb];
        (destruct (cookie_uag r) as [value|] eqn:Hc; [|done]);
        (rewrite bool_decide_false; [done|]; intros ->; apply Ht; by left). }
    rewrite !Hg by done. split; [done|]. destruct (loopbackHost _); [by right; left|by left].
Qed.

(** ** Paths *)

(** An element that goes down: a name. *)
Definition downward (w : bytes) : Prop := w ≠ [] ∧ w ≠ to_bytes "." ∧ w ≠ to_bytes "..".

Lemma clean_go_rooted stack l :
  Forall downward stack → Forall downward (filepath.clean_go true stack l) ∧
  ∀ w, w ∈ filepath.clean_go true stack l → w ∈ stack ∨ w ∈ l.
Proof.
  revert stack. induction l as [|w l IH]; intros stack Hs; cbn [filepath.clean_go].
  - split; [by apply Forall_reverse|]. intros w Hw. left. by apply elem_of_reverse.
  - assert (∀ stack', Forall downward stack' → (∀ v, v ∈ stack' → v ∈ stack ∨ v ∈ w :: l) →
      Forall downward (filepath.clean_go true stack' l) ∧
      ∀ v, v ∈ filepath.clean_go true stack' l → v ∈ stack ∨ v ∈ w :: l) as Hstep.
    { intros stack' Hs' Hin. destruct (IH stack' Hs') as [H1 H2]. split; [done|].
      intros v [Hv|Hv]%H2; [by apply Hin|]. right. by right. }
    destruct (bool_decide_reflect (w = [])) as [Hw1|Hw1]; [apply Hstep; [done|by left]|].
    destruct (bool_decide_reflect (w = to_bytes ".")) as [Hw2|Hw2]; [apply Hstep; [done|by left]|]. cbn [orb].
    destruct (bool_decide_reflect (w = to_bytes "..")) as [Hw3|Hw3].
    + destruct stack as [|top rest]; [apply Hstep; [done|by left]|].
      apply Forall_cons in Hs as [(H1 & H2 & H3) Hrest]. rewrite bool_decide_false by done.
      apply Hstep; [done|]. intros v Hv. left. by right.
    + apply Hstep; [by constructor|]. intros v [->|Hv]%elem_of_cons; [right; by left|by left].
Qed.

Lemma TrimPrefix_slash s : TrimPrefix (String "/" s) "/" = s.
Proof.
  unfold TrimPrefix. assert (HasPrefix (String "/" s) "/" = true) as -> by (by destruct s).
  apply to_string_bytes.
Qed.

(** A path of a request stays inside the workspace: whatever the text, what
    the server opens is the workspace itself or a path whose elements are all
    names, none of them empty, a point or two points, each an element of the
    text that was asked for. *)
Theorem relative_path_inside value :
  relativePath value = EmptyString ∨
  Forall (λ w, downward w ∧ w ∈ split_on "/"%char (to_bytes value))
    (split_on "/"%char (to_bytes (relativePath value))).
Proof.
  unfold relativePath, filepath.Clean.
  assert (filepath.IsAbs ("/" +:+ value) = true) as -> by (destruct value; reflexivity).
  change (to_bytes ("/" +:+ value)) with ([] ++ "/"%char :: to_bytes value).
  rewrite split_on_app by apply not_elem_of_nil. cbn [filepath.clean_go].
  rewrite bool_decide_true by done. cbn [orb].
  set (l := split_on "/"%char (to_bytes value)).
  destruct (clean_go_rooted [] l (Forall_nil_2 _)) as [Hd Hin].
  set (elements := filepath.clean_go true [] l) in *.
  change (to_string (filepath.Separator :: ?p)) with (String "/" (to_string p)). rewrite !TrimPrefix_slash.
  destruct elements as [|w ws] eqn:E; [by left|]. right.
  rewrite to_bytes_string. rewrite (split_join "/"%char).
  - apply Forall_forall. intros v Hv. rewrite Forall_forall in Hd. split; [by apply Hd|].
    destruct (Hin v Hv) as [Hn|Hn]; [by apply elem_of_nil in Hn|done].
  - done.
  - apply Forall_forall. intros v Hv. destruct (Hin v Hv) as [Hn|Hn]; [by apply elem_of_nil in Hn|].
    pose proof (split_on_elements "/"%char (to_bytes value)) as Hf. rewrite Forall_forall in Hf. by apply Hf.
Qed.

(** The check of attachments, which is not the same, lets two points pass. *)
Lemma parent_attached :
  composeMessage "look" [".."; "../secret"; "a/../../secret"; "/etc"] = 
  "look" +:+ newline_text +:+ newline_text +:+ attachmentHeader +:+ newline_text +:+ "- ..".
Proof. vm_compute. reflexivity. Qed.

(** ** The event stream *)

Lemma printable_text p : Forall printable p → text p.
Proof.
  intros H. eapply Forall_impl; [exact H|]. intros c Hc. unfold line_end. unfold printable in Hc.
  destruct (Ascii.eqb_spec c CR) as [->|]; [by vm_compute in Hc|].
  destruct (Ascii.eqb_spec c RemoteSSE.LF) as [->|]; [by vm_compute in Hc|done].
Qed.

(** What a chat keeps of an item has no line end. *)
Lemma stored_text_line {A} (c : codec A) a v : Marshal c a = Ok v → text (stored_text v).
Proof.
  unfold Marshal. destruct (enc c a) as [j|] eqn:E; [|done]. intros [= <-]. apply printable_text, print_printable.
  by eapply enc_ok.
Qed.

Section Read.
Context (status_text : bool → string → list pendingApproval → bytes) (maximum : Z).
Context (Hroom : 16 ≤ maximum).

(** An event that the reader has room for, with data of one line. *)
Definition sendable (ev : chat_event) : Prop :=
  0 ≤ event_id ev ∧ text (event_data status_text ev) ∧ len (written status_text ev) ≤ maximum.

Definition turn_ok (t : turn) : Prop := match t with Event ev => sendable ev | Ping => True end.

Definition lf_field (name : string) (value : bytes) : sse_field := SSEField (to_bytes name) value TLF.

Definition event_message (ev : chat_event) : sse_message :=
  SSEMessage
    ((if negb (event_id ev =? 0) then [lf_field "id" (to_bytes (Itoa (event_id ev)))] else [])
     ++ [lf_field "event" (to_bytes (event_name ev))])
    (lf_field "data" (event_data status_text ev)) TLF.

Definition turn_message (t : turn) : sse_message :=
  match t with
  | Event ev => event_message ev
  | Ping => SSEMessage [] (lf_field EmptyString (to_bytes "ping")) TLF
  end.

Definition retry_message : sse_message := SSEMessage [] (lf_field "retry" (to_bytes "1500")) TLF.

Lemma written_encodes ev : written status_text ev = encode_event (message_event (event_message ev)).
Proof.
  unfold written, write_event, event_message, encode_event, SSEFacts.event_text, message_event, encode_lines, encode_line.
  destruct (event_id ev =? 0); cbn [negb app fmap list_fmap concat lines last_line blank message_fields last_field
    message_end field_line field_name field_value field_end lf_field fst snd terminator_bytes].
  - rewrite to_bytes_app. cbn [to_bytes String.list_ascii_of_string app]. rewrite app_nil_r.
    repeat first [rewrite <- app_assoc|progress cbn [app]]. done.
  - rewrite !to_bytes_app. cbn [to_bytes String.list_ascii_of_string app]. rewrite app_nil_r.
    repeat first [rewrite <- app_assoc|progress cbn [app]]. done.
Qed.

Lemma digits_text z : 0 ≤ z → text (to_bytes (Itoa z)).
Proof.
  intros Hz. destruct (Itoa_digits z Hz) as (Hd & _ & _). apply printable_text.
  eapply Forall_impl; [exact Hd|]. intros c Hc. unfold is_digit, digit, utf8.between in Hc.
  apply andb_true_iff in Hc as [Hc%Z.leb_le _]. unfold printable. lia.
Qed.

Lemma name_field_ok name value : name ∈ ["id"; "event"; "data"; "retry"; ""]%string → text value → field_ok (lf_field name value).
Proof.
  intros Hn Hv. assert (text (to_bytes name) ∧ ":"%char ∉ to_bytes name ∧ Forall (λ c, byte_val c < 128) (to_bytes name)) as (H1 & H2 & H3).
  { repeat (apply elem_of_cons in Hn as [->|Hn]; [split_and!; [by repeat constructor|
      apply (bool_decide_eq_false (":"%char ∈ _)); by vm_compute|by repeat constructor]|]). by apply elem_of_nil in Hn. }
  by split_and!.
Qed.

Lemma event_message_ok ev : sendable ev → message_ok maximum (event_message ev).
Proof.
  intros (Hid & Hd & Hl). split; [|split; [done|]].
  - unfold all_fields, event_message. cbn [message_fields last_field]. apply Forall_app. split.
    + apply Forall_app. split.
      * destruct (negb _); [|done]. apply Forall_singleton, name_field_ok; [by left|by apply digits_text].
      * apply Forall_singleton, name_field_ok; [by right; left|]. by destruct ev; repeat constructor.
    + apply Forall_singleton, name_field_ok; [by right; right; left|done].
  - by rewrite <- written_encodes.
Qed.

Lemma plain_message_ok f :
  field_end f = TLF → field_ok f → len (encode_event (message_event (SSEMessage [] f TLF))) ≤ 16 →
  message_ok maximum (SSEMessage [] f TLF).
Proof.
  intros He Hf Hl. split; [by apply Forall_singleton|]. split; [|lia]. cbn. by rewrite He.
Qed.

Lemma turn_message_ok t : turn_ok t → message_ok maximum (turn_message t).
Proof.
  destruct t as [ev|]; intros H; [by apply event_message_ok|]. apply plain_message_ok; [done| |by vm_compute].
  apply name_field_ok; [by right; right; right; right; left|by repeat constructor].
Qed.

Lemma retry_message_ok : message_ok maximum retry_message.
Proof.
  apply plain_message_ok; [done| |by vm_compute]. apply name_field_ok; [by right; right; right; left|by repeat constructor].
Qed.

Lemma turn_encodes t : write_turn status_text t = encode_event (message_event (turn_message t)).
Proof. destruct t as [ev|]; [apply written_encodes|by vm_compute]. Qed.

(** The data of an event; a comment has none. *)
Definition turn_data (t : turn) : option bytes :=
  match t with Event ev => Some (event_data status_text ev) | Ping => None end.

Lemma turn_message_data t : message_data (turn_message t) = turn_data t.
Proof. destruct t as [ev|]; [|done]. unfold message_data, data_values, all_fields. cbn. by destruct (negb _). Qed.

(** All turns of a connection, after the retry line. *)
Definition all_turns (backlog : list storedItem) (status : chat_event) (turns : list turn) : list turn :=
  (Event ∘ EvItem <$> backlog) ++ Event status :: turns.

Lemma handleEvents_encodes backlog status turns :
  handleEvents status_text backlog status turns
  = concat (encode_event ∘ message_event <$> (retry_message :: (turn_message <$> all_turns backlog status turns))).
Proof.
  assert (∀ l, concat (write_turn status_text <$> l) = concat (encode_event ∘ message_event <$> (turn_message <$> l))) as H.
  { intros l. rewrite <- list_fmap_compose. f_equal. apply list_fmap_ext. intros i t _. apply turn_encodes. }
  unfold handleEvents, all_turns. cbn [fmap list_fmap concat]. rewrite <- H, fmap_app, concat_app.
  rewrite <- list_fmap_compose. done.
Qed.
End Read.

(** C30: A browser reads what the server writes: however the bytes of a
    connection are cut into reads, a reader of server-sent events (the one
    that the harness has for its providers) finds the retry line and then,
    in order and without an error, one frame for every item of the backlog,
    for the status, and for every event and ping that the handler wrote,
    with exactly the data of the event, when that is one line and fits. *)
Theorem event_stream_read status_text maximum backlog status turns chunks :
  16 ≤ maximum →
  Forall (turn_ok status_text maximum) (all_turns backlog status turns) →
  concat chunks = handleEvents status_text backlog status turns →
  let framed := frameBody (newRemoteSSEFramer maximum SSEFrameDelimiterStrip) chunks in
  framed.2 = None ∧
  SSEData ∘ frame.data <$> framed.1 = None :: (turn_data status_text <$> all_turns backlog status turns).
Proof.
  intros Hroom Ht Hc.
  pose proof (frameBody_messages maximum (retry_message :: (turn_message status_text <$> all_turns backlog status turns))
    [] [] chunks) as H. cbv zeta in H |- *. destruct H as [H1 H2].
  - constructor; [by apply retry_message_ok|]. apply Forall_fmap. eapply Forall_impl; [exact Ht|].
    intros t Hok. by apply turn_message_ok.
  - apply Forall_nil_2.
  - apply Forall_nil_2.
  - change (len (encode_lines []) + len []) with 0. lia.
  - change (encode_lines []) with (@nil ascii). by rewrite !app_nil_r, <- handleEvents_encodes.
  - split; [by rewrite H1|]. rewrite H2, fmap_cons. f_equal. rewrite <- list_fmap_compose.
    apply list_fmap_ext. intros i t _. apply turn_message_data.
Qed.

Definition sample_status : bool → string → list pendingApproval → bytes := λ _ _ _, to_bytes "{}".

Lemma event_stream_read_witness :
  let backlog := [citem.Mk 7 (VText (JStr "hello"))] in
  let turns := [Ping; Event (EvItem (citem.Mk 8 (VText (JStr "world"))))] in
  let body := handleEvents sample_status backlog (EvStatus true EmptyString []) turns in
  let framed := frameBody (newRemoteSSEFramer 64 SSEFrameDelimiterStrip) [take 30 body; drop 30 body] in
  framed.2 = None ∧
  SSEData ∘ frame.data <$> framed.1
  = None :: (turn_data sample_status <$> all_turns backlog (EvStatus true EmptyString []) turns).
Proof.
  apply (event_stream_read sample_status 64); [lia| |vm_compute; reflexivity].
  repeat constructor; try (vm_compute; congruence).
Defined.
