(* ===== verification/DotEnv.v ===== *)
(** * The environment of a run (src/cmd/internal/agentrunner/run.go)

    [loadDotEnv] adds the variables of a .env file to those of the process and
    records every change; [Close] takes the changes back.  The variables of
    the process are the state.  The order in which Go walks the map of the
    file's variables is an argument: whatever it is, the result is the same. *)

From Stdlib Require Import Ascii ZArith Lia.
From S2P Require Import Prelude StateLogic GoStrings GoText DocumentText.

Local Open Scope Z_scope.

(** ** os.Setenv on Unix *)

Definition NUL : ascii := "000"%char.

Definition name_ok (name : string) : bool :=
  negb (bool_decide (name = EmptyString)) && negb (existsb (λ c, Ascii.eqb c "=" || Ascii.eqb c NUL) (to_bytes name)).

Definition value_ok (value : string) : bool := negb (existsb (λ c, Ascii.eqb c NUL) (to_bytes value)).

Definition setenv_error : error := errors_New "setenv: invalid argument".

Record environmentChange : Type := MkChange { change_name : string; change_value : string; change_present : bool }.

(** The variables, and the changes of the scope. *)
Record process : Type := MkProcess { environ : gmap string string; changes : list environmentChange }.

Definition set_environ (m : gmap string string) (p : process) : process := MkProcess m (changes p).

Definition LookupEnv (name : string) (p : process) : option string := environ p !! name.
Definition Getenv (name : string) (p : process) : string := default EmptyString (environ p !! name).

Definition Setenv (name value : string) : M process unit :=
  if name_ok name && value_ok value then modify (λ p, set_environ (<[name := value]> (environ p)) p)
  else fail setenv_error.

Definition Unsetenv (name : string) : M process unit := modify (λ p, set_environ (delete name (environ p)) p).

(** ** The file *)

(** One round of the loop over [strings.Lines]; [values] is the map so far. *)
Definition parse_line (values : gmap string string) (line : bytes) : gmap string string :=
  let line := TrimSpace (to_string line) in
  if bool_decide (line = EmptyString) || HasPrefix line "#" then values
  else
    match Cut "=" (to_bytes line) with
    | None => values
    | Some (name, value) =>
      let name := TrimSpace (to_string name) in
      if bool_decide (name = EmptyString) then values
      else <[name := TrimSpace (to_string value)]> values
    end.

(** The parts between line feeds are the lines without their ends, which are
    trimmed anyway, and maybe an empty text at the end, which is skipped. *)
Definition parse_dotenv (encoded : bytes) : gmap string string :=
  fold_left parse_line (split_on LF encoded) ∅.

(** ** The scope *)

Definition scope_set (name value : string) : M process unit :=
  previous ← gets (LookupEnv name);
  _ ← (λ p, let '(p', r) := Setenv name value p in
            (p', map_err (Errorf_w ("set environment variable " +:+ quote name +:+ ": ")) r));
  modify (λ p, MkProcess (environ p)
    (changes p ++ [MkChange name (default EmptyString previous) (bool_decide (is_Some previous))])).

(** The loop of [Close]: it goes on after an error. *)
Fixpoint restore (reversed : list environmentChange) (p : process) : process * option error :=
  match reversed with
  | [] => (p, None)
  | c :: rest =>
    let '(p, r) := (if change_present c then Setenv (change_name c) (change_value c) else Unsetenv (change_name c)) p in
    let '(p, more) := restore rest p in
    (p, match r with
        | Err e =>
          let e := Errorf_w ("restore environment variable " +:+ quote (change_name c) +:+ ": ") e in
          Some (match more with Some e' => errors_Join e e' | None => e end)
        | _ => more
        end)
  end.

Definition scope_Close (p : process) : process * option error :=
  let '(p, e) := restore (reverse (changes p)) p in (MkProcess (environ p) [], e).

(** [errors.Join(err, scope.Close())] *)
Definition or_restore (m : M process unit) : M process unit := λ p,
  match m p with
  | (p, Err e) =>
    let '(p, closed) := scope_Close p in
    (p, Err (match closed with Some e' => errors_Join e e' | None => e end))
  | r => r
  end.

Definition proxy_name : string := "SANDBOX_EGRESS_PROXY".

(** The body of the loop over the values. *)
Definition load_value '(name, value) : M process unit :=
  present ← gets (LookupEnv name);
  if bool_decide (is_Some present) && negb (bool_decide (name = proxy_name)) then mret tt
  else scope_set name value.

Definition load_values (values : list (string * string)) : M process unit :=
  _ ← for_each load_value values;
  proxy ← gets (Getenv proxy_name);
  if bool_decide (proxy = EmptyString) then mret tt else scope_set "HTTPS_PROXY" proxy.

(** [contents] is what os.ReadFile returns and [order] the walk of the map. *)
Definition loadDotEnv (contents : bytes + error) (order : list (string * string) → list (string * string))
    : M process unit :=
  match contents with
  | inl encoded => or_restore (load_values (order (map_to_list (parse_dotenv encoded))))
  | inr e => if errors_Is e ErrNotExist then mret tt else fail (Errorf_w "read environment file: " e)
  end.

Example a_file :
  map_to_list (parse_dotenv (to_bytes ("# keys" +:+ String LF (" A = 1 " +:+ String LF ("noise" +:+ String LF "A=2=3")))))
  = [("A", "2=3")].
Proof. vm_compute. reflexivity. Qed.

(** ** Changes are taken back *)

(** The variables of a process are such that they can be set again. *)
Definition environ_ok (m : gmap string string) : Prop :=
  ∀ name value, m !! name = Some value → name_ok name = true ∧ value_ok value = true.

(** The variables that a file adds to those of the start: those of the process
    have priority, but for the proxy, which is also that of HTTPS. *)
Definition with_file (start values : gmap string string) (name : string) : option string :=
  if decide (name = proxy_name) then from_option Some (start !! name) (values !! name)
  else from_option Some (values !! name) (start !! name).

Definition loaded (start values : gmap string string) (name : string) : option string :=
  let proxy := default EmptyString (with_file start values proxy_name) in
  if decide (name = "HTTPS_PROXY" ∧ proxy ≠ EmptyString) then Some proxy else with_file start values name.

(** Undoing the changes gives the variables of the start. *)
Definition undoes (start : gmap string string) (p : process) : Prop :=
  scope_Close p = (MkProcess start [], None).

(** Restoring does not look at the changes of the scope. *)
Lemma restore_frame l m cs cs' :
  environ (restore l (MkProcess m cs)).1 = environ (restore l (MkProcess m cs')).1
  ∧ (restore l (MkProcess m cs)).2 = (restore l (MkProcess m cs')).2.
Proof.
  revert m. induction l as [|c l IH]; intros m; [done|].
  assert (∀ m' (r : result unit),
    let f := λ cs, let '(p, more) := restore l (MkProcess m' cs) in
        (p, match r with
            | Err e => let e := Errorf_w ("restore environment variable " +:+ quote (change_name c) +:+ ": ") e in
              Some (match more with Some e' => errors_Join e e' | None => e end)
            | _ => more end) in
    environ (f cs).1 = environ (f cs').1 ∧ (f cs).2 = (f cs').2) as H.
  { intros m' r. destruct (IH m') as [H1 H2]. simpl.
    destruct (restore l (MkProcess m' cs)), (restore l (MkProcess m' cs')). simpl in *. by subst. }
  simpl. unfold Setenv, Unsetenv.
  destruct (change_present c); [destruct (name_ok _ && value_ok _)|]; apply H.
Qed.

Lemma scope_Close_eq p m cs c :
  changes p = cs ++ [c] →
  (if change_present c then Setenv (change_name c) (change_value c) else Unsetenv (change_name c)) p
    = (MkProcess m (changes p), Ok tt) →
  scope_Close p = scope_Close (MkProcess m cs).
Proof.
  intros Hcs Hc. unfold scope_Close. rewrite Hcs, reverse_snoc. simpl. rewrite Hc.
  destruct (restore_frame (reverse cs) m (changes p) cs) as [He Hr].
  destruct (restore (reverse cs) (MkProcess m (changes p))), (restore (reverse cs) (MkProcess m cs)).
  simpl in *. by rewrite He, Hr.
Qed.

(** What a change of a scope keeps: it can be taken back; a failed one changes
    nothing. *)
Definition scope_ok (start : gmap string string) (p : process) : Prop :=
  undoes start p ∧ environ_ok (environ p).

Lemma scope_set_spec start name value p :
  scope_ok start p →
  (∃ p', scope_set name value p = (p', Ok tt) ∧ scope_ok start p' ∧ environ p' = <[name := value]> (environ p))
  ∨ ∃ e, scope_set name value p = (p, Err e).
Proof.
  intros [Hu Hok]. unfold scope_set, Setenv. rewrite M_gets.
  destruct (name_ok name && value_ok value) eqn:E; [left|right]; [|eexists; reflexivity].
  apply andb_true_iff in E. eexists. split; [reflexivity|]. split; [split|done].
  - unfold undoes. erewrite (scope_Close_eq _ (environ p) (changes p)); [destruct p; apply Hu|reflexivity|]. simpl. unfold LookupEnv.
    destruct (environ p !! name) as [v|] eqn:Hv; simpl; unfold Setenv, Unsetenv, modify, set_environ; simpl.
    + destruct (Hok _ _ Hv) as [-> ->]. simpl. by rewrite insert_insert_eq, insert_id.
    + by rewrite delete_insert_id.
  - intros n v. simpl. rewrite lookup_insert_Some. intros [[<- <-]|[_ H]]; [done|by apply (Hok n)].
Qed.

Definition load_environ (m : gmap string string) (name value : string) : gmap string string :=
  if decide (name ≠ proxy_name ∧ is_Some (m !! name)) then m else <[name := value]> m.

Lemma load_value_spec start name value p :
  scope_ok start p →
  (∃ p', load_value (name, value) p = (p', Ok tt) ∧ scope_ok start p'
         ∧ environ p' = load_environ (environ p) name value)
  ∨ ∃ e, load_value (name, value) p = (p, Err e).
Proof.
  intros Hp. unfold load_value, load_environ, LookupEnv. rewrite M_gets.
  destruct (decide (name ≠ proxy_name ∧ is_Some (environ p !! name))) as [[Hne Hs]|Hn].
  - left. exists p. by rewrite !bool_decide_true, bool_decide_false by done.
  - replace (bool_decide _ && _) with false; [by apply scope_set_spec|].
    symmetry. apply andb_false_iff. rewrite negb_false_iff, bool_decide_eq_false, bool_decide_eq_true.
    destruct (decide (name = proxy_name)); [by right|left; tauto].
Qed.

Lemma with_file_insert m rest name value n :
  (rest : gmap string string) !! name = None →
  with_file m (<[name := value]> rest) n = with_file (load_environ m name value) rest n.
Proof.
  intros Hn. unfold with_file, load_environ.
  destruct (decide (name = n)) as [->|Hne].
  - rewrite lookup_insert_eq, Hn. destruct (decide (n = proxy_name)) as [->|Hp]; simpl.
    + destruct (decide (proxy_name ≠ proxy_name ∧ is_Some (m !! proxy_name))) as [[? _]|_]; [done|]. by rewrite lookup_insert_eq.
    + destruct (decide (n ≠ proxy_name ∧ is_Some (m !! n))) as [[_ [v Hv]]|Hc]; [by rewrite Hv|]. rewrite lookup_insert_eq.
      destruct (m !! n) as [v|] eqn:Hm; [|done]. destruct Hc. eauto.
  - rewrite lookup_insert_ne by done. destruct (decide (name ≠ proxy_name ∧ _)); [done|].
    by rewrite lookup_insert_ne.
Qed.

Lemma bind_after_ok {S A B} (m : M S A) (f : A → M S B) s s' a : m s = (s', Ok a) → (m ≫= f) s = f a s'.
Proof. unfold mbind, M_bind. by intros ->. Qed.

Lemma bind_after_err {S A B} (m : M S A) (f : A → M S B) s s' e : m s = (s', Err e) → (m ≫= f) s = (s', Err e).
Proof. unfold mbind, M_bind. by intros ->. Qed.

(** The rounds of the loop, for a list without duplicates: the proxy is
    overwritten and the other variables are set where they were not. *)
Lemma load_each start values p :
  scope_ok start p → NoDup values.*1 →
  (∃ p', for_each load_value values p = (p', Ok tt) ∧ scope_ok start p'
         ∧ ∀ name, environ p' !! name = with_file (environ p) (list_to_map values) name)
  ∨ ∃ p' e, for_each load_value values p = (p', Err e) ∧ scope_ok start p'.
Proof.
  revert p. induction values as [|[name value] rest IH]; intros p Hp Hnd.
  - left. exists p. split_and!; [done|done|]. intros n. unfold with_file. simpl. rewrite lookup_empty. simpl.
    destruct (decide _); [done|by destruct (environ p !! n)].
  - apply NoDup_cons in Hnd as [Hn Hnd].
    apply (not_elem_of_list_to_map_1 (M := gmap string)) in Hn.
    destruct (load_value_spec start name value p Hp) as [(p1 & H1 & Hp1 & He1)|(e & H1)].
    + assert (for_each load_value ((name, value) :: rest) p = for_each load_value rest p1) as Heq.
      { by apply (bind_after_ok (load_value (name, value)) (λ _, for_each load_value rest) p p1 tt). }
      rewrite Heq. destruct (IH p1 Hp1 Hnd) as [(p2 & H2 & Hp2 & He2)|Herr]; [|by right].
      left. exists p2. split_and!; [done|done|]. intros n. rewrite He2, He1.
      simpl. by rewrite with_file_insert.
    + right. exists p, e. split; [|done].
      by apply (bind_after_err (load_value (name, value)) (λ _, for_each load_value rest)).
Qed.

Lemma load_values_spec start values p :
  scope_ok start p → NoDup values.*1 →
  (∃ p', load_values values p = (p', Ok tt) ∧ scope_ok start p'
         ∧ ∀ name, environ p' !! name = loaded (environ p) (list_to_map values) name)
  ∨ ∃ p' e, load_values values p = (p', Err e) ∧ scope_ok start p'.
Proof.
  intros Hp Hnd. unfold load_values.
  destruct (load_each start values p Hp Hnd) as [(p1 & H1 & Hp1 & He1)|(p1 & e & H1 & Hp1)].
  2:{ right. exists p1, e. split; [|done]. by apply bind_after_err. }
  rewrite (bind_after_ok _ _ _ _ _ H1).
  rewrite M_gets. unfold Getenv. rewrite He1. unfold loaded.
  set (proxy := default EmptyString _).
  destruct (bool_decide_reflect (proxy = EmptyString)) as [E|E].
  - left. exists p1. split_and!; [done..|]. intros n. rewrite decide_False by tauto. apply He1.
  - destruct (scope_set_spec start "HTTPS_PROXY" proxy p1 Hp1) as [(p2 & H2 & Hp2 & He2)|(e & H2)];
      rewrite H2; [left|right; eauto].
    exists p2. split_and!; [done..|]. intros n. rewrite He2.
    destruct (decide (n = "HTTPS_PROXY")) as [->|Hn].
    + by rewrite lookup_insert_eq, decide_True.
    + rewrite lookup_insert_ne by done. rewrite decide_False by tauto. apply He1.
Qed.

Lemma loadDotEnv_cases start contents order :
  environ_ok start → (∀ l, order l ≡ₚ l) →
  (∃ p, loadDotEnv contents order (MkProcess start []) = (p, Ok tt) ∧ undoes start p ∧
     ∀ name, environ p !! name =
       match contents with inl encoded => loaded start (parse_dotenv encoded) name | inr _ => start !! name end)
  ∨ ∃ e, loadDotEnv contents order (MkProcess start []) = (MkProcess start [], Err e).
Proof.
  intros Hok Horder. unfold loadDotEnv. destruct contents as [encoded|e].
  2:{ destruct (errors_Is e ErrNotExist); [left|right; by eexists]. by exists (MkProcess start []). }
  set (values := parse_dotenv encoded). unfold or_restore.
  pose proof (Horder (map_to_list values)) as Hp.
  assert (NoDup (order (map_to_list values)).*1) as Hnd by (rewrite Hp; apply NoDup_fst_map_to_list).
  assert (list_to_map (order (map_to_list values)) = values) as Hl.
  { rewrite (list_to_map_proper (M := gmap string) _ (map_to_list values)); [apply list_to_map_to_list|done..]. }
  assert (scope_ok start (MkProcess start [])) as Hs by done.
  destruct (load_values_spec start _ _ Hs Hnd) as [(p1 & -> & [Hu _] & He)|(p1 & e & -> & [Hu _])].
  - left. exists p1. split; [done|]. split; [done|]. intros n. rewrite He. simpl. by rewrite Hl.
  - right. rewrite Hu. by eexists.
Qed.

(** C17: For every environment of a process whose variables can be set, and in
    whatever order the variables of the .env file are walked: loading the file
    either fails and leaves the environment as it was, or succeeds; then each
    variable has the value that [loaded] says, which does not depend on the
    order, and closing the scope gives the environment of the start without an
    error. *)
Theorem environment_restored start contents order p r :
  environ_ok start → (∀ l, order l ≡ₚ l) →
  loadDotEnv contents order (MkProcess start []) = (p, r) →
  match r with
  | Ok _ => scope_Close p = (MkProcess start [], None)
      ∧ ∀ name, environ p !! name =
          match contents with
          | inl encoded => loaded start (parse_dotenv encoded) name
          | inr _ => start !! name
          end
  | Err _ => p = MkProcess start []
  | Panic _ => False
  end.
Proof.
  intros Hok Horder H.
  destruct (loadDotEnv_cases start contents order Hok Horder) as [(p' & Hl & Hu & He)|(e & Hl)];
    rewrite Hl in H; by injection H as <- <-.
Qed.

Definition sample_start : gmap string string := list_to_map [("HOME", "/root"); ("A", "kept")].
Definition sample_file : bytes :=
  to_bytes ("A=new" +:+ String LF ("SANDBOX_EGRESS_PROXY = http://p" +:+ String LF "B=2")).

Lemma environment_restored_witness :
  environ (loadDotEnv (inl sample_file) id (MkProcess sample_start [])).1
    = list_to_map [("HOME", "/root"); ("A", "kept"); ("B", "2");
                   ("SANDBOX_EGRESS_PROXY", "http://p"); ("HTTPS_PROXY", "http://p")]
  ∧ scope_Close (loadDotEnv (inl sample_file) id (MkProcess sample_start [])).1
    = (MkProcess sample_start [], None).
Proof.
  split; [vm_compute; reflexivity|].
  refine (proj1 (environment_restored sample_start (inl sample_file) (λ l, l) _ (Ok tt) _ _ _)).
  - intros n v H. unfold sample_start in H. rewrite !list_to_map_cons in H.
    apply lookup_insert_Some in H as [[<- <-]|[_ H]]; [by vm_compute|].
    apply lookup_insert_Some in H as [[<- <-]|[_ H]]; [by vm_compute|]. done.
  - done.
  - vm_compute. reflexivity.
Defined.
