(* ===== verification/GuiApp.v ===== *)
(** * The desktop application (src/gui/app.go)

    The JSON files that the application keeps in its data directory, each
    written as a whole: a directory maps the names of the files in it to what
    they hold, a JSON value or other text, a name stands for its path, and how
    each call to the file system ends is an argument.  The file of the
    configuration (src/gui/config.go).

    What the handlers of the server share: the configuration and the list of
    sessions, each with the file it is kept in, the variables that are
    exported to the agent's commands, and the chats.  A mutex guards each
    part, so what happens under one is one step; [deleteSession] takes two of
    them one after the other and is three steps.  The order in which Go walks
    a map is an argument. *)

From Stdlib Require Import Ascii ZArith Lia.
From stdpp Require Import sorting.
From S2P Require Import Prelude StateLogic GoStrings GoText Json JsonFacts JsonCodec GoTime Operation Llm.
From S2P Require Import SessionStore Approvals GuiConfig GuiRun Chat GuiServer DotEnv.

Local Open Scope Z_scope.

(** ** JSON of maps *)

Definition enc_member {A} (c : codec A) (p : string * A) : option (string * json) :=
  if string_ok p.1 then (λ j, (p.1, j)) <$> enc c p.2 else None.

Definition dec_member {A} (c : codec A) (p : string * json) : option (string * A) := (λ a, (p.1, a)) <$> dec c p.2.

#[local] Unset Program Cases.

(** The order of the members is of no matter: they are read into a map. *)
Program Definition map_codec {A} (c : codec A) : codec (gmap string A) := {|
  zero := ∅;
  enc m := JObj <$> mapM (enc_member c) (map_to_list m);
  dec j := match j with JObj o => list_to_map <$> mapM (dec_member c) o | JNull => Some ∅ | _ => None end;
  jok m := map_Forall (λ _ a, jok c a) m |}.
Next Obligation.
  intros A c m j Hm Hj. apply fmap_Some in Hj as (o & Ho & ->).
  assert (mapM (dec_member c) o = Some (map_to_list m)) as ->; [|simpl; by rewrite list_to_map_to_list].
  assert (Forall (λ p, jok c p.2) (map_to_list m)) as Hl.
  { apply Forall_forall. intros [k a] Hin%elem_of_map_to_list. exact (Hm k a Hin). }
  apply mapM_Some in Ho. apply mapM_Some. induction Ho as [|[k a] [k' j] l o Hp _ IH]; [constructor|].
  apply Forall_cons in Hl as [Ha Hl]. constructor; [|by apply IH].
  unfold enc_member in Hp. simpl in Hp. destruct (string_ok k); [|done].
  apply fmap_Some in Hp as (j' & Hj & [= -> ->]). unfold dec_member. simpl. by rewrite (dec_enc c a j' Ha Hj).
Qed.
Next Obligation.
  intros A c m j Hj. apply fmap_Some in Hj as (o & Ho & ->). apply mapM_Some in Ho.
  assert (Forall2 (λ p q, q.1 = p.1 ∧ string_ok q.1 && json_ok q.2 = true) (map_to_list m) o) as H.
  { eapply Forall2_impl; [exact Ho|]. intros [k a] [k' j] Hp. unfold enc_member in Hp. simpl in *.
    destruct (string_ok k) eqn:E; [|done]. apply fmap_Some in Hp as (j' & Hj & [= -> ->]).
    by rewrite E, (enc_ok c a j' Hj). }
  simpl. apply andb_true_iff. split.
  - apply forallb_Forall. clear Ho. induction H as [|p q l o [_ Hq] _ IH]; constructor; [exact Hq|exact IH].
  - apply bool_decide_eq_true. replace o.*1 with (map_to_list m).*1; [apply NoDup_fst_map_to_list|].
    clear Ho. induction H as [|p q l o [Hq _] _ IH]; [done|]. rewrite !fmap_cons. by rewrite IH, Hq.
Qed.

(** ** Files *)

Abbreviation directory := (gmap string value).

(** os.ReadFile, which finds the file unless there is a [fault]. *)
Definition ReadFile (name : string) (fault : option error) (files : directory) : result value :=
  match fault with
  | Some e => Err e
  | None => match files !! name with Some v => Ok v | None => Err (sentinel_error ErrNotExist) end
  end.

Lemma ReadFile_insert name v files : ReadFile name None (<[name := v]> files) = Ok v.
Proof. unfold ReadFile. by rewrite lookup_insert_eq. Qed.

(** How each call of [writeFileAtomic] ends: what os.CreateTemp puts in the
    place of the star, what a failed write leaves in the file, the errors. *)
Record write_outcome : Type := MkOutcome {
  temporary : error + string;
  left : value;
  write_failed : option error;
  chmod_failed : option error;
  close_failed : option error;
  rename_failed : option error;
  remove_failed : bool;
}.

Definition temp_name (name suffix : string) : string := "." +:+ name +:+ "." +:+ suffix.

(** The deferred os.Remove finds no file after the rename. *)
Definition writeFileAtomic (name : string) (data : value) (o : write_outcome) : M directory unit := λ files,
  match temporary o with
  | inl e => (files, Err e)
  | inr suffix =>
    let temp := temp_name name suffix in
    let remove (d : directory) := if remove_failed o then d else delete temp d in
    match write_failed o with
    | Some e => (remove (<[temp := left o]> files), Err e)
    | None =>
      let files' := <[temp := data]> files in
      match chmod_failed o, close_failed o, rename_failed o with
      | Some e, _, _ | None, Some e, _ | None, None, Some e => (remove files', Err e)
      | None, None, None => (<[name := data]> (delete temp files'), Ok tt)
      end
    end
  end.

(** The name that os.CreateTemp chooses is new. *)
Definition fresh (name : string) (o : write_outcome) (files : directory) : Prop :=
  ∀ suffix, temporary o = inr suffix → files !! temp_name name suffix = None.

(** No file of the application has the name of a temporary one. *)
Definition lasting (name : string) : Prop := HasPrefix name "." = false.

Lemma temp_name_ne name name' suffix : lasting name' → temp_name name suffix ≠ name'.
Proof. unfold lasting, temp_name. intros H <-. by destruct name. Qed.

(** The file is written whole or not at all, and no other file changes. *)
Lemma writeFileAtomic_spec name data o files :
  lasting name → fresh name o files →
  let '(files', r) := writeFileAtomic name data o files in
  returns r = true ∧
  (r = Ok tt → files' = <[name := data]> files) ∧
  (r ≠ Ok tt → ∀ name', lasting name' → files' !! name' = files !! name') ∧
  (r ≠ Ok tt → remove_failed o = false → files' = files).
Proof.
  intros Hname Hfresh. unfold writeFileAtomic. destruct (temporary o) as [e|suffix] eqn:Ht; [done|]. cbv zeta.
  pose proof (Hfresh suffix Ht) as Hnone.
  assert (∀ v, delete (temp_name name suffix) (<[temp_name name suffix := v]> files) = files) as Hdel
    by (intros v; by apply delete_insert_id).
  assert (∀ v name', lasting name' → <[temp_name name suffix := v]> files !! name' = files !! name')
    as Hget by (intros v name' H; apply lookup_insert_ne; by apply temp_name_ne).
  destruct (write_failed o) as [e|]; [|destruct (chmod_failed o) as [e|]; [|destruct (close_failed o) as [e|];
    [|destruct (rename_failed o) as [e|]]]].
  5: { rewrite Hdel. done. }
  all: split_and!; [done|done| |]; destruct (remove_failed o); rewrite ?Hdel; eauto; done.
Qed.

(** ** The file of the configuration *)

(** Reading into a value [a]: what a missing member leaves. *)
Definition onto {A} (a : A) (c : codec A) : codec A := Codec a (enc c) (dec c) (jok c) (dec_enc c) (enc_ok c).

Definition zero_Config : Config :=
  config.Mk EmptyString ∅ ∅ ∅ EmptyString false EmptyString EmptyString ∅ EmptyString ∅.

Abbreviation strings_codec := (map_codec string_codec).

(** A configuration, read into [base], whose maps are nil. *)
Program Definition Config_codec (base : Config) : codec Config := {|
  zero := zero_Config;
  enc c := enc_struct [
    field string_codec "provider" (config.Provider c);
    field strings_codec "models" (config.Models c);
    field strings_codec "base_urls" (config.BaseURLs c);
    field strings_codec "api_keys" (config.APIKeys c);
    field string_codec "thinking" (config.Thinking c);
    field bool_codec "web_search" (config.WebSearch c);
    field string_codec "workspace" (config.Workspace c);
    field string_codec "instructions" (config.Instructions c);
    field strings_codec "env" (config.Env c);
    field string_codec "permission" (config.Permission c);
    field (map_codec bool_codec) "enabled" (config.Enabled c)];
  dec := dec_struct zero_Config (λ o,
    a ← get (onto (config.Provider base) string_codec) "provider" o;
    b ← get (onto (config.Models base) strings_codec) "models" o;
    c ← get (onto (config.BaseURLs base) strings_codec) "base_urls" o;
    d ← get (onto (config.APIKeys base) strings_codec) "api_keys" o;
    e ← get (onto (config.Thinking base) string_codec) "thinking" o;
    f ← get (onto (config.WebSearch base) bool_codec) "web_search" o;
    g ← get (onto (config.Workspace base) string_codec) "workspace" o;
    h ← get (onto (config.Instructions base) string_codec) "instructions" o;
    i ← get (onto (config.Env base) strings_codec) "env" o;
    j ← get (onto (config.Permission base) string_codec) "permission" o;
    k ← get (onto (config.Enabled base) (map_codec bool_codec)) "enabled" o;
    Some (config.Mk a b c d e f g h i j k));
  jok _ := True |}.
Next Obligation. intros base [a b c d e f g h i j k] v _. struct_dec. Qed.
Next Obligation. intros base [a b c d e f g h i j k] v. struct_enc_ok. Qed.

Definition loadConfig (sys : system) (name : string) (fault : option error) (files : directory) : result Config :=
  let cfg := defaultConfig sys in
  match ReadFile name fault files with
  | Err e => if errors_Is e ErrNotExist then Ok cfg else Err (Errorf_w "read config: " e)
  | Panic t => Panic t
  | Ok encoded => map_err (Errorf_w ("parse " +:+ name +:+ ": ")) (Unmarshal (Config_codec cfg) encoded)
  end.

Definition saveConfig (name : string) (cfg : Config) (o : write_outcome) : M directory unit :=
  encoded ← lift (Marshal (Config_codec zero_Config) cfg);
  writeFileAtomic name encoded o.

(** What is written is the same whatever it is going to be read into. *)
Lemma Config_Marshal_base base cfg : Marshal (Config_codec base) cfg = Marshal (Config_codec zero_Config) cfg.
Proof. reflexivity. Qed.

(** A configuration that was saved is loaded again, whatever the defaults. *)
Lemma saveConfig_load sys name cfg o files files' :
  lasting name → fresh name o files →
  saveConfig name cfg o files = (files', Ok tt) → loadConfig sys name None files' = Ok cfg.
Proof.
  intros Hname Hfresh. unfold saveConfig. unfold mbind, M_bind, lift.
  destruct (Marshal (Config_codec zero_Config) cfg) as [v|e|t] eqn:Hv; [|done..]. intros Hw.
  pose proof (writeFileAtomic_spec name v o files Hname Hfresh) as H. rewrite Hw in H.
  destruct H as (_ & H & _). rewrite (H eq_refl). unfold loadConfig. cbv zeta. rewrite ReadFile_insert.
  rewrite (Unmarshal_Marshal (Config_codec (defaultConfig sys)) cfg v I Hv). done.
Qed.


(** ** Times in order *)

(** The days from the first of March of the year 0 to a date. *)
Definition day_number (y m d : Z) : Z :=
  let y := if m <=? 2 then y - 1 else y in
  let month := (m + 9) mod 12 in
  365 * y + y / 4 - y / 100 + y / 400 + (153 * month + 2) / 5 + d - 1.

(** The nanoseconds of a fraction, of at most nine digits. *)
Fixpoint fraction (unit_ : Z) (p : bytes) : Z :=
  match p with
  | c :: p => if is_digit c then (byte_val c - 48) * unit_ + fraction (unit_ / 10) p else 0
  | [] => 0
  end.

Definition offset_minutes (zone : bytes) : Z :=
  match zone with
  | [s; h1; h2; ":"%char; m1; m2] =>
    let n := 60 * default 0 (number [h1; h2]) + default 0 (number [m1; m2]) in
    if Ascii.eqb s "-" then - n else n
  | _ => 0
  end.

(** The instant that the text of a time stands for, in nanoseconds. *)
Definition instant (t : Time) : Z :=
  match to_bytes t with
  | y1 :: y2 :: y3 :: y4 :: _ :: o1 :: o2 :: _ :: d1 :: d2 :: _ :: h1 :: h2 :: _ :: m1 :: m2 :: _ :: s1 :: s2 :: rest =>
    let n p := default 0 (number p) in
    let '(nanos, zone) := match rest with
      | "."%char :: p => (fraction 100000000 p, skip_digits p)
      | _ => (0, rest)
      end in
    let minutes := (day_number (n [y1; y2; y3; y4]) (n [o1; o2]) (n [d1; d2]) * 24 + n [h1; h2]) * 60
      + n [m1; m2] - offset_minutes zone in
    (minutes * 60 + n [s1; s2]) * 1000000000 + nanos
  | _ => 0
  end.

Definition Compare (a b : Time) : comparison := instant a ?= instant b.

Example compare_fraction : Compare "2026-01-02T03:04:05.5Z" "2026-01-02T03:04:05.25Z" = Gt.
Proof. reflexivity. Qed.
Example compare_zone : Compare "2024-03-01T00:30:00+01:00" "2024-02-29T23:30:00Z" = Eq.
Proof. reflexivity. Qed.

(** ** Sessions *)

#[local] Unset Program Cases.

Program Definition SessionMeta_codec : codec SessionMeta := {|
  zero := meta.Mk EmptyString EmptyString EmptyString Time_zero Time_zero;
  enc m := enc_struct [
    field string_codec "id" (meta.ID m); field string_codec "title" (meta.Title m);
    field string_codec "workspace" (meta.Workspace m);
    field Time_codec "created_at" (meta.CreatedAt m); field Time_codec "updated_at" (meta.UpdatedAt m)];
  dec := dec_struct (meta.Mk EmptyString EmptyString EmptyString Time_zero Time_zero) (λ o,
    a ← get string_codec "id" o; b ← get string_codec "title" o; c ← get string_codec "workspace" o;
    d ← get Time_codec "created_at" o; e ← get Time_codec "updated_at" o; Some (meta.Mk a b c d e));
  jok _ := True |}.
Next Obligation. intros [a b c d e] v _. struct_dec. Qed.
Next Obligation. intros [a b c d e] v. struct_enc_ok. Qed.

(** The list as it is read: an element may be null. *)
Abbreviation read_codec := (list_codec (ptr_codec SessionMeta_codec)).
Abbreviation list_of_codec := (list_codec SessionMeta_codec).

Lemma enc_meta_not_null m : enc SessionMeta_codec m ≠ Some JNull.
Proof. simpl. unfold enc_struct. by destruct (enc_fields _). Qed.

Lemma mapM_map {A B T} (f : B → option T) (g : A → B) l : mapM f (g <$> l) = mapM (λ x, f (g x)) l.
Proof. induction l as [|x l IH]; [done|]. simpl. destruct (f (g x)); [|done]. simpl. f_equal. exact IH. Qed.

(** A list that was written is read with no null. *)
Lemma read_written l v : Marshal list_of_codec l = Ok v → Unmarshal read_codec v = Ok (Some <$> l).
Proof.
  intros Hv. apply (Unmarshal_Marshal read_codec).
  - simpl. apply Forall_fmap, Forall_forall. intros m _. split; [exact I|apply enc_meta_not_null].
  - rewrite <- Hv. unfold Marshal. cbn [enc list_codec]. by rewrite mapM_map.
Qed.

Section Walk.
(** The order in which the loop goes over the map of sessions. *)
Context (walk : list SessionMeta → list SessionMeta).

Definition newer (a b : SessionMeta) : Prop := Compare (meta.UpdatedAt b) (meta.UpdatedAt a) ≠ Gt.
#[export] Instance newer_dec a b : Decision (newer a b) := _.

(** slices.SortFunc promises no order of equal times: any comes from some walk. *)
Definition sessionListLocked (sessions : gmap SessionID SessionMeta) : list SessionMeta :=
  merge_sort newer (walk (map_to_list sessions).*2).
End Walk.

Definition nil_dereference : string := "invalid memory address or nil pointer dereference".

(** [for _, meta := range list { app.sessions[meta.ID] = meta }] *)
Fixpoint index_sessions (list_ : list (option SessionMeta)) (m : gmap SessionID SessionMeta)
    : result (gmap SessionID SessionMeta) :=
  match list_ with
  | [] => Ok m
  | None :: _ => Panic nil_dereference
  | Some meta :: rest => index_sessions rest (<[meta.ID meta := meta]> m)
  end.

Definition sessions_file : string := "sessions.json".
Definition config_file : string := "config.json".
Definition token_file : string := "token".

Definition read_sessions (fault : option error) (files : directory) : result (gmap SessionID SessionMeta) :=
  match ReadFile sessions_file fault files with
  | Err e => if errors_Is e ErrNotExist then Ok ∅ else Err (Errorf_w "read sessions: " e)
  | Panic t => Panic t
  | Ok encoded =>
    list_ ← map_err (Errorf_w "parse sessions.json: ") (Unmarshal read_codec encoded);
    index_sessions list_ ∅
  end.

(** ** The application *)

Record App : Type := MkApp {
  cfg : Config;
  sessions : gmap SessionID SessionMeta;
  envSet : list string;
  environment : process;
  files : directory;
  chats : gmap SessionID chat;
}.

Definition set_cfg (c : Config) (a : App) : App :=
  MkApp c (sessions a) (envSet a) (environment a) (files a) (chats a).
Definition set_sessions (m : gmap SessionID SessionMeta) (a : App) : App :=
  MkApp (cfg a) m (envSet a) (environment a) (files a) (chats a).
Definition set_exported (names : list string) (p : process) (a : App) : App :=
  MkApp (cfg a) (sessions a) names p (files a) (chats a).
Definition set_files (d : directory) (a : App) : App :=
  MkApp (cfg a) (sessions a) (envSet a) (environment a) d (chats a).
Definition set_chats (m : gmap SessionID chat) (a : App) : App :=
  MkApp (cfg a) (sessions a) (envSet a) (environment a) (files a) m.

Definition on_files {A} (m : M directory A) : M App A := λ a,
  let '(d, r) := m (files a) in (set_files d a, r).

(** A call whose error the program ignores. *)
Definition ignoring (m : M process unit) (p : process) : process := fst (m p).

(** ** Variables *)

Definition unset_removed (env : gmap string string) (p : process) (name : string) : process :=
  match env !! name with Some _ => p | None => ignoring (Unsetenv name) p end.

Definition applyEnvLocked (walk : list (string * string) → list (string * string)) (env : gmap string string)
    : M App unit := modify (λ a,
  let p := fold_left (unset_removed env) (envSet a) (environment a) in
  let variables := walk (map_to_list env) in
  set_exported variables.*1 (fold_left (λ p '(name, value), ignoring (Setenv name value) p) variables p) a).

Definition quiet_tools : list (string * string) :=
  [("GIT_TERMINAL_PROMPT", "0"); ("GH_PROMPT_DISABLED", "1"); ("GH_NO_UPDATE_NOTIFIER", "1");
   ("PAGER", "cat"); ("GIT_PAGER", "cat")].

Definition set_default (p : process) '(name, value) : process :=
  match LookupEnv name p with Some _ => p | None => ignoring (Setenv name value) p end.

(** [executable] is what os.Executable returns and [resolved] what
    filepath.EvalSymlinks makes of it; the names are distinct, so the order of
    the loop is of no matter. *)
Definition prepareEnvironment (executable resolved : result string) : M App unit :=
  path ← lift (map_err (Errorf_w "locate executable: ") executable);
  let path := match resolved with Ok r => r | _ => path end in
  modify (λ a, set_exported (envSet a)
    (fold_left set_default quiet_tools (ignoring (Setenv "UAG" path) (environment a))) a).

(** ** The configuration *)

Definition updateConfig (sys : system) (update : configUpdate) (walk : list (string * string) → list (string * string))
    (o : write_outcome) : M App Config :=
  a ← self;
  next ← lift (apply_ sys (cfg a) update);
  _ ← (λ a, let '(a, r) := on_files (saveConfig config_file next o) a in (a, map_err (Errorf_w "save config: ") r));
  _ ← (match update.Env update with Some _ => applyEnvLocked walk (config.Env next) | None => mret tt end);
  _ ← modify (set_cfg next);
  mret next.

(** ** Sessions *)

Definition loadSessions (fault : option error) : M App unit :=
  a ← self;
  m ← lift (read_sessions fault (files a));
  modify (set_sessions m).

(** How the call writes: the walk of the map, and the file system. *)
Record saving : Type := MkSaving { walk : list SessionMeta → list SessionMeta; outcome : write_outcome }.

Definition saveSessionsLocked (s : saving) : M App unit :=
  a ← self;
  encoded ← lift (Marshal list_of_codec (sessionListLocked (walk s) (sessions a)));
  on_files (writeFileAtomic sessions_file encoded (outcome s)).

Definition insertSession (m : SessionMeta) (s : saving) : M App SessionMeta :=
  _ ← modify (λ a, set_sessions (<[meta.ID m := m]> (sessions a)) a);
  _ ← saveSessionsLocked s;
  mret m.

(** [made] and [created] are what os.MkdirAll and the store return. *)
Definition createSession (id : SessionID) (now : Time) (made created : result unit) (s : saving) : M App SessionMeta :=
  a ← self;
  let workspace := config.Workspace (cfg a) in
  _ ← lift (map_err (Errorf_w "create workspace: ") made);
  _ ← lift created;
  insertSession (meta.Mk id EmptyString workspace now now) s.

Definition touched (now : Time) (text : string) (m : SessionMeta) : SessionMeta :=
  meta.Mk (meta.ID m) (if bool_decide (meta.Title m = EmptyString) then title text else meta.Title m)
    (meta.Workspace m) (meta.CreatedAt m) now.

Definition touchSession (id : SessionID) (text : string) (now : Time) (s : saving) : M App unit :=
  a ← self;
  match sessions a !! id with
  | None => mret tt
  | Some m => _ ← modify (set_sessions (<[id := touched now text m]> (sessions a))); saveSessionsLocked s
  end.

(** The part of [deleteSession] under [chatsMu]. *)
Definition dropChat (id : SessionID) : M App unit :=
  a ← self;
  match chats a !! id with
  | Some current =>
    if running current then fail (errors_New "stop the chat before deleting it")
    else modify (set_chats (delete id (chats a)))
  | None => mret tt
  end.

(** [err := f()] *)
Definition error_of (m : M App unit) : M App (option error) := λ a,
  let '(a, r) := m a in
  (a, match r with Ok _ => Ok None | Err e => Ok (Some e) | Panic t => Panic t end).

(** The part under [mu], which goes on with the error. *)
Definition dropSession (id : SessionID) (s : saving) : M App (option error) :=
  _ ← modify (λ a, set_sessions (delete id (sessions a)) a);
  error_of (saveSessionsLocked s).

(** errors.Join *)
Definition Join_errors (l : list (option error)) : option error :=
  match omap id l with
  | [] => None
  | e :: es => Some (fold_left errors_Join es e)
  end.

(** [log] and [operations] are what removing the files of the session returns. *)
Definition deleteSession (id : SessionID) (s : saving) (log operations : option error) : M App unit :=
  _ ← dropChat id;
  err ← dropSession id s;
  match Join_errors [err; log; operations] with
  | Some e => fail e
  | None => mret tt
  end.

(** The status that [handleDelete] answers with. *)
Definition delete_status (r : result unit) : Z :=
  match r with
  | Ok _ => 200
  | Err e => if errors_Is e ErrNotExist then 200 else 409
  | Panic _ => 500
  end.

Definition runningChats (a : App) : gset SessionID :=
  dom (filter (λ p, running p.2 = true) (chats a)).

Definition session (id : SessionID) (a : App) : option SessionMeta := sessions a !! id.

Definition sessionList (walk : list SessionMeta → list SessionMeta) (a : App) : list SessionMeta :=
  sessionListLocked walk (sessions a).

Definition observe (id : SessionID) (i : SItem) : M App unit := modify (λ a,
  match chats a !! id with
  | Some current => set_chats (<[id := publish i current]> (chats a)) a
  | None => a
  end).

(** ** The start *)

Definition hex_encode (p : bytes) : bytes := p ≫= λ c, [hex_digit (byte_val c / 16); hex_digit (byte_val c mod 16)].

(** [encoded] is what os.ReadFile returns and [random] 24 bytes of crypto/rand. *)
Definition loadToken (encoded random : result bytes) (o : write_outcome) : M directory string :=
  let found := match encoded with Ok p => TrimSpace (to_string p) | _ => EmptyString end in
  if 32 <=? Z.of_nat (String.length found) then mret found
  else
    random ← lift random;
    let token := to_string (hex_encode random) in
    _ ← writeFileAtomic token_file (value_of_text (to_bytes token)) o;
    mret token.

(** What the system answers while the application starts. *)
Record start : Type := MkStart {
  made : result unit;
  config_fault : option error;
  sessions_fault : option error;
  token_read : result bytes;
  random : result bytes;
  token_outcome : write_outcome;
  installed : result unit;
  executable : result string;
  resolved : result string;
  env_walk : list (string * string) → list (string * string);
  opened : result unit;
}.

(** It returns the token.  Adding the observer cannot fail. *)
Definition newApp (sys : system) (st : start) : M App string :=
  _ ← lift (map_err (Errorf_w "create data directory: ") (made st));
  a ← self;
  c ← lift (loadConfig sys config_file (config_fault st) (files a));
  _ ← modify (set_cfg c);
  _ ← loadSessions (sessions_fault st);
  token ← on_files (loadToken (token_read st) (random st) (token_outcome st));
  _ ← lift (installed st);
  _ ← prepareEnvironment (executable st) (resolved st);
  _ ← applyEnvLocked (env_walk st) (config.Env c);
  _ ← lift (map_err (Errorf_w "open session store: ") (opened st));
  mret token.

(** ** Interleavings

    The parts of the handlers that hold a mutex, in any order. *)

Inductive action : Type :=
  | AUpdate (update : configUpdate) (walk : list (string * string) → list (string * string)) (o : write_outcome)
  | AInsert (m : SessionMeta) (s : saving)
  | ATouch (id : SessionID) (text : string) (now : Time) (s : saving)
  | ADropChat (id : SessionID)
  | ADropSession (id : SessionID) (s : saving)
  | AChats (m : gmap SessionID chat).          (* the chats go on *)

Definition act (sys : system) (x : action) : M App unit :=
  match x with
  | AUpdate update walk o => _ ← updateConfig sys update walk o; mret tt
  | AInsert m s => _ ← insertSession m s; mret tt
  | ATouch id text now s => touchSession id text now s
  | ADropChat id => dropChat id
  | ADropSession id s => e ← dropSession id s; match e with Some e => fail e | None => mret tt end
  | AChats m => modify (set_chats m)
  end.

Definition walks {A} (walk : list A → list A) : Prop := ∀ l, walk l ≡ₚ l.

Definition saving_ok (s : saving) (a : App) : Prop := walks (walk s) ∧ fresh sessions_file (outcome s) (files a).

(** What Go and the file system promise of an action. *)
Definition possible (x : action) (a : App) : Prop :=
  match x with
  | AUpdate _ walk o => walks walk ∧ fresh config_file o (files a)
  | AInsert _ s | ATouch _ _ _ s | ADropSession _ s => saving_ok s a
  | ADropChat _ | AChats _ => True
  end.

Definition step (sys : system) (a a' : App) : Prop := ∃ x, possible x a ∧ fst (act sys x a) = a'.

Definition start_ok (st : start) (files : directory) : Prop :=
  (∀ e, config_fault st = Some e ∨ sessions_fault st = Some e → errors_Is e ErrNotExist = false) ∧
  fresh token_file (token_outcome st) files ∧ walks (env_walk st).

(** An application that has started, on these files and variables. *)
Definition started (sys : system) (d : directory) (p : process) (a : App) : Prop :=
  ∃ st token, start_ok st d ∧ newApp sys st (MkApp zero_Config ∅ [] p d ∅) = (a, Ok token).

(** ** What the file of the sessions holds *)

Definition keyed (m : gmap SessionID SessionMeta) : Prop := map_Forall (λ id s, meta.ID s = id) m.

Lemma index_sessions_all l m : index_sessions (Some <$> l) m = Ok (fold_left (λ m s, <[meta.ID s := s]> m) l m).
Proof. revert m. induction l as [|s l IH]; intros m; [done|]. csimpl. apply IH. Qed.

Lemma index_sessions_keyed l m m' : keyed m → index_sessions l m = Ok m' → keyed m'.
Proof.
  revert m. induction l as [|[s|] l IH]; intros m Hm H; simpl in H; [by injection H as <-| |discriminate H].
  eapply IH; [|exact H]. by apply map_Forall_insert_2.
Qed.

Lemma fold_insert_lookup (l : list SessionMeta) (m : gmap SessionID SessionMeta) id s :
  NoDup (meta.ID <$> l) →
  fold_left (λ m s, <[meta.ID s := s]> m) l m !! id = Some s
  ↔ (s ∈ l ∧ meta.ID s = id) ∨ (id ∉ meta.ID <$> l ∧ m !! id = Some s).
Proof.
  revert m. induction l as [|x l IH]; intros m Hl; [set_solver|]. csimpl in *. apply NoDup_cons in Hl as [Hx Hl].
  rewrite (IH _ Hl). destruct (decide (meta.ID x = id)) as [<-|E].
  - rewrite lookup_insert_eq. split; [|set_solver].
    intros [[H1 H2]|[_ [= ->]]]; left; [split; [by right|done]|split; [by left|done]].
  - rewrite lookup_insert_ne by done. rewrite !elem_of_cons. naive_solver.
Qed.

(** The sessions in a list, in whatever order, are found again. *)
Lemma index_of_values (m : gmap SessionID SessionMeta) l :
  keyed m → l ≡ₚ (map_to_list m).*2 → index_sessions (Some <$> l) ∅ = Ok m.
Proof.
  intros Hm Hl. rewrite index_sessions_all. f_equal. apply map_eq. intros id. apply option_eq. intros s.
  assert (meta.ID <$> (map_to_list m).*2 = (map_to_list m).*1) as Hids.
  { rewrite <- list_fmap_compose. apply list_fmap_ext. intros i [k x] Hi%list_elem_of_lookup_2.
    apply elem_of_map_to_list in Hi. exact (Hm _ _ Hi). }
  rewrite fold_insert_lookup.
  2: { rewrite Hl, Hids. apply NoDup_fst_map_to_list. }
  rewrite lookup_empty, Hl, list_elem_of_fmap. split.
  - intros [[([k x] & -> & Hx%elem_of_map_to_list) <-]|[_ H]]; [|done]. simpl. by rewrite (Hm _ _ Hx).
  - intros Hs. left. split; [|exact (Hm _ _ Hs)]. exists (id, s). split; [done|]. by apply elem_of_map_to_list.
Qed.

(** The list is the sessions, the one changed last first. *)
Lemma sessionListLocked_sorted walk_ m :
  walks walk_ → sessionListLocked walk_ m ≡ₚ (map_to_list m).*2 ∧ Sorted newer (sessionListLocked walk_ m).
Proof.
  intros Hw. split.
  - unfold sessionListLocked. rewrite merge_sort_Permutation. apply Hw.
  - apply Sorted_merge_sort. intros a b. unfold newer, Compare. rewrite !Z.compare_gt_iff. lia.
Qed.

Lemma saved_again (m : gmap SessionID SessionMeta) walk_ v d :
  keyed m → walks walk_ → Marshal list_of_codec (sessionListLocked walk_ m) = Ok v →
  read_sessions None (<[sessions_file := v]> d) = Ok m.
Proof.
  intros Hm Hw Hv. unfold read_sessions. rewrite ReadFile_insert, (read_written _ _ Hv).
  cbn [map_err mbind result_bind]. apply index_of_values; [done|]. by apply sessionListLocked_sorted.
Qed.

(** ** Writing *)

Lemma read_sessions_same d d' :
  d !! sessions_file = d' !! sessions_file → read_sessions None d = read_sessions None d'.
Proof. intros H. unfold read_sessions, ReadFile. by rewrite H. Qed.

Lemma loadConfig_same sys d d' :
  d !! config_file = d' !! config_file → loadConfig sys config_file None d = loadConfig sys config_file None d'.
Proof. intros H. unfold loadConfig, ReadFile. by rewrite H. Qed.

(** The files of [d'] are those of [d] but for temporary ones and [name]. *)
Definition only (name : string) (d d' : directory) : Prop := ∀ n, lasting n → n ≠ name → d' !! n = d !! n.

Lemma written_only name data o d d' r :
  lasting name → fresh name o d → writeFileAtomic name data o d = (d', r) →
  returns r = true ∧ only name d d' ∧ (r = Ok tt → d' = <[name := data]> d) ∧ (r ≠ Ok tt → d' !! name = d !! name).
Proof.
  intros Hn Hf Hw. pose proof (writeFileAtomic_spec name data o d Hn Hf) as H. rewrite Hw in H.
  destruct H as (Hr & Hok & Herr & _). split_and!; [done| |done|auto].
  intros n Hl Hne. destruct r as [[]|e|t]; [|by apply Herr..]. rewrite (Hok eq_refl). by apply lookup_insert_ne.
Qed.

Lemma Marshal_not_panic {A} (c : codec A) a t : Marshal c a ≠ Panic t.
Proof. apply returns_not_panic, Marshal_returns. Qed.

(** What a call that writes the sessions does: to the files only, and in the
    end the file holds the sessions, or what it held. *)
Record saved (a a' : App) (r : result unit) : Prop := {
  saved_frame : a' = set_files (files a') a;
  saved_only : only sessions_file (files a) (files a');
  saved_ok : r = Ok tt → read_sessions None (files a') = Ok (sessions a);
  saved_err : r ≠ Ok tt → files a' !! sessions_file = files a !! sessions_file;
}.

Lemma saveSessions_spec s a a' r :
  keyed (sessions a) → saving_ok s a → saveSessionsLocked s a = (a', r) → returns r = true ∧ saved a a' r.
Proof.
  intros Hk [Hw Hf]. unfold saveSessionsLocked, on_files. unfold mbind, M_bind, self, lift.
  assert (returns (A := unit) (Err json_error) = true ∧ saved a a (Err json_error)) as Hnone
    by (split; [done|split; [by destruct a|done|done|done]]).
  unfold Marshal. destruct (enc list_of_codec _) as [j|] eqn:Hj; [|by intros [= <- <-]].
  destruct (writeFileAtomic _ _ _ _) as [d r'] eqn:E. intros [= <- <-].
  destruct (written_only sessions_file _ _ _ _ _ (eq_refl : lasting sessions_file) Hf E) as (Hr & Ho & Hok & Herr).
  split; [done|]. split; simpl; [done|done| |done].
  intros Hr'. rewrite (Hok Hr'). apply (saved_again (sessions a) (walk s)); [done|done|].
  unfold Marshal. by rewrite Hj.
Qed.

(** ** Variables *)

Definition settable (name value : string) : bool := name_ok name && value_ok value.

Lemma environ_set name value p n :
  environ (ignoring (Setenv name value) p) !! n
  = if decide (n = name ∧ settable name value = true) then Some value else environ p !! n.
Proof.
  unfold ignoring, Setenv. fold (settable name value). destruct (settable name value) eqn:E; cbn [fst modify fail environ].
  - case_decide as H; [destruct H as [-> _]; by apply lookup_insert_eq|]. apply lookup_insert_ne. naive_solver.
  - case_decide as H; [by destruct H|done].
Qed.

Lemma unset_all env names p n :
  environ (fold_left (unset_removed env) names p) !! n
  = if decide (n ∈ names ∧ env !! n = None) then None else environ p !! n.
Proof.
  revert p. induction names as [|name names IH]; intros p; simpl.
  - done.
  - rewrite IH. unfold unset_removed. destruct (env !! name) as [v|] eqn:E; simpl.
    + repeat case_decide; set_solver.
    + destruct (decide (n = name)) as [->|Hne].
      * rewrite lookup_delete_eq. repeat case_decide; set_solver.
      * rewrite lookup_delete_ne by done. repeat case_decide; set_solver.
Qed.

Lemma set_all l p n :
  NoDup l.*1 →
  environ (fold_left (λ p '(name, value), ignoring (Setenv name value) p) l p) !! n
  = match (list_to_map l : gmap string string) !! n with
    | Some v => if settable n v then Some v else environ p !! n
    | None => environ p !! n
    end.
Proof.
  revert p. induction l as [|[name value] l IH]; intros p Hl; [done|].
  apply NoDup_cons in Hl as [Hname Hl]. simpl. rewrite (IH _ Hl), environ_set.
  destruct (decide (n = name)) as [->|Hne].
  - rewrite lookup_insert_eq, (not_elem_of_list_to_map_1 _ _ Hname).
    destruct (settable name value); [by rewrite decide_True|by rewrite decide_False by naive_solver].
  - rewrite lookup_insert_ne by done. by rewrite decide_False by naive_solver.
Qed.

Definition exported (names : list string) (env : gmap string string) (p : process) (n : string) : option string :=
  match env !! n with
  | Some v => if settable n v then Some v else environ p !! n
  | None => if decide (n ∈ names) then None else environ p !! n
  end.

Lemma applyEnvLocked_spec walk_ env a a' r :
  walks walk_ → applyEnvLocked walk_ env a = (a', r) →
  r = Ok tt ∧ (∀ n, n ∈ envSet a' ↔ is_Some (env !! n)) ∧
  a' = set_exported (envSet a') (environment a') a ∧
  ∀ n, environ (environment a') !! n = exported (envSet a) env (environment a) n.
Proof.
  intros Hw [= <- <-]. split_and!; [done| |done|].
  - intros n. simpl. rewrite Hw. rewrite list_elem_of_fmap. split.
    + intros ([k v] & -> & H%elem_of_map_to_list). by exists v.
    + intros [v H]. exists (n, v). split; [done|]. by apply elem_of_map_to_list.
  - intros n. cbn [environment set_exported]. rewrite set_all, unset_all.
    2: { rewrite Hw. apply NoDup_fst_map_to_list. }
    assert (list_to_map (walk_ (map_to_list env)) = env) as ->.
    { rewrite (list_to_map_proper _ (map_to_list env)); [apply list_to_map_to_list| |apply Hw].
      rewrite Hw. apply NoDup_fst_map_to_list. }
    unfold exported. destruct (env !! n) as [v|] eqn:E; repeat case_decide; naive_solver.
Qed.

(** ** What a restart finds *)

Record app_inv (sys : system) (a : App) : Prop := {
  ai_config : loadConfig sys config_file None (files a) = Ok (cfg a);
  ai_keyed : keyed (sessions a);
  ai_exported : ∀ n v, config.Env (cfg a) !! n = Some v → settable n v = true → environ (environment a) !! n = Some v;
  ai_names : ∀ n, n ∈ envSet a ↔ is_Some (config.Env (cfg a) !! n);
}.

(** The file of the sessions is as before, or holds those of now. *)
Definition sessions_kept (a a' : App) : Prop :=
  read_sessions None (files a') = read_sessions None (files a) ∨
  read_sessions None (files a') = Ok (sessions a').

(** An action that writes the sessions. *)
Definition saves (x : action) (a : App) : bool :=
  match x with
  | AInsert _ _ | ADropSession _ _ => true
  | ATouch id _ _ _ => bool_decide (is_Some (sessions a !! id))
  | _ => false
  end.

Lemma inv_saved sys a a' r :
  app_inv sys a → saved a a' r →
  app_inv sys a' ∧ sessions_kept a a' ∧ (r = Ok tt → read_sessions None (files a') = Ok (sessions a')).
Proof.
  intros [Hc Hk He Hn] [Hf Ho Hok Herr]. rewrite Hf. split_and!.
  - split; simpl; [|done..]. rewrite <- Hc. apply loadConfig_same. by apply Ho.
  - unfold sessions_kept. simpl. destruct r as [[]|e|t]; [right; by apply Hok|left..]; apply read_sessions_same; by apply Herr.
  - simpl. exact Hok.
Qed.

Lemma inv_set_sessions sys m a : app_inv sys a → keyed m → app_inv sys (set_sessions m a).
Proof. intros [Hc Hk He Hn] Hm. by split. Qed.

(** Changing the sessions and writing them. *)
Lemma inv_rewrite sys m s a a' r :
  app_inv sys a → keyed m → saving_ok s a → saveSessionsLocked s (set_sessions m a) = (a', r) →
  returns r = true ∧ app_inv sys a' ∧ sessions_kept a a' ∧ (r = Ok tt → read_sessions None (files a') = Ok (sessions a')).
Proof.
  intros Ha Hm Hs Hr.
  destruct (saveSessions_spec s (set_sessions m a) a' r Hm Hs Hr) as [Hret Hsaved].
  split; [exact Hret|]. exact (inv_saved sys _ _ _ (inv_set_sessions sys m a Ha Hm) Hsaved).
Qed.

Lemma keyed_delete id m : keyed m → keyed (delete id m).
Proof. apply map_Forall_delete. Qed.

Lemma keyed_insert s m : keyed m → keyed (<[meta.ID s := s]> m).
Proof. by apply map_Forall_insert_2. Qed.

(** A field of an update that leaves the variables as they are. *)
Lemma when_set_Env {A} (o : option A) f c c' :
  (∀ x c c', f x c = Ok c' → config.Env c' = config.Env c) →
  when_set o f c = Ok c' → config.Env c' = config.Env c.
Proof. intros Hf. destruct o as [x|]; simpl; [apply Hf|by intros [= <-]]. Qed.

Lemma apply_Env sys c u next : update.Env u = None → apply_ sys c u = Ok next → config.Env next = config.Env c.
Proof.
  intros Hu. unfold apply_. rewrite Hu. cbv zeta. intros H.
  repeat (apply bind_ok in H as (? & ?%when_set_Env & H)); [injection H as <-; simpl in *; congruence|..].
  - intros l k k' [= <-]. reflexivity.
  - intros p k k'. destruct (_ && _); by intros [= <-].
  - intros t k k' [= <-]. reflexivity.
  - intros w k k' (? & _ & [= <-])%bind_ok. reflexivity.
  - intros b k k' [= <-]. reflexivity.
  - intros t k k'. destruct (negb _); by intros [= <-].
  - intros p k k'. destruct (providerNamed p); by intros [= <-].
Qed.

(** An update is taken as a whole, or leaves everything but the temporary
    files of the directory as it is. *)
Definition update_done (sys : system) (u : configUpdate) (a a' : App) (r : result Config) : Prop :=
  match r with
  | Ok next =>
    apply_ sys (cfg a) u = Ok next ∧ cfg a' = next ∧ sessions a' = sessions a ∧ chats a' = chats a ∧
    only config_file (files a) (files a') ∧ loadConfig sys config_file None (files a') = Ok next ∧
    match update.Env u with
    | Some _ => (∀ n, n ∈ envSet a' ↔ is_Some (config.Env next !! n)) ∧
                ∀ n, environ (environment a') !! n = exported (envSet a) (config.Env next) (environment a) n
    | None => config.Env next = config.Env (cfg a) ∧ envSet a' = envSet a ∧ environment a' = environment a
    end
  | Err _ => a' = set_files (files a') a ∧ ∀ n, lasting n → files a' !! n = files a !! n
  | Panic _ => False
  end.

(** The directories of the process can be asked for. *)
Definition system_returns (sys : system) : Prop := returns (UserHomeDir sys) = true ∧ returns (Getwd sys) = true.

Lemma resolveWorkspace_returns sys w : system_returns sys → returns (resolveWorkspace sys w) = true.
Proof.
  intros [Hh Hw]. unfold resolveWorkspace, filepath_Abs. cbv zeta. apply returns_bind.
  - destruct (_ || _); [|done]. by apply returns_bind.
  - intros path _. destruct (blank_string path); [done|]. apply returns_bind.
    + destruct (filepath.IsAbs path); [done|]. by apply returns_bind.
    + intros absolute _. by destruct (is_dir sys absolute).
Qed.

Lemma apply_env_returns stored l next : returns (apply_env stored l next) = true.
Proof.
  revert next. induction l as [|[name value] l IH]; intros next; simpl; [done|].
  destruct (_ || _); [done|]. apply IH.
Qed.

Lemma when_set_returns {A} (o : option A) f c : (∀ x c, returns (f x c) = true) → returns (when_set o f c) = true.
Proof. intros Hf. destruct o; simpl; [apply Hf|done]. Qed.

Lemma apply__returns sys c u : system_returns sys → returns (apply_ sys c u) = true.
Proof.
  intros Hs. unfold apply_. cbv zeta.
  repeat (apply returns_bind; [apply when_set_returns; intros|intros ? _]).
  8: apply when_set_returns; intros.
  all: try done; repeat case_match; try done.
  - apply returns_bind; [by apply resolveWorkspace_returns|done].
  - apply returns_bind; [apply apply_env_returns|done].
Qed.

Lemma saveConfig_cases sys c o d d' r :
  fresh config_file o d → saveConfig config_file c o d = (d', r) →
  returns r = true ∧ only config_file d d' ∧
  (r = Ok tt → loadConfig sys config_file None d' = Ok c) ∧ (r ≠ Ok tt → d' !! config_file = d !! config_file).
Proof.
  intros Hf Hw. pose proof (λ H, saveConfig_load sys config_file c o d d' (eq_refl : lasting config_file) Hf H) as Hload.
  unfold saveConfig, mbind, M_bind, lift in Hw. unfold Marshal in Hw.
  destruct (enc (Config_codec zero_Config) c) as [v|] eqn:Hv.
  - destruct (written_only config_file _ _ _ _ _ (eq_refl : lasting config_file) Hf Hw) as (Hr & Ho & _ & Herr).
    split_and!; [done|done| |done]. intros ->. apply Hload. unfold saveConfig, mbind, M_bind, lift, Marshal. by rewrite Hv.
  - injection Hw as <- <-. by split_and!.
Qed.

Lemma only_refl name d : only name d d.
Proof. by intros n _ _. Qed.

(** What [updateConfig] does, however its calls end. *)
Lemma updateConfig_spec sys u w o a a' r :
  system_returns sys → walks w → fresh config_file o (files a) →
  updateConfig sys u w o a = (a', r) → update_done sys u a a' r.
Proof.
  intros Hs Hw Hf. unfold updateConfig. unfold mbind at 1, M_bind at 1, self. unfold mbind at 1, M_bind at 1, lift.
  pose proof (apply__returns sys (cfg a) u Hs) as Hret.
  destruct (apply_ sys (cfg a) u) as [next|e|t] eqn:Hnext; [|intros [= <- <-]; by destruct a|done].
  unfold mbind at 1, M_bind at 1, on_files.
  destruct (saveConfig config_file next o (files a)) as [d r1] eqn:Hsave.
  destruct (saveConfig_cases sys _ _ _ _ _ Hf Hsave) as (Hr1 & Ho & Hok & Herr).
  destruct r1 as [[]|e|t]; [| |done]; cbn [map_err].
  2: { intros [= <- <-]. split; [done|]. intros n Hn. cbn [files set_files].
       destruct (decide (n = config_file)) as [->|Hne]; [by apply Herr|by apply Ho]. }
  unfold mbind at 1, M_bind at 1. destruct (update.Env u) as [l|] eqn:Hu.
  - destruct (applyEnvLocked w (config.Env next) (set_files d a)) as [a1 r2] eqn:Happly.
    destruct (applyEnvLocked_spec _ _ _ _ _ Hw Happly) as (-> & Hnames & Hframe & Henv).
    intros [= <- <-]. unfold update_done. rewrite Hu, Hnext, Hframe. simpl. split_and!; try done.
    by apply Hok.
  - intros [= <- <-]. unfold update_done. rewrite Hu, Hnext. simpl. split_and!; try done; [by apply Hok|].
    exact (apply_Env _ _ _ _ Hu Hnext).
Qed.

Lemma inv_update sys u a a' r :
  app_inv sys a → update_done sys u a a' r → app_inv sys a' ∧ sessions_kept a a'.
Proof.
  intros [Hc Hk He Hn] H. destruct r as [next|e|t]; [|destruct H as [Hf Hd]|done].
  - destruct H as (_ & Hcfg & Hsess & _ & Ho & Hload & Hvars). split.
    2: { left. apply read_sessions_same. by apply Ho. }
    split; [by rewrite Hload, Hcfg|by rewrite Hsess|..]; rewrite Hcfg; destruct (update.Env u).
    + intros n v Hv Hset. destruct Hvars as [_ ->]. unfold exported. by rewrite Hv, Hset.
    + destruct Hvars as (-> & _ & ->). exact He.
    + apply Hvars.
    + destruct Hvars as (-> & -> & _). exact Hn.
  - rewrite Hf. split; [|left; apply read_sessions_same; by apply Hd].
    split; simpl; [|done..]. rewrite <- Hc. apply loadConfig_same. by apply Hd.
Qed.

Lemma inv_same_files sys a a' :
  app_inv sys a → cfg a' = cfg a → sessions a' = sessions a → files a' = files a → envSet a' = envSet a →
  environment a' = environment a → app_inv sys a' ∧ sessions_kept a a'.
Proof.
  intros [Hc Hk He Hn] H1 H2 H3 H4 H5. split; [split; by rewrite ?H1, ?H2, ?H3, ?H4, ?H5|].
  left. by rewrite H3.
Qed.

Definition step_done (sys : system) (x : action) (a a' : App) (r : result unit) : Prop :=
  returns r = true ∧ app_inv sys a' ∧ sessions_kept a a' ∧
  (saves x a = true → r = Ok tt → read_sessions None (files a') = Ok (sessions a')).

Lemma saved_step sys x m s a a' r :
  app_inv sys a → keyed m → saving_ok s a → saveSessionsLocked s (set_sessions m a) = (a', r) → step_done sys x a a' r.
Proof. intros Ha Hm Hs Hr. destruct (inv_rewrite sys m s a a' r Ha Hm Hs Hr) as (H1 & H2 & H3 & H4). by split_and!. Qed.

Lemma app_act_inv sys x a a' r :
  system_returns sys → app_inv sys a → possible x a → act sys x a = (a', r) → step_done sys x a a' r.
Proof.
  intros Hsys Ha Hx Hr. pose proof (ai_keyed _ _ Ha) as Hk. destruct x as [u w o|m s|id text now s|id|id s|cs]; simpl in Hx.
  - destruct Hx as [Hw Hf]. simpl in Hr. unfold mbind, M_bind in Hr.
    destruct (updateConfig sys u w o a) as [a1 r1] eqn:E.
    pose proof (updateConfig_spec _ _ _ _ _ _ _ Hsys Hw Hf E) as Hd. destruct (inv_update _ _ _ _ _ Ha Hd) as [H1 H2].
    destruct r1 as [c|e|t]; [| |done]; injection Hr as <- <-; by split_and!.
  - simpl in Hr. unfold insertSession in Hr. unfold mbind, M_bind, modify in Hr.
    destruct (saveSessionsLocked s _) as [a1 r1] eqn:E.
    pose proof (saved_step sys (AInsert m s) _ s a a1 r1 Ha (keyed_insert m _ Hk) Hx E) as H.
    destruct r1 as [[]|e|t]; injection Hr as <- <-; exact H.
  - simpl in Hr. unfold touchSession in Hr. rewrite M_self in Hr. destruct (sessions a !! id) as [m|] eqn:Hm.
    + rewrite M_modify in Hr. refine (saved_step sys _ _ s a a' r Ha _ Hx Hr).
      apply map_Forall_insert_2; [exact (Hk _ _ Hm)|exact Hk].
    + injection Hr as <- <-. destruct (inv_same_files sys a a Ha eq_refl eq_refl eq_refl eq_refl eq_refl) as [H1 H2].
      split_and!; [done|done|done|]. simpl. rewrite bool_decide_eq_true. rewrite Hm. by intros [? ?].
  - simpl in Hr. unfold dropChat in Hr. rewrite M_self in Hr.
    assert (∃ m, a' = set_chats m a) as [m ->].
    { destruct (chats a !! id) as [c|]; [destruct (running c)|]; injection Hr as <- _; [|by eexists|]; exists (chats a);
        by destruct a. }
    destruct (inv_same_files sys a (set_chats m a) Ha eq_refl eq_refl eq_refl eq_refl eq_refl) as [H1 H2].
    split_and!; [|done|done|done]. destruct (chats a !! id) as [c|]; [destruct (running c)|]; by injection Hr as _ <-.
  - simpl in Hr. unfold dropSession, error_of in Hr. unfold mbind, M_bind, modify in Hr.
    destruct (saveSessionsLocked s _) as [a1 r1] eqn:E.
    pose proof (saved_step sys (ADropSession id s) _ s a a1 r1 Ha (keyed_delete id _ Hk) Hx E) as H.
    destruct r1 as [[]|e|t]; injection Hr as <- <-; exact H.
  - injection Hr as <- <-. destruct (inv_same_files sys a (set_chats cs a) Ha eq_refl eq_refl eq_refl eq_refl eq_refl) as [H1 H2].
    by split_and!.
Qed.

(** ** The start *)

Lemma M_lift_inv {S A} (r : result A) (s s' : S) a : lift r s = (s', Ok a) → s' = s ∧ r = Ok a.
Proof. by intros [= <- ->]. Qed.

Lemma loadConfig_fault sys fault d c :
  (∀ e, fault = Some e → errors_Is e ErrNotExist = false) →
  loadConfig sys config_file fault d = Ok c → loadConfig sys config_file None d = Ok c.
Proof.
  intros Hf H. destruct fault as [e|]; [|done]. unfold loadConfig in H. cbv zeta in H. simpl in H.
  by rewrite (Hf e eq_refl) in H.
Qed.

Lemma read_sessions_fault fault d m :
  (∀ e, fault = Some e → errors_Is e ErrNotExist = false) →
  read_sessions fault d = Ok m → read_sessions None d = Ok m.
Proof.
  intros Hf H. destruct fault as [e|]; [|done]. unfold read_sessions in H. simpl in H.
  by rewrite (Hf e eq_refl) in H.
Qed.

Lemma read_sessions_keyed fault d m : read_sessions fault d = Ok m → keyed m.
Proof.
  unfold read_sessions. destruct (ReadFile _ _ _) as [v|e|t]; [|case_match; [intros [= <-]; apply map_Forall_empty|done]|done].
  intros (l & _ & H)%bind_ok. exact (index_sessions_keyed l ∅ m (map_Forall_empty _) H).
Qed.

Lemma loadToken_only encoded random_ o d d' token :
  fresh token_file o d → loadToken encoded random_ o d = (d', Ok token) → only token_file d d'.
Proof.
  intros Hf. unfold loadToken. cbv zeta. destruct (32 <=? _); [intros [= <- _]; apply only_refl|].
  intros (p & d1 & [-> _]%M_lift_inv & H)%M_bind_ok. apply M_bind_ok in H as ([] & d2 & Hw & [= <- _]).
  exact (proj1 (proj2 (written_only token_file _ _ _ _ _ (eq_refl : lasting token_file) Hf Hw))).
Qed.

Lemma prepareEnvironment_frame e r a a' :
  prepareEnvironment e r a = (a', Ok tt) → ∃ p, a' = set_exported (envSet a) p a.
Proof.
  unfold prepareEnvironment. generalize quiet_tools. intros l (path & s1 & [-> _]%M_lift_inv & H)%M_bind_ok.
  injection H as <-. by eexists.
Qed.

Lemma started_inv sys d p a :
  started sys d p a → app_inv sys a ∧ read_sessions None (files a) = Ok (sessions a).
Proof.
  intros (st & token & (Hfault & Hfresh & Hwalk) & H). unfold newApp in H.
  apply M_bind_ok in H as ([] & s & [-> _]%M_lift_inv & H). rewrite M_self in H.
  apply M_bind_ok in H as (c & s & [-> Hc]%M_lift_inv & H). rewrite M_modify in H.
  apply M_bind_ok in H as ([] & s & Hload & H).
  unfold loadSessions in Hload. rewrite M_self in Hload.
  apply M_bind_ok in Hload as (m & s1 & [-> Hm]%M_lift_inv & [= <-]). simpl in Hm, Hc.
  apply M_bind_ok in H as (tok & s & Htok & H). unfold on_files in Htok.
  destruct (loadToken _ _ _ _) as [d1 r1] eqn:Et. injection Htok as <- ->.
  pose proof (loadToken_only _ _ _ _ _ _ Hfresh Et) as Ho. simpl in Ho.
  apply M_bind_ok in H as ([] & s & [-> _]%M_lift_inv & H).
  apply M_bind_ok in H as ([] & s & (p1 & ->)%prepareEnvironment_frame & H).
  apply M_bind_ok in H as ([] & s & Happly & H).
  destruct (applyEnvLocked_spec _ _ _ _ _ Hwalk Happly) as (_ & Hnames & Hframe & Henv).
  apply M_bind_ok in H as ([] & s1 & [-> _]%M_lift_inv & [= <- _]).
  rewrite Hframe. simpl. split.
  - split; simpl.
    + rewrite (loadConfig_same sys d1 d) by by apply Ho. eapply loadConfig_fault; [|exact Hc]. eauto.
    + exact (read_sessions_keyed _ _ _ Hm).
    + intros n v Hv Hset. rewrite Henv. unfold exported. by rewrite Hv, Hset.
    + exact Hnames.
  - rewrite (read_sessions_same d1 d) by by apply Ho. eapply read_sessions_fault; [|exact Hm]. eauto.
Qed.

Lemma steps_inv sys a a' : system_returns sys → app_inv sys a → rtc (step sys) a a' → app_inv sys a'.
Proof.
  intros Hsys Ha H. induction H as [a|a a1 a2 (x & Hx & <-) _ IH]; [done|]. apply IH.
  destruct (act sys x a) as [a1 r] eqn:E. by destruct (app_act_inv _ _ _ _ _ Hsys Ha Hx E) as (_ & H1 & _).
Qed.

(** C32: What the application has is what it finds again.  At every moment,
    whatever the calls that write files answered and in whatever order the
    handlers ran, its configuration is the one that a restart reads from
    the file, and the sessions that a restart reads are those the application
    had at some moment before; once an action that changes the sessions
    has returned without an error, they are those of now. *)
Theorem restart_finds_the_application sys d p a0 a :
  system_returns sys → started sys d p a0 → rtc (step sys) a0 a →
  loadConfig sys config_file None (files a) = Ok (cfg a) ∧
  (∃ a1, rtc (step sys) a0 a1 ∧ rtc (step sys) a1 a ∧ read_sessions None (files a) = Ok (sessions a1)) ∧
  ∀ x a' r, possible x a → act sys x a = (a', r) →
    returns r = true ∧ (saves x a = true → r = Ok tt → read_sessions None (files a') = Ok (sessions a')).
Proof.
  intros Hsys Hstart Hsteps. destruct (started_inv _ _ _ _ Hstart) as [Hinv0 Hread0].
  pose proof (steps_inv _ _ _ Hsys Hinv0 Hsteps) as Hinv. split; [apply Hinv|]. split.
  - clear Hinv. pattern a. revert a Hsteps. apply rtc_ind_r; [by exists a0; split_and!|].
    intros b c Hb (x & Hx & Hc) (a1 & H01 & H1b & Hread).
    destruct (act sys x b) as [c' r] eqn:E. simpl in Hc. subst c'.
    destruct (app_act_inv _ _ _ _ _ Hsys (steps_inv _ _ _ Hsys Hinv0 Hb) Hx E) as (_ & _ & [Hkept|Hnow] & _).
    + exists a1. split; [done|]. split; [|by rewrite Hkept]. eapply rtc_r; [exact H1b|]. exists x. by rewrite E.
    + exists c. split; [|by split]. eapply rtc_r; [exact Hb|]. exists x. by rewrite E.
  - intros x a' r Hx Hr. destruct (app_act_inv _ _ _ _ _ Hsys Hinv Hx Hr) as (H1 & _ & _ & H2). by split.
Qed.

(** C33: In every state that the application reaches, however the handlers ran
    before, an update of the configuration is taken as a whole or not at all:
    when it is refused or its file cannot be written, nothing changes but for
    a temporary file; when it is taken, the file holds the new configuration,
    and when the update has variables, the process has those of the new
    configuration, not those of the old one that are gone, and all others as
    before. *)
Theorem configuration_applied sys d p a0 a u w o a' r :
  system_returns sys → started sys d p a0 → rtc (step sys) a0 a → walks w → fresh config_file o (files a) →
  updateConfig sys u w o a = (a', r) →
  update_done sys u a a' r ∧
  (∀ n, n ∈ envSet a ↔ is_Some (config.Env (cfg a) !! n)) ∧
  (∀ n v, config.Env (cfg a') !! n = Some v → settable n v = true → environ (environment a') !! n = Some v).
Proof.
  intros Hsys Hstart Hsteps Hw Hf Hr. destruct (started_inv _ _ _ _ Hstart) as [Hinv0 _].
  pose proof (steps_inv _ _ _ Hsys Hinv0 Hsteps) as Hinv.
  pose proof (updateConfig_spec _ _ _ _ _ _ _ Hsys Hw Hf Hr) as Hd.
  destruct (inv_update _ _ _ _ _ Hinv Hd) as [Hinv' _]. split_and!; [done|apply Hinv|apply Hinv'].
Qed.

(** A variable that a configuration has and the next has not is unset, also
    when the process had it before the application exported its own. *)
Example removed_variable_is_unset :
  let path := ignoring (Setenv "EDITOR" "vi") (MkProcess ∅ []) in
  let a := MkApp zero_Config ∅ [] path ∅ ∅ in
  let a1 := fst (applyEnvLocked id {["EDITOR" := "nano"]} a) in
  let a2 := fst (applyEnvLocked id ∅ a1) in
  LookupEnv "EDITOR" (environment a) = Some "vi" ∧ LookupEnv "EDITOR" (environment a2) = None.
Proof. split; reflexivity. Qed.

(** ** A run of the application *)

Definition good_outcome : write_outcome := MkOutcome (inr "123") VNil None None None None false.
Definition full_disk : write_outcome := MkOutcome (inr "456") VNil (Some (errors_New "no space left")) None None None false.

Definition sample_app_start : start :=
  MkStart (Ok tt) None None (Err (sentinel_error ErrNotExist)) (Ok (repeat "a"%char 24)) good_outcome (Ok tt)
    (Ok "/opt/uag") (Ok "/opt/uag") id (Ok tt).

Definition sample_app : App :=
  fst (newApp sample_system sample_app_start (MkApp zero_Config ∅ [] (MkProcess ∅ []) ∅ ∅)).

Definition sample_saving (o : write_outcome) : saving := MkSaving id o.

Definition sample_meta : SessionMeta := meta.Mk "s1" EmptyString "/w" "2026-01-02T03:04:05Z" "2026-01-02T03:04:05Z".

Definition sample_insert : action := AInsert sample_meta (sample_saving good_outcome).
Definition sample_touch : action := ATouch "s1" "hello" "2026-01-02T04:00:00Z" (sample_saving full_disk).

Definition sample_app1 : App := fst (act sample_system sample_insert sample_app).
Definition sample_app2 : App := fst (act sample_system sample_touch sample_app1).

Lemma fresh_vm name suffix d o :
  temporary o = inr suffix → d !! temp_name name suffix = None → fresh name o d.
Proof. unfold fresh. intros -> H s [= <-]. exact H. Qed.

Lemma sample_started : started sample_system ∅ (MkProcess ∅ []) sample_app.
Proof.
  exists sample_app_start, "616161616161616161616161616161616161616161616161". split; [split_and!|].
  - by intros e [H|H].
  - by apply (fresh_vm _ "123").
  - by intros l.
  - by vm_compute.
Defined.

Lemma sample_steps : rtc (step sample_system) sample_app sample_app2.
Proof.
  eapply rtc_l; [exists sample_insert|eapply rtc_l; [exists sample_touch|apply rtc_refl]]; (split; [split|reflexivity]).
  - by intros l.
  - by apply (fresh_vm _ "123"); vm_compute.
  - by intros l.
  - by apply (fresh_vm _ "456"); vm_compute.
Defined.

Lemma restart_finds_the_application_witness :
  system_returns sample_system ∧ sessions sample_app2 !! "s1" ≠ None ∧
  loadConfig sample_system config_file None (files sample_app2) = Ok (cfg sample_app2) ∧
  read_sessions None (files sample_app2) = Ok (sessions sample_app1).
Proof.
  assert (system_returns sample_system) as Hsys by by split.
  destruct (restart_finds_the_application _ _ _ _ _ Hsys sample_started sample_steps) as (H & _).
  split; [exact Hsys|]. split; [by vm_compute|]. split; [exact H|by vm_compute].
Defined.

Definition sample_update : configUpdate :=
  update.Mk None [] [] [] None None None (Some " be brief ") (Some [("EDITOR", "vi")]) None None.

Lemma configuration_applied_witness :
  let '(a', r) := updateConfig sample_system sample_update id good_outcome sample_app2 in
  is_ok r = true ∧ LookupEnv "EDITOR" (environment a') = Some "vi" ∧
  update_done sample_system sample_update sample_app2 a' r.
Proof.
  destruct (updateConfig sample_system sample_update id good_outcome sample_app2) as [a' r] eqn:E.
  assert (fresh config_file good_outcome (files sample_app2)) as Hf by (apply (fresh_vm _ "123"); by vm_compute).
  destruct (configuration_applied sample_system ∅ (MkProcess ∅ []) sample_app sample_app2 sample_update id good_outcome
    a' r (conj eq_refl eq_refl) sample_started sample_steps (λ l, reflexivity l) Hf E) as (H & _).
  assert (is_ok (snd (updateConfig sample_system sample_update id good_outcome sample_app2)) = true ∧
    LookupEnv "EDITOR" (environment (fst (updateConfig sample_system sample_update id good_outcome sample_app2)))
    = Some "vi") as [H1 H2] by (split; vm_compute; reflexivity).
  rewrite E in H1, H2. by split_and!.
Defined.
