(* ===== verification/GuiHandlers.v ===== *)
(** * Handlers of the server (src/gui/server.go)

    The handlers that act on the application and its chats, each from its
    decoded request to the status and the body of the answer.  What the body
    of a request decodes to is an argument, and so is what the store holds of
    a session that is opened.  Here a handler runs alone; [GuiApp] and [Chat]
    have the parts under a mutex as steps in any order.

    The files of a workspace: the handlers that list and send them and take
    uploads work on an os.Root, which confines every path to the workspace, a
    map from relative paths to contents.  How the calls of the file system end
    is an argument. *)

From Stdlib Require Import Ascii ZArith Lia.
From stdpp Require Import sorting.
From S2P Require Import Prelude StateLogic GoStrings GoText Json JsonCodec GoTime Operation Llm Inbox.
From S2P Require Import SessionStore Approvals GuiConfig GuiRun Chat GuiServer DotEnv GuiApp.
From S2P Require Import Utf8Facts TextFacts Documents DocumentText.

Local Open Scope Z_scope.

(** ** Answers *)

Inductive body : Type :=
  | BError (text : string)
  | BOk
  | BConfig (v : cview.view)
  | BState (v : cview.view) (sessions : list (SessionMeta * bool))
  | BSession (m : SessionMeta) (err : option string).

Record reply : Type := Reply { status : Z; answer : body }.

Definition writeError (status : Z) (e : error) : reply := Reply status (BError (Error e)).

(** [if err := m; err != nil { writeError(w, status, err); return }] *)
Definition checked {A} (m : M App A) (status : Z) (k : A → M App reply) : M App reply :=
  r ← try m;
  match r with
  | Ok a => k a
  | Err e => mret (writeError status e)
  | Panic t => lift (Panic t)
  end.

(** ** Sessions and chats *)

Definition sessionFromPath (id : SessionID) (k : SessionMeta → M App reply) : M App reply :=
  a ← self;
  match session id a with
  | Some m => k m
  | None => mret (writeError 404 (errors_New "unknown session"))
  end.

(** What [loadHistory] returns for a session, and what its store holds. *)
Record opening : Type := MkOpening { loaded : result (list storedItem); held : list SItem }.

(** [app.chat] *)
Definition open_chat (id : SessionID) (o : opening) : M App unit :=
  a ← self;
  match chats a !! id with
  | Some _ => mret tt
  | None => l ← lift (loaded o); modify (set_chats (<[id := opened_chat l (held o)]> (chats a)))
  end.

(** A method of a chat that is open. *)
Definition on_chat {A} (id : SessionID) (m : M chat A) : M App A := λ a,
  match chats a !! id with
  | Some c => let '(c', r) := m c in (set_chats (<[id := c']> (chats a)) a, r)
  | None => (a, Panic nil_dereference)
  end.

Section Handlers.
Context {C : Type} (sys : system).

(** The run of a chat reads the configuration and the sessions of the
    application. *)
Definition in_app (a : App) (env : run_env C) : run_env C :=
  MkRunEnv (cfg a) sys (λ id, session id a) (env_data env) (env_mkdir env) (env_resume env)
    (env_client env) (env_close env) (env_skills env) (env_skill_id env) (env_input_id env) (env_host env) (env_ctx env).

Definition withChat (id : SessionID) (o : opening) (action : App → M chat unit) : M App reply :=
  sessionFromPath id (λ m,
    checked (_ ← open_chat (meta.ID m) o; a ← self; on_chat (meta.ID m) (action a)) 500 (λ _, mret (Reply 200 BOk))).

Definition handleStop (id : SessionID) (o : opening) (input_id : InputID) : M App reply :=
  withChat id o (λ _, stop input_id).

Definition handleRetry (id : SessionID) (o : opening) (env : run_env C) : M App reply :=
  withChat id o (λ a, retry (C := C) id (in_app a env)).

Definition handleDelete (id : SessionID) (s : saving) (log operations : option error) : M App reply :=
  sessionFromPath id (λ m,
    r ← try (deleteSession (meta.ID m) s log operations);
    match r with
    | Ok _ => mret (Reply 200 BOk)
    | Err e => mret (if errors_Is e ErrNotExist then Reply 200 BOk else writeError 409 e)
    | Panic t => lift (Panic t)
    end).

(** Releasing begins in every chat that has a gate; errors are dropped. *)
Definition approveAll (a : App) : App :=
  set_chats ((λ c, fst (on_gate (ActDecide EmptyString true) c)) <$> chats a) a.

Definition handleConfig (decoded : result configUpdate) (walk : list (string * string) → list (string * string))
    (o : write_outcome) : M App reply :=
  checked (lift decoded) 400 (λ update,
    checked (updateConfig sys update walk o) 400 (λ next,
      _ ← (match update.Permission update with
           | Some _ => if bool_decide (config.Permission next = permissionAuto) then modify approveAll else mret tt
           | None => mret tt
           end);
      mret (Reply 200 (BConfig (view sys next))))).

Definition handleState (walk : list SessionMeta → list SessionMeta) (a : App) : reply :=
  let running := runningChats a in
  Reply 200 (BState (view sys (cfg a)) ((λ m, (m, bool_decide (meta.ID m ∈ running))) <$> sessionList walk a)).

(** ** Messages *)

(** A request, and what the system answers while it is served. *)
Record message : Type := MkMessage {
  decoded : result (string * list string);       (* text and attachments *)
  path_id : string;
  new_id : SessionID;
  now : Time;
  made : result unit;
  created : result unit;
  saved_new : saving;
  open : opening;
  later : Time;
  saved_touch : saving;
  input_id : InputID;
  env : run_env C;
}.

(** The last part, on the session of the request. *)
Definition deliver (q : message) (text : string) (m : SessionMeta) : M App reply :=
  let id := meta.ID m in
  checked (open_chat id (open q)) 500 (λ _,
    _ ← try (touchSession id text (later q) (saved_touch q));
    a ← self;
    let m := default (meta.Mk EmptyString EmptyString EmptyString Time_zero Time_zero) (session id a) in
    r ← try (on_chat id (send (C := C) id (input_id q) text (in_app a (env q))));
    match r with
    | Ok _ => mret (Reply 200 (BSession m None))
    | Err e => mret (Reply 200 (BSession m (Some (Error e))))
    | Panic t => lift (Panic t)
    end).

Definition handleMessage (q : message) : M App reply :=
  checked (lift (decoded q)) 400 (λ '(text, attachments),
    let text := composeMessage text attachments in
    if bool_decide (text = EmptyString) then mret (writeError 400 (errors_New "message is empty"))
    else if bool_decide (path_id q = "new") then
      checked (createSession (new_id q) (now q) (made q) (created q) (saved_new q)) 500 (deliver q text)
    else sessionFromPath (path_id q) (deliver q text)).
End Handlers.

(** ** What the methods leave alone *)

(** What a chat has to say to a run: the messages that wait until the session
    has them, and the inbox of its run. *)
Definition mailbox (a : App) (id : SessionID) : list Input * option Inbox :=
  match chats a !! id with Some c => (pending c, inbox_ c) | None => ([], None) end.

(** The identifiers that a chat has seen. *)
Definition known_ids (c : chat) : gset InputID :=
  list_to_set (input.ID <$> pending c) ∪ list_to_set (external_ids (history c)) ∪
  match inbox_ c with Some s => seen s | None => ∅ end.

(** A run that was canceled and has not ended. *)
Definition ending_run (c : chat) : bool := running c && canceled c.

Lemma settings_id env_id m i : controlInput env_id m = Ok i → input.ID i = env_id.
Proof. intros (v & _ & [= <-])%bind_ok. done. Qed.

Lemma fresh_inputs_keep (s : gset InputID) (l1 l2 : list Input) (i : Input) :
  input.ID i ∉ s → input.ID i ∉ input.ID <$> l1 → i ∈ fresh_inputs s (l1 ++ i :: l2).
Proof.
  revert s. induction l1 as [|j l1 IH]; intros s Hs Hl; simpl.
  - rewrite decide_False by done. by left.
  - rewrite fmap_cons, not_elem_of_cons in Hl. destruct Hl as [Hj Hl].
    case_decide; [by apply IH|]. right. apply IH; [|done]. set_solver.
Qed.

(** A run that starts has the pending messages in its inbox. *)
Lemma startLocked_mail {C} id (env : run_env C) c c' r ps i :
  pending c = ps ++ [i] → input.ID i ∉ input.ID <$> ps → input.ID i ∉ external_ids (history c) →
  env_input_id env 0 ≠ input.ID i →
  startLocked id env c = (c', r) →
  pending c' = pending c ∧
  match r with
  | Ok _ => ∃ s, inbox_ c' = Some s ∧ i ∈ queued s
  | _ => inbox_ c' = inbox_ c
  end.
Proof.
  intros Hp Hps Hh Hid. unfold startLocked. rewrite M_self.
  pose proof (prepareRun_wp (resumed_env (history c) env) id (pending c) []) as Hw. unfold wp in Hw.
  destruct (prepareRun _ id _ _) as [effects [run|e|t]]; rewrite M_modify; [|by intros [= <- <-]..].
  rewrite !M_modify. destruct Hw as [(meta & p & settings & stop & _ & _ & Hres & _ & Hset%settings_id & _ & [_ _ Hq _]) _].
  intros [= <- <-]. split; [done|]. exists (run_inbox run). split; [done|]. rewrite Hq.
  assert (resumed.ExternalInputIDs (run_restored run) = external_ids (history c)) as ->.
  { unfold resumed_env in Hres. simpl in Hres. destruct (env_resume env); simplify_eq/=. by rewrite <- Hres. }
  rewrite Hp, <- (assoc_L (++)), (assoc_L (++) [settings]). apply fresh_inputs_keep; [by rewrite elem_of_list_to_set|].
  simpl. rewrite not_elem_of_cons. split; [|done]. simpl in Hset. congruence.
Qed.

(** The inbox of a run takes a new message, unless the run is canceled. *)
Lemma submit_mail i c c' r :
  (∀ s, inbox_ c = Some s → closed s = false ∧ input.ID i ∉ seen s) → Validate i = Ok tt →
  submit_input i c = (c', r) →
  pending c' = pending c ∧ canceled c' = canceled c ∧
  match r with
  | Ok _ => ∃ s, inbox_ c' = Some s ∧ i ∈ queued s
  | Err _ => canceled c = true ∧ is_Some (inbox_ c) ∧ inbox_ c' = inbox_ c
  | Panic _ => True
  end.
Proof.
  intros Hs Hv. unfold submit_input. rewrite M_self. destruct (inbox_ c) as [s|] eqn:E; [|by intros [= <- <-]].
  destruct (Hs s eq_refl) as [Ho Hi]. cbv zeta. unfold mbind at 1, M_bind at 1, lift at 1, Inbox.Submit. rewrite Hv.
  destruct (canceled c) eqn:Hc; cbn.
  - intros [= <- <-]. rewrite E. split_and!; try done.
  - intros [= <- <-]. simpl. split_and!; [done|done|]. exists (Inbox.run (Inbox.Received i) s). split; [done|].
    unfold Inbox.run. rewrite Ho, decide_False by done. simpl. apply elem_of_app. right. by left.
Qed.

Lemma message_valid iid text payload :
  iid ≠ EmptyString → Marshal string_codec text = Ok payload →
  Validate (input.Mk iid InputExternal payload) = Ok tt.
Proof.
  intros Hne. unfold Marshal. destruct (enc string_codec text) as [j|] eqn:E; [|done]. intros [= <-].
  unfold Validate. cbn [input.ID input.Kind input.Payload]. rewrite (bool_decide_false _ Hne). cbn.
  by rewrite (enc_ok string_codec _ _ E).
Qed.

Lemma filter_new (iid : InputID) (l : list Input) :
  iid ∉ input.ID <$> l → filter (λ p, input.ID p ≠ iid) l = l.
Proof.
  induction l as [|j l IH]; [done|]. rewrite fmap_cons, not_elem_of_cons. intros [Hj Hl].
  rewrite filter_cons_True by congruence. by rewrite IH.
Qed.

(** [send] with a new identifier: when it returns no error the message waits
    and is in the inbox of the run, if this one was not canceled; when it
    returns one, nothing of the message is left. *)
Lemma send_mail {C} id iid text (env : run_env C) c c' r :
  chat_inv c → iid ≠ EmptyString → iid ∉ known_ids c → env_input_id env 0 ≠ iid →
  send id iid text env c = (c', r) →
  match r with
  | Ok _ => ∃ payload s, Marshal string_codec text = Ok payload ∧
      let i := input.Mk iid InputExternal payload in
      pending c' = pending c ++ [i] ∧ inbox_ c' = Some s ∧
      (i ∈ queued s ∨ ending_run c = true ∧ inbox_ c = Some s)
  | Err _ => pending c' = pending c ∧ inbox_ c' = inbox_ c
  | Panic _ => True
  end.
Proof.
  intros Hc Hne Hk Hset. unfold known_ids in Hk. rewrite !not_elem_of_union, !not_elem_of_list_to_set in Hk.
  destruct Hk as [[Hp Hh] Hs]. unfold send. unfold mbind at 1, M_bind at 1, lift at 1.
  destruct (Marshal string_codec text) as [payload|e|t] eqn:Hm; [|by intros [= <- <-]..]. cbv zeta.
  rewrite !M_modify, M_self. pose proof (message_valid _ _ _ Hne Hm) as Hv.
  set (i := input.Mk iid InputExternal payload) in *. set (c1 := set_lastErr _ _).
  unfold mbind at 1, M_bind at 1. destruct (running c1) eqn:Hr; cbn [negb].
  - unfold mbind at 1, M_bind at 1, try. destruct (submit_input i c1) as [c2 r2] eqn:E.
    assert (∀ s, inbox_ c1 = Some s → closed s = false ∧ input.ID i ∉ seen s) as Hin.
    { intros s Hi. split; [exact (ii_open _ _ (ci_queue c Hc s Hi))|]. simpl in Hi. by rewrite Hi in Hs. }
    destruct (submit_mail _ _ _ _ Hin Hv E) as (Hp2 & Hc2 & H). rewrite M_self.
    destruct r2 as [[]|e|t]; [| |by intros [= <- <-]].
    + destruct H as (s & H1 & H2). intros [= <- <-]. exists payload, s. cbv zeta. split_and!; try done. by left.
    + destruct H as (H1 & [s H2] & H3). rewrite Hc2, H1. intros [= <- <-]. exists payload, s.
      cbv zeta. split_and!; [done|done|simpl; congruence|]. right. split; [|exact H2]. unfold ending_run.
      simpl in Hr, H1. by rewrite Hr, H1.
  - unfold mbind at 1, M_bind at 1, try. destruct (startLocked id env c1) as [c2 r2] eqn:E.
    destruct (startLocked_mail id env c1 c2 r2 (pending c) i eq_refl Hp Hh Hset E) as [Hp2 H].
    destruct r2 as [[]|e|t]; [| |by intros [= <- <-]].
    + destruct H as (s & H1 & H2). intros [= <- <-]. exists payload, s. cbv zeta. split_and!; try done. by left.
    + rewrite M_modify. intros [= <- <-]. simpl. rewrite Hp2. split; [|exact H]. simpl.
      rewrite filter_app, filter_new by done. rewrite filter_cons_False by (intros []; done). by rewrite app_nil_r.
Qed.

(** The chats, and that the identifier of a request is a new UUID. *)
Record serving {C} (q : message (C := C)) (a : App) : Prop := {
  serving_keyed : keyed (sessions a);
  serving_chats : ∀ id c, chats a !! id = Some c → chat_inv c ∧ input_id q ∉ known_ids c;
  serving_held : NoDup (external_ids (held (open q))) ∧ input_id q ∉ external_ids (held (open q));
  serving_id : input_id q ≠ EmptyString;
  serving_settings : env_input_id (env q) 0 ≠ input_id q;
}.

Lemma save_frame s a a' r : saveSessionsLocked s a = (a', r) → sessions a' = sessions a ∧ chats a' = chats a.
Proof.
  unfold saveSessionsLocked, on_files. rewrite M_self. unfold mbind, M_bind, lift.
  destruct (Marshal _ _) as [v|e|t]; [|by intros [= <- _]..].
  destruct (writeFileAtomic _ _ _ _) as [d r']. by intros [= <- _].
Qed.

Lemma touch_frame id text now s a a' r :
  keyed (sessions a) → touchSession id text now s a = (a', r) →
  keyed (sessions a') ∧ chats a' = chats a ∧ (is_Some (sessions a !! id) → is_Some (sessions a' !! id)).
Proof.
  intros Hk. unfold touchSession. rewrite M_self. destruct (sessions a !! id) as [m|] eqn:Hm; [|by intros [= <- _]].
  rewrite M_modify. intros [Hs Hc]%save_frame. rewrite Hs, Hc. simpl. split_and!; [|done|].
  - apply map_Forall_insert_2; [exact (Hk _ _ Hm)|exact Hk].
  - intros _. rewrite lookup_insert_eq. by eexists.
Qed.

Lemma create_frame id now made created s a a' r :
  keyed (sessions a) → createSession id now made created s a = (a', r) →
  keyed (sessions a') ∧ chats a' = chats a ∧ ∀ m, r = Ok m → sessions a' !! meta.ID m = Some m.
Proof.
  intros Hk. unfold createSession. rewrite M_self. cbv zeta. unfold mbind, M_bind, lift.
  destruct (map_err _ made) as [[]|e|t]; [|by intros [= <- <-]..].
  destruct created as [[]|e|t]; [|by intros [= <- <-]..].
  unfold insertSession. unfold mbind, M_bind, modify.
  destruct (saveSessionsLocked s _) as [a1 r1] eqn:E. apply save_frame in E as [Hs Hc].
  intros H. assert (a' = a1 ∧ ∀ m, r = Ok m → m = meta.Mk id EmptyString (config.Workspace (cfg a)) now now) as [-> Hr].
  { destruct r1 as [[]|e|t]; injection H as <- <-; (split; [done|]); intros m Hm; congruence. }
  rewrite Hs, Hc. split_and!; [by apply keyed_insert|done|]. intros m ->%Hr. simpl. apply lookup_insert_eq.
Qed.

(** ** An answer tells what became of the message *)

(** The text that a request says. *)
Definition said {C} (q : message (C := C)) : string :=
  match decoded q with Ok (text, attachments) => composeMessage text attachments | _ => EmptyString end.

Definition same_mail (a a' : App) : Prop := ∀ id, mailbox a' id = mailbox a id.

(** A run of the chat was canceled and has not ended. *)
Definition was_ending (a : App) (id : SessionID) : bool :=
  match chats a !! id with Some c => ending_run c | None => false end.

(** The chat of [id] has the message, as its last: it waits, and the inbox of
    a run has it, unless the run was canceled before; [finished] then starts
    another.  Nothing else changes. *)
Definition took (a a' : App) (id : SessionID) (iid : InputID) (text : string) : Prop :=
  ∃ payload s, Marshal string_codec text = Ok payload ∧
    let i := input.Mk iid InputExternal payload in
    mailbox a' id = (fst (mailbox a id) ++ [i], Some s) ∧
    (i ∈ queued s ∨ was_ending a id = true ∧ snd (mailbox a id) = Some s) ∧
    ∀ id', id' ≠ id → mailbox a' id' = mailbox a id'.

Definition told {C} (q : message (C := C)) (a a' : App) (r : reply) : Prop :=
  match answer r with
  | BSession m err =>
    status r = 200 ∧ said q ≠ EmptyString ∧ sessions a' !! meta.ID m = Some m ∧
    match err with
    | None => took a a' (meta.ID m) (input_id q) (said q)
    | Some _ => same_mail a a'
    end
  | BError _ => status r ∈ [400; 404; 500] ∧ same_mail a a'
  | _ => False
  end.

Lemma on_chat_send {C} id iid text (env : run_env C) a a' r c :
  chats a !! id = Some c → chat_inv c → iid ≠ EmptyString → iid ∉ known_ids c → env_input_id env 0 ≠ iid →
  on_chat id (send id iid text env) a = (a', r) →
  sessions a' = sessions a ∧
  match r with Ok _ => took a a' id iid text | Err _ => same_mail a a' | Panic _ => True end.
Proof.
  intros Hc Hi Hne Hk Hset. unfold on_chat. rewrite Hc. destruct (send id iid text env c) as [c' r'] eqn:E.
  apply (send_mail _ _ _ _ _ _ _ Hi Hne Hk Hset) in E. intros [= <- <-]. split; [done|].
  assert (∀ id', id' ≠ id → mailbox (set_chats (<[id := c']> (chats a)) a) id' = mailbox a id') as Hother.
  { intros id' Hne'. unfold mailbox. simpl. by rewrite lookup_insert_ne. }
  assert (mailbox (set_chats (<[id := c']> (chats a)) a) id = (pending c', inbox_ c')) as Hid.
  { unfold mailbox. simpl. by rewrite lookup_insert_eq. }
  assert (mailbox a id = (pending c, inbox_ c)) as Hbefore by (unfold mailbox; by rewrite Hc).
  destruct r' as [[]|e|t]; [| |done].
  - destruct E as (payload & s & Hp & H1 & H2 & H3). exists payload, s. cbv zeta. unfold was_ending.
    rewrite Hid, Hbefore, Hc. cbn [fst snd]. split; [done|]. split; [by rewrite H1, H2|]. by split.
  - destruct E as [H1 H2]. intros id'. destruct (decide (id' = id)) as [->|Hne']; [|by apply Hother].
    by rewrite Hid, Hbefore, H1, H2.
Qed.

Lemma checked_inv {A} (m : M App A) status k a a' rep :
  checked m status k a = (a', Ok rep) →
  (∃ x a1, m a = (a1, Ok x) ∧ k x a1 = (a', Ok rep)) ∨ ∃ e, m a = (a', Err e) ∧ rep = writeError status e.
Proof.
  unfold checked, mbind, M_bind, try. destruct (m a) as [a1 [x|e|t]]; [| |done].
  - intros H. left. by exists x, a1.
  - intros [= <- <-]. right. by exists e.
Qed.

(** The parts before [send] leave the chats as they are, or open one. *)
Definition same_chats {C} (q : message (C := C)) (a a' : App) : Prop :=
  same_mail a a' ∧ (∀ id, was_ending a' id = was_ending a id) ∧
  ∀ id c, chats a' !! id = Some c → chat_inv c ∧ input_id q ∉ known_ids c.

Lemma open_chat_frame {C} (q : message (C := C)) id a a' r :
  serving q a → open_chat id (open q) a = (a', r) →
  same_chats q a a' ∧ sessions a' = sessions a ∧ (r = Ok tt → is_Some (chats a' !! id)).
Proof.
  intros [_ Hchats [Hnd Hheld] _ _]. unfold open_chat. rewrite M_self. destruct (chats a !! id) as [c|] eqn:Hc.
  - intros [= <- <-]. split_and!; [by split_and!|done|]. intros _. by exists c.
  - unfold mbind, M_bind, lift. destruct (loaded (open q)) as [l|e|t]; intros [= <- <-];
      (split; [|split; [done|]]); try done; [split; [|split]|..]; try by split_and!.
    + intros id'. unfold mailbox. simpl. destruct (decide (id' = id)) as [->|Hne].
      * by rewrite lookup_insert_eq, Hc.
      * by rewrite lookup_insert_ne.
    + intros id'. unfold was_ending. simpl. destruct (decide (id' = id)) as [->|Hne].
      * by rewrite lookup_insert_eq, Hc.
      * by rewrite lookup_insert_ne.
    + intros id' c. simpl. rewrite lookup_insert_Some. intros [[<- <-]|[_ H]]; [|by eapply Hchats].
      split; [by apply opened_inv|]. unfold known_ids. simpl. set_solver.
    + intros _. simpl. rewrite lookup_insert_eq. by eexists.
Qed.

Lemma deliver_told {C} sys (q : message (C := C)) text m a0 a a' rep :
  said q = text → text ≠ EmptyString → serving q a → sessions a !! meta.ID m = Some m →
  chats a = chats a0 →
  deliver sys q text m a = (a', Ok rep) → told q a0 a' rep.
Proof.
  intros Hsaid Htext Hq Hm Hsame H. unfold deliver in H. cbv zeta in H.
  assert (∀ id, mailbox a id = mailbox a0 id) as Hmail by (intros; unfold mailbox; by rewrite Hsame).
  assert (∀ id, was_ending a id = was_ending a0 id) as Hending by (intros; unfold was_ending; by rewrite Hsame).
  apply checked_inv in H as [([] & a1 & Hopen & H)|(e & Hopen & ->)];
    destruct (open_chat_frame q _ _ _ _ Hq Hopen) as ((H1 & H2 & H3) & Hs & Hc).
  2: { split; [set_solver|]. intros id. by rewrite H1, Hmail. }
  specialize (Hc eq_refl). unfold mbind at 1, M_bind at 1, try at 1 in H.
  destruct (touchSession _ text (later q) (saved_touch q) a1) as [a2 r2] eqn:Etouch. rewrite M_self in H.
  destruct (touch_frame _ _ _ _ _ _ _ (eq_ind_r keyed (serving_keyed _ _ Hq) Hs) Etouch) as (Hk2 & Hc2 & Hin).
  assert (is_Some (sessions a2 !! meta.ID m)) as [m2 Hm2] by (apply Hin; rewrite Hs, Hm; by eexists).
  assert (default (meta.Mk EmptyString EmptyString EmptyString Time_zero Time_zero) (session (meta.ID m) a2) = m2) as Hmeta
    by (unfold session; by rewrite Hm2).
  assert (meta.ID m2 = meta.ID m) as Hid2 by exact (Hk2 _ _ Hm2).
  rewrite Hmeta in H. unfold mbind at 1, M_bind at 1, try at 1 in H.
  destruct (on_chat _ _ a2) as [a3 r3] eqn:Esend. destruct Hc as [c Hc]. destruct (H3 _ _ Hc) as [Hi Hnew].
  apply (on_chat_send _ _ _ _ _ _ _ c) in Esend as [Hs3 Hr];
    [|by rewrite Hc2|done|by destruct Hq|done|exact (serving_settings _ _ Hq)].
  assert (∀ id, mailbox a2 id = mailbox a0 id ∧ was_ending a2 id = was_ending a0 id) as Hbefore.
  { intros id. rewrite <- Hmail, <- Hending, <- H1, <- H2. unfold mailbox, was_ending. by rewrite Hc2. }
  destruct r3 as [[]|e|t]; [| |done]; injection H as <- <-; unfold told; cbn [answer status];
    rewrite Hid2, Hs3, Hsaid; (split; [done|]); (split; [done|]); (split; [done|]).
  - destruct Hr as (payload & s & Hp & Hr1 & Hr2 & Hr3). exists payload, s. cbv zeta in *.
    destruct (Hbefore (meta.ID m)) as [E1 E2]. rewrite E1, E2 in *.
    split; [done|]. split; [done|]. split; [done|]. intros id' Hne. rewrite (Hr3 id' Hne). apply Hbefore.
  - intros id. rewrite Hr. apply Hbefore.
Qed.

Lemma serving_chats_eq {C} (q : message (C := C)) a a' :
  serving q a → keyed (sessions a') → chats a' = chats a → serving q a'.
Proof. intros [H1 H2 H3 H4 H5] Hk Hc. constructor; try done. by rewrite Hc. Qed.

(** C31: The answer to a message tells what became of it.  Whatever the
    request, whose identifier is a new UUID, and however the store, the file
    system and the start of a run end: an answer with a session and no error
    means that the chat of this session, which is one of the application's,
    has the message, with its attachments: it is the last of those that wait,
    and it is in the inbox of the run, started now or before, except when that
    run was canceled and is about to end; an answer with an error means that
    the messages that wait and the inboxes are those of before, so that
    nothing of the message is left; and no other chat is touched by either. *)
Theorem message_answered {C} sys (q : message (C := C)) a a' rep :
  serving q a → handleMessage sys q a = (a', Ok rep) → told q a a' rep.
Proof.
  intros Hq H. unfold handleMessage in H. pose proof (serving_keyed _ _ Hq) as Hk.
  assert (∀ a1, chats a1 = chats a → same_mail a a1) as Hsame by (intros a1 E id; unfold mailbox; by rewrite E).
  apply checked_inv in H as [([text attachments] & a1 & [-> Hd]%M_lift_inv & H)|(e & [= <- Hd] & ->)].
  2: { by split; [set_solver|]. }
  cbv zeta in H. assert (said q = composeMessage text attachments) as Hsaid by (unfold said; by rewrite Hd).
  case_bool_decide as Hempty; [injection H as <- <-; by split; [set_solver|]|].
  case_bool_decide as Hnew.
  - apply checked_inv in H as [(m & a1 & Hcreate & H)|(e & Hcreate & ->)];
      destruct (create_frame _ _ _ _ _ _ _ _ Hk Hcreate) as (Hk1 & Hc & Hm).
    + exact (deliver_told sys q _ m a a1 a' rep Hsaid Hempty (serving_chats_eq _ _ _ Hq Hk1 Hc) (Hm m eq_refl) Hc H).
    + split; [set_solver|]. by apply Hsame.
  - unfold sessionFromPath in H. rewrite M_self in H. unfold session in H.
    match type of H with context [match ?x with Some _ => _ | None => _ end] => destruct x as [m|] eqn:Hm end.
    + apply (deliver_told sys q _ m a a a' rep Hsaid Hempty Hq); [|done|exact H]. by rewrite (Hk _ _ Hm).
    + injection H as <- <-. by split; [set_solver|].
Qed.

(** ** A message to a new session *)

Definition sample_keyed : App :=
  fst (updateConfig sample_system (update.Mk None [] [] [("openrouter", "sk-1")] None None None None None None None)
    id good_outcome sample_app).

Definition sample_message : message (C := unit) :=
  MkMessage (Ok ("  hello ", ["uploads/a.png"])) "new" "s1" sample_now (Ok tt) (Ok tt) (sample_saving good_outcome)
    (MkOpening (Ok []) []) sample_now (sample_saving full_disk) "m1" sample_env.

Lemma sample_serving : serving sample_message sample_keyed.
Proof.
  assert (sessions sample_keyed = ∅) as Hs by (vm_compute; reflexivity).
  assert (chats sample_keyed = ∅) as Hc by (vm_compute; reflexivity).
  constructor; rewrite ?Hs, ?Hc; [apply map_Forall_empty|..].
  - intros id c H. by rewrite lookup_empty in H.
  - split; [apply NoDup_nil_2|apply not_elem_of_nil].
  - discriminate.
  - vm_compute. discriminate.
Qed.

Lemma message_answered_witness :
  let '(a', r) := handleMessage sample_system sample_message sample_keyed in
  r = Ok (Reply 200 (BSession (meta.Mk "s1" "hello" "/home/u/UnrealAgent" sample_now sample_now) None)) ∧
  input.ID <$> fst (mailbox a' "s1") = ["m1"] ∧
  ∀ rep, r = Ok rep → told sample_message sample_keyed a' rep.
Proof.
  destruct (handleMessage sample_system sample_message sample_keyed) as [a' r] eqn:E.
  assert (∀ rep, r = Ok rep → told sample_message sample_keyed a' rep) as H.
  { intros rep Hr. apply (message_answered sample_system); [exact sample_serving|by rewrite E, Hr]. }
  assert (snd (handleMessage sample_system sample_message sample_keyed)
    = Ok (Reply 200 (BSession (meta.Mk "s1" "hello" "/home/u/UnrealAgent" sample_now sample_now) None)) ∧
    input.ID <$> fst (mailbox (fst (handleMessage sample_system sample_message sample_keyed)) "s1") = ["m1"]) as [H1 H2]
    by (split; vm_compute; reflexivity).
  rewrite E in H1, H2. by split_and!.
Defined.


(** ** The workspace of a request *)

(** [app.workspace]; [made] is what os.MkdirAll returns. *)
Definition workspace (id : string) (made : result unit) (a : App) : result string :=
  if negb (bool_decide (id = EmptyString)) then
    match session id a with
    | Some m => Ok (meta.Workspace m)
    | None => Err (errors_New "unknown session")
    end
  else _ ← made; Ok (config.Workspace (cfg a)).

Inductive file_reply (A : Type) : Type :=
  | FOk (a : A)
  | FError (status : Z) (text : string).
Arguments FOk {A} a.
Arguments FError {A} status text.

Definition failed {A B} (status : Z) (r : result A) (k : A → result (file_reply B)) : result (file_reply B) :=
  match r with
  | Ok a => k a
  | Err e => Ok (FError status (Error e))
  | Panic t => Panic t
  end.

(** [openRoot]; [opened] is what os.OpenRoot returns. *)
Definition openRoot {B} (id : string) (made opened : result unit) (a : App) (k : string → result (file_reply B))
    : result (file_reply B) :=
  failed 400 (workspace id made a) (λ w, failed 400 opened (λ _, k w)).

Definition or_dot (name : string) : string := if bool_decide (name = EmptyString) then "." else name.

(** ** Listing *)

(** An entry of ReadDir: what Info returns, whether it is a symbolic link, and
    whether the target, when there is one, is a directory. *)
Record entry : Type := MkEntry {
  entry_name : string;
  IsDir : bool;
  Info : option (Z * Time);
  symlink : bool;
  target : option bool;
}.

Record entryView : Type := MkView { Name : string; Path : string; Dir : bool; Size : Z; Modified : Time }.

Definition entry_view (showHidden : bool) (dir : string) (e : entry) : option entryView :=
  if negb showHidden && HasPrefix (entry_name e) "." then None
  else
    '(size, modified) ← Info e;
    let isDir := if symlink e then default (IsDir e) (target e) else IsDir e in
    Some (MkView (entry_name e) (filepath.Join [dir; entry_name e]) isDir size modified).

(** [strings.Compare] is the order of the bytes. *)
Fixpoint bytes_le (p q : bytes) : bool :=
  match p, q with
  | [], _ => true
  | _, [] => false
  | a :: p, b :: q => (byte_val a <? byte_val b) || ((byte_val a =? byte_val b) && bytes_le p q)
  end.

Definition before (a b : entryView) : Prop :=
  if eqb (Dir a) (Dir b) then bytes_le (to_bytes (ToLower (Name a))) (to_bytes (ToLower (Name b))) = true
  else Dir a = true.
#[export] Instance before_dec a b : Decision (before a b).
Proof. unfold before. destruct (eqb _ _); apply _. Defined.

(** Names that differ in case only are in the order that the sort gives them. *)
Definition list_entries (showHidden : bool) (dir : string) (entries : list entry) : list entryView :=
  merge_sort before (omap (entry_view showHidden dir) entries).

(** [opened_dir] is what opening the directory returns, with its entries. *)
Definition handleFiles (id : string) (made opened : result unit) (dir_parameter : string) (showHidden : bool)
    (opened_dir : string → result (result (list entry))) (a : App) : result (file_reply (string * string * list entryView)) :=
  openRoot id made opened a (λ w,
    let dir := relativePath dir_parameter in
    failed 404 (opened_dir (or_dot dir)) (λ entries,
      failed 400 entries (λ entries, Ok (FOk (w, dir, list_entries showHidden dir entries))))).

(** ** Sending *)

Definition textExtensions : list string :=
  [".md"; ".markdown"; ".txt"; ".log"; ".csv"; ".tsv"; ".go"; ".py"; ".ts"; ".tsx"; ".jsx"; ".rs"; ".rb"; ".java"; ".c";
   ".h"; ".cpp"; ".sh"; ".zsh"; ".yaml"; ".yml"; ".toml"; ".ini"; ".env"; ".sql"; ".swift"; ".kt"; ".jsonl"; ".ipynb"].

Definition sandbox : string := "sandbox allow-scripts allow-popups allow-forms; frame-ancestors 'self'".

(** The headers that a file is sent with; [TypeByExtension] and
    [FormatMediaType] are those of mime. *)
Record raw_headers : Type := MkRaw {
  Content_Type : option string;
  Content_Security_Policy : option string;
  Content_Disposition : option string;
  served_as : string;
}.

Definition raw_headers_of (TypeByExtension FormatMediaType : string → string) (name : string) (download : bool) : raw_headers :=
  let extension := ToLower (Ext name) in
  let contentType := TypeByExtension extension in
  MkRaw
    (if negb (bool_decide (contentType = EmptyString)) then Some contentType
     else if bool_decide (extension ∈ textExtensions) then Some "text/plain; charset=utf-8" else None)
    (if negb (bool_decide (extension = ".pdf")) then Some sandbox else None)
    (if download then Some (FormatMediaType (filepath.Base name)) else None)
    (filepath.Base name).

(** [found] is what opening the path returns: whether it is a file that can be
    examined and is no directory. *)
Definition handleRaw (TypeByExtension FormatMediaType : string → string) (id : string) (made opened : result unit)
    (path_parameter : string) (download : bool) (found : string → result bool) (a : App)
    : result (file_reply raw_headers) :=
  openRoot id made opened a (λ _,
    let name := relativePath path_parameter in
    failed 404 (found (or_dot name)) (λ is_file : bool,
      if negb is_file then Ok (FError 400 "not a file")
      else Ok (FOk (raw_headers_of TypeByExtension FormatMediaType name download)))).

Definition maxTextPreview : Z := 2 * 2 ^ 20.

Definition handleText (env : documents) (id : string) (made opened : result unit) (path_parameter : string)
    (stat : string → result unit) (a : App) : result (file_reply bytes) :=
  openRoot id made opened a (λ w,
    let name := relativePath path_parameter in
    failed 404 (stat (or_dot name)) (λ _,
      failed 422 (documentText env (filepath.Join [w; name])) (λ text,
        page ← paginate text 0 maxTextPreview; Ok (FOk page)))).

(** A file that is not a PDF is sent into an opaque origin, whatever its name
    says that it is. *)
Lemma handleRaw_sandboxed types media id made opened path download found a h :
  handleRaw types media id made opened path download found a = Ok (FOk h) →
  found (or_dot (relativePath path)) = Ok true ∧
  (Content_Security_Policy h = Some sandbox ∨ ToLower (Ext (relativePath path)) = ".pdf").
Proof.
  unfold handleRaw, openRoot, failed. destruct (workspace id made a) as [w|e|t]; [|discriminate..].
  destruct opened as [[]|e|t]; [|discriminate..]. cbv zeta. generalize (relativePath path). intros name.
  destruct (found (or_dot name)) as [b|e|t]; [|discriminate..]. destruct b; cbn [negb]; [|discriminate].
  intros H. injection H as <-. split; [reflexivity|]. unfold raw_headers_of. cbv zeta. cbn [Content_Security_Policy].
  case_bool_decide as E; [by right|by left].
Qed.

(** ** Uploads *)

Section Uploads.
(** The categories L and N of Unicode, in the expression [unsafeName]. *)
Context (letter_or_number : Z → bool).

Definition safe_rune (r : Z) : bool := letter_or_number r || bool_decide (r ∈ [46; 95; 32; 45]).

(** A run of runes that are not safe becomes one underscore. *)
Fixpoint replace_unsafe (in_run : bool) (cs : list bytes) : bytes :=
  match cs with
  | [] => []
  | c :: cs =>
    if safe_rune (fst (utf8.DecodeRune c)) then c ++ replace_unsafe false cs
    else (if in_run then [] else ["_"%char]) ++ replace_unsafe true cs
  end.

Definition upload_name (file : string) : string :=
  let name := TrimSpace (to_string (replace_unsafe false (utf8.chunks (to_bytes (filepath.Base file))))) in
  if bool_decide (name ∈ [EmptyString; "."; ".."]) then "upload" else name.

(** A part of the form: what is copied of it, how the calls on its file end,
    and whether the file can be removed after a failure. *)
Record part : Type := MkPart {
  FileName : string;
  content : bytes;
  faults : string → option error;
  copied : option error;
  closed_ : option error;
  removed : bool;
}.

Record uploaded : Type := MkUploaded { up_path : string; up_name : string; up_size : Z; up_image : bool }.

Abbreviation root := (gmap string bytes).

(** root.OpenFile with O_CREATE and O_EXCL *)
Definition open_in (d : root) (faults : string → option error) (path : string) : result unit :=
  match d !! path with
  | Some _ => Err (sentinel_error ErrExist)
  | None => match faults path with Some e => Err e | None => Ok tt end
  end.

(** The loop over the parts, which end with an error or the end of the form. *)
Fixpoint save_parts (parts : list part) (ending : option error) (saved : list uploaded) (d : root)
    : root * result (file_reply (list uploaded)) :=
  match parts with
  | [] => (d, Ok (match ending with Some e => FError 400 (Error e) | None => FOk saved end))
  | p :: rest =>
    if bool_decide (FileName p = EmptyString) then save_parts rest ending saved d
    else
      match createUnique (open_in d (faults p)) (upload_name (FileName p)) with
      | Err e => (d, Ok (FError 500 (Error e)))
      | Panic t => (d, Panic t)
      | Ok relative =>
        let d' := <[relative := content p]> d in
        match Join_errors [copied p; closed_ p] with
        | Some e => (if removed p then delete relative d' else d', Ok (FError 400 (Error e)))
        | None =>
          save_parts rest ending
            (saved ++ [MkUploaded relative (filepath.Base relative) (len (content p)) (isImage relative)]) d'
        end
      end
  end.

(** [reader] is what MultipartReader returns and [mkdir] root.Mkdir. *)
Definition handleUpload (id : string) (made opened reader mkdir : result unit) (parts : list part)
    (ending : option error) (a : App) (d : root) : root * result (file_reply (list uploaded)) :=
  match openRoot id made opened a (λ _, failed 400 reader (λ _,
          match mkdir with
          | Err e => if errors_Is e ErrExist then Ok (FOk tt) else Ok (FError 500 (Error e))
          | Panic t => Panic t
          | Ok _ => Ok (FOk tt)
          end)) with
  | Ok (FOk _) => save_parts parts ending [] d
  | Ok (FError s t) => (d, Ok (FError s t))
  | Err e => (d, Err e)
  | Panic t => (d, Panic t)
  end.

(** ** Uploads are added *)

Lemma create_from_opens open name rounds attempt path :
  create_from open name rounds attempt = Ok path → open path = Ok tt.
Proof.
  revert attempt. induction rounds as [|rounds IH]; intros attempt; cbn [create_from]; cbv zeta; [done|].
  match goal with |- context [open ?x] => destruct (open x) as [[]|e|t] eqn:E end;
    [intros H; injection H as <-; exact E| |done]. destruct (errors_Is e ErrExist); [apply IH|done].
Qed.

Lemma open_in_new d faults path : open_in d faults path = Ok tt → d !! path = None.
Proof. unfold open_in. by destruct (d !! path). Qed.

Definition named (p : part) : Prop := FileName p ≠ EmptyString.
#[export] Instance named_dec p : Decision (named p) := _.

(** The part is in a file that was not there, under this path. *)
Definition in_file (d d' : root) (p : part) (u : uploaded) : Prop :=
  d !! up_path u = None ∧ d' !! up_path u = Some (content p) ∧ up_size u = len (content p).

Definition adds_files (d d' : root) (done_ : list part) (saved : list uploaded) : Prop :=
  d ⊆ d' ∧ Forall2 (in_file d d') done_ saved ∧ NoDup (up_path <$> saved).

Lemma adds_one d d' done_ saved p path :
  adds_files d d' done_ saved → d' !! path = None →
  adds_files d (<[path := content p]> d') (done_ ++ [p])
    (saved ++ [MkUploaded path (filepath.Base path) (len (content p)) (isImage path)]).
Proof.
  intros (Hsub & Hall & Hnd) Hnew.
  assert (∀ u, u ∈ saved → up_path u ≠ path) as Hne.
  { intros u Hu <-. apply list_elem_of_lookup in Hu as [i Hi].
    destruct (Forall2_lookup_r _ _ _ _ _ Hall Hi) as (q & _ & _ & H & _). congruence. }
  split_and!.
  - etrans; [exact Hsub|]. by apply insert_subseteq.
  - apply Forall2_app; [|constructor; [|constructor]].
    + apply Forall2_same_length_lookup_2; [by eapply Forall2_length|]. intros i q u Hq Hu.
      destruct (Forall2_lookup_lr _ _ _ _ _ _ Hall Hq Hu) as (H1 & H2 & H3).
      split_and!; [done| |done]. rewrite lookup_insert_ne; [done|]. intros E.
      apply (Hne u); [by eapply list_elem_of_lookup_2|done].
    + split_and!; simpl; [|by apply lookup_insert_eq|done].
      destruct (d !! path) as [v|] eqn:E; [|done]. by rewrite (lookup_weaken _ _ _ _ E Hsub) in Hnew.
  - rewrite fmap_app. apply NoDup_app. split_and!; [done| |apply NoDup_singleton].
    intros x (u & -> & Hu)%list_elem_of_fmap H%list_elem_of_singleton. by apply (Hne u Hu).
Qed.

Lemma save_parts_adds parts ending saved done_ d d' d2 r :
  adds_files d d' done_ saved → save_parts parts ending saved d' = (d2, r) →
  d ⊆ d2 ∧ ∀ l, r = Ok (FOk l) → adds_files d d2 (done_ ++ filter named parts) l.
Proof.
  revert saved done_ d'. induction parts as [|p parts IH]; intros saved done_ d' Hd H; simpl in H.
  - injection H as <- <-. split; [apply Hd|]. intros l Hl. rewrite app_nil_r. destruct ending; [done|].
    by injection Hl as <-.
  - case_bool_decide as Hname.
    { rewrite filter_cons_False by (unfold named; naive_solver). by eapply IH. }
    rewrite filter_cons_True by done. unfold createUnique in H.
    destruct (create_from _ _ 1000 0) as [path|e|t] eqn:E; [|injection H as <- <-; split; [apply Hd|done]..].
    apply create_from_opens, open_in_new in E. cbv zeta in H.
    pose proof (adds_one d d' done_ saved p path Hd E) as Hone.
    destruct (Join_errors _) as [e|].
    + injection H as <- <-. split; [|done]. destruct (removed p); [|apply Hone].
      rewrite delete_insert_id by done. apply Hd.
    + rewrite (cons_middle p), (assoc_L (++)). by eapply IH.
Qed.

(** Uploads never change a file: whatever the names of the parts and however
    the calls on the files end, every file of the workspace keeps its content;
    and when the answer lists files, they are those of the named parts in
    their order, new and different ones, each with what was sent. *)
Theorem uploads_never_overwrite id made opened reader mkdir parts ending a d d' r :
  handleUpload id made opened reader mkdir parts ending a d = (d', r) →
  d ⊆ d' ∧ ∀ l, r = Ok (FOk l) → Forall2 (in_file d d') (filter named parts) l ∧ NoDup (up_path <$> l).
Proof.
  unfold handleUpload. destruct (openRoot _ _ _ _ _) as [[[]|s t]|e|t]; [|by intros [= <- <-]..].
  intros H. assert (adds_files d d [] []) as H0 by (split_and!; [done|constructor|constructor]).
  destruct (save_parts_adds _ _ _ [] _ _ _ _ H0 H) as [H1 H2]. split; [done|].
  intros l Hl. by destruct (H2 l Hl) as (_ & H3 & H4).
Qed.
End Uploads.
