(* ===== verification/RunnerRequest.v ===== *)
(** * Requests of the agent runner (src/cmd/internal/agentrunner/run.go, config.go)

    What the runner reads before it touches anything: the JSON object of a
    request, its validation, and the choices that follow from it, from the
    environment and from the table of providers.  The parser of UUIDs is a
    parameter. *)

From Stdlib Require Import Ascii ZArith Lia.
From S2P Require Import Prelude GoStrings GoText Json JsonCodec Llm Inbox Operation DocumentText Clients.

Local Open Scope Z_scope.

(** ** Requests *)

Module rmessage.
Record RequestMessage : Type := Mk { Role : string; Content : string; MessageID : option string }.
End rmessage.
Abbreviation RequestMessage := rmessage.RequestMessage.

(** A nil slice of messages is none. *)
Module rrequest.
Record Request : Type := Mk {
  Messages : option (list RequestMessage); Prompt : option string; SystemPrompt : option string;
  Model : string; MaxAttempts : option Z; SessionID : option string; ThinkingLevel : string;
  IncludePartialMessages : option bool; ExtraAllowedTools : list string; DisallowedTools : list string }.
End rrequest.
Abbreviation RunRequest := rrequest.Request.

Definition message_members : list string := ["role"; "content"; "message_id"].

Definition request_members : list string :=
  ["messages"; "prompt"; "system_prompt"; "model"; "max_attempts"; "session_id"; "thinking_level";
   "include_partial_messages"; "extra_allowed_tools"; "disallowed_tools"].

(** [json.RejectUnknownMembers(true)] holds for every object. *)
Definition dec_known {A} (ns : list string) (z : A) (f : list (string * json) → option A) : json → option A :=
  dec_struct z (λ o, if forallb (λ m, bool_decide (m.1 ∈ ns)) o then f o else None).

Definition dec_message : json → option RequestMessage :=
  dec_known message_members (rmessage.Mk EmptyString EmptyString None) (λ o,
    role ← get string_codec "role" o; content ← get string_codec "content" o;
    id ← get (ptr_codec string_codec) "message_id" o; Some (rmessage.Mk role content id)).

Definition dec_messages (o : list (string * json)) : option (option (list RequestMessage)) :=
  match assoc "messages" o with
  | None | Some JNull => Some None
  | Some (JArr l) => Some <$> mapM dec_message l
  | Some _ => None
  end.

Definition dec_request : json → option RunRequest :=
  dec_known request_members (rrequest.Mk None None None EmptyString None None EmptyString None [] []) (λ o,
    messages ← dec_messages o; prompt ← get (ptr_codec string_codec) "prompt" o;
    system ← get (ptr_codec string_codec) "system_prompt" o; model ← get string_codec "model" o;
    attempts ← get (ptr_codec int64_codec) "max_attempts" o; session ← get (ptr_codec string_codec) "session_id" o;
    level ← get string_codec "thinking_level" o; partial ← get (ptr_codec bool_codec) "include_partial_messages" o;
    extra ← get (list_codec string_codec) "extra_allowed_tools" o;
    disallowed ← get (list_codec string_codec) "disallowed_tools" o;
    Some (rrequest.Mk messages prompt system model attempts session level partial extra disallowed)).

(** [DecodeRequest] into a [Request]; [input] is what reading it gives. *)
Definition DecodeRequest (input : error + bytes) : result RunRequest :=
  match input with
  | inl e => Err (Errorf_w "read input: " e)
  | inr raw =>
    let raw := TrimSpace (to_string raw) in
    if blank raw then Err (errors_New "empty input")
    else
      match value_of_text (to_bytes raw) with
      | VText j =>
        match (if json_ok j then dec_request j else None) with
        | Some r => Ok r
        | None => Err (Errorf_w "invalid JSON: " json_error)
        end
      | _ => Err (Errorf_w "invalid JSON: " json_error)
      end
  end.

(** The request that -p gives. *)
Definition prompt_request (prompt : string) : option json := enc_struct [field string_codec "prompt" prompt].

(** ** Validation *)

Definition thinking_levels : list string := ["low"; "medium"; "high"; "xhigh"; "max"].

Section Validate.
Context (uuid_Parse : string → bool).

Definition check_message (index : Z) (m : RequestMessage) : result unit :=
  let at_ := "messages[" +:+ Itoa index +:+ "]" in
  if negb (blank (rmessage.Role m)) && negb (bool_decide (rmessage.Role m = "user")) then
    Err (errors_New (at_ +:+ ".role must be user"))
  else
    match rmessage.MessageID m with
    | None => Ok tt
    | Some id =>
      if blank (TrimSpace id) then Err (errors_New (at_ +:+ ".message_id must not be empty"))
      else if negb (uuid_Parse (TrimSpace id)) then Err (errors_New (at_ +:+ ".message_id must be a UUID"))
      else Ok tt
    end.

Fixpoint check_messages (index : Z) (l : list RequestMessage) : result unit :=
  match l with
  | [] => Ok tt
  | m :: l => _ ← check_message index m; check_messages (index + 1) l
  end.

Definition validateRequest (parsed : RunRequest) : result (list RequestMessage) :=
  if match rrequest.SessionID parsed with Some id => blank (TrimSpace id) | None => false end then
    Err (errors_New "session_id must not be empty")
  else if negb (blank (rrequest.ThinkingLevel parsed))
          && negb (bool_decide (rrequest.ThinkingLevel parsed ∈ thinking_levels)) then
    Err (errors_New "thinking_level must be one of: low, medium, high, xhigh, max")
  else if existsb (λ name, blank (TrimSpace name))
            (rrequest.ExtraAllowedTools parsed ++ rrequest.DisallowedTools parsed) then
    Err (errors_New "tool names must not be empty")
  else
    match rrequest.Messages parsed with
    | None =>
      match rrequest.Prompt parsed with
      | None => Err (errors_New "messages must be set")
      | Some prompt => Ok [rmessage.Mk EmptyString prompt None]
      end
    | Some [] => Err (errors_New "messages must not be empty")
    | Some messages => _ ← check_messages 0 messages; Ok messages
    end.
End Validate.

(** ** Choices *)

Definition EnabledTools (parsed : RunRequest) (names : list string) : list string :=
  filter (λ name, name ∉ rrequest.DisallowedTools parsed) names.

Definition reasoningEffort (level : string) : ReasoningEffort :=
  if bool_decide (level = "low") then ReasoningEffortLow
  else if bool_decide (level = "medium") then ReasoningEffortMedium
  else if bool_decide (level = "xhigh") then ReasoningEffortXHigh
  else if bool_decide (level = "max") then ReasoningEffortMax
  else ReasoningEffortHigh.

Definition max_attempts_name : string := "UNREAL_HARNESS_LLM_MAX_ATTEMPTS".

(** The error of [strconv.Atoi]: digits that do not fit, or another text. *)
Definition atoi_error (text : string) : error :=
  let digits := match to_bytes text with "-"%char :: p | "+"%char :: p => p | p => p end in
  let number := negb (Nat.eqb (length digits) 0) && forallb is_digit digits in
  errors_New ("strconv.Atoi: parsing " +:+ quote text +:+ ": "
    +:+ (if number then "value out of range" else "invalid syntax")).

Definition resolveMaxAttempts (requested : option Z) (getenv : string → string) : result Z :=
  maxAttempts ←
    match requested with
    | Some n => Ok n
    | None =>
      let v := TrimSpace (getenv max_attempts_name) in
      if blank v then Ok ResponsesExchange.DefaultMaxAttempts
      else match Atoi (to_bytes v) with
           | Some n => Ok n
           | None => Err (Errorf_w ("parse " +:+ max_attempts_name +:+ ": ") (atoi_error v))
           end
    end;
  if maxAttempts <=? 0 then Err (errors_New "max attempts must be positive") else Ok maxAttempts.

Definition new_client : Type := string → string → Z → (string → string) → M (list connection) client.

(** The provider with its constructor, which is set. *)
Definition selectProvider (providers : list Provider) (name : string) : result (Provider * new_client) :=
  match find (λ p, bool_decide (rprovider.Name p = name)) providers with
  | Some p =>
    match rprovider.NewClient p with
    | None => Err (errors_New ("provider " +:+ quote name +:+ " has no client factory"))
    | Some new => Ok (p, new)
    end
  | None =>
    Err (errors_New ("unsupported provider " +:+ quote name +:+ "; available providers: "
           +:+ Join (rprovider.Name <$> providers) ", "))
  end.

Definition api_key_name : string := "UNREAL_HARNESS_LLM_API_KEY".
Definition base_url_name : string := "UNREAL_HARNESS_LLM_BASE_URL".
Definition model_name : string := "UNREAL_HARNESS_LLM_MODEL".
Definition provider_name : string := "UNREAL_HARNESS_LLM_PROVIDER".

Definition or_else (first second : string) : string := if blank first then second else first.

Definition choose_model (parsed : RunRequest) (p : Provider) (getenv : string → string) : result string :=
  let model := or_else (or_else (TrimSpace (rrequest.Model parsed)) (TrimSpace (getenv model_name)))
                 (rprovider.DefaultModel p) in
  if blank model then Err (errors_New ("model must be set in the request or " +:+ model_name)) else Ok model.

Definition choose_key (p : Provider) (getenv : string → string) : result string :=
  if blank (rprovider.APIKeyEnvironment p) then Ok EmptyString
  else
    let key := getenv api_key_name in
    let key := if blank (TrimSpace key) then getenv (rprovider.APIKeyEnvironment p) else key in
    if blank (TrimSpace key) then
      Err (errors_New (api_key_name +:+ " or " +:+ rprovider.APIKeyEnvironment p +:+ " must be set"))
    else Ok key.

Definition defaultSessionDirectory : string := "unreal-agent/sessions".

(** [filepath.Abs], with the working directory. *)
Definition Abs (wd : error + string) (path : string) : result string :=
  if filepath.IsAbs path then Ok (filepath.Clean path)
  else match wd with inl e => Err e | inr wd => Ok (filepath.Join [wd; path]) end.

Definition resolveSessionDirectory (configured : string) (getenv : string → string) (wd home : error + string)
    : result string :=
  let configured := TrimSpace configured in
  if negb (blank configured) then Abs wd configured
  else
    let stateHome := getenv "XDG_STATE_HOME" in
    stateHome ←
      (if filepath.IsAbs stateHome then Ok stateHome
       else
         let userHome := getenv "HOME" in
         userHome ←
           (if blank userHome then
              match home with
              | inl e => Err (MkError ("find home directory: " +:+ Error e +:+ "; specify -session-directory to override") (Is e))
              | inr h => Ok h
              end
            else Ok userHome);
         if filepath.IsAbs userHome then Ok (filepath.Join [userHome; ".local"; "state"])
         else Err (errors_New "set an absolute XDG_STATE_HOME or HOME, or specify -session-directory"));
    Ok (filepath.Join [stateHome; defaultSessionDirectory]).
