(* ===== verification/Runner.v ===== *)
(** * The agent runner (src/cmd/internal/agentrunner/run.go, src/cmd/unreal-agent-runner)

    One run of the program, from its flags to its exit code: the request, the
    environment, the client, the session, the log, the tools, the inbox, the
    builder and the observer that writes what is stored.  [Run] is written as
    the code is, with its deferred calls: [deferred] runs a body and then, in
    every case, what was deferred before it.  The operating system, the parser
    of flags and the coordinator's run, the subject of [Coordinator], are the
    fields of a [world]; what the runner does outside is a record of actions. *)

From Stdlib Require Import Ascii ZArith Lia.
From S2P Require Import Prelude GoStrings GoText Json JsonCodec GoTime Operation Llm Inbox RunInputs.
From S2P Require Import Tool Registry BashTool ViewImageTool ContextBuilder SessionStore LocalStore ResponsesStream.
From S2P Require Import Clients DotEnv RunnerRequest.

Local Open Scope Z_scope.

(** ** The configuration of a runner *)

Module tool_config.
Record ToolConfig : Type := Mk {
  Translators : StaticTranslators; Names : list string; SessionID : SessionID; Getenv : string → string }.
End tool_config.
Abbreviation ToolConfig := tool_config.ToolConfig.

(** [J] is the type of the handlers of remote jobs; [Close] is nil or returns
    an error or nil. *)
Module tools.
Record Tools (J : Type) : Type := Mk {
  Registry : registry; RemoteJobs : list J; Close : option (option error) }.
Arguments Mk {J}.
Arguments Registry {J}.
Arguments RemoteJobs {J}.
Arguments Close {J}.
End tools.
Abbreviation Tools := tools.Tools.

Definition ToolFactory (J : Type) : Type := ToolConfig → result (Tools J).

Module rconfig.
Record Config (J : Type) : Type := Mk {
  Name : string; Providers : list Provider;
  ParseRequest : option (error + bytes → result (RunRequest * option (ToolFactory J))) }.
Arguments Mk {J}.
Arguments Name {J}.
Arguments Providers {J}.
Arguments ParseRequest {J}.
End rconfig.

(** [parseRequest] of unreal-agent-runner, which configures no remote jobs. *)
Definition parseRequest {J} (input : error + bytes) : result (RunRequest * option (ToolFactory J)) :=
  parsed ← DecodeRequest input;
  Ok (parsed, Some (λ config,
    Ok (tools.Mk (NewRegistry (tool_config.Translators config) (EnabledTools parsed (tool_config.Names config))) [] None))).

Definition main_config {J} (m : machine) : rconfig.Config J :=
  rconfig.Mk "unreal-agent-runner" (DefaultProviders m) (Some parseRequest).

Definition defaultSystemPrompt : string := lines [
  "You are an AI agent running inside an isolated sandbox container.";
  EmptyString;
  "## Guidelines";
  "- Save output files to the workspace root.";
  "- For large datasets, inspect a sample first before processing everything.";
  EmptyString].

(** ** What a run does outside *)

Inductive writer : Set := Stdout | Stderr | LogFile.

Inductive resource : Set :=
  | Environment   (* the variables of the .env file *)
  | LlmClient
  | SessionLog
  | RunContext    (* context.WithCancel *)
  | RunTools
  | Observer.

#[export] Instance resource_eq_dec : EqDecision resource. Proof. solve_decision. Defined.

(** What the coordinator is given. *)
Record dependencies (J : Type) : Type := MkDependencies {
  dep_heartbeat : Z;
  dep_session : SessionID;
  dep_inbox : Inbox;
  dep_restored : ResumeState;
  dep_builder : builder;
  dep_client : client;
  dep_registry : registry;
  dep_jobs : list J;
}.
Arguments MkDependencies {J}.
Arguments dep_heartbeat {J}.
Arguments dep_session {J}.
Arguments dep_inbox {J}.
Arguments dep_restored {J}.
Arguments dep_builder {J}.
Arguments dep_client {J}.
Arguments dep_registry {J}.
Arguments dep_jobs {J}.

Inductive action (J : Type) : Type :=
  | Opened (r : resource)
  | Closed (r : resource)
  | Remotes (c : connection)
  | MadeDirectory (path : string)
  | Canceled
  | Wrote (w : writer) (text : string)
  | Coordinated (d : dependencies J).
Arguments Opened {J}.
Arguments Closed {J}.
Arguments Remotes {J}.
Arguments MadeDirectory {J}.
Arguments Canceled {J}.
Arguments Wrote {J}.
Arguments Coordinated {J}.

(** ** The world *)

Module flags.
Record flags : Type := Mk {
  prompt : option string; sessionDirectory : string; workspaceDirectory : string; logDirectory : string;
  toolHeartbeatInterval : Z; args : list string }.
End flags.
Abbreviation flags := flags.flags.

(** A failure of the parser of flags comes with the error of writing the
    usage, if it was asked for; [write_error] is by the number of writes
    before; the identifiers are numbered by their use; [coordinate] gives the
    items that the store reports while the coordinator runs, and its error. *)
Record world (J : Type) : Type := MkWorld {
  parse_flags : (error * option error) + flags;
  stdin : error + bytes;
  uuid_Parse : string → bool;
  working_directory : error + string;
  Stat : string → error + bool;
  read_file : string → bytes + error;
  walk : list (string * string) → list (string * string);
  home_directory : error + string;
  open_store : string → error + Store;
  read_error : option error;
  clock : Time;
  publishing : publish_outcome;
  MkdirAll : string → option error;
  log_name : string;
  open_log : string → option error;
  close_log : option error;
  glob : string → result (list string);
  read_skill : string → result bytes;
  skill_id : nat → RegistrationID;
  uuid_New : nat → string;
  write_error : nat → option error;
  ctx : option error;
  ctx_at_end : option error;
  coordinate : dependencies J → list (SessionID * SItem) * option error;
}.
Arguments parse_flags {J}.
Arguments stdin {J}.
Arguments uuid_Parse {J}.
Arguments working_directory {J}.
Arguments Stat {J}.
Arguments read_file {J}.
Arguments walk {J}.
Arguments home_directory {J}.
Arguments open_store {J}.
Arguments read_error {J}.
Arguments clock {J}.
Arguments publishing {J}.
Arguments MkdirAll {J}.
Arguments log_name {J}.
Arguments open_log {J}.
Arguments close_log {J}.
Arguments glob {J}.
Arguments read_skill {J}.
Arguments skill_id {J}.
Arguments uuid_New {J}.
Arguments write_error {J}.
Arguments ctx {J}.
Arguments ctx_at_end {J}.
Arguments coordinate {J}.

(** The variables of the process, the store once it is open, and the record. *)
Record rstate (J : Type) : Type := MkRun { proc : process; store : Store; done : list (action J) }.
Arguments MkRun {J}.
Arguments proc {J}.
Arguments store {J}.
Arguments done {J}.

Section Run.
Context {J : Type} (w : world J).

Abbreviation RM := (M (rstate J)).

Definition does (a : action J) : RM unit := modify (λ s, MkRun (proc s) (store s) (done s ++ [a])).

Definition on_proc {A} (m : M process A) : RM A := λ s,
  let '(p, r) := m (proc s) in (MkRun p (store s) (done s), r).

Definition on_store {A} (m : M Store A) : RM A := λ s,
  let '(st, r) := m (store s) in (MkRun (proc s) st (done s), r).

(** The actions of opening a client. *)
Definition on_connections {A} (m : M (list connection) A) : RM A := λ s,
  let '(l, r) := m [] in (MkRun (proc s) (store s) (done s ++ (Remotes <$> l)), r).

Definition wrapped {A} (prefix : string) (r : result A) : RM A := lift (map_err (Errorf_w prefix) r).

Definition failing (prefix : string) (e : option error) : RM unit :=
  match e with Some e => fail (Errorf_w prefix e) | None => mret tt end.

(** ** Deferred calls *)

(** [errors.Join(runErr, err)] for an [err] that may be nil. *)
Definition joined (r : result unit) (closed : option error) : result unit :=
  match r, closed with
  | Ok _, Some e => Err e
  | Err e, Some e' => Err (errors_Join e e')
  | _, _ => r
  end.

(** [release] runs when the body has returned, failed or panicked. *)
Definition deferred (release : rstate J → rstate J * option error) (body : RM unit) : RM unit := λ s,
  let '(s, r) := body s in
  let '(s, closed) := release s in
  (s, joined r closed).

(** What was opened is closed by a deferred call. *)
Definition with_resource (r : resource) (release : rstate J → rstate J * option error) (body : RM unit) : RM unit :=
  _ ← does (Opened r);
  deferred (λ s, let '(s, e) := release s in ((does (Closed r) s).1, e)) body.

Definition release_none (s : rstate J) : rstate J * option error := (s, None).

Definition close_environment (s : rstate J) : rstate J * option error :=
  let '(p, e) := scope_Close (proc s) in (MkRun p (store s) (done s), e).

(** [client.Close] closes the connection pool and returns nil. *)
Definition close_client (name : string) (s : rstate J) : rstate J * option error :=
  ((does (Remotes CloseRemote) s).1, Errorf_w ("close " +:+ name +:+ " client: ") <$> None).

Definition close_session_log (s : rstate J) : rstate J * option error :=
  (s, Errorf_w "close session log: " <$> close_log w).

(** The context is canceled before the tools are closed. *)
Definition close_tools (t : Tools J) (s : rstate J) : rstate J * option error :=
  ((does Canceled s).1, default None (tools.Close t)).

Definition remove_observer (id : ObserverID) (s : rstate J) : rstate J * option error :=
  ((on_store (RemoveObserver id) s).1, None).

(** ** Writers *)

Definition writes (l : list (action J)) : nat :=
  length (List.filter (λ a, match a with Wrote _ _ => true | _ => false end) l).

Definition write (to : writer) (text : string) : RM (option error) := λ s,
  ((does (Wrote to text) s).1, Ok (write_error w (writes (done s)))).

(** [io.MultiWriter]: the first writer that fails ends the write. *)
Fixpoint write_all (ws : list writer) (text : string) : RM (option error) :=
  match ws with
  | [] => mret None
  | to :: ws =>
    e ← write to text;
    match e with Some _ => mret e | None => write_all ws text end
  end.

Definition line (text : string) : string := text +:+ newline.

Definition writeSessionItem (ws : list writer) (i : SItem) : RM (option error) :=
  let n := Itoa (sitem.Sequence' i) +:+ ": " in
  match Marshal SItem_codec i with
  | Ok encoded =>
    e ← write_all ws (line (value_text encoded));
    mret (Errorf_w ("write session item " +:+ n) <$> e)
  | Err e => mret (Some (Errorf_w ("encode session item " +:+ n) e))
  | Panic t => lift (Panic t)
  end.

(** The calls of [sessionObserver.Observe], in order: [err] is the error of
    the observer so far, which also cancels the run. *)
Fixpoint observe (id : SessionID) (ws : list writer) (items : list (SessionID * SItem)) (err : option error)
    : RM (option error) :=
  match items with
  | [] => mret err
  | (session, i) :: items =>
    if negb (bool_decide (session = id)) then observe id ws items err
    else
      match err with
      | Some _ => observe id ws items err
      | None =>
        e ← writeSessionItem ws i;
        match e with
        | Some e => _ ← does Canceled; observe id ws items (Some e)
        | None => observe id ws items None
        end
      end
  end.

(** ** Before the environment is touched *)

Definition check_flags (f : flags) : result unit :=
  let narg := length (flags.args f) in
  if Nat.ltb 1 narg then Err (errors_New "expected at most one positional JSON request")
  else if bool_decide (is_Some (flags.prompt f)) && negb (Nat.eqb narg 0) then
    Err (errors_New "-p cannot be combined with a positional JSON request")
  else if flags.toolHeartbeatInterval f <? 0 then
    Err (errors_New "tool heartbeat interval must not be negative")
  else Ok tt.

Definition request_input (f : flags) : result (error + bytes) :=
  match flags.prompt f with
  | Some prompt =>
    match prompt_request prompt with
    | Some j => Ok (inr (print j))
    | None => Err (Errorf_w "encode prompt request: " json_error)
    end
  | None => Ok (match flags.args f with [arg] => inr (to_bytes arg) | _ => stdin w end)
  end.

Definition flags_of (parsed : (error * option error) + flags) : result flags :=
  match parsed with
  | inr f => Ok f
  | inl (e, None) => Err e
  | inl (e, Some usage) => Err (if errors_Is e ErrHelp then usage else errors_Join e usage)
  end.

Definition resolve_workspace (f : flags) : result string :=
  workspace ← map_err (Errorf_w "resolve workspace: ")
                (Abs (working_directory w) (TrimSpace (flags.workspaceDirectory f)));
  match Stat w workspace with
  | inl e => Err (Errorf_w "inspect workspace: " e)
  | inr false => Err (errors_New ("workspace " +:+ quote workspace +:+ " is not a directory"))
  | inr true => Ok workspace
  end.

(** ** The session and its log *)

Definition openSession (requested : option string) : RM (SessionID * ResumeState) :=
  let id := match requested with Some r => TrimSpace r | None => uuid_New w 0%nat end in
  r ← on_store (attempt (LocalStore.Resume (ctx w) (read_error w) id));
  match r with
  | Ok restored => mret (id, restored)
  | Panic t => lift (Panic t)
  | Err e =>
    if negb (errors_Is e ErrNotExist) then fail (Errorf_w ("open session " +:+ quote id +:+ ": ") e)
    else
      snapshot ← on_store (wrap_store (Errorf_w ("create session " +:+ quote id +:+ ": "))
                             (LocalStore.Create (ctx w) (clock w) id (publishing w)));
      mret (id, resumed.Mk snapshot [] [])
  end.

Definition openDatetimeLog (directory : string) : RM unit :=
  _ ← does (MadeDirectory directory);
  _ ← failing "create log directory: " (MkdirAll w directory);
  failing "open session log: " (open_log w (filepath.Join [directory; log_name w +:+ ".jsonl"])).

Definition with_log (directory : string) (body : list writer → RM unit) : RM unit :=
  let directory := TrimSpace directory in
  if blank directory then body [Stdout]
  else
    _ ← openDatetimeLog directory;
    with_resource SessionLog close_session_log (body [LogFile; Stdout]).

(** ** Tools *)

Definition runner_shell (getenv : string → string) : string := or_else (TrimSpace (getenv "SHELL")) "/bin/sh".

Definition runner_tool_config (getenv : string → string) (id : SessionID) (workspace operationDirectory : string)
    (skills : list Skill) : ToolConfig :=
  tool_config.Mk
    (statics.Mk (Some (bash_New (bash_config.Mk (runner_shell getenv) workspace operationDirectory)))
       (Some (view_New (view_config.Mk workspace (vconfig.Mk 0 0 0 0)))))
    ([BashName; ViewImageName] ++ (if decide (skills = []) then [] else [SkillUseName])) id getenv.

Fixpoint register_each (n : nat) (skills : list Skill) (r : registry) : result registry :=
  match skills with
  | [] => Ok r
  | s :: rest =>
    match RegisterSkill s (skill_id w n) r with
    | (r, Ok _) => register_each (S n) rest r
    | (_, Err e) => Err (Errorf_w ("register skill " +:+ quote (skill.Path s) +:+ ": ") e)
    | (_, Panic t) => Panic t
    end
  end.

Definition register_skills (skills : list Skill) (r : registry) : result registry :=
  if bool_decide (is_Some (Resolve r SkillUseName)) then register_each 0 skills r else Ok r.

Fixpoint warn_each (errors : list error) : RM unit :=
  match errors with
  | [] => mret tt
  | e :: errors =>
    failed ← write Stderr (line ("skill error> " +:+ Error e));
    _ ← failing "write skill error: " failed;
    warn_each errors
  end.

(** ** The inbox and the builder *)

(** [inputs.Submit]; the goroutine of the inbox has not been read from. *)
Definition submit (prefix : string) (i : Input) (s : Inbox) : result Inbox :=
  i ← map_err (Errorf_w prefix) (Inbox.Submit (ctx w) (ctx w) i);
  Ok (Inbox.run (Inbox.Received i) s).

Definition message_input (index : nat) (m : RequestMessage) : result Input :=
  payload ← map_err (Errorf_w ("encode message " +:+ Itoa (Z.of_nat index) +:+ ": "))
              (Marshal string_codec (rmessage.Content m));
  let id := match rmessage.MessageID m with Some id => TrimSpace id | None => uuid_New w (3 + index)%nat end in
  Ok (input.Mk id InputExternal payload).

Fixpoint submit_messages (index : nat) (messages : list RequestMessage) (s : Inbox) : result Inbox :=
  match messages with
  | [] => Ok s
  | m :: messages =>
    i ← message_input index m;
    s ← submit ("submit message " +:+ Itoa (Z.of_nat index) +:+ ": ") i s;
    submit_messages (S index) messages s
  end.

Definition control (prefix : string) (id : InputID) (m : ControlMessage) : result Input :=
  payload ← map_err (Errorf_w prefix) (Marshal_control m); Ok (input.Mk id InputControl payload).

Definition fill_inbox (level : string) (restored : ResumeState) (messages : list RequestMessage) : result Inbox :=
  s ← map_err (Errorf_w "open inbox: ") (Inbox.New (resumed.ExternalInputIDs restored));
  settings ← control "encode settings: " (uuid_New w 1%nat) (settings_message (reasoningEffort level));
  s ← submit "submit settings: " settings s;
  s ← submit_messages 0 messages s;
  stop ← control "encode stop request: " (uuid_New w 2%nat) stop_message;
  submit "submit stop request: " stop s.

Definition runner_builder (parsed : RunRequest) (model : string) (r : registry) : builder :=
  let b := NewBuilder (Skills r) in
  let b := SetModel (model.Mk model None (reasoningEffort (rrequest.ThinkingLevel parsed))) b in
  let b := SetSystemPrompt (default defaultSystemPrompt (rrequest.SystemPrompt parsed)) b in
  fold_left (λ b d, AddTool (definition.Tool d) b) (StaticDefinitions r) b.

(** ** Run *)

(** What the run has after its client was opened. *)
Record chosen : Type := MkChosen {
  chosen_flags : flags;
  chosen_request : RunRequest;
  chosen_messages : list RequestMessage;
  chosen_workspace : string;
  chosen_model : string;
  chosen_client : client;
}.

Definition Getenv_ : RM (string → string) := gets (λ s name, Getenv name (proc s)).

(** The coordinator runs, and the observer writes what it stores. *)
Definition run_coordinator (c : chosen) (ws : list writer) (id : SessionID) (restored : ResumeState)
    (t : Tools J) (r : registry) (inputs : Inbox) : RM unit :=
  observer ← on_store (AddObserver false (uuid_New w 0%nat));
  with_resource Observer (remove_observer observer)
    (let d := MkDependencies (flags.toolHeartbeatInterval (chosen_flags c)) id inputs restored
                (runner_builder (chosen_request c) (chosen_model c) r) (chosen_client c) r (tools.RemoteJobs t) in
     _ ← does (Coordinated d);
     let '(items, coordinatorErr) := coordinate w d in
     observerErr ← observe id ws items None;
     match observerErr with
     | Some e => fail e
     | None => failing "run coordinator: " coordinatorErr
     end).

(** From the tools on: the skills, the inbox and the coordinator. *)
Definition run_tools (c : chosen) (ws : list writer) (id : SessionID) (restored : ResumeState)
    (skills : list Skill) (skillErrors : list error) (t : Tools J) : RM unit :=
  r ← lift (register_skills skills (tools.Registry t));
  _ ← warn_each skillErrors;
  inputs ← lift (fill_inbox (rrequest.ThinkingLevel (chosen_request c)) restored (chosen_messages c));
  run_coordinator c ws id restored t r inputs.

Definition run_session (newTools : ToolFactory J) (storeDirectory : string) (c : chosen) (id : SessionID)
    (restored : ResumeState) (ws : list writer) : RM unit :=
  with_resource RunContext release_none
    (let operationDirectory := filepath.Join [storeDirectory; "operations"; id] in
     _ ← does (MadeDirectory operationDirectory);
     _ ← failing "create operation directory: " (MkdirAll w operationDirectory);
     getenv ← Getenv_;
     let '(skills, skillErrors) :=
       DiscoverSkills (glob w (filepath.Join [chosen_workspace c; ".harness"; "skills"])) (read_skill w) in
     t ← lift (newTools (runner_tool_config getenv id (chosen_workspace c) operationDirectory skills));
     with_resource RunTools (close_tools t) (run_tools c ws id restored skills skillErrors t)).

(** From the client on: the session, its log and the rest. *)
Definition run_client (newTools : ToolFactory J) (c : chosen) : RM unit :=
  getenv ← Getenv_;
  storeDirectory ← wrapped "resolve session directory: "
    (resolveSessionDirectory (flags.sessionDirectory (chosen_flags c)) getenv (working_directory w) (home_directory w));
  opened ← wrapped "open session store: "
    (match open_store w storeDirectory with inl e => Err e | inr st => Ok st end);
  _ ← modify (λ s, MkRun (proc s) opened (done s));
  '(id, restored) ← openSession (rrequest.SessionID (chosen_request c));
  with_log (flags.logDirectory (chosen_flags c)) (run_session newTools storeDirectory c id restored).

Definition run_environment (config : rconfig.Config J) (newTools : ToolFactory J) (f : flags) (parsed : RunRequest)
    (messages : list RequestMessage) (workspace : string) : RM unit :=
  getenv ← Getenv_;
  maxAttempts ← lift (resolveMaxAttempts (rrequest.MaxAttempts parsed) getenv);
  '(selected, new) ← lift (selectProvider (rconfig.Providers config)
                            (or_else (TrimSpace (getenv provider_name)) "openai"));
  let configuredBaseURL := or_else (TrimSpace (getenv base_url_name)) (rprovider.BaseURL selected) in
  model ← lift (choose_model parsed selected getenv);
  apiKey ← lift (choose_key selected getenv);
  llm ← on_connections (λ l, let '(l, r) := new apiKey configuredBaseURL maxAttempts getenv l in
                             (l, map_err (Errorf_w ("create " +:+ rprovider.Name selected +:+ " client: ")) r));
  with_resource LlmClient (close_client (rprovider.Name selected))
    (run_client newTools (MkChosen f parsed messages workspace model llm)).

Definition Run (config : rconfig.Config J) : RM unit :=
  if blank (TrimSpace (rconfig.Name config)) then fail (errors_New "runner name must be set")
  else
    match rconfig.ParseRequest config with
    | None => fail (errors_New "request parser must be set")
    | Some parse =>
      f ← lift (flags_of (parse_flags w));
      _ ← lift (check_flags f);
      input ← lift (request_input f);
      '(parsed, newTools) ← lift (parse input);
      match newTools with
      | None => fail (errors_New "request parser returned no tool factory")
      | Some newTools =>
        messages ← lift (validateRequest (uuid_Parse w) parsed);
        workspace ← lift (resolve_workspace f);
        _ ← on_proc (loadDotEnv (read_file w (filepath.Join [workspace; ".env"])) (walk w));
        with_resource Environment close_environment
          (run_environment config newTools f parsed messages workspace)
      end
    end.

(** ** The exit code *)

Definition error_event (text : string) : option json :=
  enc_struct [field string_codec "type" "error"; field string_codec "message" text].

(** Both errors of the calls are joined to the one that is reported. *)
Definition join_failure (e : error) (prefix : string) (failed : option error) : error :=
  match failed with Some e' => errors_Join e (Errorf_w prefix e') | None => e end.

Definition RunMain (config : rconfig.Config J) : RM Z := λ s,
  match Run config s with
  | (s, Panic t) => (s, Panic t)
  | (s, Ok _) => (s, Ok 0)
  | (s, Err e) =>
    if errors_Is e ErrHelp then (s, Ok 0)
    else if bool_decide (is_Some (ctx_at_end w)) then (s, Ok 130)
    else
      (e ← (match error_event (Error e) with
            | None => mret (join_failure e "encode error event: " (Some json_error))
            | Some j =>
              failed ← write Stdout (line (to_string (print j)));
              mret (join_failure e "write error event: " failed)
            end);
       let prefix := if blank (rconfig.Name config) then EmptyString else rconfig.Name config +:+ ": " in
       _ ← write Stderr (line (prefix +:+ Error e));
       mret 1) s
  end.
End Run.
