(* ===== verification/RunnerFacts.v ===== *)
(** * What every run of the agent runner leaves and starts with

    Each part of [Run] is specified once: what it does to the resources that
    are open, to the connection pools and to the variables of the process,
    and what it may give to a coordinator.  The rules take the monad and the
    deferred calls apart; the theorems read the result off [Run]. *)

From Stdlib Require Import Ascii ZArith Lia.
From S2P Require Import Prelude GoStrings GoText Json JsonCodec Operation Llm Inbox RunInputs Tool Registry.
From S2P Require Import ContextBuilder SessionStore LocalStore ResponsesExchange ResponsesStream.
From S2P Require Import Clients DotEnv RunnerRequest Runner.

Local Open Scope Z_scope.

Section Facts.
Context {J : Type} (w : world J).

(** ** Records of actions *)

(** The resources that are open while the coordinator runs: the log is
    optional. *)
Definition running_resources (open : list resource) : bool :=
  bool_decide (open = [Observer; RunTools; RunContext; LlmClient; Environment])
  || bool_decide (open = [Observer; RunTools; RunContext; SessionLog; LlmClient; Environment]).

(** The resources left open, the last one first; none when one is closed that
    is not the last one opened, or the coordinator runs without them. *)
Fixpoint bracket (l : list (action J)) (open : list resource) : option (list resource) :=
  match l with
  | [] => Some open
  | Opened r :: l => bracket l (r :: open)
  | Closed r :: l =>
    match open with
    | r' :: open => if decide (r = r') then bracket l open else None
    | [] => None
    end
  | Coordinated _ :: l => if running_resources open then bracket l open else None
  | _ :: l => bracket l open
  end.

(** Connection pools opened and not closed. *)
Fixpoint pools (l : list (action J)) : Z :=
  match l with
  | [] => 0
  | Remotes (NewRemote _) :: l => pools l + 1
  | Remotes CloseRemote :: l => pools l - 1
  | _ :: l => pools l
  end.

Lemma bracket_app l k open : bracket (l ++ k) open = bracket l open ≫= bracket k.
Proof.
  revert open. induction l as [|a l IH]; intros open; [done|].
  destruct a as [r|r|c|p| |to t|d]; simpl; try apply IH.
  - destruct open as [|r' open]; [done|]. destruct (decide _); [apply IH|done].
  - destruct (running_resources open); [apply IH|done].
Qed.

Lemma pools_app l k : pools (l ++ k) = pools l + pools k.
Proof. induction l as [|a l IH]; [done|]. destruct a as [r|r|[b|]|p| |to t|d]; simpl; rewrite ?IH; lia. Qed.

Lemma remotes_neutral (l : list connection) open :
  bracket (Remotes <$> l) open = Some open ∧ pools (Remotes <$> l) = open_remotes l.
Proof.
  induction l as [|c l [IH1 IH2]]; [done|]. rewrite fmap_cons. unfold open_remotes in *.
  destruct c; simpl; split; (exact IH1 || lia).
Qed.

(** ** Specifications *)

Context (good : dependencies J → Prop).

Definition allowed (a : action J) : Prop := match a with Coordinated d => good d | _ => True end.

(** A part that adds to the record what is balanced at [open], opens [n] pools
    more than it closes, and keeps the variables of the process. *)
Definition effects (open : list resource) (n : Z) (s s' : rstate J) : Prop :=
  proc s' = proc s ∧
  ∃ l, done s' = done s ++ l ∧ bracket l open = Some open ∧ pools l = n ∧ Forall allowed l.

Definition spec {A} (open : list resource) (m : M (rstate J) A) (Q : A → Prop) : Prop :=
  ∀ s, effects open 0 s (m s).1 ∧ ∀ a, (m s).2 = Ok a → Q a.

Lemma effects_refl open s : effects open 0 s s.
Proof. split; [done|]. exists []. by rewrite app_nil_r. Qed.

Lemma effects_trans open n k s1 s2 s3 : effects open n s1 s2 → effects open k s2 s3 → effects open (n + k) s1 s3.
Proof.
  intros [Hp1 (l1 & H1 & Hb1 & Hn1 & Ha1)] [Hp2 (l2 & H2 & Hb2 & Hn2 & Ha2)]. split; [congruence|].
  exists (l1 ++ l2). rewrite H2, H1, (assoc_L app). split; [done|].
  rewrite bracket_app, Hb1, pools_app. split; [done|]. split; [lia|]. by apply Forall_app.
Qed.

Lemma spec_mono {A} open (m : M (rstate J) A) (Q Q' : A → Prop) :
  spec open m Q → (∀ a, Q a → Q' a) → spec open m Q'.
Proof. intros H HQ s. destruct (H s) as [H1 H2]. eauto. Qed.

Lemma spec_bind {A T} open (m : M (rstate J) A) (f : A → M (rstate J) T) Q Q' :
  spec open m Q → (∀ a, Q a → spec open (f a) Q') → spec open (m ≫= f) Q'.
Proof.
  intros Hm Hf s. destruct (Hm s) as [H1 H2]. unfold mbind, M_bind.
  destruct (m s) as [s1 [a|e|t]]; [|done..]. destruct (Hf a (H2 a eq_refl) s1) as [H3 H4].
  split; [|done]. by apply (effects_trans open 0 0 s s1).
Qed.

Lemma spec_ret {A} open (a : A) (Q : A → Prop) : Q a → spec open (mret a) Q.
Proof. intros H s. split; [apply effects_refl|]. by intros ? [= <-]. Qed.

Lemma spec_lift {A} open (r : result A) (Q : A → Prop) : (∀ a, r = Ok a → Q a) → spec open (lift r) Q.
Proof. intros H s. split; [apply effects_refl|done]. Qed.

Lemma spec_fail {A} open e (Q : A → Prop) : spec open (fail e) Q.
Proof. by apply (spec_lift open (Err e)). Qed.

Lemma spec_lift_ok {A} open (r : result A) : spec open (lift r) (λ a, r = Ok a).
Proof. by apply spec_lift. Qed.

Lemma spec_wrapped {A} open prefix (r : result A) : spec open (wrapped prefix r) (λ a, r = Ok a).
Proof. apply spec_lift. by intros a Ha%map_err_ok. Qed.

Lemma spec_gets {A} open (f : rstate J → A) : spec open (gets f) (λ _, True).
Proof. intros s. split; [apply effects_refl|done]. Qed.

Lemma spec_on_store {A} open (m : M Store A) : spec open (on_store m) (λ _, True).
Proof.
  intros s. split; [|done]. unfold on_store. destruct (m (store s)). split; [done|]. exists [].
  by rewrite app_nil_r.
Qed.

Lemma spec_failing open prefix e : spec open (failing prefix e) (λ _, True).
Proof. destruct e; [apply spec_fail|by apply spec_ret]. Qed.

(** An action that opens and closes nothing. *)
Lemma spec_does open a :
  (match a with Wrote _ _ | MadeDirectory _ | Canceled => True | Coordinated d => good d ∧ running_resources open = true
   | _ => False end) → spec open (does a) (λ _, True).
Proof.
  intros Ha s. split; [|done]. split; [done|]. exists [a]. split; [done|].
  destruct a; try done; simpl; [split_and!; auto using Forall_nil, Forall_cons..|].
  destruct Ha as [Hg ->]. split_and!; auto.
Qed.

Lemma with_resource_eq r release body (s : rstate J) :
  with_resource r release body s =
    let '(s1, res) := body (MkRun (proc s) (store s) (done s ++ [Opened r])) in
    let '(s2, closed) := release s1 in
    (MkRun (proc s2) (store s2) (done s2 ++ [Closed r]), joined res closed).
Proof.
  unfold with_resource, deferred, does, mbind, M_bind, modify.
  destruct (body _) as [s1 res]. by destruct (release s1).
Qed.

(** A resource that is opened, used and closed in every case. *)
Lemma with_resource_effects open r n release body s :
  (∀ s, effects (r :: open) n s (release s).1) → (∀ s, effects (r :: open) 0 s (body s).1) →
  effects open n s (with_resource r release body s).1.
Proof.
  intros Hr Hb. rewrite with_resource_eq. set (s0 := MkRun (proc s) (store s) (done s ++ [Opened r])). specialize (Hb s0).
  destruct (body s0) as [s1 res]. specialize (Hr s1). destruct (release s1) as [s2 closed]. simpl in *.
  destruct Hb as [Hp1 (l1 & H1 & Hb1 & Hn1 & Ha1)], Hr as [Hp2 (l2 & H2 & Hb2 & Hn2 & Ha2)].
  split; [simpl; by rewrite Hp2, Hp1|]. exists ([Opened r] ++ (l1 ++ l2) ++ [Closed r]). simpl.
  rewrite H2, H1. unfold s0. simpl. rewrite <- !(assoc_L app). split; [done|].
  rewrite !bracket_app, Hb1. simpl. rewrite bracket_app, Hb2. simpl. rewrite decide_True by done.
  rewrite !pools_app. simpl. split_and!; [done|lia|]. constructor; [done|].
  rewrite !Forall_app. split_and!; [done..|]. by constructor.
Qed.

Lemma spec_with_resource open r release body :
  (∀ s, effects (r :: open) 0 s (release s).1) → spec (r :: open) body (λ _, True) →
  spec open (with_resource r release body) (λ _, True).
Proof. intros Hr Hb s. split; [|done]. apply with_resource_effects; [done|]. intros s'. apply Hb. Qed.

(** *** What is released *)

Lemma release_none_effects open s : effects open 0 s (release_none s).1.
Proof. apply effects_refl. Qed.

Lemma close_tools_effects (t : Tools J) open s : effects open 0 s (close_tools t s).1.
Proof. exact (proj1 (spec_does open Canceled I s)). Qed.

Lemma remove_observer_effects id open s : effects open 0 s (remove_observer id s).1.
Proof. exact (proj1 (spec_on_store open (RemoveObserver id) s)). Qed.

Lemma close_client_effects name open s : effects open (-1) s (close_client name s).1.
Proof. split; [done|]. exists [Remotes CloseRemote]. by repeat constructor. Qed.

(** ** The parts of a run *)

Lemma spec_write open to text : spec open (write w to text) (λ _, True).
Proof. intros s. split; [|done]. exact (proj1 (spec_does open (Wrote to text) I s)). Qed.

Lemma spec_write_all open ws text : spec open (write_all w ws text) (λ _, True).
Proof.
  induction ws as [|to ws IH]; [by apply spec_ret|]. simpl. eapply spec_bind; [apply spec_write|].
  intros [e|] _; [by apply spec_ret|exact IH].
Qed.

Lemma spec_writeSessionItem open ws i : spec open (writeSessionItem w ws i) (λ _, True).
Proof.
  unfold writeSessionItem. cbv zeta. destruct (Marshal SItem_codec i); [|by apply spec_ret|by apply spec_lift].
  eapply spec_bind; [apply spec_write_all|]. intros e _. by apply spec_ret.
Qed.

Lemma spec_observe open id ws items err : spec open (observe w id ws items err) (λ _, True).
Proof.
  revert err. induction items as [|[session i] items IH]; intros err; [by apply spec_ret|]. simpl.
  destruct (negb _); [apply IH|]. destruct err; [apply IH|].
  eapply spec_bind; [apply spec_writeSessionItem|]. intros [e|] _; [|apply IH].
  eapply spec_bind; [by apply spec_does|]. intros _ _. apply IH.
Qed.

Lemma spec_warn_each open errors : spec open (warn_each w errors) (λ _, True).
Proof.
  induction errors as [|e errors IH]; [by apply spec_ret|]. simpl.
  eapply spec_bind; [apply spec_write|]. intros failed _.
  eapply spec_bind; [apply spec_failing|]. intros _ _. exact IH.
Qed.

(** The session that was asked for, or a new one. *)
Definition session_for (requested : option string) (id : SessionID) : Prop :=
  ∀ r, requested = Some r → id = TrimSpace r.

Lemma spec_openSession open requested : spec open (openSession w requested) (λ p, session_for requested p.1).
Proof.
  assert (session_for requested (match requested with Some r => TrimSpace r | None => uuid_New w 0%nat end)) as Hid
    by by intros r ->.
  unfold openSession. cbv zeta. eapply spec_bind; [apply spec_on_store|]. intros [restored|e|t] _.
  - by apply spec_ret.
  - destruct (negb _); [apply spec_fail|]. eapply spec_bind; [apply spec_on_store|]. intros snapshot _. by apply spec_ret.
  - by apply spec_lift.
Qed.

Lemma spec_openDatetimeLog open directory : spec open (openDatetimeLog w directory) (λ _, True).
Proof.
  unfold openDatetimeLog. eapply spec_bind; [by apply spec_does|]. intros _ _.
  eapply spec_bind; [apply spec_failing|]. intros _ _. apply spec_failing.
Qed.

Lemma spec_with_log open directory body :
  (∀ ws, spec open (body ws) (λ _, True)) → (∀ ws, spec (SessionLog :: open) (body ws) (λ _, True)) →
  spec open (with_log w directory body) (λ _, True).
Proof.
  intros H1 H2. unfold with_log. cbv zeta. destruct (blank _); [apply H1|].
  eapply spec_bind; [apply spec_openDatetimeLog|]. intros _ _.
  apply spec_with_resource; [|apply H2]. intros s. apply effects_refl.
Qed.

(** The resources around a coordinator. *)
Definition around (open : list resource) : Prop :=
  running_resources (Observer :: RunTools :: RunContext :: open) = true.

Lemma spec_run_coordinator open c ws id restored t r inputs :
  around open →
  good (MkDependencies (flags.toolHeartbeatInterval (chosen_flags c)) id inputs restored
          (runner_builder (chosen_request c) (chosen_model c) r) (chosen_client c) r (tools.RemoteJobs t)) →
  spec (RunTools :: RunContext :: open) (run_coordinator w c ws id restored t r inputs) (λ _, True).
Proof.
  intros Hopen Hgood. unfold run_coordinator. eapply spec_bind; [apply spec_on_store|]. intros observer _.
  apply spec_with_resource; [intros s; apply remove_observer_effects|]. cbv zeta.
  eapply spec_bind; [by apply spec_does|]. intros _ _. destruct (coordinate w _) as [items err].
  eapply spec_bind; [apply spec_observe|]. intros [e|] _; [apply spec_fail|apply spec_failing].
Qed.

Lemma spec_run_tools open c ws id restored skills errors t :
  around open →
  (∀ r inputs, register_skills w skills (tools.Registry t) = Ok r →
     fill_inbox w (rrequest.ThinkingLevel (chosen_request c)) restored (chosen_messages c) = Ok inputs →
     good (MkDependencies (flags.toolHeartbeatInterval (chosen_flags c)) id inputs restored
             (runner_builder (chosen_request c) (chosen_model c) r) (chosen_client c) r (tools.RemoteJobs t))) →
  spec (RunTools :: RunContext :: open) (run_tools w c ws id restored skills errors t) (λ _, True).
Proof.
  intros Hopen Hgood. unfold run_tools. eapply spec_bind; [apply spec_lift_ok|]. intros r Hr.
  eapply spec_bind; [apply spec_warn_each|]. intros _ _.
  eapply spec_bind; [apply spec_lift_ok|]. intros inputs Hi. apply spec_run_coordinator; auto.
Qed.

(** What a coordinator of the run is given: the tools of the factory with the
    skills that were found, the inbox and the builder of the request. *)
Definition starts (newTools : ToolFactory J) (c : chosen) (d : dependencies J) : Prop :=
  session_for (rrequest.SessionID (chosen_request c)) (dep_session d) ∧
  ∃ getenv directory skills t r,
    newTools (runner_tool_config getenv (dep_session d) (chosen_workspace c) directory skills) = Ok t ∧
    register_skills w skills (tools.Registry t) = Ok r ∧
    fill_inbox w (rrequest.ThinkingLevel (chosen_request c)) (dep_restored d) (chosen_messages c) = Ok (dep_inbox d) ∧
    d = MkDependencies (flags.toolHeartbeatInterval (chosen_flags c)) (dep_session d) (dep_inbox d) (dep_restored d)
          (runner_builder (chosen_request c) (chosen_model c) r) (chosen_client c) r (tools.RemoteJobs t).

Lemma spec_run_session open newTools directory c id restored ws :
  around open → session_for (rrequest.SessionID (chosen_request c)) id → (∀ d, starts newTools c d → good d) →
  spec open (run_session w newTools directory c id restored ws) (λ _, True).
Proof.
  intros Hopen Hid Hgood. apply spec_with_resource; [intros s; apply effects_refl|].
  eapply spec_bind; [by apply spec_does|]. intros _ _.
  eapply spec_bind; [apply spec_failing|]. intros _ _.
  eapply spec_bind; [apply spec_gets|]. intros getenv _.
  destruct (DiscoverSkills _ _) as [skills errors].
  eapply spec_bind; [apply spec_lift_ok|]. intros t Ht.
  apply spec_with_resource; [intros s; apply close_tools_effects|].
  apply spec_run_tools; [done|]. intros r inputs Hr Hi. apply Hgood.
  split; [exact Hid|]. exists getenv, (filepath.Join [directory; "operations"; id]), skills, t, r.
  split; [exact Ht|]. split; [exact Hr|]. split; [exact Hi|reflexivity].
Qed.

Lemma spec_modify_store open (f : rstate J → Store) :
  spec open (modify (λ s, MkRun (proc s) (f s) (done s))) (λ _, True).
Proof. intros s. split; [|done]. split; [done|]. exists []. by rewrite app_nil_r. Qed.

Lemma spec_run_client newTools c :
  (∀ d, starts newTools c d → good d) →
  spec [LlmClient; Environment] (run_client w newTools c) (λ _, True).
Proof.
  intros Hgood. unfold run_client. eapply spec_bind; [apply spec_gets|]. intros getenv _.
  eapply spec_bind; [apply spec_wrapped|]. intros directory _.
  eapply spec_bind; [apply spec_wrapped|]. intros opened _.
  eapply spec_bind; [apply (spec_modify_store _ (λ _, opened))|]. intros _ _.
  eapply spec_bind; [apply spec_openSession|]. intros [id restored] Hid.
  apply spec_with_log; intros ws; by apply spec_run_session.
Qed.

Lemma opens_one_wrapped wrap m n :
  opens_one m n → opens_one (λ l, let '(l, r) := m l in (l, map_err wrap r)) n.
Proof. intros H l. specialize (H l). destruct (m l) as [l' [c|e|t]]; exact H. Qed.

Lemma spec_client open name m n (body : client → M (rstate J) unit) :
  opens_one m n →
  (∀ c, adapter.maxAttempts (adapter_of c) = n → 0 < n → spec (LlmClient :: open) (body c) (λ _, True)) →
  spec open (c ← on_connections m; with_resource LlmClient (close_client name) (body c)) (λ _, True).
Proof.
  intros Hm Hbody s. split; [|done]. unfold mbind, M_bind, on_connections. specialize (Hm []).
  destruct (m []) as [l r]. destruct (remotes_neutral l open) as [Hb Hp].
  assert (Forall allowed (Remotes <$> l)) as Ha by (apply Forall_fmap; by apply Forall_true).
  set (s1 := MkRun (proc s) (store s) (done s ++ (Remotes <$> l))).
  assert (effects open (open_remotes l) s s1) as Hs by (split; [done|]; by exists (Remotes <$> l)).
  destruct r as [c|e|t]; [|by rewrite Hm in Hs|done].
  destruct Hm as (Hl & Hn & Hpos). rewrite Hl in Hs. simpl in Hs.
  apply (effects_trans open 1 (-1) s s1); [exact Hs|].
  apply with_resource_effects; [intros s'; apply close_client_effects|]. intros s'. by apply Hbody.
Qed.

Lemma spec_run_environment config newTools f parsed messages workspace :
  (∀ p new key base n getenv, p ∈ rconfig.Providers config → rprovider.NewClient p = Some new →
     opens_one (new key base n getenv) n) →
  (∀ p getenv model llm d, choose_model parsed p getenv = Ok model →
     resolveMaxAttempts (rrequest.MaxAttempts parsed) getenv = Ok (adapter.maxAttempts (adapter_of llm)) →
     0 < adapter.maxAttempts (adapter_of llm) →
     starts newTools (MkChosen f parsed messages workspace model llm) d → good d) →
  spec [Environment] (run_environment w config newTools f parsed messages workspace) (λ _, True).
Proof.
  intros Hopens Hgood. unfold run_environment. eapply spec_bind; [apply spec_gets|]. intros getenv _.
  eapply spec_bind; [apply spec_lift_ok|]. intros n Hattempts.
  eapply spec_bind; [apply spec_lift_ok|]. intros [p new] Hp. cbv zeta.
  eapply spec_bind; [apply spec_lift_ok|]. intros model Hmodel.
  eapply spec_bind; [apply spec_lift_ok|]. intros key _.
  apply (spec_client _ _ _ n); [apply opens_one_wrapped|].
  - unfold selectProvider in Hp. destruct (find _ _) as [q|] eqn:Ef; [|done].
    apply find_some in Ef as [Hin _]. apply list_elem_of_In in Hin.
    destruct (rprovider.NewClient q) as [new'|] eqn:En; [|done]. injection Hp as <- <-. by eapply Hopens.
  - intros llm Hn Hpos. apply spec_run_client. intros d Hd. eapply Hgood; [exact Hmodel|by rewrite Hn|by rewrite Hn|exact Hd].
Qed.

(** ** The whole run *)

(** The request that the user gave: the prompt of -p, the argument, or else
    what the standard input holds. *)
Definition given (f : flags) (input : error + bytes) : Prop :=
  match flags.prompt f with
  | Some prompt => flags.args f = [] ∧ ∃ j, prompt_request prompt = Some j ∧ input = inr (print j)
  | None => (∃ arg, flags.args f = [arg] ∧ input = inr (to_bytes arg)) ∨ flags.args f = [] ∧ input = stdin w
  end.

Lemma request_input_given f input : check_flags f = Ok tt → request_input w f = Ok input → given f input.
Proof.
  unfold check_flags, request_input, given. cbv zeta. destruct (Nat.ltb_spec 1 (length (flags.args f))) as [|Hn]; [done|].
  destruct (flags.prompt f) as [p|].
  - simpl. destruct (flags.args f); [|done]. intros _. destruct (prompt_request p) as [j|]; [|done].
    intros [= <-]. split; [done|]. by exists j.
  - intros _ [= <-]. destruct (flags.args f) as [|arg [|]]; [by right| |simpl in Hn; lia]. left. by exists arg.
Qed.

(** What a run of a configuration may start a coordinator with. *)
Definition requested (config : rconfig.Config J) (d : dependencies J) : Prop :=
  ∃ parse input parsed newTools f messages workspace p getenv model llm,
    rconfig.ParseRequest config = Some parse ∧ parse_flags w = inr f ∧ given f input ∧
    parse input = Ok (parsed, Some newTools) ∧
    check_flags f = Ok tt ∧ validateRequest (uuid_Parse w) parsed = Ok messages ∧
    choose_model parsed p getenv = Ok model ∧
    resolveMaxAttempts (rrequest.MaxAttempts parsed) getenv = Ok (adapter.maxAttempts (adapter_of llm)) ∧
    0 < adapter.maxAttempts (adapter_of llm) ∧
    starts newTools (MkChosen f parsed messages workspace model llm) d.

Definition providers_open (config : rconfig.Config J) : Prop :=
  ∀ p new key base n getenv, p ∈ rconfig.Providers config → rprovider.NewClient p = Some new →
    opens_one (new key base n getenv) n.

(** Nothing is left: the environment of the start, no resource, no pool. *)
Definition unwound (start : gmap string string) (s : rstate J) : Prop :=
  proc s = MkProcess start [] ∧ bracket (done s) [] = Some [] ∧ pools (done s) = 0 ∧ Forall allowed (done s).

Lemma lift_unwound {A T} start (r : result A) (k : A → M (rstate J) T) s :
  unwound start s → (∀ a, r = Ok a → unwound start (k a s).1) → unwound start ((lift r ≫= k) s).1.
Proof. intros Hs Hk. unfold mbind, M_bind, lift. destruct r; [by apply Hk|done..]. Qed.

Lemma environment_unwound start st p body :
  undoes start p → spec [Environment] body (λ _, True) →
  unwound start (with_resource Environment close_environment body (MkRun p st [])).1.
Proof.
  intros Hu Hb. rewrite with_resource_eq. set (s0 := MkRun _ _ _). destruct (Hb s0) as [He _].
  destruct (body s0) as [s1 res]. destruct He as [Hp (l & Hl & Hbr & Hpl & Ha)]. simpl in *.
  unfold close_environment. rewrite Hp. unfold s0. simpl. rewrite Hu. unfold unwound. simpl.
  rewrite Hl. unfold s0. simpl. rewrite bracket_app, Hbr, pools_app. simpl. split_and!; [done..|lia|].
  constructor; [done|]. apply Forall_app. split; [done|by constructor].
Qed.

Lemma Run_unwound config start st :
  environ_ok start → (∀ l, walk w l ≡ₚ l) → providers_open config → (∀ d, requested config d → good d) →
  unwound start (Run w config (MkRun (MkProcess start []) st [])).1.
Proof.
  intros Hok Hwalk Hopens Hgood. set (s := MkRun _ _ _).
  assert (unwound start s) as Hs by done.
  unfold Run. destruct (blank _); [done|]. destruct (rconfig.ParseRequest config) as [parse|] eqn:Hparse; [|done].
  apply lift_unwound; [done|]. intros f Hflags. apply lift_unwound; [done|]. intros [] Hf.
  apply lift_unwound; [done|]. intros input Hinput. apply lift_unwound; [done|]. intros [parsed newTools] Hp.
  destruct newTools as [newTools|]; [|done].
  apply lift_unwound; [done|]. intros messages Hm. apply lift_unwound; [done|]. intros workspace _.
  unfold mbind, M_bind, on_proc. change (proc s) with (MkProcess start []).
  destruct (loadDotEnv_cases start (read_file w (filepath.Join [workspace; ".env"])) (walk w) Hok Hwalk)
    as [(p & -> & Hu & _)|(e & ->)]; [|done].
  apply environment_unwound; [done|]. apply spec_run_environment; [done|].
  intros p' getenv model llm d Hmodel Hn Hpos Hd. apply Hgood.
  assert (parse_flags w = inr f) as Hp'.
  { unfold flags_of in Hflags. destruct (parse_flags w) as [[e [u|]]|f']; [done|done|by injection Hflags as ->]. }
  exists parse, input, parsed, newTools, f, messages, workspace, p', getenv, model, llm.
  split; [done|]. split; [done|]. split; [by apply request_input_given|]. done.
Qed.
End Facts.

(** C13: A run of the agent runner unwinds.  Whatever the flags, the request,
    the files and the network answer, and however the run ends, by an error or
    a panic too: the environment of the process is as it was, every resource
    that was opened was closed once, in the reverse order, the coordinator ran
    only while all of them were open, and no connection pool is left. *)
Theorem run_unwinds {J} (w : world J) config start st :
  environ_ok start → (∀ l, walk w l ≡ₚ l) → providers_open config →
  let '(s, _) := Run w config (MkRun (MkProcess start []) st []) in
  proc s = MkProcess start [] ∧ bracket (done s) [] = Some [] ∧ pools (done s) = 0.
Proof.
  intros Hok Hwalk Hopens. destruct (Run_unwound w (λ _, True) config start st) as (H1 & H2 & H3 & _); [done..|].
  by destruct (Run w config _) as [s r].
Qed.

(** ** What a coordinator is started with *)

Lemma RegisterSkill_enabled s id r : enabled (RegisterSkill s id r).1 = enabled r.
Proof.
  unfold RegisterSkill. destruct (validateSkill s); [|done..]. destruct (bool_decide _); [done|].
  by destruct (existsb _ _).
Qed.

Lemma register_skills_enabled {J} (w : world J) skills r r' :
  register_skills w skills r = Ok r' → enabled r' = enabled r.
Proof.
  unfold register_skills. destruct (bool_decide _); [|by intros [= <-]]. generalize 0%nat.
  revert r. induction skills as [|s skills IH]; intros r n; [by intros [= <-]|]. simpl.
  pose proof (RegisterSkill_enabled s (skill_id w n) r) as He.
  destruct (RegisterSkill s (skill_id w n) r) as [r1 [id|e|t]]; [|done..].
  intros H%IH. simpl in He. congruence.
Qed.

Lemma not_enabled_unresolved r name : name ∉ enabled r → Resolve r name = None.
Proof. intros Hn. unfold Resolve. destruct (staticTranslators r name); [|done]. by rewrite bool_decide_false. Qed.

(** The input of a message: its text, under its identifier if it has one. *)
Definition input_of (m : RequestMessage) (i : Input) : Prop :=
  input.Kind i = InputExternal ∧ input.Payload i = VText (JStr (rmessage.Content m)) ∧
  ∀ id, rmessage.MessageID m = Some id → input.ID i = TrimSpace id.

Lemma submit_ok {J} (w : world J) prefix i s s' :
  submit w prefix i s = Ok s' → s' = Inbox.run (Inbox.Received i) s.
Proof. unfold submit. intros (i' & ->%map_err_ok%Submit_same & [= <-])%bind_ok. done. Qed.

Lemma message_input_of {J} (w : world J) n m i : message_input w n m = Ok i → input_of m i.
Proof.
  unfold message_input. intros (payload & Hp%map_err_ok & [= <-])%bind_ok.
  unfold Marshal in Hp. simpl in Hp. destruct (string_ok _); [|done]. injection Hp as <-.
  split; [done|]. split; [done|]. intros id Hid. simpl. by rewrite Hid.
Qed.

Lemma submit_messages_ok {J} (w : world J) n messages s s' :
  submit_messages w n messages s = Ok s' →
  ∃ inputs, Forall2 input_of messages inputs ∧ s' = run_all (Inbox.Received <$> inputs) s.
Proof.
  revert n s. induction messages as [|m messages IH]; intros n s; simpl.
  - intros [= <-]. by exists [].
  - intros (i & Hi%message_input_of & (s1 & ->%submit_ok & (inputs & Hf & ->)%IH)%bind_ok)%bind_ok.
    exists (i :: inputs). split; [by constructor|done].
Qed.

Lemma control_decodes prefix id m i : well_formed m → control prefix id m = Ok i → DecodeControlMessage i = Ok m.
Proof.
  intros Hwf (v & Hv%map_err_ok & [= <-])%bind_ok. by apply DecodeControl_marshalled.
Qed.

Lemma reasoningEffort_valid level : Valid (reasoningEffort level) = true.
Proof. unfold reasoningEffort. by repeat destruct (bool_decide _). Qed.

(** The inbox that the messages of a request fill. *)
Definition filled (level : string) (restored : ResumeState) (messages : list RequestMessage) (s : Inbox) : Prop :=
  ∃ settings inputs stop,
    DecodeControlMessage settings = Ok (settings_message (reasoningEffort level)) ∧
    Forall2 input_of messages inputs ∧ DecodeControlMessage stop = Ok stop_message ∧
    inbox_of (resumed.ExternalInputIDs restored) ([settings] ++ inputs ++ [stop]) s.

Lemma fill_inbox_filled {J} (w : world J) level restored messages s :
  fill_inbox w level restored messages = Ok s → filled level restored messages s.
Proof.
  unfold fill_inbox. intros (s0 & Hs0%map_err_ok & H)%bind_ok. apply bind_ok in H as (settings & H1 & H).
  apply bind_ok in H as (s1 & ->%submit_ok & H).
  apply bind_ok in H as (s2 & (inputs & Hin & ->)%submit_messages_ok & H).
  apply bind_ok in H as (stop & H2 & ->%submit_ok).
  exists settings, inputs, stop. split; [|split; [done|split]].
  - eapply control_decodes; [|exact H1]. right. split; [done|]. eexists. split; [done|]. apply reasoningEffort_valid.
  - eapply control_decodes; [|exact H2]. left. split; [by right; left|done].
  - replace (Inbox.run _ _) with (run_all (Inbox.Received <$> ([settings] ++ inputs ++ [stop])) s0);
      [by apply New_received|].
    rewrite !fmap_app. unfold run_all. by rewrite !fold_left_app.
Qed.

(** The request that a coordinator serves, under the flags of the run. *)
Definition serves (f : flags) (parsed : RunRequest) (messages : list RequestMessage) {J} (d : dependencies J) : Prop :=
  filled (rrequest.ThinkingLevel parsed) (dep_restored d) messages (dep_inbox d) ∧
  session_for (rrequest.SessionID parsed) (dep_session d) ∧
  (∀ name, name ∈ rrequest.DisallowedTools parsed → Resolve (dep_registry d) name = None) ∧
  (∃ model, model ≠ EmptyString ∧
     (TrimSpace (rrequest.Model parsed) ≠ EmptyString → model = TrimSpace (rrequest.Model parsed)) ∧
     dep_builder d = runner_builder parsed model (dep_registry d)) ∧
  dep_heartbeat d = flags.toolHeartbeatInterval f ∧ 0 ≤ dep_heartbeat d ∧
  0 < adapter.maxAttempts (adapter_of (dep_client d)) ∧
  (∀ n, rrequest.MaxAttempts parsed = Some n → adapter.maxAttempts (adapter_of (dep_client d)) = n) ∧
  dep_jobs d = [].

Lemma choose_model_ok parsed p getenv model :
  choose_model parsed p getenv = Ok model →
  model ≠ EmptyString ∧ (TrimSpace (rrequest.Model parsed) ≠ EmptyString → model = TrimSpace (rrequest.Model parsed)).
Proof.
  unfold choose_model. cbv zeta. destruct (blank _) eqn:E; [done|]. intros [= <-]. split; [by apply blank_false|].
  intros H%blank_false. unfold or_else. by rewrite !H.
Qed.

Lemma resolveMaxAttempts_ok requested getenv n :
  resolveMaxAttempts requested getenv = Ok n → ∀ k, requested = Some k → n = k.
Proof.
  unfold resolveMaxAttempts. intros (m & Hm & H)%bind_ok k ->. injection Hm as ->.
  destruct (_ <=? _); [done|]. by injection H.
Qed.

Lemma requested_serves {J} (w : world J) m d :
  requested w (main_config m) d →
  ∃ f input parsed messages, parse_flags w = inr f ∧ given w f input ∧ DecodeRequest input = Ok parsed ∧
    validateRequest (uuid_Parse w) parsed = Ok messages ∧ serves f parsed messages d.
Proof.
  intros (parse & input & parsed & newTools & f & messages & workspace & p & getenv & model & llm & [= <-] & Hfl & Hin
          & Hp & Hf & Hm & Hb & Hn & Hpos & Hses & getenv' & directory & skills & t & r & Ht & Hr & Hi & ->).
  apply bind_ok in Hp as (parsed' & Hdec & [= <- <-]). injection Ht as <-.
  exists f, input, parsed', messages. do 4 (split; [done|]). simpl in *. split_and!; simpl; [|exact Hses|..].
  - by eapply fill_inbox_filled.
  - intros name Hname. apply not_enabled_unresolved. rewrite (register_skills_enabled _ _ _ _ Hr). simpl.
    unfold EnabledTools. rewrite elem_of_list_to_set, list_elem_of_filter. tauto.
  - destruct (choose_model_ok _ _ _ _ Hb). by exists model.
  - done.
  - unfold check_flags in Hf. cbv zeta in Hf. destruct (Nat.ltb 1 _); [done|]. destruct (_ && _); [done|].
    destruct (Z.ltb_spec (flags.toolHeartbeatInterval f) 0); [done|]. lia.
  - done.
  - by eapply resolveMaxAttempts_ok.
  - done.
Qed.

Lemma main_providers_open {J} (m : machine) : providers_open (@main_config J m).
Proof. intros p new key base n getenv. apply default_clients_open. Qed.

(** C15: The coordinator of unreal-agent-runner serves the request.  Whatever
    the world answers: when a coordinator is started, the flags were read, and
    the request that the user gave (the prompt of -p, else the argument, else
    the standard input) was decoded and is valid.  The session is the one that
    the request names, if it names one; the inbox holds the settings with the
    effort of the request, its messages in order and last the order to stop
    when idle, less what the session already has; no tool that the request
    disallows can be resolved; the builder has the request's model, or a default
    when it names none, its prompt and the tools of the registry; the heartbeat
    is that of the flags; the client tries as often as the request says, and at
    least once. *)
Theorem coordinator_serves_request {J} (w : world J) m start st d :
  environ_ok start → (∀ l, walk w l ≡ₚ l) →
  Coordinated d ∈ done (Run w (main_config m) (MkRun (MkProcess start []) st [])).1 →
  ∃ f input parsed messages, parse_flags w = inr f ∧ given w f input ∧ DecodeRequest input = Ok parsed ∧
    validateRequest (uuid_Parse w) parsed = Ok messages ∧ serves f parsed messages d.
Proof.
  intros Hok Hwalk Hd.
  destruct (Run_unwound w (requested w (main_config m)) (main_config m) start st) as (_ & _ & _ & Ha);
    [done|done|apply main_providers_open|done|].
  rewrite Forall_forall in Ha. exact (requested_serves w m d (Ha _ Hd)).
Qed.

(** ** A run *)

Definition sample_item : SItem :=
  sitem.Mk 1 GoTime.Time_zero ItemInput (StoreInput (input.Mk "m1" InputExternal (VText (JStr "hello")))).

Definition sample_machine : machine :=
  MkMachine (λ _, None) (λ _, inl (errors_New "no file")) 0 (inr "/root").

(** A world in which the .env file holds the key of the provider and the
    coordinator stores one item before it stops. *)
Definition sample_world : world unit := {|
  parse_flags := inr (flags.Mk None EmptyString "." "/logs" 600
    [to_string (print (JObj [("prompt", JStr "hello"); ("disallowed_tools", JArr [JStr "Bash"])]))]);
  stdin := inr [];
  uuid_Parse _ := true;
  working_directory := inr "/work";
  Stat _ := inr true;
  read_file _ := inl (to_bytes "OPENAI_API_KEY=sk-1");
  walk l := rev l;
  home_directory := inr "/root";
  open_store _ := inr New_store;
  read_error := None;
  clock := GoTime.Time_zero;
  publishing := PublishOk;
  MkdirAll _ := None;
  log_name := "20260101-000000";
  open_log _ := None;
  close_log := Some (errors_New "disk full");
  glob _ := Ok [];
  read_skill _ := Err (errors_New "no file");
  skill_id n := "skill" +:+ Itoa (Z.of_nat n);
  uuid_New n := "00000000-0000-4000-8000-00000000000" +:+ Itoa (Z.of_nat n);
  write_error _ := None;
  ctx := None;
  ctx_at_end := None;
  coordinate d := ([(dep_session d, sample_item); ("other", sample_item)], None) |}.

Definition sample_start : gmap string string := {["HOME" := "/root"]}.

Definition sample_run : rstate unit * result unit :=
  Run sample_world (main_config sample_machine) (MkRun (MkProcess sample_start []) New_store []).

Lemma sample_start_ok : environ_ok sample_start.
Proof. unfold sample_start. intros n v H. apply lookup_singleton_Some in H as [<- <-]. by vm_compute. Qed.

(** What kind of action it is. *)
Definition brief {J} (a : action J) : string :=
  match a with
  | Opened Environment => "+env" | Closed Environment => "-env"
  | Opened LlmClient => "+client" | Closed LlmClient => "-client"
  | Opened SessionLog => "+log" | Closed SessionLog => "-log"
  | Opened RunContext => "+ctx" | Closed RunContext => "-ctx"
  | Opened RunTools => "+tools" | Closed RunTools => "-tools"
  | Opened Observer => "+obs" | Closed Observer => "-obs"
  | Remotes (NewRemote _) => "connect" | Remotes CloseRemote => "disconnect"
  | MadeDirectory p => p | Canceled => "cancel"
  | Wrote LogFile _ => "log" | Wrote Stdout _ => "out" | Wrote Stderr _ => "err"
  | Coordinated _ => "run"
  end.

(** The log cannot be closed, so the run ends with that error. *)
Lemma run_unwinds_witness :
  (brief <$> done sample_run.1)
  = ["+env"; "connect"; "+client"; "/logs"; "+log"; "+ctx";
     "/root/.local/state/unreal-agent/sessions/operations/00000000-0000-4000-8000-000000000000";
     "+tools"; "+obs"; "run"; "log"; "out"; "-obs"; "cancel"; "-tools"; "-ctx"; "-log"; "disconnect"; "-client"; "-env"]
  ∧ sample_run.2 = Err (errors_New "close session log: disk full")
  ∧ proc sample_run.1 = MkProcess sample_start [] ∧ bracket (done sample_run.1) [] = Some [] ∧ pools (done sample_run.1) = 0.
Proof.
  split; [vm_compute; reflexivity|]. split; [vm_compute; reflexivity|].
  pose proof (run_unwinds sample_world (main_config sample_machine) sample_start New_store sample_start_ok
                (λ l, symmetry (Permutation_rev l)) (main_providers_open sample_machine)) as H.
  unfold sample_run. destruct (Run _ _ _) as [s r]. exact H.
Defined.

Definition last_coordinated {J} (l : list (action J)) : option (dependencies J) :=
  last (omap (λ a, match a with Coordinated d => Some d | _ => None end) l).

Lemma last_coordinated_in {J} (l : list (action J)) d : last_coordinated l = Some d → Coordinated d ∈ l.
Proof.
  intros (a & Ha & Hd)%last_Some_elem_of%list_elem_of_omap. destruct a; try done. by injection Hd as ->.
Qed.

Definition sample_dependencies : option (dependencies unit) := last_coordinated (done sample_run.1).

(** The kinds of what its inbox holds. *)
Definition sample_kinds : option (list InputKind) :=
  (λ d, input.Kind <$> queued (dep_inbox d)) <$> sample_dependencies.

Lemma coordinator_serves_request_witness :
  sample_kinds = Some [InputControl; InputExternal; InputControl] ∧
  ∃ d f input parsed messages, sample_dependencies = Some d ∧ parse_flags sample_world = inr f ∧
      given sample_world f input ∧ DecodeRequest input = Ok parsed ∧
      validateRequest (uuid_Parse sample_world) parsed = Ok messages ∧ serves f parsed messages d.
Proof.
  assert (sample_kinds = Some [InputControl; InputExternal; InputControl]) as H by (vm_compute; reflexivity).
  split; [exact H|]. unfold sample_kinds in H. destruct sample_dependencies as [d|] eqn:E; [|done]. clear H.
  destruct (coordinator_serves_request sample_world sample_machine sample_start New_store d)
    as (f & input & parsed & messages & H); [apply sample_start_ok|intros l; symmetry; apply Permutation_rev| |].
  - unfold sample_dependencies, sample_run in E. exact (last_coordinated_in _ _ E).
  - exists d, f, input, parsed, messages. split; [reflexivity|exact H].
Defined.

(** ** What the observer writes *)

Section Observed.
Context {J : Type} (w : world J).

Definition own_items (id : SessionID) (items : list (SessionID * SItem)) : list SItem :=
  (filter (λ p, p.1 = id) items).*2.

(** The writes of an item that can be encoded: its line, to each writer. *)
Definition item_writes (ws : list writer) (i : SItem) : list (action J) :=
  match Marshal SItem_codec i with
  | Ok encoded => (λ to, Wrote to (line (value_text encoded))) <$> ws
  | _ => []
  end.

Lemma observe_failed id ws items e s : observe w id ws items (Some e) s = (s, Ok (Some e)).
Proof. induction items as [|[session i] items IH]; [done|]. simpl. by destruct (negb _). Qed.

(** No write from the [lo]-th up to the [hi]-th failed. *)
Definition clean (lo hi : nat) : Prop := ∀ k, (lo ≤ k < hi)%nat → write_error w k = None.

Lemma clean_trans lo mid hi : clean lo mid → clean mid hi → clean lo hi.
Proof. intros H1 H2 k Hk. destruct (decide (k < mid)%nat); [apply H1|apply H2]; lia. Qed.

Lemma writes_app (l k : list (action J)) : writes (l ++ k) = (writes l + writes k)%nat.
Proof. unfold writes. by rewrite List.filter_app, length_app. Qed.

Lemma writes_line (ws : list writer) text : writes ((λ to, Wrote to text) <$> ws : list (action J)) = length ws.
Proof. induction ws as [|to ws IH]; [done|]. exact (f_equal S IH). Qed.

(** What the writes of a text end with: all were made, or one failed and none
    came after it. *)
Definition written (ws : list writer) (text : string) (before : nat) (first : list (action J)) (e : option error) : Prop :=
  match e with
  | None => first = (λ to, Wrote to text) <$> ws ∧ clean before (before + length ws)
  | Some e => ∃ j, (j < length ws)%nat ∧ first = (λ to, Wrote to text) <$> take (S j) ws ∧
                clean before (before + j) ∧ write_error w (before + j) = Some e
  end.

Lemma write_all_trace ws text s :
  ∃ first e, write_all w ws text s = (MkRun (proc s) (store s) (done s ++ first), Ok e) ∧
    written ws text (writes (done s)) first e.
Proof.
  revert s. induction ws as [|to ws IH]; intros s.
  - exists [], None. rewrite app_nil_r. destruct s. split; [done|]. split; [done|]. intros k Hk. simpl in Hk. lia.
  - simpl. unfold mbind, M_bind, write at 1.
    destruct (write_error w (writes (done s))) as [e|] eqn:Ew.
    + exists [Wrote to text], (Some e). split; [done|]. exists 0%nat. rewrite Nat.add_0_r. split; [simpl; lia|].
      split; [done|]. split; [intros k Hk; lia|done].
    + destruct (IH ((does (Wrote to text) s).1)) as (first & e & -> & He).
      exists (Wrote to text :: first), e. simpl in *. rewrite <- (assoc_L app). split; [done|].
      rewrite writes_app in He. change (writes [Wrote to text]) with 1%nat in He.
      assert (∀ n, clean (writes (done s) + 1) n → clean (writes (done s)) n) as Hc.
      { intros n H k Hk. destruct (decide (k = writes (done s))) as [->|]; [done|]. apply H. lia. }
      destruct e as [e|].
      * destruct He as (j & Hj & -> & Hcl & Hfail). exists (S j). split; [simpl; lia|]. split; [done|].
        rewrite <- Nat.add_assoc in Hcl, Hfail. split; [by apply Hc|done].
      * destruct He as [-> Hcl]. rewrite <- Nat.add_assoc in Hcl. split; [done|]. by apply Hc.
Qed.

(** An item was not written: it cannot be encoded, or one of its writes failed,
    and that is the error. *)
Definition failed_item (ws : list writer) (i : SItem) (before : nat) (first : list (action J)) (e : error) : Prop :=
  let n := Itoa (sitem.Sequence' i) +:+ ": " in
  match Marshal SItem_codec i with
  | Err e' => first = [] ∧ e = Errorf_w ("encode session item " +:+ n) e'
  | Ok encoded => ∃ e', written ws (line (value_text encoded)) before first (Some e') ∧
                    e = Errorf_w ("write session item " +:+ n) e'
  | Panic _ => False
  end.

(** One item: its writes, or an error after some of them. *)
Lemma writeSessionItem_trace ws i s :
  ∃ first e, writeSessionItem w ws i s = (MkRun (proc s) (store s) (done s ++ first), Ok e) ∧
    match e with
    | None => first = item_writes ws i ∧ is_ok (Marshal SItem_codec i) = true ∧
              clean (writes (done s)) (writes (done s ++ first))
    | Some e => failed_item ws i (writes (done s)) first e
    end.
Proof.
  unfold writeSessionItem, failed_item, item_writes. cbv zeta. pose proof (Marshal_returns SItem_codec i) as Hr.
  destruct (Marshal SItem_codec i) as [v|e|t]; [| |done].
  - unfold mbind, M_bind. destruct (write_all_trace ws (line (value_text v)) s) as (first & e & -> & He).
    exists first, (Errorf_w ("write session item " +:+ Itoa (sitem.Sequence' i) +:+ ": ") <$> e).
    split; [done|]. destruct e as [e|]; [by exists e|]. destruct He as [-> Hc]. simpl.
    by rewrite writes_app, writes_line.
  - exists [], (Some (Errorf_w ("encode session item " +:+ Itoa (sitem.Sequence' i) +:+ ": ") e)).
    rewrite app_nil_r. by destruct s.
Qed.

(** C16: The observer of a run writes what the session stores.  Whatever is
    stored and wherever a write fails: each item of the session, in the order
    of storage and no item of another session, is one line of JSON, written
    to the log first if there is one.  The observer stops at the first item that
    cannot be encoded or of which a write fails, at that write: then the run is
    canceled, nothing more is written, and the error of that encoding or that
    write is the one that is kept.  Otherwise every item is written, no write
    failed, the run is not canceled and no error is kept. *)
Theorem observed_in_order id ws items s :
  let own := own_items id items in
  ∃ n tail, let '(s', r) := observe w id ws items None s in
    let kept := done s ++ concat (item_writes ws <$> take n own) in
    done s' = kept ++ tail ∧
    Forall (λ i, is_ok (Marshal SItem_codec i) = true) (take n own) ∧
    clean (writes (done s)) (writes kept) ∧
    (r = Ok None ∧ n = length own ∧ tail = [] ∨
     ∃ i e first, r = Ok (Some e) ∧ own !! n = Some i ∧ failed_item ws i (writes kept) first e ∧
       tail = first ++ [Canceled]).
Proof.
  assert (∀ n, clean n n) as Hrefl by (intros n k Hk; lia).
  revert s. induction items as [|[session i] items IH]; intros s; cbv zeta.
  - exists 0%nat, []. simpl. rewrite !app_nil_r. split_and!; [done|constructor|apply Hrefl|by left].
  - simpl. unfold own_items. destruct (decide (session = id)) as [->|Hne].
    + rewrite bool_decide_true, filter_cons_True by done. simpl.
      unfold mbind, M_bind. destruct (writeSessionItem_trace ws i s) as (first & [e|] & -> & He).
      * exists 0%nat, (first ++ [Canceled]). unfold does, modify. simpl. rewrite observe_failed. simpl.
        rewrite app_nil_r, <- (assoc_L app).
        split_and!; [done|constructor|apply Hrefl|]. right. by exists i, e, first.
      * destruct He as (-> & Hok & Hc). destruct (IH (MkRun (proc s) (store s) (done s ++ item_writes ws i))) as (n & tail & H).
        exists (S n), tail. destruct (observe _ _ _ _ _ _) as [s' r]. cbv zeta in H. destruct H as (H1 & H2 & H3 & H4).
        simpl in *. rewrite (assoc_L app (done s)). split_and!; [exact H1|by constructor| |].
        -- exact (clean_trans _ _ _ Hc H3).
        -- destruct H4 as [(-> & -> & ->)|H4]; [by left|by right].
    + rewrite bool_decide_false, filter_cons_False by done. simpl. apply IH.
Qed.
End Observed.
